(* ===== verification/_CoqProject ===== *)
-Q . S2P
Prelude.v
Params.v
Emission.v
Codec.v
Tx.v
TxWire.v
PagedSpend.v
Fees.v
U256.v
Difficulty.v
Rules.v
Allocator.v
Assembly.v
Stream.v
Gf2.v
Tower.v
Flat.v
Poseidon.v
Sponge.v
IntegerProgram.v
Contract.v
ContractApps.v
Merkle.v
TxTree.v
Header.v
Pow.v
HeaderRules.v
SparseMerkle.v
StateTree.v
HeapTree.v
HotSegments.v
StreamRoot.v
Segmented.v
Resize.v
ChainState.v
ChainInvariant.v
ApplyTx.v
Transition.v
Frontier.v
Residency.v
BlockApply.v
BlockWire.v
StateDelta.v
Witness.v
BlockRules.v
Undo.v
Ledger.v
Mempool.v
PoolPolicy.v
AsyncMempool.v
