(* ===== verification/Prelude.v ===== *)
(** * Parano1c: a verification development of the consensus core

    ** The program

    Parano1c is a proof-of-work chain whose state is a vector of slots.  A node
    accepts a block when its header follows its parent, its bodies form a
    coinbase, an optional development payout and a stream of paged spends, the
    fees and the issuance are within the rules, and the roots match.  All
    hashing is Poseidon2b over the binary tower field GF(2^128), computed in a
    second ("flat") basis for speed.

    The crates modelled here are [noid_core] (fields), [noid_poseidon2b]
    (hashing), [noid_tx] (bodies and spends), of [noid_chain] the consensus
    rules, the exact state (the slot vector in segments, its sparse Merkle tree
    and the transitions a block makes on it), blocks with their validation, undo
    and wire form and the transaction pool, of [noid_mempool] the pool a node
    runs around it, and of [noid_block] the builder of the state witness.  A slot
    may also be owned by a contract object, whose program and rules every spend
    of it obeys.

    ** The files

    - [Prelude]: results and early return, machine integers with the Rust
      operators, little-endian bytes, the tactics and hint databases, and the
      lemmas on lists, sets and XOR-linear maps the components share.
    - [Params]: constants and proof classes ([consensus/params.rs]), the
      height-selected rule set ([consensus/forks.rs]).
    - [Emission]: subsidies and the development allocation
      ([consensus/emission.rs], [development_allocation.rs]).
    - [Codec]: parsers with typed errors, the [LawfulCodec] interface every wire
      format instantiates, fixed-size formats.
    - [Tx], [TxWire]: transaction bodies, their semantics and hash preimage
      ([noid_tx/src/types.rs], [public_logic.rs], [body_hash.rs]) and their
      codec ([noid_tx/src/wire.rs]).
    - [PagedSpend]: groups of pages ([noid_tx/src/paged_spend.rs]).
    - [Fees]: the fee breakdown and the coinbase bound ([consensus/fees.rs]).
    - [U256], [Difficulty]: limb arithmetic, the ASERT rule, work and fork
      choice ([consensus/difficulty.rs], [fork_choice.rs]).
    - [Rules]: errors, timestamps, state expansion, transaction epochs
      ([consensus/mod.rs], [timestamps.rs], [slot_expansion.rs],
      [epoch_anchor.rs]).
    - [Allocator], [Assembly], [Stream]: slot hints, conflict resolution and
      order of a block, the page stream and the block layout
      ([consensus/allocator.rs], [conflict.rs], [ordering.rs], [checks.rs],
      [paged_spend.rs], [block.rs]).
    - [Gf2], [Tower], [Flat]: characteristic-two fields, the packed tower
      ([noid_core/src/tower]) and the flat basis ([hardware.rs]).
    - [Poseidon], [Sponge]: the permutation, the sponges, domain tags,
      compression, hash primitives and channels ([noid_poseidon2b/src]).
    - [IntegerProgram], [Contract], [ContractApps]: the instruction set of
      contracts and its interpreter ([experimental_object/integer_program.rs]),
      openings, rules, the check and construction of calls and their wire forms
      ([noid_tx/src/experimental_object.rs], [policy.rs]), and the six application
      constructors ([applications.rs]).
    - [Merkle], [TxTree]: perfect binary trees and the transaction tree
      ([tx_tree.rs]).
    - [Header], [Pow], [HeaderRules]: headers and their codec
      ([block_header.rs], [wire.rs]), proof of work ([consensus/pow.rs],
      [batch.rs]) and header validation ([consensus/header.rs]).
    - [SparseMerkle], [StateTree]: the sparse tree over slots, its multiproofs,
      structural plans and frontier capacities ([sparse_merkle.rs]), first for
      any node hash, then for the slots and hashes of the state
      ([exact_state_hash.rs], [fri_state.rs]).
    - [HeapTree], [HotSegments], [StreamRoot]: trees in an array, the hot tree of
      a segment and its byte-budgeted cache ([exact_segment_cache.rs]), the
      streaming root builder and the compact tree of segment roots ([state.rs]).
    - [Segmented], [Resize]: the segmented slot vector with residency, eviction,
      raw flushes, expansion and shrinking ([segmented_state.rs]).
    - [ChainState], [ChainInvariant], [ApplyTx], [Transition], [Frontier],
      [Residency]: the chain state ([state.rs]), its invariant, and in one file
      each the application of transactions, of proven block transitions, the
      sibling frontier and the construction and restoration of segments.
    - [BlockApply], [BlockWire]: the sequential interpreter of blocks, the genesis
      block and the byte codec of blocks ([block.rs]).
    - [StateDelta], [Witness]: the action surface of a block ([state_delta.rs],
      [noid_tx/src/claims.rs]) and the builder of the frontier and path inputs of
      a history step ([noid_block/src/history_step_witness.rs]).
    - [BlockRules]: the resource preflight, fee policy, system mints, the native
      checks and validation through the interpreter ([consensus/validation.rs]).
    - [Undo]: undo logs, their replay and the rollback loop of a reorganisation
      ([consensus/da_prune.rs], [reorg.rs], [storage/mdbx_context.rs]); the store
      it reads segments from is a parameter.
    - [Ledger]: the genesis header ([consensus/genesis.rs]) and the chains of
      blocks that validation accepts.
    - [Mempool]: the transaction pool ([mempool.rs]).
    - [PoolPolicy], [AsyncMempool]: the pool of a node.  First its parts: errors,
      fee floor, resource classes, the chain view with its read cache, decoded
      intents and the revalidation of calls ([noid_mempool/src/error.rs],
      [event.rs], [floor.rs], [config.rs], [view.rs], [contracts.rs]).  Then the
      state under the lock, submission cut at its two locked sections, blocks and
      reorganisations ([pool.rs]), and the relation [reaches] that interleaves
      them.  The authorization verifiers and the segment store are parameters.

    The exact hash is the class [ExactHash] and the raw segment commitment the
    class [RawCommit]: the state components are proved for every instance, and
    the properties are stated for [StateHash] and any raw commitment.

    A [Result] is [result], a panic is [None] (or [Panic] in [exec], which also
    carries errors), a [for] loop with early return is
    [fold_result], a mutated object is passed and returned.  Integers are [Z]
    with their wrap-around or saturation written out; digests and byte strings
    are lists of byte values with [bytes_ok].  The transaction files take the
    hash as a parameter, so that their results hold for any hash.

    ** What the theorems show

    - Exact acceptance: the validators of bodies, paged spends, page streams,
      block layouts, headers and timestamps accept precisely the inputs a
      declarative predicate describes, and report its facts.
    - Exact arithmetic: the limb routines compute the ASERT target (exactly below
      the short circuit at a net shift of 46, which is characterised) and the
      block work; fees, subsidies and the development allocation conserve value
      within their bounds; fork choice is a strict total order.
    - Algebra: every tower level is a field, the flat basis is isomorphic to it,
      the flat permutation computes the tower schedule and is a bijection.
    - Codecs are bijections onto what they accept.
    - Binding: ids, roots, inclusion paths and header identities determine their
      preimage, or an explicitly computed pair of inputs collides.
    - Refinement and batching: the buffered sponge hashes the concatenation, the
      batched nonce hasher with its reused scratch gives the scalar digests, and
      the nonce search returns the least accepted nonce.
    - State: the segmented vector, with lazily rebuilt trees, caches, evicted
      segments and a changing domain, implements the plain slot vector in every
      reachable state; transactions and block transitions succeed exactly when
      they should and return the Merkle root of the new slots; a failed block
      transition changes nothing.  The supply is the sum of the slots; the live
      count is at most the number of occupied slots, and equal to it as long as no
      input claims what an empty slot holds.
    - Proofs of state: frontiers and multiproofs reconstruct the root before and
      after an update, and authenticate what they open; restored segments are
      the committed ones.
    - Equivalence of the optimised trees (heaps with early exit, streamed blocks,
      overlays, structural plans) with the reference tree.
    - Blocks: the preflight, the native checks, consensus validation and the
      interpreter each accept precisely the blocks a declarative predicate
      describes and never panic on well-formed bodies; the action surface takes
      exactly the claims the interpreter takes; where the witness builder succeeds
      so does the interpreter, given the layout and the transaction root, and
      conversely where the live count is exact and no input claims an empty slot.
    - Chains: accepted header chains keep height, linkage, target and depth
      invariants, by induction on the chain.  Along every chain of accepted blocks
      from genesis the state is the one the tip header commits to and the supply
      is bounded by the schedule.  Rolling back with the recorded undo logs
      succeeds and restores the ancestor if the store holds what is evicted and, for
      an ancestor below an expansion, nothing is evicted.
    - Pool: in every reachable pool the entries are valid and conflict-free and
      the indices describe them; block selection is the greedy packing by fee.
      However submissions, blocks and reorganisations interleave, whatever a node
      holds in its pool was authorized and passes the checks of the current view,
      and the next block can include it if its slots lie in the domain, which they
      do unless a view shrank the domain ([AsyncMempool.shrunk_view_keeps] shows
      the exception); each operation admits, keeps and removes exactly what these
      checks say.
    - Contracts: programs run exactly their semantics; calls are accepted exactly
      under the committed rules, and the builder makes exactly the acceptable
      ones.  Over the whole life of an instance its terms hold: the period budget,
      the vesting and payment schedules, and that recovery is always possible.

    ** Fuel

    Loops that are not structural carry fuel with a proof that it suffices: the
    page-group loop uses the number of pages, the nonce search the size of its
    range, the tree loops the number of leaves, the limb division the number of
    bits.  In the state, an update climbs at most the depth of its tree, a gap of
    a streamed tree takes at most [2 * depth + 1] blocks, and shrinking or
    catching up with an expansion takes at most one round per level, as does the
    expansion loop of a block, whose fuel is the depth of its header; the layers
    of the transaction tree have its number of leaves as fuel.

    ** Remarks

    The hypotheses [body_wf], [header_wf] and [bytes_ok] say that integers and
    arrays are within their Rust types.  [real_spends] says that no live input
    claims the value of an empty slot.  An input of a positive amount or of an
    owner other than the zero address never does; the native rules leave the
    remaining case to the authorization of the zero address
    ([ApplyTx.phantom_spend] shows what it does).  No theorem excludes such inputs:
    they only lower the live count, so [real_spends] is a premise of the clauses
    that say the count is exact ([ChainInvariant.counted]).  Live outputs of amount
    zero are accepted too ([Contract.zero_output_accepted]).  A submission is cut
    where the code releases the lock, so that everything else may run in between;
    reads of the chain view are modelled without their cache, which
    [PoolPolicy.try_slot_transparent] shows to make no difference.  A slot beyond
    the domain of a view reads as empty there; [kept] are the checks as the code
    makes them, [includable] adds that the slots lie in the domain.  The theorems treat the hardcoded genesis root as any other root: a
    genesis block is accepted when its root is that of the empty state.  The two
    do agree: evaluating [zero_root 24] of the hash model, which takes minutes
    and is therefore not part of the build, gives exactly [GENESIS_STATE_ROOT].

    ** Not modelled

    The proof systems ([noid_fri], [noid_gkr], [noid_recursive], the IVC crates):
    large interactive-proof code that deserves a development of its own; with
    them the raw commitment of a segment, which the state keeps beside the exact
    root.  CPU
    intrinsics and vector kernels: their scalar lanes are modelled.  Storage
    engines, networking, RPC, wallets, miners and user interfaces: input and
    output over third-party libraries; with them the storage transactions around
    a rollback and, of the pool, its lock, workers, event channel, metadata
    snapshots, selection wrappers and the view built from storage.  Of [state_delta.rs] the
    padded witness of the older proof relation, which belongs to its circuit.
    Differential test helpers such as [apply_state_delta].  The bech32 text form
    of addresses: a third-party codec. *)

From Stdlib Require Import ZArith Lia.
From stdpp Require Import base numbers list option gmap.

Open Scope Z_scope.

(** ** Results

    Rust's [Result<A, E>], with the error type first so that [result E] is a
    monad for stdpp's [x ← m; k] notation (the source's [?] operator). *)

Inductive result (E A : Type) : Type :=
| Ok (a : A)
| Err (e : E).

Arguments Ok {E A} a.
Arguments Err {E A} e.

#[export] Instance result_ret {E} : MRet (result E) := fun A a => Ok a.

#[export] Instance result_bind {E} : MBind (result E) := fun A B f m =>
  match m with Ok a => f a | Err e => Err e end.

#[export] Instance result_fmap {E} : FMap (result E) := fun A B f m =>
  match m with Ok a => Ok (f a) | Err e => Err e end.

(** [if !b { return Err(e) }]. *)
Definition ensure {E} (b : bool) (e : E) : result E unit :=
  if b then Ok tt else Err e.

(** [opt.ok_or(e)?]. *)
Definition ok_or {E A} (o : option A) (e : E) : result E A :=
  match o with Some a => Ok a | None => Err e end.

(** [r.map_err(f)?]. *)
Definition map_err {E F A} (f : E -> F) (r : result E A) : result F A :=
  match r with Ok a => Ok a | Err e => Err (f e) end.

Definition is_ok {E A} (r : result E A) : bool :=
  match r with Ok _ => true | Err _ => false end.

(** A [for] loop with early return: [body] runs over the items, threading the
    accumulator and stopping at the first error. *)
Fixpoint fold_result {E A B} (body : B -> A -> result E B) (acc : B) (l : list A)
  : result E B :=
  match l with
  | [] => Ok acc
  | x :: l' => acc' ← body acc x; fold_result body acc' l'
  end.

(** ** Outcomes: a result, an error, or a panic *)

Inductive exec (E A : Type) : Type :=
| Return (a : A)
| Fail (e : E)
| Panic.
Arguments Return {E A} a.
Arguments Fail {E A} e.
Arguments Panic {E A}.

#[export] Instance exec_ret {E} : MRet (exec E) := fun A a => Return a.
#[export] Instance exec_bind {E} : MBind (exec E) := fun A B f m =>
  match m with Return a => f a | Fail e => Fail e | Panic => Panic end.

Definition lift {E A} (r : result E A) : exec E A :=
  match r with Ok a => Return a | Err e => Fail e end.
Definition expect {E A} (o : option A) : exec E A :=
  match o with Some a => Return a | None => Panic end.

Definition fail_as {E F A} (f : E -> F) (m : exec E A) : exec F A :=
  match m with Return a => Return a | Fail e => Fail (f e) | Panic => Panic end.

Fixpoint collect {E A B} (f : A -> exec E B) (l : list A) : exec E (list B) :=
  match l with
  | [] => mret []
  | x :: l => y ← f x; ys ← collect f l; mret (y :: ys)
  end.

Fixpoint exec_fold {E A B} (f : B -> A -> exec E B) (acc : B) (l : list A) : exec E B :=
  match l with
  | [] => mret acc
  | x :: l => acc ← f acc x; exec_fold f acc l
  end.

(** ** Machine integers

    An unsigned integer of width [w] is a [Z] in [0, 2^w).  The operators are
    the ones of the Rust standard library that the source calls. *)

Definition in_range (w z : Z) : Prop := 0 <= z < 2 ^ w.
Abbreviation u8 := (in_range 8) (only parsing).
Abbreviation u16 := (in_range 16) (only parsing).
Abbreviation u32 := (in_range 32) (only parsing).
Abbreviation u64 := (in_range 64) (only parsing).
Abbreviation u128 := (in_range 128) (only parsing).

Definition in_rangeb (w z : Z) : bool := (0 <=? z) && (z <? 2 ^ w).

Definition umax (w : Z) : Z := 2 ^ w - 1.
Abbreviation U32_MAX := (umax 32) (only parsing).
Abbreviation U64_MAX := (umax 64) (only parsing).

Definition wrapping_add (w a b : Z) : Z := (a + b) mod 2 ^ w.
Definition wrapping_sub (w a b : Z) : Z := (a - b) mod 2 ^ w.
Definition wrapping_mul (w a b : Z) : Z := (a * b) mod 2 ^ w.
Definition saturating_add (w a b : Z) : Z := Z.min (a + b) (umax w).
Definition saturating_sub (a b : Z) : Z := Z.max (a - b) 0.
Definition saturating_mul (w a b : Z) : Z := Z.min (a * b) (umax w).
Definition checked_add (w a b : Z) : option Z :=
  if a + b <? 2 ^ w then Some (a + b) else None.
Definition checked_sub (a b : Z) : option Z :=
  if b <=? a then Some (a - b) else None.
Definition checked_mul (w a b : Z) : option Z :=
  if a * b <? 2 ^ w then Some (a * b) else None.
(** [checked_shl(1, n)] for an unsigned width [w]. *)
Definition checked_shl1 (w n : Z) : option Z :=
  if n <? w then Some (2 ^ n) else None.
Definition div_ceil (a b : Z) : Z := (a + b - 1) / b.

(** ** Bytes, little endian *)

Definition byte_ok (b : Z) : Prop := in_range 8 b.
Definition bytes_ok (l : list Z) : Prop := Forall byte_ok l.

(** [x.to_le_bytes()] for an integer of [n] bytes. *)
Fixpoint to_le_bytes (n : nat) (x : Z) : list Z :=
  match n with
  | O => []
  | S n' => x mod 256 :: to_le_bytes n' (x / 256)
  end.

(** [from_le_bytes]. *)
Fixpoint from_le_bytes (l : list Z) : Z :=
  match l with
  | [] => 0
  | b :: l' => b + 256 * from_le_bytes l'
  end.

(** A 32-byte array. *)
Definition array_ok (n : nat) (l : list Z) : Prop :=
  length l = n /\ bytes_ok l.
Abbreviation digest_ok := (array_ok 32) (only parsing).

(** Sum of a list of integers ([iter().sum()] without overflow). *)
Definition Zsum (l : list Z) : Z := foldr Z.add 0 l.

(** ** Tactics *)

(** Decompose an equation [m ≫= f = Ok x] (and the guards in it) into the
    equations of its steps. *)
Lemma bind_ok_inv {E A B} (m : result E A) (f : A -> result E B) b :
  m ≫= f = Ok b -> exists a, m = Ok a /\ f a = Ok b.
Proof. destruct m as [a|e]; cbn; [eauto|discriminate]. Qed.

Lemma bind_ok_iff {E A B} (m : result E A) (f : A -> result E B) b :
  m ≫= f = Ok b <-> exists a, m = Ok a /\ f a = Ok b.
Proof.
  split; [apply bind_ok_inv|]. intros (a & -> & H). exact H.
Qed.

Lemma ensure_ok_iff {E} b (e : E) u : ensure b e = Ok u <-> b = true.
Proof. destruct u, b; cbn; split; congruence. Qed.

Lemma ok_or_ok_iff {E A} (o : option A) (e : E) a : ok_or o e = Ok a <-> o = Some a.
Proof. destruct o; cbn; split; congruence. Qed.

Lemma map_err_ok_iff {E F A} (f : E -> F) (r : result E A) a :
  map_err f r = Ok a <-> r = Ok a.
Proof. destruct r; cbn; split; congruence. Qed.

Ltac inv_ok_step :=
  match goal with
  | H : _ ≫= _ = Ok _ |- _ =>
      let x := fresh "x" in let H1 := fresh "Hok" in
      apply bind_ok_inv in H; destruct H as (x & H1 & H)
  | H : ensure _ _ = Ok _ |- _ => apply ensure_ok_iff in H
  | H : ok_or _ _ = Ok _ |- _ => apply ok_or_ok_iff in H
  | H : map_err _ _ = Ok _ |- _ => apply map_err_ok_iff in H
  | H : Ok _ = Ok _ |- _ => injection H as H
  | H : Some _ = Some _ |- _ => injection H as H
  | H : Err _ = Ok _ |- _ => discriminate H
  | H : None = Some _ |- _ => discriminate H
  | x : unit |- _ => destruct x
  end.
Ltac inv_ok := repeat inv_ok_step.

(** Split on the first boolean or decidable test in sight. *)
Ltac case_test :=
  match goal with
  | |- context [if ?b then _ else _] => destruct b eqn:?
  | H : context [if ?b then _ else _] |- _ => destruct b eqn:?
  end.

(** Turn boolean tests on integers into propositions. *)
Ltac boolify :=
  repeat match goal with
  | H : (_ && _)%bool = true |- _ => apply andb_true_iff in H; destruct H
  | H : (_ || _)%bool = false |- _ => apply orb_false_iff in H; destruct H
  | H : negb _ = true |- _ => apply negb_true_iff in H
  | H : negb _ = false |- _ => apply negb_false_iff in H
  | H : (_ <=? _) = true |- _ => apply Z.leb_le in H
  | H : (_ <=? _) = false |- _ => apply Z.leb_gt in H
  | H : (_ <? _) = true |- _ => apply Z.ltb_lt in H
  | H : (_ <? _) = false |- _ => apply Z.ltb_ge in H
  | H : (_ =? _) = true |- _ => apply Z.eqb_eq in H
  | H : (_ =? _) = false |- _ => apply Z.eqb_neq in H
  end.

(** ** Generic lemmas *)

Create HintDb noid discriminated.

Lemma pow2_pos n : 0 <= n -> 0 < 2 ^ n.
Proof. intros; apply Z.pow_pos_nonneg; lia. Qed.

Lemma testbit_small w x n : 0 <= x < 2 ^ w -> w <= n -> Z.testbit x n = false.
Proof.
  intros Hx Hn. destruct (Z.eq_dec x 0) as [->|Hne]; [apply Z.bits_0|].
  apply Z.bits_above_log2; [lia|].
  apply Z.lt_le_trans with w; [|exact Hn]. apply Z.log2_lt_pow2; lia.
Qed.

Lemma land_pow2 x n :
  0 <= n -> Z.land x (2 ^ n) = if Z.testbit x n then 2 ^ n else 0.
Proof.
  intros Hn. apply Z.bits_inj'. intros m Hm.
  rewrite Z.land_spec, Z.pow2_bits_eqb by lia.
  destruct (Z.eqb_spec n m) as [<-|Hne].
  - destruct (Z.testbit x n); rewrite ?Z.pow2_bits_true, ?Z.bits_0; auto.
  - rewrite andb_false_r.
    destruct (Z.testbit x n); rewrite ?Z.pow2_bits_false, ?Z.bits_0; auto.
Qed.

Lemma lor_lt_pow2 n a b :
  0 <= n -> 0 <= a < 2 ^ n -> 0 <= b < 2 ^ n -> Z.lor a b < 2 ^ n.
Proof.
  intros Hn Ha Hb.
  assert (Hpos : 0 <= Z.lor a b) by (apply Z.lor_nonneg; lia).
  destruct (Z.eq_dec (Z.lor a b) 0) as [->|Hne]; [apply pow2_pos; lia|].
  apply Z.log2_lt_pow2; [lia|]. rewrite Z.log2_lor by lia.
  apply Z.max_lub_lt; (destruct (Z.eq_dec a 0), (Z.eq_dec b 0); subst;
    [exfalso; apply Hne; reflexivity | | |]);
    try (apply Z.log2_lt_pow2; lia); cbn;
    assert (n <> 0) by (intros ->; change (2 ^ 0) with 1 in *; lia); lia.
Qed.

(** Or-ing disjoint bit ranges is addition. *)
Lemma lxor_range w a b : 0 <= w -> in_range w a -> in_range w b -> in_range w (Z.lxor a b).
Proof.
  intros Hw [Ha0 Ha1] [Hb0 Hb1].
  assert (H0 : 0 <= Z.lxor a b) by (apply Z.lxor_nonneg; tauto).
  split; [exact H0|]. destruct (Z.eq_dec (Z.lxor a b) 0) as [->|Hne]; [now apply pow2_pos|].
  apply Z.log2_lt_pow2; [lia|]. eapply Z.le_lt_trans; [apply Z.log2_lxor; lia|].
  assert (L : forall x, 0 <= x < 2 ^ w -> x <> 0 -> Z.log2 x < w)
    by (intros x Hx Hx0; apply Z.log2_lt_pow2; lia).
  assert (0 < w) by (destruct (Z.eq_dec w 0) as [->|]; [|lia];
    exfalso; apply Hne; replace a with 0 by lia; replace b with 0 by lia; reflexivity).
  destruct (Z.eq_dec a 0) as [->|Ha], (Z.eq_dec b 0) as [->|Hb];
    try specialize (L a ltac:(lia) Ha) as La; try specialize (L b ltac:(lia) Hb) as Lb;
    change (Z.log2 0) with 0; lia.
Qed.

Lemma lor_shiftl_add y c k :
  0 <= k -> 0 <= y -> 0 <= c < 2 ^ k -> Z.lor (Z.shiftl y k) c = y * 2 ^ k + c.
Proof.
  intros Hk Hy Hc. pose proof (pow2_pos k Hk). rewrite Z.shiftl_mul_pow2 by lia.
  symmetry. apply Z.bits_inj'. intros n Hn. rewrite Z.lor_spec. destruct (Z_lt_le_dec n k).
  - rewrite Z.mul_pow2_bits_low by lia. cbn [orb].
    rewrite <- (Z.mod_pow2_bits_low _ k n) by lia.
    rewrite Z.add_comm, Z.mod_add by lia. apply Z.mod_pow2_bits_low. lia.
  - rewrite (testbit_small k c n) by lia. rewrite orb_false_r.
    replace n with ((n - k) + k) by lia. rewrite <- !Z.div_pow2_bits by lia.
    rewrite Z.add_comm, Z.div_add, Z.div_mul, Z.div_small by lia. reflexivity.
Qed.

(** Clearing the low [k] bits of a [w]-bit value leaves nothing exactly when
    the value is below [2^k]. *)
Lemma land_high_mask w k x :
  0 <= k <= w -> in_range w x ->
  (Z.land x (umax w - (2 ^ k - 1)) =? 0) = (x <? 2 ^ k).
Proof.
  unfold in_range, umax. intros Hk Hx.
  replace (2 ^ w - 1 - (2 ^ k - 1)) with (Z.shiftl (Z.ones (w - k)) k).
  2: { rewrite Z.shiftl_mul_pow2, Z.ones_equiv by lia. rewrite <- Z.sub_1_r, Z.mul_sub_distr_r.
       rewrite <- Z.pow_add_r by lia. replace (w - k + k) with w by lia. lia. }
  pose proof (pow2_pos k ltac:(lia)) as Hp.
  assert (H : Z.land x (Z.shiftl (Z.ones (w - k)) k) / 2 ^ k = x / 2 ^ k).
  { rewrite <- !Z.shiftr_div_pow2 by lia. rewrite Z.shiftr_land, Z.shiftr_shiftl_l by lia.
    replace (k - k) with 0 by lia. rewrite Z.shiftl_0_r, Z.land_ones by lia.
    rewrite Z.shiftr_div_pow2 by lia. apply Z.mod_small. split; [apply Z.div_pos; lia|].
    apply Z.div_lt_upper_bound; [lia|]. rewrite <- Z.pow_add_r by lia.
    replace (k + (w - k)) with w by lia. lia. }
  symmetry. destruct (Z.ltb_spec x (2 ^ k)) as [Hlt|Hge].
  - symmetry. apply Z.eqb_eq, Z.bits_inj'. intros n Hn.
    rewrite Z.land_spec, Z.bits_0, Z.shiftl_spec by lia. destruct (Z_lt_le_dec n k).
    + rewrite (Z.testbit_neg_r (Z.ones _)) by lia. apply andb_false_r.
    + rewrite (testbit_small k x n) by lia. reflexivity.
  - symmetry. apply Z.eqb_neq. intros E. rewrite E, Z.div_0_l in H by lia.
    assert (1 <= x / 2 ^ k) by (apply Z.div_le_lower_bound; lia). lia.
Qed.

Lemma in_rangeb_spec w z : in_rangeb w z = true <-> in_range w z.
Proof. unfold in_rangeb, in_range. rewrite andb_true_iff, Z.leb_le, Z.ltb_lt. tauto. Qed.

Lemma saturating_sub_le a b : a <= b -> saturating_sub a b = 0.
Proof. unfold saturating_sub; lia. Qed.

Lemma saturating_sub_ge a b : b <= a -> saturating_sub a b = a - b.
Proof. unfold saturating_sub; lia. Qed.

Lemma saturating_add_range w a b :
  0 <= w -> in_range w a -> in_range w b -> in_range w (saturating_add w a b).
Proof.
  intros Hw. pose proof (pow2_pos w Hw).
  unfold in_range, saturating_add, umax; lia.
Qed.

Lemma checked_add_some w a b c :
  checked_add w a b = Some c <-> c = a + b /\ a + b < 2 ^ w.
Proof. unfold checked_add. case_test; boolify; intuition (try congruence; try lia). Qed.

Lemma checked_sub_some a b c : checked_sub a b = Some c <-> c = a - b /\ b <= a.
Proof. unfold checked_sub. case_test; boolify; intuition (try congruence; try lia). Qed.

Lemma checked_mul_some w a b c :
  checked_mul w a b = Some c <-> c = a * b /\ a * b < 2 ^ w.
Proof. unfold checked_mul. case_test; boolify; intuition (try congruence; try lia). Qed.

Lemma length_to_le_bytes n x : length (to_le_bytes n x) = n.
Proof. revert x; induction n; intros; cbn; auto. Qed.

Lemma to_le_bytes_ok n x : bytes_ok (to_le_bytes n x).
Proof.
  revert x; induction n; intros x; cbn; constructor; [|apply IHn].
  unfold byte_ok, in_range. apply Z.mod_pos_bound; lia.
Qed.

Lemma to_le_bytes_app n m x : to_le_bytes (n + m) x = to_le_bytes n x ++ to_le_bytes m (x / 256 ^ Z.of_nat n).
Proof.
  revert x. induction n as [|n IH]; intros x; [now rewrite Z.div_1_r|].
  cbn [Nat.add to_le_bytes app]. rewrite IH, Nat2Z.inj_succ, Z.pow_succ_r by lia.
  now rewrite Z.div_div by lia.
Qed.

Lemma to_le_bytes_array n x : array_ok n (to_le_bytes n x).
Proof. split; [apply length_to_le_bytes | apply to_le_bytes_ok]. Qed.

Lemma from_to_le_bytes n x :
  from_le_bytes (to_le_bytes n x) = x mod 2 ^ (8 * Z.of_nat n).
Proof.
  revert x; induction n as [|n IH]; intros x.
  - cbn. rewrite Z.mod_1_r. reflexivity.
  - cbn [to_le_bytes from_le_bytes]. rewrite IH.
    replace (8 * Z.of_nat (S n)) with (8 + 8 * Z.of_nat n) by lia.
    rewrite Z.pow_add_r by lia. change (2 ^ 8) with 256.
    rewrite Z.rem_mul_r by (try apply Z.pow_pos_nonneg; lia). lia.
Qed.

Lemma from_to_le_bytes_id n x :
  in_range (8 * Z.of_nat n) x -> from_le_bytes (to_le_bytes n x) = x.
Proof. intros H. rewrite from_to_le_bytes. apply Z.mod_small, H. Qed.

Lemma from_le_bytes_bounds l :
  bytes_ok l -> 0 <= from_le_bytes l < 2 ^ (8 * Z.of_nat (length l)).
Proof.
  induction 1 as [|b l Hb Hl IH]; [cbn; lia|].
  cbn [from_le_bytes length].
  replace (8 * Z.of_nat (S (length l))) with (8 + 8 * Z.of_nat (length l)) by lia.
  rewrite Z.pow_add_r by lia. change (2 ^ 8) with 256.
  unfold byte_ok, in_range in Hb. change (2 ^ 8) with 256 in Hb. nia.
Qed.

Lemma to_from_le_bytes l :
  bytes_ok l -> to_le_bytes (length l) (from_le_bytes l) = l.
Proof.
  induction 1 as [|b l Hb Hl IH]; [reflexivity|].
  cbn [from_le_bytes length to_le_bytes].
  unfold byte_ok, in_range in Hb. change (2 ^ 8) with 256 in Hb.
  rewrite (Z.mul_comm 256), Z.mod_add, Z.div_add by lia.
  rewrite Z.mod_small, Z.div_small, Z.add_0_l, IH by lia. reflexivity.
Qed.

Lemma from_le_bytes_app a b :
  from_le_bytes (a ++ b) =
  from_le_bytes a + 2 ^ (8 * Z.of_nat (length a)) * from_le_bytes b.
Proof.
  induction a as [|x a IH]; [cbn [app from_le_bytes length]; lia|].
  cbn [app from_le_bytes length]. rewrite IH.
  replace (8 * Z.of_nat (S (length a))) with (8 + 8 * Z.of_nat (length a)) by lia.
  rewrite Z.pow_add_r by lia. change (2 ^ 8) with 256. ring.
Qed.

Lemma from_le_bytes_inj a b :
  bytes_ok a -> bytes_ok b -> length a = length b ->
  from_le_bytes a = from_le_bytes b -> a = b.
Proof.
  intros Ha Hb Hl H.
  rewrite <- (to_from_le_bytes a Ha), <- (to_from_le_bytes b Hb), Hl, H. reflexivity.
Qed.

Lemma Zsum_app a b : Zsum (a ++ b) = Zsum a + Zsum b.
Proof. unfold Zsum. induction a; cbn; lia. Qed.

#[export] Instance Zsum_Permutation : Proper (Permutation ==> eq) Zsum.
Proof. unfold Zsum. intros l l' H. induction H; cbn; lia. Qed.

Lemma Zsum_cons x l : Zsum (x :: l) = x + Zsum l.
Proof. reflexivity. Qed.

Lemma Zsum_nonneg l : Forall (fun x => 0 <= x) l -> 0 <= Zsum l.
Proof. unfold Zsum. induction 1; cbn; lia. Qed.

Lemma fold_result_app {E A B} (body : B -> A -> result E B) acc l1 l2 :
  fold_result body acc (l1 ++ l2) =
  (acc' ← fold_result body acc l1; fold_result body acc' l2).
Proof.
  revert acc; induction l1 as [|x l1 IH]; intros acc; [reflexivity|].
  cbn. destruct (body acc x) as [acc'|e]; cbn; [apply IH | reflexivity].
Qed.

(** A loop invariant for [fold_result], indexed by the prefix already done. *)
Lemma fold_result_ind {E A B} (body : B -> A -> result E B) (P : list A -> B -> Prop) :
  (forall pre acc x acc', P pre acc -> body acc x = Ok acc' -> P (pre ++ [x]) acc') ->
  forall l acc acc', P [] acc -> fold_result body acc l = Ok acc' -> P l acc'.
Proof.
  intros Hstep l.
  cut (forall pre acc acc', P pre acc -> fold_result body acc l = Ok acc' ->
         P (pre ++ l) acc').
  { intros H acc acc'. apply (H []). }
  induction l as [|x l IH]; intros pre acc acc' HP H; cbn in H.
  - inv_ok. subst. rewrite app_nil_r. exact HP.
  - inv_ok. rewrite cons_middle, app_assoc. eapply IH; eauto.
Qed.

(** A loop that only checks each item. *)
Lemma fold_result_unit {E A} (body : unit -> A -> result E unit) l :
  fold_result body tt l = Ok tt <-> Forall (fun x => body tt x = Ok tt) l.
Proof.
  induction l as [|x l IH]; cbn; [split; auto|].
  rewrite bind_ok_iff, Forall_cons, <- IH. split.
  - intros ([] & H1 & H2). auto.
  - intros [H1 H2]. eauto.
Qed.

Lemma exec_bind_inv {E A B} (m : exec E A) (f : A -> exec E B) b : m ≫= f = Return b -> exists a, m = Return a /\ f a = Return b.
Proof. destruct m; cbn; [eauto|discriminate..]. Qed.

Lemma fold_result_check {E A} (c : A -> bool) (e : A -> E) l :
  fold_result (fun _ x => ensure (c x) (e x)) tt l = Ok tt <-> Forall (fun x => c x = true) l.
Proof.
  rewrite fold_result_unit. apply Forall_proper; [|reflexivity].
  intros x. apply ensure_ok_iff.
Qed.

(** A loop that inserts the key of every item in a set, failing on a key
    already there or on a further condition. *)
Lemma fold_result_unique {E A} `{Countable K} (key : A -> K) (Q : A -> Prop)
    (body : gset K -> A -> result E (gset K)) :
  (forall seen x seen', body seen x = Ok seen' <->
     key x ∉ seen /\ Q x /\ seen' = {[key x]} ∪ seen) ->
  forall l s0 s, fold_result body s0 l = Ok s <->
    NoDup (key <$> l) /\ (forall k, k ∈ key <$> l -> k ∉ s0) /\ Forall Q l
    /\ s = list_to_set (key <$> l) ∪ s0.
Proof.
  intros Hbody l. induction l as [|x l IH]; intros s0 s; cbn.
  - split; [intros [= ->] | intros (_ & _ & _ & ->)].
    + repeat split; [constructor | intros ? Hk; inversion Hk | constructor |].
      now rewrite union_empty_l_L.
    + f_equal. symmetry; apply (union_empty_l_L s0).
  - rewrite bind_ok_iff, NoDup_cons, Forall_cons. split.
    + intros (s1 & H1 & H2). apply Hbody in H1 as (Hx & HQ & ->).
      apply IH in H2 as (Hnd & Hdisj & HF & ->). clear IH Hbody.
      repeat split; auto; [intros Hin; apply (Hdisj _ Hin); set_solver +| |].
      * intros k [->|Hk]%elem_of_cons; [exact Hx|]. specialize (Hdisj k Hk). set_solver + Hdisj.
      * rewrite (assoc_L (∪)). f_equal. apply (comm_L (∪)).
    + intros ((Hx & Hnd) & Hdisj & (HQ & HF) & ->).
      exists ({[key x]} ∪ s0). split.
      * apply Hbody. repeat split; auto. apply Hdisj. left.
      * apply IH. clear IH Hbody. repeat split; auto.
        -- intros k Hk [->%elem_of_singleton|Hs]%elem_of_union; [exact (Hx Hk)|].
           exact (Hdisj k (list_elem_of_further _ _ _ Hk) Hs).
        -- rewrite (assoc_L (∪)). f_equal. apply (comm_L (∪)).
Qed.

(** [s] is [s0] extended by the pairwise distinct, new elements [l]. *)
Definition fresh_into `{Countable K} (l : list K) (s0 s : gset K) : Prop :=
  NoDup l /\ (forall k, k ∈ l -> k ∉ s0) /\ s = list_to_set l ∪ s0.

Lemma fresh_into_nil `{Countable K} (s0 s : gset K) : fresh_into [] s0 s <-> s = s0.
Proof.
  unfold fresh_into. cbn [list_to_set]. rewrite union_empty_l_L. split; [tauto|]. intros ->.
  split; [constructor|]. split; [intros k Hk; inversion Hk|reflexivity].
Qed.

Lemma fresh_into_app `{Countable K} (a b : list K) (s0 s : gset K) :
  fresh_into (a ++ b) s0 s <-> exists s1, fresh_into a s0 s1 /\ fresh_into b s1 s.
Proof.
  unfold fresh_into. rewrite NoDup_app, list_to_set_app_L. split.
  - intros ((Ha & Hd & Hb) & Hs & ->). exists (list_to_set a ∪ s0).
    split; [split; [exact Ha|]; split; [|reflexivity]; intros k Hk; apply Hs, elem_of_app; auto|].
    split; [exact Hb|]. split; [|set_solver +].
    intros k Hk [Hk'%elem_of_list_to_set|Hk']%elem_of_union; [exact (Hd k Hk' Hk)|].
    revert Hk'. apply Hs, elem_of_app. auto.
  - intros (s1 & (Ha & Hs & ->) & Hb & Hs' & ->). split; [|split; [|set_solver +]].
    + split; [exact Ha|]. split; [|exact Hb]. intros k Hk Hk'.
      apply (Hs' k Hk'). apply elem_of_union_l, elem_of_list_to_set, Hk.
    + intros k [Hk|Hk]%elem_of_app; [auto|]. intros Hk'. apply (Hs' k Hk).
      apply elem_of_union_r, Hk'.
Qed.

Lemma fold_result_fresh {E A} `{Countable K} (key : A -> K) (e : A -> E)
    (body : gset K -> A -> result E (gset K)) :
  (forall seen x, body seen x = if bool_decide (key x ∈ seen) then Err (e x)
                                else Ok ({[key x]} ∪ seen)) ->
  forall l s0 s, fold_result body s0 l = Ok s <-> fresh_into (key <$> l) s0 s.
Proof.
  intros Hbody l s0 s. rewrite (fold_result_unique key (fun _ => True)).
  - unfold fresh_into. assert (Forall (fun _ : A => True) l) by (apply Forall_true; auto). tauto.
  - intros seen x seen'. rewrite Hbody. case_bool_decide; split; try tauto; try discriminate.
    + intros [= <-]. auto.
    + intros (_ & _ & ->). reflexivity.
Qed.

(** A loop over groups of keys. *)
Lemma fold_result_fresh_bind {E A} `{Countable K} (keys : A -> list K)
    (body : gset K -> A -> result E (gset K)) :
  (forall s0 x s, body s0 x = Ok s <-> fresh_into (keys x) s0 s) ->
  forall l s0 s, fold_result body s0 l = Ok s <-> fresh_into (l ≫= keys) s0 s.
Proof.
  intros Hbody l. induction l as [|x l IH]; intros s0 s.
  - change ([] ≫= keys) with (@nil K). rewrite fresh_into_nil. cbn. split; congruence.
  - cbn [fold_result]. rewrite bind_cons, fresh_into_app, bind_ok_iff.
    setoid_rewrite Hbody. now setoid_rewrite IH.
Qed.

(** A loop of checked additions of non-negative amounts. *)
Lemma fold_result_sum {E A} (w : Z) (amount : A -> Z) (e : E) l :
  Forall (fun x => 0 <= amount x) l ->
  forall s t, fold_result (fun sum x => ok_or (checked_add w sum (amount x)) e) s l = Ok t <->
    t = s + Zsum (amount <$> l) /\ (l = [] \/ s + Zsum (amount <$> l) < 2 ^ w).
Proof.
  induction 1 as [|x l Hx Hl IH]; intros s t; cbn [fold_result].
  - cbn. split; [intros [= ->]; split; [lia|auto] | intros [-> _]; f_equal; lia].
  - assert (0 <= Zsum (amount <$> l))
      by (apply Zsum_nonneg, Forall_fmap; exact Hl).
    rewrite bind_ok_iff, fmap_cons, Zsum_cons. split.
    + intros (s1 & H1 & H2). apply ok_or_ok_iff, checked_add_some in H1 as [-> H1].
      apply IH in H2 as [-> H2]. split; [lia|]. right.
      destruct H2 as [->|]; [cbn; lia | lia].
    + intros [-> [?|?]]; [discriminate|].
      exists (s + amount x). split; [apply ok_or_ok_iff, checked_add_some; lia|].
      apply IH. split; [lia|right; lia].
Qed.

#[export] Hint Resolve length_to_le_bytes to_le_bytes_ok to_le_bytes_array : noid.

(** ** Linear maps over GF(2)

    Maps on bit vectors that commute with [Z.lxor]; such a map is determined by
    its values on single bits. *)

Definition linear (f : Z -> Z) : Prop := forall a b, f (Z.lxor a b) = Z.lxor (f a) (f b).

Definition xor_sum {A} (f : A -> Z) (l : list A) : Z :=
  foldr (fun i acc => Z.lxor (f i) acc) 0 l.

(** Equality of two xor expressions, by cases on two bits. *)
Ltac xor_bits b c :=
  destruct b, c; cbn [xorb]; apply Z.bits_inj'; intros ?n ?Hn; rewrite ?Z.lxor_spec, ?Z.bits_0;
  repeat match goal with |- context [Z.testbit ?x ?n] => destruct (Z.testbit x n) end; reflexivity.

Lemma xor_sum_cons {A} (f : A -> Z) i l : xor_sum f (i :: l) = Z.lxor (f i) (xor_sum f l).
Proof. reflexivity. Qed.

Lemma xor_sum_lxor {A} (f g : A -> Z) l :
  xor_sum (fun i => Z.lxor (f i) (g i)) l = Z.lxor (xor_sum f l) (xor_sum g l).
Proof.
  induction l as [|i l IH]; [reflexivity|]. rewrite !xor_sum_cons, IH. xor_bits true true.
Qed.

Lemma xor_sum_ext {A} (f g : A -> Z) l :
  (forall i, i ∈ l -> f i = g i) -> xor_sum f l = xor_sum g l.
Proof.
  intros H. induction l as [|i l IH]; [reflexivity|].
  rewrite !xor_sum_cons, (H i) by left. f_equal. apply IH. intros j Hj. apply H. now right.
Qed.

(** A loop that adds a term when a condition holds. *)
Lemma foldl_cond_xor {A} (c d : A -> bool) (f : A -> Z) l s :
  (forall i, i ∈ l -> c i = d i) ->
  foldl (fun p i => if c i then Z.lxor p (f i) else p) s l
  = Z.lxor s (xor_sum (fun i => if d i then f i else 0) l).
Proof.
  revert s. induction l as [|i l IH]; intros s H; cbn [foldl]; [now rewrite Z.lxor_0_r|].
  rewrite IH by (intros j Hj; apply H; now right). rewrite (H i) by left.
  rewrite xor_sum_cons.
  destruct (d i); [apply Z.lxor_assoc|]. now rewrite Z.lxor_0_l.
Qed.

Lemma linear_0 f : linear f -> f 0 = 0.
Proof. intros H. specialize (H 0 0). now rewrite Z.lxor_0_l, Z.lxor_nilpotent in H. Qed.

Lemma linear_compose f g : linear f -> linear g -> linear (fun x => f (g x)).
Proof. intros Hf Hg a b. now rewrite Hg, Hf. Qed.

Lemma linear_xor_sum {A} f (g : A -> Z) l : linear f -> f (xor_sum g l) = xor_sum (fun i => f (g i)) l.
Proof.
  intros Hf. induction l as [|i l IH]; [now apply linear_0|].
  now rewrite !xor_sum_cons, Hf, IH.
Qed.

(** A word is the sum of its bits. *)
Lemma bits_sum w x :
  0 <= w -> 0 <= x < 2 ^ w -> x = xor_sum (fun i => if Z.testbit x i then 2 ^ i else 0) (seqZ 0 w).
Proof.
  intros Hw Hx. revert x Hx. pattern w. apply natlike_ind; [|clear w Hw; intros w Hw IH|exact Hw].
  { intros x Hx. change (2 ^ 0) with 1 in Hx. change (x = 0). lia. }
  intros x [H0 H1]. rewrite <- Z.add_1_r in *.
  assert (E : seqZ 0 (w + 1) = seqZ 0 w ++ [w])
    by (rewrite seqZ_app by lia; f_equal; cbn; f_equal; lia).
  rewrite E. unfold xor_sum. rewrite foldr_app. cbn [foldr]. rewrite Z.lxor_0_r.
  pose proof (Z.mod_pos_bound x (2 ^ w) (pow2_pos w Hw)) as Hm.
  specialize (IH (x mod 2 ^ w) Hm).
  assert (F : forall s, foldr (fun i acc => Z.lxor (if Z.testbit x i then 2 ^ i else 0) acc) s (seqZ 0 w)
    = Z.lxor (x mod 2 ^ w) s).
  { intros s. rewrite IH. unfold xor_sum.
    assert (G : forall l, (forall i, i ∈ l -> 0 <= i < w) ->
      foldr (fun i acc => Z.lxor (if Z.testbit x i then 2 ^ i else 0) acc) s l
      = Z.lxor (foldr (fun i acc => Z.lxor (if Z.testbit (x mod 2 ^ w) i then 2 ^ i else 0) acc) 0 l) s).
    { induction l as [|i l IHl]; intros Hl; cbn; [now rewrite Z.lxor_0_l|].
      rewrite IHl by (intros j Hj; apply Hl; now right). rewrite Z.mod_pow2_bits_low by (apply Hl; left).
      now rewrite Z.lxor_assoc. }
    apply G. intros i Hi%elem_of_seqZ. lia. }
  rewrite F. apply Z.bits_inj'. intros n Hn. rewrite Z.lxor_spec.
  destruct (Z.lt_trichotomy n w) as [L|[->|L]].
  - rewrite Z.mod_pow2_bits_low by lia.
    destruct (Z.testbit x w); [rewrite Z.pow2_bits_false by lia|rewrite Z.bits_0]; now rewrite xorb_false_r.
  - rewrite Z.mod_pow2_bits_high by lia.
    destruct (Z.testbit x w); [now rewrite Z.pow2_bits_true by lia|now rewrite Z.bits_0].
  - rewrite Z.mod_pow2_bits_high, (testbit_small (w + 1) x) by lia.
    destruct (Z.testbit x w); [now rewrite Z.pow2_bits_false by lia|now rewrite Z.bits_0].
Qed.

Lemma linear_ext w f g :
  0 <= w -> linear f -> linear g -> (forall i, 0 <= i < w -> f (2 ^ i) = g (2 ^ i)) ->
  forall x, in_range w x -> f x = g x.
Proof.
  intros Hw Hf Hg He x Hx. rewrite (bits_sum w x Hw Hx), !linear_xor_sum by assumption.
  apply xor_sum_ext. intros i Hi%elem_of_seqZ.
  destruct (Z.testbit x i); [apply He; lia|]. rewrite (linear_0 f Hf), (linear_0 g Hg). reflexivity.
Qed.

(** The same for maps that are linear on words of a width only. *)
Definition linear_on (w : Z) (f : Z -> Z) : Prop :=
  forall a b, in_range w a -> in_range w b -> f (Z.lxor a b) = Z.lxor (f a) (f b).

Lemma linear_linear_on w f : linear f -> linear_on w f.
Proof. intros H a b _ _. apply H. Qed.

Lemma range_0 w : 0 <= w -> in_range w 0.
Proof. intros Hw. pose proof (pow2_pos w Hw). split; lia. Qed.

Lemma xor_sum_range {A} w (f : A -> Z) l :
  0 <= w -> Forall (fun i => in_range w (f i)) l -> in_range w (xor_sum f l).
Proof.
  intros Hw. induction 1 as [|i l Hi Hl IH]; [now apply range_0|].
  rewrite xor_sum_cons. now apply lxor_range.
Qed.

Lemma linear_on_0 w f : 0 <= w -> linear_on w f -> f 0 = 0.
Proof.
  intros Hw H. pose proof (range_0 w Hw).
  specialize (H 0 0). rewrite Z.lxor_0_l, Z.lxor_nilpotent in H. auto.
Qed.

Lemma linear_on_xor_sum {A} w f (g : A -> Z) l :
  0 <= w -> linear_on w f -> Forall (fun i => in_range w (g i)) l ->
  f (xor_sum g l) = xor_sum (fun i => f (g i)) l.
Proof.
  intros Hw Hf. induction 1 as [|i l Hi Hl IH]; [now apply (linear_on_0 w)|].
  rewrite !xor_sum_cons, <- IH. apply Hf; [exact Hi|]. now apply xor_sum_range.
Qed.

Lemma bits_range w x : 0 <= w ->
  Forall (fun i => in_range w (if Z.testbit x i then 2 ^ i else 0)) (seqZ 0 w).
Proof.
  intros Hw. apply Forall_forall. intros i Hi%elem_of_seqZ.
  destruct (Z.testbit x i); [|now apply range_0].
  split; [apply Z.pow_nonneg; lia|apply Z.pow_lt_mono_r; lia].
Qed.

Lemma linear_on_ext w f g :
  0 <= w -> linear_on w f -> linear_on w g -> (forall i, 0 <= i < w -> f (2 ^ i) = g (2 ^ i)) ->
  forall x, in_range w x -> f x = g x.
Proof.
  intros Hw Hf Hg He x Hx. rewrite (bits_sum w x Hw Hx).
  rewrite !(linear_on_xor_sum w) by (assumption || now apply bits_range).
  apply xor_sum_ext. intros i Hi%elem_of_seqZ.
  destruct (Z.testbit x i); [apply He; lia|].
  rewrite (linear_on_0 w f Hw Hf), (linear_on_0 w g Hw Hg). reflexivity.
Qed.

Lemma linear_on_range w v f :
  0 <= w -> 0 <= v -> linear_on w f -> (forall i, 0 <= i < w -> in_range v (f (2 ^ i))) ->
  forall x, in_range w x -> in_range v (f x).
Proof.
  intros Hw Hv Hf He x Hx. rewrite (bits_sum w x Hw Hx).
  rewrite (linear_on_xor_sum w) by (assumption || now apply bits_range).
  apply xor_sum_range; [exact Hv|]. apply Forall_forall. intros i Hi%elem_of_seqZ.
  destruct (Z.testbit x i); [apply He; lia|].
  rewrite (linear_on_0 w f Hw Hf). now apply range_0.
Qed.

(** Undoing a loop step by step. *)
Lemma foldr_foldl_cancel {A B} (f : A -> B -> A) (g : B -> A -> A) l a :
  (forall b x, g b (f x b) = x) -> foldr g (foldl f a l) l = a.
Proof.
  intros H. revert a. induction l as [|b l IH]; intros a; [reflexivity|].
  cbn [foldl foldr]. rewrite IH. apply H.
Qed.

Lemma foldl_foldr_cancel {A B} (f : A -> B -> A) (g : B -> A -> A) l a :
  (forall b x, f (g b x) b = x) -> foldl f (foldr g a l) l = a.
Proof.
  intros H. induction l as [|b l IH]; [reflexivity|]. cbn [foldl foldr]. now rewrite H.
Qed.

(** A boolean test of a range of integers. *)
Lemma forallb_seqZ (P : Z -> bool) n :
  forallb P (seqZ 0 n) = true -> forall i, 0 <= i < n -> P i = true.
Proof.
  intros H i Hi. apply (proj1 (forallb_forall P (seqZ 0 n)) H), list_elem_of_In, elem_of_seqZ. lia.
Qed.

Lemma lxor_mod w a b : 0 <= w -> Z.lxor a b mod 2 ^ w = Z.lxor (a mod 2 ^ w) (b mod 2 ^ w).
Proof.
  intros Hw. rewrite <- !Z.land_ones by exact Hw. apply Z.bits_inj'. intros n Hn.
  rewrite Z.land_spec, !Z.lxor_spec, !Z.land_spec.
  destruct (Z.testbit a n), (Z.testbit b n), (Z.testbit (Z.ones w) n); reflexivity.
Qed.

(** [(x >> i) & 1 == 1]. *)
Lemma shifted_bit x i : 0 <= i -> (Z.land (Z.shiftr x i) 1 =? 1) = Z.testbit x i.
Proof.
  intros Hi. change 1 with (Z.ones 1) at 1. rewrite Z.land_ones by lia.
  change (2 ^ 1) with 2. rewrite <- Z.bit0_mod, Z.shiftr_spec, Z.add_0_l by lia.
  now destruct (Z.testbit x i).
Qed.
