(* ===== verification/Params.v ===== *)
(** * Consensus parameters and fork schedule

    [noid_chain/src/consensus/params.rs] (constants, proof-class tiers, tagged
    coinbase creation ids) and [noid_chain/src/consensus/forks.rs] (the rule set
    selected by a candidate height).  The cargo features of the isolated test
    networks are off, as in a release build. *)

From Stdlib Require Import ZArith Lia.
From stdpp Require Import base numbers list option gmap.
From S2P Require Import Prelude.

Open Scope Z_scope.

(** ** Constants *)

Definition BLOCK_TIME : Z := 20.
Definition V2_BLOCK_TIME : Z := 30.
Definition MAINNET_V2_ACTIVATION_HEIGHT : Z := 210537.
Definition ISOLATED_V2_FORK_TESTNET : bool := false.
Definition ISOLATED_V1_1_TESTNET : bool := false.
Definition V2_ACTIVATION_HEIGHT : option Z :=
  if ISOLATED_V2_FORK_TESTNET then Some 10
  else if ISOLATED_V1_1_TESTNET then None
  else Some MAINNET_V2_ACTIVATION_HEIGHT.
Definition V1_1_ACTIVATION_HEIGHT : option Z :=
  if ISOLATED_V1_1_TESTNET then Some 5 else Some 95125.
Definition EPOCH_LENGTH : Z := 6.
Definition HALFLIFE : Z := EPOCH_LENGTH * BLOCK_TIME.
Definition MAX_FUTURE_DRIFT : Z := 120.
Definition MEDIAN_TIME_BLOCKS : nat := 11.
Definition BLOCK_MAX_TXS : Z := 256.
Definition MAX_INPUTS : Z := 8.
Definition MAX_OUTPUTS : Z := 2.
Definition BLOCK_MAX_USER_PAGES : Z := BLOCK_MAX_TXS - 1.
Definition BLOCK_MAX_LIVE_INPUTS : Z := 1020.
Definition BLOCK_MAX_USER_OUTPUTS : Z := 510.
Definition BLOCK_MAX_USER_ACTIONS : Z := BLOCK_MAX_LIVE_INPUTS + BLOCK_MAX_USER_OUTPUTS.
Definition BLOCK_MAX_ACTIONS : Z := BLOCK_MAX_USER_ACTIONS + 1.
Definition BLOCK_MAX_DISTINCT_SEGMENTS : Z := 256.
Definition BLOCK_PAGE_CLASS_TIERS : list Z := [25; 255].
Definition TX_EPOCH_BLOCKS : Z := 144.
Definition CONSENSUS_FINALITY_DEPTH : Z := 18.
Definition UNDO_RETENTION_DEPTH : Z := CONSENSUS_FINALITY_DEPTH * 2.
Definition RECENT_BLOCK_RETENTION_DEPTH : Z := CONSENSUS_FINALITY_DEPTH.
Definition RETAINED_BLOCK_SERVING_DEPTH : Z :=
  CONSENSUS_FINALITY_DEPTH + RECENT_BLOCK_RETENTION_DEPTH + 6.
Definition EXPANSION_WINDOW : Z := CONSENSUS_FINALITY_DEPTH.
Definition EXPANSION_HEADER_LOOKBACK : Z := CONSENSUS_FINALITY_DEPTH + EXPANSION_WINDOW - 1.
Definition LOG_SLOTS_GENESIS : Z := 24.
Definition LOG_SLOTS_MAX : Z := 32.
Definition LOG_SEGMENT_SIZE : Z := 16.
Definition EXPAND_NUM : Z := 3.
Definition EXPAND_DENOM : Z := 4.
Definition GENESIS_TARGET : list Z := <[29%nat := 64]> (replicate 32 0).
Definition MIN_TARGET : list Z := <[0%nat := 1]> (replicate 32 0).
Definition MAX_TARGET : list Z := replicate 32 255.
Definition MICRONOID_PER_NOID : Z := 1000000.
Definition BASE_REWARD_MICRONOID : Z := 50 * MICRONOID_PER_NOID.
Definition FLOOR_REWARD_MICRONOID : Z := MICRONOID_PER_NOID.
Definition COINBASE_CREATION_TAG : Z := Z.shiftl 1 63.

(** The constants again as the blocks of [params.rs] that declare them, in
    source order. *)
Definition interval_constants : list Z := [BLOCK_TIME; V2_BLOCK_TIME; MAINNET_V2_ACTIVATION_HEIGHT].
Definition asert_constants : list Z := [EPOCH_LENGTH; HALFLIFE].
Definition clock_constants : Z * nat := (MAX_FUTURE_DRIFT, MEDIAN_TIME_BLOCKS).
Definition block_limits : list Z :=
  [BLOCK_MAX_TXS; MAX_INPUTS; MAX_OUTPUTS; BLOCK_MAX_USER_PAGES; BLOCK_MAX_LIVE_INPUTS;
   BLOCK_MAX_USER_OUTPUTS; BLOCK_MAX_USER_ACTIONS; BLOCK_MAX_ACTIONS; BLOCK_MAX_DISTINCT_SEGMENTS]
  ++ BLOCK_PAGE_CLASS_TIERS.
Definition retention_depths : list Z :=
  [TX_EPOCH_BLOCKS; CONSENSUS_FINALITY_DEPTH; UNDO_RETENTION_DEPTH; RECENT_BLOCK_RETENTION_DEPTH;
   RETAINED_BLOCK_SERVING_DEPTH].
Definition expansion_constants : list Z :=
  [EXPANSION_WINDOW; EXPANSION_HEADER_LOOKBACK; LOG_SLOTS_GENESIS; LOG_SLOTS_MAX; LOG_SEGMENT_SIZE;
   EXPAND_NUM; EXPAND_DENOM].
Definition target_constants : list (list Z) := [GENESIS_TARGET; MIN_TARGET; MAX_TARGET].
Definition reward_constants : list Z :=
  [MICRONOID_PER_NOID; BASE_REWARD_MICRONOID; FLOOR_REWARD_MICRONOID].

Create HintDb params.
#[export] Hint Unfold
  BLOCK_TIME V2_BLOCK_TIME MAINNET_V2_ACTIVATION_HEIGHT ISOLATED_V2_FORK_TESTNET
  ISOLATED_V1_1_TESTNET V2_ACTIVATION_HEIGHT V1_1_ACTIVATION_HEIGHT EPOCH_LENGTH
  HALFLIFE MAX_FUTURE_DRIFT BLOCK_MAX_TXS MAX_INPUTS MAX_OUTPUTS
  BLOCK_MAX_USER_PAGES BLOCK_MAX_LIVE_INPUTS BLOCK_MAX_USER_OUTPUTS
  BLOCK_MAX_USER_ACTIONS BLOCK_MAX_ACTIONS BLOCK_MAX_DISTINCT_SEGMENTS
  TX_EPOCH_BLOCKS CONSENSUS_FINALITY_DEPTH UNDO_RETENTION_DEPTH
  RECENT_BLOCK_RETENTION_DEPTH RETAINED_BLOCK_SERVING_DEPTH EXPANSION_WINDOW
  EXPANSION_HEADER_LOOKBACK LOG_SLOTS_GENESIS LOG_SLOTS_MAX LOG_SEGMENT_SIZE
  EXPAND_NUM EXPAND_DENOM MICRONOID_PER_NOID BASE_REWARD_MICRONOID
  FLOOR_REWARD_MICRONOID : params.

(** [lia] after unfolding the constants. *)
Ltac plia := autounfold with params in *; lia.

(** ** Proof classes *)

(** [tiers.iter().copied().find(|&tier| tier >= count)]. *)
Fixpoint class_tier_for (tiers : list Z) (count : Z) : option Z :=
  match tiers with
  | [] => None
  | tier :: rest => if count <=? tier then Some tier else class_tier_for rest count
  end.

Definition block_page_class_tier (page_count : Z) : option Z :=
  class_tier_for BLOCK_PAGE_CLASS_TIERS page_count.

Definition block_class_spend_capacity (user_tier : Z) : Z :=
  Z.min (user_tier * MAX_INPUTS) BLOCK_MAX_LIVE_INPUTS.

Definition block_class_output_capacity (user_tier : Z) : Z :=
  Z.min (user_tier * MAX_OUTPUTS) BLOCK_MAX_USER_OUTPUTS.

Definition block_class_touched_capacity (user_tier : Z) : Z :=
  block_class_spend_capacity user_tier + block_class_output_capacity user_tier + 1.

Definition block_class_spend_capacity_for_page_count (page_count : Z) : option Z :=
  block_class_spend_capacity <$> block_page_class_tier page_count.

(** ** Height-tagged coinbase creation ids *)

Definition is_coinbase_creation_id (creation_id : Z) : bool :=
  negb (Z.land creation_id COINBASE_CREATION_TAG =? 0).

Definition coinbase_creation_id (height : Z) : Z :=
  Z.lor COINBASE_CREATION_TAG height.

(** [creation_id & !COINBASE_CREATION_TAG], the complement taken in [u64]. *)
Definition coinbase_creation_height (creation_id : Z) : Z :=
  Z.land creation_id (umax 64 - COINBASE_CREATION_TAG).

Definition creation_id_within_boundary (creation_id alloc_counter height : Z) : bool :=
  if is_coinbase_creation_id creation_id
  then coinbase_creation_height creation_id <=? height
  else creation_id <=? alloc_counter.

(** ** Fork schedule *)

Inductive ProtocolVersion := V1 | V1_1 | V2.

#[export] Instance ProtocolVersion_eq_dec : EqDecision ProtocolVersion.
Proof. solve_decision. Defined.

Record V2Activation := mkV2Activation { v2_height : Z; v2_block_time : Z }.

Definition V2Activation_new (height block_time : Z) : option V2Activation :=
  if (height =? 0) || (block_time =? 0) then None
  else Some (mkV2Activation height block_time).

Record ForkSchedule := mkForkSchedule { v1_1 : option Z; v2 : option V2Activation }.

Definition ForkSchedule_new (v1_1 : option Z) (v2 : option V2Activation)
  : option ForkSchedule :=
  match v1_1, v2 with
  | Some first, Some second =>
      if first <=? v2_height second then Some (mkForkSchedule v1_1 v2) else None
  | _, None => Some (mkForkSchedule v1_1 v2)
  | _, _ => None
  end.

Definition version (self : ForkSchedule) (height : Z) : ProtocolVersion :=
  if (match v2 self with Some at' => v2_height at' <=? height | None => false end)
  then V2
  else if (match v1_1 self with Some at' => at' <=? height | None => false end)
  then V1_1
  else V1.

Definition block_time (self : ForkSchedule) (height : Z) : Z :=
  match v2 self with
  | Some at' => if v2_height at' <=? height then v2_block_time at' else BLOCK_TIME
  | None => BLOCK_TIME
  end.

Definition ideal_elapsed (self : ForkSchedule) (anchor child : Z) : Z :=
  let count := saturating_sub child anchor in
  match v2 self with
  | Some at' =>
      if v2_height at' <=? child then
        let last_old := v2_height at' - 1 in
        let start := if last_old <? anchor then anchor else last_old in
        let new_count := saturating_sub child start in
        (count - new_count) * BLOCK_TIME + new_count * v2_block_time at'
      else count * BLOCK_TIME
  | None => count * BLOCK_TIME
  end.

Definition ACTIVE_SCHEDULE : ForkSchedule :=
  mkForkSchedule V1_1_ACTIVATION_HEIGHT
    (match V2_ACTIVATION_HEIGHT with
     | Some height => V2Activation_new height V2_BLOCK_TIME
     | None => None
     end).

Definition v2_active (height : Z) : bool :=
  match V2_ACTIVATION_HEIGHT with Some at' => at' <=? height | None => false end.

Definition block_time_at_height (height : Z) : Z := block_time ACTIVE_SCHEDULE height.

Definition halflife_at_height (height : Z) : Z := EPOCH_LENGTH * block_time_at_height height.

Definition v1_1_active (height : Z) : bool :=
  negb (bool_decide (version ACTIVE_SCHEDULE height = V1)).

Definition v1_1_active_with (height : Z) (activation_height : option Z) : bool :=
  match activation_height with Some at' => at' <=? height | None => false end.

(** ** Well-formed schedules

    What the constructors establish: the fields are [u64]s, v2 starts after
    genesis with a non-zero interval, and not before v1.1. *)

Definition activation_ok (a : V2Activation) : Prop :=
  u64 (v2_height a) /\ u64 (v2_block_time a) /\ 0 < v2_height a /\ 0 < v2_block_time a.

Definition schedule_ok (s : ForkSchedule) : Prop :=
  match v2 s with
  | Some a => activation_ok a /\ exists first, v1_1 s = Some first /\ first <= v2_height a
  | None => True
  end.

(** The reference the closed form of [ideal_elapsed] is checked against: one
    interval per height of [(anchor, child]]. *)
Definition elapsed_by_height (s : ForkSchedule) (anchor child : Z) : Z :=
  Zsum (block_time s <$> seqZ (anchor + 1) (child - anchor)).

(** ** Lemmas *)

Lemma V2Activation_new_ok h bt a :
  u64 h -> u64 bt -> V2Activation_new h bt = Some a -> activation_ok a.
Proof.
  unfold V2Activation_new, activation_ok, in_range. intros ? ? H.
  case_test; [discriminate|]. boolify. injection H as <-. cbn. lia.
Qed.

Lemma ForkSchedule_new_ok f (a : option V2Activation) s :
  (forall x, a = Some x -> activation_ok x) ->
  ForkSchedule_new f a = Some s -> schedule_ok s.
Proof.
  unfold ForkSchedule_new, schedule_ok. intros Ha H.
  destruct f as [f|], a as [a|]; try case_test; try discriminate;
    injection H as <-; cbn; auto.
  boolify. eauto.
Qed.

Lemma ACTIVE_SCHEDULE_ok : schedule_ok ACTIVE_SCHEDULE.
Proof.
  split; [|exists 95125; split; [reflexivity | vm_compute; discriminate]].
  unfold activation_ok, in_range. vm_compute. intuition congruence.
Qed.

Lemma Zsum_block_time_const s x n bt :
  (forall h, x <= h < x + n -> block_time s h = bt) -> 0 <= n ->
  Zsum (block_time s <$> seqZ x n) = n * bt.
Proof.
  intros H Hn. revert x H. pattern n. apply natlike_ind; [|clear n Hn; intros n Hn IH x H|exact Hn].
  - intros x _. reflexivity.
  - rewrite (seqZ_cons x) by lia. rewrite fmap_cons, Zsum_cons, Z.pred_succ.
    rewrite IH by (intros; apply H; lia). rewrite H by lia. lia.
Qed.

Lemma elapsed_by_height_split s a m c :
  a <= m <= c -> elapsed_by_height s a c = elapsed_by_height s a m + elapsed_by_height s m c.
Proof.
  intros H. unfold elapsed_by_height.
  replace (c - a) with ((m - a) + (c - m)) by lia.
  rewrite seqZ_app by lia. rewrite fmap_app, Zsum_app. do 4 f_equal; lia.
Qed.

Lemma elapsed_const s a c bt :
  (forall h, a < h <= c -> block_time s h = bt) -> a <= c ->
  elapsed_by_height s a c = (c - a) * bt.
Proof.
  intros H Hac. unfold elapsed_by_height. apply Zsum_block_time_const; [|lia].
  intros h Hh. apply H. lia.
Qed.

Lemma block_time_old s a h :
  v2 s = Some a -> h < v2_height a -> block_time s h = BLOCK_TIME.
Proof.
  unfold block_time. intros -> H. case_test; boolify; [lia|reflexivity].
Qed.

Lemma block_time_new s a h :
  v2 s = Some a -> v2_height a <= h -> block_time s h = v2_block_time a.
Proof.
  unfold block_time. intros -> H. case_test; boolify; [reflexivity|lia].
Qed.

Lemma block_time_pos s h : schedule_ok s -> 0 < block_time s h.
Proof.
  unfold schedule_ok, activation_ok, block_time, BLOCK_TIME.
  destruct (v2 s) as [a|]; [|lia]. case_test; lia.
Qed.

Lemma is_coinbase_creation_id_testbit x :
  is_coinbase_creation_id x = Z.testbit x 63.
Proof.
  unfold is_coinbase_creation_id, COINBASE_CREATION_TAG. rewrite Z.shiftl_1_l.
  rewrite land_pow2 by lia. destruct (Z.testbit x 63); reflexivity.
Qed.

Lemma testbit_coinbase_creation_id h n :
  0 <= n -> Z.testbit (coinbase_creation_id h) n = (n =? 63) || Z.testbit h n.
Proof.
  intros Hn. unfold coinbase_creation_id, COINBASE_CREATION_TAG.
  rewrite Z.shiftl_1_l, Z.lor_spec, Z.pow2_bits_eqb by lia. f_equal. apply Z.eqb_sym.
Qed.

Lemma coinbase_creation_height_mod x :
  coinbase_creation_height x = x mod 2 ^ 63.
Proof.
  unfold coinbase_creation_height.
  change (umax 64 - COINBASE_CREATION_TAG) with (Z.ones 63). apply Z.land_ones. lia.
Qed.

(** ** Properties *)

(** The closed form of [ideal_elapsed] is exact: for any well-formed
    schedule it equals the sum of the per-height target intervals over
    [(anchor, child]], also when the interval straddles the v2 fork, so an
    ASERT anchor before the fork and a child after it are charged each block
    under its own rules. *)
Theorem ideal_elapsed_exact (s : ForkSchedule) (anchor child : Z) :
  schedule_ok s -> 0 <= anchor <= child ->
  ideal_elapsed s anchor child = elapsed_by_height s anchor child.
Proof.
  intros Hs Hac. unfold ideal_elapsed. rewrite (saturating_sub_ge child anchor) by lia.
  destruct (v2 s) as [a|] eqn:Ha.
  2: { symmetry. apply elapsed_const; [|lia]. intros. unfold block_time. now rewrite Ha. }
  case_test; boolify.
  2: { symmetry. apply elapsed_const; [|lia]. intros. eapply block_time_old; eauto. lia. }
  case_test; boolify; rewrite saturating_sub_ge by lia.
  - rewrite (elapsed_const s anchor child (v2_block_time a)); [lia| |lia].
    intros. eapply block_time_new; eauto. lia.
  - rewrite (elapsed_by_height_split s anchor (v2_height a - 1) child) by lia.
    rewrite (elapsed_const s anchor (v2_height a - 1) BLOCK_TIME);
      [|intros; eapply block_time_old; eauto; lia|lia].
    rewrite (elapsed_const s (v2_height a - 1) child (v2_block_time a));
      [|intros; eapply block_time_new; eauto; lia|lia].
    lia.
Qed.

Lemma ideal_elapsed_exact_witness :
  ideal_elapsed ACTIVE_SCHEDULE 210530 210540 = 6 * 20 + 4 * 30
  /\ elapsed_by_height ACTIVE_SCHEDULE 210530 210540 = 6 * 20 + 4 * 30.
Proof.
  split; [reflexivity|].
  rewrite <- (ideal_elapsed_exact ACTIVE_SCHEDULE 210530 210540);
    [reflexivity | exact ACTIVE_SCHEDULE_ok | lia].
Defined.


(** [ideal_elapsed] never leaves [u128], for every pair of [u64] heights and
    every well-formed schedule (also when the child is below the anchor). *)
Theorem ideal_elapsed_u128 (s : ForkSchedule) (anchor child : Z) :
  schedule_ok s -> u64 anchor -> u64 child ->
  0 <= ideal_elapsed s anchor child < 2 ^ 128.
Proof.
  unfold schedule_ok, activation_ok, in_range, ideal_elapsed, saturating_sub, BLOCK_TIME.
  change (2 ^ 128) with (2 ^ 64 * 2 ^ 64). intros Hs Ha Hc.
  destruct (v2 s) as [a|]; [|nia].
  assert (20 < 2 ^ 64) by reflexivity.
  repeat case_test; boolify; nia.
Qed.

(** Tagged coinbase ids and allocator ids are disjoint namespaces: the id
    of the coinbase at a height below [2^63] is recognised as a coinbase id, is
    a [u64], gives the height back, and differs from every allocator id below
    [2^63], none of which is recognised as a coinbase id. *)
Theorem coinbase_ids_disjoint (height counter : Z) :
  0 <= height < 2 ^ 63 -> 0 <= counter < 2 ^ 63 ->
  is_coinbase_creation_id (coinbase_creation_id height) = true
  /\ coinbase_creation_height (coinbase_creation_id height) = height
  /\ u64 (coinbase_creation_id height)
  /\ is_coinbase_creation_id counter = false
  /\ coinbase_creation_id height <> counter.
Proof.
  intros Hh Hc.
  assert (Hcb : is_coinbase_creation_id (coinbase_creation_id height) = true).
  { rewrite is_coinbase_creation_id_testbit, testbit_coinbase_creation_id by lia. reflexivity. }
  assert (Hcc : is_coinbase_creation_id counter = false).
  { rewrite is_coinbase_creation_id_testbit. eapply testbit_small; [exact Hc|lia]. }
  repeat split; auto.
  - rewrite coinbase_creation_height_mod. apply Z.bits_inj'. intros n Hn.
    rewrite Z.testbit_mod_pow2, testbit_coinbase_creation_id by lia.
    destruct (Z.ltb_spec n 63).
    + replace (n =? 63) with false by lia. reflexivity.
    + symmetry. eapply testbit_small; [exact Hh|lia].
  - apply Z.lor_nonneg. split; [discriminate | lia].
  - apply lor_lt_pow2; [lia| |]; split; try lia; try reflexivity; discriminate.
  - intros Heq. rewrite Heq, Hcc in Hcb. discriminate.
Qed.

Lemma coinbase_ids_disjoint_witness :
  coinbase_creation_height (coinbase_creation_id 210537) = 210537
  /\ coinbase_creation_id 210537 <> 7.
Proof.
  destruct (coinbase_ids_disjoint 210537 7) as (_ & H1 & _ & _ & H2); [lia..|].
  split; [exact H1 | exact H2].
Defined.
