(* ===== verification/Emission.v ===== *)
(** * Emission and the development allocation

    [noid_chain/src/consensus/emission.rs] (block reward schedules) and
    [noid_chain/src/consensus/development_allocation.rs] (the miner share and the
    daily payouts of the launch period).  The theorems show that the release
    schedule never reaches an error or a panic, that the allocation period ends
    exactly when its target duration is used up, and that over any prefix of the
    chain no more is issued than the gross subsidy. *)

From Stdlib Require Import ZArith Lia Sorted.
From stdpp Require Import base numbers list option gmap.
From S2P Require Import Prelude Params.

Open Scope Z_scope.

(** ** Block rewards *)

Definition V2_REWARD_INTERVAL_BLOCKS : Z := 1051200.
Definition V2_REWARDS_MICRONOID : list Z :=
  [16000000; 11300000; 8000000; 5650000; 4000000; 2830000; 2000000; 1410000; 1000000].

Definition v2_block_reward_at_elapsed (elapsed_blocks : Z) : Z :=
  let epoch := Z.min (elapsed_blocks / V2_REWARD_INTERVAL_BLOCKS)
                     (Z.of_nat (length V2_REWARDS_MICRONOID) - 1) in
  nth (Z.to_nat epoch) V2_REWARDS_MICRONOID 0.

(** [u64::checked_shr]: [None] from a shift of 64 on. *)
Definition checked_shr64 (x n : Z) : option Z :=
  if n <? 64 then Some (Z.shiftr x n) else None.

Definition block_reward (log_slots : Z) : Z :=
  let expansions := saturating_sub log_slots LOG_SLOTS_GENESIS in
  Z.max (default 0 (checked_shr64 BASE_REWARD_MICRONOID expansions))
        FLOOR_REWARD_MICRONOID.

Definition block_reward_with_schedule (height log_slots : Z) (schedule : ForkSchedule) : Z :=
  match v2 schedule with
  | Some activation =>
      if v2_height activation <=? height
      then v2_block_reward_at_elapsed (height - v2_height activation)
      else block_reward log_slots
  | None => block_reward log_slots
  end.

Definition block_reward_at_height (height log_slots : Z) : Z :=
  block_reward_with_schedule height log_slots ACTIVE_SCHEDULE.

(** ** Development allocation *)

Definition TARGET_BLOCKS_PER_DAY : Z := 24 * 60 * 60 / BLOCK_TIME.
Definition DEVELOPMENT_ALLOCATION_END_HEIGHT : Z := TARGET_BLOCKS_PER_DAY * 365 * 3.
Definition DEVELOPMENT_ALLOCATION_DURATION_SECONDS : Z := 86400 * 365 * 3.
Definition DEVELOPMENT_ALLOCATION_PAYOUTS : Z :=
  DEVELOPMENT_ALLOCATION_END_HEIGHT / TARGET_BLOCKS_PER_DAY.
Definition DEVELOPMENT_SHARE_DENOMINATOR : Z := 20.
Definition development_constants : list Z :=
  [TARGET_BLOCKS_PER_DAY; DEVELOPMENT_ALLOCATION_END_HEIGHT; DEVELOPMENT_ALLOCATION_DURATION_SECONDS;
   DEVELOPMENT_ALLOCATION_PAYOUTS; DEVELOPMENT_SHARE_DENOMINATOR].

Record DevelopmentAllocation := mkDevelopmentAllocation {
  active : bool;
  payout_due : bool;
  share_each : Z;
  payout_each : option Z;
  alloc_miner_subsidy : Z
}.

Inductive DevelopmentAllocationError :=
| InexactRewardShare | PayoutOverflow | InexactInterval.

Definition development_allocation_end_height_with_schedule (schedule : ForkSchedule) : Z :=
  match v2 schedule with
  | None => DEVELOPMENT_ALLOCATION_END_HEIGHT
  | Some at' =>
      if DEVELOPMENT_ALLOCATION_END_HEIGHT <? v2_height at'
      then DEVELOPMENT_ALLOCATION_END_HEIGHT
      else
        let legacy_blocks := v2_height at' - 1 in
        let remaining :=
          DEVELOPMENT_ALLOCATION_DURATION_SECONDS - legacy_blocks * BLOCK_TIME in
        legacy_blocks + remaining / v2_block_time at'
  end.

Definition development_allocation_active (height : Z) : bool :=
  (0 <? height) && (height <=? DEVELOPMENT_ALLOCATION_END_HEIGHT).

Definition development_payout_due (height : Z) : bool :=
  development_allocation_active height && (height mod TARGET_BLOCKS_PER_DAY =? 0).

Definition development_share_each (subsidy : Z) : result DevelopmentAllocationError Z :=
  if negb (subsidy mod DEVELOPMENT_SHARE_DENOMINATOR =? 0) then Err InexactRewardShare
  else Ok (subsidy / DEVELOPMENT_SHARE_DENOMINATOR).

Definition inactive_allocation (subsidy : Z) : DevelopmentAllocation :=
  mkDevelopmentAllocation false false 0 None subsidy.

Definition development_allocation (child_height child_log_slots : Z)
  : result DevelopmentAllocationError DevelopmentAllocation :=
  let subsidy := block_reward child_log_slots in
  if negb (development_allocation_active child_height) then Ok (inactive_allocation subsidy)
  else
    share ← development_share_each subsidy;
    let due := development_payout_due child_height in
    payout ← (if due
              then Some <$> ok_or (checked_mul 64 share TARGET_BLOCKS_PER_DAY) PayoutOverflow
              else Ok None);
    Ok (mkDevelopmentAllocation true due share payout (subsidy - 2 * share)).

Definition development_allocation_with_schedule
  (height log_slots : Z) (schedule : ForkSchedule)
  : result DevelopmentAllocationError DevelopmentAllocation :=
  match v2 schedule with
  | Some at' =>
    if v2_height at' <=? height then
      if negb (86400 mod v2_block_time at' =? 0) then Err InexactInterval
      else
        let subsidy := block_reward_with_schedule height log_slots schedule in
        let end_height := development_allocation_end_height_with_schedule schedule in
        if end_height <? height then Ok (inactive_allocation subsidy)
        else
          share ← development_share_each subsidy;
          let interval := 86400 / v2_block_time at' in
          let elapsed := height - (v2_height at' - 1) in
          let count :=
            if height =? v2_height at' then None
            else if elapsed mod interval =? 0 then Some interval
            else if height =? end_height then Some (elapsed mod interval)
            else None in
          payout ← (match count with
                    | Some count => Some <$> ok_or (checked_mul 64 share count) PayoutOverflow
                    | None => Ok None
                    end);
          Ok (mkDevelopmentAllocation true (bool_decide (is_Some count)) share payout
                (subsidy - 2 * share))
    else development_allocation height log_slots
  | None => development_allocation height log_slots
  end.

Definition development_allocation_at_height (height log_slots : Z)
  : result DevelopmentAllocationError DevelopmentAllocation :=
  development_allocation_with_schedule height log_slots ACTIVE_SCHEDULE.

(** The [expect]s of the source: [None] is the panic. *)
Definition miner_subsidy_at_height (height log_slots : Z) : option Z :=
  match development_allocation_at_height height log_slots with
  | Ok a => Some (alloc_miner_subsidy a)
  | Err _ => None
  end.

Definition development_payout_due_at_height (height : Z) : option bool :=
  match development_allocation_at_height height LOG_SLOTS_GENESIS with
  | Ok a => Some (payout_due a)
  | Err _ => None
  end.

Definition miner_subsidy (height log_slots : Z) : option Z :=
  let subsidy := block_reward log_slots in
  if development_allocation_active height then
    match development_share_each subsidy with
    | Ok share => Some (subsidy - 2 * share)
    | Err _ => None
    end
  else Some subsidy.

(** The subsidy a block at [height] may create: the miner's part and the two
    payout outputs. *)
Definition allocation_issuance (a : DevelopmentAllocation) : Z :=
  alloc_miner_subsidy a + 2 * default 0 (payout_each a).

Definition max_coinbase_value_from_claimable_fee_sum_with_schedule
  (child_height child_log_slots claimable_fee_sum : Z) (schedule : ForkSchedule)
  : result DevelopmentAllocationError Z :=
  allocation ← development_allocation_with_schedule child_height child_log_slots schedule;
  Ok (alloc_miner_subsidy allocation + claimable_fee_sum).

Definition max_coinbase_value_from_claimable_fee_sum
  (child_height child_log_slots claimable_fee_sum : Z) : option Z :=
  match max_coinbase_value_from_claimable_fee_sum_with_schedule
          child_height child_log_slots claimable_fee_sum ACTIVE_SCHEDULE with
  | Ok v => Some v
  | Err _ => None
  end.

#[export] Hint Unfold V2_REWARD_INTERVAL_BLOCKS TARGET_BLOCKS_PER_DAY
  DEVELOPMENT_ALLOCATION_END_HEIGHT DEVELOPMENT_ALLOCATION_DURATION_SECONDS
  DEVELOPMENT_SHARE_DENOMINATOR : params.

(** ** Lemmas *)

(** The seven reward tiers of the legacy table. *)
Lemma block_reward_tiers ls :
  block_reward ls = nth (Z.to_nat (saturating_sub ls 24))
    [50000000; 25000000; 12500000; 6250000; 3125000; 1562500] 1000000.
Proof.
  unfold block_reward, saturating_sub, LOG_SLOTS_GENESIS.
  set (e := Z.max (ls - 24) 0). assert (He : 0 <= e) by lia.
  destruct (Z_lt_le_dec e 6) as [Hs|Hl].
  - assert (H : e = 0 \/ e = 1 \/ e = 2 \/ e = 3 \/ e = 4 \/ e = 5) by lia.
    destruct H as [->|[->|[->|[->|[->| ->]]]]]; reflexivity.
  - rewrite nth_overflow by (cbn; lia). unfold checked_shr64.
    case_test; boolify; [|reflexivity]. cbn [default from_option id].
    rewrite Z.shiftr_div_pow2 by lia.
    assert (2 ^ 6 <= 2 ^ e) by (apply Z.pow_le_mono_r; lia).
    assert (BASE_REWARD_MICRONOID / 2 ^ e <= BASE_REWARD_MICRONOID / 2 ^ 6)
      by (apply Z.div_le_compat_l; plia).
    change (BASE_REWARD_MICRONOID / 2 ^ 6) with 781250 in *. plia.
Qed.

Lemma nth_cases {A} (P : A -> Prop) (l : list A) d n :
  P d -> Forall P l -> P (nth n l d).
Proof.
  intros Hd H. revert n; induction H; intros [|n]; cbn; auto.
Qed.

Lemma block_reward_bounds ls : 1000000 <= block_reward ls <= 50000000.
Proof.
  rewrite block_reward_tiers. apply nth_cases; [lia|]. repeat constructor; lia.
Qed.

Lemma block_reward_divisible ls : block_reward ls mod 20 = 0.
Proof.
  rewrite block_reward_tiers. apply (nth_cases (fun r => r mod 20 = 0)); [reflexivity|].
  repeat constructor.
Qed.

Lemma v2_reward_bounds e : 0 <= e -> 1000000 <= v2_block_reward_at_elapsed e <= 16000000.
Proof.
  intros He. unfold v2_block_reward_at_elapsed.
  rewrite (nth_indep _ 0 1000000).
  - apply nth_cases; [lia|]. repeat constructor; lia.
  - cbn. lia.
Qed.

Lemma v2_reward_divisible e : v2_block_reward_at_elapsed e mod 20 = 0.
Proof.
  unfold v2_block_reward_at_elapsed.
  apply (nth_cases (fun r => r mod 20 = 0)); [reflexivity|]. repeat constructor.
Qed.

(** A list that never increases, read at a larger index. *)
Lemma nth_antitone (l : list Z) d i j :
  StronglySorted Z.ge l -> Forall (fun x => d <= x) l -> (i <= j)%nat -> nth j l d <= nth i l d.
Proof.
  intros Hs Hd. revert i j; induction Hs as [|x l Hs IH Hx]; intros i j Hij.
  - destruct i, j; cbn; lia.
  - pose proof (Forall_inv Hd) as Hd1. apply Forall_inv_tail in Hd.
    destruct i as [|i], j as [|j]; cbn; [lia| |lia|apply IH; [exact Hd|lia]].
    apply (nth_cases (fun y => y <= x)); [exact Hd1|].
    eapply Forall_impl; [exact Hx|]. cbn; lia.
Qed.

Lemma block_reward_antitone ls ls' : ls <= ls' -> block_reward ls' <= block_reward ls.
Proof.
  intros H. rewrite !block_reward_tiers. apply nth_antitone.
  - repeat constructor; lia.
  - repeat constructor; lia.
  - unfold saturating_sub. lia.
Qed.

Lemma v2_reward_antitone e e' :
  0 <= e <= e' -> v2_block_reward_at_elapsed e' <= v2_block_reward_at_elapsed e.
Proof.
  intros H. unfold v2_block_reward_at_elapsed. apply nth_antitone.
  - repeat constructor; lia.
  - repeat constructor; lia.
  - assert (e / V2_REWARD_INTERVAL_BLOCKS <= e' / V2_REWARD_INTERVAL_BLOCKS)
      by (apply Z.div_le_mono; plia).
    lia.
Qed.

Lemma reward_bounds s h ls :
  1000000 <= block_reward_with_schedule h ls s <= 50000000.
Proof.
  unfold block_reward_with_schedule. pose proof (block_reward_bounds ls).
  destruct (v2 s) as [a|]; [|lia]. case_test; boolify; [|lia].
  pose proof (v2_reward_bounds (h - v2_height a)). lia.
Qed.

Lemma reward_divisible s h ls : block_reward_with_schedule h ls s mod 20 = 0.
Proof.
  unfold block_reward_with_schedule.
  destruct (v2 s); [case_test|]; auto using v2_reward_divisible, block_reward_divisible.
Qed.

Lemma development_share_ok r :
  r mod 20 = 0 -> development_share_each r = Ok (r / 20).
Proof.
  unfold development_share_each, DEVELOPMENT_SHARE_DENOMINATOR. intros ->. reflexivity.
Qed.

Lemma share_reward s h ls :
  20 * (block_reward_with_schedule h ls s / 20) = block_reward_with_schedule h ls s.
Proof.
  pose proof (Z.div_mod (block_reward_with_schedule h ls s) 20).
  rewrite (reward_divisible s h ls) in *. lia.
Qed.

(** *** The allocation in closed form *)

Definition schedule_exact (s : ForkSchedule) : Prop :=
  schedule_ok s /\ forall a, v2 s = Some a -> 86400 mod v2_block_time a = 0.

(** Is [h] in the allocation period, and how many block shares does it pay out. *)
Definition eligible (s : ForkSchedule) (h : Z) : bool :=
  match v2 s with
  | Some a => if v2_height a <=? h
              then h <=? development_allocation_end_height_with_schedule s
              else development_allocation_active h
  | None => development_allocation_active h
  end.

Definition payout_count (s : ForkSchedule) (h : Z) : option Z :=
  let legacy := if h mod TARGET_BLOCKS_PER_DAY =? 0 then Some TARGET_BLOCKS_PER_DAY else None in
  match v2 s with
  | Some a =>
      if v2_height a <=? h then
        let interval := 86400 / v2_block_time a in
        let elapsed := h - (v2_height a - 1) in
        if h =? v2_height a then None
        else if elapsed mod interval =? 0 then Some interval
        else if h =? development_allocation_end_height_with_schedule s
             then Some (elapsed mod interval) else None
      else legacy
  | None => legacy
  end.

Definition expected_allocation (s : ForkSchedule) (h ls : Z) : DevelopmentAllocation :=
  let r := block_reward_with_schedule h ls s in
  if eligible s h then
    mkDevelopmentAllocation true (bool_decide (is_Some (payout_count s h))) (r / 20)
      ((fun c => r / 20 * c) <$> payout_count s h) (r - 2 * (r / 20))
  else inactive_allocation r.

Lemma checked_mul_share r c :
  1000000 <= r <= 50000000 -> c <= 86400 -> checked_mul 64 (r / 20) c = Some (r / 20 * c).
Proof.
  intros Hr Hc. apply checked_mul_some. split; [reflexivity|].
  assert (r / 20 <= 50000000 / 20) by (apply Z.div_le_mono; lia).
  assert (1000000 / 20 <= r / 20) by (apply Z.div_le_mono; lia).
  change (50000000 / 20) with 2500000 in *. change (1000000 / 20) with 50000 in *.
  change (2 ^ 64) with 18446744073709551616. nia.
Qed.

Lemma development_allocation_eq h ls :
  development_allocation h ls =
  let r := block_reward ls in
  Ok (if development_allocation_active h then
        let c := if h mod TARGET_BLOCKS_PER_DAY =? 0 then Some TARGET_BLOCKS_PER_DAY else None in
        mkDevelopmentAllocation true (bool_decide (is_Some c)) (r / 20)
          ((fun c => r / 20 * c) <$> c) (r - 2 * (r / 20))
      else inactive_allocation r).
Proof.
  unfold development_allocation, development_payout_due. cbv zeta.
  destruct (development_allocation_active h); [|reflexivity]. cbn [negb].
  rewrite (development_share_ok _ (block_reward_divisible ls)). cbn [mbind result_bind andb].
  case_test; cbn [mbind result_bind]; [|reflexivity].
  rewrite checked_mul_share; [reflexivity | apply block_reward_bounds |].
  vm_compute; discriminate.
Qed.

Lemma allocation_interval_bounds s a :
  schedule_exact s -> v2 s = Some a -> 1 <= 86400 / v2_block_time a <= 86400.
Proof.
  intros [Hs He] Ha. specialize (He a Ha). unfold schedule_ok, activation_ok in Hs.
  rewrite Ha in Hs. apply Z.div_exact in He; [|lia].
  split; [nia | apply Z.div_le_upper_bound; nia].
Qed.

Lemma allocation_eq s h ls :
  schedule_exact s ->
  development_allocation_with_schedule h ls s = Ok (expected_allocation s h ls).
Proof.
  intros Hs. unfold development_allocation_with_schedule, expected_allocation, eligible,
    payout_count.
  pose proof (reward_bounds s h ls) as Hr. pose proof (reward_divisible s h ls) as Hd.
  destruct (v2 s) as [a|] eqn:Ha.
  2: { rewrite development_allocation_eq. unfold block_reward_with_schedule. rewrite Ha.
       case_test; reflexivity. }
  destruct (v2_height a <=? h) eqn:Hh.
  2: { rewrite development_allocation_eq. unfold block_reward_with_schedule. rewrite Ha, Hh.
       case_test; reflexivity. }
  pose proof (allocation_interval_bounds s a Hs Ha) as Hi.
  rewrite (proj2 Hs a Ha), Z.eqb_refl. cbn [negb]. cbv zeta.
  rewrite Z.leb_antisym. case_test; [reflexivity|]. cbn [negb].
  rewrite (development_share_ok _ Hd). cbn [mbind result_bind].
  destruct (h =? v2_height a); [reflexivity|].
  destruct (_ mod _ =? 0); [rewrite checked_mul_share by lia; reflexivity|].
  destruct (h =? _); [|reflexivity].
  rewrite checked_mul_share; [reflexivity | exact Hr |].
  pose proof (Z.mod_pos_bound (h - (v2_height a - 1)) (86400 / v2_block_time a)). lia.
Qed.

Lemma ACTIVE_SCHEDULE_exact : schedule_exact ACTIVE_SCHEDULE.
Proof.
  split; [exact ACTIVE_SCHEDULE_ok|]. intros a [= <-]. reflexivity.
Qed.

(** *** Cumulative issuance

    [log_slots h] is the state depth of the block at height [h]; it never
    decreases along a chain. *)

(** What the blocks [1 .. n] issue, failing where the allocation fails. *)
Fixpoint issued (s : ForkSchedule) (log_slots : Z -> Z) (n : nat)
  : result DevelopmentAllocationError Z :=
  match n with
  | O => Ok 0
  | S n' =>
      before ← issued s log_slots n';
      let h := Z.of_nat n in
      a ← development_allocation_with_schedule h (log_slots h) s;
      Ok (before + allocation_issuance a)
  end.

(** The gross subsidy of the blocks [1 .. n]. *)
Fixpoint gross_subsidy (s : ForkSchedule) (log_slots : Z -> Z) (n : nat) : Z :=
  match n with
  | O => 0
  | S n' => gross_subsidy s log_slots n'
            + block_reward_with_schedule (Z.of_nat n) (log_slots (Z.of_nat n)) s
  end.

(** Block shares accrued at [h] and not yet paid. *)
Definition pending (s : ForkSchedule) (h : Z) : Z :=
  let legacy := if h <? DEVELOPMENT_ALLOCATION_END_HEIGHT
                then h mod TARGET_BLOCKS_PER_DAY else 0 in
  match v2 s with
  | Some a =>
      if v2_height a <=? h then
        if development_allocation_end_height_with_schedule s <=? h then 0
        else (h - (v2_height a - 1)) mod (86400 / v2_block_time a)
      else legacy
  | None => legacy
  end.

Lemma mod_pred k m :
  1 <= k -> 1 <= m ->
  (k - 1) mod m = if k mod m =? 0 then m - 1 else k mod m - 1.
Proof.
  intros Hk Hm. pose proof (Z.div_mod k m). pose proof (Z.mod_pos_bound k m).
  case_test; boolify; symmetry.
  - apply Z.mod_unique with (k / m - 1); lia.
  - apply Z.mod_unique with (k / m); lia.
Qed.

Lemma pending_nonneg s h : schedule_exact s -> 0 <= pending s h.
Proof.
  intros Hs. assert (0 <= h mod TARGET_BLOCKS_PER_DAY)
    by (apply Z.mod_pos_bound; vm_compute; reflexivity).
  unfold pending. destruct (v2 s) as [a|] eqn:Ha; [|case_test; lia].
  pose proof (allocation_interval_bounds s a Hs Ha).
  repeat case_test; try lia. apply Z.mod_pos_bound; lia.
Qed.

(** Within one rule set the reward never rises with the height. *)
Lemma reward_step s ls h :
  (forall h h', h <= h' -> ls h <= ls h') ->
  (forall a, v2 s = Some a -> h <> v2_height a) ->
  block_reward_with_schedule h (ls h) s <= block_reward_with_schedule (h - 1) (ls (h - 1)) s.
Proof.
  intros Hmono Hfork. unfold block_reward_with_schedule.
  assert (ls (h - 1) <= ls h) by (apply Hmono; lia).
  destruct (v2 s) as [a|]; [|now apply block_reward_antitone].
  specialize (Hfork a eq_refl).
  repeat case_test; boolify; try lia; [|now apply block_reward_antitone].
  apply v2_reward_antitone. lia.
Qed.

(** The pending count is discharged by a payout and otherwise grows by one. *)
Lemma pending_step s h :
  schedule_exact s -> 1 <= h -> eligible s h = true ->
  (forall a, v2 s = Some a -> h <> v2_height a) ->
  default 0 (payout_count s h) + pending s h = pending s (h - 1) + 1.
Proof.
  intros Hs Hh He Hfork. unfold eligible, payout_count, pending in *.
  assert (Hlegacy : development_allocation_active h = true ->
    default 0 (if h mod TARGET_BLOCKS_PER_DAY =? 0 then Some TARGET_BLOCKS_PER_DAY else None)
    + (if h <? DEVELOPMENT_ALLOCATION_END_HEIGHT then h mod TARGET_BLOCKS_PER_DAY else 0)
    = (if h - 1 <? DEVELOPMENT_ALLOCATION_END_HEIGHT
       then (h - 1) mod TARGET_BLOCKS_PER_DAY else 0) + 1).
  { unfold development_allocation_active. intros ?; boolify.
    rewrite (mod_pred h TARGET_BLOCKS_PER_DAY) by (try lia; vm_compute; discriminate).
    destruct (Z.eq_dec h DEVELOPMENT_ALLOCATION_END_HEIGHT) as [->|]; [reflexivity|].
    repeat case_test; boolify; cbn [default from_option id]; try lia. }
  destruct (v2 s) as [a|] eqn:Ha; [|auto].
  specialize (Hfork a eq_refl). pose proof (allocation_interval_bounds s a Hs Ha) as Hi.
  destruct (v2_height a <=? h) eqn:Hv; boolify.
  2: { replace (v2_height a <=? h - 1) with false by lia. auto. }
  replace (v2_height a <=? h - 1) with true by lia.
  replace (h =? v2_height a) with false by lia.
  replace (h - 1 - (v2_height a - 1)) with (h - (v2_height a - 1) - 1) by lia.
  rewrite (mod_pred (h - (v2_height a - 1))) by lia.
  repeat case_test; boolify; cbn [default from_option id]; lia.
Qed.

Lemma pending_fork s a :
  schedule_exact s -> v2 s = Some a ->
  payout_count s (v2_height a) = None /\ pending s (v2_height a) <= 1.
Proof.
  intros Hs Ha. pose proof (allocation_interval_bounds s a Hs Ha).
  unfold payout_count, pending. rewrite Ha, Z.leb_refl, Z.eqb_refl. split; [reflexivity|].
  case_test; [lia|]. replace (v2_height a - (v2_height a - 1)) with 1 by lia.
  apply Z.mod_le; lia.
Qed.

Lemma pending_ineligible s h : 1 <= h -> eligible s h = false -> pending s h = 0.
Proof.
  intros Hh. assert (Hl : development_allocation_active h = false ->
    (if h <? DEVELOPMENT_ALLOCATION_END_HEIGHT then h mod TARGET_BLOCKS_PER_DAY else 0) = 0).
  { unfold development_allocation_active. intros H.
    destruct (Z.ltb_spec h DEVELOPMENT_ALLOCATION_END_HEIGHT); [|reflexivity].
    replace (0 <? h) with true in H by lia. cbn [andb] in H. boolify. lia. }
  unfold eligible, pending. destruct (v2 s) as [a|]; [|exact Hl].
  case_test; [|exact Hl]. intros ?. boolify. case_test; boolify; lia.
Qed.

(** One block keeps enough of the gross subsidy unissued to cover the shares
    that are still to be paid at its own tier. *)
Lemma issuance_step s ls h (owed : Z) :
  schedule_exact s -> (forall h h', h <= h' -> ls h <= ls h') -> 1 <= h ->
  2 * (block_reward_with_schedule (h - 1) (ls (h - 1)) s / 20) * pending s (h - 1) <= owed ->
  let r := block_reward_with_schedule h (ls h) s in
  2 * (r / 20) * pending s h
  <= owed + r - allocation_issuance (expected_allocation s h (ls h)).
Proof.
  intros Hs Hmono Hh Howed r.
  pose proof (pending_nonneg s (h - 1) Hs).
  pose proof (reward_bounds s h (ls h)) as Hr. fold r in Hr.
  pose proof (reward_bounds s (h - 1) (ls (h - 1))) as Hr'.
  assert (0 <= r / 20) by (apply Z.div_pos; lia).
  assert (0 <= owed).
  { etransitivity; [|exact Howed]. assert (0 <= block_reward_with_schedule (h - 1) (ls (h - 1)) s / 20)
      by (apply Z.div_pos; lia). nia. }
  unfold expected_allocation, allocation_issuance. fold r. cbv zeta.
  destruct (eligible s h) eqn:He; cbn [inactive_allocation alloc_miner_subsidy payout_each].
  2: { rewrite (pending_ineligible s h Hh He). cbn. lia. }
  replace (default 0 ((fun c => r / 20 * c) <$> payout_count s h))
    with (r / 20 * default 0 (payout_count s h)) by (destruct (payout_count s h); cbn; lia).
  destruct (Z.eq_dec h (default (-1) (v2_height <$> v2 s))) as [Hf|Hf].
  - destruct (v2 s) as [a|] eqn:Ha; cbn in Hf; [|lia]. subst h.
    destruct (pending_fork s a Hs Ha) as [-> Hp]. cbn [default from_option id]. nia.
  - assert (Hnf : forall a, v2 s = Some a -> h <> v2_height a)
      by (intros a Ha; rewrite Ha in Hf; exact Hf).
    pose proof (pending_step s h Hs Hh He Hnf) as Hstep.
    pose proof (reward_step s ls h Hmono Hnf) as Hrew. fold r in Hrew.
    apply (Z.div_le_mono _ _ 20) in Hrew; [|lia].
    assert (r / 20 * pending s (h - 1)
            <= block_reward_with_schedule (h - 1) (ls (h - 1)) s / 20 * pending s (h - 1))
      by (apply Z.mul_le_mono_nonneg_r; lia).
    replace (pending s h) with (pending s (h - 1) + 1 - default 0 (payout_count s h)) by lia.
    lia.
Qed.

Lemma issued_invariant s ls n :
  schedule_exact s -> (forall h h', h <= h' -> ls h <= ls h') ->
  exists total, issued s ls n = Ok total
    /\ 2 * (block_reward_with_schedule (Z.of_nat n) (ls (Z.of_nat n)) s / 20)
         * pending s (Z.of_nat n)
       <= gross_subsidy s ls n - total.
Proof.
  intros Hs Hmono. induction n as [|n (total & Hi & Hinv)].
  - exists 0. split; [reflexivity|]. cbn [gross_subsidy].
    replace (pending s (Z.of_nat 0)) with 0; [lia|].
    unfold pending. destruct (v2 s) as [a|] eqn:Ha; [|reflexivity].
    destruct Hs as [Hs _]. unfold schedule_ok, activation_ok in Hs. rewrite Ha in Hs.
    destruct Hs as [(_ & _ & Hpos & _) _].
    destruct (Z.leb_spec (v2_height a) (Z.of_nat 0)); [cbn in *; lia | reflexivity].
  - eexists. cbn [issued gross_subsidy]. rewrite Hi. cbn [mbind result_bind].
    rewrite (allocation_eq s _ _ Hs). cbn [mbind result_bind]. split; [reflexivity|].
    pose proof (issuance_step s ls (Z.of_nat (S n)) (gross_subsidy s ls n - total) Hs Hmono) as H.
    replace (Z.of_nat (S n) - 1) with (Z.of_nat n) in H by lia.
    specialize (H ltac:(lia) Hinv). cbv zeta in H. lia.
Qed.

Lemma issued_bound s log_slots n :
  schedule_exact s -> (forall h h', h <= h' -> log_slots h <= log_slots h') ->
  exists total, issued s log_slots n = Ok total /\ total <= gross_subsidy s log_slots n.
Proof.
  intros Hs Hmono. destruct (issued_invariant s log_slots n Hs Hmono) as (t & H1 & H2).
  exists t. split; [exact H1|]. pose proof (pending_nonneg s (Z.of_nat n) Hs).
  pose proof (reward_bounds s (Z.of_nat n) (log_slots (Z.of_nat n))).
  assert (0 <= block_reward_with_schedule (Z.of_nat n) (log_slots (Z.of_nat n)) s / 20)
    by (apply Z.div_pos; lia). nia.
Qed.

Lemma issued_ext s f g n : (forall h, 1 <= h <= Z.of_nat n -> f h = g h) -> issued s f n = issued s g n.
Proof.
  induction n as [|n IH]; intros H; [reflexivity|]. cbn [issued]. rewrite IH by (intros h Hh; apply H; lia).
  now rewrite (H (Z.of_nat (S n))) by lia.
Qed.

Lemma gross_subsidy_bound s f n : gross_subsidy s f n <= 50000000 * Z.of_nat n.
Proof.
  induction n as [|n IH]; [cbn; lia|]. cbn [gross_subsidy]. pose proof (reward_bounds s (Z.of_nat (S n)) (f (Z.of_nat (S n)))). lia.
Qed.

Lemma release_allocation_ok height log_slots fees :
  exists m, miner_subsidy_at_height height log_slots = Some m
    /\ max_coinbase_value_from_claimable_fee_sum height log_slots fees = Some (m + fees).
Proof.
  unfold miner_subsidy_at_height, max_coinbase_value_from_claimable_fee_sum,
    max_coinbase_value_from_claimable_fee_sum_with_schedule, development_allocation_at_height.
  rewrite (allocation_eq _ height log_slots ACTIVE_SCHEDULE_exact). eauto.
Qed.

(** ** Properties *)

(** The development allocation never creates issuance: for every schedule
    whose v2 interval divides a day, and every chain whose state depth never
    shrinks, the allocation succeeds at every height and the subsidy issued by
    the blocks [1 .. n] (miner parts and daily payouts together) is at most
    their gross subsidy, across the fork, the reward steps and the final
    partial day. *)
Theorem issuance_bounded (s : ForkSchedule) (log_slots : Z -> Z) (n : nat) :
  schedule_exact s -> (forall h h', h <= h' -> log_slots h <= log_slots h') ->
  exists total, issued s log_slots n = Ok total /\ total <= gross_subsidy s log_slots n.
Proof.
  apply issued_bound.
Qed.

Lemma issuance_bounded_witness :
  exists total, issued (mkForkSchedule (Some 3) (Some (mkV2Activation 5 43200)))
                  (fun h => if h <? 3 then 24 else 25) 12 = Ok total
    /\ total <= gross_subsidy (mkForkSchedule (Some 3) (Some (mkV2Activation 5 43200)))
                  (fun h => if h <? 3 then 24 else 25) 12.
Proof.
  apply (issuance_bounded (mkForkSchedule (Some 3) (Some (mkV2Activation 5 43200)))
           (fun h => if h <? 3 then 24 else 25) 12).
  - split; [|intros a [= <-]; reflexivity].
    split; [|exists 3; split; [reflexivity | vm_compute; discriminate]].
    unfold activation_ok, in_range. vm_compute. intuition congruence.
  - intros h h' Hh. destruct (Z.ltb_spec h 3), (Z.ltb_spec h' 3); lia.
Defined.

(** On the release schedule nothing in the allocation can fail: at every
    height and state depth the result is [Ok], so the [expect]s of
    [miner_subsidy_at_height] and [max_coinbase_value_from_claimable_fee_sum]
    never panic, and the miner part is the whole reward outside the period and
    nine tenths of it inside. *)
Theorem release_allocation_total (height log_slots fees : Z) :
  exists m, miner_subsidy_at_height height log_slots = Some m
    /\ max_coinbase_value_from_claimable_fee_sum height log_slots fees = Some (m + fees)
    /\ 10 * m = (if eligible ACTIVE_SCHEDULE height then 9 else 10)
                * block_reward_at_height height log_slots.
Proof.
  unfold miner_subsidy_at_height, max_coinbase_value_from_claimable_fee_sum,
    max_coinbase_value_from_claimable_fee_sum_with_schedule, development_allocation_at_height.
  rewrite (allocation_eq _ height log_slots ACTIVE_SCHEDULE_exact). eexists.
  split; [reflexivity|]. split; [reflexivity|].
  unfold expected_allocation, block_reward_at_height.
  pose proof (share_reward ACTIVE_SCHEDULE height log_slots).
  destruct (eligible ACTIVE_SCHEDULE height); cbn [alloc_miner_subsidy inactive_allocation]; lia.
Qed.

(** The allocation period is exactly the largest prefix of heights whose
    target intervals fit in the three-year duration, for every well-formed
    schedule: a fork moves the end height but never the target duration. *)
Theorem allocation_end_exact (s : ForkSchedule) :
  schedule_ok s ->
  let e := development_allocation_end_height_with_schedule s in
  ideal_elapsed s 0 e <= DEVELOPMENT_ALLOCATION_DURATION_SECONDS
  < ideal_elapsed s 0 (e + 1).
Proof.
  unfold schedule_ok, activation_ok, in_range, ideal_elapsed,
    development_allocation_end_height_with_schedule.
  autounfold with params. intros Hs.
  change (24 * 60 * 60 / 20) with 4320.
  destruct (v2 s) as [a|]; [|unfold saturating_sub; lia].
  destruct Hs as [(Hh & Hb & Hh0 & Hb0) _].
  destruct (Z.ltb_spec (4320 * 365 * 3) (v2_height a)).
  - replace (v2_height a <=? 4320 * 365 * 3) with false by lia.
    case_test; boolify; unfold saturating_sub; [|lia].
    replace (v2_height a) with (4320 * 365 * 3 + 1) by lia.
    case_test; boolify; lia.
  - set (rem := 86400 * 365 * 3 - (v2_height a - 1) * 20).
    assert (Hrem : 0 < rem) by lia.
    pose proof (Z.div_mod rem (v2_block_time a)). pose proof (Z.mod_pos_bound rem (v2_block_time a)).
    assert (0 <= rem / v2_block_time a) by (apply Z.div_pos; lia).
    set (q := rem / v2_block_time a) in *.
    repeat case_test; boolify; unfold saturating_sub; try lia.
    all: rewrite ?Z.max_l by lia; nia.
Qed.

Lemma allocation_end_exact_witness :
  development_allocation_end_height_with_schedule ACTIVE_SCHEDULE = 3223778
  /\ ideal_elapsed ACTIVE_SCHEDULE 0 3223778 <= DEVELOPMENT_ALLOCATION_DURATION_SECONDS.
Proof.
  split; [reflexivity|]. apply (allocation_end_exact ACTIVE_SCHEDULE). exact ACTIVE_SCHEDULE_ok.
Defined.
