(* ===== verification/Codec.v ===== *)
(** * Byte readers and lawful codecs

    The cursor style of [noid_tx/src/wire.rs] and [noid_chain/src/wire.rs]
    ([src: &mut &[u8]], [take] with a [Truncated] error) as a parser monad, and
    the class of codecs whose encoder and decoder are inverse in both
    directions.  Each wire format of the development is an instance. *)

From Stdlib Require Import ZArith Lia.
From stdpp Require Import base numbers list option gmap.
From S2P Require Import Prelude.

Open Scope Z_scope.

(** ** The reader monad *)

Definition parser (E A : Type) : Type := list Z -> result E (A * list Z).

#[export] Instance parser_ret {E} : MRet (parser E) := fun A a src => Ok (a, src).
#[export] Instance parser_bind {E} : MBind (parser E) := fun A B f m src =>
  match m src with Ok (a, rest) => f a rest | Err e => Err e end.

Definition fail {E A} (e : E) : parser E A := fun _ => Err e.

Definition lift_result {E A} (r : result E A) : parser E A := fun src =>
  match r with Ok a => Ok (a, src) | Err e => Err e end.

(** ** Writers *)

Definition put_bytes (bytes : list Z) : list Z := bytes.
Definition put_uint (n : nat) (value : Z) : list Z := to_le_bytes n value.
Definition put_bool (b : bool) : list Z := [Z.b2z b].
Definition put_many {A} (enc : A -> list Z) (l : list A) : list Z := l ≫= enc.

(** ** Readers *)

Section Primitives.
Context {E : Type} (truncated invalid_bool : E).

(** [if src.len() < len { Err(Truncated) } else { split_at }]. *)
Definition take_bytes (len : nat) : parser E (list Z) := fun src =>
  if (length src <? len)%nat then Err truncated else Ok (take len src, drop len src).

Definition take_uint (n : nat) : parser E Z :=
  bytes ← take_bytes n; mret (from_le_bytes bytes).

Definition take_bool : parser E bool :=
  bytes ← take_bytes 1;
  match bytes with
  | [0] => mret false
  | [1] => mret true
  | _ => fail invalid_bool
  end.
End Primitives.

(** [for x in &mut array { *x = decode(src)? }]. *)
Fixpoint decode_many {E A} (dec : parser E A) (n : nat) : parser E (list A) :=
  match n with
  | O => mret []
  | S n' => x ← dec; xs ← decode_many dec n'; mret (x :: xs)
  end.

(** [from_bytes]: decode and reject trailing bytes. *)
Definition decode_exact {E A} (trailing : E) (dec : parser E A) (bytes : list Z) : result E A :=
  match dec bytes with
  | Ok (a, []) => Ok a
  | Ok (_, _ :: _) => Err trailing
  | Err e => Err e
  end.

(** ** Lawful codecs *)

Class LawfulCodec {E A} (enc : A -> list Z) (dec : parser E A) (wf : A -> Prop) : Prop := {
  codec_print_parse : forall a rest, wf a -> dec (enc a ++ rest) = Ok (a, rest);
  codec_parse_print : forall bs a rest,
    bytes_ok bs -> dec bs = Ok (a, rest) -> bs = enc a ++ rest /\ wf a
}.

Lemma parser_bind_ok {E A B} (m : parser E A) (f : A -> parser E B) bs b rest :
  (m ≫= f) bs = Ok (b, rest) <-> exists a mid, m bs = Ok (a, mid) /\ f a mid = Ok (b, rest).
Proof.
  unfold mbind, parser_bind. destruct (m bs) as [[a mid]|e].
  - split; [eauto|]. intros (a' & mid' & [= -> ->] & H). exact H.
  - split; [discriminate|]. intros (a' & mid' & [=] & _).
Qed.

Lemma parser_bind_run {E A B} (m : parser E A) (f : A -> parser E B) bs a mid :
  m bs = Ok (a, mid) -> (m ≫= f) bs = f a mid.
Proof. unfold mbind, parser_bind. intros ->. reflexivity. Qed.

Lemma bytes_ok_app a b : bytes_ok (a ++ b) <-> bytes_ok a /\ bytes_ok b.
Proof. apply Forall_app. Qed.

Lemma lawful_inj {E A} (enc : A -> list Z) (dec : parser E A) wf `{!LawfulCodec enc dec wf} a b :
  wf a -> wf b -> enc a = enc b -> a = b.
Proof.
  intros Ha Hb H. pose proof (codec_print_parse a [] Ha) as H1.
  rewrite H, (codec_print_parse b [] Hb) in H1. congruence.
Qed.

(** The two steps of a record codec proof. *)
Ltac codec_print :=
  repeat rewrite <- app_assoc;
  repeat (erewrite parser_bind_run by (apply codec_print_parse; eauto); cbv beta).
Ltac codec_parse H :=
  repeat (apply parser_bind_ok in H;
    let a := fresh "v" in let mid := fresh "mid" in let H1 := fresh "Hf" in
    destruct H as (a & mid & H1 & H);
    apply codec_parse_print in H1;
      [let Hw := fresh "Hw" in destruct H1 as [-> Hw]
      |repeat match goal with Hb : bytes_ok (_ ++ _) |- _ => apply bytes_ok_app in Hb; destruct Hb end;
       assumption];
    repeat match goal with Hb : bytes_ok (_ ++ _) |- _ => apply bytes_ok_app in Hb; destruct Hb end).

Section PrimitiveLaws.
Context {E : Type} (truncated invalid_bool : E).

#[export] Instance lawful_bytes n :
  LawfulCodec put_bytes (take_bytes truncated n) (array_ok n).
Proof.
  split; unfold take_bytes, put_bytes.
  - intros a rest [Hl Hb]. rewrite length_app.
    destruct (Nat.ltb_spec (length a + length rest) n); [lia|].
    rewrite take_app_length', drop_app_length' by auto. reflexivity.
  - intros bs a rest Hb. destruct (Nat.ltb_spec (length bs) n); [discriminate|].
    intros [= <- <-]. split; [symmetry; apply take_drop|].
    split; [rewrite length_take; lia | apply Forall_take; exact Hb].
Qed.

#[export] Instance lawful_uint n :
  LawfulCodec (put_uint n) (take_uint truncated n) (in_range (8 * Z.of_nat n)).
Proof.
  split; unfold take_uint.
  - intros a rest Ha. change (put_uint n a) with (put_bytes (to_le_bytes n a)).
    erewrite parser_bind_run by (apply codec_print_parse; apply to_le_bytes_array).
    unfold mret, parser_ret. now rewrite from_to_le_bytes_id.
  - intros bs a rest Hb H. apply parser_bind_ok in H as (d & mid & H1 & [= <- <-]).
    apply codec_parse_print in H1 as [-> [Hl Hd]]; [|exact Hb].
    split; [|rewrite <- Hl; now apply from_le_bytes_bounds].
    unfold put_uint, put_bytes. rewrite <- Hl at 1. now rewrite to_from_le_bytes.
Qed.

#[export] Instance lawful_bool :
  LawfulCodec put_bool (take_bool truncated invalid_bool) (fun _ => True).
Proof.
  split; unfold take_bool.
  - intros b rest _. change (put_bool b) with (put_bytes [Z.b2z b]).
    erewrite parser_bind_run.
    2: { apply codec_print_parse. split; [reflexivity|].
         repeat constructor; destruct b; cbn; lia. }
    destruct b; reflexivity.
  - intros bs b rest Hb H. apply parser_bind_ok in H as (d & mid & H1 & H).
    apply codec_parse_print in H1 as [-> [Hl Hd]]; [|exact Hb].
    destruct d as [|x [|y d]]; try discriminate.
    destruct x as [|[p|p|]|p]; try discriminate; injection H as <- <-; auto.
Qed.

#[export] Instance lawful_many {A} (enc : A -> list Z) (dec : parser E A) wf n
    `{!LawfulCodec enc dec wf} :
  LawfulCodec (put_many enc) (decode_many dec n)
    (fun l => length l = n /\ Forall wf l).
Proof.
  split.
  - induction n as [|n IH]; intros l rest [Hl Hw].
    + destruct l; [reflexivity|discriminate].
    + destruct l as [|x l]; [discriminate|]. apply Forall_cons in Hw as [Hx Hw].
      cbn [decode_many]. unfold put_many. rewrite bind_cons, <- app_assoc.
      erewrite parser_bind_run by (apply codec_print_parse; exact Hx).
      erewrite parser_bind_run by (apply IH; split; [now injection Hl|exact Hw]). reflexivity.
  - induction n as [|n IH]; intros bs l rest Hb H; cbn [decode_many] in H.
    + injection H as <- <-. repeat split. constructor.
    + apply parser_bind_ok in H as (x & mid & H1 & H).
      apply codec_parse_print in H1 as [-> Hx]; [|exact Hb].
      apply bytes_ok_app in Hb as [_ Hb].
      apply parser_bind_ok in H as (xs & mid' & H2 & [= <- <-]).
      destruct (IH _ _ _ Hb H2) as [-> [Hl Hw]].
      unfold put_many. rewrite bind_cons, <- app_assoc. repeat split; [cbn; congruence|constructor; auto].
Qed.
End PrimitiveLaws.

(** A validation step after the fields, as in [TxBody::decode]. *)
Lemma lawful_checked {E A} (enc : A -> list Z) (dec : parser E A) wf
    `{!LawfulCodec enc dec wf} (check : A -> result E unit) :
  LawfulCodec enc (a ← dec; _ ← lift_result (check a); mret a)
    (fun a => wf a /\ check a = Ok tt).
Proof.
  split.
  - intros a rest [Ha Hc]. erewrite parser_bind_run by (apply codec_print_parse; exact Ha).
    unfold mbind, parser_bind, lift_result. rewrite Hc. reflexivity.
  - intros bs a rest Hb H. apply parser_bind_ok in H as (a' & mid & H1 & H).
    apply codec_parse_print in H1 as [-> Ha]; [|exact Hb].
    unfold mbind, parser_bind, lift_result in H.
    destruct (check a') as [[]|] eqn:Hc; [|discriminate]. injection H as <- <-. auto.
Qed.

(** [decode_exact] is the exact inverse of a lawful encoder. *)
Lemma decode_exact_iff {E A} (enc : A -> list Z) (dec : parser E A) wf
    `{!LawfulCodec enc dec wf} (trailing : E) bs a :
  bytes_ok bs ->
  decode_exact trailing dec bs = Ok a <-> bs = enc a /\ wf a.
Proof.
  intros Hb. unfold decode_exact. split.
  - destruct (dec bs) as [[a' [|]]|] eqn:Hd; try discriminate. intros [= ->].
    apply codec_parse_print in Hd as [-> Hw]; [|exact Hb]. now rewrite app_nil_r.
  - intros [-> Hw]. rewrite <- (app_nil_r (enc a)), codec_print_parse by exact Hw. reflexivity.
Qed.

(** ** Fixed-size parsers *)

(** [dec] reads exactly [n] bytes and fails only when there are fewer. *)
Definition fixed_size {E A} (truncated : E) (n : nat) (dec : parser E A) : Prop :=
  forall bs, ((length bs < n)%nat -> dec bs = Err truncated)
             /\ ((n <= length bs)%nat -> exists a, dec bs = Ok (a, drop n bs)).

Lemma fixed_ret {E A} (truncated : E) (a : A) : fixed_size truncated 0 (mret a).
Proof. intros bs. split; [lia|]. intros _. now exists a. Qed.

Lemma fixed_bytes {E} (truncated : E) n : fixed_size truncated n (take_bytes truncated n).
Proof.
  intros bs. unfold take_bytes. destruct (Nat.ltb_spec (length bs) n); split; try lia; [reflexivity|eauto].
Qed.

Lemma fixed_bind {E A B} (truncated : E) n k (m : parser E A) (f : A -> parser E B) :
  fixed_size truncated n m -> (forall a, fixed_size truncated k (f a)) ->
  fixed_size truncated (n + k) (m ≫= f).
Proof.
  intros Hm Hf bs. unfold mbind, parser_bind. destruct (Hm bs) as [H1 H2].
  destruct (Nat.lt_ge_cases (length bs) n) as [Hl|Hl].
  - rewrite (H1 Hl). split; [reflexivity|lia].
  - destruct (H2 Hl) as [a ->]. destruct (Hf a (drop n bs)) as [H3 H4].
    rewrite length_drop in H3, H4. rewrite <- drop_drop. split; intros; [apply H3; lia|apply H4; lia].
Qed.

Lemma fixed_uint {E} (truncated : E) n : fixed_size truncated n (take_uint truncated n).
Proof.
  unfold take_uint. rewrite <- (Nat.add_0_r n) at 1.
  apply fixed_bind; [apply fixed_bytes|intros a; apply fixed_ret].
Qed.

(** Exact decoding of a fixed-size format is decided by the length. *)
Lemma fixed_decode_exact {E A} (truncated trailing : E) n (dec : parser E A) bs :
  fixed_size truncated n dec ->
  match (length bs ?= n)%nat with
  | Lt => decode_exact trailing dec bs = Err truncated
  | Eq => exists a, decode_exact trailing dec bs = Ok a
  | Gt => decode_exact trailing dec bs = Err trailing
  end.
Proof.
  intros H. destruct (H bs) as [H1 H2]. unfold decode_exact.
  destruct (Nat.compare_spec (length bs) n) as [Hl|Hl|Hl].
  - destruct H2 as [a ->]; [lia|]. rewrite drop_ge by lia. eauto.
  - now rewrite H1.
  - destruct H2 as [a ->]; [lia|]. destruct (drop n bs) eqn:Ed; [|reflexivity].
    apply (f_equal length) in Ed. rewrite length_drop in Ed. cbn in Ed. lia.
Qed.
