(* ===== verification/Tx.v ===== *)
(** * Transaction bodies and their public logic

    [noid_tx/src/types.rs] (the fixed eight-input, two-output body),
    [noid_tx/src/public_logic.rs] (the canonical checks every layer shares) and
    [noid_tx/src/body_hash.rs] (the sixteen leaves the transaction id commits
    to).  [validate_body_semantics_no_hash] is proved equivalent to a
    declarative description of a canonical body. *)

From Stdlib Require Import ZArith Lia.
From stdpp Require Import base numbers list option gmap.
From S2P Require Import Prelude.

Open Scope Z_scope.

(** ** Data *)

Definition TX_INPUTS : nat := 8.
Definition TX_OUTPUTS : nat := 2.
Definition TX_ACTIONS : nat := TX_INPUTS + TX_OUTPUTS.
Definition TX_VALIDITY_MASK : Z := Z.shiftl 1 (Z.of_nat TX_ACTIONS) - 1.
Definition tx_constants : list nat * Z := ([TX_INPUTS; TX_OUTPUTS; TX_ACTIONS], TX_VALIDITY_MASK).

Definition output_bitmap_bit (index : nat) : Z := Z.shiftl 1 (Z.of_nat (TX_INPUTS + index)).

(** [Block128] lanes are [u128] values. *)
Definition pack_amount_creation_id (amount creation_id : Z) : Z :=
  Z.lor (Z.shiftl creation_id 64) amount.

Definition unpack_amount_creation_id (packed : Z) : Z * Z :=
  (packed mod 2 ^ 64, Z.shiftr packed 64 mod 2 ^ 64).

Definition ZERO_DIGEST : list Z := replicate 32 0.

Record TxInput := mkTxInput { in_slot_index : Z; in_amount : Z; in_creation_id : Z }.
Record TxOutput := mkTxOutput { out_slot_index : Z; out_amount : Z; out_owner : list Z }.

Definition TxInput_dummy : TxInput := mkTxInput 0 0 0.
Definition TxOutput_dummy : TxOutput := mkTxOutput 0 0 ZERO_DIGEST.

Record TxBody := mkTxBody {
  epoch_anchor : list Z;
  fee : Z;
  input_owner : list Z;
  inputs : list TxInput;
  outputs : list TxOutput;
  validity_bitmap : Z;
  is_coinbase : bool
}.

Abbreviation Transaction := TxBody (only parsing).

#[export] Instance TxInput_eq_dec : EqDecision TxInput.
Proof. solve_decision. Defined.
#[export] Instance TxOutput_eq_dec : EqDecision TxOutput.
Proof. solve_decision. Defined.
#[export] Instance TxBody_eq_dec : EqDecision TxBody.
Proof. solve_decision. Defined.

(** ** Liveness *)

Definition is_primary_coinbase_shape (body : TxBody) : bool :=
  is_coinbase body && (validity_bitmap body =? output_bitmap_bit 0).

Definition is_development_payout_shape (body : TxBody) : bool :=
  is_coinbase body
  && (validity_bitmap body =? Z.lor (output_bitmap_bit 0) (output_bitmap_bit 1)).

Definition input_is_live (body : TxBody) (index : nat) : bool :=
  (index <? TX_INPUTS)%nat
  && negb (Z.land (validity_bitmap body) (Z.shiftl 1 (Z.of_nat index)) =? 0).

Definition output_is_live (body : TxBody) (index : nat) : bool :=
  (index <? TX_OUTPUTS)%nat
  && negb (Z.land (validity_bitmap body) (output_bitmap_bit index) =? 0).

Definition enumerate {A} (l : list A) : list (nat * A) := imap pair l.

Definition live_inputs (body : TxBody) : list (nat * TxInput) :=
  filter (fun p => input_is_live body p.1 = true) (enumerate (inputs body)).

Definition live_outputs (body : TxBody) : list (nat * TxOutput) :=
  filter (fun p => output_is_live body p.1 = true) (enumerate (outputs body)).

(** [count_ones] of a [w]-bit value. *)
Definition count_ones (w : nat) (x : Z) : Z :=
  Zsum ((fun i => Z.b2z (Z.testbit x (Z.of_nat i))) <$> seq 0 w).

Definition live_input_count (body : TxBody) : Z :=
  count_ones 16 (Z.land (validity_bitmap body) 255).

Definition live_output_count (body : TxBody) : Z :=
  count_ones 16 (Z.land (Z.shiftr (validity_bitmap body) (Z.of_nat TX_INPUTS)) 3).

(** ** Public logic *)

Inductive PublicLogicError :=
| Coinbase
| BitmapHighBits (bitmap : Z)
| DeadInputNotZero (index : nat)
| DeadOutputNotZero (index : nat)
| NoLiveInputs
| CoinbaseInputOwner
| CoinbaseBitmap (bitmap : Z)
| DuplicateInputSlot (slot : Z)
| DuplicateOutputSlot (slot : Z)
| InputOutputSlotOverlap (slot : Z)
| InputSumOverflow
| OutputSumOverflow
| OutputPlusFeeOverflow
| BalanceMismatch (input_sum output_sum fee : Z).

(** The loop body over the live inputs: [HashSet::insert] returns whether the
    slot was new. *)
Definition insert_input_slot (seen : gset Z) (p : nat * TxInput)
  : result PublicLogicError (gset Z) :=
  let slot := in_slot_index p.2 in
  if bool_decide (slot ∈ seen) then Err (DuplicateInputSlot slot)
  else Ok ({[slot]} ∪ seen).

Definition insert_output_slot (ins : gset Z) (seen : gset Z) (p : nat * TxOutput)
  : result PublicLogicError (gset Z) :=
  let slot := out_slot_index p.2 in
  if bool_decide (slot ∈ seen) then Err (DuplicateOutputSlot slot)
  else if bool_decide (slot ∈ ins) then Err (InputOutputSlotOverlap slot)
  else Ok ({[slot]} ∪ seen).

Definition unique_slots (body : TxBody) : result PublicLogicError unit :=
  ins ← fold_result insert_input_slot ∅ (live_inputs body);
  _ ← fold_result (insert_output_slot ins) ∅ (live_outputs body);
  Ok tt.

(** Checked accumulation of amounts in [u128]. *)
Definition add_amount {A} (amount : A -> Z) (e : PublicLogicError) (sum : Z) (p : nat * A)
  : result PublicLogicError Z :=
  ok_or (checked_add 128 sum (amount p.2)) e.

Definition sums (body : TxBody) : result PublicLogicError (Z * Z * Z * Z) :=
  input_sum ← fold_result (add_amount in_amount InputSumOverflow) 0 (live_inputs body);
  output_sum ← fold_result (add_amount out_amount OutputSumOverflow) 0 (live_outputs body);
  Ok (live_input_count body, live_output_count body, input_sum, output_sum).

Definition check_dead_input (body : TxBody) (_ : unit) (p : nat * TxInput)
  : result PublicLogicError unit :=
  ensure (input_is_live body p.1 || bool_decide (p.2 = TxInput_dummy)) (DeadInputNotZero p.1).

Definition check_dead_output (body : TxBody) (_ : unit) (p : nat * TxOutput)
  : result PublicLogicError unit :=
  ensure (output_is_live body p.1 || bool_decide (p.2 = TxOutput_dummy)) (DeadOutputNotZero p.1).

Definition validate_body_semantics_no_hash (body : TxBody) : result PublicLogicError unit :=
  let bitmap := validity_bitmap body in
  _ ← ensure (Z.land bitmap (umax 16 - TX_VALIDITY_MASK) =? 0) (BitmapHighBits bitmap);
  _ ← fold_result (check_dead_input body) tt (enumerate (inputs body));
  _ ← fold_result (check_dead_output body) tt (enumerate (outputs body));
  if is_coinbase body then
    _ ← ensure (bool_decide (input_owner body = ZERO_DIGEST)) CoinbaseInputOwner;
    let primary := output_bitmap_bit 0 in
    let development := Z.lor (output_bitmap_bit 0) (output_bitmap_bit 1) in
    _ ← ensure (((bitmap =? primary) || (bitmap =? development)) && (fee body =? 0))
          (CoinbaseBitmap bitmap);
    unique_slots body
  else
    _ ← ensure (negb (live_input_count body =? 0)) NoLiveInputs;
    _ ← unique_slots body;
    totals ← sums body;
    let '(_, _, input_sum, output_sum) := totals in
    expected ← ok_or (checked_add 128 output_sum (fee body)) OutputPlusFeeOverflow;
    _ ← ensure (input_sum =? expected) (BalanceMismatch input_sum output_sum (fee body));
    Ok tt.

(** ** The transaction id

    The sixteen two-lane leaves; the tree over them is the hash the caller
    supplies. *)

Definition digest_fields (d : list Z) : Z * Z :=
  (from_le_bytes (take 16 d), from_le_bytes (drop 16 d)).

Definition input_leaf (input : TxInput) : Z * Z :=
  (in_slot_index input, pack_amount_creation_id (in_amount input) (in_creation_id input)).

Definition output_leaves (output : TxOutput) : list (Z * Z) :=
  [(out_slot_index output, out_amount output); digest_fields (out_owner output)].

Definition body_hash_leaves (body : TxBody) : list (Z * Z) :=
  [digest_fields (epoch_anchor body); (fee body, 0); digest_fields (input_owner body)]
  ++ (input_leaf <$> inputs body)
  ++ (outputs body ≫= output_leaves)
  ++ [(validity_bitmap body, Z.b2z (is_coinbase body))].

Record PublicLogicFacts := mkPublicLogicFacts {
  fact_tx_body_hash : list Z;
  fact_fee_u64 : Z;
  fact_n_live_inputs : Z;
  fact_n_live_outputs : Z;
  fact_input_sum : Z;
  fact_output_sum : Z
}.

Section WithTxHash.
(** [hash_tx8x2_leaves] of the hash crate. *)
Variable hash_tx8x2_leaves : list (Z * Z) -> list Z.

Definition hash_tx_body (body : TxBody) : list Z :=
  hash_tx8x2_leaves (body_hash_leaves body).

Definition validate_public_tx_logic (body : TxBody) : result PublicLogicError PublicLogicFacts :=
  if is_coinbase body then Err Coinbase
  else
    _ ← validate_body_semantics_no_hash body;
    totals ← sums body;
    let '(n_in, n_out, input_sum, output_sum) := totals in
    Ok (mkPublicLogicFacts (hash_tx_body body) (fee body) n_in n_out input_sum output_sum).
End WithTxHash.

(** ** Types of the fields *)

Definition input_wf (i : TxInput) : Prop :=
  u32 (in_slot_index i) /\ u64 (in_amount i) /\ u64 (in_creation_id i).
Definition output_wf (o : TxOutput) : Prop :=
  u32 (out_slot_index o) /\ u64 (out_amount o) /\ digest_ok (out_owner o).
Record body_wf (b : TxBody) : Prop := {
  wf_epoch_anchor : digest_ok (epoch_anchor b);
  wf_fee : u64 (fee b);
  wf_input_owner : digest_ok (input_owner b);
  wf_inputs : length (inputs b) = TX_INPUTS /\ Forall input_wf (inputs b);
  wf_outputs : length (outputs b) = TX_OUTPUTS /\ Forall output_wf (outputs b);
  wf_bitmap : u16 (validity_bitmap b)
}.

(** ** Specification of a canonical body *)

Definition in_slots (b : TxBody) : list Z := (fun p => in_slot_index p.2) <$> live_inputs b.
Definition out_slots (b : TxBody) : list Z := (fun p => out_slot_index p.2) <$> live_outputs b.
Definition in_total (b : TxBody) : Z := Zsum ((fun p => in_amount p.2) <$> live_inputs b).
Definition out_total (b : TxBody) : Z := Zsum ((fun p => out_amount p.2) <$> live_outputs b).

Record canonical (b : TxBody) : Prop := {
  can_bitmap : 0 <= validity_bitmap b < 1024;
  can_dead_inputs : forall i x, inputs b !! i = Some x ->
    Z.testbit (validity_bitmap b) (Z.of_nat i) = false -> x = TxInput_dummy;
  can_dead_outputs : forall i x, outputs b !! i = Some x ->
    Z.testbit (validity_bitmap b) (8 + Z.of_nat i) = false -> x = TxOutput_dummy;
  can_slots : NoDup (in_slots b ++ out_slots b);
  can_kind : if is_coinbase b
    then input_owner b = ZERO_DIGEST /\ fee b = 0
         /\ (validity_bitmap b = 256 \/ validity_bitmap b = 768)
    else live_inputs b <> [] /\ in_total b = out_total b + fee b
}.

(** ** Lemmas *)

Lemma input_is_live_testbit b i :
  input_is_live b i = (i <? 8)%nat && Z.testbit (validity_bitmap b) (Z.of_nat i).
Proof.
  unfold input_is_live, TX_INPUTS. f_equal. rewrite Z.shiftl_1_l, land_pow2 by lia.
  destruct (Z.testbit _ _); [|reflexivity].
  pose proof (pow2_pos (Z.of_nat i)). destruct (Z.eqb_spec (2 ^ Z.of_nat i) 0); [lia|reflexivity].
Qed.

Lemma output_is_live_testbit b i :
  output_is_live b i = (i <? 2)%nat && Z.testbit (validity_bitmap b) (8 + Z.of_nat i).
Proof.
  unfold output_is_live, output_bitmap_bit, TX_INPUTS, TX_OUTPUTS. f_equal.
  replace (Z.of_nat (8 + i)) with (8 + Z.of_nat i) by lia.
  rewrite Z.shiftl_1_l, land_pow2 by lia.
  destruct (Z.testbit _ _); [|reflexivity].
  pose proof (pow2_pos (8 + Z.of_nat i)).
  destruct (Z.eqb_spec (2 ^ (8 + Z.of_nat i)) 0); [lia|reflexivity].
Qed.

Lemma enumerate_elem {A} (l : list A) p : p ∈ enumerate l <-> l !! p.1 = Some p.2.
Proof.
  unfold enumerate. rewrite list_elem_of_lookup. destruct p as [i x]. cbn. split.
  - intros (j & Hj). rewrite list_lookup_imap in Hj. destruct (l !! j) eqn:E; cbn in Hj;
      [|discriminate]. injection Hj as <- <-. exact E.
  - intros H. exists i. rewrite list_lookup_imap, H. reflexivity.
Qed.

Lemma Forall_enumerate {A} (P : nat * A -> Prop) (l : list A) :
  Forall P (enumerate l) <-> forall i x, l !! i = Some x -> P (i, x).
Proof.
  rewrite Forall_forall. split.
  - intros H i x Hi. apply H, enumerate_elem. exact Hi.
  - intros H [i x] Hp%enumerate_elem. now apply H.
Qed.

Lemma live_inputs_elem b p :
  p ∈ live_inputs b -> inputs b !! p.1 = Some p.2.
Proof. unfold live_inputs. rewrite list_elem_of_filter, enumerate_elem. tauto. Qed.

Lemma live_outputs_elem b p :
  p ∈ live_outputs b -> outputs b !! p.1 = Some p.2.
Proof. unfold live_outputs. rewrite list_elem_of_filter, enumerate_elem. tauto. Qed.

Lemma live_inputs_wf b : body_wf b -> Forall (fun p => input_wf p.2) (live_inputs b).
Proof.
  intros [_ _ _ [_ H] _ _]. apply Forall_forall. intros p Hp.
  apply live_inputs_elem in Hp. eapply Forall_lookup_1; eauto.
Qed.

Lemma live_outputs_wf b : body_wf b -> Forall (fun p => output_wf p.2) (live_outputs b).
Proof.
  intros [_ _ _ _ [_ H] _]. apply Forall_forall. intros p Hp.
  apply live_outputs_elem in Hp. eapply Forall_lookup_1; eauto.
Qed.

Lemma length_live_inputs b : (length (live_inputs b) <= length (inputs b))%nat.
Proof.
  unfold live_inputs. etransitivity; [apply length_filter|]. unfold enumerate.
  now rewrite length_imap.
Qed.

Lemma length_live_outputs b : (length (live_outputs b) <= length (outputs b))%nat.
Proof.
  unfold live_outputs. etransitivity; [apply length_filter|]. unfold enumerate.
  now rewrite length_imap.
Qed.

(** Sums of [u64] amounts over a short list cannot reach [u128]. *)
Lemma Zsum_bound {A} (f : A -> Z) (l : list A) B :
  Forall (fun x => 0 <= f x < B) l -> 0 <= Zsum (f <$> l) <= Z.of_nat (length l) * B.
Proof.
  induction 1; [cbn; lia|]. rewrite fmap_cons, Zsum_cons. cbn [length]. lia.
Qed.

Lemma in_total_bound b : body_wf b -> 0 <= in_total b <= 8 * 2 ^ 64.
Proof.
  intros Hb. pose proof (live_inputs_wf b Hb) as Hw. destruct (wf_inputs b Hb) as [Hlen _].
  pose proof (length_live_inputs b) as Hll. unfold TX_INPUTS in *.
  destruct (Zsum_bound (fun p => in_amount p.2) (live_inputs b) (2 ^ 64)) as [H1 H2].
  { eapply Forall_impl; [exact Hw|]. intros p (_ & H & _). exact H. }
  unfold in_total. nia.
Qed.

Lemma out_total_bound b : body_wf b -> 0 <= out_total b <= 2 * 2 ^ 64.
Proof.
  intros Hb. pose proof (live_outputs_wf b Hb) as Hw. destruct (wf_outputs b Hb) as [Hlen _].
  pose proof (length_live_outputs b) as Hll. unfold TX_OUTPUTS in *.
  destruct (Zsum_bound (fun p => out_amount p.2) (live_outputs b) (2 ^ 64)) as [H1 H2].
  { eapply Forall_impl; [exact Hw|]. intros p (_ & H & _). exact H. }
  unfold out_total. nia.
Qed.

(** Counting the indices a predicate selects. *)
Lemma length_filter_enumerate {A} (f : nat -> bool) (l : list A) :
  Z.of_nat (length (filter (fun p => f p.1 = true) (enumerate l)))
  = Zsum ((fun i => Z.b2z (f i)) <$> seq 0 (length l)).
Proof.
  unfold enumerate.
  cut (forall k, Z.of_nat (length (filter (fun p => f p.1 = true) (imap (fun i x => (k + i, x)%nat) l)))
       = Zsum ((fun i => Z.b2z (f i)) <$> seq k (length l))).
  { intros H. apply (H 0%nat). }
  induction l as [|x l IH]; intros k; [reflexivity|].
  cbn [imap length seq]. rewrite fmap_cons, Zsum_cons, <- IH.
  rewrite filter_cons. cbn [fst]. replace (k + 0)%nat with k by lia.
  rewrite (imap_ext _ (fun i x => (S k + i, x)%nat))
    by (intros; unfold compose; cbn; f_equal; lia).
  case_decide as Hd; [rewrite Hd; cbn [length Z.b2z]; lia|].
  destruct (f k); [contradiction|]. cbn [Z.b2z]. lia.
Qed.

Lemma Zsum_map_ext {A} (f g : A -> Z) l :
  (forall x, x ∈ l -> f x = g x) -> Zsum (f <$> l) = Zsum (g <$> l).
Proof.
  intros H. induction l as [|x l IH]; [reflexivity|]. rewrite !fmap_cons, !Zsum_cons.
  rewrite H by left. rewrite IH; [reflexivity|]. intros y Hy. apply H. now right.
Qed.

Lemma Zsum_map_zero {A} (f : A -> Z) l :
  (forall x, x ∈ l -> f x = 0) -> Zsum (f <$> l) = 0.
Proof.
  intros H. induction l as [|x l IH]; [reflexivity|]. rewrite fmap_cons, Zsum_cons.
  rewrite H by left. rewrite IH; [reflexivity|]. intros y Hy. apply H. now right.
Qed.

(** A masked popcount only counts the bits below the mask. *)
Lemma count_ones_mask x m k :
  (m <= k)%nat ->
  count_ones k (Z.land x (Z.ones (Z.of_nat m)))
  = Zsum ((fun i => Z.b2z (Z.testbit x (Z.of_nat i))) <$> seq 0 m).
Proof.
  intros Hm. unfold count_ones. replace k with (m + (k - m))%nat by lia.
  rewrite seq_app, fmap_app, Zsum_app, (Zsum_map_zero _ (seq (0 + m) _)), Z.add_0_r.
  - apply Zsum_map_ext. intros i [_ Hi]%elem_of_seq.
    rewrite Z.land_spec, Z.ones_spec_low by lia. now rewrite andb_true_r.
  - intros i [Hi _]%elem_of_seq. rewrite Z.land_spec, Z.ones_spec_high by lia.
    now rewrite andb_false_r.
Qed.

(** The popcounts are the numbers of live records. *)
Lemma live_input_count_length b :
  length (inputs b) = TX_INPUTS -> live_input_count b = Z.of_nat (length (live_inputs b)).
Proof.
  intros Hl. unfold live_input_count, live_inputs.
  rewrite length_filter_enumerate, Hl. unfold TX_INPUTS.
  change 255 with (Z.ones (Z.of_nat 8)). rewrite count_ones_mask by lia.
  apply Zsum_map_ext. intros i [_ Hi]%elem_of_seq. rewrite input_is_live_testbit.
  destruct (Nat.ltb_spec i 8); [reflexivity|lia].
Qed.

Lemma live_output_count_length b :
  length (outputs b) = TX_OUTPUTS -> live_output_count b = Z.of_nat (length (live_outputs b)).
Proof.
  intros Hl. unfold live_output_count, live_outputs.
  rewrite length_filter_enumerate, Hl. unfold TX_OUTPUTS, TX_INPUTS.
  change 3 with (Z.ones (Z.of_nat 2)). rewrite count_ones_mask by lia.
  apply Zsum_map_ext. intros i [_ Hi]%elem_of_seq. rewrite output_is_live_testbit.
  rewrite Z.shiftr_spec by lia. rewrite (Z.add_comm (Z.of_nat i)).
  destruct (Nat.ltb_spec i 2); [reflexivity|lia].
Qed.

(** *** The loops of [public_logic.rs] *)

Lemma unique_slots_ok b u : unique_slots b = Ok u <-> NoDup (in_slots b ++ out_slots b).
Proof.
  destruct u. unfold unique_slots, in_slots, out_slots. rewrite bind_ok_iff.
  rewrite NoDup_app. split.
  - intros (ins & Hin & H). apply bind_ok_iff in H as (outs & Hout & _).
    apply (fold_result_unique (fun p => in_slot_index p.2) (fun _ => True)) in Hin.
    2: { intros seen x seen'. unfold insert_input_slot. case_bool_decide; intuition congruence. }
    apply (fold_result_unique (fun p => out_slot_index p.2)
             (fun p => out_slot_index p.2 ∉ ins)) in Hout.
    2: { intros seen x seen'. unfold insert_output_slot.
         repeat case_bool_decide; intuition congruence. }
    destruct Hin as (Hnd & _ & _ & ->), Hout as (Hnd' & _ & HF & ->).
    split; [exact Hnd|]. split; [|exact Hnd'].
    intros k Hk (p & -> & Hp)%list_elem_of_fmap.
    pose proof (proj1 (Forall_forall _ _) HF p Hp) as Hnin. cbn in Hnin. apply Hnin.
    rewrite union_empty_r_L. now apply elem_of_list_to_set.
  - intros (Hnd & Hdisj & Hnd').
    exists (list_to_set ((fun p => in_slot_index p.2) <$> live_inputs b) ∪ ∅). split.
    + apply (fold_result_unique (fun p => in_slot_index p.2) (fun _ => True)).
      { intros seen x seen'. unfold insert_input_slot. case_bool_decide; intuition congruence. }
      repeat split; auto; [|now apply Forall_true]. intros k _. apply not_elem_of_empty.
    + apply bind_ok_iff. eexists. split; [|reflexivity].
      apply (fold_result_unique (fun p => out_slot_index p.2)
        (fun p => out_slot_index p.2 ∉ list_to_set ((fun p => in_slot_index p.2) <$> live_inputs b)
                                        ∪ (∅ : gset Z))).
      { intros seen x seen'. unfold insert_output_slot.
        repeat case_bool_decide; intuition congruence. }
      repeat split; auto; [intros k _; apply not_elem_of_empty|].
      apply Forall_forall. intros p Hp. rewrite union_empty_r_L, elem_of_list_to_set.
      intros Hin. apply (Hdisj _ Hin). apply list_elem_of_fmap. eauto.
Qed.

Lemma sums_eq b :
  body_wf b -> sums b = Ok (live_input_count b, live_output_count b, in_total b, out_total b).
Proof.
  intros Hb. unfold sums.
  pose proof (in_total_bound b Hb) as Hi. pose proof (out_total_bound b Hb) as Ho.
  assert (Hin : fold_result (add_amount in_amount InputSumOverflow) 0 (live_inputs b)
                = Ok (in_total b)).
  { apply (fold_result_sum 128 (fun p => in_amount p.2)).
    - eapply Forall_impl; [apply (live_inputs_wf b Hb)|]. intros p (_ & H & _). apply H.
    - split; [reflexivity|]. right. fold (in_total b). lia. }
  assert (Hout : fold_result (add_amount out_amount OutputSumOverflow) 0 (live_outputs b)
                = Ok (out_total b)).
  { apply (fold_result_sum 128 (fun p => out_amount p.2)).
    - eapply Forall_impl; [apply (live_outputs_wf b Hb)|]. intros p (_ & H & _). apply H.
    - split; [reflexivity|]. right. fold (out_total b). lia. }
  rewrite Hin, Hout. reflexivity.
Qed.

Lemma bitmap_high_bits x :
  u16 x -> (Z.land x (umax 16 - TX_VALIDITY_MASK) =? 0) = (x <? 1024).
Proof. apply (land_high_mask 16 10); lia. Qed.

(** Every dead record is the zero record. *)
Lemma live_or_dummy {A} `{EqDecision A} (live : nat -> bool) (bit : nat -> bool) (d : A) l n :
  (forall i, live i = (i <? n)%nat && bit i) -> length l = n ->
  Forall (fun p => live p.1 || bool_decide (p.2 = d) = true) (enumerate l) <->
  (forall i x, l !! i = Some x -> bit i = false -> x = d).
Proof.
  intros Hlive Hl. rewrite Forall_forall. split.
  - intros H i x Hi Hbit. specialize (H (i, x)). rewrite enumerate_elem in H. specialize (H Hi).
    cbn [fst snd] in H. rewrite Hlive, Hbit, andb_false_r in H. now apply bool_decide_eq_true in H.
  - intros H [i x] Hp%enumerate_elem. cbn [fst snd] in *. rewrite Hlive.
    assert (i < n)%nat by (apply lookup_lt_Some in Hp; lia).
    destruct (Nat.ltb_spec i n); [|lia].
    destruct (bit i) eqn:E; [reflexivity|]. cbn. apply bool_decide_eq_true. eauto.
Qed.

Lemma dead_inputs_ok b :
  length (inputs b) = TX_INPUTS ->
  fold_result (check_dead_input b) tt (enumerate (inputs b)) = Ok tt <->
  (forall i x, inputs b !! i = Some x ->
     Z.testbit (validity_bitmap b) (Z.of_nat i) = false -> x = TxInput_dummy).
Proof.
  intros Hl. unfold check_dead_input.
  rewrite (fold_result_check (fun p => input_is_live b p.1 || bool_decide (p.2 = TxInput_dummy))
             (fun p => DeadInputNotZero p.1)).
  apply (live_or_dummy _ _ _ _ 8 (input_is_live_testbit b) Hl).
Qed.

Lemma dead_outputs_ok b :
  length (outputs b) = TX_OUTPUTS ->
  fold_result (check_dead_output b) tt (enumerate (outputs b)) = Ok tt <->
  (forall i x, outputs b !! i = Some x ->
     Z.testbit (validity_bitmap b) (8 + Z.of_nat i) = false -> x = TxOutput_dummy).
Proof.
  intros Hl. unfold check_dead_output.
  rewrite (fold_result_check (fun p => output_is_live b p.1 || bool_decide (p.2 = TxOutput_dummy))
             (fun p => DeadOutputNotZero p.1)).
  apply (live_or_dummy _ (fun i => Z.testbit (validity_bitmap b) (8 + Z.of_nat i))
           _ _ 2 (output_is_live_testbit b) Hl).
Qed.

Lemma NoLiveInputs_spec b :
  body_wf b -> negb (live_input_count b =? 0) = true <-> live_inputs b <> [].
Proof.
  intros Hb. rewrite (live_input_count_length b) by apply (wf_inputs b Hb).
  destruct (live_inputs b) as [|p l]; cbn [length]; [split; [discriminate|congruence]|].
  destruct (Z.eqb_spec (Z.of_nat (S (length l))) 0); [lia|]. split; [discriminate|reflexivity].
Qed.

Lemma balance_spec b :
  body_wf b ->
  (totals ← sums b;
   let '(_, _, input_sum, output_sum) := totals in
   expected ← ok_or (checked_add 128 output_sum (fee b)) OutputPlusFeeOverflow;
   _ ← ensure (input_sum =? expected) (BalanceMismatch input_sum output_sum (fee b));
   Ok tt) = Ok tt <-> in_total b = out_total b + fee b.
Proof.
  intros Hb. rewrite (sums_eq b Hb). cbn [mbind result_bind].
  pose proof (out_total_bound b Hb). pose proof (wf_fee b Hb) as Hf. unfold in_range in Hf.
  unfold checked_add. replace (out_total b + fee b <? 2 ^ 128) with true by lia.
  cbn [ok_or mbind result_bind]. unfold ensure.
  destruct (Z.eqb_spec (in_total b) (out_total b + fee b)); cbn [mbind result_bind]; split; congruence.
Qed.

(** *** Injectivity of the leaf encoding *)

Lemma pack_arith a c : u64 a -> 0 <= c -> pack_amount_creation_id a c = c * 2 ^ 64 + a.
Proof. intros Ha Hc. apply lor_shiftl_add; [lia|exact Hc|exact Ha]. Qed.

Lemma pack_inj a c a' c' :
  u64 a -> u64 c -> u64 a' -> u64 c' ->
  pack_amount_creation_id a c = pack_amount_creation_id a' c' -> a = a' /\ c = c'.
Proof.
  intros Ha Hc Ha' Hc'. rewrite !pack_arith by (assumption || apply Hc || apply Hc').
  unfold in_range in *. lia.
Qed.

Lemma digest_fields_inj d d' :
  digest_ok d -> digest_ok d' -> digest_fields d = digest_fields d' -> d = d'.
Proof.
  intros [Hl Hb] [Hl' Hb'] [= H1 H2].
  rewrite <- (take_drop 16 d), <- (take_drop 16 d'). f_equal.
  - apply from_le_bytes_inj; [apply Forall_take; exact Hb | apply Forall_take; exact Hb' | |exact H1].
    rewrite !length_take. lia.
  - apply from_le_bytes_inj; [apply Forall_drop; exact Hb | apply Forall_drop; exact Hb' | |exact H2].
    rewrite !length_drop. lia.
Qed.

Lemma input_leaf_inj i i' : input_wf i -> input_wf i' -> input_leaf i = input_leaf i' -> i = i'.
Proof.
  intros (_ & Ha & Hc) (_ & Ha' & Hc') [= H1 H2].
  apply pack_inj in H2 as [H2 H3]; [|assumption..].
  destruct i, i'; cbn in *; congruence.
Qed.

Lemma input_leaves_inj l l' :
  Forall input_wf l -> Forall input_wf l' -> input_leaf <$> l = input_leaf <$> l' -> l = l'.
Proof.
  intros Hl. revert l'; induction Hl as [|x l Hx Hl IH]; intros [|y l'] Hl' H; try discriminate; [reflexivity|].
  apply Forall_cons in Hl' as [Hy Hl']. injection H as H1 H2 H3.
  f_equal; [apply input_leaf_inj; auto; unfold input_leaf; congruence | apply IH; auto].
Qed.

Lemma output_leaves_inj l l' :
  Forall output_wf l -> Forall output_wf l' -> l ≫= output_leaves = l' ≫= output_leaves -> l = l'.
Proof.
  intros Hl. revert l'; induction Hl as [|x l Hx Hl IH]; intros [|y l'] Hl' H; try discriminate; [reflexivity|].
  apply Forall_cons in Hl' as [Hy Hl']. cbn in H. injection H as H1 H2 H3 H4 H5.
  f_equal; [|apply IH; auto].
  assert (out_owner x = out_owner y)
    by (apply digest_fields_inj; [apply Hx | apply Hy | unfold digest_fields; congruence]).
  destruct x, y; cbn in *; congruence.
Qed.

(** The sixteen leaves determine the body, so equal ids of different bodies are
    a collision of the leaf hash. *)
Lemma body_leaves_inj (a b : TxBody) :
  body_wf a -> body_wf b -> body_hash_leaves a = body_hash_leaves b -> a = b.
Proof.
  intros [A1 A2 A3 [A4 A4'] [A5 A5'] A6] [B1 B2 B3 [B4 B4'] [B5 B5'] B6] H.
  unfold body_hash_leaves in H. injection H as H1 H1' H2 H3 H3' H.
  assert (Hi : input_leaf <$> inputs a = input_leaf <$> inputs b).
  { apply (f_equal (take 8)) in H.
    rewrite !take_app_length' in H by (rewrite length_fmap, ?A4, ?B4; reflexivity). exact H. }
  rewrite Hi in H. apply app_inv_head in H.
  assert (Ho : outputs a ≫= output_leaves = outputs b ≫= output_leaves
               /\ validity_bitmap a = validity_bitmap b /\ Z.b2z (is_coinbase a) = Z.b2z (is_coinbase b)).
  { apply app_inj_tail in H as [H [= Hv Hc]]. auto. }
  destruct Ho as (Ho & Hv & Hc).
  apply input_leaves_inj in Hi; [|assumption..]. apply output_leaves_inj in Ho; [|assumption..].
  assert (epoch_anchor a = epoch_anchor b)
    by (apply digest_fields_inj; auto; unfold digest_fields; congruence).
  assert (input_owner a = input_owner b)
    by (apply digest_fields_inj; auto; unfold digest_fields; congruence).
  assert (is_coinbase a = is_coinbase b) by (destruct (is_coinbase a), (is_coinbase b); cbn in *; congruence).
  destruct a, b; cbn in *; congruence.
Qed.

(** ** Properties *)

(** C29. [validate_body_semantics_no_hash] accepts exactly the canonical bodies:
    no bitmap bit above the ten action bits, every dead record zero, all live
    slots distinct, and either a system mint of one of the two shapes with zero
    owner and fee, or at least one live input and inputs equal to outputs plus
    fee.  The overflow errors cannot occur. *)
Theorem validate_body_semantics_iff (b : TxBody) :
  body_wf b -> validate_body_semantics_no_hash b = Ok tt <-> canonical b.
Proof.
  intros Hb. unfold validate_body_semantics_no_hash.
  rewrite !bind_ok_iff. setoid_rewrite ensure_ok_iff. rewrite (bitmap_high_bits _ (wf_bitmap b Hb)).
  pose proof (wf_bitmap b Hb) as Hbm. unfold in_range in Hbm.
  split.
  - intros ([] & Hlt & H). apply bind_ok_iff in H as ([] & Hdi & H).
    apply bind_ok_iff in H as ([] & Hdo & H).
    pose proof (proj1 (dead_inputs_ok b (proj1 (wf_inputs b Hb))) Hdi) as Hdi'.
    pose proof (proj1 (dead_outputs_ok b (proj1 (wf_outputs b Hb))) Hdo) as Hdo'. boolify.
    assert (Hs : NoDup (in_slots b ++ out_slots b) /\
      (if is_coinbase b then input_owner b = ZERO_DIGEST /\ fee b = 0
           /\ (validity_bitmap b = 256 \/ validity_bitmap b = 768)
       else live_inputs b <> [] /\ in_total b = out_total b + fee b)).
    { destruct (is_coinbase b).
      - apply bind_ok_inv in H as (u & Ho & H). apply ensure_ok_iff, bool_decide_eq_true in Ho.
        apply bind_ok_inv in H as (u' & Hm & H). apply ensure_ok_iff, andb_true_iff in Hm as [Hm Hf].
        apply unique_slots_ok in H. apply orb_true_iff in Hm.
        change (output_bitmap_bit 0) with 256 in Hm.
        change (Z.lor 256 (output_bitmap_bit 1)) with 768 in Hm.
        boolify. split; [exact H|]. split; [exact Ho|]. split; [exact Hf|].
        destruct Hm as [Hm|Hm]; boolify; auto.
      - apply bind_ok_inv in H as (u & Hok & H). apply ensure_ok_iff in Hok.
        apply bind_ok_inv in H as (u' & Hok' & H). apply unique_slots_ok in Hok'.
        apply (balance_spec b Hb) in H. apply (NoLiveInputs_spec b Hb) in Hok. auto. }
    constructor; [lia | exact Hdi' | exact Hdo' | apply Hs | apply Hs].
  - intros [Hc1 Hc2 Hc3 Hc4 Hc5]. exists tt. split; [apply Z.ltb_lt; lia|].
    rewrite (proj2 (dead_inputs_ok b (proj1 (wf_inputs b Hb))) Hc2). cbn [mbind result_bind].
    rewrite (proj2 (dead_outputs_ok b (proj1 (wf_outputs b Hb))) Hc3). cbn [mbind result_bind].
    apply unique_slots_ok with (u := tt) in Hc4. destruct (is_coinbase b).
    + destruct Hc5 as (-> & -> & Hk). rewrite bool_decide_eq_true_2 by reflexivity. cbn [ensure mbind result_bind].
      destruct Hk as [-> | ->]; exact Hc4.
    + destruct Hc5 as [Hl Hbal]. rewrite (proj2 (NoLiveInputs_spec b Hb) Hl).
      cbn [ensure mbind result_bind]. rewrite Hc4. cbn [mbind result_bind].
      apply (balance_spec b Hb). exact Hbal.
Qed.

(** A one-input, one-output transfer and the canonical coinbase shape, used by
    the witnesses. *)
Definition example_body : TxBody :=
  mkTxBody (replicate 32 7) 5 (replicate 32 9)
    (mkTxInput 3 105 1 :: replicate 7 TxInput_dummy)
    [mkTxOutput 4 100 (replicate 32 8); TxOutput_dummy] 257 false.

Lemma example_body_wf : body_wf example_body.
Proof.
  constructor; unfold array_ok, bytes_ok, byte_ok, input_wf, output_wf, in_range; cbn;
    repeat (split || constructor); cbn; lia.
Qed.

Lemma validate_body_semantics_witness : canonical example_body.
Proof.
  apply (validate_body_semantics_iff example_body); [exact example_body_wf|].
  vm_compute. reflexivity.
Defined.
