(* ===== verification/TxWire.v ===== *)
(** * Wire format of transaction bodies

    [noid_tx/src/wire.rs]: the fixed 323-byte encoding of a body.  [encode]
    asserts that the body is canonical ([None] is that panic); [decode] rejects
    every non-canonical one.  Both directions of the round trip hold. *)

From Stdlib Require Import ZArith Lia.
From stdpp Require Import base numbers list option gmap.
From S2P Require Import Prelude Codec Tx.

Open Scope Z_scope.

Definition TX_INPUT_WIRE_SIZE : nat := 4 + 8 + 8.
Definition TX_OUTPUT_WIRE_SIZE : nat := 4 + 8 + 32.
Definition TX_BODY_WIRE_SIZE : nat :=
  32 + 8 + 32 + TX_INPUTS * TX_INPUT_WIRE_SIZE + TX_OUTPUTS * TX_OUTPUT_WIRE_SIZE + 2 + 1.
Definition wire_sizes : list nat := [TX_INPUT_WIRE_SIZE; TX_OUTPUT_WIRE_SIZE; TX_BODY_WIRE_SIZE].

Inductive WireError :=
| Truncated | TrailingBytes | InvalidBool | BadMarker | NonCanonicalBody | LengthOverflow.

Definition put_u16 : Z -> list Z := put_uint 2.
Definition put_u32 : Z -> list Z := put_uint 4.
Definition put_u64 : Z -> list Z := put_uint 8.
Definition take_u16 : parser WireError Z := take_uint Truncated 2.
Definition take_u32 : parser WireError Z := take_uint Truncated 4.
Definition take_u64 : parser WireError Z := take_uint Truncated 8.
Definition take_digest : parser WireError (list Z) := take_bytes Truncated 32.
Definition wire_take_bool : parser WireError bool := take_bool Truncated InvalidBool.

Definition TxInput_encode (i : TxInput) : list Z :=
  put_u32 (in_slot_index i) ++ put_u64 (in_amount i) ++ put_u64 (in_creation_id i).

Definition TxInput_decode : parser WireError TxInput :=
  slot_index ← take_u32;
  amount ← take_u64;
  creation_id ← take_u64;
  mret (mkTxInput slot_index amount creation_id).

Definition TxOutput_encode (o : TxOutput) : list Z :=
  put_u32 (out_slot_index o) ++ put_u64 (out_amount o) ++ put_bytes (out_owner o).

Definition TxOutput_decode : parser WireError TxOutput :=
  slot_index ← take_u32;
  amount ← take_u64;
  owner ← take_digest;
  mret (mkTxOutput slot_index amount owner).

(** The bytes [encode] appends once its assertion holds. *)
Definition TxBody_bytes (b : TxBody) : list Z :=
  put_bytes (epoch_anchor b) ++ put_u64 (fee b) ++ put_bytes (input_owner b)
  ++ put_many TxInput_encode (inputs b) ++ put_many TxOutput_encode (outputs b)
  ++ put_u16 (validity_bitmap b) ++ put_bool (is_coinbase b).

Definition TxBody_encode (b : TxBody) : option (list Z) :=
  if is_ok (validate_body_semantics_no_hash b) then Some (TxBody_bytes b) else None.

Definition TxBody_decode_fields : parser WireError TxBody :=
  epoch_anchor ← take_digest;
  fee ← take_u64;
  input_owner ← take_digest;
  inputs ← decode_many TxInput_decode TX_INPUTS;
  outputs ← decode_many TxOutput_decode TX_OUTPUTS;
  validity_bitmap ← take_u16;
  is_coinbase ← wire_take_bool;
  mret (mkTxBody epoch_anchor fee input_owner inputs outputs validity_bitmap is_coinbase).

Definition TxBody_decode : parser WireError TxBody :=
  body ← TxBody_decode_fields;
  _ ← lift_result (map_err (fun _ => NonCanonicalBody) (validate_body_semantics_no_hash body));
  mret body.

Definition TxBody_from_bytes (bytes : list Z) : result WireError TxBody :=
  decode_exact TrailingBytes TxBody_decode bytes.

(** ** Lemmas *)

#[export] Instance lawful_u16 : LawfulCodec put_u16 take_u16 u16 := lawful_uint Truncated 2.
#[export] Instance lawful_u32 : LawfulCodec put_u32 take_u32 u32 := lawful_uint Truncated 4.
#[export] Instance lawful_u64 : LawfulCodec put_u64 take_u64 u64 := lawful_uint Truncated 8.
#[export] Instance lawful_digest : LawfulCodec put_bytes take_digest digest_ok :=
  lawful_bytes Truncated 32.
#[export] Instance lawful_wire_bool : LawfulCodec put_bool wire_take_bool (fun _ => True) :=
  lawful_bool Truncated InvalidBool.

#[export] Instance lawful_TxInput : LawfulCodec TxInput_encode TxInput_decode input_wf.
Proof.
  split.
  - intros [s a c] rest (Hs & Ha & Hc). unfold TxInput_encode, TxInput_decode.
    cbn [in_slot_index in_amount in_creation_id] in *. codec_print. reflexivity.
  - intros bs i rest Hb H. unfold TxInput_decode in H. codec_parse H.
    injection H as <- <-. unfold TxInput_encode, input_wf.
    cbn [in_slot_index in_amount in_creation_id]. rewrite <- !app_assoc. auto.
Qed.

#[export] Instance lawful_TxOutput : LawfulCodec TxOutput_encode TxOutput_decode output_wf.
Proof.
  split.
  - intros [s a o] rest (Hs & Ha & Ho). unfold TxOutput_encode, TxOutput_decode.
    cbn [out_slot_index out_amount out_owner] in *. codec_print. reflexivity.
  - intros bs o rest Hb H. unfold TxOutput_decode in H. codec_parse H.
    injection H as <- <-. unfold TxOutput_encode, output_wf.
    cbn [out_slot_index out_amount out_owner]. rewrite <- !app_assoc. auto.
Qed.

#[export] Instance lawful_TxBody_fields : LawfulCodec TxBody_bytes TxBody_decode_fields body_wf.
Proof.
  split.
  - intros [a f o i q v c] rest [H1 H2 H3 H4 H5 H6].
    cbn [epoch_anchor fee input_owner inputs outputs validity_bitmap is_coinbase] in *.
    unfold TxBody_bytes, TxBody_decode_fields.
    cbn [epoch_anchor fee input_owner inputs outputs validity_bitmap is_coinbase].
    codec_print. reflexivity.
  - intros bs b rest Hb H. unfold TxBody_decode_fields in H. codec_parse H.
    injection H as <- <-. split; [|constructor; auto].
    unfold TxBody_bytes.
    cbn [epoch_anchor fee input_owner inputs outputs validity_bitmap is_coinbase].
    rewrite <- !app_assoc. reflexivity.
Qed.

#[export] Instance lawful_TxBody :
  LawfulCodec TxBody_bytes TxBody_decode
    (fun b => body_wf b /\ validate_body_semantics_no_hash b = Ok tt).
Proof.
  destruct (lawful_checked TxBody_bytes TxBody_decode_fields body_wf
    (fun b => map_err (fun _ => NonCanonicalBody) (validate_body_semantics_no_hash b))) as [H1 H2].
  split.
  - intros a rest [Ha Hc]. apply H1. now rewrite Hc.
  - intros bs a rest Hb H. destruct (H2 bs a rest Hb H) as [-> [Hw Hc]].
    apply map_err_ok_iff in Hc. auto.
Qed.

Lemma length_put_many {A} (enc : A -> list Z) (l : list A) k :
  Forall (fun x => length (enc x) = k) l -> length (put_many enc l) = (length l * k)%nat.
Proof.
  unfold put_many. induction 1 as [|x l Hx Hl IH]; [reflexivity|].
  rewrite bind_cons, length_app. cbn [length]. lia.
Qed.

Lemma length_TxBody_bytes b : body_wf b -> length (TxBody_bytes b) = TX_BODY_WIRE_SIZE.
Proof.
  intros [[Ha _] _ [Ho _] [Hi _] [Hq Hqw] _]. unfold TxBody_bytes. rewrite !length_app.
  rewrite (length_put_many TxInput_encode _ TX_INPUT_WIRE_SIZE) by (apply Forall_true; reflexivity).
  rewrite (length_put_many TxOutput_encode _ TX_OUTPUT_WIRE_SIZE).
  2: { eapply Forall_impl; [exact Hqw|]. intros o (_ & _ & [Hl _]).
       unfold TxOutput_encode, put_bytes. rewrite !length_app, Hl. reflexivity. }
  unfold put_bytes, put_bool. rewrite Ha, Ho, Hi, Hq. reflexivity.
Qed.

(** ** Properties *)

(** The body codec is an exact bijection between canonical bodies and the
    byte strings it accepts: [from_bytes] returns a body precisely when the
    bytes are the encoding of that well-formed canonical body, and the encoding
    is 323 bytes long.  So there is one encoding per body and no accepted string
    re-encodes differently. *)
Theorem tx_body_wire_bijection (bytes : list Z) (b : TxBody) :
  bytes_ok bytes ->
  TxBody_from_bytes bytes = Ok b
  <-> body_wf b /\ TxBody_encode b = Some bytes /\ length bytes = 323%nat.
Proof.
  intros Hb. unfold TxBody_from_bytes.
  rewrite (decode_exact_iff TxBody_bytes TxBody_decode _ TrailingBytes bytes b Hb).
  unfold TxBody_encode. split.
  - intros (-> & Hw & ->). split; [exact Hw|]. split; [reflexivity|]. now apply length_TxBody_bytes.
  - intros (Hw & H & _). destruct (validate_body_semantics_no_hash b) as [[]|] eqn:Hc;
      [|discriminate]. injection H as <-. auto.
Qed.

Lemma tx_body_wire_bijection_witness :
  exists bytes, TxBody_from_bytes bytes = Ok example_body.
Proof.
  exists (TxBody_bytes example_body). apply (tx_body_wire_bijection (TxBody_bytes example_body)).
  - unfold bytes_ok, byte_ok, in_range. vm_compute. repeat constructor; discriminate.
  - split; [exact example_body_wf|]. split; vm_compute; reflexivity.
Defined.
