(* ===== verification/PagedSpend.v ===== *)
(** * Multi-page transactions

    [noid_tx/src/paged_spend.rs]: page shape, the group-wide validation of one
    logical spend, its transaction id and the wire form of a spend intent.  The
    hash functions of [noid_poseidon2b] are parameters of the section. *)

From Stdlib Require Import ZArith Lia.
From stdpp Require Import base numbers list option gmap.
From S2P Require Import Prelude Codec Tx TxWire.

Open Scope Z_scope.

(** ** Constants *)

Definition TAG_PAGED_SPEND : list Z := [80; 65; 71; 69; 68; 84; 88; 95].
Definition PAGED_SPEND_VERSION : Z := 1.
Definition MAX_TX_AUTHORIZATION_BYTES : Z := 256 * 1024.
Definition PAGED_SPEND_START_BIT : Z := Z.shiftl 1 10.
Definition PAGED_SPEND_END_BIT : Z := Z.shiftl 1 11.
Definition PAGED_SPEND_CONTRACT_BIT : Z := Z.shiftl 1 12.
Definition PAGED_SPEND_TERMINAL_BIT : Z := Z.shiftl 1 13.
Definition PAGED_SPEND_MARKER_MASK : Z := Z.lor PAGED_SPEND_START_BIT PAGED_SPEND_END_BIT.
Definition PAGED_SPEND_V2_CONTRACT_MASK : Z :=
  Z.lor PAGED_SPEND_CONTRACT_BIT PAGED_SPEND_TERMINAL_BIT.
Definition PAGED_SPEND_VALIDITY_MASK : Z :=
  Z.lor (Z.lor TX_VALIDITY_MASK PAGED_SPEND_MARKER_MASK) PAGED_SPEND_V2_CONTRACT_MASK.
Definition MAX_PAGED_SPEND_PAGES : Z := 128.
Definition MAX_PAGED_SPEND_INPUTS : Z := 1020.
Definition MAX_PAGED_SPEND_OUTPUTS : Z := MAX_PAGED_SPEND_PAGES * Z.of_nat TX_OUTPUTS.
Definition PAGED_SPEND_INTENT_MARKER : Z := 163.
Definition PAGED_SPEND_INTENT_FIXED_OVERHEAD : Z := 1 + 2 + 4.
Definition MAX_PAGED_SPEND_INTENT_BYTES : Z :=
  PAGED_SPEND_INTENT_FIXED_OVERHEAD + MAX_PAGED_SPEND_PAGES * Z.of_nat TX_BODY_WIRE_SIZE
  + MAX_TX_AUTHORIZATION_BYTES.

(** The constant block of [paged_spend.rs], in source order. *)
Definition paged_spend_constants : list Z :=
  [PAGED_SPEND_VERSION; MAX_TX_AUTHORIZATION_BYTES; PAGED_SPEND_START_BIT; PAGED_SPEND_END_BIT;
   PAGED_SPEND_CONTRACT_BIT; PAGED_SPEND_TERMINAL_BIT; PAGED_SPEND_MARKER_MASK;
   PAGED_SPEND_V2_CONTRACT_MASK; PAGED_SPEND_VALIDITY_MASK; MAX_PAGED_SPEND_PAGES;
   MAX_PAGED_SPEND_INPUTS; MAX_PAGED_SPEND_OUTPUTS; PAGED_SPEND_INTENT_MARKER;
   PAGED_SPEND_INTENT_FIXED_OVERHEAD; MAX_PAGED_SPEND_INTENT_BYTES].

Inductive PagedSpendError :=
| Wire (e : WireError)
| PageCount (actual : Z)
| ReservedBitmapBits (page : nat) (bitmap : Z)
| CoinbasePage (page : nat)
| PageDeadInputNotZero (page slot : nat)
| PageDeadOutputNotZero (page slot : nat)
| MissingStart
| UnexpectedStart (page : nat)
| MissingEnd
| UnexpectedEnd (page : nat)
| OwnerMismatch (page : nat)
| EpochMismatch (page : nat)
| ContinuationFee (page : nat)
| SparseInputs (page slot : nat)
| SparseOutputs (page slot : nat)
| PagedNoLiveInputs
| TooManyInputs (actual : Z)
| TooManyOutputs (actual : Z)
| NonMinimalPageCount (actual required : Z)
| PagedDuplicateInputSlot (slot : Z)
| PagedDuplicateOutputSlot (slot : Z)
| PagedInputOutputSlotOverlap (slot : Z)
| PagedInputSumOverflow
| PagedOutputSumOverflow
| PagedOutputPlusFeeOverflow
| PagedBalanceMismatch (input_sum output_sum fee : Z)
| AuthorizationTooLarge (actual : Z)
| IntentTooLarge (actual : Z).

(** A page is one body; its wire form is the body's. *)
Abbreviation TxPage := TxBody (only parsing).

Record PagedSpendFacts := mkPagedSpendFacts {
  ps_logical_txid : list Z;
  ps_input_owner : list Z;
  ps_epoch_anchor : list Z;
  ps_fee : Z;
  ps_live_inputs : Z;
  ps_live_outputs : Z;
  ps_input_sum : Z;
  ps_output_sum : Z
}.

Record PagedSpendIntent := mkPagedSpendIntent {
  intent_pages : list TxPage;
  authorization_bytes : list Z
}.

(** ** Page shape *)

Definition is_start (page : TxPage) : bool :=
  negb (Z.land (validity_bitmap page) PAGED_SPEND_START_BIT =? 0).
Definition is_end (page : TxPage) : bool :=
  negb (Z.land (validity_bitmap page) PAGED_SPEND_END_BIT =? 0).

Definition validate_page_count (count : Z) : result PagedSpendError unit :=
  ensure ((1 <=? count) && (count <=? MAX_PAGED_SPEND_PAGES)) (PageCount count).

Definition validate_page_shape (body : TxBody) (page : nat) : result PagedSpendError unit :=
  let bitmap := validity_bitmap body in
  _ ← ensure (Z.land bitmap (umax 16 - PAGED_SPEND_VALIDITY_MASK) =? 0)
        (ReservedBitmapBits page bitmap);
  _ ← ensure (negb (is_coinbase body)) (CoinbasePage page);
  _ ← fold_result (fun _ p => ensure (input_is_live body p.1 || bool_decide (p.2 = TxInput_dummy))
                                (PageDeadInputNotZero page p.1))
        tt (enumerate (inputs body));
  fold_result (fun _ p => ensure (output_is_live body p.1 || bool_decide (p.2 = TxOutput_dummy))
                            (PageDeadOutputNotZero page p.1))
    tt (enumerate (outputs body)).

(** ** Group scan

    The two inner loops of [validate_paged_spend] do the same work on inputs and
    on outputs, with their own set, counter, sum, gap flag, bound and errors. *)

Record Side := mkSide {
  side_slots : gset Z;
  side_live : Z;
  side_sum : Z;
  side_gap : bool
}.

Record SideRules := mkSideRules {
  rule_max : Z;
  rule_sparse : nat -> nat -> PagedSpendError;
  rule_too_many : Z -> PagedSpendError;
  rule_duplicate : Z -> PagedSpendError;
  rule_overflow : PagedSpendError
}.

Definition input_rules : SideRules :=
  mkSideRules MAX_PAGED_SPEND_INPUTS SparseInputs TooManyInputs PagedDuplicateInputSlot
    PagedInputSumOverflow.
Definition output_rules : SideRules :=
  mkSideRules MAX_PAGED_SPEND_OUTPUTS SparseOutputs TooManyOutputs PagedDuplicateOutputSlot
    PagedOutputSumOverflow.

Definition empty_side : Side := mkSide ∅ 0 0 false.

(** One record of a page: its place, liveness, slot and amount. *)
Record Item := mkItem {
  item_page : nat; item_index : nat; item_live : bool; item_slot : Z; item_amount : Z
}.

Definition scan_item (r : SideRules) (s : Side) (i : Item) : result PagedSpendError Side :=
  if item_live i then
    _ ← ensure (negb (side_gap s)) (rule_sparse r (item_page i) (item_index i));
    let live := side_live s + 1 in
    _ ← ensure (live <=? rule_max r) (rule_too_many r live);
    _ ← ensure (negb (bool_decide (item_slot i ∈ side_slots s))) (rule_duplicate r (item_slot i));
    sum ← ok_or (checked_add 128 (side_sum s) (item_amount i)) (rule_overflow r);
    Ok (mkSide ({[item_slot i]} ∪ side_slots s) live sum (side_gap s))
  else Ok (mkSide (side_slots s) (side_live s) (side_sum s) true).

Definition input_items (page_index : nat) (page : TxPage) : list Item :=
  imap (fun slot input =>
    mkItem page_index slot (input_is_live page slot) (in_slot_index input) (in_amount input))
    (inputs page).

Definition output_items (page_index : nat) (page : TxPage) : list Item :=
  imap (fun slot output =>
    mkItem page_index slot (output_is_live page slot) (out_slot_index output) (out_amount output))
    (outputs page).

Definition scan_page (s : Side * Side) (p : nat * TxPage) : result PagedSpendError (Side * Side) :=
  ins ← fold_result (scan_item input_rules) s.1 (input_items p.1 p.2);
  outs ← fold_result (scan_item output_rules) s.2 (output_items p.1 p.2);
  Ok (ins, outs).

(** The marker, owner, anchor and fee rules of one page of the group. *)
Definition check_group_page (first : TxPage) (n : nat) (_ : unit) (p : nat * TxPage)
  : result PagedSpendError unit :=
  let page_index := p.1 in
  let page := p.2 in
  _ ← ensure (negb (negb (page_index =? 0)%nat && is_start page)) (UnexpectedStart page_index);
  _ ← ensure (negb (negb (page_index + 1 =? n)%nat && is_end page)) (UnexpectedEnd page_index);
  _ ← ensure (bool_decide (input_owner page = input_owner first)) (OwnerMismatch page_index);
  _ ← ensure (bool_decide (epoch_anchor page = epoch_anchor first)) (EpochMismatch page_index);
  ensure (negb (negb (page_index =? 0)%nat && negb (fee page =? 0))) (ContinuationFee page_index).

Definition required_pages (live_inputs live_outputs : Z) : Z :=
  Z.max (Z.max 1 (div_ceil live_inputs (Z.of_nat TX_INPUTS)))
        (div_ceil live_outputs (Z.of_nat TX_OUTPUTS)).

Section Hashes.
(** [hash_tx8x2_leaves], and a sponge that absorbs a sequence of lane pairs
    under a capacity tag and is finalised. *)
Variable hash_tx8x2_leaves : list (Z * Z) -> list Z.
Variable sponge_pairs : list Z -> list (Z * Z) -> list Z.

Definition page_hash (page : TxPage) : list Z := hash_tx_body hash_tx8x2_leaves page.

Definition paged_spend_preimage (pages : list TxPage) : list (Z * Z) :=
  (PAGED_SPEND_VERSION, Z.of_nat (length pages))
  :: ((fun page => digest_fields (page_hash page)) <$> pages).

Definition hash_paged_spend_unchecked (pages : list TxPage) : list Z :=
  sponge_pairs TAG_PAGED_SPEND (paged_spend_preimage pages).

(** The overlap error carries an arbitrary common slot ([HashSet] order). *)
Definition validate_paged_spend (pages : list TxPage) : result PagedSpendError PagedSpendFacts :=
  _ ← validate_page_count (Z.of_nat (length pages));
  _ ← fold_result (fun _ p => validate_page_shape p.2 p.1) tt (enumerate pages);
  match head pages, last pages with
  | Some first, Some final =>
      _ ← ensure (is_start first) MissingStart;
      _ ← ensure (is_end final) MissingEnd;
      _ ← fold_result (check_group_page first (length pages)) tt (enumerate pages);
      sides ← fold_result scan_page (empty_side, empty_side) (enumerate pages);
      let '(ins, outs) := sides in
      _ ← ensure (negb (side_live ins =? 0)) PagedNoLiveInputs;
      _ ← (match elements (side_slots ins ∩ side_slots outs) with
           | slot :: _ => Err (PagedInputOutputSlotOverlap slot)
           | [] => Ok tt
           end);
      let required := required_pages (side_live ins) (side_live outs) in
      _ ← ensure (Z.of_nat (length pages) =? required)
            (NonMinimalPageCount (Z.of_nat (length pages)) required);
      expected ← ok_or (checked_add 128 (side_sum outs) (fee first)) PagedOutputPlusFeeOverflow;
      _ ← ensure (side_sum ins =? expected)
            (PagedBalanceMismatch (side_sum ins) (side_sum outs) (fee first));
      Ok (mkPagedSpendFacts (hash_paged_spend_unchecked pages) (input_owner first)
            (epoch_anchor first) (fee first) (side_live ins) (side_live outs)
            (side_sum ins) (side_sum outs))
  | _, _ => Err (PageCount 0)
  end.

Definition hash_paged_spend (pages : list TxPage) : result PagedSpendError (list Z) :=
  _ ← validate_paged_spend pages; Ok (hash_paged_spend_unchecked pages).

Definition canonical_paged_spend_auth (pages : list TxPage)
  : result PagedSpendError (list Z * list Z) :=
  facts ← validate_paged_spend pages; Ok (ps_logical_txid facts, ps_input_owner facts).

(** ** Wire form *)

Definition encode_page_body (body : TxBody) : list Z :=
  put_bytes (epoch_anchor body) ++ put_u64 (fee body) ++ put_bytes (input_owner body)
  ++ put_many TxInput_encode (inputs body) ++ put_many TxOutput_encode (outputs body)
  ++ put_u16 (validity_bitmap body) ++ put_bool (is_coinbase body).

(** [?] through [From<WireError>]. *)
Definition wire_parser {A} (p : parser WireError A) : parser PagedSpendError A :=
  fun src => map_err Wire (p src).

Definition page_take (n : nat) : parser PagedSpendError (list Z) := take_bytes (Wire Truncated) n.
Definition page_take_uint (n : nat) : parser PagedSpendError Z := take_uint (Wire Truncated) n.
Definition page_take_bool : parser PagedSpendError bool :=
  take_bool (Wire Truncated) (Wire InvalidBool).

Definition decode_page_body : parser PagedSpendError TxBody :=
  epoch_anchor ← page_take 32;
  fee ← page_take_uint 8;
  input_owner ← page_take 32;
  inputs ← decode_many (wire_parser TxInput_decode) TX_INPUTS;
  outputs ← decode_many (wire_parser TxOutput_decode) TX_OUTPUTS;
  validity_bitmap ← page_take_uint 2;
  is_coinbase ← page_take_bool;
  mret (mkTxBody epoch_anchor fee input_owner inputs outputs validity_bitmap is_coinbase).

Definition TxPage_decode : parser PagedSpendError TxPage :=
  body ← decode_page_body;
  _ ← lift_result (validate_page_shape body 0);
  mret body.

Definition TxPage_encode (page : TxPage) : result PagedSpendError (list Z) :=
  _ ← validate_page_shape page 0; Ok (encode_page_body page).

Definition TxPage_from_bytes (bytes : list Z) : result PagedSpendError TxPage :=
  if negb (length bytes =? TX_BODY_WIRE_SIZE)%nat then
    Err (Wire (if (length bytes <? TX_BODY_WIRE_SIZE)%nat then Truncated else TrailingBytes))
  else fst <$> TxPage_decode bytes.

Definition PagedSpendIntent_new (pages : list TxPage) (auth : list Z)
  : result PagedSpendError PagedSpendIntent :=
  _ ← validate_paged_spend pages;
  _ ← ensure (Z.of_nat (length auth) <=? MAX_TX_AUTHORIZATION_BYTES)
        (AuthorizationTooLarge (Z.of_nat (length auth)));
  Ok (mkPagedSpendIntent pages auth).

Definition PagedSpendIntent_encode (i : PagedSpendIntent) : result PagedSpendError (list Z) :=
  let auth := authorization_bytes i in
  _ ← validate_paged_spend (intent_pages i);
  _ ← ensure (Z.of_nat (length auth) <=? MAX_TX_AUTHORIZATION_BYTES)
        (AuthorizationTooLarge (Z.of_nat (length auth)));
  pages ← fold_result (fun acc page => b ← TxPage_encode page; Ok (acc ++ b)) [] (intent_pages i);
  _ ← ensure (Z.of_nat (length auth) <? 2 ^ 32) (Wire LengthOverflow);
  Ok ([PAGED_SPEND_INTENT_MARKER] ++ put_u16 (Z.of_nat (length (intent_pages i))) ++ pages
      ++ put_u32 (Z.of_nat (length auth)) ++ auth).

Definition PagedSpendIntent_decode : parser PagedSpendError PagedSpendIntent :=
  marker ← page_take 1;
  _ ← lift_result (ensure (bool_decide (marker = [PAGED_SPEND_INTENT_MARKER])) (Wire BadMarker));
  page_count ← page_take_uint 2;
  _ ← lift_result (validate_page_count page_count);
  required_page_bytes ← lift_result (ok_or
    (checked_mul 64 page_count (Z.of_nat TX_BODY_WIRE_SIZE)) (Wire LengthOverflow));
  _ ← (fun src => lift_result (ensure (required_page_bytes <=? Z.of_nat (length src))
                                (Wire Truncated)) src);
  pages ← decode_many TxPage_decode (Z.to_nat page_count);
  authorization_len ← page_take_uint 4;
  _ ← lift_result (ensure (authorization_len <=? MAX_TX_AUTHORIZATION_BYTES)
                     (AuthorizationTooLarge authorization_len));
  auth ← page_take (Z.to_nat authorization_len);
  lift_result (PagedSpendIntent_new pages auth).

Definition PagedSpendIntent_from_bytes (bytes : list Z)
  : result PagedSpendError PagedSpendIntent :=
  if MAX_PAGED_SPEND_INTENT_BYTES <? Z.of_nat (length bytes)
  then Err (IntentTooLarge (Z.of_nat (length bytes)))
  else decode_exact (Wire TrailingBytes) PagedSpendIntent_decode bytes.
End Hashes.

Definition paged_spend_authorization_wire_offset (page_count : Z) : result PagedSpendError Z :=
  _ ← validate_page_count page_count;
  ok_or (page_bytes ← checked_mul 64 page_count (Z.of_nat TX_BODY_WIRE_SIZE);
         prefix ← checked_add 64 (1 + 2) page_bytes;
         checked_add 64 prefix 4) (Wire LengthOverflow).

(** ** Specification of a valid spend *)

(** Live records come first: once one is dead, all later ones are. *)
Fixpoint dense (gap : bool) (flags : list bool) : Prop :=
  match flags with
  | [] => True
  | true :: rest => gap = false /\ dense false rest
  | false :: rest => dense true rest
  end.

Definition live_items (l : list Item) : list Item := filter (fun i => item_live i = true) l.
Definition live_slots (l : list Item) : list Z := item_slot <$> live_items l.
Definition live_total (l : list Item) : Z := Zsum (item_amount <$> live_items l).

Definition all_inputs (pages : list TxPage) : list Item :=
  enumerate pages ≫= (fun p => input_items p.1 p.2).
Definition all_outputs (pages : list TxPage) : list Item :=
  enumerate pages ≫= (fun p => output_items p.1 p.2).

Record page_shape (b : TxBody) : Prop := {
  shape_bitmap : 0 <= validity_bitmap b < 2 ^ 14;
  shape_user : is_coinbase b = false;
  shape_dead_inputs : forall i x, inputs b !! i = Some x ->
    Z.testbit (validity_bitmap b) (Z.of_nat i) = false -> x = TxInput_dummy;
  shape_dead_outputs : forall i x, outputs b !! i = Some x ->
    Z.testbit (validity_bitmap b) (8 + Z.of_nat i) = false -> x = TxOutput_dummy
}.

(** The group rules of a page at [index] of [n]: start on the first page only,
    end on the last only, one owner, one anchor, the fee on the first page. *)
Definition group_page (first : TxPage) (n index : nat) (page : TxPage) : Prop :=
  (Z.testbit (validity_bitmap page) 10 = true <-> index = 0%nat)
  /\ (Z.testbit (validity_bitmap page) 11 = true <-> (index + 1 = n)%nat)
  /\ input_owner page = input_owner first
  /\ epoch_anchor page = epoch_anchor first
  /\ (index <> 0%nat -> fee page = 0).

Record valid_spend (pages : list TxPage) (first : TxPage) : Prop := {
  vs_first : head pages = Some first;
  vs_count : (1 <= length pages <= 128)%nat;
  vs_shape : Forall page_shape pages;
  vs_group : forall i page, pages !! i = Some page -> group_page first (length pages) i page;
  vs_dense_in : dense false (item_live <$> all_inputs pages);
  vs_dense_out : dense false (item_live <$> all_outputs pages);
  vs_inputs : 1 <= Z.of_nat (length (live_items (all_inputs pages))) <= 1020;
  vs_slots : NoDup (live_slots (all_inputs pages) ++ live_slots (all_outputs pages));
  vs_minimal : Z.of_nat (length pages) =
    required_pages (Z.of_nat (length (live_items (all_inputs pages))))
                   (Z.of_nat (length (live_items (all_outputs pages))));
  vs_balance : live_total (all_inputs pages) = live_total (all_outputs pages) + fee first
}.

(** ** Lemmas *)

Definition item_ok (i : Item) : Prop := u64 (item_amount i).

(** The accumulated side after a list of items. *)
Definition side_after (s : Side) (l : list Item) : Side :=
  mkSide (list_to_set (live_slots l) ∪ side_slots s)
         (side_live s + Z.of_nat (length (live_items l)))
         (side_sum s + live_total l)
         (side_gap s || existsb (fun i => negb (item_live i)) l).

Record side_accepts (r : SideRules) (s : Side) (l : list Item) : Prop := {
  sa_dense : dense (side_gap s) (item_live <$> l);
  sa_count : live_items l = [] \/ side_live s + Z.of_nat (length (live_items l)) <= rule_max r;
  sa_nodup : NoDup (live_slots l);
  sa_fresh : forall k, k ∈ live_slots l -> k ∉ side_slots s;
  sa_sum : live_items l = [] \/ side_sum s + live_total l < 2 ^ 128
}.

Lemma live_items_cons i l :
  live_items (i :: l) = if item_live i then i :: live_items l else live_items l.
Proof.
  unfold live_items. rewrite filter_cons.
  destruct (item_live i); case_decide; congruence || reflexivity.
Qed.

Lemma live_items_app a b : live_items (a ++ b) = live_items a ++ live_items b.
Proof. apply filter_app. Qed.

Lemma dense_live gap l :
  dense gap (item_live <$> l) -> gap = true -> live_items l = [].
Proof.
  revert gap; induction l as [|i l IH]; intros gap Hd Hg; [reflexivity|].
  rewrite live_items_cons. cbn in Hd. destruct (item_live i); [destruct Hd; congruence|].
  eapply IH; eauto.
Qed.

Lemma scan_item_live r s i s' :
  item_live i = true ->
  scan_item r s i = Ok s' <->
  side_gap s = false /\ side_live s + 1 <= rule_max r /\ item_slot i ∉ side_slots s
  /\ side_sum s + item_amount i < 2 ^ 128
  /\ s' = mkSide ({[item_slot i]} ∪ side_slots s) (side_live s + 1) (side_sum s + item_amount i) false.
Proof.
  intros Hl. unfold scan_item. rewrite Hl. unfold ensure, checked_add, ok_or.
  destruct (side_gap s); cbn [negb mbind result_bind];
    [split; [discriminate | intros (? & _); discriminate]|].
  destruct (Z.leb_spec (side_live s + 1) (rule_max r)); cbn [mbind result_bind];
    [|split; [discriminate | intros (_ & ? & _); lia]].
  case_bool_decide; cbn [negb mbind result_bind]; [split; [discriminate | tauto]|].
  destruct (Z.ltb_spec (side_sum s + item_amount i) (2 ^ 128)); cbn [mbind result_bind];
    [|split; [discriminate | intros (_ & _ & _ & ? & _); lia]].
  split; [intros [= <-]; auto | intros (_ & _ & _ & _ & ->); reflexivity].
Qed.

Lemma side_after_dead s i l :
  item_live i = false ->
  side_after (mkSide (side_slots s) (side_live s) (side_sum s) true) l = side_after s (i :: l).
Proof.
  intros Hi. unfold side_after, live_slots, live_total. rewrite live_items_cons, Hi.
  cbn [side_slots side_live side_sum side_gap existsb]. rewrite Hi. cbn [negb orb].
  now rewrite orb_true_r.
Qed.

Lemma side_after_live s i l :
  item_live i = true -> side_gap s = false ->
  side_after (mkSide ({[item_slot i]} ∪ side_slots s) (side_live s + 1)
                (side_sum s + item_amount i) false) l = side_after s (i :: l).
Proof.
  intros Hi Hg. unfold side_after, live_slots, live_total. rewrite live_items_cons, Hi.
  cbn [side_slots side_live side_sum side_gap existsb]. rewrite Hi, Hg. cbn [negb orb].
  rewrite !fmap_cons, Zsum_cons. cbn [length list_to_set]. f_equal; [|lia|lia].
  rewrite !(assoc_L (∪)). f_equal. apply (comm_L (∪)).
Qed.

(** One side of the scan accepts exactly the dense, bounded, duplicate-free
    continuations. *)
Lemma scan_side_iff r l :
  Forall item_ok l -> forall s s',
  fold_result (scan_item r) s l = Ok s' <-> side_accepts r s l /\ s' = side_after s l.
Proof.
  induction 1 as [|i l Hi Hl IH]; intros s s'; cbn [fold_result].
  - split.
    + intros [= <-]. split.
      * split; cbn; auto; [constructor | intros k Hk; inversion Hk].
      * unfold side_after. destruct s; cbn. f_equal; [now rewrite union_empty_l_L| lia|lia|].
        now rewrite orb_false_r.
    + intros [_ ->]. f_equal. unfold side_after. destruct s; cbn.
      f_equal; [now rewrite union_empty_l_L| lia|lia|]. now rewrite orb_false_r.
  - assert (Hpos : 0 <= live_total l).
    { apply Zsum_nonneg, Forall_fmap, Forall_forall. intros j Hj.
      apply list_elem_of_filter in Hj as [_ Hj]. rewrite Forall_forall in Hl. apply (Hl j Hj). }
    rewrite bind_ok_iff. destruct (item_live i) eqn:Hlive.
    + setoid_rewrite (scan_item_live r s i) at 1; [|exact Hlive].
      split.
      * intros (s1 & (Hg & Hc & Hf & Hs & ->) & H). apply IH in H as [Ha ->].
        split; [|now apply side_after_live]. destruct Ha as [A1 A2 A3 A4 A5].
        cbn [side_gap side_live side_slots side_sum] in *.
        split; unfold live_slots, live_total in *; rewrite ?live_items_cons, ?Hlive, ?fmap_cons.
        -- cbn. rewrite Hlive. auto.
        -- right. cbn [length]. destruct A2 as [->|]; cbn [length]; lia.
        -- apply NoDup_cons. split; [|exact A3]. intros Hin. apply (A4 _ Hin). set_solver +.
        -- intros k [->|Hk]%elem_of_cons; [exact Hf|]. specialize (A4 k Hk). set_solver + A4.
        -- right. rewrite Zsum_cons. destruct A5 as [->|]; [cbn; lia | lia].
      * intros [[A1 A2 A3 A4 A5] ->].
        unfold live_slots, live_total in A2, A3, A4, A5.
        rewrite ?live_items_cons, ?Hlive, ?fmap_cons in *. cbn in A1. rewrite Hlive in A1.
        destruct A1 as [Hg A1]. apply NoDup_cons in A3 as [A3 A3'].
        destruct A2 as [?|A2]; [discriminate|]. destruct A5 as [?|A5]; [discriminate|].
        cbn [length] in A2. rewrite Zsum_cons in A5. fold (live_total l) in A5.
        eexists. split.
        { repeat split; [exact Hg|lia|apply A4; left|lia]. }
        apply IH. split; [|symmetry; now apply side_after_live].
        split; cbn [side_gap side_live side_slots side_sum]; auto; try (right; lia).
        intros k Hk [->%elem_of_singleton|Hs]%elem_of_union; [exact (A3 Hk)|].
        exact (A4 k (list_elem_of_further _ _ _ Hk) Hs).
    + assert (Hsi : scan_item r s i = Ok (mkSide (side_slots s) (side_live s) (side_sum s) true))
        by (unfold scan_item; now rewrite Hlive).
      rewrite <- (side_after_dead s i l Hlive).
      assert (Hacc : side_accepts r s (i :: l)
        <-> side_accepts r (mkSide (side_slots s) (side_live s) (side_sum s) true) l).
      { split; intros [A1 A2 A3 A4 A5]; unfold live_slots, live_total in *;
          rewrite ?live_items_cons, ?Hlive in *; cbn in A1; rewrite ?Hlive in A1;
          split; unfold live_slots, live_total; rewrite ?live_items_cons, ?Hlive; auto.
        cbn. now rewrite Hlive. }
      rewrite Hacc, <- IH, Hsi. split; [intros (s1 & [= <-] & H); exact H | eauto].
Qed.

(** The two sides of the page scan are independent. *)
Lemma scan_pages_iff ps : forall i0 o0 i o,
  fold_result scan_page (i0, o0) ps = Ok (i, o) <->
  fold_result (scan_item input_rules) i0 (ps ≫= (fun p => input_items p.1 p.2)) = Ok i
  /\ fold_result (scan_item output_rules) o0 (ps ≫= (fun p => output_items p.1 p.2)) = Ok o.
Proof.
  induction ps as [|p ps IH]; intros i0 o0 i o; [cbn; split; [intros [= <- <-]|intros [[= <-] [= <-]]]; auto|].
  cbn [fold_result]. rewrite !bind_cons, !fold_result_app, !bind_ok_iff. split.
  - intros ([i1 o1] & H1 & H2). unfold scan_page in H1. cbn [fst snd] in H1.
    apply bind_ok_inv in H1 as (i2 & Hi & H1). apply bind_ok_inv in H1 as (o2 & Ho & [= <- <-]).
    apply IH in H2 as [H2 H3]. split; eauto.
  - intros [(i1 & Hi & H1) (o1 & Ho & H2)]. exists (i1, o1). split; [|now apply IH].
    unfold scan_page. cbn [fst snd]. rewrite Hi. cbn. rewrite Ho. reflexivity.
Qed.

Lemma is_start_testbit p : is_start p = Z.testbit (validity_bitmap p) 10.
Proof.
  unfold is_start, PAGED_SPEND_START_BIT. rewrite Z.shiftl_1_l, land_pow2 by lia.
  now destruct (Z.testbit _ _).
Qed.

Lemma is_end_testbit p : is_end p = Z.testbit (validity_bitmap p) 11.
Proof.
  unfold is_end, PAGED_SPEND_END_BIT. rewrite Z.shiftl_1_l, land_pow2 by lia.
  now destruct (Z.testbit _ _).
Qed.

Lemma validate_page_shape_iff b k :
  body_wf b -> validate_page_shape b k = Ok tt <-> page_shape b.
Proof.
  intros Hb. unfold validate_page_shape.
  change (umax 16 - PAGED_SPEND_VALIDITY_MASK) with (umax 16 - (2 ^ 14 - 1)).
  rewrite (land_high_mask 16 14) by (try lia; apply (wf_bitmap b Hb)).
  pose proof (wf_bitmap b Hb) as Hbm. unfold in_range in Hbm.
  assert (Hin := live_or_dummy (input_is_live b) (fun i => Z.testbit (validity_bitmap b) (Z.of_nat i))
    TxInput_dummy (inputs b) 8 (input_is_live_testbit b) (proj1 (wf_inputs b Hb))).
  assert (Hout := live_or_dummy (output_is_live b) (fun i => Z.testbit (validity_bitmap b) (8 + Z.of_nat i))
    TxOutput_dummy (outputs b) 2 (output_is_live_testbit b) (proj1 (wf_outputs b Hb))).
  split.
  - intros H. apply bind_ok_inv in H as (u1 & H1 & H). apply ensure_ok_iff in H1.
    apply bind_ok_inv in H as (u2 & H2 & H). apply ensure_ok_iff in H2.
    apply bind_ok_inv in H as ([] & H3 & H).
    apply fold_result_check in H3. apply fold_result_check in H. boolify.
    constructor; [lia | exact H2 | now apply Hin | now apply Hout].
  - intros [S1 S2 S3 S4]. replace (validity_bitmap b <? 2 ^ 14) with true by lia.
    rewrite S2. cbn [ensure negb mbind result_bind].
    apply bind_ok_iff. exists tt. split; apply fold_result_check; [now apply Hin | now apply Hout].
Qed.

Lemma fold_shape_iff pages :
  Forall body_wf pages ->
  fold_result (fun _ p => validate_page_shape p.2 p.1) tt (enumerate pages) = Ok tt
  <-> Forall page_shape pages.
Proof.
  intros Hw. rewrite fold_result_unit, Forall_enumerate, Forall_lookup. cbn [fst snd].
  split; intros H i b Hi; specialize (H i b Hi);
    (apply validate_page_shape_iff in H || apply validate_page_shape_iff);
    auto; eapply Forall_lookup_1; eauto.
Qed.

Lemma check_group_page_iff first n u i page :
  check_group_page first n u (i, page) = Ok tt <->
  (i <> 0%nat -> is_start page = false)
  /\ ((i + 1)%nat <> n -> is_end page = false)
  /\ input_owner page = input_owner first /\ epoch_anchor page = epoch_anchor first
  /\ (i <> 0%nat -> fee page = 0).
Proof.
  unfold check_group_page. cbn [fst snd].
  destruct (Nat.eqb_spec i 0), (Nat.eqb_spec (i + 1) n), (is_start page), (is_end page);
    cbn [negb andb ensure mbind result_bind];
    repeat case_bool_decide; cbn [ensure mbind result_bind];
    destruct (Z.eqb_spec (fee page) 0); cbn [negb andb ensure mbind result_bind];
    intuition (try congruence; try discriminate).
Qed.

Lemma group_iff pages first final :
  head pages = Some first -> last pages = Some final ->
  (is_start first = true /\ is_end final = true
   /\ fold_result (check_group_page first (length pages)) tt (enumerate pages) = Ok tt)
  <-> (forall i page, pages !! i = Some page -> group_page first (length pages) i page).
Proof.
  intros Hf Hl. rewrite last_lookup in Hl. rewrite head_lookup in Hf.
  assert (Hn : (length pages <> 0)%nat) by (intros E%nil_length_inv; rewrite E in Hf; discriminate).
  rewrite fold_result_unit, Forall_enumerate. setoid_rewrite check_group_page_iff.
  unfold group_page. split.
  - intros (Hs & He & H) i page Hi. destruct (H i page Hi) as (G1 & G2 & G3 & G4 & G5).
    rewrite <- is_start_testbit, <- is_end_testbit. repeat split; auto.
    + intros Hst. destruct (Nat.eq_dec i 0%nat); [auto|]. rewrite G1 in Hst by auto. discriminate.
    + intros ->. congruence.
    + intros Hst. destruct (Nat.eq_dec (i + 1)%nat (length pages)); [auto|].
      rewrite G2 in Hst by auto. discriminate.
    + intros Hi1. replace (pred (length pages)) with i in Hl by lia. congruence.
  - intros H. destruct (H _ _ Hf) as ((_ & S1) & _). destruct (H _ _ Hl) as (_ & (_ & S2) & _).
    rewrite <- is_start_testbit in S1. rewrite <- is_end_testbit in S2.
    split; [auto|]. split; [apply S2; lia|].
    intros i page Hi. destruct (H i page Hi) as (G1 & G2 & G3 & G4 & G5).
    rewrite <- is_start_testbit in G1. rewrite <- is_end_testbit in G2.
    split; [intros Hi0; destruct (is_start page); [exfalso; apply Hi0, G1; reflexivity|reflexivity]|].
    split; [intros Hi0; destruct (is_end page); [exfalso; apply Hi0, G2; reflexivity|reflexivity]|].
    auto.
Qed.

Lemma input_items_ok k b : body_wf b -> Forall item_ok (input_items k b).
Proof.
  intros Hb. unfold input_items. apply Forall_lookup. intros i x Hx.
  rewrite list_lookup_imap in Hx. destruct (inputs b !! i) as [t|] eqn:E; [|discriminate].
  injection Hx as <-. pose proof (Forall_lookup_1 _ _ _ _ (proj2 (wf_inputs b Hb)) E) as (_ & H & _).
  exact H.
Qed.

Lemma output_items_ok k b : body_wf b -> Forall item_ok (output_items k b).
Proof.
  intros Hb. unfold output_items. apply Forall_lookup. intros i x Hx.
  rewrite list_lookup_imap in Hx. destruct (outputs b !! i) as [t|] eqn:E; [|discriminate].
  injection Hx as <-. pose proof (Forall_lookup_1 _ _ _ _ (proj2 (wf_outputs b Hb)) E) as (_ & H & _).
  exact H.
Qed.

Lemma items_ok (f : nat -> TxPage -> list Item) pages :
  (forall k b, body_wf b -> Forall item_ok (f k b)) -> Forall body_wf pages ->
  Forall item_ok (enumerate pages ≫= (fun p => f p.1 p.2)).
Proof.
  intros Hf Hw. apply Forall_bind, Forall_enumerate. intros i x Hi. apply Hf.
  eapply Forall_lookup_1; eauto.
Qed.

Lemma length_items (f : nat -> TxPage -> list Item) c pages :
  (forall k b, body_wf b -> length (f k b) = c) -> Forall body_wf pages ->
  length (enumerate pages ≫= (fun p => f p.1 p.2)) = (length pages * c)%nat.
Proof.
  intros Hf Hw. unfold enumerate.
  cut (forall k, length (imap (fun i x => ((k + i)%nat, x)) pages ≫= (fun p => f p.1 p.2))
         = (length pages * c)%nat).
  { intros H. apply (H 0%nat). }
  induction Hw as [|b l Hb Hw IH]; intros k; [reflexivity|].
  cbn [imap]. rewrite bind_cons, length_app. cbn [fst snd].
  rewrite (imap_ext _ (fun i x => ((S k + i)%nat, x))) by (intros; unfold compose; cbn; f_equal; lia).
  rewrite (IH (S k)), Hf by exact Hb. reflexivity.
Qed.

Lemma live_items_bounds l :
  Forall item_ok l ->
  (length (live_items l) <= length l)%nat
  /\ 0 <= live_total l <= Z.of_nat (length (live_items l)) * 2 ^ 64.
Proof.
  intros H. split; [apply length_filter|]. apply (Zsum_bound item_amount).
  apply Forall_forall. intros i Hi. apply list_elem_of_filter in Hi as [_ Hi].
  rewrite Forall_forall in H. apply (H i Hi).
Qed.

Section SpendTheorems.
Context (hash_tx8x2_leaves : list (Z * Z) -> list Z)
        (sponge_pairs : list Z -> list (Z * Z) -> list Z).

(** The facts a valid spend yields. *)
Definition spend_facts (pages : list TxPage) (first : TxPage) : PagedSpendFacts :=
  mkPagedSpendFacts (hash_paged_spend_unchecked hash_tx8x2_leaves sponge_pairs pages)
    (input_owner first) (epoch_anchor first) (fee first)
    (Z.of_nat (length (live_items (all_inputs pages))))
    (Z.of_nat (length (live_items (all_outputs pages))))
    (live_total (all_inputs pages)) (live_total (all_outputs pages)).

(** The scan from empty sides, in closed form. *)
Lemma scan_all_iff pages ins outs :
  Forall body_wf pages -> (length pages <= 128)%nat ->
  fold_result scan_page (empty_side, empty_side) (enumerate pages) = Ok (ins, outs) <->
  (dense false (item_live <$> all_inputs pages)
   /\ dense false (item_live <$> all_outputs pages)
   /\ Z.of_nat (length (live_items (all_inputs pages))) <= 1020
   /\ NoDup (live_slots (all_inputs pages)) /\ NoDup (live_slots (all_outputs pages)))
  /\ ins = side_after empty_side (all_inputs pages)
  /\ outs = side_after empty_side (all_outputs pages).
Proof.
  intros Hw Hlen. rewrite scan_pages_iff.
  pose proof (items_ok _ pages input_items_ok Hw) as Hi.
  pose proof (items_ok _ pages output_items_ok Hw) as Ho.
  fold (all_inputs pages) (all_outputs pages) in *.
  rewrite (scan_side_iff _ _ Hi), (scan_side_iff _ _ Ho).
  destruct (live_items_bounds _ Hi) as [Li Ti], (live_items_bounds _ Ho) as [Lo To].
  assert (Lo' : length (all_outputs pages) = (length pages * 2)%nat).
  { apply length_items; [|exact Hw]. intros k b Hb. unfold output_items.
    rewrite length_imap. apply (wf_outputs b Hb). }
  split.
  - intros [[[A1 A2 A3 A4 A5] ->] [[B1 B2 B3 B4 B5] ->]]. repeat split; auto.
    cbn [side_live empty_side input_rules rule_max] in A2. unfold MAX_PAGED_SPEND_INPUTS in A2.
    destruct A2 as [E|E]; [apply (f_equal length) in E; cbn in E|]; lia.
  - intros ((D1 & D2 & D3 & D4 & D5) & -> & ->).
    split; (split; [|reflexivity]); split; cbn [side_gap side_live side_sum side_slots empty_side];
      auto; try (intros k _; apply not_elem_of_empty); right;
      cbn [input_rules output_rules rule_max]; unfold MAX_PAGED_SPEND_INPUTS, MAX_PAGED_SPEND_OUTPUTS,
        MAX_PAGED_SPEND_PAGES, TX_OUTPUTS; nia.
Qed.

Lemma overlap_iff (a b : list Z) :
  (match elements (list_to_set a ∩ list_to_set b : gset Z) with
   | slot :: _ => Err (PagedInputOutputSlotOverlap slot)
   | [] => Ok tt
   end = Ok tt) <-> (forall k, k ∈ a -> k ∉ b).
Proof.
  destruct (elements _) as [|k ks] eqn:E.
  - split; [|reflexivity]. intros _ k Ha Hb.
    apply elements_empty_iff in E. set_solver.
  - split; [discriminate|]. intros H. exfalso.
    assert (Hk : k ∈ elements (list_to_set a ∩ list_to_set b : gset Z)) by (rewrite E; left).
    rewrite elem_of_elements in Hk. set_solver.
Qed.

Lemma validate_paged_spend_valid pages facts :
  Forall body_wf pages ->
  validate_paged_spend hash_tx8x2_leaves sponge_pairs pages = Ok facts <->
  exists first, valid_spend pages first /\ facts = spend_facts pages first.
Proof.
  intros Hw. unfold validate_paged_spend, validate_page_count.
  rewrite bind_ok_iff. setoid_rewrite ensure_ok_iff. unfold MAX_PAGED_SPEND_PAGES.
  split.
  - intros ([] & Hc & H). boolify. apply bind_ok_inv in H as ([] & Hs & H).
    apply (fold_shape_iff _ Hw) in Hs.
    destruct (head pages) as [first|] eqn:Hh; [|discriminate].
    destruct (last pages) as [final|] eqn:Hl; [|discriminate].
    apply bind_ok_inv in H as (u1 & G1 & H). apply ensure_ok_iff in G1.
    apply bind_ok_inv in H as (u2 & G2 & H). apply ensure_ok_iff in G2.
    apply bind_ok_inv in H as ([] & G3 & H).
    pose proof (proj1 (group_iff pages first final Hh Hl) (conj G1 (conj G2 G3))) as Hg.
    apply bind_ok_inv in H as ([ins outs] & G4 & H).
    apply scan_all_iff in G4 as ((D1 & D2 & D3 & D4 & D5) & -> & ->); [|exact Hw|lia].
    cbn [side_after side_live side_slots side_sum empty_side] in H. rewrite !union_empty_r_L, !Z.add_0_l in H.
    apply bind_ok_inv in H as (u3 & G5 & H). apply ensure_ok_iff in G5.
    apply bind_ok_inv in H as ([] & G6 & H). pose proof (proj1 (overlap_iff _ _) G6) as G6'.
    apply bind_ok_inv in H as (u4 & G7 & H). apply ensure_ok_iff in G7.
    apply bind_ok_inv in H as (e & G8 & H). apply ok_or_ok_iff, checked_add_some in G8 as [-> G8].
    apply bind_ok_inv in H as (u5 & G9 & H). apply ensure_ok_iff in G9. injection H as <-. boolify.
    exists first. split; [|reflexivity]. constructor; auto; try lia. apply NoDup_app. auto.
  - intros (first & [V1 V2 V3 V4 V5 V6 V7 V8 V9 V10] & ->).
    exists tt. split; [apply andb_true_iff; split; apply Z.leb_le; lia|].
    rewrite (proj2 (fold_shape_iff _ Hw) V3). cbn [mbind result_bind]. rewrite V1.
    destruct (last pages) as [final|] eqn:Hl;
      [|apply last_None in Hl; rewrite Hl in V2; cbn in V2; lia].
    destruct (proj2 (group_iff pages first final V1 Hl) V4) as (H1 & H2 & H3).
    rewrite H1, H2, H3. cbn [ensure mbind result_bind]. apply NoDup_app in V8 as (N1 & N2 & N3).
    rewrite (proj2 (scan_all_iff pages _ _ Hw (proj2 V2)) (conj (conj V5 (conj V6 (conj (proj2 V7) (conj N1 N3)))) (conj eq_refl eq_refl))).
    cbn [mbind result_bind side_after side_live side_slots side_sum empty_side].
    rewrite !union_empty_r_L, !Z.add_0_l.
    replace (_ =? 0) with false by lia. cbn [negb ensure mbind result_bind].
    rewrite (proj2 (overlap_iff _ _) N2). cbn [mbind result_bind]. rewrite <- V9, Z.eqb_refl.
    cbn [ensure mbind result_bind]. unfold checked_add. rewrite <- V10.
    pose proof (items_ok _ pages input_items_ok Hw) as Hi. fold (all_inputs pages) in Hi.
    destruct (live_items_bounds _ Hi) as [Li Ti].
    replace (live_total (all_inputs pages) <? 2 ^ 128) with true by (symmetry; apply Z.ltb_lt; nia).
    cbn [ok_or mbind result_bind]. rewrite Z.eqb_refl. reflexivity.
Qed.

(** *** The intent codec *)

#[export] Instance lawful_wire_parser {A} (enc : A -> list Z) (dec : parser WireError A) wf
  `{!LawfulCodec enc dec wf} : LawfulCodec enc (wire_parser dec) wf.
Proof.
  split; unfold wire_parser.
  - intros a rest Ha. rewrite codec_print_parse by exact Ha. reflexivity.
  - intros bs a rest Hb H. apply map_err_ok_iff in H. now apply codec_parse_print.
Qed.

#[export] Instance lawful_page_take n : LawfulCodec put_bytes (page_take n) (array_ok n) :=
  lawful_bytes (Wire Truncated) n.
#[export] Instance lawful_page_u64 : LawfulCodec put_u64 (page_take_uint 8) u64 :=
  lawful_uint (Wire Truncated) 8.
#[export] Instance lawful_page_u32 : LawfulCodec put_u32 (page_take_uint 4) u32 :=
  lawful_uint (Wire Truncated) 4.
#[export] Instance lawful_page_u16 : LawfulCodec put_u16 (page_take_uint 2) u16 :=
  lawful_uint (Wire Truncated) 2.
#[export] Instance lawful_page_bool : LawfulCodec put_bool page_take_bool (fun _ => True) :=
  lawful_bool (Wire Truncated) (Wire InvalidBool).

#[export] Instance lawful_page_body : LawfulCodec encode_page_body decode_page_body body_wf.
Proof.
  split.
  - intros [a f o i q v c] rest [H1 H2 H3 H4 H5 H6].
    unfold encode_page_body, decode_page_body.
    cbn [epoch_anchor fee input_owner inputs outputs validity_bitmap is_coinbase] in *.
    codec_print. reflexivity.
  - intros bs b rest Hb H. unfold decode_page_body in H. codec_parse H.
    injection H as <- <-. split; [|constructor; auto].
    unfold encode_page_body.
    cbn [epoch_anchor fee input_owner inputs outputs validity_bitmap is_coinbase].
    rewrite <- !app_assoc. reflexivity.
Qed.

Definition page_wf (b : TxPage) : Prop := body_wf b /\ validate_page_shape b 0 = Ok tt.

#[export] Instance lawful_TxPage : LawfulCodec encode_page_body TxPage_decode page_wf :=
  lawful_checked encode_page_body decode_page_body body_wf (fun b => validate_page_shape b 0).

Lemma length_encode_page_body b : body_wf b -> length (encode_page_body b) = TX_BODY_WIRE_SIZE.
Proof. apply length_TxBody_bytes. Qed.

Definition intent_bytes (i : PagedSpendIntent) : list Z :=
  put_bytes [PAGED_SPEND_INTENT_MARKER] ++ put_u16 (Z.of_nat (length (intent_pages i)))
  ++ put_many encode_page_body (intent_pages i)
  ++ put_u32 (Z.of_nat (length (authorization_bytes i))) ++ put_bytes (authorization_bytes i).

Record intent_wf (i : PagedSpendIntent) : Prop := {
  iw_pages : Forall body_wf (intent_pages i);
  iw_auth : bytes_ok (authorization_bytes i);
  iw_valid : exists first, valid_spend (intent_pages i) first;
  iw_auth_len : Z.of_nat (length (authorization_bytes i)) <= MAX_TX_AUTHORIZATION_BYTES
  }.

Abbreviation validate := (validate_paged_spend hash_tx8x2_leaves sponge_pairs).

Lemma validate_ok_iff pages :
  Forall body_wf pages ->
  (exists facts, validate pages = Ok facts) <-> exists first, valid_spend pages first.
Proof.
  intros Hw. split.
  - intros (facts & H). apply (validate_paged_spend_valid pages facts Hw) in H as (f & H & _). eauto.
  - intros (f & H). exists (spend_facts pages f). apply (validate_paged_spend_valid _ _ Hw). eauto.
Qed.

Lemma valid_pages_wf pages first :
  Forall body_wf pages -> valid_spend pages first -> Forall page_wf pages.
Proof.
  intros Hw Hv. apply Forall_and. split; [exact Hw|].
  pose proof (vs_shape _ _ Hv) as Hs. rewrite Forall_forall in Hw, Hs |- *.
  intros b Hb. apply validate_page_shape_iff; auto.
Qed.

Lemma fold_encode_pages pages acc :
  Forall page_wf pages ->
  fold_result (fun acc page => b ← TxPage_encode page; Ok (acc ++ b)) acc pages
  = Ok (acc ++ put_many encode_page_body pages).
Proof.
  intros H. revert acc. induction H as [|p l [_ Hp] Hl IH]; intros acc.
  - cbn. now rewrite app_nil_r.
  - cbn [fold_result]. unfold TxPage_encode. rewrite Hp. cbn [mbind result_bind].
    rewrite IH. unfold put_many. rewrite bind_cons, app_assoc. reflexivity.
Qed.

Lemma encode_iff i bs :
  Forall body_wf (intent_pages i) -> bytes_ok (authorization_bytes i) ->
  PagedSpendIntent_encode hash_tx8x2_leaves sponge_pairs i = Ok bs
  <-> intent_wf i /\ bs = intent_bytes i.
Proof.
  intros Hw Ha. unfold PagedSpendIntent_encode. split.
  - intros H. apply bind_ok_inv in H as (facts & H1 & H).
    apply bind_ok_inv in H as (u & H2 & H). apply ensure_ok_iff in H2. boolify.
    destruct (proj1 (validate_ok_iff _ Hw) (ex_intro _ _ H1)) as [first Hv].
    rewrite fold_encode_pages in H by (eapply valid_pages_wf; eauto).
    cbn [mbind result_bind] in H. apply bind_ok_inv in H as (u' & _ & [= <-]).
    split; [constructor; eauto | reflexivity].
  - intros [[_ _ Hv Hl] ->]. destruct (proj2 (validate_ok_iff _ Hw) Hv) as [facts Hf].
    destruct Hv as [first Hv]. rewrite Hf. cbn [mbind result_bind].
    apply Z.leb_le in Hl as Hl'. rewrite Hl'. cbn [ensure mbind result_bind].
    rewrite fold_encode_pages by (eapply valid_pages_wf; eauto). cbn [mbind result_bind].
    unfold MAX_TX_AUTHORIZATION_BYTES in Hl.
    replace (Z.of_nat (length (authorization_bytes i)) <? 2 ^ 32) with true by lia. reflexivity.
Qed.

Lemma lift_result_ok {E A} (r : result E A) src a rest :
  lift_result r src = Ok (a, rest) <-> r = Ok a /\ rest = src.
Proof. unfold lift_result. destruct r; split; [intros [= <- <-]|intros [[= <-] ->]| |intros [? _]]; auto; discriminate. Qed.

#[export] Instance lawful_intent :
  LawfulCodec intent_bytes (PagedSpendIntent_decode hash_tx8x2_leaves sponge_pairs) intent_wf.
Proof.
  split.
  - intros [pages auth] rest [Hw Ha Hv Hl]. cbn [intent_pages authorization_bytes] in *.
    unfold intent_bytes, PagedSpendIntent_decode. cbn [intent_pages authorization_bytes].
    destruct (proj2 (validate_ok_iff _ Hw) Hv) as [facts Hf]. destruct Hv as [first Hv].
    pose proof (vs_count _ _ Hv) as Hc. unfold MAX_TX_AUTHORIZATION_BYTES in Hl.
    rewrite <- !app_assoc.
    erewrite parser_bind_run by (apply codec_print_parse; split; [reflexivity|repeat constructor; discriminate]).
    erewrite parser_bind_run by reflexivity.
    erewrite parser_bind_run by (apply codec_print_parse; unfold in_range; lia).
    erewrite parser_bind_run.
    2: { apply lift_result_ok. split; [|reflexivity]. apply ensure_ok_iff, andb_true_iff.
         unfold MAX_PAGED_SPEND_PAGES. split; apply Z.leb_le; lia. }
    erewrite parser_bind_run.
    2: { apply lift_result_ok. split; [|reflexivity]. apply ok_or_ok_iff, checked_mul_some.
         split; [reflexivity|]. change (Z.of_nat TX_BODY_WIRE_SIZE) with 323. lia. }
    pose proof (valid_pages_wf _ _ Hw Hv) as Hpw.
    erewrite parser_bind_run.
    2: { apply lift_result_ok. split; [|reflexivity]. apply ensure_ok_iff, Z.leb_le.
         rewrite length_app, (length_put_many _ _ TX_BODY_WIRE_SIZE); [lia|].
         eapply Forall_impl; [exact Hw|]. apply length_encode_page_body. }
    rewrite Nat2Z.id. erewrite parser_bind_run by (apply codec_print_parse; auto).
    erewrite parser_bind_run by (apply codec_print_parse; unfold in_range; lia).
    erewrite parser_bind_run.
    2: { apply lift_result_ok. split; [|reflexivity]. apply ensure_ok_iff, Z.leb_le. exact Hl. }
    rewrite Nat2Z.id. erewrite parser_bind_run by (apply codec_print_parse; split; auto).
    apply lift_result_ok. split; [|reflexivity]. unfold PagedSpendIntent_new. rewrite Hf.
    cbn [mbind result_bind]. apply Z.leb_le in Hl as Hl'.
    unfold MAX_TX_AUTHORIZATION_BYTES. rewrite Hl'. reflexivity.
  - intros bs i rest Hb H. unfold PagedSpendIntent_decode in H.
    apply parser_bind_ok in H as (m & mid1 & H1 & H).
    apply codec_parse_print in H1 as [-> Hm]; [|exact Hb]. apply bytes_ok_app in Hb as [_ Hb].
    apply parser_bind_ok in H as (u & mid & H2 & H). apply lift_result_ok in H2 as [H2 ->].
    apply ensure_ok_iff, bool_decide_eq_true in H2 as ->.
    apply parser_bind_ok in H as (n & mid2 & H3 & H).
    apply codec_parse_print in H3 as [-> Hn]; [|exact Hb]. apply bytes_ok_app in Hb as [_ Hb].
    do 3 (apply parser_bind_ok in H as (? & ? & Hskip & H); apply lift_result_ok in Hskip as [_ ->]).
    apply parser_bind_ok in H as (pages & mid3 & H4 & H).
    apply codec_parse_print in H4 as [-> [Hpl Hpw]]; [|exact Hb]. apply bytes_ok_app in Hb as [_ Hb].
    apply parser_bind_ok in H as (k & mid4 & H5 & H).
    apply codec_parse_print in H5 as [-> Hk]; [|exact Hb]. apply bytes_ok_app in Hb as [_ Hb].
    apply parser_bind_ok in H as (u' & mid & H6 & H). apply lift_result_ok in H6 as [_ ->].
    apply parser_bind_ok in H as (auth & mid5 & H7 & H).
    apply codec_parse_print in H7 as [-> [Hal Hab]]; [|exact Hb].
    apply lift_result_ok in H as [H ->]. unfold PagedSpendIntent_new in H.
    apply bind_ok_inv in H as (facts & H8 & H).
    apply bind_ok_inv in H as (u'' & H9 & [= <-]). apply ensure_ok_iff, Z.leb_le in H9.
    assert (Hw : Forall body_wf pages) by (eapply Forall_impl; [exact Hpw|]; intros b [? _]; auto).
    unfold in_range in *. split.
    + unfold intent_bytes. cbn [intent_pages authorization_bytes].
      rewrite Hpl, Hal, !Z2Nat.id by lia. rewrite <- !app_assoc. reflexivity.
    + constructor; cbn [intent_pages authorization_bytes]; auto. apply (validate_ok_iff _ Hw). eauto.
  Unshelve. all: exact tt.
Qed.

Lemma length_intent_bytes i :
  intent_wf i -> Z.of_nat (length (intent_bytes i)) <= MAX_PAGED_SPEND_INTENT_BYTES.
Proof.
  intros [Hw _ [first Hv] Hl]. unfold intent_bytes, put_bytes.
  rewrite !length_app, (length_put_many _ _ TX_BODY_WIRE_SIZE).
  2: { eapply Forall_impl; [exact Hw|]. apply length_encode_page_body. }
  pose proof (vs_count _ _ Hv). unfold put_u16, put_u32, put_uint. rewrite !length_to_le_bytes.
  unfold MAX_PAGED_SPEND_INTENT_BYTES, PAGED_SPEND_INTENT_FIXED_OVERHEAD, MAX_PAGED_SPEND_PAGES,
    MAX_TX_AUTHORIZATION_BYTES in *. cbn [length]. change TX_BODY_WIRE_SIZE with 323%nat. lia.
Qed.
End SpendTheorems.

(** ** Properties *)

(** C28. [validate_paged_spend] accepts exactly the valid spends and reports
    their facts: between 1 and 128 well-shaped pages, start and end markers on
    the first and last page only, one owner and anchor, the fee on the first
    page, live records packed before dead ones on each side, 1 to 1020 inputs,
    all slots distinct, the least page count that holds them, and inputs equal
    to outputs plus fee. *)
Theorem validate_paged_spend_iff hash sponge (pages : list TxPage) (facts : PagedSpendFacts) :
  Forall body_wf pages ->
  validate_paged_spend hash sponge pages = Ok facts <->
  exists first, valid_spend pages first /\ facts = spend_facts hash sponge pages first.
Proof. apply validate_paged_spend_valid. Qed.

(** A two-page spend: nine inputs of 10, two outputs, fee 5. *)
Definition example_pages : list TxPage :=
  [ mkTxBody (replicate 32 7) 5 (replicate 32 9)
      ((fun k => mkTxInput (Z.of_nat k) 10 1) <$> seq 0 8)
      [mkTxOutput 100 40 (replicate 32 8); mkTxOutput 101 45 (replicate 32 8)]
      (1023 + 1024) false;
    mkTxBody (replicate 32 7) 0 (replicate 32 9)
      (mkTxInput 8 10 1 :: replicate 7 TxInput_dummy)
      [TxOutput_dummy; TxOutput_dummy] (1 + 2048) false ].

Lemma example_pages_wf : Forall body_wf example_pages.
Proof.
  repeat constructor; unfold in_range, byte_ok; cbn; try lia; repeat constructor; cbn; lia.
Qed.

Lemma validate_paged_spend_witness :
  exists first, valid_spend example_pages first.
Proof.
  destruct (proj1 (validate_paged_spend_iff (fun _ => []) (fun _ _ => []) example_pages
     (mkPagedSpendFacts [] (replicate 32 9) (replicate 32 7) 5 9 2 90 85) example_pages_wf))
     as (first & H & _).
  - vm_compute. reflexivity.
  - exists first. exact H.
Defined.

(** The intent codec is exact in both directions: [from_bytes] returns an
    intent precisely for the bytes [encode] produces for it, the intent being
    valid; the length bound of [from_bytes] rejects no encodable intent. *)
Theorem intent_wire_bijection hash sponge (bytes : list Z) (i : PagedSpendIntent) :
  bytes_ok bytes ->
  PagedSpendIntent_from_bytes hash sponge bytes = Ok i
  <-> Forall body_wf (intent_pages i) /\ bytes_ok (authorization_bytes i)
      /\ PagedSpendIntent_encode hash sponge i = Ok bytes.
Proof.
  intros Hb. unfold PagedSpendIntent_from_bytes.
  pose proof (decode_exact_iff intent_bytes (PagedSpendIntent_decode hash sponge) intent_wf
    (Wire TrailingBytes) bytes i Hb) as Hd.
  split.
  - case_test; [discriminate|]. rewrite Hd. intros [-> Hi].
    split; [apply (iw_pages i Hi)|]. split; [apply (iw_auth i Hi)|].
    apply encode_iff; [apply (iw_pages i Hi)|apply (iw_auth i Hi)|auto].
  - intros (Hw & Ha & He). apply encode_iff in He as [Hi ->]; [|assumption..].
    pose proof (length_intent_bytes i Hi) as Hl.
    replace (MAX_PAGED_SPEND_INTENT_BYTES <? Z.of_nat (length (intent_bytes i))) with false by lia.
    apply Hd. auto.
Qed.

Lemma intent_wire_bijection_witness :
  exists bytes, PagedSpendIntent_encode (fun _ => []) (fun _ _ => [])
                  (mkPagedSpendIntent example_pages [1; 2; 3]) = Ok bytes
    /\ PagedSpendIntent_from_bytes (fun _ => []) (fun _ _ => []) bytes
       = Ok (mkPagedSpendIntent example_pages [1; 2; 3]).
Proof.
  exists (intent_bytes (mkPagedSpendIntent example_pages [1; 2; 3])).
  split; [vm_compute; reflexivity|].
  apply (intent_wire_bijection (fun _ => []) (fun _ _ => [])).
  - unfold bytes_ok, byte_ok, in_range. vm_compute. repeat constructor; discriminate.
  - split; [exact example_pages_wf|]. split; [|vm_compute; reflexivity].
    unfold bytes_ok, byte_ok, in_range. vm_compute. repeat constructor; discriminate.
Defined.

(** A logical transaction id binds the whole page list: if two lists of
    well-formed pages have the same id, they are equal or exhibit a collision
    of the group sponge or of the leaf hash (whose digests are 32 bytes). *)
Theorem logical_txid_binding hash sponge (p q : list TxPage) :
  (forall leaves, digest_ok (hash leaves)) ->
  Forall body_wf p -> Forall body_wf q ->
  hash_paged_spend_unchecked hash sponge p = hash_paged_spend_unchecked hash sponge q ->
  p = q
  \/ (exists x y, x <> y /\ sponge TAG_PAGED_SPEND x = sponge TAG_PAGED_SPEND y)
  \/ (exists x y, x <> y /\ hash x = hash y).
Proof.
  intros Hh Hp Hq H. unfold hash_paged_spend_unchecked in H.
  destruct (decide (paged_spend_preimage hash p = paged_spend_preimage hash q)) as [E|E];
    [|right; left; eauto].
  unfold paged_spend_preimage in E. injection E as _ E. clear H.
  revert q Hq E. induction Hp as [|b l Hb Hp IH]; intros [|c m] Hq E; try discriminate; [auto|].
  apply Forall_cons in Hq as [Hc Hq]. rewrite !fmap_cons in E. injection E as E1 E2 E.
  assert (Ep : page_hash hash b = page_hash hash c)
    by (apply digest_fields_inj; [apply Hh | apply Hh | unfold digest_fields; congruence]).
  destruct (decide (body_hash_leaves b = body_hash_leaves c)) as [El|El].
  - apply body_leaves_inj in El as ->; [|assumption..].
    destruct (IH m Hq E) as [-> | [?|?]]; auto.
  - right; right. exists (body_hash_leaves b), (body_hash_leaves c). auto.
Qed.

Lemma logical_txid_binding_witness :
  example_pages = example_pages
  \/ (exists x y, x <> y /\ (fun _ _ => [] : list Z) TAG_PAGED_SPEND x = (fun _ _ => []) TAG_PAGED_SPEND (y : list (Z * Z)))
  \/ (exists x y : list (Z * Z), x <> y /\ replicate 32 0 = replicate 32 0).
Proof.
  apply (logical_txid_binding (fun _ => replicate 32 0) (fun _ _ => []) example_pages example_pages);
    [|exact example_pages_wf|exact example_pages_wf|reflexivity].
  intros _. split; [reflexivity|]. repeat constructor; discriminate.
Defined.
