(* ===== verification/Fees.v ===== *)
(** * Transaction fees

    [noid_chain/src/consensus/fees.rs] and the fee sums of [emission.rs]: base,
    input, output and state-growth components, the occupancy pressure steps, the
    burned and the claimable part, and the coinbase ceiling they give. *)

From Stdlib Require Import ZArith Lia.
From stdpp Require Import base numbers list option gmap.
From S2P Require Import Prelude Params Emission Tx.

Open Scope Z_scope.

Definition MIN_FEE_BASE : Z := 5000.
Definition FEE_PER_INPUT : Z := 100.
Definition FEE_PER_OUTPUT : Z := 700.
Definition STATE_GROWTH_FEE_BASE : Z := 2500.
Definition PRESSURE_LOW_BPS : Z := 5000.
Definition PRESSURE_HIGH_BPS : Z := 7500.
Definition PRESSURE_EXTREME_BPS : Z := 9000.

(** The fee constants of [params.rs] and the pressure steps of [fees.rs]. *)
Definition fee_constants : list Z :=
  [MIN_FEE_BASE; FEE_PER_INPUT; FEE_PER_OUTPUT; STATE_GROWTH_FEE_BASE].
Definition pressure_constants : list Z := [PRESSURE_LOW_BPS; PRESSURE_HIGH_BPS; PRESSURE_EXTREME_BPS].

#[export] Hint Unfold MIN_FEE_BASE FEE_PER_INPUT FEE_PER_OUTPUT STATE_GROWTH_FEE_BASE
  PRESSURE_LOW_BPS PRESSURE_HIGH_BPS PRESSURE_EXTREME_BPS : params.

Record FeeBreakdown := mkFeeBreakdown {
  fb_base : Z;
  fb_input : Z;
  fb_output : Z;
  fb_io : Z;
  fb_state_growth : Z;
  fb_required_total : Z;
  fb_burned : Z
}.

Definition claimable_at_minimum (f : FeeBreakdown) : Z :=
  saturating_sub (fb_required_total f) (fb_burned f).

Definition tx_live_counts (body : TxBody) : Z * Z :=
  (live_input_count body, live_output_count body).

(** The final cast is [as u64]. *)
Definition occupancy_bps (active_slot_count log_slots : Z) : Z :=
  let capacity := Z.max (default (umax 128) (checked_shl1 128 log_slots)) 1 in
  (saturating_mul 128 active_slot_count 10000 / capacity) mod 2 ^ 64.

Definition pressure_multiplier (active_slot_count log_slots : Z) : Z :=
  let bps := occupancy_bps active_slot_count log_slots in
  if PRESSURE_EXTREME_BPS <=? bps then 8
  else if PRESSURE_HIGH_BPS <=? bps then 4
  else if PRESSURE_LOW_BPS <=? bps then 2
  else 1.

Definition state_growth_fee_per_slot (active_slot_count log_slots : Z) : Z :=
  saturating_mul 64 STATE_GROWTH_FEE_BASE (pressure_multiplier active_slot_count log_slots).

Definition fee_breakdown (n_inputs n_outputs active_slot_count log_slots : Z) : FeeBreakdown :=
  let net_new_slots := saturating_sub n_outputs n_inputs in
  let base := MIN_FEE_BASE in
  let input := saturating_mul 64 FEE_PER_INPUT n_inputs in
  let output := saturating_mul 64 FEE_PER_OUTPUT n_outputs in
  let io := saturating_add 64 input output in
  let state_growth :=
    saturating_mul 64 (state_growth_fee_per_slot active_slot_count log_slots) net_new_slots in
  let required_total := saturating_add 64 (saturating_add 64 base io) state_growth in
  mkFeeBreakdown base input output io state_growth required_total state_growth.

Definition fee_breakdown_for_tx_body (body : TxBody) (active_slot_count log_slots : Z)
  : FeeBreakdown :=
  let '(n_inputs, n_outputs) := tx_live_counts body in
  fee_breakdown n_inputs n_outputs active_slot_count log_slots.

Definition required_fee_for_tx_body (body : TxBody) (active_slot_count log_slots : Z) : Z :=
  fb_required_total (fee_breakdown_for_tx_body body active_slot_count log_slots).

Definition burned_fee_for_tx_body (body : TxBody) (active_slot_count log_slots : Z) : Z :=
  fb_burned (fee_breakdown_for_tx_body body active_slot_count log_slots).

Definition claimable_fee_for_tx_body (body : TxBody) (active_slot_count log_slots : Z) : Z :=
  if is_coinbase body then 0
  else saturating_sub (fee body) (burned_fee_for_tx_body body active_slot_count log_slots).

Definition user_txs (txs : list TxBody) : list TxBody :=
  filter (fun tx => is_coinbase tx = false) txs.

Definition total_fees (txs : list TxBody) : Z := Zsum (fee <$> user_txs txs).

Definition max_coinbase_value (child_height child_log_slots parent_active_slot_count
    parent_log_slots : Z) (non_coinbase_txs : list TxBody) : option Z :=
  let claimable_fee_sum :=
    Zsum ((fun tx => claimable_fee_for_tx_body tx parent_active_slot_count parent_log_slots)
          <$> user_txs non_coinbase_txs) in
  max_coinbase_value_from_claimable_fee_sum child_height child_log_slots claimable_fee_sum.

(** ** Lemmas *)

Lemma pressure_multiplier_cases a ls :
  let m := pressure_multiplier a ls in m = 1 \/ m = 2 \/ m = 4 \/ m = 8.
Proof. unfold pressure_multiplier. cbv zeta. repeat case_test; auto. Qed.

Lemma occupancy_bps_eq a ls :
  u64 a -> 0 <= ls < 128 -> occupancy_bps a ls = (a * 10000 / 2 ^ ls) mod 2 ^ 64.
Proof.
  unfold in_range, occupancy_bps, checked_shl1, saturating_mul, umax. intros Ha Hls.
  destruct (Z.ltb_spec ls 128); [|lia]. cbn [default from_option id].
  pose proof (pow2_pos ls ltac:(lia)). rewrite Z.max_l by lia. rewrite Z.min_l by lia. reflexivity.
Qed.

(** Without the saturating operators: no intermediate value of a body or a
    paged spend comes near [u64::MAX]. *)
Lemma fee_breakdown_exact i o a ls :
  0 <= i <= 2 ^ 32 -> 0 <= o <= 2 ^ 32 ->
  let growth := 2500 * pressure_multiplier a ls * Z.max (o - i) 0 in
  fee_breakdown i o a ls =
  mkFeeBreakdown 5000 (100 * i) (700 * o) (100 * i + 700 * o) growth
    (5000 + 100 * i + 700 * o + growth) growth.
Proof.
  intros Hi Ho growth. pose proof (pressure_multiplier_cases a ls) as Hm. cbv zeta in Hm.
  unfold fee_breakdown, state_growth_fee_per_slot, saturating_mul, saturating_add,
    saturating_sub, umax, growth. autounfold with params.
  change (2 ^ 32) with 4294967296 in *. change (2 ^ 64) with 18446744073709551616.
  set (m := pressure_multiplier a ls) in *. cbv zeta.
  rewrite (Z.min_l (2500 * m)) by lia.
  assert (0 <= 2500 * m * Z.max (o - i) 0 <= 2500 * 8 * 4294967296) by nia.
  rewrite !Z.min_l by lia. f_equal; lia.
Qed.

Lemma live_counts_bound b : body_wf b -> 0 <= live_input_count b <= 8 /\ 0 <= live_output_count b <= 2.
Proof.
  intros Hb. destruct (wf_inputs b Hb) as [Hi _], (wf_outputs b Hb) as [Ho _].
  rewrite live_input_count_length, live_output_count_length by assumption.
  pose proof (length_live_inputs b). pose proof (length_live_outputs b).
  unfold TX_INPUTS, TX_OUTPUTS in *. lia.
Qed.

Lemma burned_exact b a ls :
  body_wf b ->
  burned_fee_for_tx_body b a ls =
  2500 * pressure_multiplier a ls * Z.max (live_output_count b - live_input_count b) 0
  /\ required_fee_for_tx_body b a ls =
     5000 + 100 * live_input_count b + 700 * live_output_count b + burned_fee_for_tx_body b a ls.
Proof.
  intros Hb. pose proof (live_counts_bound b Hb).
  unfold burned_fee_for_tx_body, required_fee_for_tx_body, fee_breakdown_for_tx_body, tx_live_counts.
  rewrite fee_breakdown_exact by lia. cbn [fb_burned fb_required_total]. auto.
Qed.

(** The pressure step by the occupied share of the slots: eightfold from nine
    tenths, fourfold from three quarters, twofold from one half. *)
Definition growth_step (active capacity : Z) : Z :=
  if decide (9 * capacity <= 10 * active) then 8
  else if decide (3 * capacity <= 4 * active) then 4
  else if decide (capacity <= 2 * active) then 2
  else 1.

Lemma pressure_step a ls : 0 <= ls <= LOG_SLOTS_MAX -> 0 <= a <= 2 ^ ls -> pressure_multiplier a ls = growth_step a (2 ^ ls).
Proof.
  unfold LOG_SLOTS_MAX. intros Hls Ha. assert (H32 : 2 ^ ls <= 2 ^ 32) by (apply Z.pow_le_mono_r; lia).
  pose proof (pow2_pos ls ltac:(lia)) as Hp. unfold pressure_multiplier. cbv zeta. autounfold with params.
  rewrite occupancy_bps_eq by (unfold in_range; lia).
  assert (0 <= a * 10000 / 2 ^ ls <= 10000) by (split; [apply Z.div_pos; lia|apply Z.div_le_upper_bound; nia]).
  rewrite Z.mod_small by lia.
  assert (Hle : forall k, k <= a * 10000 / 2 ^ ls <-> k * 2 ^ ls <= a * 10000).
  { intros k. split; [intros H'; pose proof (Z.mul_div_le (a * 10000) (2 ^ ls) ltac:(lia)); nia|intros H'; apply Z.div_le_lower_bound; lia]. }
  pose proof (Hle 9000). pose proof (Hle 7500). pose proof (Hle 5000). unfold growth_step.
  repeat case_test; boolify; repeat case_decide; lia.
Qed.

(** ** Properties *)

(** C30. Fees are conserved and the burn is out of the miner's reach: when every
    user body of a block pays its required fee, the fees split exactly into the
    burned part and the claimable part, each transaction leaves the miner at
    least the base and per-record components, and the coinbase ceiling is the
    miner subsidy plus the unburned fees.  The burn of a body is its state growth
    and nothing else: 2500 for each live output beyond the number of its live
    inputs, times the pressure step of the occupied share of the parent's
    slots. *)
Theorem fee_conservation (height log_slots active parent_log_slots : Z) (txs : list TxBody) :
  Forall body_wf txs ->
  Forall (fun b => is_coinbase b = false ->
            required_fee_for_tx_body b active parent_log_slots <= fee b) txs ->
  let burned := Zsum ((fun b => burned_fee_for_tx_body b active parent_log_slots) <$> user_txs txs) in
  let claimable := Zsum ((fun b => claimable_fee_for_tx_body b active parent_log_slots) <$> user_txs txs) in
  total_fees txs = burned + claimable
  /\ Forall (fun b => 5000 + 100 * live_input_count b + 700 * live_output_count b
                      <= claimable_fee_for_tx_body b active parent_log_slots) (user_txs txs)
  /\ (0 <= parent_log_slots <= LOG_SLOTS_MAX -> 0 <= active <= 2 ^ parent_log_slots ->
      Forall (fun b => burned_fee_for_tx_body b active parent_log_slots
                       = 2500 * growth_step active (2 ^ parent_log_slots) * Z.max (live_output_count b - live_input_count b) 0) (user_txs txs))
  /\ exists m, miner_subsidy_at_height height log_slots = Some m
     /\ max_coinbase_value height log_slots active parent_log_slots txs
        = Some (m + (total_fees txs - burned)).
Proof.
  intros Hw Hfee burned claimable.
  assert (Hu : Forall (fun b => body_wf b /\ is_coinbase b = false
            /\ required_fee_for_tx_body b active parent_log_slots <= fee b) (user_txs txs)).
  { apply Forall_forall. intros b [Hc Hb]%list_elem_of_filter.
    rewrite Forall_forall in Hw, Hfee. auto. }
  assert (Hsum : total_fees txs = burned + claimable).
  { unfold total_fees, burned, claimable. clear burned claimable Hw Hfee.
    induction Hu as [|b l (Hb & Hc & Hf) Hl IH]; [reflexivity|].
    rewrite !fmap_cons, !Zsum_cons, IH. unfold claimable_fee_for_tx_body at 2. rewrite Hc.
    destruct (burned_exact b active parent_log_slots Hb) as [_ Hr].
    pose proof (live_counts_bound b Hb). rewrite saturating_sub_ge by lia. lia. }
  split; [exact Hsum|]. split.
  - eapply Forall_impl; [exact Hu|]. cbv beta. intros b (Hb & Hc & Hf).
    destruct (burned_exact b active parent_log_slots Hb) as [_ Hr].
    unfold claimable_fee_for_tx_body. rewrite Hc. pose proof (live_counts_bound b Hb).
    rewrite saturating_sub_ge by lia. lia.
  - split.
    { intros Hls Ha. eapply Forall_impl; [exact Hu|]. cbv beta. intros b (Hb & _). rewrite <- pressure_step by assumption.
      exact (proj1 (burned_exact b active parent_log_slots Hb)). }
    unfold max_coinbase_value. fold claimable.
    destruct (release_allocation_ok height log_slots claimable) as (m & H1 & H2).
    exists m. split; [exact H1|]. rewrite H2. f_equal. lia.
Qed.

(** A spend of one input into two outputs on a nearly full domain. *)
Definition example_growing : TxBody :=
  mkTxBody (epoch_anchor example_body) 30000 (input_owner example_body) (inputs example_body) (outputs example_body) (1 + 256 + 512) false.

Lemma fee_conservation_witness :
  burned_fee_for_tx_body example_growing 16000000 24 = 20000
  /\ exists m, miner_subsidy_at_height 1 24 = Some m /\ max_coinbase_value 1 24 16000000 24 [example_growing] = Some (m + 10000).
Proof.
  destruct (fee_conservation 1 24 16000000 24 [example_growing]) as (_ & _ & Hb & m & H1 & H2).
  - constructor; [|constructor]. destruct example_body_wf as [A B C D E F].
    constructor; auto; unfold in_range; cbn; lia.
  - constructor; [|constructor]. intros _. vm_compute. discriminate.
  - assert (Hg : growth_step 16000000 (2 ^ 24) = 8) by reflexivity.
    specialize (Hb ltac:(unfold LOG_SLOTS_MAX; lia) ltac:(lia)). apply Forall_cons_1 in Hb as [Hb _]. rewrite Hg in Hb. split; [exact Hb|].
    exists m. split; [exact H1|exact H2].
Defined.

(** State-growth pressure never falls as the state fills: with a fixed
    depth the per-slot burn is monotone in the number of active slots, always
    between one and eight times the base. *)
Theorem growth_fee_monotone (a a' log_slots : Z) :
  0 <= a <= a' -> a' <= 2 ^ log_slots -> 0 <= log_slots <= LOG_SLOTS_MAX ->
  STATE_GROWTH_FEE_BASE <= state_growth_fee_per_slot a log_slots
    <= state_growth_fee_per_slot a' log_slots
  /\ state_growth_fee_per_slot a' log_slots <= 8 * STATE_GROWTH_FEE_BASE.
Proof.
  unfold LOG_SLOTS_MAX. intros Ha Hcap Hls.
  assert (H32 : 2 ^ log_slots <= 2 ^ 32) by (apply Z.pow_le_mono_r; lia).
  pose proof (pow2_pos log_slots ltac:(lia)) as Hp.
  assert (Hocc : occupancy_bps a log_slots <= occupancy_bps a' log_slots).
  { rewrite !occupancy_bps_eq by (unfold in_range; lia).
    assert (forall x, 0 <= x <= a' -> 0 <= x * 10000 / 2 ^ log_slots <= 10000).
    { intros x Hx. split; [apply Z.div_pos; lia|]. apply Z.div_le_upper_bound; nia. }
    rewrite !Z.mod_small by (pose proof (H a); pose proof (H a'); lia).
    apply Z.div_le_mono; lia. }
  unfold state_growth_fee_per_slot, saturating_mul, pressure_multiplier, umax.
  autounfold with params. change (2 ^ 64) with 18446744073709551616.
  repeat case_test; boolify; lia.
Qed.

