(* ===== verification/U256.v ===== *)
(** * 256-bit integers as byte and limb arrays

    The "256-bit little-endian helpers" of
    [noid_chain/src/consensus/difficulty.rs]: comparison, saturating addition,
    shifts over limbs, limb multiplication and bit-serial long division, each
    proved against the integer it stands for. *)

From Stdlib Require Import ZArith Lia.
From stdpp Require Import base numbers list option gmap.
From S2P Require Import Prelude.

Open Scope Z_scope.

(** ** Digit arrays *)

(** Value of a little-endian array of [w]-bit digits. *)
Fixpoint val (w : Z) (l : list Z) : Z :=
  match l with
  | [] => 0
  | d :: l' => d + 2 ^ w * val w l'
  end.

Definition digits_ok (w : Z) (l : list Z) : Prop := Forall (in_range w) l.

Definition bytes_to_limbs (b : list Z) : list Z :=
  [ from_le_bytes (take 8 b); from_le_bytes (take 8 (drop 8 b));
    from_le_bytes (take 8 (drop 16 b)); from_le_bytes (take 8 (drop 24 b)) ].

Definition limbs_to_bytes (l : list Z) : list Z := l ≫= to_le_bytes 8.

(** The carry loop of [mul_limbs_u64]; the last limb is the final carry. *)
Fixpoint mul_limbs_loop (carry factor : Z) (a : list Z) : list Z :=
  match a with
  | [] => [carry mod 2 ^ 64]
  | x :: a' =>
      let prod := x * factor + carry in
      prod mod 2 ^ 64 :: mul_limbs_loop (Z.shiftr prod 64) factor a'
  end.

Definition mul_limbs_u64 (a : list Z) (factor : Z) : list Z := mul_limbs_loop 0 factor a.

(** [nc = limb >> (w - k); limb = (limb << k) | c; c = nc], low digit first. *)
Fixpoint shl_loop (w k c : Z) (l : list Z) : list Z :=
  match l with
  | [] => []
  | d :: l' => Z.lor (Z.shiftl d k mod 2 ^ w) c :: shl_loop w k (Z.shiftr d (w - k)) l'
  end.

(** [nc = limb << (w - k); limb = (limb >> k) | c; c = nc], high digit first. *)
Fixpoint shr_loop (w k c : Z) (l : list Z) : list Z :=
  match l with
  | [] => []
  | d :: l' => Z.lor (Z.shiftr d k) c :: shr_loop w k (Z.shiftl d (w - k) mod 2 ^ w) l'
  end.

Definition shl320 (w : list Z) (n : Z) : list Z :=
  if n =? 0 then w
  else
    let word_sh := Z.to_nat (Z.min (n / 64) 5) in
    let bit_sh := n mod 64 in
    let out := replicate word_sh 0 ++ take (5 - word_sh) w in
    if 0 <? bit_sh then shl_loop 64 bit_sh 0 out else out.

Definition shr320 (w : list Z) (n : Z) : list Z :=
  if n =? 0 then w
  else
    let word_sh := Z.to_nat (Z.min (n / 64) 5) in
    let bit_sh := n mod 64 in
    let out := drop word_sh w ++ replicate word_sh 0 in
    if 0 <? bit_sh then reverse (shr_loop 64 bit_sh 0 (reverse out)) else out.

Definition shift_wide (w : list Z) (net : Z) : list Z :=
  if 0 <=? net then shl320 w (Z.min net 319) else shr320 w (Z.min (- net) 319).

(** ** Byte arrays *)

(** The loop of [le256_lt] over [(0..32).rev()], high byte first. *)
Fixpoint lt_high_first (a b : list Z) : bool :=
  match a, b with
  | x :: a', y :: b' =>
      if x <? y then true else if y <? x then false else lt_high_first a' b'
  | _, _ => false
  end.

Definition le256_lt (a b : list Z) : bool := lt_high_first (reverse a) (reverse b).

Definition ge256 (a b : list Z) : bool := negb (le256_lt a b).

Definition is_zero_256 (a : list Z) : bool := forallb (fun byte => byte =? 0) a.

(** [u8::leading_zeros]. *)
Definition leading_zeros8 (byte : Z) : Z := if byte =? 0 then 8 else 7 - Z.log2 byte.

Fixpoint leading_zeros_loop (l : list Z) : Z :=
  match l with
  | [] => 0
  | byte :: l' =>
      if byte =? 0 then leading_zeros8 byte + leading_zeros_loop l' else leading_zeros8 byte
  end.

Definition target_leading_zero_bits (target : list Z) : Z := leading_zeros_loop (reverse target).

Fixpoint add_loop (carry : Z) (a b : list Z) : list Z * Z :=
  match a, b with
  | x :: a', y :: b' =>
      let sum := x + y + carry in
      let '(rest, c) := add_loop (Z.shiftr sum 8) a' b' in
      (sum mod 256 :: rest, c)
  | _, _ => ([], carry)
  end.

Definition add_work (a b : list Z) : list Z :=
  let '(result, carry) := add_loop 0 a b in
  if negb (carry =? 0) then replicate 32 255 else result.

(** [None] when the carry runs off the end. *)
Fixpoint add_one_loop (a : list Z) : option (list Z) :=
  match a with
  | [] => None
  | byte :: a' =>
      let next := (byte + 1) mod 256 in
      if byte + 1 <? 256 then Some (next :: a') else cons next <$> add_one_loop a'
  end.

Definition add_one_saturating (a : list Z) : list Z :=
  default (replicate 32 255) (add_one_loop a).

Definition shl1_256 (a : list Z) : list Z := shl_loop 8 1 0 a.

Fixpoint sub_loop (borrow : Z) (a b : list Z) : list Z :=
  match a, b with
  | x :: a', y :: b' =>
      let diff := x - y - borrow in
      if diff <? 0 then (diff + 256) :: sub_loop 1 a' b' else diff :: sub_loop 0 a' b'
  | _, _ => []
  end.

Definition sub_assign_256 (a b : list Z) : list Z := sub_loop 0 a b.

Definition bit_256 (a : list Z) (bit : Z) : bool :=
  Z.land (Z.shiftr (nth (Z.to_nat (bit / 8)) a 0) (bit mod 8)) 1 =? 1.

Definition set_bit_256 (a : list Z) (bit : Z) : list Z :=
  let byte := Z.to_nat (bit / 8) in
  <[byte := Z.lor (nth byte a 0) (Z.shiftl 1 (bit mod 8))]> a.

(** [remainder[0] |= 1]. *)
Definition set_low (a : list Z) : list Z := <[0%nat := Z.lor (nth 0 a 0) 1]> a.

Definition div_step (numerator denominator : list Z) (s : list Z * list Z) (bit : Z)
  : list Z * list Z :=
  let '(quotient, remainder) := s in
  let remainder := shl1_256 remainder in
  let remainder := if bit_256 numerator bit then set_low remainder else remainder in
  if ge256 remainder denominator
  then (set_bit_256 quotient bit, sub_assign_256 remainder denominator)
  else (quotient, remainder).

Definition ZERO_256 : list Z := replicate 32 0.

Definition div_u256 (numerator denominator : list Z) : option (list Z) :=
  if is_zero_256 denominator then None
  else Some (fst (foldl (div_step numerator denominator) (ZERO_256, ZERO_256)
                    (reverse (seqZ 0 256)))).

(** [expect] of the division: the target is non-zero on that path. *)
Definition block_work (target : list Z) : option (list Z) :=
  if is_zero_256 target then Some ZERO_256
  else add_one_saturating <$> div_u256 (replicate 32 255) target.

Definition work_gt (a b : list Z) : bool := le256_lt b a.

(** ** Digit lemmas *)

Lemma val_app w a b : 0 <= w -> val w (a ++ b) = val w a + 2 ^ (w * Z.of_nat (length a)) * val w b.
Proof.
  intros Hw. induction a as [|d a IH].
  - cbn [app val length]. change (Z.of_nat 0) with 0. rewrite Z.mul_0_r. lia.
  - cbn [app val length]. rewrite IH.
    replace (w * Z.of_nat (S (length a))) with (w + w * Z.of_nat (length a)) by lia.
    rewrite Z.pow_add_r by lia. ring.
Qed.

Lemma val_bounds w l :
  0 <= w -> digits_ok w l -> 0 <= val w l < 2 ^ (w * Z.of_nat (length l)).
Proof.
  intros Hw. induction 1 as [|d l Hd Hl IH].
  - cbn [val length]. change (Z.of_nat 0) with 0. rewrite Z.mul_0_r. cbn. lia.
  - cbn [val length]. unfold in_range in Hd.
    replace (w * Z.of_nat (S (length l))) with (w + w * Z.of_nat (length l)) by lia.
    rewrite Z.pow_add_r by lia. pose proof (pow2_pos w Hw). nia.
Qed.

Lemma val_zeros w n : val w (replicate n 0) = 0.
Proof. induction n; cbn [replicate val]; [reflexivity|]. rewrite IHn. lia. Qed.

Lemma val_inj w a b :
  0 <= w -> digits_ok w a -> digits_ok w b -> length a = length b -> val w a = val w b -> a = b.
Proof.
  intros Hw Ha. revert b; induction Ha as [|x a Hx Ha IH]; intros [|y b] Hb Hl H; try discriminate; [reflexivity|].
  apply Forall_cons in Hb as [Hy Hb]. cbn [val] in H. unfold in_range in *.
  assert (x = y /\ val w a = val w b) as [-> E].
  { pose proof (pow2_pos w Hw). destruct (Z.lt_trichotomy (val w a) (val w b)) as [?|[?|?]]; nia. }
  f_equal. apply IH; auto.
Qed.

Lemma val8_from_le l : val 8 l = from_le_bytes l.
Proof. induction l as [|b l IH]; [reflexivity|]. cbn [val from_le_bytes]. rewrite IH. reflexivity. Qed.

Lemma digits8_ok l : digits_ok 8 l <-> bytes_ok l.
Proof. reflexivity. Qed.

Lemma val_snoc w l d : 0 <= w -> val w (l ++ [d]) = val w l + 2 ^ (w * Z.of_nat (length l)) * d.
Proof. intros Hw. rewrite val_app by exact Hw. cbn [val]. lia. Qed.

(** ** Comparison *)

Lemma lt_high_first_val a : forall b,
  digits_ok 8 a -> digits_ok 8 b -> length a = length b ->
  lt_high_first a b = (val 8 (reverse a) <? val 8 (reverse b)).
Proof.
  induction a as [|x a IH]; intros [|y b] Ha Hb Hl; try discriminate; [reflexivity|].
  apply Forall_cons in Ha as [Hx Ha]. apply Forall_cons in Hb as [Hy Hb]. injection Hl as Hl.
  cbn [lt_high_first]. rewrite !reverse_cons, !val_snoc, !length_reverse, Hl by lia.
  pose proof (val_bounds 8 (reverse a) ltac:(lia) (proj2 (Forall_reverse _ _) Ha)) as Va.
  pose proof (val_bounds 8 (reverse b) ltac:(lia) (proj2 (Forall_reverse _ _) Hb)) as Vb.
  rewrite length_reverse, Hl in Va. rewrite length_reverse in Vb.
  set (M := 2 ^ (8 * Z.of_nat (length b))) in *. unfold in_range in *.
  destruct (Z.ltb_spec x y); [symmetry; apply Z.ltb_lt; nia|].
  destruct (Z.ltb_spec y x); [symmetry; apply Z.ltb_ge; nia|].
  assert (x = y) as -> by lia. rewrite IH by auto.
  destruct (Z.ltb_spec (val 8 (reverse a)) (val 8 (reverse b))); symmetry;
    [apply Z.ltb_lt | apply Z.ltb_ge]; lia.
Qed.

Lemma le256_lt_val a b :
  digits_ok 8 a -> digits_ok 8 b -> length a = length b -> le256_lt a b = (val 8 a <? val 8 b).
Proof.
  intros Ha Hb Hl. unfold le256_lt.
  rewrite lt_high_first_val; rewrite ?reverse_involutive, ?length_reverse; auto;
    now apply Forall_reverse.
Qed.

Lemma is_zero_256_val a : digits_ok 8 a -> is_zero_256 a = (val 8 a =? 0).
Proof.
  unfold is_zero_256. induction 1 as [|x a Hx Ha IH]; [reflexivity|].
  cbn [forallb val]. rewrite IH. pose proof (val_bounds 8 a ltac:(lia) Ha). unfold in_range in Hx.
  change (2 ^ 8) with 256 in *.
  destruct (Z.eqb_spec x 0), (Z.eqb_spec (val 8 a) 0), (Z.eqb_spec (x + 256 * val 8 a) 0);
    cbn; try reflexivity; lia.
Qed.

(** ** Addition *)

Lemma add_loop_val a : forall b c r k,
  digits_ok 8 a -> digits_ok 8 b -> length a = length b -> 0 <= c <= 1 ->
  add_loop c a b = (r, k) ->
  digits_ok 8 r /\ length r = length a /\ 0 <= k <= 1
  /\ val 8 r + 2 ^ (8 * Z.of_nat (length a)) * k = val 8 a + val 8 b + c.
Proof.
  induction a as [|x a IH]; intros [|y b] c r k Ha Hb Hl Hc H; try discriminate.
  - injection H as <- <-. cbn [val length]. change (Z.of_nat 0) with 0. repeat split; try constructor; lia.
  - apply Forall_cons in Ha as [Hx Ha]. apply Forall_cons in Hb as [Hy Hb]. injection Hl as Hl.
    cbn [add_loop] in H. destruct (add_loop _ a b) as [r' k'] eqn:E. injection H as <- <-.
    unfold in_range in Hx, Hy. change (2 ^ 8) with 256 in *.
    rewrite Z.shiftr_div_pow2 in E by lia. change (2 ^ 8) with 256 in E.
    pose proof (Z.div_mod (x + y + c) 256 ltac:(lia)).
    pose proof (Z.mod_pos_bound (x + y + c) 256 ltac:(lia)).
    assert (Hc' : 0 <= (x + y + c) / 256 <= 1) by lia.
    destruct (IH b _ _ _ Ha Hb Hl Hc' E) as (H1 & H2 & H3 & H4).
    repeat split; [constructor; [unfold in_range; lia|exact H1] | cbn; lia | lia | lia |].
    cbn [val length]. replace (8 * Z.of_nat (S (length a))) with (8 + 8 * Z.of_nat (length a)) by lia.
    rewrite Z.pow_add_r by lia. change (2 ^ 8) with 256. nia.
Qed.

Lemma add_one_loop_val a :
  digits_ok 8 a ->
  match add_one_loop a with
  | Some r => digits_ok 8 r /\ length r = length a /\ val 8 r = val 8 a + 1
  | None => val 8 a + 1 = 2 ^ (8 * Z.of_nat (length a))
  end.
Proof.
  induction 1 as [|x a Hx Ha IH]; [reflexivity|].
  cbn [add_one_loop length]. unfold in_range in Hx. change (2 ^ 8) with 256 in Hx.
  replace (8 * Z.of_nat (S (length a))) with (8 + 8 * Z.of_nat (length a)) by lia.
  rewrite Z.pow_add_r by lia. change (2 ^ 8) with 256.
  destruct (Z.ltb_spec (x + 1) 256).
  - rewrite Z.mod_small by lia. split; [constructor; [unfold in_range; lia | exact Ha]|].
    split; [reflexivity|]. cbn [val]. change (2 ^ 8) with 256. lia.
  - replace ((x + 1) mod 256) with 0 by (replace (x + 1) with 256 by lia; reflexivity).
    destruct (add_one_loop a) as [r|]; cbn [fmap option_fmap option_map val]; change (2 ^ 8) with 256.
    + destruct IH as (H1 & H2 & H3).
      split; [constructor; [unfold in_range; lia | exact H1]|]. split; [cbn; lia | lia].
    + lia.
Qed.

(** ** Shifts *)

Lemma shl_loop_val w k l : forall c,
  0 < k < w -> digits_ok w l -> 0 <= c < 2 ^ k ->
  digits_ok w (shl_loop w k c l) /\ length (shl_loop w k c l) = length l
  /\ val w (shl_loop w k c l) = (val w l * 2 ^ k + c) mod 2 ^ (w * Z.of_nat (length l)).
Proof.
  induction l as [|d l IH]; intros c Hk Hl Hc.
  - cbn [shl_loop val length]. change (Z.of_nat 0) with 0. rewrite Z.mul_0_r, Z.mod_1_r.
    repeat split. constructor.
  - apply Forall_cons in Hl as [Hd Hl]. cbn [shl_loop].
    unfold in_range in Hd.
    pose proof (pow2_pos k ltac:(lia)) as Pk. pose proof (pow2_pos (w - k) ltac:(lia)) as Pj.
    assert (Hw : 2 ^ w = 2 ^ (w - k) * 2 ^ k) by (rewrite <- Z.pow_add_r by lia; f_equal; lia).
    assert (Hlow : Z.shiftl d k mod 2 ^ w = (d mod 2 ^ (w - k)) * 2 ^ k).
    { rewrite Z.shiftl_mul_pow2, Hw by lia. now rewrite Z.mul_mod_distr_r by lia. }
    pose proof (Z.mod_pos_bound d (2 ^ (w - k)) Pj) as Hm.
    pose proof (Z.div_mod d (2 ^ (w - k)) ltac:(lia)) as Hdm.
    assert (Hdig : Z.lor (Z.shiftl d k mod 2 ^ w) c = d mod 2 ^ (w - k) * 2 ^ k + c).
    { rewrite Hlow, <- (lor_shiftl_add _ c k) by lia. now rewrite Z.shiftl_mul_pow2 by lia. }
    rewrite Z.shiftr_div_pow2 by lia.
    assert (Hc' : 0 <= d / 2 ^ (w - k) < 2 ^ k).
    { split; [apply Z.div_pos; lia|]. apply Z.div_lt_upper_bound; lia. }
    destruct (IH _ Hk Hl Hc') as (H1 & H2 & H3).
    split; [|split].
    + constructor; [|exact H1]. rewrite Hdig. unfold in_range. nia.
    + cbn. now rewrite H2.
    + cbn [val length]. rewrite Hdig, H3.
      replace (w * Z.of_nat (S (length l))) with (w + w * Z.of_nat (length l)) by lia.
      rewrite Z.pow_add_r by nia.
      replace ((d + 2 ^ w * val w l) * 2 ^ k + c)
        with (d mod 2 ^ (w - k) * 2 ^ k + c + 2 ^ w * (val w l * 2 ^ k + d / 2 ^ (w - k)))
        by (rewrite Hdm at 3; rewrite Hw; ring).
      rewrite Z.rem_mul_r by (try apply pow2_pos; nia).
      rewrite (Z.mul_comm (2 ^ w) (val w l * 2 ^ k + _)).
      rewrite Z.mod_add, Z.div_add by lia.
      rewrite (Z.mod_small (_ + c)), (Z.div_small (_ + c)) by nia. rewrite Z.add_0_l. lia.
Qed.

(** High digit first: the carry holds the low bits of the digits above. *)
Lemma shr_loop_val w k l : forall q,
  0 < k < w -> digits_ok w l -> 0 <= q < 2 ^ k ->
  digits_ok w (shr_loop w k (q * 2 ^ (w - k)) l)
  /\ length (shr_loop w k (q * 2 ^ (w - k)) l) = length l
  /\ val w (reverse (shr_loop w k (q * 2 ^ (w - k)) l))
     = (q * 2 ^ (w * Z.of_nat (length l)) + val w (reverse l)) / 2 ^ k.
Proof.
  induction l as [|d l IH]; intros q Hk Hl Hq.
  - cbn [shr_loop reverse rev_append val length]. change (Z.of_nat 0) with 0.
    rewrite Z.mul_0_r, Z.mul_1_r, Z.add_0_r, Z.div_small by lia. repeat split. constructor.
  - apply Forall_cons in Hl as [Hd Hl]. unfold in_range in Hd.
    pose proof (pow2_pos k ltac:(lia)) as Pk. pose proof (pow2_pos (w - k) ltac:(lia)) as Pj.
    assert (Hw : 2 ^ w = 2 ^ (w - k) * 2 ^ k) by (rewrite <- Z.pow_add_r by lia; f_equal; lia).
    pose proof (Z.mod_pos_bound d (2 ^ k) Pk) as Hm.
    pose proof (Z.div_mod d (2 ^ k) ltac:(lia)) as Hdm.
    assert (Hdiv : 0 <= d / 2 ^ k < 2 ^ (w - k)).
    { split; [apply Z.div_pos; lia|]. apply Z.div_lt_upper_bound; nia. }
    cbn [shr_loop].
    replace (Z.shiftl d (w - k) mod 2 ^ w) with (d mod 2 ^ k * 2 ^ (w - k)).
    2: { rewrite Z.shiftl_mul_pow2 by lia. replace (2 ^ w) with (2 ^ k * 2 ^ (w - k)) by lia.
         now rewrite Z.mul_mod_distr_r by lia. }
    assert (Hdig : Z.lor (Z.shiftr d k) (q * 2 ^ (w - k)) = q * 2 ^ (w - k) + d / 2 ^ k).
    { rewrite Z.lor_comm, Z.shiftr_div_pow2, <- (lor_shiftl_add q _ (w - k)) by lia.
      now rewrite Z.shiftl_mul_pow2 by lia. }
    destruct (IH (d mod 2 ^ k) Hk Hl Hm) as (H1 & H2 & H3). rewrite Hdig.
    split; [|split].
    + constructor; [|exact H1]. unfold in_range. nia.
    + cbn. now rewrite H2.
    + rewrite !reverse_cons, !val_snoc, !length_reverse, H2, H3 by lia. cbn [length].
      replace (w * Z.of_nat (S (length l))) with (w + w * Z.of_nat (length l)) by lia.
      rewrite Z.pow_add_r by nia. set (M := 2 ^ (w * Z.of_nat (length l))).
      replace (q * (2 ^ w * M) + (val w (reverse l) + M * d))
        with (d mod 2 ^ k * M + val w (reverse l) + (q * 2 ^ (w - k) + d / 2 ^ k) * M * 2 ^ k)
        by (rewrite Hdm at 3; rewrite Hw; ring).
      rewrite Z.div_add by lia. ring.
Qed.

(** ** Limbs *)

Lemma mul_limbs_loop_val a : forall carry factor,
  digits_ok 64 a -> u64 factor -> u64 carry ->
  digits_ok 64 (mul_limbs_loop carry factor a)
  /\ length (mul_limbs_loop carry factor a) = S (length a)
  /\ val 64 (mul_limbs_loop carry factor a) = val 64 a * factor + carry.
Proof.
  induction a as [|x a IH]; intros carry factor Ha Hf Hc; unfold in_range in *.
  - cbn [mul_limbs_loop val length]. rewrite Z.mod_small by lia.
    repeat split; [repeat constructor; unfold in_range; lia | lia].
  - apply Forall_cons in Ha as [Hx Ha]. unfold in_range in Hx. cbn [mul_limbs_loop].
    rewrite Z.shiftr_div_pow2 by lia. set (p := x * factor + carry).
    assert (Hp : 0 <= p < 2 ^ 64 * 2 ^ 64) by (unfold p; nia).
    pose proof (Z.div_mod p (2 ^ 64) ltac:(lia)). pose proof (Z.mod_pos_bound p (2 ^ 64) ltac:(lia)).
    assert (Hc' : 0 <= p / 2 ^ 64 < 2 ^ 64)
      by (split; [apply Z.div_pos; lia | apply Z.div_lt_upper_bound; lia]).
    destruct (IH _ factor Ha Hf Hc') as (H1 & H2 & H3).
    split; [constructor; [unfold in_range; lia | exact H1]|]. split; [cbn [length]; congruence|].
    cbn [val]. rewrite H3. unfold p in *. lia.
Qed.

Lemma bytes_to_limbs_val b :
  digest_ok b ->
  digits_ok 64 (bytes_to_limbs b) /\ length (bytes_to_limbs b) = 4%nat
  /\ val 64 (bytes_to_limbs b) = val 8 b.
Proof.
  intros [Hl Hb].
  assert (Hchunk : forall k, (k <= 24)%nat ->
    in_range 64 (from_le_bytes (take 8 (drop k b))) /\ length (take 8 (drop k b)) = 8%nat).
  { intros k Hk. assert (Hlen : length (take 8 (drop k b)) = 8%nat)
      by (rewrite length_take, length_drop; lia). split; [|exact Hlen].
    pose proof (from_le_bytes_bounds (take 8 (drop k b))) as H. rewrite Hlen in H.
    apply H. apply Forall_take, Forall_drop, Hb. }
  unfold bytes_to_limbs.
  destruct (Hchunk 0%nat ltac:(lia)) as [R0 L0], (Hchunk 8%nat ltac:(lia)) as [R1 L1],
    (Hchunk 16%nat ltac:(lia)) as [R2 L2], (Hchunk 24%nat ltac:(lia)) as [R3 L3].
  rewrite drop_0 in *.
  split; [unfold digits_ok; rewrite !Forall_cons; auto|]. split; [reflexivity|].
  assert (Hsplit : b = take 8 b ++ take 8 (drop 8 b) ++ take 8 (drop 16 b) ++ take 8 (drop 24 b)).
  { rewrite <- (take_drop 8 b) at 1. f_equal. rewrite <- (take_drop 8 (drop 8 b)) at 1. f_equal.
    rewrite drop_drop. change (8 + 8)%nat with 16%nat.
    rewrite <- (take_drop 8 (drop 16 b)) at 1. f_equal.
    rewrite drop_drop. change (16 + 8)%nat with 24%nat.
    symmetry. apply take_ge. rewrite length_drop. lia. }
  transitivity (val 8 (take 8 b ++ take 8 (drop 8 b) ++ take 8 (drop 16 b) ++ take 8 (drop 24 b)));
    [|now rewrite <- Hsplit].
  rewrite !val_app, L0, L1, L2 by lia. rewrite !val8_from_le. cbn [val].
  change (8 * Z.of_nat 8) with 64. ring.
Qed.

Lemma limbs_to_bytes_val l :
  digits_ok 64 l -> bytes_ok (limbs_to_bytes l) /\ length (limbs_to_bytes l) = (8 * length l)%nat
  /\ val 8 (limbs_to_bytes l) = val 64 l.
Proof.
  unfold limbs_to_bytes. induction 1 as [|x l Hx Hl (H1 & H2 & H3)]; [repeat split; constructor|].
  rewrite bind_cons. split; [apply Forall_app; split; [apply to_le_bytes_ok | exact H1]|].
  split; [rewrite length_app, length_to_le_bytes, H2; cbn [length]; lia|].
  rewrite val_app, H3, length_to_le_bytes by lia. cbn [val].
  rewrite val8_from_le, from_to_le_bytes_id by exact Hx. reflexivity.
Qed.

Lemma shl320_val w n :
  digits_ok 64 w -> length w = 5%nat -> 0 <= n < 320 ->
  digits_ok 64 (shl320 w n) /\ length (shl320 w n) = 5%nat
  /\ val 64 (shl320 w n) = (val 64 w * 2 ^ n) mod 2 ^ 320.
Proof.
  intros Hw Hl Hn. unfold shl320.
  pose proof (val_bounds 64 w ltac:(lia) Hw) as Hv. rewrite Hl in Hv.
  change (64 * Z.of_nat 5) with 320 in Hv.
  destruct (Z.eqb_spec n 0) as [->|Hn0].
  { rewrite Z.pow_0_r, Z.mul_1_r, Z.mod_small by lia. auto. }
  pose proof (Z.div_mod n 64 ltac:(lia)). pose proof (Z.mod_pos_bound n 64 ltac:(lia)).
  assert (Hd : 0 <= n / 64 < 5) by lia. rewrite Z.min_l by lia.
  set (k := Z.to_nat (n / 64)). assert (Hk : Z.of_nat k = n / 64) by (unfold k; lia).
  set (out := replicate k 0 ++ take (5 - k) w).
  assert (Ho : digits_ok 64 out).
  { apply Forall_app. split; [apply Forall_replicate; unfold in_range; lia | apply Forall_take, Hw]. }
  assert (Hlo : length out = 5%nat).
  { unfold out. rewrite length_app, length_replicate, length_take. lia. }
  assert (Hvo : val 64 out = (val 64 w * 2 ^ (64 * (n / 64))) mod 2 ^ 320).
  { unfold out. rewrite val_app, val_zeros, length_replicate, Hk by lia.
    rewrite <- (take_drop (5 - k) w) at 2. rewrite val_app, length_take by lia.
    replace (Nat.min (5 - k) (length w)) with (5 - k)%nat by lia.
    replace (Z.of_nat (5 - k)) with (5 - n / 64) by lia.
    rewrite Z.add_0_l, Z.mul_add_distr_r, (Z.mul_comm (2 ^ (64 * (5 - n / 64)))), <- Z.mul_assoc.
    rewrite <- Z.pow_add_r by lia. replace (64 * (5 - n / 64) + 64 * (n / 64)) with 320 by lia.
    rewrite Z.mod_add by lia. rewrite Z.mod_small; [apply Z.mul_comm|].
    { pose proof (val_bounds 64 (take (5 - k) w) ltac:(lia) (Forall_take _ _ _ Hw)) as Hb.
      rewrite length_take in Hb. replace (Nat.min (5 - k) (length w)) with (5 - k)%nat in Hb by lia.
      replace (Z.of_nat (5 - k)) with (5 - n / 64) in Hb by lia.
      replace (2 ^ 320) with (2 ^ (64 * (5 - n / 64)) * 2 ^ (64 * (n / 64)))
        by (rewrite <- Z.pow_add_r by lia; f_equal; lia).
      pose proof (pow2_pos (64 * (n / 64)) ltac:(lia)). nia. } }
  assert (Hpow : 2 ^ n = 2 ^ (64 * (n / 64)) * 2 ^ (n mod 64))
    by (rewrite <- Z.pow_add_r by lia; f_equal; lia).
  destruct (Z.ltb_spec 0 (n mod 64)).
  - destruct (shl_loop_val 64 (n mod 64) out 0 ltac:(lia) Ho) as (G1 & G2 & G3);
      [pose proof (pow2_pos (n mod 64)); lia|].
    split; [exact G1|]. split; [congruence|]. rewrite G3, Hlo, Hvo, Z.add_0_r.
    change (64 * Z.of_nat 5) with 320. rewrite Z.mul_mod_idemp_l by lia. f_equal. rewrite Hpow. ring.
  - split; [exact Ho|]. split; [exact Hlo|]. rewrite Hvo, Hpow.
    replace (n mod 64) with 0 by lia. rewrite Z.pow_0_r, Z.mul_1_r. reflexivity.
Qed.

Lemma shr320_val w n :
  digits_ok 64 w -> length w = 5%nat -> 0 <= n < 320 ->
  digits_ok 64 (shr320 w n) /\ length (shr320 w n) = 5%nat
  /\ val 64 (shr320 w n) = val 64 w / 2 ^ n.
Proof.
  intros Hw Hl Hn. unfold shr320. destruct (Z.eqb_spec n 0) as [->|Hn0].
  { rewrite Z.pow_0_r, Z.div_1_r. auto. }
  pose proof (Z.div_mod n 64 ltac:(lia)). pose proof (Z.mod_pos_bound n 64 ltac:(lia)).
  assert (Hd : 0 <= n / 64 < 5) by lia. rewrite Z.min_l by lia.
  set (k := Z.to_nat (n / 64)). assert (Hk : Z.of_nat k = n / 64) by (unfold k; lia).
  set (out := drop k w ++ replicate k 0).
  assert (Ho : digits_ok 64 out).
  { apply Forall_app. split; [apply Forall_drop, Hw | apply Forall_replicate; unfold in_range; lia]. }
  assert (Hlo : length out = 5%nat).
  { unfold out. rewrite length_app, length_replicate, length_drop. lia. }
  pose proof (pow2_pos (64 * (n / 64)) ltac:(lia)) as Pk.
  assert (Hvo : val 64 out = val 64 w / 2 ^ (64 * (n / 64))).
  { unfold out. rewrite val_app, val_zeros, Z.mul_0_r, Z.add_0_r by lia.
    rewrite <- (take_drop k w) at 2. rewrite val_app, length_take by lia.
    replace (Nat.min k (length w)) with k by lia. rewrite Hk, (Z.mul_comm (2 ^ _)).
    pose proof (val_bounds 64 (take k w) ltac:(lia) (Forall_take _ _ _ Hw)) as Hb.
    rewrite length_take in Hb. replace (Nat.min k (length w)) with k in Hb by lia. rewrite Hk in Hb.
    rewrite Z.div_add, Z.div_small by lia. lia. }
  assert (Hpow : 2 ^ n = 2 ^ (64 * (n / 64)) * 2 ^ (n mod 64))
    by (rewrite <- Z.pow_add_r by lia; f_equal; lia).
  pose proof (pow2_pos (n mod 64) ltac:(lia)) as Pm.
  destruct (Z.ltb_spec 0 (n mod 64)).
  - destruct (shr_loop_val 64 (n mod 64) (reverse out) 0 ltac:(lia)) as (G1 & G2 & G3);
      [now apply Forall_reverse | lia |].
    rewrite Z.mul_0_l in G1, G2, G3.
    rewrite Z.mul_0_l, Z.add_0_l, reverse_involutive, Hvo, Z.div_div, <- Hpow in G3 by lia.
    split; [now apply Forall_reverse|]. split; [rewrite length_reverse, G2, length_reverse; exact Hlo|].
    exact G3.
  - split; [exact Ho|]. split; [exact Hlo|]. rewrite Hvo, Hpow.
    replace (n mod 64) with 0 by lia. rewrite Z.pow_0_r, Z.mul_1_r. reflexivity.
Qed.

(** ** Bits and subtraction *)

Lemma nth_digit_val w l i :
  0 <= w -> digits_ok w l -> nth i l 0 = val w l / 2 ^ (w * Z.of_nat i) mod 2 ^ w.
Proof.
  intros Hw Hl. pose proof (pow2_pos w Hw) as Pw. revert i; induction Hl as [|d l Hd Hl IH]; intros i.
  - destruct i; cbn [nth val]; rewrite Z.div_0_l, Z.mod_0_l; auto; try lia;
      pose proof (pow2_pos (w * Z.of_nat 0)); pose proof (pow2_pos (w * Z.of_nat (S i))); lia.
  - unfold in_range in Hd. destruct i as [|i]; cbn [nth val].
    + change (Z.of_nat 0) with 0. rewrite Z.mul_0_r, Z.pow_0_r, Z.div_1_r.
      rewrite (Z.mul_comm (2 ^ w)), Z.mod_add, Z.mod_small by lia. reflexivity.
    + rewrite IH. replace (w * Z.of_nat (S i)) with (w + w * Z.of_nat i) by lia.
      rewrite Z.pow_add_r, <- Z.div_div by (try apply pow2_pos; try apply Z.pow_nonzero; nia).
      rewrite (Z.mul_comm (2 ^ w)), Z.div_add, (Z.div_small d) by lia. reflexivity.
Qed.

Lemma bit_256_testbit a bit :
  bytes_ok a -> 0 <= bit -> bit_256 a bit = Z.testbit (val 8 a) bit.
Proof.
  intros Ha Hbit. unfold bit_256. rewrite (nth_digit_val 8 a) by (lia || exact Ha).
  pose proof (Z.div_mod bit 8 ltac:(lia)). pose proof (Z.mod_pos_bound bit 8 ltac:(lia)).
  rewrite Z2Nat.id by (apply Z.div_pos; lia).
  change 1 with (Z.ones 1) at 1. rewrite Z.land_ones by lia. rewrite <- Z.bit0_mod.
  rewrite Z.shiftr_spec, Z.mod_pow2_bits_low, Z.div_pow2_bits by lia.
  replace (0 + bit mod 8 + 8 * (bit / 8)) with bit by lia.
  destruct (Z.testbit _ _); reflexivity.
Qed.

Lemma sub_loop_val a : forall b c,
  digits_ok 8 a -> digits_ok 8 b -> length a = length b -> 0 <= c <= 1 ->
  val 8 b + c <= val 8 a ->
  digits_ok 8 (sub_loop c a b) /\ length (sub_loop c a b) = length a
  /\ val 8 (sub_loop c a b) = val 8 a - val 8 b - c.
Proof.
  induction a as [|x a IH]; intros [|y b] c Ha Hb Hl Hc Hle; try discriminate.
  - cbn in *. repeat split; try constructor. lia.
  - apply Forall_cons in Ha as [Hx Ha]. apply Forall_cons in Hb as [Hy Hb]. injection Hl as Hl.
    unfold in_range in Hx, Hy. cbn [sub_loop val] in *. change (2 ^ 8) with 256 in *.
    destruct (Z.ltb_spec (x - y - c) 0).
    + destruct (IH b 1 Ha Hb Hl ltac:(lia) ltac:(lia)) as (H1 & H2 & H3).
      split; [constructor; [unfold in_range; lia | exact H1]|]. split; [cbn; lia|].
      cbn [val]. change (2 ^ 8) with 256. lia.
    + destruct (IH b 0 Ha Hb Hl ltac:(lia) ltac:(lia)) as (H1 & H2 & H3).
      split; [constructor; [unfold in_range; lia | exact H1]|]. split; [cbn; lia|].
      cbn [val]. change (2 ^ 8) with 256. lia.
Qed.

(** ** Setting bits *)

Lemma val_insert w l i d x :
  0 <= w -> l !! i = Some d ->
  val w (<[i := x]> l) = val w l + (x - d) * 2 ^ (w * Z.of_nat i).
Proof.
  intros Hw. revert i; induction l as [|y l IH]; intros [|i] H; try discriminate.
  - injection H as ->. change (<[0%nat:=x]> (d :: l)) with (x :: l). cbn [val].
    change (Z.of_nat 0) with 0. rewrite Z.mul_0_r, Z.pow_0_r. lia.
  - change (<[S i:=x]> (y :: l)) with (y :: <[i:=x]> l). cbn [val]. rewrite (IH i H).
    replace (w * Z.of_nat (S i)) with (w + w * Z.of_nat i) by lia.
    rewrite Z.pow_add_r by nia. ring.
Qed.

Lemma lor_unset_bit x k : 0 <= k -> Z.testbit x k = false -> Z.lor x (Z.shiftl 1 k) = x + 2 ^ k.
Proof.
  intros Hk Hb. rewrite Z.shiftl_1_l.
  assert (Z.land x (2 ^ k) = 0) by (rewrite land_pow2, Hb by lia; reflexivity).
  now rewrite Z.add_nocarry_lxor, Z.lxor_lor by assumption.
Qed.

Lemma set_bit_256_val a bit :
  digest_ok a -> 0 <= bit < 256 -> Z.testbit (val 8 a) bit = false ->
  digest_ok (set_bit_256 a bit) /\ val 8 (set_bit_256 a bit) = val 8 a + 2 ^ bit.
Proof.
  intros [Hl Ha] Hbit Ht. unfold set_bit_256.
  pose proof (Z.div_mod bit 8 ltac:(lia)) as Hdm. pose proof (Z.mod_pos_bound bit 8 ltac:(lia)) as Hm.
  set (i := Z.to_nat (bit / 8)). assert (Hi : Z.of_nat i = bit / 8) by (unfold i; lia).
  assert (Hilt : (i < length a)%nat) by lia.
  assert (Hnth : a !! i = Some (nth i a 0)) by (destruct (lookup_lt_is_Some_2 a i Hilt) as [d E]; rewrite nth_lookup, E; reflexivity).
  assert (Hd : 0 <= nth i a 0 < 256) by (apply (Forall_lookup_1 _ _ _ _ Ha Hnth)).
  assert (Hb : Z.testbit (nth i a 0) (bit mod 8) = false).
  { rewrite (nth_digit_val 8 a) by (lia || exact Ha).
    rewrite Z.mod_pow2_bits_low, Z.div_pow2_bits, Hi by lia.
    replace (bit mod 8 + 8 * (bit / 8)) with bit by lia. exact Ht. }
  rewrite lor_unset_bit by (lia || exact Hb).
  assert (Hd' : nth i a 0 + 2 ^ (bit mod 8) < 256).
  { rewrite <- lor_unset_bit by (lia || exact Hb). rewrite Z.shiftl_1_l.
    apply (lor_lt_pow2 8); [lia|exact Hd|].
    split; [apply Z.pow_nonneg; lia | apply Z.pow_lt_mono_r; lia]. }
  pose proof (pow2_pos (bit mod 8) ltac:(lia)).
  split; [split|].
  - now rewrite length_insert.
  - apply Forall_insert; [exact Ha|]. unfold byte_ok, in_range. change (2 ^ 8) with 256. lia.
  - rewrite (val_insert 8 a i _ _ ltac:(lia) Hnth), Hi.
    replace (2 ^ bit) with (2 ^ (bit mod 8) * 2 ^ (8 * (bit / 8)))
      by (rewrite <- Z.pow_add_r by lia; f_equal; lia). ring.
Qed.

Lemma set_low_val a :
  digest_ok a -> Z.even (val 8 a) = true ->
  digest_ok (set_low a) /\ val 8 (set_low a) = val 8 a + 1.
Proof.
  intros Ha He. apply (set_bit_256_val a 0 Ha ltac:(lia)).
  rewrite Z.bit0_odd, <- Z.negb_even, He. reflexivity.
Qed.

(** ** Long division *)

Section Division.
Context (num den : list Z) (Hnum : digest_ok num) (Hden : digest_ok den).
Let N := val 8 num.
Let D := val 8 den.
Context (Hpos : 0 < D).
(** The shifted remainder never loses its top bit. *)
Context (Hroom : forall b, 0 <= b < 256 -> 2 * (N / 2 ^ (b + 1) mod D) + 1 < 2 ^ 256).

Definition div_inv (b : Z) (s : list Z * list Z) : Prop :=
  digest_ok s.1 /\ digest_ok s.2
  /\ val 8 s.1 = 2 ^ b * (N / 2 ^ b / D) /\ val 8 s.2 = N / 2 ^ b mod D.

Lemma div_step_inv b s :
  0 <= b < 256 -> div_inv (b + 1) s -> div_inv b (div_step num den s b).
Proof.
  intros Hb (Hq & Hr & Vq & Vr). destruct s as [q r]. cbn [fst snd] in *.
  pose proof (pow2_pos b ltac:(lia)) as Pb.
  assert (HM : N / 2 ^ b = 2 * (N / 2 ^ (b + 1)) + Z.b2z (Z.testbit N b)).
  { rewrite Z.pow_add_r, <- Z.div_div by lia. change (2 ^ 1) with 2.
    rewrite Z.testbit_spec' by lia. apply Z.div_mod. lia. }
  set (M := N / 2 ^ (b + 1)) in *. pose proof (Hroom b Hb) as Hro. fold M in Hro.
  pose proof (Z.div_mod M D ltac:(lia)) as HdM. pose proof (Z.mod_pos_bound M D Hpos) as HmM.
  destruct Hr as [Lr Br].
  destruct (shl_loop_val 8 1 r 0 ltac:(lia) Br ltac:(lia)) as (S1 & S2 & S3).
  fold (shl1_256 r) in S1, S2, S3. rewrite Lr in S2, S3.
  change (8 * Z.of_nat 32) with 256 in S3. rewrite Vr, Z.add_0_r, Z.mod_small in S3 by lia.
  set (r1 := if bit_256 num b then set_low (shl1_256 r) else shl1_256 r).
  assert (Hr1 : digest_ok r1 /\ val 8 r1 = 2 * (M mod D) + Z.b2z (Z.testbit N b)).
  { unfold r1. rewrite (bit_256_testbit num b (proj2 Hnum)) by lia. fold N.
    destruct (Z.testbit N b); cbn [Z.b2z].
    - destruct (set_low_val (shl1_256 r)) as [L1 L2]; [split; assumption| |split; [exact L1|lia]].
      rewrite S3. change (2 ^ 1) with 2. rewrite Z.even_mul. apply orb_true_r.
    - split; [split; assumption | lia]. }
  destruct Hr1 as [Or1 Vr1].
  assert (Hge : ge256 r1 den = (D <=? val 8 r1)).
  { unfold ge256. rewrite le256_lt_val by (try apply Or1; try apply Hden; rewrite (proj1 Or1), (proj1 Hden); reflexivity).
    fold D. destruct (Z.ltb_spec (val 8 r1) D), (Z.leb_spec D (val 8 r1)); reflexivity || lia. }
  assert (Hbit : 0 <= Z.b2z (Z.testbit N b) <= 1) by (destruct (Z.testbit N b); cbn; lia).
  unfold div_step. fold r1. rewrite Hge. unfold div_inv. rewrite HM.
  rewrite Z.pow_add_r in Vq by lia. change (2 ^ 1) with 2 in Vq.
  destruct (Z.leb_spec D (val 8 r1)) as [Hle|Hlt]; cbn [fst snd].
  - destruct (sub_loop_val r1 den 0) as (T1 & T2 & T3);
      [apply Or1 | apply Hden | rewrite (proj1 Or1), (proj1 Hden); reflexivity | lia | fold D; lia |].
    destruct (set_bit_256_val q b Hq Hb) as [Q1 Q2].
    { rewrite Vq, <- Z.mul_assoc, (Z.mul_comm (2 ^ b)), Z.mul_pow2_bits by lia.
      rewrite Z.sub_diag, Z.bit0_odd, Z.odd_mul. reflexivity. }
    assert (E1 : (2 * M + Z.b2z (Z.testbit N b)) / D = 2 * (M / D) + 1).
    { symmetry. apply Z.div_unique with (val 8 r1 - D); lia. }
    assert (E2 : (2 * M + Z.b2z (Z.testbit N b)) mod D = val 8 r1 - D).
    { symmetry. apply Z.mod_unique with (2 * (M / D) + 1); lia. }
    unfold sub_assign_256. split; [exact Q1|]. split; [split; [rewrite T2; apply Or1 | exact T1]|].
    rewrite Q2, E1, E2, T3, Vq. fold D. split; ring.
  - assert (E1 : (2 * M + Z.b2z (Z.testbit N b)) / D = 2 * (M / D)).
    { symmetry. apply Z.div_unique with (val 8 r1); lia. }
    assert (E2 : (2 * M + Z.b2z (Z.testbit N b)) mod D = val 8 r1).
    { symmetry. apply Z.mod_unique with (2 * (M / D)); lia. }
    rewrite E1, E2, Vq. repeat split; try apply Hq; try apply Or1; ring.
Qed.

Lemma div_loop_inv (k : nat) :
  (k <= 256)%nat ->
  div_inv (256 - Z.of_nat k)
    (foldl (div_step num den) (ZERO_256, ZERO_256)
       (reverse (seqZ (256 - Z.of_nat k) (Z.of_nat k)))).
Proof.
  induction k as [|k IH]; intros Hk.
  - change (Z.of_nat 0) with 0. cbn [seqZ foldl reverse].
    change (reverse (seqZ (256 - 0) 0)) with (@nil Z). cbn [foldl].
    assert (HN : 0 <= N < 2 ^ 256).
    { pose proof (val_bounds 8 num ltac:(lia) (proj2 Hnum)) as H. rewrite (proj1 Hnum) in H. exact H. }
    unfold div_inv. change (256 - 0) with 256. rewrite (Z.div_small N) by exact HN.
    rewrite Z.div_0_l, Z.mod_0_l by lia. cbn [fst snd].
    assert (digest_ok ZERO_256) by (split; [reflexivity|]; apply Forall_replicate; unfold byte_ok, in_range; lia).
    assert (val 8 ZERO_256 = 0) by apply val_zeros. repeat split; try apply H; lia.
  - rewrite seqZ_cons by lia. rewrite reverse_cons, foldl_app. cbn [foldl].
    apply div_step_inv; [lia|]. specialize (IH ltac:(lia)).
    replace (256 - Z.of_nat (S k) + 1) with (256 - Z.of_nat k) by lia.
    replace (Z.succ (256 - Z.of_nat (S k))) with (256 - Z.of_nat k) by lia.
    replace (Z.pred (Z.of_nat (S k))) with (Z.of_nat k) by lia. exact IH.
Qed.

Lemma div_u256_val :
  exists q, div_u256 num den = Some q /\ digest_ok q /\ val 8 q = N / D.
Proof.
  unfold div_u256. rewrite is_zero_256_val by apply Hden. fold D.
  replace (D =? 0) with false by lia. eexists. split; [reflexivity|].
  destruct (div_loop_inv 256 ltac:(lia)) as (H1 & _ & H2 & _).
  change (256 - Z.of_nat 256) with 0 in *. change (Z.of_nat 256) with 256 in *.
  split; [exact H1|]. rewrite H2, Z.pow_0_r, Z.div_1_r. lia.
Qed.
End Division.
