(* ===== verification/Difficulty.v ===== *)
(** * ASERT difficulty, chain work and fork choice

    [noid_chain/src/consensus/difficulty.rs] and
    [noid_chain/src/consensus/fork_choice.rs].  The limb arithmetic of the
    target update is proved equal to the clamped integer formula, the target is
    shown bounded and monotone in the elapsed time, block work is the exact
    ceiling of the expected trial count, and the chain choice is a total order. *)

From Stdlib Require Import ZArith Lia.
From stdpp Require Import base numbers list option gmap.
From S2P Require Import Prelude Params U256.

Open Scope Z_scope.

(** ** Fractional factors *)

Definition ASERT_A : Z := 195766423245049.
Definition ASERT_B : Z := 971821376.
Definition ASERT_C : Z := 5127.

Definition legacy_fractional_factor (frac : Z) : Z :=
  let f := frac in
  65536 + Z.shiftr (ASERT_A * f + ASERT_B * f * f / 65536
                    + ASERT_C * (f / 65536) * (f / 65536) * f + Z.shiftl 1 47) 48 mod 2 ^ 64.

Definition bch_fractional_factor (frac : Z) : Z :=
  let f := frac in
  65536 + Z.shiftr (ASERT_A * f + ASERT_B * f * f + ASERT_C * f * f * f + Z.shiftl 1 47) 48 mod 2 ^ 64.

Definition fractional_factor_at_height (frac height : Z) (activation_height : option Z) : Z :=
  if v1_1_active_with height activation_height
  then bch_fractional_factor frac else legacy_fractional_factor frac.

(** ** Target update *)

Definition clamp (result : list Z) (overflow_word : Z) : list Z :=
  if negb (overflow_word =? 0) || le256_lt MAX_TARGET result then MAX_TARGET
  else if bool_decide (result = replicate 32 0) || le256_lt result MIN_TARGET then MIN_TARGET
  else result.

(** The release build: the difficulty floor is active. *)
Definition target_from_exponent (anchor_target : list Z) (height : Z)
    (activation_height : option Z) (exponent : Z) : list Z :=
  let shifts := Z.shiftr exponent 16 in
  let frac := (exponent - shifts * 65536) mod 2 ^ 16 in
  let factor := fractional_factor_at_height frac height activation_height in
  let ref_limbs := bytes_to_limbs anchor_target in
  let wide := mul_limbs_u64 ref_limbs factor in
  let net := shifts - 16 in
  if 46 <=? net then GENESIS_TARGET
  else if net <=? -320 then MIN_TARGET
  else
    let wide := shift_wide wide net in
    if (0 <? net) && bool_decide (wide = replicate 5 0) then GENESIS_TARGET
    else
      let result := limbs_to_bytes (take 4 wide) in
      let clamped := clamp result (nth 4 wide 0) in
      if le256_lt GENESIS_TARGET clamped then GENESIS_TARGET else clamped.

Definition I64_MAX : Z := 2 ^ 63 - 1.
Definition I64_MIN : Z := - 2 ^ 63.
Definition I128_MAX : Z := 2 ^ 127 - 1.
Definition I128_MIN : Z := - 2 ^ 127.

Definition clamp_i64 (x : Z) : Z := Z.max I64_MIN (Z.min x I64_MAX).
Definition saturate_i128 (x : Z) : Z := Z.max I128_MIN (Z.min x I128_MAX).
(** [x as i64] for an unsigned 64-bit [x]. *)
Definition u64_as_i64 (x : Z) : Z := if x <? 2 ^ 63 then x else x - 2 ^ 64.

(** Signed division truncates toward zero ([Z.quot]). *)
Definition next_target_with_activation (anchor_height anchor_timestamp : Z)
    (anchor_target : list Z) (height timestamp : Z) (activation_height : option Z) : list Z :=
  let ideal := u64_as_i64 (saturating_mul 64 (saturating_sub height anchor_height) BLOCK_TIME) in
  let actual := Z.min (saturating_sub timestamp anchor_timestamp) I64_MAX in
  let halflife := HALFLIFE in
  let raw_exp := Z.quot ((actual - ideal) * 65536) halflife in
  let exponent := clamp_i64 raw_exp in
  target_from_exponent anchor_target height activation_height exponent.

Definition next_target_with_schedule (anchor_height anchor_timestamp : Z)
    (anchor_target : list Z) (height parent_timestamp timestamp : Z) (schedule : ForkSchedule)
  : list Z :=
  let legacy := next_target_with_activation anchor_height anchor_timestamp anchor_target height
                  timestamp (v1_1 schedule) in
  match v2 schedule with
  | Some at' =>
      if v2_height at' <=? height then
        let parent_height := height - 1 in
        let actual := Z.min (saturating_sub parent_timestamp anchor_timestamp) I64_MAX in
        let ideal := Z.min (ideal_elapsed schedule anchor_height parent_height) I128_MAX in
        let halflife := EPOCH_LENGTH * v2_block_time at' in
        let exponent :=
          Z.quot (saturate_i128 (saturate_i128 (actual - ideal) * 65536)) halflife in
        target_from_exponent anchor_target height (v1_1 schedule) (clamp_i64 exponent)
      else legacy
  | None => legacy
  end.

Definition next_target (anchor_height anchor_timestamp : Z) (anchor_target : list Z)
    (height parent_timestamp timestamp : Z) : list Z :=
  next_target_with_schedule anchor_height anchor_timestamp anchor_target height
    parent_timestamp timestamp ACTIVE_SCHEDULE.

(** ** Fork choice *)

Inductive ChainChoice := ChooseA | ChooseB | Equal.

(** [<] on byte arrays: lexicographic from byte 0. *)
Fixpoint lex_lt (a b : list Z) : bool :=
  match a, b with
  | [], _ :: _ => true
  | x :: a', y :: b' => if x <? y then true else if y <? x then false else lex_lt a' b'
  | _, [] => false
  end.

Definition choose_chain_by_work (chainwork_a hash_a chainwork_b hash_b : list Z) : ChainChoice :=
  if work_gt chainwork_a chainwork_b then ChooseA
  else if work_gt chainwork_b chainwork_a then ChooseB
  else if lex_lt hash_a hash_b then ChooseA
  else if lex_lt hash_b hash_a then ChooseB
  else Equal.

Record FinalizedCheckpoint := mkFinalizedCheckpoint { fc_height : Z; fc_hash : list Z }.

Definition preserves_finalized_prefix (candidate_hash_at_finalized_height : option (list Z))
    (finalized : FinalizedCheckpoint) : bool :=
  bool_decide (candidate_hash_at_finalized_height = Some (fc_hash finalized)).

Definition reorg_allowed (n_confirmations_to_undo : Z) : bool :=
  n_confirmations_to_undo <=? CONSENSUS_FINALITY_DEPTH.

(** ** Specification *)

(** [floor(target * factor * 2^net)]. *)
Definition scaled_target (target factor net : Z) : Z :=
  if 0 <=? net then target * factor * 2 ^ net else target * factor / 2 ^ (- net).

(** ASERT on integers: scale, then clamp to the range between 1 and the genesis target. *)
Definition asert_spec (target factor net : Z) : Z :=
  Z.max 1 (Z.min (2 ^ 238) (scaled_target target factor net)).

(** ** Lemmas: factors *)

Lemma factor_bounds frac height act :
  0 <= frac < 65536 -> 65536 <= fractional_factor_at_height frac height act <= 131072.
Proof.
  intros Hf. unfold fractional_factor_at_height, bch_fractional_factor, legacy_fractional_factor.
  unfold ASERT_A, ASERT_B, ASERT_C. change (Z.shiftl 1 47) with (2 ^ 47).
  rewrite (Z.div_small frac 65536) by lia.
  assert (Hb : forall p, 0 <= p < 65537 * 2 ^ 48 -> 65536 <= 65536 + Z.shiftr p 48 mod 2 ^ 64 <= 131072).
  { intros p Hp. rewrite Z.shiftr_div_pow2 by lia.
    assert (0 <= p / 2 ^ 48 < 65537)
      by (split; [apply Z.div_pos; lia | apply Z.div_lt_upper_bound; lia]).
    rewrite Z.mod_small by lia. lia. }
  assert (H2 : 0 <= frac * frac <= 65535 * 65535) by nia.
  assert (H3 : 0 <= frac * frac * frac <= 65535 * 65535 * 65535) by nia.
  destruct (v1_1_active_with height act); apply Hb.
  - change (2 ^ 48) with 281474976710656. change (2 ^ 47) with 140737488355328. nia.
  - assert (0 <= 971821376 * frac * frac / 65536 <= 971821376 * 65536)
      by (split; [apply Z.div_pos; nia | apply Z.div_le_upper_bound; nia]).
    change (2 ^ 48) with 281474976710656. change (2 ^ 47) with 140737488355328. lia.
Qed.

Lemma factor_monotone f f' height act :
  0 <= f <= f' -> f' < 65536 ->
  fractional_factor_at_height f height act <= fractional_factor_at_height f' height act.
Proof.
  intros Hf Hf'. pose proof (factor_bounds f height act ltac:(lia)) as B.
  unfold fractional_factor_at_height, bch_fractional_factor, legacy_fractional_factor in *.
  unfold ASERT_A, ASERT_B, ASERT_C in *. change (Z.shiftl 1 47) with (2 ^ 47) in *.
  rewrite (Z.div_small f 65536), (Z.div_small f' 65536) in * by lia.
  assert (Hm : forall p p', 0 <= p <= p' -> p' < 2 ^ 112 ->
     65536 + Z.shiftr p 48 mod 2 ^ 64 <= 65536 + Z.shiftr p' 48 mod 2 ^ 64).
  { intros p p' Hp Hp'. rewrite !Z.shiftr_div_pow2 by lia.
    assert (0 <= p / 2 ^ 48) by (apply Z.div_pos; lia).
    assert (p / 2 ^ 48 <= p' / 2 ^ 48) by (apply Z.div_le_mono; lia).
    assert (p' / 2 ^ 48 < 2 ^ 64) by (apply Z.div_lt_upper_bound; lia).
    rewrite !Z.mod_small by lia. lia. }
  assert (H2 : f * f <= f' * f' <= 65536 * 65536) by nia.
  assert (H3 : 0 <= f * f * f <= f' * f' * f') by nia.
  assert (H4 : f' * f' * f' <= 65536 * 65536 * 65536) by nia.
  change (2 ^ 112) with 5192296858534827628530496329220096 in Hm.
  change (2 ^ 47) with 140737488355328 in *.
  destruct (v1_1_active_with height act); apply Hm; try nia.
  - assert (971821376 * f * f / 65536 <= 971821376 * f' * f' / 65536)
      by (apply Z.div_le_mono; nia).
    assert (0 <= 971821376 * f * f / 65536) by (apply Z.div_pos; nia). lia.
  - assert (971821376 * f' * f' / 65536 <= 971821376 * 65536)
      by (apply Z.div_le_upper_bound; nia). lia.
Qed.

(** ** Lemmas: targets *)

Lemma GENESIS_TARGET_val : digest_ok GENESIS_TARGET /\ val 8 GENESIS_TARGET = 2 ^ 238.
Proof.
  split; [|vm_compute; reflexivity].
  split; [reflexivity|]. unfold bytes_ok, byte_ok, in_range. vm_compute. repeat constructor; discriminate.
Qed.

Lemma MIN_TARGET_val : digest_ok MIN_TARGET /\ val 8 MIN_TARGET = 1.
Proof.
  split; [|vm_compute; reflexivity].
  split; [reflexivity|]. unfold bytes_ok, byte_ok, in_range. vm_compute. repeat constructor; discriminate.
Qed.

Lemma MAX_TARGET_val : digest_ok MAX_TARGET /\ val 8 MAX_TARGET = 2 ^ 256 - 1.
Proof.
  split; [|vm_compute; reflexivity].
  split; [reflexivity|]. unfold bytes_ok, byte_ok, in_range. vm_compute. repeat constructor; discriminate.
Qed.

Lemma digest_val_bounds d : digest_ok d -> 0 <= val 8 d < 2 ^ 256.
Proof.
  intros [Hl Hd]. pose proof (val_bounds 8 d ltac:(lia) Hd) as H. rewrite Hl in H. exact H.
Qed.

Lemma digest_lt_val a b : digest_ok a -> digest_ok b -> le256_lt a b = (val 8 a <? val 8 b).
Proof. intros [La Ha] [Lb Hb]. apply le256_lt_val; congruence || assumption. Qed.

Lemma clamp_val result o :
  digest_ok result -> 0 <= o ->
  digest_ok (clamp result o)
  /\ val 8 (clamp result o) = if o =? 0 then Z.max 1 (val 8 result) else 2 ^ 256 - 1.
Proof.
  intros Hr Ho. unfold clamp. pose proof (digest_val_bounds result Hr) as Hb.
  destruct MAX_TARGET_val as [Mok Mv], MIN_TARGET_val as [mok mv].
  rewrite (digest_lt_val MAX_TARGET result Mok Hr), (digest_lt_val result MIN_TARGET Hr mok), Mv, mv.
  replace (2 ^ 256 - 1 <? val 8 result) with false by lia. rewrite orb_false_r.
  destruct (Z.eqb_spec o 0); cbn [negb]; [|auto].
  case_bool_decide as E; cbn [orb].
  - split; [exact mok|]. rewrite mv, E. reflexivity.
  - destruct (Z.ltb_spec (val 8 result) 1); [split; [exact mok|]; lia|].
    split; [exact Hr|]. lia.
Qed.

Lemma wide_parts w :
  digits_ok 64 w -> length w = 5%nat ->
  digest_ok (limbs_to_bytes (take 4 w)) /\ 0 <= nth 4 w 0
  /\ val 64 w = val 8 (limbs_to_bytes (take 4 w)) + 2 ^ 256 * nth 4 w 0.
Proof.
  intros Hw Hl. destruct (limbs_to_bytes_val (take 4 w) (Forall_take _ _ _ Hw)) as (B1 & B2 & B3).
  destruct w as [|a [|b [|c [|d [|e [|]]]]]]; try discriminate.
  cbn [take nth] in *. split; [split; [rewrite B2; reflexivity | exact B1]|].
  split; [|rewrite B3; cbn [val]; change (2 ^ 256) with (2 ^ 64 * 2 ^ 64 * 2 ^ 64 * 2 ^ 64); ring].
  unfold digits_ok in Hw. rewrite !Forall_cons in Hw. unfold in_range in Hw. tauto || lia.
Qed.

(** The shifted product is the exact scaled target on the range the code
    shifts: nothing is lost at the top. *)
Lemma shift_wide_val T F w net :
  digits_ok 64 w -> length w = 5%nat -> val 64 w = T * F ->
  0 <= T < 2 ^ 256 -> 0 <= F <= 131072 -> -320 < net < 46 ->
  digits_ok 64 (shift_wide w net) /\ length (shift_wide w net) = 5%nat
  /\ val 64 (shift_wide w net) = scaled_target T F net.
Proof.
  intros Hw Hl Hv HT HF Hnet. unfold shift_wide, scaled_target.
  assert (HTF : 0 <= T * F < 2 ^ 274) by (change (2 ^ 274) with (2 ^ 256 * 262144); nia).
  destruct (Z.leb_spec 0 net).
  - rewrite Z.min_l by lia. destruct (shl320_val w net Hw Hl ltac:(lia)) as (S1 & S2 & S3).
    split; [exact S1|]. split; [exact S2|]. rewrite S3, Hv. apply Z.mod_small.
    assert (2 ^ net <= 2 ^ 45) by (apply Z.pow_le_mono_r; lia).
    pose proof (pow2_pos net ltac:(lia)).
    split; [nia|]. change (2 ^ 320) with (2 ^ 274 * 2 ^ 46). change (2 ^ 46) with (2 * 2 ^ 45). nia.
  - rewrite Z.min_l by lia. destruct (shr320_val w (- net) Hw Hl ltac:(lia)) as (S1 & S2 & S3).
    rewrite Hv in S3. auto.
Qed.

Lemma val_zero_limbs w : digits_ok 64 w -> length w = 5%nat -> bool_decide (w = replicate 5 0) = (val 64 w =? 0).
Proof.
  intros Hw Hl. case_bool_decide as E.
  - rewrite E, val_zeros. reflexivity.
  - symmetry. apply Z.eqb_neq. intros Hv. apply E.
    apply (val_inj 64); [lia | exact Hw | | exact Hl | now rewrite val_zeros].
    apply Forall_replicate. unfold in_range. lia.
Qed.

Definition exponent_net (exponent : Z) : Z := Z.shiftr exponent 16 - 16.
Definition exponent_factor (height : Z) (act : option Z) (exponent : Z) : Z :=
  fractional_factor_at_height (exponent mod 65536) height act.

Lemma exponent_frac exponent :
  (exponent - Z.shiftr exponent 16 * 65536) mod 2 ^ 16 = exponent mod 65536.
Proof.
  rewrite Z.shiftr_div_pow2 by lia. change (2 ^ 16) with 65536.
  pose proof (Z.div_mod exponent 65536 ltac:(lia)).
  replace (exponent - exponent / 65536 * 65536) with (exponent mod 65536) by lia.
  apply Z.mod_mod. lia.
Qed.

(** The target the code computes, as an integer, for every exponent. *)
Lemma target_from_exponent_val anchor height act exponent :
  digest_ok anchor ->
  let T := val 8 anchor in
  let net := exponent_net exponent in
  let r := target_from_exponent anchor height act exponent in
  digest_ok r /\
  val 8 r = if (46 <=? net) || ((0 <? net) && (T =? 0)) then 2 ^ 238
            else asert_spec T (exponent_factor height act exponent) net.
Proof.
  intros Ha T net r. unfold r, target_from_exponent. rewrite exponent_frac.
  fold (exponent_net exponent). fold net. fold (exponent_factor height act exponent).
  set (F := exponent_factor height act exponent).
  assert (HF : 65536 <= F <= 131072)
    by (apply factor_bounds; apply Z.mod_pos_bound; lia).
  pose proof (digest_val_bounds anchor Ha) as HT. fold T in HT.
  destruct GENESIS_TARGET_val as [Gok Gv], MIN_TARGET_val as [mok mv].
  destruct (Z.leb_spec 46 net); [auto|]. cbn [orb].
  destruct (bytes_to_limbs_val anchor Ha) as (L1 & L2 & L3). fold T in L3.
  destruct (mul_limbs_loop_val (bytes_to_limbs anchor) 0 F L1) as (M1 & M2 & M3);
    [unfold in_range; lia | unfold in_range; lia |]. fold (mul_limbs_u64 (bytes_to_limbs anchor) F) in *.
  rewrite L2 in M2. rewrite L3, Z.add_0_r in M3.
  destruct (Z.leb_spec net (-320)).
  - replace (0 <? net) with false by lia. cbn [andb]. split; [exact mok|]. rewrite mv.
    unfold asert_spec, scaled_target. replace (0 <=? net) with false by lia.
    rewrite Z.div_small; [lia|]. split; [nia|].
    assert (2 ^ 320 <= 2 ^ (- net)) by (apply Z.pow_le_mono_r; lia).
    assert (T * F < 2 ^ 256 * 262144) by nia. change (2 ^ 320) with (2 ^ 256 * 2 ^ 64) in *. lia.
  - destruct (shift_wide_val T F _ net M1 M2 M3 HT ltac:(lia) ltac:(lia)) as (W1 & W2 & W3).
    set (wide := shift_wide (mul_limbs_u64 (bytes_to_limbs anchor) F) net) in *.
    rewrite (val_zero_limbs wide W1 W2), W3.
    assert (Hz : (0 <? net) && (scaled_target T F net =? 0) = (0 <? net) && (T =? 0)).
    { destruct (Z.ltb_spec 0 net); [|reflexivity]. cbn [andb]. unfold scaled_target.
      replace (0 <=? net) with true by lia. pose proof (pow2_pos net ltac:(lia)).
      destruct (Z.eqb_spec T 0) as [->|]; [reflexivity|]. apply Z.eqb_neq. nia. }
    rewrite Hz. destruct ((0 <? net) && (T =? 0)); [auto|].
    destruct (wide_parts wide W1 W2) as (P1 & P2 & P3). rewrite W3 in P3.
    destruct (clamp_val _ _ P1 P2) as [C1 C2].
    set (c := clamp _ _) in *. rewrite (digest_lt_val _ _ Gok C1), Gv.
    pose proof (digest_val_bounds _ P1) as PB. unfold asert_spec.
    destruct (Z.eqb_spec (nth 4 wide 0) 0) as [E|E].
    + rewrite E in P3. destruct (Z.ltb_spec (2 ^ 238) (val 8 c)); split; auto; lia.
    + replace (2 ^ 238 <? val 8 c) with true by lia. split; [exact Gok|]. rewrite Gv.
      assert (2 ^ 256 <= scaled_target T F net) by lia. lia.
Qed.

(** *** Monotonicity of the scaled target *)

Lemma scaled_nonneg T F n : 0 <= T -> 0 <= F -> 0 <= scaled_target T F n.
Proof.
  intros HT HF. unfold scaled_target. case_test; boolify.
  - pose proof (pow2_pos n ltac:(lia)). nia.
  - apply Z.div_pos; [nia|]. apply pow2_pos. lia.
Qed.

Lemma scaled_mono_factor T F F' n :
  0 <= T -> 0 <= F <= F' -> scaled_target T F n <= scaled_target T F' n.
Proof.
  intros HT HF. unfold scaled_target. case_test; boolify.
  - pose proof (pow2_pos n ltac:(lia)). apply Z.mul_le_mono_nonneg_r; nia.
  - apply Z.div_le_mono; [apply pow2_pos; lia | nia].
Qed.

Lemma scaled_double T F n : 0 <= T -> 0 <= F -> scaled_target T (2 * F) n = scaled_target T F (n + 1).
Proof.
  intros HT HF. unfold scaled_target.
  destruct (Z.leb_spec 0 n), (Z.leb_spec 0 (n + 1)); try lia.
  - rewrite Z.pow_add_r by lia. ring.
  - replace n with (-1) by lia. cbn. rewrite Z.mul_1_r.
    replace (T * (2 * F)) with (T * F * 2) by ring. apply Z.div_mul. lia.
  - replace (- n) with (1 + - (n + 1)) by lia. rewrite Z.pow_add_r by lia.
    replace (T * (2 * F)) with (2 * (T * F)) by ring. change (2 ^ 1) with 2.
    rewrite Z.div_mul_cancel_l; [reflexivity | | lia]. apply Z.pow_nonzero; lia.
Qed.

Lemma scaled_mono_net T F n n' : 0 <= T -> 0 <= F -> n <= n' -> scaled_target T F n <= scaled_target T F n'.
Proof.
  intros HT HF Hn. unfold scaled_target.
  assert (0 <= T * F) by nia.
  destruct (Z.leb_spec 0 n), (Z.leb_spec 0 n'); try lia.
  - assert (2 ^ n <= 2 ^ n') by (apply Z.pow_le_mono_r; lia). nia.
  - pose proof (pow2_pos n' ltac:(lia)). pose proof (pow2_pos (- n) ltac:(lia)).
    apply Z.le_trans with (T * F); [|nia]. apply Z.div_le_upper_bound; nia.
  - apply Z.div_le_compat_l; [lia|].
    split; [apply pow2_pos; lia | apply Z.pow_le_mono_r; lia].
Qed.

Lemma scaled_mono_exponent T height act e e' :
  0 <= T -> e <= e' ->
  scaled_target T (exponent_factor height act e) (exponent_net e)
  <= scaled_target T (exponent_factor height act e') (exponent_net e').
Proof.
  intros HT He. unfold exponent_net, exponent_factor. rewrite !Z.shiftr_div_pow2 by lia.
  change (2 ^ 16) with 65536.
  pose proof (Z.mod_pos_bound e 65536 ltac:(lia)) as Hm. pose proof (Z.mod_pos_bound e' 65536 ltac:(lia)) as Hm'.
  pose proof (factor_bounds _ height act Hm) as B. pose proof (factor_bounds _ height act Hm') as B'.
  assert (Hd : e / 65536 <= e' / 65536) by (apply Z.div_le_mono; lia).
  destruct (Z.eq_dec (e / 65536) (e' / 65536)) as [E|E].
  - rewrite E. apply scaled_mono_factor; [lia|]. split; [lia|].
    pose proof (Z.div_mod e 65536 ltac:(lia)). pose proof (Z.div_mod e' 65536 ltac:(lia)).
    apply factor_monotone; lia.
  - apply Z.le_trans with (scaled_target T (2 * 65536) (e / 65536 - 16));
      [apply scaled_mono_factor; lia|].
    rewrite scaled_double by lia.
    apply Z.le_trans with (scaled_target T 65536 (e' / 65536 - 16)).
    + apply scaled_mono_net; lia.
    + apply scaled_mono_factor; lia.
Qed.

Lemma target_mono_exponent anchor height act e e' :
  digest_ok anchor -> e <= e' ->
  val 8 (target_from_exponent anchor height act e)
  <= val 8 (target_from_exponent anchor height act e').
Proof.
  intros Ha He. pose proof (digest_val_bounds anchor Ha) as HT.
  destruct (target_from_exponent_val anchor height act e Ha) as [_ ->].
  destruct (target_from_exponent_val anchor height act e' Ha) as [_ ->].
  assert (Hnet : exponent_net e <= exponent_net e').
  { unfold exponent_net. rewrite !Z.shiftr_div_pow2 by lia.
    pose proof (Z.div_le_mono e e' (2 ^ 16)). lia. }
  pose proof (scaled_mono_exponent (val 8 anchor) height act e e' ltac:(lia) He).
  unfold asert_spec.
  destruct (Z.leb_spec 46 (exponent_net e)), (Z.leb_spec 46 (exponent_net e')); cbn [orb]; try lia.
  - destruct (Z.ltb_spec 0 (exponent_net e)), (val 8 anchor =? 0); cbn [andb]; lia.
  - destruct (Z.ltb_spec 0 (exponent_net e)), (Z.ltb_spec 0 (exponent_net e')),
      (val 8 anchor =? 0); cbn [andb]; lia.
Qed.

Lemma target_range anchor height act e :
  digest_ok anchor ->
  digest_ok (target_from_exponent anchor height act e)
  /\ 1 <= val 8 (target_from_exponent anchor height act e) <= 2 ^ 238.
Proof.
  intros Ha. destruct (target_from_exponent_val anchor height act e Ha) as [H1 H2].
  split; [exact H1|]. rewrite H2. unfold asert_spec. case_test; lia.
Qed.

Lemma clamp_i64_mono x y : x <= y -> clamp_i64 x <= clamp_i64 y.
Proof. unfold clamp_i64. lia. Qed.

Lemma saturate_i128_mono x y : x <= y -> saturate_i128 x <= saturate_i128 y.
Proof. unfold saturate_i128. lia. Qed.

(** Factor and shift of a whole number of half-lives. *)
Lemma whole_halflives height act k :
  exponent_factor height act (k * 65536) = 65536 /\ exponent_net (k * 65536) = k - 16.
Proof.
  unfold exponent_factor, exponent_net. rewrite Z.mod_mul by lia.
  rewrite Z.shiftr_div_pow2, Z.div_mul by lia. split; [|reflexivity].
  unfold fractional_factor_at_height. destruct (v1_1_active_with height act); reflexivity.
Qed.

Lemma quot_whole k h : 0 < h -> Z.quot (k * h * 65536) h = k * 65536.
Proof.
  intros Hh. replace (k * h * 65536) with (k * 65536 * h) by ring. apply Z.quot_mul. lia.
Qed.

Lemma scaled_pow T (m : nat) n : 0 <= T -> scaled_target T (2 ^ Z.of_nat m) n = scaled_target T 1 (n + Z.of_nat m).
Proof.
  intros HT. revert n; induction m as [|m IH]; intros n.
  - change (Z.of_nat 0) with 0. now rewrite Z.add_0_r.
  - rewrite Nat2Z.inj_succ, Z.pow_succ_r by lia.
    rewrite scaled_double by (try apply Z.pow_nonneg; lia). rewrite IH. f_equal. lia.
Qed.

(** Seconds by which the block the rule looks at is late, and the half-life of
    the rule, at a candidate height. *)
Definition seconds_late (s : ForkSchedule) (anchor_height anchor_timestamp height
    parent_timestamp timestamp : Z) : Z :=
  match version s height with
  | V2 => parent_timestamp - anchor_timestamp - ideal_elapsed s anchor_height (height - 1)
  | _ => timestamp - anchor_timestamp - (height - anchor_height) * BLOCK_TIME
  end.

Definition halflife_of (s : ForkSchedule) (height : Z) : Z :=
  EPOCH_LENGTH * block_time s height.

Lemma exponent_whole s anchor_height anchor_timestamp anchor height parent_timestamp timestamp k :
  schedule_ok s ->
  0 <= anchor_height < height -> height < 2 ^ 48 ->
  0 <= anchor_timestamp -> anchor_timestamp <= parent_timestamp <= I64_MAX ->
  anchor_timestamp <= timestamp <= I64_MAX -> -1000 <= k <= 61 ->
  seconds_late s anchor_height anchor_timestamp height parent_timestamp timestamp
    = k * halflife_of s height ->
  next_target_with_schedule anchor_height anchor_timestamp anchor height parent_timestamp timestamp s
  = target_from_exponent anchor height (v1_1 s) (k * 65536).
Proof.
  intros Hs Hh Hmax Hat Hpt Ht Hk Hlate.
  assert (Hc : clamp_i64 (k * 65536) = k * 65536) by (unfold clamp_i64, I64_MAX, I64_MIN; lia).
  unfold next_target_with_schedule, next_target_with_activation, seconds_late, version,
    halflife_of, block_time, I64_MAX in *.
  assert (Hlegacy : timestamp - anchor_timestamp - (height - anchor_height) * BLOCK_TIME
      = k * (EPOCH_LENGTH * BLOCK_TIME) ->
    clamp_i64 (Z.quot ((Z.min (saturating_sub timestamp anchor_timestamp) (2 ^ 63 - 1)
      - u64_as_i64 (saturating_mul 64 (saturating_sub height anchor_height) BLOCK_TIME)) * 65536) HALFLIFE)
    = k * 65536).
  { intros Hl. rewrite !saturating_sub_ge, Z.min_l by lia.
    unfold u64_as_i64, saturating_mul, umax. unfold HALFLIFE, EPOCH_LENGTH, BLOCK_TIME in *.
    rewrite Z.min_l by lia. replace ((height - anchor_height) * 20 <? 2 ^ 63) with true by lia.
    rewrite Hl, quot_whole by lia. exact Hc. }
  unfold schedule_ok, activation_ok, in_range in Hs.
  destruct (v2 s) as [a|] eqn:Ha.
  2: { rewrite Hlegacy; [reflexivity|]. destruct (match v1_1 s with Some _ => _ | None => _ end); exact Hlate. }
  destruct Hs as [(Hvh & Hvb & Hvh0 & Hvb0) _].
  destruct (v2_height a <=? height) eqn:Hv.
  2: { rewrite Hlegacy; [reflexivity|]. destruct (match v1_1 s with Some _ => _ | None => _ end); exact Hlate. }
  rewrite saturating_sub_ge, Z.min_l by lia.
  assert (Hideal : 0 <= ideal_elapsed s anchor_height (height - 1) <= I128_MAX).
  { unfold ideal_elapsed, saturating_sub, BLOCK_TIME, I128_MAX. rewrite Ha.
    change (2 ^ 127) with (2 ^ 48 * 2 ^ 79). repeat case_test; boolify; nia. }
  rewrite (Z.min_l (ideal_elapsed _ _ _)) by lia. rewrite Hlate. unfold EPOCH_LENGTH in *.
  assert (HhB : 6 <= 6 * v2_block_time a < 6 * 2 ^ 64) by lia.
  assert (Hprod : - 2 ^ 80 <= k * (6 * v2_block_time a) <= 2 ^ 80).
  { change (2 ^ 80) with (2 ^ 64 * 65536). nia. }
  unfold saturate_i128, I128_MAX, I128_MIN.
  rewrite (Z.min_l (k * _)), (Z.max_r _ (k * _)) by lia.
  rewrite Z.min_l, Z.max_r by lia. rewrite quot_whole, Hc by lia. reflexivity.
Qed.

(** The short circuit for net shifts of 46 or more is not always a clamp:
    with an anchor below [2^175] the exact value at net shift 46 is still below
    the genesis target, but the code returns the genesis target. *)
Lemma asert_short_circuit_overshoots (anchor : list Z) (height : Z) (act : option Z)
    (exponent : Z) :
  digest_ok anchor -> val 8 anchor < 2 ^ 175 -> exponent_net exponent = 46 ->
  target_from_exponent anchor height act exponent = GENESIS_TARGET
  /\ asert_spec (val 8 anchor) (exponent_factor height act exponent) 46 < val 8 GENESIS_TARGET.
Proof.
  intros Ha HT Hn. destruct GENESIS_TARGET_val as [_ Gv]. rewrite Gv. split.
  - unfold target_from_exponent. fold (exponent_net exponent). rewrite Hn. reflexivity.
  - unfold asert_spec, scaled_target.
    pose proof (factor_bounds (exponent mod 65536) height act ltac:(apply Z.mod_pos_bound; lia)) as HF.
    fold (exponent_factor height act exponent) in HF. pose proof (digest_val_bounds anchor Ha).
    change (0 <=? 46) with true. cbv iota.
    assert (val 8 anchor * exponent_factor height act exponent < 2 ^ 192).
    { change (2 ^ 192) with (2 ^ 175 * 131072).
      destruct (Z.eq_dec (exponent_factor height act exponent) 0); nia. }
    change (2 ^ 238) with (2 ^ 192 * 2 ^ 46). nia.
Qed.

(** An anchor of at least [2^176] reaches the ceiling wherever the code short
    circuits. *)
Lemma asert_ceiling T height act exponent : 2 ^ 176 <= T -> 46 <= exponent_net exponent ->
  asert_spec T (exponent_factor height act exponent) (exponent_net exponent) = 2 ^ 238.
Proof.
  intros Hbig H46. unfold asert_spec, scaled_target. replace (0 <=? exponent_net exponent) with true by lia.
  pose proof (factor_bounds (exponent mod 65536) height act ltac:(apply Z.mod_pos_bound; lia)) as HF.
  fold (exponent_factor height act exponent) in HF.
  assert (2 ^ 46 <= 2 ^ exponent_net exponent) by (apply Z.pow_le_mono_r; lia).
  assert (2 ^ 238 <= T * exponent_factor height act exponent * 2 ^ exponent_net exponent).
  { change (2 ^ 238) with (2 ^ 176 * 65536 * 2 ^ 46).
    apply Z.mul_le_mono_nonneg; [lia | apply Z.mul_le_mono_nonneg; lia | lia | assumption]. }
  lia.
Qed.

(** ** Properties *)

(** C35. What the limb arithmetic of ASERT computes, for every exponent.  Below a
    net shift of 46 the target is the scaled anchor [floor(T * factor * 2^net)]
    clamped to the range from 1 to the genesis target [2^238], except that a zero
    anchor scaled up gives the genesis target.  From 46 on the code returns the
    genesis target without computing.  That is the clamped value for anchors of at
    least [2^176]; for anchors below [2^175] it overshoots at 46. *)
Theorem asert_exact (anchor : list Z) (height : Z) (act : option Z) (exponent : Z) :
  digest_ok anchor ->
  let T := val 8 anchor in let net := exponent_net exponent in
  let target := val 8 (target_from_exponent anchor height act exponent) in
  let spec := asert_spec T (exponent_factor height act exponent) net in
  (net < 46 -> 0 < T \/ net <= 0 -> target = spec)
  /\ (46 <= net \/ (0 < net /\ T = 0) -> target = 2 ^ 238)
  /\ (2 ^ 176 <= T -> target = spec)
  /\ (T < 2 ^ 175 -> net = 46 -> spec < target).
Proof.
  intros Ha T net target spec. pose proof (digest_val_bounds anchor Ha) as Hb. fold T in Hb.
  destruct (target_from_exponent_val anchor height act exponent Ha) as [_ Ht]. fold target T net spec in Ht. split; [|split; [|split]].
  - intros Hn H. rewrite Ht. destruct (Z.leb_spec 46 net), (Z.ltb_spec 0 net), (Z.eqb_spec T 0); cbn [orb andb]; lia || reflexivity.
  - intros H. rewrite Ht. destruct (Z.leb_spec 46 net), (Z.ltb_spec 0 net), (Z.eqb_spec T 0); cbn [orb andb]; lia || reflexivity.
  - intros Hbig. rewrite Ht. replace (T =? 0) with false by lia. rewrite andb_false_r, orb_false_r.
    destruct (Z.leb_spec 46 net) as [H46|]; [|reflexivity]. symmetry. exact (asert_ceiling T height act exponent Hbig H46).
  - intros Hs Hn. destruct (asert_short_circuit_overshoots anchor height act exponent Ha Hs Hn) as [H1 H2].
    unfold spec, target. rewrite Hn, H1. exact H2.
Qed.

Lemma asert_exact_witness :
  val 8 (target_from_exponent GENESIS_TARGET 200000 (Some 95125) (-98304))
  = asert_spec (2 ^ 238) (exponent_factor 200000 (Some 95125) (-98304)) (-18).
Proof.
  destruct (asert_exact GENESIS_TARGET 200000 (Some 95125) (-98304)) as (H & _); [apply GENESIS_TARGET_val|].
  rewrite H; [vm_compute; reflexivity|vm_compute; reflexivity|left; vm_compute; reflexivity].
Defined.

(** The half-life law: a block that is a whole number [k] of half-lives
    late (early when negative) gets the anchor target times [2^k], clamped; in
    particular a chain exactly on schedule keeps the anchor's target.  Late is
    measured from the block's own timestamp before v2 and from its parent's
    from v2 on. *)
Theorem asert_halflife_law (s : ForkSchedule) (anchor_height anchor_timestamp : Z)
    (anchor : list Z) (height parent_timestamp timestamp k : Z) :
  schedule_ok s -> digest_ok anchor -> 0 < val 8 anchor ->
  0 <= anchor_height < height -> height < 2 ^ 48 ->
  0 <= anchor_timestamp -> anchor_timestamp <= parent_timestamp <= I64_MAX ->
  anchor_timestamp <= timestamp <= I64_MAX -> -1000 <= k <= 61 ->
  seconds_late s anchor_height anchor_timestamp height parent_timestamp timestamp
    = k * halflife_of s height ->
  val 8 (next_target_with_schedule anchor_height anchor_timestamp anchor height
           parent_timestamp timestamp s)
  = Z.max 1 (Z.min (2 ^ 238)
      (if 0 <=? k then val 8 anchor * 2 ^ k else val 8 anchor / 2 ^ (- k))).
Proof.
  intros Hs Ha HT Hh Hmax Hat Hpt Ht Hk Hlate.
  rewrite (exponent_whole s _ _ _ _ _ _ k Hs Hh Hmax Hat Hpt Ht Hk Hlate).
  destruct (target_from_exponent_val anchor height (v1_1 s) (k * 65536) Ha) as [_ ->].
  destruct (whole_halflives height (v1_1 s) k) as [-> ->].
  replace (46 <=? k - 16) with false by lia. replace (val 8 anchor =? 0) with false by lia.
  rewrite andb_false_r. cbn [orb]. unfold asert_spec.
  change 65536 with (2 ^ Z.of_nat 16). rewrite scaled_pow by lia.
  change (Z.of_nat 16) with 16. replace (k - 16 + 16) with k by lia.
  unfold scaled_target. rewrite Z.mul_1_r. reflexivity.
Qed.

Lemma asert_halflife_law_witness :
  val 8 (next_target_with_schedule 0 1000 MIN_TARGET 210540
           (1000 + 20 * 210536 + 30 * 3 + 180 * 5) 1000 ACTIVE_SCHEDULE) = 32.
Proof.
  rewrite (asert_halflife_law ACTIVE_SCHEDULE 0 1000 MIN_TARGET 210540
    (1000 + 20 * 210536 + 30 * 3 + 180 * 5) 1000 5 ACTIVE_SCHEDULE_ok (proj1 MIN_TARGET_val));
    unfold I64_MAX; try lia; vm_compute; reflexivity.
Defined.

(** The difficulty floor is unconditional and the rule is monotone: for any
    anchor, heights, timestamps and well-formed schedule the next target is a
    32-byte value between 1 and the genesis target, and moving timestamps later
    never makes it harder. *)
Theorem next_target_range_monotone (s : ForkSchedule) (anchor_height anchor_timestamp : Z)
    (anchor : list Z) (height parent_timestamp parent_timestamp' timestamp timestamp' : Z) :
  schedule_ok s -> digest_ok anchor ->
  parent_timestamp <= parent_timestamp' -> timestamp <= timestamp' ->
  let t := next_target_with_schedule anchor_height anchor_timestamp anchor height
             parent_timestamp timestamp s in
  let t' := next_target_with_schedule anchor_height anchor_timestamp anchor height
              parent_timestamp' timestamp' s in
  digest_ok t /\ 1 <= val 8 t <= val 8 t' /\ val 8 t' <= 2 ^ 238.
Proof.
  intros Hs Ha Hp Ht t t'.
  assert (H : exists e e', e <= e' /\ t = target_from_exponent anchor height (v1_1 s) e
                           /\ t' = target_from_exponent anchor height (v1_1 s) e').
  { unfold t, t', next_target_with_schedule, next_target_with_activation.
    assert (Hq : forall x y h, 0 < h -> x <= y -> clamp_i64 (Z.quot x h) <= clamp_i64 (Z.quot y h))
      by (intros; apply clamp_i64_mono, Z.quot_le_mono; lia).
    assert (Hl : forall x, clamp_i64 (Z.quot ((Z.min (saturating_sub timestamp anchor_timestamp) I64_MAX - x) * 65536) HALFLIFE)
      <= clamp_i64 (Z.quot ((Z.min (saturating_sub timestamp' anchor_timestamp) I64_MAX - x) * 65536) HALFLIFE)).
    { intros x. apply Hq; [reflexivity|]. unfold saturating_sub. lia. }
    unfold schedule_ok, activation_ok in Hs.
    destruct (v2 s) as [a|]; [|eauto]. destruct Hs as [(_ & _ & _ & Hb) _].
    case_test; [|eauto]. eexists _, _. split; [|split; reflexivity].
    apply Hq; [unfold EPOCH_LENGTH; lia|]. apply saturate_i128_mono.
    pose proof (saturate_i128_mono
      (Z.min (saturating_sub parent_timestamp anchor_timestamp) I64_MAX
        - Z.min (ideal_elapsed s anchor_height (height - 1)) I128_MAX)
      (Z.min (saturating_sub parent_timestamp' anchor_timestamp) I64_MAX
        - Z.min (ideal_elapsed s anchor_height (height - 1)) I128_MAX)).
    unfold saturating_sub in *. lia. }
  destruct H as (e & e' & He & -> & ->).
  destruct (target_range anchor height (v1_1 s) e Ha) as [H1 H2].
  destruct (target_range anchor height (v1_1 s) e' Ha) as [_ H3].
  pose proof (target_mono_exponent anchor height (v1_1 s) e e' Ha He). split; [exact H1|lia].
Qed.

Lemma next_target_range_monotone_witness :
  val 8 (next_target 0 0 GENESIS_TARGET 210540 4000000 0) <=
  val 8 (next_target 0 0 GENESIS_TARGET 210540 4200000 0).
Proof.
  apply (next_target_range_monotone ACTIVE_SCHEDULE 0 0 GENESIS_TARGET 210540 4000000 4200000 0 0);
    [exact ACTIVE_SCHEDULE_ok | apply GENESIS_TARGET_val | lia | lia].
Defined.

(** Block work is exactly the expected number of trials rounded up,
    [ceil(2^256 / target)], saturated at [2^256 - 1], for every non-zero target:
    the bit-serial division loses no bit although it drops the carry out of its
    remainder. *)
Theorem block_work_exact (target : list Z) :
  digest_ok target -> 0 < val 8 target ->
  exists w, block_work target = Some w /\ digest_ok w
    /\ val 8 w = Z.min (2 ^ 256 - 1) (div_ceil (2 ^ 256) (val 8 target)).
Proof.
  intros Ht Hpos. unfold block_work. rewrite is_zero_256_val by apply Ht.
  replace (val 8 target =? 0) with false by lia.
  destruct MAX_TARGET_val as [Mok Mv]. unfold MAX_TARGET in *.
  destruct (div_u256_val (replicate 32 255) target Mok Ht Hpos) as (q & -> & Hq & Vq).
  { rewrite Mv. intros b Hb. set (D := val 8 target) in *.
    assert (HN : (2 ^ 256 - 1) / 2 ^ (b + 1) < 2 ^ (255 - b)).
    { apply Z.div_lt_upper_bound; [apply pow2_pos; lia|].
      rewrite <- Z.pow_add_r by lia. replace (b + 1 + (255 - b)) with 256 by lia. lia. }
    assert (0 <= (2 ^ 256 - 1) / 2 ^ (b + 1)) by (apply Z.div_pos; [lia | apply pow2_pos; lia]).
    pose proof (Z.mod_le ((2 ^ 256 - 1) / 2 ^ (b + 1)) D ltac:(lia) Hpos).
    assert (2 ^ (255 - b) <= 2 ^ 255) by (apply Z.pow_le_mono_r; lia).
    assert (E : 2 ^ 256 = 2 * 2 ^ 255) by reflexivity. lia. }
  rewrite Mv in Vq. set (D := val 8 target) in *.
  assert (Hceil : div_ceil (2 ^ 256) D = (2 ^ 256 - 1) / D + 1).
  { unfold div_ceil. replace (2 ^ 256 + D - 1) with (2 ^ 256 - 1 + 1 * D) by lia.
    apply Z.div_add. lia. }
  eexists. split; [reflexivity|]. unfold add_one_saturating.
  pose proof (add_one_loop_val q (proj2 Hq)) as Hone. rewrite (proj1 Hq) in Hone.
  change (8 * Z.of_nat 32) with 256 in Hone.
  destruct (add_one_loop q) as [r|]; cbn [default from_option id].
  - destruct Hone as (R1 & R2 & R3). split; [split; assumption|].
    pose proof (digest_val_bounds r (conj R2 R1)). lia.
  - split; [exact Mok|]. lia.
Qed.

Lemma block_work_witness :
  exists w, block_work GENESIS_TARGET = Some w /\ val 8 w = 2 ^ 18.
Proof.
  destruct (block_work_exact GENESIS_TARGET) as (w & H1 & _ & H2);
    [apply GENESIS_TARGET_val | rewrite (proj2 GENESIS_TARGET_val); reflexivity |].
  exists w. split; [exact H1|]. rewrite H2. vm_compute. reflexivity.
Defined.

(** Adding work is addition of 256-bit integers, saturated. *)
Lemma add_work_val a b :
  digest_ok a -> digest_ok b ->
  digest_ok (add_work a b) /\ val 8 (add_work a b) = Z.min (2 ^ 256 - 1) (val 8 a + val 8 b).
Proof.
  intros [La Ha] [Lb Hb]. unfold add_work. destruct (add_loop 0 a b) as [r k] eqn:E.
  destruct (add_loop_val a b 0 r k Ha Hb ltac:(congruence) ltac:(lia) E) as (R1 & R2 & R3 & R4).
  rewrite La in R2, R4. change (8 * Z.of_nat 32) with 256 in R4.
  pose proof (digest_val_bounds r (conj R2 R1)). destruct MAX_TARGET_val as [Mok Mv].
  destruct (Z.eqb_spec k 0); cbn [negb].
  - split; [split; assumption|]. lia.
  - split; [exact Mok|]. unfold MAX_TARGET in Mv. rewrite Mv. lia.
Qed.

Lemma lex_lt_high_first a : forall b, length a = length b -> lex_lt a b = lt_high_first a b.
Proof.
  induction a as [|x a IH]; intros [|y b] Hl; try discriminate; [reflexivity|].
  cbn [lex_lt lt_high_first]. rewrite IH by (now injection Hl). reflexivity.
Qed.

(** The hash order is the order of the big-endian values. *)
Definition be_val (h : list Z) : Z := val 8 (reverse h).

Lemma lex_lt_val a b : digest_ok a -> digest_ok b -> lex_lt a b = (be_val a <? be_val b).
Proof.
  intros [La Ha] [Lb Hb]. rewrite lex_lt_high_first by congruence.
  apply lt_high_first_val; congruence || assumption.
Qed.

Lemma be_val_inj a b : digest_ok a -> digest_ok b -> be_val a = be_val b -> a = b.
Proof.
  intros [La Ha] [Lb Hb] H. rewrite <- (reverse_involutive a), <- (reverse_involutive b). f_equal.
  apply (val_inj 8); [lia | now apply Forall_reverse | now apply Forall_reverse | | exact H].
  rewrite !length_reverse. congruence.
Qed.

Lemma choose_chain_val wa ha wb hb :
  digest_ok wa -> digest_ok ha -> digest_ok wb -> digest_ok hb ->
  choose_chain_by_work wa ha wb hb =
  if val 8 wb <? val 8 wa then ChooseA else if val 8 wa <? val 8 wb then ChooseB
  else if be_val ha <? be_val hb then ChooseA else if be_val hb <? be_val ha then ChooseB else Equal.
Proof.
  intros Hwa Hha Hwb Hhb. unfold choose_chain_by_work, work_gt.
  rewrite !digest_lt_val, !lex_lt_val by assumption. reflexivity.
Qed.

(** Fork choice is a strict total order on tips: the answer flips when the
    tips are swapped, it is [Equal] only for the same work and hash, preference
    is transitive, more work always wins, and appending a block of any valid
    target to an unsaturated chain makes it preferred over what it extends. *)
Theorem fork_choice_total_order (wa ha wb hb wc hc : list Z) :
  digest_ok wa -> digest_ok ha -> digest_ok wb -> digest_ok hb -> digest_ok wc -> digest_ok hc ->
  (choose_chain_by_work wa ha wb hb = ChooseA <-> choose_chain_by_work wb hb wa ha = ChooseB)
  /\ (choose_chain_by_work wa ha wb hb = Equal <-> wa = wb /\ ha = hb)
  /\ (choose_chain_by_work wa ha wb hb = ChooseA -> choose_chain_by_work wb hb wc hc = ChooseA ->
      choose_chain_by_work wa ha wc hc = ChooseA)
  /\ (val 8 wb < val 8 wa -> choose_chain_by_work wa ha wb hb = ChooseA)
  /\ (0 < val 8 wc -> val 8 wa < 2 ^ 256 - 1 ->
      choose_chain_by_work (add_work wa wc) hb wa ha = ChooseA).
Proof.
  intros Hwa Hha Hwb Hhb Hwc Hhc. destruct (add_work_val wa wc Hwa Hwc) as [Aok Av].
  rewrite !choose_chain_val by assumption. rewrite Av.
  split; [|split; [|split; [|split]]].
  - split; repeat case_test; boolify; intros; try congruence; lia.
  - split.
    + intros E. repeat case_test; boolify; try discriminate. split; [|apply be_val_inj; auto; lia].
      apply (val_inj 8); [lia | apply Hwa | apply Hwb | | lia].
      rewrite (proj1 Hwa), (proj1 Hwb). reflexivity.
    + intros [-> ->]. rewrite !Z.ltb_irrefl. reflexivity.
  - repeat case_test; boolify; intros; try congruence; lia.
  - intros. replace (val 8 wb <? val 8 wa) with true by lia. reflexivity.
  - intros. replace (val 8 wa <? Z.min (2 ^ 256 - 1) (val 8 wa + val 8 wc)) with true by lia. reflexivity.
Qed.

Lemma fork_choice_witness :
  choose_chain_by_work (add_work GENESIS_TARGET MIN_TARGET) MIN_TARGET GENESIS_TARGET MIN_TARGET = ChooseA.
Proof.
  apply (fork_choice_total_order GENESIS_TARGET MIN_TARGET GENESIS_TARGET MIN_TARGET MIN_TARGET MIN_TARGET);
    try apply GENESIS_TARGET_val; try apply MIN_TARGET_val; vm_compute; reflexivity.
Defined.
