(* ===== verification/Rules.v ===== *)
(** * Header rules: timestamps, state expansion, transaction epochs

    [noid_chain/src/consensus/timestamps.rs], [slot_expansion.rs] and the height
    schedule of [epoch_anchor.rs]; the error type of
    [noid_chain/src/consensus/mod.rs] that all consensus checks share. *)

From Stdlib Require Import ZArith Lia Sorted.
From stdpp Require Import base numbers list option gmap sorting strings.
From S2P Require Import Prelude Params Tx.

Open Scope Z_scope.

(** ** Errors *)

(** The text of the [String] payloads: a literal, or a formatted inner error. *)
Inductive Detail :=
| Text (s : string)
| BodySemantics (e : PublicLogicError).

Inductive ConsensusError :=
| InvalidPoW
| BadParentHash
| BadHeight
| BadDifficultyTarget
| BadTimestamp
| TooManyTxs
| BlockResourceLimitExceeded (limit : string) (actual max : Z)
| BadTxRoot
| SlotConflict
| InvalidPagedSpend (what : Detail)
| BadEpochAnchor
| InvalidLogicProof (tx_index : Z)
| MissingCoinbase
| MultipleCoinbase
| CoinbaseNotFirst
| BadCoinbaseOwner
| InflatedCoinbase
| BadCoinbaseAnchor
| MissingDevelopmentPayout
| UnexpectedDevelopmentPayout
| BadDevelopmentPayout
| BadHistoryStepTerminal (what : Detail)
| BelowMinFee (required actual : Z)
| BadLogSlotsExpansion
| BadStateRoot
| ShapeMismatch (what : Detail).

(** ** Timestamps *)

(** [sort_unstable] on integers: the sorted permutation. *)
Definition sort_u64 (l : list Z) : list Z := merge_sort Z.le l.

Definition median_time_past (prev_timestamps : list Z) : Z :=
  match prev_timestamps with
  | [] => 0
  | _ =>
      let count := Nat.min (length prev_timestamps) MEDIAN_TIME_BLOCKS in
      let recent := drop (length prev_timestamps - count) prev_timestamps in
      nth (count / 2) (sort_u64 recent) 0
  end.

Definition median_u64 (values : list Z) : Z :=
  match values with
  | [] => 0
  | _ => let sorted := sort_u64 values in nth (length sorted / 2) sorted 0
  end.

Definition validate_median_time_past (block_ts : Z) (prev_timestamps : list Z)
  : result ConsensusError unit :=
  let mtp := median_time_past prev_timestamps in
  ensure (negb (block_ts <=? mtp)) BadTimestamp.

Definition validate_future_drift (block_ts local_time : Z) : result ConsensusError unit :=
  ensure (negb (saturating_add 64 local_time MAX_FUTURE_DRIFT <? block_ts)) BadTimestamp.

Definition validate_timestamp (block_ts : Z) (prev_timestamps : list Z) (local_time : Z)
  : result ConsensusError unit :=
  _ ← validate_median_time_past block_ts prev_timestamps;
  _ ← validate_future_drift block_ts local_time;
  Ok tt.

(** ** State expansion *)

Definition finalized_expansion_window (parent_height : Z) : option (Z * Z) :=
  end' ← checked_sub parent_height CONSENSUS_FINALITY_DEPTH;
  w ← checked_sub EXPANSION_WINDOW 1;
  start ← checked_sub end' w;
  Some (start, end').

Definition expected_child_log_slots (parent_height parent_log_slots : Z)
    (finalized_active_counts : list Z) : Z :=
  match finalized_expansion_window parent_height with
  | None => parent_log_slots
  | Some _ =>
      let expected_window_len := Z.to_nat EXPANSION_WINDOW in
      if negb (length finalized_active_counts =? expected_window_len)%nat then parent_log_slots
      else
        let prev_capacity := default (umax 64) (checked_shl1 64 parent_log_slots) in
        let threshold_scaled := saturating_mul 64 prev_capacity EXPAND_NUM in
        let at_or_above := length (filter (fun active =>
          threshold_scaled <= saturating_mul 64 active EXPAND_DENOM) finalized_active_counts) in
        let trigger := (expected_window_len / 2 <? at_or_above)%nat in
        if trigger then Z.min (saturating_add 32 parent_log_slots 1) LOG_SLOTS_MAX
        else parent_log_slots
  end.

(** ** Transaction epochs *)

Record TxEpochHeightDecomposition := mkTxEpoch { quotient : Z; remainder : Z }.

Definition is_boundary (d : TxEpochHeightDecomposition) : bool := remainder d =? 0.

(** [checked_div] and [checked_rem] by the non-zero epoch length. *)
Definition checked_tx_epoch_height_decomposition (height : Z)
  : option TxEpochHeightDecomposition :=
  let q := height / TX_EPOCH_BLOCKS in
  let r := height mod TX_EPOCH_BLOCKS in
  p ← checked_mul 64 q TX_EPOCH_BLOCKS;
  recomposed ← checked_add 64 p r;
  if negb (recomposed =? height) || (TX_EPOCH_BLOCKS <=? r) then None
  else if r <? 2 ^ 8 then Some (mkTxEpoch q r) else None.

Definition tx_epoch_anchor_height_for_child (child_height : Z) : Z :=
  if child_height =? 0 then 0
  else (child_height - 1) / TX_EPOCH_BLOCKS * TX_EPOCH_BLOCKS.

(** [None] is the panic of the [expect]. *)
Definition next_tx_epoch_anchor_id (start_anchor_id : list Z) (accepted_child_height : Z)
    (accepted_child_id : list Z) : option (list Z) :=
  d ← checked_tx_epoch_height_decomposition accepted_child_height;
  Some (if negb (accepted_child_height =? 0) && is_boundary d
        then accepted_child_id else start_anchor_id).

(** Anchors of the bodies of a block. *)
Definition check_epoch_anchor (user_epoch_anchor_id parent_id : list Z) (_ : unit) (body : TxBody)
  : result ConsensusError unit :=
  let expected := if is_coinbase body then parent_id else user_epoch_anchor_id in
  ensure (bool_decide (epoch_anchor body = expected))
    (if is_coinbase body then BadCoinbaseAnchor else BadEpochAnchor).

Definition validate_block_epoch_anchors (transactions : list TxBody)
    (user_epoch_anchor_id parent_id : list Z) : result ConsensusError unit :=
  fold_result (check_epoch_anchor user_epoch_anchor_id parent_id) tt transactions.

Section Lookup.
(** Header store and block id of the caller. *)
Context {Header : Type} (block_id : Header -> list Z) (header_at : Z -> option Header).

Definition resolve_user_epoch_anchor_id (child_height : Z) : option (list Z) :=
  block_id <$> header_at (tx_epoch_anchor_height_for_child child_height).
End Lookup.

(** ** Lemmas: order statistics *)

Definition count_below (m : Z) (l : list Z) : nat := length (filter (fun x => x < m) l).

Lemma count_below_perm m l l' : l ≡ₚ l' -> count_below m l = count_below m l'.
Proof. intros H. unfold count_below. now rewrite H. Qed.

Lemma count_below_app m a b : count_below m (a ++ b) = (count_below m a + count_below m b)%nat.
Proof. unfold count_below. now rewrite filter_app, length_app. Qed.

Lemma count_below_le m l : (count_below m l <= length l)%nat.
Proof. apply length_filter. Qed.

Lemma count_below_zero m l : Forall (fun x => m <= x) l -> count_below m l = 0%nat.
Proof.
  unfold count_below. induction 1 as [|x l Hx Hl IH]; [reflexivity|].
  rewrite filter_cons_False by lia. exact IH.
Qed.

Lemma count_below_all m l : Forall (fun x => x < m) l -> count_below m l = length l.
Proof.
  unfold count_below. induction 1 as [|x l Hx Hl IH]; [reflexivity|].
  rewrite filter_cons_True by exact Hx. cbn. now rewrite IH.
Qed.

Lemma sort_u64_perm l : sort_u64 l ≡ₚ l.
Proof. apply merge_sort_Permutation. Qed.

Lemma sort_u64_sorted l : StronglySorted Z.le (sort_u64 l).
Proof. apply StronglySorted_merge_sort; [|]; apply _. Qed.

Lemma sorted_parts l i v :
  StronglySorted Z.le l -> l !! i = Some v ->
  Forall (fun x => x <= v) (take i l) /\ Forall (fun x => v <= x) (drop i l).
Proof.
  intros Hs. revert i; induction Hs as [|x l Hs IH Hx]; intros i H; [discriminate|].
  destruct i as [|i]; cbn in H |- *.
  - injection H as ->. split; [constructor|]. constructor; [lia|exact Hx].
  - destruct (IH i H) as [H1 H2]. split; [|exact H2]. constructor; [|exact H1].
    rewrite Forall_forall in Hx. apply Hx. eapply list_elem_of_lookup_2; eauto.
Qed.

(** The [i]-th smallest has at most [i] values below it, and a bound with at
    most [i] values below it is below the [i]-th smallest. *)
Lemma order_statistic l i :
  (i < length l)%nat ->
  let v := nth i (sort_u64 l) 0 in
  v ∈ l /\ (count_below v l <= i)%nat
  /\ forall m, (count_below m l <= i)%nat -> m <= v.
Proof.
  intros Hi v. set (s := sort_u64 l).
  assert (Hlen : length s = length l) by (apply Permutation_length, sort_u64_perm).
  assert (Hv : s !! i = Some v).
  { destruct (lookup_lt_is_Some_2 s i ltac:(lia)) as [x Hx]. rewrite Hx. f_equal.
    unfold v. fold s. now rewrite nth_lookup, Hx. }
  destruct (sorted_parts s i v (sort_u64_sorted l) Hv) as [H1 H2].
  split; [rewrite <- (sort_u64_perm l); fold s; eapply list_elem_of_lookup_2; eauto|].
  split.
  - rewrite <- (count_below_perm v _ _ (sort_u64_perm l)). fold s.
    rewrite <- (take_drop i s), count_below_app, (count_below_zero v (drop i s)) by exact H2.
    pose proof (count_below_le v (take i s)) as H3. rewrite length_take in H3. lia.
  - intros m Hm. rewrite <- (count_below_perm m _ _ (sort_u64_perm l)) in Hm. fold s in Hm.
    destruct (Z_lt_le_dec v m) as [Hlt|]; [exfalso|assumption].
    rewrite <- (take_drop (S i) s), count_below_app in Hm.
    rewrite (count_below_all m (take (S i) s)) in Hm.
    + rewrite length_take in Hm. lia.
    + rewrite (take_S_r s i v Hv). apply Forall_app. split; [|repeat constructor; lia].
      eapply Forall_impl; [exact H1|]. cbn. lia.
Qed.

(** The window of the median: the last [MEDIAN_TIME_BLOCKS] timestamps. *)
Definition mtp_window (l : list Z) : list Z :=
  drop (length l - Nat.min (length l) MEDIAN_TIME_BLOCKS) l.

Lemma mtp_window_length l : length (mtp_window l) = Nat.min (length l) MEDIAN_TIME_BLOCKS.
Proof. unfold mtp_window. rewrite length_drop. lia. Qed.

Lemma median_time_past_spec l :
  l <> [] ->
  let m := median_time_past l in
  let w := mtp_window l in
  m ∈ w /\ (count_below m w <= length w / 2)%nat
  /\ forall x, (count_below x w <= length w / 2)%nat -> x <= m.
Proof.
  intros Hl m w. unfold m, w. rewrite mtp_window_length.
  replace (median_time_past l)
    with (nth (Nat.min (length l) MEDIAN_TIME_BLOCKS / 2) (sort_u64 (mtp_window l)) 0)
    by (destruct l; [congruence|reflexivity]).
  apply order_statistic. rewrite mtp_window_length.
  assert (0 < length l)%nat by (destruct l; [congruence|cbn; lia]).
  apply Nat.div_lt; unfold MEDIAN_TIME_BLOCKS; lia.
Qed.

(** Appending a timestamp drops at most the oldest of the window. *)
Lemma mtp_window_snoc l t :
  mtp_window (l ++ [t]) = (if (length l <? MEDIAN_TIME_BLOCKS)%nat then mtp_window l
                           else tail (mtp_window l)) ++ [t].
Proof.
  unfold mtp_window. rewrite length_app. cbn [length].
  destruct (Nat.ltb_spec (length l) MEDIAN_TIME_BLOCKS) as [H|H].
  - rewrite (Nat.min_l (length l + 1)), (Nat.min_l (length l)) by lia.
    now rewrite !Nat.sub_diag.
  - rewrite (Nat.min_r (length l + 1)), (Nat.min_r (length l)) by lia.
    rewrite drop_app_le by (unfold MEDIAN_TIME_BLOCKS in *; lia).
    f_equal. replace (length l + 1 - MEDIAN_TIME_BLOCKS)%nat
      with (S (length l - MEDIAN_TIME_BLOCKS)) by lia.
    generalize (length l - MEDIAN_TIME_BLOCKS)%nat as n. clear.
    induction l as [|x l IH]; intros [|n]; cbn; [reflexivity..|]. apply IH.
Qed.

Lemma count_below_tail m l : (count_below m (tail l) <= count_below m l)%nat.
Proof.
  destruct l as [|x l]; [reflexivity|]. change (x :: l) with ([x] ++ l).
  rewrite count_below_app. cbn [tail app]. lia.
Qed.

Lemma median_time_past_snoc l t :
  median_time_past l < t -> Forall (fun x => 0 <= x) (l ++ [t]) ->
  median_time_past l <= median_time_past (l ++ [t]).
Proof.
  intros Ht Hpos. destruct (median_time_past_spec (l ++ [t])) as (Hin & _ & Hmax);
    [now destruct l|].
  destruct l as [|x l']; [|set (l := x :: l') in *].
  { cbn in Hin |- *. rewrite list_elem_of_singleton in Hin. cbn in Ht, Hpos.
    apply Forall_cons in Hpos as [? _]. cbn in Hin. lia. }
  destruct (median_time_past_spec l) as (_ & Hc & _); [discriminate|].
  apply Hmax. rewrite mtp_window_snoc, count_below_app, length_app.
  rewrite (count_below_zero _ [t]) by (repeat constructor; lia).
  pose proof (mtp_window_length l) as Hlen.
  destruct (Nat.ltb_spec (length l) MEDIAN_TIME_BLOCKS) as [H|H].
  - rewrite Nat.add_0_r. cbn [length]. etransitivity; [exact Hc|].
    apply Nat.Div0.div_le_mono. lia.
  - rewrite Nat.min_r in Hlen by lia. pose proof (count_below_tail (median_time_past l) (mtp_window l)).
    assert (length (tail (mtp_window l)) + 1 = MEDIAN_TIME_BLOCKS)%nat as Ht'.
    { destruct (mtp_window l); [discriminate|]. cbn in Hlen |- *. lia. }
    cbn [length]. rewrite Ht'. rewrite Hlen in Hc. lia.
Qed.

(** ** Theorems *)

(** The chain clock never runs backwards.  A timestamp is accepted by the
    median rule exactly when it is strictly above the upper median [m] of the
    last eleven ancestors: [m] is one of them, at most half of the window is
    below it, and it is the greatest value with that property.  Appending an
    accepted timestamp never lowers the median the next block has to beat. *)
Theorem median_rule_monotone (prev : list Z) (t : Z) :
  prev <> [] -> Forall (in_range 64) (prev ++ [t]) ->
  let m := median_time_past prev in
  let w := mtp_window prev in
  (validate_median_time_past t prev = Ok tt <-> m < t)
  /\ m ∈ w /\ (count_below m w <= length w / 2)%nat
  /\ (forall x, (count_below x w <= length w / 2)%nat -> x <= m)
  /\ (validate_median_time_past t prev = Ok tt -> m <= median_time_past (prev ++ [t])).
Proof.
  intros Hne Hr m w. destruct (median_time_past_spec prev Hne) as (H1 & H2 & H3).
  assert (Hv : validate_median_time_past t prev = Ok tt <-> m < t).
  { unfold validate_median_time_past. rewrite ensure_ok_iff. fold m.
    rewrite negb_true_iff, Z.leb_gt. reflexivity. }
  split; [exact Hv|]. split; [exact H1|]. split; [exact H2|]. split; [exact H3|].
  intros Hok. apply median_time_past_snoc; [now apply Hv|].
  eapply Forall_impl; [exact Hr|]. intros x []. lia.
Qed.

Lemma median_rule_witness :
  median_time_past [100; 50; 220; 130; 140; 10; 160; 170; 5; 190; 200; 210] = 160
  /\ 160 <= median_time_past ([100; 50; 220; 130; 140; 10; 160; 170; 5; 190; 200; 210] ++ [161]).
Proof.
  split; [reflexivity|].
  refine (proj2 (proj2 (proj2 (proj2
    (median_rule_monotone [100; 50; 220; 130; 140; 10; 160; 170; 5; 190; 200; 210] 161 _ _)))) _).
  - discriminate.
  - repeat (constructor; [unfold in_range; lia|]). constructor.
  - reflexivity.
Defined.

Lemma checked_shl1_small n : 0 <= n < 64 -> checked_shl1 64 n = Some (2 ^ n).
Proof.
  intros H. unfold checked_shl1. case_test; [reflexivity|exfalso; boolify; lia].
Qed.

Lemma expansion_threshold ls a :
  0 <= ls <= LOG_SLOTS_MAX -> u64 a ->
  saturating_mul 64 (2 ^ ls) EXPAND_NUM <= saturating_mul 64 a EXPAND_DENOM
  <-> 3 * 2 ^ ls <= 4 * a.
Proof.
  intros Hls Ha.
  assert (2 ^ ls <= 2 ^ 32) by (apply Z.pow_le_mono_r; unfold LOG_SLOTS_MAX in *; lia).
  unfold saturating_mul, umax, EXPAND_NUM, EXPAND_DENOM, in_range in *. lia.
Qed.

(** The state grows exactly on a finalized strict majority.  For a parent
    at a valid depth the child has the parent's depth, plus one exactly when the
    complete window of 18 headers, all at least 18 deep, is supplied, more than
    half of them were at least 75% full, and the maximum depth 32 is not
    reached; depth never shrinks and never passes the maximum. *)
Theorem expansion_strict_majority (h ls : Z) (counts : list Z) :
  0 <= h -> 0 <= ls <= LOG_SLOTS_MAX -> Forall (in_range 64) counts ->
  let full := length (filter (fun a => 3 * 2 ^ ls <= 4 * a) counts) in
  let grows := (exists s, finalized_expansion_window h = Some (s, s + 17) /\ s + 35 = h)
               /\ length counts = 18%nat /\ (9 < full)%nat /\ ls < LOG_SLOTS_MAX in
  (grows -> expected_child_log_slots h ls counts = ls + 1)
  /\ (~ grows -> expected_child_log_slots h ls counts = ls)
  /\ ls <= expected_child_log_slots h ls counts <= LOG_SLOTS_MAX.
Proof.
  intros Hh Hls Hc full grows.
  assert (Hf : length (filter (fun a => saturating_mul 64 (2 ^ ls) EXPAND_NUM
                 <= saturating_mul 64 a EXPAND_DENOM) counts) = full).
  { unfold full. clear -Hls Hc. induction Hc as [|a l Ha Hl IH]; [reflexivity|].
    rewrite !filter_cons. pose proof (expansion_threshold ls a Hls Ha) as E.
    do 2 destruct (decide _); cbn [length]; rewrite ?IH; tauto. }
  assert (Hw : finalized_expansion_window h
               = if 35 <=? h then Some (h - 35, h - 35 + 17) else None).
  { unfold finalized_expansion_window, checked_sub, EXPANSION_WINDOW, CONSENSUS_FINALITY_DEPTH.
    repeat case_test; boolify; try lia; cbn; repeat case_test; boolify; try lia; cbn;
      try reflexivity. f_equal. f_equal; lia. }
  assert (Hs : saturating_add 32 ls 1 = ls + 1)
    by (unfold saturating_add, umax, LOG_SLOTS_MAX in *; lia).
  unfold expected_child_log_slots. unfold grows. rewrite Hw.
  destruct (Z.leb_spec 35 h) as [H35|H35]; cbn [negb];
    [|split; [intros ((s & ? & ?) & _); discriminate|split; [reflexivity|lia]]].
  change (Z.to_nat EXPANSION_WINDOW) with 18%nat.
  rewrite checked_shl1_small by (unfold LOG_SLOTS_MAX in *; lia).
  unfold default, from_option, id. rewrite Hf, Hs. change (18 / 2)%nat with 9%nat.
  destruct (Nat.eqb_spec (length counts) 18) as [Hl|Hl]; cbn [negb];
    [|split; [intros (_ & ? & _); congruence|split; [reflexivity|lia]]].
  destruct (Nat.ltb_spec 9 full) as [Hm|Hm];
    [|split; [intros (_ & _ & ? & _); lia|split; [reflexivity|lia]]].
  split; [intros (_ & _ & _ & ?); lia|]. split; [|lia].
  intros Hn. destruct (Z_lt_le_dec ls LOG_SLOTS_MAX); [|lia]. exfalso. apply Hn.
  split; [exists (h - 35); split; [f_equal; f_equal|]; lia|]. auto.
Qed.

Lemma expansion_majority_witness :
  expected_child_log_slots 35 4 (repeat 12 10 ++ repeat 11 8) = 5.
Proof.
  apply (proj1 (expansion_strict_majority 35 4 (repeat 12 10 ++ repeat 11 8)
    ltac:(lia) ltac:(unfold LOG_SLOTS_MAX; lia)
    ltac:(cbn; repeat (constructor; [unfold in_range; lia|]); constructor))).
  split; [exists 0; split; reflexivity|]. split; [reflexivity|].
  split; [apply Nat.ltb_lt; reflexivity|reflexivity].
Defined.

(** ** The epoch-anchor lane *)

(** The lane of a node that accepts the blocks [ids] from height [height] on. *)
Fixpoint accept_ids (anchor : list Z) (height : Z) (ids : list (list Z)) : option (list Z) :=
  match ids with
  | [] => Some anchor
  | id :: rest =>
      anchor' ← next_tx_epoch_anchor_id anchor height id;
      accept_ids anchor' (height + 1) rest
  end.

Lemma tx_epoch_decomposition_total h :
  u64 h ->
  checked_tx_epoch_height_decomposition h
  = Some (mkTxEpoch (h / TX_EPOCH_BLOCKS) (h mod TX_EPOCH_BLOCKS)).
Proof.
  intros [H0 H1]. unfold checked_tx_epoch_height_decomposition, TX_EPOCH_BLOCKS.
  pose proof (Z.div_mod h 144 ltac:(lia)). pose proof (Z.mod_pos_bound h 144 ltac:(lia)).
  unfold checked_mul, checked_add. cbn [mbind option_bind].
  rewrite (proj2 (Z.ltb_lt (h / 144 * 144) _)) by lia. cbn [mbind option_bind].
  rewrite (proj2 (Z.ltb_lt (_ + _) _)) by lia. cbn [mbind option_bind].
  rewrite (proj2 (Z.eqb_eq (_ + _) h)) by lia.
  rewrite (proj2 (Z.leb_gt 144 _)) by lia. cbn [negb orb].
  now rewrite (proj2 (Z.ltb_lt _ _)) by lia.
Qed.

Lemma next_tx_epoch_anchor_id_eq a h id :
  u64 h -> 0 < h ->
  next_tx_epoch_anchor_id a h id = Some (if h mod TX_EPOCH_BLOCKS =? 0 then id else a).
Proof.
  intros Hu Hp. unfold next_tx_epoch_anchor_id.
  rewrite tx_epoch_decomposition_total by exact Hu. cbn [mbind option_bind is_boundary remainder].
  now rewrite (proj2 (Z.eqb_neq h 0)) by lia.
Qed.

Lemma accept_ids_app a h l l' :
  accept_ids a h (l ++ l')
  = (a' ← accept_ids a h l; accept_ids a' (h + Z.of_nat (length l)) l').
Proof.
  revert a h; induction l as [|id l IH]; intros a h; cbn [app accept_ids length].
  - now rewrite Z.add_0_r.
  - destruct (next_tx_epoch_anchor_id a h id) as [a'|]; cbn [mbind option_bind]; [|reflexivity].
    rewrite IH. now replace (h + 1 + Z.of_nat (length l)) with (h + Z.of_nat (S (length l))) by lia.
Qed.

(** Stepping from child [h] to child [h + 1] moves the anchor height only at a
    boundary [h]. *)
Lemma anchor_height_step h :
  0 < h ->
  tx_epoch_anchor_height_for_child (h + 1)
  = if h mod TX_EPOCH_BLOCKS =? 0 then h else tx_epoch_anchor_height_for_child h.
Proof.
  intros H. unfold tx_epoch_anchor_height_for_child, TX_EPOCH_BLOCKS.
  rewrite (proj2 (Z.eqb_neq (h + 1) 0)), (proj2 (Z.eqb_neq h 0)) by lia.
  replace (h + 1 - 1) with h by lia.
  pose proof (Z.div_mod h 144 ltac:(lia)). pose proof (Z.mod_pos_bound h 144 ltac:(lia)).
  destruct (Z.eqb_spec (h mod 144) 0); [lia|].
  replace ((h - 1) / 144) with (h / 144); [reflexivity|].
  apply Z.div_unique with (h mod 144 - 1); lia.
Qed.

Lemma anchor_height_bound h : 0 < h -> 0 <= tx_epoch_anchor_height_for_child h < h.
Proof.
  intros H. unfold tx_epoch_anchor_height_for_child, TX_EPOCH_BLOCKS.
  rewrite (proj2 (Z.eqb_neq h 0)) by lia.
  pose proof (Z.div_mod (h - 1) 144 ltac:(lia)).
  pose proof (Z.mod_pos_bound (h - 1) 144 ltac:(lia)).
  pose proof (Z.div_pos (h - 1) 144 ltac:(lia) ltac:(lia)). lia.
Qed.

(** The incremental anchor lane agrees with the direct header lookup.  A
    node that starts from the genesis id and folds [next_tx_epoch_anchor_id]
    over the ids of the accepted blocks never panics and always holds the anchor
    that [resolve_user_epoch_anchor_id] finds by height for the next child, an
    anchor at most 144 blocks behind that child. *)
Theorem epoch_lane_resolves {Header} (block_id : Header -> list Z)
    (genesis : Header) (blocks : list Header) :
  Z.of_nat (length blocks) < 2 ^ 64 ->
  let chain := genesis :: blocks in
  let child := Z.of_nat (length chain) in
  let header_at h := chain !! Z.to_nat h in
  accept_ids (block_id genesis) 1 (block_id <$> blocks)
  = resolve_user_epoch_anchor_id block_id header_at child
  /\ is_Some (resolve_user_epoch_anchor_id block_id header_at child)
  /\ 1 <= child - tx_epoch_anchor_height_for_child child <= TX_EPOCH_BLOCKS.
Proof.
  intros Hlen chain child header_at.
  assert (Hc : 0 < child) by (unfold child, chain; cbn [length]; lia).
  pose proof (anchor_height_bound child Hc) as Hb.
  split; [|split].
  - unfold child, header_at, chain in *. clear child header_at chain Hc Hb.
    induction blocks as [|b blocks IH] using rev_ind; [reflexivity|].
    rewrite length_app in Hlen. cbn [length] in Hlen.
    rewrite fmap_app, accept_ids_app, IH by lia. rewrite length_fmap.
    set (h := Z.of_nat (length (genesis :: blocks))).
    replace (1 + Z.of_nat (length blocks)) with h by (unfold h; cbn [length]; lia).
    replace (Z.of_nat (length (genesis :: blocks ++ [b]))) with (h + 1)
      by (unfold h; cbn [length]; rewrite length_app; cbn [length]; lia).
    assert (Hh : 0 < h < 2 ^ 64) by (unfold h; cbn [length]; lia).
    unfold resolve_user_epoch_anchor_id. rewrite anchor_height_step by lia.
    pose proof (anchor_height_bound h ltac:(lia)) as Hb.
    destruct (lookup_lt_is_Some_2 (genesis :: blocks)
      (Z.to_nat (tx_epoch_anchor_height_for_child h))) as [x Hx]; [unfold h in *; lia|].
    rewrite Hx. cbn [fmap option_fmap option_map mbind option_bind accept_ids list_fmap].
    rewrite next_tx_epoch_anchor_id_eq by (unfold in_range; lia). cbn [mbind option_bind].
    change (genesis :: blocks ++ [b]) with ((genesis :: blocks) ++ [b]).
    destruct (h mod TX_EPOCH_BLOCKS =? 0).
    + rewrite lookup_app_r by (unfold h; lia).
      now replace (Z.to_nat h - length (genesis :: blocks))%nat with 0%nat by (unfold h; lia).
    + now rewrite (lookup_app_l_Some _ _ _ _ Hx).
  - unfold resolve_user_epoch_anchor_id, header_at. apply fmap_is_Some, lookup_lt_is_Some_2.
    unfold child in *. lia.
  - unfold tx_epoch_anchor_height_for_child, TX_EPOCH_BLOCKS in *.
    rewrite (proj2 (Z.eqb_neq child 0)) in * by lia.
    pose proof (Z.div_mod (child - 1) 144 ltac:(lia)).
    pose proof (Z.mod_pos_bound (child - 1) 144 ltac:(lia)). lia.
Qed.

Lemma epoch_lane_witness :
  accept_ids [0] 1 ((fun z => [z]) <$> seqZ 1 300) = Some [288].
Proof.
  etransitivity;
    [exact (proj1 (epoch_lane_resolves (fun z => [z]) 0 (seqZ 1 300) ltac:(vm_compute; reflexivity)))|].
  vm_compute. reflexivity.
Defined.
