(* ===== verification/Allocator.v ===== *)
(** * The slot allocator

    [noid_chain/src/consensus/allocator.rs]: the splitmix64 mixer, the zone
    permutation and the slot and segment hints derived from [alloc_counter]. *)

From Stdlib Require Import ZArith Lia Znumtheory Zpow_facts.
From stdpp Require Import base numbers list option gmap.
From S2P Require Import Prelude Params.

Open Scope Z_scope.

(** ** The mixer *)

(** New state and output. *)
Definition splitmix64 (state : Z) : Z * Z :=
  let state := wrapping_add 64 state 0x9e3779b97f4a7c15 in
  let z := state in
  let z := wrapping_mul 64 (Z.lxor z (Z.shiftr z 30)) 0xbf58476d1ce4e5b9 in
  let z := wrapping_mul 64 (Z.lxor z (Z.shiftr z 27)) 0x94d049bb133111eb in
  (state, Z.lxor z (Z.shiftr z 31)).

Definition ZONE_CAPACITY : Z := 2 ^ 16.

Definition permute_zone (zone_id num_zones seed : Z) : Z :=
  let mask := num_zones - 1 in
  let s := Z.lxor seed 0xD1B54A32D192ED03 in
  let '(s, r) := splitmix64 s in
  let mul := Z.lor r 1 in
  let '(_, add) := splitmix64 s in
  Z.land (wrapping_add 64 (wrapping_mul 64 zone_id mul) add) mask.

(** ** Hints *)

(** The two loops of [generate_slot_hints]; they run [count] times. *)
Fixpoint uniform_hints (mask state : Z) (count : nat) : list Z :=
  match count with
  | O => []
  | S n =>
      let '(state, raw) := splitmix64 state in
      Z.land raw mask mod 2 ^ 32 :: uniform_hints mask state n
  end.

Definition zone_perm_seed (log_slots : Z) : Z :=
  Z.lxor 0xA0761D6478BD642F (Z.shiftl log_slots 32).

Definition zone_slot (num_zones perm_seed counter : Z) : Z :=
  let zone_mask := ZONE_CAPACITY - 1 in
  let zone_id := counter / ZONE_CAPACITY in
  let zone_offset := Z.land counter zone_mask in
  let zone_seg := permute_zone zone_id num_zones perm_seed in
  let zone_start := zone_seg * ZONE_CAPACITY in
  (zone_start + zone_offset) mod 2 ^ 32.

Fixpoint zone_hints (num_zones perm_seed counter : Z) (count : nat) : list Z :=
  match count with
  | O => []
  | S n =>
      zone_slot num_zones perm_seed counter
      :: zone_hints num_zones perm_seed (wrapping_add 64 counter 1) n
  end.

Definition generate_slot_hints (alloc_counter log_slots : Z) (count : nat) : list Z :=
  let num_slots := 2 ^ log_slots in
  if num_slots <=? ZONE_CAPACITY then uniform_hints (num_slots - 1) alloc_counter count
  else zone_hints (num_slots / ZONE_CAPACITY) (zone_perm_seed log_slots) alloc_counter count.

(** [None] is the panic of the [expect] on the [u16] conversion. *)
Definition zone_segment (first_zone num_zones perm_seed : Z) (offset : nat) : option Z :=
  let segment := permute_zone (wrapping_add 64 first_zone (Z.of_nat offset)) num_zones perm_seed in
  if segment <? 2 ^ 16 then Some segment else None.

Definition generate_zone_segment_hints (alloc_counter log_slots : Z) (count : nat)
  : option (list Z) :=
  if (count =? 0)%nat then Some []
  else if log_slots <=? 16 then Some [0]
  else
    let num_zones := 2 ^ (log_slots - 16) in
    let limit := Nat.min count (Z.to_nat num_zones) in
    let first_zone := alloc_counter / ZONE_CAPACITY in
    mapM (zone_segment first_zone num_zones (zone_perm_seed log_slots)) (seq 0 limit).

(** [filter] with the stateful closure [seen.insert]. *)
Fixpoint filter_insert (seen : gset Z) (hints : list Z) : list Z :=
  match hints with
  | [] => []
  | s :: rest =>
      if bool_decide (s ∈ seen) then filter_insert seen rest
      else s :: filter_insert ({[s]} ∪ seen) rest
  end.

Definition deduplicate_hints (hints reserved : list Z) : list Z :=
  filter_insert (list_to_set reserved) hints.

Definition alloc_counter_increment (n_outputs : Z) : Z := n_outputs.

(** ** The mixer is injective *)

Lemma xorshift_inj k x y :
  0 < k -> 0 <= x -> 0 <= y ->
  Z.lxor x (Z.shiftr x k) = Z.lxor y (Z.shiftr y k) -> x = y.
Proof.
  intros Hk Hx Hy H. set (d := Z.lxor x y).
  assert (Hd : 0 <= d) by (apply Z.lxor_nonneg; tauto).
  assert (E : d = Z.shiftr d k).
  { apply Z.lxor_eq. unfold d. rewrite Z.shiftr_lxor.
    rewrite <- (Z.lxor_nilpotent (Z.lxor x (Z.shiftr x k))). rewrite H at 2.
    apply Z.bits_inj'. intros n Hn. rewrite !Z.lxor_spec.
    destruct (Z.testbit x n), (Z.testbit y n), (Z.testbit (Z.shiftr x k) n),
      (Z.testbit (Z.shiftr y k) n); reflexivity. }
  rewrite Z.shiftr_div_pow2 in E by lia. apply Z.lxor_eq. fold d.
  assert (2 <= 2 ^ k) by (change 2 with (2 ^ 1) at 1; apply Z.pow_le_mono_r; lia).
  destruct (Z.eq_dec d 0); [assumption|].
  pose proof (Z.div_lt d (2 ^ k) ltac:(lia) ltac:(lia)). lia.
Qed.

Lemma xorshift_range w k x : 0 <= w -> 0 <= k -> in_range w x ->
  in_range w (Z.lxor x (Z.shiftr x k)).
Proof.
  intros Hw Hk [H0 H1]. apply lxor_range; [exact Hw|split; assumption|].
  split; [now apply Z.shiftr_nonneg|]. rewrite Z.shiftr_div_pow2 by lia.
  pose proof (pow2_pos k Hk). apply Z.div_lt_upper_bound; nia.
Qed.

Lemma odd_coprime_pow2 m n : 0 <= n -> Z.odd m = true -> rel_prime m (2 ^ n).
Proof.
  intros Hn Hm. apply rel_prime_Zpower_r; [exact Hn|].
  apply Zgcd_1_rel_prime, Z.gcd_unique; [lia|apply Z.divide_1_l..|].
  intros q H1 H2. apply Z.odd_spec in Hm as [j ->].
  replace 1 with (2 * j + 1 - j * 2) by lia. apply Z.divide_sub_r; [exact H1|].
  now apply Z.divide_mul_r.
Qed.

(** Multiplication by an odd constant is injective modulo a power of two. *)
Lemma odd_mul_inj n m x y :
  0 <= n -> Z.odd m = true ->
  (x * m) mod 2 ^ n = (y * m) mod 2 ^ n -> x mod 2 ^ n = y mod 2 ^ n.
Proof.
  intros Hn Hm H. pose proof (pow2_pos n Hn).
  assert (D : (2 ^ n | m * (x - y))).
  { apply Z.mod_divide; [lia|]. replace (m * (x - y)) with (x * m - y * m) by lia.
    rewrite Zminus_mod, H, Z.sub_diag. apply Z.mod_0_l. lia. }
  apply Gauss in D; [|apply rel_prime_sym, odd_coprime_pow2; assumption].
  destruct D as [q Hq]. replace x with (y + q * 2 ^ n) by lia. apply Z.mod_add. lia.
Qed.

Lemma odd_mul_inj64 m x y :
  Z.odd m = true -> u64 x -> u64 y -> wrapping_mul 64 x m = wrapping_mul 64 y m -> x = y.
Proof.
  intros Hm [Hx0 Hx1] [Hy0 Hy1] H. unfold wrapping_mul in H.
  apply odd_mul_inj in H; [|lia|exact Hm]. now rewrite !Z.mod_small in H by lia.
Qed.

Lemma wrapping_range w x : 0 <= w -> in_range w (x mod 2 ^ w).
Proof. intros H. apply Z.mod_pos_bound, pow2_pos, H. Qed.

Lemma splitmix64_range s : u64 (splitmix64 s).2.
Proof. cbn [splitmix64 snd]. apply xorshift_range; [lia..|]. apply wrapping_range. lia. Qed.

Lemma splitmix64_output_inj x y :
  u64 x -> u64 y -> (splitmix64 x).2 = (splitmix64 y).2 -> x = y.
Proof.
  intros Hx Hy H. cbn [splitmix64 snd] in H.
  apply xorshift_inj in H; [|lia|apply wrapping_range; lia..].
  apply odd_mul_inj64 in H; [|reflexivity|apply xorshift_range; [lia..|apply wrapping_range; lia]..].
  apply xorshift_inj in H; [|lia|apply wrapping_range; lia..].
  apply odd_mul_inj64 in H; [|reflexivity|apply xorshift_range; [lia..|apply wrapping_range; lia]..].
  apply xorshift_inj in H; [|lia|apply wrapping_range; lia..].
  unfold wrapping_add, in_range in *. set (c := 0x9e3779b97f4a7c15) in H.
  rewrite <- (Z.mod_small x (2 ^ 64)), <- (Z.mod_small y (2 ^ 64)) by lia.
  replace x with (x + c - c) by lia. replace y with (y + c - c) by lia.
  rewrite (Zminus_mod (x + c)), (Zminus_mod (y + c)), H. reflexivity.
Qed.

(** ** The zone map *)

Lemma odd_lor_1 r : Z.odd (Z.lor r 1) = true.
Proof. rewrite <- Z.bit0_odd, Z.lor_spec. apply orb_true_r. Qed.

Lemma mod_mod_pow2 x k n : 0 <= k <= n -> (x mod 2 ^ n) mod 2 ^ k = x mod 2 ^ k.
Proof.
  intros H. pose proof (pow2_pos k ltac:(lia)). pose proof (pow2_pos n ltac:(lia)).
  symmetry. apply Zmod_div_mod; [lia..|]. exists (2 ^ (n - k)).
  rewrite <- Z.pow_add_r by lia. f_equal. lia.
Qed.

Lemma ones_sub_1 k : 0 <= k -> Z.ones k = 2 ^ k - 1.
Proof. intros _. rewrite Z.ones_equiv. lia. Qed.

Lemma permute_zone_affine k seed :
  0 <= k <= 64 ->
  exists mul add, Z.odd mul = true
    /\ forall zone, permute_zone zone (2 ^ k) seed = (zone * mul + add) mod 2 ^ k.
Proof.
  intros Hk. exists (Z.lor (splitmix64 (Z.lxor seed 0xD1B54A32D192ED03)).2 1).
  exists (splitmix64 (splitmix64 (Z.lxor seed 0xD1B54A32D192ED03)).1).2.
  split; [apply odd_lor_1|]. intros zone. unfold permute_zone.
  destruct (splitmix64 (Z.lxor _ _)) as [s r]. cbn [fst snd].
  destruct (splitmix64 s) as [s' add]. cbn [snd].
  rewrite <- ones_sub_1 by lia. rewrite Z.land_ones by lia. unfold wrapping_add, wrapping_mul.
  rewrite mod_mod_pow2 by lia.
  rewrite Zplus_mod, mod_mod_pow2, <- Zplus_mod by lia. reflexivity.
Qed.

Lemma permute_zone_range k zone seed :
  0 <= k <= 64 -> 0 <= permute_zone zone (2 ^ k) seed < 2 ^ k.
Proof.
  intros Hk. destruct (permute_zone_affine k seed Hk) as (m & a & _ & E). rewrite E.
  apply Z.mod_pos_bound, pow2_pos. lia.
Qed.

(** Equal segments come from zones congruent modulo the number of segments. *)
Lemma permute_zone_inj k x y seed :
  0 <= k <= 64 -> permute_zone x (2 ^ k) seed = permute_zone y (2 ^ k) seed ->
  x mod 2 ^ k = y mod 2 ^ k.
Proof.
  intros Hk. destruct (permute_zone_affine k seed Hk) as (m & a & Hm & E). rewrite !E.
  intros H. apply (odd_mul_inj k m); [lia|exact Hm|].
  replace (x * m) with (x * m + a - a) by lia. replace (y * m) with (y * m + a - a) by lia.
  rewrite (Zminus_mod (x * m + a)), (Zminus_mod (y * m + a)), H. reflexivity.
Qed.

Lemma zone_slot_eq k seed c :
  0 <= k <= 16 ->
  zone_slot (2 ^ k) seed c = permute_zone (c / 2 ^ 16) (2 ^ k) seed * 2 ^ 16 + c mod 2 ^ 16
  /\ 0 <= zone_slot (2 ^ k) seed c < 2 ^ (k + 16).
Proof.
  intros Hk. unfold zone_slot, ZONE_CAPACITY. change (2 ^ 16 - 1) with (Z.ones 16).
  rewrite Z.land_ones by lia.
  pose proof (permute_zone_range k (c / 2 ^ 16) seed ltac:(lia)) as Hp.
  pose proof (Z.mod_pos_bound c (2 ^ 16) ltac:(lia)) as Ho.
  assert (Hb : permute_zone (c / 2 ^ 16) (2 ^ k) seed * 2 ^ 16 + c mod 2 ^ 16 < 2 ^ (k + 16))
    by (rewrite Z.pow_add_r by lia; lia).
  assert (2 ^ (k + 16) <= 2 ^ 32) by (apply Z.pow_le_mono_r; lia).
  rewrite Z.mod_small by lia. split; [reflexivity|lia].
Qed.

Lemma zone_slot_inj k seed x y :
  0 <= k <= 16 -> zone_slot (2 ^ k) seed x = zone_slot (2 ^ k) seed y ->
  x mod 2 ^ (k + 16) = y mod 2 ^ (k + 16).
Proof.
  intros Hk. rewrite (proj1 (zone_slot_eq k seed x Hk)), (proj1 (zone_slot_eq k seed y Hk)).
  pose proof (Z.mod_pos_bound x (2 ^ 16) ltac:(lia)).
  pose proof (Z.mod_pos_bound y (2 ^ 16) ltac:(lia)). intros E.
  assert (E2 : x mod 2 ^ 16 = y mod 2 ^ 16) by lia.
  assert (E1 : (x / 2 ^ 16) mod 2 ^ k = (y / 2 ^ 16) mod 2 ^ k)
    by (apply (permute_zone_inj k _ _ seed); lia).
  rewrite Z.add_comm, Z.pow_add_r by lia. pose proof (pow2_pos k ltac:(lia)).
  rewrite !Z.rem_mul_r by lia. now rewrite E1, E2.
Qed.

(** ** The hint lists *)

Lemma zone_hints_eq nz seed c n :
  u64 c ->
  zone_hints nz seed c n
  = (fun i => zone_slot nz seed ((c + Z.of_nat i) mod 2 ^ 64)) <$> seq 0 n.
Proof.
  revert c; induction n as [|n IH]; intros c Hc; [reflexivity|]. cbn [zone_hints seq].
  rewrite fmap_cons, Z.add_0_r, (Z.mod_small c) by exact Hc. f_equal.
  rewrite IH by (apply wrapping_range; lia). rewrite <- fmap_S_seq, <- list_fmap_compose.
  apply list_fmap_ext. intros i j _. unfold compose, wrapping_add. f_equal.
  rewrite Zplus_mod_idemp_l. f_equal. lia.
Qed.

(** Images of consecutive values under a map injective modulo [m]. *)
Lemma NoDup_fmap_seq_mod (f : nat -> Z) (c m : Z) (n : nat) :
  0 < m -> Z.of_nat n <= m ->
  (forall i j, f i = f j -> (c + Z.of_nat i) mod m = (c + Z.of_nat j) mod m) ->
  NoDup (f <$> seq 0 n).
Proof.
  intros Hm Hn Hf. apply NoDup_fmap_2_strong; [|apply NoDup_seq].
  intros i j Hi Hj E. rewrite elem_of_seq in Hi, Hj. apply Hf in E.
  assert (D : (m | Z.of_nat i - Z.of_nat j)).
  { apply Z.mod_divide; [lia|].
    replace (Z.of_nat i - Z.of_nat j) with (c + Z.of_nat i - (c + Z.of_nat j)) by lia.
    rewrite Zminus_mod, E, Z.sub_diag. apply Z.mod_0_l. lia. }
  destruct D as [q Hq]. assert (q = 0) by nia. lia.
Qed.

(** A duplicate-free list of [n] values below [n] holds all of them. *)
Lemma NoDup_full (l : list Z) (n : Z) :
  NoDup l -> Forall (fun x => 0 <= x < n) l -> Z.of_nat (length l) = n ->
  forall x, 0 <= x < n -> x ∈ l.
Proof.
  intros Hd Hr Hl x Hx.
  assert (Hs : l ⊆+ seqZ 0 n).
  { apply NoDup_submseteq; [exact Hd|]. intros y Hy. rewrite Forall_forall in Hr.
    apply elem_of_seqZ. specialize (Hr y Hy). lia. }
  rewrite (submseteq_length_Permutation _ _ Hs) by (rewrite length_seqZ; lia).
  apply elem_of_seqZ. lia.
Qed.

Lemma mapM_Some_total {A B} (f : A -> option B) (g : A -> B) l :
  (forall x, x ∈ l -> f x = Some (g x)) -> mapM f l = Some (g <$> l).
Proof.
  intros H. apply mapM_Some. induction l as [|x l IH]; [constructor|].
  constructor; [apply H; left|]. apply IH. intros y Hy. apply H. now right.
Qed.

Lemma filter_insert_spec seen l :
  NoDup (filter_insert seen l)
  /\ forall x, x ∈ filter_insert seen l <-> x ∈ l /\ x ∉ seen.
Proof.
  revert seen; induction l as [|s l IH]; intros seen; cbn [filter_insert].
  - split; [constructor|]. intros x. set_solver.
  - case_bool_decide as Hs.
    + destruct (IH seen) as [H1 H2]. split; [exact H1|]. intros x. rewrite H2. set_solver.
    + destruct (IH ({[s]} ∪ seen)) as [H1 H2]. split.
      * constructor; [|exact H1]. rewrite H2. set_solver.
      * intros x. rewrite elem_of_cons, H2. destruct (decide (x = s)); set_solver.
Qed.

(** ** Theorems *)

(** splitmix64 is a bijection of the 64-bit words: outputs are 64-bit and
    two states with the same output are the same state. *)
Theorem splitmix64_bijective :
  (forall s, u64 (splitmix64 s).2)
  /\ forall x y, u64 x -> u64 y -> (splitmix64 x).2 = (splitmix64 y).2 -> x = y.
Proof. split; [exact splitmix64_range|exact splitmix64_output_inj]. Qed.

(** Production slot hints are duplicate free and in range: for a state
    deeper than one segment any run of at most [2^log_slots] hints consists of
    that many distinct slots below [2^log_slots], so a full cycle visits every
    slot exactly once. *)
Theorem slot_hints_distinct (alloc_counter log_slots : Z) (count : nat) :
  u64 alloc_counter -> 16 < log_slots <= LOG_SLOTS_MAX -> Z.of_nat count <= 2 ^ log_slots ->
  let hints := generate_slot_hints alloc_counter log_slots count in
  length hints = count /\ NoDup hints /\ Forall (fun s => 0 <= s < 2 ^ log_slots) hints
  /\ (Z.of_nat count = 2 ^ log_slots -> forall s, 0 <= s < 2 ^ log_slots -> s ∈ hints).
Proof.
  intros Hc Hl Hn hints. unfold LOG_SLOTS_MAX in Hl. set (k := log_slots - 16).
  assert (Hk : 0 <= k <= 16) by (unfold k; lia).
  assert (El : log_slots = k + 16) by (unfold k; lia).
  assert (E : hints = (fun i => zone_slot (2 ^ k) (zone_perm_seed log_slots)
                         ((alloc_counter + Z.of_nat i) mod 2 ^ 64)) <$> seq 0 count).
  { unfold hints, generate_slot_hints, ZONE_CAPACITY.
    rewrite (proj2 (Z.leb_gt _ _)) by (apply Z.pow_lt_mono_r; lia).
    replace (2 ^ log_slots / 2 ^ 16) with (2 ^ k) by (apply Z.pow_sub_r; lia).
    now apply zone_hints_eq. }
  assert (Hlen : length hints = count) by (rewrite E, length_fmap, length_seq; reflexivity).
  assert (Hnd : NoDup hints).
  { rewrite E. apply (NoDup_fmap_seq_mod _ alloc_counter (2 ^ log_slots));
      [apply pow2_pos; lia|exact Hn|]. intros i j H.
    apply zone_slot_inj in H; [|exact Hk]. rewrite <- El in H.
    now rewrite !mod_mod_pow2 in H by lia. }
  assert (Hr : Forall (fun s => 0 <= s < 2 ^ log_slots) hints).
  { rewrite E, El. apply Forall_fmap, Forall_forall. intros i _. now apply zone_slot_eq. }
  split; [exact Hlen|]. split; [exact Hnd|]. split; [exact Hr|].
  intros Hf. apply NoDup_full; [exact Hnd|exact Hr|]. lia.
Qed.

Lemma slot_hints_witness : NoDup (generate_slot_hints 131070 24 5).
Proof.
  apply (slot_hints_distinct 131070 24 5); [unfold in_range; lia|unfold LOG_SLOTS_MAX; lia|].
  vm_compute. discriminate.
Defined.

(** The segment probe is total, duplicate free and complete: on a state of
    [2^log_slots] slots it returns [min count (2^(log_slots-16))] distinct
    segment ids without panicking, and a probe as long as the number of segments
    visits every segment. *)
Theorem segment_probe_complete (alloc_counter log_slots : Z) (count : nat) :
  u64 alloc_counter -> 16 < log_slots <= LOG_SLOTS_MAX -> (0 < count)%nat ->
  let zones := 2 ^ (log_slots - 16) in
  exists hints, generate_zone_segment_hints alloc_counter log_slots count = Some hints
    /\ Z.of_nat (length hints) = Z.min (Z.of_nat count) zones
    /\ NoDup hints /\ Forall (fun s => 0 <= s < zones) hints
    /\ (zones <= Z.of_nat count -> forall s, 0 <= s < zones -> s ∈ hints).
Proof.
  intros Hc Hl Hn zones. unfold LOG_SLOTS_MAX in Hl. set (k := log_slots - 16) in zones.
  assert (Hk : 0 <= k <= 16) by (unfold k; lia).
  pose proof (pow2_pos k ltac:(lia)) as Hz. fold zones in Hz.
  set (g := fun offset => permute_zone (wrapping_add 64 (alloc_counter / ZONE_CAPACITY)
              (Z.of_nat offset)) zones (zone_perm_seed log_slots)).
  exists (g <$> seq 0 (Nat.min count (Z.to_nat zones))).
  assert (Hr : forall i, 0 <= g i < zones) by (intros i; unfold g, zones; apply permute_zone_range; lia).
  assert (Hz16 : zones <= 2 ^ 16) by (apply Z.pow_le_mono_r; lia).
  assert (HF : Forall (fun s => 0 <= s < zones) (g <$> seq 0 (Nat.min count (Z.to_nat zones))))
    by (apply Forall_fmap, Forall_forall; intros i _; apply Hr).
  assert (Hlen : Z.of_nat (length (g <$> seq 0 (Nat.min count (Z.to_nat zones))))
                 = Z.min (Z.of_nat count) zones)
    by (rewrite length_fmap, length_seq; lia).
  assert (Hnd : NoDup (g <$> seq 0 (Nat.min count (Z.to_nat zones)))).
  { apply (NoDup_fmap_seq_mod _ (alloc_counter / ZONE_CAPACITY) zones); [lia..|].
    intros i j H. apply permute_zone_inj in H; [|lia]. unfold wrapping_add in H.
    now rewrite !mod_mod_pow2 in H by lia. }
  split; [|split; [exact Hlen|]; split; [exact Hnd|]; split; [exact HF|]].
  - unfold generate_zone_segment_hints. fold k. fold zones.
    rewrite (proj2 (Nat.eqb_neq count 0)), (proj2 (Z.leb_gt log_slots 16)) by lia.
    apply mapM_Some_total. intros i _. unfold zone_segment. change (permute_zone _ _ _) with (g i).
    specialize (Hr i). rewrite (proj2 (Z.ltb_lt _ _)) by lia. reflexivity.
  - intros Hf. apply NoDup_full; [exact Hnd|exact HF|]. lia.
Qed.

Lemma segment_probe_witness :
  exists hints, generate_zone_segment_hints 7000000 18 9 = Some hints /\ 3 ∈ hints.
Proof.
  destruct (segment_probe_complete 7000000 18 9) as (hints & H & _ & _ & _ & Hall);
    [unfold in_range; lia|unfold LOG_SLOTS_MAX; lia|lia|].
  exists hints. split; [exact H|]. apply Hall; vm_compute; [discriminate|].
  split; [discriminate|reflexivity].
Defined.
