(* ===== verification/Assembly.v ===== *)
(** * Block assembly and per-transaction checks

    [noid_chain/src/consensus/conflict.rs] (which of the candidates that mint the
    same slot is kept), [ordering.rs] (the canonical order of a template) and
    [checks.rs] (the per-transaction rules and the block-wide slot rule). *)

From Stdlib Require Import ZArith Lia Sorted.
From stdpp Require Import base numbers list option gmap sorting.
From S2P Require Import Prelude Params Tx Rules.

Open Scope Z_scope.

(** ** Order of byte arrays *)

(** [Ord] of [[u8; 32]]: lexicographic. *)
Fixpoint bytes_cmp (a b : list Z) : comparison :=
  match a, b with
  | [], [] => Eq
  | [], _ :: _ => Lt
  | _ :: _, [] => Gt
  | x :: a', y :: b' =>
      match x ?= y with
      | Eq => bytes_cmp a' b'
      | c => c
      end
  end.

Definition bytes_lt (a b : list Z) : bool :=
  match bytes_cmp a b with Lt => true | _ => false end.

(** ** Sorting *)

(** [slice::sort_by]: the stable sort. *)
Fixpoint sort_insert {A} (cmp : A -> A -> comparison) (x : A) (l : list A) : list A :=
  match l with
  | [] => [x]
  | y :: l' => match cmp x y with Gt => y :: sort_insert cmp x l' | _ => x :: l end
  end.

Definition sort_by {A} (cmp : A -> A -> comparison) (l : list A) : list A :=
  foldr (sort_insert cmp) [] l.

Section WithTxHash.
(** [hash_tx8x2_leaves] of the hash crate. *)
Variable hash_tx8x2_leaves : list (Z * Z) -> list Z.

Definition txid (tx : TxBody) : list Z := hash_tx_body hash_tx8x2_leaves tx.

(** ** Slot conflicts between candidates *)

(** [best.entry(slot).or_insert((txid, i))] and the conditional overwrite. *)
Definition claim_slot (id : list Z) (i : nat) (best : gmap Z (list Z * nat))
    (p : nat * TxOutput) : gmap Z (list Z * nat) :=
  let slot := out_slot_index p.2 in
  let entry := default (id, i) (best !! slot) in
  <[slot := if bytes_lt id entry.1 then (id, i) else entry]> best.

Definition best_claims (txs : list TxBody) : gmap Z (list Z * nat) :=
  foldl (fun best p => foldl (claim_slot (txid p.2) p.1) best (live_outputs p.2))
    ∅ (enumerate txs).

(** Membership in [loser_indices]. *)
Definition loses (best : gmap Z (list Z * nat)) (p : nat * TxBody) : bool :=
  existsb (fun out =>
    match best !! out_slot_index out.2 with
    | Some (_, winner_idx) => negb (winner_idx =? p.1)%nat
    | None => false
    end) (live_outputs p.2).

Definition resolve_slot_conflicts (txs : list TxBody) : list TxBody * list (list Z) :=
  let best := best_claims txs in
  (snd <$> filter (fun p => loses best p = false) (enumerate txs),
   (fun p => txid p.2) <$> filter (fun p => loses best p = true) (enumerate txs)).

(** ** Canonical order *)

Definition block_tx_cmp (a b : TxBody) : comparison :=
  match is_coinbase a, is_coinbase b with
  | true, false => Lt
  | false, true => Gt
  | _, _ =>
      match fee b ?= fee a with
      | Eq => bytes_cmp (txid a) (txid b)
      | c => c
      end
  end.

Definition order_block_txs (txs : list TxBody) : list TxBody := sort_by block_tx_cmp txs.
End WithTxHash.

(** ** Checks *)

Definition validate_tx_consensus (tx : TxBody) : result ConsensusError unit :=
  _ ← map_err (fun e => ShapeMismatch (BodySemantics e)) (validate_body_semantics_no_hash tx);
  _ ← ensure (negb (negb (is_coinbase tx) && bool_decide (epoch_anchor tx = ZERO_DIGEST)))
        BadEpochAnchor;
  Ok tt.

Definition touch_slot (touched : gset Z) (slot : Z) : result ConsensusError (gset Z) :=
  if bool_decide (slot ∈ touched) then Err SlotConflict else Ok ({[slot]} ∪ touched).

Definition touch_tx (touched : gset Z) (tx : TxBody) : result ConsensusError (gset Z) :=
  touched ← fold_result (fun s p => touch_slot s (in_slot_index p.2)) touched (live_inputs tx);
  fold_result (fun s p => touch_slot s (out_slot_index p.2)) touched (live_outputs tx).

Definition validate_block_slot_conflicts (txs : list TxBody) : result ConsensusError unit :=
  _ ← fold_result touch_tx ∅ txs;
  Ok tt.

(** ** Lemmas: the byte order *)

Lemma bytes_cmp_eq a b : bytes_cmp a b = Eq <-> a = b.
Proof.
  revert b; induction a as [|x a IH]; intros [|y b]; cbn; try (split; congruence).
  destruct (Z.compare_spec x y) as [->|H|H]; [rewrite IH|..]; (split; [try congruence|]);
    intros [=]; subst; lia || congruence.
Qed.

Lemma bytes_cmp_opp a b : bytes_cmp b a = CompOpp (bytes_cmp a b).
Proof.
  revert b; induction a as [|x a IH]; intros [|y b]; cbn; try reflexivity.
  rewrite (Z.compare_antisym x y). destruct (x ?= y); cbn; auto.
Qed.

Lemma bytes_cmp_trans a b c : bytes_cmp a b = Lt -> bytes_cmp b c = Lt -> bytes_cmp a c = Lt.
Proof.
  revert b c; induction a as [|x a IH]; intros [|y b] [|z c]; cbn; try congruence.
  destruct (Z.compare_spec x y), (Z.compare_spec y z); try congruence; intros H1 H2; subst.
  - rewrite Z.compare_refl. eauto.
  - now rewrite (proj2 (Z.compare_lt_iff _ _)) by lia.
  - now rewrite (proj2 (Z.compare_lt_iff _ _)) by lia.
  - now rewrite (proj2 (Z.compare_lt_iff _ _)) by lia.
Qed.

Lemma bytes_lt_cmp a b : bytes_lt a b = true <-> bytes_cmp a b = Lt.
Proof. unfold bytes_lt. destruct (bytes_cmp a b); split; congruence. Qed.

Lemma bytes_lt_trans a b c : bytes_lt a b = true -> bytes_lt b c = true -> bytes_lt a c = true.
Proof. rewrite !bytes_lt_cmp. apply bytes_cmp_trans. Qed.

Lemma bytes_lt_irrefl a : bytes_lt a a = false.
Proof. unfold bytes_lt. now rewrite (proj2 (bytes_cmp_eq a a) eq_refl). Qed.

Lemma bytes_lt_asym a b : bytes_lt a b = true -> bytes_lt b a = false.
Proof.
  intros H. destruct (bytes_lt b a) eqn:E; [|reflexivity].
  pose proof (bytes_lt_trans _ _ _ H E) as C. now rewrite bytes_lt_irrefl in C.
Qed.

Lemma bytes_lt_total a b : bytes_lt a b = false -> a = b \/ bytes_lt b a = true.
Proof.
  unfold bytes_lt. rewrite (bytes_cmp_opp a b). destruct (bytes_cmp a b) eqn:E; cbn.
  - apply bytes_cmp_eq in E. auto.
  - congruence.
  - auto.
Qed.

#[export] Hint Resolve bytes_lt_trans bytes_lt_asym : noid.

(** A non-empty list has an element of minimal key. *)
Lemma exists_min {A} (key : A -> list Z) (l : list A) :
  l <> [] -> exists m, m ∈ l /\ forall x, x ∈ l -> bytes_lt (key x) (key m) = false.
Proof.
  induction l as [|a [|b l] IH]; [congruence|intros _|intros _].
  - exists a. split; [left|]. intros x Hx%list_elem_of_singleton. subst. apply bytes_lt_irrefl.
  - destruct IH as (m & Hm & Hmin); [discriminate|].
    destruct (bytes_lt (key a) (key m)) eqn:E.
    + exists a. split; [left|]. intros x [->|Hx]%elem_of_cons; [apply bytes_lt_irrefl|].
      destruct (bytes_lt (key x) (key a)) eqn:Ex; [|reflexivity].
      rewrite <- (Hmin x Hx). symmetry. eauto using bytes_lt_trans.
    + exists m. split; [now right|]. intros x [->|Hx]%elem_of_cons; auto.
Qed.

(** ** Lemmas: claims *)

Lemma enumerate_snd {A} (l : list A) : snd <$> enumerate l = l.
Proof.
  apply list_eq. intros i. unfold enumerate. rewrite list_lookup_fmap, list_lookup_imap.
  now destruct (l !! i).
Qed.

Definition out_slots (tx : TxBody) : list Z := (fun p => out_slot_index p.2) <$> live_outputs tx.
Definition in_slots (tx : TxBody) : list Z := (fun p => in_slot_index p.2) <$> live_inputs tx.

Section Claims.
Variable h : list (Z * Z) -> list Z.

(** A claim is a slot with the id and the index of a candidate. *)
Definition claims (txs : list TxBody) : list (Z * (list Z * nat)) :=
  enumerate txs ≫= fun p => (fun s => (s, (txid h p.2, p.1))) <$> out_slots p.2.

Definition add_claim (best : gmap Z (list Z * nat)) (c : Z * (list Z * nat))
  : gmap Z (list Z * nat) :=
  let entry := default c.2 (best !! c.1) in
  <[c.1 := if bytes_lt c.2.1 entry.1 then c.2 else entry]> best.

Lemma best_claims_eq txs : best_claims h txs = foldl add_claim ∅ (claims txs).
Proof.
  unfold best_claims, claims. generalize (∅ : gmap Z (list Z * nat)).
  induction (enumerate txs) as [|[i tx] l IH]; intros b; [reflexivity|].
  cbn [foldl bind_cons]. rewrite bind_cons, foldl_app, <- IH. f_equal.
  unfold out_slots. cbn [fst snd]. revert b.
  induction (live_outputs tx) as [|p l' IH']; intros b; [reflexivity|]. cbn. apply IH'.
Qed.

Lemma claims_elem txs s id i :
  (s, (id, i)) ∈ claims txs
  <-> exists tx, txs !! i = Some tx /\ id = txid h tx /\ s ∈ out_slots tx.
Proof.
  unfold claims. rewrite list_elem_of_bind. split.
  - intros ([j tx] & Hin & Hl%enumerate_elem). apply list_elem_of_fmap in Hin as (s' & [= -> -> ->] & Hs).
    cbn in *. eauto.
  - intros (tx & Hl & -> & Hs). exists (i, tx). split; [|now apply enumerate_elem].
    apply list_elem_of_fmap. eauto.
Qed.

(** Distinct ids determine the claimant. *)
Definition functional (cl : list (Z * (list Z * nat))) : Prop :=
  forall c c', c ∈ cl -> c' ∈ cl -> c.2.1 = c'.2.1 -> c.2 = c'.2.

Definition best_of (cl : list (Z * (list Z * nat))) (s : Z) (w : list Z * nat) : Prop :=
  (s, w) ∈ cl /\ forall w', (s, w') ∈ cl -> w' = w \/ bytes_lt w.1 w'.1 = true.

Lemma foldl_add_claim cl :
  functional cl ->
  forall s, match foldl add_claim ∅ cl !! s with
            | Some w => best_of cl s w
            | None => forall w, (s, w) ∉ cl
            end.
Proof.
  induction cl as [|[s w] cl IH] using rev_ind; intros Hf t.
  { cbn. rewrite lookup_empty. intros w Hw. inversion Hw. }
  assert (Hf' : functional cl).
  { intros c c' H1 H2. apply Hf; apply elem_of_app; auto. }
  specialize (IH Hf'). rewrite foldl_app. cbn [foldl]. unfold add_claim at 1. cbn [fst snd].
  destruct (decide (t = s)) as [->|Hne].
  2:{ rewrite lookup_insert_ne by congruence. specialize (IH t).
      destruct (foldl add_claim ∅ cl !! t) as [w'|].
      - destruct IH as [H1 H2]. split; [apply elem_of_app; auto|].
        intros w'' [Hw|Hw%list_elem_of_singleton]%elem_of_app; [auto|congruence].
      - intros w' [Hw|Hw%list_elem_of_singleton]%elem_of_app; [exact (IH _ Hw)|congruence]. }
  rewrite lookup_insert_eq. specialize (IH s).
  destruct (foldl add_claim ∅ cl !! s) as [e|]; cbn [default from_option id].
  - destruct IH as [He Hmin]. destruct (bytes_lt w.1 e.1) eqn:Elt.
    + split; [apply elem_of_app; right; left|].
      intros w' [Hw|Hw%list_elem_of_singleton]%elem_of_app; [|left; congruence]. right.
      destruct (Hmin w' Hw) as [->|]; eauto with noid.
    + split; [apply elem_of_app; auto|].
      intros w' [Hw|[= ->]%list_elem_of_singleton]%elem_of_app; [auto|].
      destruct (bytes_lt_total _ _ Elt) as [Heq|]; [left|auto].
      apply (Hf (s, w) (s, e)); [apply elem_of_app; right; left|apply elem_of_app; auto|exact Heq].
  - assert (Hs : best_of (cl ++ [(s, w)]) s w).
    { split; [apply elem_of_app; right; left|].
      intros w' [Hw|Hw%list_elem_of_singleton]%elem_of_app; [now apply IH in Hw|left; congruence]. }
    now destruct (bytes_lt w.1 w.1).
Qed.

Lemma claims_functional txs : NoDup (txid h <$> txs) -> functional (claims txs).
Proof.
  intros Hnd [s [id i]] [s' [id' i']] H1 H2 E. cbn in *. subst id'.
  apply claims_elem in H1 as (tx & H1 & -> & _), H2 as (tx' & H2 & E & _).
  f_equal. apply (NoDup_lookup _ _ _ (txid h tx) Hnd); rewrite list_lookup_fmap.
  - now rewrite H1.
  - now rewrite H2, E.
Qed.

(** [tx] is the candidate of least id on every slot it mints. *)
Definition wins (txs : list TxBody) (tx : TxBody) : Prop :=
  forall s tx', s ∈ out_slots tx -> tx' ∈ txs -> s ∈ out_slots tx' ->
    tx' = tx \/ bytes_lt (txid h tx) (txid h tx') = true.

Lemma loses_wins txs i tx :
  NoDup (txid h <$> txs) -> txs !! i = Some tx ->
  loses (best_claims h txs) (i, tx) = false <-> wins txs tx.
Proof.
  intros Hnd Hi. pose proof (foldl_add_claim _ (claims_functional txs Hnd)) as HB.
  rewrite best_claims_eq. unfold loses. cbn [fst snd].
  rewrite <- not_true_iff_false, existsb_exists. split.
  - intros Hn s tx' Hs Htx' Hs'. apply list_elem_of_lookup in Htx' as [j Hj].
    specialize (HB s). destruct (foldl add_claim ∅ (claims txs) !! s) as [[id w]|] eqn:Eb;
      [|exfalso; apply (HB (txid h tx, i)), claims_elem; eauto].
    assert (w = i) as ->.
    { apply list_elem_of_fmap in Hs as (p & -> & Hp).
      destruct (Nat.eqb_spec w i) as [|Hwi]; [assumption|]. exfalso. apply Hn.
      exists p. rewrite Eb. split; [now apply list_elem_of_In|]. now apply negb_true_iff, Nat.eqb_neq. }
    destruct HB as [Hin Hmin]. apply claims_elem in Hin as (tx0 & Hi' & -> & _).
    rewrite Hi in Hi'. injection Hi' as <-.
    destruct (Hmin (txid h tx', j)) as [[= E ->]|]; [apply claims_elem; eauto| |auto].
    left. congruence.
  - intros Hw (p & Hp%list_elem_of_In & Hl). specialize (HB (out_slot_index p.2)).
    destruct (foldl add_claim ∅ (claims txs) !! out_slot_index p.2) as [[id w]|]; [|discriminate].
    apply negb_true_iff, Nat.eqb_neq in Hl. destruct HB as [Hin Hmin].
    assert (Hs : out_slot_index p.2 ∈ out_slots tx)
      by (apply (list_elem_of_fmap_2 (fun p => out_slot_index p.2)); exact Hp).
    destruct (Hmin (txid h tx, i)) as [[= <- <-]|Hlt]; [apply claims_elem; eauto|congruence|].
    apply claims_elem in Hin as (tx' & Hj & -> & Hs').
    destruct (Hw _ tx' Hs) as [->|Hlt']; [eapply list_elem_of_lookup_2; eauto|exact Hs'| |].
    + cbn in Hlt. now rewrite bytes_lt_irrefl in Hlt.
    + cbn in Hlt. apply bytes_lt_asym in Hlt. congruence.
Qed.
End Claims.

(** ** Lemmas: the canonical order *)

Section Sorting.
Context {A : Type} (cmp : A -> A -> comparison).
Definition cmp_le (x y : A) : Prop := cmp x y <> Gt.
Hypothesis cmp_total : forall x y, cmp_le x y \/ cmp_le y x.
Hypothesis cmp_le_trans : forall x y z, cmp_le x y -> cmp_le y z -> cmp_le x z.

Lemma sort_insert_perm x l : sort_insert cmp x l ≡ₚ x :: l.
Proof.
  induction l as [|y l IH]; cbn; [reflexivity|].
  destruct (cmp x y); [reflexivity..|]. rewrite IH. apply Permutation_swap.
Qed.

Lemma sort_by_perm l : sort_by cmp l ≡ₚ l.
Proof.
  induction l as [|x l IH]; [reflexivity|]. cbn. rewrite sort_insert_perm.
  now apply Permutation_skip.
Qed.

Lemma sort_insert_sorted x l :
  StronglySorted cmp_le l -> StronglySorted cmp_le (sort_insert cmp x l).
Proof.
  induction 1 as [|y l Hs IH Hy]; cbn; [repeat constructor|].
  assert (Hle : cmp_le x y -> StronglySorted cmp_le (x :: y :: l)).
  { intros H. constructor; [constructor; assumption|]. constructor; [exact H|].
    eapply Forall_impl; [exact Hy|]. eauto. }
  destruct (cmp x y) eqn:E; [apply Hle; unfold cmp_le; congruence..|].
  constructor; [exact IH|]. rewrite sort_insert_perm. constructor; [|exact Hy].
  destruct (cmp_total x y) as [H|H]; [now apply H in E|exact H].
Qed.

Lemma sort_by_sorted l : StronglySorted cmp_le (sort_by cmp l).
Proof. induction l as [|x l IH]; cbn; [constructor|]. now apply sort_insert_sorted. Qed.
End Sorting.

Section Order.
Variable h : list (Z * Z) -> list Z.
Notation block_le := (cmp_le (block_tx_cmp h)).

(** The order as a lexicographic condition. *)
Lemma block_tx_le_iff a b :
  block_le a b <->
  (is_coinbase a = true /\ is_coinbase b = false)
  \/ (is_coinbase a = is_coinbase b
      /\ (fee b < fee a \/ (fee a = fee b /\ bytes_lt (txid h b) (txid h a) = false))).
Proof.
  unfold cmp_le, block_tx_cmp, bytes_lt. rewrite (bytes_cmp_opp (txid h a) (txid h b)).
  destruct (is_coinbase a), (is_coinbase b), (Z.compare_spec (fee b) (fee a));
    destruct (bytes_cmp (txid h a) (txid h b)); cbn; intuition (try congruence; try lia).
Qed.

Lemma block_le_total a b : block_le a b \/ block_le b a.
Proof.
  rewrite !block_tx_le_iff.
  destruct (is_coinbase a), (is_coinbase b); auto;
    destruct (Z.lt_trichotomy (fee a) (fee b)) as [|[|]];
    destruct (bytes_lt (txid h a) (txid h b)) eqn:E;
    try (apply bytes_lt_asym in E); intuition auto with zarith.
Qed.

Lemma bytes_le_trans a b c :
  bytes_lt b a = false -> bytes_lt c b = false -> bytes_lt c a = false.
Proof.
  intros H1 H2. destruct (bytes_lt_total _ _ H1) as [->|G1]; [exact H2|].
  destruct (bytes_lt_total _ _ H2) as [->|G2]; [exact H1|]. eauto with noid.
Qed.

Lemma block_le_trans a b c : block_le a b -> block_le b c -> block_le a c.
Proof.
  rewrite !block_tx_le_iff.
  intros [[-> ->]|[-> Hf]] [[E1 E2]|[E1 Hg]]; rewrite ?E1 in *; rewrite ?E2; auto;
    try discriminate.
  right. split; [reflexivity|].
  destruct Hf as [?|[? ?]], Hg as [?|[? ?]]; [left; lia..|].
  right. split; [lia|]. eauto using bytes_le_trans.
Qed.

Lemma block_le_antisymm a b : block_le a b -> block_le b a -> txid h a = txid h b.
Proof.
  rewrite !block_tx_le_iff.
  intros [[-> ->]|[-> Hf]] [[E1 E2]|[E1 Hg]]; try congruence.
  destruct Hf as [?|[? H1]], Hg as [?|[? H2]]; try lia.
  destruct (bytes_lt_total _ _ H1) as [?|G]; congruence.
Qed.
End Order.

(** ** Theorems *)

(** Conflict resolution keeps exactly the unbeaten candidates.  For
    candidates with distinct ids a transaction is kept exactly when on every
    slot it mints it has the least id of all candidates that mint that slot;
    the kept ones keep their order and mint pairwise disjoint slots, the rest
    are reported by id, and a non-empty candidate list never loses everything. *)
Theorem resolve_conflicts_argmin h (txs : list TxBody) :
  NoDup (txid h <$> txs) ->
  let '(winners, losers) := resolve_slot_conflicts h txs in
  (forall tx, tx ∈ winners <-> tx ∈ txs /\ wins h txs tx)
  /\ (forall id, id ∈ losers <-> exists tx, tx ∈ txs /\ tx ∉ winners /\ id = txid h tx)
  /\ sublist winners txs
  /\ (forall tx tx' s, tx ∈ winners -> tx' ∈ winners ->
        s ∈ out_slots tx -> s ∈ out_slots tx' -> tx = tx')
  /\ (txs <> [] -> winners <> []).
Proof.
  intros Hnd. unfold resolve_slot_conflicts. set (best := best_claims h txs).
  set (winners := snd <$> _). set (losers := _ <$> _).
  assert (HW : forall tx, tx ∈ winners <-> tx ∈ txs /\ wins h txs tx).
  { intros tx. unfold winners. rewrite list_elem_of_fmap. split.
    - intros ([i tx'] & -> & [Hl Hi%enumerate_elem]%list_elem_of_filter). cbn in *.
      split; [eapply list_elem_of_lookup_2; eauto|]. eapply loses_wins; eauto.
    - intros [[i Hi]%list_elem_of_lookup Hw]. exists (i, tx). split; [reflexivity|].
      apply list_elem_of_filter. split; [now apply loses_wins|now apply enumerate_elem]. }
  split; [exact HW|]. split; [|split; [|split]].
  - intros id. unfold losers. rewrite list_elem_of_fmap. split.
    + intros ([i tx'] & -> & [Hl Hi%enumerate_elem]%list_elem_of_filter). cbn in *.
      exists tx'. split; [eapply list_elem_of_lookup_2; eauto|]. split; [|reflexivity].
      rewrite HW. intros [_ Hw]. eapply loses_wins in Hw; eauto. fold best in Hw. congruence.
    + intros (tx & [i Hi]%list_elem_of_lookup & Hn & ->). exists (i, tx). split; [reflexivity|].
      apply list_elem_of_filter. split; [|now apply enumerate_elem].
      destruct (loses best (i, tx)) eqn:E; [reflexivity|]. exfalso. apply Hn, HW.
      split; [eapply list_elem_of_lookup_2; eauto|]. eapply loses_wins; eauto.
  - unfold winners. replace txs with (snd <$> enumerate txs) at 2.
    + apply fmap_sublist, sublist_filter.
    + apply enumerate_snd.
  - intros tx tx' s [Ht Hw]%HW [Ht' Hw']%HW Hs Hs'.
    destruct (Hw s tx' Hs Ht' Hs') as [|H1]; [congruence|].
    destruct (Hw' s tx Hs' Ht Hs) as [|H2]; [congruence|].
    apply bytes_lt_asym in H1. congruence.
  - intros Hne. destruct (exists_min (txid h) txs Hne) as (m & Hm & Hmin).
    intros E. assert (Hin : m ∈ winners); [|rewrite E in Hin; inversion Hin].
    apply HW. split; [exact Hm|]. intros s tx' _ Htx' _.
    destruct (bytes_lt_total _ _ (Hmin tx' Htx')) as [Heq|]; [left|auto].
    apply list_elem_of_lookup in Htx' as [i Hi], Hm as [j Hj].
    assert (i = j); [|congruence].
    apply (NoDup_lookup _ _ _ (txid h m) Hnd); rewrite list_lookup_fmap.
    + rewrite Hi. cbn. now rewrite Heq.
    + now rewrite Hj.
Qed.

Lemma resolve_conflicts_witness :
  let h := fun leaves : list (Z * Z) => [Z.of_nat (length leaves); fst (default (0, 0) (head leaves))] in
  resolve_slot_conflicts h [example_body] = ([example_body], [])
  /\ example_body ∈ (resolve_slot_conflicts h [example_body]).1.
Proof.
  intros h. assert (E : resolve_slot_conflicts h [example_body] = ([example_body], []))
    by (vm_compute; reflexivity).
  split; [exact E|].
  pose proof (resolve_conflicts_argmin h [example_body] ltac:(apply NoDup_singleton)) as H.
  rewrite E in H |- *. cbn [fst]. destruct H as (H & _).
  apply H. apply H. left.
Defined.

(** The canonical order is a function of the set of transactions: the
    result is a permutation of the input, coinbases come first, then fees
    descend, then ids ascend; two miners that hold the same transactions (with
    distinct ids) in any order build the same sequence. *)
Theorem order_block_txs_canonical h (txs txs' : list TxBody) :
  NoDup (txid h <$> txs) -> txs ≡ₚ txs' ->
  order_block_txs h txs ≡ₚ txs
  /\ StronglySorted (fun a b =>
       (is_coinbase a = true /\ is_coinbase b = false)
       \/ (is_coinbase a = is_coinbase b
           /\ (fee b < fee a \/ (fee a = fee b /\ bytes_lt (txid h b) (txid h a) = false))))
       (order_block_txs h txs)
  /\ order_block_txs h txs = order_block_txs h txs'.
Proof.
  intros Hnd Hp.
  assert (Hs : forall l, StronglySorted (cmp_le (block_tx_cmp h)) (order_block_txs h l))
    by (intros l; apply sort_by_sorted; [apply block_le_total|apply block_le_trans]).
  assert (HP : forall l, order_block_txs h l ≡ₚ l) by (intros l; apply sort_by_perm).
  split; [apply HP|]. split.
  - specialize (Hs txs). induction Hs as [|a l Hs IH Ha]; constructor; [exact IH|].
    eapply Forall_impl; [exact Ha|]. intros b. apply block_tx_le_iff.
  - apply (StronglySorted_unique_strong (cmp_le (block_tx_cmp h))); [|apply Hs..|].
    + intros x y Hx Hy H1 H2. rewrite HP in Hx, Hy. rewrite <- Hp in Hy.
      apply (block_le_antisymm h x y H1) in H2.
      apply list_elem_of_lookup in Hx as [i Hi], Hy as [j Hj].
      assert (i = j); [|congruence].
      apply (NoDup_lookup _ _ _ (txid h y) Hnd); rewrite list_lookup_fmap.
      * rewrite Hi. cbn. now rewrite H2.
      * now rewrite Hj.
    + now rewrite !HP.
Qed.

Lemma order_block_txs_witness :
  order_block_txs (fun _ => [7]) [example_body] = order_block_txs (fun _ => [7]) [example_body].
Proof.
  apply (order_block_txs_canonical (fun _ => [7]) [example_body] [example_body]);
    [apply NoDup_singleton|reflexivity].
Defined.

(** ** The block-wide slot rule *)

Definition touched_slots (tx : TxBody) : list Z := in_slots tx ++ out_slots tx.

Lemma touch_tx_iff s0 tx s : touch_tx s0 tx = Ok s <-> fresh_into (touched_slots tx) s0 s.
Proof.
  unfold touch_tx, touched_slots, in_slots, out_slots. rewrite fresh_into_app, bind_ok_iff.
  setoid_rewrite (fold_result_fresh (fun p => in_slot_index p.2) (fun _ => SlotConflict));
    [|reflexivity].
  now setoid_rewrite (fold_result_fresh (fun p => out_slot_index p.2) (fun _ => SlotConflict)).
Qed.

(** A block passes the slot rule exactly when all live inputs and outputs
    of all its transactions touch pairwise different slots; so no slot is spent
    twice, minted twice, or spent and minted in one block. *)
Theorem slot_rule_iff (txs : list TxBody) :
  validate_block_slot_conflicts txs = Ok tt <-> NoDup (txs ≫= touched_slots).
Proof.
  unfold validate_block_slot_conflicts. rewrite bind_ok_iff.
  setoid_rewrite (fold_result_fresh_bind touched_slots _ touch_tx_iff). split.
  - intros (s & (H & _) & _). exact H.
  - intros H. exists (list_to_set (txs ≫= touched_slots) ∪ ∅). split; [|reflexivity].
    split; [exact H|]. split; [intros k _; apply not_elem_of_empty|reflexivity].
Qed.
