(* ===== verification/Stream.v ===== *)
(** * The page stream of a block

    [noid_chain/src/consensus/paged_spend.rs] (proof classes, splitting the
    physical page stream into logical spends, block-wide limits) and the system
    records in front of it, [noid_chain/src/block.rs] ([validate_block_page_stream],
    [try_compute_logical_txids]). *)

From Stdlib Require Import ZArith Lia.
From stdpp Require Import base numbers list option gmap.
From S2P Require Import Prelude Params Codec Tx TxWire PagedSpend Rules Assembly.

Open Scope Z_scope.

(** ** Proof classes *)

Inductive BlockProofClass := B25 | B255.

#[export] Instance BlockProofClass_eq_dec : EqDecision BlockProofClass.
Proof. solve_decision. Defined.

Definition BLOCK_PROOF_CLASS_TIERS : list Z := BLOCK_PAGE_CLASS_TIERS.
Definition tier_at (i : nat) : Z := nth i BLOCK_PROOF_CLASS_TIERS 0.

Definition for_page_count (page_count : Z) : option BlockProofClass :=
  if page_count <=? tier_at 0 then Some B25
  else if page_count <=? tier_at 1 then Some B255
  else None.

Definition page_capacity (c : BlockProofClass) : Z :=
  match c with B25 => tier_at 0 | B255 => tier_at 1 end.
Definition live_authorization_capacity (c : BlockProofClass) : Z := page_capacity c.
Definition authorization_tile_capacity (c : BlockProofClass) : Z :=
  match c with B25 => 32 | B255 => 256 end.
Definition input_capacity (c : BlockProofClass) : Z :=
  match c with B25 => 25 * MAX_INPUTS | B255 => BLOCK_MAX_LIVE_INPUTS end.
Definition output_capacity (c : BlockProofClass) : Z :=
  match c with B25 => 25 * MAX_OUTPUTS | B255 => BLOCK_MAX_USER_OUTPUTS end.
Definition outer_m (c : BlockProofClass) : Z := match c with B25 => 22 | B255 => 24 end.

(** ** Facts and errors *)

(** [as u16]. *)
Definition as_u16 (n : Z) : Z := n mod 2 ^ 16.

Record PagedSpendGroupFacts := mkGroupFacts {
  start_page : Z;
  group_page_count : Z;
  spend : PagedSpendFacts
}.

Definition end_page_exclusive (g : PagedSpendGroupFacts) : Z := start_page g + group_page_count g.

Record PagedSpendStreamFacts := mkStreamFacts {
  sf_proof_class : BlockProofClass;
  sf_groups : list PagedSpendGroupFacts;
  sf_page_count : Z;
  sf_logical_count : Z;
  sf_live_inputs : Z;
  sf_live_outputs : Z
}.

Inductive PagedSpendStreamError :=
| Group (e : PagedSpendError)
| BlockPageLimit (actual capacity : Z)
| ProofClassMismatch (expected actual : BlockProofClass)
| UnterminatedGroup (start : nat)
| TooManyGroups (actual capacity : Z)
| BlockInputLimit (actual capacity : Z)
| BlockOutputLimit (actual capacity : Z)
| StreamDuplicateInputSlot (slot : Z)
| StreamDuplicateOutputSlot (slot : Z)
| StreamInputOutputSlotOverlap (slot : Z).

Definition checked_group_sum (groups : list PagedSpendGroupFacts)
    (value : PagedSpendGroupFacts -> Z) : option Z :=
  foldl (fun acc g => sum ← acc; checked_add 64 sum (value g)) (Some 0) groups.

(** The slot sets of the block, extended by one page. *)
Definition insert_input (seen : gset Z) (slot : Z) : result PagedSpendStreamError (gset Z) :=
  if bool_decide (slot ∈ seen) then Err (StreamDuplicateInputSlot slot)
  else Ok ({[slot]} ∪ seen).
Definition insert_output (seen : gset Z) (slot : Z) : result PagedSpendStreamError (gset Z) :=
  if bool_decide (slot ∈ seen) then Err (StreamDuplicateOutputSlot slot)
  else Ok ({[slot]} ∪ seen).

Definition insert_page_slots (sets : gset Z * gset Z) (page : TxBody)
  : result PagedSpendStreamError (gset Z * gset Z) :=
  ins ← fold_result (fun s p => insert_input s (in_slot_index p.2)) sets.1 (live_inputs page);
  outs ← fold_result (fun s p => insert_output s (out_slot_index p.2)) sets.2 (live_outputs page);
  Ok (ins, outs).

Section WithHashes.
Variable hash_tx8x2_leaves : list (Z * Z) -> list Z.
Variable sponge_pairs : list Z -> list (Z * Z) -> list Z.
Abbreviation validate := (validate_paged_spend hash_tx8x2_leaves sponge_pairs).

(** The [while] loop; every round consumes at least one page, so the number of
  pages is enough fuel ([group_loop_iff]). *)
Fixpoint group_loop (fuel : nat) (class : BlockProofClass) (cursor : nat)
    (rest : list TxBody) (groups : list PagedSpendGroupFacts)
  : result PagedSpendStreamError (list PagedSpendGroupFacts) :=
  match rest with
  | [] => Ok groups
  | _ =>
      match fuel with
      | O => Err (UnterminatedGroup cursor)
      | S fuel' =>
          match list_find (fun page => is_end page = true) rest with
          | None => Err (UnterminatedGroup cursor)
          | Some (relative_end, _) =>
              let n := (relative_end + 1)%nat in
              spend ← map_err Group (validate (take n rest));
              let groups := groups ++
                [mkGroupFacts (as_u16 (Z.of_nat cursor)) (as_u16 (Z.of_nat n)) spend] in
              _ ← ensure (Z.of_nat (length groups) <=? live_authorization_capacity class)
                    (TooManyGroups (Z.of_nat (length groups)) (live_authorization_capacity class));
              group_loop fuel' class (cursor + n) (drop n rest) groups
          end
      end
  end.

Definition validate_stream_for_class (pages : list TxBody) (proof_class : BlockProofClass)
  : result PagedSpendStreamError PagedSpendStreamFacts :=
  let n := Z.of_nat (length pages) in
  _ ← ensure (n <=? page_capacity proof_class) (BlockPageLimit n (page_capacity proof_class));
  expected ← ok_or (for_page_count n) (BlockPageLimit n BLOCK_MAX_USER_PAGES);
  _ ← ensure (bool_decide (expected = proof_class)) (ProofClassMismatch expected proof_class);
  groups ← group_loop (length pages) proof_class 0 pages [];
  live_inputs ← ok_or (checked_group_sum groups (fun g => ps_live_inputs (spend g)))
                  (BlockInputLimit (umax 64) (input_capacity proof_class));
  _ ← ensure (live_inputs <=? input_capacity proof_class)
        (BlockInputLimit live_inputs (input_capacity proof_class));
  live_outputs ← ok_or (checked_group_sum groups (fun g => ps_live_outputs (spend g)))
                   (BlockOutputLimit (umax 64) (output_capacity proof_class));
  _ ← ensure (live_outputs <=? output_capacity proof_class)
        (BlockOutputLimit live_outputs (output_capacity proof_class));
  sets ← fold_result insert_page_slots (∅, ∅) pages;
  _ ← (match elements (sets.1 ∩ sets.2) with
       | slot :: _ => Err (StreamInputOutputSlotOverlap slot)
       | [] => Ok tt
       end);
  Ok (mkStreamFacts proof_class groups (as_u16 n) (as_u16 (Z.of_nat (length groups)))
        (as_u16 live_inputs) (as_u16 live_outputs)).

Definition validate_paged_spend_transaction_stream (pages : list TxBody)
  : result PagedSpendStreamError PagedSpendStreamFacts :=
  class ← ok_or (for_page_count (Z.of_nat (length pages)))
            (BlockPageLimit (Z.of_nat (length pages)) BLOCK_MAX_USER_PAGES);
  validate_stream_for_class pages class.
End WithHashes.

(** ** The block body layout *)

Module BPS.
Inductive BlockPageStreamError :=
  | MissingCoinbase
  | CoinbaseNotFirst
  | MultipleCoinbase
  | InvalidPrimaryCoinbase
  | InvalidDevelopmentPayout
  | PagedSpend (e : PagedSpendStreamError).
End BPS.
Abbreviation BlockPageStreamError := BPS.BlockPageStreamError (only parsing).

Record BlockPageStreamFacts := mkBlockStreamFacts {
  bs_proof_class : BlockProofClass;
  bs_groups : list PagedSpendGroupFacts;
  bs_page_count : Z;
  bs_logical_count : Z;
  bs_live_inputs : Z;
  bs_live_outputs : Z;
  has_development_payout : bool;
  user_start_index : nat
}.

Definition system_record_count (f : BlockPageStreamFacts) : Z :=
  if has_development_payout f then 1 else 0.
Definition effective_page_count (f : BlockPageStreamFacts) : Z :=
  bs_page_count f + system_record_count f.
Definition logical_tx_count_including_system (f : BlockPageStreamFacts) : Z :=
  1 + system_record_count f + bs_logical_count f.
Definition user_logical_index (f : BlockPageStreamFacts) (group_index : Z) : Z :=
  1 + system_record_count f + group_index.
Definition user_body_start (f : BlockPageStreamFacts) (user_page_index : Z) : Z :=
  Z.of_nat (user_start_index f) + user_page_index.

(** [txs.get(1).is_some_and(...)]. *)
Definition second_is (p : TxBody -> bool) (txs : list TxBody) : bool :=
  match txs !! 1%nat with Some tx => p tx | None => false end.

Section BlockStream.
Variable hash_tx8x2_leaves : list (Z * Z) -> list Z.
Variable sponge_pairs : list Z -> list (Z * Z) -> list Z.

Definition validate_block_page_stream (txs : list TxBody)
  : result BlockPageStreamError BlockPageStreamFacts :=
  coinbase ← ok_or (head txs) BPS.MissingCoinbase;
  _ ← ensure (is_coinbase coinbase) BPS.CoinbaseNotFirst;
  _ ← ensure (is_primary_coinbase_shape coinbase) BPS.InvalidPrimaryCoinbase;
  let has_development_payout := second_is is_development_payout_shape txs in
  let user_start_index := if has_development_payout then 2%nat else 1%nat in
  _ ← ensure (negb (existsb is_coinbase (drop user_start_index txs))) BPS.MultipleCoinbase;
  _ ← ensure (negb (second_is (fun tx => is_coinbase tx && negb (is_development_payout_shape tx)) txs))
        BPS.InvalidDevelopmentPayout;
  user ← map_err BPS.PagedSpend
           (validate_paged_spend_transaction_stream hash_tx8x2_leaves sponge_pairs
              (drop user_start_index txs));
  let effective_page_count :=
    sf_page_count user + (if has_development_payout then 1 else 0) in
  proof_class ← ok_or (for_page_count effective_page_count)
    (BPS.PagedSpend (BlockPageLimit effective_page_count BLOCK_MAX_USER_PAGES));
  Ok (mkBlockStreamFacts proof_class (sf_groups user) (sf_page_count user)
        (sf_logical_count user) (sf_live_inputs user) (sf_live_outputs user)
        has_development_payout user_start_index).

(** Leaves of the transaction tree; [txs[0]] and [txs[1]] exist when the stream
  is valid. *)
Definition try_compute_logical_txids (txs : list TxBody)
  : result BlockPageStreamError (list (list Z)) :=
  match txs with
  | [] => Ok []
  | _ =>
      stream ← validate_block_page_stream txs;
      Ok ((txid hash_tx8x2_leaves <$> take (user_start_index stream) txs)
          ++ ((fun g => ps_logical_txid (spend g)) <$> bs_groups stream))
  end.
End BlockStream.

(** ** Specification: a stream of valid spends *)

Section Spec.
Variable h : list (Z * Z) -> list Z.
Variable sponge : list Z -> list (Z * Z) -> list Z.

(** Logical spends in order, with their facts. *)
Definition spends : Type := list (list TxBody * PagedSpendFacts).

Definition valid_spends (gs : spends) : Prop :=
  Forall (fun g => validate_paged_spend h sponge g.1 = Ok g.2) gs.

Definition spend_pages (gs : spends) : list TxBody := concat (fst <$> gs).

Fixpoint locate (cursor : nat) (gs : spends) : list PagedSpendGroupFacts :=
  match gs with
  | [] => []
  | g :: gs' =>
      mkGroupFacts (Z.of_nat cursor) (Z.of_nat (length g.1)) g.2
      :: locate (cursor + length g.1) gs'
  end.

Definition total_inputs (gs : spends) : Z := Zsum ((fun g => ps_live_inputs g.2) <$> gs).
Definition total_outputs (gs : spends) : Z := Zsum ((fun g => ps_live_outputs g.2) <$> gs).

(** ** Lemmas: splitting *)

(** In front of anything, a valid spend ends at its first end marker. *)
Lemma valid_group_end g f rest :
  Forall body_wf g -> validate_paged_spend h sponge g = Ok f ->
  exists x, list_find (fun page => is_end page = true) (g ++ rest) = Some (pred (length g), x)
            /\ (1 <= length g)%nat.
Proof.
  intros Hw Hv. apply (validate_paged_spend_valid h sponge g f Hw) in Hv as (first & V & _).
  pose proof (vs_count _ _ V) as Hc. pose proof (vs_group _ _ V) as Hg.
  destruct (lookup_lt_is_Some_2 g (pred (length g)) ltac:(lia)) as [x Hx].
  exists x. split; [|lia]. apply list_find_Some. split; [|split].
  - apply lookup_app_l_Some, Hx.
  - destruct (Hg _ _ Hx) as (_ & E & _). rewrite is_end_testbit. apply E. lia.
  - intros j y Hy Hj. rewrite lookup_app_l in Hy by lia.
    destruct (Hg _ _ Hy) as (_ & E & _). rewrite is_end_testbit. intros Ht. apply E in Ht. lia.
Qed.

Lemma as_u16_small n : 0 <= n < 2 ^ 16 -> as_u16 n = n.
Proof. apply Z.mod_small. Qed.

Lemma spend_pages_cons g gs : spend_pages (g :: gs) = g.1 ++ spend_pages gs.
Proof. reflexivity. Qed.

Lemma spend_pages_nil gs : valid_spends gs -> [] = spend_pages gs -> gs = [].
Proof.
  destruct 1 as [|g gs Hg Hgs]; [reflexivity|]. rewrite spend_pages_cons. intros E.
  symmetry in E. apply app_eq_nil in E as [E _]. rewrite E in Hg. discriminate.
Qed.

Lemma group_loop_nil fuel class cursor groups out :
  group_loop h sponge fuel class cursor [] groups = Ok out <->
  exists gs, [] = spend_pages gs /\ valid_spends gs /\ out = groups ++ locate cursor gs
    /\ (gs = [] \/ Z.of_nat (length out) <= live_authorization_capacity class).
Proof.
  destruct fuel; cbn; split.
  1, 3: intros [= <-]; exists []; rewrite app_nil_r; repeat split; auto; constructor.
  all: intros (gs & E & Hv & -> & _); rewrite (spend_pages_nil gs Hv E); now rewrite app_nil_r.
Qed.

Lemma group_loop_iff fuel class : forall cursor rest groups out,
  (length rest <= fuel)%nat -> Forall body_wf rest ->
  Z.of_nat (cursor + length rest) < 2 ^ 16 ->
  group_loop h sponge fuel class cursor rest groups = Ok out <->
  exists gs, rest = spend_pages gs /\ valid_spends gs /\ out = groups ++ locate cursor gs
    /\ (gs = [] \/ Z.of_nat (length out) <= live_authorization_capacity class).
Proof.
  induction fuel as [|fuel IH]; intros cursor rest groups out Hf Hw H16.
  - destruct rest; [|cbn in Hf; lia]. apply group_loop_nil.
  - destruct rest as [|p rest'] eqn:Er; [apply group_loop_nil|].
    rewrite <- Er in *. assert (Hne : rest <> []) by congruence. clear Er p rest'.
    assert (U : group_loop h sponge (S fuel) class cursor rest groups
      = match list_find (fun page => is_end page = true) rest with
        | None => Err (UnterminatedGroup cursor)
        | Some (rel, _) =>
            let n := (rel + 1)%nat in
            sp ← map_err Group (validate_paged_spend h sponge (take n rest));
            let groups := groups ++
              [mkGroupFacts (as_u16 (Z.of_nat cursor)) (as_u16 (Z.of_nat n)) sp] in
            _ ← ensure (Z.of_nat (length groups) <=? live_authorization_capacity class)
                  (TooManyGroups (Z.of_nat (length groups)) (live_authorization_capacity class));
            group_loop h sponge fuel class (cursor + n) (drop n rest) groups
        end) by (destruct rest; [congruence|reflexivity]).
    rewrite U. clear U. split.
    + destruct (list_find _ rest) as [[rel x]|] eqn:Efind; [|discriminate].
      apply list_find_Some in Efind as (Hrel & _ & _). apply lookup_lt_Some in Hrel.
      cbn zeta. intros H. apply bind_ok_inv in H as (sp & Hsp & H).
      apply map_err_ok_iff in Hsp. apply bind_ok_inv in H as (u & Hcap & H).
      apply ensure_ok_iff, Z.leb_le in Hcap.
      apply IH in H as (gs & E & Hv & -> & Hb);
        [|rewrite length_drop; lia|now apply Forall_drop|rewrite length_drop; lia].
      exists ((take (rel + 1) rest, sp) :: gs).
      assert (El : length (take (rel + 1) rest) = (rel + 1)%nat) by (rewrite length_take; lia).
      split; [rewrite spend_pages_cons, <- E; cbn; now rewrite take_drop|].
      split; [constructor; [exact Hsp|exact Hv]|]. cbn [locate fst snd]. rewrite El.
      rewrite !as_u16_small in * by lia.
      rewrite <- app_assoc. cbn [app]. split; [reflexivity|]. right.
      destruct Hb as [->|Hb]; [exact Hcap|]. rewrite <- app_assoc in Hb. exact Hb.
    + intros ([|[g f] gs] & E & Hv & -> & Hb); [cbn in E; congruence|].
      destruct Hb as [|Hb]; [discriminate|].
      inversion Hv as [|? ? Hg Hgs]; subst. cbn [fst snd] in Hg.
      rewrite spend_pages_cons in *. cbn [fst] in *. apply Forall_app in Hw as [Hwg Hwr].
      destruct (valid_group_end g f (spend_pages gs) Hwg Hg) as (x & Efind & Hlen).
      rewrite Efind. cbn zeta. replace (pred (length g) + 1)%nat with (length g) by lia.
      rewrite take_app_length, drop_app_length, Hg. cbn [map_err mbind result_bind].
      cbn [locate fst snd] in Hb |- *. rewrite length_app in Hb. cbn [length] in Hb.
      rewrite (proj2 (Z.leb_le _ _)) by (rewrite length_app; cbn [length]; lia).
      cbn [ensure mbind result_bind]. rewrite length_app in H16.
      rewrite !as_u16_small by lia. apply IH; [|exact Hwr|lia|].
      * rewrite length_app in Hf. lia.
      * exists gs. split; [reflexivity|]. split; [exact Hgs|]. rewrite <- app_assoc.
        split; [reflexivity|]. right. rewrite length_app. cbn [app length]. lia.
Qed.

(** A page list splits into valid spends in at most one way. *)
Lemma spends_unique gs gs' :
  Forall body_wf (spend_pages gs) -> valid_spends gs -> valid_spends gs' ->
  spend_pages gs = spend_pages gs' -> gs = gs'.
Proof.
  intros Hw Hv. revert gs' Hw. induction Hv as [|[g f] gs Hg Hgs IH]; intros gs' Hw Hv' E.
  - symmetry. now apply spend_pages_nil.
  - destruct Hv' as [|[g' f'] gs' Hg' Hgs']; [now apply (spend_pages_nil ((g, f) :: gs)); [constructor|]|].
    rewrite spend_pages_cons in Hw, E. rewrite spend_pages_cons in E. cbn [fst snd] in *.
    assert (Hw' := Hw). rewrite E in Hw'. apply Forall_app in Hw as [W1 W2], Hw' as [W1' W2'].
    destruct (valid_group_end g f (spend_pages gs) W1 Hg) as (x & F & L).
    destruct (valid_group_end g' f' (spend_pages gs') W1' Hg') as (x' & F' & L').
    rewrite E, F' in F. injection F as EL _.
    apply app_inj_1 in E as [-> E]; [|lia]. rewrite Hg' in Hg. injection Hg as ->.
    f_equal. apply IH; assumption.
Qed.

(** ** Lemmas: totals and slots *)

Lemma valid_spend_counts g f :
  Forall body_wf g -> validate_paged_spend h sponge g = Ok f ->
  1 <= ps_live_inputs f <= 1020 /\ 0 <= ps_live_outputs f <= 256.
Proof.
  intros Hw Hv. apply (validate_paged_spend_valid h sponge g f Hw) in Hv as (first & V & ->).
  cbn [spend_facts ps_live_inputs ps_live_outputs].
  pose proof (vs_inputs _ _ V). pose proof (vs_minimal _ _ V) as Hm. pose proof (vs_count _ _ V).
  unfold required_pages, div_ceil, TX_OUTPUTS in Hm.
  pose proof (Z.div_mod (Z.of_nat (length (live_items (all_outputs g))) + Z.of_nat 2 - 1)
    (Z.of_nat 2) ltac:(lia)).
  pose proof (Z.mod_pos_bound (Z.of_nat (length (live_items (all_outputs g))) + Z.of_nat 2 - 1)
    (Z.of_nat 2) ltac:(lia)). lia.
Qed.

Lemma spend_pages_length gs :
  Forall body_wf (spend_pages gs) -> valid_spends gs ->
  (length gs <= length (spend_pages gs))%nat.
Proof.
  intros Hw Hv. induction Hv as [|[g f] gs Hg Hgs IH]; [cbn; lia|].
  rewrite spend_pages_cons in *. apply Forall_app in Hw as [W1 W2]. cbn [fst] in *.
  destruct (valid_group_end g f [] W1 Hg) as (_ & _ & L). rewrite length_app. cbn [length].
  specialize (IH W2). lia.
Qed.

Lemma checked_group_sum_locate (value : PagedSpendFacts -> Z) cursor gs s :
  Forall (fun g => 0 <= value g.2) gs -> 0 <= s ->
  s + Zsum ((fun g => value g.2) <$> gs) < 2 ^ 64 ->
  foldl (fun acc g => sum ← acc; checked_add 64 sum (value (spend g))) (Some s) (locate cursor gs)
  = Some (s + Zsum ((fun g => value g.2) <$> gs)).
Proof.
  intros Hp. revert cursor s. induction Hp as [|g gs Hg Hgs IH]; intros cursor s Hs Hb.
  - cbn. f_equal. lia.
  - cbn [locate foldl spend]. rewrite fmap_cons, Zsum_cons in Hb |- *.
    assert (0 <= Zsum ((fun g => value g.2) <$> gs)) by (apply Zsum_nonneg, Forall_fmap, Hgs).
    cbn [mbind option_bind]. unfold checked_add at 2.
    rewrite (proj2 (Z.ltb_lt _ _)) by lia. rewrite IH by lia. f_equal. lia.
Qed.

Lemma insert_page_slots_iff i0 o0 page i o :
  insert_page_slots (i0, o0) page = Ok (i, o) <->
  fresh_into (in_slots page) i0 i /\ fresh_into (out_slots page) o0 o.
Proof.
  unfold insert_page_slots, in_slots, out_slots. cbn [fst snd].
  rewrite <- (fold_result_fresh (fun p => in_slot_index p.2)
    (fun p => StreamDuplicateInputSlot (in_slot_index p.2))
    (fun s p => insert_input s (in_slot_index p.2))) by reflexivity.
  rewrite <- (fold_result_fresh (fun p => out_slot_index p.2)
    (fun p => StreamDuplicateOutputSlot (out_slot_index p.2))
    (fun s p => insert_output s (out_slot_index p.2))) by reflexivity.
  destruct (fold_result _ i0 _) as [i'|e]; cbn [mbind result_bind]; [|split; [discriminate|intros [[=] _]]].
  destruct (fold_result _ o0 _) as [o'|e]; cbn [mbind result_bind]; [|split; [discriminate|intros [_ [=]]]].
  split; [intros [= -> ->]; auto|intros [[= ->] [= ->]]; reflexivity].
Qed.

Lemma insert_pages_iff pages : forall i0 o0 i o,
  fold_result insert_page_slots (i0, o0) pages = Ok (i, o) <->
  fresh_into (pages ≫= in_slots) i0 i /\ fresh_into (pages ≫= out_slots) o0 o.
Proof.
  induction pages as [|page pages IH]; intros i0 o0 i o.
  - change ([] ≫= in_slots) with (@nil Z). change ([] ≫= out_slots) with (@nil Z).
    rewrite !fresh_into_nil. cbn. split; [intros [= -> ->]; auto|intros [-> ->]; reflexivity].
  - cbn [fold_result]. rewrite !bind_cons, !fresh_into_app, bind_ok_iff. split.
    + intros ([i1 o1] & [H1 H2]%insert_page_slots_iff & [H3 H4]%IH).
      split; eexists; split; eassumption.
    + intros [(i1 & H1 & H2) (o1 & H3 & H4)]. exists (i1, o1).
      split; [now apply insert_page_slots_iff|now apply IH].
Qed.

(** The slot loop and the intersection test. *)
Lemma slots_distinct_iff pages :
  (exists sets, fold_result insert_page_slots (∅, ∅) pages = Ok sets
     /\ elements (sets.1 ∩ sets.2) = [])
  <-> NoDup ((pages ≫= in_slots) ++ (pages ≫= out_slots)).
Proof.
  rewrite NoDup_app. split.
  - intros ([i o] & [(H1 & _ & ->) (H2 & _ & ->)]%insert_pages_iff & He).
    split; [exact H1|]. split; [|exact H2]. intros k Hi Ho.
    apply elements_empty_inv in He. cbn [fst snd] in He. rewrite !union_empty_r_L in He.
    apply (not_elem_of_empty (C := gset Z) k). apply He.
    apply elem_of_intersection. split; now apply elem_of_list_to_set.
  - intros (H1 & Hd & H2). exists (list_to_set (pages ≫= in_slots) ∪ ∅, list_to_set (pages ≫= out_slots) ∪ ∅).
    split.
    + apply insert_pages_iff.
      split; (split; [assumption|split; [intros k _; apply not_elem_of_empty|reflexivity]]).
    + apply elements_empty_iff. rewrite !union_empty_r_L. cbn. intros k. split; [|set_solver +].
      intros [Hi%elem_of_list_to_set Ho%elem_of_list_to_set]%elem_of_intersection.
      destruct (Hd k Hi Ho).
Qed.

Lemma for_page_count_iff n c :
  for_page_count n = Some c <->
  (n <= page_capacity c) /\ (c = B255 -> 25 < n).
Proof.
  unfold for_page_count, page_capacity, tier_at, BLOCK_PROOF_CLASS_TIERS, BLOCK_PAGE_CLASS_TIERS.
  cbn [nth]. destruct c, (Z.leb_spec n 25), (Z.leb_spec n 255);
    (split; [intros [=]; split; intros; try discriminate; lia|]); intros [H1 H2]; try reflexivity;
    try lia; specialize (H2 eq_refl); lia.
Qed.

(** The limits of a block stream made of the spends [gs]. *)
Record stream_valid (pages : list TxBody) (class : BlockProofClass) (gs : spends) : Prop := {
  sv_pages : pages = spend_pages gs;
  sv_spends : valid_spends gs;
  sv_class : for_page_count (Z.of_nat (length pages)) = Some class;
  sv_inputs : total_inputs gs <= input_capacity class;
  sv_outputs : total_outputs gs <= output_capacity class;
  sv_slots : NoDup ((pages ≫= in_slots) ++ (pages ≫= out_slots))
  }.

Definition stream_facts (pages : list TxBody) (class : BlockProofClass) (gs : spends)
  : PagedSpendStreamFacts :=
  mkStreamFacts class (locate 0 gs) (Z.of_nat (length pages)) (Z.of_nat (length gs))
    (total_inputs gs) (total_outputs gs).

Lemma length_locate cursor gs : length (locate cursor gs) = length gs.
Proof. revert cursor; induction gs as [|g gs IH]; intros; cbn; [reflexivity|]. now rewrite IH. Qed.

(** Sums over the groups stay far below the machine width. *)
Lemma totals_bounds gs :
  Forall body_wf (spend_pages gs) -> valid_spends gs -> (length (spend_pages gs) <= 255)%nat ->
  Forall (fun g => 0 <= ps_live_inputs g.2) gs /\ Forall (fun g => 0 <= ps_live_outputs g.2) gs
  /\ 0 <= total_inputs gs < 2 ^ 64 /\ 0 <= total_outputs gs < 2 ^ 64.
Proof.
  intros Hw Hv Hl. pose proof (spend_pages_length gs Hw Hv) as Hg.
  assert (H : Forall (fun g => 1 <= ps_live_inputs g.2 <= 1020 /\ 0 <= ps_live_outputs g.2 <= 256) gs).
  { clear -Hw Hv. induction Hv as [|[g f] gs Hg Hgs IH]; constructor.
    - rewrite spend_pages_cons in Hw. apply Forall_app in Hw as [W _].
      now apply (valid_spend_counts g f).
    - apply IH. rewrite spend_pages_cons in Hw. now apply Forall_app in Hw as [_ W]. }
  assert (S1 := Zsum_bound (fun g : list TxBody * PagedSpendFacts => ps_live_inputs g.2) gs 1021).
  assert (S2 := Zsum_bound (fun g : list TxBody * PagedSpendFacts => ps_live_outputs g.2) gs 1021).
  specialize (S1 ltac:(eapply Forall_impl; [exact H|]; cbn; lia)).
  specialize (S2 ltac:(eapply Forall_impl; [exact H|]; cbn; lia)).
  unfold total_inputs, total_outputs.
  repeat split; try lia; eapply Forall_impl; try exact H; cbn; lia.
Qed.

Lemma validate_stream_iff pages facts :
  Forall body_wf pages ->
  validate_paged_spend_transaction_stream h sponge pages = Ok facts <->
  exists class gs, stream_valid pages class gs /\ facts = stream_facts pages class gs.
Proof.
  intros Hw. unfold validate_paged_spend_transaction_stream, validate_stream_for_class.
  split.
  - intros H. apply bind_ok_inv in H as (class & Hc & H). apply ok_or_ok_iff in Hc.
    pose proof (proj1 (for_page_count_iff _ _) Hc) as [Hcap _].
    assert (Hn : Z.of_nat (length pages) <= 255) by (destruct class; cbn in Hcap; lia).
    apply bind_ok_inv in H as (_ & _ & H). rewrite Hc in H. cbn [ok_or mbind result_bind] in H.
    rewrite bool_decide_eq_true_2 in H by reflexivity. cbn [ensure mbind result_bind] in H.
    apply bind_ok_inv in H as (groups & Hg & H).
    apply group_loop_iff in Hg as (gs & Ep & Hv & Eg & _); [|lia|exact Hw|lia].
    cbn [app] in Eg. subst groups. rewrite Ep in Hw, Hn.
    destruct (totals_bounds gs Hw Hv ltac:(lia)) as (P1 & P2 & B1 & B2).
    unfold checked_group_sum in H.
    rewrite (checked_group_sum_locate ps_live_inputs), (checked_group_sum_locate ps_live_outputs) in H
      by (assumption || unfold total_inputs, total_outputs in *; lia).
    rewrite !Z.add_0_l in H. cbn [ok_or mbind result_bind] in H. fold (total_inputs gs) (total_outputs gs) in H.
    apply bind_ok_inv in H as (_ & H1%ensure_ok_iff & H).
    apply bind_ok_inv in H as (_ & H2%ensure_ok_iff & H).
    apply bind_ok_inv in H as (sets & H3 & H).
    destruct (elements (sets.1 ∩ sets.2)) eqn:He; [|discriminate]. cbn [mbind result_bind] in H.
    apply Z.leb_le in H1, H2.
    exists class, gs. split; [constructor; eauto; apply slots_distinct_iff; eauto|].
    injection H as <-. unfold stream_facts.
    pose proof (spend_pages_length gs Hw Hv).
    assert (input_capacity class <= 1020 /\ output_capacity class <= 510)
      by (destruct class; cbn; unfold MAX_INPUTS, MAX_OUTPUTS, BLOCK_MAX_LIVE_INPUTS,
            BLOCK_MAX_USER_OUTPUTS; lia).
    rewrite length_locate, !as_u16_small by (rewrite ?Ep; lia). reflexivity.
  - intros (class & gs & [Ep Hv Hc Hi Ho Hs] & ->). rewrite Hc. cbn [ok_or mbind result_bind].
    pose proof (proj1 (for_page_count_iff _ _) Hc) as [Hcap _].
    assert (Hn : Z.of_nat (length pages) <= 255) by (destruct class; cbn in Hcap; lia).
    rewrite (proj2 (Z.leb_le _ _) Hcap). cbn [ensure mbind result_bind].
    rewrite bool_decide_eq_true_2 by reflexivity. cbn [ensure mbind result_bind].
    assert (Hw' := Hw). assert (Hn' := Hn). rewrite Ep in Hw', Hn'.
    destruct (totals_bounds gs Hw' Hv ltac:(lia)) as (P1 & P2 & B1 & B2).
    pose proof (spend_pages_length gs Hw' Hv) as Hl.
    rewrite (proj2 (group_loop_iff (length pages) class 0 pages [] (locate 0 gs) (le_n _) Hw ltac:(lia))).
    2:{ exists gs. split; [exact Ep|]. split; [exact Hv|]. split; [reflexivity|]. right.
        rewrite length_locate. unfold live_authorization_capacity. rewrite Ep in Hcap. lia. }
    cbn [mbind result_bind]. unfold checked_group_sum.
    rewrite (checked_group_sum_locate ps_live_inputs), (checked_group_sum_locate ps_live_outputs)
      by (assumption || unfold total_inputs, total_outputs in *; lia).
    rewrite !Z.add_0_l. cbn [ok_or mbind result_bind]. fold (total_inputs gs) (total_outputs gs).
    rewrite (proj2 (Z.leb_le _ _) Hi), (proj2 (Z.leb_le _ _) Ho). cbn [ensure mbind result_bind].
    apply slots_distinct_iff in Hs as (sets & Hf & He). rewrite Hf. cbn [mbind result_bind].
    rewrite He. cbn [mbind result_bind]. unfold stream_facts.
    assert (input_capacity class <= 1020 /\ output_capacity class <= 510)
      by (destruct class; cbn; unfold MAX_INPUTS, MAX_OUTPUTS, BLOCK_MAX_LIVE_INPUTS,
            BLOCK_MAX_USER_OUTPUTS; lia).
    rewrite length_locate, !as_u16_small by lia. reflexivity.
Qed.
End Spec.

(** ** Theorems *)

(** C27. The stream validator parses a page stream into logical spends in the
    only possible way.  It accepts exactly the concatenations of valid spends
    that fit the smallest proof class for their page count, stay within its
    input and output limits and touch pairwise distinct slots, and it reports
    their positions and totals exactly; two ways of cutting the same pages into
    valid spends are the same. *)
Theorem stream_decomposition h sponge (pages : list TxBody) (facts : PagedSpendStreamFacts) :
  Forall body_wf pages ->
  (validate_paged_spend_transaction_stream h sponge pages = Ok facts <->
   exists class gs, stream_valid h sponge pages class gs /\ facts = stream_facts pages class gs)
  /\ (forall class gs class' gs',
        stream_valid h sponge pages class gs -> stream_valid h sponge pages class' gs' ->
        class = class' /\ gs = gs').
Proof.
  intros Hw. split; [now apply validate_stream_iff|].
  intros class gs class' gs' [E1 V1 C1 _ _ _] [E2 V2 C2 _ _ _]. split; [congruence|].
  apply (spends_unique h sponge); [rewrite <- E1; exact Hw|exact V1|exact V2|congruence].
Qed.

Lemma stream_decomposition_witness :
  exists class gs,
    stream_valid (fun _ => []) (fun _ _ => []) example_pages class gs.
Proof.
  assert (E : validate_paged_spend_transaction_stream (fun _ => []) (fun _ _ => []) example_pages
              = Ok (mkStreamFacts B25 [mkGroupFacts 0 2
                  (mkPagedSpendFacts [] (replicate 32 9) (replicate 32 7) 5 9 2 90 85)] 2 1 9 2))
    by (vm_compute; reflexivity).
  destruct (proj1 (proj1 (stream_decomposition _ _ example_pages _ example_pages_wf)) E)
    as (class & gs & H & _).
  exists class, gs. exact H.
Defined.

(** ** The body layout *)

Section Layout.
Variable h : list (Z * Z) -> list Z.
Variable sponge : list Z -> list (Z * Z) -> list Z.

(** A block body: the primary coinbase, at most one development payout, and a
  valid stream of user pages. *)
Record block_layout (txs : list TxBody) (coinbase : TxBody) (payout : option TxBody)
    (class : BlockProofClass) (gs : spends) : Prop := {
  bl_txs : txs = coinbase :: option_list payout ++ spend_pages gs;
  bl_coinbase : is_primary_coinbase_shape coinbase = true;
  bl_payout : forall d, payout = Some d -> is_development_payout_shape d = true;
  bl_stream : exists c, stream_valid h sponge (spend_pages gs) c gs;
  bl_class : for_page_count (Z.of_nat (length (option_list payout ++ spend_pages gs))) = Some class
  }.

Definition layout_facts (payout : option TxBody) (class : BlockProofClass) (gs : spends)
  : BlockPageStreamFacts :=
  mkBlockStreamFacts class (locate 0 gs) (Z.of_nat (length (spend_pages gs)))
    (Z.of_nat (length gs)) (total_inputs gs) (total_outputs gs)
    (bool_decide (is_Some payout)) (S (length (option_list payout))).

Lemma spend_pages_user gs :
  Forall body_wf (spend_pages gs) -> valid_spends h sponge gs ->
  Forall (fun p => is_coinbase p = false) (spend_pages gs).
Proof.
  intros Hw Hv. induction Hv as [|[g f] gs Hg Hgs IH]; [constructor|].
  rewrite spend_pages_cons in *. apply Forall_app in Hw as [W1 W2]. apply Forall_app.
  split; [|auto]. apply (validate_paged_spend_valid h sponge g f W1) in Hg as (first & V & _).
  eapply Forall_impl; [exact (vs_shape _ _ V)|]. intros p Hp. apply Hp.
Qed.

Lemma existsb_coinbase_false l :
  existsb is_coinbase l = false <-> Forall (fun p => is_coinbase p = false) l.
Proof.
  induction l as [|p l IH]; [split; auto|]. cbn. rewrite orb_false_iff, Forall_cons, IH. reflexivity.
Qed.

Lemma dev_shape_coinbase d : is_development_payout_shape d = true -> is_coinbase d = true.
Proof. unfold is_development_payout_shape. now intros [H _]%andb_true_iff. Qed.

Lemma primary_shape_coinbase d : is_primary_coinbase_shape d = true -> is_coinbase d = true.
Proof. unfold is_primary_coinbase_shape. now intros [H _]%andb_true_iff. Qed.

(** The second record is a payout exactly when the layout has one. *)
Lemma second_is_layout coinbase payout pages :
  (forall d, payout = Some d -> is_development_payout_shape d = true) ->
  Forall (fun p => is_coinbase p = false) pages ->
  let txs := coinbase :: option_list payout ++ pages in
  second_is is_development_payout_shape txs = bool_decide (is_Some payout)
  /\ second_is (fun tx => is_coinbase tx && negb (is_development_payout_shape tx)) txs = false
  /\ drop (if bool_decide (is_Some payout) then 2%nat else 1%nat) txs = pages.
Proof.
  intros Hd Hp txs. unfold txs, second_is. destruct payout as [d|]; cbn.
  - rewrite (Hd d eq_refl), andb_false_r. auto.
  - destruct Hp as [|p pages Hp _]; cbn; [auto|]. rewrite Hp. cbn.
    unfold is_development_payout_shape. rewrite Hp. auto.
Qed.

Lemma map_err_ok {E E' A} (f : E -> E') (r : result E A) a : r = Ok a -> map_err f r = Ok a.
Proof. now intros ->. Qed.

Lemma block_stream_iff txs facts :
  Forall body_wf txs ->
  validate_block_page_stream h sponge txs = Ok facts <->
  exists coinbase payout class gs,
    block_layout txs coinbase payout class gs /\ facts = layout_facts payout class gs.
Proof.
  intros Hw. unfold validate_block_page_stream. split.
  - intros H. apply bind_ok_inv in H as (cb & Hcb & H). apply ok_or_ok_iff in Hcb.
    destruct txs as [|cb' rest]; [discriminate|]. cbn in Hcb. injection Hcb as ->.
    apply Forall_cons in Hw as [Hwc Hwr].
    apply bind_ok_inv in H as (_ & _ & H). apply bind_ok_inv in H as (_ & Hp%ensure_ok_iff & H).
    set (dev := second_is is_development_payout_shape (cb :: rest)) in H.
    assert (Hsplit : exists payout, (forall d, payout = Some d -> is_development_payout_shape d = true)
      /\ dev = bool_decide (is_Some payout)
      /\ rest = option_list payout ++ drop (if dev then 2%nat else 1%nat) (cb :: rest)).
    { unfold dev, second_is. destruct rest as [|d rest]; [exists None|].
      - split; [discriminate|]. cbn. auto.
      - cbn. destruct (is_development_payout_shape d) eqn:Ed; [exists (Some d)|exists None].
        + split; [intros ? [= <-]; exact Ed|]. cbn. auto.
        + split; [discriminate|]. cbn. auto. }
    destruct Hsplit as (payout & Hd & Edev & Erest).
    set (pages := drop (if dev then 2%nat else 1%nat) (cb :: rest)) in *.
    assert (Hwp : Forall body_wf pages)
      by (rewrite Erest in Hwr; now apply Forall_app in Hwr as [_ W]).
    apply bind_ok_inv in H as (_ & _ & H). apply bind_ok_inv in H as (_ & _ & H).
    apply bind_ok_inv in H as (user & Hu%map_err_ok_iff & H).
    apply (validate_stream_iff h sponge pages user Hwp) in Hu as (c & gs & Hs & ->).
    apply bind_ok_inv in H as (class & Hc%ok_or_ok_iff & H). cbn [stream_facts sf_page_count] in Hc.
    pose proof (sv_pages _ _ _ _ _ Hs) as Ep. injection H as <-.
    exists cb, payout, class, gs. split.
    + constructor.
      * now rewrite <- Ep, <- Erest.
      * exact Hp.
      * exact Hd.
      * exists c. now rewrite <- Ep.
      * rewrite <- Ep, length_app, <- Hc, Edev. f_equal. destruct payout; cbn; lia.
    + unfold layout_facts. cbn. rewrite Edev, Ep. destruct payout; reflexivity.
  - intros (cb & payout & class & gs & [-> Hp Hd [c Hs] Hc] & ->).
    apply Forall_cons in Hw as [_ [_ Hwp]%Forall_app].
    pose proof (spend_pages_user gs Hwp (sv_spends _ _ _ _ _ Hs)) as Hu.
    destruct (second_is_layout cb payout (spend_pages gs) Hd Hu) as (S1 & S2 & S3).
    cbn [head ok_or mbind result_bind].
    rewrite (primary_shape_coinbase cb Hp), Hp, S1, S2, S3. cbn [ensure negb mbind result_bind].
    rewrite (proj2 (existsb_coinbase_false _) Hu). cbn [ensure negb mbind result_bind].
    rewrite (proj2 (validate_stream_iff h sponge _ (stream_facts (spend_pages gs) c gs) Hwp))
      by eauto.
    cbn [map_err mbind result_bind stream_facts sf_page_count].
    rewrite length_app in Hc.
    replace (Z.of_nat (length (spend_pages gs)) + (if bool_decide (is_Some payout) then 1 else 0))
      with (Z.of_nat (length (option_list payout) + length (spend_pages gs)))
      by (destruct payout; cbn; lia).
    rewrite Hc. cbn [ok_or mbind result_bind]. unfold layout_facts. destruct payout; reflexivity.
Qed.
End Layout.

(** The block layout is exact: a body list is accepted exactly when it is
    one primary coinbase, then at most one record of development-payout shape,
    then a valid user stream, all within the largest proof class, and the facts
    (user start index, class counted with the payout, group positions) are those
    of that layout. *)
Theorem block_layout_iff h sponge (txs : list TxBody) (facts : BlockPageStreamFacts) :
  Forall body_wf txs ->
  validate_block_page_stream h sponge txs = Ok facts <->
  exists coinbase payout class gs,
    block_layout h sponge txs coinbase payout class gs /\ facts = layout_facts payout class gs.
Proof. apply block_stream_iff. Qed.

Definition example_coinbase : TxBody :=
  mkTxBody (replicate 32 3) 0 ZERO_DIGEST (replicate 8 TxInput_dummy)
    [mkTxOutput 200 50 (replicate 32 8); TxOutput_dummy] 256 true.

Lemma example_block_wf : Forall body_wf (example_coinbase :: example_pages).
Proof.
  constructor; [|exact example_pages_wf].
  repeat constructor; unfold in_range, byte_ok; cbn; try lia; repeat constructor; cbn; lia.
Qed.

Lemma block_layout_witness :
  exists payout class gs,
    block_layout (fun _ => []) (fun _ _ => []) (example_coinbase :: example_pages)
      example_coinbase payout class gs.
Proof.
  destruct (proj1 (block_layout_iff (fun _ => []) (fun _ _ => []) (example_coinbase :: example_pages)
    (mkBlockStreamFacts B25 [mkGroupFacts 0 2
       (mkPagedSpendFacts [] (replicate 32 9) (replicate 32 7) 5 9 2 90 85)] 2 1 9 2 false 1)
    example_block_wf)) as (cb & payout & class & gs & H & _); [vm_compute; reflexivity|].
  exists payout, class, gs. pose proof (bl_txs _ _ _ _ _ _ _ H) as E. injection E as <- _. exact H.
Defined.

(** The error [InvalidDevelopmentPayout] is never reported: a system record
    of the wrong shape in second place is already rejected as a second
    coinbase. *)
Theorem invalid_development_payout_unreachable h sponge (txs : list TxBody) :
  validate_block_page_stream h sponge txs <> Err BPS.InvalidDevelopmentPayout.
Proof.
  unfold validate_block_page_stream, second_is.
  destruct txs as [|cb [|d rest]]; cbn [head ok_or mbind result_bind]; [discriminate|..].
  all: destruct (is_coinbase cb); cbn [ensure mbind result_bind]; [|discriminate].
  all: destruct (is_primary_coinbase_shape cb); cbn [ensure mbind result_bind]; [|discriminate].
  - cbn. repeat case_test; discriminate.
  - cbn [lookup list_lookup].
    assert (K : is_coinbase d && negb (is_development_payout_shape d) = true ->
      existsb is_coinbase (drop (if is_development_payout_shape d then 2%nat else 1%nat) (cb :: d :: rest)) = true).
    { intros [H1 H2%negb_true_iff]%andb_true_iff. rewrite H2. cbn. now rewrite H1. }
    destruct (existsb _ _) eqn:Ex; cbn [negb ensure mbind result_bind]; [discriminate|].
    destruct (is_coinbase d && _) eqn:Ed; [specialize (K eq_refl); congruence|].
    cbn [negb ensure mbind result_bind].
    destruct (validate_paged_spend_transaction_stream _ _ _); cbn [map_err mbind result_bind]; [|discriminate].
    destruct (for_page_count _); cbn; discriminate.
Qed.
