(* ===== verification/Gf2.v ===== *)
(** * Fields of characteristic two and their quadratic extensions

    The algebra behind [noid_core/src/tower]: if [y^2 + y + tau] has no root in a
    field [F] of characteristic two then the pairs [lo + hi X] with
    [X^2 = X + tau] form a field, and [(0, tau)] is again such a constant for the
    next level.  The operations on pairs are the ones of the source: Karatsuba
    multiplication, Frobenius squaring, inversion through the norm. *)

From Stdlib Require Import Bool Lia Ring Ring_theory.
From stdpp Require Import base decidable.

(** ** Interface *)

(** Zero has inverse zero, as in the source. *)
Class Char2Field (T : Type) := {
  f0 : T;
  f1 : T;
  fadd : T -> T -> T;
  fmul : T -> T -> T;
  finv : T -> T;
  fadd_assoc : forall x y z, fadd x (fadd y z) = fadd (fadd x y) z;
  fadd_comm : forall x y, fadd x y = fadd y x;
  fadd_0_l : forall x, fadd f0 x = x;
  fadd_self : forall x, fadd x x = f0;
  fmul_assoc : forall x y z, fmul x (fmul y z) = fmul (fmul x y) z;
  fmul_comm : forall x y, fmul x y = fmul y x;
  fmul_1_l : forall x, fmul f1 x = x;
  fmul_distr : forall x y z, fmul (fadd x y) z = fadd (fmul x z) (fmul y z);
  finv_mul : forall x, x <> f0 -> fmul x (finv x) = f1;
  finv_0 : finv f0 = f0;
  f1_neq_0 : f1 <> f0;
  f_eq_dec :: EqDecision T
}.

Declare Scope gf2_scope.
Delimit Scope gf2_scope with gf2.
Infix "+" := fadd : gf2_scope.
Infix "*" := fmul : gf2_scope.
Open Scope gf2_scope.

(** [y^2 + y = tau] has no solution. *)
Definition no_root {T} `{Char2Field T} (tau : T) : Prop := forall y : T, y * y + y <> tau.

Ltac bit_cst t :=
  match t with
  | f0 => constr:(false)
  | f1 => constr:(true)
  | _ => constr:(InitialRing.NotConstant)
  end.

Section Char2.
Context {T : Type} `{HF : Char2Field T}.

Lemma char2_ring : ring_theory f0 f1 fadd fmul fadd (fun x : T => x) (@eq T).
Proof.
  constructor; intros; auto using fadd_assoc, fadd_comm, fadd_0_l, fadd_self,
    fmul_assoc, fmul_comm, fmul_1_l, fmul_distr.
Qed.

Lemma fmul_0_0 : f0 * f0 = (f0 : T).
Proof.
  transitivity ((f1 + f1) * (f0 : T)); [now rewrite fadd_self|].
  rewrite fmul_distr, !fmul_1_l. apply fadd_self.
Qed.

(** Coefficients modulo two. *)
Definition bit_phi (b : bool) : T := if b then f1 else f0.

Lemma char2_morph :
  ring_morph f0 f1 fadd fmul fadd (fun x : T => x) (@eq T)
    false true xorb andb xorb (fun b => b) Bool.eqb bit_phi.
Proof.
  constructor; try reflexivity; try (intros [] []; cbn;
    rewrite ?fadd_self, ?fmul_1_l, ?fadd_0_l; try reflexivity; try congruence).
  - now rewrite fadd_comm, fadd_0_l.
  - now rewrite fadd_comm, fadd_0_l.
  - rewrite fmul_comm. now rewrite fmul_1_l.
  - now rewrite fmul_0_0.
Qed.

Add Ring char2 : char2_ring (morphism char2_morph, constants [bit_cst]).

Lemma fmul_0_l x : f0 * x = f0.
Proof. ring. Qed.

Lemma fadd_eq_0 x y : x + y = f0 <-> x = y.
Proof.
  split; [|intros ->; apply fadd_self]. intros H.
  replace x with (x + y + y) by ring. rewrite H. ring.
Qed.

Lemma fmul_eq_0 x y : x * y = f0 -> x = f0 \/ y = f0.
Proof.
  intros H. destruct (decide (x = f0)) as [|Hx]; [auto|]. right.
  replace y with (x * finv x * y) by (rewrite finv_mul by exact Hx; ring).
  replace (x * finv x * y) with (finv x * (x * y)) by ring. rewrite H. ring.
Qed.

Lemma fsquare_inj x y : x * x = y * y -> x = y.
Proof.
  intros H. apply fadd_eq_0. assert (E : (x + y) * (x + y) = f0).
  { replace ((x + y) * (x + y)) with (x * x + y * y) by ring. rewrite H. ring. }
  apply fmul_eq_0 in E as []; assumption.
Qed.

Lemma finv_unique x y : x * y = f1 -> finv x = y.
Proof.
  intros H. assert (Hx : x <> f0).
  { intros ->. rewrite fmul_0_l in H. symmetry in H. revert H. apply f1_neq_0. }
  replace (finv x) with (finv x * (x * y)) by (rewrite H; ring).
  replace (finv x * (x * y)) with (x * finv x * y) by ring.
  rewrite finv_mul by exact Hx. ring.
Qed.

(** ** Frobenius *)

Definition frob (n : nat) (x : T) : T := Nat.iter n (fun y => y * y) x.

Lemma frob_S n x : frob (S n) x = frob n x * frob n x.
Proof. reflexivity. Qed.

Lemma frob_plus m n x : frob (m + n) x = frob m (frob n x).
Proof. induction m as [|m IH]; [reflexivity|]. cbn [Nat.add]. now rewrite !frob_S, IH. Qed.

Lemma frob_mul n x y : frob n (x * y) = frob n x * frob n y.
Proof. induction n as [|n IH]; [reflexivity|]. rewrite !frob_S, IH. ring. Qed.

(** ** The seventh power *)

Definition x7 (x : T) : T := x * (x * x) * (x * x * (x * x)).

(** [t^((8^k - 1) / 7)]. *)
Fixpoint seventh_root (k : nat) (t : T) : T :=
  match k with
  | O => f1
  | S k => t * frob 3 (seventh_root k t)
  end.

Lemma frob_3 x : frob 3 x = x7 x * x.
Proof. unfold frob, x7. cbn. ring. Qed.

Lemma x7_mul x y : x7 (x * y) = x7 x * x7 y.
Proof. unfold x7. ring. Qed.

Lemma x7_frob n x : x7 (frob n x) = frob n (x7 x).
Proof. unfold x7. now rewrite !frob_mul. Qed.

Lemma seventh_root_x7 k x : frob (3 * k) x = seventh_root k (x7 x) * x.
Proof.
  induction k as [|k IH]; [cbn; ring|].
  replace (3 * S k)%nat with (3 + 3 * k)%nat by lia.
  rewrite frob_plus, IH, frob_mul, (frob_3 x). cbn [seventh_root]. ring.
Qed.

Lemma x7_seventh_root k t : x7 (seventh_root k t) * t = frob (3 * k) t.
Proof.
  induction k as [|k IH]; [cbn; unfold x7; ring|].
  replace (3 * S k)%nat with (3 + 3 * k)%nat by lia.
  rewrite frob_plus, <- IH, frob_mul, (frob_3 t). cbn [seventh_root].
  rewrite x7_mul, x7_frob. ring.
Qed.

Lemma seventh_root_0 k : seventh_root (S k) f0 = f0.
Proof. cbn [seventh_root]. ring. Qed.

Lemma fmul_cancel_r x y z : z <> f0 -> x * z = y * z -> x = y.
Proof.
  intros Hz E. replace x with (x * z * finv z) by (rewrite <- fmul_assoc, finv_mul by exact Hz; ring).
  rewrite E, <- fmul_assoc, finv_mul by exact Hz. ring.
Qed.

(** If [x^(2^n) = x] and [3] divides [n + 1], the seventh power is a bijection. *)
Section Seventh.
Variables (n k : nat).
Hypothesis frob_id : forall x, frob n x = x.
Hypothesis three_divides : (3 * S k = S n)%nat.

Lemma frob_square x : frob (3 * S k) x = x * x.
Proof. now rewrite three_divides, frob_S, frob_id. Qed.

Lemma seventh_root_l x : seventh_root (S k) (x7 x) = x.
Proof.
  destruct (decide (x = f0)) as [->|Hx].
  { replace (x7 f0) with (f0 : T) by (unfold x7; ring). apply seventh_root_0. }
  apply (fmul_cancel_r _ _ x Hx). rewrite <- seventh_root_x7. apply frob_square.
Qed.

Lemma seventh_root_r t : x7 (seventh_root (S k) t) = t.
Proof.
  destruct (decide (t = f0)) as [->|Ht].
  { rewrite seventh_root_0. unfold x7. ring. }
  apply (fmul_cancel_r _ _ t Ht). rewrite x7_seventh_root. apply frob_square.
Qed.
End Seventh.

(** ** The quadratic extension *)

Variable tau : T.

(** The fibres of [y |-> y^2 + y + tau] are the pairs [y, y + 1]. *)
Lemma artin_schreier_fibre x y :
  (x = y \/ x = y + f1) <-> x * x + x + tau = y * y + y + tau.
Proof.
  split.
  - intros [->| ->]; ring.
  - intros H. assert (E : (x + y) * (x + y + f1) = f0).
    { apply (proj2 (fadd_eq_0 _ _)) in H. rewrite <- H. ring. }
    apply fmul_eq_0 in E as [E|E]; apply (proj1 (fadd_eq_0 _ _)) in E; [auto|right].
    replace x with (x + y + y) by ring. rewrite E. ring.
Qed.

Definition ext_add (p q : T * T) : T * T := (p.1 + q.1, p.2 + q.2).

Definition ext_mul (p q : T * T) : T * T :=
  let v0 := p.1 * q.1 in
  let v1 := p.2 * q.2 in
  let v_sum := (p.1 + p.2) * (q.1 + q.2) in
  (v0 + v1 * tau, v0 + v_sum).

Definition ext_norm (p : T * T) : T := p.2 * p.2 * tau + p.2 * p.1 + p.1 * p.1.

Definition ext_inv (p : T * T) : T * T :=
  let norm_inv := finv (ext_norm p) in
  ((p.2 + p.1) * norm_inv, p.2 * norm_inv).

Definition ext_square (p : T * T) : T * T := (p.1 * p.1 + p.2 * p.2 * tau, p.2 * p.2).

Lemma ext_square_mul p : ext_square p = ext_mul p p.
Proof. destruct p as [l h]. unfold ext_square, ext_mul. cbn. f_equal; ring. Qed.

Hypothesis tau_no_root : no_root tau.

Lemma ext_norm_0 p : ext_norm p = f0 -> p = (f0, f0).
Proof.
  destruct p as [l h]. unfold ext_norm. cbn. intros H.
  destruct (decide (h = f0)) as [->|Hh].
  - f_equal. replace (f0 * f0 * tau + f0 * l + l * l) with (l * l) in H by ring.
    apply fmul_eq_0 in H as []; assumption.
  - exfalso. apply (tau_no_root (l * finv h)).
    apply fadd_eq_0. pose proof (finv_mul h Hh) as E. set (i := finv h) in *.
    replace (l * i * (l * i) + l * i + tau)
      with ((h * h * tau + h * l + l * l) * (i * i)
            + (tau + tau * (h * i) * (h * i)) + (l * i + l * i * (h * i))) by ring.
    rewrite H, E. ring.
Qed.

Lemma ext_inv_mul p : p <> (f0, f0) -> ext_mul p (ext_inv p) = (f1, f0).
Proof.
  intros Hp. assert (Hn : ext_norm p <> f0) by (intros E; apply Hp, ext_norm_0, E).
  pose proof (finv_mul _ Hn) as E. destruct p as [l h].
  unfold ext_mul, ext_inv. cbn [fst snd]. set (i := finv (ext_norm (l, h))) in *.
  unfold ext_norm in E. cbn [fst snd] in E. rewrite <- E. f_equal; ring.
Qed.

Lemma ext_inv_0 : ext_inv (f0, f0) = (f0, f0).
Proof. unfold ext_inv. cbn. f_equal; ring. Qed.

#[refine] Definition ext_field : Char2Field (T * T) := {|
  f0 := (f0, f0); f1 := (f1, f0); fadd := ext_add; fmul := ext_mul; finv := ext_inv
|}.
Proof.
  1-8: intros; repeat match goal with p : T * T |- _ => destruct p end;
    unfold ext_add, ext_mul; cbn [fst snd]; f_equal; ring.
  - exact ext_inv_mul.
  - exact ext_inv_0.
  - intros [= E]. now apply f1_neq_0.
Defined.

(** The constant of the next level. *)
Lemma ext_no_root : @no_root (T * T) ext_field (f0, tau).
Proof.
  intros [a b] E. cbn in E. unfold ext_mul, ext_add in E. cbn in E.
  injection E as _ E. apply (tau_no_root b). rewrite <- E. ring.
Qed.

(** The base field is a subfield. *)
Lemma ext_embed_add x y : ext_add (x, f0) (y, f0) = (x + y, f0).
Proof. unfold ext_add. cbn. f_equal; ring. Qed.

Lemma ext_embed_mul x y : ext_mul (x, f0) (y, f0) = (x * y, f0).
Proof. unfold ext_mul. cbn. f_equal; ring. Qed.

Lemma ext_embed_inv x : ext_inv (x, f0) = (finv x, f0).
Proof.
  destruct (decide (x = f0)) as [->|Hx]; [rewrite finv_0; apply ext_inv_0|].
  unfold ext_inv, ext_norm. cbn [fst snd].
  replace (f0 * f0 * tau + f0 * x + x * x) with (x * x) by ring.
  assert (Hxx : x * x <> f0) by (intros E; apply fmul_eq_0 in E as []; auto).
  f_equal; [|ring]. symmetry. apply finv_unique. rewrite <- (finv_mul _ Hxx). ring.
Qed.
End Char2.

Section ExtFrobenius.
Context {T : Type} `{HF : Char2Field T}.
Variable tau : T.
Hypothesis tau_no_root : no_root tau.
Add Ring char2_ext : char2_ring (morphism char2_morph, constants [bit_cst]).

(** The Frobenius of the extension: [X^(2^n) = X + shift n]. *)
Fixpoint shift (n : nat) : T :=
  match n with O => f0 | S n => shift n * shift n + tau end.

Lemma ext_frob n p :
  @frob _ (ext_field tau tau_no_root) n p = (frob n p.1 + frob n p.2 * shift n, frob n p.2).
Proof.
  induction n as [|n IH]; [destruct p; cbn; f_equal; ring|].
  rewrite frob_S, IH, !frob_S. cbn [shift fmul ext_field]. unfold ext_mul. cbn [fst snd]. f_equal; ring.
Qed.

Lemma ext_frob_id n :
  (forall x, frob n x = x) -> forall p, @frob _ (ext_field tau tau_no_root) (n + n) p = p.
Proof.
  intros H [a b]. rewrite frob_plus, !ext_frob. cbn [fst snd]. rewrite !H. f_equal. ring.
Qed.
End ExtFrobenius.
