(* ===== verification/Tower.v ===== *)
(** * The binary tower fields

    [noid_core/src/field.rs] and [noid_core/src/tower/]: GF(2^8) with its lookup
    tables, the packed quadratic extensions up to GF(2^128), and GF(2^256) as
    pairs.  Elements of [BlockN] are [Z] in [0, 2^N). *)

From Stdlib Require Import ZArith Lia Bool.
From stdpp Require Import base numbers list option gmap.
From S2P Require Import Prelude Gf2.

Open Scope Z_scope.

(** ** The trait *)

(** [TowerField] with [square]; addition and subtraction are [xor] in every
    level. *)
Record TowerOps := mkTower {
  BITS : Z;
  tmul : Z -> Z -> Z;
  tsquare : Z -> Z;
  tinvert : Z -> Z;
  EXTENSION_TAU : Z
}.

Definition tadd (a b : Z) : Z := Z.lxor a b.
Definition tsub (a b : Z) : Z := Z.lxor a b.

(** ** GF(2^8) *)

Definition POLY : Z := 0x1B.

(** One reduction step: bit [8 + k]. *)
Definition reduce_bit (p k : Z) : Z :=
  if Z.land (Z.shiftr p (8 + k)) 1 =? 1 then Z.lxor p (Z.shiftl POLY k) else p.

(** Bits 14 down to 8, then the cast to [u8]. *)
Definition gf256_reduce (p : Z) : Z := foldl reduce_bit p [6; 5; 4; 3; 2; 1; 0] mod 2 ^ 8.

Definition gf256_mul_entry (a b : Z) : Z :=
  let p := foldl (fun p i => if Z.land (Z.shiftr b i) 1 =? 1 then Z.lxor p (Z.shiftl a i) else p)
             0 (seqZ 0 8) in
  gf256_reduce p.

Definition GF256_MUL_TABLE : list (list Z) :=
  (fun a => (fun b => gf256_mul_entry a b) <$> seqZ 0 256) <$> seqZ 0 256.

Definition Block8_mul (a b : Z) : Z :=
  nth (Z.to_nat b) (nth (Z.to_nat a) GF256_MUL_TABLE []) 0.

(** The first [b] in [1..255] with [a * b = 1]; zero stays zero. *)
Definition inv_entry (a : Z) : Z :=
  if a =? 0 then 0
  else match list_find (fun b => Block8_mul a b = 1) (seqZ 1 255) with
       | Some (_, b) => b
       | None => 0
       end.

Definition GF256_INV_TABLE : list Z := inv_entry <$> seqZ 0 256.
Definition SQR_TABLE : list Z := (fun a => Block8_mul a a) <$> seqZ 0 256.

Definition Block8_invert (a : Z) : Z := nth (Z.to_nat a) GF256_INV_TABLE 0.
Definition Block8_square (a : Z) : Z := nth (Z.to_nat a) SQR_TABLE 0.

Definition Block8 : TowerOps := mkTower 8 Block8_mul Block8_square Block8_invert 0x20.

(** ** Packed quadratic extensions *)

Section Quad.
Variable F : TowerOps.
Let w := BITS F.

Definition quad_new (lo hi : Z) : Z := Z.lor (Z.shiftl hi w) lo.
Definition quad_split (x : Z) : Z * Z := (x mod 2 ^ w, Z.shiftr x w mod 2 ^ w).

Definition quad_square (x : Z) : Z :=
  let '(a, b) := quad_split x in
  let a2 := tsquare F a in
  let b2 := tsquare F b in
  let lo := tadd a2 (tmul F b2 (EXTENSION_TAU F)) in
  let hi := b2 in
  quad_new lo hi.

Definition quad_invert (x : Z) : Z :=
  let '(l, h) := quad_split x in
  let h2 := tmul F h h in
  let l2 := tmul F l l in
  let hl := tmul F h l in
  let norm := tadd (tadd (tmul F h2 (EXTENSION_TAU F)) hl) l2 in
  let norm_inv := tinvert F norm in
  let res_hi := tmul F h norm_inv in
  let res_lo := tmul F (tadd h l) norm_inv in
  quad_new res_lo res_hi.

Definition quad_mul (x y : Z) : Z :=
  let '(a0, a1) := quad_split x in
  let '(b0, b1) := quad_split y in
  let v0 := tmul F a0 b0 in
  let v1 := tmul F a1 b1 in
  let v_sum := tmul F (tadd a0 a1) (tadd b0 b1) in
  let c_lo := tadd v0 (tmul F v1 (EXTENSION_TAU F)) in
  let c_hi := tadd v0 v_sum in
  quad_new c_lo c_hi.
End Quad.

Definition Block16 : TowerOps :=
  mkTower 16 (quad_mul Block8) (quad_square Block8) (quad_invert Block8) 0x2000.
Definition Block32 : TowerOps :=
  mkTower 32 (quad_mul Block16) (quad_square Block16) (quad_invert Block16) 0x20000000.
Definition Block64 : TowerOps :=
  mkTower 64 (quad_mul Block32) (quad_square Block32) (quad_invert Block32) 0x2000000000000000.
Definition Block128 : TowerOps :=
  mkTower 128 (quad_mul Block64) (quad_square Block64) (quad_invert Block64)
    0x20000000000000000000000000000000.

(** ** GF(2^256) as pairs *)

Record Block256 := mkBlock256 { lo : Z; hi : Z }.

Definition Block256_TAU : Block256 := mkBlock256 0 (EXTENSION_TAU Block128).
Definition Block256_ZERO : Block256 := mkBlock256 0 0.
Definition Block256_ONE : Block256 := mkBlock256 1 0.
Definition from_base (value : Z) : Block256 := mkBlock256 value 0.
Definition is_in_base_subfield (x : Block256) : bool := hi x =? 0.

Definition Block256_add (x y : Block256) : Block256 :=
  mkBlock256 (tadd (lo x) (lo y)) (tadd (hi x) (hi y)).
Definition Block256_sub (x y : Block256) : Block256 := Block256_add x y.

Definition Block256_square (x : Block256) : Block256 :=
  let lo2 := tsquare Block128 (lo x) in
  let hi2 := tsquare Block128 (hi x) in
  mkBlock256 (tadd lo2 (tmul Block128 hi2 (EXTENSION_TAU Block128))) hi2.

Definition Block256_mul (x y : Block256) : Block256 :=
  let v0 := tmul Block128 (lo x) (lo y) in
  let v1 := tmul Block128 (hi x) (hi y) in
  let v_sum := tmul Block128 (tadd (lo x) (hi x)) (tadd (lo y) (hi y)) in
  mkBlock256 (tadd v0 (tmul Block128 v1 (EXTENSION_TAU Block128))) (tadd v0 v_sum).

Definition Block256_invert (x : Block256) : Block256 :=
  let lo2 := tsquare Block128 (lo x) in
  let hi2 := tsquare Block128 (hi x) in
  let hi_lo := tmul Block128 (hi x) (lo x) in
  let norm := tadd (tadd (tmul Block128 hi2 (EXTENSION_TAU Block128)) hi_lo) lo2 in
  let norm_inv := tinvert Block128 norm in
  mkBlock256 (tmul Block128 (tadd (hi x) (lo x)) norm_inv) (tmul Block128 (hi x) norm_inv).

(** The challenge map from two rate lanes of a sponge. *)
Definition from_raw_challenge_lanes (lo raw_hi : Z) : Block256 :=
  mkBlock256 lo
    (tadd (tadd (tsquare Block128 raw_hi) raw_hi) (EXTENSION_TAU Block128)).

(** ** Conversions and bytes *)

(** The [From] conversions between integers and levels: truncation to the width
    of the target (the identity when widening). *)
Definition tower_from (F : TowerOps) (val : Z) : Z := val mod 2 ^ BITS F.

Inductive SerializationError := SerializationErr.

(** [serialize] writes the first [n] bytes of the buffer. *)
Definition tower_serialize (n : nat) (x : Z) (writer : list Z)
  : result SerializationError (list Z) :=
  if (length writer <? n)%nat then Err SerializationErr
  else Ok (to_le_bytes n x ++ drop n writer).

Definition tower_deserialize (n : nat) (bytes : list Z) : result SerializationError Z :=
  if (length bytes <? n)%nat then Err SerializationErr
  else Ok (from_le_bytes (take n bytes)).

Definition from_uniform_bytes (n : nat) (bytes : list Z) : Z := from_le_bytes (take n bytes).

Definition Block256_serialize (x : Block256) (writer : list Z)
  : result SerializationError (list Z) :=
  if (length writer <? 32)%nat then Err SerializationErr
  else
    a ← tower_serialize 16 (lo x) (take 16 writer);
    b ← tower_serialize 16 (hi x) (take 16 (drop 16 writer));
    Ok (a ++ b ++ drop 32 writer).

Definition Block256_deserialize (bytes : list Z) : result SerializationError Block256 :=
  if (length bytes <? 32)%nat then Err SerializationErr
  else
    l ← tower_deserialize 16 (take 16 bytes);
    h ← tower_deserialize 16 (take 16 (drop 16 bytes));
    Ok (mkBlock256 l h).

(** ** The laws of a level *)

Class TowerLaws (F : TowerOps) : Prop := {
  bits_pos : 0 < BITS F;
  tmul_range : forall x y, in_range (BITS F) x -> in_range (BITS F) y ->
    in_range (BITS F) (tmul F x y);
  tinvert_range : forall x, in_range (BITS F) x -> in_range (BITS F) (tinvert F x);
  tau_range : in_range (BITS F) (EXTENSION_TAU F);
  tmul_comm : forall x y, in_range (BITS F) x -> in_range (BITS F) y -> tmul F x y = tmul F y x;
  tmul_assoc : forall x y z, in_range (BITS F) x -> in_range (BITS F) y -> in_range (BITS F) z ->
    tmul F x (tmul F y z) = tmul F (tmul F x y) z;
  tmul_1_l : forall x, in_range (BITS F) x -> tmul F 1 x = x;
  tmul_distr : forall x y z, in_range (BITS F) x -> in_range (BITS F) y -> in_range (BITS F) z ->
    tmul F (tadd x y) z = tadd (tmul F x z) (tmul F y z);
  tsquare_mul : forall x, in_range (BITS F) x -> tsquare F x = tmul F x x;
  tinvert_mul : forall x, in_range (BITS F) x -> x <> 0 -> tmul F x (tinvert F x) = 1;
  tinvert_0 : tinvert F 0 = 0;
  tau_no_root : forall y, in_range (BITS F) y -> tadd (tmul F y y) y <> EXTENSION_TAU F
}.

(** ** Words as a type *)

Definition word (w : Z) : Type := dsig (fun x => in_range w x).

#[export] Instance in_range_dec w x : Decision (in_range w x).
Proof. unfold in_range. apply _. Defined.

Definition val {w} (x : word w) : Z := proj1_sig x.

Definition to_word {w} (x : Z) (H : in_range w x) : word w := dexist x H.

Lemma word_range {w} (x : word w) : in_range w (val x).
Proof. exact (proj2_dsig x). Qed.

Lemma word_eq {w} (x y : word w) : val x = val y -> x = y.
Proof. apply dsig_eq. Qed.

Lemma word_val {w} x (H : in_range w x) : val (to_word x H) = x.
Proof. reflexivity. Qed.

Section WordField.
Variable F : TowerOps.
Context `{HF : !TowerLaws F}.
Abbreviation W := (word (BITS F)).

Lemma bits_nonneg : 0 <= BITS F.
Proof. pose proof bits_pos. lia. Qed.

Lemma one_range : in_range (BITS F) 1.
Proof.
  pose proof bits_pos. split; [lia|]. change 1 with (2 ^ 0) at 1. apply Z.pow_lt_mono_r; lia.
Qed.

Lemma zero_range : in_range (BITS F) 0.
Proof. split; [lia|apply pow2_pos, bits_nonneg]. Qed.

Definition w0 : W := to_word 0 zero_range.
Definition w1 : W := to_word 1 one_range.
Definition wadd (x y : W) : W :=
  to_word (tadd (val x) (val y)) (lxor_range _ _ _ bits_nonneg (word_range x) (word_range y)).
Definition wmul (x y : W) : W :=
  to_word (tmul F (val x) (val y)) (tmul_range _ _ (word_range x) (word_range y)).
Definition winv (x : W) : W := to_word (tinvert F (val x)) (tinvert_range _ (word_range x)).
Definition wtau : W := to_word (EXTENSION_TAU F) tau_range.

#[refine] Definition word_field : Char2Field W := {|
  f0 := w0; f1 := w1; fadd := wadd; fmul := wmul; finv := winv
|}.
Proof.
  all: try (intros; apply word_eq; cbn).
  - unfold tadd. symmetry. apply Z.lxor_assoc.
  - apply Z.lxor_comm.
  - apply Z.lxor_0_l.
  - apply Z.lxor_nilpotent.
  - apply tmul_assoc; apply word_range.
  - apply tmul_comm; apply word_range.
  - apply tmul_1_l, word_range.
  - apply tmul_distr; apply word_range.
  - apply tinvert_mul; [apply word_range|]. intros E.
    match goal with H : _ <> _ |- _ => apply H end. now apply word_eq.
  - apply tinvert_0.
  - intros E. apply (f_equal val) in E. cbn in E. discriminate.
Defined.

Lemma word_no_root : @no_root W word_field wtau.
Proof.
  intros y E. apply (f_equal val) in E. cbn in E.
  exact (tau_no_root _ (word_range y) E).
Qed.
End WordField.

(** ** The packed extension represents pairs *)

Section QuadLaws.
Variable F : TowerOps.
Context `{HF : !TowerLaws F}.
Abbreviation w := (BITS F).
Abbreviation W := (word w).
#[local] Instance base_field : Char2Field W := word_field F.

Definition pack (p : W * W) : Z := quad_new F (val p.1) (val p.2).
Definition unpack (x : Z) : W * W :=
  (to_word (x mod 2 ^ w) (Z.mod_pos_bound _ _ (pow2_pos _ (bits_nonneg F))),
   to_word (Z.shiftr x w mod 2 ^ w) (Z.mod_pos_bound _ _ (pow2_pos _ (bits_nonneg F)))).

Lemma quad_new_add lo hi : in_range w lo -> 0 <= hi -> quad_new F lo hi = hi * 2 ^ w + lo.
Proof.
  intros Hl Hh. unfold quad_new. pose proof (bits_nonneg F).
  rewrite lor_shiftl_add by (assumption || lia). lia.
Qed.

Lemma pack_val p : pack p = val p.2 * 2 ^ w + val p.1.
Proof. apply quad_new_add; [apply word_range|]. apply (word_range p.2). Qed.

Lemma pack_range p : in_range (2 * w) (pack p).
Proof.
  rewrite pack_val. pose proof (word_range p.1) as [? ?]. pose proof (word_range p.2) as [? ?].
  pose proof (bits_nonneg F). replace (2 * w) with (w + w) by lia.
  unfold in_range. rewrite Z.pow_add_r by lia. nia.
Qed.

Lemma quad_split_pack p : quad_split F (pack p) = (val p.1, val p.2).
Proof.
  unfold quad_split. rewrite pack_val. pose proof (word_range p.1) as [? ?].
  pose proof (word_range p.2) as [? ?]. pose proof (bits_nonneg F).
  pose proof (pow2_pos w ltac:(assumption)).
  rewrite Z.shiftr_div_pow2 by assumption. f_equal.
  - rewrite Z.add_comm, Z.mod_add by lia. apply Z.mod_small. lia.
  - rewrite Z.div_add_l, (Z.div_small (val p.1)), Z.add_0_r by lia.
    apply Z.mod_small. lia.
Qed.

Lemma unpack_pack p : unpack (pack p) = p.
Proof.
  pose proof (quad_split_pack p) as E. unfold quad_split in E.
  injection E as E1 E2. destruct p as [a b].
  unfold unpack. f_equal; apply word_eq; assumption.
Qed.

Lemma pack_unpack x : in_range (2 * w) x -> pack (unpack x) = x.
Proof.
  intros [H0 H1]. rewrite pack_val. cbn [unpack fst snd]. rewrite !word_val.
  pose proof (bits_nonneg F). pose proof (pow2_pos w ltac:(assumption)).
  rewrite Z.shiftr_div_pow2 by assumption.
  replace (2 * w) with (w + w) in H1 by lia. rewrite Z.pow_add_r in H1 by assumption.
  rewrite (Z.mod_small (x / 2 ^ w)).
  - pose proof (Z.div_mod x (2 ^ w)). lia.
  - split; [apply Z.div_pos; lia|]. apply Z.div_lt_upper_bound; lia.
Qed.

Lemma quad_pack_inj p q : pack p = pack q -> p = q.
Proof. intros E. rewrite <- (unpack_pack p), E. apply unpack_pack. Qed.

(** Every packed operation is the operation on pairs. *)
Lemma quad_mul_pack p q : quad_mul F (pack p) (pack q) = pack (ext_mul (wtau F) p q).
Proof. unfold quad_mul. rewrite !quad_split_pack. reflexivity. Qed.

Lemma quad_invert_pack p : quad_invert F (pack p) = pack (ext_inv (wtau F) p).
Proof. unfold quad_invert. rewrite quad_split_pack. reflexivity. Qed.

Lemma quad_square_pack p : quad_square F (pack p) = pack (ext_square (wtau F) p).
Proof.
  unfold quad_square. rewrite quad_split_pack.
  rewrite !tsquare_mul by apply word_range. reflexivity.
Qed.

Lemma tadd_pack p q : tadd (pack p) (pack q) = pack (ext_add p q).
Proof.
  unfold tadd, pack, quad_new. cbn [ext_add fst snd].
  apply Z.bits_inj'. intros n Hn.
  rewrite Z.lxor_spec, !Z.lor_spec.
  change (val (fadd p.1 q.1)) with (Z.lxor (val p.1) (val q.1)).
  change (val (fadd p.2 q.2)) with (Z.lxor (val p.2) (val q.2)).
  rewrite Z.shiftl_lxor, !Z.lxor_spec.
  pose proof (word_range p.1) as [? ?]. pose proof (word_range q.1) as [? ?].
  pose proof (bits_nonneg F).
  destruct (Z.lt_ge_cases n w).
  - rewrite !(Z.shiftl_spec_low) by lia. reflexivity.
  - rewrite (testbit_small w (val p.1)), (testbit_small w (val q.1)) by (unfold in_range; lia).
    now rewrite !orb_false_r.
Qed.

#[local] Instance pair_field : Char2Field (W * W) := ext_field (wtau F) (word_no_root F).

Lemma pack_0 : pack f0 = 0.
Proof. rewrite pack_val. reflexivity. Qed.

Lemma pack_1 : pack f1 = 1.
Proof. rewrite pack_val. reflexivity. Qed.

(** Reduce a law on words to the law on pairs. *)
Ltac on_pairs :=
  intros; repeat match goal with
  | H : in_range (2 * BITS F) ?x |- _ =>
      let p := fresh "p" in
      rewrite <- (pack_unpack x H); set (p := unpack x) in *; clearbody p; clear H x
  end.

Lemma quad_laws tau' :
  tau' = Z.shiftl (EXTENSION_TAU F) w ->
  TowerLaws (mkTower (2 * w) (quad_mul F) (quad_square F) (quad_invert F) tau').
Proof.
  intros ->. pose proof (bits_pos (F := F)) as Hb.
  assert (Ht : Z.shiftl (EXTENSION_TAU F) w = pack (f0, wtau F))
    by (unfold pack, quad_new; cbn; now rewrite Z.lor_0_r).
  constructor; cbn [BITS tmul tsquare tinvert EXTENSION_TAU].
  - lia.
  - on_pairs. rewrite quad_mul_pack. apply pack_range.
  - on_pairs. rewrite quad_invert_pack. apply pack_range.
  - rewrite Ht. apply pack_range.
  - on_pairs. rewrite !quad_mul_pack. f_equal. exact (@fmul_comm _ pair_field _ _).
  - on_pairs. rewrite !quad_mul_pack. f_equal. exact (@fmul_assoc _ pair_field _ _ _).
  - on_pairs. rewrite <- pack_1, quad_mul_pack. f_equal. exact (@fmul_1_l _ pair_field _).
  - on_pairs. rewrite tadd_pack, !quad_mul_pack, tadd_pack. f_equal. exact (@fmul_distr _ pair_field _ _ _).
  - on_pairs. rewrite quad_square_pack, quad_mul_pack. f_equal. apply ext_square_mul.
  - intros x Hx. rewrite <- (pack_unpack x Hx). intros Hne.
    assert (unpack x <> f0) by (intros E; apply Hne; rewrite E; apply pack_0).
    rewrite quad_invert_pack, quad_mul_pack, <- pack_1. f_equal. now apply (@finv_mul _ pair_field).
  - rewrite <- pack_0 at 1. rewrite quad_invert_pack, <- pack_0. f_equal. exact (@finv_0 _ pair_field).
  - on_pairs. rewrite Ht, quad_mul_pack, tadd_pack. intros E. apply quad_pack_inj in E.
    revert E. apply (ext_no_root (wtau F) (word_no_root F)).
Qed.

(** [x^(2^n) = x] at one level gives [x^(2^2n) = x] at the next. *)
Lemma quad_frob n :
  (forall x, in_range w x -> Nat.iter n (fun y => tmul F y y) x = x) ->
  forall x, in_range (2 * w) x -> Nat.iter (n + n) (fun y => quad_mul F y y) x = x.
Proof.
  intros H x Hx. rewrite <- (pack_unpack x Hx). generalize (unpack x). clear x Hx. intros p.
  assert (E : forall m, Nat.iter m (fun y => quad_mul F y y) (pack p) = pack (@frob _ pair_field m p)).
  { induction m as [|m IH]; [reflexivity|]. cbn [Nat.iter nat_rect].
    unfold Nat.iter in IH. rewrite IH. apply quad_mul_pack. }
  assert (B : forall y : W, frob n y = y).
  { intros y. apply word_eq. rewrite <- (H (val y) (word_range y)).
    clear. induction n as [|n IH]; [reflexivity|]. cbn [Nat.iter nat_rect].
    unfold Nat.iter in IH. rewrite <- IH. reflexivity. }
  rewrite E. f_equal. apply (ext_frob_id (wtau F) (word_no_root F) n B).
Qed.

(** The base level is a subfield of the packed one. *)
Lemma embed_pack x (H : in_range w x) : x = pack (to_word x H, f0).
Proof. rewrite pack_val. change (x = 0 * 2 ^ w + x). lia. Qed.

Lemma quad_mul_embed a b : in_range w a -> in_range w b -> quad_mul F a b = tmul F a b.
Proof.
  intros Ha Hb. rewrite (embed_pack a Ha), (embed_pack b Hb) at 1.
  rewrite quad_mul_pack, ext_embed_mul. symmetry. apply (embed_pack _ (tmul_range a b Ha Hb)).
Qed.

Lemma quad_invert_embed a : in_range w a -> quad_invert F a = tinvert F a.
Proof.
  intros Ha. rewrite (embed_pack a Ha) at 1. rewrite quad_invert_pack, ext_embed_inv.
  symmetry. apply (embed_pack _ (tinvert_range a Ha)).
Qed.

Lemma quad_square_embed a : in_range w a -> quad_square F a = tsquare F a.
Proof.
  intros Ha. rewrite (tsquare_mul a Ha). rewrite (embed_pack a Ha) at 1.
  rewrite quad_square_pack, ext_square_mul, ext_embed_mul.
  symmetry. apply (embed_pack _ (tmul_range a a Ha Ha)).
Qed.
End QuadLaws.

(** ** GF(2^8) by computation and linearity *)

Definition bytes256 : list Z := seqZ 0 256.

Lemma bytes256_elem x : x ∈ bytes256 <-> in_range 8 x.
Proof. unfold bytes256, in_range. rewrite elem_of_seqZ. reflexivity. Qed.

Lemma nth_seqZ {A} (f : Z -> A) d x :
  in_range 8 x -> nth (Z.to_nat x) (f <$> bytes256) d = f x.
Proof.
  intros [H0 H1]. rewrite nth_lookup, list_lookup_fmap.
  unfold bytes256. rewrite lookup_seqZ_lt by lia. cbn. f_equal. lia.
Qed.

Lemma Block8_mul_entry a b :
  in_range 8 a -> in_range 8 b -> Block8_mul a b = gf256_mul_entry a b.
Proof.
  intros Ha Hb. unfold Block8_mul, GF256_MUL_TABLE. fold bytes256.
  rewrite (nth_seqZ (fun a => (fun b => gf256_mul_entry a b) <$> bytes256)) by exact Ha.
  apply (nth_seqZ (fun b => gf256_mul_entry a b)), Hb.
Qed.

(** A boolean test of all bytes, and of all pairs. *)
Lemma forall_bytes (P : Z -> bool) :
  forallb P bytes256 = true -> forall x, in_range 8 x -> P x = true.
Proof.
  intros H x Hx. apply bytes256_elem, list_elem_of_In in Hx.
  exact (proj1 (forallb_forall P bytes256) H x Hx).
Qed.

Lemma gf256_range a b : in_range 8 (gf256_mul_entry a b).
Proof. apply Z.mod_pos_bound. reflexivity. Qed.

(** The carry-less product and the reduction are linear in each argument. *)
Lemma gf256_clmul_sum a b :
  foldl (fun p i => if Z.land (Z.shiftr b i) 1 =? 1 then Z.lxor p (Z.shiftl a i) else p)
    0 (seqZ 0 8)
  = xor_sum (fun i => if Z.testbit b i then Z.shiftl a i else 0) (seqZ 0 8).
Proof.
  rewrite <- (Z.lxor_0_l (xor_sum _ _)). apply foldl_cond_xor.
  intros i Hi%elem_of_seqZ. apply shifted_bit. lia.
Qed.

Lemma reduce_bits_linear l : Forall (fun k => 0 <= k) l -> linear (fun p => foldl reduce_bit p l).
Proof.
  induction 1 as [|k l Hk Hl IH]; intros a b; cbn [foldl]; [reflexivity|].
  rewrite <- IH. f_equal. unfold reduce_bit. rewrite !shifted_bit by lia.
  rewrite Z.lxor_spec. xor_bits (Z.testbit a (8 + k)) (Z.testbit b (8 + k)).
Qed.

Lemma gf256_reduce_linear : linear gf256_reduce.
Proof.
  intros a b. unfold gf256_reduce.
  rewrite reduce_bits_linear by (repeat constructor; lia). now rewrite lxor_mod by lia.
Qed.

Lemma gf256_linear_r x : linear (gf256_mul_entry x).
Proof.
  intros a b. unfold gf256_mul_entry. rewrite !gf256_clmul_sum.
  rewrite <- gf256_reduce_linear, <- xor_sum_lxor. f_equal. apply xor_sum_ext. intros i _.
  rewrite Z.lxor_spec. xor_bits (Z.testbit a i) (Z.testbit b i).
Qed.

Lemma gf256_linear_l y : linear (fun x => gf256_mul_entry x y).
Proof.
  intros a b. unfold gf256_mul_entry. rewrite !gf256_clmul_sum.
  rewrite <- gf256_reduce_linear, <- xor_sum_lxor. f_equal. apply xor_sum_ext. intros i _.
  destruct (Z.testbit y i); [apply Z.shiftl_lxor|reflexivity].
Qed.

Lemma gf256_comm x y : in_range 8 x -> in_range 8 y -> gf256_mul_entry x y = gf256_mul_entry y x.
Proof.
  intros Hx Hy. revert y Hy.
  apply (linear_ext 8); [lia|apply gf256_linear_r|apply gf256_linear_l|]. intros j Hj.
  revert x Hx. apply (linear_ext 8 (fun x => gf256_mul_entry x (2 ^ j)));
    [lia|apply gf256_linear_l|apply gf256_linear_r|]. intros i Hi.
  apply Z.eqb_eq. revert j Hj. apply forallb_seqZ. revert i Hi. apply forallb_seqZ.
  vm_compute. reflexivity.
Qed.

Lemma gf256_assoc x y z :
  in_range 8 x -> in_range 8 y -> in_range 8 z ->
  gf256_mul_entry x (gf256_mul_entry y z) = gf256_mul_entry (gf256_mul_entry x y) z.
Proof.
  intros Hx Hy Hz. revert z Hz.
  apply (linear_ext 8); [lia|apply linear_compose; apply gf256_linear_r|apply gf256_linear_r|].
  intros k Hk. revert y Hy.
  apply (linear_ext 8 (fun y => gf256_mul_entry x (gf256_mul_entry y (2 ^ k)))
    (fun y => gf256_mul_entry (gf256_mul_entry x y) (2 ^ k))); [lia| | |].
  { apply (linear_compose (gf256_mul_entry x)); [apply gf256_linear_r|apply gf256_linear_l]. }
  { apply (linear_compose (fun u => gf256_mul_entry u (2 ^ k)));
      [apply gf256_linear_l|apply gf256_linear_r]. }
  intros j Hj. revert x Hx.
  apply (linear_ext 8 (fun x => gf256_mul_entry x (gf256_mul_entry (2 ^ j) (2 ^ k)))
    (fun x => gf256_mul_entry (gf256_mul_entry x (2 ^ j)) (2 ^ k))); [lia| | |].
  { apply gf256_linear_l. }
  { apply (linear_compose (fun u => gf256_mul_entry u (2 ^ k))); apply gf256_linear_l. }
  intros i Hi. apply Z.eqb_eq. revert k Hk. apply forallb_seqZ. revert j Hj. apply forallb_seqZ.
  revert i Hi. apply forallb_seqZ. vm_compute. reflexivity.
Qed.

#[export] Instance Block8_laws : TowerLaws Block8.
Proof.
  assert (M : forall x y, in_range 8 x -> in_range 8 y -> tmul Block8 x y = gf256_mul_entry x y)
    by exact Block8_mul_entry.
  assert (R : forall x y, in_range 8 x -> in_range 8 y -> in_range 8 (tmul Block8 x y))
    by (intros; rewrite M by assumption; apply gf256_range).
  assert (Inv : forallb (fun a => (0 <=? Block8_invert a) && (Block8_invert a <? 256)
    && ((a =? 0) || (gf256_mul_entry a (Block8_invert a) =? 1))) bytes256 = true)
    by (vm_compute; reflexivity).
  assert (Ir : forall a, in_range 8 a -> in_range 8 (Block8_invert a)).
  { intros a Ha. pose proof (forall_bytes _ Inv a Ha) as H. cbn beta in H.
    apply andb_true_iff in H as [[H1 H2]%andb_true_iff _]. split; lia. }
  assert (Root : forallb (fun y => negb (Z.lxor (gf256_mul_entry y y) y =? 0x20)) bytes256 = true)
    by (vm_compute; reflexivity).
  assert (One : forallb (fun y => gf256_mul_entry 1 y =? y) bytes256 = true)
    by (vm_compute; reflexivity).
  constructor; cbn [BITS Block8 tsquare tinvert EXTENSION_TAU].
  - lia.
  - exact R.
  - exact Ir.
  - split; lia.
  - intros x y Hx Hy. rewrite !M by assumption. now apply gf256_comm.
  - intros x y z Hx Hy Hz. rewrite (M y z), (M x y), !M by auto using gf256_range.
    now apply gf256_assoc.
  - intros x Hx. rewrite M by (assumption || split; lia).
    now apply Z.eqb_eq, (forall_bytes (fun y => gf256_mul_entry 1 y =? y)).
  - intros x y z Hx Hy Hz. unfold tadd.
    rewrite !M by (assumption || apply lxor_range; lia || assumption).
    apply (gf256_linear_l z).
  - intros x Hx. unfold Block8_square, SQR_TABLE. fold bytes256. now rewrite nth_seqZ.
  - intros x Hx Hne. rewrite M by auto.
    pose proof (forall_bytes _ Inv x Hx) as H. cbn beta in H.
    apply andb_true_iff in H as [_ [H|H]%orb_true_iff]; [lia|]. now apply Z.eqb_eq.
  - vm_compute. reflexivity.
  - intros y Hy. rewrite M by assumption. unfold tadd.
    pose proof (forall_bytes _ Root y Hy) as H. cbn beta in H. now apply negb_true_iff, Z.eqb_neq in H.
Qed.

#[export] Instance Block16_laws : TowerLaws Block16 := quad_laws Block8 0x2000 eq_refl.
#[export] Instance Block32_laws : TowerLaws Block32 := quad_laws Block16 0x20000000 eq_refl.
#[export] Instance Block64_laws : TowerLaws Block64 :=
  quad_laws Block32 0x2000000000000000 eq_refl.
#[export] Instance Block128_laws : TowerLaws Block128 :=
  quad_laws Block64 0x20000000000000000000000000000000 eq_refl.

(** [x^(2^w) = x] at every level. *)
Lemma Block8_frob x : in_range 8 x -> Nat.iter 8 (fun y => tmul Block8 y y) x = x.
Proof.
  intros Hx. apply Z.eqb_eq. revert x Hx. apply forall_bytes. vm_compute. reflexivity.
Qed.

Lemma Block128_frob x : in_range 128 x -> Nat.iter 128 (fun y => tmul Block128 y y) x = x.
Proof.
  exact (quad_frob Block64 64 (quad_frob Block32 32 (quad_frob Block16 16
    (quad_frob Block8 8 Block8_frob))) x).
Qed.

(** ** GF(2^256) *)

Abbreviation W128 := (word 128).
#[export] Instance W128_field : Char2Field W128 := word_field Block128.
#[export] Instance pair128_field : Char2Field (W128 * W128) :=
  ext_field (wtau Block128) (word_no_root Block128).

Definition wf256 (x : Block256) : Prop := in_range 128 (lo x) /\ in_range 128 (hi x).

Definition of_pair (p : W128 * W128) : Block256 := mkBlock256 (val p.1) (val p.2).
Definition to_pair (x : Block256) (H : wf256 x) : W128 * W128 :=
  (to_word (lo x) (proj1 H), to_word (hi x) (proj2 H)).

Lemma of_to_pair x H : of_pair (to_pair x H) = x.
Proof. now destruct x. Qed.

Lemma of_pair_inj p q : of_pair p = of_pair q -> p = q.
Proof. destruct p, q. intros [= E1 E2]. f_equal; now apply word_eq. Qed.

Lemma of_pair_wf p : wf256 (of_pair p).
Proof. split; apply word_range. Qed.

(** The pair operations on words, for a level not yet fixed. *)
Section PairOps.
Variable F : TowerOps.
Context `{HF : !TowerLaws F}.
#[local] Instance level_field : Char2Field (word (BITS F)) := word_field F.

Lemma val_mul_pair p q :
  mkBlock256
    (tadd (tmul F (val p.1) (val q.1)) (tmul F (tmul F (val p.2) (val q.2)) (EXTENSION_TAU F)))
    (tadd (tmul F (val p.1) (val q.1))
       (tmul F (tadd (val p.1) (val p.2)) (tadd (val q.1) (val q.2))))
  = mkBlock256 (val (ext_mul (wtau F) p q).1) (val (ext_mul (wtau F) p q).2).
Proof. reflexivity. Qed.

Lemma val_square_pair p :
  mkBlock256
    (tadd (tsquare F (val p.1)) (tmul F (tsquare F (val p.2)) (EXTENSION_TAU F)))
    (tsquare F (val p.2))
  = mkBlock256 (val (ext_mul (wtau F) p p).1) (val (ext_mul (wtau F) p p).2).
Proof. rewrite <- ext_square_mul, !tsquare_mul by apply word_range. reflexivity. Qed.

Lemma val_inv_pair p :
  let norm_inv := tinvert F (tadd (tadd (tmul F (tsquare F (val p.2)) (EXTENSION_TAU F))
                    (tmul F (val p.2) (val p.1))) (tsquare F (val p.1))) in
  mkBlock256 (tmul F (tadd (val p.2) (val p.1)) norm_inv) (tmul F (val p.2) norm_inv)
  = mkBlock256 (val (ext_inv (wtau F) p).1) (val (ext_inv (wtau F) p).2).
Proof. cbn zeta. rewrite !tsquare_mul by apply word_range. reflexivity. Qed.

Lemma val_challenge_hi (y : word (BITS F)) :
  tadd (tadd (tsquare F (val y)) (val y)) (EXTENSION_TAU F)
  = val (fadd (fadd (fmul y y) y) (wtau F)).
Proof. rewrite tsquare_mul by apply word_range. reflexivity. Qed.
End PairOps.

Lemma Block256_add_pair p q : Block256_add (of_pair p) (of_pair q) = of_pair (ext_add p q).
Proof. reflexivity. Qed.

Lemma Block256_mul_pair p q :
  Block256_mul (of_pair p) (of_pair q) = of_pair (ext_mul (wtau Block128) p q).
Proof. exact (val_mul_pair Block128 p q). Qed.

Lemma Block256_square_pair p :
  Block256_square (of_pair p) = of_pair (ext_mul (wtau Block128) p p).
Proof. exact (val_square_pair Block128 p). Qed.

Lemma Block256_invert_pair p :
  Block256_invert (of_pair p) = of_pair (ext_inv (wtau Block128) p).
Proof. exact (val_inv_pair Block128 p). Qed.

(** ** Theorems *)

(** C37. Every packed level of the tower is a field of characteristic two: on
    words of its width multiplication is closed, commutative, associative,
    distributes over xor and has unit 1, [square] is the product with itself,
    [invert] gives the inverse of every non-zero element (and 0 for 0), and
    [y^2 + y = TAU] has no solution, which makes the next level a field. *)
Theorem tower_field_laws :
  forall F, F ∈ [Block8; Block16; Block32; Block64; Block128] -> TowerLaws F.
Proof.
  intros F H. rewrite !elem_of_cons in H.
  destruct H as [->|[->|[->|[->|[->|H]]]]]; [apply _..|]. inversion H.
Qed.

Lemma tower_field_laws_witness :
  tmul Block128 0x123456789abcdef00fedcba987654321
    (tinvert Block128 0x123456789abcdef00fedcba987654321) = 1.
Proof.
  apply (tinvert_mul (TowerLaws := tower_field_laws Block128 ltac:(set_solver +)));
    [split; vm_compute; congruence|discriminate].
Defined.

(** Each level is a subfield of the next: words of a level, read as words
    of the next level, have the same products, squares and inverses. *)
Theorem tower_subfield (F : TowerOps) (a b : Z) :
  TowerLaws F -> in_range (BITS F) a -> in_range (BITS F) b ->
  quad_mul F a b = tmul F a b /\ quad_square F a = tsquare F a /\ quad_invert F a = tinvert F a.
Proof.
  intros HF Ha Hb. split; [now apply quad_mul_embed|].
  split; [now apply quad_square_embed|now apply quad_invert_embed].
Qed.

(** The pair operations of [Block256] make the field GF(2^256): for
    coordinates of 128 bits multiplication is commutative, associative and
    distributive with unit one, squaring is the product with itself, and every
    non-zero element has the inverse that [invert] computes. *)
Theorem block256_field (x y z : Block256) :
  wf256 x -> wf256 y -> wf256 z ->
  wf256 (Block256_mul x y)
  /\ Block256_mul x y = Block256_mul y x
  /\ Block256_mul x (Block256_mul y z) = Block256_mul (Block256_mul x y) z
  /\ Block256_mul (Block256_add x y) z = Block256_add (Block256_mul x z) (Block256_mul y z)
  /\ Block256_mul Block256_ONE x = x
  /\ Block256_square x = Block256_mul x x
  /\ (x <> Block256_ZERO -> Block256_mul x (Block256_invert x) = Block256_ONE)
  /\ Block256_invert Block256_ZERO = Block256_ZERO.
Proof.
  intros Hx Hy Hz. rewrite <- (of_to_pair x Hx), <- (of_to_pair y Hy), <- (of_to_pair z Hz).
  generalize (to_pair x Hx) as p, (to_pair y Hy) as q, (to_pair z Hz) as r. clear. intros p q r.
  change Block256_ONE with (of_pair f1). change Block256_ZERO with (of_pair f0).
  rewrite Block256_square_pair, !Block256_invert_pair, !Block256_add_pair, !Block256_mul_pair,
    !Block256_add_pair.
  pose (pf := ext_field (wtau Block128) (word_no_root Block128)).
  split; [apply of_pair_wf|].
  split; [f_equal; exact (@fmul_comm _ pf p q)|].
  split; [f_equal; exact (@fmul_assoc _ pf p q r)|].
  split; [f_equal; exact (@fmul_distr _ pf p q r)|].
  split; [f_equal; exact (@fmul_1_l _ pf p)|].
  split; [reflexivity|].
  split; [intros Hne; f_equal; apply (@finv_mul _ pf p); intros E; apply Hne; now rewrite E|].
  exact (f_equal of_pair (@finv_0 _ pf)).
Qed.

Lemma block256_field_witness :
  Block256_mul (mkBlock256 5 7) (Block256_invert (mkBlock256 5 7)) = Block256_ONE.
Proof.
  apply (block256_field (mkBlock256 5 7) (mkBlock256 5 7) (mkBlock256 5 7));
    try (split; split; cbn; lia). discriminate.
Defined.

(** The challenge map avoids the base subfield and is exactly two-to-one:
    no pair of lanes gives a challenge in GF(2^128), and two pairs of lanes give
    the same challenge exactly when the low lanes agree and the high lanes are
    equal or differ by one. *)
Theorem challenge_map_two_to_one (l l' y y' : Z) :
  in_range 128 y -> in_range 128 y' ->
  is_in_base_subfield (from_raw_challenge_lanes l y) = false
  /\ (from_raw_challenge_lanes l y = from_raw_challenge_lanes l' y'
      <-> l = l' /\ (y = y' \/ y = Z.lxor y' 1)).
Proof.
  intros Hy Hy'. unfold from_raw_challenge_lanes, is_in_base_subfield. cbn [hi].
  pose (Y := to_word y Hy : W128). pose (Y' := to_word y' Hy' : W128).
  set (g := fun u : W128 => fadd (fadd (fmul u u) u) (wtau Block128)).
  assert (Eg : forall u : W128,
    tadd (tadd (tsquare Block128 (val u)) (val u)) (EXTENSION_TAU Block128) = val (g u))
    by exact (val_challenge_hi Block128).
  change y with (val Y) at 1 2 3 4. change y' with (val Y') at 1 2. rewrite !Eg. split.
  - apply Z.eqb_neq. intros H. change 0 with (val (f0 : W128)) in H. apply word_eq in H.
    apply (proj1 (fadd_eq_0 _ _)) in H. exact (word_no_root Block128 Y H).
  - assert (K : (y = y' \/ y = Z.lxor y' 1) <-> g Y = g Y').
    { unfold g. rewrite <- artin_schreier_fibre. split; (intros [H|H]; [left|right]).
      - now apply word_eq.
      - now apply word_eq.
      - now apply (f_equal val) in H.
      - now apply (f_equal val) in H. }
    rewrite K. clear. generalize (g Y) as A, (g Y') as B. intros A B. split.
    + intros [= -> H]. split; [reflexivity|]. now apply word_eq.
    + intros [-> ->]. reflexivity.
Qed.

Lemma challenge_map_witness :
  is_in_base_subfield (from_raw_challenge_lanes 17 99) = false.
Proof.
  apply (challenge_map_two_to_one 17 17 99 99); split; vm_compute; congruence.
Defined.
