(* ===== verification/Flat.v ===== *)
(** * The flat basis of GF(2^128)

    [noid_core/src/hardware.rs]: the conversion matrices between the tower basis
    and the polynomial basis modulo [x^128 + x^7 + x^2 + x + 1], and the portable
    carry-less multiplication and squaring in that basis.  The instruction-set
    kernels compute the same product; the portable path ([soft_clmul]) is the one
    modelled. *)

From Stdlib Require Import ZArith Lia Bool.
From stdpp Require Import base numbers list option gmap.
From S2P Require Import Prelude Gf2 Tower.

Open Scope Z_scope.

(** ** Basis conversion *)

(** Tower basis to polynomial basis. *)
Definition TOWER_TO_FLAT : list Z :=
  [
   0x1; 0x3d5bd35c94646a247573da4a5f7710ed;
   0xa72ec17764d7ced55e2f716f4ede412f; 0x553e92e8bc0ae9a795ed1f57f3632d4d;
   0xc7bd33d0a58cf5b4740d6c968b842acb; 0x486fb01f93aa169afd8ee716e990cf14;
   0xbee4e4dc44629cf627b537f28935c282; 0x549810e11a88dea5252b49277b1b82b4;
   0x6198d3a7b756c056bd3d5a025c8d370a; 0xb2ef6c31981e31582924ed9040490830;
   0x9ee93d00b6b040353ebf5c8e0d4401d; 0xff829109128b0bd884cb11891ab51a3c;
   0x25ce422cd636209fd58e3eee6bcdb7d7; 0x86b6a57216f083193e1b361e8a1a5bbf;
   0x38e5c77d01ea3f466707ab5ea8ff4171; 0x2de7ef9721e4b0550d4fe61188fb1bd3;
   0x5c4feb37d9ad179b297b823812957b8c; 0x8e36a06b2ac838db09f04ada993caa84;
   0xc6082bd8edaaae4873fb728376565fff; 0x9b92a729351ab577a2b0de27d713817a;
   0xb7106c3879c5c033015afe43a7bbb48f; 0xe638c5d1336cc967dd424e375f37904f;
   0xef30fbf0630e9d04f9efc7d242801381; 0x548ecca55b43556101c39dffff23087;
   0xa3dc4d913d605620dae083b969cba697; 0x60c413bae203bcfee863fce3d62d7a46;
   0xe3f02a180f232bd7f9e6c41f2ad92bb1; 0x4983d83fd28ea811148387423931f5c8;
   0x449a77f55b99ac57dcb2131788da3392; 0x611ba189d789d45401af9d0333b3f9e7;
   0xb67819253374dc0ae0ec21b8ad160234; 0xf23ff08f2566732b188cdc592a0eb8f7;
   0xc9ac57d3e240265a401dc6270f59c10; 0x3493b22a21cc4c396552505d8c638d9b;
   0x757fa4336d785da4447251e433ed42fb; 0x6d2979d4d4a745250ea377dabd44cfb2;
   0x55583ad2a44322ab8ca02871898d1f81; 0x86373be6909783ffc8bb21b3dda24f12;
   0xc3f3f28407ec57a4a53af471e53285c; 0x972c409ddb7f2db55ee11ac6a242e45c;
   0x96f938744906740774c33c247ccf85d8; 0x4cae10232a3558fa26fbc92fab97488b;
   0x8bb0008776ffc7e44db0cc1a2df288b9; 0x1d0703e4ee2237c7ab53e5b75d921bd7;
   0xff012dbc34f0271cce6d0c1b0d125e3a; 0x9aea02703d99a98cb9e1b3a368dce85b;
   0xb39755229db1f4de29498e7a13e7cdc2; 0xc31176b1b646603fc50a528e49742a0e;
   0xead0dc2950f39b1eb2c2edb9407de10d; 0xea3f3fe33d1d2b7d3cf38b78900dab86;
   0x51bd919a56eb92348316675811dc923; 0xba5ae9f94b493aa478e08aa4f415cb18;
   0x141e17265a74f46bb369c916cbaf8a25; 0x6c99c4af650a8451a195d75a7769413b;
   0x342484168e3692419b8ea7e8fdcc8f8d; 0xaa7a29ea7ae49742f8aa7027b065617d;
   0xd345f319cf8d0c5711c92a1a19cf232c; 0xbf7956da104bb930529470fbcfa3f60e;
   0xaf3c8a62ae50f00d8dd54ec40c51d402; 0x9f40c849b5f5405f91589271eefd831e;
   0x82131c9fe93d42fe3eac43b40fe78613; 0xee5d797779ee1b27b76d3ed1cee66add;
   0xb7438c8a8d29a42710da3eeb0dcaa4f4; 0x884f37a7a1f9068c7b8dbfb652cfb52;
   0x9b027a35e430ddaa521ef0fd91f39162; 0xb619b3c28e9fd05efbcd5ead6935a75c;
   0xcad054f32f966043874b2e8163127c7; 0x8ec4fff59680eaae0077f3dd83fbd947;
   0x50d8597763331f8dcea34c16608a96a7; 0x6d03608d9f2a6e86dd0d62d96a32751d;
   0x49110668fefb446975dea1bb5742ad75; 0xde3c54e5dc0bf89137cf5d286ba5868a;
   0x61121e79a40f65000fb426800e5b4f0b; 0x996944c65744223a5ef06f1eda08fd6;
   0xda3cbe76b9f383e1cde547094cf05431; 0xa3a2b75fb155f13733c11156ff19d609;
   0xfb4449056e5c6fb2d9a33f42f0a893ad; 0x128f41399db28643d0743873dc1264a;
   0xff09c9c044dd9342be235156d0bf9197; 0xcbb652c3d0896219d921f2c49b28d8e7;
   0x61102a46cc01cdf697b666aa7d3d8d45; 0x717c5e9d4a0731b69d1e33a8f128eedd;
   0xd3498c6de1db846fb5b84c3d08a26402; 0x1d074123e95f221742bb042dd2decd90;
   0x49dd214c370bbb55e8a3a82b147053be; 0x18af31dbbab9458eb16b27c0fd1c309f;
   0x61e2d820490e7be32289961803263c34; 0x107fa373d60153306bcebc6f2ea6aac5;
   0x3df814508cd896e7813397e8a778f8cd; 0x4021c8146d9e0d33e353d0c73604d58e;
   0xee2c21eb408160983c5ccee03d280f85; 0xe77f3ff735b6b82a28ab2ed8e3fc8320;
   0x8eee1c68d1cbc4b55eefff30ae3f6028; 0xfabf471e3d132661b55c0f419db06696;
   0x69a006d6b32d6e23d48dde5999c10f7d; 0x389f96875b52a0cdaf55c6a03819c6f1;
   0xd349d8dacbf6f4a04625d7953d3190bd; 0xbe8502448366699e39f5117acfd01714;
   0xa3839a34242c75f7ffc21bd9c630459b; 0xb3c2ef7bbf449f8af05d8a9a760e9407;
   0x694d27a4f1ba1074a7c2e5445f874b2d; 0x855c18884723bdcb6dff2cf4849ec19;
   0x58d911a330ce147d06afb9ccb802b7db; 0xde87764a4427a4aff5db695eda550c2a;
   0xbfa47075ed035846f2016301eb7e4009; 0xd7335e553652ccbc3f0ff542099a9636;
   0xede815347e14cec1440aa1c612391b; 0x96e7e4d4efb40213aa73764edddd4ff6;
   0x399c2dd474a47a3f36d286b7e1d3b32b; 0xcaaeb9876b882f04dc62c5f814d4f79c;
   0x5c7127c96b5c4300fe9954f7999e2f5a; 0xfe1178bc295c981e59278e0135930986;
   0xe3a9112535f5f53b6a9acc3e49877fd2; 0x3d6051a6cf2bb75e59ff8f7991cf6bad;
   0x30d97c016d51144b717181ec5f826ba3; 0xe3b2c049622bdaa3e7e81e99b46920ee;
   0x547744dda2f0145457aacf948f0aca14; 0x822e4b280fbbaf701b00d1cf2675dacf;
   0x13dae85beaa0a8bb735a39898b93504; 0xaeed75387d73a822299a17f008c4cd8c;
   0x2d4278deab8e9cdeb21b66e82f85dea7; 0x5745efd4f8b0dc873484e5f3c83ed61;
   0x456a83da121c2fc61b55c9bd216a36cd; 0x6ccd4a5d0819113889547d0e69bac59b;
   0xbec7bd6ab8e7169c06c93f34451b5abe; 0xb9e80fcc7ca8fe72faafc4143960829a;
   0xbbfefb3dd63f00f3f8407e5f20d87c6a; 0x91b376701a386e5aee6fdbd0738b4c99
  ].

(** Polynomial basis to tower basis. *)
Definition FLAT_TO_TOWER : list Z :=
  [
   0x1; 0xe9453afbbb5efa683426e20fcdbc3b96;
   0x1c17484568577f0b04c63c03208aeb8a; 0x4adf5cfe6486e00ca9f6f0b3f58b122;
   0x4bad34793b579f5c90920a4453c26f86; 0xfc24da72abcee7f5f01fbedeb26a8df9;
   0x1091dcf0350c7dc7c2e119ec5af1fc07; 0x472c8b0c136435be967e8ef8074dced9;
   0xee63773a41b8bbd26fcb07ebd4630981; 0x2fc50cfe61e714bbe42ae0de5fd0d8d;
   0x168a685e2f21945aa9736c6bb7c2895c; 0xdbec3dae32169816645d4935276b15d;
   0x1bcdfffc8342ca4dc8bfedc18a3078d9; 0x1e81239207e6ef6e793f115bf0d1ddc0;
   0xbe1603d9dcb9eef74e5b36e05726ffaf; 0xe1b26ab22e51d6585535ccbca9496a06;
   0x9f9e05a29dd55fa844808cc9a48d50c; 0x21aaba3a74e307cc2ded8391e34e8e9;
   0x4966d3e1afc209d7f157b26e887a38a; 0xaf7446de9259fba17a5602c30e34c669;
   0xf25b0fd6d577f77f9d1882fb0bc5ba0; 0x1d459f2a48cefb1c3cd4e7a6ec5dfa4b;
   0x5177981cdf5b750cc65ad9ea7ca055a4; 0x51f9fbcea7da4578c92da6c12526013e;
   0x5e5568bae10fd0bea4055c77b9a844c3; 0xe421662a1e1eec508af632be1f0e02a4;
   0x4fb8a006db40f3160af93b49a86074d9; 0x45ae448d6e7f1d9eb69a344d34af8f84;
   0xb9c51ce3b12188ad65e7759b1f401559; 0xabbb0931ab3235c58087e2dbc96ad33f;
   0x5c9cf000628598d60736ed8ccf038e67; 0xb600769f47150f0b5cfaad9450463bed;
   0x41ff7793986a07fac4a9907ae8a743c2; 0x9285f4c18937b3185fabe5973520296;
   0x4df8dc9851d9e1c3e7a14efcbfb2f95; 0xf84536296d274eacfca1c8ec05ff86f2;
   0x10a307e4b186622325d30a95cecef780; 0xb707ef2d98cf44184ddac671e2eb5fe3;
   0xa36bd753c6ba59d052163d58f1bed352; 0xbb51e68d389f63b3fe34ed01757689b0;
   0x553399b0b5fc844caf168701fe5943e2; 0x149dde950e34d85250b4a4567313dbce;
   0x4a3936263f0c100aa4c65c24c9f26072; 0x4104e328f53e6a7de372c31b4ad5ad83;
   0xb1183d7d5bd62290a0a89715d0f4c888; 0x4d660de92cacf0dd908421c7e6d1808d;
   0xb1d657600dafa9208939ab4849c39960; 0x3a20e7aba728cd09b64d73cf2f674f4;
   0xe43e9984cf41aa0882197d2781f8b96f; 0xbad1c62b0bff422854213e279a1c233d;
   0x4d0e6bd946302e439aac65df948a1cfe; 0xffd379747924682586a493942c8bd1df;
   0xfe5f1194837be346fdb10eba477ab638; 0x5295b8af5c0ddbed902930dfa570304d;
   0xba080add877d62a18cd4628ef7af6b4c; 0x1e25371b9377b58089920b6a510400d3;
   0xac7c0e8e02a2200be87117633cbdd070; 0xf366765716b499d4b7321e9df5959b66;
   0xb339b133a83acbbe7e547facbe195298; 0x1475d3694c484e493e02607bf9356c65;
   0xe0cef1d5986e8d2d605e21f64226e065; 0xa558f89882728f0ad97427c3f9a5f8e4;
   0xf912accaae2365e62b05093b2bf33d56; 0xe131db01ea71d934b2eb168465351fa8;
   0xaa8f05ca85112b1e8297c34477ceeb64; 0xdc63231f0469178d0d4de381700cb51;
   0x41d4d8767a16e1d2bf0a593c25f52b86; 0xad26c0aee1dd7aedd2b22cef38dd64e7;
   0x10491ee2eca4e054f64c3d01df6061f8; 0xfaaf99c9d558bdd129634f9bc0b49d13;
   0x67a7a8aa629a19a5713b939774af76e; 0x1c447ad4acaa6cf468c10599af589e85;
   0x1bbe72b8a35a9c3f87a1f1858fe5aa7a; 0x8d64d109f41fd0101dc11cce5fa73a6;
   0xf827b63c8f571568d3cf4c1ee4ecd03e; 0x5bb2d722803b61c1b08d89d05152ee9b;
   0xf3cb7ef7f453aef94c19b7fce8aa0805; 0x450d1ab8d3157a5bb23d60c579d34dc9;
   0xa86d9af6cb03acbd901235280394a449; 0xe97768fce8cdf250bfa8bb1d0878b3e4;
   0xa1951a61df54b357cfcf4ae3ebc3ccfd; 0xb76dfde0d95a8d217f54a72f0eddffaf;
   0xbabb93003d8bec9bb5efd043338801f; 0xdb4962025555aab1dabf8c6eda931d;
   0xefd282331287775f9cb76d437afa2af4; 0x5a68ffc8bb123839157cede80abb56;
   0xaa8cf4dfecd7c6e8756dd13b5c8f5aca; 0x21af06bb686259ccb7fd58ec495d475;
   0xecdf1c0a39e0e69edd223ac63f94d3cd; 0x464b5cd033da15250a59b81eb662376d;
   0xfaa1c4106cecddd1e1ef0970d9739a93; 0xb8ca7cb682820f3876fa81b790ed93c1;
   0xecba8b8b7f03d6c49ad4f151c9260931; 0x1d60dcb980bbf80cf229556b3903eaef;
   0x5525a3168b2928eb6704455f531f9ce; 0xe799e7eb44a895f570225704932e2b1a;
   0x4d407b2df1588fdb990fba30221753a7; 0x5a9bb03388d916788319c89624300d82;
   0xa9d77c570bd47c6c66e124345a17db90; 0xa9ec560bb73e81d57e752162bbe4f3c;
   0xfa265c428c9da6f28e2fc970136e0b28; 0xa5743cf56a237597ce580031f065e75e;
   0x137972c4434747054820151b571875b0; 0x5c8cdc9126773bb5d414b37e60366586;
   0x129391be83f7a47bb70290df3750e40f; 0xaeda7d495fc263f9b03de9fc7e321746;
   0xb4e1e37de895f7eebdb5b5394b075ef8; 0xe2b5f04d33cf20822382a35dcc7edc4e;
   0xa9bcd291a1cf815f152fecdcbcccc914; 0x5aa7ba1307657374613559d3f5f81fa7;
   0x4f5e74a697aee5d693c4698eebae59b5; 0x155632caedb80d6b686706af56fc4b90;
   0xa68b8340c09a94a676d7d9a0790e3456; 0xa12400cbbd51083dc4fca4a59fefba1d;
   0x436bbf27feb7ddeff06b53646f98b6b9; 0xf9c43925d9ee85198e028ccfa403b668;
   0xe832f276830d436561fdd088096c633b; 0x1bb6e92daca9c758540c1f17d6a3c2f9;
   0xbb665e8a1f6f65dcb9c4864cb7ebf64; 0xa58c2b939b7520a6fb1195e3a64b9e09;
   0x5d30484d6e9d13e9534ba48d6aa27e29; 0x8948e62e9301d8fc28508f145c89bcb0;
   0xe70f02d3ff944a7f3fc77b1ef5e28fe3; 0xb0a4e40faf35483b62a6ac2a434b53f5;
   0x7ff946d827c42ea27368426556c796f; 0x1e487747cb1f2330293d260d4ef9e331;
   0x5c037a6cfa8c994eeda5fb46a4b26d21; 0x26f2a0c6d87933fbc981c086e67c361d
  ].

(** One table entry: the rows of a chunk of four, selected by a nibble. *)
Definition nibble_entry (matrix : list Z) (chunk nib : Z) : Z :=
  let row k := nth (Z.to_nat (chunk * 4 + k)) matrix 0 in
  let acc := 0 in
  let acc := if Z.testbit nib 0 then Z.lxor acc (row 0) else acc in
  let acc := if Z.testbit nib 1 then Z.lxor acc (row 1) else acc in
  let acc := if Z.testbit nib 2 then Z.lxor acc (row 2) else acc in
  if Z.testbit nib 3 then Z.lxor acc (row 3) else acc.

(** [table[chunk * 16 + nib]], in the order of the index. *)
Definition build_nibble_table (matrix : list Z) : list Z :=
  (fun k => nibble_entry matrix (k / 16) (k mod 16)) <$> seqZ 0 512.

Definition apply_matrix (matrix : list Z) (v : Z) : Z :=
  let table := build_nibble_table matrix in
  (foldl (fun '(res, v) chunk =>
     let nib := Z.land v 15 in
     (Z.lxor res (nth (Z.to_nat (chunk * 16 + nib)) table 0), Z.shiftr v 4))
   (0, v) (seqZ 0 32)).1.

Definition tower_to_flat_u128 (v : Z) : Z := apply_matrix TOWER_TO_FLAT v.
Definition flat_to_tower_u128 (v : Z) : Z := apply_matrix FLAT_TO_TOWER v.

(** ** Carry-less arithmetic *)

(** [<<] on [u128]. *)
Definition shl128 (a k : Z) : Z := Z.shiftl a k mod 2 ^ 128.

Definition clmul_u128_by_87 (a : Z) : Z :=
  Z.lxor (Z.lxor (Z.lxor a (shl128 a 1)) (shl128 a 2)) (shl128 a 7).

Definition reduce_gcm_256 (x_hi x_lo : Z) : Z :=
  let x1_lo := x_hi mod 2 ^ 64 in
  let x1_hi := Z.shiftr x_hi 64 mod 2 ^ 64 in
  let v1 := clmul_u128_by_87 x1_lo in
  let v2 := clmul_u128_by_87 x1_hi in
  let v2_shift64 := shl128 v2 64 in
  let v2_overflow := Z.shiftr v2 64 in
  let lo := Z.lxor (Z.lxor x_lo v1) v2_shift64 in
  let hi := v2_overflow in
  let v3 := clmul_u128_by_87 hi in
  Z.lxor lo v3.

(** One spreading step: [(x | (x << s)) & mask]. *)
Definition spread (s mask x : Z) : Z := Z.land (Z.lor x (shl128 x s)) mask.

Definition expand_bits_u64_to_u128 (v : Z) : Z :=
  let x := v in
  let x := spread 32 0x00000000FFFFFFFF00000000FFFFFFFF x in
  let x := spread 16 0x0000FFFF0000FFFF0000FFFF0000FFFF x in
  let x := spread 8 0x00FF00FF00FF00FF00FF00FF00FF00FF x in
  let x := spread 4 0x0F0F0F0F0F0F0F0F0F0F0F0F0F0F0F0F x in
  let x := spread 2 0x33333333333333333333333333333333 x in
  spread 1 0x55555555555555555555555555555555 x.

Definition square_flat_u128 (a : Z) : Z :=
  let lo := a mod 2 ^ 64 in
  let hi := Z.shiftr a 64 mod 2 ^ 64 in
  let s_lo := expand_bits_u64_to_u128 lo in
  let s_hi := expand_bits_u64_to_u128 hi in
  reduce_gcm_256 s_hi s_lo.

(** The [while b != 0] loop clears the lowest set bit each round, so 64 rounds
    are enough for a [u64] ([clmul_loop_sum]). *)
Fixpoint clmul_loop (fuel : nat) (a b res : Z) : Z :=
  match fuel with
  | O => res
  | S fuel' =>
      if b =? 0 then res
      else
        let lsb := Z.land b (umax 128 - b + 1) in
        clmul_loop fuel' a (Z.lxor b lsb) (Z.lxor res (a * lsb))
  end.

Definition clmul_64x64 (a b : Z) : Z := clmul_loop 64 a b 0.

Definition clmul_block128 (a b : Z) : Z :=
  let a_lo := a mod 2 ^ 64 in
  let a_hi := Z.shiftr a 64 mod 2 ^ 64 in
  let b_lo := b mod 2 ^ 64 in
  let b_hi := Z.shiftr b 64 mod 2 ^ 64 in
  let v0 := clmul_64x64 a_lo b_lo in
  let v1 := clmul_64x64 a_hi b_hi in
  let mid := Z.lxor (Z.lxor (clmul_64x64 (Z.lxor a_lo a_hi) (Z.lxor b_lo b_hi)) v0) v1 in
  let x_lo := Z.lxor v0 (shl128 mid 64) in
  let x_hi := Z.lxor v1 (Z.shiftr mid 64) in
  reduce_gcm_256 x_hi x_lo.

Definition clmul_gcm (a b : Z) : Z := clmul_block128 a b.

(** ** [Flat<Block128>] *)

(** [invert] on the targets with a conversion (x86-64, AArch64) and on all
    others. *)
Definition Flat_invert (has_kernel : bool) (a : Z) : Z :=
  if has_kernel then tower_to_flat_u128 (tinvert Block128 (flat_to_tower_u128 a))
  else tinvert Block128 a.

Definition Flat_mul (a b : Z) : Z := clmul_gcm a b.
Definition Flat_add (a b : Z) : Z := Z.lxor a b.

Definition Flat_to_flat (has_kernel : bool) (a : Z) : Z :=
  if has_kernel then tower_to_flat_u128 a else a.
Definition Flat_to_tower (has_kernel : bool) (a : Z) : Z :=
  if has_kernel then flat_to_tower_u128 a else a.
Definition Flat_EXTENSION_TAU : Z := EXTENSION_TAU Block128.

(** ** Linearity of the conversions *)

Lemma nibble_entry_linear m c : linear (nibble_entry m c).
Proof.
  intros a b. unfold nibble_entry. rewrite !Z.lxor_spec.
  set (r0 := nth _ m 0). set (r1 := nth _ m 0). set (r2 := nth _ m 0). set (r3 := nth _ m 0).
  destruct (Z.testbit a 0), (Z.testbit b 0), (Z.testbit a 1), (Z.testbit b 1),
    (Z.testbit a 2), (Z.testbit b 2); cbn [xorb]; xor_bits (Z.testbit a 3) (Z.testbit b 3).
Qed.

Lemma land_15 v : Z.land v 15 = v mod 2 ^ 4.
Proof. change 15 with (Z.ones 4). apply Z.land_ones. lia. Qed.

Lemma table_lookup m c nib :
  0 <= c < 32 -> 0 <= nib < 16 ->
  nth (Z.to_nat (c * 16 + nib)) (build_nibble_table m) 0 = nibble_entry m c nib.
Proof.
  intros Hc Hn. unfold build_nibble_table. rewrite nth_lookup, list_lookup_fmap.
  rewrite lookup_seqZ_lt by lia. cbn [fmap option_fmap option_map default from_option id].
  rewrite Z2Nat.id by lia. rewrite Z.add_0_l.
  rewrite Z.div_add_l, (Z.div_small nib 16), Z.add_0_r by lia. f_equal.
  rewrite Z.add_comm, Z.mod_add by lia. apply Z.mod_small. lia.
Qed.

(** The loop without the table. *)
Fixpoint nibble_sum (m : list Z) (chunks : list Z) (v : Z) : Z :=
  match chunks with
  | [] => 0
  | c :: rest => Z.lxor (nibble_entry m c (v mod 2 ^ 4)) (nibble_sum m rest (Z.shiftr v 4))
  end.

Lemma apply_matrix_loop m l : Forall (fun c => 0 <= c < 32) l -> forall res v,
  (foldl (fun '(res, v) chunk =>
     let nib := Z.land v 15 in
     (Z.lxor res (nth (Z.to_nat (chunk * 16 + nib)) (build_nibble_table m) 0), Z.shiftr v 4))
   (res, v) l).1 = Z.lxor res (nibble_sum m l v).
Proof.
  induction 1 as [|c l Hc Hl IH]; intros res v; cbn [foldl nibble_sum]; [now rewrite Z.lxor_0_r|].
  rewrite IH, land_15, table_lookup by (exact Hc || apply Z.mod_pos_bound; lia).
  apply Z.lxor_assoc.
Qed.

Lemma apply_matrix_sum m v : apply_matrix m v = nibble_sum m (seqZ 0 32) v.
Proof.
  unfold apply_matrix. rewrite apply_matrix_loop; [apply Z.lxor_0_l|].
  apply Forall_forall. intros c Hc%elem_of_seqZ. lia.
Qed.

Lemma nibble_sum_linear m l : linear (nibble_sum m l).
Proof.
  induction l as [|c l IH]; intros a b; cbn [nibble_sum]; [reflexivity|].
  rewrite lxor_mod, nibble_entry_linear, Z.shiftr_lxor, IH by lia. xor_bits true true.
Qed.

Lemma apply_matrix_linear m : linear (apply_matrix m).
Proof. intros a b. rewrite !apply_matrix_sum. apply nibble_sum_linear. Qed.

(** The matrix-vector product over GF(2), a row for each bit of the vector. *)
Fixpoint row_sum (m : list Z) (v : Z) : Z :=
  match m with
  | [] => 0
  | r :: m' => Z.lxor (if Z.odd v then r else 0) (row_sum m' (Z.shiftr v 1))
  end.

Lemma odd_shiftr v k : 0 <= k -> Z.odd (Z.shiftr v k) = Z.testbit v k.
Proof. intros Hk. rewrite <- Z.bit0_odd, Z.shiftr_spec by lia. reflexivity. Qed.

Lemma nibble_sum_rows n : forall m pre c v,
  length m = (4 * n)%nat -> length pre = Z.to_nat (c * 4) -> 0 <= c ->
  nibble_sum (pre ++ m) (seqZ c (Z.of_nat n)) v = row_sum m v.
Proof.
  induction n as [|n IH]; intros m pre c v Hm Hp Hc.
  { destruct m; [reflexivity|discriminate]. }
  destruct m as [|r0 [|r1 [|r2 [|r3 m]]]]; cbn in Hm; try lia.
  rewrite Nat2Z.inj_succ, seqZ_cons by lia. cbn [nibble_sum row_sum].
  rewrite Z.pred_succ. change (r0 :: r1 :: r2 :: r3 :: m) with ([r0; r1; r2; r3] ++ m).
  rewrite (app_assoc pre) at 2.
  rewrite IH by (rewrite ?length_app; cbn [length]; lia).
  unfold nibble_entry. rewrite !Z.mod_pow2_bits_low by lia.
  rewrite !Z.shiftr_shiftr, !odd_shiftr by lia. rewrite <- Z.bit0_odd.
  replace (1 + 1 + 1 + 1) with 4 by lia.
  assert (E : forall k l, 0 <= k -> nth (Z.to_nat (c * 4 + k)) (pre ++ l) 0 = nth (Z.to_nat k) l 0)
    by (intros k l Hk; rewrite app_nth2 by lia; f_equal; lia).
  rewrite !E by lia.
  cbn [nth app Z.to_nat Pos.to_nat Pos.iter_op Nat.add]. change (1 + 1) with 2. change (2 + 1) with 3.
  destruct (Z.testbit v 0), (Z.testbit v 1), (Z.testbit v 2), (Z.testbit v 3);
    rewrite ?Z.lxor_0_l, ?Z.lxor_assoc, ?Z.lxor_0_l; reflexivity.
Qed.

(** The nibble tables compute the matrix-vector product. *)
Lemma apply_matrix_rows m v : length m = 128%nat -> apply_matrix m v = row_sum m v.
Proof. intros Hm. rewrite apply_matrix_sum. apply (nibble_sum_rows 32 m [] 0 v); [exact Hm|reflexivity|lia]. Qed.

(** ** Carry-less products *)

(** The carry-less product as a sum of shifts. *)
Definition cl_sum (w : Z) (a b : Z) : Z :=
  xor_sum (fun i => if Z.testbit b i then Z.shiftl a i else 0) (seqZ 0 w).

Lemma cl_sum_linear_r w a : linear (cl_sum w a).
Proof.
  intros b c. unfold cl_sum. rewrite <- xor_sum_lxor. apply xor_sum_ext. intros i _.
  rewrite Z.lxor_spec. xor_bits (Z.testbit b i) (Z.testbit c i).
Qed.

Lemma cl_sum_linear_l w b : linear (fun a => cl_sum w a b).
Proof.
  intros a c. unfold cl_sum. rewrite <- xor_sum_lxor. apply xor_sum_ext. intros i _.
  destruct (Z.testbit b i); [apply Z.shiftl_lxor|reflexivity].
Qed.

Lemma xor_sum_single (f : Z -> Z) w k :
  0 <= k < w -> xor_sum (fun i => if i =? k then f i else 0) (seqZ 0 w) = f k.
Proof.
  intros Hk. assert (Hw : seqZ 0 w = seqZ 0 k ++ k :: seqZ (k + 1) (w - k - 1)).
  { replace w with (k + (w - k)) at 1 by lia. rewrite seqZ_app by lia. f_equal.
    rewrite Z.add_0_l. rewrite seqZ_cons by lia. f_equal; f_equal; lia. }
  assert (Z0 : forall l, k ∉ l -> xor_sum (fun i => if i =? k then f i else 0) l = 0).
  { induction l as [|i l IH]; intros Hn; [reflexivity|]. rewrite xor_sum_cons.
    apply not_elem_of_cons in Hn as [Hn1 Hn2]. rewrite IH by exact Hn2.
    now rewrite (proj2 (Z.eqb_neq i k)) by congruence. }
  rewrite Hw. unfold xor_sum. rewrite foldr_app. cbn [foldr].
  fold (xor_sum (fun i => if i =? k then f i else 0) (seqZ (k + 1) (w - k - 1))).
  rewrite Z0 by (rewrite elem_of_seqZ; lia). rewrite Z.eqb_refl, Z.lxor_0_r.
  assert (G : forall l s, k ∉ l ->
    foldr (fun i acc => Z.lxor (if i =? k then f i else 0) acc) s l = s).
  { induction l as [|i l IH]; intros s Hn; [reflexivity|]. cbn [foldr].
    apply not_elem_of_cons in Hn as [Hn1 Hn2]. rewrite IH by exact Hn2.
    now rewrite (proj2 (Z.eqb_neq i k)) by congruence. }
  apply G. rewrite elem_of_seqZ. lia.
Qed.

Lemma cl_sum_pow2 w a k : 0 <= k < w -> cl_sum w a (2 ^ k) = Z.shiftl a k.
Proof.
  intros Hk. unfold cl_sum. rewrite <- (xor_sum_single (Z.shiftl a) w k Hk).
  apply xor_sum_ext. intros i Hi%elem_of_seqZ. rewrite Z.pow2_bits_eqb by lia.
  now rewrite Z.eqb_sym.
Qed.

(** *** The lowest set bit *)

Lemma odd_decomposition b : 0 < b -> exists k j, 0 <= k /\ 0 <= j /\ b = 2 ^ k * (2 * j + 1).
Proof.
  intros Hb. destruct b as [|p|]; [lia| |lia]. clear Hb. induction p as [p IH|p IH|].
  - exists 0, (Zpos p). rewrite Pos2Z.inj_xI. lia.
  - destruct IH as (k & j & Hk & Hj & E). exists (k + 1), j.
    rewrite Pos2Z.inj_xO, E, Z.pow_add_r by lia. lia.
  - exists 0, 0. lia.
Qed.

Lemma land_odd j i : Z.land (2 * j + 1) (2 * i + 1) = 2 * Z.land j i + 1.
Proof.
  apply Z.bits_inj'. intros n Hn. rewrite Z.land_spec.
  destruct (Z.eq_dec n 0) as [->|Hne]; [now rewrite !Z.testbit_odd_0|].
  replace n with (Z.succ (n - 1)) by lia. rewrite !Z.testbit_odd_succ by lia.
  now rewrite Z.land_spec.
Qed.

Lemma land_complement j n : 0 <= n -> 0 <= j < 2 ^ n -> Z.land j (2 ^ n - 1 - j) = 0.
Proof.
  intros Hn Hj. replace (2 ^ n - 1 - j) with (Z.lnot j mod 2 ^ n).
  - rewrite <- Z.land_ones, Z.land_comm, <- Z.land_assoc, (Z.land_comm _ j) by lia.
    rewrite Z.land_ones, (Z.mod_small j) by lia. rewrite Z.land_comm. apply Z.land_lnot_diag.
  - unfold Z.lnot. symmetry. apply Z.mod_unique with (-1); lia.
Qed.

(** [b & (!b + 1)] is the lowest set bit. *)
Lemma lowest_bit b m :
  0 < b < 2 ^ 64 -> 0 <= m -> (2 ^ m | b) ->
  exists k, m <= k < 64 /\ Z.land b (umax 128 - b + 1) = 2 ^ k
    /\ 0 <= Z.lxor b (2 ^ k) < 2 ^ 64 /\ (2 ^ (k + 1) | Z.lxor b (2 ^ k)).
Proof.
  intros Hb Hm Hd. destruct (odd_decomposition b) as (k & j & Hk & Hj & E); [lia|].
  exists k. pose proof (pow2_pos k Hk) as Pk.
  assert (k < 64).
  { apply (Z.pow_lt_mono_r_iff 2); [lia..|]. nia. }
  assert (m <= k).
  { destruct (Z_le_gt_dec m k) as [|G]; [assumption|exfalso].
    destruct Hd as [q Hq]. rewrite E in Hq. replace m with (k + 1 + (m - k - 1)) in Hq by lia.
    rewrite !Z.pow_add_r in Hq by lia.
    assert (2 * j + 1 = 2 * (q * 2 ^ (m - k - 1))) by (apply (Z.mul_reg_l _ _ (2 ^ k)); lia).
    lia. }
  assert (X : Z.lxor b (2 ^ k) = 2 ^ (k + 1) * j).
  { rewrite E. rewrite <- (Z.mul_1_r (2 ^ k)) at 2. rewrite !(Z.mul_comm (2 ^ k)).
    rewrite <- !Z.shiftl_mul_pow2, <- Z.shiftl_lxor by lia.
    replace (Z.lxor (2 * j + 1) 1) with (2 * j).
    - rewrite Z.shiftl_mul_pow2, Z.pow_add_r by lia. lia.
    - apply Z.bits_inj'. intros n Hn. rewrite Z.lxor_spec. destruct (Z.eq_dec n 0) as [->|Hne].
      + now rewrite Z.testbit_even_0, Z.testbit_odd_0.
      + replace n with (Z.succ (n - 1)) by lia.
        rewrite Z.testbit_odd_succ, Z.testbit_even_succ by lia.
        change 1 with (2 ^ 0). rewrite Z.pow2_bits_false by lia. now rewrite xorb_false_r. }
  split; [lia|]. split.
  - unfold umax. replace (2 ^ 128 - 1 - b + 1) with (2 ^ k * (2 * (2 ^ (127 - k) - 1 - j) + 1)).
    + rewrite E, !(Z.mul_comm (2 ^ k)), <- !Z.shiftl_mul_pow2, <- Z.shiftl_land by lia.
      rewrite land_odd, land_complement; [rewrite Z.shiftl_mul_pow2 by lia; lia|lia|].
      split; [lia|]. apply Z.mul_lt_mono_pos_l with (2 ^ (k + 1)); [apply pow2_pos; lia|].
      rewrite <- Z.pow_add_r by lia. replace (k + 1 + (127 - k)) with 128 by lia.
      rewrite Z.pow_add_r by lia. lia.
    + rewrite E. assert (P : 2 ^ 128 = 2 ^ k * 2 * 2 ^ (127 - k)).
      { replace 128 with (k + 1 + (127 - k)) by lia. rewrite !Z.pow_add_r by lia.
        reflexivity. }
      rewrite P. lia.
  - rewrite X. split; [|now exists j; lia]. rewrite Z.pow_add_r by lia. split; nia.
Qed.

Lemma clmul_loop_sum fuel : forall a b res m,
  0 <= m -> (64 - Z.of_nat fuel <= m) -> 0 <= b < 2 ^ 64 -> (2 ^ m | b) ->
  clmul_loop fuel a b res = Z.lxor res (cl_sum 64 a b).
Proof.
  induction fuel as [|fuel IH]; intros a b res m Hm Hf Hb Hd; cbn [clmul_loop].
  - assert (b = 0) as ->.
    { destruct Hd as [q ->]. assert (2 ^ 64 <= 2 ^ m) by (apply Z.pow_le_mono_r; lia).
      destruct (Z.eq_dec q 0); [lia|]. nia. }
    now rewrite (linear_0 _ (cl_sum_linear_r 64 a)), Z.lxor_0_r.
  - destruct (Z.eqb_spec b 0) as [->|Hne].
    { now rewrite (linear_0 _ (cl_sum_linear_r 64 a)), Z.lxor_0_r. }
    destruct (lowest_bit b m) as (k & Hk & E & Hr & Hd'); [lia|lia|exact Hd|].
    rewrite E. rewrite (IH _ _ _ (k + 1)) by (assumption || lia).
    replace b with (Z.lxor (Z.lxor b (2 ^ k)) (2 ^ k)) at 2
      by (rewrite Z.lxor_assoc, Z.lxor_nilpotent; apply Z.lxor_0_r).
    rewrite (cl_sum_linear_r 64 a (Z.lxor b (2 ^ k))), cl_sum_pow2, Z.shiftl_mul_pow2 by lia.
    xor_bits true true.
Qed.

Lemma clmul_64x64_sum a b : u64 b -> clmul_64x64 a b = cl_sum 64 a b.
Proof.
  intros [H0 H1]. unfold clmul_64x64. rewrite (clmul_loop_sum 64 a b 0 0) by (try lia; apply Z.divide_1_l).
  apply Z.lxor_0_l.
Qed.

(** *** Linearity of the reduced product *)

Lemma shl128_linear k : linear (fun a => shl128 a k).
Proof. intros a b. unfold shl128. now rewrite Z.shiftl_lxor, lxor_mod by lia. Qed.

Lemma clmul_87_linear : linear clmul_u128_by_87.
Proof.
  intros a b. unfold clmul_u128_by_87. rewrite !(shl128_linear _ a b). xor_bits true true.
Qed.

Lemma reduce_linear h l h' l' :
  reduce_gcm_256 (Z.lxor h h') (Z.lxor l l')
  = Z.lxor (reduce_gcm_256 h l) (reduce_gcm_256 h' l').
Proof.
  unfold reduce_gcm_256. cbn zeta. rewrite !Z.shiftr_lxor, !lxor_mod by lia.
  rewrite !clmul_87_linear, !Z.shiftr_lxor, !clmul_87_linear, !(shl128_linear 64).
  xor_bits true true.
Qed.

Lemma low_linear : linear (fun a => a mod 2 ^ 64).
Proof. intros a b. apply lxor_mod. lia. Qed.

Lemma high_linear : linear (fun a => Z.shiftr a 64 mod 2 ^ 64).
Proof. intros a b. now rewrite Z.shiftr_lxor, lxor_mod by lia. Qed.

Lemma low_range a : u64 (a mod 2 ^ 64).
Proof. apply Z.mod_pos_bound. lia. Qed.

(** The two halves of the product, before reduction. *)
Definition product_lo (a b : Z) : Z :=
  let v0 := cl_sum 64 (a mod 2 ^ 64) (b mod 2 ^ 64) in
  let v1 := cl_sum 64 (Z.shiftr a 64 mod 2 ^ 64) (Z.shiftr b 64 mod 2 ^ 64) in
  let mid := Z.lxor (Z.lxor (cl_sum 64 (Z.lxor (a mod 2 ^ 64) (Z.shiftr a 64 mod 2 ^ 64))
                      (Z.lxor (b mod 2 ^ 64) (Z.shiftr b 64 mod 2 ^ 64))) v0) v1 in
  Z.lxor v0 (shl128 mid 64).
Definition product_hi (a b : Z) : Z :=
  let v0 := cl_sum 64 (a mod 2 ^ 64) (b mod 2 ^ 64) in
  let v1 := cl_sum 64 (Z.shiftr a 64 mod 2 ^ 64) (Z.shiftr b 64 mod 2 ^ 64) in
  let mid := Z.lxor (Z.lxor (cl_sum 64 (Z.lxor (a mod 2 ^ 64) (Z.shiftr a 64 mod 2 ^ 64))
                      (Z.lxor (b mod 2 ^ 64) (Z.shiftr b 64 mod 2 ^ 64))) v0) v1 in
  Z.lxor v1 (Z.shiftr mid 64).

Lemma clmul_gcm_product a b : clmul_gcm a b = reduce_gcm_256 (product_hi a b) (product_lo a b).
Proof.
  unfold clmul_gcm, clmul_block128, product_hi, product_lo. cbn zeta.
  rewrite !clmul_64x64_sum; [reflexivity|..];
    try apply lxor_range; try apply low_range; lia.
Qed.

Lemma clmul_gcm_linear_l b : linear (fun a => clmul_gcm a b).
Proof.
  intros a c. rewrite !clmul_gcm_product, <- reduce_linear. unfold product_hi, product_lo.
  cbn zeta. rewrite Z.shiftr_lxor, !lxor_mod by lia.
  set (al := a mod 2 ^ 64). set (cl := c mod 2 ^ 64).
  set (ah := Z.shiftr a 64 mod 2 ^ 64). set (ch := Z.shiftr c 64 mod 2 ^ 64).
  replace (Z.lxor (Z.lxor al cl) (Z.lxor ah ch)) with (Z.lxor (Z.lxor al ah) (Z.lxor cl ch))
    by xor_bits true true.
  rewrite !(cl_sum_linear_l 64 _ (Z.lxor al ah)), !(cl_sum_linear_l 64 _ al cl), !(cl_sum_linear_l 64 _ ah ch).
  f_equal; rewrite ?(shl128_linear 64), ?Z.shiftr_lxor, ?(shl128_linear 64); xor_bits true true.
Qed.

Lemma clmul_gcm_linear_r a : linear (clmul_gcm a).
Proof.
  intros b c. rewrite !clmul_gcm_product, <- reduce_linear. unfold product_hi, product_lo.
  cbn zeta. rewrite Z.shiftr_lxor, !lxor_mod by lia.
  set (bl := b mod 2 ^ 64). set (cl := c mod 2 ^ 64).
  set (bh := Z.shiftr b 64 mod 2 ^ 64). set (ch := Z.shiftr c 64 mod 2 ^ 64).
  replace (Z.lxor (Z.lxor bl cl) (Z.lxor bh ch)) with (Z.lxor (Z.lxor bl bh) (Z.lxor cl ch))
    by xor_bits true true.
  rewrite !(cl_sum_linear_r 64 _ (Z.lxor bl bh)), !(cl_sum_linear_r 64 _ bl cl), !(cl_sum_linear_r 64 _ bh ch).
  f_equal; rewrite ?(shl128_linear 64), ?Z.shiftr_lxor, ?(shl128_linear 64); xor_bits true true.
Qed.

(** The reduction of [x^n]. *)
Definition reduced_power (n : Z) : Z := reduce_gcm_256 (2 ^ n / 2 ^ 128) (2 ^ n mod 2 ^ 128).

Lemma low_pow2 k : 0 <= k -> 2 ^ k mod 2 ^ 64 = if k <? 64 then 2 ^ k else 0.
Proof.
  intros Hk. destruct (Z.ltb_spec k 64).
  - apply Z.mod_small. split; [apply Z.pow_nonneg; lia|apply Z.pow_lt_mono_r; lia].
  - replace k with (k - 64 + 64) by lia. rewrite Z.pow_add_r by lia. apply Z.mod_mul. lia.
Qed.

Lemma high_pow2 k :
  0 <= k < 128 -> Z.shiftr (2 ^ k) 64 mod 2 ^ 64 = if k <? 64 then 0 else 2 ^ (k - 64).
Proof.
  intros Hk. rewrite Z.shiftr_div_pow2 by lia. destruct (Z.ltb_spec k 64).
  - rewrite Z.div_small by (split; [apply Z.pow_nonneg; lia|apply Z.pow_lt_mono_r; lia]). reflexivity.
  - rewrite <- Z.pow_sub_r by lia. apply Z.mod_small.
    split; [apply Z.pow_nonneg; lia|apply Z.pow_lt_mono_r; lia].
Qed.

Lemma cl_sum_0_l w b : cl_sum w 0 b = 0.
Proof. exact (linear_0 _ (cl_sum_linear_l w b)). Qed.

Lemma cl_sum_0_r w a : cl_sum w a 0 = 0.
Proof. exact (linear_0 _ (cl_sum_linear_r w a)). Qed.

Lemma cl_sum_bits j i : 0 <= j -> 0 <= i < 64 -> cl_sum 64 (2 ^ j) (2 ^ i) = 2 ^ (j + i).
Proof.
  intros Hj Hi. rewrite cl_sum_pow2, Z.shiftl_mul_pow2, <- Z.pow_add_r by lia. reflexivity.
Qed.

Lemma pow2_split n :
  0 <= n -> shl128 (2 ^ n) 64 = 2 ^ (n + 64) mod 2 ^ 128 /\ Z.shiftr (2 ^ n) 64 = 2 ^ (n + 64) / 2 ^ 128.
Proof.
  intros Hn. unfold shl128. rewrite Z.shiftl_mul_pow2, <- Z.pow_add_r by lia. split; [reflexivity|].
  rewrite Z.shiftr_div_pow2, Z.pow_add_r by lia. change (2 ^ 128) with (2 ^ 64 * 2 ^ 64).
  now rewrite Z.div_mul_cancel_r by lia.
Qed.

Lemma clmul_gcm_bits j i :
  0 <= j < 128 -> 0 <= i < 128 -> clmul_gcm (2 ^ j) (2 ^ i) = reduced_power (j + i).
Proof.
  intros Hj Hi. rewrite clmul_gcm_product. unfold reduced_power, product_hi, product_lo. cbn zeta.
  rewrite !low_pow2, !high_pow2 by lia.
  destruct (Z.ltb_spec j 64), (Z.ltb_spec i 64);
    rewrite ?Z.lxor_0_l, ?Z.lxor_0_r, ?cl_sum_0_l, ?cl_sum_0_r, ?cl_sum_bits by lia;
    rewrite ?Z.lxor_0_l, ?Z.lxor_0_r, ?Z.lxor_nilpotent.
  - f_equal.
    + rewrite Z.div_small by (split; [apply Z.pow_nonneg; lia|apply Z.pow_lt_mono_r; lia]). reflexivity.
    + change (shl128 0 64) with 0. rewrite Z.lxor_0_r. symmetry. apply Z.mod_small.
      split; [apply Z.pow_nonneg; lia|apply Z.pow_lt_mono_r; lia].
  - destruct (pow2_split (j + (i - 64))) as [-> ->]; [lia|].
    now replace (j + (i - 64) + 64) with (j + i) by lia.
  - destruct (pow2_split (j - 64 + i)) as [-> ->]; [lia|].
    now replace (j - 64 + i + 64) with (j + i) by lia.
  - change (shl128 0 64) with 0. change (Z.shiftr 0 64) with 0. rewrite ?Z.lxor_0_l, ?Z.lxor_0_r.
    replace (2 ^ (j + i)) with (2 ^ (j - 64 + (i - 64)) * 2 ^ 128)
      by (rewrite <- Z.pow_add_r by lia; f_equal; lia).
    now rewrite Z.div_mul, Z.mod_mul by lia.
Qed.

(** ** The isomorphism *)

Abbreviation phi := tower_to_flat_u128 (only parsing).
Abbreviation psi := flat_to_tower_u128 (only parsing).
#[local] Notation "x ⊗ y" := (tmul Block128 x y) (at level 40, left associativity).

Lemma in_range_b w x : (0 <=? x) && (x <? 2 ^ w) = true -> in_range w x.
Proof. intros [H1 H2]%andb_true_iff. split; lia. Qed.

(** Products with one more factor [x]. *)
Lemma reduced_power_step n : 0 <= n < 254 -> reduced_power (n + 1) = clmul_gcm (reduced_power n) 2.
Proof.
  intros Hn. apply Z.eqb_eq. revert n Hn. apply forallb_seqZ. vm_compute. reflexivity.
Qed.

Lemma reduced_power_range n : 0 <= n < 255 -> in_range 128 (reduced_power n).
Proof.
  intros Hn. apply in_range_b. revert n Hn. apply forallb_seqZ. vm_compute. reflexivity.
Qed.

Lemma reduced_power_small n : 0 <= n < 128 -> reduced_power n = 2 ^ n.
Proof.
  intros Hn. apply Z.eqb_eq. revert n Hn. apply forallb_seqZ. vm_compute. reflexivity.
Qed.

Lemma clmul_gcm_range u v : in_range 128 u -> in_range 128 v -> in_range 128 (clmul_gcm u v).
Proof.
  intros Hu Hv. revert v Hv. apply linear_on_range; [lia..|apply linear_linear_on, clmul_gcm_linear_r|].
  intros i Hi. revert u Hu. apply (linear_on_range 128 128 (fun u => clmul_gcm u (2 ^ i)));
    [lia..|apply linear_linear_on, clmul_gcm_linear_l|].
  intros j Hj. rewrite clmul_gcm_bits by lia. apply reduced_power_range. lia.
Qed.

Lemma clmul_gcm_step u i :
  in_range 128 u -> 0 <= i < 127 ->
  clmul_gcm u (2 ^ (i + 1)) = clmul_gcm (clmul_gcm u (2 ^ i)) 2.
Proof.
  intros Hu Hi. revert u Hu. apply (linear_ext 128 (fun u => clmul_gcm u (2 ^ (i + 1)))); [lia|apply clmul_gcm_linear_l| |].
  { apply (linear_compose (fun y => clmul_gcm y 2)); apply clmul_gcm_linear_l. }
  intros j Hj. rewrite !clmul_gcm_bits by lia. rewrite Z.add_assoc. apply reduced_power_step. lia.
Qed.

Lemma clmul_gcm_1_r u : in_range 128 u -> clmul_gcm u 1 = u.
Proof.
  revert u. apply (linear_ext 128 (fun u => clmul_gcm u 1) (fun u => u));
    [lia|apply clmul_gcm_linear_l|now intros|].
  intros j Hj. change 1 with (2 ^ 0). rewrite clmul_gcm_bits, Z.add_0_r by lia.
  now apply reduced_power_small.
Qed.

Lemma apply_matrix_range m v :
  length m = 128%nat -> Forall (in_range 128) m -> in_range 128 (apply_matrix m v).
Proof.
  intros Hl Hm. rewrite apply_matrix_rows by exact Hl. clear Hl. revert v.
  induction Hm as [|r m Hr Hm IH]; intros v; cbn [row_sum]; [now apply range_0|].
  apply lxor_range; [lia| |apply IH]. destruct (Z.odd v); [exact Hr|now apply range_0].
Qed.

Lemma matrix_range m :
  forallb (fun r => (0 <=? r) && (r <? 2 ^ 128)) m = true -> Forall (in_range 128) m.
Proof.
  intros H. apply Forall_forall. intros r Hr%list_elem_of_In.
  apply in_range_b, (proj1 (forallb_forall _ m) H r Hr).
Qed.

Lemma phi_range v : in_range 128 (phi v).
Proof. apply apply_matrix_range; [reflexivity|]. apply matrix_range. vm_compute. reflexivity. Qed.

Lemma psi_range v : in_range 128 (psi v).
Proof. apply apply_matrix_range; [reflexivity|]. apply matrix_range. vm_compute. reflexivity. Qed.

Lemma phi_rows v : phi v = row_sum TOWER_TO_FLAT v.
Proof. now apply apply_matrix_rows. Qed.

Lemma psi_rows v : psi v = row_sum FLAT_TO_TOWER v.
Proof. now apply apply_matrix_rows. Qed.

Lemma psi_phi v : in_range 128 v -> psi (phi v) = v.
Proof.
  revert v. apply (linear_ext 128 (fun v => psi (phi v)) (fun v => v)); [lia| |now intros|].
  { apply (linear_compose psi phi); apply apply_matrix_linear. }
  intros i Hi. rewrite psi_rows, phi_rows. apply Z.eqb_eq. revert i Hi. apply forallb_seqZ.
  vm_compute. reflexivity.
Qed.

Lemma phi_psi v : in_range 128 v -> phi (psi v) = v.
Proof.
  revert v. apply (linear_ext 128 (fun v => phi (psi v)) (fun v => v)); [lia| |now intros|].
  { apply (linear_compose phi psi); apply apply_matrix_linear. }
  intros i Hi. rewrite psi_rows, phi_rows. apply Z.eqb_eq. revert i Hi. apply forallb_seqZ.
  vm_compute. reflexivity.
Qed.

(** The laws of [Block128], with its width spelled out. *)
Lemma tmul_linear_l {F : TowerOps} `{!TowerLaws F} y :
  in_range (BITS F) y -> linear_on (BITS F) (fun x => tmul F x y).
Proof. intros Hy a b Ha Hb. now apply tmul_distr. Qed.

Lemma tmul_linear_r {F : TowerOps} `{!TowerLaws F} x :
  in_range (BITS F) x -> linear_on (BITS F) (tmul F x).
Proof.
  intros Hx a b Ha Hb. pose proof bits_pos.
  rewrite !(tmul_comm x) by (assumption || (apply lxor_range; assumption || lia)).
  now apply tmul_distr.
Qed.

Lemma mul128_range x y : in_range 128 x -> in_range 128 y -> in_range 128 (x ⊗ y).
Proof. exact (tmul_range (F := Block128) x y). Qed.

Lemma mul128_comm x y : in_range 128 x -> in_range 128 y -> x ⊗ y = y ⊗ x.
Proof. exact (tmul_comm (F := Block128) x y). Qed.

Lemma mul128_assoc x y z :
  in_range 128 x -> in_range 128 y -> in_range 128 z -> x ⊗ (y ⊗ z) = x ⊗ y ⊗ z.
Proof. exact (tmul_assoc (F := Block128) x y z). Qed.

Lemma mul128_1_l x : in_range 128 x -> 1 ⊗ x = x.
Proof. exact (tmul_1_l (F := Block128) x). Qed.

Lemma mul128_linear_l y : in_range 128 y -> linear_on 128 (fun x => x ⊗ y).
Proof. exact (tmul_linear_l (F := Block128) y). Qed.

Lemma mul128_linear_r x : in_range 128 x -> linear_on 128 (tmul Block128 x).
Proof. exact (tmul_linear_r (F := Block128) x). Qed.

Lemma two_pow_range i : 0 <= i < 128 -> in_range 128 (2 ^ i).
Proof. intros Hi. split; [apply Z.pow_nonneg; lia|apply Z.pow_lt_mono_r; lia]. Qed.

(** One multiplication by the flat generator is one tower multiplication. *)
Lemma psi_mul_2_basis i : 0 <= i < 128 ->
  (row_sum FLAT_TO_TOWER (reduced_power (i + 1)) =?
     row_sum FLAT_TO_TOWER (2 ^ i) ⊗ row_sum FLAT_TO_TOWER 2) = true.
Proof. revert i. apply forallb_seqZ. vm_compute. reflexivity. Qed.

Lemma psi_linear a b : psi (Z.lxor a b) = Z.lxor (psi a) (psi b).
Proof. apply apply_matrix_linear. Qed.

Lemma phi_linear a b : phi (Z.lxor a b) = Z.lxor (phi a) (phi b).
Proof. apply apply_matrix_linear. Qed.

Lemma psi_mul_2 u : in_range 128 u -> psi (clmul_gcm u 2) = psi u ⊗ psi 2.
Proof.
  revert u. apply (linear_on_ext 128 (fun u => psi (clmul_gcm u 2)) (fun u => psi u ⊗ psi 2)); [lia| | |].
  - apply linear_linear_on, (linear_compose psi (fun u => clmul_gcm u 2));
      [exact psi_linear|apply clmul_gcm_linear_l].
  - intros a b _ _. rewrite psi_linear.
    exact (mul128_linear_l (psi 2) (psi_range 2) (psi a) (psi b) (psi_range a) (psi_range b)).
  - intros i Hi. change 2 with (2 ^ 1) at 2. rewrite clmul_gcm_bits by lia. rewrite !psi_rows.
    apply Z.eqb_eq, psi_mul_2_basis, Hi.
Qed.

Lemma psi_1 : psi 1 = 1.
Proof. rewrite psi_rows. vm_compute. reflexivity. Qed.

Lemma mul128_1_r x : in_range 128 x -> x ⊗ 1 = x.
Proof. intros Hx. rewrite mul128_comm by (exact Hx || split; lia). now apply mul128_1_l. Qed.

Lemma clmul_gcm_pow2_2 i : 0 <= i < 127 -> clmul_gcm (2 ^ i) 2 = 2 ^ (i + 1).
Proof. intros Hi. pose proof (clmul_gcm_bits i 1 ltac:(lia) ltac:(lia)) as E. rewrite reduced_power_small in E by lia. exact E. Qed.

Lemma psi_mul_pow2 (i : nat) : Z.of_nat i < 128 ->
  forall u, in_range 128 u -> psi (clmul_gcm u (2 ^ Z.of_nat i)) = psi u ⊗ psi (2 ^ Z.of_nat i).
Proof.
  induction i as [|i IH]; intros Hi u Hu.
  - change (2 ^ Z.of_nat 0) with 1. rewrite clmul_gcm_1_r, psi_1, mul128_1_r by (exact Hu || apply psi_range).
    reflexivity.
  - rewrite Nat2Z.inj_succ, <- Z.add_1_r in *.
    pose proof (two_pow_range (Z.of_nat i) ltac:(lia)) as Hp.
    rewrite clmul_gcm_step, psi_mul_2, IH by (exact Hu || lia || now apply clmul_gcm_range).
    rewrite <- mul128_assoc by apply psi_range.
    rewrite <- psi_mul_2 by exact Hp.
    now rewrite clmul_gcm_pow2_2 by lia.
Qed.

(** The flat product is the tower product seen through the change of basis. *)
Lemma psi_mul u v : in_range 128 u -> in_range 128 v -> psi (clmul_gcm u v) = psi u ⊗ psi v.
Proof.
  intros Hu. revert v.
  apply (linear_on_ext 128 (fun v => psi (clmul_gcm u v)) (fun v => psi u ⊗ psi v)); [lia| | |].
  - apply linear_linear_on, (linear_compose psi (clmul_gcm u));
      [exact psi_linear|apply clmul_gcm_linear_r].
  - intros a b _ _. rewrite psi_linear.
    exact (mul128_linear_r (psi u) (psi_range u) (psi a) (psi b) (psi_range a) (psi_range b)).
  - intros i Hi. rewrite <- (Z2Nat.id i) by lia. apply psi_mul_pow2; [lia|exact Hu].
Qed.

Lemma phi_mul a b : in_range 128 a -> in_range 128 b -> phi (a ⊗ b) = clmul_gcm (phi a) (phi b).
Proof.
  intros Ha Hb. rewrite <- (phi_psi (clmul_gcm (phi a) (phi b)))
    by (apply clmul_gcm_range; apply phi_range).
  now rewrite psi_mul, !psi_phi by (assumption || apply phi_range).
Qed.

Lemma clmul_gcm_comm u v : in_range 128 u -> in_range 128 v -> clmul_gcm u v = clmul_gcm v u.
Proof.
  intros Hu Hv. rewrite <- (phi_psi (clmul_gcm u v)), <- (phi_psi (clmul_gcm v u))
    by now apply clmul_gcm_range.
  rewrite !psi_mul by assumption. f_equal. apply mul128_comm; apply psi_range.
Qed.

(** *** Squaring by spreading bits *)

Definition within (m x : Z) : Prop := Z.land x m = x.

Definition linear_within (m : Z) (f : Z -> Z) : Prop :=
  forall a b, within m a -> within m b -> f (Z.lxor a b) = Z.lxor (f a) (f b).

Lemma within_bit m x n : within m x -> Z.testbit x n = true -> Z.testbit m n = true.
Proof. unfold within. intros H Hn. rewrite <- H, Z.land_spec in Hn. now apply andb_prop in Hn as [_ ?]. Qed.

Lemma within_lxor m a b : within m a -> within m b -> within m (Z.lxor a b).
Proof.
  unfold within. intros Ha Hb. rewrite <- Ha at 2. rewrite <- Hb at 2. apply Z.bits_inj'. intros n _.
  rewrite !Z.land_spec, !Z.lxor_spec, !Z.land_spec.
  now destruct (Z.testbit a n), (Z.testbit b n), (Z.testbit m n).
Qed.

Lemma shl128_bit x s n : 0 <= n -> Z.testbit (shl128 x s) n = (n <? 128) && Z.testbit x (n - s).
Proof.
  intros Hn. unfold shl128. rewrite Z.testbit_mod_pow2 by lia. f_equal. now apply Z.shiftl_spec.
Qed.

(** On an argument within [mp] whose bits do not collide under the shift, the
    [|] of a spreading step is an exclusive or. *)
Lemma spread_linear mp s mask :
  Z.land (Z.land mp (shl128 mp s)) mask = 0 -> linear_within mp (spread s mask).
Proof.
  intros Hd.
  assert (E : forall x, within mp x ->
    spread s mask x = Z.lxor (Z.land x mask) (Z.land (shl128 x s) mask)).
  { intros x Hx. unfold spread. apply Z.bits_inj'. intros n Hn.
    rewrite Z.lxor_spec, !Z.land_spec, Z.lor_spec, shl128_bit by exact Hn.
    pose proof (f_equal (fun z => Z.testbit z n) Hd) as Hz. cbn beta in Hz.
    rewrite !Z.land_spec, shl128_bit, Z.bits_0 in Hz by exact Hn.
    destruct (Z.testbit x n) eqn:E1, (Z.testbit x (n - s)) eqn:E2;
      try (rewrite (within_bit _ _ _ Hx E1), (within_bit _ _ _ Hx E2) in Hz);
      now destruct (n <? 128), (Z.testbit mask n). }
  intros a b Ha Hb. rewrite !E by (assumption || now apply within_lxor).
  apply Z.bits_inj'. intros n Hn.
  rewrite !Z.lxor_spec, !Z.land_spec, !shl128_bit, !Z.lxor_spec by exact Hn.
  destruct (Z.testbit a n), (Z.testbit b n), (n <? 128), (Z.testbit a (n - s)),
    (Z.testbit b (n - s)), (Z.testbit mask n); reflexivity.
Qed.

Lemma spread_within s mask x : within mask (spread s mask x).
Proof. unfold within, spread. now rewrite <- Z.land_assoc, Z.land_diag. Qed.

Lemma spread_compose mp s mask f :
  linear_within mask f -> Z.land (Z.land mp (shl128 mp s)) mask = 0 ->
  linear_within mp (fun x => f (spread s mask x)).
Proof.
  intros Hf Hd a b Ha Hb. rewrite (spread_linear mp s mask Hd a b Ha Hb).
  apply Hf; apply spread_within.
Qed.

Lemma expand_bits_linear : linear_within (Z.ones 64) expand_bits_u64_to_u128.
Proof.
  pose proof (spread_linear 0x33333333333333333333333333333333 1 0x55555555555555555555555555555555 eq_refl) as H.
  apply (spread_compose 0x0F0F0F0F0F0F0F0F0F0F0F0F0F0F0F0F 2) in H; [|reflexivity].
  apply (spread_compose 0x00FF00FF00FF00FF00FF00FF00FF00FF 4) in H; [|reflexivity].
  apply (spread_compose 0x0000FFFF0000FFFF0000FFFF0000FFFF 8) in H; [|reflexivity].
  apply (spread_compose 0x00000000FFFFFFFF00000000FFFFFFFF 16) in H; [|reflexivity].
  exact (spread_compose (Z.ones 64) 32 _ _ H eq_refl).
Qed.

Lemma word_within x : within (Z.ones 64) (x mod 2 ^ 64).
Proof. unfold within. now rewrite Z.land_ones, Z.mod_mod by lia. Qed.

Lemma square_flat_linear : linear square_flat_u128.
Proof.
  intros a b. unfold square_flat_u128. rewrite Z.shiftr_lxor, !lxor_mod by lia.
  rewrite !expand_bits_linear by apply word_within. apply reduce_linear.
Qed.

Lemma square_flat_mul u : in_range 128 u -> square_flat_u128 u = clmul_gcm u u.
Proof.
  revert u. apply (linear_on_ext 128 square_flat_u128 (fun u => clmul_gcm u u)); [lia| | |].
  - apply linear_linear_on, square_flat_linear.
  - intros a b Ha Hb. rewrite clmul_gcm_linear_r, !(clmul_gcm_linear_l _ a b), (clmul_gcm_comm b a Hb Ha).
    xor_bits true true.
  - intros i Hi. rewrite clmul_gcm_bits by lia. apply Z.eqb_eq. revert i Hi. apply forallb_seqZ.
    vm_compute. reflexivity.
Qed.

(** ** Main results *)

Lemma inv128 x : in_range 128 x -> x <> 0 -> x ⊗ tinvert Block128 x = 1.
Proof. exact (tinvert_mul (F := Block128) x). Qed.

Lemma inv128_range x : in_range 128 x -> in_range 128 (tinvert Block128 x).
Proof. exact (tinvert_range (F := Block128) x). Qed.

Lemma square128 x : in_range 128 x -> tsquare Block128 x = x ⊗ x.
Proof. exact (tsquare_mul (F := Block128) x). Qed.

Lemma phi_1 : phi 1 = 1.
Proof. rewrite phi_rows. vm_compute. reflexivity. Qed.

Lemma psi_0 : psi 0 = 0.
Proof. rewrite psi_rows. vm_compute. reflexivity. Qed.

Lemma phi_inv u : in_range 128 u -> u <> 0 -> clmul_gcm u (phi (tinvert Block128 (psi u))) = 1.
Proof.
  intros Hu Hn. assert (Hp : psi u <> 0).
  { intros E. apply Hn. rewrite <- (phi_psi u Hu), E, <- psi_0. apply phi_psi. now apply range_0. }
  rewrite <- phi_1, <- (inv128 (psi u) (psi_range u) Hp).
  rewrite phi_mul by (apply psi_range || apply inv128_range, psi_range).
  now rewrite phi_psi.
Qed.

(** C36. The flat (GHASH polynomial) representation that the hash and the
    provers compute in is isomorphic to the tower field: the two basis
    conversions are mutually inverse on 128-bit words and additive,
    [clmul_gcm] (portable carry-less multiplication with reduction) computes
    the tower product, the bit-spreading [square_flat_u128] the tower square,
    and [invert] on the targets with a kernel the tower inverse. *)
Theorem flat_isomorphism a b :
  u128 a -> u128 b ->
  (u128 (tower_to_flat_u128 a) /\ u128 (flat_to_tower_u128 a)) /\
  flat_to_tower_u128 (tower_to_flat_u128 a) = a /\
  tower_to_flat_u128 (flat_to_tower_u128 a) = a /\
  tower_to_flat_u128 (tadd a b) = Flat_add (tower_to_flat_u128 a) (tower_to_flat_u128 b) /\
  tower_to_flat_u128 (tmul Block128 a b)
    = Flat_mul (tower_to_flat_u128 a) (tower_to_flat_u128 b) /\
  tower_to_flat_u128 (tsquare Block128 a) = square_flat_u128 (tower_to_flat_u128 a) /\
  (a <> 0 -> Flat_mul a (Flat_invert true a) = 1).
Proof.
  intros Ha Hb.
  split; [split; [apply phi_range|apply psi_range]|].
  split; [now apply psi_phi|]. split; [now apply phi_psi|].
  split; [apply phi_linear|]. split; [now apply phi_mul|].
  split; [|now apply phi_inv].
  now rewrite square128, square_flat_mul, phi_mul by (assumption || apply phi_range).
Qed.

Lemma flat_isomorphism_witness :
  flat_to_tower_u128 (tower_to_flat_u128 5) = 5 /\
  tower_to_flat_u128 (tmul Block128 5 7)
    = Flat_mul (tower_to_flat_u128 5) (tower_to_flat_u128 7).
Proof.
  destruct (flat_isomorphism 5 7) as (_ & E & _ & _ & M & _); [split; lia..|].
  exact (conj E M).
Defined.

(** [Flat<Block128>::EXTENSION_TAU] wraps the tower constant without
    converting it: [y^2 + y + tau], which has no root for the tower constant
    ([Block256] is a field), has one in the flat representation, so the
    constant does not define a quadratic extension there; and without a kernel
    [invert] inverts in the tower basis although the product is the flat one. *)
Theorem flat_constants_unconverted :
  (exists y, u128 y /\ Flat_add (Flat_mul y y) y = Flat_EXTENSION_TAU) /\
  Flat_mul 2 (Flat_invert false 2) <> 1.
Proof.
  split.
  - exists 0x8e8cbdc6770aef73b1ef36f7c270bdac. split; [split; lia|]. vm_compute. reflexivity.
  - vm_compute. discriminate.
Qed.
