(* ===== verification/Poseidon.v ===== *)
(** * The Poseidon2b permutation ([noid_poseidon2b/src/native])

    The permutation of four 128-bit lanes as [permutation.rs] runs it without a
    vector kernel: it converts to the flat basis, runs 8 full and 58 partial
    rounds on precomputed tables and converts back.  The specification is the
    textbook schedule over any field of characteristic two; the code refines it
    over the tower field, and the permutation is a bijection with an explicit
    inverse. *)

From Stdlib Require Import ZArith Lia Bool Ring.
From stdpp Require Import base numbers list option.
From S2P Require Import Prelude Gf2 Tower Flat.
Open Scope Z_scope.

(** ** Constants *)

Definition STATE_SIZE : nat := 4.
Definition SBOX_EXPONENT : nat := 7.
Definition F_ROUNDS : nat := 8.
Definition P_ROUNDS : nat := 58.
Definition N_ROUNDS : nat := F_ROUNDS + P_ROUNDS.
Definition permutation_sizes : list nat := [STATE_SIZE; SBOX_EXPONENT; F_ROUNDS; P_ROUNDS; N_ROUNDS].

Definition ROUND_CONSTANTS : list (list Z) :=
  [[0; 1; 0; 3; 7; 7; 6; 6; 2; 1; 7; 2; 2; 3; 3; 2; 6; 5; 7; 5; 0; 2; 2; 3; 1; 5; 2; 6; 1; 4;
     1; 0; 3; 7; 2; 0; 1; 2; 4; 1; 0; 0; 2; 5; 7; 2; 0; 4; 1; 5; 5; 1; 2; 7; 3; 1; 0; 1; 3; 7;
     1; 6; 1; 6; 6; 2];
   [3; 3; 0; 6; 7; 1; 1; 2; 7; 3; 7; 5; 7; 1; 7; 3; 6; 1; 7; 5; 5; 5; 7; 1; 6; 5; 1; 2; 6; 3;
     5; 4; 4; 6; 3; 2; 3; 0; 4; 1; 0; 6; 1; 7; 6; 7; 1; 6; 4; 1; 4; 0; 4; 3; 4; 0; 3; 0; 0; 7;
     3; 2; 3; 5; 0; 2];
   [6; 0; 5; 3; 2; 5; 6; 5; 6; 7; 2; 7; 6; 4; 1; 0; 6; 3; 2; 6; 2; 1; 5; 3; 1; 7; 7; 6; 7; 1;
     1; 4; 4; 4; 6; 2; 5; 4; 0; 3; 1; 4; 1; 6; 1; 6; 7; 7; 6; 2; 7; 3; 3; 3; 0; 2; 6; 4; 0; 0;
     0; 3; 1; 4; 1; 5];
   [7; 1; 1; 5; 1; 2; 2; 7; 5; 0; 5; 5; 1; 4; 6; 5; 2; 4; 0; 1; 0; 4; 6; 4; 3; 7; 3; 2; 4; 0;
     1; 6; 3; 3; 2; 6; 3; 4; 6; 3; 2; 3; 5; 1; 1; 2; 4; 5; 5; 6; 0; 5; 5; 6; 4; 1; 2; 1; 5; 7;
     1; 3; 1; 2; 2; 2]].

Definition MDS_FULL : list (list Z) :=
  [[0x5; 0x7; 0x1; 0x3];
   [0x4; 0x6; 0x1; 0x1];
   [0x1; 0x3; 0x5; 0x7];
   [0x1; 0x1; 0x4; 0x6]].

Definition MDS_PARTIAL : list (list Z) :=
  [[0x20; 0x1; 0x1; 0x1];
   [0x1; 0x2000; 0x1; 0x1];
   [0x1; 0x1; 0x200; 0x1];
   [0x1; 0x1; 0x1; 0x800]].

(** ** The permutation in the flat basis *)

(** [m[i][j]]. *)
Definition entry {A} (d : A) (m : list (list A)) (i j : nat) : A := nth j (nth i m []) d.

Record FlatTables := mkTables {
  rc : list (list Z);
  mds_full : list (list Z);
  mds_partial : list (list Z);
  mds_full_is_one : list (list bool);
  mds_partial_is_one : list (list bool)
}.

Definition flat_tables : FlatTables := {|
  rc := map (map tower_to_flat_u128) ROUND_CONSTANTS;
  mds_full := map (map tower_to_flat_u128) MDS_FULL;
  mds_partial := map (map tower_to_flat_u128) MDS_PARTIAL;
  mds_full_is_one := map (map (fun c => c =? 1)) MDS_FULL;
  mds_partial_is_one := map (map (fun c => c =? 1)) MDS_PARTIAL
|}.

(** The two nested loops of [apply_mds_full_flat] and [apply_mds_partial_flat]. *)
Definition apply_mds_rows (is_one : list (list bool)) (mds : list (list Z)) (input : list Z) : list Z :=
  map (fun i => foldl (fun out j =>
         if entry false is_one i j then Z.lxor out (nth j input 0)
         else Z.lxor out (clmul_gcm (nth j input 0) (entry 0 mds i j))) 0 (seq 0 STATE_SIZE))
      (seq 0 STATE_SIZE).

Definition apply_mds_full_flat (state : list Z) (tables : FlatTables) : list Z :=
  apply_mds_rows (mds_full_is_one tables) (mds_full tables) state.

Definition apply_mds_partial_flat (state : list Z) (tables : FlatTables) : list Z :=
  apply_mds_rows (mds_partial_is_one tables) (mds_partial tables) state.

Definition sbox_x7_flat_u128 (x : Z) : Z :=
  let x2 := square_flat_u128 x in
  let x4 := square_flat_u128 x2 in
  let x6 := clmul_gcm x x2 in
  clmul_gcm x6 x4.

(** [(F_ROUNDS / 2..F_ROUNDS / 2 + P_ROUNDS).contains(&r)] *)
Definition is_partial_round (r : nat) : bool :=
  (F_ROUNDS / 2 <=? r)%nat && (r <? F_ROUNDS / 2 + P_ROUNDS)%nat.

(** One iteration of the round loop. *)
Definition flat_round (tables : FlatTables) (flat : list Z) (r : nat) : list Z :=
  if negb (is_partial_round r) then
    let flat := map (fun i => sbox_x7_flat_u128 (Z.lxor (nth i flat 0) (entry 0 (rc tables) i r)))
                    (seq 0 STATE_SIZE) in
    apply_mds_full_flat flat tables
  else
    let x := sbox_x7_flat_u128 (Z.lxor (nth 0 flat 0) (entry 0 (rc tables) 0 r)) in
    apply_mds_partial_flat (<[0%nat := x]> flat) tables.

(** The portable path of [permute_flat_u128]. *)
Definition permute_flat_u128 (flat : list Z) : list Z :=
  foldl (flat_round flat_tables) (apply_mds_full_flat flat flat_tables) (seq 0 N_ROUNDS).

Definition permute_mut (state : list Z) : list Z :=
  map flat_to_tower_u128 (permute_flat_u128 (map tower_to_flat_u128 state)).

Definition sbox_x7 (x : Z) : Z :=
  flat_to_tower_u128 (sbox_x7_flat_u128 (tower_to_flat_u128 x)).

(** [hash_pair] of [hasher_impl.rs]: one permutation of [a, b, 0, 0]. *)
Definition hash_pair (a b : Z) : list Z :=
  let state := permute_mut [a; b; 0; 0] in
  to_le_bytes 16 (nth 0 state 0) ++ to_le_bytes 16 (nth 1 state 0).

(** ** Specification *)

Record lanes (T : Type) := mkLanes { l0 : T; l1 : T; l2 : T; l3 : T }.
Arguments mkLanes {T}.
Arguments l0 {T}.
Arguments l1 {T}.
Arguments l2 {T}.
Arguments l3 {T}.

Section Spec.
Context {T : Type} `{HF : Char2Field T}.
Local Open Scope gf2_scope.
Add Ring char2_poseidon : char2_ring (morphism char2_morph, constants [bit_cst]).

Definition dot (m x : lanes T) : T := l0 m * l0 x + l1 m * l1 x + l2 m * l2 x + l3 m * l3 x.

Definition mat_vec (m : lanes (lanes T)) (x : lanes T) : lanes T :=
  mkLanes (dot (l0 m) x) (dot (l1 m) x) (dot (l2 m) x) (dot (l3 m) x).

Definition column (m : lanes (lanes T)) (p : forall A, lanes A -> A) : lanes T :=
  mkLanes (p T (l0 m)) (p T (l1 m)) (p T (l2 m)) (p T (l3 m)).

Definition transpose (m : lanes (lanes T)) : lanes (lanes T) :=
  mkLanes (column m (@l0)) (column m (@l1)) (column m (@l2)) (column m (@l3)).

Definition mat_mul (n m : lanes (lanes T)) : lanes (lanes T) :=
  let t := transpose m in
  let row r := mkLanes (dot r (l0 t)) (dot r (l1 t)) (dot r (l2 t)) (dot r (l3 t)) in
  mkLanes (row (l0 n)) (row (l1 n)) (row (l2 n)) (row (l3 n)).

Definition identity : lanes (lanes T) :=
  mkLanes (mkLanes f1 f0 f0 f0) (mkLanes f0 f1 f0 f0) (mkLanes f0 f0 f1 f0) (mkLanes f0 f0 f0 f1).

Lemma mat_vec_mul n m x : mat_vec n (mat_vec m x) = mat_vec (mat_mul n m) x.
Proof. destruct x. unfold mat_vec, dot. cbn. unfold dot. cbn. f_equal; ring. Qed.

Lemma mat_vec_identity x : mat_vec identity x = x.
Proof. destruct x. unfold mat_vec, dot. cbn. f_equal; ring. Qed.

Lemma mat_vec_inverse n m x : mat_mul n m = identity -> mat_vec n (mat_vec m x) = x.
Proof. intros E. now rewrite mat_vec_mul, E, mat_vec_identity. Qed.

(** The schedule: [m_full] first, then for each round the constants, the S-box
    and the matrix, on all lanes in a full round and on the first in a partial
    one. *)
Variables (m_full m_partial : lanes (lanes T)) (rcs : nat -> lanes T).

Definition spec_round (s : lanes T) (r : nat) : lanes T :=
  let c := rcs r in
  if is_partial_round r then
    mat_vec m_partial (mkLanes (x7 (l0 s + l0 c)) (l1 s) (l2 s) (l3 s))
  else
    mat_vec m_full (mkLanes (x7 (l0 s + l0 c)) (x7 (l1 s + l1 c)) (x7 (l2 s + l2 c)) (x7 (l3 s + l3 c))).

Definition poseidon2b (s : lanes T) : lanes T :=
  foldl spec_round (mat_vec m_full s) (seq 0 N_ROUNDS).

(** The inverse, from inverse matrices and an inverse of the S-box. *)
Variables (n_full n_partial : lanes (lanes T)) (root : T -> T).

Definition spec_unround (r : nat) (s : lanes T) : lanes T :=
  let c := rcs r in
  if is_partial_round r then
    let t := mat_vec n_partial s in mkLanes (root (l0 t) + l0 c) (l1 t) (l2 t) (l3 t)
  else
    let t := mat_vec n_full s in
    mkLanes (root (l0 t) + l0 c) (root (l1 t) + l1 c) (root (l2 t) + l2 c) (root (l3 t) + l3 c).

Definition poseidon2b_inverse (s : lanes T) : lanes T :=
  mat_vec n_full (foldr spec_unround s (seq 0 N_ROUNDS)).

Hypothesis full_l : mat_mul n_full m_full = identity.
Hypothesis full_r : mat_mul m_full n_full = identity.
Hypothesis partial_l : mat_mul n_partial m_partial = identity.
Hypothesis partial_r : mat_mul m_partial n_partial = identity.
Hypothesis root_x7 : forall x, root (x7 x) = x.
Hypothesis x7_root : forall t, x7 (root t) = t.

Lemma fadd_cancel (x y : T) : x + y + y = x.
Proof. ring. Qed.

Lemma unround_round r s : spec_unround r (spec_round s r) = s.
Proof.
  destruct s. unfold spec_unround, spec_round. destruct (is_partial_round r); cbn zeta;
    rewrite mat_vec_inverse by assumption; cbn [l0 l1 l2 l3]; now rewrite ?root_x7, !fadd_cancel.
Qed.

Lemma round_unround r s : spec_round (spec_unround r s) r = s.
Proof.
  unfold spec_unround, spec_round. destruct (is_partial_round r); cbn zeta; cbn [l0 l1 l2 l3];
    rewrite !fadd_cancel, !x7_root.
  - rewrite <- (mat_vec_inverse _ _ s partial_r) at 5. now destruct (mat_vec n_partial s).
  - rewrite <- (mat_vec_inverse _ _ s full_r) at 5. now destruct (mat_vec n_full s).
Qed.

Lemma poseidon2b_inverse_l s : poseidon2b_inverse (poseidon2b s) = s.
Proof.
  unfold poseidon2b_inverse, poseidon2b. rewrite foldr_foldl_cancel by apply unround_round.
  now apply mat_vec_inverse.
Qed.

Lemma poseidon2b_inverse_r s : poseidon2b (poseidon2b_inverse s) = s.
Proof.
  unfold poseidon2b_inverse, poseidon2b. rewrite mat_vec_inverse by assumption.
  apply foldl_foldr_cancel, round_unround.
Qed.

(** A set of elements closed under the operations that holds all constants is
    kept by the permutation. *)
Variable P : T -> Prop.
Definition all_lanes {A} (Q : A -> Prop) (s : lanes A) : Prop := Q (l0 s) /\ Q (l1 s) /\ Q (l2 s) /\ Q (l3 s).
Hypothesis P_add : forall x y, P x -> P y -> P (x + y).
Hypothesis P_mul : forall x y, P x -> P y -> P (x * y).
Hypothesis P_full : all_lanes (all_lanes P) m_full.
Hypothesis P_partial : all_lanes (all_lanes P) m_partial.
Hypothesis P_rcs : forall r, all_lanes P (rcs r).

Lemma P_dot m x : all_lanes P m -> all_lanes P x -> P (dot m x).
Proof. unfold all_lanes, dot. intuition auto. Qed.

Lemma P_mat_vec m x : all_lanes (all_lanes P) m -> all_lanes P x -> all_lanes P (mat_vec m x).
Proof. intros (? & ? & ? & ?) ?. repeat split; now apply P_dot. Qed.

Lemma P_x7 x : P x -> P (x7 x).
Proof. unfold x7. auto. Qed.

Lemma P_round s r : all_lanes P s -> all_lanes P (spec_round s r).
Proof.
  intros (? & ? & ? & ?). destruct (P_rcs r) as (? & ? & ? & ?). unfold spec_round. cbn zeta.
  destruct (is_partial_round r); apply P_mat_vec; try assumption;
    repeat split; cbn [l0 l1 l2 l3]; auto using P_x7.
Qed.

Lemma poseidon2b_closed s : all_lanes P s -> all_lanes P (poseidon2b s).
Proof.
  intros Hs. unfold poseidon2b. assert (H : all_lanes P (mat_vec m_full s)) by now apply P_mat_vec.
  revert H. generalize (mat_vec m_full s). induction (seq 0 N_ROUNDS) as [|r l IH]; intros t Ht; [exact Ht|].
  cbn [foldl]. apply IH, P_round, Ht.
Qed.
End Spec.

(** ** The code refines the schedule over the tower field *)

Definition w128 (z : Z) : W128 := to_word (z mod 2 ^ 128) (Z.mod_pos_bound z (2 ^ 128) eq_refl).

Definition of_rows (m : list (list Z)) : lanes (lanes W128) :=
  let row i := mkLanes (w128 (entry 0 m i 0)) (w128 (entry 0 m i 1))
                 (w128 (entry 0 m i 2)) (w128 (entry 0 m i 3)) in
  mkLanes (row 0%nat) (row 1%nat) (row 2%nat) (row 3%nat).

Definition round_constants (r : nat) : lanes W128 :=
  mkLanes (w128 (entry 0 ROUND_CONSTANTS 0 r)) (w128 (entry 0 ROUND_CONSTANTS 1 r))
    (w128 (entry 0 ROUND_CONSTANTS 2 r)) (w128 (entry 0 ROUND_CONSTANTS 3 r)).

(** The textbook permutation over the tower field. *)
Definition tower_poseidon2b : lanes W128 -> lanes W128 :=
  poseidon2b (of_rows MDS_FULL) (of_rows MDS_PARTIAL) round_constants.

Definition tower_state (s : lanes W128) : list Z := [val (l0 s); val (l1 s); val (l2 s); val (l3 s)].

Definition state_ok (st : list Z) : Prop := length st = STATE_SIZE /\ Forall (in_range 128) st.

Lemma tower_state_ok s : state_ok (tower_state s).
Proof. split; [reflexivity|]. repeat constructor; apply word_range. Qed.

Lemma state_ok_tower st : state_ok st -> exists s, st = tower_state s.
Proof.
  intros [Hl Hf]. destruct st as [|a [|b [|c [|d [|]]]]]; try discriminate Hl.
  apply Forall_cons_1 in Hf as [Ha Hf]. apply Forall_cons_1 in Hf as [Hb Hf].
  apply Forall_cons_1 in Hf as [Hc Hf]. apply Forall_cons_1 in Hf as [Hd _].
  now exists (mkLanes (to_word a Ha) (to_word b Hb) (to_word c Hc) (to_word d Hd)).
Qed.

Lemma val_add128 (x y : W128) : val (fadd x y) = Z.lxor (val x) (val y).
Proof. reflexivity. Qed.

Section LevelMul.
Variable F : TowerOps.
Context `{HF : !TowerLaws F}.

Lemma val_mul_level (x y : word (BITS F)) : val (@fmul _ (word_field F) x y) = tmul F (val x) (val y).
Proof. reflexivity. Qed.

Lemma val_frob_level n (x : word (BITS F)) :
  val (@frob _ (word_field F) n x) = Nat.iter n (fun y => tmul F y y) (val x).
Proof.
  induction n as [|n IH]; [reflexivity|]. rewrite frob_S, val_mul_level, IH. reflexivity.
Qed.
End LevelMul.

Lemma val_mul128 (x y : W128) : val (fmul x y) = tmul Block128 (val x) (val y).
Proof. exact (val_mul_level Block128 x y). Qed.

Lemma val_w128 c : in_range 128 c -> val (w128 c) = c.
Proof. apply Z.mod_small. Qed.

Lemma entry_map {A B} (f : A -> B) d m i j : entry (f d) (map (map f) m) i j = f (entry d m i j).
Proof.
  unfold entry. change (@nil B) with (map f []). rewrite map_nth. apply map_nth.
Qed.

Lemma phi_0 : tower_to_flat_u128 0 = 0.
Proof. rewrite phi_rows. vm_compute. reflexivity. Qed.

Lemma entry_range w m :
  0 <= w -> forallb (forallb (fun c => (0 <=? c) && (c <? 2 ^ w))) m = true ->
  forall i j, in_range w (entry 0 m i j).
Proof.
  intros Hw Hm i j. unfold entry. destruct (nth_in_or_default i m []) as [Hi| ->];
    [|destruct j; now apply range_0].
  destruct (nth_in_or_default j (nth i m []) 0) as [Hj| ->]; [|now apply range_0].
  rewrite forallb_forall in Hm. specialize (Hm _ Hi). rewrite forallb_forall in Hm.
  apply in_range_b, (Hm _ Hj).
Qed.

(** One term of a row: the shortcut for the coefficient one is the product. *)
Lemma mds_term out c (x : W128) :
  in_range 128 c ->
  (if c =? 1 then Z.lxor out (tower_to_flat_u128 (val x))
   else Z.lxor out (clmul_gcm (tower_to_flat_u128 (val x)) (tower_to_flat_u128 c)))
  = Z.lxor out (tower_to_flat_u128 (val (fmul (w128 c) x))).
Proof.
  intros Hc. rewrite val_mul128, val_w128, mul128_comm by (exact Hc || apply word_range).
  destruct (Z.eqb_spec c 1) as [->|_].
  - now rewrite mul128_1_r by apply word_range.
  - now rewrite phi_mul by (exact Hc || apply word_range).
Qed.

Lemma apply_mds_refines m s :
  (forall i j, in_range 128 (entry 0 m i j)) ->
  apply_mds_rows (map (map (fun c => c =? 1)) m) (map (map tower_to_flat_u128) m)
    (map tower_to_flat_u128 (tower_state s))
  = map tower_to_flat_u128 (tower_state (mat_vec (of_rows m) s)).
Proof.
  intros Hm. unfold apply_mds_rows. change (seq 0 STATE_SIZE) with [0; 1; 2; 3]%nat.
  assert (E1 : forall i j, entry false (map (map (fun c => c =? 1)) m) i j = (entry 0 m i j =? 1))
    by (intros i j; exact (entry_map (fun c => c =? 1) 0 m i j)).
  assert (E2 : forall i j, entry 0 (map (map tower_to_flat_u128) m) i j = tower_to_flat_u128 (entry 0 m i j))
    by (intros; rewrite <- phi_0 at 1; apply entry_map).
  cbn [map foldl tower_state nth]. rewrite !E1, !E2, !mds_term by apply Hm.
  unfold mat_vec, of_rows, dot. cbn [l0 l1 l2 l3].
  now rewrite !val_add128, !phi_linear, !Z.lxor_0_l.
Qed.

Lemma full_range i j : in_range 16 (entry 0 MDS_FULL i j).
Proof. now apply entry_range. Qed.

Lemma partial_range i j : in_range 16 (entry 0 MDS_PARTIAL i j).
Proof. now apply entry_range. Qed.

Lemma constants_range i r : in_range 16 (entry 0 ROUND_CONSTANTS i r).
Proof. now apply entry_range. Qed.

Lemma range_16_128 c : in_range 16 c -> in_range 128 c.
Proof. unfold in_range. change (2 ^ 16) with 65536. lia. Qed.

Lemma sbox_refines (x : W128) c :
  in_range 128 c ->
  sbox_x7_flat_u128 (Z.lxor (tower_to_flat_u128 (val x)) (tower_to_flat_u128 c))
  = tower_to_flat_u128 (val (x7 (fadd x (w128 c)))).
Proof.
  intros Hc. rewrite <- phi_linear. rewrite <- (val_w128 c Hc) at 1. rewrite <- val_add128.
  generalize (fadd x (w128 c)). clear x c Hc. intros x. unfold sbox_x7_flat_u128, x7. cbn zeta.
  pose proof (word_range x) as Hx. rewrite !val_mul128.
  rewrite !square_flat_mul by (apply phi_range || (apply clmul_gcm_range; apply phi_range)).
  now rewrite !phi_mul by (repeat apply mul128_range; exact Hx).
Qed.

Lemma mds_full_refines s :
  apply_mds_full_flat (map tower_to_flat_u128 (tower_state s)) flat_tables
  = map tower_to_flat_u128 (tower_state (mat_vec (of_rows MDS_FULL) s)).
Proof. apply (apply_mds_refines MDS_FULL). intros. apply range_16_128, full_range. Qed.

Lemma mds_partial_refines s :
  apply_mds_partial_flat (map tower_to_flat_u128 (tower_state s)) flat_tables
  = map tower_to_flat_u128 (tower_state (mat_vec (of_rows MDS_PARTIAL) s)).
Proof. apply (apply_mds_refines MDS_PARTIAL). intros. apply range_16_128, partial_range. Qed.

Lemma flat_round_refines s r :
  flat_round flat_tables (map tower_to_flat_u128 (tower_state s)) r
  = map tower_to_flat_u128
      (tower_state (spec_round (of_rows MDS_FULL) (of_rows MDS_PARTIAL) round_constants s r)).
Proof.
  assert (E : forall i, entry 0 (rc flat_tables) i r = tower_to_flat_u128 (entry 0 ROUND_CONSTANTS i r))
    by (intros i; rewrite <- phi_0 at 1; apply entry_map).
  unfold flat_round, spec_round. cbn zeta. destruct (is_partial_round r); cbn [negb].
  - rewrite E. cbn [map tower_state nth insert list_insert].
    rewrite sbox_refines by apply range_16_128, constants_range.
    exact (mds_partial_refines (mkLanes _ (l1 s) (l2 s) (l3 s))).
  - change (seq 0 STATE_SIZE) with [0; 1; 2; 3]%nat. cbn [map tower_state nth]. rewrite !E.
    rewrite !sbox_refines by apply range_16_128, constants_range.
    exact (mds_full_refines (mkLanes _ _ _ _)).
Qed.

Lemma permute_flat_refines s :
  permute_flat_u128 (map tower_to_flat_u128 (tower_state s))
  = map tower_to_flat_u128 (tower_state (tower_poseidon2b s)).
Proof.
  unfold permute_flat_u128, tower_poseidon2b, poseidon2b. rewrite mds_full_refines.
  generalize (mat_vec (of_rows MDS_FULL) s). induction (seq 0 N_ROUNDS) as [|r l IH]; intros t; [reflexivity|].
  cbn [foldl]. rewrite flat_round_refines. apply IH.
Qed.

Lemma psi_phi_state s : map flat_to_tower_u128 (map tower_to_flat_u128 (tower_state s)) = tower_state s.
Proof. unfold tower_state. cbn [map]. now rewrite !psi_phi by apply word_range. Qed.

Lemma permute_refines s : permute_mut (tower_state s) = tower_state (tower_poseidon2b s).
Proof. unfold permute_mut. rewrite permute_flat_refines. apply psi_phi_state. Qed.

(** ** The inverse *)

Definition INV_FULL : list (list Z) :=
  [[0xe8; 0x23; 0x46; 0xae]; [0xe8; 0xe8; 0x8d; 0x65];
   [0x46; 0xae; 0xe8; 0x23]; [0x8d; 0x65; 0xe8; 0xe8]].

Definition INV_PARTIAL : list (list Z) :=
  [[0x465a; 0xa07d; 0xaed6; 0x161f]; [0xa07d; 0x3683; 0xbdd0; 0x4c6a];
   [0xaed6; 0xbdd0; 0xf55b; 0x540e]; [0x161f; 0x4c6a; 0x540e; 0xeea9]].

Definition tower_poseidon2b_inverse : lanes W128 -> lanes W128 :=
  poseidon2b_inverse round_constants (of_rows INV_FULL) (of_rows INV_PARTIAL) (seventh_root 43).

Lemma frob_128 (x : W128) : frob 128 x = x.
Proof.
  apply word_eq. etransitivity; [exact (val_frob_level Block128 128 x)|].
  exact (Block128_frob (val x) (word_range x)).
Qed.

(** The inverse matrices, checked in the 16-bit subfield and lifted. *)
Lemma word_eq_lanes (a b : lanes W128) :
  val (l0 a) = val (l0 b) -> val (l1 a) = val (l1 b) ->
  val (l2 a) = val (l2 b) -> val (l3 a) = val (l3 b) -> a = b.
Proof. destruct a, b. cbn. intros. f_equal; now apply word_eq. Qed.

Lemma val_w128_0 : val (f0 : W128) = 0.
Proof. reflexivity. Qed.

Lemma val_w128_1 : val (f1 : W128) = 1.
Proof. reflexivity. Qed.

(** An entry of a product of matrices, on integers. *)
Definition product_entry (n m : list (list Z)) (i k : nat) : Z :=
  let t j := tmul Block128 (entry 0 n i j) (entry 0 m j k) in
  Z.lxor (Z.lxor (Z.lxor (t 0%nat) (t 1%nat)) (t 2%nat)) (t 3%nat).

Definition is_inverse (n m : list (list Z)) : bool :=
  forallb (fun i => forallb (fun k =>
    product_entry n m i k =? (if (i =? k)%nat then 1 else 0)) (seq 0 4)) (seq 0 4).

Lemma is_inverse_entry n m i k :
  is_inverse n m = true -> (i < 4)%nat -> (k < 4)%nat ->
  product_entry n m i k = if (i =? k)%nat then 1 else 0.
Proof.
  unfold is_inverse. rewrite forallb_forall. intros H Hi Hk.
  specialize (H i ltac:(apply in_seq; lia)). rewrite forallb_forall in H.
  apply Z.eqb_eq, H, in_seq. lia.
Qed.

Lemma is_inverse_matrix n m :
  (forall i j, in_range 16 (entry 0 n i j)) -> (forall i j, in_range 16 (entry 0 m i j)) ->
  is_inverse n m = true -> mat_mul (of_rows n) (of_rows m) = identity.
Proof.
  intros Hn Hm H.
  assert (E : forall i k, val (dot (mkLanes (w128 (entry 0 n i 0)) (w128 (entry 0 n i 1))
                (w128 (entry 0 n i 2)) (w128 (entry 0 n i 3)))
              (mkLanes (w128 (entry 0 m 0 k)) (w128 (entry 0 m 1 k))
                (w128 (entry 0 m 2 k)) (w128 (entry 0 m 3 k)))) = product_entry n m i k).
  { intros i k. unfold dot, product_entry. cbn [l0 l1 l2 l3].
    rewrite !val_add128, !val_mul128, !val_w128 by (apply range_16_128; apply Hn || apply Hm).
    reflexivity. }
  unfold mat_mul, transpose, column, of_rows, identity. cbn [l0 l1 l2 l3].
  f_equal; apply word_eq_lanes; cbn [l0 l1 l2 l3]; rewrite E, is_inverse_entry by (exact H || lia);
    reflexivity.
Qed.

Lemma inv_full_l : is_inverse INV_FULL MDS_FULL = true.
Proof. vm_compute. reflexivity. Qed.

Lemma inv_full_r : is_inverse MDS_FULL INV_FULL = true.
Proof. vm_compute. reflexivity. Qed.

Lemma inv_partial_l : is_inverse INV_PARTIAL MDS_PARTIAL = true.
Proof. vm_compute. reflexivity. Qed.

Lemma inv_partial_r : is_inverse MDS_PARTIAL INV_PARTIAL = true.
Proof. vm_compute. reflexivity. Qed.

Lemma inverse_l s : tower_poseidon2b_inverse (tower_poseidon2b s) = s.
Proof.
  apply poseidon2b_inverse_l.
  - apply is_inverse_matrix; [now apply entry_range|exact full_range|exact inv_full_l].
  - apply is_inverse_matrix; [now apply entry_range|exact partial_range|exact inv_partial_l].
  - exact (seventh_root_l 128 42 frob_128 eq_refl).
Qed.

Lemma inverse_r s : tower_poseidon2b (tower_poseidon2b_inverse s) = s.
Proof.
  apply poseidon2b_inverse_r.
  - apply is_inverse_matrix; [exact full_range|now apply entry_range|exact inv_full_r].
  - apply is_inverse_matrix; [exact partial_range|now apply entry_range|exact inv_partial_r].
  - exact (seventh_root_r 128 42 frob_128 eq_refl).
Qed.

(** ** The 16-bit subfield *)

Definition small16 (x : W128) : Prop := in_range 16 (val x).

Lemma mul_16 a b : in_range 16 a -> in_range 16 b -> tmul Block128 a b = tmul Block16 a b.
Proof.
  intros Ha Hb.
  assert (L : forall z, in_range 16 z -> in_range 32 z /\ in_range 64 z)
    by (unfold in_range; intros z; change (2 ^ 16) with 65536; change (2 ^ 32) with 4294967296; lia).
  destruct (L a Ha) as [Ha32 Ha64], (L b Hb) as [Hb32 Hb64].
  etransitivity; [exact (quad_mul_embed Block64 a b Ha64 Hb64)|].
  etransitivity; [exact (quad_mul_embed Block32 a b Ha32 Hb32)|].
  exact (quad_mul_embed Block16 a b Ha Hb).
Qed.

Lemma small16_add x y : small16 x -> small16 y -> small16 (fadd x y).
Proof. unfold small16. rewrite val_add128. apply lxor_range. lia. Qed.

Lemma small16_mul x y : small16 x -> small16 y -> small16 (fmul x y).
Proof.
  unfold small16. intros Hx Hy. rewrite val_mul128, mul_16 by assumption.
  exact (tmul_range (F := Block16) _ _ Hx Hy).
Qed.

Lemma small16_w128 c : in_range 16 c -> small16 (w128 c).
Proof. intros Hc. unfold small16. now rewrite val_w128 by now apply range_16_128. Qed.

Lemma small16_rows m :
  (forall i j, in_range 16 (entry 0 m i j)) -> all_lanes (all_lanes small16) (of_rows m).
Proof. intros H. repeat split; apply small16_w128, H. Qed.

Lemma tower_closed s : all_lanes small16 s -> all_lanes small16 (tower_poseidon2b s).
Proof.
  apply poseidon2b_closed.
  - exact small16_add.
  - exact small16_mul.
  - apply small16_rows, full_range.
  - apply small16_rows, partial_range.
  - intros r. repeat split; apply small16_w128, constants_range.
Qed.

(** ** Main results *)

(** The inverse permutation on lanes. *)
Definition words (st : list Z) : lanes W128 :=
  mkLanes (w128 (nth 0 st 0)) (w128 (nth 1 st 0)) (w128 (nth 2 st 0)) (w128 (nth 3 st 0)).

Definition permute_inverse (st : list Z) : list Z := tower_state (tower_poseidon2b_inverse (words st)).

Lemma words_tower_state s : words (tower_state s) = s.
Proof. apply word_eq_lanes; apply val_w128, word_range. Qed.

Lemma permute_inverse_tower s : permute_inverse (tower_state s) = tower_state (tower_poseidon2b_inverse s).
Proof. unfold permute_inverse. now rewrite words_tower_state. Qed.

Lemma permute_mut_ok st : state_ok st -> state_ok (permute_mut st).
Proof. intros [s ->]%state_ok_tower. rewrite (permute_refines s). apply tower_state_ok. Qed.

Lemma permute_mut_inj st st' :
  state_ok st -> state_ok st' -> permute_mut st = permute_mut st' -> st = st'.
Proof.
  intros [s ->]%state_ok_tower [s' ->]%state_ok_tower. rewrite (permute_refines s), (permute_refines s').
  intros E. apply (f_equal words) in E. rewrite !words_tower_state in E.
  apply (f_equal tower_poseidon2b_inverse) in E. rewrite !inverse_l in E. now rewrite E.
Qed.

(** C38. The code computes the Poseidon2b schedule over the tower field: on four
    128-bit lanes the flat-basis rounds on converted tables, with their shortcut
    for coefficients equal to one, are the textbook rounds (constant addition,
    seventh power, matrix) of [tower_poseidon2b]; and a single S-box is the
    seventh power. *)
Theorem permutation_refines_schedule (st : list Z) :
  state_ok st ->
  exists s, st = tower_state s /\ permute_mut st = tower_state (tower_poseidon2b s)
            /\ sbox_x7 (nth 0 st 0) = val (x7 (l0 s)).
Proof.
  intros [s ->]%state_ok_tower. exists s. split; [reflexivity|]. split; [apply permute_refines|].
  unfold sbox_x7. cbn [tower_state nth]. rewrite <- (Z.lxor_0_r (tower_to_flat_u128 (val (l0 s)))), <- phi_0.
  rewrite sbox_refines by now apply range_0. rewrite psi_phi by apply word_range.
  f_equal. f_equal. apply word_eq. rewrite val_add128, val_w128 by now apply range_0. apply Z.lxor_0_r.
Qed.

Lemma permutation_refines_witness :
  exists s, [1; 2; 3; 4] = tower_state s /\ permute_mut [1; 2; 3; 4] = tower_state (tower_poseidon2b s).
Proof.
  destruct (permutation_refines_schedule [1; 2; 3; 4]) as (s & H1 & H2 & _);
    [split; [reflexivity|]; repeat constructor; lia|].
  exists s. exact (conj H1 H2).
Defined.

(** The permutation is a bijection of the 512-bit states, and its inverse
    is explicit: four 128-bit lanes go to four 128-bit lanes, [permute_inverse]
    undoes [permute_mut] and [permute_mut] undoes [permute_inverse]. *)
Theorem permutation_bijective (st : list Z) :
  state_ok st ->
  state_ok (permute_mut st) /\ permute_inverse (permute_mut st) = st
  /\ state_ok (permute_inverse st) /\ permute_mut (permute_inverse st) = st.
Proof.
  intros [s ->]%state_ok_tower.
  pose proof (permute_refines s) as E1. pose proof (permute_inverse_tower s) as E2.
  split; [rewrite E1; apply tower_state_ok|].
  split; [rewrite E1, permute_inverse_tower; now rewrite inverse_l|].
  split; [rewrite E2; apply tower_state_ok|].
  rewrite E2, permute_refines. now rewrite inverse_r.
Qed.

Lemma permutation_bijective_witness :
  permute_inverse (permute_mut [1; 2; 3; 4]) = [1; 2; 3; 4].
Proof.
  destruct (permutation_bijective [1; 2; 3; 4]) as (_ & E & _);
    [split; [reflexivity|]; repeat constructor; lia|].
  exact E.
Defined.

Lemma to_le_bytes_small x : in_range 16 x -> to_le_bytes 16 x = to_le_bytes 2 x ++ replicate 14 0.
Proof.
  intros [H0 H1]. change 16%nat with (2 + 14)%nat. rewrite to_le_bytes_app. f_equal.
  change (256 ^ Z.of_nat 2) with (2 ^ 16). rewrite Z.div_small by lia. reflexivity.
Qed.

(** All constants of the permutation lie in the subfield GF(2^16), so four
    lanes of 16 bits stay four lanes of 16 bits, and [hash_pair], which starts
    from a zero capacity, maps every pair of 16-bit elements to a digest that
    has only two non-zero bytes in each lane: at most [2^32] digests. *)
Theorem permutation_subfield_invariant :
  (forall st, length st = STATE_SIZE -> Forall (in_range 16) st -> Forall (in_range 16) (permute_mut st))
  /\ (forall a b, in_range 16 a -> in_range 16 b ->
      exists x y, in_range 16 x /\ in_range 16 y /\
        hash_pair a b = to_le_bytes 2 x ++ replicate 14 0 ++ to_le_bytes 2 y ++ replicate 14 0).
Proof.
  assert (P : forall st, length st = STATE_SIZE -> Forall (in_range 16) st ->
    exists s, all_lanes small16 s /\ permute_mut st = tower_state s).
  { intros st Hl Hf. destruct (state_ok_tower st) as [s ->].
    { split; [exact Hl|]. exact (Forall_impl _ range_16_128 Hf). }
    exists (tower_poseidon2b s). split; [|apply permute_refines]. apply tower_closed.
    unfold tower_state in Hf. repeat (apply Forall_cons_1 in Hf as [? Hf]).
    unfold all_lanes, small16. auto. }
  split.
  - intros st Hl Hf. destruct (P st Hl Hf) as (s & (? & ? & ? & ?) & ->).
    unfold tower_state, small16 in *. auto using Forall_nil, Forall_cons.
  - intros a b Ha Hb. assert (Hz : in_range 16 0) by now apply range_0.
    destruct (P [a; b; 0; 0] eq_refl) as (s & (H0 & H1 & _ & _) & E);
      [auto using Forall_nil, Forall_cons|].
    exists (val (l0 s)), (val (l1 s)). split; [exact H0|]. split; [exact H1|].
    unfold hash_pair. rewrite E. cbn [tower_state nth]. rewrite !to_le_bytes_small by assumption.
    now rewrite <- app_assoc.
Qed.

(** The permutation is used through its lemmas. *)
#[global] Opaque permute_mut permute_flat_u128.
