(* ===== verification/Sponge.v ===== *)
(** * The Poseidon2b sponge ([noid_poseidon2b/src])

    The duplex of [native/compression.rs] (four lanes, rate two) with its byte
    buffer and padding, for the tower basis and for the flat basis; the domain
    tags of [native/domain.rs]; the fixed-shape constructions built on it
    ([compress_with_tag], the byte-slice hash, the typed primitives and the
    transaction-body tree of [primitives.rs], the Fiat-Shamir channels of
    [channel.rs]).  The theorems relate the buffered updates to the absorption
    of the concatenated message, show the padding and the framing of byte slices
    to be injective, and trace a collision of the hash to the permutation. *)

From Stdlib Require Import ZArith Lia Bool.
From stdpp Require Import base numbers list option.
From S2P Require Import Prelude Gf2 Tower Flat Poseidon.
Open Scope Z_scope.

(** ** Domain tags *)

(** An 8-byte ASCII label. *)
Definition DomainTag : Type := list Z.

Definition as_u64 (tag : DomainTag) : Z := from_le_bytes (reverse tag).

Definition capacity_iv (tag : DomainTag) : Z * Z :=
  let label := as_u64 tag in
  (Z.shiftl label 64 mod 2 ^ 128, label).

Definition capacity_iv_flat (tag : DomainTag) : Z * Z :=
  let '(high, low) := capacity_iv tag in
  (tower_to_flat_u128 high, tower_to_flat_u128 low).

(** The byte labels, in the order of the source. *)
Definition TAG_LEAF : DomainTag := [76; 69; 65; 70; 95; 95; 95; 95].
Definition TAG_COMMIT : DomainTag := [67; 79; 77; 77; 73; 84; 95; 95].
Definition TAG_ADDRFIX : DomainTag := [65; 68; 68; 82; 70; 73; 88; 95].
Definition TAG_TX8X2 : DomainTag := [84; 88; 56; 88; 50; 95; 95; 95].
Definition TAG_TXROOT : DomainTag := [84; 88; 82; 79; 79; 84; 95; 95].
Definition TAG_BLOCKHDR : DomainTag := [66; 76; 79; 67; 75; 72; 68; 82].
Definition TAG_POWHDR : DomainTag := [80; 79; 87; 72; 68; 82; 95; 95].
Definition TAG_SEMHDR : DomainTag := [83; 69; 77; 72; 68; 82; 95; 95].
Definition TAG_FSCHALNG : DomainTag := [70; 83; 67; 72; 65; 76; 78; 71].
Definition TAG_FSCH256 : DomainTag := [70; 83; 67; 72; 50; 53; 54; 95].
Definition TAG_LANECHAL : DomainTag := [76; 65; 78; 69; 67; 72; 65; 76].
Definition TAG_LANE256 : DomainTag := [76; 65; 78; 69; 50; 53; 54; 95].
Definition TAG_KSCHANNL : DomainTag := [75; 83; 67; 72; 65; 78; 78; 76].
Definition TAG_KSCH256 : DomainTag := [75; 83; 67; 72; 50; 53; 54; 95].
Definition TAG_FRICHANL : DomainTag := [70; 82; 73; 67; 72; 65; 78; 76].
Definition TAG_COMPRESS : DomainTag := [67; 79; 77; 80; 82; 69; 83; 83].
Definition TAG_DAWTNSS : DomainTag := [68; 65; 87; 84; 78; 83; 83; 95].
Definition TAG_FRISTATE : DomainTag := [70; 82; 73; 83; 84; 65; 84; 69].
Definition TAG_SEGMENTTREE : DomainTag := [83; 69; 71; 84; 82; 69; 69; 95].
Definition TAG_CLAIMS : DomainTag := [67; 76; 65; 73; 77; 83; 95; 95].
Definition TAG_EXSTSLT : DomainTag := [69; 88; 83; 84; 83; 76; 84; 95].
Definition TAG_EXSTNOD : DomainTag := [69; 88; 83; 84; 78; 79; 68; 95].
Definition TAG_ACCBLK : DomainTag := [65; 67; 67; 66; 76; 75; 95; 95].
Definition TAG_HISTTRN : DomainTag := [72; 73; 83; 84; 84; 82; 78; 95].
Definition TAG_HISTCLM : DomainTag := [72; 73; 83; 84; 67; 76; 77; 95].
Definition TAG_HISTPRF : DomainTag := [72; 73; 83; 84; 80; 82; 70; 95].
Definition TAG_BYTEHASH : DomainTag := [66; 89; 84; 69; 72; 65; 83; 72].
Definition TAG_CAPSLEAF : DomainTag := [67; 65; 80; 83; 76; 69; 65; 70].
Definition TAG_CAPS256 : DomainTag := [67; 65; 80; 83; 50; 53; 54; 95].
Definition TAG_CAPSMIX : DomainTag := [67; 65; 80; 83; 77; 73; 88; 95].
Definition TAG_CAPSNODE : DomainTag := [67; 65; 80; 83; 78; 79; 68; 69].

Definition all_tags : list DomainTag :=
  [TAG_LEAF; TAG_COMMIT; TAG_ADDRFIX; TAG_TX8X2; TAG_TXROOT; TAG_BLOCKHDR; TAG_POWHDR;
   TAG_SEMHDR; TAG_FSCHALNG; TAG_FSCH256; TAG_LANECHAL; TAG_LANE256; TAG_KSCHANNL;
   TAG_KSCH256; TAG_FRICHANL; TAG_COMPRESS; TAG_DAWTNSS; TAG_FRISTATE; TAG_SEGMENTTREE;
   TAG_CLAIMS; TAG_EXSTSLT; TAG_EXSTNOD; TAG_ACCBLK; TAG_HISTTRN; TAG_HISTCLM;
   TAG_HISTPRF; TAG_BYTEHASH; TAG_CAPSLEAF; TAG_CAPS256; TAG_CAPSMIX; TAG_CAPSNODE].

(** ** The sponge *)

Definition RATE : nat := 2.
Definition PADDING_START : Z := 0x80.
Definition PADDING_END : Z := 0x01.

Record Sponge := mkSponge {
  sp_state : list Z;
  buffer : list Z;
  filled_bytes : nat
}.

Definition with_iv (iv : Z * Z) : Sponge := mkSponge [0; 0; iv.1; iv.2] (replicate 32 0) 0.

(** [buf[at..at + data.len()].copy_from_slice(data)] *)
Definition copy_at (at_ : nat) (data buf : list Z) : list Z :=
  take at_ buf ++ data ++ drop (at_ + length data)%nat buf.

(** [data.chunks_exact(32)] and its remainder. *)
Definition chunks_exact (n : nat) (data : list Z) : list (list Z) :=
  (fun i => take n (drop (n * i)%nat data)) <$> seq 0 (length data / n)%nat.

Definition remainder (n : nat) (data : list Z) : list Z := drop (n * (length data / n))%nat data.

(** [fill_padding] of a slice of [n] bytes. *)
Definition fill_padding (n : nat) : list Z :=
  alter (Z.lor PADDING_END) (n - 1)%nat (alter (Z.lor PADDING_START) 0%nat (replicate n 0)).

(** The two rate lanes read from a 32-byte block. *)
Definition xor_rate (state block : list Z) : list Z :=
  foldl (fun st i => alter (fun x => Z.lxor x (from_le_bytes (take 16 (drop (i * 16)%nat block)))) i st)
    state (seq 0 RATE).

Definition squeeze_32 (s : Sponge) : list Z :=
  to_le_bytes 16 (nth 0 (sp_state s) 0) ++ to_le_bytes 16 (nth 1 (sp_state s) 0).

(** The code of the two sponges differs in the permutation only. *)
Section Duplex.
Variable permute : list Z -> list Z.

Definition permute_buffer (s : Sponge) : Sponge :=
  mkSponge (permute (xor_rate (sp_state s) (buffer s))) (buffer s) (filled_bytes s).

(** The head of [update]: top up a partly filled buffer. *)
Definition update_head (s : Sponge) (data : list Z) : Sponge * list Z :=
  if (filled_bytes s =? 0)%nat then (s, data)
  else
    let to_copy := Nat.min (length data) (32 - filled_bytes s)%nat in
    let buf := copy_at (filled_bytes s) (take to_copy data) (buffer s) in
    let filled := (filled_bytes s + to_copy)%nat in
    let s := mkSponge (sp_state s) buf filled in
    let s := if (filled =? 32)%nat
             then let s := permute_buffer s in mkSponge (sp_state s) (buffer s) 0
             else s in
    (s, drop to_copy data).

Definition update (s : Sponge) (data : list Z) : Sponge :=
  let '(s, data) := update_head s data in
  let s := foldl (fun s chunk => permute_buffer (mkSponge (sp_state s) chunk (filled_bytes s)))
             s (chunks_exact 32 data) in
  let remaining := remainder 32 data in
  if (length remaining =? 0)%nat then s
  else mkSponge (sp_state s) (copy_at 0 remaining (buffer s)) (length remaining).

Definition absorb (s : Sponge) (elem : Z) : Sponge := update s (to_le_bytes 16 elem).

Definition absorb_pair (s : Sponge) (a b : Z) : Sponge :=
  update s (to_le_bytes 16 a ++ to_le_bytes 16 b).

(** [fill_padding(&mut self.buffer[self.filled_bytes..])] *)
Definition pad_buffer (s : Sponge) : Sponge :=
  mkSponge (sp_state s) (copy_at (filled_bytes s) (fill_padding (32 - filled_bytes s)%nat) (buffer s))
    (filled_bytes s).

Definition finalize (s : Sponge) : list Z := squeeze_32 (permute_buffer (pad_buffer s)).

Definition finalize_no_pad (s : Sponge) : list Z := squeeze_32 s.

Definition squeeze (s : Sponge) : (Z * Z) * Sponge :=
  ((nth 0 (sp_state s) 0, nth 1 (sp_state s) 0),
   mkSponge (permute (sp_state s)) (buffer s) (filled_bytes s)).

Definition flush_to_squeeze (s : Sponge) : Sponge :=
  if (filled_bytes s =? 0)%nat then s
  else let s := permute_buffer (pad_buffer s) in mkSponge (sp_state s) (buffer s) 0.
End Duplex.

Definition peek_rate (s : Sponge) : Z * Z := (nth 0 (sp_state s) 0, nth 1 (sp_state s) 0).

Definition absorb_is_aligned (s : Sponge) : bool := (filled_bytes s =? 0)%nat.

(** The assertion of the source is the [None] case. *)
Definition full_state_after_aligned_absorb (s : Sponge) : option (list Z) :=
  if absorb_is_aligned s then Some (sp_state s) else None.

(** ** Poseidon2bSponge and Poseidon2bFlatSponge *)

Definition Poseidon2bSponge_new : Sponge := mkSponge [0; 0; 0; 0] (replicate 32 0) 0.
Definition Poseidon2bSponge_update : Sponge -> list Z -> Sponge := update permute_mut.
Definition Poseidon2bSponge_finalize : Sponge -> list Z := finalize permute_mut.

Definition flat_with_tag (tag : DomainTag) : Sponge := with_iv (capacity_iv_flat tag).
Definition flat_update : Sponge -> list Z -> Sponge := update permute_flat_u128.
Definition flat_finalize : Sponge -> list Z := finalize permute_flat_u128.

(** ** Constructions *)

Definition lanes_of (d : list Z) : Z * Z := (from_le_bytes (take 16 d), from_le_bytes (drop 16 d)).

Definition lanes_digest (x y : Z) : list Z := to_le_bytes 16 x ++ to_le_bytes 16 y.

Definition compress_with_tag (tag : DomainTag) (a b : list Z) : list Z :=
  let '(a0, a1) := lanes_of a in
  let '(b0, b1) := lanes_of b in
  let '(iv_hi, iv_lo) := capacity_iv tag in
  let state := permute_mut [a0; a1; iv_hi; iv_lo] in
  let state := alter (fun x => Z.lxor x b0) 0%nat state in
  let state := alter (fun x => Z.lxor x b1) 1%nat state in
  let state := permute_mut state in
  lanes_digest (nth 0 state 0) (nth 1 state 0).

Definition compress (a b : list Z) : list Z := compress_with_tag TAG_COMPRESS a b.

Definition compress_flat_feed_forward_with_tag (tag : DomainTag) (a b : list Z) : list Z :=
  let '(a0, a1) := lanes_of a in
  let '(b0, b1) := lanes_of b in
  let '(iv_hi, iv_lo) := capacity_iv_flat tag in
  let state := permute_flat_u128 [a0; a1; Z.lxor b0 iv_hi; Z.lxor b1 iv_lo] in
  lanes_digest (Z.lxor (nth 0 state 0) a0) (Z.lxor (nth 1 state 0) a1).

Definition poseidon2b_hash_byte_slices (domain : list Z) (pieces : list (list Z)) : list Z :=
  let s := with_iv (capacity_iv TAG_BYTEHASH) in
  let s := Poseidon2bSponge_update s (to_le_bytes 8 (Z.of_nat (length domain))) in
  let s := Poseidon2bSponge_update s domain in
  let s := Poseidon2bSponge_update s (to_le_bytes 8 (Z.of_nat (length pieces))) in
  let s := foldl (fun s piece =>
             Poseidon2bSponge_update
               (Poseidon2bSponge_update s (to_le_bytes 8 (Z.of_nat (length piece)))) piece) s pieces in
  Poseidon2bSponge_finalize s.

Definition poseidon2b_hash_bytes (domain bytes : list Z) : list Z :=
  poseidon2b_hash_byte_slices domain [bytes].

(** [digest.rs] *)
Definition poseidon2b_digest (data : list Z) : list Z :=
  Poseidon2bSponge_finalize (Poseidon2bSponge_update Poseidon2bSponge_new data).
Definition poseidon2b_digest_field (elem : Z) : list Z :=
  Poseidon2bSponge_finalize (absorb permute_mut Poseidon2bSponge_new elem).
Definition poseidon2b_digest_pair (a b : Z) : list Z :=
  Poseidon2bSponge_finalize (absorb_pair permute_mut Poseidon2bSponge_new a b).

(** [hasher_impl.rs] *)
Definition hash_field (elem : Z) : list Z :=
  Poseidon2bSponge_finalize (absorb permute_mut Poseidon2bSponge_new elem).
Definition hash_concatenation (a b : list Z) : list Z :=
  Poseidon2bSponge_finalize
    (Poseidon2bSponge_update (Poseidon2bSponge_update Poseidon2bSponge_new a) b).

(** [primitives.rs] *)
Definition as_fields (d : list Z) : Z * Z := lanes_of d.

Definition sponge (tag : DomainTag) : Sponge := with_iv (capacity_iv tag).

(** [fields.chunks_exact(2)], then the remainder. *)
Fixpoint absorb_fields (s : Sponge) (fields : list Z) : Sponge :=
  match fields with
  | a :: b :: rest => absorb_fields (absorb_pair permute_mut s a b) rest
  | [a] => absorb permute_mut s a
  | [] => s
  end.

Definition hash_leaf (fields : list Z) : list Z :=
  Poseidon2bSponge_finalize (absorb_fields (sponge TAG_LEAF) fields).

Definition hash_utxo_leaf (value : Z) (owner : list Z) : list Z :=
  let '(owner_hi, owner_lo) := as_fields owner in
  let s := sponge TAG_COMMIT in
  let s := absorb permute_mut s value in
  let s := absorb permute_mut s owner_hi in
  let s := absorb permute_mut s owner_lo in
  Poseidon2bSponge_finalize s.

Definition derive_address (secret : list Z) : list Z :=
  let '(f0, f1) := lanes_of secret in
  finalize_no_pad (absorb_pair permute_mut (sponge TAG_ADDRFIX) f0 f1).

Definition TX8X2_TREE_DEPTH : nat := 4.

Definition tx8x2_wrap (root : list Z) : list Z :=
  let '(r0, r1) := lanes_of root in
  let '(iv_hi, iv_lo) := capacity_iv TAG_TX8X2 in
  let state := permute_mut [r0; r1; iv_hi; iv_lo] in
  lanes_digest (nth 0 state 0) (nth 1 state 0).

(** One level of a tree: adjacent digests compressed ([batch.rs], scalar lane). *)
Fixpoint compress_batch_interleaved_with_tag_into (tag : DomainTag) (pairs : list (list Z)) : list (list Z) :=
  match pairs with
  | a :: b :: rest => compress_with_tag tag a b :: compress_batch_interleaved_with_tag_into tag rest
  | _ => []
  end.

Definition compress_batch_interleaved_into (pairs : list (list Z)) : list (list Z) :=
  compress_batch_interleaved_with_tag_into TAG_COMPRESS pairs.

Definition hash_tx8x2_leaves (leaves : list (Z * Z)) : list Z :=
  let level := (fun l => lanes_digest l.1 l.2) <$> leaves in
  let level := Nat.iter TX8X2_TREE_DEPTH compress_batch_interleaved_into level in
  tx8x2_wrap (nth 0 level []).

(** ** Fiat-Shamir channels *)

Record Poseidon2bChannel := mkChannel { ch_sponge : Sponge; pending : option Z }.

Definition Channel_new : Poseidon2bChannel := mkChannel (with_iv (capacity_iv TAG_KSCHANNL)) None.

Definition Channel_absorb (c : Poseidon2bChannel) (elem : Z) : Poseidon2bChannel :=
  mkChannel (absorb permute_mut (ch_sponge c) elem) None.

Definition Channel_squeeze (c : Poseidon2bChannel) : Z * Poseidon2bChannel :=
  match pending c with
  | Some b => (b, mkChannel (ch_sponge c) None)
  | None =>
      let s := flush_to_squeeze permute_mut (ch_sponge c) in
      let '((a, b), s) := squeeze permute_mut s in
      (a, mkChannel s (Some b))
  end.

Definition Channel_close_into_bridge (c : Poseidon2bChannel) (close_tag : Z) : option (list Z) :=
  if absorb_is_aligned (ch_sponge c) then
    let c := Channel_absorb c close_tag in
    let c := Channel_absorb c 0 in
    full_state_after_aligned_absorb (ch_sponge c)
  else None.

Record Poseidon2bWideChannel := mkWide { wide_sponge : Sponge; pending_base : option Z }.

Definition Wide_new : Poseidon2bWideChannel := mkWide (with_iv (capacity_iv TAG_KSCH256)) None.

Definition absorb_base (c : Poseidon2bWideChannel) (elem : Z) : Poseidon2bWideChannel :=
  mkWide (absorb permute_mut (wide_sponge c) elem) None.

Definition absorb_base_slice (c : Poseidon2bWideChannel) (values : list Z) : Poseidon2bWideChannel :=
  foldl absorb_base c values.

Definition absorb_wide (c : Poseidon2bWideChannel) (value : Block256) : Poseidon2bWideChannel :=
  absorb_base (absorb_base c (lo value)) (hi value).

Definition squeeze_wide (c : Poseidon2bWideChannel) : Block256 * Poseidon2bWideChannel :=
  let s := flush_to_squeeze permute_mut (wide_sponge c) in
  let '((lo, raw_hi), s) := squeeze permute_mut s in
  (from_raw_challenge_lanes lo raw_hi, mkWide s None).

Definition squeeze_base (c : Poseidon2bWideChannel) : Z * Poseidon2bWideChannel :=
  match pending_base c with
  | Some value => (value, mkWide (wide_sponge c) None)
  | None =>
      let s := flush_to_squeeze permute_mut (wide_sponge c) in
      let '((first, second), s) := squeeze permute_mut s in
      (first, mkWide s (Some second))
  end.

Definition Wide_close_into_bridge (c : Poseidon2bWideChannel) (close_tag : Z) : option (list Z) :=
  if absorb_is_aligned (wide_sponge c) then
    let c := absorb_base c close_tag in
    let c := absorb_base c 0 in
    full_state_after_aligned_absorb (wide_sponge c)
  else None.

(** ** Blocks of a message *)

Abbreviation blocks := (chunks_exact 32).
Abbreviation tail_of := (remainder 32).

Lemma chunks_app n a b k :
  (0 < n)%nat -> length a = (n * k)%nat ->
  chunks_exact n (a ++ b) = chunks_exact n a ++ chunks_exact n b
  /\ remainder n (a ++ b) = remainder n b.
Proof.
  intros Hn Ha. unfold chunks_exact, remainder. rewrite length_app, Ha.
  replace ((n * k + length b) / n)%nat with (k + length b / n)%nat
    by (rewrite (Nat.add_comm (n * k)), (Nat.mul_comm n k), Nat.div_add by lia; lia).
  replace (n * k / n)%nat with k by (now rewrite (Nat.mul_comm n k), Nat.div_mul by lia).
  split.
  - rewrite seq_app, fmap_app. f_equal.
    + apply list_fmap_ext. intros i j Hi. apply lookup_seq in Hi as [-> Hi]. cbn [Nat.add].
      assert (n * i + n <= n * k)%nat by nia.
      rewrite drop_app_le by lia. rewrite take_app_le by (rewrite length_drop; lia). reflexivity.
    + replace (seq (0 + k) (length b / n)) with (Nat.add k <$> seq 0 (length b / n))
        by (rewrite fmap_add_seq; f_equal; lia).
      rewrite <- list_fmap_compose. apply list_fmap_ext. intros i j _. cbn.
      f_equal. rewrite drop_app_ge by nia. f_equal. rewrite Ha. nia.
  - rewrite drop_app_ge by nia. f_equal. rewrite Ha. nia.
Qed.

Lemma chunks_short n a : (length a < n)%nat -> chunks_exact n a = [] /\ remainder n a = a.
Proof.
  intros H. unfold chunks_exact, remainder. rewrite Nat.div_small by exact H.
  now rewrite Nat.mul_0_r.
Qed.

Lemma remainder_length n a : (0 < n)%nat -> length (remainder n a) = (length a mod n)%nat.
Proof.
  intros Hn. unfold remainder. rewrite length_drop. pose proof (Nat.div_mod_eq (length a) n). lia.
Qed.

(** A message is its whole blocks and its tail. *)
Lemma message_split m : exists pre, m = pre ++ tail_of m /\ length pre = (32 * (length m / 32))%nat.
Proof.
  exists (take (32 * (length m / 32)) m). unfold remainder. split; [now rewrite take_drop|].
  rewrite length_take. pose proof (Nat.Div0.mul_div_le (length m) 32). lia.
Qed.

Lemma blocks_extend m data :
  blocks (m ++ data) = blocks m ++ blocks (tail_of m ++ data)
  /\ tail_of (m ++ data) = tail_of (tail_of m ++ data).
Proof.
  destruct (message_split m) as (pre & E & Hp). remember (length m / 32)%nat as k eqn:Ek. clear Ek.
  set (t := tail_of m) in *.
  assert (Ht : (length t < 32)%nat).
  { unfold t. rewrite remainder_length by lia. apply Nat.mod_upper_bound. lia. }
  clearbody t. subst m. rewrite <- app_assoc.
  destruct (chunks_app 32 pre (t ++ data) _ ltac:(lia) Hp) as [-> ->].
  destruct (chunks_app 32 pre t _ ltac:(lia) Hp) as [-> _].
  destruct (chunks_short 32 t Ht) as [-> _]. now rewrite app_nil_r.
Qed.

Lemma blocks_one b rest : length b = 32%nat ->
  blocks (b ++ rest) = b :: blocks rest /\ tail_of (b ++ rest) = tail_of rest.
Proof.
  intros Hb. destruct (chunks_app 32 b rest 1 ltac:(lia) Hb) as [-> ->]. split; [|reflexivity].
  unfold chunks_exact. rewrite Hb. change (seq 0 (32 / 32)) with [0%nat]. cbn [fmap list_fmap app].
  now rewrite Nat.mul_0_r, drop_0, take_ge by lia.
Qed.

(** ** Buffered updates absorb the concatenation *)

Section Absorption.
Variable permute : list Z -> list Z.

(** Absorbing whole blocks. *)
Definition absorb_blocks (st : list Z) (bs : list (list Z)) : list Z :=
  foldl (fun st b => permute (xor_rate st b)) st bs.

(** [s] has absorbed the message [m] from the initial state [st0]. *)
Definition absorbed (st0 m : list Z) (s : Sponge) : Prop :=
  sp_state s = absorb_blocks st0 (blocks m)
  /\ filled_bytes s = length (tail_of m)
  /\ take (filled_bytes s) (buffer s) = tail_of m
  /\ length (buffer s) = 32%nat.

Lemma absorb_blocks_app st a b : absorb_blocks st (a ++ b) = absorb_blocks (absorb_blocks st a) b.
Proof. unfold absorb_blocks. apply foldl_app. Qed.

Lemma absorb_blocks_snoc st bs b :
  absorb_blocks st (bs ++ [b]) = permute (xor_rate (absorb_blocks st bs) b).
Proof. now rewrite absorb_blocks_app. Qed.

Lemma absorbed_start iv : absorbed [0; 0; iv.1; iv.2] [] (with_iv iv).
Proof. repeat split. Qed.

Lemma copy_at_length k d buf : (k + length d <= length buf)%nat -> length (copy_at k d buf) = length buf.
Proof. intros H. unfold copy_at. rewrite !length_app, length_take, length_drop. lia. Qed.

Lemma take_copy_at k d buf : (k <= length buf)%nat -> take (k + length d) (copy_at k d buf) = take k buf ++ d.
Proof.
  intros H. unfold copy_at. rewrite app_assoc, take_app_le by (rewrite length_app, length_take; lia).
  apply take_ge. rewrite length_app, length_take. lia.
Qed.

(** The loop over whole chunks, started with an empty buffer. *)
Lemma chunk_loop bs s :
  Forall (fun b => length b = 32%nat) bs -> length (buffer s) = 32%nat ->
  let s' := foldl (fun s chunk => permute_buffer permute (mkSponge (sp_state s) chunk (filled_bytes s))) s bs in
  sp_state s' = absorb_blocks (sp_state s) bs /\ filled_bytes s' = filled_bytes s
  /\ length (buffer s') = 32%nat.
Proof.
  intros Hb. revert s. induction Hb as [|b bs Hb Hbs IH]; intros s Hs; [now repeat split|].
  cbn [foldl]. cbn zeta. destruct (IH (permute_buffer permute (mkSponge (sp_state s) b (filled_bytes s)))) as (E1 & E2 & E3);
    [exact Hb|]. rewrite E1, E2. now repeat split.
Qed.

Lemma blocks_length m : Forall (fun b => length b = 32%nat) (blocks m).
Proof.
  unfold chunks_exact. apply Forall_fmap, Forall_forall. intros i Hi%in_seq. cbn.
  rewrite length_take, length_drop. pose proof (Nat.Div0.mul_div_le (length m) 32). lia.
Qed.

(** The chunk and remainder part of [update], on a sponge with whole blocks. *)
Lemma absorbed_whole st0 m s data :
  absorbed st0 m s -> tail_of m = [] -> absorbed st0 (m ++ data)
    (let s := foldl (fun s chunk => permute_buffer permute (mkSponge (sp_state s) chunk (filled_bytes s)))
                s (chunks_exact 32 data) in
     let remaining := remainder 32 data in
     if (length remaining =? 0)%nat then s
     else mkSponge (sp_state s) (copy_at 0 remaining (buffer s)) (length remaining)).
Proof.
  intros (H1 & H2 & H3 & H4) Ht. rewrite Ht in H2.
  destruct (chunk_loop (blocks data) s (blocks_length data) H4) as (E1 & E2 & E3). cbn zeta in *.
  set (s' := foldl _ s (blocks data)) in *.
  destruct (blocks_extend m data) as [B T]. rewrite Ht in B, T. cbn [app] in B, T.
  pose proof (remainder_length 32 data ltac:(lia)) as Hr.
  pose proof (Nat.mod_upper_bound (length data) 32 ltac:(lia)).
  unfold absorbed. rewrite B, T, absorb_blocks_app, <- H1, <- E1.
  destruct (Nat.eqb_spec (length (tail_of data)) 0) as [Hz|Hz].
  - rewrite E2, H2. apply length_zero_iff_nil in Hz. rewrite Hz. now repeat split.
  - cbn [sp_state filled_bytes buffer]. repeat split.
    + exact (take_copy_at 0 (tail_of data) (buffer s') ltac:(lia)).
    + rewrite copy_at_length; [exact E3|]. rewrite E3, Hr. lia.
Qed.

Lemma tail_length m : (length (tail_of m) < 32)%nat.
Proof. rewrite remainder_length by lia. apply Nat.mod_upper_bound. lia. Qed.

(** Filling the buffer makes a block. *)
Lemma absorbed_block st0 m s d :
  absorbed st0 m s -> (length (tail_of m) + length d = 32)%nat ->
  absorbed st0 (m ++ d)
    (mkSponge (permute (xor_rate (sp_state s) (copy_at (filled_bytes s) d (buffer s))))
       (copy_at (filled_bytes s) d (buffer s)) 0)
  /\ tail_of (m ++ d) = [].
Proof.
  intros (H1 & H2 & H3 & H4) Hd. destruct (blocks_extend m d) as [B T].
  destruct (blocks_one (tail_of m ++ d) []) as [B1 T1]; [rewrite length_app; exact Hd|].
  rewrite app_nil_r in B1, T1. rewrite B1 in B. rewrite T1 in T.
  split; [|exact T]. unfold absorbed. rewrite B, T, absorb_blocks_app, <- H1.
  assert (E : copy_at (filled_bytes s) d (buffer s) = tail_of m ++ d).
  { unfold copy_at. rewrite H3, (drop_ge (buffer s)) by lia. now rewrite app_nil_r. }
  cbn [sp_state filled_bytes buffer]. rewrite E, length_app, Hd. now repeat split.
Qed.

(** Data that does not fill the buffer. *)
Lemma absorbed_partial st0 m s d :
  absorbed st0 m s -> (length (tail_of m) + length d < 32)%nat ->
  absorbed st0 (m ++ d)
    (mkSponge (sp_state s) (copy_at (filled_bytes s) d (buffer s)) (filled_bytes s + length d)).
Proof.
  intros (H1 & H2 & H3 & H4) Hd. destruct (blocks_extend m d) as [B T].
  destruct (chunks_short 32 (tail_of m ++ d)) as [B1 T1]; [rewrite length_app; exact Hd|].
  unfold absorbed. cbn [sp_state filled_bytes buffer]. rewrite B, T, B1, T1, app_nil_r, length_app.
  split; [exact H1|]. split; [lia|]. split.
  - rewrite take_copy_at by lia. now rewrite H3.
  - rewrite copy_at_length by lia. exact H4.
Qed.

(** An update absorbs the concatenation. *)
Lemma absorbed_update st0 m s data :
  absorbed st0 m s -> absorbed st0 (m ++ data) (update permute s data).
Proof.
  intros H. pose proof H as (_ & H2 & _ & _). pose proof (tail_length m) as Ht.
  unfold update, update_head. destruct (Nat.eqb_spec (filled_bytes s) 0) as [Hz|Hz].
  { apply absorbed_whole; [exact H|]. apply length_zero_iff_nil. lia. }
  cbn zeta. destruct (Nat.le_gt_cases (32 - filled_bytes s) (length data)) as [Hc|Hc].
  - rewrite Nat.min_r by exact Hc. replace (filled_bytes s + (32 - filled_bytes s))%nat with 32%nat by lia.
    cbn [Nat.eqb]. rewrite <- (take_drop (32 - filled_bytes s) data) at 1. rewrite app_assoc.
    destruct (absorbed_block st0 m s (take (32 - filled_bytes s) data) H) as [A T];
      [rewrite length_take; lia|].
    exact (absorbed_whole _ _ _ (drop (32 - filled_bytes s) data) A T).
  - rewrite Nat.min_l by lia. rewrite (drop_ge data), (take_ge data) by lia.
    destruct (Nat.eqb_spec (filled_bytes s + length data) 32) as [E|_]; [lia|].
    apply absorbed_partial; [exact H|lia].
Qed.

Lemma absorbed_updates st0 m s pieces :
  absorbed st0 m s -> absorbed st0 (m ++ concat pieces) (foldl (update permute) s pieces).
Proof.
  revert m s. induction pieces as [|d pieces IH]; intros m s H; cbn [concat foldl].
  - now rewrite app_nil_r.
  - rewrite app_assoc. apply IH, absorbed_update, H.
Qed.
End Absorption.

(** ** Padding *)

Definition pad (m : list Z) : list Z := m ++ fill_padding (32 - length m mod 32)%nat.

Lemma fill_padding_cases n : (1 <= n <= 32)%nat ->
  fill_padding n = if (n =? 1)%nat then [129] else 128 :: replicate (n - 2) 0 ++ [1].
Proof.
  intros Hn. assert (H : forallb (fun n => bool_decide (fill_padding n =
    if (n =? 1)%nat then [129] else 128 :: replicate (n - 2) 0 ++ [1])) (seq 1 32) = true)
    by (vm_compute; reflexivity).
  rewrite forallb_forall in H. specialize (H n ltac:(apply in_seq; lia)).
  now apply bool_decide_eq_true in H.
Qed.

Lemma fill_padding_length n : (1 <= n <= 32)%nat -> length (fill_padding n) = n.
Proof.
  intros Hn. rewrite fill_padding_cases by exact Hn. destruct (Nat.eqb_spec n 1) as [->|]; [reflexivity|].
  cbn [length]. rewrite length_app, length_replicate. cbn. lia.
Qed.

Lemma fill_padding_bytes n : (1 <= n <= 32)%nat -> bytes_ok (fill_padding n).
Proof.
  intros Hn. rewrite fill_padding_cases by exact Hn.
  destruct (n =? 1)%nat; [repeat constructor; unfold byte_ok, in_range; lia|].
  constructor; [unfold byte_ok, in_range; lia|]. apply Forall_app. split; [|repeat constructor; unfold byte_ok, in_range; lia].
  apply Forall_replicate. unfold byte_ok, in_range. lia.
Qed.

Lemma pad_size (m : list Z) : (1 <= 32 - length m mod 32 <= 32)%nat.
Proof. pose proof (Nat.mod_upper_bound (length m) 32 ltac:(lia)). lia. Qed.

Lemma pad_length m : length (pad m) = (length m + (32 - length m mod 32))%nat.
Proof. unfold pad. rewrite length_app, fill_padding_length by apply pad_size. reflexivity. Qed.

(** The byte that starts the padding, and the zeros and the one after it. *)
Lemma pad_lookup m i : (i < 32 - length m mod 32)%nat ->
  pad m !! (length m + i)%nat =
  Some (if (32 - length m mod 32 =? 1)%nat then 129
        else if (i =? 0)%nat then 128 else if (i =? 32 - length m mod 32 - 1)%nat then 1 else 0).
Proof.
  intros Hi. unfold pad. rewrite lookup_app_r by lia. replace (length m + i - length m)%nat with i by lia.
  pose proof (pad_size m) as Hs. set (n := (32 - length m mod 32)%nat) in *. clearbody n.
  rewrite fill_padding_cases by lia. destruct (Nat.eqb_spec n 1) as [->|Hn].
  { now replace i with 0%nat by lia. }
  destruct i as [|i]; [reflexivity|]. change (S i =? 0)%nat with false. cbv iota. change (128 :: ?l) with ([128] ++ l).
  rewrite lookup_app_r by (cbn; lia). change (length [128]) with 1%nat. replace (S i - 1)%nat with i by lia.
  destruct (Nat.eqb_spec (S i) (n - 1)) as [E|E].
  - rewrite lookup_app_r by (rewrite length_replicate; lia). rewrite length_replicate.
    now replace (i - (n - 2))%nat with 0%nat by lia.
  - rewrite lookup_app_l by (rewrite length_replicate; lia). now rewrite lookup_replicate_2 by lia.
Qed.

Lemma pad_inj_le m m' : (length m <= length m')%nat -> pad m = pad m' -> m = m'.
Proof.
  intros Hle E. pose proof (f_equal length E) as El. rewrite !pad_length in El.
  pose proof (pad_size m) as Hs. pose proof (pad_size m') as Hs'.
  destruct (Nat.eq_dec (length m) (length m')) as [Hl|Hl].
  { unfold pad in E. now apply app_inj_1 in E as [-> _]. }
  exfalso. set (n := (32 - length m mod 32)%nat) in *. set (n' := (32 - length m' mod 32)%nat) in *.
  pose proof (pad_lookup m (length m' - length m)%nat ltac:(fold n; lia)) as L.
  pose proof (pad_lookup m' 0 ltac:(fold n'; lia)) as L'.
  rewrite E in L. replace (length m + (length m' - length m))%nat with (length m' + 0)%nat in L by lia.
  rewrite L' in L. fold n n' in L. injection L as L. revert L.
  destruct (Nat.eqb_spec n 1); [lia|]. destruct (Nat.eqb_spec (length m' - length m) 0); [lia|].
  destruct (Nat.eqb_spec n' 1).
  - destruct (Nat.eqb_spec (length m' - length m) (n - 1)); discriminate.
  - destruct (Nat.eqb_spec (length m' - length m) (n - 1)); [lia|discriminate].
Qed.

Lemma pad_inj m m' : pad m = pad m' -> m = m'.
Proof.
  intros E. destruct (Nat.le_ge_cases (length m) (length m')); [now apply pad_inj_le|].
  symmetry. apply pad_inj_le; auto.
Qed.

Lemma concat_blocks m : concat (blocks m) ++ tail_of m = m.
Proof.
  remember (length m) as n eqn:Hn. revert m Hn. induction (lt_wf n) as [n _ IH]. intros m Hn.
  destruct (Nat.lt_ge_cases (length m) 32) as [H|H].
  - now destruct (chunks_short 32 m H) as [-> ->].
  - rewrite <- (take_drop 32 m) at 1 2.
    destruct (blocks_one (take 32 m) (drop 32 m)) as [-> ->]; [rewrite length_take; lia|].
    cbn [concat]. rewrite <- app_assoc, (IH (length (drop 32 m))); [apply take_drop| |reflexivity].
    rewrite length_drop. lia.
Qed.

(** The blocks that [finalize] has absorbed. *)
Definition padded_blocks (m : list Z) : list (list Z) := blocks (pad m).

Lemma pad_whole m : tail_of (pad m) = [].
Proof.
  apply length_zero_iff_nil. rewrite remainder_length, pad_length by lia.
  pose proof (Nat.div_mod_eq (length m) 32).
  pose proof (Nat.mod_upper_bound (length m) 32 ltac:(lia)).
  replace (length m + (32 - length m mod 32))%nat with ((length m / 32 + 1) * 32)%nat by lia.
  apply Nat.Div0.mod_mul.
Qed.

Lemma padded_blocks_inj m m' : padded_blocks m = padded_blocks m' -> m = m'.
Proof.
  intros E. apply pad_inj. rewrite <- (concat_blocks (pad m)), <- (concat_blocks (pad m')), !pad_whole.
  unfold padded_blocks in E. now rewrite E.
Qed.

Lemma absorbed_finalize permute st0 m s :
  absorbed permute st0 m s ->
  finalize permute s
  = let st := absorb_blocks permute st0 (padded_blocks m) in lanes_digest (nth 0 st 0) (nth 1 st 0).
Proof.
  intros H. pose proof H as (_ & H2 & _ & _). rewrite remainder_length in H2 by lia.
  destruct (absorbed_block permute st0 m s (fill_padding (32 - length m mod 32)) H) as [(A & _) _].
  { rewrite fill_padding_length, remainder_length by (apply pad_size || lia).
    pose proof (pad_size m). lia. }
  unfold finalize, squeeze_32, permute_buffer, pad_buffer. cbn [sp_state buffer filled_bytes] in *.
  rewrite H2, <- H2. rewrite H2 at 2 4. rewrite A. reflexivity.
Qed.

(** ** The state of the sponge *)

Lemma xor_rate_lanes a b c d block :
  xor_rate [a; b; c; d] block
  = [Z.lxor a (from_le_bytes (take 16 block)); Z.lxor b (from_le_bytes (take 16 (drop 16 block))); c; d].
Proof. reflexivity. Qed.

Lemma lane_range l : bytes_ok l -> length l = 16%nat -> in_range 128 (from_le_bytes l).
Proof. intros Hb Hl. pose proof (from_le_bytes_bounds l Hb) as H. now rewrite Hl in H. Qed.

Lemma block_lanes block : array_ok 32 block ->
  array_ok 16 (take 16 block) /\ array_ok 16 (take 16 (drop 16 block)).
Proof.
  intros [Hl Hb]. split; (split; [rewrite ?length_take, ?length_drop; lia|]).
  - now apply Forall_take.
  - now apply Forall_take, Forall_drop.
Qed.

Lemma xor_rate_ok st block : state_ok st -> array_ok 32 block -> state_ok (xor_rate st block).
Proof.
  intros [Hl Hf] Hb. destruct st as [|a [|b [|c [|d [|]]]]]; try discriminate Hl.
  destruct (block_lanes block Hb) as [[L1 B1] [L2 B2]]. rewrite xor_rate_lanes.
  repeat (apply Forall_cons_1 in Hf as [? Hf]).
  split; [reflexivity|]. repeat apply Forall_cons; [| | | |apply Forall_nil].
  all: try assumption; apply lxor_range; try lia; try assumption; now apply lane_range.
Qed.

Definition capacity (st : list Z) : list Z := drop 2 st.

Lemma xor_rate_capacity st block : length st = STATE_SIZE -> capacity (xor_rate st block) = capacity st.
Proof. intros Hl. now destruct st as [|a [|b [|c [|d [|]]]]]; try discriminate Hl. Qed.

Lemma xor_rate_inj st block block' :
  state_ok st -> array_ok 32 block -> array_ok 32 block' ->
  xor_rate st block = xor_rate st block' -> block = block'.
Proof.
  intros [Hl _] Hb Hb'. destruct st as [|a [|b [|c [|d [|]]]]]; try discriminate Hl.
  destruct (block_lanes block Hb) as [A1 A2], (block_lanes block' Hb') as [A1' A2'].
  rewrite !xor_rate_lanes. intros [= E1 E2].
  apply (f_equal (Z.lxor a)) in E1. apply (f_equal (Z.lxor b)) in E2.
  rewrite <- !Z.lxor_assoc, !Z.lxor_nilpotent, !Z.lxor_0_l in E1, E2.
  rewrite <- (take_drop 16 block), <- (take_drop 16 block').
  assert (T : forall x : list Z, length x = 32%nat -> drop 16 x = take 16 (drop 16 x))
    by (intros x Hx; symmetry; apply take_ge; rewrite length_drop; lia).
  rewrite (T block), (T block') by (apply Hb || apply Hb').
  destruct A1 as [L1 B1], A2 as [L2 B2], A1' as [L1' B1'], A2' as [L2' B2'].
  f_equal; apply from_le_bytes_inj; assumption || congruence.
Qed.

Lemma absorb_blocks_ok st bs :
  state_ok st -> Forall (array_ok 32) bs -> state_ok (absorb_blocks permute_mut st bs).
Proof.
  intros Hs Hb. revert st Hs. induction Hb as [|b bs Hb Hbs IH]; intros st Hs; [exact Hs|].
  apply IH, permute_mut_ok, xor_rate_ok; assumption.
Qed.

Lemma padded_blocks_ok m : bytes_ok m -> Forall (array_ok 32) (padded_blocks m).
Proof.
  intros Hm. assert (Hp : bytes_ok (pad m)) by (apply Forall_app; split; [exact Hm|apply fill_padding_bytes, pad_size]).
  pose proof (blocks_length (pad m)) as Hl. unfold padded_blocks.
  apply Forall_forall. intros b Hb. split; [exact (proj1 (Forall_forall _ _) Hl b Hb)|].
  unfold chunks_exact in Hb. apply list_elem_of_In, list_elem_of_fmap in Hb as (i & -> & _).
  now apply Forall_take, Forall_drop.
Qed.

Lemma padded_blocks_snoc m : exists bs b, padded_blocks m = bs ++ [b].
Proof.
  destruct (exists_last (l := padded_blocks m)) as (bs & b & E); [|now exists bs, b].
  intros E. pose proof (concat_blocks (pad m)) as C. rewrite pad_whole in C.
  change (blocks (pad m)) with (padded_blocks m) in C. rewrite E in C.
  apply (f_equal length) in C. rewrite pad_length in C. pose proof (pad_size m). cbn in C. lia.
Qed.

(** Two block sequences with the same final state. *)
Lemma final_state_collision st bs bs' b b' :
  state_ok st -> Forall (array_ok 32) (bs ++ [b]) -> Forall (array_ok 32) (bs' ++ [b']) ->
  absorb_blocks permute_mut st (bs ++ [b]) = absorb_blocks permute_mut st (bs' ++ [b']) ->
  capacity (absorb_blocks permute_mut st bs) = capacity (absorb_blocks permute_mut st bs')
  /\ (bs = bs' -> b = b').
Proof.
  intros Hs Hb Hb' E. apply Forall_app in Hb as [Hbs Hb1], Hb' as [Hbs' Hb1'].
  apply Forall_cons_1 in Hb1 as [Hb _], Hb1' as [Hb' _].
  rewrite !absorb_blocks_snoc in E.
  pose proof (absorb_blocks_ok st bs Hs Hbs) as A. pose proof (absorb_blocks_ok st bs' Hs Hbs') as A'.
  apply permute_mut_inj in E; [|now apply xor_rate_ok..]. split.
  - apply (f_equal capacity) in E. now rewrite !xor_rate_capacity in E by (apply A || apply A').
  - intros ->. now apply xor_rate_inj in E.
Qed.

(** ** Framing of byte slices *)

Definition frame_piece (piece : list Z) : list Z := to_le_bytes 8 (Z.of_nat (length piece)) ++ piece.

Definition frame (domain : list Z) (pieces : list (list Z)) : list Z :=
  frame_piece domain ++ to_le_bytes 8 (Z.of_nat (length pieces)) ++ concat (frame_piece <$> pieces).

Lemma le8_inj n m x y :
  Z.of_nat n < 2 ^ 64 -> Z.of_nat m < 2 ^ 64 ->
  to_le_bytes 8 (Z.of_nat n) ++ x = to_le_bytes 8 (Z.of_nat m) ++ y -> n = m /\ x = y.
Proof.
  intros Hn Hm E. apply app_inj_1 in E as [E ->]; [|now rewrite !(proj1 (to_le_bytes_array 8 _))].
  split; [|reflexivity]. apply Nat2Z.inj. apply (f_equal from_le_bytes) in E.
  rewrite !from_to_le_bytes in E. change (2 ^ (8 * Z.of_nat 8)) with (2 ^ 64) in E.
  rewrite !Z.mod_small in E by lia. exact E.
Qed.

Lemma frame_piece_inj p q x y :
  Z.of_nat (length p) < 2 ^ 64 -> Z.of_nat (length q) < 2 ^ 64 ->
  frame_piece p ++ x = frame_piece q ++ y -> p = q /\ x = y.
Proof.
  unfold frame_piece. rewrite <- !app_assoc. intros Hp Hq E.
  apply le8_inj in E as [El E]; [|assumption..]. now apply app_inj_1 in E.
Qed.

Definition short (l : list Z) : Prop := Z.of_nat (length l) < 2 ^ 64.

Lemma frame_pieces_inj ps qs :
  length ps = length qs -> Forall short ps -> Forall short qs ->
  concat (frame_piece <$> ps) = concat (frame_piece <$> qs) -> ps = qs.
Proof.
  revert qs. induction ps as [|p ps IH]; intros [|q qs] Hl Hp Hq E; try discriminate Hl; [reflexivity|].
  apply Forall_cons_1 in Hp as [Hp Hps], Hq as [Hq Hqs]. cbn [fmap list_fmap concat] in E.
  apply frame_piece_inj in E as [-> E]; [|assumption..]. f_equal. apply IH; auto.
Qed.

Lemma frame_inj d d' ps ps' :
  short d -> short d' -> Forall short ps -> Forall short ps' ->
  Z.of_nat (length ps) < 2 ^ 64 -> Z.of_nat (length ps') < 2 ^ 64 ->
  frame d ps = frame d' ps' -> d = d' /\ ps = ps'.
Proof.
  intros Hd Hd' Hp Hp' Hl Hl' E. unfold frame in E.
  apply frame_piece_inj in E as [-> E]; [|assumption..].
  apply le8_inj in E as [El E]; [|assumption..]. split; [reflexivity|]. now apply frame_pieces_inj.
Qed.

Lemma foldl_frames s pieces :
  foldl (fun s piece => Poseidon2bSponge_update
           (Poseidon2bSponge_update s (to_le_bytes 8 (Z.of_nat (length piece)))) piece) s pieces
  = foldl (update permute_mut) s (concat ((fun p => [to_le_bytes 8 (Z.of_nat (length p)); p]) <$> pieces)).
Proof.
  revert s. induction pieces as [|p pieces IH]; intros s; [reflexivity|].
  cbn [foldl fmap list_fmap concat app]. apply IH.
Qed.

Lemma concat_frames pieces :
  concat (concat ((fun p => [to_le_bytes 8 (Z.of_nat (length p)); p]) <$> pieces))
  = concat (frame_piece <$> pieces).
Proof.
  induction pieces as [|p pieces IH]; [reflexivity|]. cbn [fmap list_fmap concat app].
  unfold frame_piece at 1. rewrite <- app_assoc. now f_equal; f_equal.
Qed.

(** The digest of a message under a capacity: the rate lanes after the padded
    blocks. *)
Definition sponge_spec (permute : list Z -> list Z) (iv : Z * Z) (m : list Z) : list Z :=
  let st := absorb_blocks permute [0; 0; iv.1; iv.2] (padded_blocks m) in
  lanes_digest (nth 0 st 0) (nth 1 st 0).

Lemma updates_hash permute iv pieces :
  finalize permute (foldl (update permute) (with_iv iv) pieces) = sponge_spec permute iv (concat pieces).
Proof.
  apply absorbed_finalize. exact (absorbed_updates permute _ [] _ pieces (absorbed_start permute iv)).
Qed.

Lemma byte_slices_hash domain pieces :
  poseidon2b_hash_byte_slices domain pieces = sponge_spec permute_mut (capacity_iv TAG_BYTEHASH) (frame domain pieces).
Proof.
  unfold poseidon2b_hash_byte_slices. cbn zeta. rewrite foldl_frames.
  pose proof (updates_hash permute_mut (capacity_iv TAG_BYTEHASH)
    ([to_le_bytes 8 (Z.of_nat (length domain)); domain; to_le_bytes 8 (Z.of_nat (length pieces))]
     ++ concat ((fun p => [to_le_bytes 8 (Z.of_nat (length p)); p]) <$> pieces))) as E.
  rewrite foldl_app, concat_app, concat_frames in E. cbn [foldl concat] in E.
  rewrite app_nil_r, <- !app_assoc in E. unfold frame, frame_piece at 1. rewrite <- app_assoc.
  exact E.
Qed.

Lemma lane_bytes_inj x y : in_range 128 x -> in_range 128 y -> to_le_bytes 16 x = to_le_bytes 16 y -> x = y.
Proof.
  intros Hx Hy E. apply (f_equal from_le_bytes) in E. rewrite !from_to_le_bytes in E.
  change (2 ^ (8 * Z.of_nat 16)) with (2 ^ 128) in E. now rewrite !Z.mod_small in E by assumption.
Qed.

Lemma digest_lanes_inj st st' :
  state_ok st -> state_ok st' ->
  lanes_digest (nth 0 st 0) (nth 1 st 0) = lanes_digest (nth 0 st' 0) (nth 1 st' 0) ->
  take 2 st = take 2 st'.
Proof.
  intros [Hl Hf] [Hl' Hf'].
  destruct st as [|a [|b [|c [|d [|]]]]]; try discriminate Hl.
  destruct st' as [|a' [|b' [|c' [|d' [|]]]]]; try discriminate Hl'.
  repeat (apply Forall_cons_1 in Hf as [? Hf]). repeat (apply Forall_cons_1 in Hf' as [? Hf']).
  unfold lanes_digest. cbn [nth take]. intros E.
  apply app_inj_1 in E as [E1 E2]; [|now rewrite !(proj1 (to_le_bytes_array 16 _))].
  f_equal; [|f_equal]; now apply lane_bytes_inj.
Qed.

(** Two messages that share a digest although they differ: the final states
    differ but agree on the squeezed lanes, or different block prefixes share
    their capacity. *)
Definition collision_trace (iv : Z * Z) (m m' : list Z) : Prop :=
  let final := absorb_blocks permute_mut [0; 0; iv.1; iv.2] in
  (final (padded_blocks m) <> final (padded_blocks m')
   /\ take 2 (final (padded_blocks m)) = take 2 (final (padded_blocks m')))
  \/ exists bs b bs' b', padded_blocks m = bs ++ [b] /\ padded_blocks m' = bs' ++ [b']
       /\ bs <> bs' /\ capacity (final bs) = capacity (final bs').

Lemma collision_traced (iv : Z * Z) (m m' : list Z) :
  u128 iv.1 -> u128 iv.2 -> bytes_ok m -> bytes_ok m' ->
  sponge_spec permute_mut iv m = sponge_spec permute_mut iv m' -> m = m' \/ collision_trace iv m m'.
Proof.
  intros H1 H2 Hm Hm' D. unfold collision_trace. cbn zeta. unfold sponge_spec in D. cbn zeta in D.
  assert (Hs : state_ok [0; 0; iv.1; iv.2])
    by (split; [reflexivity|]; pose proof (range_0 128 ltac:(lia)); auto using Forall_cons, Forall_nil).
  set (st := [0; 0; iv.1; iv.2]) in *. clearbody st.
  pose proof (padded_blocks_ok m Hm) as Hb. pose proof (padded_blocks_ok m' Hm') as Hb'.
  destruct (padded_blocks_snoc m) as (bs & b & E), (padded_blocks_snoc m') as (bs' & b' & E').
  pose proof (padded_blocks_inj m m') as Inj. rewrite E, E' in *.
  apply digest_lanes_inj in D; [|now apply absorb_blocks_ok..].
  destruct (decide (absorb_blocks permute_mut st (bs ++ [b]) = absorb_blocks permute_mut st (bs' ++ [b'])))
    as [Eq|]; [|now right; left].
  destruct (final_state_collision st bs bs' b b' Hs Hb Hb' Eq) as [Hc Hl].
  destruct (decide (bs = bs')) as [Ebs|]; [left|right; right; now exists bs, b, bs', b'].
  apply Inj. now rewrite Ebs, (Hl Ebs).
Qed.

(** ** Main results *)

(** Absorption does not depend on how the input is split: in either basis,
    updating a fresh sponge with any list of pieces and finalizing gives the
    rate lanes after absorbing the 32-byte blocks of the padded concatenation,
    whatever the buffer held in between. *)
Theorem sponge_absorbs_concatenation (iv : Z * Z) (tag : DomainTag) (pieces : list (list Z)) :
  Poseidon2bSponge_finalize (foldl Poseidon2bSponge_update (with_iv iv) pieces)
  = sponge_spec permute_mut iv (concat pieces)
  /\ flat_finalize (foldl flat_update (flat_with_tag tag) pieces)
  = sponge_spec permute_flat_u128 (capacity_iv_flat tag) (concat pieces).
Proof. split; apply updates_hash. Qed.

(** Every collision of the sponge is traced to the permutation.  The padded
    blocks determine the message; so if two byte strings have the same digest
    under a capacity they are equal, or the two final states differ but agree on
    the 256 squeezed bits, or (since the permutation is a bijection) the states
    before the last block come from different prefixes and share their 256-bit
    capacity. *)
Theorem sponge_collision_traced (iv : Z * Z) (m m' : list Z) :
  u128 iv.1 -> u128 iv.2 -> bytes_ok m -> bytes_ok m' ->
  sponge_spec permute_mut iv m = sponge_spec permute_mut iv m' ->
  let final := absorb_blocks permute_mut [0; 0; iv.1; iv.2] in
  m = m'
  \/ (final (padded_blocks m) <> final (padded_blocks m')
      /\ take 2 (final (padded_blocks m)) = take 2 (final (padded_blocks m')))
  \/ exists bs b bs' b', padded_blocks m = bs ++ [b] /\ padded_blocks m' = bs' ++ [b']
       /\ bs <> bs' /\ capacity (final bs) = capacity (final bs').
Proof. exact (collision_traced iv m m'). Qed.

Lemma sponge_collision_witness :
  let final := absorb_blocks permute_mut [0; 0; 0; 1] in
  [1; 2; 3] = [1; 2; 3]
  \/ (final (padded_blocks [1; 2; 3]) <> final (padded_blocks [1; 2; 3])
      /\ take 2 (final (padded_blocks [1; 2; 3])) = take 2 (final (padded_blocks [1; 2; 3])))
  \/ exists bs b bs' b', padded_blocks [1; 2; 3] = bs ++ [b] /\ padded_blocks [1; 2; 3] = bs' ++ [b']
       /\ bs <> bs' /\ capacity (final bs) = capacity (final bs').
Proof.
  apply (sponge_collision_traced (0, 1) [1; 2; 3] [1; 2; 3]);
    [split; cbn; lia|split; cbn; lia|repeat constructor; lia|repeat constructor; lia|].
  exact eq_refl.
Defined.

(** The framing of byte slices is unambiguous: the hash of a domain string
    and a list of pieces is the sponge digest of a byte string that determines
    the domain, the number of pieces and every piece, as long as the lengths fit
    the 64-bit prefixes. *)
Theorem byte_slices_framing (domain domain' : list Z) (pieces pieces' : list (list Z)) :
  short domain -> short domain' -> Forall short pieces -> Forall short pieces' ->
  Z.of_nat (length pieces) < 2 ^ 64 -> Z.of_nat (length pieces') < 2 ^ 64 ->
  poseidon2b_hash_byte_slices domain pieces
    = sponge_spec permute_mut (capacity_iv TAG_BYTEHASH) (frame domain pieces)
  /\ (frame domain pieces = frame domain' pieces' -> domain = domain' /\ pieces = pieces').
Proof. intros. split; [apply byte_slices_hash|now apply frame_inj]. Qed.

Lemma byte_slices_framing_witness :
  poseidon2b_hash_byte_slices [1] [[2; 3]; [4]]
  = sponge_spec permute_mut (capacity_iv TAG_BYTEHASH) (frame [1] [[2; 3]; [4]]).
Proof.
  apply (byte_slices_framing [1] [1] [[2; 3]; [4]] [[2; 3]; [4]]);
    unfold short; repeat constructor; cbn; lia.
Defined.

Lemma as_u64_inj t t' : array_ok 8 t -> array_ok 8 t' -> as_u64 t = as_u64 t' -> t = t'.
Proof.
  intros [Hl Hb] [Hl' Hb'] E. apply from_le_bytes_inj in E.
  - apply (f_equal reverse) in E. now rewrite !reverse_involutive in E.
  - now apply Forall_reverse.
  - now apply Forall_reverse.
  - rewrite !length_reverse. congruence.
Qed.

Lemma as_u64_range t : array_ok 8 t -> 0 <= as_u64 t < 2 ^ 64.
Proof.
  intros [Hl Hb]. pose proof (from_le_bytes_bounds (reverse t) ltac:(now apply Forall_reverse)) as H.
  now rewrite length_reverse, Hl in H.
Qed.

Lemma lanes_of_block d : array_ok 32 d ->
  lanes_of d = (from_le_bytes (take 16 d), from_le_bytes (take 16 (drop 16 d))).
Proof.
  intros [Hl _]. unfold lanes_of. f_equal. f_equal. symmetry. apply take_ge. rewrite length_drop. lia.
Qed.

Section TwoBlocks.
Variable permute : list Z -> list Z.

Lemma two_blocks iv a b : length a = 32%nat -> length b = 32%nat ->
  finalize_no_pad (update permute (with_iv iv) (a ++ b))
  = let st := permute (xor_rate (permute (xor_rate [0; 0; iv.1; iv.2] a)) b) in
    lanes_digest (nth 0 st 0) (nth 1 st 0).
Proof.
  intros Ha Hb. destruct (absorbed_update permute _ [] _ (a ++ b) (absorbed_start permute iv)) as (E & _).
  unfold finalize_no_pad, squeeze_32. rewrite E. cbn [app].
  destruct (blocks_one a b Ha) as [-> _]. destruct (blocks_one b [] Hb) as [B _].
  rewrite app_nil_r in B. rewrite B. reflexivity.
Qed.

Lemma unrolled_two_blocks hi lo a b :
  (let state := permute [from_le_bytes (take 16 a); from_le_bytes (take 16 (drop 16 a)); hi; lo] in
   let state := alter (fun x => Z.lxor x (from_le_bytes (take 16 b))) 0%nat state in
   let state := alter (fun x => Z.lxor x (from_le_bytes (take 16 (drop 16 b)))) 1%nat state in
   let state := permute state in
   lanes_digest (nth 0 state 0) (nth 1 state 0))
  = let st := permute (xor_rate (permute (xor_rate [0; 0; hi; lo] a)) b) in
    lanes_digest (nth 0 st 0) (nth 1 st 0).
Proof. rewrite xor_rate_lanes, !Z.lxor_0_l. reflexivity. Qed.
End TwoBlocks.

(** [compress_with_tag] is the unpadded sponge over its two digests: the
    unrolled two-permutation schedule of the source computes what a sponge under
    the tag's capacity computes for the 64 bytes. *)
Theorem compress_is_sponge (tag : DomainTag) (a b : list Z) :
  digest_ok a -> digest_ok b ->
  compress_with_tag tag a b
  = finalize_no_pad (Poseidon2bSponge_update (with_iv (capacity_iv tag)) (a ++ b)).
Proof.
  intros Ha Hb. unfold Poseidon2bSponge_update. rewrite (two_blocks permute_mut) by (apply Ha || apply Hb).
  unfold compress_with_tag. rewrite !lanes_of_block by assumption.
  destruct (capacity_iv tag) as [iv_hi iv_lo].
  exact (unrolled_two_blocks permute_mut iv_hi iv_lo a b).
Qed.

Lemma compress_is_sponge_witness :
  compress_with_tag TAG_COMPRESS (replicate 32 1) (replicate 32 2)
  = finalize_no_pad (Poseidon2bSponge_update (with_iv (capacity_iv TAG_COMPRESS))
      (replicate 32 1 ++ replicate 32 2)).
Proof. apply compress_is_sponge; split; try reflexivity; repeat constructor; lia. Defined.

(** Domain separation of the capacities: the labels of the source are
    pairwise distinct 8-byte ASCII strings, distinct labels give distinct
    capacity words, and for every non-zero label both words are 128-bit and the
    high one lies outside the 64-bit subfield (so no tagged initial state is in
    the 16-bit subfield the permutation keeps). *)
Theorem domain_separation :
  NoDup all_tags
  /\ Forall (fun t => length t = 8%nat /\ Forall (fun c => 0 < c < 128) t) all_tags
  /\ (forall t t', array_ok 8 t -> array_ok 8 t' -> capacity_iv t = capacity_iv t' -> t = t')
  /\ (forall t, array_ok 8 t -> as_u64 t <> 0 ->
      2 ^ 64 <= (capacity_iv t).1 < 2 ^ 128 /\ 0 < (capacity_iv t).2 < 2 ^ 64).
Proof.
  split; [|split; [|split]].
  - apply (bool_decide_unpack _). vm_compute. exact I.
  - apply (bool_decide_unpack _). vm_compute. exact I.
  - intros t t' Ht Ht' [= _ E]. now apply as_u64_inj.
  - intros t Ht Hn. pose proof (as_u64_range t Ht) as Hr. unfold capacity_iv. cbn [fst snd].
    rewrite Z.shiftl_mul_pow2, Z.mod_small by (change (2 ^ 128) with (2 ^ 64 * 2 ^ 64); nia).
    change (2 ^ 128) with (2 ^ 64 * 2 ^ 64). nia.
Qed.
