(* ===== verification/IntegerProgram.v ===== *)
(** * Contract programs ([noid_tx/src/experimental_object/integer_program.rs])

    Sixteen committed instructions over two persistent and two scratch registers
    of 64 bits, executed in order, each under a predicate.  The interpreter, which
    indexes arrays by decoded numbers, is compared with a step relation on
    decoded instructions. *)

From Stdlib Require Import ZArith Lia Bool.
From stdpp Require Import base numbers list option.
From S2P Require Import Prelude Tx PagedSpend.
Open Scope Z_scope.

(** ** Instructions *)

Definition PROGRAM_STEPS : nat := 16.
Definition OPERAND_COUNT : nat := 24.
Definition OPCODE_COUNT : nat := 10.
Definition PREDICATE_COUNT : nat := 6.
Definition INSTRUCTION_BITS : Z := 20.

(** Two fields an instruction. *)
Abbreviation Program := (list (Z * Z)) (only parsing).
Definition EMPTY_PROGRAM : Program := replicate PROGRAM_STEPS (0, 0).

Module Reg.
Inductive Register := State0 | State1 | Scratch0 | Scratch1.
End Reg.
Abbreviation Register := Reg.Register (only parsing).

Module Opd.
Inductive Operand :=
| State0
| State1
| Scratch0
| Scratch1
| Immediate
| Height
| Fee
| Payout
| Retained
| InputAmount
| BeforeDeadline
| Terminal
| HasPayout
| Zero
| One
| AfterDeadline
| PayoutOwner0
| PayoutOwner1
| PayoutOwner2
| PayoutOwner3
| InputCreationId
| InputSlot
| RetainedSlot
| PayoutSlot.
End Opd.
Abbreviation Operand := Opd.Operand (only parsing).

Module Opc.
Inductive Opcode :=
| Keep
| Move
| Add
| Subtract
| Min
| Max
| LessThan
| Equal
| AssertEqual
| AssertLessOrEqual.
End Opc.
Abbreviation Opcode := Opc.Opcode (only parsing).

Module Src.
Inductive PredicateSource := Always | BeforeDeadline | Terminal | HasPayout | Scratch0 | Scratch1.
End Src.
Abbreviation PredicateSource := Src.PredicateSource (only parsing).

#[export] Instance Register_eq_dec : EqDecision Register.
Proof. solve_decision. Defined.
#[export] Instance Operand_eq_dec : EqDecision Operand.
Proof. solve_decision. Defined.
#[export] Instance Opcode_eq_dec : EqDecision Opcode.
Proof. solve_decision. Defined.
#[export] Instance PredicateSource_eq_dec : EqDecision PredicateSource.
Proof. solve_decision. Defined.

(** The [ALL] arrays; a [repr(u8)] discriminant is the position there. *)
Definition Register_ALL : list Register := [Reg.State0; Reg.State1; Reg.Scratch0; Reg.Scratch1].

Definition Operand_ALL : list Operand :=
  [Opd.State0; Opd.State1; Opd.Scratch0; Opd.Scratch1; Opd.Immediate; Opd.Height; Opd.Fee; Opd.Payout; Opd.Retained;
   Opd.InputAmount; Opd.BeforeDeadline; Opd.Terminal; Opd.HasPayout; Opd.Zero; Opd.One; Opd.AfterDeadline;
   Opd.PayoutOwner0; Opd.PayoutOwner1; Opd.PayoutOwner2; Opd.PayoutOwner3; Opd.InputCreationId; Opd.InputSlot;
   Opd.RetainedSlot; Opd.PayoutSlot].

Definition Opcode_ALL : list Opcode :=
  [Opc.Keep; Opc.Move; Opc.Add; Opc.Subtract; Opc.Min; Opc.Max; Opc.LessThan; Opc.Equal; Opc.AssertEqual; Opc.AssertLessOrEqual].

Definition PredicateSource_ALL : list PredicateSource :=
  [Src.Always; Src.BeforeDeadline; Src.Terminal; Src.HasPayout; Src.Scratch0; Src.Scratch1].

Fixpoint discriminant {A} `{EqDecision A} (all : list A) (x : A) : nat :=
  match all with
  | [] => 0
  | y :: all => if decide (x = y) then 0 else S (discriminant all x)
  end.

Definition Register_decode (value : nat) : option Register := Register_ALL !! value.

Record Predicate := mkPredicate { pr_source : PredicateSource; pr_inverted : bool }.
Definition ALWAYS : Predicate := mkPredicate Src.Always false.
Definition BEFORE_DEADLINE : Predicate := mkPredicate Src.BeforeDeadline false.
Definition pred_not (p : Predicate) : Predicate := mkPredicate (pr_source p) (negb (pr_inverted p)).

Record Instruction := mkInstruction {
  ins_opcode : Opcode;
  ins_destination : Register;
  ins_left : Operand;
  ins_right : Operand;
  ins_predicate : Predicate;
  ins_immediate : Z
}.

Definition Instruction_new (opcode : Opcode) (destination : Register) (left right : Operand) (immediate : Z) : Instruction :=
  mkInstruction opcode destination left right ALWAYS immediate.

Definition when (i : Instruction) (predicate : Predicate) : Instruction :=
  mkInstruction (ins_opcode i) (ins_destination i) (ins_left i) (ins_right i) predicate (ins_immediate i).

Definition to_fields (i : Instruction) : Z * Z :=
  let code {A} `{EqDecision A} (all : list A) x := Z.of_nat (discriminant all x) in
  let descriptor :=
    Z.lor (Z.lor (Z.lor (Z.lor (Z.lor
      (code Opcode_ALL (ins_opcode i))
      (Z.shiftl (code Register_ALL (ins_destination i)) 4))
      (Z.shiftl (code Operand_ALL (ins_left i)) 6))
      (Z.shiftl (code Operand_ALL (ins_right i)) 11))
      (Z.shiftl (code PredicateSource_ALL (pr_source (ins_predicate i))) 16))
      (Z.shiftl (Z.b2z (pr_inverted (ins_predicate i))) 19) in
  (descriptor, ins_immediate i).

Definition from_fields (fields : Z * Z) : option Instruction :=
  let word := fields.1 in
  if negb (Z.shiftr word INSTRUCTION_BITS =? 0) || (umax 64 <? fields.2) then None
  else
    opcode ← Opcode_ALL !! Z.to_nat (Z.land word 15);
    destination ← Register_decode (Z.to_nat (Z.land (Z.shiftr word 4) 3));
    left ← Operand_ALL !! Z.to_nat (Z.land (Z.shiftr word 6) 31);
    right ← Operand_ALL !! Z.to_nat (Z.land (Z.shiftr word 11) 31);
    source ← PredicateSource_ALL !! Z.to_nat (Z.land (Z.shiftr word 16) 7);
    Some (mkInstruction opcode destination left right (mkPredicate source (negb (Z.land word (Z.shiftl 1 19) =? 0))) fields.2).

(** ** Context *)

Record Context := mkCallContext {
  cx_height : Z;
  cx_fee : Z;
  cx_payout : Z;
  cx_retained : Z;
  cx_input_amount : Z;
  cx_before_deadline : bool;
  cx_terminal : bool;
  cx_has_payout : bool;
  cx_payout_owner : list Z;
  cx_input_creation_id : Z;
  cx_input_slot : Z;
  cx_retained_slot : Z;
  cx_payout_slot : Z
}.

(** The records of the fixed arrays of a body. *)
Definition input_at (body : TxBody) (k : nat) : TxInput := nth k (inputs body) TxInput_dummy.
Definition output_at (body : TxBody) (k : nat) : TxOutput := nth k (outputs body) TxOutput_dummy.

Definition from_body (body : TxBody) (height deadline : Z) : Context :=
  mkCallContext height (fee body) (out_amount (output_at body 1)) (out_amount (output_at body 0)) (in_amount (input_at body 0))
    (height <? deadline)
    (negb (Z.land (validity_bitmap body) PAGED_SPEND_TERMINAL_BIT =? 0))
    (negb (Z.land (validity_bitmap body) (output_bitmap_bit 1) =? 0))
    ((fun word => from_le_bytes (take 8 (drop (word * 8) (out_owner (output_at body 1))))) <$> seq 0 4)
    (in_creation_id (input_at body 0)) (in_slot_index (input_at body 0)) (out_slot_index (output_at body 0))
    (out_slot_index (output_at body 1)).

Definition operands (cx : Context) (registers : list Z) (immediate : Z) : list Z :=
  take 4 registers
  ++ [immediate; cx_height cx; cx_fee cx; cx_payout cx; cx_retained cx; cx_input_amount cx;
      Z.b2z (cx_before_deadline cx); Z.b2z (cx_terminal cx); Z.b2z (cx_has_payout cx); 0; 1; Z.b2z (negb (cx_before_deadline cx))]
  ++ take 4 (cx_payout_owner cx)
  ++ [cx_input_creation_id cx; cx_input_slot cx; cx_retained_slot cx; cx_payout_slot cx].

Definition predicates (cx : Context) (registers : list Z) : list Z :=
  [1; Z.b2z (cx_before_deadline cx); Z.b2z (cx_terminal cx); Z.b2z (cx_has_payout cx)] ++ take 2 (drop 2 registers).

(** ** Execution *)

Inductive ProgramError :=
| Encoding (step : nat)
| NonBooleanPredicate (step : nat)
| Overflow (step : nat)
| Underflow (step : nat)
| Assertion (step : nat).

Definition validate_program (program : Program) : result ProgramError unit :=
  fold_result (fun _ p => _ ← ok_or (from_fields p.2) (Encoding p.1); Ok tt) tt (enumerate program).

Definition unpack_state (state : Z) : Z * Z := (state mod 2 ^ 64, Z.shiftr state 64 mod 2 ^ 64).
Definition pack_state (state : Z * Z) : Z := Z.lor state.1 (Z.shiftl state.2 64).

Definition apply_opcode (opcode : Opcode) (step : nat) (left right kept : Z) : result ProgramError Z :=
  match opcode with
  | Opc.Keep => Ok kept
  | Opc.Move => Ok left
  | Opc.Add => ok_or (checked_add 64 left right) (Overflow step)
  | Opc.Subtract => ok_or (checked_sub left right) (Underflow step)
  | Opc.Min => Ok (Z.min left right)
  | Opc.Max => Ok (Z.max left right)
  | Opc.LessThan => Ok (Z.b2z (left <? right))
  | Opc.Equal => Ok (Z.b2z (left =? right))
  | Opc.AssertEqual => _ ← ensure (left =? right) (Assertion step); Ok kept
  | Opc.AssertLessOrEqual => _ ← ensure (left <=? right) (Assertion step); Ok kept
  end.

(** One round of the loop; an index out of range panics. *)
Definition execute_step (cx : Context) (registers : list Z) (p : nat * (Z * Z)) : exec ProgramError (list Z) :=
  let '(step, fields) := p in
  instruction ← expect (from_fields fields);
  predicate ← expect (predicates cx registers !! discriminant PredicateSource_ALL (pr_source (ins_predicate instruction)));
  if 1 <? predicate then Fail (NonBooleanPredicate step)
  else if Bool.eqb (predicate =? 1) (pr_inverted (ins_predicate instruction)) then mret registers
  else
    let values := operands cx registers (ins_immediate instruction) in
    left ← expect (values !! discriminant Operand_ALL (ins_left instruction));
    right ← expect (values !! discriminant Operand_ALL (ins_right instruction));
    let destination := discriminant Register_ALL (ins_destination instruction) in
    kept ← expect (registers !! destination);
    value ← lift (apply_opcode (ins_opcode instruction) step left right kept);
    mret (<[destination := value]> registers).

Definition execute_program (program : Program) (current : Z) (cx : Context) : exec ProgramError Z :=
  _ ← lift (validate_program program);
  let state := unpack_state current in
  registers ← exec_fold (execute_step cx) [state.1; state.2; 0; 0] (enumerate program);
  state0 ← expect (registers !! 0%nat);
  state1 ← expect (registers !! 1%nat);
  mret (pack_state (state0, state1)).

(** ** Specification *)

(** The registers by name. *)
Record Registers := mkRegisters { state0 : Z; state1 : Z; scratch0 : Z; scratch1 : Z }.

Definition reg_get (r : Registers) (x : Register) : Z :=
  match x with Reg.State0 => state0 r | Reg.State1 => state1 r | Reg.Scratch0 => scratch0 r | Reg.Scratch1 => scratch1 r end.

Definition reg_set (r : Registers) (x : Register) (v : Z) : Registers :=
  match x with
  | Reg.State0 => mkRegisters v (state1 r) (scratch0 r) (scratch1 r)
  | Reg.State1 => mkRegisters (state0 r) v (scratch0 r) (scratch1 r)
  | Reg.Scratch0 => mkRegisters (state0 r) (state1 r) v (scratch1 r)
  | Reg.Scratch1 => mkRegisters (state0 r) (state1 r) (scratch0 r) v
  end.

Definition owner_word (cx : Context) (k : nat) : Z := nth k (cx_payout_owner cx) 0.

Definition operand_value (cx : Context) (r : Registers) (immediate : Z) (o : Operand) : Z :=
  match o with
  | Opd.State0 => state0 r
  | Opd.State1 => state1 r
  | Opd.Scratch0 => scratch0 r
  | Opd.Scratch1 => scratch1 r
  | Opd.Immediate => immediate
  | Opd.Height => cx_height cx
  | Opd.Fee => cx_fee cx
  | Opd.Payout => cx_payout cx
  | Opd.Retained => cx_retained cx
  | Opd.InputAmount => cx_input_amount cx
  | Opd.BeforeDeadline => Z.b2z (cx_before_deadline cx)
  | Opd.Terminal => Z.b2z (cx_terminal cx)
  | Opd.HasPayout => Z.b2z (cx_has_payout cx)
  | Opd.Zero => 0
  | Opd.One => 1
  | Opd.AfterDeadline => Z.b2z (negb (cx_before_deadline cx))
  | Opd.PayoutOwner0 => owner_word cx 0
  | Opd.PayoutOwner1 => owner_word cx 1
  | Opd.PayoutOwner2 => owner_word cx 2
  | Opd.PayoutOwner3 => owner_word cx 3
  | Opd.InputCreationId => cx_input_creation_id cx
  | Opd.InputSlot => cx_input_slot cx
  | Opd.RetainedSlot => cx_retained_slot cx
  | Opd.PayoutSlot => cx_payout_slot cx
  end.

(** A flag register is a boolean. *)
Definition flag (v : Z) : option bool := if v =? 0 then Some false else if v =? 1 then Some true else None.

Definition guard (cx : Context) (r : Registers) (p : Predicate) : option bool :=
  b ← (match pr_source p with
       | Src.Always => Some true
       | Src.BeforeDeadline => Some (cx_before_deadline cx)
       | Src.Terminal => Some (cx_terminal cx)
       | Src.HasPayout => Some (cx_has_payout cx)
       | Src.Scratch0 => flag (scratch0 r)
       | Src.Scratch1 => flag (scratch1 r)
       end);
  Some (xorb b (pr_inverted p)).

Section Semantics.
Variable cx : Context.

(** What an enabled instruction writes, if it writes. *)
Inductive computes (l r : Z) : Opcode -> Z -> Prop :=
| computes_move : computes l r Opc.Move l
| computes_add : l + r < 2 ^ 64 -> computes l r Opc.Add (l + r)
| computes_subtract : r <= l -> computes l r Opc.Subtract (l - r)
| computes_min : computes l r Opc.Min (Z.min l r)
| computes_max : computes l r Opc.Max (Z.max l r)
| computes_less : computes l r Opc.LessThan (if decide (l < r) then 1 else 0)
| computes_equal : computes l r Opc.Equal (if decide (l = r) then 1 else 0).

Inductive holds (l r : Z) : Opcode -> Prop :=
| holds_keep : holds l r Opc.Keep
| holds_equal : l = r -> holds l r Opc.AssertEqual
| holds_less_or_equal : l <= r -> holds l r Opc.AssertLessOrEqual.

Inductive step (i : Instruction) (r : Registers) : Registers -> Prop :=
| step_skip : guard cx r (ins_predicate i) = Some false -> step i r r
| step_write v : guard cx r (ins_predicate i) = Some true ->
    computes (operand_value cx r (ins_immediate i) (ins_left i)) (operand_value cx r (ins_immediate i) (ins_right i)) (ins_opcode i) v ->
    step i r (reg_set r (ins_destination i) v)
| step_assert : guard cx r (ins_predicate i) = Some true ->
    holds (operand_value cx r (ins_immediate i) (ins_left i)) (operand_value cx r (ins_immediate i) (ins_right i)) (ins_opcode i) ->
    step i r r.

(** Why an instruction at position [k] fails. *)
Inductive fault (k : nat) (i : Instruction) (r : Registers) : ProgramError -> Prop :=
| fault_guard : guard cx r (ins_predicate i) = None -> fault k i r (NonBooleanPredicate k)
| fault_add : guard cx r (ins_predicate i) = Some true -> ins_opcode i = Opc.Add ->
    2 ^ 64 <= operand_value cx r (ins_immediate i) (ins_left i) + operand_value cx r (ins_immediate i) (ins_right i) ->
    fault k i r (Overflow k)
| fault_subtract : guard cx r (ins_predicate i) = Some true -> ins_opcode i = Opc.Subtract ->
    operand_value cx r (ins_immediate i) (ins_left i) < operand_value cx r (ins_immediate i) (ins_right i) ->
    fault k i r (Underflow k)
| fault_assert : guard cx r (ins_predicate i) = Some true -> ins_opcode i = Opc.AssertEqual \/ ins_opcode i = Opc.AssertLessOrEqual ->
    ~ holds (operand_value cx r (ins_immediate i) (ins_left i)) (operand_value cx r (ins_immediate i) (ins_right i)) (ins_opcode i) ->
    fault k i r (Assertion k).

Inductive run : list Instruction -> Registers -> Registers -> Prop :=
| run_nil r : run [] r r
| run_cons i l r r' r'' : step i r r' -> run l r' r'' -> run (i :: l) r r''.

End Semantics.

(** Scratch registers start at zero. *)
Definition start (current : Z) : Registers := mkRegisters (current mod 2 ^ 64) (current / 2 ^ 64 mod 2 ^ 64) 0 0.

(** The fields are the canonical encoding of the instruction. *)
Definition encodes (fields : Z * Z) (i : Instruction) : Prop := u64 (ins_immediate i) /\ fields = to_fields i.

(** Every value is one of its machine type. *)
Record context_wf (cx : Context) : Prop := {
  cw_height : u64 (cx_height cx);
  cw_fee : u64 (cx_fee cx);
  cw_payout : u64 (cx_payout cx);
  cw_retained : u64 (cx_retained cx);
  cw_input_amount : u64 (cx_input_amount cx);
  cw_payout_owner : length (cx_payout_owner cx) = 4%nat /\ Forall u64 (cx_payout_owner cx);
  cw_input_creation_id : u64 (cx_input_creation_id cx);
  cw_input_slot : u32 (cx_input_slot cx);
  cw_retained_slot : u32 (cx_retained_slot cx);
  cw_payout_slot : u32 (cx_payout_slot cx)
}.

(** ** The instruction codec *)

Section Discriminants.
Context {A : Type} `{EqDecision A}.

Lemma lookup_discriminant (all : list A) x : x ∈ all -> all !! discriminant all x = Some x.
Proof.
  induction all as [|y all IH]; intros Hx; [now apply not_elem_of_nil in Hx|]. cbn.
  destruct (decide (x = y)) as [->|Hne]; [reflexivity|]. apply IH. now apply elem_of_cons in Hx as [?|?].
Qed.

Lemma discriminant_lookup (all : list A) n x : NoDup all -> all !! n = Some x -> discriminant all x = n.
Proof.
  intros Hnd. revert n. induction Hnd as [|y l Hy Hnd IH]; intros [|n] H; [discriminate..| |]; cbn in *.
  - injection H as ->. now rewrite decide_True.
  - rewrite decide_False; [f_equal; auto|]. intros ->. apply Hy. eapply list_elem_of_lookup_2. exact H.
Qed.

Lemma discriminant_bound (all : list A) x : x ∈ all -> (discriminant all x < length all)%nat.
Proof. intros H. eapply lookup_lt_Some. now apply lookup_discriminant. Qed.

Lemma discriminant_iff (all : list A) n x : NoDup all -> x ∈ all -> all !! n = Some x <-> discriminant all x = n.
Proof. intros Hnd Hx. split; [now apply discriminant_lookup|]. intros <-. now apply lookup_discriminant. Qed.
End Discriminants.

Lemma all_registers x : x ∈ Register_ALL.
Proof. apply (list_elem_of_lookup_2 _ (discriminant Register_ALL x)). now destruct x. Qed.
Lemma all_operands x : x ∈ Operand_ALL.
Proof. apply (list_elem_of_lookup_2 _ (discriminant Operand_ALL x)). now destruct x. Qed.
Lemma all_opcodes x : x ∈ Opcode_ALL.
Proof. apply (list_elem_of_lookup_2 _ (discriminant Opcode_ALL x)). now destruct x. Qed.
Lemma all_sources x : x ∈ PredicateSource_ALL.
Proof. apply (list_elem_of_lookup_2 _ (discriminant PredicateSource_ALL x)). now destruct x. Qed.
Lemma nodup_registers : NoDup Register_ALL.
Proof. apply (bool_decide_unpack _). reflexivity. Qed.
Lemma nodup_operands : NoDup Operand_ALL.
Proof. apply (bool_decide_unpack _). reflexivity. Qed.
Lemma nodup_opcodes : NoDup Opcode_ALL.
Proof. apply (bool_decide_unpack _). reflexivity. Qed.
Lemma nodup_sources : NoDup PredicateSource_ALL.
Proof. apply (bool_decide_unpack _). reflexivity. Qed.
#[export] Hint Resolve all_registers all_operands all_opcodes all_sources nodup_registers nodup_operands nodup_opcodes nodup_sources : enums.

(** The descriptor as a sum. *)
Definition descriptor_sum (i : Instruction) : Z :=
  Z.of_nat (discriminant Opcode_ALL (ins_opcode i)) + 2 ^ 4 * Z.of_nat (discriminant Register_ALL (ins_destination i))
  + 2 ^ 6 * Z.of_nat (discriminant Operand_ALL (ins_left i)) + 2 ^ 11 * Z.of_nat (discriminant Operand_ALL (ins_right i))
  + 2 ^ 16 * Z.of_nat (discriminant PredicateSource_ALL (pr_source (ins_predicate i))) + 2 ^ 19 * Z.b2z (pr_inverted (ins_predicate i)).

Lemma code_bounds (i : Instruction) :
  (discriminant Opcode_ALL (ins_opcode i) < 10 /\ discriminant Register_ALL (ins_destination i) < 4
  /\ discriminant Operand_ALL (ins_left i) < 24 /\ discriminant Operand_ALL (ins_right i) < 24
  /\ discriminant PredicateSource_ALL (pr_source (ins_predicate i)) < 6)%nat.
Proof.
  repeat split; (eapply Nat.lt_le_trans; [apply discriminant_bound; auto with enums|cbn; lia]).
Qed.

Lemma lor_add c y k : 0 <= k -> 0 <= y -> 0 <= c < 2 ^ k -> Z.lor c (Z.shiftl y k) = c + 2 ^ k * y.
Proof. intros. rewrite Z.lor_comm, lor_shiftl_add by lia. lia. Qed.

Lemma to_fields_sum i : to_fields i = (descriptor_sum i, ins_immediate i).
Proof.
  unfold to_fields, descriptor_sum. destruct (code_bounds i) as (H1 & H2 & H3 & H4 & H5). f_equal.
  pose proof (Zle_0_nat (discriminant Opcode_ALL (ins_opcode i))). destruct (pr_inverted (ins_predicate i)); cbn [Z.b2z];
  rewrite (lor_add _ _ 4), (lor_add _ _ 6), (lor_add _ _ 11), (lor_add _ _ 16), (lor_add _ _ 19) by lia; lia.
Qed.

Lemma descriptor_range i : 0 <= descriptor_sum i < 2 ^ 20.
Proof. unfold descriptor_sum. destruct (code_bounds i) as (H1 & H2 & H3 & H4 & H5). destruct (pr_inverted _); cbn [Z.b2z]; lia. Qed.

(** The slices of a word of twenty bits. *)
Lemma land_mask w k : 0 <= k -> Z.land w (2 ^ k - 1) = w mod 2 ^ k.
Proof. intros. replace (2 ^ k - 1) with (Z.ones k) by (rewrite Z.ones_equiv; lia). now apply Z.land_ones. Qed.

Ltac divlia := Z.to_euclidean_division_equations; lia.

Lemma bit_19 w : 0 <= w < 2 ^ 20 -> negb (Z.land w (Z.shiftl 1 19) =? 0) = (2 ^ 19 <=? w).
Proof.
  intros Hw. change (Z.shiftl 1 19) with (2 ^ 19). rewrite land_pow2 by lia. pose proof (Z.testbit_spec' w 19 ltac:(lia)) as H.
  destruct (Z.testbit w 19); cbn [Z.b2z negb Z.eqb] in *; destruct (Z.leb_spec (2 ^ 19) w); try reflexivity; divlia.
Qed.

(** [from_fields] accepts precisely the canonical encodings. *)
Lemma from_fields_iff fields i : 0 <= fields.1 -> 0 <= fields.2 -> from_fields fields = Some i <-> encodes fields i.
Proof.
  destruct fields as [word imm]. cbn [fst snd]. intros Hw Hi. unfold encodes. rewrite to_fields_sum. unfold from_fields, INSTRUCTION_BITS, Register_decode, umax.
  cbn [fst snd]. rewrite !Z.shiftr_div_pow2 by lia.
  change 15 with (2 ^ 4 - 1). change 3 with (2 ^ 2 - 1). change 31 with (2 ^ 5 - 1). change 7 with (2 ^ 3 - 1). rewrite !land_mask by lia.
  destruct (Z.eqb_spec (word / 2 ^ 20) 0) as [Hz|Hz]; cbn [negb orb].
  2: { split; [discriminate|]. intros [_ [= -> _]]. pose proof (descriptor_range i). divlia. }
  assert (Hr : 0 <= word < 2 ^ 20) by divlia. rewrite bit_19 by exact Hr. destruct (Z.ltb_spec (2 ^ 64 - 1) imm) as [Hb|Hb].
  { split; [discriminate|]. intros [[_ ?] [= _ ->]]. lia. }
  split.
  - intros H. apply bind_Some in H as (op & E1 & H). apply bind_Some in H as (d & E2 & H). apply bind_Some in H as (l & E3 & H).
    apply bind_Some in H as (r & E4 & H). apply bind_Some in H as (s & E5 & [= <-]). split; [unfold in_range; cbn; lia|].
    unfold descriptor_sum. cbn [ins_opcode ins_destination ins_left ins_right ins_predicate ins_immediate pr_source pr_inverted].
    rewrite (discriminant_lookup _ _ _ nodup_opcodes E1), (discriminant_lookup _ _ _ nodup_registers E2), (discriminant_lookup _ _ _ nodup_operands E3),
      (discriminant_lookup _ _ _ nodup_operands E4), (discriminant_lookup _ _ _ nodup_sources E5).
    f_equal. rewrite !Z2Nat.id by (apply Z.mod_pos_bound; lia). destruct (Z.leb_spec (2 ^ 19) word); cbn [Z.b2z]; divlia.
  - intros [[_ _] [= -> ->]]. destruct (code_bounds i) as (H1 & H2 & H3 & H4 & H5). unfold descriptor_sum in *.
    destruct i as [op d l r [s v] m]. cbn [ins_opcode ins_destination ins_left ins_right ins_predicate ins_immediate pr_source pr_inverted] in *.
    pose proof (lookup_discriminant _ op (all_opcodes op)) as E1. pose proof (lookup_discriminant _ d (all_registers d)) as E2.
    pose proof (lookup_discriminant _ l (all_operands l)) as E3. pose proof (lookup_discriminant _ r (all_operands r)) as E4.
    pose proof (lookup_discriminant _ s (all_sources s)) as E5.
    set (a := discriminant Opcode_ALL op) in *. set (b := discriminant Register_ALL d) in *. set (c := discriminant Operand_ALL l) in *.
    set (e := discriminant Operand_ALL r) in *. set (f := discriminant PredicateSource_ALL s) in *. clearbody a b c e f.
    set (w := _ + _ + _ + _ + _ + _).
    replace (Z.to_nat (w mod 2 ^ 4)) with a by (subst w; destruct v; cbn [Z.b2z]; divlia). rewrite E1. cbn [mbind option_bind].
    replace (Z.to_nat ((w / 2 ^ 4) mod 2 ^ 2)) with b by (subst w; destruct v; cbn [Z.b2z]; divlia). rewrite E2. cbn [mbind option_bind].
    replace (Z.to_nat ((w / 2 ^ 6) mod 2 ^ 5)) with c by (subst w; destruct v; cbn [Z.b2z]; divlia). rewrite E3. cbn [mbind option_bind].
    replace (Z.to_nat ((w / 2 ^ 11) mod 2 ^ 5)) with e by (subst w; destruct v; cbn [Z.b2z]; divlia). rewrite E4. cbn [mbind option_bind].
    replace (Z.to_nat ((w / 2 ^ 16) mod 2 ^ 3)) with f by (subst w; destruct v; cbn [Z.b2z]; divlia). rewrite E5. cbn [mbind option_bind].
    replace (2 ^ 19 <=? w) with v by (subst w; destruct v; cbn [Z.b2z]; divlia). reflexivity.
Qed.

Lemma encodes_nonneg fields i : encodes fields i -> 0 <= fields.1 /\ 0 <= fields.2.
Proof. intros [[Hi _] ->]. rewrite to_fields_sum. split; [apply descriptor_range|exact Hi]. Qed.

Lemma from_to_fields i : u64 (ins_immediate i) -> from_fields (to_fields i) = Some i.
Proof.
  intros Hi. assert (He : encodes (to_fields i) i) by (split; [exact Hi|reflexivity]). destruct (encodes_nonneg _ _ He). now apply from_fields_iff.
Qed.

(** ** The interpreter follows the step relation *)

Definition regs_of (r : Registers) : list Z := [state0 r; state1 r; scratch0 r; scratch1 r].
Definition regs_wf (r : Registers) : Prop := forall x, u64 (reg_get r x).

Lemma reg_lookup r x : regs_of r !! discriminant Register_ALL x = Some (reg_get r x).
Proof. now destruct x. Qed.

Lemma reg_insert r x v : <[discriminant Register_ALL x := v]> (regs_of r) = regs_of (reg_set r x v).
Proof. now destruct x. Qed.

Lemma reg_set_wf r x v : regs_wf r -> u64 v -> regs_wf (reg_set r x v).
Proof. intros Hr Hv y. pose proof (Hr y). destruct x, y; assumption. Qed.

Lemma reg_keep r x : reg_set r x (reg_get r x) = r.
Proof. now destruct r, x. Qed.

Section Interpreter.
Context (cx : Context) (Hcx : context_wf cx).

Lemma operand_lookup r imm o : operands cx (regs_of r) imm !! discriminant Operand_ALL o = Some (operand_value cx r imm o).
Proof.
  destruct Hcx as [_ _ _ _ _ [Hl _] _ _ _ _]. unfold operand_value, owner_word, operands.
  destruct (cx_payout_owner cx) as [|w0 [|w1 [|w2 [|w3 [|]]]]]; try discriminate Hl. now destruct o.
Qed.

Lemma operand_wf r imm o : regs_wf r -> u64 imm -> u64 (operand_value cx r imm o).
Proof.
  intros Hr Hi. destruct Hcx as [H1 H2 H3 H4 H5 [Hl Ho] H7 H8 H9 H10]. pose proof (Hr Reg.State0). pose proof (Hr Reg.State1).
  pose proof (Hr Reg.Scratch0). pose proof (Hr Reg.Scratch1).
  assert (Hw : forall k, u64 (owner_word cx k)).
  { intros k. unfold owner_word. destruct (nth_in_or_default k (cx_payout_owner cx) 0) as [Hin| ->]; [|unfold in_range; lia].
    rewrite Forall_forall in Ho. exact (Ho _ Hin). }
  assert (Hs : forall z, u32 z -> u64 z) by (unfold in_range; lia).
  assert (Hf : forall b, u64 (Z.b2z b)) by (intros []; unfold in_range; cbn; lia).
  destruct o; cbn [operand_value reg_get] in *; auto; unfold in_range; lia.
Qed.

(** The predicate array and the guard. *)
Definition predicate_value (r : Registers) (s : PredicateSource) : Z :=
  match s with
  | Src.Always => 1
  | Src.BeforeDeadline => Z.b2z (cx_before_deadline cx)
  | Src.Terminal => Z.b2z (cx_terminal cx)
  | Src.HasPayout => Z.b2z (cx_has_payout cx)
  | Src.Scratch0 => scratch0 r
  | Src.Scratch1 => scratch1 r
  end.

Lemma predicate_lookup r s : predicates cx (regs_of r) !! discriminant PredicateSource_ALL s = Some (predicate_value r s).
Proof. now destruct s. Qed.

Lemma flag_cases z : 0 <= z -> flag z = if 1 <? z then None else Some (z =? 1).
Proof. intros Hz. unfold flag. destruct (Z.eqb_spec z 0) as [->|H0]; [reflexivity|]. destruct (Z.eqb_spec z 1) as [->|H1]; [reflexivity|]. destruct (Z.ltb_spec 1 z); [reflexivity|lia]. Qed.

Lemma guard_cases r p : regs_wf r ->
  guard cx r p = if 1 <? predicate_value r (pr_source p) then None else Some (xorb (predicate_value r (pr_source p) =? 1) (pr_inverted p)).
Proof.
  intros Hr. pose proof (Hr Reg.Scratch0) as H2. pose proof (Hr Reg.Scratch1) as H3. destruct p as [s v]. unfold guard. cbn [pr_source pr_inverted].
  destruct s; cbn [predicate_value].
  1: reflexivity.
  1: now destruct (cx_before_deadline cx).
  1: now destruct (cx_terminal cx).
  1: now destruct (cx_has_payout cx).
  all: rewrite flag_cases by apply Hr || (cbn in *; unfold in_range in *; lia); now case_match.
Qed.

Lemma apply_opcode_cases k i r l x : regs_wf r -> u64 l -> u64 x -> guard cx r (ins_predicate i) = Some true ->
  operand_value cx r (ins_immediate i) (ins_left i) = l -> operand_value cx r (ins_immediate i) (ins_right i) = x ->
  match apply_opcode (ins_opcode i) k l x (reg_get r (ins_destination i)) with
  | Ok v => step cx i r (reg_set r (ins_destination i) v) /\ u64 v
  | Err e => fault cx k i r e
  end.
Proof.
  intros Hr Hl Hx Hg El Ex.
  assert (Hw : forall v, computes l x (ins_opcode i) v -> step cx i r (reg_set r (ins_destination i) v)).
  { intros v Hv. apply step_write; [exact Hg|]. now rewrite El, Ex. }
  assert (Hk : holds l x (ins_opcode i) -> step cx i r (reg_set r (ins_destination i) (reg_get r (ins_destination i)))).
  { intros Hh. rewrite reg_keep. apply step_assert; [exact Hg|]. now rewrite El, Ex. }
  pose proof (Hr (ins_destination i)) as Hd.
  destruct (ins_opcode i) eqn:Eo; cbn [apply_opcode].
  - split; [apply Hk; constructor|exact Hd].
  - split; [apply Hw; constructor|exact Hl].
  - unfold checked_add. destruct (Z.ltb_spec (l + x) (2 ^ 64)); cbn [ok_or].
    + split; [apply Hw; now constructor|unfold in_range in *; lia].
    + apply fault_add; [exact Hg|exact Eo|]. now rewrite El, Ex.
  - unfold checked_sub. destruct (Z.leb_spec x l); cbn [ok_or].
    + split; [apply Hw; now constructor|unfold in_range in *; lia].
    + apply fault_subtract; [exact Hg|exact Eo|]. now rewrite El, Ex.
  - split; [apply Hw; constructor|unfold in_range in *; lia].
  - split; [apply Hw; constructor|unfold in_range in *; lia].
  - split; [apply Hw|destruct (l <? x); unfold in_range; cbn; lia]. destruct (Z.ltb_spec l x) as [H|H]; cbn [Z.b2z].
    + rewrite <- (decide_True (P := l < x) 1 0 H). constructor.
    + rewrite <- (decide_False (P := l < x) 1 0) by lia. constructor.
  - split; [apply Hw|destruct (l =? x); unfold in_range; cbn; lia]. destruct (Z.eqb_spec l x) as [H|H]; cbn [Z.b2z].
    + rewrite <- (decide_True (P := l = x) 1 0 H). constructor.
    + rewrite <- (decide_False (P := l = x) 1 0 H). constructor.
  - destruct (Z.eqb_spec l x) as [H|H]; cbn [ensure mbind result_bind].
    + split; [apply Hk; now constructor|exact Hd].
    + apply fault_assert; [exact Hg|auto|]. rewrite El, Ex, Eo. now inversion 1.
  - destruct (Z.leb_spec l x) as [H|H]; cbn [ensure mbind result_bind].
    + split; [apply Hk; now constructor|exact Hd].
    + apply fault_assert; [exact Hg|auto|]. rewrite El, Ex, Eo. inversion 1. lia.
Qed.

Lemma execute_step_cases k fields i r : encodes fields i -> 0 <= fields.1 -> 0 <= fields.2 -> regs_wf r ->
  match execute_step cx (regs_of r) (k, fields) with
  | Return l => exists r', l = regs_of r' /\ step cx i r r' /\ regs_wf r'
  | Fail e => fault cx k i r e
  | Panic => False
  end.
Proof.
  intros He H1 H2 Hr. unfold execute_step. rewrite (proj2 (from_fields_iff fields i H1 H2) He). cbn [expect mbind exec_bind].
  rewrite predicate_lookup. cbn [expect mbind exec_bind]. pose proof (guard_cases r (ins_predicate i) Hr) as Hg.
  destruct (1 <? predicate_value r (pr_source (ins_predicate i))); [now apply fault_guard|].
  destruct (Bool.eqb _ _) eqn:Eb.
  - exists r. split; [reflexivity|]. split; [|exact Hr]. apply step_skip. rewrite Hg. apply eqb_prop in Eb as ->. now rewrite xorb_nilpotent.
  - apply eqb_false_iff in Eb. rewrite !operand_lookup, reg_lookup. cbn [expect mbind exec_bind].
    assert (Hg' : guard cx r (ins_predicate i) = Some true) by (rewrite Hg; f_equal; destruct (_ =? 1), (pr_inverted _); congruence || reflexivity).
    destruct He as [Hi _].
    pose proof (apply_opcode_cases k i r _ _ Hr (operand_wf r _ (ins_left i) Hr Hi) (operand_wf r _ (ins_right i) Hr Hi) Hg' eq_refl eq_refl) as H.
    destruct (apply_opcode _ _ _ _ _) as [v|e]; cbn [lift mbind exec_bind]; [|exact H]. destruct H as [Hs Hv].
    eexists. split; [apply reg_insert|]. split; [exact Hs|now apply reg_set_wf].
Qed.

Definition fields_wf (f : Z * Z) : Prop := 0 <= f.1 /\ 0 <= f.2.

Lemma execute_loop_cases fields : forall code k r, Forall fields_wf fields -> Forall2 encodes fields code -> regs_wf r ->
  match exec_fold (execute_step cx) (regs_of r) (imap (fun n => pair (k + n)%nat) fields) with
  | Return l => exists r', l = regs_of r' /\ run cx code r r' /\ regs_wf r'
  | Fail e => exists n i r', code !! n = Some i /\ run cx (take n code) r r' /\ fault cx (k + n) i r' e
  | Panic => False
  end.
Proof.
  induction fields as [|f fields IH]; intros code k r Hf He Hr; inversion He as [|? i ? code' Hi Hrest]; subst.
  - exists r. split; [reflexivity|]. split; [constructor|exact Hr].
  - apply Forall_cons_1 in Hf as [[Hf1 Hf2] Hf]. cbn [imap exec_fold]. rewrite Nat.add_0_r.
    pose proof (execute_step_cases k f i r Hi Hf1 Hf2 Hr) as H. destruct (execute_step cx (regs_of r) (k, f)) as [l|e|]; cbn [mbind exec_bind].
    + destruct H as (r1 & -> & Hs & Hr1). specialize (IH code' (S k) r1 Hf Hrest Hr1).
      assert (Ei : imap ((fun n => pair (k + n)%nat) ∘ S) fields = imap (fun n => pair (S k + n)%nat) fields) by (apply imap_ext; intros n x _; cbn; f_equal; lia).
      rewrite Ei. destruct (exec_fold _ _ _) as [l|e|]; [| |exact IH].
      * destruct IH as (r' & -> & Hrun & Hw). exists r'. split; [reflexivity|]. split; [exact (run_cons _ _ _ _ _ _ Hs Hrun)|exact Hw].
      * destruct IH as (n & j & r' & Hl & Hrun & Hft). exists (S n), j, r'. split; [exact Hl|]. split; [exact (run_cons _ _ _ _ _ _ Hs Hrun)|]. now replace (k + S n)%nat with (S k + n)%nat by lia.
    + exists 0%nat, i, r. split; [reflexivity|]. split; [constructor|]. now rewrite Nat.add_0_r.
    + exact H.
Qed.
End Interpreter.

Lemma validate_program_cases program : Forall fields_wf program ->
  match validate_program program with
  | Ok _ => exists code, Forall2 encodes program code
  | Err e => exists k fields code, e = Encoding k /\ program !! k = Some fields /\ (forall i, ~ encodes fields i) /\ Forall2 encodes (take k program) code
  end.
Proof.
  intros Hf. unfold validate_program, enumerate.
  assert (H : forall k, match fold_result (fun _ p => _ ← ok_or (from_fields p.2) (Encoding p.1); Ok tt) tt (imap (fun n => pair (k + n)%nat) program) with
    | Ok _ => exists code, Forall2 encodes program code
    | Err e => exists n fields code, e = Encoding (k + n) /\ program !! n = Some fields /\ (forall i, ~ encodes fields i)
        /\ Forall2 encodes (take n program) code
    end); [|exact (H 0%nat)].
  induction Hf as [|f program [Hf1 Hf2] Hf IH]; intros k; [now exists []|].
  cbn [imap fold_result]. rewrite Nat.add_0_r. cbn [fst snd]. destruct (from_fields f) as [i|] eqn:Ei; cbn [ok_or mbind result_bind].
  - apply from_fields_iff in Ei; [|assumption..].
    assert (E : imap ((fun n => pair (k + n)%nat) ∘ S) program = imap (fun n => pair (S k + n)%nat) program) by (apply imap_ext; intros n x _; cbn; f_equal; lia).
    rewrite E. specialize (IH (S k)). destruct (fold_result _ _ _) as [|e].
    + destruct IH as [code Hc]. exists (i :: code). now constructor.
    + destruct IH as (n & fields & code & -> & Hn & Hno & Hc). exists (S n), fields, (i :: code). split; [f_equal; lia|]. split; [exact Hn|]. split; [exact Hno|]. now constructor.
  - exists 0%nat, f, []. split; [f_equal; lia|]. split; [reflexivity|]. split; [|constructor]. intros i Hi. apply from_fields_iff in Hi; [|assumption..]. congruence.
Qed.

(** ** Outcomes *)

Lemma start_wf current : regs_wf (start current).
Proof. intros []; cbn; unfold in_range; try lia; apply Z.mod_pos_bound; lia. Qed.

Lemma pack_sum r : regs_wf r -> pack_state (state0 r, state1 r) = state0 r + 2 ^ 64 * state1 r.
Proof. intros Hr. apply lor_add; [lia|apply (Hr Reg.State1)|apply (Hr Reg.State0)]. Qed.

Lemma start_regs current : let state := unpack_state current in [state.1; state.2; 0; 0] = regs_of (start current).
Proof. unfold unpack_state. cbn [fst snd]. now rewrite Z.shiftr_div_pow2. Qed.

Lemma execute_cases program current cx : Forall fields_wf program -> context_wf cx ->
  match execute_program program current cx with
  | Return next => exists code r, Forall2 encodes program code /\ run cx code (start current) r /\ next = state0 r + 2 ^ 64 * state1 r /\ u128 next
  | Fail e =>
      (exists k fields code, e = Encoding k /\ program !! k = Some fields /\ (forall i, ~ encodes fields i) /\ Forall2 encodes (take k program) code)
      \/ exists code k i r, Forall2 encodes program code /\ code !! k = Some i /\ run cx (take k code) (start current) r /\ fault cx k i r e
  | Panic => False
  end.
Proof.
  intros Hf Hcx. unfold execute_program. pose proof (validate_program_cases program Hf) as Hv.
  destruct (validate_program program) as [[]|e]; cbn [lift mbind exec_bind].
  2: { left. exact Hv. }
  destruct Hv as [code Hc]. rewrite start_regs. pose proof (execute_loop_cases cx Hcx program code 0 (start current) Hf Hc (start_wf current)) as H.
  unfold enumerate. change (imap pair program) with (imap (fun n => pair (0 + n)%nat) program).
  destruct (exec_fold _ _ _) as [l|e|]; cbn [mbind exec_bind].
  - destruct H as (r & -> & Hrun & Hw). cbn [regs_of lookup list_lookup expect mbind exec_bind]. exists code, r. split; [exact Hc|]. split; [exact Hrun|].
    rewrite pack_sum by exact Hw. split; [reflexivity|]. pose proof (Hw Reg.State0). pose proof (Hw Reg.State1). unfold in_range in *. cbn [reg_get] in *. lia.
  - right. destruct H as (n & i & r & H1 & H2 & H3). exists code, n, i, r. auto.
  - exact H.
Qed.

(** The relation is deterministic and excludes faults, so that the outcomes above
    are exact. *)
Lemma step_det cx i r r1 r2 : step cx i r r1 -> step cx i r r2 -> r1 = r2.
Proof.
  intros H1 H2. destruct H1 as [G1|v1 G1 C1|G1 H1]; destruct H2 as [G2|v2 G2 C2|G2 H2]; try congruence.
  - f_equal. inversion C1; subst; inversion C2; congruence.
  - inversion C1; subst; inversion H2; congruence.
  - inversion C2; subst; inversion H1; congruence.
Qed.

Lemma run_det cx code : forall r r1 r2, run cx code r r1 -> run cx code r r2 -> r1 = r2.
Proof.
  induction code as [|i code IH]; intros r r1 r2 H1 H2; inversion H1; inversion H2; subst; [reflexivity|].
  match goal with A : step cx i r ?x, B : step cx i r ?y |- _ => pose proof (step_det _ _ _ _ _ A B); subst end. eauto.
Qed.

Lemma fault_stuck cx k i r e r' : fault cx k i r e -> ~ step cx i r r'.
Proof.
  intros Hf Hs. destruct Hf as [G|G Ho Hb|G Ho Hb|G Ho Hb]; inversion Hs as [G'|v G' C|G' H]; subst; try congruence.
  all: try (rewrite Ho in C; inversion C; lia).
  all: try (rewrite Ho in H; inversion H).
  destruct Ho as [Ho|Ho]; rewrite Ho in C; inversion C.
Qed.

Lemma encodes_inj fields i j : encodes fields i -> encodes fields j -> i = j.
Proof. intros [Hi Ei] [Hj Ej]. pose proof (from_to_fields i Hi) as H. rewrite <- Ei, Ej, from_to_fields in H by exact Hj. now injection H. Qed.

Lemma code_unique fields : forall code code', Forall2 encodes fields code -> Forall2 encodes fields code' -> code = code'.
Proof.
  induction fields as [|f fields IH]; intros code code' H H'; inversion H; inversion H'; subst; [reflexivity|].
  f_equal; [eapply encodes_inj; eassumption|now apply IH].
Qed.

Lemma fault_no_run cx code : forall k i r r1 e r', code !! k = Some i -> run cx (take k code) r r1 -> fault cx k i r1 e -> ~ run cx code r r'.
Proof.
  cut (forall k j i r r1 e r', code !! k = Some i -> run cx (take k code) r r1 -> fault cx j i r1 e -> ~ run cx code r r'); [eauto|].
  induction code as [|c code IH]; intros [|k] j i r r1 e r' Hk Hp Hf Hr; try discriminate Hk; cbn in Hk, Hp; inversion Hr as [|? ? ? r2 ? Hs Hrest]; subst.
  - injection Hk as ->. inversion Hp; subst. exact (fault_stuck _ _ _ _ _ _ Hf Hs).
  - inversion Hp as [|? ? ? r3 ? Hs3 Hp']; subst. rewrite (step_det _ _ _ _ _ Hs Hs3) in Hrest. exact (IH k j i r3 r1 e r' Hk Hp' Hf Hrest).
Qed.

Lemma execute_fail_no_run program current cx e : Forall fields_wf program -> context_wf cx -> execute_program program current cx = Fail e ->
  ~ exists code r, Forall2 encodes program code /\ run cx code (start current) r.
Proof.
  intros Hf Hcx E (code & r & Hc & Hr). pose proof (execute_cases program current cx Hf Hcx) as H. rewrite E in H.
  destruct H as [(k & fields & code' & _ & Hk & Hno & _)|(code' & k & i & r1 & Hc' & Hk & Hr1 & Hft)].
  - destruct (Forall2_lookup_l _ _ _ _ _ Hc Hk) as (i & _ & Hi). exact (Hno i Hi).
  - rewrite (code_unique _ _ _ Hc' Hc) in *. exact (fault_no_run _ _ _ _ _ _ _ _ Hk Hr1 Hft Hr).
Qed.

(** ** Runs as a function *)

Definition eval_step (cx : Context) (r : Registers) (i : Instruction) : option Registers :=
  match guard cx r (ins_predicate i) with
  | None => None
  | Some false => Some r
  | Some true =>
      match apply_opcode (ins_opcode i) 0 (operand_value cx r (ins_immediate i) (ins_left i)) (operand_value cx r (ins_immediate i) (ins_right i))
              (reg_get r (ins_destination i)) with
      | Ok v => Some (reg_set r (ins_destination i) v)
      | Err _ => None
      end
  end.

Fixpoint eval_run (cx : Context) (r : Registers) (code : list Instruction) : option Registers :=
  match code with
  | [] => Some r
  | i :: code => r ← eval_step cx r i; eval_run cx r code
  end.

Lemma apply_opcode_ok op k l x kept v : apply_opcode op k l x kept = Ok v <-> computes l x op v \/ (holds l x op /\ v = kept).
Proof.
  split.
  - destruct op; cbn [apply_opcode]; unfold checked_add, checked_sub.
    + intros [= <-]. right. now split; [constructor|].
    + intros [= <-]. left. constructor.
    + destruct (Z.ltb_spec (l + x) (2 ^ 64)); intros [= <-]. left. now constructor.
    + destruct (Z.leb_spec x l); intros [= <-]. left. now constructor.
    + intros [= <-]. left. constructor.
    + intros [= <-]. left. constructor.
    + intros [= <-]. left. destruct (Z.ltb_spec l x) as [H|H]; cbn [Z.b2z]; [rewrite <- (decide_True (P := l < x) 1 0 H)|rewrite <- (decide_False (P := l < x) 1 0) by lia]; constructor.
    + intros [= <-]. left. destruct (Z.eqb_spec l x) as [H|H]; cbn [Z.b2z]; [rewrite <- (decide_True (P := l = x) 1 0 H)|rewrite <- (decide_False (P := l = x) 1 0 H)]; constructor.
    + destruct (Z.eqb_spec l x); intros [= <-]. right. now split; [constructor|].
    + destruct (Z.leb_spec l x); intros [= <-]. right. now split; [constructor|].
  - intros [C|[H ->]].
    + destruct C; cbn [apply_opcode]; unfold checked_add, checked_sub; try reflexivity.
      * destruct (Z.ltb_spec (l + x) (2 ^ 64)); [reflexivity|lia].
      * destruct (Z.leb_spec x l); [reflexivity|lia].
      * destruct (decide (l < x)), (Z.ltb_spec l x); try reflexivity; lia.
      * destruct (decide (l = x)), (Z.eqb_spec l x); try reflexivity; congruence.
    + destruct H as [|E|E]; cbn [apply_opcode]; [reflexivity|now rewrite (proj2 (Z.eqb_eq l x) E)|now rewrite (proj2 (Z.leb_le l x) E)].
Qed.

Lemma eval_step_iff cx r i r' : eval_step cx r i = Some r' <-> step cx i r r'.
Proof.
  unfold eval_step. split.
  - destruct (guard cx r (ins_predicate i)) as [[|]|] eqn:G; [|intros [= <-]; now constructor|discriminate].
    destruct (apply_opcode _ _ _ _ _) as [v|] eqn:E; [|discriminate]. intros [= <-]. apply apply_opcode_ok in E as [C|[H ->]]; [now apply step_write|].
    rewrite reg_keep. now apply step_assert.
  - intros [G|v G C|G H]; rewrite G; [reflexivity| |].
    + now rewrite (proj2 (apply_opcode_ok _ _ _ _ _ v) (or_introl C)).
    + rewrite (proj2 (apply_opcode_ok _ _ _ _ _ _) (or_intror (conj H eq_refl))). now rewrite reg_keep.
Qed.

Lemma eval_run_iff cx code : forall r r', eval_run cx r code = Some r' <-> run cx code r r'.
Proof.
  induction code as [|i code IH]; intros r r'; cbn [eval_run]; [split; [intros [= <-]; constructor|now inversion 1]|].
  rewrite bind_Some. split.
  - intros (r1 & H1 & H2). apply eval_step_iff in H1. apply IH in H2. now apply (run_cons _ _ _ _ r1).
  - inversion 1 as [|? ? ? r1 ? H1 H2]; subst. exists r1. split; [now apply eval_step_iff|now apply IH].
Qed.

(** ** Properties *)

(** C15. Programs execute exactly their semantics.  [execute] never panics; it
    returns a state precisely when every field pair is the canonical encoding of
    an instruction and the instructions run from the unpacked state with zero
    scratch registers, and then the state packs the final persistent registers,
    each of 64 bits.  A failure names the first pair that encodes no instruction,
    or the instruction that faults, after the ones before it ran, with its cause:
    a predicate register that is no boolean, an overflow, an underflow or a false
    assertion; then the program has no run.  A run determines its result. *)
Theorem execute_exact (program : Program) (current : Z) (cx : Context) :
  Forall fields_wf program -> context_wf cx ->
  match execute_program program current cx with
  | Return next => exists code r, Forall2 encodes program code /\ run cx code (start current) r /\ next = state0 r + 2 ^ 64 * state1 r /\ u128 next
  | Fail e =>
      ((exists k fields code, e = Encoding k /\ program !! k = Some fields /\ (forall i, ~ encodes fields i) /\ Forall2 encodes (take k program) code)
       \/ exists code k i r, Forall2 encodes program code /\ code !! k = Some i /\ run cx (take k code) (start current) r /\ fault cx k i r e)
      /\ ~ exists code r, Forall2 encodes program code /\ run cx code (start current) r
  | Panic => False
  end
  /\ forall code r r1 r2, run cx code r r1 -> run cx code r r2 -> r1 = r2.
Proof.
  intros Hf Hcx. split; [|apply run_det]. pose proof (execute_cases program current cx Hf Hcx) as H.
  destruct (execute_program program current cx) as [next|e|] eqn:E; [exact H| |exact H]. split; [exact H|exact (execute_fail_no_run _ _ _ _ Hf Hcx E)].
Qed.

Definition example_code : list Instruction :=
  [when (Instruction_new Opc.Add Reg.State0 Opd.State0 Opd.One 0) BEFORE_DEADLINE;
   Instruction_new Opc.AssertLessOrEqual Reg.State0 Opd.Immediate Opd.Height 7].

Definition example_context : Context := mkCallContext 9 1 0 5 6 true false false [0; 0; 0; 0] 1 2 3 0.

Lemma example_context_wf : context_wf example_context.
Proof. constructor; cbn; try (unfold in_range; lia). split; [reflexivity|]. repeat constructor; unfold in_range; lia. Qed.

Lemma execute_exact_witness : exists code r, Forall2 encodes (to_fields <$> example_code) code
  /\ run example_context code (start 41) r /\ state0 r + 2 ^ 64 * state1 r = 42.
Proof.
  assert (Hf : Forall fields_wf (to_fields <$> example_code)) by (repeat first [apply Forall_nil_2 | apply Forall_cons_2; [split; vm_compute; discriminate|]]).
  destruct (execute_exact (to_fields <$> example_code) 41 example_context Hf example_context_wf) as [H _].
  assert (E : execute_program (to_fields <$> example_code) 41 example_context = Return 42) by reflexivity. rewrite E in H.
  destruct H as (code & r & Hc & Hr & En & _). eauto.
Defined.
