(* ===== verification/Contract.v ===== *)
(** * Contract objects ([noid_tx/src/experimental_object.rs], [policy.rs])

    The opening of a contract (program, state, authorities, recipients, deadline
    and spending rules), its commitment, the check of a call, the builder of
    calls, and the wire forms of openings and contract intents.  The hashes are
    parameters; [pairs_digest] is the sponge the source uses for commitments. *)

From Stdlib Require Import ZArith Lia Bool.
From stdpp Require Import base numbers list option.
From S2P Require Import Prelude Codec Tx TxWire PagedSpend Poseidon Sponge IntegerProgram.
Open Scope Z_scope.

(** ** Spending rules *)

Definition CLAIM_CONTINUE : Z := 1.
Definition CLAIM_CLOSE : Z := 2.
Definition RECOVERY_CONTINUE : Z := 4.
Definition RECOVERY_CLOSE : Z := 8.
Definition ANY_PAYOUT_RECIPIENT : Z := 16.
Definition VALID_MODES : Z := 31.
Definition RULE_BYTES : Z := 8 + 8 + 8 + 1.

Record ObjectRules := mkRules {
  max_fee : Z;
  min_retained : Z;
  max_payout : Z;
  modes : Z
}.

Module Obj.
Inductive ObjectError :=
| Encoding
| Version
| Opcode (step : nat)
| Shape
| OldObject
| Successor
| Recipient
| Balance
| Policy
| FeeLimit
| ReserveLimit
| PayoutLimit
| Program (e : ProgramError)
| Page (e : PagedSpendError).
End Obj.
Abbreviation ObjectError := Obj.ObjectError (only parsing).

Definition rules_validate (r : ObjectRules) : result ObjectError unit :=
  ensure (Z.land (modes r) (umax 8 - VALID_MODES) =? 0) Obj.Policy.

Definition rules_fields (r : ObjectRules) : Z * Z * Z * Z := (max_fee r, min_retained r, max_payout r, modes r).

Definition permits (r : ObjectRules) (before_deadline terminal : bool) : bool :=
  let bit :=
    match before_deadline, terminal with
    | true, false => CLAIM_CONTINUE
    | true, true => CLAIM_CLOSE
    | false, false => RECOVERY_CONTINUE
    | false, true => RECOVERY_CLOSE
    end in
  negb (Z.land (modes r) bit =? 0).

(** ** Openings *)

Definition OBJECT_VERSION : Z := 3.
Definition OPENING_MAGIC : list Z := [78; 79; 73; 68; 79; 66; 74; 51].
Definition INTENT_MAGIC : list Z := [78; 79; 73; 68; 86; 50; 84; 88].
Definition OPENING_BYTES : Z := 8 + 2 + Z.of_nat PROGRAM_STEPS * 32 + 16 + 4 * 32 + 8 + RULE_BYTES.
Definition INTENT_PREFIX_BYTES : Z := Z.of_nat (length INTENT_MAGIC) + OPENING_BYTES.
Definition MAX_INTENT_BYTES : Z := INTENT_PREFIX_BYTES + 7 + Z.of_nat TX_BODY_WIRE_SIZE + MAX_TX_AUTHORIZATION_BYTES.
Definition TAG_CNTCODE : list Z := [67; 78; 84; 67; 79; 68; 69; 95].
Definition TAG_CNTPOL : list Z := [67; 78; 84; 80; 79; 76; 95; 95].
Definition TAG_CNTOBJ : list Z := [67; 78; 84; 79; 66; 74; 95; 95].

Record ObjectOpening := mkOpening {
  program : Program;
  ob_state : Z;
  claim_authority : list Z;
  recovery_authority : list Z;
  deadline : Z;
  claim_recipient : list Z;
  recovery_recipient : list Z;
  rules : ObjectRules
}.

Record CheckedTransition := mkChecked {
  ct_next : Z;
  ct_contexts : list Z;
  ct_authority : list Z;
  ct_terminal : bool
}.

Record ObjectIntent := mkObjectIntent { oi_opening : ObjectOpening; oi_spend : PagedSpendIntent }.

(** A sponge under a tag that absorbs pairs and is squeezed without padding. *)
Definition pairs_digest (tag : list Z) (pairs : list (Z * Z)) : list Z :=
  finalize_no_pad (foldl (fun s p => absorb_pair permute_mut s p.1 p.2) (with_iv (capacity_iv tag)) pairs).

Definition Opening_validate (o : ObjectOpening) : result ObjectError unit :=
  _ ← rules_validate (rules o);
  fold_result (fun _ p => ensure (bool_decide (is_Some (from_fields p.2))) (Obj.Opcode p.1)) tt (enumerate (program o)).

Definition authority_at (o : ObjectOpening) (height : Z) : list Z :=
  if height <? deadline o then claim_authority o else recovery_authority o.

Definition recipient_at (o : ObjectOpening) (height : Z) : list Z :=
  if height <? deadline o then claim_recipient o else recovery_recipient o.

Definition successor (o : ObjectOpening) (next : Z) : ObjectOpening :=
  mkOpening (program o) next (claim_authority o) (recovery_authority o) (deadline o) (claim_recipient o) (recovery_recipient o) (rules o).

Definition execute (o : ObjectOpening) (body : TxBody) (height : Z) : exec ObjectError Z :=
  _ ← lift (Opening_validate o);
  fail_as Obj.Program (execute_program (program o) (ob_state o) (from_body body height (deadline o))).

(** The leaves of the body hash that a contract witness carries. *)
Definition transaction_contexts (body : TxBody) : list Z :=
  let leaf k := nth k (body_hash_leaves body) (0, 0) in
  [(leaf 0%nat).1; (leaf 0%nat).2; (leaf 1%nat).1; (leaf 11%nat).2; (leaf 13%nat).2; (leaf 14%nat).1; (leaf 14%nat).2; (leaf 15%nat).1].

Section Calls.
Variable hash_tx8x2_leaves : list (Z * Z) -> list Z.
Variable sponge_pairs : list Z -> list (Z * Z) -> list Z.
Variable digest : list Z -> list (Z * Z) -> list Z.

Definition code_id (o : ObjectOpening) : list Z := digest TAG_CNTCODE (program o).

Definition policy_pairs (o : ObjectOpening) : list (Z * Z) :=
  let code := digest_fields (code_id o) in
  let claim := digest_fields (claim_authority o) in
  let recovery := digest_fields (recovery_authority o) in
  let recipient := digest_fields (claim_recipient o) in
  let refund := digest_fields (recovery_recipient o) in
  let '(rule0, rule1, rule2, rule3) := rules_fields (rules o) in
  [code; (deadline o, claim.1); (claim.2, recovery.1); (recovery.2, recipient.1); (recipient.2, refund.1);
   (refund.2, OBJECT_VERSION); (rule0, rule1); (rule2, rule3)].

Definition object_pairs (o : ObjectOpening) : list (Z * Z) := [digest_fields (digest TAG_CNTPOL (policy_pairs o)); (ob_state o, 0)].

Definition root (o : ObjectOpening) : list Z := digest TAG_CNTOBJ (object_pairs o).

Definition call_bits : Z :=
  Z.lor (Z.lor (Z.lor (Z.lor 1 (output_bitmap_bit 0)) PAGED_SPEND_START_BIT) PAGED_SPEND_END_BIT) PAGED_SPEND_CONTRACT_BIT.

Definition check_call (o : ObjectOpening) (page : TxPage) (height : Z) : exec ObjectError CheckedTransition :=
  _ ← lift (Opening_validate o);
  _ ← lift (map_err Obj.Page (validate_paged_spend hash_tx8x2_leaves sponge_pairs [page]));
  let bitmap := validity_bitmap page in
  let terminal := negb (Z.land bitmap PAGED_SPEND_TERMINAL_BIT =? 0) in
  let expected := Z.lor call_bits (if terminal then PAGED_SPEND_TERMINAL_BIT else Z.land bitmap (output_bitmap_bit 1)) in
  _ ← lift (ensure (negb (is_coinbase page || negb (bitmap =? expected))) Obj.Shape);
  _ ← lift (ensure (bool_decide (input_owner page = root o)) Obj.OldObject);
  _ ← lift (ensure (permits (rules o) (height <? deadline o) terminal) Obj.Policy);
  _ ← lift (ensure (negb (max_fee (rules o) <? fee page)) Obj.FeeLimit);
  _ ← (if terminal then mret tt
       else
         _ ← lift (ensure (negb (out_amount (output_at page 0) <? min_retained (rules o))) Obj.ReserveLimit);
         _ ← lift (ensure (negb (max_payout (rules o) <? out_amount (output_at page 1))) Obj.PayoutLimit);
         lift (ensure (negb (negb (Z.land bitmap (output_bitmap_bit 1) =? 0)
                             && (Z.land (modes (rules o)) ANY_PAYOUT_RECIPIENT =? 0)
                             && negb (bool_decide (out_owner (output_at page 1) = recipient_at o height)))) Obj.Recipient));
  next ← execute o page height;
  _ ← lift (if terminal
            then ensure (bool_decide (out_owner (output_at page 0) = recipient_at o height)) Obj.Recipient
            else ensure (bool_decide (out_owner (output_at page 0) = root (successor o next))) Obj.Successor);
  mret (mkChecked next (transaction_contexts page) (authority_at o height) terminal).

(** The body before its first owner is known, and with it. *)
Definition call_body (o : ObjectOpening) (input : TxInput) (epoch_anchor : list Z) (fee : Z) (first : TxOutput) (payout : option TxOutput)
    (terminal : bool) : TxBody :=
  mkTxBody epoch_anchor fee (root o) (input :: replicate (TX_INPUTS - 1) TxInput_dummy)
    [first; default TxOutput_dummy payout]
    (Z.lor (Z.lor call_bits (if bool_decide (is_Some payout) then output_bitmap_bit 1 else 0)) (if terminal then PAGED_SPEND_TERMINAL_BIT else 0))
    false.

Definition build_call_inner (o : ObjectOpening) (input : TxInput) (output_slot fee : Z) (epoch_anchor : list Z) (height : Z) (terminal : bool)
    (payout : option TxOutput) : exec ObjectError TxPage :=
  _ ← lift (Opening_validate o);
  amount ← lift (ok_or (amount ← checked_sub (in_amount input) fee;
                        checked_sub amount (default 0 (out_amount <$> payout))) Obj.Balance);
  let body owner := call_body o input epoch_anchor fee (mkTxOutput output_slot amount owner) payout terminal in
  owner ← (if terminal then mret (recipient_at o height)
           else next ← execute o (body ZERO_DIGEST) height; mret (root (successor o next)));
  _ ← lift (map_err Obj.Page (validate_page_shape (body owner) 0));
  _ ← check_call o (body owner) height;
  mret (body owner).

Definition build_call (o : ObjectOpening) (input : TxInput) (output_slot fee : Z) (epoch_anchor : list Z) (height : Z) (terminal : bool)
  : exec ObjectError TxPage :=
  build_call_inner o input output_slot fee epoch_anchor height terminal None.

Definition build_payment (o : ObjectOpening) (input : TxInput) (successor_slot fee : Z) (epoch_anchor : list Z) (height : Z) (payout : TxOutput)
  : exec ObjectError TxPage :=
  build_call_inner o input successor_slot fee epoch_anchor height false (Some payout).

Definition funding_output (o : ObjectOpening) (slot_index amount : Z) : result ObjectError TxOutput :=
  _ ← Opening_validate o; Ok (mkTxOutput slot_index amount (root o)).
End Calls.

(** ** Wire forms *)

Definition put_pair (p : Z * Z) : list Z := put_uint 16 p.1 ++ put_uint 16 p.2.
Definition take_pair : parser ObjectError (Z * Z) :=
  a ← take_uint Obj.Encoding 16; b ← take_uint Obj.Encoding 16; mret (a, b).

Definition opening_fields (o : ObjectOpening) : list Z :=
  put_many put_pair (program o) ++ put_uint 16 (ob_state o) ++ put_bytes (claim_authority o) ++ put_bytes (recovery_authority o)
  ++ put_uint 8 (deadline o) ++ put_bytes (claim_recipient o) ++ put_bytes (recovery_recipient o)
  ++ put_uint 8 (max_fee (rules o)) ++ put_uint 8 (min_retained (rules o)) ++ put_uint 8 (max_payout (rules o)) ++ put_uint 1 (modes (rules o)).

Definition Opening_to_bytes (o : ObjectOpening) : result ObjectError (list Z) :=
  _ ← Opening_validate o;
  Ok (put_bytes OPENING_MAGIC ++ put_uint 2 OBJECT_VERSION ++ opening_fields o).

(** The [take] closure of [from_bytes], on bytes of the right length. *)
Definition take_opening : parser ObjectError ObjectOpening :=
  program ← decode_many take_pair PROGRAM_STEPS;
  state ← take_uint Obj.Encoding 16;
  claim_authority ← take_bytes Obj.Encoding 32;
  recovery_authority ← take_bytes Obj.Encoding 32;
  deadline ← take_uint Obj.Encoding 8;
  claim_recipient ← take_bytes Obj.Encoding 32;
  recovery_recipient ← take_bytes Obj.Encoding 32;
  max_fee ← take_uint Obj.Encoding 8;
  min_retained ← take_uint Obj.Encoding 8;
  max_payout ← take_uint Obj.Encoding 8;
  modes ← take_uint Obj.Encoding 1;
  mret (mkOpening program state claim_authority recovery_authority deadline claim_recipient recovery_recipient
          (mkRules max_fee min_retained max_payout modes)).

Definition Opening_from_bytes (bytes : list Z) : result ObjectError ObjectOpening :=
  _ ← ensure (negb (negb (Z.of_nat (length bytes) =? OPENING_BYTES) || negb (bool_decide (take 8 bytes = OPENING_MAGIC)))) Obj.Encoding;
  _ ← ensure (from_le_bytes (take 2 (drop 8 bytes)) =? OBJECT_VERSION) Obj.Version;
  opening ← fst <$> take_opening (drop 10 bytes);
  _ ← Opening_validate opening;
  Ok opening.

Section Intents.
Variable hash_tx8x2_leaves : list (Z * Z) -> list Z.
Variable sponge_pairs : list Z -> list (Z * Z) -> list Z.

Definition ObjectIntent_to_bytes (i : ObjectIntent) : result ObjectError (list Z) :=
  _ ← ensure (length (intent_pages (oi_spend i)) =? 1)%nat Obj.Shape;
  opening ← Opening_to_bytes (oi_opening i);
  spend ← map_err Obj.Page (PagedSpendIntent_encode hash_tx8x2_leaves sponge_pairs (oi_spend i));
  Ok (INTENT_MAGIC ++ opening ++ spend).

Definition ObjectIntent_from_bytes (bytes : list Z) : result ObjectError ObjectIntent :=
  let n := Z.of_nat (length bytes) in
  _ ← ensure (negb ((n <? INTENT_PREFIX_BYTES + 330) || (MAX_INTENT_BYTES <? n)
                    || negb (bool_decide (take (length INTENT_MAGIC) bytes = INTENT_MAGIC)))) Obj.Encoding;
  let inner := drop (Z.to_nat INTENT_PREFIX_BYTES) bytes in
  _ ← ensure (bool_decide (take 2 (drop 1 inner) = to_le_bytes 2 1)) Obj.Shape;
  opening ← Opening_from_bytes (take (Z.to_nat INTENT_PREFIX_BYTES - 8) (drop 8 bytes));
  spend ← map_err Obj.Page (PagedSpendIntent_from_bytes hash_tx8x2_leaves sponge_pairs inner);
  Ok (mkObjectIntent opening spend).
End Intents.

(** ** Specification *)

(** Every field is one of its machine type. *)
Record opening_wf (o : ObjectOpening) : Prop := {
  ow_program : length (program o) = PROGRAM_STEPS /\ Forall (fun f => u128 f.1 /\ u128 f.2) (program o);
  ow_state : u128 (ob_state o);
  ow_claim_authority : digest_ok (claim_authority o);
  ow_recovery_authority : digest_ok (recovery_authority o);
  ow_deadline : u64 (deadline o);
  ow_claim_recipient : digest_ok (claim_recipient o);
  ow_recovery_recipient : digest_ok (recovery_recipient o);
  ow_max_fee : u64 (max_fee (rules o));
  ow_min_retained : u64 (min_retained (rules o));
  ow_max_payout : u64 (max_payout (rules o));
  ow_modes : u8 (modes (rules o))
}.

Definition valid_opening (o : ObjectOpening) : Prop := modes (rules o) < 32 /\ exists code, Forall2 encodes (program o) code.

(** The program of [o] takes its state to [next] in the context of a call. *)
Definition runs_to (o : ObjectOpening) (page : TxPage) (height next : Z) : Prop :=
  exists code r, Forall2 encodes (program o) code /\ run (from_body page height (deadline o)) code (start (ob_state o)) r
    /\ next = state0 r + 2 ^ 64 * state1 r.

(** One input, the retained output, perhaps a payout; start, end and contract bits. *)
Definition call_bitmap (terminal payout : bool) : Z :=
  1 + 256 + 1024 + 2048 + 4096 + (if payout then 512 else 0) + (if terminal then 8192 else 0).

Definition mode_bit (before terminal : bool) : Z := (if before then 0 else 2) + (if terminal then 1 else 0).

Section Spec.
Context (digest : list Z -> list (Z * Z) -> list Z).

Record call_ok (o : ObjectOpening) (page : TxPage) (height next : Z) (terminal payout : bool) : Prop := {
  ck_opening : valid_opening o;
  ck_spend : valid_spend [page] page;
  ck_bitmap : validity_bitmap page = call_bitmap terminal payout;
  ck_close : terminal = true -> payout = false;
  ck_owner : input_owner page = root digest o;
  ck_mode : Z.testbit (modes (rules o)) (mode_bit (height <? deadline o) terminal) = true;
  ck_fee : fee page <= max_fee (rules o);
  ck_retained : terminal = false -> min_retained (rules o) <= out_amount (output_at page 0);
  ck_payout : terminal = false -> out_amount (output_at page 1) <= max_payout (rules o);
  ck_recipient : payout = true -> Z.testbit (modes (rules o)) 4 = true \/ out_owner (output_at page 1) = recipient_at o height;
  ck_run : runs_to o page height next;
  ck_target : out_owner (output_at page 0) = if terminal then recipient_at o height else root digest (successor o next)
}.
End Spec.

(** ** Checking calls *)

Lemma decodable_iff fields : Forall (fun f => 0 <= f.1 /\ 0 <= f.2) fields ->
  (exists code, Forall2 encodes fields code) <-> forall k f, fields !! k = Some f -> is_Some (from_fields f).
Proof.
  induction 1 as [|f fields [H1 H2] Hf IH]; [split; [intros _ k f; now rewrite lookup_nil|now exists []]|]. split.
  - intros [code Hc]. inversion Hc as [|? i ? l Hi Hl]; subst. intros [|k] g Hg; cbn in Hg; [|eapply IH; eauto].
    injection Hg as <-. exists i. now apply from_fields_iff.
  - intros H. destruct (H 0%nat f eq_refl) as [i Hi]. destruct (proj2 IH (fun k => H (S k))) as [code Hc].
    exists (i :: code). constructor; [now apply from_fields_iff|exact Hc].
Qed.

Lemma program_nonneg o : opening_wf o -> Forall (fun f => 0 <= f.1 /\ 0 <= f.2) (program o).
Proof. intros Hw. destruct (ow_program _ Hw) as [_ Hp]. eapply Forall_impl; [|exact Hp]. intros f [[? _] [? _]]. auto. Qed.

Lemma validate_opening_iff o : opening_wf o -> Opening_validate o = Ok tt <-> valid_opening o.
Proof.
  intros Hw. pose proof (ow_modes _ Hw) as Hm. unfold Opening_validate, rules_validate, valid_opening.
  rewrite decodable_iff by now apply program_nonneg.
  change VALID_MODES with (2 ^ 5 - 1). rewrite land_high_mask by (lia || exact Hm). change (2 ^ 5) with 32.
  assert (Hd : fold_result (fun _ p => ensure (bool_decide (is_Some (from_fields p.2))) (Obj.Opcode p.1)) tt (enumerate (program o)) = Ok tt
    <-> forall k f, program o !! k = Some f -> is_Some (from_fields f)).
  { rewrite fold_result_check, Forall_enumerate. cbn [snd]. setoid_rewrite bool_decide_eq_true. reflexivity. }
  destruct (Z.ltb_spec (modes (rules o)) 32) as [H|H]; cbn [ensure mbind result_bind]; [rewrite Hd; tauto|]. split; [discriminate|lia].
Qed.

Lemma call_bitmap_facts (terminal payout : bool) : (terminal = true -> payout = false) ->
  negb (Z.land (call_bitmap terminal payout) PAGED_SPEND_TERMINAL_BIT =? 0) = terminal
  /\ negb (Z.land (call_bitmap terminal payout) (output_bitmap_bit 1) =? 0) = payout
  /\ Z.lor call_bits (if terminal then PAGED_SPEND_TERMINAL_BIT else Z.land (call_bitmap terminal payout) (output_bitmap_bit 1)) = call_bitmap terminal payout.
Proof. intros H. destruct terminal, payout; try discriminate (H eq_refl); repeat split. Qed.

(** The bitmap test of [check_call] decides the shape. *)
Lemma call_bitmap_iff bitmap :
  let terminal := negb (Z.land bitmap PAGED_SPEND_TERMINAL_BIT =? 0) in
  let payout := negb (Z.land bitmap (output_bitmap_bit 1) =? 0) in
  bitmap = Z.lor call_bits (if terminal then PAGED_SPEND_TERMINAL_BIT else Z.land bitmap (output_bitmap_bit 1))
  <-> bitmap = call_bitmap terminal payout /\ (terminal = true -> payout = false).
Proof.
  intros terminal payout. split.
  - intros E. assert (Hb : bitmap = call_bitmap true false \/ bitmap = call_bitmap false false \/ bitmap = call_bitmap false true).
    { subst terminal. destruct (negb (Z.land bitmap PAGED_SPEND_TERMINAL_BIT =? 0)); [left; exact E|right]. change (output_bitmap_bit 1) with (2 ^ 9) in E. rewrite land_pow2 in E by lia.
      destruct (Z.testbit bitmap 9); [right|left]; exact E. }
    subst terminal payout. destruct Hb as [ -> | [ -> | -> ]]; split; reflexivity || discriminate.
  - intros [E H]. destruct (call_bitmap_facts terminal payout H) as (_ & _ & F). rewrite <- E in F. now symmetry.
Qed.

Lemma permits_iff r before terminal : 0 <= modes r -> permits r before terminal = Z.testbit (modes r) (mode_bit before terminal).
Proof.
  intros Hm. unfold permits.
  assert (H : forall k, 0 <= k -> negb (Z.land (modes r) (2 ^ k) =? 0) = Z.testbit (modes r) k).
  { intros k Hk. rewrite land_pow2 by lia. pose proof (pow2_pos k Hk). destruct (Z.testbit (modes r) k); [|reflexivity]. destruct (Z.eqb_spec (2 ^ k) 0); [lia|reflexivity]. }
  destruct before, terminal; [apply (H 1)|apply (H 0)|apply (H 3)|apply (H 2)]; lia.
Qed.

Lemma from_body_wf page height deadline : body_wf page -> u64 height -> context_wf (from_body page height deadline).
Proof.
  intros [_ Hf _ [Hil Hi] [Hol Ho] _] Hh. unfold from_body, input_at, output_at.
  destruct (inputs page) as [|i0 is_]; [discriminate|]. destruct (outputs page) as [|o0 [|o1 os]]; [discriminate..|].
  apply Forall_cons_1 in Hi as [[? [? ?]] _]. apply Forall_cons_1 in Ho as [[? [? ?]] Ho]. apply Forall_cons_1 in Ho as [[? [? [Hl Hb]]] _].
  constructor; cbn [cx_height cx_fee cx_payout cx_retained cx_input_amount cx_payout_owner cx_input_creation_id cx_input_slot cx_retained_slot cx_payout_slot nth]; try assumption.
  split; [reflexivity|]. apply Forall_fmap, Forall_forall. intros k Hk. apply in_seq in Hk. cbn [compose].
  assert (E : length (take 8 (drop (k * 8) (out_owner o1))) = 8%nat) by (rewrite length_take, length_drop; lia).
  pose proof (from_le_bytes_bounds (take 8 (drop (k * 8) (out_owner o1))) ltac:(now apply Forall_take, Forall_drop)) as B. rewrite E in B. exact B.
Qed.

Lemma execute_contract_cases o page height : opening_wf o -> body_wf page -> u64 height -> valid_opening o ->
  match execute o page height with
  | Return next => runs_to o page height next /\ u128 next
  | Fail _ => forall next, ~ runs_to o page height next
  | Panic => False
  end.
Proof.
  intros Ho Hb Hh Hv. unfold execute. rewrite (proj2 (validate_opening_iff o Ho) Hv). cbn [lift mbind exec_bind].
  pose proof (from_body_wf page height (deadline o) Hb Hh) as Hcx. pose proof (program_nonneg o Ho) as Hp.
  pose proof (execute_cases (program o) (ob_state o) _ Hp Hcx) as H.
  destruct (execute_program _ _ _) as [next|e|] eqn:E; cbn [fail_as].
  - destruct H as (code & r & Hc & Hr & En & Hn). split; [now exists code, r|exact Hn].
  - intros next (code & r & Hc & Hr & _). apply (execute_fail_no_run _ _ _ _ Hp Hcx E). eauto.
  - exact H.
Qed.

Lemma runs_det o page height n1 n2 : runs_to o page height n1 -> runs_to o page height n2 -> n1 = n2.
Proof.
  intros (c1 & r1 & H1 & R1 & ->) (c2 & r2 & H2 & R2 & ->). rewrite (code_unique _ _ _ H2 H1) in R2. now rewrite (run_det _ _ _ _ _ R1 R2).
Qed.

Section CheckCall.
Context (hash_tx8x2_leaves : list (Z * Z) -> list Z) (sponge_pairs digest : list Z -> list (Z * Z) -> list Z).
Abbreviation check := (check_call hash_tx8x2_leaves sponge_pairs digest).

Definition checked (o : ObjectOpening) (page : TxPage) (height next : Z) (terminal : bool) : CheckedTransition :=
  mkChecked next (transaction_contexts page) (authority_at o height) terminal.

Lemma single_spend_iff page : body_wf page ->
  match validate_paged_spend hash_tx8x2_leaves sponge_pairs [page] with
  | Ok _ => valid_spend [page] page
  | Err _ => ~ valid_spend [page] page
  end.
Proof.
  intros Hb. assert (Hw : Forall body_wf [page]) by now constructor.
  pose proof (validate_paged_spend_valid hash_tx8x2_leaves sponge_pairs [page]) as H.
  destruct (validate_paged_spend _ _ [page]) as [facts|e].
  - destruct (proj1 (H facts Hw) eq_refl) as (first & Hv & _). pose proof (vs_first _ _ Hv) as [= <-]. exact Hv.
  - intros Hv. discriminate (proj2 (H (spend_facts hash_tx8x2_leaves sponge_pairs [page] page) Hw) (ex_intro _ page (conj Hv eq_refl))).
Qed.

(** The continuing-call limits, as one guard. *)
Lemma continue_guard_iff o page height (terminal payout : bool) :
  validity_bitmap page = call_bitmap terminal payout -> (terminal = true -> payout = false) -> 0 <= modes (rules o) ->
  match (if terminal then mret tt
         else
           _ ← lift (ensure (negb (out_amount (output_at page 0) <? min_retained (rules o))) Obj.ReserveLimit);
           _ ← lift (ensure (negb (max_payout (rules o) <? out_amount (output_at page 1))) Obj.PayoutLimit);
           lift (ensure (negb (negb (Z.land (validity_bitmap page) (output_bitmap_bit 1) =? 0)
                               && (Z.land (modes (rules o)) ANY_PAYOUT_RECIPIENT =? 0)
                               && negb (bool_decide (out_owner (output_at page 1) = recipient_at o height)))) Obj.Recipient))
        : exec ObjectError unit with
  | Return _ => (terminal = false -> min_retained (rules o) <= out_amount (output_at page 0) /\ out_amount (output_at page 1) <= max_payout (rules o))
      /\ (payout = true -> Z.testbit (modes (rules o)) 4 = true \/ out_owner (output_at page 1) = recipient_at o height)
  | Fail _ => ~ ((terminal = false -> min_retained (rules o) <= out_amount (output_at page 0) /\ out_amount (output_at page 1) <= max_payout (rules o))
      /\ (payout = true -> Z.testbit (modes (rules o)) 4 = true \/ out_owner (output_at page 1) = recipient_at o height))
  | Panic => False
  end.
Proof.
  intros Eb Hc Hm. destruct terminal.
  { cbn. rewrite (Hc eq_refl). split; discriminate. }
  destruct (Z.ltb_spec (out_amount (output_at page 0)) (min_retained (rules o))) as [H1|H1]; cbn [negb ensure lift mbind exec_bind];
    [intros [H _]; destruct (H eq_refl); lia|].
  destruct (Z.ltb_spec (max_payout (rules o)) (out_amount (output_at page 1))) as [H2|H2]; cbn [negb ensure lift mbind exec_bind];
    [intros [H _]; destruct (H eq_refl); lia|].
  rewrite Eb. destruct (call_bitmap_facts false payout ltac:(discriminate)) as (_ & -> & _). change ANY_PAYOUT_RECIPIENT with (2 ^ 4). rewrite land_pow2 by lia.
  destruct payout; cbn [andb negb ensure lift]; [|split; [auto|discriminate]].
  destruct (Z.testbit (modes (rules o)) 4); [change (2 ^ 4 =? 0) with false|change (0 =? 0) with true]; cbn [andb negb ensure lift]; [auto|].
  destruct (bool_decide_reflect (out_owner (output_at page 1) = recipient_at o height)); cbn [negb ensure lift]; [auto|].
  intros [_ H]. destruct (H eq_refl); congruence.
Qed.

Lemma check_call_cases o page height : opening_wf o -> body_wf page -> u64 height ->
  match check o page height with
  | Return t => exists next terminal payout, call_ok digest o page height next terminal payout /\ t = checked o page height next terminal /\ u128 next
  | Fail _ => forall next terminal payout, ~ call_ok digest o page height next terminal payout
  | Panic => False
  end.
Proof.
  intros Ho Hb Hh. unfold check_call.
  pose proof (validate_opening_iff o Ho) as Hv. destruct (Opening_validate o) as [[]|e]; cbn [lift mbind exec_bind].
  2: { intros next terminal payout C. discriminate (proj2 Hv (ck_opening _ _ _ _ _ _ _ C)). }
  assert (Hvalid : valid_opening o) by now apply Hv. clear Hv.
  pose proof (single_spend_iff page Hb) as Hs. destruct (validate_paged_spend _ _ [page]) as [facts|e]; cbn [map_err lift mbind exec_bind].
  2: { intros next terminal payout C. exact (Hs (ck_spend _ _ _ _ _ _ _ C)). }
  assert (Hu : is_coinbase page = false) by (pose proof (vs_shape _ _ Hs) as F; apply Forall_cons_1 in F as [F _]; exact (shape_user _ F)).
  rewrite Hu. cbn [orb]. rewrite negb_involutive. pose proof (call_bitmap_iff (validity_bitmap page)) as Hbm. cbv zeta in Hbm.
  assert (Hdet : forall next terminal payout, call_ok digest o page height next terminal payout ->
    negb (Z.land (validity_bitmap page) PAGED_SPEND_TERMINAL_BIT =? 0) = terminal /\ negb (Z.land (validity_bitmap page) (output_bitmap_bit 1) =? 0) = payout).
  { intros next terminal payout C. rewrite (ck_bitmap _ _ _ _ _ _ _ C). destruct (call_bitmap_facts terminal payout (ck_close _ _ _ _ _ _ _ C)) as (-> & -> & _). auto. }
  set (terminal := negb (Z.land (validity_bitmap page) PAGED_SPEND_TERMINAL_BIT =? 0)) in *.
  destruct (Z.eqb_spec (validity_bitmap page) (Z.lor call_bits (if terminal then PAGED_SPEND_TERMINAL_BIT else Z.land (validity_bitmap page) (output_bitmap_bit 1)))) as [Eb|Eb];
    cbn [ensure lift mbind exec_bind].
  2: { intros next t p C. destruct (Hdet _ _ _ C) as [E1 E2]. apply Eb, Hbm. rewrite E1, E2. split; [exact (ck_bitmap _ _ _ _ _ _ _ C)|exact (ck_close _ _ _ _ _ _ _ C)]. }
  apply Hbm in Eb as [Eb Hc]. clear Hbm. set (payout := negb (Z.land (validity_bitmap page) (output_bitmap_bit 1) =? 0)) in *.
  destruct (bool_decide_reflect (input_owner page = root digest o)) as [Er|Er]; cbn [ensure lift mbind exec_bind].
  2: { intros next t p C. exact (Er (ck_owner _ _ _ _ _ _ _ C)). }
  pose proof (ow_modes _ Ho) as [Hm _]. rewrite permits_iff by exact Hm.
  destruct (Z.testbit (modes (rules o)) (mode_bit (height <? deadline o) terminal)) eqn:Em; cbn [ensure lift mbind exec_bind].
  2: { intros next t p C. destruct (Hdet _ _ _ C) as [<- _]. pose proof (ck_mode _ _ _ _ _ _ _ C). congruence. }
  destruct (Z.ltb_spec (max_fee (rules o)) (fee page)) as [Hf|Hf]; cbn [negb ensure lift mbind exec_bind].
  { intros next t p C. pose proof (ck_fee _ _ _ _ _ _ _ C). lia. }
  pose proof (continue_guard_iff o page height terminal payout Eb Hc Hm) as Hg. fold payout in Hg.
  match type of Hg with match ?m with _ => _ end => destruct m as [[]|e|] end; cbn [mbind exec_bind]; [|intros next t p C|exact Hg].
  2: { destruct (Hdet _ _ _ C) as [E1 E2]. apply Hg. split.
       - intros Ht. rewrite E1 in Ht. split; [exact (ck_retained _ _ _ _ _ _ _ C Ht)|exact (ck_payout _ _ _ _ _ _ _ C Ht)].
       - intros Hp. rewrite E2 in Hp. exact (ck_recipient _ _ _ _ _ _ _ C Hp). }
  pose proof (execute_contract_cases o page height Ho Hb Hh Hvalid) as He. destruct (execute o page height) as [next|e|]; cbn [mbind exec_bind]; [| |exact He].
  2: { intros next t p C. exact (He next (ck_run _ _ _ _ _ _ _ C)). }
  destruct He as [Hrun Hn].
  assert (Hok : out_owner (output_at page 0) = (if terminal then recipient_at o height else root digest (successor o next)) ->
    call_ok digest o page height next terminal payout).
  { intros Ht. destruct Hg as [Hg1 Hg2]. constructor; auto; intros; now apply Hg1. }
  assert (Hno : forall n t p, call_ok digest o page height n t p ->
    out_owner (output_at page 0) = if terminal then recipient_at o height else root digest (successor o next)).
  { intros n t p C. destruct (Hdet _ _ _ C) as [-> _]. rewrite (runs_det _ _ _ _ _ Hrun (ck_run _ _ _ _ _ _ _ C)). exact (ck_target _ _ _ _ _ _ _ C). }
  destruct terminal; (match goal with |- context [ensure (bool_decide ?P) _] => destruct (bool_decide_reflect P) as [Ht|Ht] end;
    cbn [ensure lift mbind exec_bind]; [|intros n t p C; exact (Ht (Hno _ _ _ C))]).
  - exists next, true, payout. auto.
  - exists next, false, payout. auto.
Qed.
End CheckCall.

(** ** What a call does *)

Definition payout_of (page : TxPage) (payout : bool) : option TxOutput := if payout then Some (output_at page 1) else None.

Section CallShape.
Context (digest : list Z -> list (Z * Z) -> list Z).

Lemma call_shape o page height next terminal payout : body_wf page -> call_ok digest o page height next terminal payout ->
  page = call_body digest o (input_at page 0) (epoch_anchor page) (fee page) (output_at page 0) (payout_of page payout) terminal
  /\ in_amount (input_at page 0) = out_amount (output_at page 0) + out_amount (output_at page 1) + fee page
  /\ (payout = false -> output_at page 1 = TxOutput_dummy).
Proof.
  intros Hb C. pose proof (ck_spend _ _ _ _ _ _ _ C) as Hs. pose proof (ck_bitmap _ _ _ _ _ _ _ C) as Eb. pose proof (ck_close _ _ _ _ _ _ _ C) as Hc.
  pose proof (ck_owner _ _ _ _ _ _ _ C) as Eo. pose proof (vs_balance _ _ Hs) as Hbal. pose proof (vs_shape _ _ Hs) as F. apply Forall_cons_1 in F as [[_ Hu Hdi Hdo] _].
  destruct Hb as [_ _ _ [Hil _] [Hol _] _]. clear C Hs.
  destruct page as [anchor f owner ins outs bitmap cb]. cbn [validity_bitmap input_owner is_coinbase inputs outputs epoch_anchor fee] in *. subst bitmap owner cb.
  destruct ins as [|i0 [|i1 [|i2 [|i3 [|i4 [|i5 [|i6 [|i7 [|]]]]]]]]]; try discriminate Hil. destruct outs as [|o0 [|o1 [|]]]; try discriminate Hol.
  assert (E : i1 = TxInput_dummy /\ i2 = TxInput_dummy /\ i3 = TxInput_dummy /\ i4 = TxInput_dummy /\ i5 = TxInput_dummy /\ i6 = TxInput_dummy /\ i7 = TxInput_dummy).
  { split_and!; [apply (Hdi 1%nat)|apply (Hdi 2%nat)|apply (Hdi 3%nat)|apply (Hdi 4%nat)|apply (Hdi 5%nat)|apply (Hdi 6%nat)|apply (Hdi 7%nat)];
      reflexivity || (destruct terminal, payout; reflexivity). }
  assert (E8 : payout = false -> o1 = TxOutput_dummy) by (intros ->; apply (Hdo 1%nat); [reflexivity|destruct terminal; reflexivity]).
  clear Hdi Hdo Hil Hol. destruct E as (-> & -> & -> & -> & -> & -> & ->). unfold live_total in Hbal.
  destruct payout; [|rewrite (E8 eq_refl) in *]; destruct terminal; try discriminate (Hc eq_refl); (split; [reflexivity|]); (split; [|auto]).
  all: match type of Hbal with Zsum (item_amount <$> ?l) = _ => change l with [mkItem 0 0 true (in_slot_index i0) (in_amount i0)] in Hbal end.
  1: match type of Hbal with _ = Zsum (item_amount <$> ?l) + _ =>
    change l with [mkItem 0 0 true (out_slot_index o0) (out_amount o0); mkItem 0 1 true (out_slot_index o1) (out_amount o1)] in Hbal end.
  2-3: match type of Hbal with _ = Zsum (item_amount <$> ?l) + _ => change l with [mkItem 0 0 true (out_slot_index o0) (out_amount o0)] in Hbal end.
  all: cbn in Hbal; cbn; lia.
Qed.

(** The live records of a call. *)
Lemma call_items o input anchor f first payout (terminal : bool) : (terminal = true -> payout = None) ->
  let page := call_body digest o input anchor f first payout terminal in
  let item k (out : TxOutput) := mkItem 0 k true (out_slot_index out) (out_amount out) in
  validity_bitmap page = call_bitmap terminal (bool_decide (is_Some payout))
  /\ item_live <$> all_inputs [page] = true :: replicate 7 false /\ live_items (all_inputs [page]) = [mkItem 0 0 true (in_slot_index input) (in_amount input)]
  /\ item_live <$> all_outputs [page] = [true; bool_decide (is_Some payout)]
  /\ live_items (all_outputs [page]) = item 0%nat first :: option_list (item 1%nat <$> payout).
Proof. intros Hc. destruct payout as [p|]; destruct terminal; try discriminate (Hc eq_refl); repeat split. Qed.

(** A call with distinct slots that balances is a spend of one page. *)
Lemma call_spend o input anchor f first payout (terminal : bool) : (terminal = true -> payout = None) ->
  NoDup (in_slot_index input :: out_slot_index first :: option_list (out_slot_index <$> payout)) ->
  in_amount input = out_amount first + default 0 (out_amount <$> payout) + f ->
  let page := call_body digest o input anchor f first payout terminal in valid_spend [page] page.
Proof.
  intros Hc Hnd Hbal page. destruct (call_items o input anchor f first payout terminal Hc) as (Eb & Ei & Eli & Eo & Elo). fold page in Eb, Ei, Eli, Eo, Elo.
  constructor; rewrite ?Ei, ?Eli, ?Eo, ?Elo; try reflexivity.
  - cbn. lia.
  - constructor; [|constructor]. constructor; rewrite ?Eb; [destruct terminal, (bool_decide _); split; vm_compute; discriminate || reflexivity|reflexivity| |].
    + intros [|k] x Hx Hbit; [destruct terminal, (bool_decide _); discriminate Hbit|].
      change (inputs page !! S k) with (replicate 7 TxInput_dummy !! k) in Hx. now apply lookup_replicate in Hx as [-> _].
    + intros [|[|k]] x Hx Hbit; [destruct terminal, (bool_decide _); discriminate Hbit| |now rewrite lookup_nil in Hx || discriminate Hx].
      destruct payout; [destruct terminal; discriminate Hbit|]. now injection Hx as <-.
  - intros [|i] pg Hp; [|discriminate]. injection Hp as <-. unfold group_page. rewrite Eb. destruct terminal, (bool_decide _); repeat split; congruence.
  - repeat split.
  - destruct (bool_decide _); repeat split.
  - cbn. lia.
  - unfold live_slots. rewrite Eli, Elo. destruct payout; exact Hnd.
  - destruct payout; reflexivity.
  - unfold live_total. rewrite Eli, Elo. destruct payout; cbn in *; lia.
Qed.

(** ** The commitment binds the opening *)

(** Two openings that collide at one of the three levels. *)
Definition colliding (o o' : ObjectOpening) : Prop :=
  (program o <> program o' /\ code_id digest o = code_id digest o')
  \/ (policy_pairs digest o <> policy_pairs digest o' /\ digest TAG_CNTPOL (policy_pairs digest o) = digest TAG_CNTPOL (policy_pairs digest o'))
  \/ (object_pairs digest o <> object_pairs digest o' /\ root digest o = root digest o').

Hypothesis digest_bytes : forall tag pairs, digest_ok (digest tag pairs).

Lemma root_binds o o' : opening_wf o -> opening_wf o' -> root digest o = root digest o' -> o = o' \/ colliding o o'.
Proof.
  intros H H' E. destruct (decide (object_pairs digest o = object_pairs digest o')) as [E1|]; [|now right; right; right].
  pose proof (f_equal (fun l => nth 0 l (0, 0)) E1) as Ep. pose proof (f_equal (fun l => fst (nth 1 l (0, 0))) E1) as Es. cbn [nth object_pairs fst] in Ep, Es.
  apply digest_fields_inj in Ep; [|apply digest_bytes..]. destruct (decide (policy_pairs digest o = policy_pairs digest o')) as [E2|]; [|now right; right; left].
  assert (N : forall k, nth k (policy_pairs digest o) (0, 0) = nth k (policy_pairs digest o') (0, 0)) by (intros k; now rewrite E2).
  pose proof (N 0%nat) as N0. pose proof (N 1%nat) as N1. pose proof (N 2%nat) as N2. pose proof (N 3%nat) as N3. pose proof (N 4%nat) as N4.
  pose proof (N 5%nat) as N5. pose proof (N 6%nat) as N6. pose proof (N 7%nat) as N7. clear N. cbn [nth policy_pairs rules_fields] in *.
  apply digest_fields_inj in N0; [|apply digest_bytes..].
  destruct (decide (program o = program o')) as [Eg|]; [left|now right; left].
  apply pair_eq in N1 as [Nd N1], N2 as [N2 N2'], N3 as [N3 N3'], N4 as [N4 N4'], N5 as [N5 _], N6 as [N6 N6'], N7 as [N7 N7'].
  assert (L : forall d d', digest_ok d -> digest_ok d' -> (digest_fields d).1 = (digest_fields d').1 -> (digest_fields d).2 = (digest_fields d').2 -> d = d').
  { intros d d' Hd Hd' F1 F2. apply digest_fields_inj; [assumption..|]. now apply injective_projections. }
  destruct H as [_ _ Ha Hb _ Hc Hr _ _ _ _], H' as [_ _ Ha' Hb' _ Hc' Hr' _ _ _ _].
  pose proof (L _ _ Ha Ha' N1 N2) as Ea. pose proof (L _ _ Hb Hb' N2' N3) as Eb. pose proof (L _ _ Hc Hc' N3' N4) as Ecr. pose proof (L _ _ Hr Hr' N4' N5) as Err.
  destruct o as [p1 s1 a1 b1 d1 c1 r1 [m1 m2 m3 m4]], o' as [p1' s1' a1' b1' d1' c1' r1' [m1' m2' m3' m4']].
  cbn [program ob_state claim_authority recovery_authority deadline claim_recipient recovery_recipient rules max_fee min_retained max_payout modes] in *.
  congruence.
Qed.
End CallShape.

(** ** Building calls *)

Section Builder.
Context (hash_tx8x2_leaves : list (Z * Z) -> list Z) (sponge_pairs digest : list Z -> list (Z * Z) -> list Z).
Abbreviation check := (check_call hash_tx8x2_leaves sponge_pairs digest).
Abbreviation build := (build_call_inner hash_tx8x2_leaves sponge_pairs digest).

(** The program does not read the first owner. *)
Lemma execute_owner o input anchor f slot amount w w' payout terminal height :
  execute o (call_body digest o input anchor f (mkTxOutput slot amount w) payout terminal) height
  = execute o (call_body digest o input anchor f (mkTxOutput slot amount w') payout terminal) height.
Proof. reflexivity. Qed.

Lemma build_checks o input slot f anchor height terminal payout page :
  build o input slot f anchor height terminal payout = Return page -> exists t, check o page height = Return t.
Proof.
  intros H. unfold build_call_inner in H. apply exec_bind_inv in H as (? & _ & H). apply exec_bind_inv in H as (amount & _ & H).
  apply exec_bind_inv in H as (owner & _ & H). apply exec_bind_inv in H as (? & _ & H). apply exec_bind_inv in H as (t & Ht & [= <-]). eauto.
Qed.

(** The parts of a page from which the builder makes it again. *)
Definition rebuild (o : ObjectOpening) (page : TxPage) (height : Z) : exec ObjectError TxPage :=
  build o (input_at page 0) (out_slot_index (output_at page 0)) (fee page) (epoch_anchor page) height
    (Z.testbit (validity_bitmap page) 13) (payout_of page (Z.testbit (validity_bitmap page) 9)).

Lemma rebuild_call o page height next terminal payout : opening_wf o -> body_wf page -> u64 height ->
  call_ok digest o page height next terminal payout -> rebuild o page height = Return page.
Proof.
  intros Ho Hb Hh C. destruct (call_shape digest o page height next terminal payout Hb C) as (Ep & Ebal & Hd). unfold rebuild.
  assert (Et : Z.testbit (validity_bitmap page) 13 = terminal /\ Z.testbit (validity_bitmap page) 9 = payout).
  { rewrite (ck_bitmap _ _ _ _ _ _ _ C). pose proof (ck_close _ _ _ _ _ _ _ C) as Hc. destruct terminal, payout; try discriminate (Hc eq_refl); now split. }
  destruct Et as [-> ->]. unfold build_call_inner. rewrite (proj2 (validate_opening_iff o Ho) (ck_opening _ _ _ _ _ _ _ C)). cbn [lift mbind exec_bind].
  assert (Ea : (amount ← checked_sub (in_amount (input_at page 0)) (fee page); checked_sub amount (default 0 (out_amount <$> payout_of page payout)))
               = Some (out_amount (output_at page 0))).
  { assert (Epay : default 0 (out_amount <$> payout_of page payout) = out_amount (output_at page 1)) by (destruct payout; cbn; [reflexivity|now rewrite Hd]).
    rewrite Epay. assert (H0 : u64 (out_amount (output_at page 0)) /\ u64 (out_amount (output_at page 1)) /\ u64 (fee page)).
    { pose proof (from_body_wf page height 0 Hb Hh) as [_ ? ? ? _ _ _ _ _ _]. auto. }
    unfold in_range in H0. unfold checked_sub. destruct (Z.leb_spec (fee page) (in_amount (input_at page 0))); [|lia]. cbn [mbind option_bind].
    destruct (Z.leb_spec (out_amount (output_at page 1)) (in_amount (input_at page 0) - fee page)); [|lia]. f_equal. lia. }
  rewrite Ea. cbn [ok_or lift mbind exec_bind]. destruct (output_at page 0) as [slot amount owner] eqn:E0. cbn [out_slot_index out_amount out_owner] in *.
  assert (Ew : (if terminal then mret (recipient_at o height)
    else next ← execute o (call_body digest o (input_at page 0) (epoch_anchor page) (fee page) (mkTxOutput slot amount ZERO_DIGEST) (payout_of page payout) terminal) height;
         mret (root digest (successor o next))) = (Return owner : exec ObjectError (list Z))).
  { pose proof (ck_target _ _ _ _ _ _ _ C) as Ht. rewrite E0 in Ht. cbn [out_owner] in Ht. rewrite Ht. destruct terminal; [reflexivity|].
    rewrite (execute_owner o _ _ _ _ _ ZERO_DIGEST owner), <- Ep.
    pose proof (execute_contract_cases o page height Ho Hb Hh (ck_opening _ _ _ _ _ _ _ C)) as He.
    destruct (execute o page height) as [n|e|]; [|destruct (He next (ck_run _ _ _ _ _ _ _ C))|contradiction]. cbn [mbind exec_bind].
    now rewrite (runs_det _ _ _ _ _ (proj1 He) (ck_run _ _ _ _ _ _ _ C)). }
  rewrite Ew. cbn [mbind exec_bind]. rewrite <- Ep.
  pose proof (vs_shape _ _ (ck_spend _ _ _ _ _ _ _ C)) as F. apply Forall_cons_1 in F as [F _].
  rewrite (proj2 (validate_page_shape_iff page 0 Hb) F). cbn [map_err lift mbind exec_bind].
  pose proof (check_call_cases hash_tx8x2_leaves sponge_pairs digest o page height Ho Hb Hh) as Hc.
  destruct (check o page height); [reflexivity|destruct (Hc _ _ _ C)|contradiction].
Qed.

(** Whatever the terms allow can be built. *)
Lemma build_allowed o input slot f anchor height (terminal : bool) payout amount next :
  let page := call_body digest o input anchor f
    (mkTxOutput slot amount (if terminal then recipient_at o height else root digest (successor o next))) payout terminal in
  opening_wf o -> valid_opening o -> u64 height -> body_wf page -> (terminal = true -> payout = None) ->
  NoDup (in_slot_index input :: slot :: option_list (out_slot_index <$> payout)) ->
  in_amount input = amount + default 0 (out_amount <$> payout) + f ->
  Z.testbit (modes (rules o)) (mode_bit (height <? deadline o) terminal) = true -> f <= max_fee (rules o) ->
  (terminal = false -> min_retained (rules o) <= amount /\ default 0 (out_amount <$> payout) <= max_payout (rules o)) ->
  (forall p, payout = Some p -> Z.testbit (modes (rules o)) 4 = true \/ out_owner p = recipient_at o height) ->
  runs_to o page height next -> build o input slot f anchor height terminal payout = Return page.
Proof.
  intros page Ho Hv Hh Hb Hc Hnd Hbal Hm Hf Hlim Hrec Hrun.
  assert (C : call_ok digest o page height next terminal (bool_decide (is_Some payout))).
  { constructor; try assumption.
    - now apply call_spend.
    - now apply call_items.
    - intros Ht. now rewrite (Hc Ht).
    - reflexivity.
    - intros Ht. now apply Hlim.
    - intros Ht. destruct (Hlim Ht) as [_ H]. now destruct payout.
    - intros Hp. apply bool_decide_eq_true in Hp as [p ->]. now apply Hrec.
    - reflexivity. }
  pose proof (rebuild_call o page height next terminal _ Ho Hb Hh C) as H. unfold rebuild in H.
  destruct payout as [p|]; destruct terminal; try discriminate (Hc eq_refl); exact H.
Qed.

Lemma rebuild_iff o page height : opening_wf o -> body_wf page -> u64 height ->
  (exists t, check o page height = Return t) <-> rebuild o page height = Return page.
Proof.
  intros Ho Hb Hh. split; [|apply build_checks]. intros [t Ht].
  pose proof (check_call_cases hash_tx8x2_leaves sponge_pairs digest o page height Ho Hb Hh) as Hc. rewrite Ht in Hc.
  destruct Hc as (next & terminal & payout & C & _). exact (rebuild_call o page height next terminal payout Ho Hb Hh C).
Qed.
End Builder.

(** ** The life of a contract *)

(** What the terms of [o] allow a continuing call to do. *)
Record call_terms (o : ObjectOpening) (page : TxPage) (height : Z) (t : CheckedTransition) : Prop := {
  tm_fee : fee page <= max_fee (rules o);
  tm_payout : out_amount (output_at page 1) <= max_payout (rules o);
  tm_retained : min_retained (rules o) <= out_amount (output_at page 0);
  tm_mode : Z.testbit (modes (rules o)) (mode_bit (height <? deadline o) false) = true;
  tm_recipient : output_at page 1 <> TxOutput_dummy -> Z.testbit (modes (rules o)) 4 = true \/ out_owner (output_at page 1) = recipient_at o height;
  tm_authority : ct_authority t = authority_at o height
}.

Definition debit (page : TxPage) : Z := out_amount (output_at page 1) + fee page.

Section Lifecycle.
Context (hash_tx8x2_leaves : list (Z * Z) -> list Z) (sponge_pairs digest : list Z -> list (Z * Z) -> list Z).
Abbreviation check := (check_call hash_tx8x2_leaves sponge_pairs digest).
Context (o0 : ObjectOpening) (a0 : Z).

(** A funded instance and the continuing calls that spent it in turn, last first.
    The state of the chain fixes the amount and the owner of the input; the
    opening is whatever the caller presents for that owner. *)
Inductive lifecycle : list (ObjectOpening * ObjectOpening) -> list (TxPage * Z * CheckedTransition) -> ObjectOpening -> Z -> Prop :=
| life_funded : lifecycle [] [] o0 a0
| life_call presented calls o a o' page height t : lifecycle presented calls o a -> opening_wf o' -> body_wf page -> u64 height ->
    in_amount (input_at page 0) = a -> input_owner page = root digest o -> check o' page height = Return t -> ct_terminal t = false ->
    lifecycle ((o, o') :: presented) ((page, height, t) :: calls) (successor o' (ct_next t)) (out_amount (output_at page 0)).

Hypothesis digest_bytes : forall tag pairs, digest_ok (digest tag pairs).
Hypothesis funded : opening_wf o0.

Lemma successor_wf o next : opening_wf o -> u128 next -> opening_wf (successor o next).
Proof. intros [A1 A2 A3 A4 A5 A6 A7 A8 A9 A10 A11] Hn. now constructor. Qed.

(** One call, with the opening of the instance. *)
Lemma call_step o a page height t : opening_wf o -> body_wf page -> u64 height -> in_amount (input_at page 0) = a -> check o page height = Return t ->
  a = out_amount (output_at page 0) + debit page /\ fee page <= max_fee (rules o) /\ u128 (ct_next t) /\ ct_authority t = authority_at o height
  /\ runs_to o page height (ct_next t)
  /\ if ct_terminal t then output_at page 1 = TxOutput_dummy /\ out_owner (output_at page 0) = recipient_at o height
       /\ Z.testbit (modes (rules o)) (mode_bit (height <? deadline o) true) = true
     else call_terms o page height t /\ out_owner (output_at page 0) = root digest (successor o (ct_next t)).
Proof.
  intros Ho Hb Hh Ha Ht. pose proof (check_call_cases hash_tx8x2_leaves sponge_pairs digest o page height Ho Hb Hh) as Hc. rewrite Ht in Hc.
  destruct Hc as (next & terminal & payout & C & -> & Hn). destruct (call_shape digest o page height next terminal payout Hb C) as (_ & Ebal & Hd).
  unfold checked, debit. cbn [ct_next ct_authority ct_terminal]. split; [lia|]. split; [exact (ck_fee _ _ _ _ _ _ _ C)|]. split; [exact Hn|]. split; [reflexivity|].
  split; [exact (ck_run _ _ _ _ _ _ _ C)|].
  destruct terminal.
  - split; [exact (Hd (ck_close _ _ _ _ _ _ _ C eq_refl))|]. split; [exact (ck_target _ _ _ _ _ _ _ C)|exact (ck_mode _ _ _ _ _ _ _ C)].
  - split; [|exact (ck_target _ _ _ _ _ _ _ C)]. constructor.
    + exact (ck_fee _ _ _ _ _ _ _ C).
    + exact (ck_payout _ _ _ _ _ _ _ C eq_refl).
    + exact (ck_retained _ _ _ _ _ _ _ C eq_refl).
    + exact (ck_mode _ _ _ _ _ _ _ C).
    + intros Hne. apply (ck_recipient _ _ _ _ _ _ _ C). destruct payout; [reflexivity|]. now destruct Hne; apply Hd.
    + reflexivity.
Qed.

(** The opening presented for an owner is the one committed to. *)
Lemma presented_same o o' page height t : opening_wf o -> opening_wf o' -> body_wf page -> u64 height -> ~ colliding digest o o' ->
  input_owner page = root digest o -> check o' page height = Return t -> o' = o.
Proof.
  intros Ho Ho' Hb Hh Hn Eo Ht. pose proof (check_call_cases hash_tx8x2_leaves sponge_pairs digest o' page height Ho' Hb Hh) as Hc. rewrite Ht in Hc.
  destruct Hc as (next & terminal & payout & C & _). pose proof (ck_owner _ _ _ _ _ _ _ C) as Eo'.
  destruct (root_binds digest digest_bytes o o' Ho Ho') as [->|H]; [congruence|reflexivity|contradiction].
Qed.

Lemma lifecycle_ok presented calls o a : lifecycle presented calls o a -> (forall p, p ∈ presented -> ~ colliding digest p.1 p.2) ->
  opening_wf o /\ o = successor o0 (ob_state o) /\ a0 = a + Zsum ((fun c => debit c.1.1) <$> calls)
  /\ Forall (fun c => call_terms o0 c.1.1 c.1.2 c.2) calls.
Proof.
  induction 1 as [|presented calls o a o' page height t Hl IH Ho' Hb Hh Ea Eo Ht Hterm]; intros Hn.
  { split; [exact funded|]. split; [now destruct o0|]. split; [cbn; lia|constructor]. }
  destruct IH as (Ho & Es & Esum & Hall); [intros p Hp; apply Hn; now right|].
  pose proof (Hn (o, o') ltac:(left)) as Hnc. pose proof (presented_same o o' page height t Ho Ho' Hb Hh Hnc Eo Ht) as ->.
  destruct (call_step o a page height t Ho Hb Hh Ea Ht) as (Hbal & _ & Hnext & _ & _ & H). rewrite Hterm in H. destruct H as [Hterms _].
  split; [now apply successor_wf|]. split; [rewrite Es; reflexivity|]. split; [cbn [fmap list_fmap fst snd Zsum foldr] in *; fold (Zsum ((fun c => debit c.1.1) <$> calls)) in *; lia|].
  constructor; [|exact Hall]. cbn [fst snd]. rewrite Es in Hterms. destruct Hterms as [A1 A2 A3 A4 A5 A6]. now constructor.
Qed.

(** What holds of the funded instance and is kept by every call holds for life. *)
Lemma lifecycle_invariant (P : list (TxPage * Z * CheckedTransition) -> Z -> Z -> Prop) presented calls o a :
  lifecycle presented calls o a -> (forall p, p ∈ presented -> ~ colliding digest p.1 p.2) ->
  P [] (ob_state o0) a0 ->
  (forall calls s page height t, P calls s (out_amount (output_at page 0) + debit page) -> body_wf page -> u64 height -> call_terms o0 page height t ->
     runs_to (successor o0 s) page height (ct_next t) -> P ((page, height, t) :: calls) (ct_next t) (out_amount (output_at page 0))) ->
  P calls (ob_state o) a.
Proof.
  intros Hl Hn H0 Hstep. induction Hl as [|presented calls o a o' page height t Hl IH Ho' Hb Hh Ea Eo Ht Hterm]; [exact H0|].
  assert (Hn' : forall p, p ∈ presented -> ~ colliding digest p.1 p.2) by (intros p Hp; apply Hn; now right). specialize (IH Hn').
  destruct (lifecycle_ok presented calls o a Hl Hn') as (Ho & Es & _ & _).
  pose proof (presented_same o o' page height t Ho Ho' Hb Hh (Hn (o, o') ltac:(left)) Eo Ht) as ->.
  destruct (call_step o a page height t Ho Hb Hh Ea Ht) as (Hbal & _ & _ & _ & Hrun & H). rewrite Hterm in H. destruct H as [[A1 A2 A3 A4 A5 A6] _].
  cbn [ob_state successor]. apply (Hstep calls (ob_state o)); [now rewrite <- Hbal|exact Hb|exact Hh| |now rewrite <- Es].
  rewrite Es in A1, A2, A3, A4, A5, A6. now constructor.
Qed.
End Lifecycle.

(** ** The wire forms *)

#[export] Instance lawful_pair : LawfulCodec put_pair take_pair (fun p => u128 p.1 /\ u128 p.2).
Proof.
  split.
  - intros [a b] rest [Ha Hb]. unfold put_pair, take_pair. codec_print. reflexivity.
  - intros bs [a b] rest Hb H. unfold take_pair in H. codec_parse H. injection H as <- <- <-. unfold put_pair. cbn [fst snd]. rewrite <- app_assoc. auto.
Qed.

#[export] Instance lawful_opening : LawfulCodec opening_fields take_opening opening_wf.
Proof.
  split.
  - intros o rest [[Hl Hp] Hs H1 H2 H3 H4 H5 H6 H7 H8 H9]. unfold opening_fields, take_opening. codec_print. now destruct o as [? ? ? ? ? ? ? []].
  - intros bs o rest Hb H. unfold take_opening in H. codec_parse H. injection H as <- <-. split; [unfold opening_fields; now rewrite <- !app_assoc|].
    now constructor.
Qed.

Lemma length_opening_fields o : opening_wf o -> length (opening_fields o) = 689%nat.
Proof.
  intros [[Hl Hp] _ [H1 _] [H2 _] _ [H3 _] [H4 _] _ _ _ _]. unfold opening_fields, put_bytes, put_uint. rewrite !length_app, !length_to_le_bytes, H1, H2, H3, H4.
  rewrite (length_put_many _ _ 32), Hl by (apply Forall_forall; intros p _; unfold put_pair, put_uint; now rewrite length_app, !length_to_le_bytes). reflexivity.
Qed.

Definition opening_bytes (o : ObjectOpening) : list Z := OPENING_MAGIC ++ to_le_bytes 2 OBJECT_VERSION ++ opening_fields o.

Lemma opening_bytes_ok o : opening_wf o -> bytes_ok (opening_bytes o).
Proof.
  intros [_ _ [_ A1] [_ A2] _ [_ A3] [_ A4] _ _ _ _]. unfold opening_bytes, opening_fields, put_bytes, put_uint.
  assert (Hle : forall n z, bytes_ok (to_le_bytes n z)) by (intros n z; apply to_le_bytes_array).
  assert (Hp : bytes_ok (put_many put_pair (program o))).
  { unfold put_many. induction (program o) as [|p l IH]; [constructor|]. rewrite bind_cons. apply bytes_ok_app. split; [|exact IH]. apply bytes_ok_app. split; apply Hle. }
  rewrite !bytes_ok_app. repeat split; try apply Hle; try assumption. unfold OPENING_MAGIC, bytes_ok, byte_ok, in_range. repeat constructor; lia.
Qed.

Lemma Opening_to_bytes_iff o bytes : opening_wf o -> Opening_to_bytes o = Ok bytes <-> valid_opening o /\ bytes = opening_bytes o.
Proof.
  intros Hw. unfold Opening_to_bytes. rewrite <- (validate_opening_iff o Hw). destruct (Opening_validate o) as [[]|e]; cbn [mbind result_bind].
  - split; [intros [= <-]; auto|intros [_ ->]; reflexivity].
  - split; [discriminate|intros [? _]; discriminate].
Qed.

Lemma Opening_from_bytes_iff bytes o : bytes_ok bytes -> Opening_from_bytes bytes = Ok o <-> opening_wf o /\ valid_opening o /\ bytes = opening_bytes o.
Proof.
  intros Hb. unfold Opening_from_bytes. split.
  - intros H. apply bind_ok_inv in H as (u & H1 & H). apply bind_ok_inv in H as (u' & H2 & H). apply ensure_ok_iff in H1, H2. clear u u'.
    rewrite negb_orb, !negb_involutive in H1. apply andb_prop in H1 as [Hl Hm]. apply Z.eqb_eq in Hl, H2. apply bool_decide_eq_true in Hm. change OPENING_BYTES with 699 in Hl.
    apply bind_ok_inv in H as (o' & H3 & H). apply bind_ok_inv in H as (u & H4 & [= <-]).
    destruct (take_opening (drop 10 bytes)) as [[o'' rest]|e] eqn:E; [|discriminate]. cbn in H3. injection H3 as ->.
    apply codec_parse_print in E as [E Hw]; [|now apply Forall_drop]. split; [exact Hw|]. split; [destruct u; now apply validate_opening_iff|].
    assert (Er : rest = []).
    { apply nil_length_inv. apply (f_equal length) in E. rewrite length_drop, length_app, (length_opening_fields _ Hw) in E. lia. }
    rewrite Er, app_nil_r in E. unfold opening_bytes. rewrite <- (take_drop 8 bytes), Hm. f_equal. assert (E2 : drop 2 (drop 8 bytes) = opening_fields o') by (rewrite drop_drop; exact E).
    rewrite <- (take_drop 2 (drop 8 bytes)), E2. f_equal.
    rewrite <- H2. symmetry. assert (L : length (take 2 (drop 8 bytes)) = 2%nat) by (rewrite length_take, length_drop; lia).
    rewrite <- L at 1. apply to_from_le_bytes. now apply Forall_take, Forall_drop.
  - intros (Hw & Hv & ->). unfold opening_bytes.
    assert (El : Z.of_nat (length (OPENING_MAGIC ++ to_le_bytes 2 OBJECT_VERSION ++ opening_fields o)) =? OPENING_BYTES = true).
    { rewrite !length_app, length_to_le_bytes, (length_opening_fields _ Hw). reflexivity. }
    rewrite El. cbn [app take OPENING_MAGIC]. rewrite bool_decide_eq_true_2 by reflexivity. cbn [negb orb ensure mbind result_bind].
    change (drop 8 _) with (to_le_bytes 2 OBJECT_VERSION ++ opening_fields o). change (drop 10 _) with (opening_fields o).
    change (take 2 _) with (to_le_bytes 2 OBJECT_VERSION). change (from_le_bytes (to_le_bytes 2 OBJECT_VERSION) =? OBJECT_VERSION) with true. cbn [ensure mbind result_bind].
    rewrite <- (app_nil_r (opening_fields o)), codec_print_parse by exact Hw. cbn. now rewrite (proj2 (validate_opening_iff o Hw) Hv).
Qed.

Section IntentWire.
Context (hash_tx8x2_leaves : list (Z * Z) -> list Z) (sponge_pairs : list Z -> list (Z * Z) -> list Z).

Lemma intent_iff bytes i : bytes_ok bytes ->
  ObjectIntent_from_bytes hash_tx8x2_leaves sponge_pairs bytes = Ok i
  <-> opening_wf (oi_opening i) /\ Forall body_wf (intent_pages (oi_spend i)) /\ bytes_ok (authorization_bytes (oi_spend i))
      /\ ObjectIntent_to_bytes hash_tx8x2_leaves sponge_pairs i = Ok bytes.
Proof.
  intros Hb. unfold ObjectIntent_from_bytes, ObjectIntent_to_bytes. change (Z.to_nat INTENT_PREFIX_BYTES) with 707%nat.
  change (INTENT_PREFIX_BYTES + 330) with 1037. change MAX_INTENT_BYTES with 263181. change (length INTENT_MAGIC) with 8%nat. split.
  - intros H. apply bind_ok_inv in H as (u & H1 & H). apply bind_ok_inv in H as (u' & H2 & H). apply ensure_ok_iff in H1, H2. clear u u'.
    rewrite !negb_orb, negb_involutive in H1. apply andb_prop in H1 as [H1 Hm]. apply andb_prop in H1 as [Hlo Hhi]. apply bool_decide_eq_true in Hm, H2.
    apply negb_true_iff, Z.ltb_ge in Hlo, Hhi.
    apply bind_ok_inv in H as (o & Ho & H). apply bind_ok_inv in H as (s & Hs & [= <-]). cbn [oi_opening oi_spend].
    apply Opening_from_bytes_iff in Ho as (Hw & Hv & Eo); [|now apply Forall_take, Forall_drop].
    apply map_err_ok_iff in Hs. apply intent_wire_bijection in Hs as (Hp & Ha & He); [|now apply Forall_drop].
    split; [exact Hw|]. split; [exact Hp|]. split; [exact Ha|].
    rewrite (proj2 (Opening_to_bytes_iff o _ Hw) (conj Hv Eo)), He. cbn [map_err mbind result_bind].
    apply encode_iff in He as [Hi Ei]; [|assumption..].
    assert (El : length (intent_pages s) = 1%nat).
    { rewrite Ei in H2. unfold intent_bytes, put_bytes in H2. cbn [app drop] in H2. unfold put_u16, put_uint in H2.
      change (drop 0 ?l) with l in H2. rewrite take_app_length' in H2 by now rewrite length_to_le_bytes. apply (f_equal from_le_bytes) in H2.
      destruct (iw_valid _ Hi) as [first Hvs]. pose proof (vs_count _ _ Hvs).
      rewrite !from_to_le_bytes, !Z.mod_small in H2 by (cbn; lia). lia. }
    rewrite El. cbn [Nat.eqb ensure mbind result_bind]. f_equal. rewrite <- Hm at 1.
    rewrite <- (take_drop 8 bytes) at 4. f_equal. rewrite <- (take_drop 699 (drop 8 bytes)) at 2. f_equal. now rewrite drop_drop.
  - intros (Hw & Hp & Ha & H). apply bind_ok_inv in H as (u & H1 & H). apply ensure_ok_iff, Nat.eqb_eq in H1.
    apply bind_ok_inv in H as (ob & H2 & H). apply bind_ok_inv in H as (sb & H3 & H). assert (E : bytes = INTENT_MAGIC ++ ob ++ sb) by congruence. subst bytes. clear H. apply map_err_ok_iff in H3.
    apply (Opening_to_bytes_iff _ _ Hw) in H2 as [Hv ->]. pose proof H3 as H3'. apply encode_iff in H3' as [Hi Ei]; [|assumption..].
    apply bytes_ok_app in Hb as [_ Hb]. apply bytes_ok_app in Hb as [Hob Hsb].
    assert (Lo : length (opening_bytes (oi_opening i)) = 699%nat) by (unfold opening_bytes; rewrite !length_app, length_to_le_bytes, length_opening_fields by exact Hw; reflexivity).
    assert (Ls : Z.of_nat (length sb) = 330 + Z.of_nat (length (authorization_bytes (oi_spend i)))).
    { rewrite Ei. unfold intent_bytes, put_bytes. rewrite !length_app, (length_put_many _ _ TX_BODY_WIRE_SIZE).
      2: { eapply Forall_impl; [apply length_encode_page_body|exact Hp]. }
      unfold put_u16, put_u32, put_uint. rewrite !length_to_le_bytes, H1. cbn [length]. change TX_BODY_WIRE_SIZE with 323%nat. lia. }
    pose proof (iw_auth_len _ Hi) as Hal. unfold MAX_TX_AUTHORIZATION_BYTES in Hal.
    assert (Ln : Z.of_nat (length (INTENT_MAGIC ++ opening_bytes (oi_opening i) ++ sb)) = 707 + Z.of_nat (length sb)) by (rewrite !length_app, Lo; cbn [length INTENT_MAGIC]; lia).
    rewrite Ln. destruct (Z.ltb_spec (707 + Z.of_nat (length sb)) 1037); [lia|]. destruct (Z.ltb_spec 263181 (707 + Z.of_nat (length sb))); [lia|].
    rewrite (take_app_length' INTENT_MAGIC) by reflexivity. rewrite (bool_decide_eq_true_2 (INTENT_MAGIC = INTENT_MAGIC)) by reflexivity. cbn [negb orb ensure mbind result_bind].
    assert (D : drop 707 (INTENT_MAGIC ++ opening_bytes (oi_opening i) ++ sb) = sb) by (rewrite app_assoc; apply drop_app_length'; rewrite length_app, Lo; reflexivity).
    rewrite D, (drop_app_length' INTENT_MAGIC) by reflexivity. change (707 - 8)%nat with 699%nat. rewrite (take_app_length' (opening_bytes _)) by now rewrite Lo.
    rewrite bool_decide_eq_true_2.
    2: { rewrite Ei. unfold intent_bytes, put_bytes. cbn [app drop]. unfold put_u16, put_uint. change (drop 0 ?l) with l. rewrite take_app_length' by now rewrite length_to_le_bytes. now rewrite H1. }
    cbn [ensure mbind result_bind]. rewrite (proj2 (Opening_from_bytes_iff _ _ Hob) (conj Hw (conj Hv eq_refl))). cbn [mbind result_bind].
    rewrite (proj2 (intent_wire_bijection _ _ sb (oi_spend i) Hsb) (conj Hp (conj Ha H3))). cbn. now destruct i.
Qed.
End IntentWire.

Lemma pairs_digest_bytes tag pairs : digest_ok (pairs_digest tag pairs).
Proof.
  unfold pairs_digest, finalize_no_pad, squeeze_32. generalize (sp_state (foldl (fun s p => absorb_pair permute_mut s p.1 p.2) (with_iv (capacity_iv tag)) pairs)). intros l.
  destruct (to_le_bytes_array 16 (nth 0 l 0)) as [L1 B1], (to_le_bytes_array 16 (nth 1 l 0)) as [L2 B2].
  split; [rewrite length_app, L1, L2; reflexivity|now apply Forall_app].
Qed.

(** ** Properties *)

(** C9. Contract calls are checked exactly.  For an opening, a body and a height
    within their types, [check_call] never panics; it accepts precisely a single
    canonical page whose bitmap has one of the three call shapes, whose input
    belongs to the committed opening, which the branch of the deadline permits,
    whose fee, retained amount, payout and payout recipient obey the rules, whose
    program runs, and whose first output belongs to the successor or, on closing,
    to the recipient of the branch.  It then returns the new state, the context
    fields and the authority of the branch.  No amount has to be positive: a live
    output, and the retained value where the rules set no reserve, may be zero
    ([zero_output_accepted]), although the documentation of the lifecycle excludes
    it. *)
Theorem check_call_exact hash sponge digest (o : ObjectOpening) (page : TxPage) (height : Z) :
  opening_wf o -> body_wf page -> u64 height ->
  match check_call hash sponge digest o page height with
  | Return t => exists next terminal payout, call_ok digest o page height next terminal payout
      /\ t = mkChecked next (transaction_contexts page) (authority_at o height) terminal /\ u128 next
  | Fail _ => forall next terminal payout, ~ call_ok digest o page height next terminal payout
  | Panic => False
  end.
Proof. exact (check_call_cases hash sponge digest o page height). Qed.

Definition example_opening : ObjectOpening :=
  mkOpening ((to_fields <$> example_code) ++ replicate 14 (0, 0)) 41 (replicate 32 1) (replicate 32 2) 100 (replicate 32 3) (replicate 32 4)
    (mkRules 10 5 20 (Z.lor CLAIM_CONTINUE RECOVERY_CLOSE)).

Definition example_digest (tag : list Z) (pairs : list (Z * Z)) : list Z := replicate 32 7.

Definition example_call : TxBody :=
  mkTxBody (replicate 32 9) 3 (replicate 32 7) (mkTxInput 4 50 1 :: replicate 7 TxInput_dummy)
    [mkTxOutput 5 37 (replicate 32 7); mkTxOutput 6 10 (replicate 32 3)] (call_bitmap false true) false.

(** A closed field is within its type. *)
Ltac field_ok :=
  lazymatch goal with
  | |- in_range _ _ => split; vm_compute; discriminate || reflexivity
  | |- array_ok _ _ => split; [reflexivity|apply Forall_replicate; unfold byte_ok, in_range; lia]
  | |- _ => idtac
  end.

Lemma example_opening_wf : opening_wf example_opening.
Proof.
  constructor; field_ok. split; [reflexivity|]. cbn [program example_opening]. apply Forall_app. split; [|apply Forall_replicate; cbn; unfold in_range; lia].
  repeat first [apply Forall_nil_2 | apply Forall_cons_2; [split; split; vm_compute; discriminate || reflexivity|]].
Qed.

Lemma example_call_wf : body_wf example_call.
Proof.
  constructor; field_ok; (split; [reflexivity|]).
  - constructor; [repeat split; cbn; lia|]. apply Forall_replicate. repeat split; cbn; lia.
  - constructor; [|constructor; [|constructor]]; (split; [field_ok|]; split; field_ok).
Qed.

Lemma example_call_checks : exists t, check_call (fun _ => []) (fun _ _ => []) example_digest example_opening example_call 9 = Return t
  /\ ct_next t = 42 /\ ct_terminal t = false.
Proof. eexists. split; [vm_compute; reflexivity|]. now split. Qed.

Lemma check_call_exact_witness : exists terminal payout, call_ok example_digest example_opening example_call 9 42 terminal payout.
Proof.
  destruct example_call_checks as (t & E & En & _).
  pose proof (check_call_exact (fun _ => []) (fun _ _ => []) example_digest example_opening example_call 9 example_opening_wf example_call_wf ltac:(unfold in_range; lia)) as H.
  rewrite E in H. destruct H as (next & terminal & payout & C & -> & _). cbn in En. subst next. eauto.
Defined.

(** A closing call whose fee takes the whole balance is accepted: its live output
    is worth zero.  So is a continuing call that leaves a contract of value zero. *)
Definition example_empty_close : TxBody :=
  mkTxBody (replicate 32 9) 10 (replicate 32 7) (mkTxInput 4 10 1 :: replicate 7 TxInput_dummy)
    [mkTxOutput 5 0 (replicate 32 4); TxOutput_dummy] (call_bitmap true false) false.

Definition example_empty_keep : TxBody :=
  mkTxBody (replicate 32 9) 10 (replicate 32 7) (mkTxInput 4 10 1 :: replicate 7 TxInput_dummy)
    [mkTxOutput 5 0 (replicate 32 7); TxOutput_dummy] (call_bitmap false false) false.

Definition example_unreserved : ObjectOpening :=
  mkOpening (program example_opening) 41 (replicate 32 1) (replicate 32 2) 100 (replicate 32 3) (replicate 32 4) (mkRules 10 0 0 CLAIM_CONTINUE).

Lemma zero_output_accepted :
  (exists t, check_call (fun _ => []) (fun _ _ => []) example_digest example_opening example_empty_close 100 = Return t /\ ct_terminal t = true)
  /\ (exists t, check_call (fun _ => []) (fun _ _ => []) example_digest example_unreserved example_empty_keep 9 = Return t /\ ct_terminal t = false)
  /\ (out_amount ∘ snd <$> live_outputs example_empty_close) = [0] /\ (out_amount ∘ snd <$> live_outputs example_empty_keep) = [0].
Proof. split; [|split; [|now split]]; (eexists; split; [vm_compute; reflexivity|reflexivity]). Qed.

(** C16. The builder makes exactly the acceptable calls.  A page is accepted at a
    height precisely when the builder, given its input, output slot, fee, anchor,
    kind and payout, returns that very page: everything it builds passes the
    check, and no acceptable call is out of its reach, although it runs the
    program before the first owner is known. *)
Theorem builder_complete hash sponge digest (o : ObjectOpening) (page : TxPage) (height : Z) :
  opening_wf o -> body_wf page -> u64 height ->
  (exists t, check_call hash sponge digest o page height = Return t)
  <-> build_call_inner hash sponge digest o (input_at page 0) (out_slot_index (output_at page 0)) (fee page) (epoch_anchor page) height
        (Z.testbit (validity_bitmap page) 13) (if Z.testbit (validity_bitmap page) 9 then Some (output_at page 1) else None) = Return page.
Proof. exact (rebuild_iff hash sponge digest o page height). Qed.

Lemma builder_complete_witness :
  build_call_inner (fun _ => []) (fun _ _ => []) example_digest example_opening (mkTxInput 4 50 1) 5 3 (replicate 32 9) 9 false
    (Some (mkTxOutput 6 10 (replicate 32 3))) = Return example_call.
Proof.
  destruct example_call_checks as (t & E & _).
  exact (proj1 (builder_complete (fun _ => []) (fun _ _ => []) example_digest example_opening example_call 9 example_opening_wf example_call_wf
    ltac:(unfold in_range; lia)) (ex_intro _ t E)).
Defined.

(** C14. The terms of a contract hold for its whole life.  Take an instance funded
    with amount [a0] under opening [o0] and any sequence of continuing calls, each
    spending the output of the one before it under whatever opening its caller
    presents.  Unless an opening presented for a commitment collides with the
    committed one in the hash, only the state of the opening ever changes; every
    call obeys the rules, the branch and the authority of [o0]; the value is the
    funding less the payouts and fees, and at least the reserve.  A closing call
    then pays all of it but the fee to the recipient of its branch. *)
Theorem contract_lifecycle hash sponge digest (o0 : ObjectOpening) (a0 : Z) presented calls (o : ObjectOpening) (a : Z) :
  (forall tag pairs, digest_ok (digest tag pairs)) -> opening_wf o0 ->
  lifecycle hash sponge digest o0 a0 presented calls o a -> (forall p, p ∈ presented -> ~ colliding digest p.1 p.2) ->
  o = successor o0 (ob_state o) /\ a = a0 - Zsum ((fun c => debit c.1.1) <$> calls) /\ Forall (fun c => call_terms o0 c.1.1 c.1.2 c.2) calls
  /\ (calls <> [] -> min_retained (rules o0) <= a)
  /\ forall page height t, body_wf page -> u64 height -> in_amount (input_at page 0) = a -> check_call hash sponge digest o page height = Return t ->
       ct_terminal t = true -> output_at page 1 = TxOutput_dummy /\ out_owner (output_at page 0) = recipient_at o0 height
       /\ out_amount (output_at page 0) = a - fee page /\ fee page <= max_fee (rules o0) /\ ct_authority t = authority_at o0 height.
Proof.
  intros Hd H0 Hl Hn. destruct (lifecycle_ok hash sponge digest o0 a0 Hd H0 presented calls o a Hl Hn) as (Ho & Es & Ea & Hall).
  split; [exact Es|]. split; [lia|]. split; [exact Hall|]. split.
  - intros Hne. destruct Hl as [|presented calls o a o' page height t Hl Ho' Hb Hh E1 E2 E3 E4]; [contradiction|].
    apply Forall_cons_1 in Hall as [T _]. exact (tm_retained _ _ _ _ T).
  - intros page height t Hb Hh Hin Ht Hterm.
    destruct (call_step hash sponge digest o a page height t Ho Hb Hh Hin Ht) as (Hbal & Hf & _ & Hau & _ & H). rewrite Hterm in H. destruct H as (H1 & H2 & _).
    rewrite Es in Hf, Hau, H2. unfold debit in Hbal. rewrite H1 in Hbal. cbn [out_amount TxOutput_dummy] in Hbal. repeat split; try assumption; lia.
Qed.

Lemma contract_lifecycle_witness : exists t, ct_next t = 42
  /\ 37 = 50 - Zsum ((fun c : TxPage * Z * CheckedTransition => debit c.1.1) <$> [(example_call, 9, t)]).
Proof.
  destruct example_call_checks as (t & E & En & Et). exists t. split; [exact En|].
  assert (L : lifecycle (fun _ => []) (fun _ _ => []) example_digest example_opening 50 [(example_opening, example_opening)] [(example_call, 9, t)] (successor example_opening (ct_next t)) 37).
  { apply (life_call _ _ _ example_opening 50 [] [] example_opening 50 example_opening example_call 9 t);
      [constructor|exact example_opening_wf|exact example_call_wf|unfold in_range; lia|reflexivity|reflexivity|exact E|exact Et]. }
  refine (proj1 (proj2 (contract_lifecycle (fun _ => []) (fun _ _ => []) example_digest example_opening 50 _ _ _ _ _ example_opening_wf L _))).
  - intros tag pairs. split; [reflexivity|apply Forall_replicate; unfold byte_ok, in_range; lia].
  - intros p Hp. apply list_elem_of_singleton in Hp as ->. unfold colliding. tauto.
Defined.

(** Openings and contract intents have one encoding each.  [from_bytes]
    returns an opening, or an intent, precisely for the bytes [to_bytes] writes
    for it, its fields being within their types; the fixed length, the early
    page-count test and the length bounds reject nothing that can be written. *)
Theorem contract_wire_bijection hash sponge (bytes : list Z) :
  bytes_ok bytes ->
  (forall o, Opening_from_bytes bytes = Ok o <-> opening_wf o /\ Opening_to_bytes o = Ok bytes)
  /\ forall i, ObjectIntent_from_bytes hash sponge bytes = Ok i
       <-> opening_wf (oi_opening i) /\ Forall body_wf (intent_pages (oi_spend i)) /\ bytes_ok (authorization_bytes (oi_spend i))
           /\ ObjectIntent_to_bytes hash sponge i = Ok bytes.
Proof.
  intros Hb. split; [|intros i; now apply intent_iff]. intros o. rewrite (Opening_from_bytes_iff bytes o Hb). split.
  - intros (Hw & Hv & E). split; [exact Hw|]. now apply Opening_to_bytes_iff.
  - intros [Hw E]. apply (Opening_to_bytes_iff o bytes Hw) in E. tauto.
Qed.

Lemma contract_wire_bijection_witness : exists bytes, Opening_to_bytes example_opening = Ok bytes /\ Opening_from_bytes bytes = Ok example_opening.
Proof.
  assert (E : Opening_to_bytes example_opening = Ok (opening_bytes example_opening)) by (vm_compute; reflexivity).
  assert (Hb : bytes_ok (opening_bytes example_opening)) by (unfold bytes_ok, byte_ok, in_range; vm_compute; repeat constructor; discriminate).
  exists (opening_bytes example_opening). split; [exact E|].
  apply (proj2 (proj1 (contract_wire_bijection (fun _ => []) (fun _ _ => []) (opening_bytes example_opening) Hb) example_opening)).
  split; [exact example_opening_wf|exact E].
Defined.
