(* ===== verification/ContractApps.v ===== *)
(** * Contract applications ([noid_tx/src/experimental_object/applications.rs])

    The five reusable contracts: refundable payment, timelocked vault, period
    budget, recurring payment and tranche vesting.  What their programs do on a
    call, the schedules and budgets they keep over their whole life, and that the
    recovery branch can always close them. *)

From Stdlib Require Import ZArith Lia Bool Sorting.Sorted.
From stdpp Require Import base numbers list option.
From S2P Require Import Prelude Tx PagedSpend IntegerProgram Contract.
Open Scope Z_scope.

(** ** Constructors *)

Definition KEEP_STATE : Program := replicate PROGRAM_STEPS (0, 0).

Definition refundable_payment (payer payee : list Z) (expiry_height max_fee : Z) : ObjectOpening :=
  mkOpening KEEP_STATE 0 payee payer expiry_height payee payer (mkRules max_fee 0 0 (Z.lor CLAIM_CLOSE RECOVERY_CLOSE)).

Definition timelocked_vault (owner : list Z) (unlock_height max_fee : Z) : ObjectOpening :=
  mkOpening KEEP_STATE 0 owner owner unlock_height owner owner (mkRules max_fee 0 0 RECOVERY_CLOSE).

Definition allowance_wallet (spending_key recovery_key : list Z) (payout_recipient : option (list Z)) (recover_at max_fee max_payout min_retained : Z)
  : ObjectOpening :=
  mkOpening KEEP_STATE 0 spending_key recovery_key recover_at (default spending_key payout_recipient) recovery_key
    (mkRules max_fee min_retained max_payout
       (Z.lor (Z.lor CLAIM_CONTINUE RECOVERY_CLOSE) (if bool_decide (payout_recipient = None) then ANY_PAYOUT_RECIPIENT else 0))).

Inductive ScheduleError := EmptyPeriod | EmptyAmount | DeadlineBeforeStart | HeightOverflow | FeeExceedsBudget.

Definition validate_schedule (start period deadline : Z) : result ScheduleError unit :=
  _ ← ensure (negb (period =? 0)) EmptyPeriod;
  _ ← ensure (negb (deadline <=? start)) DeadlineBeforeStart;
  ensure (bool_decide (is_Some (checked_add 64 (deadline - 1) period))) HeightOverflow.

(** The program with its first instructions replaced; too many panic. *)
Definition install (o : ObjectOpening) (instructions : list Instruction) : option ObjectOpening :=
  if (length instructions <=? PROGRAM_STEPS)%nat
  then Some (mkOpening ((to_fields <$> instructions) ++ drop (length instructions) (program o)) (ob_state o)
               (claim_authority o) (recovery_authority o) (deadline o) (claim_recipient o) (recovery_recipient o) (rules o))
  else None.

Record PeriodBudget := mkBudgetTerms {
  bt_start_height : Z;
  bt_period_blocks : Z;
  bt_budget : Z;
  bt_recover_at : Z;
  bt_max_fee : Z;
  bt_max_payout : Z;
  bt_min_retained : Z
}.

Definition budget_code (terms : PeriodBudget) : list Instruction :=
  let before := BEFORE_DEADLINE in
  let reset := mkPredicate Src.Scratch0 true in
  [ when (Instruction_new Opc.AssertLessOrEqual Reg.State0 Opd.Immediate Opd.Height (bt_start_height terms)) before;
    Instruction_new Opc.LessThan Reg.Scratch0 Opd.Height Opd.State1 0;
    when (Instruction_new Opc.Move Reg.Scratch0 Opd.One Opd.Zero 0) (pred_not before);
    when (Instruction_new Opc.Move Reg.State0 Opd.Immediate Opd.Zero (bt_budget terms)) reset;
    when (Instruction_new Opc.Add Reg.State1 Opd.Height Opd.Immediate (bt_period_blocks terms)) reset;
    when (Instruction_new Opc.Add Reg.Scratch1 Opd.Fee Opd.Payout 0) before;
    when (Instruction_new Opc.AssertLessOrEqual Reg.State0 Opd.Scratch1 Opd.State0 0) before;
    when (Instruction_new Opc.Subtract Reg.State0 Opd.State0 Opd.Scratch1 0) before ].

Definition period_budget_wallet (spending_key recovery_key : list Z) (payout_recipient : option (list Z)) (terms : PeriodBudget)
  : exec ScheduleError ObjectOpening :=
  _ ← lift (validate_schedule (bt_start_height terms) (bt_period_blocks terms) (bt_recover_at terms));
  _ ← lift (ensure (negb (bt_budget terms =? 0)) EmptyAmount);
  _ ← lift (ensure (negb (bt_budget terms <? bt_max_fee terms)) FeeExceedsBudget);
  let opening := allowance_wallet spending_key recovery_key payout_recipient (bt_recover_at terms) (bt_max_fee terms) (bt_max_payout terms)
                   (Z.max (bt_min_retained terms) (bt_max_fee terms)) in
  window ← expect (checked_add 64 (bt_start_height terms) (bt_period_blocks terms));
  expect (install (successor opening (pack_state (bt_budget terms, window))) (budget_code terms)).

Record RecurringPayment := mkRecurring {
  rp_first_due_height : Z;
  rp_period_blocks : Z;
  rp_payment : Z;
  rp_recover_at : Z;
  rp_max_fee : Z
}.

Definition recurring_code (terms : RecurringPayment) : list Instruction :=
  let before := BEFORE_DEADLINE in
  [ when (Instruction_new Opc.AssertLessOrEqual Reg.State0 Opd.State1 Opd.Height 0) before;
    when (Instruction_new Opc.AssertEqual Reg.State0 Opd.Payout Opd.Immediate (rp_payment terms)) before;
    when (Instruction_new Opc.Add Reg.State0 Opd.State0 Opd.One 0) before;
    when (Instruction_new Opc.Add Reg.State1 Opd.Height Opd.Immediate (rp_period_blocks terms)) before ].

Definition recurring_payment (payer payee : list Z) (terms : RecurringPayment) : exec ScheduleError ObjectOpening :=
  _ ← lift (validate_schedule (rp_first_due_height terms) (rp_period_blocks terms) (rp_recover_at terms));
  _ ← lift (ensure (negb (rp_payment terms =? 0)) EmptyAmount);
  let opening := allowance_wallet payee payer (Some payee) (rp_recover_at terms) (rp_max_fee terms) (rp_payment terms) (rp_max_fee terms) in
  expect (install (successor opening (pack_state (0, rp_first_due_height terms))) (recurring_code terms)).

Record TrancheVesting := mkVesting {
  tv_first_unlock_height : Z;
  tv_period_blocks : Z;
  tv_tranche_amount : Z;
  tv_mature_at : Z;
  tv_max_fee : Z
}.

Definition vesting_code (terms : TrancheVesting) : list Instruction :=
  let before := BEFORE_DEADLINE in
  [ when (Instruction_new Opc.AssertLessOrEqual Reg.State0 Opd.State1 Opd.Height 0) before;
    when (Instruction_new Opc.AssertEqual Reg.State0 Opd.Payout Opd.Immediate (tv_tranche_amount terms)) before;
    when (Instruction_new Opc.Add Reg.State0 Opd.State0 Opd.Payout 0) before;
    when (Instruction_new Opc.Add Reg.State1 Opd.State1 Opd.Immediate (tv_period_blocks terms)) before ].

Definition tranche_vesting (beneficiary : list Z) (terms : TrancheVesting) : exec ScheduleError ObjectOpening :=
  _ ← lift (validate_schedule (tv_first_unlock_height terms) (tv_period_blocks terms) (tv_mature_at terms));
  _ ← lift (ensure (negb (tv_tranche_amount terms =? 0)) EmptyAmount);
  let opening := allowance_wallet beneficiary beneficiary (Some beneficiary) (tv_mature_at terms) (tv_max_fee terms) (tv_tranche_amount terms)
                   (tv_max_fee terms) in
  expect (install (successor opening (pack_state (0, tv_first_unlock_height terms))) (vesting_code terms)).

(** ** What the programs compute *)

Definition KEEP : Instruction := Instruction_new Opc.Keep Reg.State0 Opd.State0 Opd.State0 0.

Lemma keep_encodes : encodes (0, 0) KEEP.
Proof. split; [split; vm_compute; discriminate || reflexivity|reflexivity]. Qed.

Lemma eval_keep cx r n : eval_run cx r (replicate n KEEP) = Some r.
Proof. revert r. induction n as [|n IH]; intros r; [reflexivity|]. cbn. rewrite IH. now destruct r. Qed.

Lemma eval_app cx code code' : forall r, eval_run cx r (code ++ code') = (r ← eval_run cx r code; eval_run cx r code').
Proof. induction code as [|i code IH]; intros r; [reflexivity|]. cbn. destruct (eval_step cx r i); [apply IH|reflexivity]. Qed.

Lemma encodes_all code : Forall (fun i => u64 (ins_immediate i)) code -> Forall2 encodes (to_fields <$> code) code.
Proof. induction 1; constructor; [now split|assumption]. Qed.

Lemma encodes_padded code n : Forall (fun i => u64 (ins_immediate i)) code ->
  Forall2 encodes ((to_fields <$> code) ++ replicate n (0, 0)) (code ++ replicate n KEEP).
Proof.
  intros H. apply Forall2_app; [now apply encodes_all|]. induction n; constructor; [exact keep_encodes|assumption].
Qed.

(** The context before and after the deadline. *)
Section Programs.
Context (cx : Context) (s0 s1 : Z).

(** Recovery leaves the state alone. *)
Lemma budget_after terms : cx_before_deadline cx = false -> eval_run cx (mkRegisters s0 s1 0 0) (budget_code terms) = Some (mkRegisters s0 s1 1 0).
Proof. intros Hb. cbn [eval_run budget_code]. unfold eval_step, guard. cbn. rewrite Hb. reflexivity. Qed.

Lemma recurring_after terms : cx_before_deadline cx = false -> eval_run cx (mkRegisters s0 s1 0 0) (recurring_code terms) = Some (mkRegisters s0 s1 0 0).
Proof. intros Hb. cbn [eval_run recurring_code]. unfold eval_step, guard. cbn. rewrite Hb. reflexivity. Qed.

Lemma vesting_after terms : cx_before_deadline cx = false -> eval_run cx (mkRegisters s0 s1 0 0) (vesting_code terms) = Some (mkRegisters s0 s1 0 0).
Proof. intros Hb. cbn [eval_run vesting_code]. unfold eval_step, guard. cbn. rewrite Hb. reflexivity. Qed.

(** The remaining budget and the end of the window that a call sees. *)
Definition window_at (terms : PeriodBudget) : Z * Z :=
  if cx_height cx <? s1 then (s0, s1) else (bt_budget terms, cx_height cx + bt_period_blocks terms).

Lemma budget_before terms r : cx_before_deadline cx = true ->
  eval_run cx (mkRegisters s0 s1 0 0) (budget_code terms) = Some r
  <-> bt_start_height terms <= cx_height cx /\ (s1 <= cx_height cx -> cx_height cx + bt_period_blocks terms < 2 ^ 64)
      /\ cx_fee cx + cx_payout cx < 2 ^ 64 /\ cx_fee cx + cx_payout cx <= (window_at terms).1
      /\ r = mkRegisters ((window_at terms).1 - (cx_fee cx + cx_payout cx)) (window_at terms).2 (Z.b2z (cx_height cx <? s1)) (cx_fee cx + cx_payout cx).
Proof.
  intros Hb. unfold window_at. cbn [eval_run budget_code]. unfold eval_step, guard. cbn. rewrite Hb. cbn.
  destruct (Z.leb_spec (bt_start_height terms) (cx_height cx)); cbn; [|split; [discriminate|lia]].
  destruct (Z.ltb_spec (cx_height cx) s1); cbn; unfold checked_add, checked_sub.
  - destruct (Z.ltb_spec (cx_fee cx + cx_payout cx) (2 ^ 64)); cbn; [|split; [discriminate|lia]].
    destruct (Z.leb_spec (cx_fee cx + cx_payout cx) s0) as [Hle|Hle]; cbn; [rewrite (proj2 (Z.leb_le _ _) Hle); cbn|split; [discriminate|lia]].
    split; [intros [= <-]; repeat split; lia|intros (_ & _ & _ & _ & ->); reflexivity].
  - destruct (Z.ltb_spec (cx_height cx + bt_period_blocks terms) (2 ^ 64)); cbn; [|split; [discriminate|lia]].
    destruct (Z.ltb_spec (cx_fee cx + cx_payout cx) (2 ^ 64)); cbn; [|split; [discriminate|lia]].
    destruct (Z.leb_spec (cx_fee cx + cx_payout cx) (bt_budget terms)) as [Hle|Hle]; cbn; [rewrite (proj2 (Z.leb_le _ _) Hle); cbn|split; [discriminate|lia]].
    split; [intros [= <-]; repeat split; lia|intros (_ & _ & _ & _ & ->); reflexivity].
Qed.

Lemma recurring_before terms r : cx_before_deadline cx = true ->
  eval_run cx (mkRegisters s0 s1 0 0) (recurring_code terms) = Some r
  <-> s1 <= cx_height cx /\ cx_payout cx = rp_payment terms /\ s0 + 1 < 2 ^ 64 /\ cx_height cx + rp_period_blocks terms < 2 ^ 64
      /\ r = mkRegisters (s0 + 1) (cx_height cx + rp_period_blocks terms) 0 0.
Proof.
  intros Hb. cbn [eval_run recurring_code]. unfold eval_step, guard. cbn. rewrite Hb. cbn.
  destruct (Z.leb_spec s1 (cx_height cx)); cbn; [|split; [discriminate|lia]].
  destruct (Z.eqb_spec (cx_payout cx) (rp_payment terms)); cbn; [|split; [discriminate|tauto]]. unfold checked_add.
  destruct (Z.ltb_spec (s0 + 1) (2 ^ 64)); cbn; [|split; [discriminate|lia]].
  destruct (Z.ltb_spec (cx_height cx + rp_period_blocks terms) (2 ^ 64)); cbn; [|split; [discriminate|lia]].
  split; [intros [= <-]; auto|intros (_ & _ & _ & _ & ->); reflexivity].
Qed.

Lemma vesting_before terms r : cx_before_deadline cx = true ->
  eval_run cx (mkRegisters s0 s1 0 0) (vesting_code terms) = Some r
  <-> s1 <= cx_height cx /\ cx_payout cx = tv_tranche_amount terms /\ s0 + cx_payout cx < 2 ^ 64 /\ s1 + tv_period_blocks terms < 2 ^ 64
      /\ r = mkRegisters (s0 + cx_payout cx) (s1 + tv_period_blocks terms) 0 0.
Proof.
  intros Hb. cbn [eval_run vesting_code]. unfold eval_step, guard. cbn. rewrite Hb. cbn.
  destruct (Z.leb_spec s1 (cx_height cx)); cbn; [|split; [discriminate|lia]].
  destruct (Z.eqb_spec (cx_payout cx) (tv_tranche_amount terms)); cbn; [|split; [discriminate|tauto]]. unfold checked_add.
  destruct (Z.ltb_spec (s0 + cx_payout cx) (2 ^ 64)); cbn; [|split; [discriminate|lia]].
  destruct (Z.ltb_spec (s1 + tv_period_blocks terms) (2 ^ 64)); cbn; [|split; [discriminate|lia]].
  split; [intros [= <-]; auto|intros (_ & _ & _ & _ & ->); reflexivity].
Qed.
End Programs.

(** ** The openings they make *)

(** An allowance wallet with [code] in front of its program. *)
Definition with_code (o : ObjectOpening) (state : Z) (code : list Instruction) : ObjectOpening :=
  mkOpening ((to_fields <$> code) ++ replicate (PROGRAM_STEPS - length code) (0, 0)) state
    (claim_authority o) (recovery_authority o) (deadline o) (claim_recipient o) (recovery_recipient o) (rules o).

Lemma install_ok o state code : program o = KEEP_STATE -> (length code <= PROGRAM_STEPS)%nat ->
  install (successor o state) code = Some (with_code o state code).
Proof.
  intros Hp Hl. unfold install. rewrite (proj2 (Nat.leb_le _ _) Hl). unfold with_code, successor. cbn [program ob_state claim_authority recovery_authority deadline claim_recipient recovery_recipient rules].
  rewrite Hp. unfold KEEP_STATE. now rewrite drop_replicate.
Qed.

Lemma encodes_wf fields i : encodes fields i -> u128 fields.1 /\ u128 fields.2.
Proof.
  intros [Hi ->]. rewrite to_fields_sum. pose proof (descriptor_range i). unfold in_range in *. cbn [fst snd]. lia.
Qed.

(** Everything but the program is as in the wallet it starts from. *)
Lemma with_code_wf o state code : opening_wf o -> modes (rules o) < 32 -> u128 state -> (length code <= PROGRAM_STEPS)%nat ->
  Forall (fun i => u64 (ins_immediate i)) code -> opening_wf (with_code o state code) /\ valid_opening (with_code o state code).
Proof.
  intros [_ _ A3 A4 A5 A6 A7 A8 A9 A10 A11] Hm Hs Hl Hi. pose proof (encodes_padded code (PROGRAM_STEPS - length code) Hi) as He.
  split; [|split; [exact Hm|eexists; exact He]]. constructor; try assumption. cbn [program with_code]. split.
  - rewrite length_app, length_fmap, length_replicate. lia.
  - clear -He. induction He; constructor; [eapply encodes_wf; eassumption|assumption].
Qed.

(** A run of an installed program, from a packed state. *)
Lemma runs_installed o0 state code s0 s1 page height next : Forall (fun i => u64 (ins_immediate i)) code -> u64 s0 -> u64 s1 ->
  let o := successor (with_code o0 state code) (s0 + 2 ^ 64 * s1) in
  runs_to o page height next
  <-> exists r, eval_run (from_body page height (deadline o0)) (mkRegisters s0 s1 0 0) code = Some r /\ next = state0 r + 2 ^ 64 * state1 r.
Proof.
  intros Hi H0 H1 o. pose proof (encodes_padded code (PROGRAM_STEPS - length code) Hi) as He.
  assert (Est : start (ob_state o) = mkRegisters s0 s1 0 0).
  { unfold start, in_range in *. cbn [ob_state successor o]. f_equal; [|rewrite Z.mul_comm, Z.div_add by lia]; rewrite ?(Z.mul_comm (2 ^ 64)), ?Z.mod_add, ?Z.div_small, ?Z.mod_small; lia. }
  unfold runs_to. rewrite Est. change (deadline o) with (deadline o0). split.
  - intros (code' & r & Hc & Hr & ->). rewrite (code_unique _ _ _ Hc He) in Hr. apply eval_run_iff in Hr. rewrite eval_app in Hr.
    apply bind_Some in Hr as (r1 & H & Hr). rewrite eval_keep in Hr. injection Hr as <-. eauto.
  - intros (r & Hr & ->). eexists _, r. split; [exact He|]. split; [|reflexivity]. apply eval_run_iff. rewrite eval_app, Hr. cbn. apply eval_keep.
Qed.

Section Allowance.
Context (spending_key recovery_key : list Z) (payout_recipient : option (list Z)) (recover_at fee_limit payout_limit reserve : Z).
Abbreviation wallet := (allowance_wallet spending_key recovery_key payout_recipient recover_at fee_limit payout_limit reserve).

(** Continuing calls before the deadline, closing calls from it on. *)
Lemma allowance_modes before terminal : Z.testbit (modes (rules wallet)) (mode_bit before terminal) = xorb before terminal.
Proof. cbn [modes rules allowance_wallet]. destruct (bool_decide _), before, terminal; reflexivity. Qed.

Lemma allowance_any_recipient : Z.testbit (modes (rules wallet)) 4 = bool_decide (payout_recipient = None).
Proof. cbn [modes rules allowance_wallet]. destruct (bool_decide _); reflexivity. Qed.

Lemma allowance_modes_valid : modes (rules wallet) < 32.
Proof. cbn [modes rules allowance_wallet]. destruct (bool_decide _); reflexivity. Qed.

Lemma keep_state_wf : Forall (fun f => u128 f.1 /\ u128 f.2) KEEP_STATE.
Proof. apply Forall_replicate. cbn. unfold in_range. lia. Qed.

Lemma allowance_wf : digest_ok spending_key -> digest_ok recovery_key -> (forall k, payout_recipient = Some k -> digest_ok k) ->
  u64 recover_at -> u64 fee_limit -> u64 payout_limit -> u64 reserve -> opening_wf wallet /\ modes (rules wallet) < 32.
Proof.
  intros Hs Hr Hp H1 H2 H3 H4. split; [|exact allowance_modes_valid]. constructor; try assumption.
  - split; [reflexivity|exact keep_state_wf].
  - cbn. unfold in_range. lia.
  - cbn. destruct payout_recipient; [now apply Hp|exact Hs].
  - cbn [modes rules allowance_wallet]. destruct (bool_decide _); split; vm_compute; discriminate || reflexivity.
Qed.
End Allowance.

(** ** Terms a constructor accepts *)

(** Every height at which a claim is allowed has a next due height. *)
Definition schedule_ok (start period deadline : Z) : Prop := 0 < period /\ start < deadline /\ deadline - 1 + period < 2 ^ 64.

Lemma validate_schedule_cases start period deadline : u64 start -> u64 period -> u64 deadline ->
  match validate_schedule start period deadline with Ok _ => schedule_ok start period deadline | Err _ => ~ schedule_ok start period deadline end.
Proof.
  unfold in_range, validate_schedule, schedule_ok. intros H1 H2 H3.
  destruct (Z.eqb_spec period 0); cbn [negb ensure mbind result_bind]; [lia|].
  destruct (Z.leb_spec deadline start); cbn [negb ensure mbind result_bind]; [lia|].
  unfold checked_add. destruct (Z.ltb_spec (deadline - 1 + period) (2 ^ 64)); [rewrite bool_decide_eq_true_2 by eauto|rewrite bool_decide_eq_false_2 by now intros [? ?]]; cbn; lia.
Qed.

Lemma pack_pair a b : u64 a -> u64 b -> pack_state (a, b) = a + 2 ^ 64 * b /\ u128 (a + 2 ^ 64 * b).
Proof.
  intros Ha Hb. split; [|unfold in_range in *; lia]. apply (pack_sum (mkRegisters a b 0 0)). intros []; cbn; try assumption; unfold in_range; lia.
Qed.

Record budget_terms (terms : PeriodBudget) : Prop := {
  bg_start : u64 (bt_start_height terms);
  bg_period : u64 (bt_period_blocks terms);
  bg_budget : u64 (bt_budget terms);
  bg_recover : u64 (bt_recover_at terms);
  bg_fee : u64 (bt_max_fee terms);
  bg_payout : u64 (bt_max_payout terms);
  bg_retained : u64 (bt_min_retained terms)
}.

Definition budget_ok (terms : PeriodBudget) : Prop :=
  schedule_ok (bt_start_height terms) (bt_period_blocks terms) (bt_recover_at terms) /\ 0 < bt_budget terms /\ bt_max_fee terms <= bt_budget terms.

Definition budget_opening (spending_key recovery_key : list Z) (payout_recipient : option (list Z)) (terms : PeriodBudget) : ObjectOpening :=
  with_code (allowance_wallet spending_key recovery_key payout_recipient (bt_recover_at terms) (bt_max_fee terms) (bt_max_payout terms)
               (Z.max (bt_min_retained terms) (bt_max_fee terms)))
    (bt_budget terms + 2 ^ 64 * (bt_start_height terms + bt_period_blocks terms)) (budget_code terms).

Lemma budget_wallet_cases sk rk rec terms : budget_terms terms ->
  match period_budget_wallet sk rk rec terms with
  | Return o => budget_ok terms /\ o = budget_opening sk rk rec terms
  | Fail _ => ~ budget_ok terms
  | Panic => False
  end.
Proof.
  intros [H1 H2 H3 H4 H5 H6 H7]. unfold period_budget_wallet, budget_ok. pose proof (validate_schedule_cases _ _ _ H1 H2 H4) as Hs.
  destruct (validate_schedule _ _ _) as [[]|e]; cbn [lift mbind exec_bind]; [|tauto].
  destruct (Z.eqb_spec (bt_budget terms) 0); cbn [negb ensure lift mbind exec_bind]; [unfold in_range in *; lia|].
  destruct (Z.ltb_spec (bt_budget terms) (bt_max_fee terms)); cbn [negb ensure lift mbind exec_bind]; [unfold in_range in *; lia|].
  destruct Hs as (Hs1 & Hs2 & Hs3). unfold checked_add. rewrite (proj2 (Z.ltb_lt _ _)) by lia. cbn [expect mbind exec_bind].
  rewrite install_ok by (reflexivity || (cbn; unfold PROGRAM_STEPS; lia)). cbn [expect]. unfold schedule_ok, budget_opening, in_range in *.
  destruct (pack_pair (bt_budget terms) (bt_start_height terms + bt_period_blocks terms)) as [-> _]; [unfold in_range; lia..|].
  repeat split; lia.
Qed.

Definition recurring_terms (terms : RecurringPayment) : Prop :=
  u64 (rp_first_due_height terms) /\ u64 (rp_period_blocks terms) /\ u64 (rp_payment terms) /\ u64 (rp_recover_at terms) /\ u64 (rp_max_fee terms).

Definition recurring_ok (terms : RecurringPayment) : Prop :=
  schedule_ok (rp_first_due_height terms) (rp_period_blocks terms) (rp_recover_at terms) /\ 0 < rp_payment terms.

Definition recurring_opening (payer payee : list Z) (terms : RecurringPayment) : ObjectOpening :=
  with_code (allowance_wallet payee payer (Some payee) (rp_recover_at terms) (rp_max_fee terms) (rp_payment terms) (rp_max_fee terms))
    (0 + 2 ^ 64 * rp_first_due_height terms) (recurring_code terms).

Lemma recurring_payment_cases payer payee terms : recurring_terms terms ->
  match recurring_payment payer payee terms with
  | Return o => recurring_ok terms /\ o = recurring_opening payer payee terms
  | Fail _ => ~ recurring_ok terms
  | Panic => False
  end.
Proof.
  intros (H1 & H2 & H3 & H4 & H5). unfold recurring_payment, recurring_ok. pose proof (validate_schedule_cases _ _ _ H1 H2 H4) as Hs.
  destruct (validate_schedule _ _ _) as [[]|e]; cbn [lift mbind exec_bind]; [|tauto].
  destruct (Z.eqb_spec (rp_payment terms) 0); cbn [negb ensure lift mbind exec_bind]; [unfold in_range in *; lia|].
  rewrite install_ok by (reflexivity || (cbn; unfold PROGRAM_STEPS; lia)). cbn [expect]. unfold recurring_opening.
  destruct (pack_pair 0 (rp_first_due_height terms)) as [-> _]; [unfold in_range; lia|exact H1|].
  unfold in_range in *. split; [split; [exact Hs|lia]|reflexivity].
Qed.

Definition vesting_terms (terms : TrancheVesting) : Prop :=
  u64 (tv_first_unlock_height terms) /\ u64 (tv_period_blocks terms) /\ u64 (tv_tranche_amount terms) /\ u64 (tv_mature_at terms) /\ u64 (tv_max_fee terms).

Definition vesting_ok (terms : TrancheVesting) : Prop :=
  schedule_ok (tv_first_unlock_height terms) (tv_period_blocks terms) (tv_mature_at terms) /\ 0 < tv_tranche_amount terms.

Definition vesting_opening (beneficiary : list Z) (terms : TrancheVesting) : ObjectOpening :=
  with_code (allowance_wallet beneficiary beneficiary (Some beneficiary) (tv_mature_at terms) (tv_max_fee terms) (tv_tranche_amount terms) (tv_max_fee terms))
    (0 + 2 ^ 64 * tv_first_unlock_height terms) (vesting_code terms).

Lemma tranche_vesting_cases beneficiary terms : vesting_terms terms ->
  match tranche_vesting beneficiary terms with
  | Return o => vesting_ok terms /\ o = vesting_opening beneficiary terms
  | Fail _ => ~ vesting_ok terms
  | Panic => False
  end.
Proof.
  intros (H1 & H2 & H3 & H4 & H5). unfold tranche_vesting, vesting_ok. pose proof (validate_schedule_cases _ _ _ H1 H2 H4) as Hs.
  destruct (validate_schedule _ _ _) as [[]|e]; cbn [lift mbind exec_bind]; [|tauto].
  destruct (Z.eqb_spec (tv_tranche_amount terms) 0); cbn [negb ensure lift mbind exec_bind]; [unfold in_range in *; lia|].
  rewrite install_ok by (reflexivity || (cbn; unfold PROGRAM_STEPS; lia)). cbn [expect]. unfold vesting_opening.
  destruct (pack_pair 0 (tv_first_unlock_height terms)) as [-> _]; [unfold in_range; lia|exact H1|].
  unfold in_range in *. split; [split; [exact Hs|lia]|reflexivity].
Qed.

(** ** Histories *)

Abbreviation Call := (TxPage * Z * CheckedTransition)%type (only parsing).
Definition called (c : Call) : Z := c.1.2.
Definition spent (calls : list Call) : Z := Zsum ((fun c => debit c.1.1) <$> calls).

(** Each call came at its due height or later; the last call is first. *)
Fixpoint scheduled (due : list Call -> Z) (calls : list Call) : Prop :=
  match calls with
  | [] => True
  | c :: earlier => due earlier <= called c /\ scheduled due earlier
  end.

Definition pays (amount : Z) (recipient : list Z) (c : Call) : Prop :=
  out_amount (output_at c.1.1 1) = amount /\ out_owner (output_at c.1.1 1) = recipient.

(** A period after the last call, whenever that was. *)
Definition recurring_due (terms : RecurringPayment) (calls : list Call) : Z :=
  match calls with
  | [] => rp_first_due_height terms
  | c :: _ => called c + rp_period_blocks terms
  end.

(** Anchored at the first height, however late the calls were. *)
Definition vesting_due (terms : TrancheVesting) (calls : list Call) : Z :=
  tv_first_unlock_height terms + Z.of_nat (length calls) * tv_period_blocks terms.

(** The windows a history falls into, with their calls; the last is first. *)
Fixpoint windows (terms : PeriodBudget) (calls : list Call) : Z * list Call * list (Z * list Call) :=
  match calls with
  | [] => (bt_start_height terms, [], [])
  | c :: earlier =>
      let '(opened, group, closed) := windows terms earlier in
      if called c <? opened + bt_period_blocks terms then (opened, c :: group, closed)
      else (called c, [c], (opened, group) :: closed)
  end.

Definition all_windows (terms : PeriodBudget) (calls : list Call) : list (Z * list Call) :=
  let '(opened, group, closed) := windows terms calls in (opened, group) :: closed.

Definition spent_between (from to : Z) (calls : list Call) : Z := spent (filter (fun c => from <= called c < to) calls).

Definition chronological (calls : list Call) : Prop := StronglySorted Z.ge (called <$> calls).

Lemma page_amounts page : body_wf page -> u64 (fee page) /\ u64 (out_amount (output_at page 0)) /\ u64 (out_amount (output_at page 1)).
Proof. intros Hb. destruct (from_body_wf page 0 0 Hb ltac:(unfold in_range; lia)) as [_ ? ? ? _ _ _ _ _ _]. auto. Qed.

Section Terms.
Context (spending_key recovery_key : list Z) (payout_recipient : option (list Z)) (recover_at fee_limit payout_limit reserve state : Z) (code : list Instruction).
Abbreviation wallet := (allowance_wallet spending_key recovery_key payout_recipient recover_at fee_limit payout_limit reserve).

(** What the terms of an installed wallet say of a continuing call. *)
Record claim_terms (c : Call) : Prop := {
  cl_height : called c < recover_at;
  cl_fee : fee c.1.1 <= fee_limit;
  cl_payout : out_amount (output_at c.1.1 1) <= payout_limit;
  cl_recipient : out_amount (output_at c.1.1 1) <> 0 -> payout_recipient = None \/ payout_recipient = Some (out_owner (output_at c.1.1 1));
  cl_authority : ct_authority c.2 = spending_key
}.

Lemma allowance_claim page height t : call_terms (with_code wallet state code) page height t ->
  claim_terms (page, height, t) /\ reserve <= out_amount (output_at page 0).
Proof.
  intros [A1 A2 A3 A4 A5 A6]. cbn [with_code rules] in *. change (deadline (with_code wallet state code)) with recover_at in *. rewrite allowance_modes in A4.
  destruct (height <? recover_at) eqn:E; [|discriminate]. apply Z.ltb_lt in E. rewrite allowance_any_recipient in A5.
  split; [|exact A3]. constructor; cbn [called fst snd]; try assumption.
  - intros Hne. destruct A5 as [A5|A5]; [now intros D; rewrite D in Hne|left; now apply bool_decide_eq_true in A5|].
    unfold recipient_at in A5. change (deadline (with_code wallet state code)) with recover_at in A5. rewrite (proj2 (Z.ltb_lt _ _) E) in A5.
    rewrite A5. cbn. destruct payout_recipient; auto.
  - rewrite A6. unfold authority_at. change (deadline (with_code wallet state code)) with recover_at. now rewrite (proj2 (Z.ltb_lt _ _) E).
Qed.
End Terms.

(** ** Safety over a life *)

Section Safety.
Context (hash_tx8x2_leaves : list (Z * Z) -> list Z) (sponge_pairs digest : list Z -> list (Z * Z) -> list Z).
Hypothesis digest_bytes : forall tag pairs, digest_ok (digest tag pairs).
Abbreviation life := (lifecycle hash_tx8x2_leaves sponge_pairs digest).
Abbreviation trusted presented := (forall p, p ∈ presented -> ~ colliding digest p.1 p.2).

Section Recurring.
Context (payer payee : list Z) (terms : RecurringPayment) (a0 : Z).
Hypothesis (Hpayer : digest_ok payer) (Hpayee : digest_ok payee) (Hterms : recurring_terms terms) (Hok : recurring_ok terms) (Ha0 : u64 a0).

Lemma recurring_wf : opening_wf (recurring_opening payer payee terms) /\ valid_opening (recurring_opening payer payee terms).
Proof.
  destruct Hterms as (H1 & H2 & H3 & H4 & H5).
  destruct (allowance_wf payee payer (Some payee) (rp_recover_at terms) (rp_max_fee terms) (rp_payment terms) (rp_max_fee terms)) as [Hw Hm]; try assumption; [now intros k [= <-]|].
  apply with_code_wf; try assumption.
  - apply pack_pair; [unfold in_range; lia|exact H1].
  - cbn. unfold PROGRAM_STEPS. lia.
  - repeat constructor; cbn; unfold in_range in *; lia.
Qed.

Record recurring_inv (calls : list Call) (s a : Z) : Prop := {
  ri_state : s = Z.of_nat (length calls) + 2 ^ 64 * recurring_due terms calls;
  ri_due : u64 (recurring_due terms calls);
  ri_total : a + rp_payment terms * Z.of_nat (length calls) <= a0 /\ 0 <= a;
  ri_schedule : scheduled (recurring_due terms) calls;
  ri_calls : Forall (fun c => pays (rp_payment terms) payee c /\ claim_terms payee (Some payee) (rp_recover_at terms) (rp_max_fee terms) (rp_payment terms) c) calls
}.

Lemma recurring_life presented calls o a : life (recurring_opening payer payee terms) a0 presented calls o a -> trusted presented ->
  recurring_inv calls (ob_state o) a.
Proof.
  intros Hl Hn. destruct Hterms as (H1 & H2 & H3 & H4 & H5). destruct Hok as [(S1 & S2 & S3) Hpos]. unfold in_range in *.
  refine (lifecycle_invariant _ _ _ _ _ digest_bytes (proj1 recurring_wf) recurring_inv _ _ _ _ Hl Hn _ _).
  { constructor; cbn; unfold in_range; try lia; constructor. }
  clear Hl Hn presented calls o a. intros calls s page height t [Es Hd [Ht Hnn] Hs Hc] Hb Hh HT Hrun.
  destruct (allowance_claim _ _ _ _ _ _ _ _ _ _ _ _ HT) as [Hclaim Hres]. destruct (page_amounts page Hb) as (B1 & B2 & B3). unfold in_range, debit in *.
  assert (Hlen : Z.of_nat (length calls) < 2 ^ 64) by nia.
  subst s. apply runs_installed in Hrun as (r & Hr & En); [|repeat constructor; cbn; unfold in_range; lia|unfold in_range; lia|exact Hd].
  pose proof (cl_height _ _ _ _ _ _ Hclaim) as Hheight. cbn [called fst snd] in Hheight.
  apply recurring_before in Hr as (R1 & R2 & R3 & R4 & ->); [|now apply Z.ltb_lt]. cbn [from_body cx_height cx_payout state0 state1] in *.
  constructor; cbn [length recurring_due called fst snd scheduled].
  - rewrite En. lia.
  - unfold in_range. lia.
  - lia.
  - split; assumption.
  - constructor; [|exact Hc]. split; [|exact Hclaim]. split; [exact R2|]. destruct (cl_recipient _ _ _ _ _ _ Hclaim) as [F|F]; cbn [fst snd] in *; [lia|discriminate|congruence].
Qed.
End Recurring.

Section Vesting.
Context (beneficiary : list Z) (terms : TrancheVesting) (a0 : Z).
Hypothesis (Hben : digest_ok beneficiary) (Hterms : vesting_terms terms) (Hok : vesting_ok terms) (Ha0 : u64 a0).

Lemma vesting_wf : opening_wf (vesting_opening beneficiary terms) /\ valid_opening (vesting_opening beneficiary terms).
Proof.
  destruct Hterms as (H1 & H2 & H3 & H4 & H5).
  destruct (allowance_wf beneficiary beneficiary (Some beneficiary) (tv_mature_at terms) (tv_max_fee terms) (tv_tranche_amount terms) (tv_max_fee terms)) as [Hw Hm];
    try assumption; [now intros k [= <-]|].
  apply with_code_wf; try assumption.
  - apply pack_pair; [unfold in_range; lia|exact H1].
  - cbn. unfold PROGRAM_STEPS. lia.
  - repeat constructor; cbn; unfold in_range in *; lia.
Qed.

Record vesting_inv (calls : list Call) (s a : Z) : Prop := {
  vi_state : s = tv_tranche_amount terms * Z.of_nat (length calls) + 2 ^ 64 * vesting_due terms calls;
  vi_due : u64 (vesting_due terms calls);
  vi_total : a + tv_tranche_amount terms * Z.of_nat (length calls) <= a0 /\ 0 <= a;
  vi_schedule : scheduled (vesting_due terms) calls;
  vi_calls : Forall (fun c => pays (tv_tranche_amount terms) beneficiary c
    /\ claim_terms beneficiary (Some beneficiary) (tv_mature_at terms) (tv_max_fee terms) (tv_tranche_amount terms) c) calls
}.

Lemma vesting_life presented calls o a : life (vesting_opening beneficiary terms) a0 presented calls o a -> trusted presented ->
  vesting_inv calls (ob_state o) a.
Proof.
  intros Hl Hn. destruct Hterms as (H1 & H2 & H3 & H4 & H5). destruct Hok as [(S1 & S2 & S3) Hpos]. unfold in_range in *.
  refine (lifecycle_invariant _ _ _ _ _ digest_bytes (proj1 vesting_wf) vesting_inv _ _ _ _ Hl Hn _ _).
  { constructor; cbn; unfold vesting_due, in_range; cbn; try lia; constructor. }
  clear Hl Hn presented calls o a. intros calls s page height t [Es Hd [Ht Hnn] Hs Hc] Hb Hh HT Hrun.
  destruct (allowance_claim _ _ _ _ _ _ _ _ _ _ _ _ HT) as [Hclaim Hres]. destruct (page_amounts page Hb) as (B1 & B2 & B3). unfold in_range, debit in *.
  subst s. apply runs_installed in Hrun as (r & Hr & En); [|repeat constructor; cbn; unfold in_range; lia|unfold in_range; nia|exact Hd].
  pose proof (cl_height _ _ _ _ _ _ Hclaim) as Hheight. cbn [called fst snd] in Hheight.
  apply vesting_before in Hr as (R1 & R2 & R3 & R4 & ->); [|now apply Z.ltb_lt]. cbn [from_body cx_height cx_payout state0 state1] in *.
  assert (Edue : vesting_due terms ((page, height, t) :: calls) = vesting_due terms calls + tv_period_blocks terms) by (unfold vesting_due; cbn [length]; lia).
  constructor; rewrite ?Edue; cbn [length called fst snd scheduled].
  - rewrite En. lia.
  - unfold in_range. lia.
  - lia.
  - split; assumption.
  - constructor; [|exact Hc]. split; [|exact Hclaim]. split; [exact R2|]. destruct (cl_recipient _ _ _ _ _ _ Hclaim) as [F|F]; cbn [fst snd] in *; [lia|discriminate|congruence].
Qed.
End Vesting.

Section Budget.
Context (spending_key recovery_key : list Z) (payout_recipient : option (list Z)) (terms : PeriodBudget) (a0 : Z).
Hypothesis (Hsk : digest_ok spending_key) (Hrk : digest_ok recovery_key) (Hpr : forall k, payout_recipient = Some k -> digest_ok k).
Hypothesis (Hterms : budget_terms terms) (Hok : budget_ok terms).
Abbreviation reserve := (Z.max (bt_min_retained terms) (bt_max_fee terms)).

Lemma budget_wf : let o := budget_opening spending_key recovery_key payout_recipient terms in opening_wf o /\ valid_opening o.
Proof.
  destruct Hterms as [H1 H2 H3 H4 H5 H6 H7]. destruct Hok as [(S1 & S2 & S3) _]. unfold in_range in *.
  destruct (allowance_wf spending_key recovery_key payout_recipient (bt_recover_at terms) (bt_max_fee terms) (bt_max_payout terms) reserve) as [Hw Hm];
    try assumption; [unfold in_range; lia|].
  apply with_code_wf; try assumption.
  - apply pack_pair; unfold in_range; lia.
  - cbn. unfold PROGRAM_STEPS. lia.
  - repeat constructor; cbn; unfold in_range in *; lia.
Qed.

(** The window that is open, and the ones before it. *)
Definition window_ok (w : Z * list Call) : Prop :=
  0 <= spent w.2 <= bt_budget terms /\ Forall (fun c => called c < w.1 + bt_period_blocks terms) w.2.

Record budget_inv (calls : list Call) (s : Z) : Prop := {
  bi_state : let '(opened, group, _) := windows terms calls in
    s = (bt_budget terms - spent group) + 2 ^ 64 * (opened + bt_period_blocks terms) /\ u64 (opened + bt_period_blocks terms);
  bi_windows : Forall window_ok (all_windows terms calls);
  bi_calls : Forall (fun c => bt_start_height terms <= called c
    /\ claim_terms spending_key payout_recipient (bt_recover_at terms) (bt_max_fee terms) (bt_max_payout terms) c
    /\ 0 <= debit c.1.1) calls
}.

Lemma budget_life presented calls o a : life (budget_opening spending_key recovery_key payout_recipient terms) a0 presented calls o a -> trusted presented ->
  budget_inv calls (ob_state o).
Proof.
  intros Hl Hn. destruct Hterms as [H1 H2 H3 H4 H5 H6 H7]. destruct Hok as [(S1 & S2 & S3) [Hpos Hfee]]. unfold in_range in *.
  refine (lifecycle_invariant _ _ _ _ _ digest_bytes (proj1 budget_wf) (fun calls s _ => budget_inv calls s) _ _ _ _ Hl Hn _ _).
  { constructor; cbn; [unfold spent, in_range; cbn; lia| |constructor]. constructor; [|constructor]. split; [unfold spent; cbn; lia|constructor]. }
  clear Hl Hn presented calls o a. intros calls s page height t [Es Hw Hc] Hb Hh HT Hrun.
  destruct (allowance_claim _ _ _ _ _ _ _ _ _ _ _ _ HT) as [Hclaim Hres]. destruct (page_amounts page Hb) as (B1 & B2 & B3).
  unfold all_windows in Hw. destruct (windows terms calls) as [[opened group] closed] eqn:Ew. destruct Es as [-> Hend].
  pose proof (Forall_cons_1 _ _ _ Hw) as [[Hg Hgh] Hcl]. cbn [fst snd] in Hg, Hgh. unfold in_range, debit in *.
  apply runs_installed in Hrun as (r & Hr & En); [|repeat constructor; cbn; unfold in_range; lia|unfold in_range; lia|exact Hend].
  pose proof (cl_height _ _ _ _ _ _ Hclaim) as Hheight. cbn [called fst snd] in Hheight.
  apply budget_before in Hr as (R1 & R2 & R3 & R4 & ->); [|now apply Z.ltb_lt]. unfold window_at in *. cbn [from_body cx_height cx_payout cx_fee state0 state1] in *.
  assert (Hsp : forall l, spent ((page, height, t) :: l) = out_amount (output_at page 1) + fee page + spent l) by (intros l; reflexivity).
  destruct (height <? opened + bt_period_blocks terms) eqn:E; cbn [fst snd] in *;
    (constructor; unfold all_windows; cbn [windows called fst snd]; rewrite ?Ew; cbn [called fst snd]; rewrite ?E; [rewrite Hsp|constructor|constructor]); try assumption;
    try (split; [exact R1|]; split; [exact Hclaim|]; unfold debit; cbn [fst snd]; lia).
  - unfold in_range. lia.
  - apply Z.ltb_lt in E. split; cbn [fst snd]; [rewrite Hsp; lia|now constructor].
  - apply Z.ltb_ge in E. cbn in En |- *. unfold in_range. lia.
  - split; cbn [fst snd]; [rewrite Hsp; cbn; lia|]. constructor; [cbn; lia|constructor].
Qed.
End Budget.
End Safety.

(** ** Windows of a period budget *)

Section Windows.
Context (terms : PeriodBudget).
Abbreviation period := (bt_period_blocks terms).
Hypothesis Hperiod : 0 < period.

Lemma windows_concat calls : concat (all_windows terms calls).*2 = calls.
Proof.
  unfold all_windows. induction calls as [|c calls IH]; [reflexivity|]. cbn [windows]. destruct (windows terms calls) as [[opened group] closed].
  destruct (called c <? _); cbn in *; now rewrite IH.
Qed.

(** A window begins at or after the end of every earlier one. *)
Definition apart (w w' : Z * list Call) : Prop := w'.1 + period <= w.1.

Definition begins (w : Z * list Call) : Prop := Forall (fun c => w.1 <= called c) w.2.

Lemma windows_ordered calls : chronological calls -> Forall (fun c => bt_start_height terms <= called c) calls ->
  StronglySorted apart (all_windows terms calls) /\ Forall begins (all_windows terms calls)
  /\ ((windows terms calls).1.1 = bt_start_height terms \/ (windows terms calls).1.1 ∈ called <$> calls).
Proof.
  unfold all_windows. induction calls as [|c calls IH]; intros Hch Hst.
  { cbn. repeat constructor. }
  apply StronglySorted_inv in Hch as [Hch Hge]. apply Forall_cons_1 in Hst as [Hc Hst]. destruct (IH Hch Hst) as (IH1 & IH2 & IH3). clear IH.
  cbn [windows]. destruct (windows terms calls) as [[opened group] closed]. cbn [fst snd] in IH3.
  assert (Hop : opened <= called c).
  { destruct IH3 as [->|Hin]; [exact Hc|]. apply list_elem_of_In in Hin. apply (proj1 (List.Forall_forall _ _) Hge) in Hin. lia. }
  apply StronglySorted_inv in IH1 as [IH1 Hap]. apply Forall_cons_1 in IH2 as [Hb IH2].
  destruct (Z.ltb_spec (called c) (opened + period)) as [E|E]; cbn [fst snd].
  - split; [now constructor|]. split; [constructor; [|exact IH2]; constructor; assumption|].
    destruct IH3 as [H|H]; [now left|right; now right].
  - split; [|split; [constructor; [constructor; [cbn; lia|constructor]|now constructor]|right; left]].
    constructor; [now constructor|]. constructor; [exact E|]. eapply List.Forall_impl; [|exact Hap]. unfold apart. cbn [fst]. lia.
Qed.

Lemma spent_app l l' : spent (l ++ l') = spent l + spent l'.
Proof. unfold spent. rewrite fmap_app. apply Zsum_app. Qed.

Section Sliding.
Context (x : Z).
Abbreviation inside := (spent_between x (x + period)).

Lemma between_app l l' : inside (l ++ l') = inside l + inside l'.
Proof. unfold spent_between. rewrite list.filter_app. apply spent_app. Qed.

Lemma between_none l : Forall (fun c => called c < x \/ x + period <= called c) l -> inside l = 0.
Proof.
  unfold spent_between. induction 1 as [|c l Hc Hl IH]; [reflexivity|]. rewrite filter_cons_False; [exact IH|lia].
Qed.

Lemma between_le l : Forall (fun c => 0 <= debit c.1.1) l -> 0 <= inside l <= spent l.
Proof.
  unfold spent_between. induction 1 as [|c l Hc Hl IH]; [cbn; lia|].
  destruct (decide (x <= called c < x + period)); [rewrite filter_cons_True by assumption|rewrite filter_cons_False by assumption]; unfold spent in *; cbn [fmap list_fmap] in *;
    rewrite ?Zsum_cons; lia.
Qed.

Definition full (w : Z * list Call) : Prop := window_ok terms w /\ begins w /\ Forall (fun c => 0 <= debit c.1.1) w.2.

Lemma full_outside w : full w -> w.1 + period <= x \/ x + period <= w.1 -> inside w.2 = 0.
Proof.
  intros ([_ Hend] & Hbeg & _) H. apply between_none. apply List.Forall_forall. intros c Hc.
  apply (proj1 (List.Forall_forall _ _) Hend) in Hc as H1. apply (proj1 (List.Forall_forall _ _) Hbeg) in Hc as H2. lia.
Qed.

Lemma full_le w : full w -> inside w.2 <= bt_budget terms.
Proof. intros ([[_ H] _] & _ & Hnn). pose proof (between_le w.2 Hnn). lia. Qed.

(** Windows that end by [x] count nothing. *)
Lemma earlier_windows ws : Forall full ws -> Forall (fun w => w.1 + period <= x) ws -> inside (concat ws.*2) = 0.
Proof.
  induction 1 as [|w ws Hw Hws IH]; intros H; [reflexivity|]. apply Forall_cons_1 in H as [H1 H2]. change (concat (w :: ws).*2) with (w.2 ++ concat ws.*2). rewrite between_app, (IH H2), full_outside; auto.
Qed.

(** An interval as long as a period meets at most two windows. *)
Lemma sliding_windows ws : Forall full ws -> StronglySorted apart ws -> 0 <= bt_budget terms -> inside (concat ws.*2) <= 2 * bt_budget terms.
Proof.
  intros Hws Hs Hb. induction Hws as [|w ws Hw Hws IH]; [cbn; lia|]. apply StronglySorted_inv in Hs as [Hs Hap]. change (concat (w :: ws).*2) with (w.2 ++ concat ws.*2). rewrite between_app.
  destruct (Z.le_gt_cases (x + period) w.1) as [Hout|Hin]; [rewrite (full_outside w) by auto; now apply IH|].
  pose proof (full_le w Hw) as Hle. enough (inside (concat ws.*2) <= bt_budget terms) by lia. clear IH.
  destruct Hws as [|w' ws Hw' Hws]; [cbn; lia|]. apply StronglySorted_inv in Hs as [Hs Hap']. apply Forall_cons_1 in Hap as [H1 Hap]. unfold apart in H1.
  change (concat (w' :: ws).*2) with (w'.2 ++ concat ws.*2). rewrite between_app. pose proof (full_le w' Hw'). rewrite earlier_windows; [lia|exact Hws|]. eapply List.Forall_impl; [|exact Hap']. unfold apart. cbn. lia.
Qed.
End Sliding.
End Windows.

(** ** Calls that can always be made *)

Section Liveness.
Context (hash_tx8x2_leaves : list (Z * Z) -> list Z) (sponge_pairs digest : list Z -> list (Z * Z) -> list Z).
Hypothesis digest_bytes : forall tag pairs, digest_ok (digest tag pairs).

Lemma call_body_wf o input anchor f first payout terminal : digest_ok anchor -> u64 f -> input_wf input -> output_wf first ->
  (forall p, payout = Some p -> output_wf p) -> body_wf (call_body digest o input anchor f first payout terminal).
Proof.
  intros Ha Hf Hi H0 H1. constructor; try assumption.
  - apply digest_bytes.
  - split; [reflexivity|]. constructor; [exact Hi|]. apply Forall_replicate. repeat split; cbn; lia.
  - split; [reflexivity|]. constructor; [exact H0|]. constructor; [|constructor]. destruct payout; [now apply H1|]. split; [split; cbn; lia|]. split; [split; cbn; lia|].
    split; [reflexivity|]. apply Forall_replicate. unfold byte_ok, in_range. lia.
  - cbn. destruct (bool_decide _), terminal; split; vm_compute; discriminate || reflexivity.
Qed.

(** A payment that the terms and the program allow. *)
Lemma claim_possible sk rk rec at_ fl pl rv state code s0 s1 input slot f anchor height payout :
  let o := successor (with_code (allowance_wallet sk rk rec at_ fl pl rv) state code) (s0 + 2 ^ 64 * s1) in
  opening_wf (with_code (allowance_wallet sk rk rec at_ fl pl rv) state code) -> Forall (fun i => u64 (ins_immediate i)) code -> u64 s0 -> u64 s1 ->
  digest_ok anchor -> u64 height -> u64 f -> u32 slot -> input_wf input -> output_wf payout ->
  NoDup [in_slot_index input; slot; out_slot_index payout] ->
  height < at_ -> f <= fl -> out_amount payout <= pl -> 0 <= rv <= in_amount input - out_amount payout - f ->
  (rec = None \/ rec = Some (out_owner payout)) ->
  (forall cx, cx_height cx = height -> cx_fee cx = f -> cx_payout cx = out_amount payout -> cx_before_deadline cx = true ->
     is_Some (eval_run cx (mkRegisters s0 s1 0 0) code)) ->
  exists page, build_payment hash_tx8x2_leaves sponge_pairs digest o input slot f anchor height payout = Return page.
Proof.
  intros o Ho Hcode H0 H1 Ha Hh Hf Hslot Hi Hp Hnd Hat Hfl Hpl Hrv Hrec Hrun.
  assert (Hbefore : height <? at_ = true) by now apply Z.ltb_lt.
  pose (body w := call_body digest o input anchor f (mkTxOutput slot (in_amount input - out_amount payout - f) w) (Some payout) false).
  destruct (Hrun (from_body (body ZERO_DIGEST) height at_) eq_refl eq_refl eq_refl Hbefore) as [r Hr].
  pose (next := state0 r + 2 ^ 64 * state1 r). exists (body (root digest (successor o next))).
  assert (Hos : opening_wf o) by (apply successor_wf; [exact Ho|now apply pack_pair]).
  assert (Hb : body_wf (body (root digest (successor o next)))).
  { apply call_body_wf; try assumption; [|now intros p [= <-]]. destruct Hi as (I1 & I2 & I3), Hp as (P1 & P2 & P3). unfold in_range in *.
    split; [exact Hslot|]. split; [unfold in_range; cbn; lia|apply digest_bytes]. }
  apply (build_allowed hash_tx8x2_leaves sponge_pairs digest o input slot f anchor height false (Some payout) _ next); try assumption; try discriminate.
  - split; [apply allowance_modes_valid|]. eexists. apply encodes_padded, Hcode.
  - cbn. lia.
  - change (deadline o) with at_. rewrite Hbefore. apply allowance_modes.
  - intros _. cbn. lia.
  - intros p [= <-]. change (rules o) with (rules (allowance_wallet sk rk rec at_ fl pl rv)). rewrite allowance_any_recipient.
    destruct Hrec as [->|E]; [left; reflexivity|right]. unfold recipient_at. change (deadline o) with at_. rewrite Hbefore. cbn. now rewrite E.
  - apply runs_installed; [assumption..|]. exists r. split; [exact Hr|reflexivity].
Qed.

(** A closing call, of everything but the fee. *)
Lemma close_possible o input slot f anchor height : opening_wf o -> valid_opening o ->
  digest_ok anchor -> u64 height -> u64 f -> u32 slot -> input_wf input -> in_slot_index input <> slot ->
  f <= max_fee (rules o) -> f <= in_amount input -> Z.testbit (modes (rules o)) (mode_bit (height <? deadline o) true) = true ->
  (forall page, exists next, runs_to o page height next) ->
  build_call hash_tx8x2_leaves sponge_pairs digest o input slot f anchor height true
  = Return (call_body digest o input anchor f (mkTxOutput slot (in_amount input - f) (recipient_at o height)) None true).
Proof.
  intros Ho Hv Ha Hh Hf Hslot Hi Hne Hfl Hfa Hm Hrun.
  destruct (Hrun (call_body digest o input anchor f (mkTxOutput slot (in_amount input - f) (recipient_at o height)) None true)) as [next Hn].
  apply (build_allowed hash_tx8x2_leaves sponge_pairs digest o input slot f anchor height true None _ next); try assumption; try discriminate.
  - apply call_body_wf; try assumption; [|discriminate]. destruct Hi as (I1 & I2 & I3). unfold in_range in *. split; [exact Hslot|].
    split; [unfold in_range; cbn; lia|]. cbn. unfold recipient_at. destruct (_ <? _); [apply (ow_claim_recipient _ Ho)|apply (ow_recovery_recipient _ Ho)].
  - reflexivity.
  - cbn. constructor; [|constructor; [|constructor]]; rewrite ?list_elem_of_singleton; [exact Hne|apply not_elem_of_nil].
  - cbn. lia.
Qed.
End Liveness.

(** The openings of the application constructors. *)
Inductive deployed : ObjectOpening -> Prop :=
| deployed_payment payer payee expiry fee_limit : digest_ok payer -> digest_ok payee -> u64 expiry -> u64 fee_limit ->
    deployed (refundable_payment payer payee expiry fee_limit)
| deployed_vault owner unlock fee_limit : digest_ok owner -> u64 unlock -> u64 fee_limit -> deployed (timelocked_vault owner unlock fee_limit)
| deployed_allowance sk rk rec at_ fl pl rv : digest_ok sk -> digest_ok rk -> (forall k, rec = Some k -> digest_ok k) ->
    u64 at_ -> u64 fl -> u64 pl -> u64 rv -> deployed (allowance_wallet sk rk rec at_ fl pl rv)
| deployed_budget sk rk rec terms o : digest_ok sk -> digest_ok rk -> (forall k, rec = Some k -> digest_ok k) -> budget_terms terms ->
    period_budget_wallet sk rk rec terms = Return o -> deployed o
| deployed_recurring payer payee terms o : digest_ok payer -> digest_ok payee -> recurring_terms terms ->
    recurring_payment payer payee terms = Return o -> deployed o
| deployed_vesting beneficiary terms o : digest_ok beneficiary -> vesting_terms terms -> tranche_vesting beneficiary terms = Return o -> deployed o.

(** Each is a well-formed opening with a program that recovery always completes. *)
Lemma deployed_form o : deployed o -> opening_wf o /\ valid_opening o /\ Z.testbit (modes (rules o)) 3 = true
  /\ exists code, o = with_code o (ob_state o) code /\ Forall (fun i => u64 (ins_immediate i)) code
     /\ forall cx s0 s1, cx_before_deadline cx = false -> is_Some (eval_run cx (mkRegisters s0 s1 0 0) code).
Proof.
  assert (Hkeep : forall o, program o = KEEP_STATE -> modes (rules o) < 32 -> valid_opening o).
  { intros w Hp Hm. split; [exact Hm|]. rewrite Hp. exists ([] ++ replicate 16 KEEP). apply (encodes_padded [] 16). constructor. }
  assert (Hnil : forall w, program w = KEEP_STATE -> w = with_code w (ob_state w) []) by (intros [? ? ? ? ? ? ? ?]; cbn; now intros ->).
  destruct 1 as [payer payee expiry fl H1 H2 H3 H4|owner unlock fl H1 H2 H3|sk rk rec at_ fl pl rv H1 H2 H3 H4 H5 H6 H7|sk rk rec terms o H1 H2 H3 H4 E|payer payee terms o H1 H2 H3 E|beneficiary terms o H1 H2 E].
  - split; [|split; [now apply Hkeep|split; [reflexivity|exists []; split; [now apply Hnil|]; split; [constructor|eauto]]]].
    constructor; try assumption; [split; [reflexivity|apply keep_state_wf]|..]; split; vm_compute; discriminate || reflexivity.
  - split; [|split; [now apply Hkeep|split; [reflexivity|exists []; split; [now apply Hnil|]; split; [constructor|eauto]]]].
    constructor; try assumption; [split; [reflexivity|apply keep_state_wf]|..]; split; vm_compute; discriminate || reflexivity.
  - destruct (allowance_wf sk rk rec at_ fl pl rv) as [Hw Hm]; try assumption.
    split; [exact Hw|]. split; [now apply Hkeep|]. split; [apply (allowance_modes sk rk rec at_ fl pl rv false true)|]. exists []. split; [now apply Hnil|]. split; [constructor|eauto].
  - pose proof (budget_wallet_cases sk rk rec terms H4) as Hc. rewrite E in Hc. destruct Hc as [Hok ->]. destruct (budget_wf sk rk rec terms H1 H2 H3 H4 Hok) as [Hw Hv].
    split; [exact Hw|]. split; [exact Hv|]. split; [apply (allowance_modes sk rk rec _ _ _ _ false true)|]. exists (budget_code terms). split; [reflexivity|].
    split; [destruct H4; unfold in_range in *; repeat constructor; cbn; lia|]. intros cx s0 s1 Hb. rewrite budget_after by exact Hb. eauto.
  - pose proof (recurring_payment_cases payer payee terms H3) as Hc. rewrite E in Hc. destruct Hc as [Hok ->]. destruct (recurring_wf payer payee terms H1 H2 H3) as [Hw Hv].
    split; [exact Hw|]. split; [exact Hv|]. split; [apply (allowance_modes payee payer _ _ _ _ _ false true)|]. exists (recurring_code terms). split; [reflexivity|].
    split; [destruct H3 as (? & ? & ? & ? & ?); unfold in_range in *; repeat constructor; cbn; lia|]. intros cx s0 s1 Hb. rewrite recurring_after by exact Hb. eauto.
  - pose proof (tranche_vesting_cases beneficiary terms H2) as Hc. rewrite E in Hc. destruct Hc as [Hok ->]. destruct (vesting_wf beneficiary terms H1 H2) as [Hw Hv].
    split; [exact Hw|]. split; [exact Hv|]. split; [apply (allowance_modes beneficiary beneficiary _ _ _ _ _ false true)|]. exists (vesting_code terms). split; [reflexivity|].
    split; [destruct H2 as (? & ? & ? & ? & ?); unfold in_range in *; repeat constructor; cbn; lia|]. intros cx s0 s1 Hb. rewrite vesting_after by exact Hb. eauto.
Qed.

Lemma recovery_runs o s page height : deployed o -> u128 s -> deadline o <= height -> exists next, runs_to (successor o s) page height next.
Proof.
  intros Hd Hs Hh. destruct (deployed_form o Hd) as (_ & _ & _ & code & E & Hi & Hrun).
  destruct (Hrun (from_body page height (deadline o)) (s mod 2 ^ 64) (s / 2 ^ 64)) as [r Hr]; [now apply Z.ltb_ge|].
  exists (state0 r + 2 ^ 64 * state1 r).
  assert (Es : s = s mod 2 ^ 64 + 2 ^ 64 * (s / 2 ^ 64)) by (rewrite Z.add_comm; apply Z.div_mod; lia).
  rewrite E, Es. unfold in_range in *. apply runs_installed; [exact Hi|unfold in_range; apply Z.mod_pos_bound; lia| |exists r; split; [exact Hr|reflexivity]].
  unfold in_range. split; [apply Z.div_pos; lia|apply Z.div_lt_upper_bound; lia].
Qed.

(** ** Releases on a schedule *)

Definition released (calls : list Call) : Z := Zsum ((fun c => out_amount (output_at c.1.1 1)) <$> calls).

Lemma released_fixed amount recipient calls (P : Call -> Prop) : Forall (fun c => pays amount recipient c /\ P c) calls ->
  released calls = amount * Z.of_nat (length calls).
Proof. unfold released. induction 1 as [|c calls [[Hc _] _] _ IH]; [cbn; lia|]. cbn [fmap list_fmap length]. rewrite Zsum_cons, IH, Hc. lia. Qed.

(** A schedule no denser than one call a period bounds the calls up to a height. *)
Lemma scheduled_count first period due calls height : 0 < period -> scheduled due calls ->
  (forall earlier, scheduled due earlier -> first + Z.of_nat (length earlier) * period <= due earlier) -> Forall (fun c => called c <= height) calls ->
  Z.of_nat (length calls) <= Z.max 0 ((height - first) / period + 1).
Proof.
  intros Hp Hs Hd Hh. destruct calls as [|c earlier]; [cbn; lia|]. destruct Hs as [Hc Hs]. apply Forall_cons_1 in Hh as [Hh _]. pose proof (Hd earlier Hs).
  assert (Z.of_nat (length earlier) <= (height - first) / period) by (apply Z.div_le_lower_bound; lia). cbn [length]. lia.
Qed.

Lemma recurring_anchored terms calls : scheduled (recurring_due terms) calls ->
  rp_first_due_height terms + Z.of_nat (length calls) * rp_period_blocks terms <= recurring_due terms calls.
Proof. induction calls as [|c calls IH]; intros Hs; [cbn; lia|]. destruct Hs as [Hc Hs]. specialize (IH Hs). cbn [length recurring_due]. lia. Qed.

(** A well-typed payment of [amount] out of an instance worth [a]. *)
Record request (a : Z) (input : TxInput) (slot f : Z) (anchor : list Z) (height : Z) (payout : TxOutput) : Prop := {
  rq_anchor : digest_ok anchor;
  rq_height : u64 height;
  rq_fee : u64 f;
  rq_slot : u32 slot;
  rq_input : input_wf input;
  rq_payout : output_wf payout;
  rq_slots : NoDup [in_slot_index input; slot; out_slot_index payout];
  rq_amount : in_amount input = a
}.

(** A concrete key, input, payout and digest. *)
Definition example_key (k : Z) : list Z := replicate 32 k.

Lemma example_key_ok k : 0 <= k < 256 -> digest_ok (example_key k).
Proof. intros H. split; [reflexivity|]. apply Forall_replicate. exact H. Qed.

Definition example_input : TxInput := mkTxInput 4 500 1.
Definition example_payout : TxOutput := mkTxOutput 6 40 (example_key 3).

Lemma example_request height : u64 height -> request 500 example_input 5 3 (example_key 9) height example_payout.
Proof.
  intros Hh. constructor; try apply example_key_ok; try lia; try exact Hh; try (split; vm_compute; discriminate || reflexivity); try reflexivity.
  - repeat split; vm_compute; discriminate || reflexivity.
  - split; [split; vm_compute; discriminate || reflexivity|]. split; [split; vm_compute; discriminate || reflexivity|apply example_key_ok; lia].
  - apply (bool_decide_unpack _). reflexivity.
Qed.

Lemma example_digest_ok tag pairs : digest_ok (example_digest tag pairs).
Proof. apply (example_key_ok 7). lia. Qed.

Lemma no_presentations (P : ObjectOpening * ObjectOpening -> Prop) : forall p, p ∈ [] -> P p.
Proof. intros p H. now apply not_elem_of_nil in H. Qed.

Definition example_budget : PeriodBudget := mkBudgetTerms 10 5 100 50 3 40 0.
Definition example_vesting : TrancheVesting := mkVesting 10 5 40 50 3.
Definition example_recurring : RecurringPayment := mkRecurring 10 5 40 50 3.

(** ** Properties *)

(** C17. The period budget is kept over the whole life of the wallet.  The
    constructor never panics and accepts precisely the terms with a non-empty
    period and budget, a fee limit within the budget, a start before the recovery
    height and no overflow.  Then,
    for every chronological sequence of calls on a funded wallet, whatever
    openings their callers present short of a hash collision: calls lie between
    the start and the recovery height, under the spending key, within the fee,
    payout and recipient terms; they fall into disjoint windows of [period_blocks]
    heights whose debits, fees included, are each within the budget; so any
    [period_blocks] consecutive heights see at most twice the budget.  And a
    payment within these terms and what is left of the window can be built. *)
Theorem period_budget_limits hash sponge digest spending_key recovery_key payout_recipient (terms : PeriodBudget) :
  (forall tag pairs, digest_ok (digest tag pairs)) ->
  digest_ok spending_key -> digest_ok recovery_key -> (forall k, payout_recipient = Some k -> digest_ok k) -> budget_terms terms ->
  match period_budget_wallet spending_key recovery_key payout_recipient terms with
  | Return o0 => budget_ok terms /\ forall a0 presented calls o a,
      lifecycle hash sponge digest o0 a0 presented calls o a -> (forall p, p ∈ presented -> ~ colliding digest p.1 p.2) -> chronological calls ->
      Forall (fun c => bt_start_height terms <= called c
        /\ claim_terms spending_key payout_recipient (bt_recover_at terms) (bt_max_fee terms) (bt_max_payout terms) c) calls
      /\ concat (all_windows terms calls).*2 = calls /\ StronglySorted (apart terms) (all_windows terms calls)
      /\ Forall (fun w => spent w.2 <= bt_budget terms /\ Forall (fun c => w.1 <= called c < w.1 + bt_period_blocks terms) w.2) (all_windows terms calls)
      /\ (forall x, spent_between x (x + bt_period_blocks terms) calls <= 2 * bt_budget terms)
      /\ forall input slot f anchor height payout, request a input slot f anchor height payout ->
           bt_start_height terms <= height < bt_recover_at terms -> f <= bt_max_fee terms -> out_amount payout <= bt_max_payout terms ->
           (payout_recipient = None \/ payout_recipient = Some (out_owner payout)) ->
           f + out_amount payout <= (let '(opened, group, _) := windows terms calls in
                                     bt_budget terms - if height <? opened + bt_period_blocks terms then spent group else 0) ->
           Z.max (bt_min_retained terms) (bt_max_fee terms) <= a - out_amount payout - f ->
           exists page, build_payment hash sponge digest o input slot f anchor height payout = Return page
  | Fail _ => ~ budget_ok terms
  | Panic => False
  end.
Proof.
  intros Hd Hsk Hrk Hpr Ht. pose proof (budget_wallet_cases spending_key recovery_key payout_recipient terms Ht) as Hc.
  destruct (period_budget_wallet _ _ _ _) as [o0|e|]; [|exact Hc|exact Hc]. destruct Hc as [Hok ->]. split; [exact Hok|].
  intros a0 presented calls o a Hl Hn Hch. destruct (budget_life hash sponge digest Hd _ _ _ terms a0 Hsk Hrk Hpr Ht Hok presented calls o a Hl Hn) as [Hst Hwin Hcalls].
  pose proof Ht as [T1 T2 T3 T4 T5 T6 T7]. pose proof Hok as [(S1 & S2 & S3) [Hpos Hfee]].
  assert (Hstart : Forall (fun c => bt_start_height terms <= called c) calls) by (eapply List.Forall_impl; [|exact Hcalls]; now intros c (? & ? & ?)).
  assert (Hnn : Forall (fun c => 0 <= debit c.1.1) calls) by (eapply List.Forall_impl; [|exact Hcalls]; now intros c (? & ? & ?)).
  destruct (windows_ordered terms S1 calls Hch Hstart) as (Hsort & Hbeg & _). pose proof (windows_concat terms calls) as Hcat.
  assert (Hfull : Forall (full terms) (all_windows terms calls)).
  { apply List.Forall_forall. intros w Hw. split; [now apply (proj1 (List.Forall_forall _ _) Hwin)|]. split; [now apply (proj1 (List.Forall_forall _ _) Hbeg)|].
    rewrite <- Hcat in Hnn. apply (proj1 (List.Forall_concat _ _)) in Hnn. apply (proj1 (List.Forall_forall _ _) Hnn). now apply (List.in_map snd). }
  split; [eapply List.Forall_impl; [|exact Hcalls]; intros c (? & ? & ?); now split|]. split; [exact Hcat|]. split; [exact Hsort|]. split; [|split].
  - eapply List.Forall_impl; [|exact Hfull]. intros w ([Hs He] & Hb & _). split; [lia|]. apply List.Forall_forall. intros c Hc.
    split; [now apply (proj1 (List.Forall_forall _ _) Hb)|now apply (proj1 (List.Forall_forall _ _) He)].
  - intros x. rewrite <- Hcat. now apply sliding_windows; unfold in_range in *; try lia.
  - intros input slot f anchor height payout [] Hh Hf Hp Hr Hleft Hres. unfold all_windows in Hwin.
    destruct (windows terms calls) as [[opened group] closed]. destruct Hst as [Es Hend]. apply Forall_cons_1 in Hwin as [[Hsp _] _]. cbn [fst snd] in Hsp.
    destruct (lifecycle_ok hash sponge digest _ a0 Hd (proj1 (budget_wf _ _ _ terms Hsk Hrk Hpr Ht Hok)) presented calls o a Hl Hn) as (_ & -> & _ & _).
    rewrite Es. unfold budget_opening. unfold in_range in *. apply claim_possible; try assumption.
    + exact (proj1 (budget_wf _ _ _ terms Hsk Hrk Hpr Ht Hok)).
    + repeat constructor; cbn; unfold in_range; lia.
    + unfold in_range; lia.
    + lia.
    + lia.
    + intros cx C1 C2 C3 C4. destruct rq_payout0 as (_ & P2 & _), rq_input0 as (_ & I2 & _). unfold in_range in P2, I2.
      assert (E : f + out_amount payout <= (window_at cx (bt_budget terms - spent group) (opened + bt_period_blocks terms) terms).1)
        by (unfold window_at; rewrite C1; destruct (height <? _); cbn [fst]; lia).
      eexists. apply (budget_before cx _ _ terms _ C4). rewrite C1, C2, C3. split; [lia|]. split; [lia|]. split; [lia|]. split; [exact E|reflexivity].
Qed.

Lemma period_budget_limits_witness : exists page,
  build_payment (fun _ => []) (fun _ _ => []) example_digest (budget_opening (example_key 1) (example_key 2) None example_budget)
    example_input 5 3 (example_key 9) 12 example_payout = Return page.
Proof.
  pose proof (period_budget_limits (fun _ => []) (fun _ _ => []) example_digest (example_key 1) (example_key 2) None example_budget example_digest_ok
    ltac:(apply example_key_ok; lia) ltac:(apply example_key_ok; lia) ltac:(discriminate) ltac:(constructor; split; vm_compute; discriminate || reflexivity)) as H.
  assert (E : period_budget_wallet (example_key 1) (example_key 2) None example_budget = Return (budget_opening (example_key 1) (example_key 2) None example_budget))
    by (vm_compute; reflexivity).
  rewrite E in H. destruct H as [_ H]. destruct (H 500 [] [] _ 500 (life_funded _ _ _ _ _) (no_presentations _) ltac:(constructor)) as (_ & _ & _ & _ & _ & Hp).
  apply Hp; [apply example_request; split; vm_compute; discriminate || reflexivity|split; vm_compute; discriminate || reflexivity|vm_compute; discriminate|vm_compute; discriminate|now left|vm_compute; discriminate|vm_compute; discriminate].
Defined.

(** C18. Vesting releases on an anchored schedule.  The constructor never panics
    and accepts precisely the terms with a non-empty period and tranche, a first
    height before maturity and no overflow.  On a funded instance, the [k]-th
    claim (from zero) comes no sooner than [k] periods after the first height and
    before maturity, under the beneficiary's key, and pays the beneficiary exactly
    one tranche; so what is released up to a height is bounded by the tranches due
    by then.  No tranche is lost: however late the earlier claims were, the next
    one can be built as soon as it is due, while the balance covers the tranche,
    the fee and the closing reserve. *)
Theorem vesting_schedule_exact hash sponge digest beneficiary (terms : TrancheVesting) :
  (forall tag pairs, digest_ok (digest tag pairs)) -> digest_ok beneficiary -> vesting_terms terms ->
  match tranche_vesting beneficiary terms with
  | Return o0 => vesting_ok terms /\ forall a0 presented calls o a, u64 a0 ->
      lifecycle hash sponge digest o0 a0 presented calls o a -> (forall p, p ∈ presented -> ~ colliding digest p.1 p.2) ->
      scheduled (vesting_due terms) calls
      /\ Forall (fun c => pays (tv_tranche_amount terms) beneficiary c
           /\ claim_terms beneficiary (Some beneficiary) (tv_mature_at terms) (tv_max_fee terms) (tv_tranche_amount terms) c) calls
      /\ (forall height, Forall (fun c => called c <= height) calls ->
           released calls <= tv_tranche_amount terms * Z.max 0 ((height - tv_first_unlock_height terms) / tv_period_blocks terms + 1))
      /\ forall input slot f anchor height payout, request a input slot f anchor height payout ->
           vesting_due terms calls <= height < tv_mature_at terms -> f <= tv_max_fee terms ->
           out_amount payout = tv_tranche_amount terms -> out_owner payout = beneficiary -> tv_max_fee terms <= a - tv_tranche_amount terms - f ->
           exists page, build_payment hash sponge digest o input slot f anchor height payout = Return page
  | Fail _ => ~ vesting_ok terms
  | Panic => False
  end.
Proof.
  intros Hd Hb Ht. pose proof (tranche_vesting_cases beneficiary terms Ht) as Hc. destruct (tranche_vesting _ _) as [o0|e|]; [|exact Hc|exact Hc].
  destruct Hc as [Hok ->]. split; [exact Hok|]. intros a0 presented calls o a Ha0 Hl Hn.
  destruct (vesting_life hash sponge digest Hd beneficiary terms a0 Hb Ht Hok Ha0 presented calls o a Hl Hn) as [Es Hdue [Htot Hnn] Hs Hcalls].
  pose proof Ht as (T1 & T2 & T3 & T4 & T5). pose proof Hok as [(S1 & S2 & S3) Hpos]. unfold in_range in *.
  split; [exact Hs|]. split; [exact Hcalls|]. split.
  - intros height Hh. rewrite (released_fixed _ _ _ _ Hcalls). apply Z.mul_le_mono_nonneg_l; [lia|].
    apply (scheduled_count _ _ (vesting_due terms)); [exact S1|exact Hs| |exact Hh]. intros earlier _. unfold vesting_due. lia.
  - intros input slot f anchor height payout [] Hh Hf Hp Hr Hres.
    destruct (lifecycle_ok hash sponge digest _ a0 Hd (proj1 (vesting_wf _ terms Hb Ht)) presented calls o a Hl Hn) as (_ & -> & _ & _).
    rewrite Es. unfold vesting_opening. unfold in_range in *. apply claim_possible; try assumption; try lia.
    + exact (proj1 (vesting_wf _ terms Hb Ht)).
    + repeat constructor; cbn; unfold in_range; lia.
    + unfold in_range. nia.
    + now right; rewrite Hr.
    + intros cx C1 C2 C3 C4. eexists. apply (vesting_before cx _ _ terms _ C4). rewrite C1, C3, Hp. split; [lia|]. split; [reflexivity|]. split; [nia|].
      split; [lia|reflexivity].
Qed.

Lemma vesting_schedule_exact_witness : exists page,
  build_payment (fun _ => []) (fun _ _ => []) example_digest (vesting_opening (example_key 3) example_vesting)
    example_input 5 3 (example_key 9) 12 example_payout = Return page.
Proof.
  pose proof (vesting_schedule_exact (fun _ => []) (fun _ _ => []) example_digest (example_key 3) example_vesting example_digest_ok
    ltac:(apply example_key_ok; lia) ltac:(repeat split; vm_compute; discriminate || reflexivity)) as H.
  assert (E : tranche_vesting (example_key 3) example_vesting = Return (vesting_opening (example_key 3) example_vesting)) by (vm_compute; reflexivity).
  rewrite E in H. destruct H as [_ H].
  destruct (H 500 [] [] _ 500 ltac:(split; vm_compute; discriminate || reflexivity) (life_funded _ _ _ _ _) (no_presentations _)) as (_ & _ & _ & Hp).
  apply Hp; [apply example_request; split; vm_compute; discriminate || reflexivity|split; vm_compute; discriminate || reflexivity|vm_compute; discriminate|reflexivity|reflexivity|vm_compute; discriminate].
Defined.

(** C19. Recurring payments come one a period.  The constructor never panics and
    accepts precisely the terms with a non-empty period and payment, a first due
    height before recovery and no overflow.  On a funded instance every claim
    comes at the first due height or a full period after the claim before it,
    before the recovery height, under the payee's key, and pays the payee exactly
    the fixed payment; missed periods do not accumulate, so what is paid up to a
    height is bounded by the payments of the periods begun by then.  When the next
    payment is due it can be built, while the balance covers the payment, the fee
    and the closing reserve. *)
Theorem recurring_payment_exact hash sponge digest payer payee (terms : RecurringPayment) :
  (forall tag pairs, digest_ok (digest tag pairs)) -> digest_ok payer -> digest_ok payee -> recurring_terms terms ->
  match recurring_payment payer payee terms with
  | Return o0 => recurring_ok terms /\ forall a0 presented calls o a, u64 a0 ->
      lifecycle hash sponge digest o0 a0 presented calls o a -> (forall p, p ∈ presented -> ~ colliding digest p.1 p.2) ->
      scheduled (recurring_due terms) calls
      /\ Forall (fun c => pays (rp_payment terms) payee c
           /\ claim_terms payee (Some payee) (rp_recover_at terms) (rp_max_fee terms) (rp_payment terms) c) calls
      /\ (forall height, Forall (fun c => called c <= height) calls ->
           released calls <= rp_payment terms * Z.max 0 ((height - rp_first_due_height terms) / rp_period_blocks terms + 1))
      /\ forall input slot f anchor height payout, request a input slot f anchor height payout ->
           recurring_due terms calls <= height < rp_recover_at terms -> f <= rp_max_fee terms ->
           out_amount payout = rp_payment terms -> out_owner payout = payee -> rp_max_fee terms <= a - rp_payment terms - f ->
           exists page, build_payment hash sponge digest o input slot f anchor height payout = Return page
  | Fail _ => ~ recurring_ok terms
  | Panic => False
  end.
Proof.
  intros Hd Hpr Hpe Ht. pose proof (recurring_payment_cases payer payee terms Ht) as Hc. destruct (recurring_payment _ _ _) as [o0|e|]; [|exact Hc|exact Hc].
  destruct Hc as [Hok ->]. split; [exact Hok|]. intros a0 presented calls o a Ha0 Hl Hn.
  destruct (recurring_life hash sponge digest Hd payer payee terms a0 Hpr Hpe Ht Hok Ha0 presented calls o a Hl Hn) as [Es Hdue [Htot Hnn] Hs Hcalls].
  pose proof Ht as (T1 & T2 & T3 & T4 & T5). pose proof Hok as [(S1 & S2 & S3) Hpos]. unfold in_range in *.
  split; [exact Hs|]. split; [exact Hcalls|]. split.
  - intros height Hh. rewrite (released_fixed _ _ _ _ Hcalls). apply Z.mul_le_mono_nonneg_l; [lia|].
    apply (scheduled_count _ _ (recurring_due terms)); [exact S1|exact Hs|apply recurring_anchored|exact Hh].
  - intros input slot f anchor height payout [] Hh Hf Hp Hr Hres.
    destruct (lifecycle_ok hash sponge digest _ a0 Hd (proj1 (recurring_wf _ _ terms Hpr Hpe Ht)) presented calls o a Hl Hn) as (_ & -> & _ & _).
    rewrite Es. unfold recurring_opening. unfold in_range in *. apply claim_possible; try assumption; try lia.
    + exact (proj1 (recurring_wf _ _ terms Hpr Hpe Ht)).
    + repeat constructor; cbn; unfold in_range; lia.
    + unfold in_range. nia.
    + now right; rewrite Hr.
    + intros cx C1 C2 C3 C4. eexists. apply (recurring_before cx _ _ terms _ C4). rewrite C1, C3, Hp. split; [lia|]. split; [reflexivity|]. split; [nia|].
      split; [lia|reflexivity].
Qed.

Lemma recurring_payment_exact_witness : exists page,
  build_payment (fun _ => []) (fun _ _ => []) example_digest (recurring_opening (example_key 2) (example_key 3) example_recurring)
    example_input 5 3 (example_key 9) 12 example_payout = Return page.
Proof.
  pose proof (recurring_payment_exact (fun _ => []) (fun _ _ => []) example_digest (example_key 2) (example_key 3) example_recurring example_digest_ok
    ltac:(apply example_key_ok; lia) ltac:(apply example_key_ok; lia) ltac:(repeat split; vm_compute; discriminate || reflexivity)) as H.
  assert (E : recurring_payment (example_key 2) (example_key 3) example_recurring = Return (recurring_opening (example_key 2) (example_key 3) example_recurring))
    by (vm_compute; reflexivity).
  rewrite E in H. destruct H as [_ H].
  destruct (H 500 [] [] _ 500 ltac:(split; vm_compute; discriminate || reflexivity) (life_funded _ _ _ _ _) (no_presentations _)) as (_ & _ & _ & Hp).
  apply Hp; [apply example_request; split; vm_compute; discriminate || reflexivity|split; vm_compute; discriminate || reflexivity|vm_compute; discriminate|reflexivity|reflexivity|vm_compute; discriminate].
Defined.

(** C20. Recovery is always possible.  From the deadline on, for an instance of any
    of the six constructors and after any calls, a closing call that moves the
    whole balance, less any permitted fee, to the recovery recipient can be built:
    no state a program can reach, and no height, blocks it.  The fee is covered
    by the balance itself or, once a call was made, by the reserve of the terms.
    A fee that takes the whole balance leaves a live output of amount zero, which
    the code builds and accepts; with a smaller fee the output is positive. *)
Theorem recovery_always_possible hash sponge digest (o0 : ObjectOpening) (a0 : Z) presented calls (o : ObjectOpening) (a : Z) input slot f anchor height :
  (forall tag pairs, digest_ok (digest tag pairs)) -> deployed o0 ->
  lifecycle hash sponge digest o0 a0 presented calls o a -> (forall p, p ∈ presented -> ~ colliding digest p.1 p.2) ->
  digest_ok anchor -> u64 height -> u64 f -> u32 slot -> input_wf input -> in_slot_index input <> slot -> in_amount input = a ->
  deadline o0 <= height -> f <= max_fee (rules o0) -> f <= a \/ (calls <> [] /\ max_fee (rules o0) <= min_retained (rules o0)) ->
  exists page, build_call hash sponge digest o input slot f anchor height true = Return page
    /\ outputs page = [mkTxOutput slot (a - f) (recovery_recipient o0); TxOutput_dummy].
Proof.
  intros Hd Hdep Hl Hn Ha Hh Hf Hs Hi Hne Eamt Hdl Hfee Hcov. destruct (deployed_form o0 Hdep) as (Hw & Hv & Hm & _).
  destruct (lifecycle_ok hash sponge digest o0 a0 Hd Hw presented calls o a Hl Hn) as (Ho & Eo & _ & Hterms).
  assert (Hfa : f <= a).
  { destruct Hcov as [?|[Hc Hr]]; [assumption|]. destruct Hl as [|presented calls o a o' page ht t Hl]; [contradiction|].
    apply Forall_cons_1 in Hterms as [T _]. pose proof (tm_retained _ _ _ _ T). cbn [fst snd] in *. lia. }
  assert (Hafter : height <? deadline o = false) by (rewrite Eo; now apply Z.ltb_ge).
  pose proof (ow_state _ Ho) as Hst. rewrite close_possible; try assumption.
  - eexists. split; [reflexivity|]. cbn [outputs call_body]. rewrite Eamt. unfold recipient_at. rewrite Hafter. now rewrite Eo.
  - rewrite Eo. exact Hv.
  - now rewrite Eo.
  - lia.
  - rewrite Hafter, Eo. exact Hm.
  - intros page. rewrite Eo. now apply recovery_runs.
Qed.

Lemma recovery_always_possible_witness : exists page,
  build_call (fun _ => []) (fun _ _ => []) example_digest (vesting_opening (example_key 3) example_vesting) example_input 5 3 (example_key 9) 50 true = Return page
  /\ outputs page = [mkTxOutput 5 497 (example_key 3); TxOutput_dummy].
Proof.
  apply (recovery_always_possible (fun _ => []) (fun _ _ => []) example_digest (vesting_opening (example_key 3) example_vesting) 500 [] []
    (vesting_opening (example_key 3) example_vesting) 500
    example_input 5 3 (example_key 9) 50 example_digest_ok).
  - apply (deployed_vesting (example_key 3) example_vesting);
      [apply example_key_ok; lia|repeat split; vm_compute; discriminate || reflexivity|vm_compute; reflexivity].
  - apply life_funded.
  - apply no_presentations.
  - apply example_key_ok. lia.
  - split; vm_compute; discriminate || reflexivity.
  - split; vm_compute; discriminate || reflexivity.
  - split; vm_compute; discriminate || reflexivity.
  - repeat split; vm_compute; discriminate || reflexivity.
  - discriminate.
  - reflexivity.
  - cbn. lia.
  - cbn. lia.
  - left. lia.
Defined.

(** C21. Refundable payments and vaults pay the right party.  A refundable payment
    accepts closing calls only: before its expiry they pay the payee under the
    payee's key, from then on the payer under the payer's, and at every height
    such a call, with a permitted fee, can be built.  A vault accepts no call
    before its unlock height, whoever authorizes it, and then only closing calls
    that return the balance to the owner. *)
Theorem payment_and_vault_exact hash sponge digest payer payee owner (expiry unlock fee_limit height : Z) :
  (forall tag pairs, digest_ok (digest tag pairs)) -> digest_ok payer -> digest_ok payee -> digest_ok owner ->
  u64 expiry -> u64 unlock -> u64 fee_limit -> u64 height ->
  (forall page t, body_wf page -> check_call hash sponge digest (refundable_payment payer payee expiry fee_limit) page height = Return t ->
     let party := if height <? expiry then payee else payer in
     ct_terminal t = true /\ ct_authority t = party /\ fee page <= fee_limit
     /\ outputs page = [mkTxOutput (out_slot_index (output_at page 0)) (in_amount (input_at page 0) - fee page) party; TxOutput_dummy])
  /\ (forall input slot f anchor, digest_ok anchor -> u64 f -> u32 slot -> input_wf input -> in_slot_index input <> slot -> f <= fee_limit -> f <= in_amount input ->
     exists page, build_call hash sponge digest (refundable_payment payer payee expiry fee_limit) input slot f anchor height true = Return page)
  /\ (forall page t, body_wf page -> check_call hash sponge digest (timelocked_vault owner unlock fee_limit) page height = Return t ->
     unlock <= height /\ ct_terminal t = true /\ ct_authority t = owner /\ fee page <= fee_limit
     /\ outputs page = [mkTxOutput (out_slot_index (output_at page 0)) (in_amount (input_at page 0) - fee page) owner; TxOutput_dummy]).
Proof.
  intros Hd H1 H2 H3 H4 H5 H6 Hh.
  destruct (deployed_form _ (deployed_payment payer payee expiry fee_limit H1 H2 H4 H6)) as (Hwp & Hvp & _).
  destruct (deployed_form _ (deployed_vault owner unlock fee_limit H3 H5 H6)) as (Hwv & Hvv & _).
  assert (Hout : forall page, body_wf page -> output_at page 1 = TxOutput_dummy ->
    outputs page = [mkTxOutput (out_slot_index (output_at page 0)) (out_amount (output_at page 0)) (out_owner (output_at page 0)); TxOutput_dummy]).
  { intros page Hb E. destruct (wf_outputs _ Hb) as [L _]. unfold output_at in *. destruct (outputs page) as [|x [|y [|]]]; try discriminate L. cbn in *. subst y. now destruct x. }
  split; [|split].
  - intros page t Hb Ht. destruct (call_step hash sponge digest _ _ page height t Hwp Hb Hh eq_refl Ht) as (Hbal & Hf & _ & Hau & _ & H).
    destruct (ct_terminal t); [|destruct H as [T _]; pose proof (tm_mode _ _ _ _ T) as F; cbn in F; destruct (height <? expiry); discriminate F].
    destruct H as (E1 & E2 & _). unfold recipient_at, authority_at in *. cbn in Hf, Hau, E2. unfold debit in Hbal. rewrite E1 in Hbal. cbn in Hbal.
    split; [reflexivity|]. split; [exact Hau|]. split; [exact Hf|]. rewrite (Hout page Hb E1), E2. do 2 f_equal. lia.
  - intros input slot f anchor Ha Hf Hs Hi Hne Hfl Hfa. eexists. apply close_possible; try assumption; [destruct (height <? _); reflexivity|].
    intros page. exists 0. exists (replicate 16 KEEP), (mkRegisters 0 0 0 0). split; [apply (encodes_padded [] 16); constructor|]. split; [|reflexivity].
    apply eval_run_iff. apply eval_keep.
  - intros page t Hb Ht. destruct (call_step hash sponge digest _ _ page height t Hwv Hb Hh eq_refl Ht) as (Hbal & Hf & _ & Hau & _ & H).
    destruct (ct_terminal t); [|destruct H as [T _]; pose proof (tm_mode _ _ _ _ T) as F; cbn in F; destruct (height <? unlock); discriminate F].
    destruct H as (E1 & E2 & F). unfold recipient_at, authority_at in *. cbn in Hf, Hau, E2, F. unfold debit in Hbal. rewrite E1 in Hbal. cbn in Hbal.
    destruct (Z.ltb_spec height unlock) as [Hlt|Hge]; [discriminate F|]. split; [exact Hge|]. split; [reflexivity|]. split; [exact Hau|]. split; [exact Hf|].
    rewrite (Hout page Hb E1), E2. do 2 f_equal. lia.
Qed.

Lemma payment_and_vault_exact_witness : exists page,
  build_call (fun _ => []) (fun _ _ => []) example_digest (refundable_payment (example_key 2) (example_key 3) 50 3) example_input 5 3 (example_key 9) 12 true = Return page.
Proof.
  apply (payment_and_vault_exact (fun _ => []) (fun _ _ => []) example_digest (example_key 2) (example_key 3) (example_key 4) 50 60 3 12 example_digest_ok);
    try (apply example_key_ok; lia); try (split; vm_compute; discriminate || reflexivity).
  - repeat split; vm_compute; discriminate || reflexivity.
  - discriminate.
  - lia.
  - cbn. lia.
Defined.
