(* ===== verification/Merkle.v ===== *)
(** * Binary Merkle trees

    The level-by-level trees of the repository over any two-to-one function:
    the whole-tree loop of [noid_chain/src/tx_tree.rs] and
    [noid_poseidon2b/src/primitives.rs], paths and their evaluation.  The
    statements that a root binds its leaves name an explicit collision of the
    two-to-one function, computed from the data at hand. *)

From Stdlib Require Import ZArith Lia Bool.
From stdpp Require Import base numbers list option gmap.
From S2P Require Import Prelude.

Section Tree.
Context {D : Type} `{!EqDecision D}.
Variable zero : D.
Variable node : D -> D -> D.

(** [layer.chunks_exact(2).map(|pair| node(pair[0], pair[1]))] *)
Fixpoint level (l : list D) : list D :=
  match l with
  | a :: b :: rest => node a b :: level rest
  | _ => []
  end.

(** [while layer.len() > 1]: a level at least halves a layer of two or more, so
    as many rounds as there are leaves are enough ([tree_loop_root]). *)
Fixpoint tree_loop (fuel : nat) (layer : list D) : list D :=
  match fuel with
  | O => layer
  | S fuel => if (1 <? length layer)%nat then tree_loop fuel (level layer) else layer
  end.

(** The siblings of a position, from the leaves up. *)
Fixpoint path_loop (fuel : nat) (layer : list D) (index : nat) : list D :=
  match fuel with
  | O => []
  | S fuel =>
      if (1 <? length layer)%nat
      then nth (Nat.lxor index 1) layer zero :: path_loop fuel (level layer) (Nat.div2 index)
      else []
  end.

(** [node(sibling, current)] when the bit of the level is set. *)
Definition climb (index : nat) (current sibling : D) : D :=
  if Nat.odd index then node sibling current else node current sibling.

Fixpoint fold_path (current : D) (path : list D) (index : nat) : D :=
  match path with
  | [] => current
  | s :: path => fold_path (climb index current s) path (Nat.div2 index)
  end.

(** ** Levels of a perfect tree *)

Lemma pow2_nat k : (0 < 2 ^ k)%nat.
Proof. apply Nat.neq_0_lt_0, Nat.pow_nonzero. lia. Qed.

Definition root_at (k : nat) (l : list D) : D := nth 0 (Nat.iter k level l) zero.

Lemma level_length n l : length l = (2 * n)%nat -> length (level l) = n.
Proof.
  revert l. induction n as [|n IH]; intros l Hl; [now destruct l|].
  destruct l as [|a [|b l]]; cbn in Hl; try lia. cbn. f_equal. apply IH. lia.
Qed.

Lemma level_lookup l i n : length l = (2 * n)%nat -> (i < n)%nat ->
  nth i (level l) zero = node (nth (2 * i) l zero) (nth (2 * i + 1) l zero).
Proof.
  revert l n. induction i as [|i IH]; intros l n Hl Hi; destruct l as [|a [|b l]]; cbn in Hl; try lia;
    [reflexivity|].
  cbn [level nth]. rewrite (IH l (n - 1)%nat) by lia.
  replace (2 * S i)%nat with (S (S (2 * i))) by lia. now replace (S (S (2 * i)) + 1)%nat with (S (S (2 * i + 1))) by lia.
Qed.

Lemma iter_level_S k l : Nat.iter (S k) level l = Nat.iter k level (level l).
Proof. apply Nat.iter_succ_r. Qed.

Lemma root_at_S k l : root_at (S k) l = root_at k (level l).
Proof. unfold root_at. now rewrite iter_level_S. Qed.

Lemma tree_loop_root k : forall fuel l, (k <= fuel)%nat -> length l = (2 ^ k)%nat ->
  tree_loop fuel l = [root_at k l].
Proof.
  induction k as [|k IH]; intros fuel l Hf Hl.
  - destruct l as [|a [|]]; try discriminate Hl. unfold root_at. cbn. now destruct fuel.
  - destruct fuel as [|fuel]; [lia|]. cbn [tree_loop]. cbn [Nat.pow] in Hl.
    pose proof (pow2_nat k).
    destruct (Nat.ltb_spec 1 (length l)); [|lia]. rewrite root_at_S. apply IH; [lia|].
    apply level_length. lia.
Qed.

Lemma path_loop_length k : forall fuel l i, (k <= fuel)%nat -> length l = (2 ^ k)%nat ->
  length (path_loop fuel l i) = k.
Proof.
  induction k as [|k IH]; intros fuel l i Hf Hl.
  - destruct fuel; [reflexivity|]. cbn in *. now rewrite Hl.
  - destruct fuel as [|fuel]; [lia|]. cbn [path_loop]. cbn [Nat.pow] in Hl.
    pose proof (pow2_nat k).
    destruct (Nat.ltb_spec 1 (length l)); [|lia]. cbn [length]. f_equal. apply IH; [lia|].
    apply level_length. lia.
Qed.

(** ** Positions *)

Lemma sibling_even i : Nat.odd i = false -> i = (2 * Nat.div2 i)%nat /\ Nat.lxor i 1 = (2 * Nat.div2 i + 1)%nat.
Proof.
  intros Ho. pose proof (Nat.div2_odd i) as E. rewrite Ho in E. cbn [Nat.b2n] in E. split; [lia|].
  replace i with (2 * Nat.div2 i)%nat at 1 by lia. generalize (Nat.div2 i). clear. intros n.
  apply Nat.bits_inj. intros m. rewrite Nat.lxor_spec. destruct m as [|m].
  - rewrite Nat.testbit_odd_0, Nat.testbit_even_0. reflexivity.
  - rewrite Nat.testbit_odd_succ, Nat.testbit_even_succ by lia. cbn. now rewrite Nat.bits_0, xorb_false_r.
Qed.

Lemma sibling_odd i : Nat.odd i = true -> i = (2 * Nat.div2 i + 1)%nat /\ Nat.lxor i 1 = (2 * Nat.div2 i)%nat.
Proof.
  intros Ho. pose proof (Nat.div2_odd i) as E. rewrite Ho in E. cbn [Nat.b2n] in E. split; [lia|].
  rewrite E at 1. generalize (Nat.div2 i). clear. intros n.
  apply Nat.bits_inj. intros m. rewrite Nat.lxor_spec. destruct m as [|m].
  - rewrite Nat.testbit_odd_0, Nat.testbit_even_0. reflexivity.
  - rewrite Nat.testbit_odd_succ, Nat.testbit_even_succ by lia. cbn. now rewrite Nat.bits_0, xorb_false_r.
Qed.

(** The pair of leaves under the parent of a position. *)
Definition pair_at (l : list D) (i : nat) : D * D :=
  (nth (2 * Nat.div2 i) l zero, nth (2 * Nat.div2 i + 1) l zero).

Definition oriented (i : nat) (x s : D) : D * D := if Nat.odd i then (s, x) else (x, s).

Lemma climb_oriented i x s : climb i x s = node (oriented i x s).1 (oriented i x s).2.
Proof. unfold climb, oriented. now destruct (Nat.odd i). Qed.

Lemma oriented_pair_at l i x s : oriented i x s = pair_at l i -> x = nth i l zero.
Proof.
  unfold oriented, pair_at. destruct (Nat.odd i) eqn:Ho; intros [= E1 E2].
  - rewrite (proj1 (sibling_odd i Ho)) at 1. exact E2.
  - rewrite (proj1 (sibling_even i Ho)) at 1. exact E1.
Qed.

Lemma oriented_sibling l i : oriented i (nth i l zero) (nth (Nat.lxor i 1) l zero) = pair_at l i.
Proof.
  unfold oriented, pair_at. destruct (Nat.odd i) eqn:Ho.
  - destruct (sibling_odd i Ho) as [E1 ->]. now rewrite E1 at 2.
  - destruct (sibling_even i Ho) as [E1 ->]. now rewrite E1 at 1.
Qed.

Lemma level_pair_at l i n : length l = (2 * n)%nat -> (Nat.div2 i < n)%nat ->
  nth (Nat.div2 i) (level l) zero = node (pair_at l i).1 (pair_at l i).2.
Proof. intros Hl Hi. now apply level_lookup with n. Qed.

(** ** Completeness and soundness of paths *)

Lemma half_index i k : (i < 2 ^ S k)%nat -> (Nat.div2 i < 2 ^ k)%nat.
Proof. intros H. cbn [Nat.pow] in H. pose proof (Nat.div2_odd i). destruct (Nat.odd i); cbn in *; lia. Qed.

Lemma path_complete k : forall fuel l i, (k <= fuel)%nat -> length l = (2 ^ k)%nat -> (i < 2 ^ k)%nat ->
  fold_path (nth i l zero) (path_loop fuel l i) i = root_at k l.
Proof.
  induction k as [|k IH]; intros fuel l i Hf Hl Hi.
  - replace i with 0%nat by (cbn in Hi; lia). destruct fuel; [reflexivity|]. cbn in *. now rewrite Hl.
  - destruct fuel as [|fuel]; [lia|]. pose proof (half_index i k Hi) as Hh. cbn [Nat.pow] in Hl.
    cbn [path_loop]. destruct (Nat.ltb_spec 1 (length l)) as [_|Hx]; [|pose proof (pow2_nat k); lia].
    cbn [fold_path]. rewrite climb_oriented, oriented_sibling, <- (level_pair_at l i (2 ^ k)), root_at_S by lia.
    apply IH; [lia| |exact Hh]. apply level_length. lia.
Qed.

(** The first level at which a path that reaches the root departs from the tree
    gives two different pairs with one value. *)
Fixpoint path_collision (x : D) (path : list D) (i : nat) (l : list D) : option ((D * D) * (D * D)) :=
  match path with
  | [] => None
  | s :: path =>
      let mine := oriented i x s in
      let theirs := pair_at l i in
      if decide (node mine.1 mine.2 = node theirs.1 theirs.2) then
        if decide (mine = theirs) then None else Some (mine, theirs)
      else path_collision (node mine.1 mine.2) path (Nat.div2 i) (level l)
  end.

(** Two different pairs with the same value. *)
Definition collision (c : (D * D) * (D * D)) : Prop := c.1 <> c.2 /\ node c.1.1 c.1.2 = node c.2.1 c.2.2.

Lemma path_collision_sound x path i l c : path_collision x path i l = Some c -> collision c.
Proof.
  revert x i l. induction path as [|s path IH]; intros x i l; cbn [path_collision]; [discriminate|].
  destruct (decide _) as [E|_]; [|apply IH].
  destruct (decide _) as [|Hne]; [discriminate|]. intros [= <-]. now split.
Qed.

Lemma path_sound k : forall path x i l,
  length path = k -> length l = (2 ^ k)%nat -> (i < 2 ^ k)%nat ->
  fold_path x path i = root_at k l ->
  x = nth i l zero \/ exists c, path_collision x path i l = Some c.
Proof.
  induction k as [|k IH]; intros path x i l Hp Hl Hi E.
  - destruct path; [|discriminate Hp]. left. replace i with 0%nat by (cbn in Hi; lia). exact E.
  - destruct path as [|s path]; [discriminate Hp|]. injection Hp as Hp.
    pose proof (half_index i k Hi) as Hh. cbn [Nat.pow] in Hl.
    cbn [fold_path] in E. rewrite climb_oriented, root_at_S in E. cbn [path_collision].
    destruct (decide (node (oriented i x s).1 (oriented i x s).2 = node (pair_at l i).1 (pair_at l i).2)) as [En|Hn].
    + destruct (decide (oriented i x s = pair_at l i)) as [Eo|]; [left|right; eauto].
      now apply (oriented_pair_at l i x s).
    + destruct (IH path (node (oriented i x s).1 (oriented i x s).2) (Nat.div2 i) (level l) Hp) as [H|H];
        [apply level_length; lia|exact Hh|exact E| |now right].
      exfalso. apply Hn. rewrite H. apply (level_pair_at l i (2 ^ k)); lia.
Qed.

(** ** A root binds its leaves *)

(** The first pair of a level that differs although its value does not. *)
Fixpoint level_collision (l l' : list D) : option ((D * D) * (D * D)) :=
  match l, l' with
  | a :: b :: rest, a' :: b' :: rest' =>
      if decide ((a, b) = (a', b')) then level_collision rest rest' else Some ((a, b), (a', b'))
  | _, _ => None
  end.

Fixpoint tree_collision (k : nat) (l l' : list D) : option ((D * D) * (D * D)) :=
  match k with
  | O => None
  | S k => if decide (level l = level l') then level_collision l l' else tree_collision k (level l) (level l')
  end.

Lemma level_binding n : forall l l', length l = (2 * n)%nat -> length l' = (2 * n)%nat -> level l = level l' ->
  l = l' \/ exists c, level_collision l l' = Some c /\ collision c.
Proof.
  induction n as [|n IH]; intros l l' Hl Hl' E.
  - left. destruct l, l'; discriminate || reflexivity.
  - destruct l as [|a [|b l]], l' as [|a' [|b' l']]; cbn in Hl, Hl'; try lia.
    cbn [level] in E. injection E as En El. cbn [level_collision].
    destruct (decide ((a, b) = (a', b'))) as [[= -> ->]|Hne].
    + destruct (IH l l') as [->|H]; [lia|lia|exact El|now left|now right].
    + right. exists ((a, b), (a', b')). now split.
Qed.

Lemma tree_binding k : forall l l', length l = (2 ^ k)%nat -> length l' = (2 ^ k)%nat ->
  root_at k l = root_at k l' ->
  l = l' \/ exists c, tree_collision k l l' = Some c /\ collision c.
Proof.
  induction k as [|k IH]; intros l l' Hl Hl' E.
  - left. destruct l as [|a [|]], l' as [|a' [|]]; try discriminate. unfold root_at in E. cbn in E. now subst.
  - cbn [Nat.pow tree_collision] in *. destruct (decide (level l = level l')) as [El|Hne].
    + apply (level_binding (2 ^ k)); [lia|lia|exact El].
    + rewrite !root_at_S in E. destruct (IH (level l) (level l')) as [H|H];
        [apply level_length; lia|apply level_length; lia|exact E|contradiction|now right].
Qed.
End Tree.
