(* ===== verification/TxTree.v ===== *)
(** * The block transaction tree ([noid_chain/src/tx_tree.rs])

    The 256-leaf tree of a block: the header root with the bound transaction
    count, the fixed-depth inclusion path and its verification; and the 16-leaf
    tree of a transaction body ([hash_tx8x2_leaves] of [primitives.rs]).  An
    honest path verifies; a verified path, two lists under one root, or two
    bodies under one hash, agree or give an explicit collision of a compression.
    The assertions of the source are the [None] cases. *)

From Stdlib Require Import ZArith Lia Bool.
From stdpp Require Import base numbers list option gmap.
From S2P Require Import Prelude Tower Poseidon Sponge Merkle.
Open Scope Z_scope.

Definition TX_TREE_LEAVES : nat := 256.
Definition TX_TREE_DEPTH : nat := 8.

Definition zero_digest : list Z := replicate 32 0.

Definition count_digest (tx_count : nat) : list Z := to_le_bytes 16 (Z.of_nat tx_count) ++ replicate 16 0.

Definition count_ok (tx_count : nat) : bool := (1 <=? tx_count)%nat && (tx_count <=? TX_TREE_LEAVES)%nat.

Definition bind_tx_count (merkle_root : list Z) (tx_count : nat) : option (list Z) :=
  if count_ok tx_count
  then Some (compress_with_tag TAG_TXROOT merkle_root (count_digest tx_count))
  else None.

(** The hashes at the start of the zero-filled namespace. *)
Definition namespace (tx_hashes : list (list Z)) : list (list Z) :=
  tx_hashes ++ replicate (TX_TREE_LEAVES - length tx_hashes) zero_digest.

Definition root_from_hashes (tx_hashes : list (list Z)) : option (list Z) :=
  if (length tx_hashes =? 0)%nat then Some zero_digest
  else if (length tx_hashes <=? TX_TREE_LEAVES)%nat then
    let layer := tree_loop compress TX_TREE_LEAVES (namespace tx_hashes) in
    bind_tx_count (nth 0 layer zero_digest) (length tx_hashes)
  else None.

Definition path_from_hashes (tx_hashes : list (list Z)) (tx_index : nat) : option (list (list Z)) :=
  if (length tx_hashes =? 0)%nat then None
  else if negb (length tx_hashes <=? TX_TREE_LEAVES)%nat then None
  else if negb (tx_index <? length tx_hashes)%nat then None
  else Some (path_loop zero_digest compress TX_TREE_LEAVES (namespace tx_hashes) tx_index).

(** The loop of [verify_path]: the bit of each level selects the side. *)
Definition climb_path (leaf : list Z) (path : list (list Z)) (tx_index : nat) : list Z :=
  foldl (fun current p =>
    if Nat.odd (Nat.shiftr tx_index p.1) then compress p.2 current else compress current p.2)
    leaf (imap pair path).

Definition verify_path (leaf : list Z) (path : list (list Z)) (tx_index tx_count : nat)
    (claimed_root : list Z) : bool :=
  if negb (count_ok tx_count) || (tx_count <=? tx_index)%nat then false
  else match bind_tx_count (climb_path leaf path tx_index) tx_count with
       | Some root => bool_decide (root = claimed_root)
       | None => false
       end.

(** ** The loops *)

Lemma climb_path_from leaf path tx_index k :
  foldl (fun current p =>
    if Nat.odd (Nat.shiftr tx_index p.1) then compress p.2 current else compress current p.2)
    leaf (imap (fun i s => ((k + i)%nat, s)) path)
  = fold_path compress leaf path (Nat.shiftr tx_index k).
Proof.
  revert leaf k. induction path as [|s path IH]; intros leaf k; [reflexivity|].
  rewrite imap_cons. cbn [foldl fold_path fst snd]. rewrite Nat.add_0_r.
  replace (Nat.div2 (Nat.shiftr tx_index k)) with (Nat.shiftr tx_index (S k)) by reflexivity.
  rewrite <- IH. unfold climb. f_equal. apply imap_ext. intros i x _. cbn. f_equal. lia.
Qed.

Lemma climb_path_fold leaf path tx_index : climb_path leaf path tx_index = fold_path compress leaf path tx_index.
Proof. exact (climb_path_from leaf path tx_index 0). Qed.

Lemma namespace_length h : (length h <= 256)%nat -> length (namespace h) = (2 ^ 8)%nat.
Proof. intros H. unfold namespace. rewrite length_app, length_replicate. unfold TX_TREE_LEAVES. cbn. lia. Qed.

Definition tree_root (h : list (list Z)) : list Z := root_at zero_digest compress 8 (namespace h).

Lemma root_eq h : (1 <= length h <= 256)%nat ->
  root_from_hashes h = Some (compress_with_tag TAG_TXROOT (tree_root h) (count_digest (length h))).
Proof.
  intros Hh. unfold root_from_hashes. destruct (Nat.eqb_spec (length h) 0); [lia|].
  destruct (Nat.leb_spec (length h) TX_TREE_LEAVES); [|unfold TX_TREE_LEAVES in *; lia].
  rewrite (tree_loop_root zero_digest compress 8) by (unfold TX_TREE_LEAVES; lia || apply namespace_length; lia).
  unfold bind_tx_count, count_ok, TX_TREE_LEAVES.
  destruct (Nat.leb_spec 1 (length h)); [|lia]. destruct (Nat.leb_spec (length h) 256); [|lia]. reflexivity.
Qed.

Lemma namespace_nth h i : (i < length h)%nat -> nth i (namespace h) zero_digest = nth i h zero_digest.
Proof. intros Hi. unfold namespace. now apply app_nth1. Qed.

Lemma count_digest_inj n m : (n <= 256)%nat -> (m <= 256)%nat -> count_digest n = count_digest m -> n = m.
Proof.
  intros Hn Hm E. apply app_inj_1 in E as [E _]; [|now rewrite !(proj1 (to_le_bytes_array 16 _))].
  apply lane_bytes_inj in E; [lia|unfold in_range; change (2 ^ 128) with 0x100000000000000000000000000000000; lia..].
Qed.

Lemma namespace_inj h h' : length h = length h' -> namespace h = namespace h' -> h = h'.
Proof. intros Hl E. unfold namespace in E. now apply app_inj_1 in E as [E _]. Qed.

(** A collision of the outer, counting compression. *)
Definition count_collision (c : (list Z * list Z) * (list Z * list Z)) : Prop :=
  collision (compress_with_tag TAG_TXROOT) c.

(** ** Main results *)

(** Inclusion paths are complete and sound.  For a non-empty list of at
    most 256 hashes the path of every real index has eight digests and verifies
    against the header root.  Conversely a path of eight digests that verifies
    against that root has the real count and names the real hash at its index,
    or one of two explicit pairs (the outer one, or the first level where the
    path departs from the tree) is a collision of the compression. *)
Theorem inclusion_path_exact (h : list (list Z)) (root : list Z) :
  (1 <= length h <= 256)%nat -> root_from_hashes h = Some root ->
  (forall i, (i < length h)%nat ->
     exists path, path_from_hashes h i = Some path /\ length path = TX_TREE_DEPTH
                  /\ verify_path (nth i h zero_digest) path i (length h) root = true)
  /\ (forall leaf path i count,
     length path = TX_TREE_DEPTH -> verify_path leaf path i count root = true ->
     (count = length h /\ (i < length h)%nat /\ leaf = nth i h zero_digest)
     \/ count_collision ((climb_path leaf path i, count_digest count), (tree_root h, count_digest (length h)))
     \/ exists c, path_collision zero_digest compress leaf path i (namespace h) = Some c /\ collision compress c).
Proof.
  intros Hh. rewrite root_eq by exact Hh. intros [= <-].
  pose proof (namespace_length h ltac:(lia)) as Hn. split.
  - intros i Hi. unfold path_from_hashes, TX_TREE_LEAVES.
    destruct (Nat.eqb_spec (length h) 0); [lia|]. destruct (Nat.leb_spec (length h) 256); [|lia].
    destruct (Nat.ltb_spec i (length h)); [|lia]. cbn [negb].
    eexists. split; [reflexivity|]. split; [apply (path_loop_length zero_digest compress 8); [lia|exact Hn]|].
    unfold verify_path, bind_tx_count, count_ok, TX_TREE_LEAVES.
    destruct (Nat.leb_spec 1 (length h)); [|lia]. destruct (Nat.leb_spec (length h) 256); [|lia].
    destruct (Nat.leb_spec (length h) i); [lia|]. cbn [negb andb orb].
    rewrite climb_path_fold, <- (namespace_nth h i) by assumption.
    rewrite (path_complete zero_digest compress 8) by (exact Hn || cbn; lia).
    now apply bool_decide_eq_true.
  - intros leaf path i count Hp. unfold verify_path, bind_tx_count.
    destruct (count_ok count) eqn:Hc; [|discriminate]. destruct (Nat.leb_spec count i) as [|Hi]; [discriminate|].
    cbn [negb orb]. intros E%bool_decide_eq_true.
    apply andb_true_iff in Hc as [_ Hc%Nat.leb_le]. unfold TX_TREE_LEAVES in Hc.
    destruct (decide ((climb_path leaf path i, count_digest count) = (tree_root h, count_digest (length h))))
      as [[E1 E2]%pair_equal_spec|Hne]; [|right; left; now split].
    apply count_digest_inj in E2; [|lia..]. subst count. rewrite climb_path_fold in E1.
    destruct (path_sound zero_digest compress 8 path leaf i (namespace h) Hp Hn ltac:(cbn; lia) E1) as [H|[c H]].
    + left. rewrite namespace_nth in H by lia. exact (conj eq_refl (conj Hi H)).
    + right. right. exists c. split; [exact H|]. now apply path_collision_sound in H.
Qed.

Lemma inclusion_path_witness :
  exists root, root_from_hashes [replicate 32 7; replicate 32 9] = Some root /\
  exists path, path_from_hashes [replicate 32 7; replicate 32 9] 1 = Some path
    /\ verify_path (replicate 32 9) path 1 2 root = true.
Proof.
  exists (compress_with_tag TAG_TXROOT (tree_root [replicate 32 7; replicate 32 9]) (count_digest 2)).
  assert (E := root_eq [replicate 32 7; replicate 32 9] ltac:(cbn; lia)).
  split; [exact E|].
  destruct (inclusion_path_exact [replicate 32 7; replicate 32 9] _ ltac:(cbn; lia) E) as [C _].
  destruct (C 1%nat ltac:(cbn; lia)) as (path & H1 & _ & H2). exists path. exact (conj H1 H2).
Defined.

(** C39. The header root binds the transaction list: two non-empty lists of at
    most 256 hashes with the same root are equal, or the outer pairs, or the
    first level of the two trees that differs below equal values, are a
    collision of the compression. *)
Theorem tx_root_binding (h h' : list (list Z)) :
  (1 <= length h <= 256)%nat -> (1 <= length h' <= 256)%nat ->
  root_from_hashes h = root_from_hashes h' ->
  h = h'
  \/ count_collision ((tree_root h, count_digest (length h)), (tree_root h', count_digest (length h')))
  \/ exists c, tree_collision compress 8 (namespace h) (namespace h') = Some c /\ collision compress c.
Proof.
  intros Hh Hh' E. rewrite !root_eq in E by assumption. apply (inj Some) in E.
  destruct (decide ((tree_root h, count_digest (length h)) = (tree_root h', count_digest (length h'))))
    as [[E1 E2]%pair_equal_spec|Hne]; [|right; left; now split].
  apply count_digest_inj in E2; [|lia..].
  destruct (tree_binding zero_digest compress 8 (namespace h) (namespace h')) as [H|H];
    [apply namespace_length; lia..|exact E1| |now right; right].
  left. now apply namespace_inj.
Qed.

Lemma tx_root_binding_witness :
  [replicate 32 7; replicate 32 9] = [replicate 32 7; replicate 32 9]
  \/ count_collision ((tree_root [replicate 32 7; replicate 32 9], count_digest 2),
                      (tree_root [replicate 32 7; replicate 32 9], count_digest 2))
  \/ exists c, tree_collision compress 8 (namespace [replicate 32 7; replicate 32 9])
                 (namespace [replicate 32 7; replicate 32 9]) = Some c /\ collision compress c.
Proof.
  apply (tx_root_binding [replicate 32 7; replicate 32 9] [replicate 32 7; replicate 32 9]);
    [cbn; lia|cbn; lia|reflexivity].
Defined.

(** ** The tree of a transaction body *)

Lemma compress_batch_level l : compress_batch_interleaved_into l = level compress l.
Proof.
  unfold compress_batch_interleaved_into, compress.
  assert (H : forall n l, (length l <= n)%nat ->
    compress_batch_interleaved_with_tag_into TAG_COMPRESS l = level (compress_with_tag TAG_COMPRESS) l).
  { induction n as [|n IH]; intros [|a [|b m]] Hl; cbn in Hl; try reflexivity; try lia.
    cbn [compress_batch_interleaved_with_tag_into level]. f_equal. apply IH. lia. }
  apply (H (length l) l). lia.
Qed.

Definition leaf_digests (leaves : list (Z * Z)) : list (list Z) := (fun l => lanes_digest l.1 l.2) <$> leaves.

Definition body_root (leaves : list (Z * Z)) : list Z := root_at [] compress 4 (leaf_digests leaves).

Lemma hash_tx8x2_root leaves : hash_tx8x2_leaves leaves = tx8x2_wrap (body_root leaves).
Proof.
  unfold hash_tx8x2_leaves, body_root, root_at. cbn zeta. fold (leaf_digests leaves).
  change TX8X2_TREE_DEPTH with 4%nat. generalize (leaf_digests leaves). intros l.
  cbn [Nat.iter nat_rect]. now rewrite !compress_batch_level.
Qed.

Lemma lanes_digest_inj x y x' y' :
  u128 x -> u128 y -> u128 x' -> u128 y' -> lanes_digest x y = lanes_digest x' y' -> x = x' /\ y = y'.
Proof.
  intros Hx Hy Hx' Hy' E. apply app_inj_1 in E as [E1 E2]; [|now rewrite !(proj1 (to_le_bytes_array 16 _))].
  split; now apply lane_bytes_inj.
Qed.

Lemma leaf_digests_inj l l' :
  Forall (fun p => u128 p.1 /\ u128 p.2) l -> Forall (fun p => u128 p.1 /\ u128 p.2) l' ->
  leaf_digests l = leaf_digests l' -> l = l'.
Proof.
  intros Hl. revert l'. induction Hl as [|[x y] l [Hx Hy] Hl IH]; intros [|[x' y'] l'] Hl' E; try discriminate E;
    [reflexivity|].
  apply Forall_cons_1 in Hl' as [[Hx' Hy'] Hl']. unfold leaf_digests in E. cbn [fmap list_fmap fst snd] in *.
  assert (E1 := f_equal (hd []) E). assert (E2 := f_equal tail E). cbn [hd tail] in E1, E2.
  apply lanes_digest_inj in E1 as [-> ->]; [|assumption..]. f_equal. now apply IH.
Qed.

(** The body hash binds the sixteen leaves: two bodies of sixteen 128-bit
    leaf pairs with the same hash have the same leaves, or their two tree roots
    collide under the final wrap, or the first level of the two trees that
    differs below equal values is a collision of the compression. *)
Theorem body_hash_binding (l l' : list (Z * Z)) :
  length l = 16%nat -> length l' = 16%nat ->
  Forall (fun p => u128 p.1 /\ u128 p.2) l -> Forall (fun p => u128 p.1 /\ u128 p.2) l' ->
  hash_tx8x2_leaves l = hash_tx8x2_leaves l' ->
  l = l'
  \/ (body_root l <> body_root l' /\ tx8x2_wrap (body_root l) = tx8x2_wrap (body_root l'))
  \/ exists c, tree_collision compress 4 (leaf_digests l) (leaf_digests l') = Some c /\ collision compress c.
Proof.
  intros Hl Hl' Hf Hf' E. rewrite !hash_tx8x2_root in E.
  destruct (decide (body_root l = body_root l')) as [Er|Hne]; [|right; left; exact (conj Hne E)].
  destruct (tree_binding [] compress 4 (leaf_digests l) (leaf_digests l')) as [H|H];
    [unfold leaf_digests; now rewrite length_fmap..|exact Er| |now right; right].
  left. now apply leaf_digests_inj.
Qed.

Lemma body_hash_binding_witness :
  let l := replicate 16 (3, 5) in
  l = l \/ (body_root l <> body_root l /\ tx8x2_wrap (body_root l) = tx8x2_wrap (body_root l))
  \/ exists c, tree_collision compress 4 (leaf_digests l) (leaf_digests l) = Some c /\ collision compress c.
Proof.
  apply (body_hash_binding (replicate 16 (3, 5)) (replicate 16 (3, 5))); try reflexivity;
    apply Forall_replicate; split; split; cbn; lia.
Defined.
