(* ===== verification/Header.v ===== *)
(** * Block headers

    [noid_chain/src/block_header.rs] and [noid_chain/src/wire.rs]: the header
    record, its 212-byte wire form, the chain-link id and the nonce-free
    projection.  The codec is a bijection onto the 212-byte strings; both ids
    are sponge digests of a fixed-length stream that determines the header, and
    the header up to its nonce. *)

From Stdlib Require Import ZArith Lia Bool.
From stdpp Require Import base numbers list option gmap.
From S2P Require Import Prelude Codec Tx TxWire Poseidon Sponge.
Open Scope Z_scope.

Record BlockHeader := mkHeader {
  prev_block_hash : list Z;
  state_root : list Z;
  tx_root : list Z;
  timestamp : Z;
  hdr_height : Z;
  miner_address : list Z;
  nonce : Z;
  difficulty_target : list Z;
  log_slots : Z;
  active_slot_count : Z;
  alloc_counter : Z
}.

(** Every field within its machine type. *)
Record header_wf (h : BlockHeader) : Prop := {
  wf_prev : digest_ok (prev_block_hash h);
  wf_state : digest_ok (state_root h);
  wf_tx : digest_ok (tx_root h);
  wf_time : u64 (timestamp h);
  wf_height : u64 (hdr_height h);
  wf_miner : digest_ok (miner_address h);
  wf_nonce : u128 (nonce h);
  wf_target : digest_ok (difficulty_target h);
  wf_log : u32 (log_slots h);
  wf_active : u64 (active_slot_count h);
  wf_alloc : u64 (alloc_counter h)
}.

(** ** Wire form *)

Definition BLOCK_HEADER_WIRE_SIZE : nat := 32 + 32 + 32 + 8 + 8 + 32 + 16 + 32 + 4 + 8 + 8.
Definition BLOCK_HEADER_NONCE_OFFSET : nat := 32 + 32 + 32 + 8 + 8 + 32.

Definition put_u128 : Z -> list Z := put_uint 16.
Definition take_u128 : parser WireError Z := take_uint Truncated 16.

Definition BlockHeader_encode (h : BlockHeader) : list Z :=
  put_bytes (prev_block_hash h) ++ put_bytes (state_root h) ++ put_bytes (tx_root h)
  ++ put_u64 (timestamp h) ++ put_u64 (hdr_height h) ++ put_bytes (miner_address h)
  ++ put_u128 (nonce h) ++ put_bytes (difficulty_target h) ++ put_u32 (log_slots h)
  ++ put_u64 (active_slot_count h) ++ put_u64 (alloc_counter h).

Definition BlockHeader_decode : parser WireError BlockHeader :=
  prev ← take_digest;
  sroot ← take_digest;
  txr ← take_digest;
  ts ← take_u64;
  ht ← take_u64;
  miner ← take_digest;
  nc ← take_u128;
  target ← take_digest;
  ls ← take_u32;
  active ← take_u64;
  alloc ← take_u64;
  mret (mkHeader prev sroot txr ts ht miner nc target ls active alloc).

Definition BlockHeader_from_bytes (bytes : list Z) : result WireError BlockHeader :=
  decode_exact TrailingBytes BlockHeader_decode bytes.

(** ** Identities *)

Definition absorb_digest (s : Sponge) (d : list Z) : Sponge :=
  let '(hi, lo) := lanes_of d in absorb_pair permute_mut s hi lo.

Definition hash_block_header (hdr : BlockHeader) : list Z :=
  let s := with_iv (capacity_iv TAG_BLOCKHDR) in
  let s := absorb_digest s (prev_block_hash hdr) in
  let s := absorb_digest s (state_root hdr) in
  let s := absorb_digest s (tx_root hdr) in
  let s := absorb permute_mut s (timestamp hdr) in
  let s := absorb permute_mut s (hdr_height hdr) in
  let s := absorb_digest s (miner_address hdr) in
  let s := absorb permute_mut s (nonce hdr) in
  let s := absorb_digest s (difficulty_target hdr) in
  let s := absorb permute_mut s (log_slots hdr) in
  let s := absorb permute_mut s (active_slot_count hdr) in
  let s := absorb permute_mut s (alloc_counter hdr) in
  Poseidon2bSponge_finalize s.

Definition block_id (hdr : BlockHeader) : list Z := hash_block_header hdr.

Definition semantic_header_id (hdr : BlockHeader) : list Z :=
  let s := with_iv (capacity_iv TAG_SEMHDR) in
  let s := absorb_digest s (prev_block_hash hdr) in
  let s := absorb_digest s (state_root hdr) in
  let s := absorb_digest s (tx_root hdr) in
  let s := absorb permute_mut s (timestamp hdr) in
  let s := absorb permute_mut s (hdr_height hdr) in
  let s := absorb_digest s (miner_address hdr) in
  let s := absorb_digest s (difficulty_target hdr) in
  let s := absorb permute_mut s (log_slots hdr) in
  let s := absorb permute_mut s (active_slot_count hdr) in
  let s := absorb permute_mut s (alloc_counter hdr) in
  Poseidon2bSponge_finalize s.

(** ** Lemmas *)

#[export] Instance lawful_u128 : LawfulCodec put_u128 take_u128 u128 := lawful_uint Truncated 16.

#[export] Instance lawful_BlockHeader : LawfulCodec BlockHeader_encode BlockHeader_decode header_wf.
Proof.
  split.
  - intros [p s t ts ht m n d l a c] rest [H1 H2 H3 H4 H5 H6 H7 H8 H9 H10 H11].
    cbn [prev_block_hash state_root tx_root timestamp hdr_height miner_address nonce difficulty_target
         log_slots active_slot_count alloc_counter] in *.
    unfold BlockHeader_encode, BlockHeader_decode.
    cbn [prev_block_hash state_root tx_root timestamp hdr_height miner_address nonce difficulty_target
         log_slots active_slot_count alloc_counter].
    codec_print. reflexivity.
  - intros bs h rest Hb H. unfold BlockHeader_decode in H. codec_parse H.
    injection H as <- <-. split; [|constructor; auto].
    unfold BlockHeader_encode.
    cbn [prev_block_hash state_root tx_root timestamp hdr_height miner_address nonce difficulty_target
         log_slots active_slot_count alloc_counter].
    rewrite <- !app_assoc. reflexivity.
Qed.

Lemma fixed_BlockHeader : fixed_size Truncated BLOCK_HEADER_WIRE_SIZE BlockHeader_decode.
Proof.
  change BLOCK_HEADER_WIRE_SIZE with (32 + (32 + (32 + (8 + (8 + (32 + (16 + (32 + (4 + (8 + (8 + 0)))))))))))%nat.
  unfold BlockHeader_decode.
  repeat (apply fixed_bind; [apply fixed_bytes || apply fixed_uint|intros ?]). apply fixed_ret.
Qed.

(** The header with another nonce. *)
Definition with_nonce (h : BlockHeader) (n : Z) : BlockHeader :=
  mkHeader (prev_block_hash h) (state_root h) (tx_root h) (timestamp h) (hdr_height h) (miner_address h)
    n (difficulty_target h) (log_slots h) (active_slot_count h) (alloc_counter h).

Lemma with_nonce_wf h n : header_wf h -> u128 n -> header_wf (with_nonce h n).
Proof. intros [] Hn. now constructor. Qed.

Lemma nonce_patch h n :
  header_wf h ->
  BlockHeader_encode (with_nonce h n)
  = copy_at BLOCK_HEADER_NONCE_OFFSET (to_le_bytes 16 n) (BlockHeader_encode h).
Proof.
  intros [[H1 _] [H2 _] [H3 _] _ _ [H4 _] _ _ _ _ _]. unfold copy_at, BlockHeader_encode. cbn [with_nonce prev_block_hash
    state_root tx_root timestamp hdr_height miner_address nonce difficulty_target log_slots active_slot_count alloc_counter].
  rewrite (proj1 (to_le_bytes_array 16 n)).
  set (tail_ := put_bytes (difficulty_target h) ++ _).
  set (head_ := put_bytes (prev_block_hash h) ++ put_bytes (state_root h) ++ put_bytes (tx_root h)
    ++ put_u64 (timestamp h) ++ put_u64 (hdr_height h) ++ put_bytes (miner_address h)).
  assert (Hh : length head_ = BLOCK_HEADER_NONCE_OFFSET).
  { unfold head_, put_bytes, put_u64, put_uint. rewrite !length_app, !(proj1 (to_le_bytes_array 8 _)), H1, H2, H3, H4.
    reflexivity. }
  transitivity (head_ ++ put_u128 n ++ tail_); [unfold head_; now rewrite <- !app_assoc|].
  replace (put_bytes (prev_block_hash h) ++ _) with (head_ ++ put_u128 (nonce h) ++ tail_)
    by (unfold head_; now rewrite <- !app_assoc).
  rewrite take_app_length' by (symmetry; exact Hh). f_equal. unfold put_u128, put_uint. f_equal.
  rewrite drop_app_ge, Hh by lia.
  now rewrite drop_app_length' by (rewrite (proj1 (to_le_bytes_array 16 (nonce h))); lia).
Qed.

(** *** The streams the ids hash *)

Definition lane (x : Z) : list Z := to_le_bytes 16 x.

(** Everything before the nonce, and everything after it. *)
Definition stream_head (h : BlockHeader) : list Z :=
  prev_block_hash h ++ state_root h ++ tx_root h ++ lane (timestamp h) ++ lane (hdr_height h) ++ miner_address h.
Definition stream_tail (h : BlockHeader) : list Z :=
  difficulty_target h ++ lane (log_slots h) ++ lane (active_slot_count h) ++ lane (alloc_counter h).

Definition header_stream (h : BlockHeader) : list Z := stream_head h ++ lane (nonce h) ++ stream_tail h.
Definition semantic_stream (h : BlockHeader) : list Z := stream_head h ++ stream_tail h.

Lemma lanes_bytes d : digest_ok d -> to_le_bytes 16 (lanes_of d).1 ++ to_le_bytes 16 (lanes_of d).2 = d.
Proof.
  intros [Hl Hb]. unfold lanes_of. cbn [fst snd]. rewrite <- (take_drop 16 d) at 3. f_equal.
  - rewrite <- (to_from_le_bytes (take 16 d)) at 2 by now apply Forall_take.
    now rewrite length_take, Hl.
  - rewrite <- (to_from_le_bytes (drop 16 d)) at 2 by now apply Forall_drop.
    now rewrite length_drop, Hl.
Qed.

Lemma absorb_digest_update s d : digest_ok d -> absorb_digest s d = update permute_mut s d.
Proof.
  intros Hd. unfold absorb_digest, absorb_pair. rewrite (surjective_pairing (lanes_of d)).
  now rewrite lanes_bytes.
Qed.

Lemma foldl_step {A B} (f : A -> B -> A) a x l : foldl f a (x :: l) = foldl f (f a x) l.
Proof. reflexivity. Qed.

Lemma foldl_done {A B} (f : A -> B -> A) a : foldl f a [] = a.
Proof. reflexivity. Qed.

Lemma absorb_update s x : absorb permute_mut s x = update permute_mut s (lane x).
Proof. reflexivity. Qed.

Lemma finalize_unfold s : Poseidon2bSponge_finalize s = finalize permute_mut s.
Proof. reflexivity. Qed.

Lemma block_id_stream h : header_wf h ->
  block_id h = sponge_spec permute_mut (capacity_iv TAG_BLOCKHDR) (header_stream h).
Proof.
  intros [H1 H2 H3 _ _ H4 _ H5 _ _ _]. unfold block_id, hash_block_header. cbn zeta.
  rewrite !absorb_digest_update by assumption. rewrite !absorb_update, finalize_unfold.
  pose proof (updates_hash permute_mut (capacity_iv TAG_BLOCKHDR)
    [prev_block_hash h; state_root h; tx_root h; lane (timestamp h); lane (hdr_height h); miner_address h;
     lane (nonce h); difficulty_target h; lane (log_slots h); lane (active_slot_count h); lane (alloc_counter h)]) as E.
  rewrite !foldl_step, foldl_done in E. cbn [concat] in E. rewrite app_nil_r in E. unfold header_stream, stream_head, stream_tail.
  rewrite <- !app_assoc. exact E.
Qed.

Lemma semantic_id_stream h : header_wf h ->
  semantic_header_id h = sponge_spec permute_mut (capacity_iv TAG_SEMHDR) (semantic_stream h).
Proof.
  intros [H1 H2 H3 _ _ H4 _ H5 _ _ _]. unfold semantic_header_id. cbn zeta.
  rewrite !absorb_digest_update by assumption. rewrite !absorb_update, finalize_unfold.
  pose proof (updates_hash permute_mut (capacity_iv TAG_SEMHDR)
    [prev_block_hash h; state_root h; tx_root h; lane (timestamp h); lane (hdr_height h); miner_address h;
     difficulty_target h; lane (log_slots h); lane (active_slot_count h); lane (alloc_counter h)]) as E.
  rewrite !foldl_step, foldl_done in E. cbn [concat] in E. rewrite app_nil_r in E. unfold semantic_stream, stream_head, stream_tail.
  rewrite <- !app_assoc. exact E.
Qed.

Lemma lane_length x : length (lane x) = 16%nat.
Proof. apply to_le_bytes_array. Qed.

Lemma u64_u128 x : u64 x -> u128 x.
Proof. unfold in_range. change (2 ^ 128) with (2 ^ 64 * 2 ^ 64). lia. Qed.

Lemma u32_u128 x : u32 x -> u128 x.
Proof. unfold in_range. change (2 ^ 128) with (2 ^ 32 * 2 ^ 96). lia. Qed.

(** Peels equal fixed-length prefixes off an equation of byte strings. *)
Ltac peel_fields E :=
  repeat (let E1 := fresh "E" in
          apply app_inj_1 in E as [E1 E]; [|rewrite ?lane_length; congruence]).

Lemma stream_head_length h : header_wf h -> length (stream_head h) = 160%nat.
Proof.
  intros [[H1 _] [H2 _] [H3 _] _ _ [H4 _] _ _ _ _ _]. unfold stream_head.
  now rewrite !length_app, !lane_length, H1, H2, H3, H4.
Qed.

Lemma lane_inj x y : u128 x -> u128 y -> lane x = lane y -> x = y.
Proof. exact (lane_bytes_inj x y). Qed.

(** Head and tail determine everything but the nonce. *)
Lemma stream_parts_inj h h' :
  header_wf h -> header_wf h' -> stream_head h = stream_head h' -> stream_tail h = stream_tail h' ->
  with_nonce h 0 = with_nonce h' 0.
Proof.
  intros [[L1 _] [L2 _] [L3 _] T1 T2 [L4 _] _ [L5 _] T3 T4 T5]
         [[L1' _] [L2' _] [L3' _] T1' T2' [L4' _] _ [L5' _] T3' T4' T5'].
  destruct h, h'. cbn [prev_block_hash state_root tx_root timestamp hdr_height miner_address difficulty_target
    log_slots active_slot_count alloc_counter] in *.
  unfold stream_head, stream_tail. cbn [prev_block_hash state_root tx_root timestamp hdr_height miner_address
    difficulty_target log_slots active_slot_count alloc_counter].
  intros E F. peel_fields E. peel_fields F.
  repeat match goal with H : lane _ = lane _ |- _ => apply lane_inj in H; [|auto using u64_u128, u32_u128..] end.
  unfold with_nonce. cbn. congruence.
Qed.

Lemma semantic_stream_inj h h' :
  header_wf h -> header_wf h' -> semantic_stream h = semantic_stream h' -> with_nonce h 0 = with_nonce h' 0.
Proof.
  intros Hh Hh' E. apply app_inj_1 in E as [E1 E2]; [|now rewrite !stream_head_length].
  now apply stream_parts_inj.
Qed.

Lemma header_stream_inj h h' : header_wf h -> header_wf h' -> header_stream h = header_stream h' -> h = h'.
Proof.
  intros Hh Hh' E. apply app_inj_1 in E as [E1 E2]; [|now rewrite !stream_head_length].
  apply app_inj_1 in E2 as [En E2]; [|now rewrite !lane_length].
  apply lane_inj in En; [|apply Hh|apply Hh'].
  pose proof (stream_parts_inj h h' Hh Hh' E1 E2) as E. destruct h, h'. unfold with_nonce in E. cbn in *. congruence.
Qed.

Lemma lane_bytes_ok x : bytes_ok (lane x).
Proof. apply to_le_bytes_array. Qed.

Lemma stream_bytes h : header_wf h -> bytes_ok (header_stream h) /\ bytes_ok (semantic_stream h).
Proof.
  intros [[_ H1] [_ H2] [_ H3] _ _ [_ H4] _ [_ H5] _ _ _].
  unfold header_stream, semantic_stream, stream_head, stream_tail.
  rewrite !bytes_ok_app. auto 20 using lane_bytes_ok.
Qed.

Lemma semantic_nonce_free h n : semantic_header_id (with_nonce h n) = semantic_header_id h.
Proof. exact eq_refl. Qed.

Lemma tag_range tag : array_ok 8 tag -> u128 (capacity_iv tag).1 /\ u128 (capacity_iv tag).2.
Proof.
  intros H. pose proof (as_u64_range tag H) as Hr. unfold capacity_iv. cbn [fst snd].
  split; [apply Z.mod_pos_bound; lia|apply u64_u128, Hr].
Qed.

Ltac tag_ok := split; [reflexivity|]; repeat constructor; cbn; lia.

Definition example_header : BlockHeader :=
  mkHeader (replicate 32 1) (replicate 32 2) (replicate 32 3) 1700000000 7 (replicate 32 4) 99
    (replicate 32 255) 24 3 5.

Lemma example_header_wf : header_wf example_header.
Proof. constructor; try (split; [reflexivity|]; repeat constructor; cbn; lia); split; cbn; lia. Qed.

(** ** Main results *)

(** The header codec is a bijection between headers and 212-byte strings.
    Decoding is decided by the length alone (shorter input is [Truncated],
    longer input has [TrailingBytes]), it returns a header exactly when the
    bytes are the encoding of that header, and replacing the nonce changes just
    the sixteen bytes at [BLOCK_HEADER_NONCE_OFFSET]. *)
Theorem header_wire_bijection (bytes : list Z) :
  bytes_ok bytes ->
  match (length bytes ?= 212)%nat with
  | Lt => BlockHeader_from_bytes bytes = Err Truncated
  | Gt => BlockHeader_from_bytes bytes = Err TrailingBytes
  | Eq => exists h, BlockHeader_from_bytes bytes = Ok h
  end
  /\ forall h, (BlockHeader_from_bytes bytes = Ok h <-> bytes = BlockHeader_encode h /\ header_wf h)
      /\ (header_wf h -> forall n, BlockHeader_encode (with_nonce h n)
            = copy_at BLOCK_HEADER_NONCE_OFFSET (to_le_bytes 16 n) (BlockHeader_encode h)).
Proof.
  intros Hb. split; [exact (fixed_decode_exact Truncated TrailingBytes _ _ bytes fixed_BlockHeader)|].
  intros h. split; [apply (decode_exact_iff BlockHeader_encode BlockHeader_decode _ TrailingBytes bytes h Hb)|].
  intros Hh n. now apply nonce_patch.
Qed.

Lemma header_wire_witness :
  BlockHeader_from_bytes (BlockHeader_encode example_header) = Ok example_header.
Proof.
  apply (header_wire_bijection (BlockHeader_encode example_header)).
  - unfold bytes_ok, byte_ok, in_range. vm_compute. repeat constructor; discriminate.
  - exact (conj eq_refl example_header_wf).
Defined.

(** The two header identities.  The chain-link id is the sponge digest
    under [BLOCKHDR] of a stream that determines the whole header: equal ids
    mean equal headers, or a traced collision of the two streams.  The semantic
    id ignores the nonce, and equal semantic ids mean headers equal up to the
    nonce, or a traced collision under [SEMHDR__]. *)
Theorem header_ids_bind (h h' : BlockHeader) :
  header_wf h -> header_wf h' ->
  (block_id h = block_id h' ->
     h = h' \/ collision_trace (capacity_iv TAG_BLOCKHDR) (header_stream h) (header_stream h'))
  /\ (forall n, semantic_header_id (with_nonce h n) = semantic_header_id h)
  /\ (semantic_header_id h = semantic_header_id h' ->
     with_nonce h 0 = with_nonce h' 0
     \/ collision_trace (capacity_iv TAG_SEMHDR) (semantic_stream h) (semantic_stream h')).
Proof.
  intros Hh Hh'. destruct (stream_bytes h Hh) as [B S], (stream_bytes h' Hh') as [B' S'].
  split; [|split; [apply semantic_nonce_free|]].
  - rewrite !block_id_stream by assumption. intros E.
    destruct (tag_range TAG_BLOCKHDR ltac:(tag_ok)) as [R1 R2].
    destruct (collision_traced _ _ _ R1 R2 B B' E) as [Eq|]; [left; now apply header_stream_inj|now right].
  - rewrite !semantic_id_stream by assumption. intros E.
    destruct (tag_range TAG_SEMHDR ltac:(tag_ok)) as [R1 R2].
    destruct (collision_traced _ _ _ R1 R2 S S' E) as [Eq|]; [left; now apply semantic_stream_inj|now right].
Qed.

Lemma header_ids_witness :
  with_nonce example_header 0 = with_nonce (with_nonce example_header 5) 0
  \/ collision_trace (capacity_iv TAG_SEMHDR) (semantic_stream example_header)
       (semantic_stream (with_nonce example_header 5)).
Proof.
  destruct (header_ids_bind example_header (with_nonce example_header 5)) as (_ & N & H);
    [exact example_header_wf|apply with_nonce_wf; [exact example_header_wf|split; cbn; lia]|].
  apply H. symmetry. apply N.
Defined.
