(* ===== verification/Pow.v ===== *)
(** * Proof of work ([noid_chain/src/consensus/pow.rs])

    The sixteen-lane schedule of a header, the unpadded digest, its validation,
    and the nonce search over the prepared batch hasher
    ([FixedFieldNonceBatch] of [noid_poseidon2b/src/batch.rs], scalar lane): a
    flat-basis template that is kept between batches and patched in place.  The
    batch gives exactly the digests of the scalar routine, and the search returns
    the least accepted nonce of its range. *)

From Stdlib Require Import ZArith Lia Bool.
From stdpp Require Import base numbers list option gmap.
From S2P Require Import Prelude Params U256 Rules Tower Flat Poseidon Sponge Header.
Open Scope Z_scope.

Definition POW_HEADER_FIELD_COUNT : nat := 16.
Definition POW_NONCE_FIELD_INDEX : nat := 10.

Definition put_digest_lanes (d : list Z) : list Z := let '(a, b) := lanes_of d in [a; b].

Definition pow_header_fields (h : BlockHeader) : list Z :=
  put_digest_lanes (prev_block_hash h) ++ put_digest_lanes (state_root h)
  ++ put_digest_lanes (tx_root h) ++ [timestamp h; hdr_height h]
  ++ put_digest_lanes (miner_address h) ++ [nonce h]
  ++ put_digest_lanes (difficulty_target h)
  ++ [log_slots h; active_slot_count h; alloc_counter h].

(** [for chunk in fields.chunks_exact(2) { sponge.absorb_pair(..) }] *)
Fixpoint absorb_pairs (s : Sponge) (fields : list Z) : Sponge :=
  match fields with
  | a :: b :: rest => absorb_pairs (absorb_pair permute_mut s a b) rest
  | _ => s
  end.

Definition poseidon_pow_digest_from_fields (fields : list Z) : list Z :=
  finalize_no_pad (absorb_pairs (with_iv (capacity_iv TAG_POWHDR)) fields).

Definition poseidon_pow_digest (h : BlockHeader) : list Z :=
  poseidon_pow_digest_from_fields (pow_header_fields h).

Definition validate_pow (header : BlockHeader) : result ConsensusError (list Z) :=
  let digest := poseidon_pow_digest header in
  if le256_lt digest (difficulty_target header) then Ok digest else Err InvalidPoW.

(** ** The prepared batch hasher *)

(** [flat_leaves] as its leaves of [flat_template.len()] bytes. *)
Record FixedFieldNonceBatch := mkBatch {
  batch_iv : Z * Z;
  flat_template : list Z;
  nonce_offset : nat;
  flat_leaves : list (list Z)
}.

(** [None] is a failed assertion. *)
Definition FixedFieldNonceBatch_new (tag : DomainTag) (fields : list Z) (nonce_field_index : nat)
  : option FixedFieldNonceBatch :=
  if (0 <? length fields)%nat && Nat.even (length fields) && (nonce_field_index <? length fields)%nat
  then Some (mkBatch (capacity_iv_flat tag) (fields ≫= fun f => to_le_bytes 16 (tower_to_flat_u128 f))
               (nonce_field_index * 16) [])
  else None.

(** The scratch grown to [count] leaves; new leaves are copies of the template. *)
Definition grow_leaves (b : FixedFieldNonceBatch) (count : nat) : list (list Z) :=
  flat_leaves b ++ replicate (count - length (flat_leaves b)) (flat_template b).

Definition patch_nonce (b : FixedFieldNonceBatch) (n : Z) (leaf : list Z) : list Z :=
  copy_at (nonce_offset b) (to_le_bytes 16 (tower_to_flat_u128 n)) leaf.

(** One unpadded flat sponge ([leaf_sponge_flat_batch_with_iv_into], [pad = false]). *)
Definition leaf_sponge_flat (iv : Z * Z) (leaf : list Z) : list Z :=
  finalize_no_pad (flat_update (with_iv iv) leaf).

Definition flat_digest_to_tower (digest : list Z) : list Z :=
  let '(flat_hi, flat_lo) := lanes_of digest in
  lanes_digest (flat_to_tower_u128 flat_hi) (flat_to_tower_u128 flat_lo).

Definition hash_into (b : FixedFieldNonceBatch) (start_nonce : Z) (count : nat)
  : list (list Z) * FixedFieldNonceBatch :=
  if (count =? 0)%nat then ([], b)
  else
    let leaves := grow_leaves b count in
    let active := imap (fun index leaf =>
      patch_nonce b (saturating_add 128 start_nonce (Z.of_nat index)) leaf) (take count leaves) in
    ((fun leaf => flat_digest_to_tower (leaf_sponge_flat (batch_iv b) leaf)) <$> active,
     mkBatch (batch_iv b) (flat_template b) (nonce_offset b) (active ++ drop count leaves)).

Definition PowNonceBatchHasher_new (fields : list Z) : option FixedFieldNonceBatch :=
  FixedFieldNonceBatch_new TAG_POWHDR fields POW_NONCE_FIELD_INDEX.

Definition poseidon_pow_digest_nonce_batch (fields : list Z) (start_nonce : Z) (count : nat)
  : option (list (list Z)) :=
  (fun b => (hash_into b start_nonce count).1) <$> PowNonceBatchHasher_new fields.

(** The first digest of a batch below the target. *)
Fixpoint first_below (target : list Z) (i : nat) (digests : list (list Z)) : option nat :=
  match digests with
  | [] => None
  | d :: rest => if le256_lt d target then Some i else first_below target (S i) rest
  end.

(** [while done < range]: every round advances [done] by at least one, so
    [range] rounds are enough ([search_loop_exact]). *)
Fixpoint search_loop (fuel : nat) (hasher : FixedFieldNonceBatch) (target : list Z)
    (start_nonce range done_ : Z) : option Z :=
  match fuel with
  | O => None
  | S fuel =>
      if done_ <? range then
        let batch_len := Z.min (range - done_) 64 in
        let nonce_base := saturating_add 128 start_nonce done_ in
        let '(digests, hasher) := hash_into hasher nonce_base (Z.to_nat batch_len) in
        match first_below target 0 digests with
        | Some i => Some (saturating_add 128 nonce_base (Z.of_nat i))
        | None => search_loop fuel hasher target start_nonce range (done_ + batch_len)
        end
      else None
  end.

(** The outer [None] is a failed assertion of the hasher. *)
Definition search_pow (header_template : BlockHeader) (start_nonce range : Z) : option (option Z) :=
  let fields := pow_header_fields header_template in
  hasher ← PowNonceBatchHasher_new fields;
  Some (search_loop (Z.to_nat range) hasher (difficulty_target header_template) start_nonce range 0).

(** ** The scalar digest as absorbed blocks *)

Definition pair_block (a b : Z) : list Z := to_le_bytes 16 a ++ to_le_bytes 16 b.

Fixpoint pair_blocks (fields : list Z) : list (list Z) :=
  match fields with
  | a :: b :: rest => pair_block a b :: pair_blocks rest
  | _ => []
  end.

Lemma pair_block_length a b : length (pair_block a b) = 32%nat.
Proof. unfold pair_block. now rewrite length_app, !(proj1 (to_le_bytes_array 16 _)). Qed.

(** Induction over a list two elements at a time. *)
Lemma pair_ind {A} (P : list A -> Prop) :
  P [] -> (forall x, P [x]) -> (forall x y l, P l -> P (x :: y :: l)) -> forall l, P l.
Proof.
  intros H0 H1 H2 l. enough (P l /\ forall x, P (x :: l)) by tauto.
  induction l as [|y l [IH1 IH2]]; auto.
Qed.

Lemma blocks_pairs fields : blocks (concat (pair_blocks fields)) = pair_blocks fields.
Proof.
  induction fields as [| |a b rest IH] using pair_ind; [reflexivity..|].
  cbn [pair_blocks concat].
  destruct (blocks_one (pair_block a b) (concat (pair_blocks rest)) (pair_block_length a b)) as [-> _].
  now rewrite IH.
Qed.

Lemma absorb_pairs_updates fields s :
  absorb_pairs s fields = foldl (update permute_mut) s (pair_blocks fields).
Proof.
  revert s. induction fields as [| |a b rest IH] using pair_ind; intros s; [reflexivity..|].
  exact (IH _).
Qed.

Definition rate_digest (st : list Z) : list Z := lanes_digest (nth 0 st 0) (nth 1 st 0).

Lemma updates_no_pad permute iv pieces :
  finalize_no_pad (foldl (update permute) (with_iv iv) pieces)
  = rate_digest (absorb_blocks permute [0; 0; iv.1; iv.2] (blocks (concat pieces))).
Proof.
  destruct (absorbed_updates permute _ [] _ pieces (absorbed_start permute iv)) as (E & _).
  unfold finalize_no_pad, squeeze_32. now rewrite E.
Qed.

Lemma pow_digest_blocks fields :
  poseidon_pow_digest_from_fields fields
  = rate_digest (absorb_blocks permute_mut [0; 0; (capacity_iv TAG_POWHDR).1; (capacity_iv TAG_POWHDR).2]
      (pair_blocks fields)).
Proof.
  unfold poseidon_pow_digest_from_fields. rewrite absorb_pairs_updates, updates_no_pad. now rewrite blocks_pairs.
Qed.

(** ** The flat sponge is the tower sponge in the other basis *)

Lemma permute_flat_conj st :
  state_ok st -> permute_flat_u128 (map tower_to_flat_u128 st) = map tower_to_flat_u128 (permute_mut st).
Proof. intros [s ->]%state_ok_tower. now rewrite (permute_refines s), (permute_flat_refines s). Qed.

Lemma pair_block_ok a b : array_ok 32 (pair_block a b).
Proof. split; [apply pair_block_length|]. apply Forall_app. split; apply to_le_bytes_array. Qed.

Lemma pair_block_lanes a b : u128 a -> u128 b ->
  from_le_bytes (take 16 (pair_block a b)) = a /\ from_le_bytes (take 16 (drop 16 (pair_block a b))) = b.
Proof.
  intros Ha Hb. unfold pair_block.
  pose proof (proj1 (to_le_bytes_array 16 a)) as La. pose proof (proj1 (to_le_bytes_array 16 b)) as Lb.
  rewrite take_app_length', drop_app_length', (take_ge (to_le_bytes 16 b)) by lia.
  now rewrite !from_to_le_bytes_id.
Qed.

Lemma xor_rate_conj st a b :
  length st = STATE_SIZE -> u128 a -> u128 b ->
  xor_rate (map tower_to_flat_u128 st) (pair_block (tower_to_flat_u128 a) (tower_to_flat_u128 b))
  = map tower_to_flat_u128 (xor_rate st (pair_block a b)).
Proof.
  intros Hl Ha Hb. destruct st as [|x [|y [|z [|w [|]]]]]; try discriminate Hl. cbn [map].
  rewrite !xor_rate_lanes. destruct (pair_block_lanes a b Ha Hb) as [-> ->].
  destruct (pair_block_lanes _ _ (phi_range a) (phi_range b)) as [-> ->]. cbn [map].
  now rewrite !phi_linear.
Qed.

Lemma absorb_conj st fields :
  state_ok st -> Forall (in_range 128) fields ->
  absorb_blocks permute_flat_u128 (map tower_to_flat_u128 st) (pair_blocks (tower_to_flat_u128 <$> fields))
  = map tower_to_flat_u128 (absorb_blocks permute_mut st (pair_blocks fields)).
Proof.
  revert st. induction fields as [| |a b rest IH] using pair_ind; intros st Hs Hf; [reflexivity..|].
  apply Forall_cons_1 in Hf as [Ha Hf]. apply Forall_cons_1 in Hf as [Hb Hf].
  cbn [fmap list_fmap pair_blocks]. unfold absorb_blocks. rewrite !foldl_step.
  fold (absorb_blocks permute_flat_u128) (absorb_blocks permute_mut).
  assert (Hx : state_ok (xor_rate st (pair_block a b))) by (apply xor_rate_ok; [exact Hs|apply pair_block_ok]).
  rewrite xor_rate_conj by (assumption || apply Hs). rewrite permute_flat_conj by exact Hx.
  apply IH; [now apply permute_mut_ok|exact Hf].
Qed.

(** ** Templates and their patches *)

Section Words.
Variable word : Z -> list Z.
Hypothesis word_length : forall x, length (word x) = 16%nat.

Lemma words_length fields : length (fields ≫= word) = (length fields * 16)%nat.
Proof. induction fields as [|f l IH]; [reflexivity|]. rewrite bind_cons, length_app, word_length. cbn. lia. Qed.

Lemma copy_at_words fields k x : (k < length fields)%nat ->
  copy_at (k * 16) (word x) (fields ≫= word) = <[k := x]> fields ≫= word.
Proof.
  intros Hk. destruct (lookup_lt_is_Some_2 fields k Hk) as [y Hy].
  rewrite insert_take_drop by exact Hk. rewrite <- (take_drop_middle fields k y Hy) at 1.
  unfold copy_at. rewrite !bind_app, !bind_cons, word_length.
  assert (Lt : length (take k fields ≫= word) = (k * 16)%nat) by (rewrite words_length, length_take; lia).
  rewrite take_app_length' by lia. f_equal. f_equal.
  rewrite drop_app_ge, Lt by lia. replace (k * 16 + 16 - k * 16)%nat with 16%nat by lia.
  now rewrite drop_app_length' by now rewrite word_length.
Qed.

End Words.

Definition flat_word (x : Z) : list Z := to_le_bytes 16 (tower_to_flat_u128 x).

Lemma flat_word_length x : length (flat_word x) = 16%nat.
Proof. apply to_le_bytes_array. Qed.

Lemma flat_words_blocks fields : Nat.even (length fields) = true ->
  (fields ≫= flat_word) = concat (pair_blocks (tower_to_flat_u128 <$> fields)).
Proof.
  induction fields as [|x|a b rest IH] using pair_ind; intros He; [reflexivity|discriminate|].
  rewrite !bind_cons. cbn [fmap list_fmap pair_blocks concat]. rewrite (IH He).
  unfold pair_block, flat_word. now rewrite <- app_assoc.
Qed.

(** [st] read back from the flat basis. *)
Lemma flat_rate_digest st : state_ok st ->
  flat_digest_to_tower (rate_digest (map tower_to_flat_u128 st)) = rate_digest st.
Proof.
  intros [Hl Hf]. destruct st as [|x [|y [|z [|w [|]]]]]; try discriminate Hl.
  apply Forall_cons_1 in Hf as [Hx Hf]. apply Forall_cons_1 in Hf as [Hy _].
  unfold flat_digest_to_tower, rate_digest, lanes_digest. cbn [map nth].
  rewrite (lanes_of_block (to_le_bytes 16 _ ++ to_le_bytes 16 _)) by exact (pair_block_ok _ _).
  destruct (pair_block_lanes _ _ (phi_range x) (phi_range y)) as [E1 E2]. unfold pair_block in E1, E2.
  now rewrite E1, E2, !psi_phi.
Qed.

Lemma capacity_state_ok tag : array_ok 8 tag -> state_ok [0; 0; (capacity_iv tag).1; (capacity_iv tag).2].
Proof.
  intros H. destruct (tag_range tag H) as [H1 H2]. pose proof (range_0 128 ltac:(lia)).
  split; [reflexivity|]. auto using Forall_cons, Forall_nil.
Qed.

Lemma capacity_flat_state tag :
  [0; 0; (capacity_iv_flat tag).1; (capacity_iv_flat tag).2]
  = map tower_to_flat_u128 [0; 0; (capacity_iv tag).1; (capacity_iv tag).2].
Proof.
  unfold capacity_iv_flat. rewrite (surjective_pairing (capacity_iv tag)). cbn [map fst snd]. now rewrite phi_0.
Qed.

Lemma pair_blocks_ok fields : Forall (array_ok 32) (pair_blocks fields).
Proof. induction fields as [| |a b l IH] using pair_ind; constructor; [apply pair_block_ok|exact IH]. Qed.

(** One leaf of the batch is one scalar digest. *)
Lemma leaf_digest fields :
  Nat.even (length fields) = true -> Forall (in_range 128) fields ->
  flat_digest_to_tower (leaf_sponge_flat (capacity_iv_flat TAG_POWHDR) (fields ≫= flat_word))
  = poseidon_pow_digest_from_fields fields.
Proof.
  intros He Hf. rewrite pow_digest_blocks. unfold leaf_sponge_flat, flat_update.
  pose proof (updates_no_pad permute_flat_u128 (capacity_iv_flat TAG_POWHDR) [fields ≫= flat_word]) as E.
  rewrite foldl_step, foldl_done in E. rewrite E. cbn [concat]. rewrite app_nil_r, flat_words_blocks by exact He.
  rewrite blocks_pairs, capacity_flat_state.
  assert (Hs : state_ok [0; 0; (capacity_iv TAG_POWHDR).1; (capacity_iv TAG_POWHDR).2])
    by (apply capacity_state_ok; tag_ok).
  rewrite absorb_conj by assumption. apply flat_rate_digest, absorb_blocks_ok; [exact Hs|apply pair_blocks_ok].
Qed.

(** ** Batches *)

Lemma imap_const_seq {A B} (P : A -> Prop) (f : nat -> A -> B) (g : nat -> B) l :
  Forall P l -> (forall i x, P x -> f i x = g i) -> imap f l = g <$> seq 0 (length l).
Proof.
  intros Hl. revert f g. induction Hl as [|x l Hx Hl IH]; intros f g E; [reflexivity|].
  rewrite imap_cons. cbn [length seq fmap list_fmap]. rewrite (E 0%nat x Hx). f_equal.
  rewrite <- seq_shift. change (map S ?l) with (S <$> l). rewrite <- list_fmap_compose.
  apply (IH (f ∘ S) (g ∘ S)). intros i y Hy. apply (E (S i) y Hy).
Qed.

(** A leaf of the scratch: the template with some nonce. *)
Definition leaf_of (fields leaf : list Z) : Prop :=
  exists n, leaf = <[POW_NONCE_FIELD_INDEX := n]> fields ≫= flat_word.

Record batch_of (fields : list Z) (b : FixedFieldNonceBatch) : Prop := {
  of_iv : batch_iv b = capacity_iv_flat TAG_POWHDR;
  of_template : flat_template b = fields ≫= flat_word;
  of_offset : nonce_offset b = (POW_NONCE_FIELD_INDEX * 16)%nat;
  of_leaves : Forall (leaf_of fields) (flat_leaves b)
}.

Section Batch.
Variable fields : list Z.
Hypothesis fields_length : length fields = POW_HEADER_FIELD_COUNT.
Hypothesis fields_range : Forall (in_range 128) fields.

Definition nonce_digest (n : Z) : list Z :=
  poseidon_pow_digest_from_fields (<[POW_NONCE_FIELD_INDEX := n]> fields).

Lemma batch_new : exists b, PowNonceBatchHasher_new fields = Some b /\ batch_of fields b.
Proof.
  unfold PowNonceBatchHasher_new, FixedFieldNonceBatch_new. rewrite fields_length.
  eexists. split; [reflexivity|]. now constructor.
Qed.

Lemma template_leaf b : batch_of fields b -> leaf_of fields (flat_template b).
Proof.
  intros [_ -> _ _]. assert (Hk : (POW_NONCE_FIELD_INDEX < length fields)%nat)
    by (rewrite fields_length; unfold POW_NONCE_FIELD_INDEX, POW_HEADER_FIELD_COUNT; lia).
  destruct (lookup_lt_is_Some_2 fields _ Hk) as [y Hy]. exists y. now rewrite list_insert_id.
Qed.

Lemma patch_leaf b n leaf : batch_of fields b -> leaf_of fields leaf ->
  patch_nonce b n leaf = <[POW_NONCE_FIELD_INDEX := n]> fields ≫= flat_word.
Proof.
  intros [_ _ Ho _] [m ->]. unfold patch_nonce. rewrite Ho. fold (flat_word n).
  rewrite (copy_at_words flat_word flat_word_length).
  - now rewrite list_insert_insert_eq.
  - rewrite length_insert, fields_length. unfold POW_NONCE_FIELD_INDEX, POW_HEADER_FIELD_COUNT. lia.
Qed.

Lemma nonce_leaf_digest n : u128 n ->
  flat_digest_to_tower (leaf_sponge_flat (capacity_iv_flat TAG_POWHDR)
    (<[POW_NONCE_FIELD_INDEX := n]> fields ≫= flat_word)) = nonce_digest n.
Proof.
  intros Hn. apply leaf_digest; [now rewrite length_insert, fields_length|]. now apply Forall_insert.
Qed.

Lemma saturating_range a k : u128 a -> u128 (saturating_add 128 a (Z.of_nat k)).
Proof. unfold saturating_add, umax, in_range. lia. Qed.

Lemma hash_into_spec b start count :
  batch_of fields b -> u128 start ->
  (hash_into b start count).1
    = (fun i => nonce_digest (saturating_add 128 start (Z.of_nat i))) <$> seq 0 count
  /\ batch_of fields (hash_into b start count).2.
Proof.
  intros Hb Hs. unfold hash_into. destruct (Nat.eqb_spec count 0) as [->|Hc]; [now split|].
  assert (Hg : Forall (leaf_of fields) (grow_leaves b count)).
  { apply Forall_app. split; [apply Hb|]. apply Forall_replicate, template_leaf, Hb. }
  assert (Hl : length (take count (grow_leaves b count)) = count).
  { unfold grow_leaves. rewrite length_take, length_app, length_replicate. lia. }
  cbn zeta. rewrite (imap_const_seq (leaf_of fields) _
    (fun i => <[POW_NONCE_FIELD_INDEX := saturating_add 128 start (Z.of_nat i)]> fields ≫= flat_word)).
  2: now apply Forall_take.
  2: { intros i leaf Hleaf. now apply patch_leaf. }
  rewrite Hl. cbn [fst snd]. split.
  - rewrite <- list_fmap_compose. apply list_fmap_ext. intros _ i _. unfold compose.
    rewrite (of_iv _ _ Hb). now apply nonce_leaf_digest, saturating_range.
  - destruct Hb as [H1 H2 H3 H4]. constructor; [assumption..|]. apply Forall_app. split; [|now apply Forall_drop].
    apply Forall_fmap, Forall_true. intros i. eexists. reflexivity.
Qed.

(** ** The search *)

Lemma first_below_spec target i ds :
  match first_below target i ds with
  | Some j => exists k d, j = (i + k)%nat /\ ds !! k = Some d /\ le256_lt d target = true
      /\ forall k' d', (k' < k)%nat -> ds !! k' = Some d' -> le256_lt d' target = false
  | None => Forall (fun d => le256_lt d target = false) ds
  end.
Proof.
  revert i. induction ds as [|d ds IH]; intros i; cbn; [constructor|].
  destruct (le256_lt d target) eqn:Hd.
  - exists 0%nat, d. repeat split; [lia|exact Hd|]. intros k' d' Hk. lia.
  - specialize (IH (S i)). destruct (first_below target (S i) ds) as [j|]; [|now constructor].
    destruct IH as (k & e & -> & Hk & He & Hmin). exists (S k), e. repeat split; [lia|exact Hk|exact He|].
    intros [|k'] d' Hlt E; [cbn in E; congruence|]. apply (Hmin k'); [lia|exact E].
Qed.

Lemma saturating_assoc a x y : 0 <= y -> saturating_add 128 (saturating_add 128 a x) y = saturating_add 128 a (x + y).
Proof. unfold saturating_add. lia. Qed.

(** The outcome of a search over the offsets from [from] to [range]. *)
Definition search_outcome (target : list Z) (start from range : Z) (r : option Z) : Prop :=
  let rejected k := le256_lt (nonce_digest (saturating_add 128 start k)) target = false in
  match r with
  | Some n => exists k, from <= k < range /\ n = saturating_add 128 start k
      /\ le256_lt (nonce_digest n) target = true /\ forall k', from <= k' < k -> rejected k'
  | None => forall k, from <= k < range -> rejected k
  end.

Lemma search_outcome_skip target start from mid range r :
  from <= mid -> (forall k, from <= k < mid -> le256_lt (nonce_digest (saturating_add 128 start k)) target = false) ->
  search_outcome target start mid range r -> search_outcome target start from range r.
Proof.
  intros Hle Hrej. unfold search_outcome. destruct r as [n|]; cbn zeta.
  - intros (k & Hk & Hn & Ha & Hmin). exists k. repeat split; [lia..|exact Hn|exact Ha|].
    intros k' Hk'. destruct (Z_lt_le_dec k' mid); [apply Hrej; lia|apply Hmin; lia].
  - intros H k Hk. destruct (Z_lt_le_dec k mid); [apply Hrej; lia|apply H; lia].
Qed.

Lemma search_loop_exact fuel b target start range done_ :
  batch_of fields b -> u128 start -> 0 <= done_ -> (Z.to_nat (range - done_) <= fuel)%nat ->
  search_outcome target start done_ range (search_loop fuel b target start range done_).
Proof.
  intros Hb Hs. revert b done_ Hb. induction fuel as [|fuel IH]; intros b done_ Hb Hd Hf; cbn [search_loop];
    [intros k Hk; lia|].
  destruct (Z.ltb_spec done_ range) as [Hlt|Hge]; [|intros k Hk; lia].
  cbn zeta. set (len := Z.min (range - done_) 64). set (base := saturating_add 128 start done_).
  assert (Hlen : 1 <= len <= range - done_) by lia.
  assert (Hbase : u128 base) by (unfold base, saturating_add, umax, in_range in *; lia).
  destruct (hash_into_spec b base (Z.to_nat len) Hb Hbase) as [Hds Hb'].
  destruct (hash_into b base (Z.to_nat len)) as [ds b'] eqn:Eh. cbn [fst snd] in Hds, Hb'.
  assert (Hat : forall k, (k < Z.to_nat len)%nat ->
    ds !! k = Some (nonce_digest (saturating_add 128 start (done_ + Z.of_nat k)))).
  { intros k Hk. rewrite Hds, list_lookup_fmap, lookup_seq_lt by exact Hk. cbn.
    unfold base. now rewrite saturating_assoc by lia. }
  assert (Hlds : length ds = Z.to_nat len) by (rewrite Hds, length_fmap, length_seq; reflexivity).
  pose proof (first_below_spec target 0 ds) as Hfirst. destruct (first_below target 0 ds) as [j|].
  - destruct Hfirst as (k & d & -> & Hk & Hacc & Hmin). pose proof (lookup_lt_Some _ _ _ Hk) as Hkl.
    rewrite Hat in Hk by lia. injection Hk as <-. cbn [Nat.add].
    exists (done_ + Z.of_nat k). unfold base. rewrite saturating_assoc by lia. repeat split; [lia..|exact Hacc|].
    intros k' Hk'. apply (Hmin (Z.to_nat (k' - done_)) _ ltac:(lia)).
    rewrite Hat by lia. repeat f_equal. lia.
  - apply (search_outcome_skip _ _ _ (done_ + len)); [lia| |apply IH; [exact Hb'|lia..]].
    intros k Hk. rewrite Forall_lookup in Hfirst. apply (Hfirst (Z.to_nat (k - done_))).
    rewrite Hat by lia. repeat f_equal. lia.
Qed.
End Batch.

(** ** Headers *)

Lemma pow_fields_length h : length (pow_header_fields h) = POW_HEADER_FIELD_COUNT.
Proof. reflexivity. Qed.

Lemma lanes_of_range d : digest_ok d -> u128 (lanes_of d).1 /\ u128 (lanes_of d).2.
Proof.
  intros H. rewrite lanes_of_block by exact H. destruct (block_lanes d H) as [[L1 B1] [L2 B2]].
  split; apply lane_range; assumption.
Qed.

Lemma put_digest_lanes_range d : digest_ok d -> Forall (in_range 128) (put_digest_lanes d).
Proof.
  intros H. destruct (lanes_of_range d H) as [H1 H2]. unfold put_digest_lanes.
  rewrite (surjective_pairing (lanes_of d)). auto using Forall_cons, Forall_nil.
Qed.

Lemma pow_fields_range h : header_wf h -> Forall (in_range 128) (pow_header_fields h).
Proof.
  intros [H1 H2 H3 H4 H5 H6 H7 H8 H9 H10 H11]. unfold pow_header_fields. rewrite !Forall_app.
  auto 20 using put_digest_lanes_range, Forall_cons, Forall_nil, u64_u128, u32_u128.
Qed.

Lemma pow_fields_nonce h n :
  pow_header_fields (with_nonce h n) = <[POW_NONCE_FIELD_INDEX := n]> (pow_header_fields h).
Proof. reflexivity. Qed.

Lemma pow_digest_nonce h n : poseidon_pow_digest (with_nonce h n) = nonce_digest (pow_header_fields h) n.
Proof. unfold poseidon_pow_digest, nonce_digest. now rewrite pow_fields_nonce. Qed.

Lemma validate_pow_nonce h n :
  validate_pow (with_nonce h n)
  = let d := nonce_digest (pow_header_fields h) n in
    if le256_lt d (difficulty_target h) then Ok d else Err InvalidPoW.
Proof. unfold validate_pow. rewrite pow_digest_nonce. reflexivity. Qed.

Lemma saturated_offsets start k n' :
  u128 start -> 0 <= k -> start <= n' < saturating_add 128 start k ->
  0 <= n' - start < k /\ saturating_add 128 start (n' - start) = n'.
Proof. unfold saturating_add, umax, in_range. lia. Qed.

Lemma search_pow_spec (h : BlockHeader) (start range : Z) :
  header_wf h -> u128 start -> u128 range ->
  exists r, search_pow h start range = Some r /\
  match r with
  | Some n => start <= n < start + range /\ u128 n
      /\ validate_pow (with_nonce h n) = Ok (poseidon_pow_digest (with_nonce h n))
      /\ forall n', start <= n' < n -> validate_pow (with_nonce h n') = Err InvalidPoW
  | None => forall n', start <= n' < start + range -> u128 n' -> validate_pow (with_nonce h n') = Err InvalidPoW
  end.
Proof.
  intros Hh Hs Hr. pose proof (pow_fields_length h) as Hl. pose proof (pow_fields_range h Hh) as Hf.
  destruct (batch_new _ Hl) as (b & Hb & Hof). unfold search_pow. cbn zeta. rewrite Hb.
  eexists. split; [reflexivity|].
  pose proof (search_loop_exact _ Hl Hf (Z.to_nat range) b (difficulty_target h) start range 0 Hof Hs
    ltac:(lia) ltac:(lia)) as H.
  destruct (search_loop _ _ _ _ _ _) as [n|]; unfold search_outcome in H; cbn zeta in H.
  - destruct H as (k & Hk & -> & Ha & Hmin).
    split; [unfold saturating_add, umax, in_range in *; lia|].
    split; [unfold saturating_add, umax, in_range in *; lia|]. split.
    + rewrite validate_pow_nonce, pow_digest_nonce. cbn zeta. now rewrite Ha.
    + intros n' Hn'. destruct (saturated_offsets start k n' Hs ltac:(lia) Hn') as [H1 H2].
      specialize (Hmin _ H1). rewrite H2 in Hmin. rewrite validate_pow_nonce. cbn zeta. now rewrite Hmin.
  - intros n' Hn' Hu. specialize (H (n' - start) ltac:(lia)).
    replace (saturating_add 128 start (n' - start)) with n' in H
      by (unfold saturating_add, umax, in_range in *; lia).
    rewrite validate_pow_nonce. cbn zeta. now rewrite H.
Qed.

(** ** Main results *)

(** The prepared batch hasher is the scalar digest.  For a header the
    hasher is built without failing an assertion, and whatever batches it has
    served before (its scratch leaves keep the nonces of earlier calls) each
    batch returns, for consecutive saturating nonces, exactly the digests
    [poseidon_pow_digest] gives for the header with that nonce. *)
Theorem pow_batch_exact (h : BlockHeader) (calls : list (Z * nat)) (start : Z) (count : nat) :
  header_wf h -> Forall (fun c => u128 c.1) calls -> u128 start ->
  exists b, PowNonceBatchHasher_new (pow_header_fields h) = Some b /\
    (hash_into (foldl (fun b c => (hash_into b c.1 c.2).2) b calls) start count).1
    = (fun i => poseidon_pow_digest (with_nonce h (saturating_add 128 start (Z.of_nat i)))) <$> seq 0 count.
Proof.
  intros Hh Hc Hs. pose proof (pow_fields_length h) as Hl. pose proof (pow_fields_range h Hh) as Hr.
  destruct (batch_new _ Hl) as (b & Hb & Hof). exists b. split; [exact Hb|]. clear Hb.
  assert (Hof' : batch_of (pow_header_fields h) (foldl (fun b c => (hash_into b c.1 c.2).2) b calls)).
  { revert b Hof. induction Hc as [|c l Hc Hcs IH]; intros b Hof; [exact Hof|]. rewrite foldl_step.
    apply IH. now apply hash_into_spec. }
  destruct (hash_into_spec _ Hl Hr _ start count Hof' Hs) as [E _]. rewrite E.
  apply list_fmap_ext. intros _ i _. now rewrite pow_digest_nonce.
Qed.

Lemma pow_batch_witness :
  exists b, PowNonceBatchHasher_new (pow_header_fields example_header) = Some b /\
    (hash_into (foldl (fun b c => (hash_into b c.1 c.2).2) b [(5, 3%nat); (9, 1%nat)]) 7 2).1
    = (fun i => poseidon_pow_digest (with_nonce example_header (saturating_add 128 7 (Z.of_nat i)))) <$> seq 0 2.
Proof.
  apply (pow_batch_exact example_header [(5, 3%nat); (9, 1%nat)] 7 2);
    [exact example_header_wf|repeat constructor; cbn; lia|split; cbn; lia].
Defined.

(** C40. The nonce search is exact.  It never fails an assertion and always
    terminates: a returned nonce lies in the range, is accepted by
    [validate_pow], and every smaller nonce of the range is rejected; no result
    means that every 128-bit nonce of the range is rejected. *)
Theorem search_pow_least (h : BlockHeader) (start range : Z) :
  header_wf h -> u128 start -> u128 range ->
  exists r, search_pow h start range = Some r /\
  match r with
  | Some n => start <= n < start + range /\ u128 n
      /\ validate_pow (with_nonce h n) = Ok (poseidon_pow_digest (with_nonce h n))
      /\ forall n', start <= n' < n -> validate_pow (with_nonce h n') = Err InvalidPoW
  | None => forall n', start <= n' < start + range -> u128 n' -> validate_pow (with_nonce h n') = Err InvalidPoW
  end.
Proof. exact (search_pow_spec h start range). Qed.

Lemma search_pow_witness : exists r, search_pow example_header 3 100 = Some r.
Proof.
  destruct (search_pow_least example_header 3 100) as (r & H & _);
    [exact example_header_wf|split; cbn; lia..|]. exists r. exact H.
Defined.
