(* ===== verification/HeaderRules.v ===== *)
(** * Header validation ([noid_chain/src/consensus/header.rs])

    A candidate header against its parent: linkage, height, difficulty,
    timestamps, proof of work and state depth, in the order of the source, with
    the variants that skip the wall clock, the proof of work or the parent hash;
    the ASERT anchor and finality.  Unchecked [u64] arithmetic wraps, as in a
    release build. *)

From Stdlib Require Import ZArith Lia Bool.
From stdpp Require Import base numbers list option gmap.
From S2P Require Import Prelude Params U256 Difficulty Rules Poseidon Sponge Header Pow.
Open Scope Z_scope.

(** The arguments every entry point shares. *)
Record HeaderContext := mkContext {
  prev_timestamps : list Z;
  finalized_active_counts : list Z;
  anchor_height : Z;
  anchor_timestamp : Z;
  anchor_target : list Z
}.

(** Rule 3. *)
Definition expected_header_target (header parent : BlockHeader) (cx : HeaderContext)
    (schedule : option ForkSchedule) : list Z :=
  match schedule with
  | Some schedule => next_target_with_schedule (anchor_height cx) (anchor_timestamp cx) (anchor_target cx)
      (hdr_height header) (timestamp parent) (timestamp header) schedule
  | None => next_target (anchor_height cx) (anchor_timestamp cx) (anchor_target cx)
      (hdr_height header) (timestamp parent) (timestamp header)
  end.

(** Rule 4, the wall-clock part. *)
Definition validate_local_time (header parent : BlockHeader) (local_time : option Z)
  : result ConsensusError unit :=
  match local_time with
  | Some local_time =>
      if (hdr_height parent =? 0) && (local_time <? timestamp parent) then Err BadTimestamp
      else map_err (fun _ => BadTimestamp) (validate_future_drift (timestamp header) local_time)
  | None => Ok tt
  end.

Definition validate_header_inner (header parent : BlockHeader) (expected_parent_hash : list Z)
    (cx : HeaderContext) (local_time : option Z) (check_pow : bool) (schedule : option ForkSchedule)
  : result ConsensusError unit :=
  _ ← ensure (bool_decide (prev_block_hash header = expected_parent_hash)) BadParentHash;
  _ ← ensure (hdr_height header =? wrapping_add 64 (hdr_height parent) 1) BadHeight;
  _ ← ensure (bool_decide (difficulty_target header = expected_header_target header parent cx schedule))
        BadDifficultyTarget;
  _ ← map_err (fun _ => BadTimestamp) (validate_median_time_past (timestamp header) (prev_timestamps cx));
  _ ← validate_local_time header parent local_time;
  _ ← (if check_pow then _ ← validate_pow header; Ok tt else Ok tt);
  let expected_log_slots :=
    expected_child_log_slots (hdr_height parent) (log_slots parent) (finalized_active_counts cx) in
  _ ← ensure (log_slots header =? expected_log_slots) BadLogSlotsExpansion;
  Ok tt.

Definition validate_header (header parent : BlockHeader) (cx : HeaderContext) (local_time : Z) :=
  validate_header_inner header parent (block_id parent) cx (Some local_time) true None.

Definition validate_header_template (header parent : BlockHeader) (cx : HeaderContext) (local_time : Z) :=
  validate_header_inner header parent (block_id parent) cx (Some local_time) false None.

Definition validate_header_timeless (header parent : BlockHeader) (cx : HeaderContext) :=
  validate_header_inner header parent (block_id parent) cx None true None.

Definition validate_header_timeless_prehashed_parent (header parent : BlockHeader) (parent_id : list Z)
    (cx : HeaderContext) :=
  validate_header_inner header parent parent_id cx None true None.

Definition validate_header_with_schedule (header parent : BlockHeader) (cx : HeaderContext)
    (local_time : option Z) (check_pow : bool) (schedule : ForkSchedule) :=
  validate_header_inner header parent (block_id parent) cx local_time check_pow (Some schedule).

Definition asert_anchor_height_with_schedule (current_height : Z) (schedule : ForkSchedule) : Z :=
  let regular := current_height / EPOCH_LENGTH * EPOCH_LENGTH in
  match v2 schedule with
  | Some at' =>
      if wrapping_sub 64 (v2_height at') 1 <=? current_height
      then Z.max regular (wrapping_sub 64 (v2_height at') 1) else regular
  | None => regular
  end.

Definition asert_anchor_height (current_height : Z) : Z :=
  asert_anchor_height_with_schedule current_height ACTIVE_SCHEDULE.

Definition is_final (block_height tip_height : Z) : bool :=
  wrapping_add 64 block_height CONSENSUS_FINALITY_DEPTH <=? tip_height.

(** ** Lemmas *)

(** The rules as propositions. *)
Record header_accepted (header parent : BlockHeader) (parent_id : list Z) (cx : HeaderContext)
    (schedule : ForkSchedule) : Prop := {
  acc_link : prev_block_hash header = parent_id;
  acc_height : hdr_height header = (hdr_height parent + 1) mod 2 ^ 64;
  acc_target : difficulty_target header = next_target_with_schedule (anchor_height cx) (anchor_timestamp cx)
    (anchor_target cx) (hdr_height header) (timestamp parent) (timestamp header) schedule;
  acc_median : median_time_past (prev_timestamps cx) < timestamp header;
  acc_log_slots : log_slots header
    = expected_child_log_slots (hdr_height parent) (log_slots parent) (finalized_active_counts cx)
}.

(** The wall-clock admission rule: not before a future genesis, and at most two
    minutes ahead. *)
Definition clock_admits (header parent : BlockHeader) (local_time : Z) : Prop :=
  (hdr_height parent = 0 -> timestamp parent <= local_time)
  /\ timestamp header <= local_time + MAX_FUTURE_DRIFT.

Definition schedule_of (schedule : option ForkSchedule) : ForkSchedule := default ACTIVE_SCHEDULE schedule.

Lemma validate_local_time_ok header parent t : u64 (timestamp header) -> u64 t ->
  validate_local_time header parent (Some t) = Ok tt <-> clock_admits header parent t.
Proof.
  unfold validate_local_time, clock_admits, validate_future_drift, ensure, saturating_add, umax, in_range.
  intros Hts Ht. repeat case_test; boolify; cbn [map_err]; (split; [try discriminate|intros; try reflexivity]); lia.
Qed.

Lemma validate_pow_ok h : is_ok (validate_pow h) = true <-> le256_lt (poseidon_pow_digest h) (difficulty_target h) = true.
Proof. unfold validate_pow. now destruct (le256_lt _ _). Qed.

Lemma bind_unit_ok {E B} (m : result E unit) (f : unit -> result E B) b :
  m ≫= f = Ok b <-> m = Ok tt /\ f tt = Ok b.
Proof. rewrite bind_ok_iff. split; [intros ([] & H); exact H|eauto]. Qed.

Lemma validate_header_inner_ok header parent pid cx lt pow schedule :
  validate_header_inner header parent pid cx lt pow schedule = Ok tt
  <-> header_accepted header parent pid cx (schedule_of schedule)
      /\ validate_local_time header parent lt = Ok tt
      /\ (pow = true -> le256_lt (poseidon_pow_digest header) (difficulty_target header) = true).
Proof.
  assert (P : (if pow then _ ← validate_pow header; Ok tt else Ok tt) = Ok tt
    <-> (pow = true -> le256_lt (poseidon_pow_digest header) (difficulty_target header) = true)).
  { unfold validate_pow. destruct pow; [|split; [discriminate|reflexivity]].
    destruct (le256_lt _ _); split; intros H; try reflexivity; try discriminate H.
    now specialize (H eq_refl). }
  assert (T : expected_header_target header parent cx schedule
    = next_target_with_schedule (anchor_height cx) (anchor_timestamp cx) (anchor_target cx)
        (hdr_height header) (timestamp parent) (timestamp header) (schedule_of schedule))
    by now destruct schedule.
  unfold validate_header_inner, validate_median_time_past. rewrite T. clear T.
  rewrite !bind_unit_ok, P, !map_err_ok_iff, !ensure_ok_iff, !bool_decide_eq_true, negb_true_iff, !Z.eqb_eq, Z.leb_gt.
  unfold wrapping_add. split.
  - intros (H1 & H2 & H3 & H4 & H5 & H6 & H7 & _). auto using Build_header_accepted.
  - intros ([H1 H2 H3 H4 H5] & H6 & H7). auto 10.
Qed.

Lemma pow_digest_ok h : digest_ok (poseidon_pow_digest h).
Proof.
  unfold poseidon_pow_digest, poseidon_pow_digest_from_fields, finalize_no_pad, squeeze_32.
  exact (pair_block_ok _ _).
Qed.

Lemma accepted_nonce header parent pid cx s n :
  header_accepted (with_nonce header n) parent pid cx s <-> header_accepted header parent pid cx s.
Proof. split; intros [H1 H2 H3 H4 H5]; now constructor. Qed.

Lemma target_with_schedule_range s anchor_h anchor_ts anchor height pts ts :
  digest_ok anchor ->
  let t := next_target_with_schedule anchor_h anchor_ts anchor height pts ts s in
  digest_ok t /\ 1 <= val 8 t <= 2 ^ 238.
Proof.
  intros Ha. unfold next_target_with_schedule, next_target_with_activation.
  destruct (v2 s); [case_test|]; now apply target_range.
Qed.

Lemma child_log_slots_bounds h ls counts :
  0 <= ls <= LOG_SLOTS_MAX -> ls <= expected_child_log_slots h ls counts <= LOG_SLOTS_MAX
  /\ expected_child_log_slots h ls counts <= ls + 1.
Proof.
  intros H. unfold expected_child_log_slots, saturating_add, umax.
  destruct (finalized_expansion_window h); repeat case_test; unfold LOG_SLOTS_MAX in *; lia.
Qed.

(** ** Chains of accepted headers *)

(** Headers from [g] on, oldest first; each is accepted by the deterministic
    rules on top of the last one, with the timestamps of all its ancestors and
    any 32-byte anchor target. *)
Inductive header_chain (g : BlockHeader) : list BlockHeader -> Prop :=
| chain_start : header_chain g [g]
| chain_extend c tip h cx :
    header_chain g c -> last c = Some tip ->
    prev_timestamps cx = timestamp <$> c -> digest_ok (anchor_target cx) ->
    validate_header_timeless h tip cx = Ok tt ->
    header_chain g (c ++ [h]).

(** A child that follows the rules of its parent. *)
Definition linked (parent child : BlockHeader) : Prop :=
  prev_block_hash child = block_id parent
  /\ 1 <= val 8 (difficulty_target child) <= 2 ^ 238
  /\ val 8 (poseidon_pow_digest child) < val 8 (difficulty_target child).

Definition depth_ok (g : BlockHeader) (i : nat) (h : BlockHeader) : Prop :=
  hdr_height h = hdr_height g + Z.of_nat i
  /\ log_slots g <= log_slots h <= Z.min LOG_SLOTS_MAX (log_slots g + Z.of_nat i).

Lemma timeless_accepts h parent cx : validate_header_timeless h parent cx = Ok tt ->
  header_accepted h parent (block_id parent) cx ACTIVE_SCHEDULE
  /\ le256_lt (poseidon_pow_digest h) (difficulty_target h) = true.
Proof.
  intros H. apply validate_header_inner_ok in H as (H & _ & Hp). split; [exact H|now apply Hp].
Qed.

Lemma accepted_linked h parent cx :
  digest_ok (anchor_target cx) -> validate_header_timeless h parent cx = Ok tt -> linked parent h.
Proof.
  intros Ha H. apply timeless_accepts in H as [[H1 _ H3 _ _] Hp]. unfold linked.
  destruct (target_with_schedule_range ACTIVE_SCHEDULE (anchor_height cx) (anchor_timestamp cx) (anchor_target cx)
    (hdr_height h) (timestamp parent) (timestamp h) Ha) as [Hd Hr].
  rewrite <- H3 in Hd, Hr. rewrite digest_lt_val in Hp by (apply pow_digest_ok || exact Hd).
  apply Z.ltb_lt in Hp. auto.
Qed.

Lemma accepted_depth g i parent h cx :
  0 <= hdr_height g -> 0 <= log_slots g <= LOG_SLOTS_MAX -> hdr_height g + Z.of_nat (S i) < 2 ^ 64 ->
  depth_ok g i parent -> validate_header_timeless h parent cx = Ok tt -> depth_ok g (S i) h.
Proof.
  intros Hg Hl Hb [D1 D2] H. apply timeless_accepts in H as [[_ H2 _ _ H5] _].
  pose proof (child_log_slots_bounds (hdr_height parent) (log_slots parent) (finalized_active_counts cx) ltac:(lia)).
  rewrite Z.mod_small in H2 by lia. unfold depth_ok. rewrite H2, H5. lia.
Qed.

Lemma chain_invariant g c :
  0 <= hdr_height g -> 0 <= log_slots g <= LOG_SLOTS_MAX ->
  header_chain g c -> hdr_height g + Z.of_nat (length c) <= 2 ^ 64 ->
  (forall i h, c !! i = Some h -> depth_ok g i h)
  /\ (forall i p h, c !! i = Some p -> c !! S i = Some h -> linked p h).
Proof.
  intros Hg Hl H. induction H as [|c tip h cx Hc IH Ht Hts Ha Hv]; intros Hb.
  - split; [|intros [|i] p h _ E; discriminate E].
    intros [|i] h E; [|discriminate E]. injection E as <-. unfold depth_ok. lia.
  - rewrite length_app in Hb. cbn [length] in Hb. destruct (IH ltac:(lia)) as [H1 H2].
    rewrite last_lookup in Ht. pose proof (lookup_lt_Some _ _ _ Ht) as Hlt.
    assert (Hp : length c = S (pred (length c))) by lia. split.
    + intros i x E. apply lookup_app_Some in E as [E|[Hi E]]; [now apply H1|].
      assert (i = length c) as -> by (apply lookup_lt_Some in E; cbn in E; lia).
      rewrite Nat.sub_diag in E. injection E as <-. rewrite Hp.
      apply (accepted_depth g (pred (length c)) tip h cx); [assumption..|lia|now apply H1|exact Hv].
    + intros i p x E E'. apply lookup_app_Some in E' as [E'|[Hi E']].
      * rewrite lookup_app_l in E by (apply lookup_lt_Some in E'; lia). now apply (H2 i).
      * assert (S i = length c) as Hi' by (apply lookup_lt_Some in E'; cbn in E'; lia).
        rewrite Hi', Nat.sub_diag in E'. injection E' as <-.
        rewrite lookup_app_l in E by lia. replace (pred (length c)) with i in Ht by lia.
        rewrite Ht in E. injection E as <-. now apply (accepted_linked h tip cx).
Qed.

Lemma true_guard (P : Prop) : (true = true -> P) <-> P.
Proof. split; auto. Qed.

Lemma false_guard (P : Prop) : (false = true -> P) <-> True.
Proof. split; [auto|discriminate]. Qed.

(** A height where difficulty is anchored: a multiple of the epoch length, or
    the predecessor of the v2 activation. *)
Definition anchor_boundary (s : ForkSchedule) (h : Z) : Prop :=
  h mod EPOCH_LENGTH = 0 \/ exists at', v2 s = Some at' /\ h = v2_height at' - 1.

Lemma regular_boundary cur : 0 <= cur ->
  let r := cur / EPOCH_LENGTH * EPOCH_LENGTH in
  0 <= r <= cur /\ r mod EPOCH_LENGTH = 0 /\ cur - r < EPOCH_LENGTH
  /\ forall h, r < h <= cur -> h mod EPOCH_LENGTH <> 0.
Proof.
  intros Hc r. unfold r, EPOCH_LENGTH. pose proof (Z.div_mod cur 6 ltac:(lia)). pose proof (Z.mod_pos_bound cur 6 ltac:(lia)).
  split; [lia|]. split; [apply Z.mod_mul; lia|]. split; [lia|]. intros h Hh Hm.
  pose proof (Z.div_mod h 6 ltac:(lia)). lia.
Qed.

(** ** Main results *)

(** C26. What header validation accepts.  A header is accepted exactly when it
    links to the parent's id at the next height, carries the ASERT target, is
    later than the median of its ancestors, is admitted by the wall clock (not
    before a future genesis, at most 120 seconds ahead), its proof-of-work digest
    is below the target as a 256-bit integer, and its depth is the one the
    expansion rule gives. *)
Theorem header_validation_exact (header parent : BlockHeader) (cx : HeaderContext) (local_time : Z) :
  u64 (timestamp header) -> u64 local_time -> digest_ok (difficulty_target header) ->
  validate_header header parent cx local_time = Ok tt
  <-> header_accepted header parent (block_id parent) cx ACTIVE_SCHEDULE
      /\ clock_admits header parent local_time
      /\ val 8 (poseidon_pow_digest header) < val 8 (difficulty_target header).
Proof.
  intros Ht Hl Hd. unfold validate_header. rewrite validate_header_inner_ok, validate_local_time_ok by assumption.
  rewrite digest_lt_val, Z.ltb_lt by (apply pow_digest_ok || exact Hd). unfold schedule_of. cbn [default].
  intuition.
Qed.

Lemma header_validation_witness :
  validate_header example_header example_header (mkContext [] [] 0 0 GENESIS_TARGET) 5 <> Ok tt.
Proof.
  intros H. apply (header_validation_exact example_header example_header (mkContext [] [] 0 0 GENESIS_TARGET) 5) in H
    as ([_ Hh _ _ _] & _); [|split; cbn; lia|split; cbn; lia|split; [reflexivity|repeat constructor; cbn; lia]].
  cbn in Hh. discriminate Hh.
Defined.

(** The variants agree.  With the parent's own id the prehashed form is the
    timeless one; full validation is the timeless one plus the wall clock, and
    also the template one plus [validate_pow]; and the template form does not
    look at the nonce. *)
Theorem header_variants_agree (header parent : BlockHeader) (cx : HeaderContext) (local_time n : Z) :
  validate_header_timeless_prehashed_parent header parent (block_id parent) cx
    = validate_header_timeless header parent cx
  /\ (validate_header header parent cx local_time = Ok tt
      <-> validate_header_timeless header parent cx = Ok tt
          /\ validate_local_time header parent (Some local_time) = Ok tt)
  /\ (validate_header header parent cx local_time = Ok tt
      <-> validate_header_template header parent cx local_time = Ok tt /\ is_ok (validate_pow header) = true)
  /\ (validate_header_template (with_nonce header n) parent cx local_time = Ok tt
      <-> validate_header_template header parent cx local_time = Ok tt).
Proof.
  unfold validate_header, validate_header_timeless, validate_header_template, validate_header_timeless_prehashed_parent.
  split; [exact eq_refl|]. rewrite !validate_header_inner_ok, validate_pow_ok, accepted_nonce.
  assert (N : validate_local_time header parent None = Ok tt <-> True) by now split.
  rewrite N. change (validate_local_time (with_nonce header n) parent (Some local_time))
    with (validate_local_time header parent (Some local_time)).
  rewrite !true_guard, !false_guard.
  generalize (header_accepted header parent (block_id parent) cx (schedule_of None)).
  generalize (validate_local_time header parent (Some local_time) = Ok tt).
  generalize (le256_lt (poseidon_pow_digest header) (difficulty_target header) = true). tauto.
Qed.

(** Sealing a template.  If the node's template passes every rule but the
    proof of work, the search over it terminates, and a nonce it returns makes a
    header that passes full validation, with the same nonce-free identity as the
    template; when it returns none, no nonce of the range would have passed. *)
Theorem sealed_template_valid (template parent : BlockHeader) (cx : HeaderContext)
    (local_time start range : Z) :
  header_wf template -> u128 start -> u128 range ->
  validate_header_template template parent cx local_time = Ok tt ->
  exists r, search_pow template start range = Some r /\
  match r with
  | Some n => validate_header (with_nonce template n) parent cx local_time = Ok tt
      /\ semantic_header_id (with_nonce template n) = semantic_header_id template
  | None => forall n, start <= n < start + range -> u128 n ->
      validate_header (with_nonce template n) parent cx local_time <> Ok tt
  end.
Proof.
  intros Hw Hs Hr Ht. destruct (search_pow_spec template start range Hw Hs Hr) as (r & E & H).
  exists r. split; [exact E|]. apply validate_header_inner_ok in Ht as (Ha & Hl & _). destruct r as [n|].
  - split; [|apply semantic_nonce_free]. destruct H as (_ & _ & H & _). apply validate_header_inner_ok.
    split; [now apply accepted_nonce|]. split; [exact Hl|]. intros _. apply validate_pow_ok. now rewrite H.
  - intros n Hn Hu Hv. apply validate_header_inner_ok in Hv as (_ & _ & Hp).
    specialize (Hp eq_refl). apply validate_pow_ok in Hp. rewrite (H n Hn Hu) in Hp. discriminate Hp.
Qed.

Definition example_template : BlockHeader :=
  mkHeader (block_id example_header) (replicate 32 2) (replicate 32 3) 1700000020 8 (replicate 32 4) 0
    (next_target 6 1699999980 GENESIS_TARGET 8 1700000000 1700000020) 24 3 5.

Definition example_context : HeaderContext := mkContext [1700000000] [] 6 1699999980 GENESIS_TARGET.

Lemma finalize_ok s : digest_ok (finalize permute_mut s).
Proof. unfold finalize, squeeze_32. exact (pair_block_ok _ _). Qed.

Lemma block_id_ok h : digest_ok (block_id h).
Proof. exact (finalize_ok _). Qed.

Lemma example_template_wf : header_wf example_template.
Proof.
  split.
  1: exact (block_id_ok example_header).
  7: apply target_with_schedule_range, GENESIS_TARGET_val.
  all: first [split; [reflexivity|]; repeat constructor; cbn; lia | split; cbn; lia].
Qed.

Lemma sealed_template_witness :
  validate_header_template example_template example_header example_context 1700000020 = Ok tt
  /\ exists r, search_pow example_template 0 1000 = Some r.
Proof.
  assert (H : validate_header_template example_template example_header example_context 1700000020 = Ok tt).
  { apply validate_header_inner_ok. split; [constructor; exact eq_refl|]. split; [exact eq_refl|discriminate]. }
  split; [exact H|].
  destruct (sealed_template_valid example_template example_header example_context 1700000020 0 1000) as (r & E & _);
    [exact example_template_wf|split; cbn; lia|split; cbn; lia|exact H|].
  exists r. exact E.
Defined.

(** Invariant of accepted header chains, by induction on the chain: every
    header sits exactly one height above its predecessor, links to its id, meets
    a target that is never easier than genesis nor zero, and the state depth
    never shrinks, grows by at most one per block and stays within the maximum. *)
Theorem header_chain_invariant (g : BlockHeader) (c : list BlockHeader) :
  header_wf g -> log_slots g <= LOG_SLOTS_MAX -> header_chain g c ->
  hdr_height g + Z.of_nat (length c) <= 2 ^ 64 ->
  (forall i h, c !! i = Some h ->
     hdr_height h = hdr_height g + Z.of_nat i
     /\ log_slots g <= log_slots h <= Z.min LOG_SLOTS_MAX (log_slots g + Z.of_nat i))
  /\ (forall i p h, c !! i = Some p -> c !! S i = Some h ->
     prev_block_hash h = block_id p
     /\ 1 <= val 8 (difficulty_target h) <= 2 ^ 238
     /\ val 8 (poseidon_pow_digest h) < val 8 (difficulty_target h)).
Proof.
  intros Hg Hl Hc Hb. pose proof (wf_height g Hg) as [H1 _]. pose proof (wf_log g Hg) as [H2 _].
  exact (chain_invariant g c H1 (conj H2 Hl) Hc Hb).
Qed.

Lemma header_chain_witness : hdr_height example_header = hdr_height example_header + Z.of_nat 0.
Proof.
  refine (proj1 (proj1 (header_chain_invariant example_header [example_header] example_header_wf
    ltac:(unfold LOG_SLOTS_MAX; cbn; lia) (chain_start example_header) ltac:(cbn; lia)) 0%nat example_header _)).
  exact eq_refl.
Defined.

(** The ASERT anchor of a height is the latest anchoring height at or below
    it: a multiple of the epoch length or the v2 predecessor, with none between
    it and the current height, and less than one epoch away. *)
Theorem anchor_is_latest_boundary (s : ForkSchedule) (current_height : Z) :
  schedule_ok s -> u64 current_height ->
  let a := asert_anchor_height_with_schedule current_height s in
  anchor_boundary s a /\ 0 <= a <= current_height /\ current_height - a < EPOCH_LENGTH
  /\ forall h, a < h <= current_height -> ~ anchor_boundary s h.
Proof.
  intros Hs [Hc _]. cbn zeta. destruct (regular_boundary current_height Hc) as (R1 & R2 & R3 & R4).
  unfold asert_anchor_height_with_schedule, anchor_boundary, schedule_ok, activation_ok in *. cbn zeta.
  set (r := current_height / EPOCH_LENGTH * EPOCH_LENGTH) in *. clearbody r.
  destruct (v2 s) as [at'|].
  2: { split; [now left|]. split; [lia|]. split; [lia|]. intros h Hh [E|(at' & E & _)]; [now apply (R4 h)|discriminate]. }
  destruct Hs as [([_ Hu] & _ & Hp & _) _]. unfold wrapping_sub. rewrite (Z.mod_small (v2_height at' - 1) (2 ^ 64)) by lia.
  destruct (Z.leb_spec (v2_height at' - 1) current_height) as [Hle|Hgt].
  - split; [destruct (Z.max_spec r (v2_height at' - 1)) as [[_ ->]|[_ ->]]; eauto|].
    split; [lia|]. split; [lia|]. intros h Hh [E|(x & [= <-] & ->)]; [apply (R4 h); [lia|exact E]|lia].
  - split; [now left|]. split; [lia|]. split; [lia|].
    intros h Hh [E|(x & [= <-] & ->)]; [now apply (R4 h)|lia].
Qed.

Lemma anchor_witness :
  anchor_boundary ACTIVE_SCHEDULE (asert_anchor_height_with_schedule 210537 ACTIVE_SCHEDULE)
  /\ asert_anchor_height_with_schedule 210537 ACTIVE_SCHEDULE = 210536.
Proof.
  split; [|vm_compute; reflexivity].
  apply (anchor_is_latest_boundary ACTIVE_SCHEDULE 210537 ACTIVE_SCHEDULE_ok). split; cbn; lia.
Defined.
