(* ===== verification/SparseMerkle.v ===== *)
(** * Sparse Merkle trees ([noid_chain/src/sparse_merkle.rs])

    The cache of non-default nodes behind the state root, canonical multiproofs
    with implicit topology, the structural-frontier plan and its evaluation,
    expansion into directed paths, and the padding of a frontier to a class
    capacity; with the leaf and node hashes of [exact_state_hash.rs].

    The five loops of the source that climb a touched set level by level share
    one skeleton, [walk]; each is its own [Walk], with the code of its match arms.
    They are all compared with one symbolic walk, whose result is the expression
    the verifier evaluates. *)

From Stdlib Require Import ZArith Lia Bool Sorted.
From stdpp Require Import base numbers list option gmap sorting.
From S2P Require Import Prelude Merkle.
Open Scope Z_scope.

Fixpoint fold_option {A B} (f : B -> A -> option B) (acc : B) (l : list A) : option B :=
  match l with
  | [] => Some acc
  | x :: l => acc ← f acc x; fold_option f acc l
  end.

Inductive SparseMerkleError :=
| InvalidDepth (depth : nat)
| EmptyIndices
| LeafCountMismatch (indices leaves : nat)
| UnsortedIndices
| DuplicateIndex (index : Z)
| IndexOutOfRange (index : Z) (depth : nat)
| ProofLengthMismatch (expected actual : nat)
| FrontierCapacityExceeded (required capacity : nat)
| PaddedProofLengthMismatch (expected actual : nat)
| NonCanonicalPadding (index : nat)
| CacheDepthMismatch (cache_depth requested_depth : nat).

(** ** Validation of depths and indices *)

Definition validate_depth (depth : nat) : result SparseMerkleError unit :=
  ensure (depth <=? 32)%nat (InvalidDepth depth).

Definition validate_index (index : Z) (depth : nat) : result SparseMerkleError unit :=
  _ ← validate_depth depth;
  ensure (negb (2 ^ Z.of_nat depth <=? index)) (IndexOutOfRange index depth).

(** One round of [validate_indices]: the previous index and the set so far. *)
Definition check_index (depth : nat) (st : option Z * gset Z) (index : Z)
  : result SparseMerkleError (option Z * gset Z) :=
  _ ← validate_index index depth;
  _ ← (match st.1 with
       | Some prev =>
           _ ← ensure (negb (index <? prev)) UnsortedIndices;
           ensure (negb (index =? prev)) (DuplicateIndex index)
       | None => Ok tt
       end);
  Ok (Some index, {[index]} ∪ st.2).

Definition validate_indices (indices : list Z) (depth : nat) : result SparseMerkleError (gset Z) :=
  _ ← validate_depth depth;
  _ ← ensure (negb (length indices =? 0)%nat) EmptyIndices;
  st ← fold_result (check_index depth) (None, ∅) indices;
  Ok st.2.

(** *** Analytic frontier capacities *)

(** [while covering_power < touched]: with [touched <= 2^32] at most 32 rounds. *)
Fixpoint covering_loop (fuel : nat) (touched covering_power : Z) (covering_depth : nat) : Z * nat :=
  match fuel with
  | O => (covering_power, covering_depth)
  | S fuel =>
      if covering_power <? touched
      then covering_loop fuel touched (Z.shiftl covering_power 1) (covering_depth + 1)
      else (covering_power, covering_depth)
  end.

(** [None] is a failed assertion. *)
Definition maximum_sibling_count (touched : Z) (depth : nat) : option Z :=
  if negb (depth <=? 32)%nat then None
  else if touched =? 0 then Some 0
  else if negb (touched <=? 2 ^ Z.of_nat depth) then None
  else
    let '(covering_power, covering_depth) := covering_loop 33 touched 1 0 in
    Some (Z.of_nat (depth - covering_depth) * touched + covering_power - touched).

(** The frontier of [touched] leaves spread evenly over [used_segments]; [None]
    where the source skips the count. *)
Definition balanced_total (touched segment_capacity used_segments : Z) (log_segment_size segment_tree_depth : nat)
  : option Z :=
  let quotient := touched / used_segments in
  let remainder := touched mod used_segments in
  if (quotient <=? segment_capacity) && ((remainder =? 0) || (quotient + 1 <=? segment_capacity)) then
    let smaller_segments := used_segments - remainder in
    small ← maximum_sibling_count quotient log_segment_size;
    large ← (if remainder =? 0 then Some 0 else maximum_sibling_count (quotient + 1) log_segment_size);
    upper ← maximum_sibling_count used_segments segment_tree_depth;
    Some (smaller_segments * small + remainder * large + upper)
  else Some 0.

Definition maximum_sibling_count_with_segment_cap (touched : Z) (depth log_segment_size : nat) (max_segments : Z)
  : option Z :=
  if negb (depth <=? 32)%nat || negb (log_segment_size <=? depth)%nat then None
  else if touched =? 0 then Some 0
  else if negb (0 <? max_segments) then None
  else
    let segment_capacity := 2 ^ Z.of_nat log_segment_size in
    let segment_tree_depth := (depth - log_segment_size)%nat in
    let domain_segments := 2 ^ Z.of_nat segment_tree_depth in
    let capped_segments := if max_segments <? domain_segments then max_segments else domain_segments in
    if negb (touched <=? segment_capacity * capped_segments) then None
    else
      let max_used_segments := if touched <? capped_segments then touched else capped_segments in
      fold_option (fun maximum used_segments =>
        total ← balanced_total touched segment_capacity used_segments log_segment_size segment_tree_depth;
        Some (if maximum <? total then total else maximum)) 0 (seqZ 1 max_used_segments).

(** ** The climb over a touched set *)

(** [pos & !1] *)
Definition pair_base (pos : Z) : Z := Z.ldiff pos 1.

(** Keys of a [BTreeMap] in order. *)
Definition sorted_keys {V} (m : gmap Z V) : list Z := merge_sort Z.le (elements (dom m : gset Z)).

(** [for &pos in known.keys() { if !processed.insert(base) { continue } .. }]: the
    bases the body runs for. *)
Fixpoint bases (processed : gset Z) (keys : list Z) : list Z :=
  match keys with
  | [] => []
  | pos :: keys =>
      let base := pair_base pos in
      if decide (base ∈ processed) then bases processed keys
      else base :: bases ({[base]} ∪ processed) keys
  end.

(** What one of the loops does for a missing sibling and for a pair. *)
Record Walk (V S : Type) := mkWalk {
  fresh : nat -> Z -> S -> option (V * S);
  combine : nat -> V -> V -> S -> V * S
}.
Arguments mkWalk {V S} _ _.
Arguments fresh {V S} _ _ _ _.
Arguments combine {V S} _ _ _ _ _.

Section Walking.
Context {V S : Type} (w : Walk V S).

(** The two children of [base], asking for the one that is not known. *)
Definition children (level : nat) (known : gmap Z V) (base : Z) (s : S) : option (V * V * S) :=
  match known !! base, known !! (base + 1) with
  | Some l, Some r => Some (l, r, s)
  | Some l, None => '(r, s) ← fresh w level (base + 1) s; Some (l, r, s)
  | None, Some r => '(l, s) ← fresh w level base s; Some (l, r, s)
  | None, None => None
  end.

Definition walk_pair (level : nat) (known : gmap Z V) (st : gmap Z V * S) (base : Z)
  : option (gmap Z V * S) :=
  '(l, r, s) ← children level known base st.2;
  let '(parent, s) := combine w level l r s in
  Some (<[base / 2 := parent]> st.1, s).

Definition walk_level (st : gmap Z V * S) (level : nat) : option (gmap Z V * S) :=
  fold_option (walk_pair level st.1) (∅, st.2) (bases ∅ (sorted_keys st.1)).

Definition walk (depth : nat) (known : gmap Z V) (s : S) : option (gmap Z V * S) :=
  fold_option walk_level (known, s) (seq 0 depth).
End Walking.

(** [known.into_iter().next()] matched against [Some((0, root))]. *)
Definition single_root {V} (depth : nat) (known : gmap Z V) : result SparseMerkleError V :=
  match head (sorted_keys known) with
  | Some 0 => ok_or (known !! 0) (InvalidDepth depth)
  | _ => Err (InvalidDepth depth)
  end.

(** *** Counting and locating the frontier *)

Definition FrontierSiblingPosition : Type := nat * Z.

Definition count_walk : Walk unit nat :=
  mkWalk (fun _ _ count => Some (tt, (count + 1)%nat)) (fun _ _ _ count => (tt, count)).

Definition position_walk : Walk unit (list FrontierSiblingPosition) :=
  mkWalk (fun level node_index positions => Some (tt, positions ++ [(level, node_index)]))
    (fun _ _ _ positions => (tt, positions)).

Definition touched_map (known : gset Z) : gmap Z unit := gset_to_gmap tt known.

Definition expected_sibling_count (indices : list Z) (depth : nat) : exec SparseMerkleError nat :=
  known ← lift (validate_indices indices depth);
  st ← expect (walk count_walk depth (touched_map known) 0%nat);
  mret st.2.

Definition frontier_sibling_positions (indices : list Z) (depth : nat)
  : exec SparseMerkleError (list FrontierSiblingPosition) :=
  known ← lift (validate_indices indices depth);
  st ← expect (walk position_walk depth (touched_map known) []);
  mret st.2.

(** *** The structural-frontier plan *)

Inductive StructuralNodeRef :=
| TouchedLeaf (ordinal : nat)
| FrontierSibling (ordinal : nat)
| Combine (ordinal : nat).

Record StructuralFrontierPlan := mkPlan {
  touched_leaf_count : nat;
  frontier_positions : list FrontierSiblingPosition;
  combines : list (StructuralNodeRef * StructuralNodeRef);
  plan_root : StructuralNodeRef
}.

Definition plan_state : Type :=
  list FrontierSiblingPosition * list (StructuralNodeRef * StructuralNodeRef).

Definition plan_walk : Walk StructuralNodeRef plan_state :=
  mkWalk
    (fun level node_index st => Some (FrontierSibling (length st.1), (st.1 ++ [(level, node_index)], st.2)))
    (fun _ l r st => (Combine (length st.2), (st.1, st.2 ++ [(l, r)]))).

Definition derive_structural_frontier_plan (indices : list Z) (depth : nat)
  : exec SparseMerkleError StructuralFrontierPlan :=
  _ ← lift (validate_indices indices depth);
  st ← expect (walk plan_walk depth
         (list_to_map (imap (fun ordinal index => (index, TouchedLeaf ordinal)) indices)) ([], []));
  root ← lift (single_root depth st.1);
  mret (mkPlan (length indices) st.2.1 st.2.2 root).

(** *** Proofs over any two-to-one hash *)

Section Hash.
Context {D : Type} `{!EqDecision D}.
Variable node : D -> D -> D.
(** Hash of the empty slot, and the padding row. *)
Variable empty_leaf : D.
Variable PAD : D.

Definition structural_node_hash (ref : StructuralNodeRef) (leaves siblings combine_hashes : list D) : option D :=
  match ref with
  | TouchedLeaf ordinal => leaves !! ordinal
  | FrontierSibling ordinal => siblings !! ordinal
  | Combine ordinal => combine_hashes !! ordinal
  end.

Definition evaluate_combine (leaves siblings : list D) (hashes : list D)
    (c : StructuralNodeRef * StructuralNodeRef) : option (list D) :=
  l ← structural_node_hash c.1 leaves siblings hashes;
  r ← structural_node_hash c.2 leaves siblings hashes;
  Some (hashes ++ [node l r]).

(** The root and the hashes of all combines. *)
Definition evaluate_structural_frontier (plan : StructuralFrontierPlan) (leaves siblings : list D)
  : exec SparseMerkleError (D * list D) :=
  _ ← lift (ensure (length leaves =? touched_leaf_count plan)%nat
              (LeafCountMismatch (touched_leaf_count plan) (length leaves)));
  _ ← lift (ensure (length siblings =? length (frontier_positions plan))%nat
              (ProofLengthMismatch (length (frontier_positions plan)) (length siblings)));
  hashes ← expect (fold_option (evaluate_combine leaves siblings) [] (combines plan));
  root ← expect (structural_node_hash (plan_root plan) leaves siblings hashes);
  mret (root, hashes).

Definition pad_frontier_siblings (indices : list Z) (siblings : list D) (depth capacity : nat)
  : exec SparseMerkleError (list D) :=
  required ← expected_sibling_count indices depth;
  _ ← lift (ensure (length siblings =? required)%nat (ProofLengthMismatch required (length siblings)));
  _ ← lift (ensure (required <=? capacity)%nat (FrontierCapacityExceeded required capacity));
  mret (siblings ++ replicate (capacity - length siblings) PAD).

(** Position of the first row that is not [PAD]. *)
Fixpoint first_not_pad (rows : list D) (offset : nat) : option nat :=
  match rows with
  | [] => None
  | d :: rows => if decide (d = PAD) then first_not_pad rows (offset + 1) else Some offset
  end.

Definition unpad_frontier_siblings (indices : list Z) (padded : list D) (depth capacity : nat)
  : exec SparseMerkleError (list D) :=
  _ ← lift (ensure (length padded =? capacity)%nat (PaddedProofLengthMismatch capacity (length padded)));
  required ← expected_sibling_count indices depth;
  _ ← lift (ensure (required <=? capacity)%nat (FrontierCapacityExceeded required capacity));
  match first_not_pad (drop required padded) 0 with
  | Some offset => Fail (NonCanonicalPadding (required + offset))
  | None => mret (take required padded)
  end.

Definition reconstruct_walk (siblings : list D) : Walk D nat :=
  mkWalk (fun _ _ cursor => sibling ← siblings !! cursor; Some (sibling, (cursor + 1)%nat))
    (fun _ l r cursor => (node l r, cursor)).

(** The checks [reconstruct_root] and [expand_multiproof_paths] start with. *)
Definition check_multiproof (indices : list Z) (leaves siblings : list D) (depth : nat)
  : exec SparseMerkleError unit :=
  _ ← lift (ensure (length indices =? length leaves)%nat (LeafCountMismatch (length indices) (length leaves)));
  expected ← expected_sibling_count indices depth;
  lift (ensure (length siblings =? expected)%nat (ProofLengthMismatch expected (length siblings))).

Definition reconstruct_root (indices : list Z) (leaves siblings : list D) (depth : nat)
  : exec SparseMerkleError D :=
  _ ← check_multiproof indices leaves siblings depth;
  st ← expect (walk (reconstruct_walk siblings) depth (list_to_map (zip indices leaves)) 0%nat);
  lift (single_root depth st.1).

(** *** Directed paths *)

Record ExpandedMerklePath := mkPath {
  path_index : Z;
  path_leaf : D;
  path_siblings : list D;
  path_directions : list bool
}.

(** [out[leaf_pos].siblings[level] = hash; out[leaf_pos].directions[level] = right] *)
Definition set_step (level : nat) (hash : D) (r : bool) (out : list ExpandedMerklePath) (leaf_pos : nat)
  : list ExpandedMerklePath :=
  alter (fun p => mkPath (path_index p) (path_leaf p) (<[level := hash]> (path_siblings p))
                    (<[level := r]> (path_directions p))) leaf_pos out.

(** A node with the touched leaves below it. *)
Definition expand_walk (siblings : list D) : Walk (D * list nat) (nat * list ExpandedMerklePath) :=
  mkWalk
    (fun _ _ st => sibling ← siblings !! st.1; Some ((sibling, []), ((st.1 + 1)%nat, st.2)))
    (fun level l r st =>
       let out := foldl (set_step level r.1 false) st.2 l.2 in
       let out := foldl (set_step level l.1 true) out r.2 in
       ((node l.1 r.1, l.2 ++ r.2), (st.1, out))).

Definition expand_multiproof_paths (indices : list Z) (leaves siblings : list D) (depth : nat)
  : exec SparseMerkleError (list ExpandedMerklePath) :=
  _ ← check_multiproof indices leaves siblings depth;
  let out := zip_with (fun index leaf => mkPath index leaf (replicate depth PAD) (replicate depth false))
               indices leaves in
  let known := list_to_map (imap (fun leaf_pos p => (p.1, (p.2, [leaf_pos]))) (zip indices leaves)) in
  st ← expect (walk (expand_walk siblings) depth known (0%nat, out));
  mret st.2.2.

Definition fold_directed_path (leaf : D) (siblings : list D) (directions : list bool) : D :=
  foldl (fun current (p : D * bool) => if p.2 then node p.1 current else node current p.1)
    leaf (zip siblings directions).

(** ** The cache *)

Record SparseMerkleCache := mkCache {
  cache_depth : nat;
  zero_roots : list D;
  cache_nodes : gmap (nat * Z) D
}.

(** [Z_0 ..= Z_max_depth] *)
Fixpoint push_zero_roots (n : nat) (z : D) : list D :=
  match n with
  | O => [z]
  | S n => z :: push_zero_roots n (node z z)
  end.

Definition zero_slot_roots (max_depth : nat) : list D := push_zero_roots max_depth empty_leaf.

Definition SparseMerkleCache_new (depth : nat) : result SparseMerkleError SparseMerkleCache :=
  _ ← validate_depth depth;
  Ok (mkCache depth (zero_slot_roots depth) ∅).

(** [zero_roots[level]] is in range for the levels of the cache. *)
Definition node_hash (c : SparseMerkleCache) (level : nat) (index : Z) : D :=
  default (nth level (zero_roots c) empty_leaf) (cache_nodes c !! (level, index)).

Definition cache_root (c : SparseMerkleCache) : D := node_hash c (cache_depth c) 0.

Definition set_node (c : SparseMerkleCache) (level : nat) (index : Z) (hash : D) : SparseMerkleCache :=
  mkCache (cache_depth c) (zero_roots c)
    (if decide (hash = nth level (zero_roots c) empty_leaf) then delete (level, index) (cache_nodes c)
     else <[(level, index) := hash]> (cache_nodes c)).

(** One level of [set_leaf]. *)
Definition set_leaf_level (st : SparseMerkleCache * Z * D) (level : nat) : SparseMerkleCache * Z * D :=
  let '(c, idx, hash) := st in
  let sibling_idx := Z.lxor idx 1 in
  let base := pair_base idx in
  let '(l, r) := if idx =? base then (hash, node_hash c level sibling_idx)
                        else (node_hash c level sibling_idx, hash) in
  let hash := node l r in
  let idx := base / 2 in
  (set_node c (level + 1) idx hash, idx, hash).

Definition set_leaf (c : SparseMerkleCache) (index : Z) (leaf : D) : result SparseMerkleError SparseMerkleCache :=
  _ ← validate_index index (cache_depth c);
  let c := set_node c 0 index leaf in
  Ok (foldl set_leaf_level (c, index, leaf) (seq 0 (cache_depth c))).1.1.

Definition from_leaves (depth : nat) (leaves : list (Z * D)) : result SparseMerkleError SparseMerkleCache :=
  c ← SparseMerkleCache_new depth;
  fold_result (fun c p => set_leaf c p.1 p.2) c leaves.

(** [CanonicalMerkleMultiProof] is its [siblings]. *)
Definition build_multiproof (c : SparseMerkleCache) (indices : list Z) (depth : nat)
  : exec SparseMerkleError (list D) :=
  _ ← lift (ensure (cache_depth c =? depth)%nat (CacheDepthMismatch (cache_depth c) depth));
  positions ← frontier_sibling_positions indices depth;
  mret (map (fun p : FrontierSiblingPosition => node_hash c p.1 p.2) positions).
End Hash.

(** ** Positions *)

Lemma pair_base_eq p : pair_base p = 2 * (p / 2).
Proof.
  unfold pair_base. change 1 with (Z.ones 1). rewrite Z.ldiff_ones_r by lia.
  rewrite Z.shiftl_mul_pow2, Z.shiftr_div_pow2 by lia. change (2 ^ 1) with 2. lia.
Qed.

Lemma pair_base_half p : pair_base p / 2 = p / 2.
Proof. rewrite pair_base_eq, Z.mul_comm, Z.div_mul by lia. reflexivity. Qed.

Lemma position_cases p : p = pair_base p \/ p = pair_base p + 1.
Proof. rewrite pair_base_eq. pose proof (Z.div_mod p 2 ltac:(lia)). pose proof (Z.mod_pos_bound p 2 ltac:(lia)). lia. Qed.

Lemma double_half b q : q = 2 * b \/ q = 2 * b + 1 <-> q / 2 = b.
Proof.
  pose proof (Z.div_mod q 2 ltac:(lia)). pose proof (Z.mod_pos_bound q 2 ltac:(lia)). split; [|lia].
  intros [->| ->]; [rewrite Z.mul_comm, Z.div_mul; lia|].
  rewrite Z.add_comm, Z.mul_comm, Z.div_add by lia. reflexivity.
Qed.

Lemma sorted_keys_elem {V} (m : gmap Z V) p : p ∈ sorted_keys m <-> is_Some (m !! p).
Proof.
  unfold sorted_keys. rewrite merge_sort_Permutation, elem_of_elements. apply elem_of_dom.
Qed.

Lemma sorted_keys_dom {V V'} (m : gmap Z V) (m' : gmap Z V') :
  (forall p, is_Some (m !! p) <-> is_Some (m' !! p)) -> sorted_keys m = sorted_keys m'.
Proof.
  intros H. unfold sorted_keys. f_equal. f_equal. apply set_eq. intros p. rewrite !elem_of_dom. apply H.
Qed.

Lemma bases_elem keys processed b :
  b ∈ bases processed keys <-> b ∉ processed /\ exists p, p ∈ keys /\ b = pair_base p.
Proof.
  revert processed. induction keys as [|p keys IH]; intros processed; cbn [bases].
  - split; [intros H; inversion H|]. intros (_ & p & H & _). inversion H.
  - cbn zeta. destruct (decide (pair_base p ∈ processed)) as [Hp|Hp].
    + rewrite IH. split; intros (H1 & q & H2 & ->); (split; [exact H1|]).
      * exists q. split; [now right|reflexivity].
      * apply elem_of_cons in H2 as [->|H2]; [contradiction|eauto].
    + rewrite elem_of_cons, IH. split.
      * intros [->|(H1 & q & H2 & ->)]; [split; [exact Hp|]; exists p; split; [now left|reflexivity]|].
        split; [set_solver|]. exists q. split; [now right|reflexivity].
      * intros (H1 & q & H2 & ->). destruct (decide (pair_base q = pair_base p)) as [E|E]; [now left|right].
        apply elem_of_cons in H2 as [->|H2]; [contradiction|]. split; [set_solver|]. eauto.
Qed.

Lemma bases_elem_known {V} (m : gmap Z V) b :
  b ∈ bases ∅ (sorted_keys m) <-> exists p, is_Some (m !! p) /\ b = pair_base p.
Proof.
  rewrite bases_elem. setoid_rewrite sorted_keys_elem. split; [intros [_ H]; exact H|]. intros H. split; [set_solver|exact H].
Qed.

Lemma fold_option_app {A B} (f : B -> A -> option B) l l' acc :
  fold_option f acc (l ++ l') = (acc ← fold_option f acc l; fold_option f acc l').
Proof.
  revert acc. induction l as [|x l IH]; intros acc; cbn [app fold_option]; [reflexivity|].
  destruct (f acc x); cbn; [apply IH|reflexivity].
Qed.

(** ** The symbolic walk *)

(** The expression the verifier evaluates: touched leaves and frontier siblings
    by ordinal. *)
Inductive expr :=
| ELeaf (j : nat)
| ESib (k : nat)
| ENode (a b : expr).

Definition symbolic_walk : Walk expr (list FrontierSiblingPosition) :=
  mkWalk (fun level q ps => Some (ESib (length ps), ps ++ [(level, q)])) (fun _ a b ps => (ENode a b, ps)).

Definition leaf_map (indices : list Z) : gmap Z expr := list_to_map (imap (fun j i => (i, ELeaf j)) indices).

Section Symbolic.
Variable idx : list Z.

(** A node of level [l] is touched when it is above an index. *)
Definition touched (l : nat) (p : Z) : Prop := exists i, i ∈ idx /\ p = i / 2 ^ Z.of_nat l.

Lemma touched_step l q : touched (S l) q <-> exists p, touched l p /\ q = p / 2.
Proof.
  unfold touched. assert (E : forall i, i / 2 ^ Z.of_nat (S l) = i / 2 ^ Z.of_nat l / 2).
  { intros i. rewrite Nat2Z.inj_succ, Z.pow_succ_r, Z.mul_comm by lia. rewrite Z.div_div; [reflexivity|lia|lia]. }
  split.
  - intros (i & Hi & ->). exists (i / 2 ^ Z.of_nat l). rewrite E. split; [eauto|reflexivity].
  - intros (p & (i & Hi & ->) & ->). exists i. now rewrite E.
Qed.

(** [e] is the subtree of depth [l] at position [p]. *)
Inductive shape (ps : list FrontierSiblingPosition) : nat -> Z -> expr -> Prop :=
| shape_leaf j p : idx !! j = Some p -> shape ps 0 p (ELeaf j)
| shape_sib k l p : ps !! k = Some (l, p) -> shape ps l p (ESib k)
| shape_node l p a b : shape ps l (2 * p) a -> shape ps l (2 * p + 1) b -> shape ps (S l) p (ENode a b).

Lemma shape_mono ps ps' l p e : ps `prefix_of` ps' -> shape ps l p e -> shape ps' l p e.
Proof.
  intros Hp. induction 1; [now constructor|constructor; eapply prefix_lookup_Some; eauto|now constructor].
Qed.

(** Frontier positions are above no index, beside one that is. *)
Definition untouched (ps : list FrontierSiblingPosition) : Prop :=
  forall k l p, ps !! k = Some (l, p) -> ~ touched l p /\ touched (S l) (p / 2).

(** The known map of level [l]. *)
Definition level_ok (ps : list FrontierSiblingPosition) (l : nat) (known : gmap Z expr) : Prop :=
  (forall p, is_Some (known !! p) <-> touched l p)
  /\ (forall p e, known !! p = Some e -> shape ps l p e).

Lemma untouched_snoc ps l q : untouched ps -> ~ touched l q -> touched (S l) (q / 2) -> untouched (ps ++ [(l, q)]).
Proof.
  intros H Hq Hq' k l' p E. apply lookup_app_Some in E as [E|[Hk E]]; [now apply (H k)|].
  apply list_lookup_singleton_Some in E as [_ [= <- <-]]. auto.
Qed.

Lemma symbolic_children ps l known b :
  level_ok ps l known -> untouched ps -> b = pair_base b -> (touched l b \/ touched l (b + 1)) ->
  exists x y ps', children symbolic_walk l known b ps = Some (x, y, ps')
    /\ ps `prefix_of` ps' /\ untouched ps' /\ shape ps' l b x /\ shape ps' l (b + 1) y.
Proof.
  intros [K1 K2] Hu Hb Ht. unfold children. cbn [fresh symbolic_walk].
  assert (Half : forall q, q = b \/ q = b + 1 -> touched (S l) (q / 2)).
  { rewrite pair_base_eq in Hb. intros q Hq. apply touched_step.
    destruct Ht as [T|T]; [exists b|exists (b + 1)]; (split; [exact T|]); Z.to_euclidean_division_equations; lia. }
  assert (Hfresh : forall q, known !! q = None -> q = b \/ q = b + 1 -> untouched (ps ++ [(l, q)])
    /\ shape (ps ++ [(l, q)]) l q (ESib (length ps))).
  { intros q Hq Hqb. split; [apply untouched_snoc; [exact Hu| |now apply Half]|].
    - intros T. apply K1 in T as [? E]. congruence.
    - apply shape_sib. now apply list_lookup_middle. }
  assert (Hkeep : forall q p e, known !! p = Some e -> shape (ps ++ [q]) l p e).
  { intros q p e E. apply (shape_mono ps); [now apply prefix_app_r|now apply K2]. }
  destruct (known !! b) as [x|] eqn:Ex, (known !! (b + 1)) as [y|] eqn:Ey.
  - exists x, y, ps. split; [reflexivity|]. split; [reflexivity|]. split; [exact Hu|]. split; now apply K2.
  - destruct (Hfresh _ Ey (or_intror eq_refl)) as [F1 F2]. eexists _, _, _. split; [reflexivity|].
    split; [now apply prefix_app_r|]. auto.
  - destruct (Hfresh _ Ex (or_introl eq_refl)) as [F1 F2]. eexists _, _, _. split; [reflexivity|].
    split; [now apply prefix_app_r|]. auto.
  - exfalso. destruct Ht as [T|T]; apply K1 in T as [? E]; congruence.
Qed.

(** The maps built while a level is processed: the parents of the bases so far. *)
Definition partial_ok (ps : list FrontierSiblingPosition) (l : nat) (bs : list Z) (next : gmap Z expr) : Prop :=
  (forall q, is_Some (next !! q) <-> exists b, b ∈ bs /\ q = b / 2)
  /\ (forall q e, next !! q = Some e -> shape ps (S l) q e).

Lemma symbolic_pairs ps0 l known bs :
  level_ok ps0 l known -> untouched ps0 ->
  (forall b, b ∈ bs -> b = pair_base b /\ (touched l b \/ touched l (b + 1))) ->
  exists next ps', fold_option (walk_pair symbolic_walk l known) (∅, ps0) bs = Some (next, ps')
    /\ ps0 `prefix_of` ps' /\ untouched ps' /\ partial_ok ps' l bs next.
Proof.
  intros HK Hu. induction bs as [|b bs IH] using rev_ind; intros Hbs.
  - exists ∅, ps0. split; [reflexivity|]. split; [reflexivity|]. split; [exact Hu|]. split.
    + intros q. rewrite lookup_empty. split; [intros [? [=]]|]. intros (b & H & _). inversion H.
    + intros q e. rewrite lookup_empty. discriminate.
  - destruct IH as (next & ps & E & Hp & Hu' & [N1 N2]); [intros c Hc; apply Hbs; set_solver|].
    destruct (Hbs b) as [Hb Ht]; [set_solver|].
    destruct (symbolic_children ps l known b) as (x & y & ps' & Ec & Hp' & Hu'' & Sx & Sy);
      [destruct HK as [K1 K2]; split; [exact K1|]; intros p e Ep; apply (shape_mono ps0); [exact Hp|now apply K2]
      |exact Hu'|exact Hb|exact Ht|].
    rewrite fold_option_app, E. cbn [mbind option_bind fold_option]. unfold walk_pair at 1. cbn [fst snd].
    rewrite Ec. cbn [mbind option_bind combine symbolic_walk fold_option].
    eexists _, _. split; [reflexivity|]. split; [now transitivity ps|]. split; [exact Hu''|]. split.
    + intros q. destruct (decide (q = b / 2)) as [->|Hq].
      * rewrite lookup_insert_eq. split; [intros _; exists b; split; [set_solver|reflexivity]|eauto].
      * rewrite lookup_insert_ne, N1 by congruence. split; intros (c & Hc & ->); exists c; (split; [|reflexivity]);
          [set_solver|]. apply elem_of_app in Hc as [Hc|Hc]; [exact Hc|]. apply list_elem_of_singleton in Hc. congruence.
    + intros q e. destruct (decide (q = b / 2)) as [->|Hq].
      * rewrite lookup_insert_eq. intros [= <-]. rewrite pair_base_eq in Hb.
        constructor; rewrite <- Hb; assumption.
      * rewrite lookup_insert_ne by congruence. intros H. apply (shape_mono ps); [exact Hp'|now apply N2].
Qed.

Lemma symbolic_level ps l known :
  level_ok ps l known -> untouched ps ->
  exists next ps', walk_level symbolic_walk (known, ps) l = Some (next, ps')
    /\ ps `prefix_of` ps' /\ untouched ps' /\ level_ok ps' (S l) next.
Proof.
  intros HK Hu. unfold walk_level. cbn [fst snd].
  destruct (symbolic_pairs ps l known (bases ∅ (sorted_keys known)) HK Hu) as (next & ps' & E & Hp & Hu' & [N1 N2]).
  { intros b Hb. apply bases_elem_known in Hb as (p & Hk & ->). apply (proj1 HK) in Hk.
    split; [rewrite !pair_base_eq; f_equal; rewrite Z.mul_comm, Z.div_mul by lia; reflexivity|].
    destruct (position_cases p) as [E|E]; rewrite <- E; auto. }
  exists next, ps'. split; [exact E|]. split; [exact Hp|]. split; [exact Hu'|]. split; [|exact N2].
  intros q. rewrite N1, touched_step. setoid_rewrite bases_elem_known. split.
  - intros (b & (p & Hk & ->) & ->). exists p. split; [now apply (proj1 HK)|apply pair_base_half].
  - intros (p & Hk & ->). exists (pair_base p). split; [|symmetry; apply pair_base_half].
    exists p. split; [now apply (proj1 HK)|reflexivity].
Qed.

Lemma symbolic_levels n l ps known :
  level_ok ps l known -> untouched ps ->
  exists next ps', fold_option (walk_level symbolic_walk) (known, ps) (seq l n) = Some (next, ps')
    /\ ps `prefix_of` ps' /\ untouched ps' /\ level_ok ps' (l + n) next.
Proof.
  revert l ps known. induction n as [|n IH]; intros l ps known HK Hu.
  - exists known, ps. rewrite Nat.add_0_r. auto.
  - destruct (symbolic_level ps l known HK Hu) as (next & ps' & E & Hp & Hu' & HK').
    cbn [seq fold_option]. rewrite E. cbn [mbind option_bind].
    destruct (IH (S l) ps' next HK' Hu') as (fin & ps'' & E' & Hp' & Hu'' & HK'').
    exists fin, ps''. replace (l + S n)%nat with (S l + n)%nat by lia.
    split; [exact E'|]. split; [now transitivity ps'|]. auto.
Qed.
End Symbolic.

(** Sorted, distinct and in range: what [validate_indices] accepts. *)
Record indices_ok (idx : list Z) (depth : nat) : Prop := {
  ok_depth : (depth <= 32)%nat;
  ok_nonempty : idx <> [];
  ok_sorted : StronglySorted Z.lt idx;
  ok_bound : Forall (fun i => i < 2 ^ Z.of_nat depth) idx
}.

Lemma sorted_nodup idx : StronglySorted Z.lt idx -> NoDup idx.
Proof.
  induction 1 as [|i idx Hs IH Hi]; constructor; [|exact IH].
  intros H. rewrite Forall_forall in Hi. specialize (Hi i H). lia.
Qed.

Definition symbolic_root (idx : list Z) (depth : nat) : option (expr * list FrontierSiblingPosition) :=
  st ← walk symbolic_walk depth (leaf_map idx) [];
  e ← st.1 !! 0;
  Some (e, st.2).

Lemma list_to_map_imap_lookup {V} (g : nat -> V) (idx : list Z) p v :
  NoDup idx ->
  (list_to_map (imap (fun j i => (i, g j)) idx) : gmap Z V) !! p = Some v
  <-> exists j, idx !! j = Some p /\ v = g j.
Proof.
  intros Hn. rewrite <- elem_of_list_to_map.
  - rewrite elem_of_lookup_imap. split.
    + intros (j & i & [= -> ->] & E). eauto.
    + intros (j & E & ->). exists j, p. auto.
  - rewrite fmap_imap. change (imap _ idx) with (imap (const id) idx). now rewrite imap_const, list_fmap_id.
Qed.

Lemma list_to_map_zip_lookup {V} (idx : list Z) (leaves : list V) p v :
  NoDup idx -> length idx = length leaves ->
  (list_to_map (zip idx leaves) : gmap Z V) !! p = Some v
  <-> exists j, idx !! j = Some p /\ leaves !! j = Some v.
Proof.
  intros Hn Hl. rewrite <- elem_of_list_to_map by (rewrite fst_zip by lia; exact Hn).
  rewrite list_elem_of_lookup. setoid_rewrite lookup_zip_Some. reflexivity.
Qed.

Lemma leaf_map_ok idx : NoDup idx -> level_ok idx [] 0 (leaf_map idx).
Proof.
  intros Hn. split.
  - intros p. unfold touched. change (2 ^ Z.of_nat 0) with 1. setoid_rewrite Z.div_1_r. split.
    + intros [e E]. apply (list_to_map_imap_lookup ELeaf) in E as (j & E & _); [|exact Hn].
      exists p. split; [now apply list_elem_of_lookup_2 with j|reflexivity].
    + intros (i & Hi & ->). apply list_elem_of_lookup in Hi as [j E]. exists (ELeaf j).
      apply (list_to_map_imap_lookup ELeaf); eauto.
  - intros p e E. apply (list_to_map_imap_lookup ELeaf) in E as (j & E & ->); [|exact Hn]. now constructor.
Qed.

(** The symbolic walk of a valid touched set ends in one root. *)
Lemma symbolic_walk_total idx depth :
  indices_ok idx depth -> Forall (fun i => 0 <= i) idx ->
  exists e ps, walk symbolic_walk depth (leaf_map idx) [] = Some ({[0 := e]}, ps)
    /\ shape idx ps depth 0 e /\ untouched idx ps.
Proof.
  intros [_ Hne Hs Hb] H0. pose proof (sorted_nodup idx Hs) as Hn.
  destruct (symbolic_levels idx depth 0 [] (leaf_map idx) (leaf_map_ok idx Hn)) as (m & ps & E & _ & Hu & [K1 K2]).
  { intros k l p H. rewrite lookup_nil in H. discriminate H. }
  cbn [Nat.add] in K1, K2.
  assert (T : forall p, touched idx depth p <-> p = 0).
  { rewrite Forall_forall in Hb, H0. intros p. unfold touched. split.
    - intros (i & Hi & ->). apply Z.div_small. auto.
    - intros ->. destruct idx as [|i idx]; [congruence|]. exists i. split; [now left|].
      symmetry. apply Z.div_small. split; [apply H0|apply Hb]; now left. }
  destruct (proj2 (K1 0) (proj2 (T 0) eq_refl)) as [e He]. exists e, ps. split; [|auto].
  unfold walk. rewrite E. f_equal. f_equal. apply map_eq. intros p. destruct (decide (p = 0)) as [->|Hp].
  - now rewrite lookup_singleton_eq.
  - rewrite lookup_singleton_ne by congruence. destruct (m !! p) eqn:Em; [|reflexivity].
    exfalso. apply Hp, T, K1. rewrite Em. eauto.
Qed.

(** ** Every walk follows the symbolic one *)

Section Sim.
Context {V S : Type} (w : Walk V S).
Variable R : S -> nat -> Z -> expr -> V -> Prop.
Variable RS : list FrontierSiblingPosition -> S -> Prop.
Variable le : S -> S -> Prop.
Context `{!PreOrder le}.
Variable final : list FrontierSiblingPosition.
Hypothesis R_mono : forall s s' l p e v, le s s' -> R s l p e v -> R s' l p e v.
Hypothesis fresh_sim : forall ps s l q,
  RS ps s -> (ps ++ [(l, q)]) `prefix_of` final ->
  exists v s', fresh w l q s = Some (v, s') /\ RS (ps ++ [(l, q)]) s' /\ le s s' /\ R s' l q (ESib (length ps)) v.
Hypothesis combine_sim : forall ps s l p a b x y,
  RS ps s -> R s l (2 * p) a x -> R s l (2 * p + 1) b y ->
  exists v s', combine w l x y s = (v, s') /\ RS ps s' /\ le s s' /\ R s' (Datatypes.S l) p (ENode a b) v.

Definition map_rel (s : S) (l : nat) (m1 : gmap Z expr) (m2 : gmap Z V) : Prop :=
  forall p, option_Forall2 (R s l p) (m1 !! p) (m2 !! p).

Lemma map_rel_mono s s' l m1 m2 : le s s' -> map_rel s l m1 m2 -> map_rel s' l m1 m2.
Proof. intros Hle H p. specialize (H p). inversion H; constructor; eauto. Qed.

Lemma map_rel_insert s l m1 m2 p e v :
  map_rel s l m1 m2 -> R s l p e v -> map_rel s l (<[p := e]> m1) (<[p := v]> m2).
Proof.
  intros H Hv q. destruct (decide (q = p)) as [->|Hq].
  - rewrite !lookup_insert_eq. now constructor.
  - rewrite !lookup_insert_ne by congruence. apply H.
Qed.

Lemma children_sim ps s l k1 k2 b x y ps' :
  RS ps s -> map_rel s l k1 k2 ->
  children symbolic_walk l k1 b ps = Some (x, y, ps') -> ps' `prefix_of` final ->
  exists x' y' s', children w l k2 b s = Some (x', y', s') /\ RS ps' s' /\ le s s'
    /\ R s' l b x x' /\ R s' l (b + 1) y y'.
Proof.
  intros Hrs Hk E Hf. unfold children in *. pose proof (Hk b) as H1. pose proof (Hk (b + 1)) as H2.
  inversion H1 as [e1 v1 R1 E1 F1|E1 F1]; rewrite <- E1 in E;
    inversion H2 as [e2 v2 R2 E2 F2|E2 F2]; rewrite <- E2 in E; cbn [fresh symbolic_walk mbind option_bind] in E;
    try discriminate E; injection E as <- <- <-.
  - exists v1, v2, s. split; [reflexivity|]. split; [exact Hrs|]. split; [reflexivity|]. auto.
  - destruct (fresh_sim ps s l (b + 1) Hrs Hf) as (v & s' & E & H3 & H4 & H5). rewrite E.
    exists v1, v, s'. split; [reflexivity|]. eauto 10.
  - destruct (fresh_sim ps s l b Hrs Hf) as (v & s' & E & H3 & H4 & H5). rewrite E.
    exists v, v2, s'. split; [reflexivity|]. eauto 10.
Qed.

Lemma children_grow l k b ps x y ps' :
  children symbolic_walk l k b ps = Some (x, y, ps') -> ps `prefix_of` ps'.
Proof.
  unfold children. destruct (k !! b), (k !! (b + 1)); cbn; intros [= <- <- <-];
    try reflexivity; now apply prefix_app_r.
Qed.

Lemma pair_grow l k st b st' : walk_pair symbolic_walk l k st b = Some st' -> st.2 `prefix_of` st'.2.
Proof.
  unfold walk_pair. destruct (children _ _ _ _ _) as [[[x y] ps']|] eqn:E; [|discriminate].
  cbn. intros [= <-]. now apply children_grow in E.
Qed.

Lemma fold_grow {B A} (f : B * list FrontierSiblingPosition -> A -> option (B * list FrontierSiblingPosition)) :
  (forall st x st', f st x = Some st' -> st.2 `prefix_of` st'.2) ->
  forall l st st', fold_option f st l = Some st' -> st.2 `prefix_of` st'.2.
Proof.
  intros Hf. induction l as [|x l IH]; intros st st'; cbn [fold_option]; [intros [= <-]; reflexivity|].
  destruct (f st x) as [st1|] eqn:E; [|discriminate]. cbn. intros H. transitivity st1.2; eauto.
Qed.

Lemma level_grow st l st' : walk_level symbolic_walk st l = Some st' -> st.2 `prefix_of` st'.2.
Proof.
  unfold walk_level. intros H. apply fold_grow in H; [exact H|]. intros a b c E. now apply pair_grow in E.
Qed.

Lemma pairs_sim l k1 k2 bs n1 n2 ps s n1' ps' :
  Forall (fun b => b = 2 * (b / 2)) bs ->
  RS ps s -> map_rel s l k1 k2 -> map_rel s (Datatypes.S l) n1 n2 ->
  fold_option (walk_pair symbolic_walk l k1) (n1, ps) bs = Some (n1', ps') -> ps' `prefix_of` final ->
  exists n2' s', fold_option (walk_pair w l k2) (n2, s) bs = Some (n2', s')
    /\ RS ps' s' /\ map_rel s' (Datatypes.S l) n1' n2'.
Proof.
  intros Hbs. revert n1 n2 ps s. induction Hbs as [|b bs Hb Hbs IH]; intros n1 n2 ps s Hrs Hk Hn E Hf; cbn [fold_option] in *.
  - injection E as <- <-. eauto.
  - destruct (walk_pair symbolic_walk l k1 (n1, ps) b) as [[m1 ps1]|] eqn:Ep; [|discriminate E]. cbn [mbind option_bind] in E.
    assert (Hf1 : ps1 `prefix_of` final).
    { transitivity ps'; [|exact Hf]. apply fold_grow in E; [exact E|]. intros a c d Ed. now apply pair_grow in Ed. }
    unfold walk_pair in Ep |- *. cbn [fst snd] in Ep |- *.
    destruct (children symbolic_walk l k1 b ps) as [[[x y] ps2]|] eqn:Ec; [|discriminate Ep].
    cbn [mbind option_bind combine symbolic_walk] in Ep. injection Ep as <- <-.
    destruct (children_sim ps s l k1 k2 b x y ps2 Hrs Hk Ec Hf1) as (x' & y' & s1 & Ec' & Hrs1 & Hle1 & Rx & Ry).
    rewrite Ec'. cbn [mbind option_bind]. rewrite Hb in Rx at 1. rewrite Hb in Ry at 1.
    destruct (combine_sim ps2 s1 l (b / 2) x y x' y' Hrs1 Rx Ry) as (v & s2 & Em & Hrs2 & Hle2 & Rv).
    rewrite Em. cbn [mbind option_bind]. apply IH with (ps := ps2) (n1 := <[b / 2 := ENode x y]> n1); [exact Hrs2| | |exact E|exact Hf].
    + apply (map_rel_mono s); [now transitivity s1|exact Hk].
    + apply map_rel_insert; [|exact Rv]. apply (map_rel_mono s); [now transitivity s1|exact Hn].
Qed.

Lemma map_rel_keys s l m1 m2 : map_rel s l m1 m2 -> sorted_keys m1 = sorted_keys m2.
Proof.
  intros H. apply sorted_keys_dom. intros p. specialize (H p).
  inversion H; split; intros [? ?]; eauto; discriminate.
Qed.

Lemma levels_sim n l k1 k2 ps s k1' ps' :
  RS ps s -> map_rel s l k1 k2 ->
  fold_option (walk_level symbolic_walk) (k1, ps) (seq l n) = Some (k1', ps') -> ps' `prefix_of` final ->
  exists k2' s', fold_option (walk_level w) (k2, s) (seq l n) = Some (k2', s')
    /\ RS ps' s' /\ map_rel s' (l + n) k1' k2'.
Proof.
  revert l k1 k2 ps s. induction n as [|n IH]; intros l k1 k2 ps s Hrs Hk E Hf; cbn [seq fold_option] in *.
  - injection E as <- <-. rewrite Nat.add_0_r. eauto.
  - destruct (walk_level symbolic_walk (k1, ps) l) as [[m1 ps1]|] eqn:El; [|discriminate E]. cbn [mbind option_bind] in E.
    assert (Hf1 : ps1 `prefix_of` final).
    { transitivity ps'; [|exact Hf]. apply fold_grow in E; [exact E|]. intros a c d Ed. now apply level_grow in Ed. }
    unfold walk_level in El at 1. unfold walk_level at 2. cbn [fst snd] in El |- *.
    destruct (pairs_sim l k1 k2 (bases ∅ (sorted_keys k1)) ∅ ∅ ps s m1 ps1) as (m2 & s1 & E2 & Hrs1 & Hm);
      [|exact Hrs|exact Hk|intros p; rewrite !lookup_empty; constructor|exact El|exact Hf1|].
    { apply Forall_forall. intros b Hb. apply bases_elem_known in Hb as (p & _ & ->).
      now rewrite pair_base_half, <- pair_base_eq. }
    rewrite <- (map_rel_keys s l k1 k2 Hk), E2. cbn [mbind option_bind].
    replace (l + Datatypes.S n)%nat with (Datatypes.S l + n)%nat by lia. now apply (IH _ m1 m2 ps1 s1).
Qed.

Lemma walk_sim depth k1 k2 s e :
  RS [] s -> map_rel s 0 k1 k2 ->
  walk symbolic_walk depth k1 [] = Some ({[0 := e]}, final) ->
  exists v s', walk w depth k2 s = Some ({[0 := v]}, s') /\ RS final s' /\ R s' depth 0 e v.
Proof.
  intros Hrs Hk E. destruct (levels_sim depth 0 k1 k2 [] s _ _ Hrs Hk E ltac:(reflexivity)) as (m & s' & E' & Hrs' & Hm).
  cbn [Nat.add] in Hm. pose proof (Hm 0) as H0. rewrite lookup_singleton_eq in H0. inversion H0 as [e' v Rv Ee Ev|]; subst.
  exists v, s'. split; [|auto]. unfold walk. rewrite E'. f_equal. f_equal. apply map_eq. intros p.
  destruct (decide (p = 0)) as [->|Hp]; [now rewrite lookup_singleton_eq|].
  specialize (Hm p). rewrite !lookup_singleton_ne in * by congruence. now inversion Hm.
Qed.
End Sim.

Lemma single_root_singleton {V} depth (v : V) : single_root depth {[0 := v]} = Ok v.
Proof.
  unfold single_root, sorted_keys. rewrite dom_singleton_L, elements_singleton.
  change (merge_sort Z.le [0]) with [0]. cbn [head]. now rewrite lookup_singleton_eq.
Qed.

(** ** Validation *)

Lemma check_index_ok depth prev s i st :
  check_index depth (prev, s) i = Ok st
  <-> (depth <= 32)%nat /\ i < 2 ^ Z.of_nat depth /\ (forall q, prev = Some q -> q < i)
      /\ st = (Some i, {[i]} ∪ s).
Proof.
  unfold check_index, validate_index, validate_depth. cbn [fst snd]. split.
  - intros H. inv_ok. subst st. boolify. apply Nat.leb_le in Hok1. split; [exact Hok1|]. split; [lia|].
    split; [|reflexivity]. intros q ->. inv_ok. boolify. lia.
  - intros (H1 & H2 & H3 & ->). apply Nat.leb_le in H1. rewrite H1. cbn [ensure mbind result_bind].
    destruct (Z.leb_spec (2 ^ Z.of_nat depth) i); [lia|]. cbn [negb ensure mbind result_bind].
    destruct prev as [q|]; [|reflexivity]. specialize (H3 q eq_refl).
    destruct (Z.ltb_spec i q); [lia|]. destruct (Z.eqb_spec i q); [lia|]. reflexivity.
Qed.

(** Strictly above the previous index. *)
Definition above (prev : option Z) (idx : list Z) : Prop := forall q, prev = Some q -> Forall (fun i => q < i) idx.

Lemma check_indices_ok depth idx prev s st :
  fold_result (check_index depth) (prev, s) idx = Ok st ->
  Forall (fun i => i < 2 ^ Z.of_nat depth) idx /\ StronglySorted Z.lt idx /\ above prev idx
  /\ st.2 = list_to_set idx ∪ s.
Proof.
  revert prev s. induction idx as [|i idx IH]; intros prev s; cbn [fold_result].
  - intros [= <-]. split; [constructor|]. split; [constructor|]. split; [intros q _; constructor|]. set_solver.
  - intros (st1 & H1 & H)%bind_ok_inv. apply check_index_ok in H1 as (_ & Hi & Hp & ->).
    apply IH in H as (F & Hs & Ha & ->). specialize (Ha i eq_refl).
    split; [now constructor|]. split; [now constructor|]. split; [|set_solver].
    intros q Hq. specialize (Hp q Hq). constructor; [exact Hp|]. eapply Forall_impl; [exact Ha|]. cbn. lia.
Qed.

Lemma check_indices_complete depth idx prev s :
  (depth <= 32)%nat -> Forall (fun i => i < 2 ^ Z.of_nat depth) idx -> StronglySorted Z.lt idx -> above prev idx ->
  exists p, fold_result (check_index depth) (prev, s) idx = Ok (p, list_to_set idx ∪ s).
Proof.
  intros Hd Hb Hs. revert prev s. induction Hs as [|i idx Hs IH Hi]; intros prev s Ha; cbn [fold_result].
  - exists prev. f_equal. f_equal. set_solver.
  - apply Forall_cons in Hb as [Hbi Hb].
    rewrite (proj2 (check_index_ok depth prev s i (Some i, {[i]} ∪ s))).
    + cbn [mbind result_bind]. destruct (IH Hb (Some i) ({[i]} ∪ s)) as [p ->]; [now intros q [= <-]|].
      exists p. f_equal. f_equal. set_solver.
    + split; [exact Hd|]. split; [exact Hbi|]. split; [|reflexivity].
      intros q Hq. specialize (Ha q Hq). now apply Forall_cons in Ha as [? _].
Qed.

Lemma validate_indices_ok idx depth s :
  validate_indices idx depth = Ok s <-> indices_ok idx depth /\ s = list_to_set idx.
Proof.
  unfold validate_indices, validate_depth. split.
  - intros H. inv_ok. subst s. boolify. apply Nat.leb_le in Hok. apply Nat.eqb_neq in Hok0.
    apply check_indices_ok in Hok1 as (F & Hs & _ & ->). split; [|set_solver].
    constructor; [exact Hok|intros ->; cbn in Hok0; lia|exact Hs|exact F].
  - intros ([Hd Hne Hs Hb] & ->). apply Nat.leb_le in Hd as Hd'. rewrite Hd'. cbn [ensure mbind result_bind].
    destruct (Nat.eqb_spec (length idx) 0) as [E|_]; [destruct idx; [congruence|discriminate E]|].
    cbn [negb ensure mbind result_bind].
    destruct (check_indices_complete depth idx None ∅ Hd Hb Hs) as [p ->]; [now intros q [=]|].
    cbn. f_equal. set_solver.
Qed.

(** ** The walks of the source *)

(** Positive evidence that a touched set is valid: the expression and the
    frontier it determines. *)
Definition frontier_of (idx : list Z) (depth : nat) (e : expr) (ps : list FrontierSiblingPosition) : Prop :=
  indices_ok idx depth /\ Forall (fun i => 0 <= i) idx
  /\ walk symbolic_walk depth (leaf_map idx) [] = Some ({[0 := e]}, ps)
  /\ shape idx ps depth 0 e /\ untouched idx ps.

Lemma frontier_exists idx depth :
  indices_ok idx depth -> Forall (fun i => 0 <= i) idx -> exists e ps, frontier_of idx depth e ps.
Proof.
  intros H H0. destruct (symbolic_walk_total idx depth H H0) as (e & ps & E). exists e, ps. unfold frontier_of. tauto.
Qed.

Lemma option_Forall2_lookup {A B} (P : A -> B -> Prop) (o1 : option A) (o2 : option B) :
  (forall a, o1 = Some a -> exists b, o2 = Some b /\ P a b) -> (forall b, o2 = Some b -> is_Some o1) ->
  option_Forall2 P o1 o2.
Proof.
  intros H1 H2. destruct o1 as [a|]; [destruct (H1 a eq_refl) as (b & -> & H); now constructor|].
  destruct o2 as [b|]; [destruct (H2 b eq_refl); discriminate|constructor].
Qed.

Definition any {S : Type} : S -> S -> Prop := fun _ _ => True.
#[export] Instance any_preorder {S} : PreOrder (@any S).
Proof. split; repeat intro; exact I. Qed.

Section Frontier.
Context (idx : list Z) (depth : nat) (e : expr) (ps : list FrontierSiblingPosition).
Hypothesis Hfr : frontier_of idx depth e ps.

Lemma fr_nodup : NoDup idx.
Proof. destruct Hfr as [H _]. apply sorted_nodup, H. Qed.

Lemma touched_map_rel {S} (R : S -> nat -> Z -> expr -> unit -> Prop) s :
  (forall s l p e v, R s l p e v) -> map_rel R s 0 (leaf_map idx) (touched_map (list_to_set idx)).
Proof.
  intros HR p. apply option_Forall2_lookup.
  - intros a E. exists tt. split; [|apply HR]. unfold touched_map. rewrite lookup_gset_to_gmap.
    apply (list_to_map_imap_lookup ELeaf) in E as (j & E & _); [|apply fr_nodup].
    apply list_elem_of_lookup_2 in E. rewrite option_guard_True; [reflexivity|set_solver].
  - intros [] E. unfold touched_map in E. rewrite lookup_gset_to_gmap in E.
    case_guard as Hin; [|discriminate E].
    clear E. apply elem_of_list_to_set, list_elem_of_lookup in Hin as [j Hj].
    exists (ELeaf j). apply (list_to_map_imap_lookup ELeaf); [apply fr_nodup|eauto].
Qed.

Lemma count_frontier : expected_sibling_count idx depth = Return (length ps).
Proof.
  pose proof Hfr as (H1 & H2 & E & _). unfold expected_sibling_count.
  rewrite (proj2 (validate_indices_ok idx depth _) (conj H1 eq_refl)). cbn [lift mbind exec_bind].
  destruct (walk_sim count_walk (fun _ _ _ _ _ => True) (fun ps s => s = length ps) any ps)
    with (depth := depth) (k1 := leaf_map idx) (k2 := touched_map (list_to_set idx)) (s := 0%nat) (e := e)
    as (v & s' & Ew & -> & _); [auto|..|reflexivity|now apply touched_map_rel|exact E|].
  - intros qs s l q -> _. eexists _, _. split; [reflexivity|]. rewrite length_app. now repeat split.
  - intros qs s l p a b x y ->. eexists _, _. split; [reflexivity|]. now repeat split.
  - rewrite Ew. reflexivity.
Qed.

Lemma positions_frontier : frontier_sibling_positions idx depth = Return ps.
Proof.
  pose proof Hfr as (H1 & H2 & E & _). unfold frontier_sibling_positions.
  rewrite (proj2 (validate_indices_ok idx depth _) (conj H1 eq_refl)). cbn [lift mbind exec_bind].
  destruct (walk_sim position_walk (fun _ _ _ _ _ => True) (fun ps s => s = ps) any ps)
    with (depth := depth) (k1 := leaf_map idx) (k2 := touched_map (list_to_set idx))
      (s := @nil FrontierSiblingPosition) (e := e)
    as (v & s' & Ew & -> & _); [auto|..|reflexivity|now apply touched_map_rel|exact E|].
  - intros qs s l q -> _. eexists _, _. split; [reflexivity|]. now repeat split.
  - intros qs s l p a b x y ->. eexists _, _. split; [reflexivity|]. now repeat split.
  - rewrite Ew. reflexivity.
Qed.

Context {D : Type} `{!EqDecision D} (node : D -> D -> D).

Fixpoint eval (leaves siblings : list D) (e : expr) : option D :=
  match e with
  | ELeaf j => leaves !! j
  | ESib k => siblings !! k
  | ENode a b => x ← eval leaves siblings a; y ← eval leaves siblings b; Some (node x y)
  end.

Section Values.
Context (leaves siblings : list D).
Hypothesis leaves_length : length leaves = length idx.
Hypothesis siblings_length : length siblings = length ps.

Lemma sibling_read qs q : (qs ++ [q]) `prefix_of` ps -> is_Some (siblings !! length qs).
Proof.
  intros H. apply lookup_lt_is_Some_2. rewrite siblings_length. apply prefix_length in H. rewrite length_app in H.
  cbn in H. unfold FrontierSiblingPosition in *. lia.
Qed.

Lemma leaf_rel {V S} (R : S -> nat -> Z -> expr -> V -> Prop) s (g : nat -> D -> V) (m : gmap Z V) :
  (forall p v, m !! p = Some v <-> exists j x, idx !! j = Some p /\ leaves !! j = Some x /\ v = g j x) ->
  (forall j p x, idx !! j = Some p -> leaves !! j = Some x -> R s 0%nat p (ELeaf j) (g j x)) ->
  map_rel R s 0 (leaf_map idx) m.
Proof.
  intros Hm HR p. apply option_Forall2_lookup.
  - intros a E. apply (list_to_map_imap_lookup ELeaf) in E as (j & E & ->); [|apply fr_nodup].
    destruct (lookup_lt_is_Some_2 leaves j) as [x Hx]; [rewrite leaves_length; now apply lookup_lt_Some in E|].
    exists (g j x). split; [apply Hm; eauto 6|now apply HR].
  - intros v E. apply Hm in E as (j & x & E & _). exists (ELeaf j).
    apply (list_to_map_imap_lookup ELeaf); [apply fr_nodup|eauto].
Qed.

Lemma check_ok : check_multiproof idx leaves siblings depth = Return tt.
Proof.
  unfold check_multiproof. rewrite leaves_length, Nat.eqb_refl. cbn [ensure lift mbind exec_bind].
  rewrite count_frontier. cbn [mbind exec_bind]. now rewrite siblings_length, Nat.eqb_refl.
Qed.

(** [reconstruct_root] evaluates the expression. *)
Lemma reconstruct_eval : exists v, eval leaves siblings e = Some v
  /\ reconstruct_root node idx leaves siblings depth = Return v.
Proof.
  pose proof Hfr as (H1 & H2 & E & _). unfold reconstruct_root. rewrite check_ok. cbn [mbind exec_bind].
  destruct (walk_sim (reconstruct_walk node siblings) (fun _ _ _ e v => eval leaves siblings e = Some v)
      (fun ps s => s = length ps) any ps)
    with (depth := depth) (k1 := leaf_map idx) (k2 := list_to_map (zip idx leaves) : gmap Z D) (s := 0%nat) (e := e)
    as (v & s' & Ew & _ & Hv); [auto|..|reflexivity| |exact E|].
  - intros qs s l q -> Hp. destruct (sibling_read qs _ Hp) as [v Hv]. exists v, (length qs + 1)%nat.
    cbn [fresh reconstruct_walk]. rewrite Hv, length_app. now repeat split.
  - intros qs s l p a b x y -> Ha Hb. eexists _, _. split; [reflexivity|]. split; [reflexivity|]. split; [exact I|].
    cbn [eval]. now rewrite Ha, Hb.
  - apply (leaf_rel _ _ (fun _ x => x)); [|auto]. intros p v.
    rewrite (list_to_map_zip_lookup idx leaves p v fr_nodup (eq_sym leaves_length)).
    split; [intros (j & Ej & Ev); eauto 6|intros (j & x & Ej & Ex & ->); eauto].
  - exists v. split; [exact Hv|]. rewrite Ew. cbn [expect mbind exec_bind fst]. now rewrite single_root_singleton.
Qed.

(** *** The plan evaluates to the same root *)

Definition combine_hashes (cs : list (StructuralNodeRef * StructuralNodeRef)) : option (list D) :=
  fold_option (evaluate_combine node leaves siblings) [] cs.

(** More combines only append hashes. *)
Definition plan_le (s s' : plan_state) : Prop :=
  forall hs, combine_hashes s.2 = Some hs -> exists hs', combine_hashes s'.2 = Some hs' /\ hs `prefix_of` hs'.

#[local] Instance plan_le_preorder : PreOrder plan_le.
Proof.
  split.
  - intros s hs E. exists hs. now split.
  - intros s1 s2 s3 H1 H2 hs E. destruct (H1 hs E) as (hs2 & E2 & P2). destruct (H2 hs2 E2) as (hs3 & E3 & P3).
    exists hs3. split; [exact E3|now transitivity hs2].
Qed.

Definition plan_rel (s : plan_state) (l : nat) (p : Z) (a : expr) (ref : StructuralNodeRef) : Prop :=
  exists v hs, eval leaves siblings a = Some v /\ combine_hashes s.2 = Some hs
    /\ structural_node_hash ref leaves siblings hs = Some v.

Definition plan_inv (qs : list FrontierSiblingPosition) (s : plan_state) : Prop :=
  s.1 = qs /\ exists hs, combine_hashes s.2 = Some hs /\ length hs = length s.2.

Lemma node_hash_prefix ref hs hs' v :
  hs `prefix_of` hs' -> structural_node_hash ref leaves siblings hs = Some v ->
  structural_node_hash ref leaves siblings hs' = Some v.
Proof. intros Hp. destruct ref; cbn; [auto..|]. intros H. now apply (prefix_lookup_Some _ _ _ _ H Hp). Qed.

Lemma plan_rel_mono s s' l p a ref : plan_le s s' -> plan_rel s l p a ref -> plan_rel s' l p a ref.
Proof.
  intros Hle (v & hs & Ev & Eh & Hv). destruct (Hle hs Eh) as (hs' & Eh' & Hp). exists v, hs'.
  split; [exact Ev|]. split; [exact Eh'|]. now apply (node_hash_prefix ref hs).
Qed.

Lemma plan_combine_sim qs s l p a b x y :
  plan_inv qs s -> plan_rel s l (2 * p) a x -> plan_rel s l (2 * p + 1) b y ->
  exists v s', combine plan_walk l x y s = (v, s') /\ plan_inv qs s' /\ plan_le s s'
    /\ plan_rel s' (S l) p (ENode a b) v.
Proof.
  intros [Hq (hs & Eh & Hl)] (va & hs1 & Ea & E1 & Hx) (vb & hs2 & Eb & E2 & Hy).
  rewrite Eh in E1, E2. injection E1 as <-. injection E2 as <-.
  assert (Es : combine_hashes (s.2 ++ [(x, y)]) = Some (hs ++ [node va vb])).
  { unfold combine_hashes in *. rewrite fold_option_app, Eh. cbn [mbind option_bind fold_option].
    unfold evaluate_combine. cbn [fst snd]. now rewrite Hx, Hy. }
  eexists _, _. split; [reflexivity|]. cbn [snd]. split; [|split].
  - split; [exact Hq|]. exists (hs ++ [node va vb]). split; [exact Es|]. cbn [snd]. rewrite !length_app, Hl. reflexivity.
  - intros hs' E'. rewrite Eh in E'. injection E' as <-. exists (hs ++ [node va vb]).
    split; [exact Es|now apply prefix_app_r].
  - exists (node va vb), (hs ++ [node va vb]). split; [cbn [eval]; now rewrite Ea, Eb|]. split; [exact Es|].
    cbn [structural_node_hash]. apply list_lookup_middle. symmetry. exact Hl.
Qed.

Lemma plan_eval : exists plan v hs,
  derive_structural_frontier_plan idx depth = Return plan
  /\ frontier_positions plan = ps
  /\ eval leaves siblings e = Some v
  /\ evaluate_structural_frontier node plan leaves siblings = Return (v, hs).
Proof.
  pose proof Hfr as (H1 & H2 & E & _). unfold derive_structural_frontier_plan.
  rewrite (proj2 (validate_indices_ok idx depth _) (conj H1 eq_refl)). cbn [lift mbind exec_bind].
  destruct (walk_sim plan_walk plan_rel plan_inv plan_le ps)
    with (depth := depth) (k1 := leaf_map idx)
      (k2 := list_to_map (imap (fun ordinal index => (index, TouchedLeaf ordinal)) idx) : gmap Z StructuralNodeRef)
      (s := (@nil FrontierSiblingPosition, @nil (StructuralNodeRef * StructuralNodeRef))) (e := e)
    as (root & s' & Ew & [Hs' _] & v & hs & Ev & Eh & Hr); [exact plan_rel_mono| |exact plan_combine_sim| | |exact E|].
  - intros qs s l q [Hq Hh] Hp. destruct (sibling_read qs _ Hp) as [v Hv]. eexists _, _. split; [reflexivity|].
    split; [split; [exact (f_equal (fun z => z ++ [(l, q)]) Hq)|exact Hh]|]. split; [intros hs' E'; now exists hs'|].
    destruct Hh as (hs & Eh & _). exists v, hs. split; [exact Hv|]. split; [exact Eh|].
    cbn [structural_node_hash]. rewrite <- Hv. exact (f_equal (fun z => siblings !! length z) Hq).
  - split; [reflexivity|]. exists []. now split.
  - apply (leaf_rel _ _ (fun j _ => TouchedLeaf j)).
    + intros p ref. rewrite (list_to_map_imap_lookup TouchedLeaf) by apply fr_nodup. split.
      * intros (j & Ej & ->). destruct (lookup_lt_is_Some_2 leaves j) as [x Hx];
          [rewrite leaves_length; now apply lookup_lt_Some in Ej|]. eauto 6.
      * intros (j & x & Ej & _ & ->). eauto.
    + intros j p x Ej Ex. exists x, []. cbn. auto.
  - exists (mkPlan (length idx) s'.1 s'.2 root), v, hs. rewrite Ew. cbn [expect mbind exec_bind fst snd].
    rewrite single_root_singleton. split; [reflexivity|]. split; [exact Hs'|]. split; [exact Ev|].
    unfold evaluate_structural_frontier. cbn [touched_leaf_count frontier_positions combines plan_root].
    rewrite leaves_length, Nat.eqb_refl. cbn [ensure lift mbind exec_bind].
    rewrite Hs', siblings_length, Nat.eqb_refl. cbn [ensure lift mbind exec_bind].
    unfold combine_hashes in Eh. rewrite Eh. cbn [expect mbind exec_bind]. rewrite Hr. reflexivity.
Qed.
End Values.

(** ** The full tree *)

(** The tree over a leaf function. *)
Fixpoint tree (f : Z -> D) (l : nat) (p : Z) : D :=
  match l with
  | O => f p
  | S l => node (tree f l (2 * p)) (tree f l (2 * p + 1))
  end.

(** The values of an expression agree with the tree. *)
Fixpoint matches (f : Z -> D) (leaves siblings : list D) (l : nat) (p : Z) (a : expr) {struct a} : Prop :=
  match a with
  | ELeaf j => leaves !! j = Some (tree f l p)
  | ESib k => siblings !! k = Some (tree f l p)
  | ENode a b =>
      match l with
      | O => False
      | S l => matches f leaves siblings l (2 * p) a /\ matches f leaves siblings l (2 * p + 1) b
      end
  end.

Lemma matches_eval f leaves siblings l p a :
  matches f leaves siblings l p a -> eval leaves siblings a = Some (tree f l p).
Proof.
  revert l p. induction a as [j|k|a IHa b IHb]; intros l p; [exact id..|]. cbn [matches eval].
  destruct l as [|l]; [intros []|]. intros [Ha Hb]. now rewrite (IHa _ _ Ha), (IHb _ _ Hb).
Qed.

(** The pairs the verifier hashed, each with the pair of the tree at the same
    place: where a wrong proof still reaches the root, one of them collides. *)
Fixpoint candidates (f : Z -> D) (leaves siblings : list D) (l : nat) (p : Z) (a : expr)
  {struct a} : list ((D * D) * (D * D)) :=
  match a, l with
  | ENode a b, S l =>
      match eval leaves siblings a, eval leaves siblings b with
      | Some x, Some y =>
          ((x, y), (tree f l (2 * p), tree f l (2 * p + 1)))
          :: candidates f leaves siblings l (2 * p) a ++ candidates f leaves siblings l (2 * p + 1) b
      | _, _ => []
      end
  | _, _ => []
  end.

Lemma eval_sound f leaves siblings l p a :
  shape idx ps l p a -> eval leaves siblings a = Some (tree f l p) ->
  matches f leaves siblings l p a \/ Exists (collision node) (candidates f leaves siblings l p a).
Proof.
  induction 1 as [j p Hj|k l p Hk|l p a b Ha IHa Hb IHb]; cbn [eval matches candidates]; [auto..|].
  destruct (eval leaves siblings a) as [x|] eqn:Ex; [|discriminate].
  destruct (eval leaves siblings b) as [y|] eqn:Ey; [|discriminate]. cbn [mbind option_bind tree]. intros [= En].
  destruct (decide ((x, y) = (tree f l (2 * p), tree f l (2 * p + 1)))) as [[= -> ->]|Hne].
  - destruct (IHa eq_refl) as [Ma|Ca]; [|right; right; now apply Exists_app; left].
    destruct (IHb eq_refl) as [Mb|Cb]; [now left|right; right; now apply Exists_app; right].
  - right. left. now split.
Qed.

Lemma tree_untouched (f f' : Z -> D) l p :
  (forall i, i ∉ idx -> f' i = f i) -> ~ touched idx l p -> tree f' l p = tree f l p.
Proof.
  intros Hf. revert p. induction l as [|l IH]; intros p Ht; cbn [tree].
  - apply Hf. intros Hi. apply Ht. exists p. split; [exact Hi|]. now rewrite Z.div_1_r.
  - f_equal; apply IH; intros T; apply Ht; apply touched_step; eexists; (split; [exact T|]);
      symmetry; apply double_half; auto.
Qed.

(** Only touched leaves change: the same siblings match the updated tree. *)
Lemma matches_update f f' old new siblings l p a :
  untouched idx ps -> shape idx ps l p a ->
  (forall i, i ∉ idx -> f' i = f i) -> (forall j i, idx !! j = Some i -> new !! j = Some (f' i)) ->
  matches f old siblings l p a -> matches f' new siblings l p a.
Proof.
  intros Hu Hs Hf Hn. induction Hs as [j p Hj|k l p Hk|l p a b Ha IHa Hb IHb]; cbn [matches].
  - intros _. cbn [tree]. now apply Hn.
  - intros ->. f_equal. symmetry. apply tree_untouched; [exact Hf|]. now apply (Hu k).
  - intros [Ma Mb]. auto.
Qed.

Lemma matches_leaf f leaves siblings l p a j i :
  untouched idx ps -> shape idx ps l p a -> matches f leaves siblings l p a ->
  idx !! j = Some i -> i / 2 ^ Z.of_nat l = p -> leaves !! j = Some (f i).
Proof.
  intros Hu Hs. revert i j. induction Hs as [j' p Hj|k l p Hk|l p a b Ha IHa Hb IHb]; intros i j; cbn [matches].
  - intros Hm Ei Ep. rewrite Z.div_1_r in Ep. subst p. cbn [tree] in Hm.
    now rewrite (NoDup_lookup idx j j' i fr_nodup Ei Hj).
  - intros _ Ei Ep. exfalso. apply (proj1 (Hu k l p Hk)). exists i. split; [now apply list_elem_of_lookup_2 with j|congruence].
  - intros [Ma Mb] Ei Ep. rewrite Nat2Z.inj_succ, Z.pow_succ_r, Z.mul_comm, <- Z.div_div in Ep by lia.
    apply double_half in Ep as [Ep|Ep]; [eapply IHa|eapply IHb]; eassumption.
Qed.

(** An honest frontier matches. *)
Lemma matches_honest f leaves siblings l p a :
  shape idx ps l p a -> (l <= depth)%nat ->
  (forall j i, idx !! j = Some i -> leaves !! j = Some (f i)) ->
  (forall k l p, ps !! k = Some (l, p) -> (l <= depth)%nat -> siblings !! k = Some (tree f l p)) ->
  matches f leaves siblings l p a.
Proof.
  intros Hs Hl HL HS. revert Hl. induction Hs as [j p Hj|k l p Hk|l p a b Ha IHa Hb IHb]; intros Hl; cbn [matches].
  - now apply HL.
  - now apply HS.
  - split; [apply IHa|apply IHb]; lia.
Qed.
End Frontier.

(** ** The cache is the full tree *)

Section Cache.
Context {D : Type} `{!EqDecision D} (node : D -> D -> D) (empty_leaf : D).

Lemma zero_roots_nth n l p : (l <= n)%nat ->
  nth l (zero_slot_roots node empty_leaf n) empty_leaf = tree node (fun _ => empty_leaf) l p.
Proof.
  unfold zero_slot_roots. intros Hl.
  assert (H : forall n l k q, (l <= n)%nat ->
    nth l (push_zero_roots node n (tree node (fun _ => empty_leaf) k q)) empty_leaf
    = tree node (fun _ => empty_leaf) (k + l) q).
  { clear. assert (U : forall k p q, tree node (fun _ => empty_leaf) k p = tree node (fun _ => empty_leaf) k q).
    { induction k as [|k IH]; intros p q; [reflexivity|]. cbn [tree]. f_equal; apply IH. }
    induction n as [|n IH]; intros l k q Hl; destruct l as [|l]; try lia; cbn [push_zero_roots nth];
      [now rewrite Nat.add_0_r..|].
    replace (node _ _) with (tree node (fun _ => empty_leaf) (S k) q) by (cbn [tree]; f_equal; apply U).
    rewrite IH by lia. f_equal. lia. }
  exact (H n l 0%nat p Hl).
Qed.

(** Every level up to the depth reads as the tree over [f]. *)
Record cache_ok (c : SparseMerkleCache (D := D)) (f : Z -> D) : Prop := {
  co_depth : (cache_depth c <= 32)%nat;
  co_zero : zero_roots c = zero_slot_roots node empty_leaf (cache_depth c);
  co_nodes : forall l p, (l <= cache_depth c)%nat -> node_hash empty_leaf c l p = tree node f l p
}.

Lemma cache_new_ok depth c :
  SparseMerkleCache_new node empty_leaf depth = Ok c -> cache_ok c (fun _ => empty_leaf) /\ cache_depth c = depth.
Proof.
  unfold SparseMerkleCache_new, validate_depth. intros H. inv_ok. subst c. apply Nat.leb_le in Hok.
  split; [|reflexivity]. constructor; [exact Hok|reflexivity|]. intros l p Hl. cbn [cache_depth] in Hl.
  unfold node_hash. cbn [cache_nodes zero_roots]. rewrite lookup_empty. cbn. now apply zero_roots_nth.
Qed.

Lemma node_hash_set_node c l p h l' p' :
  node_hash empty_leaf (set_node empty_leaf c l p h) l' p'
  = if decide ((l', p') = (l, p)) then h else node_hash empty_leaf c l' p'.
Proof.
  unfold node_hash, set_node. cbn [zero_roots cache_nodes].
  destruct (decide ((l', p') = (l, p))) as [[= -> ->]|Hne].
  - destruct (decide (h = _)) as [->|]; [rewrite lookup_delete_eq|rewrite lookup_insert_eq]; reflexivity.
  - destruct (decide (h = _)); [rewrite lookup_delete_ne|rewrite lookup_insert_ne]; congruence.
Qed.

Lemma sibling_cases p :
  (p = pair_base p /\ Z.lxor p 1 = p + 1 /\ p = 2 * (p / 2))
  \/ (p <> pair_base p /\ Z.lxor p 1 = 2 * (p / 2) /\ p = 2 * (p / 2) + 1).
Proof.
  rewrite !pair_base_eq. pose proof (Z.div_mod p 2 ltac:(lia)) as E.
  assert (X : forall q, Z.lxor (2 * q) 1 = 2 * q + 1).
  { intros q. rewrite Z.add_nocarry_lxor; [reflexivity|]. apply Z.bits_inj. intros n. rewrite Z.land_spec, Z.bits_0.
    destruct (Z.eq_dec n 0) as [->|Hn]; [now rewrite Z.testbit_even_0|].
    change 1 with (2 ^ 0). rewrite Z.pow2_bits_false by congruence. apply andb_false_r. }
  destruct (Z.mod_pos_bound p 2 ltac:(lia)) as [H0 H1].
  assert (p mod 2 = 0 \/ p mod 2 = 1) as [Em|Em] by lia; rewrite Em in E.
  - left. split; [lia|]. split; [|lia]. rewrite E at 1. rewrite Z.add_0_r, X. lia.
  - right. split; [lia|]. split; [|lia]. rewrite E at 1. rewrite <- X, Z.lxor_assoc, Z.lxor_nilpotent. apply Z.lxor_0_r.
Qed.

Definition update_leaf (f : Z -> D) (index : Z) (leaf : D) : Z -> D :=
  fun i => if decide (i = index) then leaf else f i.

(** Half-way through [set_leaf]: levels up to [l] read as the new tree, the
    others still as the old one. *)
Definition climbing (f : Z -> D) (index : Z) (leaf : D) (l : nat) (c : SparseMerkleCache (D := D)) : Prop :=
  (cache_depth c <= 32)%nat /\ zero_roots c = zero_slot_roots node empty_leaf (cache_depth c)
  /\ forall k p, (k <= cache_depth c)%nat ->
     node_hash empty_leaf c k p = tree node (if (k <=? l)%nat then update_leaf f index leaf else f) k p.

Lemma tree_update_elsewhere f index leaf l p :
  p <> index / 2 ^ Z.of_nat l -> tree node (update_leaf f index leaf) l p = tree node f l p.
Proof.
  intros Hp. apply (tree_untouched [index] node).
  - intros i Hi. unfold update_leaf. rewrite decide_False; [reflexivity|]. set_solver.
  - intros (i & Hi & E). apply list_elem_of_singleton in Hi as ->. congruence.
Qed.

Lemma index_half (index : Z) (l : nat) : index / 2 ^ Z.of_nat (S l) = index / 2 ^ Z.of_nat l / 2.
Proof. rewrite Nat2Z.inj_succ, Z.pow_succ_r, Z.mul_comm, Z.div_div by lia. reflexivity. Qed.

Lemma set_leaf_level_ok f index leaf l c c' p' h' :
  climbing f index leaf l c -> (l < cache_depth c)%nat ->
  set_leaf_level node empty_leaf (c, index / 2 ^ Z.of_nat l, tree node (update_leaf f index leaf) l (index / 2 ^ Z.of_nat l)) l
    = (c', p', h') ->
  climbing f index leaf (S l) c' /\ cache_depth c' = cache_depth c /\ p' = index / 2 ^ Z.of_nat (S l)
  /\ h' = tree node (update_leaf f index leaf) (S l) (index / 2 ^ Z.of_nat (S l)).
Proof.
  intros (C1 & C2 & C3) Hl. rewrite index_half. set (p := index / 2 ^ Z.of_nat l). set (f' := update_leaf f index leaf) in *.
  assert (Hh : (let '(a, b) := if p =? pair_base p then (tree node f' l p, node_hash empty_leaf c l (Z.lxor p 1))
                               else (node_hash empty_leaf c l (Z.lxor p 1), tree node f' l p) in node a b)
               = tree node f' (S l) (p / 2)).
  { rewrite C3 by lia. rewrite Nat.leb_refl. fold f'. cbn [tree].
    destruct (sibling_cases p) as [(E1 & E2 & E3)|(E1 & E2 & E3)].
    - rewrite <- E1, Z.eqb_refl, E2. now rewrite <- E3.
    - destruct (Z.eqb_spec p (pair_base p)); [contradiction|]. now rewrite E2, <- E3. }
  unfold set_leaf_level. cbn zeta. destruct (if p =? pair_base p then _ else _) as [a b]. rewrite Hh, pair_base_half.
  intros [= <- <- <-]. split; [|auto]. split; [exact C1|]. split; [exact C2|]. cbn [set_node cache_depth].
  intros k q Hk. rewrite node_hash_set_node. replace (l + 1)%nat with (S l) by lia.
  destruct (decide ((k, q) = (S l, p / 2))) as [[= -> ->]|Hne]; [now rewrite Nat.leb_refl|].
  rewrite C3 by exact Hk. destruct (Nat.leb_spec k l), (Nat.leb_spec k (S l)); try lia; [reflexivity| |reflexivity].
  assert (k = S l) as -> by lia. symmetry. apply tree_update_elsewhere. rewrite index_half. intros ->. now apply Hne.
Qed.

Lemma set_leaf_levels_ok f index leaf n l c :
  climbing f index leaf l c -> (l + n <= cache_depth c)%nat ->
  let c' := (foldl (set_leaf_level node empty_leaf)
    (c, index / 2 ^ Z.of_nat l, tree node (update_leaf f index leaf) l (index / 2 ^ Z.of_nat l)) (seq l n)).1.1 in
  climbing f index leaf (l + n) c' /\ cache_depth c' = cache_depth c.
Proof.
  revert l c. induction n as [|n IH]; intros l c Hc Hl; cbn [seq foldl].
  - rewrite Nat.add_0_r. cbn. auto.
  - destruct (set_leaf_level _ _ _ _) as [[c1 p1] h1] eqn:E.
    destruct (set_leaf_level_ok f index leaf l c c1 p1 h1 Hc ltac:(lia) E) as (H1 & H2 & -> & ->).
    replace (l + S n)%nat with (S l + n)%nat by lia. rewrite <- H2. apply IH; [exact H1|lia].
Qed.

Lemma set_leaf_ok f c index leaf :
  cache_ok c f -> index < 2 ^ Z.of_nat (cache_depth c) ->
  exists c', set_leaf node empty_leaf c index leaf = Ok c' /\ cache_ok c' (update_leaf f index leaf)
    /\ cache_depth c' = cache_depth c.
Proof.
  intros [C1 C2 C3] Hi. unfold set_leaf, validate_index, validate_depth.
  apply Nat.leb_le in C1 as C1'. rewrite C1'. cbn [ensure mbind result_bind].
  destruct (Z.leb_spec (2 ^ Z.of_nat (cache_depth c)) index); [lia|]. cbn [negb ensure mbind result_bind].
  assert (Hc : climbing f index leaf 0 (set_node empty_leaf c 0 index leaf)).
  { split; [exact C1|]. split; [exact C2|]. cbn [set_node cache_depth]. intros k p Hk. rewrite node_hash_set_node.
    destruct (decide ((k, p) = (0%nat, index))) as [[= -> ->]|Hne].
    - cbn. unfold update_leaf. now rewrite decide_True.
    - rewrite C3 by exact Hk. destruct (Nat.leb_spec k 0); [|reflexivity]. assert (k = 0%nat) as -> by lia.
      cbn. unfold update_leaf. now rewrite decide_False by congruence. }
  destruct (set_leaf_levels_ok f index leaf (cache_depth c) 0 (set_node empty_leaf c 0 index leaf) Hc ltac:(cbn; lia))
    as [(H1 & H2 & H3) H4].
  change (2 ^ Z.of_nat 0) with 1 in H1, H2, H3, H4. rewrite Z.div_1_r in H1, H2, H3, H4. cbn [tree] in H1, H2, H3, H4.
  replace (update_leaf f index leaf index) with leaf in H1, H2, H3, H4 by (unfold update_leaf; now rewrite decide_True).
  eexists. split; [reflexivity|]. cbn [set_node cache_depth] in H4 |- *. split; [|exact H4]. constructor; [exact H1|exact H2|].
  intros l p Hl. cbn [Nat.add] in H3. rewrite H3 by exact Hl.
  cbn [set_node cache_depth] in Hl, H4. rewrite H4 in Hl. apply Nat.leb_le in Hl. now rewrite Hl.
Qed.

Definition apply_leaves (f : Z -> D) (leaves : list (Z * D)) : Z -> D :=
  foldl (fun f p => update_leaf f p.1 p.2) f leaves.

Lemma set_leaves_ok f c leaves :
  cache_ok c f -> Forall (fun p => p.1 < 2 ^ Z.of_nat (cache_depth c)) leaves ->
  exists c', fold_result (fun c p => set_leaf node empty_leaf c p.1 p.2) c leaves = Ok c'
    /\ cache_ok c' (apply_leaves f leaves) /\ cache_depth c' = cache_depth c.
Proof.
  intros Hc Hl. revert f c Hc Hl. induction leaves as [|[i v] leaves IH]; intros f c Hc Hl; cbn [fold_result].
  - eauto.
  - apply Forall_cons in Hl as [Hi Hl]. destruct (set_leaf_ok f c i v Hc Hi) as (c1 & E & Hc1 & Hd).
    cbn [fst snd]. rewrite E. cbn [mbind result_bind]. rewrite <- Hd in Hl.
    destruct (IH _ _ Hc1 Hl) as (c' & E' & H1 & H2). exists c'. rewrite E', H2, Hd. auto.
Qed.
End Cache.

(** ** Size of the frontier *)

Lemma size_cover (l : list Z) (X : gset Z) : X ⊆ list_to_set l -> (size X <= length l)%nat.
Proof.
  revert X. induction l as [|x l IH]; intros X H; cbn [list_to_set length] in *.
  - assert (X = ∅) as -> by set_solver. now rewrite size_empty.
  - pose proof (IH (X ∖ {[x]}) ltac:(set_solver)).
    pose proof (subseteq_size X ({[x]} ∪ X ∖ {[x]})) as Hs. rewrite size_union, size_singleton in Hs by set_solver.
    assert (X ⊆ {[x]} ∪ X ∖ {[x]}) as Hx by (intros z; destruct (decide (z = x)); set_solver). specialize (Hs Hx). lia.
Qed.

(** Frontier positions lie below the root. *)
Lemma pairs_levels (l : nat) known bs n qs n' qs' (P : FrontierSiblingPosition -> Prop) :
  fold_option (walk_pair symbolic_walk l known) (n, qs) bs = Some (n', qs') -> (forall p, P (l, p)) -> Forall P qs -> Forall P qs'.
Proof.
  revert n qs. induction bs as [|b bs IH]; intros n qs; cbn [fold_option]; [now intros [= <- <-]|].
  destruct (walk_pair _ _ _ _ _) as [[n1 qs1]|] eqn:E; [|discriminate]. cbn [mbind option_bind]. intros H HP Hq.
  apply (IH n1 qs1 H HP). unfold walk_pair in E. destruct (children _ _ _ _ _) as [[[x y] qs2]|] eqn:Ec; [|discriminate E].
  cbn in E. injection E as <- <-. unfold children in Ec. cbn [snd] in Ec.
  destruct (known !! b), (known !! (b + 1)); cbn in Ec; try discriminate Ec; injection Ec as <- <- <-; try assumption;
    apply Forall_app; (split; [assumption|]); constructor; [apply HP|constructor|apply HP|constructor].
Qed.

Lemma walk_levels n l known qs known' qs' : fold_option (walk_level symbolic_walk) (known, qs) (seq l n) = Some (known', qs') ->
  Forall (fun q : FrontierSiblingPosition => (q.1 < l + n)%nat) qs -> Forall (fun q => (q.1 < l + n)%nat) qs'.
Proof.
  revert l known qs. induction n as [|n IH]; intros l known qs; cbn [seq fold_option]; [now intros [= <- <-]|].
  destruct (walk_level symbolic_walk (known, qs) l) as [[m1 qs1]|] eqn:E; [|discriminate]. cbn [mbind option_bind]. intros H Hq.
  replace (l + S n)%nat with (S l + n)%nat in * by lia. apply (IH _ _ _ H). unfold walk_level in E.
  apply (pairs_levels l _ _ _ _ _ _ (fun q => (q.1 < S l + n)%nat) E); [cbn; lia|exact Hq].
Qed.

Lemma frontier_beside idx depth e ps l p : frontier_of idx depth e ps -> (l, p) ∈ ps ->
  (l < depth)%nat /\ exists i, i ∈ idx /\ p / 2 = i / 2 ^ Z.of_nat (S l).
Proof.
  intros (_ & _ & E & _ & Hu) Hin. split.
  - apply walk_levels in E; [|constructor]. rewrite Forall_forall in E. exact (E _ Hin).
  - apply list_elem_of_lookup in Hin as [k Ek]. destruct (Hu k l p Ek) as [_ (i & Hi & Ei)]. eauto.
Qed.

Section Size.
Context (idx : list Z) (depth : nat) (e : expr) (ps : list FrontierSiblingPosition).
Hypothesis Hfr : frontier_of idx depth e ps.

(** Touched nodes of a level. *)
Definition level_set (l : nat) : gset Z := list_to_set ((fun i => i / 2 ^ Z.of_nat l) <$> idx).

Lemma level_set_touched l p : p ∈ level_set l <-> touched idx l p.
Proof.
  unfold level_set, touched. rewrite elem_of_list_to_set, list_elem_of_fmap. naive_solver.
Qed.

Lemma level_known qs l known : level_ok idx qs l known -> (dom known : gset Z) = level_set l.
Proof. intros [K _]. apply set_eq. intros p. rewrite elem_of_dom, level_set_touched. apply K. Qed.

Lemma bases_nodup keys processed : NoDup (bases processed keys).
Proof.
  revert processed. induction keys as [|p keys IH]; intros processed; cbn [bases]; [constructor|]. cbn zeta.
  destruct (decide _); [apply IH|]. constructor; [|apply IH]. rewrite bases_elem. set_solver.
Qed.

(** Known children of a base. *)
Definition kids (known : gmap Z expr) (b : Z) : list Z :=
  filter (fun p => is_Some (known !! p)) [b; b + 1].

Lemma children_count l known b qs x y qs' :
  children symbolic_walk l known b qs = Some (x, y, qs') ->
  (length qs' + length (kids known b) = length qs + 2)%nat.
Proof.
  assert (K : length (kids known b)
    = ((if known !! b then 1 else 0) + (if known !! (b + 1)%Z then 1 else 0))%nat).
  { unfold kids. rewrite !filter_cons, filter_nil. destruct (decide _) as [[? ->]|H1], (decide _) as [[? ->]|H2];
      rewrite <- ?eq_None_not_Some in *; rewrite ?H1, ?H2; reflexivity. }
  rewrite K. unfold children. destruct (known !! b), (known !! (b + 1)); cbn [mbind option_bind fresh symbolic_walk];
    intros [= <- <- <-]; rewrite ?length_app; cbn [length]; unfold FrontierSiblingPosition in *; lia.
Qed.

Lemma pairs_count l known bs n qs n' qs' :
  fold_option (walk_pair symbolic_walk l known) (n, qs) bs = Some (n', qs') ->
  (length qs' + length (bs ≫= kids known) = length qs + 2 * length bs)%nat.
Proof.
  revert n qs. induction bs as [|b bs IH]; intros n qs; cbn [fold_option]; [intros [= <- <-]; cbn; lia|].
  destruct (walk_pair _ _ _ _ _) as [[n1 qs1]|] eqn:E; [|discriminate]. cbn [mbind option_bind]. intros H.
  apply IH in H. unfold walk_pair in E. destruct (children _ _ _ _ _) as [[[x y] qs2]|] eqn:Ec; [|discriminate E].
  cbn in E. injection E as <- <-. apply children_count in Ec. cbn [snd] in Ec. rewrite bind_cons, length_app. cbn [length]. lia.
Qed.

Definition level_count (l : nat) : nat := size (level_set l).

Lemma bases_length qs l known :
  level_ok idx qs l known ->
  length (bases ∅ (sorted_keys known)) = level_count (S l).
Proof.
  intros HK. unfold level_count.
  rewrite <- (length_fmap (fun b => b / 2)), <- (size_list_to_set (C := gset Z)).
  - f_equal. apply set_eq. intros q. rewrite elem_of_list_to_set, list_elem_of_fmap, level_set_touched, touched_step.
    setoid_rewrite bases_elem_known. split.
    + intros (b & -> & p & Hk & ->). exists p. split; [now apply (proj1 HK)|apply pair_base_half].
    + intros (p & Hk & ->). exists (pair_base p). split; [symmetry; apply pair_base_half|].
      exists p. split; [now apply (proj1 HK)|reflexivity].
  - apply NoDup_fmap_2_strong; [|apply bases_nodup]. intros b b' Hb Hb' E.
    apply bases_elem_known in Hb as (p & _ & ->), Hb' as (p' & _ & ->).
    rewrite !pair_base_half in E. rewrite !pair_base_eq. now rewrite E.
Qed.

Lemma kids_cover qs l known :
  level_ok idx qs l known -> (level_count l <= length (bases ∅ (sorted_keys known) ≫= kids known))%nat.
Proof.
  intros HK. apply size_cover. intros p Hp. apply level_set_touched, (proj1 HK) in Hp.
  apply elem_of_list_to_set, list_elem_of_bind. exists (pair_base p). split.
  - unfold kids. apply list_elem_of_filter. split; [exact Hp|].
    destruct (position_cases p) as [E|E]; rewrite E at 1; [left|right; left].
  - apply bases_elem_known. eauto.
Qed.

Lemma levels_count n l known qs known' qs' :
  level_ok idx qs l known -> untouched idx qs ->
  fold_option (walk_level symbolic_walk) (known, qs) (seq l n) = Some (known', qs') ->
  (length qs' + sum_list_with level_count (seq l n)
   <= length qs + 2 * sum_list_with level_count (seq (S l) n))%nat.
Proof.
  revert l known qs. induction n as [|n IH]; intros l known qs HK Hu E; cbn [seq fold_option sum_list_with] in *.
  - injection E as <- <-. lia.
  - destruct (symbolic_level idx qs l known HK Hu) as (next & qs1 & E1 & _ & Hu1 & HK1).
    rewrite E1 in E. cbn [mbind option_bind] in E. apply IH in E; [|exact HK1|exact Hu1].
    unfold walk_level in E1. cbn [fst snd] in E1. apply pairs_count in E1.
    rewrite (bases_length qs l known HK) in E1. pose proof (kids_cover qs l known HK).
    unfold FrontierSiblingPosition in *. lia.
Qed.

Lemma level_count_0 : level_count 0 = length idx.
Proof.
  unfold level_count, level_set. change (2 ^ Z.of_nat 0) with 1.
  rewrite (list_fmap_ext _ id) by (intros; apply Z.div_1_r).
  now rewrite list_fmap_id, size_list_to_set by (eapply fr_nodup; eassumption).
Qed.

Lemma frontier_length : (length ps + length idx <= sum_list_with level_count (seq 1 depth) + 1)%nat.
Proof.
  pose proof Hfr as (H1 & H2 & E & _). pose proof (fr_nodup idx depth e ps Hfr) as Hn.
  unfold walk in E. apply levels_count in E; [|now apply leaf_map_ok|intros k l p H; rewrite lookup_nil in H; discriminate H].
  pose proof level_count_0 as K0.
  assert (Kd : (level_count depth <= 1)%nat).
  { apply (size_cover [0]). intros p Hp. apply level_set_touched in Hp as (i & Hi & ->).
    rewrite Forall_forall in H2. pose proof (ok_bound _ _ H1) as Hb. rewrite Forall_forall in Hb.
    rewrite Z.div_small by auto. set_solver. }
  assert (Es : (level_count 0 + sum_list_with level_count (seq 1 depth)
                = sum_list_with level_count (seq 0 depth) + level_count depth)%nat).
  { change (level_count 0 + sum_list_with level_count (seq 1 depth))%nat
      with (sum_list_with level_count (seq 0 (S depth))). rewrite seq_S, sum_list_with_app. cbn. lia. }
  cbn [length] in E. unfold FrontierSiblingPosition in *. lia.
Qed.

Lemma level_count_bounds l : (l <= depth)%nat ->
  Z.of_nat (level_count l) <= Z.min (Z.of_nat (length idx)) (2 ^ Z.of_nat (depth - l)).
Proof.
  intros Hl. pose proof Hfr as (H1 & H2 & _). apply Z.min_glb.
  - pose proof (size_cover ((fun i => i / 2 ^ Z.of_nat l) <$> idx) (level_set l) (fun x Hx => Hx)) as H.
    rewrite length_fmap in H. unfold level_count. lia.
  - pose proof (size_cover (seqZ 0 (2 ^ Z.of_nat (depth - l))) (level_set l)) as H. rewrite length_seqZ in H.
    pose proof (Z.pow_pos_nonneg 2 (Z.of_nat (depth - l)) ltac:(lia) ltac:(lia)).
    enough (level_set l ⊆ list_to_set (seqZ 0 (2 ^ Z.of_nat (depth - l)))) as Hs by (specialize (H Hs); unfold level_count; lia).
    intros p Hp. apply level_set_touched in Hp as (i & Hi & ->). apply elem_of_list_to_set, elem_of_seqZ.
    rewrite Forall_forall in H2. pose proof (ok_bound _ _ H1) as Hb. rewrite Forall_forall in Hb.
    specialize (H2 i Hi). specialize (Hb i Hi). split; [apply Z.div_pos; lia|]. rewrite Z.add_0_l.
    apply Z.div_lt_upper_bound; [lia|]. rewrite <- Z.pow_add_r by lia. now replace (Z.of_nat l + Z.of_nat (depth - l)) with (Z.of_nat depth) by lia.
Qed.
End Size.

(** ** The analytic maximum *)

(** The most touched nodes the [m] levels above [k] leaves can have. *)
Fixpoint spread_sum (m : nat) (k : Z) : Z :=
  match m with
  | O => 0
  | S m => spread_sum m k + Z.min k (2 ^ Z.of_nat m)
  end.

Lemma pow2_gt0 (n : nat) : 0 < 2 ^ Z.of_nat n.
Proof. apply Z.pow_pos_nonneg; lia. Qed.

Lemma pow2_S (n : nat) : 2 ^ Z.of_nat (S n) = 2 * 2 ^ Z.of_nat n.
Proof. rewrite Nat2Z.inj_succ, Z.pow_succ_r by lia. reflexivity. Qed.

Lemma pow2_mono (n m : nat) : (n <= m)%nat -> 2 ^ Z.of_nat n <= 2 ^ Z.of_nat m.
Proof. intros H. apply Z.pow_le_mono_r; lia. Qed.

(** [2^c] covers [k] and no smaller power does. *)
Definition covers (k : Z) (c : nat) : Prop := k <= 2 ^ Z.of_nat c /\ (c = 0%nat \/ 2 ^ Z.of_nat c < 2 * k).

Lemma covering_loop_spec fuel k c :
  k <= 2 ^ Z.of_nat (c + fuel) -> (c = 0%nat \/ 2 ^ Z.of_nat c < 2 * k) ->
  exists c', covering_loop fuel k (2 ^ Z.of_nat c) c = (2 ^ Z.of_nat c', c') /\ covers k c'.
Proof.
  revert c. induction fuel as [|fuel IH]; intros c Hk Hc; cbn [covering_loop].
  - rewrite Nat.add_0_r in Hk. exists c. now repeat split.
  - destruct (Z.ltb_spec (2 ^ Z.of_nat c) k) as [Hlt|Hge]; [|exists c; now repeat split].
    rewrite Z.shiftl_mul_pow2 by lia. replace (2 ^ Z.of_nat c * 2 ^ 1) with (2 ^ Z.of_nat (S c)) by (rewrite pow2_S; lia).
    replace (c + 1)%nat with (S c) by lia. apply IH; [now replace (S c + fuel)%nat with (c + S fuel)%nat by lia|].
    right. rewrite pow2_S. lia.
Qed.

Lemma spread_below c k : (forall j, (j < c)%nat -> 2 ^ Z.of_nat j <= k) -> spread_sum c k = 2 ^ Z.of_nat c - 1.
Proof.
  induction c as [|c IH]; intros H; cbn [spread_sum]; [reflexivity|].
  rewrite IH by (intros j Hj; apply H; lia). rewrite Z.min_r by (apply H; lia). rewrite pow2_S. lia.
Qed.

Lemma spread_closed m k c : covers k c -> (c <= m)%nat ->
  spread_sum m k = Z.of_nat (m - c) * k + 2 ^ Z.of_nat c - 1.
Proof.
  intros [H1 H2] Hm. induction m as [|m IH].
  - replace c with 0%nat by lia. reflexivity.
  - destruct (Nat.eq_dec c (S m)) as [->|Hne].
    + rewrite Nat.sub_diag, Z.mul_0_l. rewrite spread_below; [lia|]. intros j Hj.
      pose proof (pow2_mono j m ltac:(lia)). rewrite pow2_S in H2. lia.
    + cbn [spread_sum]. rewrite IH by lia. pose proof (pow2_mono c m ltac:(lia)).
      rewrite Z.min_l by lia. replace (S m - c)%nat with (S (m - c)) by lia. lia.
Qed.

Lemma maximum_sibling_count_eq k m : (m <= 32)%nat -> 1 <= k <= 2 ^ Z.of_nat m ->
  maximum_sibling_count k m = Some (spread_sum m k + 1 - k).
Proof.
  intros Hm Hk. unfold maximum_sibling_count.
  destruct (Nat.leb_spec m 32); [|lia]. destruct (Z.eqb_spec k 0); [lia|].
  destruct (Z.leb_spec k (2 ^ Z.of_nat m)); [|lia]. cbn [negb].
  pose proof (pow2_mono m 33 ltac:(lia)).
  destruct (covering_loop_spec 33 k 0) as (c & E & Hc); [cbn [Nat.add]; lia|now left|].
  change (2 ^ Z.of_nat 0) with 1 in E. rewrite E.
  assert (c <= m)%nat.
  { destruct (Nat.le_gt_cases c m) as [|Hgt]; [assumption|]. destruct Hc as [_ [->|Hc]]; [lia|].
    pose proof (pow2_mono (S m) c ltac:(lia)). rewrite pow2_S in *. lia. }
  rewrite (spread_closed m k c) by assumption. f_equal. lia.
Qed.

Lemma frontier_maximum idx depth e ps :
  frontier_of idx depth e ps ->
  exists n, maximum_sibling_count (Z.of_nat (length idx)) depth = Some n /\ Z.of_nat (length ps) <= n.
Proof.
  intros Hfr. pose proof Hfr as (H1 & H2 & _). pose proof (frontier_length idx depth e ps Hfr) as Hl.
  assert (B : forall m a, (a + m = depth)%nat ->
    Z.of_nat (sum_list_with (level_count idx) (seq (S a) m)) <= spread_sum m (Z.of_nat (length idx))).
  { induction m as [|m IH]; intros a Ha; cbn [seq sum_list_with spread_sum]; [lia|].
    pose proof (IH (S a) ltac:(lia)). pose proof (level_count_bounds idx depth e ps Hfr (S a) ltac:(lia)) as Hb.
    replace (depth - S a)%nat with m in Hb by lia. lia. }
  specialize (B depth 0%nat ltac:(lia)).
  assert (K : 1 <= Z.of_nat (length idx) <= 2 ^ Z.of_nat depth).
  { pose proof (ok_nonempty _ _ H1). pose proof (level_count_bounds idx depth e ps Hfr 0 ltac:(lia)) as Hb.
    rewrite Nat.sub_0_r, (level_count_0 idx depth e ps Hfr) in Hb. destruct idx; [congruence|cbn [length] in *; lia]. }
  rewrite maximum_sibling_count_eq by (exact K || apply H1). eexists. split; [reflexivity|]. lia.
Qed.

(** ** The maximum under a segment cap *)

Lemma Zsum_le {A} (f g : A -> Z) l : (forall x, x ∈ l -> f x <= g x) -> Zsum (f <$> l) <= Zsum (g <$> l).
Proof.
  induction l as [|x l IH]; intros H; [reflexivity|]. rewrite !fmap_cons, !Zsum_cons.
  pose proof (H x ltac:(left)). pose proof (IH ltac:(intros y Hy; apply H; now right)). lia.
Qed.

Lemma Zsum_const {A} (l : list A) c : Zsum ((fun _ => c) <$> l) = Z.of_nat (length l) * c.
Proof. induction l as [|x l IH]; [reflexivity|]. rewrite fmap_cons, Zsum_cons, IH. cbn [length]. lia. Qed.

(** Elements of [idx] in a group. *)
Definition group (h : Z -> Z) (idx : list Z) (g : Z) : list Z := filter (fun i => h i = g) idx.

Lemma group_sum (h : Z -> Z) segs idx :
  NoDup segs -> (forall i, i ∈ idx -> h i ∈ segs) ->
  Zsum ((fun g => Z.of_nat (length (group h idx g))) <$> segs) = Z.of_nat (length idx).
Proof.
  intros Hn. induction idx as [|x idx IH]; intros Hc.
  - transitivity (Zsum ((fun _ : Z => 0) <$> segs)); [reflexivity|]. rewrite Zsum_const. cbn. lia.
  - assert (Hx : forall segs, NoDup segs ->
      Zsum ((fun g => Z.of_nat (length (group h (x :: idx) g))) <$> segs)
      = Zsum ((fun g => Z.of_nat (length (group h idx g))) <$> segs) + (if decide (h x ∈ segs) then 1 else 0)).
    { clear. intros segs. induction segs as [|g segs IH]; intros Hn; [reflexivity|].
      apply NoDup_cons in Hn as [Hg Hn]. rewrite !fmap_cons, !Zsum_cons, (IH Hn).
      unfold group at 1. rewrite filter_cons. fold (group h idx g).
      destruct (decide (h x = g)) as [<-|Hne]; cbn [length].
      - rewrite decide_False by exact Hg. rewrite decide_True by now left. lia.
      - destruct (decide (h x ∈ segs)) as [Hi|Hi]; [rewrite decide_True by (now right); lia|].
        rewrite decide_False by (intros [?|?]%elem_of_cons; congruence). lia. }
    rewrite Hx, IH by (assumption || (intros i Hi; apply Hc; now right)).
    rewrite decide_True by (apply Hc; now left). cbn [length]. lia.
Qed.

(** Spreading [n] over [u] groups evenly maximises the truncated sum. *)
Lemma balanced_max {A} (cnt : A -> Z) segs n u q r C :
  Zsum (cnt <$> segs) = n -> Z.of_nat (length segs) = u -> n = u * q + r -> 0 <= r < u ->
  Zsum ((fun g => Z.min (cnt g) C) <$> segs) <= r * Z.min (q + 1) C + (u - r) * Z.min q C.
Proof.
  intros Hs Hu Hn Hr. destruct (Z_le_gt_dec C q) as [Hc|Hc].
  - rewrite !Z.min_r by lia. transitivity (Zsum ((fun _ : A => C) <$> segs)); [apply Zsum_le; intros; lia|].
    rewrite Zsum_const, Hu. lia.
  - rewrite !Z.min_l by lia. transitivity (Zsum (cnt <$> segs)); [apply Zsum_le; intros; lia|]. lia.
Qed.

Section Segments.
Context (idx : list Z) (depth log_segment_size : nat) (e : expr) (ps : list FrontierSiblingPosition).
Hypothesis Hfr : frontier_of idx depth e ps.
Hypothesis Hseg : (log_segment_size <= depth)%nat.

Definition segment_of (i : Z) : Z := i / 2 ^ Z.of_nat log_segment_size.
Definition segments : list Z := elements (level_set idx log_segment_size).
Definition segment_count : Z := Z.of_nat (level_count idx log_segment_size).

Lemma segments_length : Z.of_nat (length segments) = segment_count.
Proof. reflexivity. Qed.

Lemma segments_sum : Zsum ((fun g => Z.of_nat (length (group segment_of idx g))) <$> segments) = Z.of_nat (length idx).
Proof.
  apply group_sum; [apply NoDup_elements|]. intros i Hi. unfold segments.
  apply elem_of_elements, level_set_touched. exists i. now split.
Qed.

(** The part of a level below one segment. *)
Definition segment_level (l : nat) (g : Z) : gset Z := level_set (group segment_of idx g) l.

Lemma segment_position l g i : (l <= log_segment_size)%nat -> segment_of i = g ->
  i / 2 ^ Z.of_nat l ∈ seqZ (g * 2 ^ Z.of_nat (log_segment_size - l)) (2 ^ Z.of_nat (log_segment_size - l)).
Proof.
  intros Hl <-. apply elem_of_seqZ. unfold segment_of.
  replace (2 ^ Z.of_nat log_segment_size) with (2 ^ Z.of_nat l * 2 ^ Z.of_nat (log_segment_size - l))
    by (rewrite <- Z.pow_add_r by lia; f_equal; lia).
  pose proof (pow2_gt0 l). pose proof (pow2_gt0 (log_segment_size - l)).
  rewrite <- Z.div_div by lia. generalize (i / 2 ^ Z.of_nat l). intros p.
  pose proof (Z.div_mod p (2 ^ Z.of_nat (log_segment_size - l)) ltac:(lia)).
  pose proof (Z.mod_pos_bound p (2 ^ Z.of_nat (log_segment_size - l)) ltac:(lia)). lia.
Qed.

Lemma segment_level_size l g : (l <= log_segment_size)%nat ->
  Z.of_nat (size (segment_level l g))
  <= Z.min (Z.of_nat (length (group segment_of idx g))) (2 ^ Z.of_nat (log_segment_size - l)).
Proof.
  intros Hl. apply Z.min_glb.
  - pose proof (size_cover ((fun i => i / 2 ^ Z.of_nat l) <$> group segment_of idx g) (segment_level l g) (fun x Hx => Hx)) as H.
    rewrite length_fmap in H. lia.
  - pose proof (size_cover (seqZ (g * 2 ^ Z.of_nat (log_segment_size - l)) (2 ^ Z.of_nat (log_segment_size - l)))
      (segment_level l g)) as H. rewrite length_seqZ in H. pose proof (pow2_gt0 (log_segment_size - l)).
    enough (Hs : segment_level l g ⊆ list_to_set (seqZ (g * 2 ^ Z.of_nat (log_segment_size - l)) (2 ^ Z.of_nat (log_segment_size - l))))
      by (specialize (H Hs); lia).
    intros p Hp. apply level_set_touched in Hp as (i & Hi & ->). apply list_elem_of_filter in Hi as [Hi _].
    now apply elem_of_list_to_set, segment_position.
Qed.

Lemma local_level_count l : (l <= log_segment_size)%nat ->
  Z.of_nat (level_count idx l)
  <= Zsum ((fun g => Z.min (Z.of_nat (length (group segment_of idx g))) (2 ^ Z.of_nat (log_segment_size - l))) <$> segments).
Proof.
  intros Hl. transitivity (Zsum ((fun g => Z.of_nat (size (segment_level l g))) <$> segments)).
  - transitivity (Z.of_nat (length (segments ≫= fun g => elements (segment_level l g)))).
    + apply Nat2Z.inj_le. apply size_cover. intros p Hp. apply level_set_touched in Hp as (i & Hi & ->).
      apply elem_of_list_to_set, list_elem_of_bind. exists (segment_of i). split.
      * apply elem_of_elements, level_set_touched. exists i. split; [|reflexivity]. now apply list_elem_of_filter.
      * apply elem_of_elements, level_set_touched. now exists i.
    + apply Z.eq_le_incl. induction segments as [|g segs IH]; [reflexivity|].
      rewrite bind_cons, length_app, fmap_cons, Zsum_cons, Nat2Z.inj_add, IH. reflexivity.
  - apply Zsum_le. intros g _. now apply segment_level_size.
Qed.

Lemma upper_level_count l : (log_segment_size <= l <= depth)%nat ->
  Z.of_nat (level_count idx l) <= Z.min segment_count (2 ^ Z.of_nat (depth - l)).
Proof.
  intros Hl. pose proof (level_count_bounds idx depth e ps Hfr l ltac:(lia)). apply Z.min_glb; [|lia].
  pose proof (size_cover ((fun p => p / 2 ^ Z.of_nat (l - log_segment_size)) <$> segments) (level_set idx l)) as Hs.
  rewrite length_fmap in Hs. pose proof segments_length. unfold segment_count in *.
  enough (level_set idx l ⊆ list_to_set ((fun p => p / 2 ^ Z.of_nat (l - log_segment_size)) <$> segments)) as Hx
    by (specialize (Hs Hx); unfold level_count in *; lia).
  intros p Hp. apply level_set_touched in Hp as (i & Hi & ->). apply elem_of_list_to_set, list_elem_of_fmap.
  exists (segment_of i). split.
  - unfold segment_of. pose proof (pow2_gt0 log_segment_size). pose proof (pow2_gt0 (l - log_segment_size)).
    rewrite Z.div_div, <- Z.pow_add_r by lia. do 2 f_equal. lia.
  - apply elem_of_elements, level_set_touched. now exists i.
Qed.

Lemma segment_count_pos : 1 <= segment_count <= Z.of_nat (length idx).
Proof.
  pose proof (level_count_bounds idx depth e ps Hfr log_segment_size Hseg). unfold segment_count.
  destruct (level_count idx log_segment_size) eqn:E; [exfalso|lia].
  pose proof Hfr as (H1 & _). pose proof (ok_nonempty _ _ H1). destruct idx as [|i l]; [congruence|].
  apply size_empty_inv in E. apply (not_elem_of_empty (C := gset Z) (segment_of i)). apply E, level_set_touched.
  exists i. split; [left|reflexivity].
Qed.

Lemma segment_capacity_bound : Z.of_nat (length idx) <= segment_count * 2 ^ Z.of_nat log_segment_size.
Proof.
  rewrite <- segments_sum, <- segments_length, <- Zsum_const. apply Zsum_le. intros g _.
  pose proof (segment_level_size 0 g ltac:(lia)) as H. rewrite Nat.sub_0_r in H.
  enough (size (segment_level 0 g) = length (group segment_of idx g)) by lia.
  unfold segment_level, level_set. change (2 ^ Z.of_nat 0) with 1.
  rewrite (list_fmap_ext _ id) by (intros; apply Z.div_1_r).
  rewrite list_fmap_id, size_list_to_set; [reflexivity|]. apply NoDup_filter. now apply (fr_nodup idx depth e ps).
Qed.

Lemma local_sum m a : (a + m = log_segment_size)%nat ->
  let n := Z.of_nat (length idx) in
  let u := segment_count in
  Z.of_nat (sum_list_with (level_count idx) (seq (S a) m))
  <= n mod u * spread_sum m (n / u + 1) + (u - n mod u) * spread_sum m (n / u).
Proof.
  intros Ha n u. revert a Ha. induction m as [|m IH]; intros a Ha; cbn [seq sum_list_with spread_sum]; [lia|].
  specialize (IH (S a) ltac:(lia)). pose proof (local_level_count (S a) ltac:(lia)) as Hl.
  replace (log_segment_size - S a)%nat with m in Hl by lia. pose proof segment_count_pos.
  pose proof (Z.mod_pos_bound n u ltac:(lia)).
  pose proof (balanced_max (fun g => Z.of_nat (length (group segment_of idx g))) segments n u (n / u) (n mod u)
    (2 ^ Z.of_nat m) segments_sum segments_length (Z.div_mod n u ltac:(lia)) ltac:(lia)) as Hb. cbn beta in Hb. lia.
Qed.

Lemma upper_sum m a : (log_segment_size <= a)%nat -> (a + m = depth)%nat ->
  Z.of_nat (sum_list_with (level_count idx) (seq (S a) m)) <= spread_sum m segment_count.
Proof.
  revert a. induction m as [|m IH]; intros a Hs Ha; cbn [seq sum_list_with spread_sum]; [lia|].
  specialize (IH (S a) ltac:(lia) ltac:(lia)). pose proof (upper_level_count (S a) ltac:(lia)) as Hb.
  replace (depth - S a)%nat with m in Hb by lia. lia.
Qed.

(** The frontier of the touched set itself, spread evenly. *)
Lemma segment_frontier_bound :
  let n := Z.of_nat (length idx) in
  let u := segment_count in
  Z.of_nat (length ps) + n
  <= n mod u * spread_sum log_segment_size (n / u + 1) + (u - n mod u) * spread_sum log_segment_size (n / u)
     + spread_sum (depth - log_segment_size) u + 1.
Proof.
  cbn zeta. pose proof (frontier_length idx depth e ps Hfr) as H.
  replace (seq 1 depth) with (seq 1 log_segment_size ++ seq (S log_segment_size) (depth - log_segment_size)) in H
    by (change (S log_segment_size) with (1 + log_segment_size)%nat; rewrite <- seq_app; f_equal; lia).
  rewrite sum_list_with_app in H. pose proof (local_sum log_segment_size 0 ltac:(lia)) as Hl. cbn zeta in Hl.
  pose proof (upper_sum (depth - log_segment_size) log_segment_size ltac:(lia) ltac:(lia)). lia.
Qed.
End Segments.

Lemma balanced_total_some n s t used :
  (s <= 32)%nat -> (t <= 32)%nat -> 1 <= used <= n -> used <= 2 ^ Z.of_nat t ->
  is_Some (balanced_total n (2 ^ Z.of_nat s) used s t).
Proof.
  intros Hs Ht Hu Hd. unfold balanced_total. cbn zeta. case_test; [|eauto]. boolify.
  assert (1 <= n / used) by (apply Z.div_le_lower_bound; lia).
  rewrite (maximum_sibling_count_eq (n / used) s) by (exact Hs || lia). cbn [mbind option_bind].
  destruct (Z.eqb_spec (n mod used) 0); cbn [orb mbind option_bind] in *.
  - rewrite (maximum_sibling_count_eq used t) by (exact Ht || lia). cbn. eauto.
  - boolify. rewrite (maximum_sibling_count_eq (n / used + 1) s) by (exact Hs || lia). cbn [mbind option_bind].
    rewrite (maximum_sibling_count_eq used t) by (exact Ht || lia). cbn. eauto.
Qed.

Lemma balanced_total_eq n s t u :
  (s <= 32)%nat -> (t <= 32)%nat -> 1 <= u <= n -> u <= 2 ^ Z.of_nat t -> n <= u * 2 ^ Z.of_nat s ->
  balanced_total n (2 ^ Z.of_nat s) u s t
  = Some (n mod u * spread_sum s (n / u + 1) + (u - n mod u) * spread_sum s (n / u) + spread_sum t u + 1 - n).
Proof.
  intros Hs Ht Hu Hd Hn. pose proof (Z.div_mod n u ltac:(lia)). pose proof (Z.mod_pos_bound n u ltac:(lia)).
  assert (1 <= n / u) by (apply Z.div_le_lower_bound; lia). assert (n / u <= 2 ^ Z.of_nat s) by nia.
  unfold balanced_total. cbn zeta. destruct (Z.leb_spec (n / u) (2 ^ Z.of_nat s)); [|lia].
  rewrite (maximum_sibling_count_eq (n / u) s) by (exact Hs || lia).
  destruct (Z.eqb_spec (n mod u) 0) as [E|E]; cbn [orb andb mbind option_bind].
  - rewrite (maximum_sibling_count_eq u t) by (exact Ht || lia). cbn [mbind option_bind]. f_equal. rewrite E in *. nia.
  - assert (n / u + 1 <= 2 ^ Z.of_nat s) by nia.
    destruct (Z.leb_spec (n / u + 1) (2 ^ Z.of_nat s)); [|lia].
    rewrite (maximum_sibling_count_eq (n / u + 1) s) by (exact Hs || lia). cbn [mbind option_bind].
    rewrite (maximum_sibling_count_eq u t) by (exact Ht || lia). cbn [mbind option_bind]. f_equal. nia.
Qed.

Lemma fold_max (F : Z -> option Z) l m :
  (forall x, x ∈ l -> is_Some (F x)) ->
  exists N, fold_option (fun maximum x => total ← F x; Some (if maximum <? total then total else maximum)) m l = Some N
    /\ m <= N /\ forall x t, x ∈ l -> F x = Some t -> t <= N.
Proof.
  revert m. induction l as [|x l IH]; intros m H; cbn [fold_option].
  - exists m. split; [reflexivity|]. split; [lia|]. intros x t Hx. inversion Hx.
  - destruct (H x ltac:(left)) as [t Et]. rewrite Et. cbn [mbind option_bind].
    destruct (IH (if m <? t then t else m)) as (N & E & H1 & H2); [intros y Hy; apply H; now right|].
    exists N. split; [exact E|]. destruct (Z.ltb_spec m t); (split; [lia|]); intros y u [->|Hy]%elem_of_cons Eu;
      try (rewrite Et in Eu; injection Eu as <-; lia); eauto.
Qed.

Lemma frontier_segment_maximum idx depth s e ps max_segments :
  frontier_of idx depth e ps -> (s <= depth)%nat -> segment_count idx s <= max_segments ->
  exists N, maximum_sibling_count_with_segment_cap (Z.of_nat (length idx)) depth s max_segments = Some N
    /\ Z.of_nat (length ps) <= N.
Proof.
  intros Hfr Hs Hm. pose proof Hfr as (H1 & _). pose proof (ok_depth _ _ H1) as Hd.
  pose proof (segment_count_pos idx depth s e ps Hfr Hs) as Hp.
  pose proof (segment_capacity_bound idx depth s e ps Hfr) as Hc.
  pose proof (segment_frontier_bound idx depth s e ps Hfr Hs) as Hb. cbn zeta in Hb.
  pose proof (level_count_bounds idx depth e ps Hfr s Hs) as Hl. fold (segment_count idx s) in Hl.
  set (n := Z.of_nat (length idx)) in *. set (u := segment_count idx s) in *.
  pose proof (pow2_gt0 s). unfold maximum_sibling_count_with_segment_cap.
  destruct (Nat.leb_spec depth 32); [|lia]. destruct (Nat.leb_spec s depth); [|lia]. cbn [negb orb].
  destruct (Z.eqb_spec n 0); [lia|]. destruct (Z.ltb_spec 0 max_segments); [|lia]. cbn [negb]. cbn zeta.
  set (capped := if max_segments <? 2 ^ Z.of_nat (depth - s) then max_segments else 2 ^ Z.of_nat (depth - s)).
  assert (Hcap : u <= capped <= 2 ^ Z.of_nat (depth - s)) by (unfold capped; destruct (Z.ltb_spec max_segments (2 ^ Z.of_nat (depth - s))); lia).
  clearbody capped. destruct (Z.leb_spec n (2 ^ Z.of_nat s * capped)); [|nia]. cbn [negb].
  set (maxu := if n <? capped then n else capped).
  assert (Hmu : u <= maxu /\ maxu <= n /\ maxu <= capped) by (unfold maxu; destruct (Z.ltb_spec n capped); lia). clearbody maxu.
  destruct (fold_max (fun used => balanced_total n (2 ^ Z.of_nat s) used s (depth - s)) (seqZ 1 maxu) 0) as (N & E & _ & HN).
  { intros x Hx%elem_of_seqZ. apply balanced_total_some; lia. }
  exists N. split; [exact E|].
  enough (n mod u * spread_sum s (n / u + 1) + (u - n mod u) * spread_sum s (n / u) + spread_sum (depth - s) u + 1 - n <= N) by lia.
  apply (HN u); [apply elem_of_seqZ; lia|]. apply balanced_total_eq; lia.
Qed.

(** ** Multiproofs as a whole *)

Lemma validate_cases idx depth : Forall (fun i => 0 <= i) idx ->
  (exists e ps, frontier_of idx depth e ps) \/ (exists err, validate_indices idx depth = Err err).
Proof.
  intros H0. destruct (validate_indices idx depth) as [s|err] eqn:E; [left|right; eauto].
  apply validate_indices_ok in E as [H _]. now apply frontier_exists.
Qed.

Lemma frontier_unique idx depth e ps e' ps' :
  frontier_of idx depth e ps -> frontier_of idx depth e' ps' -> e = e' /\ ps = ps'.
Proof.
  intros (_ & _ & E & _) (_ & _ & E' & _). rewrite E in E'. apply (inj Some), pair_equal_spec in E' as [E1 E2].
  split; [|exact E2]. apply (f_equal (lookup (0 : Z))) in E1. rewrite !lookup_singleton_eq in E1. congruence.
Qed.

Lemma plan_shape idx depth e ps : frontier_of idx depth e ps ->
  exists plan, derive_structural_frontier_plan idx depth = Return plan
    /\ touched_leaf_count plan = length idx /\ frontier_positions plan = ps.
Proof.
  intros Hfr. destruct (plan_eval idx depth e ps Hfr (fun _ _ : unit => tt) (replicate (length idx) tt)
    (replicate (length ps) tt)) as (plan & v & hs & E & Ep & _); [apply length_replicate..|].
  exists plan. split; [exact E|]. split; [|exact Ep]. unfold derive_structural_frontier_plan in E.
  destruct (validate_indices idx depth) as [s|]; cbn [lift mbind exec_bind] in E; [|discriminate E].
  destruct (walk plan_walk _ _ _) as [st|]; cbn [expect mbind exec_bind] in E; [|discriminate E].
  match type of E with context [lift ?r] => destruct r end; cbn [lift mbind exec_bind] in E; [|discriminate E].
  now injection E as <-.
Qed.

Section Multiproof.
Context {D : Type} `{!EqDecision D} (node : D -> D -> D).

(** [reconstruct_root] returns or reports an error; it never panics. *)
Lemma reconstruct_cases idx (leaves siblings : list D) depth : Forall (fun i => 0 <= i) idx ->
  (exists e ps v, frontier_of idx depth e ps /\ length leaves = length idx /\ length siblings = length ps
     /\ eval node leaves siblings e = Some v /\ reconstruct_root node idx leaves siblings depth = Return v)
  \/ (exists err, reconstruct_root node idx leaves siblings depth = Fail err).
Proof.
  intros H0. destruct (Nat.eqb_spec (length idx) (length leaves)) as [Hl|Hl].
  2: { right. unfold reconstruct_root, check_multiproof. destruct (Nat.eqb_spec (length idx) (length leaves)); [congruence|].
       cbn. eauto. }
  destruct (validate_cases idx depth H0) as [(e & ps & Hfr)|[err Herr]].
  2: { right. exists err. unfold reconstruct_root, check_multiproof, expected_sibling_count.
       rewrite Hl, Nat.eqb_refl, Herr. reflexivity. }
  destruct (Nat.eqb_spec (length siblings) (length ps)) as [Hs|Hs].
  - left. destruct (reconstruct_eval idx depth e ps Hfr node leaves siblings (eq_sym Hl) Hs) as (v & Ev & Er).
    exists e, ps, v. auto.
  - right. unfold reconstruct_root, check_multiproof. rewrite Hl, Nat.eqb_refl, (count_frontier idx depth e ps Hfr).
    cbn [ensure lift mbind exec_bind]. destruct (Nat.eqb_spec (length siblings) (length ps)); [contradiction|]. cbn. eauto.
Qed.

(** A plan evaluates to the root the level-by-level verifier reconstructs, and
    refuses what it refuses. *)
Lemma plan_reconstructs idx depth : Forall (fun i => 0 <= i) idx ->
  (exists plan, derive_structural_frontier_plan idx depth = Return plan /\ forall leaves siblings : list D,
     (exists v hs, reconstruct_root node idx leaves siblings depth = Return v
        /\ evaluate_structural_frontier node plan leaves siblings = Return (v, hs))
     \/ (exists e e', reconstruct_root node idx leaves siblings depth = Fail e
        /\ evaluate_structural_frontier node plan leaves siblings = Fail e'))
  \/ (exists err, derive_structural_frontier_plan idx depth = Fail err /\ forall leaves siblings : list D,
        exists e, reconstruct_root node idx leaves siblings depth = Fail e).
Proof.
  intros H0. destruct (validate_cases idx depth H0) as [(e & ps & Hfr)|[err Herr]].
  - left. destruct (plan_shape idx depth e ps Hfr) as (plan & E & E1 & E2). exists plan. split; [exact E|].
    intros leaves siblings. destruct (reconstruct_cases idx leaves siblings depth H0) as [(e' & ps' & v & Hfr' & Hl & Hs & Ev & Er)|[e' Er]].
    + left. destruct (frontier_unique _ _ _ _ _ _ Hfr Hfr') as [<- <-].
      destruct (plan_eval idx depth e ps Hfr node leaves siblings Hl Hs) as (plan' & v' & hs & E' & _ & Ev' & Eh).
      rewrite E in E'. injection E' as <-. rewrite Ev in Ev'. injection Ev' as <-. eauto.
    + right. exists e'. unfold evaluate_structural_frontier. rewrite E1, E2.
      destruct (Nat.eqb_spec (length leaves) (length idx)) as [Hl|]; cbn [ensure lift mbind exec_bind]; [|eauto].
      destruct (Nat.eqb_spec (length siblings) (length ps)) as [Hs|]; cbn [ensure lift mbind exec_bind]; [|eauto].
      exfalso. destruct (reconstruct_eval idx depth e ps Hfr node leaves siblings Hl Hs) as (v & _ & Er'). congruence.
  - right. exists err. unfold derive_structural_frontier_plan. rewrite Herr. split; [reflexivity|].
    intros leaves siblings. destruct (reconstruct_cases idx leaves siblings depth H0) as [(e & ps & _ & Hfr & _)|?]; [|assumption].
    destruct Hfr as (Hok & _). rewrite (proj2 (validate_indices_ok idx depth _) (conj Hok eq_refl)) in Herr. discriminate Herr.
Qed.

(** The pairs of hashes compared when a proof reaches the root of [f]. *)
Definition proof_candidates (f : Z -> D) (idx : list Z) (leaves siblings : list D) (depth : nat)
  : list ((D * D) * (D * D)) :=
  match symbolic_root idx depth with
  | Some (e, _) => candidates node f leaves siblings depth 0 e
  | None => []
  end.

Lemma symbolic_root_of idx depth e ps : frontier_of idx depth e ps -> symbolic_root idx depth = Some (e, ps).
Proof.
  intros (_ & _ & E & _). unfold symbolic_root. rewrite E. cbn [mbind option_bind fst snd].
  rewrite lookup_singleton_eq. reflexivity.
Qed.

Lemma index_root idx depth i : indices_ok idx depth -> Forall (fun i => 0 <= i) idx -> i ∈ idx -> i / 2 ^ Z.of_nat depth = 0.
Proof.
  intros [_ _ _ Hb] H0 Hi. rewrite Forall_forall in Hb, H0. apply Z.div_small. auto.
Qed.

Lemma multiproof_sound (f : Z -> D) idx old siblings depth : Forall (fun i => 0 <= i) idx ->
  reconstruct_root node idx old siblings depth = Return (tree node f depth 0) ->
  ((forall j i, idx !! j = Some i -> old !! j = Some (f i))
   /\ forall (f' : Z -> D) new, (forall i, i ∉ idx -> f' i = f i) ->
        length new = length idx -> (forall j i, idx !! j = Some i -> new !! j = Some (f' i)) ->
        reconstruct_root node idx new siblings depth = Return (tree node f' depth 0))
  \/ Exists (collision node) (proof_candidates f idx old siblings depth).
Proof.
  intros H0 Hr. destruct (reconstruct_cases idx old siblings depth H0) as [(e & ps & v & Hfr & Hl & Hs & Ev & Er)|[err Er]];
    [|congruence].
  rewrite Hr in Er. injection Er as <-. pose proof Hfr as (Hok & _ & _ & Hsh & Hu).
  unfold proof_candidates. rewrite (symbolic_root_of idx depth e ps Hfr).
  destruct (eval_sound idx ps node f old siblings depth 0 e Hsh Ev) as [Hm|Hc]; [left|now right]. split.
  - intros j i Ei. apply (matches_leaf idx depth e ps Hfr node f old siblings depth 0 e j i Hu Hsh Hm Ei).
    apply (index_root idx); [assumption..|]. now apply list_elem_of_lookup_2 with j.
  - intros f' new Hf Hn Hnew. destruct (reconstruct_eval idx depth e ps Hfr node new siblings Hn Hs) as (v & Ev' & Er').
    rewrite Er'. f_equal. apply (inj Some). rewrite <- Ev'. apply matches_eval.
    exact (matches_update idx ps node f f' old new siblings depth 0 e Hu Hsh Hf Hnew Hm).
Qed.

Lemma multiproof_complete (empty_leaf : D) (c : SparseMerkleCache (D := D)) (f : Z -> D) idx :
  cache_ok node empty_leaf c f -> indices_ok idx (cache_depth c) -> Forall (fun i => 0 <= i) idx ->
  exists siblings, build_multiproof empty_leaf c idx (cache_depth c) = Return siblings
    /\ expected_sibling_count idx (cache_depth c) = Return (length siblings)
    /\ reconstruct_root node idx (f <$> idx) siblings (cache_depth c) = Return (cache_root empty_leaf c).
Proof.
  intros Hc Hok H0. destruct (frontier_exists idx (cache_depth c) Hok H0) as (e & ps & Hfr).
  unfold build_multiproof. rewrite Nat.eqb_refl, (positions_frontier idx _ e ps Hfr). cbn [ensure lift mbind exec_bind].
  eexists. split; [reflexivity|].
  set (siblings := map _ ps). assert (Hs : length siblings = length ps) by apply length_map.
  split; [now rewrite Hs; apply (count_frontier idx _ e)|].
  destruct (reconstruct_eval idx _ e ps Hfr node (f <$> idx) siblings ltac:(apply length_fmap) Hs) as (v & Ev & Er).
  rewrite Er. f_equal. apply (inj Some). rewrite <- Ev. unfold cache_root. rewrite (co_nodes _ _ _ _ Hc) by lia.
  apply matches_eval. pose proof Hfr as (_ & _ & _ & Hsh & Hu).
  apply (matches_honest idx (cache_depth c) ps node f _ siblings _ 0 e Hsh ltac:(lia)).
  - intros j i Ei. now rewrite list_lookup_fmap, Ei.
  - intros k l p Ek Hl.
    rewrite <- (co_nodes _ _ _ _ Hc) by lia. pose (g (p : FrontierSiblingPosition) := node_hash empty_leaf c p.1 p.2).
    exact (eq_trans (list_lookup_fmap g ps k) (f_equal (option_map g) Ek)).
Qed.

End Multiproof.

(** Padding is canonical: a padded frontier and its rows determine each other. *)
Section Padding.
Context {D : Type} `{!EqDecision D}.

Lemma first_not_pad_none (PAD : D) rows k :
  first_not_pad PAD rows k = None <-> rows = replicate (length rows) PAD.
Proof.
  revert k. induction rows as [|d rows IH]; intros k; cbn [first_not_pad length replicate]; [tauto|].
  destruct (decide (d = PAD)) as [->|Hd].
  - rewrite IH. split; [now intros <-|now intros [= E]].
  - split; [discriminate|congruence].
Qed.

Lemma padding_roundtrip (PAD : D) idx (rows siblings : list D) depth capacity : Forall (fun i => 0 <= i) idx ->
  pad_frontier_siblings PAD idx siblings depth capacity = Return rows
  <-> unpad_frontier_siblings PAD idx rows depth capacity = Return siblings.
Proof.
  intros H0. unfold pad_frontier_siblings, unpad_frontier_siblings.
  destruct (validate_cases idx depth H0) as [(e & ps & Hfr)|[err Herr]].
  2: { unfold expected_sibling_count. rewrite Herr. cbn [lift mbind exec_bind]. split; [discriminate|].
       destruct (length rows =? capacity)%nat; cbn; discriminate. }
  rewrite (count_frontier idx depth e ps Hfr). set (n := length ps). clearbody n. cbn [mbind exec_bind]. split.
  - destruct (Nat.eqb_spec (length siblings) n) as [Hn|]; cbn [ensure lift mbind exec_bind]; [|discriminate].
    destruct (Nat.leb_spec n capacity) as [Hc|]; cbn [ensure lift mbind exec_bind]; [|discriminate].
    intros [= <-]. rewrite length_app, length_replicate.
    replace (length siblings + (capacity - length siblings))%nat with capacity by lia. rewrite Nat.eqb_refl.
    cbn [ensure lift mbind exec_bind]. rewrite <- Hn, drop_app_length, take_app_length.
    now rewrite (proj2 (first_not_pad_none PAD _ 0)) by (now rewrite length_replicate).
  - destruct (Nat.eqb_spec (length rows) capacity) as [Hr|]; cbn [ensure lift mbind exec_bind]; [|discriminate].
    destruct (Nat.leb_spec n capacity) as [Hc|]; cbn [ensure lift mbind exec_bind]; [|discriminate].
    destruct (first_not_pad PAD (drop n rows) 0) eqn:E; [discriminate|]. intros [= <-].
    apply first_not_pad_none in E. rewrite length_drop in E. rewrite length_take, Nat.min_l by lia. rewrite Nat.eqb_refl.
    cbn [ensure lift mbind exec_bind]. unfold mret, exec_ret. f_equal. rewrite <- Hr, <- E. apply take_drop.
Qed.
End Padding.
