(* ===== verification/StateTree.v ===== *)
(** * The exact state tree ([noid_chain/src/exact_state_hash.rs],
    [noid_chain/src/fri_state.rs])

    Slots, their leaf hash and the node hash of the state tree; the sparse
    Merkle trees of [SparseMerkle] at these hashes.  The state root of a slot
    function is the root of the full binary tree over the leaf hashes of all
    [2 ^ depth] slots; the sparse cache, the multiproofs and the plans of the
    source are related to it. *)

From Stdlib Require Import ZArith Lia Bool Sorted.
From stdpp Require Import base numbers list option gmap.
From S2P Require Import Prelude Codec Tx Poseidon Sponge Merkle SparseMerkle Header.
Open Scope Z_scope.

(** ** Slots *)

(** [LOG_SEGMENT_SIZE] *)
Definition SEGMENT_LOG : nat := 16.

Record SlotValue := mkSlot { value : Z; owner_hi : Z; owner_lo : Z }.

#[export] Instance SlotValue_eq_dec : EqDecision SlotValue.
Proof. solve_decision. Defined.

Definition EMPTY : SlotValue := mkSlot 0 0 0.

Definition is_empty (s : SlotValue) : bool := bool_decide (s = EMPTY).

Definition from_parts (amount creation_id owner_hi owner_lo : Z) : SlotValue :=
  mkSlot (pack_amount_creation_id amount creation_id) owner_hi owner_lo.

Definition amount (s : SlotValue) : Z := (unpack_amount_creation_id (value s)).1.

Definition creation_id (s : SlotValue) : Z := (unpack_amount_creation_id (value s)).2.

(** ** Hashes *)

Definition StateHash : Type := list Z.

Definition slot_leaf_hash (slot : SlotValue) : StateHash :=
  let s := with_iv (capacity_iv TAG_EXSTSLT) in
  let s := absorb permute_mut s (value slot) in
  let s := absorb_pair permute_mut s (owner_hi slot) (owner_lo slot) in
  Poseidon2bSponge_finalize s.

Definition state_node_hash (l r : StateHash) : StateHash := compress_with_tag TAG_EXSTNOD l r.

Definition exact_zero_slot_roots (max_depth : nat) : list StateHash :=
  zero_slot_roots state_node_hash (slot_leaf_hash EMPTY) max_depth.

Definition STRUCTURAL_FRONTIER_PAD : StateHash := replicate 32 0.

(** ** Slots and lanes *)

(** A slot of three 128-bit lanes. *)
Record slot_ok (s : SlotValue) : Prop := {
  sl_value : u128 (value s);
  sl_hi : u128 (owner_hi s);
  sl_lo : u128 (owner_lo s)
}.

Lemma parts_of a c hi lo : u64 a -> u64 c ->
  amount (from_parts a c hi lo) = a /\ creation_id (from_parts a c hi lo) = c.
Proof.
  intros Ha Hc. unfold amount, creation_id, from_parts, unpack_amount_creation_id. cbn [value fst snd].
  rewrite pack_arith by (assumption || apply Hc). unfold in_range in *.
  rewrite Z.shiftr_div_pow2 by lia. split.
  - rewrite Z.add_comm, Z_mod_plus_full. now apply Z.mod_small.
  - rewrite Z.div_add_l, (Z.div_small a) by lia. rewrite Z.add_0_r. now apply Z.mod_small.
Qed.

Lemma slot_parts s : slot_ok s ->
  u64 (amount s) /\ u64 (creation_id s) /\ s = from_parts (amount s) (creation_id s) (owner_hi s) (owner_lo s).
Proof.
  intros [Hv _ _]. destruct s as [v hi lo]. cbn [value owner_hi owner_lo] in *. unfold from_parts, amount, creation_id, unpack_amount_creation_id.
  cbn [value fst snd]. rewrite Z.shiftr_div_pow2 by lia. unfold in_range in Hv |- *.
  assert (v / 2 ^ 64 < 2 ^ 64) by (apply Z.div_lt_upper_bound; lia).
  pose proof (Z.div_pos v (2 ^ 64) ltac:(lia) ltac:(lia)). pose proof (Z.mod_pos_bound v (2 ^ 64) ltac:(lia)).
  rewrite (Z.mod_small (v / 2 ^ 64)) by lia. split; [lia|]. split; [lia|]. f_equal.
  rewrite pack_arith by (unfold in_range; lia). pose proof (Z.div_mod v (2 ^ 64) ltac:(lia)). lia.
Qed.

Definition slot_stream (s : SlotValue) : list Z := lane (value s) ++ lane (owner_hi s) ++ lane (owner_lo s).

Lemma absorb_pair_update s x y : absorb_pair permute_mut s x y = update permute_mut s (lane x ++ lane y).
Proof. reflexivity. Qed.

Lemma slot_leaf_stream s : slot_leaf_hash s = sponge_spec permute_mut (capacity_iv TAG_EXSTSLT) (slot_stream s).
Proof.
  unfold slot_leaf_hash. cbn zeta. rewrite absorb_update, absorb_pair_update, finalize_unfold.
  pose proof (updates_hash permute_mut (capacity_iv TAG_EXSTSLT)
    [lane (value s); lane (owner_hi s) ++ lane (owner_lo s)]) as E.
  rewrite !foldl_step, foldl_done in E. cbn [concat] in E. rewrite app_nil_r in E. unfold slot_stream. exact E.
Qed.

Lemma slot_stream_inj s t : slot_ok s -> slot_ok t -> slot_stream s = slot_stream t -> s = t.
Proof.
  intros [H1 H2 H3] [T1 T2 T3] E. unfold slot_stream in E.
  apply app_inj_1 in E as [E1 E]; [|now rewrite !lane_length].
  apply app_inj_1 in E as [E2 E3]; [|now rewrite !lane_length].
  apply lane_bytes_inj in E1, E2, E3; [|assumption..]. destruct s, t; cbn in *; congruence.
Qed.

Lemma slot_stream_ok s : bytes_ok (slot_stream s).
Proof. unfold slot_stream, lane. repeat apply Forall_app_2; apply to_le_bytes_array. Qed.

(** Equal leaf hashes are equal slots, or a traced collision of the sponge. *)
Definition leaf_collision (s t : SlotValue) : Prop :=
  collision_trace (capacity_iv TAG_EXSTSLT) (slot_stream s) (slot_stream t).

Lemma slot_leaf_binds s t : slot_ok s -> slot_ok t -> slot_leaf_hash s = slot_leaf_hash t ->
  s = t \/ leaf_collision s t.
Proof.
  intros Hs Ht. rewrite !slot_leaf_stream. intros E. destruct (tag_range TAG_EXSTSLT ltac:(tag_ok)) as [R1 R2].
  destruct (collision_traced _ _ _ R1 R2 (slot_stream_ok s) (slot_stream_ok t) E) as [Eq|];
    [left; now apply slot_stream_inj|now right].
Qed.

(** ** The root of a slot function *)

(** The root of the full tree over [2 ^ depth] slots. *)
Definition slots_root (slots : Z -> SlotValue) (depth : nat) : StateHash :=
  tree state_node_hash (fun i => slot_leaf_hash (slots i)) depth 0.

(** Slot writes in order. *)
Definition write_slots (slots : Z -> SlotValue) (writes : list (Z * SlotValue)) : Z -> SlotValue :=
  foldl (fun f (w : Z * SlotValue) i => if decide (i = w.1) then w.2 else f i) slots writes.

Lemma write_slots_other slots writes i : i ∉ writes.*1 -> write_slots slots writes i = slots i.
Proof.
  revert slots. induction writes as [|[j v] writes IH]; intros slots Hi; [reflexivity|].
  cbn [fmap list_fmap] in Hi. apply not_elem_of_cons in Hi as [Hj Hi]. cbn [write_slots foldl].
  etransitivity; [exact (IH _ Hi)|]. cbn [fst]. now rewrite decide_False.
Qed.

Lemma write_slots_at slots writes k i v : NoDup writes.*1 -> writes !! k = Some (i, v) ->
  write_slots slots writes i = v.
Proof.
  revert slots k. induction writes as [|[j w] writes IH]; intros slots k Hn Ek; [discriminate Ek|].
  cbn [fmap list_fmap] in Hn. apply NoDup_cons in Hn as [Hj Hn]. destruct k as [|k].
  - injection Ek as -> ->. cbn [write_slots foldl]. etransitivity; [exact (write_slots_other _ writes i Hj)|].
    cbn [fst snd]. now rewrite decide_True.
  - exact (IH _ k Hn Ek).
Qed.

Lemma write_slots_leaves slots writes i :
  slot_leaf_hash (write_slots slots writes i)
  = apply_leaves (fun i => slot_leaf_hash (slots i)) (prod_map id slot_leaf_hash <$> writes) i.
Proof.
  revert slots. induction writes as [|[j w] writes IH]; intros slots; [reflexivity|].
  cbn [fmap list_fmap]. unfold apply_leaves, write_slots in *. cbn [foldl]. rewrite IH. clear IH.
  assert (X : forall (f g : Z -> StateHash) l, (forall i, f i = g i) ->
    foldl (fun f (p : Z * StateHash) => update_leaf f p.1 p.2) f l i
    = foldl (fun f (p : Z * StateHash) => update_leaf f p.1 p.2) g l i).
  { clear. intros f g l. revert f g. induction l as [|x l IH]; intros f g H; [apply H|]. cbn [foldl]. apply IH.
    intros k. unfold update_leaf. destruct (decide _); auto. }
  apply X. intros k. unfold update_leaf. cbn [fst snd prod_map id]. now destruct (decide (k = j)).
Qed.

Lemma tree_ext {D : Type} (node : D -> D -> D) (f g : Z -> D) l p : (forall i, f i = g i) -> tree node f l p = tree node g l p.
Proof. intros H. revert p. induction l as [|l IH]; intros p; cbn [tree]; [apply H|now rewrite !IH]. Qed.

(** ** The sparse cache and its multiproofs *)

Definition exact_from_leaves (depth : nat) (writes : list (Z * SlotValue)) : result SparseMerkleError (SparseMerkleCache (D := StateHash)) :=
  from_leaves state_node_hash (slot_leaf_hash EMPTY) depth (prod_map id slot_leaf_hash <$> writes).

Lemma cache_of_writes depth writes : (depth <= 32)%nat -> Forall (fun w => w.1 < 2 ^ Z.of_nat depth) writes ->
  exists c, exact_from_leaves depth writes = Ok c /\ cache_depth c = depth
    /\ cache_ok state_node_hash (slot_leaf_hash EMPTY) c
         (fun i => slot_leaf_hash (write_slots (fun _ => EMPTY) writes i)).
Proof.
  intros Hd Hw. unfold exact_from_leaves, from_leaves.
  destruct (SparseMerkleCache_new state_node_hash (slot_leaf_hash EMPTY) depth) as [c0|e] eqn:E.
  2: { exfalso. unfold SparseMerkleCache_new, validate_depth in E. apply Nat.leb_le in Hd. rewrite Hd in E. discriminate E. }
  cbn [mbind result_bind]. destruct (cache_new_ok _ _ _ _ E) as [H0 Hd0].
  destruct (set_leaves_ok state_node_hash (slot_leaf_hash EMPTY) _ c0 (prod_map id slot_leaf_hash <$> writes) H0) as (c & Ec & Hc & Hdc).
  { rewrite Hd0. apply Forall_fmap. eapply Forall_impl; [exact Hw|]. now intros [i v] H. }
  exists c. split; [exact Ec|]. split; [congruence|]. destruct Hc as [C1 C2 C3]. constructor; [exact C1|exact C2|].
  intros l p Hl. rewrite C3 by exact Hl. apply tree_ext. intros i. symmetry. apply write_slots_leaves.
Qed.

(** What [multiproof_sound] says of slots, over any hashes. *)
Lemma slots_multiproof {D : Type} `{!EqDecision D} (node : D -> D -> D) (h : SlotValue -> D)
    (slots : Z -> SlotValue) depth idx (old new : list SlotValue) (siblings : list D) :
  Forall (fun i => 0 <= i) idx -> length new = length idx ->
  reconstruct_root node idx (h <$> old) siblings depth = Return (tree node (fun i => h (slots i)) depth 0) ->
  ((forall j i, idx !! j = Some i -> exists s, old !! j = Some s /\ h s = h (slots i))
   /\ reconstruct_root node idx (h <$> new) siblings depth
      = Return (tree node (fun i => h (write_slots slots (zip idx new) i)) depth 0))
  \/ Exists (collision node) (proof_candidates node (fun i => h (slots i)) idx (h <$> old) siblings depth).
Proof.
  intros H0 Hn Hr. pose proof (reconstruct_cases node idx (h <$> old) siblings depth H0) as Hc.
  rewrite Hr in Hc. destruct Hc as [(e & ps & v & Hfr & _)|[err E]]; [|discriminate E].
  pose proof (fr_nodup idx depth e ps Hfr) as Nd.
  destruct (multiproof_sound node _ idx _ siblings depth H0 Hr) as [[H1 H2]|Hc]; [left|now right]. split.
  - intros j i Ei. specialize (H1 j i Ei). rewrite list_lookup_fmap in H1.
    destruct (old !! j) as [s|]; [|discriminate H1]. exists s. split; [reflexivity|]. now injection H1.
  - assert (F : (zip idx new).*1 = idx) by (apply fst_zip; lia).
    apply H2; [|now rewrite length_fmap|].
    + intros i Hi. f_equal. apply write_slots_other. now rewrite F.
    + intros j i Ei. destruct (lookup_lt_is_Some_2 new j) as [v' Ev]; [rewrite Hn; now apply lookup_lt_Some in Ei|].
      rewrite list_lookup_fmap, Ev. cbn [fmap option_fmap option_map]. f_equal. f_equal. symmetry.
      apply (write_slots_at slots (zip idx new) j); [now rewrite F|]. apply lookup_zip_Some. auto.
Qed.

(** Two leaves, over any hash. *)
Lemma two_leaves {D : Type} `{!EqDecision D} (node : D -> D -> D) (h : D) :
  reconstruct_root node [1] [h] [h] 1 = Return (tree node (fun _ => h) 1 0).
Proof. reflexivity. Qed.

(** ** Main results *)

(** C13. A multiproof that reconstructs the state root authenticates the slots it
    opens and their update: if the old slots and the siblings reach the root of a
    state, then every old slot is the slot of the state (or its leaf hash is a
    traced collision of the sponge), and with any new slots the same siblings
    reach the root of the updated state; the only alternative is a pair of node
    inputs, computed from the proof and the state, that collides. *)
Theorem multiproof_authenticates (slots : Z -> SlotValue) (depth : nat) (idx : list Z)
    (old new : list SlotValue) (siblings : list StateHash) :
  Forall (fun i => 0 <= i) idx -> (forall i, slot_ok (slots i)) -> Forall slot_ok old -> length new = length idx ->
  reconstruct_root state_node_hash idx (slot_leaf_hash <$> old) siblings depth = Return (slots_root slots depth) ->
  ((forall j i, idx !! j = Some i -> exists s, old !! j = Some s /\ (s = slots i \/ leaf_collision s (slots i)))
   /\ reconstruct_root state_node_hash idx (slot_leaf_hash <$> new) siblings depth
      = Return (slots_root (write_slots slots (zip idx new)) depth))
  \/ Exists (collision state_node_hash)
       (proof_candidates state_node_hash (fun i => slot_leaf_hash (slots i)) idx (slot_leaf_hash <$> old) siblings depth).
Proof.
  intros H0 Hs Ho Hn Hr.
  destruct (slots_multiproof state_node_hash slot_leaf_hash slots depth idx old new siblings H0 Hn Hr)
    as [[H1 H2]|Hc]; [left; split; [|exact H2]|right; exact Hc].
  intros j i Ei. destruct (H1 j i Ei) as (s & Es & Eh). exists s. split; [exact Es|].
  apply slot_leaf_binds; [|apply Hs|exact Eh]. now apply (Forall_lookup_1 _ _ _ _ Ho Es).
Qed.

Lemma multiproof_authenticates_witness :
  let new := from_parts 5 7 1 2 in
  ((forall j i, [1] !! j = Some i -> exists s, [EMPTY] !! j = Some s /\ (s = EMPTY \/ leaf_collision s EMPTY))
   /\ reconstruct_root state_node_hash [1] (slot_leaf_hash <$> [new]) [slot_leaf_hash EMPTY] 1
      = Return (slots_root (write_slots (fun _ => EMPTY) [(1, new)]) 1))
  \/ Exists (collision state_node_hash)
       (proof_candidates state_node_hash (fun _ => slot_leaf_hash EMPTY) [1] (slot_leaf_hash <$> [EMPTY]) [slot_leaf_hash EMPTY] 1).
Proof.
  intros new.
  apply (multiproof_authenticates (fun _ => EMPTY) 1 [1] [EMPTY] [new] [slot_leaf_hash EMPTY]);
    [now repeat (constructor; [lia|])|intros i; constructor; split; cbn; lia
    |constructor; [constructor; split; cbn; lia|constructor]|reflexivity|].
  exact (two_leaves state_node_hash (slot_leaf_hash EMPTY)).
Defined.

(** Multiproofs of the cache are complete: the cache built from any slot
    writes in range has the root of the full tree over all slots, with the empty
    slot everywhere else, and for every strictly increasing set of positions the
    multiproof taken from it has the expected number of siblings and reconstructs
    that root from the slots it opens. *)
Theorem cache_multiproof_complete (depth : nat) (writes : list (Z * SlotValue)) (idx : list Z) :
  (depth <= 32)%nat -> Forall (fun w => w.1 < 2 ^ Z.of_nat depth) writes ->
  StronglySorted Z.lt idx -> idx <> [] -> Forall (fun i => 0 <= i < 2 ^ Z.of_nat depth) idx ->
  let slots := write_slots (fun _ => EMPTY) writes in
  exists c siblings, exact_from_leaves depth writes = Ok c
    /\ cache_root (slot_leaf_hash EMPTY) c = slots_root slots depth
    /\ build_multiproof (slot_leaf_hash EMPTY) c idx depth = Return siblings
    /\ expected_sibling_count idx depth = Return (length siblings)
    /\ reconstruct_root state_node_hash idx ((fun i => slot_leaf_hash (slots i)) <$> idx) siblings depth
       = Return (slots_root slots depth).
Proof.
  intros Hd Hw Hs Hne Hi slots. destruct (cache_of_writes depth writes Hd Hw) as (c & Ec & <- & Hc).
  destruct (multiproof_complete state_node_hash (slot_leaf_hash EMPTY) c _ idx Hc) as (siblings & E1 & E2 & E3).
  - constructor; [exact Hd|exact Hne|exact Hs|]. eapply Forall_impl; [exact Hi|]. intros i H. apply H.
  - eapply Forall_impl; [exact Hi|]. intros i H. apply H.
  - assert (R : cache_root (slot_leaf_hash EMPTY) c = slots_root slots (cache_depth c)).
    { unfold cache_root. now rewrite (co_nodes _ _ _ _ Hc) by lia. }
    exists c, siblings. rewrite <- R. auto.
Qed.

Lemma cache_multiproof_complete_witness :
  let slots := write_slots (fun _ => EMPTY) [(3, from_parts 5 7 1 2)] in
  exists c siblings, exact_from_leaves 2 [(3, from_parts 5 7 1 2)] = Ok c
    /\ cache_root (slot_leaf_hash EMPTY) c = slots_root slots 2
    /\ build_multiproof (slot_leaf_hash EMPTY) c [1; 3] 2 = Return siblings
    /\ expected_sibling_count [1; 3] 2 = Return (length siblings)
    /\ reconstruct_root state_node_hash [1; 3] ((fun i => slot_leaf_hash (slots i)) <$> [1; 3]) siblings 2
       = Return (slots_root slots 2).
Proof.
  apply (cache_multiproof_complete 2 [(3, from_parts 5 7 1 2)] [1; 3]);
    [lia|repeat constructor; cbn; lia|repeat constructor; lia|discriminate|repeat constructor; lia].
Defined.

(** The structural plan is the verifier: for every list of positions either
    the plan is derived, and on every input its evaluation returns the root
    [reconstruct_root] returns or both report an error, or neither accepts
    anything.  No input makes either of them panic. *)
Theorem structural_plan_equivalent (idx : list Z) (depth : nat) :
  Forall (fun i => 0 <= i) idx ->
  (exists plan, derive_structural_frontier_plan idx depth = Return plan
     /\ forall leaves siblings : list StateHash,
        (exists v hs, reconstruct_root state_node_hash idx leaves siblings depth = Return v
           /\ evaluate_structural_frontier state_node_hash plan leaves siblings = Return (v, hs))
        \/ (exists e e', reconstruct_root state_node_hash idx leaves siblings depth = Fail e
           /\ evaluate_structural_frontier state_node_hash plan leaves siblings = Fail e'))
  \/ (exists err, derive_structural_frontier_plan idx depth = Fail err
     /\ forall leaves siblings : list StateHash,
        exists e, reconstruct_root state_node_hash idx leaves siblings depth = Fail e).
Proof. exact (plan_reconstructs state_node_hash idx depth). Qed.

Lemma structural_plan_equivalent_witness :
  exists plan, derive_structural_frontier_plan [1; 3] 2 = Return plan.
Proof.
  destruct (structural_plan_equivalent [1; 3] 2) as [(plan & E & _)|(err & E & _)];
    [repeat constructor; lia|now exists plan|discriminate E].
Defined.

(** C34. The analytical frontier capacities are enough: for every valid touched
    set, the closed-form maximum for its size, and the maximum under a cap on the
    distinct segments it meets, are defined and bound the frontier; so a frontier
    is padded to any larger class capacity, and padding and unpadding determine
    each other. *)
Theorem frontier_capacity_sufficient (idx : list Z) (depth log_segment_size : nat) (max_segments : Z)
    (siblings : list StateHash) (capacity : nat) :
  StronglySorted Z.lt idx -> idx <> [] -> (depth <= 32)%nat -> Forall (fun i => 0 <= i < 2 ^ Z.of_nat depth) idx ->
  (log_segment_size <= depth)%nat -> segment_count idx log_segment_size <= max_segments ->
  expected_sibling_count idx depth = Return (length siblings) ->
  exists n m, maximum_sibling_count (Z.of_nat (length idx)) depth = Some n
    /\ maximum_sibling_count_with_segment_cap (Z.of_nat (length idx)) depth log_segment_size max_segments = Some m
    /\ Z.of_nat (length siblings) <= n /\ Z.of_nat (length siblings) <= m
    /\ (m <= Z.of_nat capacity -> exists rows,
          pad_frontier_siblings STRUCTURAL_FRONTIER_PAD idx siblings depth capacity = Return rows
          /\ length rows = capacity
          /\ forall rows', unpad_frontier_siblings STRUCTURAL_FRONTIER_PAD idx rows' depth capacity = Return siblings <-> rows' = rows).
Proof.
  intros Hs Hne Hd Hi Hl Hm He.
  assert (H0 : Forall (fun i => 0 <= i) idx) by (eapply Forall_impl; [exact Hi|]; intros i H; apply H).
  destruct (frontier_exists idx depth) as (e & ps & Hfr); [|exact H0|].
  { constructor; [exact Hd|exact Hne|exact Hs|]. eapply Forall_impl; [exact Hi|]. intros i H. apply H. }
  rewrite (count_frontier idx depth e ps Hfr) in He. injection He as He.
  destruct (frontier_maximum idx depth e ps Hfr) as (n & En & Hn).
  destruct (frontier_segment_maximum idx depth log_segment_size e ps max_segments Hfr Hl Hm) as (m & Em & Hm').
  exists n, m. rewrite He in Hn, Hm'. split; [exact En|]. split; [exact Em|]. split; [exact Hn|]. split; [exact Hm'|].
  intros Hc. exists (siblings ++ replicate (capacity - length siblings) STRUCTURAL_FRONTIER_PAD).
  assert (Ep : pad_frontier_siblings STRUCTURAL_FRONTIER_PAD idx siblings depth capacity
    = Return (siblings ++ replicate (capacity - length siblings) STRUCTURAL_FRONTIER_PAD)).
  { unfold pad_frontier_siblings. rewrite (count_frontier idx depth e ps Hfr), He. cbn [mbind exec_bind]. rewrite Nat.eqb_refl. cbn [ensure lift mbind exec_bind].
    destruct (Nat.leb_spec (length siblings) capacity); [reflexivity|lia]. }
  split; [exact Ep|]. split; [rewrite length_app, length_replicate; lia|].
  intros rows'. rewrite <- (padding_roundtrip STRUCTURAL_FRONTIER_PAD idx rows' siblings depth capacity H0), Ep.
  split; [now intros [= <-]|now intros ->].
Qed.

Lemma frontier_capacity_witness :
  exists n m, maximum_sibling_count 2 2 = Some n
    /\ maximum_sibling_count_with_segment_cap 2 2 1 2 = Some m /\ 2 <= n /\ 2 <= m.
Proof.
  destruct (frontier_capacity_sufficient [1; 3] 2 1 2 [STRUCTURAL_FRONTIER_PAD; STRUCTURAL_FRONTIER_PAD] 4)
    as (n & m & H1 & H2 & H3 & H4 & _);
    [repeat constructor; lia|discriminate|lia|repeat constructor; lia|lia|vm_compute; discriminate|vm_compute; reflexivity|].
  now exists n, m.
Defined.
