(* ===== verification/HeapTree.v ===== *)
(** * Heap-ordered Merkle trees

    The three arrays of the state that store a perfect binary tree with its root
    at index 1 and the children of [k] at [2k] and [2k + 1]: the segment tree of
    [noid_chain/src/segmented_state.rs], the compact root cache of
    [noid_chain/src/state.rs] and the hot-segment trees of
    [noid_chain/src/exact_segment_cache.rs].  They are rebuilt, or updated along
    some paths, by recomputing nodes from the bottom up. *)

From Stdlib Require Import ZArith Lia Bool Sorted.
From stdpp Require Import base numbers list option gmap.
From S2P Require Import Prelude Merkle SparseMerkle.
Open Scope Z_scope.

(** A subtree depends on its own leaves. *)
Lemma tree_local {D} (node : D -> D -> D) f g l p :
  (forall i, p * 2 ^ Z.of_nat l <= i < (p + 1) * 2 ^ Z.of_nat l -> f i = g i) -> tree node f l p = tree node g l p.
Proof.
  revert p. induction l as [|l IH]; intros p H; cbn [tree].
  - apply H. cbn. lia.
  - rewrite pow2_S in H. f_equal; apply IH; intros i Hi; apply H; lia.
Qed.

Lemma tree_shift {D} (node : D -> D -> D) g l c p :
  tree node (fun i => g (c * 2 ^ Z.of_nat l + i)) l p = tree node g l (c + p).
Proof.
  revert c p. induction l as [|l IH]; intros c p; cbn [tree]; [f_equal; cbn; lia|].
  assert (E : forall q, tree node (fun i => g (c * 2 ^ Z.of_nat (S l) + i)) l q = tree node g l (2 * c + q)).
  { intros q. rewrite <- IH. apply tree_local. intros i _. f_equal. rewrite pow2_S. lia. }
  rewrite !E. f_equal; f_equal; lia.
Qed.

Section Heap.
Context {D : Type} (node : D -> D -> D) (z : D).
Implicit Types (t : list D) (k : nat).

(** [tree[k] = node(tree[2k], tree[2k+1])]; the indices are in range. *)
Definition recompute_at (t : list D) (k : nat) : list D :=
  <[k := node (nth (2 * k) t z) (nth (2 * k + 1) t z)]> t.

Definition recompute (t : list D) (ks : list nat) : list D := foldl recompute_at t ks.

(** [for k in (1..count).rev()] *)
Definition rebuild (t : list D) (count : nat) : list D := recompute t (rev (seq 1 (count - 1))).

(** [while k > 1 { k /= 2; ... }]: halving reaches 1 within [k] steps. *)
Fixpoint ancestors (fuel k : nat) : list nat :=
  match fuel with
  | O => []
  | S fuel => if (1 <? k)%nat then Nat.div2 k :: ancestors fuel (Nat.div2 k) else []
  end.

Definition update_path (t : list D) (k : nat) : list D := recompute t (ancestors k k).

(** ** Consistency *)

Definition consistent_at (t : list D) (k : nat) : Prop := nth k t z = node (nth (2 * k) t z) (nth (2 * k + 1) t z).

Lemma nth_insert t j k d : nth j (<[k := d]> t) z = if decide (j = k /\ (k < length t)%nat) then d else nth j t z.
Proof.
  rewrite !nth_lookup. destruct (decide (j = k /\ (k < length t)%nat)) as [[-> Hk]|Hn].
  - now rewrite list_lookup_insert_eq.
  - destruct (decide (j = k)) as [->|Hj]; [|now rewrite list_lookup_insert_ne by congruence].
    now rewrite list_insert_ge by lia.
Qed.

Lemma recompute_length t ks : length (recompute t ks) = length t.
Proof.
  revert t. induction ks as [|k ks IH]; intros t; [reflexivity|]. cbn [recompute foldl].
  etransitivity; [apply IH|]. apply length_insert.
Qed.

Lemma recompute_other t ks j : j ∉ ks -> nth j (recompute t ks) z = nth j t z.
Proof.
  revert t. induction ks as [|k ks IH]; intros t Hj; [reflexivity|]. apply not_elem_of_cons in Hj as [Hk Hj].
  cbn [recompute foldl]. etransitivity; [exact (IH _ Hj)|]. unfold recompute_at. rewrite nth_insert.
  rewrite decide_False by tauto. reflexivity.
Qed.

(** Order of recomputation: a node comes once, and after its children. *)
Definition later (k k' : nat) : Prop := k' <> k /\ (k' < 2 * k)%nat.

Lemma recompute_consistent t ks : StronglySorted later ks -> Forall (fun k => (1 <= k /\ 2 * k + 1 < length t)%nat) ks ->
  forall j, j ∈ ks -> consistent_at (recompute t ks) j.
Proof.
  intros Hs. revert t. induction Hs as [|k ks Hs IH Hk]; intros t Hb j Hj; [now apply not_elem_of_nil in Hj|].
  apply Forall_cons in Hb as [[Hk1 Hk2] Hb]. rewrite Forall_forall in Hk.
  assert (Hlen : length (recompute_at t k) = length t) by apply length_insert.
  cbn [recompute foldl]. change (foldl recompute_at (recompute_at t k) ks) with (recompute (recompute_at t k) ks).
  destruct (decide (j ∈ ks)) as [Hin|Hout].
  { apply IH; [|exact Hin]. now rewrite Hlen. }
  apply elem_of_cons in Hj as [->|Hj]; [|contradiction].
  assert (Out : forall i, (i = k \/ 2 * k <= i)%nat -> i ∉ ks)
    by (intros i Hi Hin; destruct (Hk i Hin); lia).
  unfold consistent_at. rewrite !recompute_other by (apply Out; lia). unfold recompute_at. rewrite !nth_insert.
  rewrite decide_True by lia. now rewrite !decide_False by lia.
Qed.

(** A tree that is consistent below [2 ^ n] is determined by its leaves. *)
Definition heap_of (t : list D) (n : nat) (f : Z -> D) : Prop :=
  forall l p, (l <= n)%nat -> (p < 2 ^ (n - l))%nat -> nth (2 ^ (n - l) + p) t z = tree node f l (Z.of_nat p).

Lemma consistent_heap t n f :
  (forall k, (1 <= k < 2 ^ n)%nat -> consistent_at t k) ->
  (forall p, (p < 2 ^ n)%nat -> nth (2 ^ n + p) t z = f (Z.of_nat p)) ->
  heap_of t n f.
Proof.
  intros Hc Hf l. induction l as [|l IH]; intros p Hl Hp.
  - rewrite Nat.sub_0_r in *. now apply Hf.
  - assert (E : (2 ^ (n - l) = 2 * 2 ^ (n - S l))%nat).
    { replace (n - l)%nat with (S (n - S l)) by lia. reflexivity. }
    assert (B : (2 ^ (n - S l) + p < 2 ^ n)%nat).
    { assert (2 ^ (n - l) <= 2 ^ n)%nat by (apply Nat.pow_le_mono_r; lia). lia. }
    pose proof (pow2_nat (n - S l)). rewrite (Hc (2 ^ (n - S l) + p)%nat) by lia. cbn [tree].
    replace (2 * (2 ^ (n - S l) + p))%nat with (2 ^ (n - l) + 2 * p)%nat by lia.
    replace (2 ^ (n - l) + 2 * p + 1)%nat with (2 ^ (n - l) + (2 * p + 1))%nat by lia.
    rewrite !IH by lia. f_equal; f_equal; lia.
Qed.

Lemma heap_root t n f : heap_of t n f -> nth 1 t z = tree node f n 0.
Proof.
  intros H. specialize (H n 0%nat). rewrite Nat.sub_diag in H. cbn [Nat.pow Nat.add] in H. apply H; lia.
Qed.

Lemma heap_leaf t n f p : heap_of t n f -> (p < 2 ^ n)%nat -> nth (2 ^ n + p) t z = f (Z.of_nat p).
Proof. intros H Hp. specialize (H 0%nat p). rewrite Nat.sub_0_r in H. cbn [tree] in H. apply H; [lia|exact Hp]. Qed.

Lemma heap_position n k : (1 <= k < 2 ^ n)%nat ->
  exists l p, (S l <= n)%nat /\ (p < 2 ^ (n - S l))%nat /\ k = (2 ^ (n - S l) + p)%nat.
Proof.
  intros Hk. pose proof (Nat.log2_spec k ltac:(lia)) as [H1 H2].
  assert (Nat.log2 k < n)%nat by (apply Nat.log2_lt_pow2; lia).
  exists (n - S (Nat.log2 k))%nat, (k - 2 ^ Nat.log2 k)%nat.
  replace (n - S (n - S (Nat.log2 k)))%nat with (Nat.log2 k) by lia. cbn [Nat.pow] in H2. lia.
Qed.

Lemma heap_consistent t n f k : heap_of t n f -> (1 <= k < 2 ^ n)%nat -> consistent_at t k.
Proof.
  intros H Hk. destruct (heap_position n k Hk) as (l & p & Hl & Hp & ->). unfold consistent_at.
  assert (E : (2 ^ (n - l) = 2 * 2 ^ (n - S l))%nat).
  { replace (n - l)%nat with (S (n - S l)) by lia. reflexivity. }
  rewrite (H (S l) p) by lia. cbn [tree].
  replace (2 * (2 ^ (n - S l) + p))%nat with (2 ^ (n - l) + 2 * p)%nat by lia.
  replace (2 ^ (n - l) + 2 * p + 1)%nat with (2 ^ (n - l) + (2 * p + 1))%nat by lia.
  rewrite !H by lia. f_equal; f_equal; lia.
Qed.

Lemma heap_ext t n f g : (forall p, 0 <= p < 2 ^ Z.of_nat n -> f p = g p) -> heap_of t n f -> heap_of t n g.
Proof.
  intros E H. apply consistent_heap.
  - intros k Hk. now apply (heap_consistent t n f).
  - intros p Hp. rewrite (heap_leaf t n f p H Hp). apply E. split; [lia|].
    apply Nat2Z.inj_lt in Hp. now rewrite Nat2Z.inj_pow in Hp.
Qed.

(** ** Rebuilding and updating *)

Lemma rev_seq_sorted a m : (1 <= a)%nat -> StronglySorted later (rev (seq a m)).
Proof.
  intros Ha. induction m as [|m IH]; [constructor|]. rewrite seq_S, rev_app_distr. cbn [rev app].
  constructor; [apply IH|]. apply Forall_forall. intros x Hx. apply list_elem_of_In, in_rev, in_seq in Hx.
  unfold later. lia.
Qed.

Lemma rebuild_heap t n f : (2 * 2 ^ n <= length t)%nat ->
  (forall p, (p < 2 ^ n)%nat -> nth (2 ^ n + p) t z = f (Z.of_nat p)) -> heap_of (rebuild t (2 ^ n)) n f.
Proof.
  intros Hl Hf. pose proof (pow2_nat n). unfold rebuild.
  assert (M : forall k, k ∈ rev (seq 1 (2 ^ n - 1)) <-> (1 <= k < 2 ^ n)%nat).
  { intros k. rewrite list_elem_of_In, <- in_rev, in_seq. lia. }
  apply consistent_heap.
  - intros k Hk. apply recompute_consistent; [apply rev_seq_sorted; lia| |now apply M].
    apply Forall_forall. intros j Hj. apply M in Hj. lia.
  - intros p Hp. rewrite recompute_other; [now apply Hf|]. rewrite M. lia.
Qed.

Lemma ancestors_lt fuel k : Forall (fun j => (1 <= j < k)%nat) (ancestors fuel k).
Proof.
  revert k. induction fuel as [|fuel IH]; intros k; cbn [ancestors]; [constructor|].
  destruct (Nat.ltb_spec 1 k) as [Hk|]; [|constructor]. pose proof (Nat.div2_odd k) as E.
  assert (1 <= Nat.div2 k < k)%nat by (destruct (Nat.odd k); cbn in E; lia).
  constructor; [assumption|]. eapply Forall_impl; [apply IH|]. cbn. lia.
Qed.

Lemma ancestors_sorted fuel k : StronglySorted later (ancestors fuel k).
Proof.
  revert k. induction fuel as [|fuel IH]; intros k; cbn [ancestors]; [constructor|].
  destruct (Nat.ltb_spec 1 k); constructor; [apply IH|]. eapply Forall_impl; [apply ancestors_lt|].
  unfold later. cbv beta. lia.
Qed.

(** The ancestors are closed under halving. *)
Lemma ancestors_half fuel k j : (k <= fuel)%nat -> (j = k \/ j ∈ ancestors fuel k) -> (1 < j)%nat ->
  Nat.div2 j ∈ ancestors fuel k.
Proof.
  revert k. induction fuel as [|fuel IH]; intros k Hk Hj Hj1; cbn [ancestors] in *.
  - destruct Hj as [->|Hj]; [lia|now apply not_elem_of_nil in Hj].
  - destruct (Nat.ltb_spec 1 k) as [Hk1|].
    + pose proof (Nat.div2_odd k) as E. assert (Nat.div2 k < k)%nat by (destruct (Nat.odd k); cbn in E; lia).
      destruct Hj as [->|Hj]; [now left|]. right. apply IH; [lia| |exact Hj1]. apply elem_of_cons in Hj. tauto.
    + destruct Hj as [->|Hj]; [lia|now apply not_elem_of_nil in Hj].
Qed.

(** Recomputing a set of nodes closed under parents, after some leaves below
    it changed. *)
Lemma recompute_heap t n f ks : (2 * 2 ^ n <= length t)%nat ->
  StronglySorted later ks -> Forall (fun k => (1 <= k < 2 ^ n)%nat) ks ->
  (forall k, (1 <= k < 2 ^ n)%nat -> k ∉ ks -> consistent_at t k) ->
  (forall j, j ∈ ks -> (1 < j)%nat -> Nat.div2 j ∈ ks) ->
  (forall p, (p < 2 ^ n)%nat -> nth (2 ^ n + p) t z = f (Z.of_nat p)) ->
  heap_of (recompute t ks) n f.
Proof.
  intros Hl Hs Hb Hc Hp Hf. rewrite Forall_forall in Hb. apply consistent_heap.
  - intros k Hk. destruct (decide (k ∈ ks)) as [Hin|Hout].
    + apply recompute_consistent; [exact Hs| |exact Hin]. apply Forall_forall. intros j Hj. apply Hb in Hj. lia.
    + assert (C : forall c, (c = 2 * k \/ c = 2 * k + 1)%nat -> c ∉ ks).
      { intros c Hck Hcin. apply Hout. replace k with (Nat.div2 c); [apply Hp; [exact Hcin|lia]|].
        destruct Hck as [->| ->]; [apply Nat.div2_double|rewrite Nat.add_1_r; apply Nat.div2_succ_double]. }
      unfold consistent_at. rewrite !recompute_other by (auto using C). now apply Hc.
  - intros p Hpp. rewrite recompute_other; [now apply Hf|]. intros Hin. apply Hb in Hin. lia.
Qed.

Lemma update_path_heap t n f p d : heap_of t n f -> (2 * 2 ^ n <= length t)%nat -> (p < 2 ^ n)%nat ->
  heap_of (update_path (<[(2 ^ n + p)%nat := d]> t) (2 ^ n + p)) n (update_leaf f (Z.of_nat p) d).
Proof.
  intros H Hl Hp. set (leaf := (2 ^ n + p)%nat). assert (Hleaf : (leaf < length t)%nat) by lia.
  assert (B : Forall (fun k => (1 <= k < 2 ^ n)%nat) (ancestors leaf leaf)).
  { unfold leaf. destruct (2 ^ n + p)%nat as [|m] eqn:E; [constructor|]. cbn [ancestors].
    destruct (Nat.ltb_spec 1 (S m)); [|constructor]. pose proof (Nat.div2_odd (S m)) as Eo.
    assert (1 <= Nat.div2 (S m) < 2 ^ n)%nat.
    { destruct (Nat.odd (S m)); cbn [Nat.b2n] in Eo; lia. }
    constructor; [assumption|]. eapply Forall_impl; [apply ancestors_lt|]. cbv beta. lia. }
  unfold update_path. apply recompute_heap; [now rewrite length_insert|apply ancestors_sorted|exact B| | |].
  - intros k Hk Hout. pose proof (heap_consistent t n f k H Hk) as Hc. unfold consistent_at. rewrite !nth_insert.
    assert (C : forall c, (c = k \/ c = 2 * k \/ c = 2 * k + 1)%nat -> c <> leaf).
    { intros c [->|Hck]; [unfold leaf; lia|]. intros ->. apply Hout. replace k with (Nat.div2 leaf).
      - apply ancestors_half; [lia|now left|lia].
      - destruct Hck as [-> | ->]; [apply Nat.div2_double|rewrite Nat.add_1_r; apply Nat.div2_succ_double]. }
    rewrite !decide_False by (intros [Hx _]; revert Hx; apply C; lia). exact Hc.
  - intros j Hj Hj1. apply ancestors_half; [lia|now right|exact Hj1].
  - intros q Hq. rewrite nth_insert. unfold update_leaf. destruct (decide (Z.of_nat q = Z.of_nat p)) as [E|E].
    + rewrite decide_True by (unfold leaf; lia). reflexivity.
    + rewrite decide_False by (unfold leaf; lia). now apply heap_leaf.
Qed.
End Heap.
