(* ===== verification/HotSegments.v ===== *)
(** * Hot-segment Merkle trees ([noid_chain/src/exact_segment_cache.rs])

    A perfect tree over the slots of one resident segment, kept current under
    slot writes with early termination, with a read-only overlay for pending
    updates; and the byte-bounded LRU that holds such trees.  [SegmentColumns]
    is the column layout of [noid_chain/src/segmented_state.rs]. *)

From Stdlib Require Import ZArith Lia Bool Sorted.
From stdpp Require Import base numbers list option gmap sorting.
From S2P Require Import Prelude Merkle SparseMerkle StateTree HeapTree.
Open Scope Z_scope.

(** The two hashes of the exact state tree and the all-zero array, as the state
    components use them. *)
Class ExactHash (D : Type) := {
  hash_eq_dec :: EqDecision D;
  hnode : D -> D -> D;
  hleaf : SlotValue -> D;
  hzero : D
}.

#[export] Instance poseidon_hash : ExactHash StateHash :=
  {| hnode := state_node_hash; hleaf := slot_leaf_hash; hzero := replicate 32 0 |}.

(** ** Columns of a segment *)

Record SegmentColumns := mkColumns { col_values : list Z; col_owners_hi : list Z; col_owners_lo : list Z }.

Definition new_zero (size : nat) : SegmentColumns :=
  mkColumns (replicate size 0) (replicate size 0) (replicate size 0).

(** [SlotValue { value: cols.values[loc], .. }]; the callers index in range. *)
Definition column_slot (cols : SegmentColumns) (loc : nat) : SlotValue :=
  mkSlot (nth loc (col_values cols) 0) (nth loc (col_owners_hi cols) 0) (nth loc (col_owners_lo cols) 0).

Definition columns_len (cols : SegmentColumns) (size : nat) : bool :=
  ((length (col_values cols) =? size) && (length (col_owners_hi cols) =? size)
   && (length (col_owners_lo cols) =? size))%nat.

(** A [BTreeMap] in key order. *)
Definition btree_entries {V} (m : gmap Z V) : list (Z * V) :=
  omap (fun k => v ← m !! k; Some (k, v)) (sorted_keys m).

(** [slice::partition_point] of a partitioned slice. *)
Fixpoint partition_point {A} (pred : A -> bool) (l : list A) : nat :=
  match l with
  | [] => 0
  | x :: l => if pred x then S (partition_point pred l) else 0
  end.

Lemma btree_keys {V} (m : gmap Z V) : (btree_entries m).*1 = sorted_keys m.
Proof.
  unfold btree_entries. assert (H : forall k, k ∈ sorted_keys m -> is_Some (m !! k)) by (intros k; apply sorted_keys_elem).
  revert H. generalize (sorted_keys m). induction l as [|k l IH]; intros H; [reflexivity|].
  destruct (H k ltac:(now left)) as [v E]. cbn [omap list_omap]. rewrite E. cbn [mbind option_bind fmap list_fmap fst].
  f_equal. apply IH. intros j Hj. apply H. now right.
Qed.

Lemma btree_elem {V} (m : gmap Z V) k v : (k, v) ∈ btree_entries m <-> m !! k = Some v.
Proof.
  unfold btree_entries. rewrite list_elem_of_omap. split.
  - intros (j & _ & E). destruct (m !! j) eqn:Ej; [|discriminate E]. cbn in E. congruence.
  - intros E. exists k. rewrite sorted_keys_elem, E. split; [eauto|reflexivity].
Qed.

Lemma sorted_keys_sorted {V} (m : gmap Z V) : StronglySorted Z.lt (sorted_keys m).
Proof.
  unfold sorted_keys. set (l := elements (dom m)).
  assert (Hs : StronglySorted Z.le (merge_sort Z.le l)) by (apply (StronglySorted_merge_sort Z.le)).
  assert (Hn : NoDup (merge_sort Z.le l)) by (rewrite merge_sort_Permutation; apply NoDup_elements).
  revert Hs Hn. generalize (merge_sort Z.le l). clear. intros l Hs. induction Hs as [|k l Hs IH Hk]; intros Hn; constructor.
  - apply IH. now apply NoDup_cons in Hn.
  - apply NoDup_cons in Hn as [Hn _]. rewrite Forall_forall in *. intros j Hj. specialize (Hk j Hj).
    assert (j <> k) by congruence. lia.
Qed.

Lemma sorted_fmap {A B} (f : A -> B) (R : B -> B -> Prop) l :
  StronglySorted R (f <$> l) <-> StronglySorted (fun a b => R (f a) (f b)) l.
Proof.
  induction l as [|a l IH]; cbn [fmap list_fmap]; [split; constructor|].
  split; intros H; apply StronglySorted_inv in H as [H1 H2]; constructor; try (now apply IH);
    [exact (proj1 (Forall_fmap f (R (f a)) l) H2)|apply Forall_fmap; exact H2].
Qed.

(** A sorted slice is partitioned by a bound on its keys. *)
Lemma partition_sorted {A} (key : A -> nat) (bound : nat) l :
  StronglySorted (fun a b => key a < key b)%nat l ->
  let pp := partition_point (fun a => key a <? bound)%nat l in
  Forall (fun a => key a < bound)%nat (take pp l) /\ Forall (fun a => bound <= key a)%nat (drop pp l).
Proof.
  induction 1 as [|a l Hs IH Ha]; cbn [partition_point]; [split; constructor|]. cbn zeta in IH.
  destruct (Nat.ltb_spec (key a) bound) as [Hb|Hb]; cbn [take drop].
  - split; [constructor; [exact Hb|]|]; apply IH.
  - split; [constructor|]. constructor; [exact Hb|]. eapply Forall_impl; [exact Ha|]. cbn. lia.
Qed.

Lemma sorted_split {A} (R : A -> A -> Prop) l k : StronglySorted R l ->
  StronglySorted R (take k l) /\ StronglySorted R (drop k l).
Proof.
  intros H. revert k. induction H as [|a l Hs IH Ha]; intros k; destruct k as [|k]; cbn [take drop];
    try (split; constructor; assumption).
  destruct (IH k) as [H1 H2]. split; [constructor; [exact H1|]|exact H2]. now apply Forall_take.
Qed.

Section Hot.
Context {D : Type} `{!ExactHash D}.

Definition empty_hash : D := hleaf EMPTY.

(** ** Trees *)

Record ExactSegmentTree := mkHot {
  hot_log_slots : nat;
  hot_nodes : list D;
  hot_zeros : list D;
  column_bytes : Z
}.

Definition hot_at (nodes : list D) (k : nat) : D := nth k nodes empty_hash.

(** A node at [level] above the leaves, with the shortcut for empty subtrees. *)
Definition hot_node (zeros nodes : list D) (level k : nat) : D :=
  let l := hot_at nodes (2 * k) in
  let r := hot_at nodes (2 * k + 1) in
  let zero := nth (level - 1) zeros empty_hash in
  if bool_decide (l = zero) && bool_decide (r = zero) then nth level zeros empty_hash else hnode l r.

Definition slot_hash (zeros : list D) (slot : SlotValue) : D :=
  if is_empty slot then nth 0 zeros empty_hash else hleaf slot.

Definition write_leaf (columns : SegmentColumns) (size : nat) (nodes : list D) (local : nat) : list D :=
  let slot := column_slot columns local in
  if is_empty slot then nodes else <[(size + local)%nat := hleaf slot]> nodes.

Definition build_level (zeros : list D) (size : nat) (nodes : list D) (level : nat) : list D :=
  let start := Nat.shiftr size level in
  foldl (fun nodes k => <[k := hot_node zeros nodes level k]> nodes) nodes (seq start start).

(** The assertions on the column lengths are the failure; [column_bytes] is the
    capacity of the three vectors, which the allocator chooses. *)
Definition from_columns (log_slots : nat) (columns : SegmentColumns) (column_bytes : Z) : option ExactSegmentTree :=
  let size := (2 ^ log_slots)%nat in
  if columns_len columns size then
    let zeros := zero_slot_roots hnode empty_hash log_slots in
    let nodes := replicate (2 * size) (nth 0 zeros empty_hash) in
    let nodes := foldl (write_leaf columns size) nodes (seq 0 size) in
    let nodes := foldl (build_level zeros size) nodes (seq 1 log_slots) in
    Some (mkHot log_slots nodes zeros column_bytes)
  else None.

Definition hot_root (t : ExactSegmentTree) : D := hot_at (hot_nodes t) 1.

Definition subtree_root (t : ExactSegmentTree) (level : nat) (index : Z) : option D :=
  if (hot_log_slots t <? level)%nat then None
  else
    let width := (2 ^ (hot_log_slots t - level))%nat in
    if Z.of_nat width <=? index then None
    else Some (hot_at (hot_nodes t) (width + Z.to_nat index)).

(** [while node > 1], which stops at the first node that does not change; the
    tree has [log_slots] levels above its leaves. *)
Fixpoint set_slot_loop (fuel : nat) (zeros nodes : list D) (k level : nat) : list D :=
  match fuel with
  | O => nodes
  | S fuel =>
      if (1 <? k)%nat then
        let k := Nat.div2 k in
        let hash := hot_node zeros nodes (level + 1) k in
        if bool_decide (hot_at nodes k = hash) then nodes
        else set_slot_loop fuel zeros (<[k := hash]> nodes) k (level + 1)
      else nodes
  end.

Definition hot_set_slot (t : ExactSegmentTree) (local : nat) (v : SlotValue) : ExactSegmentTree :=
  let k := (2 ^ hot_log_slots t + local)%nat in
  let hash := slot_hash (hot_zeros t) v in
  if bool_decide (hot_at (hot_nodes t) k = hash) then t
  else mkHot (hot_log_slots t)
         (set_slot_loop (hot_log_slots t) (hot_zeros t) (<[k := hash]> (hot_nodes t)) k 0)
         (hot_zeros t) (column_bytes t).

(** [width = 2 ^ log] *)
Fixpoint overlay_root (nodes : list D) (log k start : nat) (updates : list (nat * D)) : D :=
  match updates, log with
  | [], _ => hot_at nodes k
  | u :: _, O => u.2
  | _, S log =>
      let half := (2 ^ log)%nat in
      let split := partition_point (fun u : nat * D => u.1 <? start + half)%nat updates in
      hnode (overlay_root nodes log (2 * k) start (take split updates))
            (overlay_root nodes log (2 * k + 1) (start + half) (drop split updates))
  end.

(** The assertion on the positions is the failure. *)
Definition root_with_updates (t : ExactSegmentTree) (updates : gmap Z SlotValue) : option D :=
  if forallb (fun u : Z * SlotValue => u.1 <? 2 ^ Z.of_nat (hot_log_slots t)) (btree_entries updates) then
    let leaves := (fun u : Z * SlotValue => (Z.to_nat u.1, slot_hash (hot_zeros t) u.2)) <$> btree_entries updates in
    Some (overlay_root (hot_nodes t) (hot_log_slots t) 1 0 leaves)
  else None.

(** The vectors of a tree are allocated at their length. *)
Definition resident_bytes (t : ExactSegmentTree) : Z :=
  Z.of_nat (length (hot_nodes t) + length (hot_zeros t)) * 32 + column_bytes t.

(** ** The bounded cache *)

Record ExactSegmentCache := mkLru {
  lru_entries : list (Z * ExactSegmentTree);
  lru_bytes : Z;
  lru_budget : Z
}.

Definition lru_default (budget : Z) : ExactSegmentCache := mkLru [] 0 budget.

Definition lru_find (c : ExactSegmentCache) (id : Z) : option (nat * (Z * ExactSegmentTree)) :=
  list_find (fun e => e.1 = id) (lru_entries c).

Definition lru_get (c : ExactSegmentCache) (id : Z) : option ExactSegmentTree :=
  e ← lru_find c id; Some e.2.2.

Definition lru_remove (c : ExactSegmentCache) (id : Z) : ExactSegmentCache :=
  match lru_find c id with
  | Some (index, (_, t)) => mkLru (delete index (lru_entries c)) (lru_bytes c - resident_bytes t) (lru_budget c)
  | None => c
  end.

(** [while self.bytes + bytes > self.budget { entries.remove(0) }]; removing from
    an empty vector panics. *)
Fixpoint lru_evict (entries : list (Z * ExactSegmentTree)) (used needed budget : Z)
  : option (list (Z * ExactSegmentTree) * Z) :=
  if budget <? used + needed then
    match entries with
    | [] => None
    | (_, oldest) :: entries => lru_evict entries (used - resident_bytes oldest) needed budget
    end
  else Some (entries, used).

Definition lru_insert (c : ExactSegmentCache) (id : Z) (t : ExactSegmentTree) : option ExactSegmentCache :=
  let c := lru_remove c id in
  let bytes := resident_bytes t in
  if lru_budget c <? bytes then Some c
  else
    r ← lru_evict (lru_entries c) (lru_bytes c) bytes (lru_budget c);
    Some (mkLru (r.1 ++ [(id, t)]) (r.2 + bytes) (lru_budget c)).

Definition lru_update_slot (c : ExactSegmentCache) (id : Z) (local : nat) (v : SlotValue) : ExactSegmentCache :=
  match lru_find c id with
  | Some (index, (key, t)) =>
      mkLru (delete index (lru_entries c) ++ [(key, hot_set_slot t local v)]) (lru_bytes c) (lru_budget c)
  | None => c
  end.

Definition lru_clear (c : ExactSegmentCache) : ExactSegmentCache := mkLru [] 0 (lru_budget c).

Definition lru_truncate_segments (c : ExactSegmentCache) (count : Z) : ExactSegmentCache :=
  let entries := filter (fun e => e.1 < count) (lru_entries c) in
  mkLru entries (Zsum ((fun e => resident_bytes e.2) <$> entries)) (lru_budget c).

(** ** Trees: correctness *)

(** The leaves of a segment. *)
Definition leaves_of (slots : Z -> SlotValue) (i : Z) : D := hleaf (slots i).

Record hot_ok (t : ExactSegmentTree) (log : nat) (f : Z -> D) : Prop := {
  ho_log : hot_log_slots t = log;
  ho_length : length (hot_nodes t) = (2 * 2 ^ log)%nat;
  ho_zeros : hot_zeros t = zero_slot_roots hnode empty_hash log;
  ho_heap : heap_of hnode empty_hash (hot_nodes t) log f
}.

Lemma zero_root_succ n l : (S l <= n)%nat ->
  nth (S l) (zero_slot_roots hnode empty_hash n) empty_hash
  = hnode (nth l (zero_slot_roots hnode empty_hash n) empty_hash) (nth l (zero_slot_roots hnode empty_hash n) empty_hash).
Proof.
  intros Hl. rewrite (zero_roots_nth hnode empty_hash n (S l) 0 Hl). cbn [tree].
  now rewrite (zero_roots_nth hnode empty_hash n l (2 * 0)), <- (zero_roots_nth hnode empty_hash n l (2 * 0 + 1)),
    (zero_roots_nth hnode empty_hash n l (2 * 0)) by lia.
Qed.

(** The shortcut changes nothing. *)
Lemma hot_node_eq n nodes level k : (1 <= level <= n)%nat ->
  hot_node (zero_slot_roots hnode empty_hash n) nodes level k
  = hnode (nth (2 * k) nodes empty_hash) (nth (2 * k + 1) nodes empty_hash).
Proof.
  intros Hl. unfold hot_node, hot_at. destruct (bool_decide (nth (2 * k) nodes empty_hash = _)) eqn:E1; [|reflexivity].
  destruct (bool_decide (nth (2 * k + 1) nodes empty_hash = _)) eqn:E2; [|reflexivity]. cbn [andb].
  apply bool_decide_eq_true in E1, E2. rewrite E1, E2. destruct level as [|level]; [lia|].
  cbn [Nat.sub]. rewrite Nat.sub_0_r. apply zero_root_succ. lia.
Qed.

Lemma slot_hash_eq n v : slot_hash (zero_slot_roots hnode empty_hash n) v = hleaf v.
Proof.
  unfold slot_hash, is_empty. destruct (bool_decide_reflect (v = EMPTY)) as [->|]; [|reflexivity].
  exact (zero_roots_nth hnode empty_hash n 0 0 ltac:(lia)).
Qed.

(** *** Building *)

Lemma leaf_loop columns size m : (m <= size)%nat ->
  let nodes := foldl (write_leaf columns size) (replicate (2 * size) empty_hash) (seq 0 m) in
  length nodes = (2 * size)%nat
  /\ forall p, (p < size)%nat -> nth (size + p) nodes empty_hash
       = if (p <? m)%nat then hleaf (column_slot columns p) else empty_hash.
Proof.
  induction m as [|m IH]; intros Hm; cbn zeta.
  - cbn [seq foldl]. rewrite length_replicate. split; [reflexivity|]. intros p _. cbn [Nat.ltb Nat.leb].
    rewrite nth_lookup. destruct (replicate _ _ !! _) eqn:E; [apply lookup_replicate in E as [-> _]|]; reflexivity.
  - destruct (IH ltac:(lia)) as [H1 H2]. cbn zeta in H1, H2. rewrite seq_S, foldl_app. cbn [foldl Nat.add].
    revert H1 H2. generalize (foldl (write_leaf columns size) (replicate (2 * size) empty_hash) (seq 0 m)). intros nodes H1 H2.
    unfold write_leaf, is_empty. cbn zeta. destruct (bool_decide_reflect (column_slot columns m = EMPTY)) as [E|E].
    + split; [exact H1|]. intros p Hp. rewrite (H2 p Hp). destruct (Nat.ltb_spec p m), (Nat.ltb_spec p (S m)); try lia; [reflexivity| |reflexivity].
      assert (p = m) as -> by lia. now rewrite E.
    + rewrite length_insert. split; [exact H1|]. intros p Hp. rewrite nth_insert.
      destruct (decide _) as [[Ep _]|Ep].
      * assert (p = m) as -> by lia. destruct (Nat.ltb_spec m (S m)); [reflexivity|lia].
      * rewrite (H2 p Hp). destruct (Nat.ltb_spec p m), (Nat.ltb_spec p (S m)); try lia; reflexivity.
Qed.

(** Nodes of the levels [a ..= n], level by level. *)
Definition level_nodes (n a m : nat) : list nat := concat ((fun level => seq (2 ^ (n - level)) (2 ^ (n - level))) <$> seq a m).

Lemma level_nodes_elem n a m k : (a + m = S n)%nat -> (1 <= a)%nat ->
  k ∈ level_nodes n a m <-> (1 <= k < 2 ^ (S n - a))%nat.
Proof.
  revert a. induction m as [|m IH]; intros a Ha Ha1; unfold level_nodes in *; cbn [seq fmap list_fmap concat].
  - replace (S n - a)%nat with 0%nat by lia. cbn. rewrite elem_of_nil. lia.
  - rewrite elem_of_app, IH, elem_of_seq by lia. replace (S n - a)%nat with (S (n - a)) by lia.
    replace (S n - S a)%nat with (n - a)%nat by lia. cbn [Nat.pow]. pose proof (pow2_nat (n - a)). lia.
Qed.

Lemma level_nodes_sorted n a m : (a + m = S n)%nat -> (1 <= a)%nat -> StronglySorted later (level_nodes n a m).
Proof.
  revert a. induction m as [|m IH]; intros a Ha Ha1; [constructor|].
  unfold level_nodes. cbn [seq fmap list_fmap concat]. fold (level_nodes n (S a) m).
  pose proof (pow2_nat (n - a)). set (w := (2 ^ (n - a))%nat) in *.
  assert (L : forall k, k ∈ level_nodes n (S a) m -> (k < w)%nat).
  { intros k Hk. apply level_nodes_elem in Hk; [|lia..]. unfold w. replace (n - a)%nat with (S n - S a)%nat by lia. lia. }
  assert (G : forall x c, (w <= x)%nat -> (x + c <= 2 * w)%nat -> StronglySorted later (seq x c ++ level_nodes n (S a) m)).
  { intros x c. revert x. induction c as [|c IHc]; intros x Hx Hc; cbn [seq app]; [apply IH; lia|].
    constructor; [apply IHc; lia|]. apply Forall_forall. intros k Hk. unfold later.
    apply elem_of_app in Hk as [Hk|Hk]; [apply elem_of_seq in Hk; lia|apply L in Hk; lia]. }
  apply G; lia.
Qed.

Lemma level_loop n nodes a m : (a + m <= S n)%nat -> (1 <= a)%nat ->
  foldl (build_level (zero_slot_roots hnode empty_hash n) (2 ^ n)) nodes (seq a m)
  = recompute hnode empty_hash nodes (level_nodes n a m).
Proof.
  revert nodes a. induction m as [|m IH]; intros nodes a Ha Ha1; [reflexivity|].
  cbn [seq foldl]. rewrite IH by lia. unfold level_nodes. cbn [seq fmap list_fmap concat]. fold (level_nodes n (S a) m).
  unfold recompute. rewrite foldl_app. f_equal. unfold build_level. cbn zeta.
  rewrite Nat.shiftr_div_pow2. replace (2 ^ n / 2 ^ a)%nat with (2 ^ (n - a))%nat.
  2: { replace n with (n - a + a)%nat at 2 by lia. rewrite Nat.pow_add_r, Nat.div_mul by (apply Nat.pow_nonzero; lia). reflexivity. }
  generalize (seq (2 ^ (n - a)) (2 ^ (n - a))). intros l. revert nodes.
  induction l as [|k l IHl]; intros nodes; [reflexivity|]. cbn [foldl]. rewrite IHl. f_equal.
  unfold recompute_at. f_equal. apply hot_node_eq. lia.
Qed.

Lemma from_columns_ok log columns bytes : columns_len columns (2 ^ log) = true ->
  exists t, from_columns log columns bytes = Some t /\ column_bytes t = bytes
    /\ hot_ok t log (fun i => hleaf (column_slot columns (Z.to_nat i))).
Proof.
  intros Hc. unfold from_columns. cbn zeta. rewrite Hc. eexists. split; [reflexivity|]. split; [reflexivity|].
  assert (Z0 : nth 0 (zero_slot_roots hnode empty_hash log) empty_hash = empty_hash)
    by exact (zero_roots_nth hnode empty_hash log 0 0 ltac:(lia)).
  destruct (leaf_loop columns (2 ^ log) (2 ^ log) ltac:(lia)) as [H1 H2]. cbn zeta in H1, H2.
  constructor; cbn [hot_log_slots hot_nodes hot_zeros]; [reflexivity| |reflexivity|]; rewrite level_loop by lia; rewrite Z0.
  - rewrite recompute_length. exact H1.
  - apply recompute_heap; [rewrite H1; lia|now apply level_nodes_sorted| | | |].
    + apply Forall_forall. intros k Hk. apply level_nodes_elem in Hk; [|lia..]. now replace (S log - 1)%nat with log in Hk by lia.
    + intros k Hk Hn. exfalso. apply Hn, level_nodes_elem; [lia..|]. now replace (S log - 1)%nat with log by lia.
    + intros k Hk Hk1. apply level_nodes_elem in Hk; [|lia..]. apply level_nodes_elem; [lia..|].
      pose proof (Nat.div2_odd k) as E. destruct (Nat.odd k); cbn [Nat.b2n] in E; lia.
    + intros p Hp. rewrite (H2 p Hp). destruct (Nat.ltb_spec p (2 ^ log)); [|lia]. now rewrite Nat2Z.id.
Qed.

(** *** Writing a slot *)

(** Levels up to [l] hold the new tree, the others the old one. *)
Definition heap_upto (nodes : list D) (n l : nat) (f' f : Z -> D) : Prop :=
  forall j q, (j <= n)%nat -> (q < 2 ^ (n - j))%nat ->
    nth (2 ^ (n - j) + q) nodes empty_hash = tree hnode (if (j <=? l)%nat then f' else f) j (Z.of_nat q).

Lemma trees_meet f index d l :
  tree hnode (update_leaf f index d) l (index / 2 ^ Z.of_nat l) = tree hnode f l (index / 2 ^ Z.of_nat l) ->
  forall j q, (l <= j)%nat -> tree hnode (update_leaf f index d) j q = tree hnode f j q.
Proof.
  intros E j q Hj. replace j with (l + (j - l))%nat by lia. generalize (j - l)%nat. intros m. revert q.
  induction m as [|m IH]; intros q.
  - rewrite Nat.add_0_r. destruct (decide (q = index / 2 ^ Z.of_nat l)) as [->|Hq]; [exact E|].
    now apply tree_update_elsewhere.
  - rewrite Nat.add_succ_r. cbn [tree]. now rewrite !IH.
Qed.

Lemma index_heap (p l n : nat) : (p < 2 ^ n)%nat -> (l < n)%nat ->
  Nat.div2 (2 ^ (n - l) + p / 2 ^ l) = (2 ^ (n - S l) + p / 2 ^ S l)%nat
  /\ (p / 2 ^ S l < 2 ^ (n - S l))%nat /\ (p / 2 ^ l = 2 * (p / 2 ^ S l) \/ p / 2 ^ l = 2 * (p / 2 ^ S l) + 1)%nat.
Proof.
  intros Hp Hl. assert (E : (2 ^ (n - l) = 2 * 2 ^ (n - S l))%nat).
  { replace (n - l)%nat with (S (n - S l)) by lia. reflexivity. }
  assert (Q : (p / 2 ^ S l = p / 2 ^ l / 2)%nat).
  { cbn [Nat.pow]. rewrite Nat.mul_comm, Nat.Div0.div_div. reflexivity. }
  rewrite Nat.div2_div. split; [|split].
  - rewrite E, Q. rewrite Nat.mul_comm, Nat.div_add_l by lia. reflexivity.
  - apply Nat.Div0.div_lt_upper_bound. rewrite <- Nat.pow_add_r. now replace (S l + (n - S l))%nat with n by lia.
  - rewrite Q. pose proof (Nat.div_mod_eq (p / 2 ^ l) 2). pose proof (Nat.mod_upper_bound (p / 2 ^ l) 2 ltac:(lia)). lia.
Qed.

Lemma Z_index (p l : nat) : Z.of_nat (p / 2 ^ l) = Z.of_nat p / 2 ^ Z.of_nat l.
Proof. now rewrite Nat2Z.inj_div, Nat2Z.inj_pow. Qed.

Lemma set_slot_loop_ok n p d f fuel l nodes :
  (p < 2 ^ n)%nat -> (l + fuel = n)%nat -> length nodes = (2 * 2 ^ n)%nat ->
  heap_upto nodes n l (update_leaf f (Z.of_nat p) d) f ->
  let nodes' := set_slot_loop fuel (zero_slot_roots hnode empty_hash n) nodes (2 ^ (n - l) + p / 2 ^ l) l in
  length nodes' = (2 * 2 ^ n)%nat /\ heap_of hnode empty_hash nodes' n (update_leaf f (Z.of_nat p) d).
Proof.
  intros Hp. revert l nodes. induction fuel as [|fuel IH]; intros l nodes Hf Hlen H; cbn [set_slot_loop].
  - split; [exact Hlen|]. intros j q Hj Hq. rewrite (H j q Hj Hq). destruct (Nat.leb_spec j l); [reflexivity|lia].
  - destruct (index_heap p l n Hp ltac:(lia)) as (Ek & Hq' & Hodd).
    assert (E : (2 ^ (n - l) = 2 * 2 ^ (n - S l))%nat).
    { replace (n - l)%nat with (S (n - S l)) by lia. reflexivity. }
    pose proof (pow2_nat (n - S l)). destruct (Nat.ltb_spec 1 (2 ^ (n - l) + p / 2 ^ l)); [|lia]. cbn zeta. rewrite Ek.
    set (q := (p / 2 ^ S l)%nat) in *. set (f' := update_leaf f (Z.of_nat p) d) in *.
    rewrite hot_node_eq by lia.
    assert (Hh : hnode (nth (2 * (2 ^ (n - S l) + q)) nodes empty_hash) (nth (2 * (2 ^ (n - S l) + q) + 1) nodes empty_hash)
                 = tree hnode f' (S l) (Z.of_nat q)).
    { replace (2 * (2 ^ (n - S l) + q))%nat with (2 ^ (n - l) + 2 * q)%nat by lia.
      replace (2 ^ (n - l) + 2 * q + 1)%nat with (2 ^ (n - l) + (2 * q + 1))%nat by lia.
      rewrite !H, Nat.leb_refl by lia. cbn [tree]. f_equal; f_equal; lia. }
    rewrite Hh. unfold hot_at. rewrite (H (S l) q) by lia. destruct (Nat.leb_spec (S l) l); [lia|].
    destruct (bool_decide_reflect (tree hnode f (S l) (Z.of_nat q) = tree hnode f' (S l) (Z.of_nat q))) as [Eq|Ne].
    + split; [exact Hlen|]. intros j r Hj Hr. rewrite (H j r Hj Hr). destruct (Nat.leb_spec j l); [reflexivity|].
      symmetry. apply (trees_meet f (Z.of_nat p) d (S l)); [|lia]. rewrite <- Z_index. symmetry. exact Eq.
    + replace (l + 1)%nat with (S l) by lia. apply IH; [lia|now rewrite length_insert|].
      intros j r Hj Hr. rewrite nth_insert. destruct (decide _) as [[Ej _]|Nj].
      * destruct (decide (j = S l)) as [->|Hjl].
        { assert (r = q) as -> by lia. now rewrite Nat.leb_refl. }
        exfalso. assert (2 ^ (n - j) = 2 ^ (n - S l))%nat as Ep.
        { destruct (Nat.lt_total (n - j) (n - S l)) as [Hlt|[->|Hlt]]; [|reflexivity|].
          - pose proof (Nat.pow_le_mono_r 2 (S (n - j)) (n - S l) ltac:(lia) Hlt) as Hpw. cbn [Nat.pow] in Hpw. lia.
          - pose proof (Nat.pow_le_mono_r 2 (S (n - S l)) (n - j) ltac:(lia) Hlt) as Hpw. cbn [Nat.pow] in Hpw. lia. }
        apply Nat.pow_inj_r in Ep; lia.
      * rewrite (H j r Hj Hr). destruct (Nat.leb_spec j l), (Nat.leb_spec j (S l)); try lia; [reflexivity| |reflexivity].
        assert (j = S l) as -> by lia. symmetry. apply tree_update_elsewhere. rewrite <- Z_index. fold q.
        intros Eqr. apply Nj. split; [lia|]. rewrite Hlen.
        assert (2 ^ (n - S l) <= 2 ^ n)%nat by (apply Nat.pow_le_mono_r; lia). lia.
Qed.

Lemma hot_set_slot_ok t log f local v : hot_ok t log f -> (local < 2 ^ log)%nat ->
  hot_ok (hot_set_slot t local v) log (update_leaf f (Z.of_nat local) (hleaf v)).
Proof.
  intros [H1 H2 H3 H4] Hl. unfold hot_set_slot. rewrite H1, H3, slot_hash_eq. cbn zeta. unfold hot_at.
  rewrite (heap_leaf _ _ _ _ _ local H4 Hl).
  destruct (bool_decide_reflect (f (Z.of_nat local) = hleaf v)) as [E|Ne].
  - constructor; [assumption..|]. eapply heap_ext; [|exact H4]. intros i Hi. unfold update_leaf.
    destruct (decide (i = Z.of_nat local)) as [->|]; [now symmetry|reflexivity].
  - pose proof (pow2_nat log).
    destruct (set_slot_loop_ok log local (hleaf v) f log 0 (<[(2 ^ log + local)%nat := hleaf v]> (hot_nodes t)) Hl)
      as [L1 L2]; [lia|now rewrite length_insert| |].
    + intros j q Hj Hq. rewrite nth_insert. destruct (decide _) as [[Ej _]|Nj].
      * destruct j as [|j]. { rewrite Nat.sub_0_r in *. assert (q = local) as -> by lia. cbn. unfold update_leaf. now rewrite decide_True. }
        exfalso. assert (2 * 2 ^ (log - S j) <= 2 ^ log)%nat.
        { change (2 ^ S (log - S j) <= 2 ^ log)%nat. apply Nat.pow_le_mono_r; lia. } lia.
      * rewrite (H4 j q Hj Hq). destruct j as [|j]; [|reflexivity]. rewrite Nat.sub_0_r in *. cbn [Nat.leb tree].
        unfold update_leaf. rewrite decide_False; [reflexivity|]. intros Eq. apply Nj. lia.
    + cbn [Nat.sub Nat.pow] in L1, L2. rewrite Nat.sub_0_r, Nat.div_1_r in L1, L2.
      constructor; cbn [hot_log_slots hot_nodes hot_zeros]; [reflexivity|exact L1|reflexivity|exact L2].
Qed.

(** *** The overlay *)

Lemma overlay_ok nodes n f g l q us :
  heap_of hnode empty_hash nodes n f -> (l <= n)%nat -> (q < 2 ^ (n - l))%nat ->
  StronglySorted (fun a b => a.1 < b.1)%nat us ->
  Forall (fun u => q * 2 ^ l <= u.1 < (q + 1) * 2 ^ l)%nat us ->
  Forall (fun u => g (Z.of_nat u.1) = u.2) us ->
  (forall i, (q * 2 ^ l <= i < (q + 1) * 2 ^ l)%nat -> i ∉ us.*1 -> g (Z.of_nat i) = f (Z.of_nat i)) ->
  overlay_root nodes l (2 ^ (n - l) + q) (q * 2 ^ l) us = tree hnode g l (Z.of_nat q).
Proof.
  intros Hh. revert q us. induction l as [|l IH]; intros q us Hl Hq Hs Hr Hg Ho.
  - destruct us as [|u us]; cbn [overlay_root tree].
    + unfold hot_at. rewrite (Hh 0%nat q) by lia. cbn [tree]. symmetry. apply Ho; [cbn; lia|apply not_elem_of_nil].
    + apply Forall_cons in Hr as [Hr _], Hg as [Hg _]. rewrite <- Hg. f_equal. cbn in Hr. lia.
  - destruct us as [|u us]; cbn [overlay_root].
    { unfold hot_at. rewrite (Hh (S l) q) by lia. apply tree_local. intros i Hi. symmetry.
      rewrite <- (Z2Nat.id i) by nia. apply Ho; [|apply not_elem_of_nil].
      rewrite pow2_S in Hi. cbn [Nat.pow]. apply Nat2Z.inj_iff || idtac.
      assert (E : Z.of_nat (2 ^ l) = 2 ^ Z.of_nat l) by apply Nat2Z.inj_pow. nia. }
    remember (u :: us) as vs eqn:Evs. clear Evs u us. cbn zeta. cbn [tree].
    destruct (partition_sorted (fun u : nat * D => u.1) (q * 2 ^ S l + 2 ^ l) vs Hs) as [P1 P2]. cbn zeta in P1, P2.
    set (pp := partition_point _ vs) in *. destruct (sorted_split _ vs pp Hs) as [S1 S2].
    assert (E : (2 ^ (n - l) = 2 * 2 ^ (n - S l))%nat).
    { replace (n - l)%nat with (S (n - S l)) by lia. reflexivity. }
    assert (Hin : forall i, (i < q * 2 ^ S l + 2 ^ l)%nat -> i ∈ vs.*1 -> i ∈ (take pp vs).*1).
    { intros i Hi. rewrite <- (take_drop pp vs) at 1. rewrite fmap_app, elem_of_app. intros [H|H]; [exact H|].
      apply list_elem_of_fmap in H as (u & -> & Hu). rewrite Forall_forall in P2. specialize (P2 u Hu). lia. }
    assert (Hin2 : forall i, (q * 2 ^ S l + 2 ^ l <= i)%nat -> i ∈ vs.*1 -> i ∈ (drop pp vs).*1).
    { intros i Hi. rewrite <- (take_drop pp vs) at 1. rewrite fmap_app, elem_of_app. intros [H|H]; [|exact H].
      apply list_elem_of_fmap in H as (u & -> & Hu). rewrite Forall_forall in P1. specialize (P1 u Hu). lia. }
    cbn [Nat.pow] in *. f_equal.
    + replace (2 * (2 ^ (n - S l) + q))%nat with (2 ^ (n - l) + 2 * q)%nat by lia.
      replace (q * (2 * 2 ^ l))%nat with (2 * q * 2 ^ l)%nat by lia.
      rewrite IH; [f_equal; lia|lia|lia|exact S1| |now apply Forall_take|].
      * apply Forall_forall. intros v Hv. rewrite Forall_forall in P1. specialize (P1 v Hv).
        pose proof (proj1 (Forall_forall _ _) (Forall_take _ _ _ Hr) v Hv). cbn beta in *. lia.
      * intros i Hi Hni. apply Ho; [lia|]. intros H. apply Hni, Hin; [lia|exact H].
    + replace (2 * (2 ^ (n - S l) + q) + 1)%nat with (2 ^ (n - l) + (2 * q + 1))%nat by lia.
      replace (q * (2 * 2 ^ l) + 2 ^ l)%nat with ((2 * q + 1) * 2 ^ l)%nat by lia.
      rewrite IH; [f_equal; lia|lia|lia|exact S2| |now apply Forall_drop|].
      * apply Forall_forall. intros v Hv. rewrite Forall_forall in P2. specialize (P2 v Hv).
        pose proof (proj1 (Forall_forall _ _) (Forall_drop _ _ _ Hr) v Hv). cbn beta in *. lia.
      * intros i Hi Hni. apply Ho; [lia|]. intros H. apply Hni, Hin2; [lia|exact H].
Qed.

(** Slots after a set of updates. *)
Definition patch (slots : Z -> SlotValue) (updates : gmap Z SlotValue) (i : Z) : SlotValue :=
  default (slots i) (updates !! i).

Lemma root_with_updates_ok t log slots updates :
  hot_ok t log (fun i => hleaf (slots i)) -> map_Forall (fun k _ => 0 <= k < 2 ^ Z.of_nat log) updates ->
  root_with_updates t updates = Some (tree hnode (fun i => hleaf (patch slots updates i)) log 0).
Proof.
  intros [H1 H2 H3 H4] Hu. unfold root_with_updates. rewrite H1, H3.
  assert (Hb : Forall (fun u : Z * SlotValue => 0 <= u.1 < 2 ^ Z.of_nat log) (btree_entries updates)).
  { apply Forall_forall. intros [k v] Hk. apply btree_elem in Hk. exact (Hu k v Hk). }
  replace (forallb _ _) with true.
  2: { symmetry. apply forallb_forall. intros u Hin. apply list_elem_of_In in Hin. rewrite Forall_forall in Hb.
       specialize (Hb u Hin). apply Z.ltb_lt. lia. }
  cbn zeta. f_equal. set (us := _ <$> btree_entries updates).
  assert (W : Z.of_nat (2 ^ log) = 2 ^ Z.of_nat log) by apply Nat2Z.inj_pow.
  assert (K : forall i : nat, i ∈ us.*1 <-> is_Some (updates !! Z.of_nat i)).
  { intros i. unfold us. rewrite <- list_fmap_compose. rewrite list_elem_of_fmap. split.
    - intros ([k v] & -> & Hk). cbn. rewrite Forall_forall in Hb. pose proof (Hb _ Hk). cbn in *. rewrite Z2Nat.id by lia.
      apply btree_elem in Hk. eauto.
    - intros [v E]. exists (Z.of_nat i, v). cbn. split; [lia|now apply btree_elem]. }
  pose proof (overlay_ok (hot_nodes t) log (fun i => hleaf (slots i)) (fun i => hleaf (patch slots updates i)) log 0 us H4) as O.
  rewrite Nat.sub_diag in O. cbn [Nat.pow Nat.add Nat.mul] in O. apply O; clear O; [lia|lia| | | |].
  - unfold us. apply sorted_fmap. assert (S : StronglySorted Z.lt (btree_entries updates).*1)
      by (rewrite btree_keys; apply sorted_keys_sorted).
    apply (sorted_fmap fst Z.lt) in S. revert S Hb. generalize (btree_entries updates). clear.
    intros es Hs. induction Hs as [|a es Hs IH Ha]; intros Hb; constructor.
    + apply IH. now apply Forall_cons in Hb.
    + apply Forall_cons in Hb as [Hb1 Hb]. rewrite Forall_forall in *. intros x Hx. specialize (Ha x Hx). specialize (Hb x Hx).
      cbn [fst]. lia.
  - unfold us. apply Forall_fmap. eapply Forall_impl; [exact Hb|]. intros [k v] Hk. cbn in *. lia.
  - unfold us. apply Forall_fmap. apply Forall_forall. intros [k v] Hk. rewrite Forall_forall in Hb. pose proof (Hb _ Hk).
    cbn [fst snd compose] in *. rewrite Z2Nat.id by lia. apply btree_elem in Hk. unfold patch. rewrite Hk. cbn. now rewrite slot_hash_eq.
  - intros i Hi Hn. unfold patch. destruct (updates !! Z.of_nat i) eqn:E; [|reflexivity]. exfalso. apply Hn, K. eauto.
Qed.

Lemma subtree_root_ok t log f level index : hot_ok t log f -> (level <= log)%nat -> 0 <= index < 2 ^ Z.of_nat (log - level) ->
  subtree_root t level index = Some (tree hnode f level index).
Proof.
  intros [H1 H2 H3 H4] Hl Hi. unfold subtree_root. rewrite H1. destruct (Nat.ltb_spec log level); [lia|]. cbn zeta.
  assert (W : Z.of_nat (2 ^ (log - level)) = 2 ^ Z.of_nat (log - level)) by apply Nat2Z.inj_pow.
  destruct (Z.leb_spec (Z.of_nat (2 ^ (log - level))) index); [lia|]. f_equal. unfold hot_at.
  rewrite (H4 level (Z.to_nat index)) by lia. now rewrite Z2Nat.id by lia.
Qed.

Lemma hot_root_ok t log f : hot_ok t log f -> hot_root t = tree hnode f log 0.
Proof. intros [_ _ _ H]. exact (heap_root _ _ _ _ _ H). Qed.

(** ** The cache: correctness *)

Implicit Types c : ExactSegmentCache.

(** The accounted bytes are those of the entries, and within the budget. *)
Record lru_ok (c : ExactSegmentCache) : Prop := {
  lo_keys : NoDup (lru_entries c).*1;
  lo_size : Forall (fun e => 0 <= resident_bytes e.2) (lru_entries c);
  lo_bytes : lru_bytes c = Zsum ((fun e => resident_bytes e.2) <$> lru_entries c);
  lo_budget : lru_bytes c <= lru_budget c
}.

Lemma lru_get_elem c id t : lru_ok c -> lru_get c id = Some t <-> (id, t) ∈ lru_entries c.
Proof.
  intros [Hn _ _ _]. unfold lru_get, lru_find. split.
  - destruct (list_find _ _) as [[i [k u]]|] eqn:E; [|discriminate]. cbn. intros [= ->].
    apply list_find_Some in E as (E & <- & _). now apply list_elem_of_lookup_2 with i.
  - intros Hin. destruct (list_find (fun e => e.1 = id) (lru_entries c)) as [[i [k u]]|] eqn:E.
    + apply list_find_Some in E as (E & Ek & _). cbn in Ek. subst k. cbn. f_equal.
      apply list_elem_of_lookup in Hin as [j Ej].
      assert (i = j) as <-.
      { apply (NoDup_lookup (lru_entries c).*1 i j id Hn); rewrite list_lookup_fmap; [now rewrite E|now rewrite Ej]. }
      congruence.
    + apply list_find_None in E. rewrite Forall_forall in E. now destruct (E _ Hin).
Qed.

Lemma lru_remove_spec c id : lru_ok c ->
  lru_ok (lru_remove c id) /\ lru_budget (lru_remove c id) = lru_budget c
  /\ forall e, e ∈ lru_entries (lru_remove c id) <-> e ∈ lru_entries c /\ e.1 <> id.
Proof.
  intros Hc. pose proof Hc as [Hn Hs Hb Hg]. unfold lru_remove, lru_find.
  destruct (list_find _ _) as [[i [k t]]|] eqn:E.
  - apply list_find_Some in E as (E & Ek & _). cbn in Ek. subst k.
    pose proof (delete_Permutation _ _ _ E) as P. cbn [lru_budget lru_entries].
    set (rest := delete i (lru_entries c)) in *. clearbody rest.
    assert (N : NoDup (id :: rest.*1)).
    { change (id :: _) with (((id, t) :: rest).*1). now rewrite <- P. }
    apply NoDup_cons in N as [N1 N2]. rewrite P in Hs, Hb. cbn [fmap list_fmap snd] in Hb. rewrite Zsum_cons in Hb.
    apply Forall_cons in Hs as [Hs1 Hs2]. cbn [snd] in Hs1. split; [|split; [reflexivity|]].
    + constructor; cbn [lru_entries lru_bytes lru_budget]; [exact N2|exact Hs2|lia|lia].
    + intros e. rewrite P, elem_of_cons. split.
      * intros He. split; [now right|]. intros <-. apply N1. now apply list_elem_of_fmap_2.
      * intros [[->|He] Hne]; [now destruct Hne|exact He].
  - apply list_find_None in E. split; [exact Hc|]. split; [reflexivity|]. intros e. split; [|tauto].
    intros He. split; [exact He|]. rewrite Forall_forall in E. exact (E e He).
Qed.

Lemma lru_evict_spec entries used needed budget :
  NoDup entries.*1 -> Forall (fun e => 0 <= resident_bytes e.2) entries ->
  used = Zsum ((fun e => resident_bytes e.2) <$> entries) -> 0 <= needed <= budget ->
  exists entries', lru_evict entries used needed budget = Some (entries', Zsum ((fun e => resident_bytes e.2) <$> entries'))
    /\ entries' `suffix_of` entries /\ Zsum ((fun e => resident_bytes e.2) <$> entries') + needed <= budget.
Proof.
  revert used. induction entries as [|[k t] entries IH]; intros used Hn Hs -> Hb; cbn [lru_evict].
  - cbn [fmap list_fmap Zsum foldr]. destruct (Z.ltb_spec budget (0 + needed)); [lia|]. exists []. split; [reflexivity|]. split; [reflexivity|cbn; lia].
  - apply NoDup_cons in Hn as [_ Hn]. apply Forall_cons in Hs as [_ Hs]. cbn [fmap list_fmap snd].
    rewrite Zsum_cons. destruct (Z.ltb_spec budget (resident_bytes t + Zsum ((fun e => resident_bytes e.2) <$> entries) + needed)).
    + destruct (IH (resident_bytes t + Zsum ((fun e => resident_bytes e.2) <$> entries) - resident_bytes t) Hn Hs (Z.add_simpl_l _ _) Hb)
        as (es & E & Hsuf & Hle). exists es. split; [exact E|]. split; [now apply suffix_cons_r|exact Hle].
    + exists ((k, t) :: entries). cbn [fmap list_fmap snd]. rewrite Zsum_cons. split; [reflexivity|]. split; [reflexivity|lia].
Qed.

(** Insertion never panics, keeps the accounting, forgets only what it must and
    remembers every tree that fits the budget. *)
Lemma lru_insert_spec c id t : lru_ok c -> 0 <= resident_bytes t ->
  exists c', lru_insert c id t = Some c' /\ lru_ok c' /\ lru_budget c' = lru_budget c
    /\ (forall e, e ∈ lru_entries c' -> e = (id, t) \/ (e ∈ lru_entries c /\ e.1 <> id))
    /\ (resident_bytes t <= lru_budget c -> (id, t) ∈ lru_entries c').
Proof.
  intros Hc Ht. destruct (lru_remove_spec c id Hc) as (Hr & Hbud & He). unfold lru_insert. cbn zeta. rewrite Hbud.
  destruct (Z.ltb_spec (lru_budget c) (resident_bytes t)) as [Hbig|Hfit].
  - eexists. split; [reflexivity|]. split; [exact Hr|]. split; [exact Hbud|]. split; [|lia].
    intros e Hin. right. now apply He.
  - destruct Hr as [Hn Hs Hb Hg].
    destruct (lru_evict_spec _ _ (resident_bytes t) (lru_budget c) Hn Hs Hb ltac:(lia)) as (es & E & Hsuf & Hle).
    rewrite E. cbn [mbind option_bind fst snd]. eexists. split; [reflexivity|]. cbn [lru_entries lru_bytes lru_budget].
    assert (Sub : forall e, e ∈ es -> e ∈ lru_entries (lru_remove c id)).
    { intros e Hin. destruct Hsuf as [pre ->]. rewrite elem_of_app. now right. }
    split; [|split; [reflexivity|]; split; [|intros _; rewrite elem_of_app, list_elem_of_singleton; now right]].
    + constructor; cbn [lru_entries lru_bytes lru_budget].
      * rewrite fmap_app. cbn [fmap list_fmap fst]. apply NoDup_app. split; [|split; [|apply NoDup_singleton]].
        { destruct Hsuf as [pre Epre]. rewrite Epre, fmap_app in Hn. now apply NoDup_app in Hn. }
        intros k Hk Hin. apply list_elem_of_singleton in Hin as ->. apply list_elem_of_fmap in Hk as ([k' u] & -> & Hin).
        apply Sub, He in Hin as [_ Hne]. now apply Hne.
      * apply Forall_app. split; [|constructor; [exact Ht|constructor]]. destruct Hsuf as [pre Epre]. rewrite Epre in Hs.
        now apply Forall_app in Hs.
      * rewrite fmap_app, Zsum_app. cbn [fmap list_fmap snd Zsum foldr]. lia.
      * lia.
    + intros e Hin. apply elem_of_app in Hin as [Hin|Hin]; [right; now apply He, Sub|].
      left. now apply list_elem_of_singleton in Hin.
Qed.

Lemma set_slot_loop_length fuel zeros nodes k level :
  length (set_slot_loop fuel zeros nodes k level) = length nodes.
Proof.
  revert nodes k level. induction fuel as [|fuel IH]; intros nodes k level; cbn [set_slot_loop]; [reflexivity|].
  destruct (1 <? k)%nat; [|reflexivity]. cbn zeta. destruct (bool_decide _); [reflexivity|]. rewrite IH. apply length_insert.
Qed.

Lemma hot_set_slot_bytes t local v : resident_bytes (hot_set_slot t local v) = resident_bytes t.
Proof.
  unfold hot_set_slot. cbn zeta. destruct (bool_decide _); [reflexivity|]. unfold resident_bytes.
  cbn [hot_nodes hot_zeros column_bytes]. now rewrite set_slot_loop_length, length_insert.
Qed.

Lemma lru_update_spec c id local v : lru_ok c ->
  lru_ok (lru_update_slot c id local v) /\ lru_budget (lru_update_slot c id local v) = lru_budget c
  /\ forall e, e ∈ lru_entries (lru_update_slot c id local v)
       <-> (e.1 <> id /\ e ∈ lru_entries c) \/ (exists t, (id, t) ∈ lru_entries c /\ e = (id, hot_set_slot t local v)).
Proof.
  intros Hc. pose proof Hc as [Hn Hs Hb Hg]. unfold lru_update_slot, lru_find.
  destruct (list_find _ _) as [[i [k t]]|] eqn:E.
  - apply list_find_Some in E as (E & Ek & _). cbn in Ek. subst k.
    pose proof (delete_Permutation _ _ _ E) as P. cbn [lru_budget lru_entries].
    set (rest := delete i (lru_entries c)) in *. clearbody rest.
    assert (N : NoDup (id :: rest.*1)).
    { change (id :: _) with (((id, t) :: rest).*1). now rewrite <- P. }
    pose proof N as N'. apply NoDup_cons in N' as [N1 N2]. rewrite P in Hs, Hb. cbn [fmap list_fmap snd] in Hb. rewrite Zsum_cons in Hb.
    apply Forall_cons in Hs as [Hs1 Hs2]. cbn [snd] in Hs1. split; [|split; [reflexivity|]].
    + constructor; cbn [lru_entries lru_bytes lru_budget].
      * rewrite fmap_app. cbn [fmap list_fmap fst]. now rewrite Permutation_app_comm.
      * apply Forall_app. split; [exact Hs2|]. constructor; [|constructor]. cbn [snd]. now rewrite hot_set_slot_bytes.
      * rewrite fmap_app, Zsum_app. cbn [fmap list_fmap snd Zsum foldr]. rewrite hot_set_slot_bytes. lia.
      * exact Hg.
    + intros e. rewrite elem_of_app, list_elem_of_singleton. setoid_rewrite P. setoid_rewrite elem_of_cons. split.
      * intros [He|He]; [left|right; exists t; auto]. split; [|now right]. intros <-. apply N1. now apply list_elem_of_fmap_2.
      * intros [[Hne [->|He]]|(u & [[= ->]|Hu] & ->)]; [now destruct Hne|now left|now right|].
        exfalso. apply N1. now apply (list_elem_of_fmap_2 fst) in Hu.
  - apply list_find_None in E. rewrite Forall_forall in E. split; [exact Hc|]. split; [reflexivity|]. intros e. split.
    + intros He. left. split; [exact (E e He)|exact He].
    + intros [[_ He]|(t & Ht & _)]; [exact He|]. now destruct (E _ Ht).
Qed.

Lemma lru_truncate_spec c count : lru_ok c ->
  lru_ok (lru_truncate_segments c count)
  /\ forall e, e ∈ lru_entries (lru_truncate_segments c count) <-> e.1 < count /\ e ∈ lru_entries c.
Proof.
  intros [Hn Hs Hb Hg]. unfold lru_truncate_segments. split; [|intros e; cbn [lru_entries]; now rewrite list_elem_of_filter].
  constructor; cbn [lru_entries lru_bytes lru_budget].
  - refine (sublist_NoDup _ _ Hn _). apply fmap_sublist, sublist_filter.
  - rewrite Forall_forall in Hs |- *. intros e He. apply list_elem_of_filter in He as [_ He]. now apply Hs.
  - reflexivity.
  - etransitivity; [|exact Hg]. rewrite Hb. clear Hb Hg Hn. induction Hs as [|e es He Hs IH]; [reflexivity|].
    rewrite filter_cons. cbn [fmap list_fmap]. rewrite Zsum_cons. destruct (decide _); cbn [fmap list_fmap]; [rewrite Zsum_cons|]; lia.
Qed.

Lemma lru_clear_ok c : lru_ok c -> lru_ok (lru_clear c).
Proof.
  intros [_ Hs Hb Hg]. constructor; cbn; [constructor|constructor|reflexivity|].
  assert (0 <= lru_bytes c); [|lia]. rewrite Hb. apply Zsum_nonneg. now apply Forall_fmap.
Qed.
End Hot.

(** ** Properties *)

Section Summary.
Context {D : Type} `{!ExactHash D}.

Lemma hot_writes_ok log writes : Forall (fun w : nat * SlotValue => (w.1 < 2 ^ log)%nat) writes -> forall (t : ExactSegmentTree (D := D)) slots,
  hot_ok t log (fun i => hleaf (slots i)) ->
  hot_ok (foldl (fun t w => hot_set_slot t w.1 w.2) t writes) log
    (fun i => hleaf (write_slots slots ((fun w : nat * SlotValue => (Z.of_nat w.1, w.2)) <$> writes) i)).
Proof.
  induction 1 as [|[l v] writes Hl Hw IH]; intros t slots Ht; [exact Ht|]. cbn [foldl fmap list_fmap fst snd].
  refine (IH _ (fun i => if decide (i = Z.of_nat l) then v else slots i) _). pose proof (hot_set_slot_ok t log _ l v Ht Hl) as [H1 H2 H3 H4].
  constructor; [assumption..|]. eapply heap_ext; [|exact H4]. intros i _. unfold update_leaf. now destruct (decide _).
Qed.

Lemma hot_tree_spec log (cols : SegmentColumns) bytes (writes : list (nat * SlotValue)) (updates : gmap Z SlotValue) :
  columns_len cols (2 ^ log) = true -> Forall (fun w => (w.1 < 2 ^ log)%nat) writes ->
  map_Forall (fun k _ => 0 <= k < 2 ^ Z.of_nat log) updates ->
  let after := write_slots (fun i => column_slot cols (Z.to_nat i)) ((fun w => (Z.of_nat w.1, w.2)) <$> writes) in
  exists t : ExactSegmentTree (D := D), from_columns log cols bytes = Some t /\
    let t' := foldl (fun t w => hot_set_slot t w.1 w.2) t writes in
    (forall level index, (level <= log)%nat -> 0 <= index < 2 ^ Z.of_nat (log - level) ->
       subtree_root t' level index = Some (tree hnode (fun i => hleaf (after i)) level index))
    /\ hot_root t' = tree hnode (fun i => hleaf (after i)) log 0
    /\ root_with_updates t' updates = Some (tree hnode (fun i => hleaf (patch after updates i)) log 0).
Proof.
  intros Hc Hw Hu. cbn zeta. destruct (from_columns_ok log cols bytes Hc) as (t & E & _ & Ht). exists t. split; [exact E|].
  pose proof (hot_writes_ok log writes Hw t _ Ht) as Ht'. set (t' := foldl _ _ _) in *. clearbody t'. split; [|split].
  - intros level index Hl Hi. exact (subtree_root_ok t' log _ level index Ht' Hl Hi).
  - exact (hot_root_ok t' log _ Ht').
  - exact (root_with_updates_ok t' log _ updates Ht' Hu).
Qed.

(** The operations that change the cache. *)
Inductive LruOp :=
| OpInsert (id : Z) (t : ExactSegmentTree (D := D))
| OpUpdate (id : Z) (local : nat) (v : SlotValue)
| OpRemove (id : Z)
| OpTruncate (count : Z)
| OpClear.

Definition lru_step (c : ExactSegmentCache) (op : LruOp) : option ExactSegmentCache :=
  match op with
  | OpInsert id t => lru_insert c id t
  | OpUpdate id local v => Some (lru_update_slot c id local v)
  | OpRemove id => Some (lru_remove c id)
  | OpTruncate count => Some (lru_truncate_segments c count)
  | OpClear => Some (lru_clear c)
  end.

Definition op_ok (op : LruOp) : Prop := match op with OpInsert _ t => 0 <= resident_bytes t | _ => True end.

Lemma lru_step_ok c op : lru_ok c -> op_ok op -> exists c', lru_step c op = Some c' /\ lru_ok c' /\ lru_budget c' = lru_budget c.
Proof.
  intros Hc Ho. destruct op as [id t|id local v|id|count|]; cbn [lru_step op_ok] in *.
  - destruct (lru_insert_spec c id t Hc Ho) as (c' & E & H1 & H2 & _). eauto.
  - destruct (lru_update_spec c id local v Hc) as (H1 & H2 & _). eauto.
  - destruct (lru_remove_spec c id Hc) as (H1 & H2 & _). eauto.
  - destruct (lru_truncate_spec c count Hc) as (H1 & _). eauto.
  - eexists. split; [reflexivity|]. split; [now apply lru_clear_ok|reflexivity].
Qed.

(** The tree cache keeps its budget.  Any sequence of insertions, slot
    updates, removals, truncations and clearings from the empty cache succeeds
    (evicting never runs out of entries), keeps one tree per segment, accounts for
    exactly the resident bytes of the trees it holds and stays within its budget;
    a tree that fits is found right after its insertion. *)
Theorem lru_accounting (budget : Z) (ops : list LruOp) : 0 <= budget -> Forall op_ok ops ->
  exists c, fold_option lru_step (lru_default budget) ops = Some c
    /\ NoDup (lru_entries c).*1
    /\ lru_bytes c = Zsum ((fun e => resident_bytes e.2) <$> lru_entries c)
    /\ lru_bytes c <= budget /\ lru_budget c = budget
    /\ forall id t, 0 <= resident_bytes t <= budget -> exists c', lru_insert c id t = Some c' /\ lru_get c' id = Some t.
Proof.
  intros Hb Hops. assert (G : forall c, lru_ok c -> lru_budget c = budget -> exists c', fold_option lru_step c ops = Some c'
    /\ lru_ok c' /\ lru_budget c' = budget).
  { induction Hops as [|op ops Ho Hops IH]; intros c Hc Hbc; cbn [fold_option]; [eauto|].
    destruct (lru_step_ok c op Hc Ho) as (c' & E & Hc' & Hb'). rewrite E. cbn [mbind option_bind]. apply IH; [exact Hc'|congruence]. }
  destruct (G (lru_default budget)) as (c & E & Hc & Hbc); [constructor; cbn; [constructor|constructor|reflexivity|exact Hb]|reflexivity|].
  exists c. split; [exact E|]. split; [apply Hc|]. split; [apply Hc|]. split; [rewrite <- Hbc; apply Hc|]. split; [exact Hbc|].
  intros id t Ht. destruct (lru_insert_spec c id t Hc (proj1 Ht)) as (c' & E' & Hc' & _ & _ & Hin). exists c'. split; [exact E'|].
  apply lru_get_elem; [exact Hc'|]. apply Hin. lia.
Qed.

End Summary.

Lemma lru_accounting_witness :
  exists c : ExactSegmentCache (D := StateHash), fold_option lru_step (lru_default 100) [OpInsert 3 (mkHot 0 [] [] 60); OpInsert 4 (mkHot 0 [] [] 60)] = Some c
    /\ NoDup (lru_entries c).*1
    /\ lru_bytes c = Zsum ((fun e => resident_bytes e.2) <$> lru_entries c)
    /\ lru_bytes c <= 100 /\ lru_budget c = 100
    /\ forall id t, 0 <= resident_bytes t <= 100 -> exists c', lru_insert c id t = Some c' /\ lru_get c' id = Some t.
Proof.
  apply (lru_accounting 100 [OpInsert 3 (mkHot 0 [] [] 60); OpInsert 4 (mkHot 0 [] [] 60)]); [lia|].
  repeat constructor; vm_compute; discriminate.
Defined.

(** The hot tree of a segment is exact.  The tree built bottom-up from the
    columns with the shortcut for empty subtrees, updated by any sequence of slot
    writes that stop at the first unchanged node, has at every level the subtree
    roots of the Merkle tree over the written slots; and the root computed for a
    map of pending updates without changing the tree is the root of the slots
    under those updates. *)
Theorem hot_tree_exact (log : nat) (cols : SegmentColumns) (bytes : Z) (writes : list (nat * SlotValue)) (updates : gmap Z SlotValue) :
  columns_len cols (2 ^ log) = true -> Forall (fun w => (w.1 < 2 ^ log)%nat) writes ->
  map_Forall (fun k _ => 0 <= k < 2 ^ Z.of_nat log) updates ->
  let after := write_slots (fun i => column_slot cols (Z.to_nat i)) ((fun w => (Z.of_nat w.1, w.2)) <$> writes) in
  exists t : ExactSegmentTree (D := StateHash), from_columns log cols bytes = Some t /\
    let t' := foldl (fun t w => hot_set_slot t w.1 w.2) t writes in
    (forall level index, (level <= log)%nat -> 0 <= index < 2 ^ Z.of_nat (log - level) ->
       subtree_root t' level index = Some (tree state_node_hash (fun i => slot_leaf_hash (after i)) level index))
    /\ hot_root t' = tree state_node_hash (fun i => slot_leaf_hash (after i)) log 0
    /\ root_with_updates t' updates = Some (tree state_node_hash (fun i => slot_leaf_hash (patch after updates i)) log 0).
Proof. exact (hot_tree_spec log cols bytes writes updates). Qed.

Lemma hot_tree_exact_witness :
  let cols := mkColumns [0; 5] [0; 1] [0; 2] in
  let after := write_slots (fun i => column_slot cols (Z.to_nat i)) [(0, from_parts 1 2 3 4)] in
  exists t : ExactSegmentTree (D := StateHash), from_columns 1 cols 0 = Some t /\
    let t' := hot_set_slot t 0 (from_parts 1 2 3 4) in
    (forall level index, (level <= 1)%nat -> 0 <= index < 2 ^ Z.of_nat (1 - level) ->
       subtree_root t' level index = Some (tree state_node_hash (fun i => slot_leaf_hash (after i)) level index))
    /\ hot_root t' = tree state_node_hash (fun i => slot_leaf_hash (after i)) 1 0
    /\ root_with_updates t' {[1 := EMPTY]} = Some (tree state_node_hash (fun i => slot_leaf_hash (patch after {[1 := EMPTY]} i)) 1 0).
Proof.
  refine (hot_tree_exact 1 (mkColumns [0; 5] [0; 1] [0; 2]) 0 [(0%nat, from_parts 1 2 3 4)] {[1 := EMPTY]} _ _ _).
  - reflexivity.
  - repeat constructor.
  - apply map_Forall_singleton. cbn. lia.
Defined.
