(* ===== verification/StreamRoot.v ===== *)
(** * Streaming roots and the compact root cache ([noid_chain/src/state.rs])

    [StreamingSparseRoot] folds sorted leaves into a root with a stack of
    completed subtrees, filling the gaps with maximal aligned empty subtrees;
    [ExactSegmentRootCache] keeps one root per segment and the tree above them. *)

From Stdlib Require Import ZArith Lia Bool Sorted.
From stdpp Require Import base numbers list option gmap.
From S2P Require Import Prelude Merkle SparseMerkle StateTree HeapTree HotSegments.
Open Scope Z_scope.

Inductive ExactStateReadError :=
| EvictedSegment (seg_id : Z)
| SegmentRootMismatch (seg_id : Z)
| ReadSparseMerkle (e : SparseMerkleError).

Inductive ApplyExactTransitionError :=
| TransitionSlotOutOfRange
| HeaderLogSlotsMismatch
| TransitionStateRead (e : ExactStateReadError)
| CachedRootMismatch
| TransitionSupplyInvariant.

(** [u64::trailing_zeros] *)
Fixpoint pos_trailing_zeros (p : positive) : nat :=
  match p with
  | xO p => S (pos_trailing_zeros p)
  | _ => 0
  end.
Definition trailing_zeros (x : Z) : nat :=
  match x with
  | Zpos p => pos_trailing_zeros p
  | _ => 64
  end.

(** [1u64.checked_shl(depth)] *)
Definition checked_limit (depth : nat) : result ApplyExactTransitionError Z :=
  if (depth <? 64)%nat then Ok (2 ^ Z.of_nat depth) else Err HeaderLogSlotsMismatch.

Lemma trailing_zeros_spec x : 0 < x -> exists q, x = (2 * q + 1) * 2 ^ Z.of_nat (trailing_zeros x) /\ 0 <= q.
Proof.
  intros Hx. destruct x as [|p|p]; [lia| |lia]. clear Hx. cbn [trailing_zeros].
  induction p as [p IH|p IH|]; cbn [pos_trailing_zeros].
  - exists (Zpos p). change (2 ^ Z.of_nat 0) with 1. lia.
  - destruct IH as (q & E & Hq). exists q. split; [|exact Hq]. rewrite pow2_S, Pos2Z.inj_xO, E. lia.
  - exists 0. change (2 ^ Z.of_nat 0) with 1. lia.
Qed.

Lemma trailing_zeros_bound x (n : nat) : 0 < x <= 2 ^ Z.of_nat n -> (trailing_zeros x <= n)%nat.
Proof.
  intros Hx. destruct (trailing_zeros_spec x ltac:(lia)) as (q & E & Hq).
  destruct (Nat.le_gt_cases (trailing_zeros x) n) as [|Hgt]; [assumption|].
  assert (2 ^ Z.of_nat n < 2 ^ Z.of_nat (trailing_zeros x)) by (apply Z.pow_lt_mono_r; lia). nia.
Qed.

(** An odd multiple of a power of two. *)
Lemma odd_multiple_unique p q (a b : nat) :
  (2 * p + 1) * 2 ^ Z.of_nat a = q * 2 ^ Z.of_nat b -> (b <= a)%nat.
Proof.
  intros E. destruct (Nat.le_gt_cases b a) as [|Hab]; [assumption|]. exfalso.
  replace b with (S (b - S a) + a)%nat in E by lia. rewrite Nat2Z.inj_add, Z.pow_add_r, pow2_S in E by lia.
  pose proof (pow2_gt0 a). assert (2 * p + 1 = q * (2 * 2 ^ Z.of_nat (b - S a))) by nia. lia.
Qed.

Section Streaming.
Context {D : Type} `{!ExactHash D}.

(** ** The streaming root *)

(** The stack with its top first. *)
Record StreamingSparseRoot := mkStream {
  st_depth : nat;
  st_position : Z;
  st_zero_roots : list D;
  st_stack : list (nat * D)
}.

Definition stream_new (depth : nat) : result ApplyExactTransitionError StreamingSparseRoot :=
  _ ← checked_limit depth;
  Ok (mkStream depth 0 (zero_slot_roots hnode empty_hash depth) []).

Fixpoint append_block (stack : list (nat * D)) (level : nat) (hash : D) : list (nat * D) :=
  match stack with
  | (pending_level, l) :: rest =>
      if (pending_level =? level)%nat then append_block rest (level + 1) (hnode l hash) else (level, hash) :: stack
  | [] => [(level, hash)]
  end.

(** The largest aligned block that starts at the position and ends before [end_]. *)
Definition gap_level (depth : nat) (position end_ : Z) : nat :=
  let by_remaining := Z.to_nat (Z.log2 (end_ - position)) in
  let by_alignment := if position =? 0 then depth else Nat.min (trailing_zeros position) depth in
  Nat.min by_remaining by_alignment.

(** [while self.position < end]; blocks grow to the widest and shrink again, so
    [2 * depth + 1] rounds are enough. *)
Fixpoint gap_loop (fuel : nat) (s : StreamingSparseRoot) (end_ : Z) : StreamingSparseRoot :=
  match fuel with
  | O => s
  | S fuel =>
      if st_position s <? end_ then
        let level := gap_level (st_depth s) (st_position s) end_ in
        gap_loop fuel
          (mkStream (st_depth s) (st_position s + 2 ^ Z.of_nat level) (st_zero_roots s)
             (append_block (st_stack s) level (nth level (st_zero_roots s) empty_hash))) end_
      else s
  end.

Definition fill_zero_gap (s : StreamingSparseRoot) (end_ : Z) : result ApplyExactTransitionError StreamingSparseRoot :=
  limit ← checked_limit (st_depth s);
  _ ← ensure (negb ((end_ <? st_position s) || (limit <? end_))) TransitionSlotOutOfRange;
  Ok (gap_loop (2 * st_depth s + 1) s end_).

Definition push_leaf (s : StreamingSparseRoot) (index : Z) (hash : D)
  : result ApplyExactTransitionError StreamingSparseRoot :=
  s ← fill_zero_gap s index;
  Ok (mkStream (st_depth s) (index + 1) (st_zero_roots s) (append_block (st_stack s) 0 hash)).

Definition stream_finish (s : StreamingSparseRoot) : result ApplyExactTransitionError D :=
  limit ← checked_limit (st_depth s);
  s ← fill_zero_gap s limit;
  match st_stack s with
  | [(level, root)] => if (level =? st_depth s)%nat then Ok root else Err HeaderLogSlotsMismatch
  | _ => Err HeaderLogSlotsMismatch
  end.

(** ** Roots of columns *)

(** The slots of a segment under updates; reads past short columns are empty. *)
Definition updated_slot (columns : option SegmentColumns) (updates : gmap Z SlotValue) (local : nat) : SlotValue :=
  match updates !! Z.of_nat local with
  | Some slot => slot
  | None =>
      match columns with
      | None => EMPTY
      | Some columns => if (length (col_values columns) <=? local)%nat then EMPTY else column_slot columns local
      end
  end.

Definition stream_slot (s : StreamingSparseRoot) (local : nat) (slot : SlotValue)
  : result ApplyExactTransitionError StreamingSparseRoot :=
  if is_empty slot then Ok s else push_leaf s (Z.of_nat local) (hleaf slot).

(** The three [expect]s are the failure. *)
Definition exact_segment_root_with_updates (effective_log_seg : nat) (columns : option SegmentColumns)
    (updates : gmap Z SlotValue) : option D :=
  match
    (s ← stream_new effective_log_seg;
     s ← fold_result (fun s local => stream_slot s local (updated_slot columns updates local)) s
           (seq 0 (2 ^ effective_log_seg));
     stream_finish s)
  with
  | Ok root => Some root
  | Err _ => None
  end.

Definition exact_segment_root_from_columns (effective_log_seg : nat) (columns : SegmentColumns) : option D :=
  exact_segment_root_with_updates effective_log_seg (Some columns) ∅.

Definition exact_local_subtree_root (columns : option SegmentColumns) (local_start level : nat) : option D :=
  match columns with
  | None => Some (nth level (zero_slot_roots hnode empty_hash level) empty_hash)
  | Some columns =>
      match
        (s ← stream_new level;
         s ← fold_result (fun s offset => stream_slot s offset (column_slot columns (local_start + offset))) s
               (seq 0 (2 ^ level));
         stream_finish s)
      with
      | Ok root => Some root
      | Err _ => None
      end
  end.

(** ** The compact root cache *)

Record ExactSegmentRootCache := mkRoots {
  rc_log_slots : nat;
  rc_effective_log_seg : nat;
  rc_segment_roots : list D;
  rc_tree : list D
}.

Definition zero_root (log : nat) : D := nth log (zero_slot_roots hnode empty_hash log) empty_hash.

Definition copy_leaves (tree leaves : list D) (count : nat) : list D :=
  foldl (fun tree (p : nat * D) => <[(count + p.1)%nat := p.2]> tree) tree (imap pair leaves).

Definition build_tree (segment_roots : list D) : list D :=
  let count := length segment_roots in
  rebuild hnode hzero (copy_leaves (replicate (2 * count) hzero) segment_roots count) count.

Definition roots_empty (log_slots : nat) : ExactSegmentRootCache :=
  let effective_log_seg := Nat.min log_slots (SEGMENT_LOG) in
  let segment_count := (2 ^ (log_slots - effective_log_seg))%nat in
  let segment_roots := replicate segment_count (zero_root effective_log_seg) in
  mkRoots log_slots effective_log_seg segment_roots (build_tree segment_roots).

Definition roots_root (c : ExactSegmentRootCache) : D :=
  if (length (rc_segment_roots c) =? 1)%nat then nth 0 (rc_segment_roots c) hzero else nth 1 (rc_tree c) hzero.

Definition set_segment_root (c : ExactSegmentRootCache) (segment_id : Z) (root : D) : ExactSegmentRootCache :=
  let index := Z.to_nat segment_id in
  let segment_roots := <[index := root]> (rc_segment_roots c) in
  if (length segment_roots =? 1)%nat
  then mkRoots (rc_log_slots c) (rc_effective_log_seg c) segment_roots (rc_tree c)
  else
    let node := (length segment_roots + index)%nat in
    mkRoots (rc_log_slots c) (rc_effective_log_seg c) segment_roots
      (update_path hnode hzero (<[node := root]> (rc_tree c)) node).

Definition segment_node_hash (c : ExactSegmentRootCache) (level : nat) (node_index : Z) : option D :=
  let count := length (rc_segment_roots c) in
  let upper_depth := Nat.log2 count in
  if (upper_depth <? level)%nat || (Z.shiftr (Z.of_nat count) (Z.of_nat level) <=? node_index) then None
  else if (level =? 0)%nat then rc_segment_roots c !! Z.to_nat node_index
  else rc_tree c !! (Nat.shiftr count level + Z.to_nat node_index)%nat.

Definition roots_expand_one (c : ExactSegmentRootCache) : ExactSegmentRootCache :=
  let old_log_slots := rc_log_slots c in
  let old_root := roots_root c in
  let log_slots := (old_log_slots + 1)%nat in
  if (log_slots <=? SEGMENT_LOG)%nat then
    let segment_roots := <[0%nat := hnode old_root (zero_root old_log_slots)]> (rc_segment_roots c) in
    mkRoots log_slots log_slots segment_roots (build_tree segment_roots)
  else
    let old_count := length (rc_segment_roots c) in
    let segment_roots := rc_segment_roots c ++ replicate old_count (zero_root (rc_effective_log_seg c)) in
    mkRoots log_slots (rc_effective_log_seg c) segment_roots (build_tree segment_roots).

Definition roots_shrink_one (c : ExactSegmentRootCache) : ExactSegmentRootCache :=
  let log_slots := (rc_log_slots c - 1)%nat in
  if (rc_log_slots c <=? SEGMENT_LOG)%nat then
    let segment_roots := [zero_root log_slots] in
    mkRoots log_slots log_slots segment_roots (build_tree segment_roots)
  else
    let segment_roots := take (length (rc_segment_roots c) / 2) (rc_segment_roots c) in
    mkRoots log_slots (rc_effective_log_seg c) segment_roots (build_tree segment_roots).

(** [while self.log_slots > target] *)
Fixpoint roots_shrink_to (fuel : nat) (c : ExactSegmentRootCache) (target : nat) : ExactSegmentRootCache :=
  match fuel with
  | O => c
  | S fuel => if (target <? rc_log_slots c)%nat then roots_shrink_to fuel (roots_shrink_one c) target else c
  end.

(** ** Streaming: correctness *)

(** The stack holds the subtrees of the binary representation of the position,
    the lowest set bit on top. *)
Fixpoint stack_ok (f : Z -> D) (stack : list (nat * D)) (position : Z) : Prop :=
  match stack with
  | [] => position = 0
  | (l, h) :: rest =>
      exists p, 0 <= p /\ position = (2 * p + 1) * 2 ^ Z.of_nat l /\ h = tree hnode f l (2 * p)
        /\ stack_ok f rest (2 * p * 2 ^ Z.of_nat l)
  end.

Lemma append_block_ok f stack level hash q :
  0 <= q -> stack_ok f stack (q * 2 ^ Z.of_nat level) -> hash = tree hnode f level q ->
  stack_ok f (append_block stack level hash) ((q + 1) * 2 ^ Z.of_nat level).
Proof.
  revert level hash q. induction stack as [|[l h] rest IH]; intros level hash q Hq Hs ->; cbn [append_block].
  - cbn [stack_ok] in *. pose proof (pow2_gt0 level). assert (q = 0) as -> by nia. exists 0. repeat split; lia.
  - destruct Hs as (p & Hp & Ep & -> & Hs). symmetry in Ep.
    pose proof (odd_multiple_unique p q l level Ep) as Hl. destruct (Nat.eqb_spec l level) as [->|Hne].
    + pose proof (pow2_gt0 level). assert (q = 2 * p + 1) as -> by nia.
      replace ((2 * p + 1 + 1) * 2 ^ Z.of_nat level) with ((p + 1) * 2 ^ Z.of_nat (level + 1))
        by (rewrite Nat.add_1_r, pow2_S; lia).
      apply IH; [exact Hp| |rewrite Nat.add_1_r; reflexivity]. rewrite Nat.add_1_r, pow2_S.
      now replace (p * (2 * 2 ^ Z.of_nat level)) with (2 * p * 2 ^ Z.of_nat level) by lia.
    + cbn [stack_ok]. assert (El : l = (S (l - S level) + level)%nat) by lia.
      assert (Eq : q = 2 * ((2 * p + 1) * 2 ^ Z.of_nat (l - S level))).
      { rewrite El in Ep at 1. rewrite Nat2Z.inj_add, Z.pow_add_r, pow2_S in Ep by lia. pose proof (pow2_gt0 level). nia. }
      pose proof (pow2_gt0 (l - S level)). exists ((2 * p + 1) * 2 ^ Z.of_nat (l - S level)). split; [nia|]. split; [nia|].
      split; [now rewrite <- Eq|]. exists p. split; [exact Hp|]. split; [now rewrite <- Eq, <- Ep|]. split; [reflexivity|exact Hs].
Qed.

(** The state after streaming the leaves of [f] below the position. *)
Record stream_ok (s : StreamingSparseRoot) (f : Z -> D) : Prop := {
  so_depth : (st_depth s < 64)%nat;
  so_pos : 0 <= st_position s;
  so_zero : st_zero_roots s = zero_slot_roots hnode empty_hash (st_depth s);
  so_stack : stack_ok f (st_stack s) (st_position s)
}.

Lemma stream_new_ok depth f : (depth < 64)%nat ->
  exists s, stream_new depth = Ok s /\ stream_ok s f /\ st_depth s = depth /\ st_position s = 0.
Proof.
  intros Hd. unfold stream_new, checked_limit. apply Nat.ltb_lt in Hd as Hd'. rewrite Hd'. eexists. split; [reflexivity|].
  split; [|split; reflexivity]. constructor; cbn; [exact Hd|lia|reflexivity|reflexivity].
Qed.

Lemma empty_block depth f level q : (level <= depth)%nat ->
  (forall i, q * 2 ^ Z.of_nat level <= i < (q + 1) * 2 ^ Z.of_nat level -> f i = empty_hash) ->
  nth level (zero_slot_roots hnode empty_hash depth) empty_hash = tree hnode f level q.
Proof.
  intros Hl Hf. rewrite (zero_roots_nth hnode empty_hash depth level q Hl). apply tree_local.
  intros i Hi. symmetry. now apply Hf.
Qed.

(** A block of the gap is aligned, in range and maximal. *)
Lemma gap_level_spec depth position end_ : 0 <= position < end_ -> end_ <= 2 ^ Z.of_nat depth ->
  let level := gap_level depth position end_ in
  (level <= depth)%nat /\ position + 2 ^ Z.of_nat level <= end_ /\ (exists q, 0 <= q /\ position = q * 2 ^ Z.of_nat level)
  /\ ((position = 0 /\ level = Nat.min (Z.to_nat (Z.log2 (end_ - position))) depth)
      \/ (0 < position /\ level = Nat.min (Z.to_nat (Z.log2 (end_ - position))) (trailing_zeros position))).
Proof.
  intros Hp He level. pose proof (Z.log2_spec (end_ - position) ltac:(lia)) as [HL _].
  pose proof (Z.log2_nonneg (end_ - position)) as Hn.
  assert (Hrem : forall l, (l <= Z.to_nat (Z.log2 (end_ - position)))%nat -> position + 2 ^ Z.of_nat l <= end_).
  { intros l Hl. assert (2 ^ Z.of_nat l <= 2 ^ Z.log2 (end_ - position)) by (apply Z.pow_le_mono_r; lia). lia. }
  unfold level, gap_level. clear level. destruct (Z.eqb_spec position 0) as [->|Hp0].
  - split; [lia|]. split; [apply Hrem; lia|]. split; [exists 0; lia|]. left. split; [reflexivity|lia].
  - destruct (trailing_zeros_spec position ltac:(lia)) as (q & Eq & Hq).
    pose proof (trailing_zeros_bound position depth ltac:(lia)) as Ht.
    split; [lia|]. split; [apply Hrem; lia|]. split.
    + set (l := Nat.min _ _). assert (Hl : (l <= trailing_zeros position)%nat) by lia.
      exists ((2 * q + 1) * 2 ^ Z.of_nat (trailing_zeros position - l)). split; [pose proof (pow2_gt0 (trailing_zeros position - l)); nia|].
      rewrite <- Z.mul_assoc, <- Z.pow_add_r by lia. rewrite <- Nat2Z.inj_add. now replace (trailing_zeros position - l + l)%nat with (trailing_zeros position) by lia.
    + right. split; [lia|]. lia.
Qed.

Lemma gap_step_ok s f end_ : stream_ok s f -> st_position s < end_ -> end_ <= 2 ^ Z.of_nat (st_depth s) ->
  (forall i, st_position s <= i < end_ -> f i = empty_hash) ->
  let level := gap_level (st_depth s) (st_position s) end_ in
  stream_ok (mkStream (st_depth s) (st_position s + 2 ^ Z.of_nat level) (st_zero_roots s)
    (append_block (st_stack s) level (nth level (st_zero_roots s) empty_hash))) f.
Proof.
  intros [H1 H2 H3 H4] Hp He Hf level.
  destruct (gap_level_spec (st_depth s) (st_position s) end_ ltac:(lia) He) as (Hl & Hend & (q & Hq & Eq) & _).
  fold level in Hl, Hend, Eq. constructor; cbn [st_depth st_position st_zero_roots st_stack]; [exact H1|pose proof (pow2_gt0 level); lia|exact H3|].
  rewrite H3. replace (st_position s + 2 ^ Z.of_nat level) with ((q + 1) * 2 ^ Z.of_nat level) by lia.
  apply append_block_ok; [exact Hq|now rewrite <- Eq|]. apply empty_block; [exact Hl|]. intros i Hi. apply Hf. lia.
Qed.

(** With the remainder below the alignment, one round per level. *)
Lemma gap_loop_shrinking k s f end_ : stream_ok s f -> st_position s <= end_ -> end_ <= 2 ^ Z.of_nat (st_depth s) ->
  (forall i, st_position s <= i < end_ -> f i = empty_hash) ->
  (exists q, st_position s = q * 2 ^ Z.of_nat k) -> (k <= st_depth s)%nat -> end_ - st_position s < 2 ^ Z.of_nat k ->
  forall fuel, (k <= fuel)%nat ->
  stream_ok (gap_loop fuel s end_) f /\ st_position (gap_loop fuel s end_) = end_
  /\ st_depth (gap_loop fuel s end_) = st_depth s.
Proof.
  revert s. induction k as [k IH] using lt_wf_ind. intros s Hs Hp He Hf [q Eq] Hk Hr fuel Hfuel.
  destruct (Z.eq_dec (st_position s) end_) as [Epos|Hne].
  { destruct fuel; cbn [gap_loop]; [auto|]. destruct (Z.ltb_spec (st_position s) end_); [lia|]. auto. }
  destruct fuel as [|fuel].
  { exfalso. assert (k = 0%nat) as -> by lia. change (2 ^ Z.of_nat 0) with 1 in Hr. lia. }
  cbn [gap_loop]. destruct (Z.ltb_spec (st_position s) end_); [|lia]. cbn zeta.
  pose proof (so_pos s f Hs) as Hpos.
  destruct (gap_level_spec (st_depth s) (st_position s) end_ ltac:(lia) He) as (Hl & Hend & (q' & Hq' & Eq') & Hcase).
  pose proof (gap_step_ok s f end_ Hs ltac:(lia) He Hf) as Hs'. cbn zeta in Hs', Hl, Hend, Eq', Hcase.
  assert (HL : 0 <= Z.log2 (end_ - st_position s) < Z.of_nat k).
  { split; [apply Z.log2_nonneg|]. apply Z.log2_lt_pow2; lia. }
  assert (El : gap_level (st_depth s) (st_position s) end_ = Z.to_nat (Z.log2 (end_ - st_position s))).
  { destruct Hcase as [[_ ->]|[Hpp ->]]; [lia|]. destruct (trailing_zeros_spec (st_position s) Hpp) as (r & Er & _).
    pose proof (odd_multiple_unique r q (trailing_zeros (st_position s)) k ltac:(congruence)). lia. }
  pose proof (Z.log2_spec (end_ - st_position s) ltac:(lia)) as [_ HU].
  set (level := gap_level (st_depth s) (st_position s) end_) in *.
  assert (EZ : Z.of_nat level = Z.log2 (end_ - st_position s)) by (rewrite El; lia).
  rewrite Z.pow_succ_r, <- EZ in HU by lia.
  match goal with |- stream_ok (gap_loop _ ?s1 _) _ /\ _ =>
    destruct (IH level ltac:(lia) s1 Hs') with (fuel := fuel) as (R1 & R2 & R3) end;
    cbn [st_position st_depth] in *; [lia|exact He|intros i Hi; apply Hf; pose proof (pow2_gt0 level); lia
      |exists (q' + 1); lia|lia|lia|lia|].
  auto.
Qed.

(** While the alignment grows, one round per level. *)
Lemma gap_loop_growing m k s f end_ : stream_ok s f -> st_position s <= end_ -> end_ <= 2 ^ Z.of_nat (st_depth s) ->
  (forall i, st_position s <= i < end_ -> f i = empty_hash) ->
  (exists q, st_position s = q * 2 ^ Z.of_nat k) -> (k + m = st_depth s)%nat ->
  forall fuel, (m + 1 + st_depth s <= fuel)%nat ->
  stream_ok (gap_loop fuel s end_) f /\ st_position (gap_loop fuel s end_) = end_
  /\ st_depth (gap_loop fuel s end_) = st_depth s.
Proof.
  revert k s. induction m as [m IH] using lt_wf_ind. intros k s Hs Hp He Hf [q Eq] Hk fuel Hfuel.
  destruct (Z.eq_dec (st_position s) end_) as [Epos|Hne].
  { destruct fuel; cbn [gap_loop]; [auto|]. destruct (Z.ltb_spec (st_position s) end_); [lia|]. auto. }
  pose proof (so_pos s f Hs) as Hpos.
  destruct (gap_level_spec (st_depth s) (st_position s) end_ ltac:(lia) He) as (Hl & Hend & (q' & Hq' & Eq') & Hcase).
  pose proof (gap_step_ok s f end_ Hs ltac:(lia) He Hf) as Hs'. cbn zeta in Hs', Hl, Hend, Eq', Hcase.
  pose proof (Z.log2_spec (end_ - st_position s) ltac:(lia)) as [_ HU]. pose proof (Z.log2_nonneg (end_ - st_position s)) as HL0.
  set (L := Z.to_nat (Z.log2 (end_ - st_position s))) in *.
  assert (HU' : end_ - st_position s < 2 ^ Z.of_nat (S L)).
  { unfold L. rewrite Nat2Z.inj_succ, Z2Nat.id by lia. exact HU. }
  (* alignment of the position *)
  assert (Ha : exists a, (k <= a <= st_depth s)%nat /\ (exists r, st_position s = r * 2 ^ Z.of_nat a)
             /\ gap_level (st_depth s) (st_position s) end_ = Nat.min L a
             /\ (a = st_depth s \/ exists r, st_position s = (2 * r + 1) * 2 ^ Z.of_nat a)).
  { destruct Hcase as [[E0 El]|[Hpp El]].
    - exists (st_depth s). split; [lia|]. split; [exists 0; lia|]. auto.
    - destruct (trailing_zeros_spec (st_position s) Hpp) as (r & Er & _). exists (trailing_zeros (st_position s)).
      pose proof (odd_multiple_unique r q (trailing_zeros (st_position s)) k ltac:(congruence)).
      split; [|split; [exists (2 * r + 1); exact Er|split; [exact El|right; exists r; exact Er]]]. split; [lia|].
      apply trailing_zeros_bound. lia. }
  destruct Ha as (a & Hka & [r Er] & El & Hodd).
  destruct (Nat.le_gt_cases a L) as [HaL|HaL].
  - (* a full aligned block *)
    destruct fuel as [|fuel]; [lia|]. cbn [gap_loop]. destruct (Z.ltb_spec (st_position s) end_); [|lia]. cbn zeta.
    set (level := gap_level (st_depth s) (st_position s) end_) in *. assert (Ea : level = a) by lia. clear El. subst a.
    destruct Hodd as [Ed|[w Ew]].
    + (* the whole domain *)
      assert (st_position s = 0) by (rewrite Ed in Er, Hend; pose proof (pow2_gt0 (st_depth s)); nia).
      match goal with |- stream_ok (gap_loop _ ?s1 _) _ /\ _ =>
        destruct (gap_loop_shrinking 0 s1 f end_ Hs') with (fuel := fuel) as (R1 & R2 & R3) end;
        cbn [st_position st_depth] in *; try lia; [|exists (st_position s + 2 ^ Z.of_nat level); lia| |auto].
      * intros i Hi. apply Hf. pose proof (pow2_gt0 level). lia.
      * change (2 ^ Z.of_nat 0) with 1. rewrite Ed in *. lia.
    + destruct (decide (level = st_depth s)) as [Ed|Hd].
      { exfalso. rewrite Ed in Ew. assert (st_position s < 2 ^ Z.of_nat (st_depth s)) by lia.
        pose proof (pow2_gt0 (st_depth s)). revert Ew. generalize dependent (2 ^ Z.of_nat (st_depth s)). clear - Hpos.
        intros P. intros. assert (2 * w + 1 <= -1 \/ 1 <= 2 * w + 1) as [Hw|Hw] by lia; nia. }
      match goal with |- stream_ok (gap_loop _ ?s1 _) _ /\ _ =>
        destruct (IH (st_depth s - S level)%nat ltac:(lia) (S level) s1 Hs') with (fuel := fuel) as (R1 & R2 & R3) end;
        cbn [st_position st_depth] in *; try lia; [|exists (w + 1); rewrite pow2_S; lia|auto].
      intros i Hi. apply Hf. pose proof (pow2_gt0 level). lia.
  - apply (gap_loop_shrinking a s f end_ Hs); try lia; [exact Hf|now exists r|].
    eapply Z.lt_le_trans; [exact HU'|]. apply Z.pow_le_mono_r; lia.
Qed.

Lemma fill_zero_gap_ok s f end_ : stream_ok s f -> st_position s <= end_ <= 2 ^ Z.of_nat (st_depth s) ->
  (forall i, st_position s <= i < end_ -> f i = empty_hash) ->
  exists s', fill_zero_gap s end_ = Ok s' /\ stream_ok s' f /\ st_position s' = end_ /\ st_depth s' = st_depth s.
Proof.
  intros Hs He Hf. pose proof (so_depth s f Hs) as Hd. unfold fill_zero_gap, checked_limit.
  apply Nat.ltb_lt in Hd. rewrite Hd. cbn [mbind result_bind].
  destruct (Z.ltb_spec end_ (st_position s)); [lia|]. destruct (Z.ltb_spec (2 ^ Z.of_nat (st_depth s)) end_); [lia|].
  cbn [orb negb ensure mbind result_bind]. eexists. split; [reflexivity|].
  apply (gap_loop_growing (st_depth s) 0); [exact Hs|lia|lia|exact Hf|exists (st_position s); cbn; lia|lia|lia].
Qed.

Lemma fill_zero_gap_err s end_ : ~ (st_position s <= end_ <= 2 ^ Z.of_nat (st_depth s)) -> (st_depth s < 64)%nat ->
  fill_zero_gap s end_ = Err TransitionSlotOutOfRange.
Proof.
  intros H Hd. unfold fill_zero_gap, checked_limit. apply Nat.ltb_lt in Hd. rewrite Hd. cbn [mbind result_bind].
  destruct (Z.ltb_spec end_ (st_position s)); [reflexivity|]. destruct (Z.ltb_spec (2 ^ Z.of_nat (st_depth s)) end_); [reflexivity|lia].
Qed.

Lemma push_leaf_ok s f index hash : stream_ok s f -> st_position s <= index <= 2 ^ Z.of_nat (st_depth s) ->
  (forall i, st_position s <= i < index -> f i = empty_hash) -> f index = hash ->
  exists s', push_leaf s index hash = Ok s' /\ stream_ok s' f /\ st_position s' = index + 1 /\ st_depth s' = st_depth s.
Proof.
  intros Hs Hi Hf Hh. destruct (fill_zero_gap_ok s f index Hs Hi Hf) as (s1 & E & [S1 S2 S3 S4] & Ep & Ed).
  unfold push_leaf. rewrite E. cbn [mbind result_bind]. eexists. split; [reflexivity|]. cbn [st_position st_depth].
  split; [|split; [reflexivity|exact Ed]]. constructor; cbn [st_depth st_position st_zero_roots st_stack]; [exact S1|lia|exact S3|].
  replace (index + 1) with ((index + 1) * 2 ^ Z.of_nat 0) by (cbn; lia).
  apply append_block_ok; [lia|cbn; rewrite Z.mul_1_r; now rewrite <- Ep|now symmetry].
Qed.

Lemma stream_finish_ok s f : stream_ok s f -> st_position s <= 2 ^ Z.of_nat (st_depth s) ->
  (forall i, st_position s <= i < 2 ^ Z.of_nat (st_depth s) -> f i = empty_hash) ->
  stream_finish s = Ok (tree hnode f (st_depth s) 0).
Proof.
  intros Hs Hp Hf. destruct (fill_zero_gap_ok s f (2 ^ Z.of_nat (st_depth s)) Hs ltac:(lia) Hf) as (s1 & E & [S1 S2 S3 S4] & Ep & Ed).
  unfold stream_finish. unfold checked_limit. pose proof (so_depth s f Hs) as Hd. apply Nat.ltb_lt in Hd. rewrite Hd.
  cbn [mbind result_bind]. rewrite E. cbn [mbind result_bind]. rewrite Ep in S4.
  destruct (st_stack s1) as [|[l h] rest]; [cbn in S4; pose proof (pow2_gt0 (st_depth s)); lia|].
  destruct S4 as (p & Hp0 & Epos & -> & Hrest).
  assert (l = st_depth s /\ p = 0) as [-> ->].
  { pose proof (odd_multiple_unique p 1 l (st_depth s) ltac:(lia)) as Hl.
    assert (2 ^ Z.of_nat (st_depth s) <= 2 ^ Z.of_nat l) by (apply Z.pow_le_mono_r; lia).
    pose proof (pow2_gt0 l). assert (p = 0) as -> by nia. split; [|reflexivity].
    apply Nat2Z.inj. apply (Z.pow_inj_r 2); lia. }
  destruct rest as [|[l' h'] rest]; [now rewrite Ed, Nat.eqb_refl|].
  exfalso. destruct Hrest as (p' & Hp' & E' & _). pose proof (pow2_gt0 l'). nia.
Qed.

(** *** A stream of leaves *)

Definition stream_leaves (depth : nat) (leaves : list (Z * D)) : result ApplyExactTransitionError D :=
  s ← stream_new depth;
  s ← fold_result (fun s l => push_leaf s l.1 l.2) s leaves;
  stream_finish s.

Lemma gap_loop_depth fuel s end_ : st_depth (gap_loop fuel s end_) = st_depth s.
Proof.
  revert s. induction fuel as [|fuel IH]; intros s; cbn [gap_loop]; [reflexivity|].
  destruct (st_position s <? end_); [|reflexivity]. cbn zeta. now rewrite IH.
Qed.

Lemma fill_zero_gap_inv s end_ s' : fill_zero_gap s end_ = Ok s' ->
  st_position s <= end_ <= 2 ^ Z.of_nat (st_depth s) /\ st_depth s' = st_depth s.
Proof.
  unfold fill_zero_gap, checked_limit. destruct (st_depth s <? 64)%nat; cbn [mbind result_bind]; [|discriminate].
  destruct (Z.ltb_spec end_ (st_position s)); [discriminate|]. destruct (Z.ltb_spec (2 ^ Z.of_nat (st_depth s)) end_); [discriminate|].
  cbn [orb negb ensure mbind result_bind]. intros [= <-]. split; [lia|]. apply gap_loop_depth.
Qed.

Lemma push_leaves_inv s leaves s' : fold_result (fun s (l : Z * D) => push_leaf s l.1 l.2) s leaves = Ok s' ->
  st_depth s' = st_depth s /\ st_position s <= st_position s' /\ StronglySorted Z.lt leaves.*1
  /\ Forall (fun i => st_position s <= i < st_position s') leaves.*1.
Proof.
  revert s. induction leaves as [|[i h] leaves IH]; intros s; cbn [fold_result fmap list_fmap fst snd].
  - intros [= <-]. split; [reflexivity|]. split; [lia|]. split; constructor.
  - destruct (push_leaf s i h) as [s0|] eqn:E0; cbn [mbind result_bind]; [|discriminate].
    unfold push_leaf in E0. destruct (fill_zero_gap s i) as [s1|] eqn:E1; cbn [mbind result_bind] in E0; [|discriminate E0].
    injection E0 as <-. intros H. apply IH in H as (H1 & H2 & H3 & H4). cbn [st_depth st_position] in *.
    apply fill_zero_gap_inv in E1 as [E1 E2]. split; [congruence|]. split; [lia|]. split.
    + constructor; [exact H3|]. eapply Forall_impl; [exact H4|]. cbn beta. lia.
    + constructor; [lia|]. eapply Forall_impl; [exact H4|]. cbn beta. lia.
Qed.

(** The leaf function of a sorted list. *)
Lemma apply_leaves_cons f (l : Z * D) leaves : apply_leaves f (l :: leaves) = apply_leaves (update_leaf f l.1 l.2) leaves.
Proof. reflexivity. Qed.

Lemma apply_leaves_other f (leaves : list (Z * D)) i : i ∉ leaves.*1 -> apply_leaves f leaves i = f i.
Proof.
  revert f. induction leaves as [|[j h] leaves IH]; intros f Hi; [reflexivity|]. cbn [fmap list_fmap] in Hi.
  apply not_elem_of_cons in Hi as [Hj Hi]. rewrite apply_leaves_cons, IH by exact Hi. unfold update_leaf. cbn [fst] in *.
  now rewrite decide_False.
Qed.

Lemma push_leaves_ok f s leaves : stream_ok s f -> StronglySorted Z.lt leaves.*1 ->
  Forall (fun i => st_position s <= i < 2 ^ Z.of_nat (st_depth s)) leaves.*1 ->
  Forall (fun l => f l.1 = l.2) leaves ->
  (forall i, st_position s <= i -> i ∉ leaves.*1 -> f i = empty_hash) ->
  st_position s <= 2 ^ Z.of_nat (st_depth s) ->
  exists s', fold_result (fun s (l : Z * D) => push_leaf s l.1 l.2) s leaves = Ok s'
    /\ stream_ok s' f /\ st_depth s' = st_depth s /\ st_position s' <= 2 ^ Z.of_nat (st_depth s)
    /\ forall i, st_position s' <= i -> f i = empty_hash.
Proof.
  revert s. induction leaves as [|[i h] leaves IH]; intros s Hs Hsort Hb Hf He Hp; cbn [fold_result fst snd].
  - exists s. split; [reflexivity|]. split; [exact Hs|]. split; [reflexivity|]. split; [exact Hp|].
    intros i Hi. apply He; [exact Hi|apply not_elem_of_nil].
  - cbn [fmap list_fmap fst] in *. apply StronglySorted_inv in Hsort as [Hsort Hlt]. apply Forall_cons in Hb as [Hi Hb].
    apply Forall_cons in Hf as [Hfi Hf]. cbn [fst snd] in Hfi.
    assert (Hgt : forall j, j ∈ leaves.*1 -> i < j) by (rewrite Forall_forall in Hlt; auto).
    destruct (push_leaf_ok s f i h Hs ltac:(lia)) as (s1 & E & Hs1 & Hp1 & Hd1); [|exact Hfi|].
    { intros j Hj. apply He; [lia|]. rewrite not_elem_of_cons. split; [lia|]. intros Hin. apply Hgt in Hin. lia. }
    rewrite E. cbn [mbind result_bind]. destruct (IH s1 Hs1 Hsort) as (s' & E' & H1 & H2 & H3 & H4); [|exact Hf| | |].
    + rewrite Hd1, Hp1. rewrite Forall_forall in Hb, Hlt |- *. intros j Hj. specialize (Hb j Hj). specialize (Hlt j Hj). lia.
    + intros j Hj Hn. apply He; [lia|]. rewrite not_elem_of_cons. split; [lia|exact Hn].
    + rewrite Hd1. lia.
    + exists s'. rewrite Hd1 in *. auto.
Qed.

Lemma apply_leaves_at f (leaves : list (Z * D)) : NoDup leaves.*1 -> Forall (fun l => apply_leaves f leaves l.1 = l.2) leaves.
Proof.
  revert f. induction leaves as [|[j h] leaves IH]; intros f Hn; constructor.
  - cbn [fmap list_fmap] in Hn. apply NoDup_cons in Hn as [Hj _]. rewrite apply_leaves_cons. cbn [fst snd] in *.
    rewrite apply_leaves_other by exact Hj. unfold update_leaf. now rewrite decide_True.
  - cbn [fmap list_fmap] in Hn. apply NoDup_cons in Hn as [_ Hn]. rewrite apply_leaves_cons. now apply IH.
Qed.

(** Streaming succeeds exactly on strictly increasing positions in range, with
    the root of the tree. *)
Lemma stream_leaves_iff depth leaves root : (depth < 64)%nat -> Forall (fun i => 0 <= i) leaves.*1 ->
  stream_leaves depth leaves = Ok root
  <-> StronglySorted Z.lt leaves.*1 /\ Forall (fun i => i < 2 ^ Z.of_nat depth) leaves.*1
      /\ root = tree hnode (apply_leaves (fun _ => empty_hash) leaves) depth 0.
Proof.
  intros Hd H0. unfold stream_leaves. set (f := apply_leaves (fun _ => empty_hash) leaves).
  destruct (stream_new_ok depth f Hd) as (s & E & Hs & Hsd & Hsp). rewrite E. cbn [mbind result_bind].
  assert (Complete : StronglySorted Z.lt leaves.*1 -> Forall (fun i => i < 2 ^ Z.of_nat depth) leaves.*1 ->
    (s' ← fold_result (fun s (l : Z * D) => push_leaf s l.1 l.2) s leaves; stream_finish s') = Ok (tree hnode f depth 0)).
  { intros Hsort Hb. destruct (push_leaves_ok f s leaves Hs Hsort) as (s' & E' & H1 & H2 & H3 & H4).
    - rewrite Hsd, Hsp. rewrite Forall_forall in *. intros i Hi. specialize (Hb i Hi). specialize (H0 i Hi). lia.
    - apply apply_leaves_at. now apply sorted_nodup.
    - intros i _ Hi. unfold f. now rewrite apply_leaves_other.
    - rewrite Hsd, Hsp. pose proof (pow2_gt0 depth). lia.
    - rewrite E'. cbn [mbind result_bind]. rewrite <- Hsd, <- H2. apply stream_finish_ok; [exact H1|rewrite H2; exact H3|].
      intros i Hi. apply H4. lia. }
  split.
  - intros Hr. destruct (fold_result _ s leaves) as [s'|] eqn:E'; cbn [mbind result_bind] in Hr; [|discriminate Hr].
    destruct (push_leaves_inv s leaves s' E') as (H1 & H2 & H3 & H4).
    assert (Hb : Forall (fun i => i < 2 ^ Z.of_nat depth) leaves.*1).
    { unfold stream_finish in Hr. destruct (checked_limit (st_depth s')) as [limit|] eqn:El; cbn [mbind result_bind] in Hr; [|discriminate Hr].
      unfold checked_limit in El. destruct (st_depth s' <? 64)%nat; [|discriminate El]. injection El as <-.
      destruct (fill_zero_gap s' _) as [s2|] eqn:Ef; cbn [mbind result_bind] in Hr; [|discriminate Hr].
      apply fill_zero_gap_inv in Ef as [Ef _]. rewrite H1, Hsd in Ef. eapply Forall_impl; [exact H4|]. cbn beta. lia. }
    split; [exact H3|]. split; [exact Hb|]. specialize (Complete H3 Hb). cbn [mbind result_bind] in Complete. congruence.
  - intros (Hsort & Hb & ->). now apply Complete.
Qed.

(** *** Roots of columns *)

Lemma stream_slots_ok depth f (g : nat -> SlotValue) m a s :
  stream_ok s f -> st_depth s = depth -> st_position s <= Z.of_nat a -> (a + m <= 2 ^ depth)%nat ->
  (forall i, st_position s <= i < Z.of_nat a -> f i = empty_hash) ->
  (forall j, (a <= j < a + m)%nat -> f (Z.of_nat j) = hleaf (g j)) ->
  exists s', fold_result (fun s local => stream_slot s local (g local)) s (seq a m) = Ok s'
    /\ stream_ok s' f /\ st_depth s' = depth /\ st_position s' <= Z.of_nat (a + m)
    /\ forall i, st_position s' <= i < Z.of_nat (a + m) -> f i = empty_hash.
Proof.
  assert (W : Z.of_nat (2 ^ depth) = 2 ^ Z.of_nat depth) by apply Nat2Z.inj_pow.
  revert a s. induction m as [|m IH]; intros a s Hs Hd Hp Hm He Hf; cbn [seq fold_result].
  - exists s. rewrite Nat.add_0_r. auto.
  - assert (Es : stream_slot s a (g a) = if is_empty (g a) then Ok s else push_leaf s (Z.of_nat a) (hleaf (g a))) by reflexivity.
    rewrite Es. unfold is_empty. destruct (bool_decide_reflect (g a = EMPTY)) as [E|E]; cbn [mbind result_bind].
    + replace (a + S m)%nat with (S a + m)%nat by lia. apply IH; [exact Hs|exact Hd|lia|lia| |intros j Hj; apply Hf; lia].
      intros i Hi. destruct (decide (i < Z.of_nat a)); [apply He; lia|]. replace i with (Z.of_nat a) by lia.
      rewrite Hf by lia. now rewrite E.
    + destruct (push_leaf_ok s f (Z.of_nat a) (hleaf (g a)) Hs) as (s1 & E1 & Hs1 & Hp1 & Hd1); [rewrite Hd; lia|exact He|apply Hf; lia|].
      rewrite E1. cbn [mbind result_bind]. replace (a + S m)%nat with (S a + m)%nat by lia.
      apply IH; [exact Hs1|congruence|lia|lia|intros i Hi; lia|intros j Hj; apply Hf; lia].
Qed.

Lemma stream_segment_ok depth (g : nat -> SlotValue) : (depth < 64)%nat ->
  (s ← stream_new depth;
   s ← fold_result (fun s local => stream_slot s local (g local)) s (seq 0 (2 ^ depth));
   stream_finish s)
  = Ok (tree hnode (fun i => hleaf (g (Z.to_nat i))) depth 0).
Proof.
  intros Hd. set (f := fun i => hleaf (g (Z.to_nat i))). destruct (stream_new_ok depth f Hd) as (s & E & Hs & Hsd & Hsp).
  rewrite E. cbn [mbind result_bind].
  destruct (stream_slots_ok depth f g (2 ^ depth) 0 s Hs Hsd ltac:(lia) ltac:(lia)) as (s' & E' & H1 & H2 & H3 & H4).
  - intros i Hi. lia.
  - intros j _. unfold f. now rewrite Nat2Z.id.
  - assert (W : Z.of_nat (2 ^ depth) = 2 ^ Z.of_nat depth) by apply Nat2Z.inj_pow.
    rewrite E'. cbn [mbind result_bind]. cbn [Nat.add] in *. replace (tree hnode f depth 0) with (tree hnode f (st_depth s') 0) by now rewrite H2.
    apply stream_finish_ok; [exact H1|rewrite H2; lia|rewrite H2; intros i Hi; apply H4; lia].
Qed.

Lemma segment_root_ok log columns updates : (log < 64)%nat ->
  exact_segment_root_with_updates log columns updates
  = Some (tree hnode (fun i => hleaf (updated_slot columns updates (Z.to_nat i))) log 0).
Proof. intros Hl. unfold exact_segment_root_with_updates. now rewrite (stream_segment_ok log (updated_slot columns updates) Hl). Qed.

Lemma local_root_ok columns local_start level : (level < 64)%nat ->
  exact_local_subtree_root columns local_start level
  = Some (tree hnode (fun i => hleaf (match columns with
        | Some c => column_slot c (local_start + Z.to_nat i)
        | None => EMPTY end)) level 0).
Proof.
  intros Hl. destruct columns as [c|]; cbn [exact_local_subtree_root].
  - now rewrite (stream_segment_ok level (fun o => column_slot c (local_start + o)) Hl).
  - now rewrite (zero_roots_nth hnode empty_hash level level 0).
Qed.

(** ** The root cache: correctness *)

(** Trees of trees. *)
Lemma tree_compose (f : Z -> D) a b p : tree hnode (fun s => tree hnode f a s) b p = tree hnode f (b + a) p.
Proof. revert p. induction b as [|b IH]; intros p; cbn [tree Nat.add]; [reflexivity|]. now rewrite !IH. Qed.

Record roots_ok (c : ExactSegmentRootCache) (log : nat) (g : Z -> D) : Prop := {
  ro_log : rc_log_slots c = log;
  ro_eff : rc_effective_log_seg c = Nat.min log SEGMENT_LOG;
  ro_count : length (rc_segment_roots c) = (2 ^ (log - Nat.min log SEGMENT_LOG))%nat;
  ro_roots : forall i, (i < length (rc_segment_roots c))%nat -> rc_segment_roots c !! i = Some (g (Z.of_nat i));
  ro_tree_length : length (rc_tree c) = (2 * length (rc_segment_roots c))%nat;
  ro_tree : length (rc_segment_roots c) <> 1%nat -> heap_of hnode hzero (rc_tree c) (log - Nat.min log SEGMENT_LOG) g
}.

Lemma copy_leaves_spec t leaves count : (count + length leaves <= length t)%nat ->
  length (copy_leaves t leaves count) = length t
  /\ forall p, (p < length leaves)%nat -> copy_leaves t leaves count !! (count + p)%nat = leaves !! p.
Proof.
  unfold copy_leaves. revert t. induction leaves as [|d leaves IH] using rev_ind; intros t Hl.
  - cbn. split; [reflexivity|]. intros p Hp. cbn in Hp. lia.
  - rewrite length_app in Hl. cbn [length] in Hl. rewrite imap_app, foldl_app. cbn [imap foldl fst snd].
    destruct (IH t ltac:(lia)) as [H1 H2]. rewrite Nat.add_0_r. rewrite length_insert. split; [exact H1|]. intros p Hp.
    rewrite length_app in Hp. cbn [length] in Hp. destruct (decide (p = length leaves)) as [->|Hne].
    + rewrite list_lookup_insert_eq by lia. now rewrite lookup_app_r, Nat.sub_diag by lia.
    + rewrite list_lookup_insert_ne by lia. rewrite H2 by lia. now rewrite lookup_app_l by lia.
Qed.

Lemma build_tree_ok roots n g : length roots = (2 ^ n)%nat ->
  (forall i, (i < length roots)%nat -> roots !! i = Some (g (Z.of_nat i))) ->
  length (build_tree roots) = (2 * length roots)%nat /\ heap_of hnode hzero (build_tree roots) n g.
Proof.
  intros Hn Hr. unfold build_tree. cbn zeta.
  destruct (copy_leaves_spec (replicate (2 * length roots) hzero) roots (length roots)) as [H1 H2];
    [rewrite length_replicate; lia|]. rewrite length_replicate in H1. split.
  - unfold rebuild. now rewrite recompute_length.
  - rewrite Hn in *. apply rebuild_heap; [rewrite H1; lia|]. intros p Hp. rewrite nth_lookup, H2, Hr by lia. reflexivity.
Qed.

Lemma roots_root_ok c log g : roots_ok c log g -> roots_root c = tree hnode g (log - Nat.min log SEGMENT_LOG) 0.
Proof.
  intros [H1 H2 H3 H4 H5 H6]. unfold roots_root. destruct (Nat.eqb_spec (length (rc_segment_roots c)) 1) as [E|E].
  - rewrite nth_lookup, H4 by lia. cbn. rewrite E in H3.
    assert (Hz : (log - Nat.min log SEGMENT_LOG)%nat = 0%nat).
    { destruct (log - Nat.min log SEGMENT_LOG)%nat as [|n]; [reflexivity|]. cbn [Nat.pow] in H3. lia. }
    now rewrite Hz.
  - exact (heap_root _ _ _ _ _ (H6 E)).
Qed.

Lemma set_segment_root_ok c log g id root : roots_ok c log g -> 0 <= id < Z.of_nat (length (rc_segment_roots c)) ->
  roots_ok (set_segment_root c id root) log (update_leaf g id root).
Proof.
  intros [H1 H2 H3 H4 H5 H6] Hi. unfold set_segment_root. cbn zeta.
  assert (R : forall i, (i < length (rc_segment_roots c))%nat ->
    <[Z.to_nat id := root]> (rc_segment_roots c) !! i = Some (update_leaf g id root (Z.of_nat i))).
  { intros i Hli. unfold update_leaf. destruct (decide (Z.of_nat i = id)) as [<-|Hne].
    - rewrite Nat2Z.id. now rewrite list_lookup_insert_eq.
    - rewrite list_lookup_insert_ne by lia. now apply H4. }
  rewrite length_insert. destruct (Nat.eqb_spec (length (rc_segment_roots c)) 1) as [E|E].
  - constructor; cbn [rc_log_slots rc_effective_log_seg rc_segment_roots rc_tree]; try rewrite length_insert; try assumption.
    intros; contradiction.
  - constructor; cbn [rc_log_slots rc_effective_log_seg rc_segment_roots rc_tree]; try rewrite length_insert; try assumption.
    + unfold update_path. now rewrite recompute_length, length_insert.
    + intros _. rewrite H3 in *. pose proof (H6 E) as Hh.
      pose proof (update_path_heap hnode hzero (rc_tree c) _ g (Z.to_nat id) root Hh ltac:(lia) ltac:(lia)) as U.
      rewrite Z2Nat.id in U by lia. exact U.
Qed.

Lemma segment_node_hash_ok c log g level index : roots_ok c log g -> (level <= log - Nat.min log SEGMENT_LOG)%nat ->
  0 <= index < 2 ^ Z.of_nat (log - Nat.min log SEGMENT_LOG - level) ->
  segment_node_hash c level index = Some (tree hnode g level index).
Proof.
  intros [H1 H2 H3 H4 H5 H6] Hl Hi. unfold segment_node_hash. cbn zeta. rewrite H3 in *.
  set (n := (log - Nat.min log SEGMENT_LOG)%nat) in *. rewrite Nat.log2_pow2 by lia.
  assert (W : Z.of_nat (2 ^ (n - level)) = 2 ^ Z.of_nat (n - level)) by apply Nat2Z.inj_pow.
  assert (Q : (2 ^ n / 2 ^ level = 2 ^ (n - level))%nat).
  { replace n with (n - level + level)%nat at 1 by lia. rewrite Nat.pow_add_r, Nat.div_mul by (apply Nat.pow_nonzero; lia). reflexivity. }
  destruct (Nat.ltb_spec n level); [lia|]. cbn [orb].
  rewrite Z.shiftr_div_pow2 by lia. change (2 ^ Z.of_nat level) with (Z.of_nat 2 ^ Z.of_nat level).
  rewrite <- Nat2Z.inj_pow, <- Nat2Z.inj_div, Q, W. destruct (Z.leb_spec (2 ^ Z.of_nat (n - level)) index); [lia|].
  destruct (Nat.eqb_spec level 0) as [->|Hl0].
  - rewrite Nat.sub_0_r in *. cbn [tree]. rewrite H4 by lia. now rewrite Z2Nat.id by lia.
  - rewrite Nat.shiftr_div_pow2, Q. assert (Hne : (2 ^ n)%nat <> 1%nat).
    { destruct n as [|n]; [lia|]. cbn [Nat.pow]. pose proof (pow2_nat n). lia. }
    pose proof (H6 Hne level (Z.to_nat index) Hl ltac:(lia)) as Hh. rewrite nth_lookup in Hh. rewrite Z2Nat.id in Hh by lia.
    destruct (rc_tree c !! (2 ^ (n - level) + Z.to_nat index)%nat) eqn:E; [cbn in Hh; now rewrite Hh|].
    apply lookup_ge_None in E. assert (2 ^ (n - level) <= 2 ^ n)%nat by (apply Nat.pow_le_mono_r; lia). lia.
Qed.

(** Roots of the segments of a slot function. *)
Definition segment_roots_of (slots : Z -> SlotValue) (log : nat) (s : Z) : D :=
  tree hnode (fun i => hleaf (slots i)) (Nat.min log SEGMENT_LOG) s.

Lemma roots_of_root (slots : Z -> SlotValue) log :
  tree hnode (segment_roots_of slots log) (log - Nat.min log SEGMENT_LOG) 0 = tree hnode (fun i => hleaf (slots i)) log 0.
Proof.
  unfold segment_roots_of. rewrite tree_compose. f_equal. lia.
Qed.

Lemma empty_subtree (slots : Z -> SlotValue) l p :
  (forall i, p * 2 ^ Z.of_nat l <= i < (p + 1) * 2 ^ Z.of_nat l -> slots i = EMPTY) ->
  tree hnode (fun i => hleaf (slots i)) l p = zero_root l.
Proof.
  intros H. unfold zero_root. symmetry. apply empty_block; [lia|]. intros i Hi. now rewrite H.
Qed.

Lemma pow_count (a b : nat) : (b <= a)%nat -> Z.of_nat (2 ^ (a - b)) * 2 ^ Z.of_nat b = 2 ^ Z.of_nat a.
Proof.
  intros Hb. rewrite Nat2Z.inj_pow. change (Z.of_nat 2) with 2. rewrite <- Z.pow_add_r, <- Nat2Z.inj_add by lia. f_equal. lia.
Qed.

(** A built cache. *)
Lemma roots_build log eff roots g : eff = Nat.min log SEGMENT_LOG -> length roots = (2 ^ (log - Nat.min log SEGMENT_LOG))%nat ->
  (forall i, (i < length roots)%nat -> roots !! i = Some (g (Z.of_nat i))) ->
  roots_ok (mkRoots log eff roots (build_tree roots)) log g.
Proof.
  intros -> Hl Hr. destruct (build_tree_ok roots _ g Hl Hr) as [H1 H2].
  constructor; cbn [rc_log_slots rc_effective_log_seg rc_segment_roots rc_tree]; auto.
Qed.

Lemma roots_empty_ok log : roots_ok (roots_empty log) log (segment_roots_of (fun _ => EMPTY) log).
Proof.
  unfold roots_empty. cbn zeta. apply roots_build; [reflexivity|apply length_replicate|]. intros i Hi. rewrite length_replicate in Hi.
  rewrite lookup_replicate_2 by exact Hi. f_equal. symmetry. now apply empty_subtree.
Qed.

Lemma roots_expand_ok c log slots : roots_ok c log (segment_roots_of slots log) ->
  (forall i, 2 ^ Z.of_nat log <= i -> slots i = EMPTY) ->
  roots_ok (roots_expand_one c) (S log) (segment_roots_of slots (S log)).
Proof.
  intros Hc He. pose proof (roots_root_ok c log _ Hc) as Hroot. rewrite roots_of_root in Hroot.
  destruct Hc as [H1 H2 H3 H4 H5 H6]. unfold roots_expand_one. cbn zeta. rewrite H1, H2, Nat.add_1_r.
  destruct (Nat.leb_spec (S log) SEGMENT_LOG) as [Hs|Hs].
  - replace (Nat.min log SEGMENT_LOG) with log in H3 by lia. rewrite Nat.sub_diag in H3. cbn [Nat.pow] in H3.
    destruct (rc_segment_roots c) as [|r [|r' rest]]; cbn [length] in H3; try lia. cbn [insert list_insert].
    apply roots_build; [lia|..].
    + replace (S log - Nat.min (S log) SEGMENT_LOG)%nat with 0%nat by lia. reflexivity.
    + intros i Hi. cbn [length] in Hi. assert (i = 0%nat) as -> by lia. cbn [lookup list_lookup]. f_equal.
      unfold segment_roots_of. replace (Nat.min (S log) SEGMENT_LOG) with (S log) by lia. cbn [tree]. f_equal; [exact Hroot|].
      symmetry. apply empty_subtree. intros j Hj. apply He. lia.
  - replace (Nat.min log SEGMENT_LOG) with SEGMENT_LOG in * by lia.
    apply roots_build; [lia|..].
    + rewrite length_app, length_replicate, H3. replace (Nat.min (S log) SEGMENT_LOG) with SEGMENT_LOG by lia.
      replace (S log - SEGMENT_LOG)%nat with (S (log - SEGMENT_LOG)) by lia. cbn [Nat.pow]. lia.
    + intros i Hi. rewrite length_app, length_replicate in Hi. unfold segment_roots_of in *.
      replace (Nat.min (S log) SEGMENT_LOG) with SEGMENT_LOG by lia. replace (Nat.min log SEGMENT_LOG) with SEGMENT_LOG in H4 by lia.
      destruct (Nat.lt_ge_cases i (length (rc_segment_roots c))) as [Hlt|Hge].
      * rewrite lookup_app_l by lia. now apply H4.
      * rewrite lookup_app_r by lia. rewrite lookup_replicate_2 by lia. f_equal. symmetry. apply empty_subtree.
        intros j Hj. apply He. rewrite <- (pow_count log SEGMENT_LOG) by lia. rewrite <- H3. pose proof (pow2_gt0 SEGMENT_LOG). nia.
Qed.

(** Shrinking below one segment leaves a placeholder for the refresh that
    follows. *)
Lemma roots_shrink_ok c log g : roots_ok c (S log) g ->
  roots_ok (roots_shrink_one c) log (if (S log <=? SEGMENT_LOG)%nat then fun _ => zero_root log else g).
Proof.
  intros [H1 H2 H3 H4 H5 H6]. unfold roots_shrink_one. cbn zeta. rewrite H1, H2. replace (S log - 1)%nat with log by lia.
  destruct (Nat.leb_spec (S log) SEGMENT_LOG) as [Hs|Hs].
  - apply roots_build; [lia|..].
    + replace (log - Nat.min log SEGMENT_LOG)%nat with 0%nat by lia. reflexivity.
    + intros i Hi. cbn [length] in Hi. assert (i = 0%nat) as -> by lia. reflexivity.
  - assert (E : (length (rc_segment_roots c) = 2 * 2 ^ (log - SEGMENT_LOG))%nat).
    { rewrite H3. replace (Nat.min (S log) SEGMENT_LOG) with SEGMENT_LOG by lia.
      replace (S log - SEGMENT_LOG)%nat with (S (log - SEGMENT_LOG)) by lia. reflexivity. }
    assert (Hh : (length (rc_segment_roots c) / 2 = 2 ^ (log - SEGMENT_LOG))%nat) by (rewrite E, Nat.mul_comm; apply Nat.div_mul; lia).
    rewrite Hh. replace (Nat.min (S log) SEGMENT_LOG) with (Nat.min log SEGMENT_LOG) in * by lia. apply roots_build; [reflexivity|..].
    + rewrite length_take. replace (Nat.min log SEGMENT_LOG) with SEGMENT_LOG by lia. lia.
    + intros i Hi. rewrite length_take in Hi. rewrite lookup_take_lt by lia. now rewrite H4 by lia.
Qed.
End Streaming.

(** The streamed root is exact.  Feeding leaves to the streaming builder, which
    keeps only a stack of finished blocks and fills gaps with the widest aligned
    empty blocks, succeeds precisely when the positions are strictly increasing
    and inside the tree, and then returns the root of the full sparse Merkle
    tree, with the empty slot at every other position. *)
Theorem streaming_root_exact (depth : nat) (leaves : list (Z * StateHash)) (root : StateHash) :
  (depth < 64)%nat -> Forall (fun i => 0 <= i) leaves.*1 ->
  stream_leaves depth leaves = Ok root
  <-> StronglySorted Z.lt leaves.*1 /\ Forall (fun i => i < 2 ^ Z.of_nat depth) leaves.*1
      /\ root = tree state_node_hash (apply_leaves (fun _ => slot_leaf_hash EMPTY) leaves) depth 0.
Proof. exact (stream_leaves_iff depth leaves root). Qed.

Lemma streaming_root_witness :
  stream_leaves 5 [(2, replicate 32 7); (9, replicate 32 8)] = Ok (replicate 32 0)
  <-> StronglySorted Z.lt [2; 9] /\ Forall (fun i => i < 2 ^ Z.of_nat 5) [2; 9]
      /\ replicate 32 0 = tree state_node_hash (apply_leaves (fun _ => slot_leaf_hash EMPTY) [(2, replicate 32 7); (9, replicate 32 8)]) 5 0.
Proof.
  refine (streaming_root_exact 5 [(2, replicate 32 7); (9, replicate 32 8)] (replicate 32 0) _ _); [lia|].
  cbn [fmap list_fmap fst]. repeat constructor; lia.
Defined.
