(* ===== verification/Segmented.v ===== *)
(** * Segmented slot state ([noid_chain/src/segmented_state.rs])

    The slot vector in segments of [2 ^ 16] slots: columns that are resident,
    virtual (all empty) or evicted to the database, live counts, dirty sets, the
    hot-segment tree cache, and the raw segment commitment tree with its
    incremental updates; slot writes, eviction and restoration, and the
    expansion and shrinking of the domain. *)

From Stdlib Require Import ZArith Lia Bool Sorted.
From stdpp Require Import base numbers list option gmap sorting.
From S2P Require Import Prelude Merkle SparseMerkle StateTree HeapTree HotSegments StreamRoot.
Open Scope Z_scope.

Inductive StateError := SlotOutOfRange.

Inductive StateResizeError :=
| InvalidTarget (current target : nat)
| EvictedUpperSegment (seg_id : Z)
| NonEmptyUpperHalf (seg_id : Z).

(** The raw segment commitment: the compression of the tree above the segments,
    the commitment of the columns of one segment, and the bytes the allocator
    gave to its columns. *)
Class RawCommit (D : Type) := {
  raw_node : D -> D -> D;
  compute_seg_root : nat -> SegmentColumns -> D;
  column_capacity : SegmentColumns -> Z
}.

Section Segmented.
Context {D : Type} `{!ExactHash D} `{!RawCommit D}.

(** ** State *)

(** The fields that serve the raw commitment. *)
Record RawCommitment := mkRaw {
  seg_roots : list (option D);
  raw_tree : list D;
  tree_dirty : bool;
  dirty : gset Z;
  dirty_tree_leaves : gset Z
}.

Record SegmentedFriState := mkState {
  log_slots : nat;
  effective_log_seg : nat;
  num_segments : nat;
  segments : list (option SegmentColumns);
  live_counts : list Z;
  raw : RawCommitment;
  mdbx_dirty : gset Z;
  exact_dirty : gset Z;
  exact_segment_cache : ExactSegmentCache (D := D);
  evicted : gset Z
}.

Definition zero_seg_root_for (log_size : nat) : D := compute_seg_root log_size (new_zero (2 ^ log_size)).

Definition raw_rebuild (tree : list D) (num_segments : nat) : list D := rebuild raw_node hzero tree num_segments.

Definition DEFAULT_CACHE_BYTES : Z := 64 * 1024 * 1024.

Definition new_empty (log : nat) : option SegmentedFriState :=
  if (1 <=? log)%nat then
    let effective := Nat.min log SEGMENT_LOG in
    let num := if (SEGMENT_LOG <? log)%nat then (2 ^ (log - SEGMENT_LOG))%nat else 1%nat in
    let zero_leaf := zero_seg_root_for effective in
    let tree := copy_leaves (replicate (2 * num + 1) hzero) (replicate num zero_leaf) num in
    Some (mkState log effective num (replicate num None) (replicate num 0)
            (mkRaw (replicate num (Some zero_leaf)) (raw_rebuild tree num) false ∅ ∅)
            ∅ ∅ (lru_default DEFAULT_CACHE_BYTES) ∅)
  else None.

(** ** Reading *)

Definition num_slots (s : SegmentedFriState) : Z := 2 ^ Z.of_nat (log_slots s).

Definition seg_id_of (s : SegmentedFriState) (idx : Z) : Z := Z.shiftr idx (Z.of_nat (effective_log_seg s)) mod 2 ^ 16.

Definition local_idx_of (s : SegmentedFriState) (idx : Z) : Z :=
  Z.land idx (Z.shiftl 1 (Z.of_nat (effective_log_seg s)) - 1) mod 2 ^ 16.

Definition try_get_segment_columns (s : SegmentedFriState) (seg : Z) : option SegmentColumns :=
  default None (segments s !! Z.to_nat seg).

Definition segment_live_count (s : SegmentedFriState) (seg : Z) : Z := default 0 (live_counts s !! Z.to_nat seg).

Definition slot (s : SegmentedFriState) (idx : Z) : SlotValue :=
  match try_get_segment_columns s (seg_id_of s idx) with
  | None => EMPTY
  | Some cols => column_slot cols (Z.to_nat (local_idx_of s idx))
  end.

Definition is_evicted (s : SegmentedFriState) (seg : Z) : bool := bool_decide (seg ∈ evicted s).

(** [zip] stops at the shortest column. *)
Definition count_live (cols : SegmentColumns) : Z :=
  Z.of_nat (length (filter (fun p : (Z * Z) * Z => p.1.1 <> 0 \/ p.1.2 <> 0 \/ p.2 <> 0)
    (zip (zip (col_values cols) (col_owners_hi cols)) (col_owners_lo cols)))).

Definition active_segment_ids (s : SegmentedFriState) : list Z :=
  (fun p : nat * Z => Z.of_nat p.1) <$> filter (fun p : nat * Z => 0 < p.2) (imap pair (live_counts s)).

(** ** Writing *)

Definition write_column (cols : SegmentColumns) (loc : nat) (v : SlotValue) : SegmentColumns :=
  mkColumns (<[loc := value v]> (col_values cols)) (<[loc := owner_hi v]> (col_owners_hi cols))
    (<[loc := owner_lo v]> (col_owners_lo cols)).

(** A stale commitment: [seg_roots\[seg\] = None; dirty.insert(seg); tree_dirty = true] *)
Definition raw_stale (r : RawCommitment) (seg : Z) : RawCommitment :=
  mkRaw (<[Z.to_nat seg := None]> (seg_roots r)) (raw_tree r) true ({[seg]} ∪ dirty r) (dirty_tree_leaves r).

Definition live_after (live : Z) (old_empty new_empty : bool) : Z :=
  match old_empty, new_empty with
  | true, false => Z.min (live + 1) (2 ^ 32 - 1)
  | false, true => Z.max (live - 1) 0
  | _, _ => live
  end.

(** One round of [apply_delta_in_place]. *)
Definition apply_one (s : SegmentedFriState) (d : Z * SlotValue) : SegmentedFriState :=
  let '(idx, v) := d in
  let seg := seg_id_of s idx in
  let loc := Z.to_nat (local_idx_of s idx) in
  let seg_idx := Z.to_nat seg in
  let old := slot s idx in
  if bool_decide (old = v) then s
  else
    let resident := try_get_segment_columns s seg in
    if bool_decide (resident = None) && is_empty v then s
    else
      let cols := default (new_zero (2 ^ effective_log_seg s)) resident in
      let evicted1 := match resident with None => evicted s ∖ {[seg]} | Some _ => evicted s end in
      let cols := write_column cols loc v in
      let live := live_after (segment_live_count s seg) (is_empty old) (is_empty v) in
      let live_counts := <[seg_idx := live]> (live_counts s) in
      let '(segments, evicted, cache) :=
        if live =? 0
        then (<[seg_idx := None]> (segments s), evicted1 ∖ {[seg]}, lru_remove (exact_segment_cache s) seg)
        else (<[seg_idx := Some cols]> (segments s), evicted1, lru_update_slot (exact_segment_cache s) seg loc v) in
      mkState (log_slots s) (effective_log_seg s) (num_segments s) segments live_counts (raw_stale (raw s) seg)
        ({[seg]} ∪ mdbx_dirty s) ({[seg]} ∪ exact_dirty s) cache evicted.

Definition apply_delta_unrooted (s : SegmentedFriState) (deltas : list (Z * SlotValue))
  : result StateError SegmentedFriState :=
  if existsb (fun d => num_slots s <=? d.1) deltas then Err SlotOutOfRange
  else Ok (foldl apply_one s deltas).

(** ** The raw commitment *)

Definition with_raw (s : SegmentedFriState) (r : RawCommitment) : SegmentedFriState :=
  mkState (log_slots s) (effective_log_seg s) (num_segments s) (segments s) (live_counts s) r (mdbx_dirty s)
    (exact_dirty s) (exact_segment_cache s) (evicted s).

(** The assertion that the segment is resident is the failure. *)
Definition flush_segment (s : SegmentedFriState) (seg : Z) : option SegmentedFriState :=
  let r := raw s in
  let id := Z.to_nat seg in
  if negb (bool_decide (seg ∈ dirty r)) && match seg_roots r !! id with Some (Some _) => true | _ => false end
  then Some s
  else if is_evicted s seg then None
  else
    let seg_root := match try_get_segment_columns s seg with
      | None => zero_seg_root_for (effective_log_seg s)
      | Some cols => compute_seg_root (effective_log_seg s) cols
      end in
    let roots := <[id := Some seg_root]> (seg_roots r) in
    let dirty' := dirty r ∖ {[seg]} in
    Some (with_raw s
      (if (1 <? num_segments s)%nat
       then mkRaw roots (<[(num_segments s + id)%nat := seg_root]> (raw_tree r)) true dirty'
              ({[seg]} ∪ dirty_tree_leaves r)
       else mkRaw roots (raw_tree r) (tree_dirty r) dirty' (dirty_tree_leaves r))).

(** The nodes above the dirty leaves, children first. *)
Definition nodes_to_update (num : nat) (leaves : gset Z) : list nat :=
  let ks := elements leaves ≫= fun seg => ancestors (num + Z.to_nat seg) (num + Z.to_nat seg) in
  rev (merge_sort le (remove_dups ks)).

Definition flush_tree (s : SegmentedFriState) : SegmentedFriState :=
  let r := raw s in
  let n := num_segments s in
  with_raw s
    (if negb (tree_dirty r) || (n <=? 1)%nat then mkRaw (seg_roots r) (raw_tree r) false (dirty r) ∅
     else if bool_decide (dirty_tree_leaves r = ∅)
     then mkRaw (seg_roots r) (raw_rebuild (raw_tree r) n) false (dirty r) (dirty_tree_leaves r)
     else mkRaw (seg_roots r) (recompute raw_node hzero (raw_tree r) (nodes_to_update n (dirty_tree_leaves r)))
            false (dirty r) ∅).

(** In some order of the set. *)
Definition flush_all_dirty (s : SegmentedFriState) : option SegmentedFriState :=
  s ← fold_option flush_segment s (elements (dirty (raw s)));
  Some (flush_tree s).

Definition root (s : SegmentedFriState) : option (D * SegmentedFriState) :=
  s ← flush_all_dirty s;
  Some (if (num_segments s =? 1)%nat
        then default (zero_seg_root_for (effective_log_seg s)) (default None (seg_roots (raw s) !! 0%nat))
        else nth 1 (raw_tree (raw s)) hzero, s).

(** A failed update leaves the state; a panic is [None]. *)
Definition apply_delta (s : SegmentedFriState) (deltas : list (Z * SlotValue))
  : option (result StateError D * SegmentedFriState) :=
  match apply_delta_unrooted s deltas with
  | Err e => Some (Err e, s)
  | Ok s => r ← root s; Some (Ok r.1, r.2)
  end.

(** ** Dirty sets, residency and the tree cache *)

Definition with_residency (s : SegmentedFriState) (segs : list (option SegmentColumns)) (live : list Z)
    (cache : ExactSegmentCache) (ev : gset Z) : SegmentedFriState :=
  mkState (log_slots s) (effective_log_seg s) (num_segments s) segs live (raw s) (mdbx_dirty s) (exact_dirty s) cache ev.

Definition with_dirty (s : SegmentedFriState) (mdbx exact : gset Z) : SegmentedFriState :=
  mkState (log_slots s) (effective_log_seg s) (num_segments s) (segments s) (live_counts s) (raw s) mdbx exact
    (exact_segment_cache s) (evicted s).

Definition clear_dirty (s : SegmentedFriState) : SegmentedFriState := with_dirty s ∅ (exact_dirty s).

Definition clear_exact_dirty (s : SegmentedFriState) : SegmentedFriState := with_dirty s (mdbx_dirty s) ∅.

Definition cached_exact_segment_tree (s : SegmentedFriState) (seg : Z) : option ExactSegmentTree :=
  lru_get (exact_segment_cache s) seg.

Definition remember_exact_segment_tree (s : SegmentedFriState) (seg : Z) (t : ExactSegmentTree) : option SegmentedFriState :=
  if negb (segment_live_count s seg =? 0) && negb (is_evicted s seg)
  then cache ← lru_insert (exact_segment_cache s) seg t;
       Some (with_residency s (segments s) (live_counts s) cache (evicted s))
  else Some s.

Definition exact_segment_root (s : SegmentedFriState) (seg : Z)
  : exec ExactStateReadError (D * SegmentedFriState) :=
  if is_evicted s seg then Fail (EvictedSegment seg)
  else
    match lru_get (exact_segment_cache s) seg with
    | Some t => mret (hot_root t, s)
    | None =>
        match try_get_segment_columns s seg with
        | None => mret (zero_root (effective_log_seg s), s)
        | Some columns =>
            t ← expect (from_columns (effective_log_seg s) columns (column_capacity columns));
            s ← expect (remember_exact_segment_tree s seg t);
            mret (hot_root t, s)
        end
    end.

Definition exact_sparse_cache (s : SegmentedFriState) : exec ExactStateReadError (SparseMerkleCache (D := D)) :=
  leaves ← foldr (fun seg rest =>
      match try_get_segment_columns s seg with
      | None => Fail (EvictedSegment seg)
      | Some cols =>
          leaves ← rest;
          mret (omap (fun local => let v := column_slot cols local in
                  if is_empty v then None
                  else Some (Z.lor (Z.shiftl seg (Z.of_nat (effective_log_seg s))) (Z.of_nat local), hleaf v))
                (seq 0 (2 ^ effective_log_seg s)) ++ leaves)
      end) (mret []) (active_segment_ids s);
  match from_leaves hnode empty_hash (log_slots s) leaves with
  | Ok c => mret c
  | Err e => Fail (ReadSparseMerkle e)
  end.

Definition evict_segment (s : SegmentedFriState) (seg : Z) : SegmentedFriState :=
  let cache := lru_remove (exact_segment_cache s) seg in
  match try_get_segment_columns s seg with
  | Some _ => with_residency s (<[Z.to_nat seg := None]> (segments s)) (live_counts s) cache ({[seg]} ∪ evicted s)
  | None => with_residency s (segments s) (live_counts s) cache (evicted s)
  end.

Definition state_restore_evicted_segment (s : SegmentedFriState) (seg : Z) (cols : SegmentColumns) : SegmentedFriState :=
  let cache := lru_remove (exact_segment_cache s) seg in
  let live := count_live cols in
  let s := with_residency s (<[Z.to_nat seg := if live =? 0 then None else Some cols]> (segments s))
             (<[Z.to_nat seg := live]> (live_counts s)) cache (evicted s ∖ {[seg]}) in
  with_raw s (raw_stale (raw s) seg).

Definition evict_clean_segments (s : SegmentedFriState) : SegmentedFriState :=
  foldl (fun s id =>
    let seg := Z.of_nat id in
    match try_get_segment_columns s seg with
    | Some _ =>
        if bool_decide (seg ∈ mdbx_dirty s) then s
        else with_residency s (<[id := None]> (segments s)) (live_counts s)
               (lru_remove (exact_segment_cache s) seg) ({[seg]} ∪ evicted s)
    | None => s
    end) s (seq 0 (num_segments s)).

(** The assertion that nothing waits for the database is the failure. *)
Definition evict_all_persisted_segments (s : SegmentedFriState) : option SegmentedFriState :=
  if bool_decide (mdbx_dirty s = ∅) then
    let s := with_residency s (segments s) (live_counts s) (lru_clear (exact_segment_cache s)) (evicted s) in
    Some (foldl (fun s id =>
      let seg := Z.of_nat id in
      match try_get_segment_columns s seg with
      | Some _ =>
          if segment_live_count s seg =? 0 then s
          else with_residency s (<[id := None]> (segments s)) (live_counts s) (exact_segment_cache s) ({[seg]} ∪ evicted s)
      | None => s
      end) s (seq 0 (num_segments s)))
  else None.

Definition evict_cold_persisted_segments (s : SegmentedFriState) : option SegmentedFriState :=
  if bool_decide (mdbx_dirty s = ∅) && bool_decide (exact_dirty s = ∅) then
    Some (foldl (fun s id =>
      let seg := Z.of_nat id in
      match try_get_segment_columns s seg, lru_get (exact_segment_cache s) seg with
      | Some _, None => if segment_live_count s seg =? 0 then s else evict_segment s seg
      | _, _ => s
      end) s (seq 0 (num_segments s)))
  else None.

(** Every live segment becomes evicted in the copy. *)
Definition durable_metadata_clone (s : SegmentedFriState) : option SegmentedFriState :=
  if bool_decide (mdbx_dirty s = ∅) && bool_decide (exact_dirty s = ∅) then
    let live := filter (fun p : nat * Z => p.2 <> 0) (imap pair (live_counts s)) in
    Some (mkState (log_slots s) (effective_log_seg s) (num_segments s) (replicate (num_segments s) None) (live_counts s)
            (raw s) ∅ ∅ (lru_default DEFAULT_CACHE_BYTES)
            (list_to_set ((fun p : nat * Z => Z.of_nat p.1) <$> live) ∪ evicted s))
  else None.

Definition install_evicted_exact_summary (s : SegmentedFriState) (seg live_count : Z) : option SegmentedFriState :=
  if (num_segments s <=? Z.to_nat seg)%nat || (live_count =? 0) then None
  else
    let s := with_residency s (<[Z.to_nat seg := None]> (segments s)) (<[Z.to_nat seg := live_count]> (live_counts s))
               (lru_remove (exact_segment_cache s) seg) ({[seg]} ∪ evicted s) in
    Some (with_raw s (raw_stale (raw s) seg)).

(** ** Changing the domain *)

(** The raw tree over the segment roots, a stale one as the empty segment. *)
Definition raw_tree_of (roots : list (option D)) (zero_leaf : D) : list D :=
  let n := length roots in
  raw_rebuild (copy_leaves (replicate (2 * n + 1) hzero) (default zero_leaf <$> roots) n) n.

Definition grow_columns (cols : SegmentColumns) (extra : nat) : SegmentColumns :=
  mkColumns (col_values cols ++ replicate extra 0) (col_owners_hi cols ++ replicate extra 0)
    (col_owners_lo cols ++ replicate extra 0).

Definition expand (s : SegmentedFriState) : option SegmentedFriState :=
  let log := (log_slots s + 1)%nat in
  if (log <=? SEGMENT_LOG)%nat then
    let extra := (2 ^ (log - 1))%nat in
    let segs := match segments s !! 0%nat with
      | Some (Some cols) => <[0%nat := Some (grow_columns cols extra)]> (segments s)
      | _ => segments s
      end in
    flush_all_dirty
      (mkState log log (num_segments s) segs (live_counts s) (raw_stale (raw s) 0) (mdbx_dirty s)
         ({[0]} ∪ exact_dirty s) (lru_remove (exact_segment_cache s) 0) (evicted s))
  else
    let old := num_segments s in
    let zero_leaf := zero_seg_root_for (effective_log_seg s) in
    let roots := seg_roots (raw s) ++ replicate old (Some zero_leaf) in
    Some (mkState log (effective_log_seg s) (2 * old) (segments s ++ replicate old None) (live_counts s ++ replicate old 0)
            (mkRaw roots (raw_tree_of roots zero_leaf) false (dirty (raw s)) (dirty_tree_leaves (raw s)))
            (mdbx_dirty s) (exact_dirty s) (exact_segment_cache s) (evicted s)).

(** The compact leaves of a resized tree; the nodes above are left unavailable. *)
Definition placeholder_tree (roots : list (option D)) : list D :=
  let n := length roots in
  foldl (fun tree (p : nat * option D) => match p.2 with Some r => <[(n + p.1)%nat := r]> tree | None => tree end)
    (replicate (2 * n + 1) hzero) (imap pair roots).

Definition expand_exact_metadata_for_replay (s : SegmentedFriState) : result StateResizeError SegmentedFriState :=
  if negb (effective_log_seg s =? SEGMENT_LOG)%nat || (32 <=? log_slots s)%nat
  then Err (InvalidTarget (log_slots s) (log_slots s + 1))
  else
    let old := num_segments s in
    let roots := seg_roots (raw s) ++ replicate old None in
    Ok (mkState (log_slots s + 1) (effective_log_seg s) (2 * old) (segments s ++ replicate old None)
          (live_counts s ++ replicate old 0) (mkRaw roots (placeholder_tree roots) true (dirty (raw s)) ∅)
          (mdbx_dirty s) (exact_dirty s) (exact_segment_cache s) (evicted s)).

(** The first upper segment that is evicted or not empty. *)
Fixpoint check_upper (s : SegmentedFriState) (resident : bool) (ids : list nat) : result StateResizeError unit :=
  match ids with
  | [] => Ok tt
  | id :: ids =>
      let seg := Z.of_nat id in
      if is_evicted s seg then Err (EvictedUpperSegment seg)
      else if negb (segment_live_count s seg =? 0)
              || (resident && match try_get_segment_columns s seg with Some _ => true | None => false end)
      then Err (NonEmptyUpperHalf seg)
      else check_upper s resident ids
  end.

(** Keep the first [count] segments. *)
Definition truncate_segments (s : SegmentedFriState) (log count : nat) (r : RawCommitment) : SegmentedFriState :=
  let keep (X : gset Z) := filter (fun id => id < Z.of_nat count) X in
  mkState log (effective_log_seg s) count (take count (segments s)) (take count (live_counts s)) r
    (keep (mdbx_dirty s)) (keep (exact_dirty s)) (lru_truncate_segments (exact_segment_cache s) (Z.of_nat count))
    (keep (evicted s)).

Definition shrink_exact_metadata_to_log_slots (s : SegmentedFriState) (target : nat)
  : result StateResizeError SegmentedFriState :=
  if (target =? log_slots s)%nat then Ok s
  else if negb (effective_log_seg s =? SEGMENT_LOG)%nat || (target <? SEGMENT_LOG)%nat || (log_slots s <? target)%nat
  then Err (InvalidTarget (log_slots s) target)
  else
    let count := (2 ^ (target - SEGMENT_LOG))%nat in
    _ ← check_upper s true (seq count (num_segments s - count));
    let roots := take count (seg_roots (raw s)) in
    let keep (X : gset Z) := filter (fun id => id < Z.of_nat count) X in
    Ok (truncate_segments s target count (mkRaw roots (placeholder_tree roots) true (keep (dirty (raw s))) ∅)).

Definition truncate_columns (cols : SegmentColumns) (keep : nat) : SegmentColumns :=
  mkColumns (take keep (col_values cols)) (take keep (col_owners_hi cols)) (take keep (col_owners_lo cols)).

(** One round of [shrink_to_log_slots]. *)
Definition shrink_one (s : SegmentedFriState) : exec StateResizeError SegmentedFriState :=
  s ← expect (flush_all_dirty s);
  if (log_slots s <=? SEGMENT_LOG)%nat then
    if is_evicted s 0 then Fail (EvictedUpperSegment 0)
    else
      let keep := (2 ^ (log_slots s - 1))%nat in
      shrunk ← (match try_get_segment_columns s 0 with
        | None => mret (segments s, live_counts s)
        | Some cols =>
            if forallb (Z.eqb 0) (drop keep (col_values cols) ++ drop keep (col_owners_hi cols) ++ drop keep (col_owners_lo cols))
            then
              let cols := truncate_columns cols keep in
              let live := count_live cols in
              mret (<[0%nat := if live =? 0 then None else Some cols]> (segments s), <[0%nat := live]> (live_counts s))
            else Fail (NonEmptyUpperHalf 0)
        end : exec StateResizeError _);
      let log := (log_slots s - 1)%nat in
      expect (flush_all_dirty
        (mkState log log (num_segments s) shrunk.1 shrunk.2 (raw_stale (raw s) 0) ({[0]} ∪ mdbx_dirty s)
           ({[0]} ∪ exact_dirty s) (lru_remove (exact_segment_cache s) 0) (evicted s)))
  else
    let count := (num_segments s / 2)%nat in
    _ ← lift (check_upper s false (seq count (num_segments s - count)));
    let roots := take count (seg_roots (raw s)) in
    let keep (X : gset Z) := filter (fun id => id < Z.of_nat count) X in
    mret (truncate_segments s (log_slots s - 1) count
      (mkRaw roots (raw_tree_of roots (zero_seg_root_for (effective_log_seg s))) false (keep (dirty (raw s)))
         (keep (dirty_tree_leaves (raw s))))).

(** [while self.log_slots > target]; the state a failure leaves behind is not
    returned. *)
Fixpoint shrink_loop (fuel : nat) (s : SegmentedFriState) (target : nat) : exec StateResizeError SegmentedFriState :=
  match fuel with
  | O => mret s
  | S fuel => if (target <? log_slots s)%nat then s ← shrink_one s; shrink_loop fuel s target else mret s
  end.

Definition shrink_to_log_slots (s : SegmentedFriState) (target : nat) : exec StateResizeError SegmentedFriState :=
  if (target <? 1)%nat || (log_slots s <? target)%nat then Fail (InvalidTarget (log_slots s) target)
  else shrink_loop (log_slots s) s target.

(** ** The state as a slot function *)

Definition occupied (v : SlotValue) : Z := if is_empty v then 0 else 1.

(** Live slots of a segment. *)
Definition live_in (slots : Z -> SlotValue) (eff : nat) (seg : Z) : Z :=
  Zsum ((fun l => occupied (slots (seg * 2 ^ Z.of_nat eff + Z.of_nat l))) <$> seq 0 (2 ^ eff)).

(** The state holds [slots]: resident columns agree with it, virtual segments
    are empty, evicted ones are only counted, and every cached tree is current. *)
Record state_ok (s : SegmentedFriState) (slots : Z -> SlotValue) : Prop := {
  ok_log : (1 <= log_slots s <= 32)%nat;
  ok_eff : effective_log_seg s = Nat.min (log_slots s) SEGMENT_LOG;
  ok_num : num_segments s = (2 ^ (log_slots s - effective_log_seg s))%nat;
  ok_segments : length (segments s) = num_segments s;
  ok_counts_length : length (live_counts s) = num_segments s;
  ok_outside : forall i, ~ (0 <= i < 2 ^ Z.of_nat (log_slots s)) -> slots i = EMPTY;
  ok_resident : forall seg cols, try_get_segment_columns s seg = Some cols -> 0 <= seg < Z.of_nat (num_segments s) ->
    seg ∉ evicted s /\ columns_len cols (2 ^ effective_log_seg s) = true
    /\ forall l, (l < 2 ^ effective_log_seg s)%nat ->
         column_slot cols l = slots (seg * 2 ^ Z.of_nat (effective_log_seg s) + Z.of_nat l);
  ok_virtual : forall seg, 0 <= seg < Z.of_nat (num_segments s) -> try_get_segment_columns s seg = None -> seg ∉ evicted s ->
    forall l, (l < 2 ^ effective_log_seg s)%nat -> slots (seg * 2 ^ Z.of_nat (effective_log_seg s) + Z.of_nat l) = EMPTY;
  ok_counts : forall seg, 0 <= seg < Z.of_nat (num_segments s) ->
    live_counts s !! Z.to_nat seg = Some (live_in slots (effective_log_seg s) seg);
  ok_evicted : forall seg, seg ∈ evicted s -> 0 <= seg < Z.of_nat (num_segments s);
  ok_cache : lru_ok (exact_segment_cache s);
  ok_hot : forall seg t, (seg, t) ∈ lru_entries (exact_segment_cache s) ->
    0 <= seg < Z.of_nat (num_segments s) /\ seg ∉ evicted s
    /\ hot_ok t (effective_log_seg s) (fun i => hleaf (slots (seg * 2 ^ Z.of_nat (effective_log_seg s) + i)))
}.

Lemma live_in_range (f : Z -> SlotValue) eff seg : 0 <= live_in f eff seg <= 2 ^ Z.of_nat eff.
Proof.
  unfold live_in. change (2 ^ Z.of_nat eff) with (Z.of_nat 2 ^ Z.of_nat eff). rewrite <- Nat2Z.inj_pow.
  rewrite <- (length_seq (2 ^ eff) 0) at 3. generalize (seq 0 (2 ^ eff)). intros l.
  induction l as [|x l IH]; cbn [fmap list_fmap length]; [cbn; lia|]. rewrite Zsum_cons. unfold occupied at 1 3.
  destruct (is_empty _); lia.
Qed.

Lemma Zsum_zero {A} (f : A -> Z) (l : list A) a : (forall x, 0 <= f x) -> Zsum (f <$> l) = 0 -> a ∈ l -> f a = 0.
Proof.
  intros H0. induction l as [|x l IH]; intros E Ha; [now apply not_elem_of_nil in Ha|].
  cbn [fmap list_fmap] in E. rewrite Zsum_cons in E. pose proof (H0 x).
  assert (0 <= Zsum (f <$> l)) by (apply Zsum_nonneg, Forall_fmap, Forall_forall; intros y _; apply H0).
  apply elem_of_cons in Ha as [->|Ha]; [lia|]. apply IH; [lia|exact Ha].
Qed.

(** A sum over distinct positions after one term changed. *)
Lemma Zsum_update {A} (f g : A -> Z) (l : list A) (a : A) :
  NoDup l -> a ∈ l -> (forall x, x <> a -> f x = g x) -> Zsum (f <$> l) = Zsum (g <$> l) - g a + f a.
Proof.
  induction 1 as [|x l Hx Hn IH]; intros Ha Hfg; [now apply not_elem_of_nil in Ha|].
  cbn [fmap list_fmap]. rewrite !Zsum_cons. apply elem_of_cons in Ha as [<-|Ha].
  - assert (E : Zsum (f <$> l) = Zsum (g <$> l)); [|lia]. f_equal. apply list_fmap_ext. intros i x Hi.
    apply Hfg. intros ->. apply Hx. now apply list_elem_of_lookup_2 with i.
  - rewrite IH by assumption. rewrite (Hfg x) by congruence. lia.
Qed.

Lemma Zsum_none {A} (f : A -> Z) (l : list A) : (forall x, x ∈ l -> f x = 0) -> Zsum (f <$> l) = 0.
Proof.
  induction l as [|x l IH]; intros H; [reflexivity|]. cbn [fmap list_fmap]. rewrite Zsum_cons, IH, (H x); [reflexivity|left|].
  intros y Hy. apply H. now right.
Qed.

Lemma Zsum_same {A} (f g : A -> Z) (l : list A) : (forall x, x ∈ l -> f x = g x) -> Zsum (f <$> l) = Zsum (g <$> l).
Proof.
  intros H. f_equal. apply list_fmap_ext. intros i x Hi. apply H. now apply list_elem_of_lookup_2 with i.
Qed.

(** *** Positions *)

Section Geometry.
Context (s : SegmentedFriState) (slots : Z -> SlotValue) (Hs : state_ok s slots).

Lemma num_of_slots : Z.of_nat (num_segments s) * 2 ^ Z.of_nat (effective_log_seg s) = 2 ^ Z.of_nat (log_slots s).
Proof. rewrite (ok_num _ _ Hs). apply pow_count. pose proof (ok_eff _ _ Hs). lia. Qed.

Lemma position_of idx : 0 <= idx < num_slots s ->
  seg_id_of s idx = idx / 2 ^ Z.of_nat (effective_log_seg s)
  /\ local_idx_of s idx = idx mod 2 ^ Z.of_nat (effective_log_seg s)
  /\ 0 <= seg_id_of s idx < Z.of_nat (num_segments s)
  /\ 0 <= local_idx_of s idx < 2 ^ Z.of_nat (effective_log_seg s)
  /\ idx = seg_id_of s idx * 2 ^ Z.of_nat (effective_log_seg s) + local_idx_of s idx.
Proof.
  unfold num_slots. intros Hi. pose proof num_of_slots as N. pose proof (ok_eff _ _ Hs) as He. pose proof (ok_log _ _ Hs) as Hlog.
  pose proof (pow2_gt0 (effective_log_seg s)) as P. set (w := 2 ^ Z.of_nat (effective_log_seg s)) in *.
  assert (W : w <= 2 ^ 16). { unfold w. apply Z.pow_le_mono_r; [lia|]. rewrite He. change SEGMENT_LOG with 16%nat. lia. }
  assert (N16 : Z.of_nat (num_segments s) <= 2 ^ 16).
  { rewrite (ok_num _ _ Hs), Nat2Z.inj_pow. apply Z.pow_le_mono_r; [lia|]. rewrite He. change SEGMENT_LOG with 16%nat. lia. }
  pose proof (Z.div_mod idx w ltac:(lia)) as E. pose proof (Z.mod_pos_bound idx w P) as M.
  assert (Q : 0 <= idx / w < Z.of_nat (num_segments s)).
  { split; [apply Z.div_pos; lia|]. apply Z.div_lt_upper_bound; lia. }
  assert (E1 : seg_id_of s idx = idx / w).
  { unfold seg_id_of. rewrite Z.shiftr_div_pow2 by lia. fold w. apply Z.mod_small. lia. }
  assert (E2 : local_idx_of s idx = idx mod w).
  { unfold local_idx_of. rewrite Z.shiftl_1_l. fold w. replace (w - 1) with (Z.ones (Z.of_nat (effective_log_seg s))).
    - rewrite Z.land_ones by lia. fold w. apply Z.mod_small. lia.
    - unfold w. rewrite Z.ones_equiv. lia. }
  rewrite E1, E2. repeat split; lia.
Qed.

Lemma position_unique seg (l : nat) : 0 <= seg < Z.of_nat (num_segments s) -> (l < 2 ^ effective_log_seg s)%nat ->
  let idx := seg * 2 ^ Z.of_nat (effective_log_seg s) + Z.of_nat l in
  0 <= idx < num_slots s /\ seg_id_of s idx = seg /\ local_idx_of s idx = Z.of_nat l.
Proof.
  intros Hseg Hl idx. pose proof num_of_slots as N. pose proof (pow2_gt0 (effective_log_seg s)) as P.
  assert (W : Z.of_nat (2 ^ effective_log_seg s) = 2 ^ Z.of_nat (effective_log_seg s)) by apply Nat2Z.inj_pow.
  assert (Hi : 0 <= idx < num_slots s) by (unfold num_slots, idx; nia). split; [exact Hi|].
  destruct (position_of idx Hi) as (E1 & E2 & _). rewrite E1, E2. unfold idx. split.
  - rewrite Z.div_add_l by lia. rewrite Z.div_small by lia. lia.
  - rewrite Z.add_comm, Z_mod_plus_full. apply Z.mod_small. lia.
Qed.

Lemma slot_read idx : 0 <= idx < num_slots s -> seg_id_of s idx ∉ evicted s -> slot s idx = slots idx.
Proof.
  intros Hi Hev. destruct (position_of idx Hi) as (_ & _ & Hseg & Hloc & E).
  assert (W : Z.of_nat (2 ^ effective_log_seg s) = 2 ^ Z.of_nat (effective_log_seg s)) by apply Nat2Z.inj_pow.
  assert (Hl : (Z.to_nat (local_idx_of s idx) < 2 ^ effective_log_seg s)%nat) by lia.
  unfold slot. destruct (try_get_segment_columns s (seg_id_of s idx)) as [cols|] eqn:Ec.
  - destruct (ok_resident _ _ Hs _ _ Ec Hseg) as (_ & _ & H). rewrite H by exact Hl. f_equal. lia.
  - pose proof (ok_virtual _ _ Hs _ Hseg Ec Hev _ Hl) as H. rewrite Z2Nat.id, <- E in H by lia. now symmetry.
Qed.

End Geometry.

(** *** Columns *)

Lemma columns_len_iff cols n : columns_len cols n = true <->
  length (col_values cols) = n /\ length (col_owners_hi cols) = n /\ length (col_owners_lo cols) = n.
Proof. unfold columns_len. rewrite !andb_true_iff, !Nat.eqb_eq. tauto. Qed.

Lemma write_column_len cols loc v n : columns_len (write_column cols loc v) n = columns_len cols n.
Proof. unfold columns_len, write_column. cbn [col_values col_owners_hi col_owners_lo]. now rewrite !length_insert. Qed.

Lemma column_slot_write cols n loc v l : columns_len cols n = true -> (loc < n)%nat ->
  column_slot (write_column cols loc v) l = if decide (l = loc) then v else column_slot cols l.
Proof.
  intros Hc Hl. apply columns_len_iff in Hc as (H1 & H2 & H3). unfold column_slot, write_column.
  cbn [col_values col_owners_hi col_owners_lo]. rewrite !nth_insert, H1, H2, H3.
  destruct (decide (l = loc)) as [->|Hne].
  - rewrite !decide_True by auto. now destruct v.
  - now rewrite !decide_False by tauto.
Qed.

Lemma column_slot_zero n l : column_slot (new_zero n) l = EMPTY.
Proof.
  unfold column_slot, new_zero. cbn [col_values col_owners_hi col_owners_lo].
  assert (E : nth l (replicate n 0) 0 = 0).
  { rewrite nth_lookup. destruct (replicate n 0 !! l) eqn:El; [apply lookup_replicate in El as [-> _]|]; reflexivity. }
  now rewrite E.
Qed.

Lemma columns_len_zero n : columns_len (new_zero n) n = true.
Proof. apply columns_len_iff. cbn. rewrite !length_replicate. auto. Qed.

Lemma occupied_range v : 0 <= occupied v <= 1.
Proof. unfold occupied. destruct (is_empty v); lia. Qed.

Lemma occupied_zero v : occupied v = 0 -> v = EMPTY.
Proof. unfold occupied, is_empty. destruct (bool_decide_reflect (v = EMPTY)); [auto|lia]. Qed.

(** A segment that counts no live slot is empty. *)
Lemma live_in_zero slots eff seg (l : nat) : live_in slots eff seg = 0 -> (l < 2 ^ eff)%nat ->
  slots (seg * 2 ^ Z.of_nat eff + Z.of_nat l) = EMPTY.
Proof.
  intros E Hl. apply occupied_zero. apply (Zsum_zero _ _ l) in E; [exact E|intros x; apply occupied_range|apply elem_of_seq; lia].
Qed.

(** *** Writing one slot *)

Definition write_slot (slots : Z -> SlotValue) (idx : Z) (v : SlotValue) (i : Z) : SlotValue :=
  if decide (i = idx) then v else slots i.

Lemma live_in_write slots eff idx v seg : 0 <= idx / 2 ^ Z.of_nat eff ->
  live_in (write_slot slots idx v) eff seg
  = if decide (seg = idx / 2 ^ Z.of_nat eff) then live_in slots eff seg - occupied (slots idx) + occupied v
    else live_in slots eff seg.
Proof.
  intros H0. pose proof (pow2_gt0 eff) as P. pose proof (Z.div_mod idx (2 ^ Z.of_nat eff) ltac:(lia)) as E.
  pose proof (Z.mod_pos_bound idx (2 ^ Z.of_nat eff) P) as M.
  assert (W : Z.of_nat (2 ^ eff) = 2 ^ Z.of_nat eff) by apply Nat2Z.inj_pow. unfold live_in.
  destruct (decide (seg = idx / 2 ^ Z.of_nat eff)) as [->|Hne].
  - set (loc := Z.to_nat (idx mod 2 ^ Z.of_nat eff)).
    assert (Ei : idx / 2 ^ Z.of_nat eff * 2 ^ Z.of_nat eff + Z.of_nat loc = idx) by (unfold loc; lia).
    rewrite (Zsum_update _ (fun l => occupied (slots (idx / 2 ^ Z.of_nat eff * 2 ^ Z.of_nat eff + Z.of_nat l))) _ loc).
    + rewrite Ei. unfold write_slot. now rewrite decide_True.
    + apply NoDup_ListNoDup, seq_NoDup.
    + apply elem_of_seq. unfold loc. lia.
    + intros l Hl. unfold write_slot. rewrite decide_False; [reflexivity|]. lia.
  - apply Zsum_same. intros l Hl%elem_of_seq. unfold write_slot. rewrite decide_False; [reflexivity|]. intros Eq. apply Hne.
    rewrite <- Eq, Z.div_add_l, Z.div_small by lia. lia.
Qed.

Lemma try_get_insert (segs : list (option SegmentColumns)) (seg seg' : Z) x : 0 <= seg < Z.of_nat (length segs) -> 0 <= seg' ->
  default None (<[Z.to_nat seg := x]> segs !! Z.to_nat seg')
  = if decide (seg' = seg) then x else default None (segs !! Z.to_nat seg').
Proof.
  intros H H'. destruct (decide (seg' = seg)) as [->|Hne].
  - rewrite list_lookup_insert_eq by lia. reflexivity.
  - rewrite list_lookup_insert_ne by lia. reflexivity.
Qed.

Lemma column_slot_ne (a b : SlotValue) : a <> b -> is_empty a = true -> is_empty b = false.
Proof. unfold is_empty. intros H Ha%bool_decide_eq_true. apply bool_decide_eq_false. congruence. Qed.

(** What a write does to the bookkeeping. *)
Record wrote (s s' : SegmentedFriState) (idx : Z) (changed : bool) : Prop := {
  wr_log : log_slots s' = log_slots s;
  wr_eff : effective_log_seg s' = effective_log_seg s;
  wr_num : num_segments s' = num_segments s;
  wr_evicted : evicted s' ⊆ evicted s;
  wr_exact : exact_dirty s' = if changed then {[seg_id_of s idx]} ∪ exact_dirty s else exact_dirty s;
  wr_mdbx : mdbx_dirty s' = if changed then {[seg_id_of s idx]} ∪ mdbx_dirty s else mdbx_dirty s
}.

Lemma wrote_refl s idx : wrote s s idx false.
Proof. constructor; reflexivity. Qed.

Lemma hot_ok_ext t log (f g : Z -> D) : (forall i, 0 <= i < 2 ^ Z.of_nat log -> f i = g i) -> hot_ok t log f -> hot_ok t log g.
Proof. intros E [H1 H2 H3 H4]. constructor; [assumption..|]. eapply heap_ext; [|exact H4]. exact E. Qed.

Lemma state_ok_ext s (f g : Z -> SlotValue) : (forall i, f i = g i) -> state_ok s f -> state_ok s g.
Proof.
  intros E [H1 H2 H3 H4 H5 H6 H7 H8 H9 H10 H11 H12]. constructor; try assumption.
  - intros i Hi. rewrite <- E. auto.
  - intros seg cols Hc Hb. destruct (H7 seg cols Hc Hb) as (A & B & C). split; [exact A|]. split; [exact B|].
    intros l Hl. rewrite <- E. auto.
  - intros. rewrite <- E. auto.
  - intros seg Hb. rewrite (H9 seg Hb). f_equal. apply Zsum_same. intros l _. now rewrite E.
  - intros seg t Hin. destruct (H12 seg t Hin) as (A & B & C). split; [exact A|]. split; [exact B|].
    eapply hot_ok_ext; [|exact C]. intros i _. cbn beta. now rewrite E.
Qed.

Lemma live_after_eq live a b : 0 <= live <= 2 ^ 16 -> 0 <= live - occupied a + occupied b ->
  live_after live (is_empty a) (is_empty b) = live - occupied a + occupied b.
Proof.
  unfold occupied, live_after. intros H1 H2. destruct (is_empty a), (is_empty b); lia.
Qed.

(** A state that differs from a good one in one segment. *)
Lemma write_state_ok s slots idx v cols segs live cache ev r md ed :
  state_ok s slots -> 0 <= idx < num_slots s -> seg_id_of s idx ∉ evicted s ->
  columns_len cols (2 ^ effective_log_seg s) = true ->
  (forall l, (l < 2 ^ effective_log_seg s)%nat ->
     column_slot cols l = write_slot slots idx v (seg_id_of s idx * 2 ^ Z.of_nat (effective_log_seg s) + Z.of_nat l)) ->
  live = live_in (write_slot slots idx v) (effective_log_seg s) (seg_id_of s idx) ->
  segs = <[Z.to_nat (seg_id_of s idx) := if live =? 0 then None else Some cols]> (segments s) ->
  ev = evicted s ->
  lru_ok cache ->
  (forall e, e ∈ lru_entries cache -> (e.1 <> seg_id_of s idx /\ e ∈ lru_entries (exact_segment_cache s))
     \/ (exists t, (seg_id_of s idx, t) ∈ lru_entries (exact_segment_cache s)
         /\ e = (seg_id_of s idx, hot_set_slot t (Z.to_nat (local_idx_of s idx)) v))) ->
  state_ok (mkState (log_slots s) (effective_log_seg s) (num_segments s) segs
     (<[Z.to_nat (seg_id_of s idx) := live]> (live_counts s)) r md ed cache ev) (write_slot slots idx v).
Proof.
  intros Hs Hi Hev Hcl Hcs Hlive -> -> Hlru Hent.
  destruct (position_of s slots Hs idx Hi) as (E1 & E2 & Hseg & Hloc & Eidx).
  assert (W : Z.of_nat (2 ^ effective_log_seg s) = 2 ^ Z.of_nat (effective_log_seg s)) by apply Nat2Z.inj_pow.
  set (seg := seg_id_of s idx) in *. set (w := 2 ^ Z.of_nat (effective_log_seg s)) in *.
  assert (Hother : forall seg' l, 0 <= seg' < Z.of_nat (num_segments s) -> seg' <> seg -> (l < 2 ^ effective_log_seg s)%nat ->
    write_slot slots idx v (seg' * w + Z.of_nat l) = slots (seg' * w + Z.of_nat l)).
  { intros seg' l H' Hne Hl. unfold write_slot. rewrite decide_False; [reflexivity|]. intros Eq.
    pose proof (position_unique s slots Hs seg' l H' Hl) as Q. cbn zeta in Q. destruct Q as (_ & A & _).
    fold w in A. rewrite Eq in A. fold seg in A. congruence. }
  pose proof Hs as [H1 H2 H3 H4 H5 H6 H7 H8 H9 H10 H11 H12].
  constructor; cbn [log_slots effective_log_seg num_segments segments live_counts evicted exact_segment_cache];
    try assumption.
  - now rewrite length_insert.
  - now rewrite length_insert.
  - intros i Hi'. unfold write_slot. rewrite decide_False by (intros ->; apply Hi'; exact Hi). now apply H6.
  - intros seg' cols' Hc Hb. unfold try_get_segment_columns in Hc. cbn [segments] in Hc.
    rewrite try_get_insert in Hc by (rewrite ?H4; lia). destruct (decide (seg' = seg)) as [->|Hne].
    + destruct (live =? 0); [discriminate Hc|]. injection Hc as <-. auto.
    + destruct (H7 seg' cols' Hc Hb) as (A & B & C). split; [exact A|]. split; [exact B|]. intros l Hl.
      rewrite (C l Hl). symmetry. now apply Hother.
  - intros seg' Hb Hc Hne' l Hl. unfold try_get_segment_columns in Hc. cbn [segments] in Hc.
    rewrite try_get_insert in Hc by (rewrite ?H4; lia). destruct (decide (seg' = seg)) as [->|Hne].
    + destruct (Z.eqb_spec live 0) as [E0|]; [|discriminate Hc].
      rewrite Hlive in E0. exact (live_in_zero _ _ _ _ E0 Hl).
    + rewrite Hother by assumption. now apply H8.
  - intros seg' Hb. destruct (decide (seg' = seg)) as [->|Hne].
    + rewrite list_lookup_insert_eq by lia. now rewrite Hlive.
    + rewrite list_lookup_insert_ne by lia. rewrite (H9 seg' Hb). f_equal. unfold live_in. fold w. apply Zsum_same.
      intros l Hl%elem_of_seq. f_equal. symmetry. apply Hother; [assumption..|lia].
  - intros seg' t Hin. destruct (Hent _ Hin) as [[Hne Hold]|(t' & Ht' & [= -> ->])].
    + cbn [fst] in Hne. destruct (H12 seg' t Hold) as (A & B & C). split; [exact A|]. split; [exact B|].
      eapply hot_ok_ext; [|exact C]. intros i Hi'. cbn beta. f_equal. symmetry. rewrite <- (Z2Nat.id i) by lia. apply Hother; [assumption..|lia].
    + destruct (H12 seg t' Ht') as (A & B & C). split; [exact A|]. split; [exact B|].
      eapply hot_ok_ext; [|apply (hot_set_slot_ok t' _ _ _ v C); lia]. intros i Hi'. cbn beta. unfold update_leaf, write_slot.
      rewrite Z2Nat.id by lia. fold w. destruct (decide (i = local_idx_of s idx)) as [->|Hne].
      * now rewrite decide_True by lia.
      * now rewrite decide_False by lia.
Qed.

Lemma apply_one_ok s slots idx v : state_ok s slots -> 0 <= idx < num_slots s -> seg_id_of s idx ∉ evicted s ->
  state_ok (apply_one s (idx, v)) (write_slot slots idx v)
  /\ wrote s (apply_one s (idx, v)) idx (negb (bool_decide (slots idx = v))).
Proof.
  intros Hs Hi Hev. pose proof (slot_read s slots Hs idx Hi Hev) as Hold.
  unfold apply_one. cbn zeta. rewrite Hold.
  destruct (bool_decide_reflect (slots idx = v)) as [Hv|Hv]; cbn [negb].
  { split; [|apply wrote_refl]. apply (state_ok_ext s slots); [|exact Hs]. intros i. unfold write_slot.
    destruct (decide (i = idx)) as [->|]; congruence. }
  destruct (position_of s slots Hs idx Hi) as (E1 & E2 & Hseg & Hloc & Eidx).
  assert (W : Z.of_nat (2 ^ effective_log_seg s) = 2 ^ Z.of_nat (effective_log_seg s)) by apply Nat2Z.inj_pow.
  destruct (bool_decide (try_get_segment_columns s (seg_id_of s idx) = None) && is_empty v) eqn:Eskip.
  { exfalso. apply andb_true_iff in Eskip as [En%bool_decide_eq_true Ev%bool_decide_eq_true].
    unfold slot in Hold. rewrite En in Hold. congruence. }
  set (cols0 := default (new_zero (2 ^ effective_log_seg s)) (try_get_segment_columns s (seg_id_of s idx))).
  assert (Hc0 : columns_len cols0 (2 ^ effective_log_seg s) = true /\ forall l, (l < 2 ^ effective_log_seg s)%nat ->
    column_slot cols0 l = slots (seg_id_of s idx * 2 ^ Z.of_nat (effective_log_seg s) + Z.of_nat l)).
  { unfold cols0. destruct (try_get_segment_columns s (seg_id_of s idx)) as [cols|] eqn:Ec; cbn [default].
    - destruct (ok_resident _ _ Hs _ _ Ec Hseg) as (_ & A & B). auto.
    - split; [apply columns_len_zero|]. intros l Hl. rewrite column_slot_zero. symmetry. now apply (ok_virtual _ _ Hs _ Hseg Ec Hev). }
  destruct Hc0 as [Hc1 Hc2].
  assert (Hlive : live_after (segment_live_count s (seg_id_of s idx)) (is_empty (slots idx)) (is_empty v)
    = live_in (write_slot slots idx v) (effective_log_seg s) (seg_id_of s idx)).
  { unfold segment_live_count. rewrite (ok_counts _ _ Hs _ Hseg). cbn [from_option id].
    pose proof (live_in_write slots (effective_log_seg s) idx v (seg_id_of s idx) ltac:(lia)) as Hw.
    rewrite decide_True in Hw by exact E1. pose proof (live_in_range (write_slot slots idx v) (effective_log_seg s) (seg_id_of s idx)).
    pose proof (live_in_range slots (effective_log_seg s) (seg_id_of s idx)) as Hr.
    rewrite live_after_eq; [now symmetry| |lia]. split; [lia|]. etransitivity; [apply Hr|]. apply Z.pow_le_mono_r; [lia|].
    rewrite (ok_eff _ _ Hs). change SEGMENT_LOG with 16%nat. lia. }
  rewrite Hlive.
  assert (Hev1 : match try_get_segment_columns s (seg_id_of s idx) with
                 | Some _ => evicted s | None => evicted s ∖ {[seg_id_of s idx]} end = evicted s).
  { destruct (try_get_segment_columns s (seg_id_of s idx)); [reflexivity|]. set_solver. }
  rewrite Hev1.
  assert (Hws : forall l, (l < 2 ^ effective_log_seg s)%nat -> column_slot (write_column cols0 (Z.to_nat (local_idx_of s idx)) v) l
    = write_slot slots idx v (seg_id_of s idx * 2 ^ Z.of_nat (effective_log_seg s) + Z.of_nat l)).
  { intros l Hl. rewrite (column_slot_write _ (2 ^ effective_log_seg s)) by (assumption || lia). unfold write_slot.
    destruct (decide (l = Z.to_nat (local_idx_of s idx))) as [->|Hne]; [now rewrite decide_True by lia|].
    rewrite decide_False by lia. now apply Hc2. }
  pose proof (write_column_len cols0 (Z.to_nat (local_idx_of s idx)) v (2 ^ effective_log_seg s)) as Hwl. rewrite Hc1 in Hwl.
  destruct (Z.eqb_spec (live_in (write_slot slots idx v) (effective_log_seg s) (seg_id_of s idx)) 0) as [E0|E0].
  - split; [|constructor; cbn; try reflexivity; set_solver].
    eapply (write_state_ok s slots idx v (write_column cols0 (Z.to_nat (local_idx_of s idx)) v));
      try eassumption; try reflexivity.
    + now rewrite E0.
    + set_solver.
    + now apply lru_remove_spec, Hs.
    + intros e He. left. apply lru_remove_spec in He; [|apply Hs]. tauto.
  - split; [|constructor; cbn; try reflexivity; set_solver].
    eapply (write_state_ok s slots idx v (write_column cols0 (Z.to_nat (local_idx_of s idx)) v));
      try eassumption; try reflexivity.
    + destruct (Z.eqb_spec (live_in (write_slot slots idx v) (effective_log_seg s) (seg_id_of s idx)) 0); [contradiction|reflexivity].
    + now apply lru_update_spec, Hs.
    + intros e He. apply lru_update_spec in He; [|apply Hs]. exact He.
Qed.

(** *** Batches *)

Record wrote_all (s s' : SegmentedFriState) (slots : Z -> SlotValue) (deltas : list (Z * SlotValue)) : Prop := {
  wa_log : log_slots s' = log_slots s;
  wa_eff : effective_log_seg s' = effective_log_seg s;
  wa_num : num_segments s' = num_segments s;
  wa_evicted : evicted s' ⊆ evicted s;
  wa_exact : exact_dirty s ⊆ exact_dirty s';
  wa_exact_only : forall seg, seg ∈ exact_dirty s' -> seg ∈ exact_dirty s \/ exists d, d ∈ deltas /\ seg = seg_id_of s d.1;
  wa_mdbx : mdbx_dirty s ⊆ mdbx_dirty s';
  wa_changed : forall i, write_slots slots deltas i <> slots i ->
    seg_id_of s i ∈ exact_dirty s' /\ seg_id_of s i ∈ mdbx_dirty s'
}.

Lemma write_slots_cons slots d deltas : write_slots slots (d :: deltas) = write_slots (write_slot slots d.1 d.2) deltas.
Proof. reflexivity. Qed.

Lemma apply_all_ok s slots deltas : state_ok s slots ->
  Forall (fun d => 0 <= d.1 < num_slots s /\ seg_id_of s d.1 ∉ evicted s) deltas ->
  state_ok (foldl apply_one s deltas) (write_slots slots deltas) /\ wrote_all s (foldl apply_one s deltas) slots deltas.
Proof.
  revert s slots. induction deltas as [|[idx v] deltas IH]; intros s slots Hs Hd; cbn [foldl].
  - split; [exact Hs|]. constructor; [reflexivity..|now left|reflexivity|]. intros i Hi. now destruct Hi.
  - apply Forall_cons in Hd as [[Hi Hev] Hd]. cbn [fst] in Hi, Hev.
    destruct (apply_one_ok s slots idx v Hs Hi Hev) as [Hs1 [W1 W2 W3 W4 W5 W6]].
    assert (Es : forall i, seg_id_of (apply_one s (idx, v)) i = seg_id_of s i) by (intros i; unfold seg_id_of; now rewrite W2).
    destruct (IH (apply_one s (idx, v)) (write_slot slots idx v) Hs1) as [H1 [A1 A2 A3 A4 A5 A6 A7 A8]].
    { eapply Forall_impl; [exact Hd|]. intros d [B1 B2]. rewrite Es. unfold num_slots in *. rewrite W1. split; [exact B1|]. intros Hin. now apply B2, W4. }
    split; [exact H1|]. constructor; [congruence|congruence|congruence|now transitivity (evicted (apply_one s (idx, v)))|..].
    + etransitivity; [|exact A5]. rewrite W5. destruct (negb _); [apply union_subseteq_r|reflexivity].
    + intros seg Hin. destruct (A6 seg Hin) as [Hold|(d & Hd' & ->)].
      * rewrite W5 in Hold. destruct (negb _); [|now left]. apply elem_of_union in Hold as [Hold|Hold]; [|now left].
        apply elem_of_singleton in Hold as ->. right. exists (idx, v). split; [now left|reflexivity].
      * right. exists d. rewrite Es. split; [now right|reflexivity].
    + etransitivity; [|exact A7]. rewrite W6. destruct (negb _); [apply union_subseteq_r|reflexivity].
    + intros i Hne. rewrite write_slots_cons in Hne. cbn [fst snd] in Hne.
      destruct (decide (write_slots (write_slot slots idx v) deltas i = write_slot slots idx v i)) as [E|E].
      * rewrite E in Hne. unfold write_slot in Hne. destruct (decide (i = idx)) as [->|]; [|now destruct Hne].
        rewrite bool_decide_eq_false_2 in W5, W6 by congruence. cbn [negb] in W5, W6.
        split; [apply A5; rewrite W5|apply A7; rewrite W6]; apply elem_of_union_l; now apply elem_of_singleton.
      * destruct (A8 i E) as [B1 B2]. rewrite !Es in *. auto.
Qed.

Lemma apply_delta_ok s slots deltas : state_ok s slots ->
  Forall (fun d => 0 <= d.1 < num_slots s /\ seg_id_of s d.1 ∉ evicted s) deltas ->
  exists s', apply_delta_unrooted s deltas = Ok s' /\ state_ok s' (write_slots slots deltas) /\ wrote_all s s' slots deltas.
Proof.
  intros Hs Hd. unfold apply_delta_unrooted. replace (existsb _ _) with false.
  - eexists. split; [reflexivity|]. now apply apply_all_ok.
  - symmetry. apply not_true_iff_false. rewrite existsb_exists. intros (d & Hin & Hle). apply list_elem_of_In in Hin.
    rewrite Forall_forall in Hd. destruct (Hd d Hin) as [Hb _]. apply Z.leb_le in Hle. lia.
Qed.

Lemma apply_delta_err s deltas : (exists d, d ∈ deltas /\ num_slots s <= d.1) -> apply_delta_unrooted s deltas = Err SlotOutOfRange.
Proof.
  intros (d & Hin & Hle). unfold apply_delta_unrooted. replace (existsb _ _) with true; [reflexivity|].
  symmetry. apply existsb_exists. exists d. split; [now apply list_elem_of_In|]. now apply Z.leb_le.
Qed.

(** A write to a segment in memory evicts nothing and brings nothing back. *)
Lemma apply_one_evicted s d : seg_id_of s d.1 ∉ evicted s ->
  evicted (apply_one s d) = evicted s /\ effective_log_seg (apply_one s d) = effective_log_seg s.
Proof.
  destruct d as [idx v]. cbn [fst]. intros H. unfold apply_one. cbn zeta. destruct (bool_decide (slot s idx = v)); [auto|].
  destruct (bool_decide _ && is_empty v); [auto|]. destruct (live_after _ _ _ =? 0), (try_get_segment_columns s _); cbn; split; try reflexivity;
    apply set_eq; set_solver.
Qed.

Lemma apply_delta_evicted s deltas s' : Forall (fun d => seg_id_of s d.1 ∉ evicted s) deltas ->
  apply_delta_unrooted s deltas = Ok s' -> evicted s' = evicted s.
Proof.
  unfold apply_delta_unrooted. destruct (existsb _ _); [discriminate|]. intros Hd [= <-]. revert s Hd.
  induction deltas as [|d deltas IH]; intros s Hd; [reflexivity|]. cbn [foldl]. apply Forall_cons in Hd as [H Hd].
  destruct (apply_one_evicted s d H) as [E1 E2]. rewrite IH; [exact E1|].
  eapply Forall_impl; [exact Hd|]. cbv beta. intros x. unfold seg_id_of. now rewrite E1, E2.
Qed.

(** *** Operations that keep the slots *)

(** Same geometry, slots and residency. *)
Lemma state_ok_same s s' slots : state_ok s slots ->
  log_slots s' = log_slots s -> effective_log_seg s' = effective_log_seg s -> num_segments s' = num_segments s ->
  segments s' = segments s -> live_counts s' = live_counts s -> evicted s' = evicted s ->
  lru_ok (exact_segment_cache s') ->
  (forall seg t, (seg, t) ∈ lru_entries (exact_segment_cache s') -> (seg, t) ∈ lru_entries (exact_segment_cache s)
     \/ (0 <= seg < Z.of_nat (num_segments s) /\ seg ∉ evicted s
         /\ hot_ok t (effective_log_seg s) (fun i => hleaf (slots (seg * 2 ^ Z.of_nat (effective_log_seg s) + i))))) ->
  state_ok s' slots.
Proof.
  intros [H1 H2 H3 H4 H5 H6 H7 H8 H9 H10 H11 H12] E1 E2 E3 E4 E5 E6 Hc Hh.
  constructor; unfold try_get_segment_columns in *; rewrite ?E1, ?E2, ?E3, ?E4, ?E5, ?E6; try assumption.
  intros seg t Hin. destruct (Hh seg t Hin) as [Hold|Hnew]; [now apply H12|exact Hnew].
Qed.

Lemma with_raw_ok s slots r : state_ok s slots -> state_ok (with_raw s r) slots.
Proof. intros Hs. eapply state_ok_same; try eassumption; try reflexivity; [apply Hs|auto]. Qed.

Lemma with_dirty_ok s slots m e : state_ok s slots -> state_ok (with_dirty s m e) slots.
Proof. intros Hs. eapply state_ok_same; try eassumption; try reflexivity; [apply Hs|auto]. Qed.

(** Building a missing tree never changes the answer. *)
Lemma exact_segment_root_ok s slots seg : state_ok s slots -> (forall c, 0 <= column_capacity c) ->
  0 <= seg < Z.of_nat (num_segments s) -> seg ∉ evicted s ->
  exists s', exact_segment_root s seg
      = Return (tree hnode (fun i => hleaf (slots i)) (effective_log_seg s) seg, s')
    /\ state_ok s' slots /\ log_slots s' = log_slots s /\ effective_log_seg s' = effective_log_seg s
    /\ num_segments s' = num_segments s /\ evicted s' = evicted s /\ exact_dirty s' = exact_dirty s
    /\ mdbx_dirty s' = mdbx_dirty s.
Proof.
  intros Hs Hcap Hseg Hev. unfold exact_segment_root, is_evicted. rewrite bool_decide_eq_false_2 by exact Hev.
  pose proof (tree_shift hnode (fun i => hleaf (slots i)) (effective_log_seg s) seg 0) as T. rewrite Z.add_0_r in T.
  destruct (lru_get (exact_segment_cache s) seg) as [t|] eqn:Et.
  - apply lru_get_elem in Et; [|apply Hs]. destruct (ok_hot _ _ Hs seg t Et) as (_ & _ & Hh).
    exists s. split; [|auto 10]. unfold mret, exec_ret. f_equal. f_equal. rewrite (hot_root_ok t _ _ Hh). exact T.
  - destruct (try_get_segment_columns s seg) as [cols|] eqn:Ec.
    + destruct (ok_resident _ _ Hs _ _ Ec Hseg) as (_ & Hl & Hc).
      destruct (from_columns_ok (effective_log_seg s) cols (column_capacity cols) Hl) as (t & E & Hb & Hh). rewrite E.
      cbn [expect mbind exec_bind].
      assert (Hh' : hot_ok t (effective_log_seg s) (fun i => hleaf (slots (seg * 2 ^ Z.of_nat (effective_log_seg s) + i)))).
      { assert (W : Z.of_nat (2 ^ effective_log_seg s) = 2 ^ Z.of_nat (effective_log_seg s)) by apply Nat2Z.inj_pow.
        eapply hot_ok_ext; [|exact Hh]. intros i Hi. cbn beta. rewrite Hc by lia. now rewrite Z2Nat.id by lia. }
      assert (Hroot : hot_root t = tree hnode (fun i => hleaf (slots i)) (effective_log_seg s) seg)
        by (rewrite (hot_root_ok t _ _ Hh'); exact T).
      rewrite Hroot. unfold remember_exact_segment_tree.
      destruct (negb (segment_live_count s seg =? 0) && negb (is_evicted s seg)); cbn [expect mbind exec_bind].
      * destruct (lru_insert_spec (exact_segment_cache s) seg t (ok_cache _ _ Hs)) as (c' & Ei & Hok & _ & Hent & _).
        { unfold resident_bytes. rewrite Hb. pose proof (Hcap cols). lia. }
        rewrite Ei. cbn [mbind option_bind expect exec_bind]. eexists. split; [reflexivity|]. split; [|auto 10].
        eapply state_ok_same; try eassumption; try reflexivity. intros seg' t' Hin. cbn [with_residency exact_segment_cache] in Hin.
        destruct (Hent _ Hin) as [[= -> ->]|[Hold _]]; [right; auto|now left].
      * exists s. auto 10.
    + exists s. split; [|auto 10]. unfold mret, exec_ret. f_equal. f_equal. symmetry. apply empty_subtree. intros i Hi.
      pose proof (ok_virtual _ _ Hs seg Hseg Ec Hev (Z.to_nat (i - seg * 2 ^ Z.of_nat (effective_log_seg s)))) as Hv.
      assert (W : Z.of_nat (2 ^ effective_log_seg s) = 2 ^ Z.of_nat (effective_log_seg s)) by apply Nat2Z.inj_pow.
      rewrite Z2Nat.id in Hv by lia. replace (seg * 2 ^ Z.of_nat (effective_log_seg s) + (i - seg * 2 ^ Z.of_nat (effective_log_seg s))) with i in Hv by lia.
      apply Hv. lia.
Qed.

(** *** Eviction and restoration *)

(** A segment loses its columns, which stay in the database. *)
Lemma drop_columns_ok s slots seg cache : state_ok s slots -> 0 <= seg < Z.of_nat (num_segments s) ->
  lru_ok cache -> (forall e, e ∈ lru_entries cache -> e ∈ lru_entries (exact_segment_cache s) /\ e.1 <> seg) ->
  state_ok (with_residency s (<[Z.to_nat seg := None]> (segments s)) (live_counts s) cache ({[seg]} ∪ evicted s)) slots.
Proof.
  intros [H1 H2 H3 H4 H5 H6 H7 H8 H9 H10 H11 H12] Hseg Hc Hent.
  constructor; unfold try_get_segment_columns in *; cbn [with_residency log_slots effective_log_seg num_segments segments live_counts evicted exact_segment_cache];
    try assumption.
  - now rewrite length_insert.
  - intros seg' cols Hg Hb. rewrite try_get_insert in Hg by (rewrite ?H4; lia). destruct (decide (seg' = seg)) as [->|Hne]; [discriminate Hg|].
    destruct (H7 seg' cols Hg Hb) as (A & B & C). split; [set_solver|auto].
  - intros seg' Hb Hg Hne'. rewrite try_get_insert in Hg by (rewrite ?H4; lia). destruct (decide (seg' = seg)) as [->|Hne]; [set_solver|].
    apply H8; [exact Hb|exact Hg|set_solver].
  - intros seg' Hin. apply elem_of_union in Hin as [->%elem_of_singleton|Hin]; [exact Hseg|now apply H10].
  - intros seg' t Hin. destruct (Hent _ Hin) as [Hold Hne]. destruct (H12 seg' t Hold) as (A & B & C). cbn [fst] in Hne.
    split; [exact A|]. split; [set_solver|exact C].
Qed.

Lemma evict_segment_ok s slots seg : state_ok s slots -> 0 <= seg < Z.of_nat (num_segments s) ->
  state_ok (evict_segment s seg) slots.
Proof.
  intros Hs Hseg. unfold evict_segment. destruct (lru_remove_spec (exact_segment_cache s) seg (ok_cache _ _ Hs)) as (R1 & _ & R3).
  destruct (try_get_segment_columns s seg) as [cols|] eqn:Ec.
  - apply drop_columns_ok; [exact Hs|exact Hseg|exact R1|]. intros e He. now apply R3.
  - eapply state_ok_same; try eassumption; try reflexivity. intros seg' t Hin. left. now apply R3 in Hin.
Qed.

Lemma lookup_nth {A} (l : list A) i d : (i < length l)%nat -> l !! i = Some (nth i l d).
Proof. intros H. rewrite nth_lookup. destruct (lookup_lt_is_Some_2 l i H) as [x ->]. reflexivity. Qed.

Lemma column_count cols n : columns_len cols n = true ->
  count_live cols = Zsum ((fun l => occupied (column_slot cols l)) <$> seq 0 n).
Proof.
  intros Hc. apply columns_len_iff in Hc as (H1 & H2 & H3). unfold count_live.
  assert (E : zip (zip (col_values cols) (col_owners_hi cols)) (col_owners_lo cols)
    = (fun l => ((value (column_slot cols l), owner_hi (column_slot cols l)), owner_lo (column_slot cols l))) <$> seq 0 n).
  { apply list_eq. intros i. destruct (Nat.lt_ge_cases i n) as [Hi|Hi].
    - rewrite list_lookup_fmap, lookup_seq_lt by exact Hi. cbn [fmap option_fmap option_map Nat.add].
      unfold column_slot. cbn [value owner_hi owner_lo]. apply lookup_zip_Some.
      split; [apply lookup_zip_Some; split|]; apply lookup_nth; lia.
    - rewrite !lookup_ge_None_2; [reflexivity|rewrite length_fmap, length_seq; lia|rewrite !length_zip_with; lia]. }
  rewrite E. generalize (seq 0 n). intros ls. induction ls as [|l ls IH]; [reflexivity|]. cbn [fmap list_fmap].
  rewrite filter_cons, Zsum_cons. unfold occupied at 1, is_empty.
  destruct (column_slot cols l) as [a b c]. cbn [value owner_hi owner_lo fst snd].
  destruct (decide (a <> 0 \/ b <> 0 \/ c <> 0)) as [Hne|He].
  - rewrite bool_decide_eq_false_2 by (intros [= -> -> ->]; lia). cbn [length]. lia.
  - rewrite bool_decide_eq_true_2; [lia|]. unfold EMPTY. f_equal; lia.
Qed.

(** The columns of the database come back. *)
Lemma restore_segment_ok s slots seg cols : state_ok s slots -> 0 <= seg < Z.of_nat (num_segments s) ->
  columns_len cols (2 ^ effective_log_seg s) = true ->
  (forall l, (l < 2 ^ effective_log_seg s)%nat ->
     column_slot cols l = slots (seg * 2 ^ Z.of_nat (effective_log_seg s) + Z.of_nat l)) ->
  state_ok (state_restore_evicted_segment s seg cols) slots.
Proof.
  intros Hs Hseg Hl Hc. unfold state_restore_evicted_segment. cbn zeta. apply with_raw_ok.
  assert (Hlive : count_live cols = live_in slots (effective_log_seg s) seg).
  { rewrite (column_count cols _ Hl). unfold live_in. apply Zsum_same. intros l Hl'%elem_of_seq. now rewrite Hc by lia. }
  rewrite Hlive. destruct (lru_remove_spec (exact_segment_cache s) seg (ok_cache _ _ Hs)) as (R1 & _ & R3).
  destruct Hs as [H1 H2 H3 H4 H5 H6 H7 H8 H9 H10 H11 H12].
  constructor; unfold try_get_segment_columns in *; cbn [with_residency log_slots effective_log_seg num_segments segments live_counts evicted exact_segment_cache];
    try assumption.
  - now rewrite length_insert.
  - now rewrite length_insert.
  - intros seg' cols' Hg Hb. rewrite try_get_insert in Hg by (rewrite ?H4; lia). destruct (decide (seg' = seg)) as [->|Hne].
    + destruct (live_in slots (effective_log_seg s) seg =? 0); [discriminate Hg|]. injection Hg as <-.
      split; [set_solver|auto].
    + destruct (H7 seg' cols' Hg Hb) as (A & B & C). split; [set_solver|auto].
  - intros seg' Hb Hg Hne' l Hll. rewrite try_get_insert in Hg by (rewrite ?H4; lia). destruct (decide (seg' = seg)) as [->|Hne].
    + destruct (Z.eqb_spec (live_in slots (effective_log_seg s) seg) 0) as [E0|]; [|discriminate Hg].
      exact (live_in_zero _ _ _ _ E0 Hll).
    + apply H8; [exact Hb|exact Hg|set_solver|exact Hll].
  - intros seg' Hb. destruct (decide (seg' = seg)) as [->|Hne].
    + now rewrite list_lookup_insert_eq by lia.
    + rewrite list_lookup_insert_ne by lia. now apply H9.
  - intros seg' Hin. apply H10. set_solver.
  - intros seg' t Hin. apply R3 in Hin as [Hold Hne]. destruct (H12 seg' t Hold) as (A & B & C).
    split; [exact A|]. split; [set_solver|exact C].
Qed.

Lemma foldl_keeps {A B} (P : A -> Prop) (f : A -> B -> A) l a : (forall a b, b ∈ l -> P a -> P (f a b)) -> P a -> P (foldl f a l).
Proof.
  revert a. induction l as [|b l IH]; intros a Hf Ha; [exact Ha|]. cbn [foldl]. apply IH; [|apply Hf; [now left|exact Ha]].
  intros a' b' Hb. apply Hf. now right.
Qed.

Lemma evict_clean_ok s slots : state_ok s slots -> state_ok (evict_clean_segments s) slots.
Proof.
  intros Hs. unfold evict_clean_segments.
  apply (foldl_keeps (fun s' => state_ok s' slots /\ num_segments s' = num_segments s)); [|auto].
  intros s' id Hid%elem_of_seq [Hs' Hn]. destruct (try_get_segment_columns s' (Z.of_nat id)); [|auto].
  destruct (bool_decide _); [auto|]. split; [|exact Hn].
  destruct (lru_remove_spec (exact_segment_cache s') (Z.of_nat id) (ok_cache _ _ Hs')) as (R1 & _ & R3).
  rewrite <- (Nat2Z.id id) at 1. apply drop_columns_ok; [exact Hs'|lia|exact R1|]. intros e He. now apply R3.
Qed.

Lemma evict_all_ok s slots s' : state_ok s slots -> evict_all_persisted_segments s = Some s' -> state_ok s' slots.
Proof.
  intros Hs. unfold evict_all_persisted_segments. destruct (bool_decide _); [|discriminate]. intros [= <-].
  apply (foldl_keeps (fun s' => state_ok s' slots /\ num_segments s' = num_segments s /\ lru_entries (exact_segment_cache s') = [])).
  - intros s' id Hid%elem_of_seq (Hs' & Hn & He). destruct (try_get_segment_columns s' (Z.of_nat id)); [|auto].
    destruct (_ =? 0); [auto|]. split; [|auto]. rewrite <- (Nat2Z.id id) at 1. apply drop_columns_ok; [exact Hs'|cbn in *; lia|apply Hs'|].
    intros e Hin. rewrite He in Hin. now apply not_elem_of_nil in Hin.
  - split; [|auto]. eapply state_ok_same; try eassumption; try reflexivity; [apply lru_clear_ok, Hs|].
    intros seg t Hin. now apply not_elem_of_nil in Hin.
Qed.

Lemma evict_cold_ok s slots s' : state_ok s slots -> evict_cold_persisted_segments s = Some s' -> state_ok s' slots.
Proof.
  intros Hs. unfold evict_cold_persisted_segments. destruct (_ && _); [|discriminate]. intros [= <-].
  apply (foldl_keeps (fun s' => state_ok s' slots /\ num_segments s' = num_segments s)); [|auto].
  intros s' id Hid%elem_of_seq [Hs' Hn]. destruct (try_get_segment_columns s' (Z.of_nat id)), (lru_get (exact_segment_cache s') (Z.of_nat id)); auto.
  destruct (_ =? 0); [auto|]. split; [apply evict_segment_ok; [exact Hs'|lia]|].
  unfold evict_segment. now destruct (try_get_segment_columns s' (Z.of_nat id)).
Qed.

Lemma durable_clone_ok s slots s' : state_ok s slots -> durable_metadata_clone s = Some s' -> state_ok s' slots.
Proof.
  intros [H1 H2 H3 H4 H5 H6 H7 H8 H9 H10 H11 H12]. unfold durable_metadata_clone. destruct (_ && _); [|discriminate]. intros [= <-].
  set (live := filter _ _).
  assert (L : forall seg, seg ∈ (fun p : nat * Z => Z.of_nat p.1) <$> live
    <-> 0 <= seg < Z.of_nat (num_segments s) /\ live_in slots (effective_log_seg s) seg <> 0).
  { intros seg. unfold live. rewrite list_elem_of_fmap. split.
    - intros ([i c] & -> & Hin). apply list_elem_of_filter in Hin as [Hc Hin]. apply elem_of_lookup_imap in Hin as (j & x & [= -> ->] & Ej).
      cbn [fst snd] in *. pose proof (lookup_lt_Some _ _ _ Ej) as Hj. split; [lia|].
      rewrite <- (Nat2Z.id j), H9 in Ej by lia. congruence.
    - intros [Hb Hne]. exists (Z.to_nat seg, live_in slots (effective_log_seg s) seg). cbn [fst]. split; [lia|].
      apply list_elem_of_filter. split; [exact Hne|]. apply elem_of_lookup_imap. eexists _, _. split; [reflexivity|]. now apply H9. }
  constructor; unfold try_get_segment_columns in *; cbn [log_slots effective_log_seg num_segments segments live_counts evicted exact_segment_cache];
    try assumption.
  - apply length_replicate.
  - intros seg cols Hg. exfalso. destruct (replicate (num_segments s) None !! Z.to_nat seg) as [x|] eqn:E; [|discriminate Hg].
    apply lookup_replicate in E as [-> _]. discriminate Hg.
  - intros seg Hb _ Hne l Hl. apply live_in_zero; [|exact Hl].
    destruct (Z.eq_dec (live_in slots (effective_log_seg s) seg) 0) as [|Hn]; [assumption|]. exfalso. apply Hne, elem_of_union_l, elem_of_list_to_set, L. auto.
  - intros seg Hin. apply elem_of_union in Hin as [Hin|Hin]; [|now apply H10]. apply elem_of_list_to_set, L in Hin. tauto.
  - constructor; cbn; [constructor|constructor|reflexivity|]. unfold DEFAULT_CACHE_BYTES. lia.
  - intros seg t Hin. now apply not_elem_of_nil in Hin.
Qed.

(** *** Raw commitment updates keep the slots *)

Lemma with_raw_with s r r' : with_raw (with_raw s r) r' = with_raw s r'.
Proof. reflexivity. Qed.

Lemma with_raw_id s : with_raw s (raw s) = s.
Proof. now destruct s. Qed.

Lemma flush_segment_shape s seg s' : flush_segment s seg = Some s' -> exists r, s' = with_raw s r.
Proof.
  unfold flush_segment. cbn zeta. destruct (_ && _); [intros [= <-]; exists (raw s); now rewrite with_raw_id|].
  destruct (is_evicted s seg); [discriminate|]. intros [= <-]. eauto.
Qed.

Lemma flush_all_shape s s' : flush_all_dirty s = Some s' -> exists r, s' = with_raw s r.
Proof.
  unfold flush_all_dirty. assert (F : forall l s0 s1, fold_option flush_segment s0 l = Some s1 -> exists r, s1 = with_raw s0 r).
  { induction l as [|seg l IH]; intros s0 s1; cbn [fold_option]; [intros [= <-]; exists (raw s0); now rewrite with_raw_id|].
    destruct (flush_segment s0 seg) as [s2|] eqn:E; [|discriminate]. cbn [mbind option_bind]. intros H.
    apply flush_segment_shape in E as [r ->]. apply IH in H as [r' ->]. eauto. }
  destruct (fold_option _ _ _) as [s1|] eqn:E; [|discriminate]. cbn [mbind option_bind]. intros [= <-].
  apply F in E as [r ->]. unfold flush_tree. rewrite with_raw_with. eauto.
Qed.

(** Flushing succeeds while no dirty segment is evicted. *)
Lemma flush_all_total s : (forall seg, seg ∈ dirty (raw s) -> seg ∉ evicted s) -> is_Some (flush_all_dirty s).
Proof.
  intros H. unfold flush_all_dirty. assert (F : forall l s0, (forall seg, seg ∈ l -> seg ∉ evicted s0) -> is_Some (fold_option flush_segment s0 l)).
  { induction l as [|seg l IH]; intros s0 Hl; cbn [fold_option]; [eauto|].
    destruct (flush_segment s0 seg) as [s2|] eqn:E.
    - cbn [mbind option_bind]. apply IH. apply flush_segment_shape in E as [r ->]. intros seg' Hs'. apply Hl. now right.
    - exfalso. unfold flush_segment in E. cbn zeta in E. destruct (_ && _); [discriminate E|]. unfold is_evicted in E.
      rewrite bool_decide_eq_false_2 in E by (apply Hl; now left). discriminate E. }
  destruct (F (elements (dirty (raw s))) s) as [s1 ->]; [intros seg Hin; apply H; now apply elem_of_elements|]. eauto.
Qed.

(** *** Expansion *)

Lemma grow_column_slot cols n extra l : columns_len cols n = true ->
  column_slot (grow_columns cols extra) l = if (l <? n)%nat then column_slot cols l else EMPTY.
Proof.
  intros Hc. apply columns_len_iff in Hc as (H1 & H2 & H3). unfold column_slot, grow_columns. cbn [col_values col_owners_hi col_owners_lo].
  assert (E : forall c : list Z, length c = n -> nth l (c ++ replicate extra 0) 0 = if (l <? n)%nat then nth l c 0 else 0).
  { intros c Hl. rewrite !nth_lookup. destruct (Nat.ltb_spec l n).
    - rewrite lookup_app_l by lia. reflexivity.
    - rewrite lookup_app_r by lia. destruct (replicate extra 0 !! (l - length c)%nat) eqn:E; [apply lookup_replicate in E as [-> _]|]; reflexivity. }
  rewrite !E by assumption. now destruct (l <? n)%nat.
Qed.

Lemma live_in_grow slots eff : (forall i, 2 ^ Z.of_nat eff <= i -> slots i = EMPTY) ->
  live_in slots (S eff) 0 = live_in slots eff 0.
Proof.
  intros He. unfold live_in. replace (2 ^ S eff)%nat with (2 ^ eff + 2 ^ eff)%nat by (rewrite Nat.pow_succ_r'; lia).
  rewrite seq_app, fmap_app, Zsum_app. cbn [Nat.add].
  assert (Z0 : Zsum ((fun l => occupied (slots (0 * 2 ^ Z.of_nat (S eff) + Z.of_nat l))) <$> seq (2 ^ eff) (2 ^ eff)) = 0).
  { assert (W : Z.of_nat (2 ^ eff) = 2 ^ Z.of_nat eff) by apply Nat2Z.inj_pow.
    apply Zsum_none. intros l Hl%elem_of_seq. rewrite He by lia. reflexivity. }
  rewrite Z0, Z.add_0_r. apply Zsum_same. intros l _. now rewrite !Z.mul_0_l.
Qed.

Lemma default_app_none {A} (l : list (option A)) n i : default None ((l ++ replicate n None) !! i) = default None (l !! i).
Proof.
  destruct (Nat.lt_ge_cases i (length l)).
  - now rewrite lookup_app_l.
  - rewrite lookup_app_r by lia. rewrite (lookup_ge_None_2 l) by lia.
    destruct (replicate n None !! (i - length l)%nat) as [x|] eqn:E; [apply lookup_replicate in E as [-> _]|]; reflexivity.
Qed.

(** Doubling the number of segments. *)
Lemma double_state_ok s slots r : state_ok s slots -> (SEGMENT_LOG <= log_slots s < 32)%nat ->
  state_ok (mkState (log_slots s + 1) (effective_log_seg s) (2 * num_segments s) (segments s ++ replicate (num_segments s) None)
    (live_counts s ++ replicate (num_segments s) 0) r (mdbx_dirty s) (exact_dirty s) (exact_segment_cache s) (evicted s)) slots.
Proof.
  intros Hs Hlog. pose proof (num_of_slots s slots Hs) as N. destruct Hs as [H1 H2 H3 H4 H5 H6 H7 H8 H9 H10 H11 H12].
  assert (Hup : forall seg (l : nat), Z.of_nat (num_segments s) <= seg ->
    slots (seg * 2 ^ Z.of_nat (effective_log_seg s) + Z.of_nat l) = EMPTY).
  { intros seg l Hseg. apply H6. pose proof (pow2_gt0 (effective_log_seg s)). rewrite <- N. nia. }
  constructor; unfold try_get_segment_columns in *; cbn [log_slots effective_log_seg num_segments segments live_counts evicted exact_segment_cache];
    try assumption.
  - lia.
  - lia.
  - rewrite H3. replace (log_slots s + 1 - effective_log_seg s)%nat with (S (log_slots s - effective_log_seg s)) by lia. reflexivity.
  - rewrite length_app, length_replicate. lia.
  - rewrite length_app, length_replicate. lia.
  - intros i Hi. apply H6. intros Hi'. apply Hi. rewrite Nat.add_1_r, pow2_S. lia.
  - intros seg cols Hg Hb. rewrite default_app_none in Hg. apply H7; [exact Hg|].
    destruct (segments s !! Z.to_nat seg) eqn:E; [|discriminate Hg]. apply lookup_lt_Some in E. lia.
  - intros seg Hb Hg Hne l Hl. rewrite default_app_none in Hg.
    destruct (Z_lt_ge_dec seg (Z.of_nat (num_segments s))); [apply H8; [lia|assumption..]|apply Hup; lia].
  - intros seg Hb. destruct (Z_lt_ge_dec seg (Z.of_nat (num_segments s))).
    + rewrite lookup_app_l by lia. apply H9. lia.
    + rewrite lookup_app_r by lia. rewrite lookup_replicate_2 by lia. f_equal. symmetry. unfold live_in.
      apply Zsum_none. intros l _. now rewrite Hup by lia.
  - intros seg Hin. specialize (H10 seg Hin). lia.
  - intros seg t Hin. destruct (H12 seg t Hin) as (A & B & C). split; [lia|auto].
Qed.

Lemma expand_replay_ok s slots : state_ok s slots -> (SEGMENT_LOG <= log_slots s < 32)%nat ->
  exists s', expand_exact_metadata_for_replay s = Ok s' /\ state_ok s' slots /\ log_slots s' = S (log_slots s)
    /\ exact_dirty s' = exact_dirty s /\ evicted s' = evicted s.
Proof.
  intros Hs Hlog. unfold expand_exact_metadata_for_replay. pose proof (ok_eff _ _ Hs) as He.
  destruct (Nat.eqb_spec (effective_log_seg s) SEGMENT_LOG); [|lia]. cbn [negb orb].
  destruct (Nat.leb_spec 32 (log_slots s)); [lia|]. eexists. split; [reflexivity|].
  split; [now apply double_state_ok|]. cbn. split; [lia|auto].
Qed.

Lemma expand_ok s slots : state_ok s slots -> (log_slots s < 32)%nat ->
  ((log_slots s < SEGMENT_LOG)%nat -> forall seg, seg ∈ {[0]} ∪ dirty (raw s) -> seg ∉ evicted s) ->
  exists s', expand s = Some s' /\ state_ok s' slots /\ log_slots s' = S (log_slots s)
    /\ evicted s' = evicted s
    /\ exact_dirty s' = if (log_slots s <? SEGMENT_LOG)%nat then {[0]} ∪ exact_dirty s else exact_dirty s.
Proof.
  intros Hs Hlog Hev. unfold expand. cbn zeta. destruct (Nat.leb_spec (log_slots s + 1) SEGMENT_LOG) as [Hsmall|Hbig].
  - match goal with |- context [flush_all_dirty ?x] => set (s1 := x) end.
    destruct (Nat.ltb_spec (log_slots s) SEGMENT_LOG); [|lia]. specialize (Hev ltac:(lia)).
    assert (Hs1 : state_ok s1 slots).
    { pose proof (num_of_slots s slots Hs) as N. destruct (lru_remove_spec (exact_segment_cache s) 0 (ok_cache _ _ Hs)) as (R1 & _ & R3).
      destruct Hs as [H1 H2 H3 H4 H5 H6 H7 H8 H9 H10 H11 H12].
      assert (Eeff : effective_log_seg s = log_slots s) by lia. rewrite Eeff in *. rewrite Nat.sub_diag in H3. cbn [Nat.pow] in H3.
      assert (Hup : forall i, 2 ^ Z.of_nat (log_slots s) <= i -> slots i = EMPTY) by (intros i Hi; apply H6; lia).
      assert (W : Z.of_nat (2 ^ log_slots s) = 2 ^ Z.of_nat (log_slots s)) by apply Nat2Z.inj_pow.
      destruct (segments s) as [|x [|y rest]] eqn:Esegs; cbn [length] in H4; try lia.
      assert (E0 : forall seg, 0 <= seg < Z.of_nat 1 -> seg = 0) by (intros; lia).
      unfold s1. constructor; unfold try_get_segment_columns in *; cbn [log_slots effective_log_seg num_segments segments live_counts evicted exact_segment_cache];
        rewrite ?H3, ?Esegs in *; try assumption.
      - lia.
      - lia.
      - now rewrite Nat.sub_diag.
      - cbn [lookup list_lookup]. now destruct x.
      - intros i Hi. apply H6. intros Hi'. apply Hi. rewrite Nat.add_1_r, pow2_S. lia.
      - intros seg cols Hg Hb. apply E0 in Hb as ->. cbn [lookup list_lookup Z.to_nat] in *. destruct x as [cols0|]; cbn in Hg; [|discriminate Hg].
        injection Hg as <-. destruct (H7 0 cols0 eq_refl ltac:(lia)) as (A & B & C). split; [exact A|].
        replace (log_slots s + 1 - 1)%nat with (log_slots s) by lia. split.
        + apply columns_len_iff in B as (B1 & B2 & B3). apply columns_len_iff. unfold grow_columns. cbn [col_values col_owners_hi col_owners_lo].
          rewrite !length_app, !length_replicate, Nat.add_1_r. cbn [Nat.pow]. lia.
        + intros l Hl. rewrite (grow_column_slot _ (2 ^ log_slots s)) by exact B. rewrite Z.mul_0_l, Z.add_0_l.
          destruct (Nat.ltb_spec l (2 ^ log_slots s)); [rewrite C by lia; now rewrite Z.mul_0_l|]. symmetry. apply Hup. lia.
      - intros seg Hb Hg Hne l Hl. apply E0 in Hb as ->. rewrite Z.mul_0_l, Z.add_0_l. cbn [lookup list_lookup Z.to_nat] in Hg.
        destruct x as [cols0|]; cbn in Hg; [discriminate Hg|].
        destruct (Nat.lt_ge_cases l (2 ^ log_slots s)); [|apply Hup; lia].
        pose proof (H8 0 ltac:(lia) eq_refl Hne l ltac:(lia)) as Hv. now rewrite Z.mul_0_l in Hv.
      - intros seg Hb. apply E0 in Hb as ->. rewrite (H9 0) by lia. f_equal. rewrite Nat.add_1_r. symmetry. now apply live_in_grow.
      - intros seg t Hin. exfalso. apply R3 in Hin as [Hin Hne]. destruct (H12 _ _ Hin) as (A & _). cbn [fst] in Hne. lia. }
    destruct (flush_all_total s1) as [s2 E2]; [exact Hev|]. exists s2. split; [exact E2|].
    apply flush_all_shape in E2 as [r ->]. split; [now apply with_raw_ok|]. cbn. split; [lia|auto].
  - eexists. split; [reflexivity|]. split; [now apply double_state_ok; [|lia]|]. cbn [log_slots evicted exact_dirty].
    destruct (Nat.ltb_spec (log_slots s) SEGMENT_LOG); [lia|]. split; [lia|auto].
Qed.

(** The empty state. *)
Lemma new_empty_ok log : (1 <= log <= 32)%nat ->
  exists s, new_empty log = Some s /\ state_ok s (fun _ => EMPTY) /\ log_slots s = log /\ exact_dirty s = ∅
    /\ mdbx_dirty s = ∅ /\ evicted s = ∅ /\ dirty (raw s) = ∅.
Proof.
  intros Hlog. unfold new_empty. destruct (Nat.leb_spec 1 log); [|lia]. cbn zeta.
  eexists. split; [reflexivity|]. split; [|auto 10].
  constructor; unfold try_get_segment_columns; cbn [log_slots effective_log_seg num_segments segments live_counts evicted exact_segment_cache].
  - exact Hlog.
  - reflexivity.
  - destruct (Nat.ltb_spec SEGMENT_LOG log).
    + f_equal. lia.
    + replace (log - Nat.min log SEGMENT_LOG)%nat with 0%nat by lia. reflexivity.
  - apply length_replicate.
  - apply length_replicate.
  - reflexivity.
  - intros seg cols Hg. exfalso. destruct (replicate _ None !! Z.to_nat seg) as [x|] eqn:E; [|discriminate Hg].
    apply lookup_replicate in E as [-> _]. discriminate Hg.
  - reflexivity.
  - intros seg Hb. rewrite lookup_replicate_2 by lia. f_equal. symmetry. unfold live_in.
    apply Zsum_none. reflexivity.
  - intros seg Hin. set_solver.
  - constructor; cbn; [constructor|constructor|reflexivity|]. unfold DEFAULT_CACHE_BYTES. lia.
  - intros seg t Hin. now apply not_elem_of_nil in Hin.
Qed.
End Segmented.
