(* ===== verification/Resize.v ===== *)
(** * Resizing the segmented state, and its refinement of a slot vector

    Shrinking drops an empty upper half and fails closed otherwise; expansion and
    shrinking keep every slot.  Every state reached by the operations of
    [segmented_state.rs] reads as the vector of slots they describe. *)

From Stdlib Require Import ZArith Lia Bool Sorted.
From stdpp Require Import base numbers list option gmap sorting.
From S2P Require Import Prelude Merkle SparseMerkle StateTree HeapTree HotSegments StreamRoot Segmented.
Open Scope Z_scope.

Section Resize.
Context {D : Type} `{!ExactHash D} `{!RawCommit D}.
Implicit Types s : SegmentedFriState (D := D).

(** No slot at or above [2 ^ target] is occupied. *)
Definition upper_clear (slots : Z -> SlotValue) (target : nat) : Prop := forall i, 2 ^ Z.of_nat target <= i -> slots i = EMPTY.

(** ** Whole segments *)

Lemma check_upper_iff s resident ids : check_upper s resident ids = Ok tt <->
  forall id, id ∈ ids -> Z.of_nat id ∉ evicted s /\ segment_live_count s (Z.of_nat id) = 0
    /\ (resident = true -> try_get_segment_columns s (Z.of_nat id) = None).
Proof.
  induction ids as [|id ids IH]; cbn [check_upper].
  - split; [intros _ id Hid; now apply not_elem_of_nil in Hid|reflexivity].
  - unfold is_evicted. destruct (bool_decide_reflect (Z.of_nat id ∈ evicted s)) as [He|He].
    + split; [discriminate|]. intros H. now destruct (H id ltac:(left)) as [[] _].
    + assert (B : (negb (segment_live_count s (Z.of_nat id) =? 0)
        || (resident && match try_get_segment_columns s (Z.of_nat id) with Some _ => true | None => false end)) = false
        <-> segment_live_count s (Z.of_nat id) = 0 /\ (resident = true -> try_get_segment_columns s (Z.of_nat id) = None)).
      { rewrite orb_false_iff, negb_false_iff, Z.eqb_eq. apply and_iff_compat_l.
        destruct resident, (try_get_segment_columns s (Z.of_nat id)); cbn; intuition congruence. }
      destruct (_ || _) eqn:E.
      * split; [discriminate|]. intros H. exfalso. destruct (H id ltac:(left)) as (_ & H1). apply B in H1. discriminate H1.
      * rewrite IH. setoid_rewrite elem_of_cons. apply proj1 in B. specialize (B eq_refl). split; [|intros H id' Hid; apply H; auto].
        intros H id' [->|Hid]; [auto|now apply H].
Qed.

Lemma check_upper_nonempty s ids resident seg : check_upper s resident ids = Err (NonEmptyUpperHalf seg) ->
  resident = false -> ~ (forall id, id ∈ ids -> segment_live_count s (Z.of_nat id) = 0).
Proof.
  intros E -> H. revert E. induction ids as [|id ids IH]; cbn [check_upper]; [discriminate|].
  destruct (is_evicted s (Z.of_nat id)); [discriminate|]. rewrite (H id) by now left. cbn [Z.eqb negb orb andb].
  apply IH. intros i Hi. apply H. now right.
Qed.

Lemma live_count_ok s slots seg : state_ok s slots -> 0 <= seg < Z.of_nat (num_segments s) ->
  segment_live_count s seg = live_in slots (effective_log_seg s) seg.
Proof. intros Hs Hb. unfold segment_live_count. now rewrite (ok_counts _ _ Hs) by exact Hb. Qed.

(** The slots at or above [2 ^ target] are empty when the upper segments count
    no live slot. *)
Lemma upper_empty s slots count target : state_ok s slots ->
  Z.of_nat count * 2 ^ Z.of_nat (effective_log_seg s) = 2 ^ Z.of_nat target ->
  (forall id, id ∈ seq count (num_segments s - count) -> segment_live_count s (Z.of_nat id) = 0)
  <-> upper_clear slots target.
Proof.
  intros Hs Hc. pose proof (num_of_slots s slots Hs) as N. pose proof (pow2_gt0 (effective_log_seg s)) as W.
  split.
  - intros H i Hi. destruct (decide (0 <= i < num_slots s)) as [Hr|Hr]; [|now apply (ok_outside _ _ Hs)].
    destruct (position_of s slots Hs i Hr) as (_ & _ & Hseg & Hloc & Hpos).
    set (seg := seg_id_of s i) in *. set (loc := local_idx_of s i) in *. clearbody seg loc. subst i.
    replace loc with (Z.of_nat (Z.to_nat loc)) by lia. apply live_in_zero.
    + rewrite <- (live_count_ok s slots) by assumption. rewrite <- (Z2Nat.id seg) by lia. apply H, elem_of_seq.
      assert (Z.of_nat count <= seg) by nia. lia.
    + apply Nat2Z.inj_lt. rewrite Nat2Z.inj_pow. lia.
  - intros H id Hid%elem_of_seq. rewrite (live_count_ok s slots) by (assumption || lia). unfold live_in.
    apply Zsum_none. intros l _. rewrite H by nia. reflexivity.
Qed.

Lemma lookup_take_default {A} (l : list (option A)) n i cols :
  default None (take n l !! i) = Some cols -> (i < n)%nat /\ default None (l !! i) = Some cols.
Proof.
  destruct (Nat.lt_ge_cases i n).
  - rewrite lookup_take_lt by assumption. auto.
  - rewrite lookup_take_ge by assumption. discriminate.
Qed.

Lemma truncate_ok s slots target r : state_ok s slots -> (SEGMENT_LOG <= target <= log_slots s)%nat ->
  upper_clear slots target ->
  state_ok (truncate_segments s target (2 ^ (target - SEGMENT_LOG)) r) slots.
Proof.
  intros Hs Ht Hup. destruct Hs as [H1 H2 H3 H4 H5 H6 H7 H8 H9 H10 H11 H12].
  assert (Eeff : effective_log_seg s = SEGMENT_LOG) by (unfold SEGMENT_LOG in *; lia). rewrite Eeff in *.
  set (count := (2 ^ (target - SEGMENT_LOG))%nat).
  assert (Hc : (count <= num_segments s)%nat) by (rewrite H3; apply Nat.pow_le_mono_r; lia).
  destruct (lru_truncate_spec (exact_segment_cache s) (Z.of_nat count) H11) as (R1 & R2).
  unfold truncate_segments. constructor; unfold try_get_segment_columns in *;
    cbn [log_slots effective_log_seg num_segments segments live_counts evicted exact_segment_cache]; rewrite ?Eeff; try assumption.
  - unfold SEGMENT_LOG in *. lia.
  - lia.
  - reflexivity.
  - rewrite length_take. lia.
  - rewrite length_take. lia.
  - intros i Hi. destruct (Z_lt_ge_dec i 0); [apply H6; lia|apply Hup; lia].
  - intros seg cols Hg Hb. apply lookup_take_default in Hg as [_ Hg]. destruct (H7 seg cols Hg ltac:(lia)) as (A & B). split; [|exact B].
    intros Hin. apply elem_of_filter in Hin as [_ Hin]. exact (A Hin).
  - intros seg Hb Hg Hne l Hl. rewrite lookup_take_lt in Hg by lia. apply H8; [lia|exact Hg| |exact Hl].
    intros Hin. apply Hne, elem_of_filter. split; [lia|exact Hin].
  - intros seg Hb. rewrite lookup_take_lt by lia. apply H9. lia.
  - intros seg Hin. apply elem_of_filter in Hin as [Hin Hin2]. specialize (H10 _ Hin2). lia.
  - intros seg t Hin. apply R2 in Hin as [Hlt Hin]. cbn [fst] in Hlt. destruct (H12 _ _ Hin) as (A & B & C). split; [lia|].
    split; [|exact C]. intros Hin'. apply elem_of_filter in Hin' as [_ Hin']. exact (B Hin').
Qed.

(** The metadata shrink succeeds exactly when it drops virtual segments only. *)
Lemma shrink_metadata_iff s slots target s' : state_ok s slots -> target <> log_slots s ->
  shrink_exact_metadata_to_log_slots s target = Ok s' ->
  (SEGMENT_LOG <= target < log_slots s)%nat /\ upper_clear slots target
  /\ state_ok s' slots /\ log_slots s' = target.
Proof.
  intros Hs Hne. unfold shrink_exact_metadata_to_log_slots. destruct (Nat.eqb_spec target (log_slots s)); [congruence|].
  destruct (Nat.eqb_spec (effective_log_seg s) SEGMENT_LOG) as [Eeff|]; [|discriminate].
  destruct (Nat.ltb_spec target SEGMENT_LOG), (Nat.ltb_spec (log_slots s) target); cbn [negb orb]; try discriminate.
  set (count := (2 ^ (target - SEGMENT_LOG))%nat). destruct (check_upper s true _) as [[]|] eqn:E; [|discriminate].
  cbn [mbind result_bind]. intros [= <-].
  assert (Hup : upper_clear slots target).
  { apply (upper_empty s slots count target Hs).
    - unfold count. rewrite Eeff. apply pow_count. lia.
    - intros id Hid. now apply (proj1 (check_upper_iff _ _ _) E). }
  split; [lia|]. split; [exact Hup|]. split; [apply truncate_ok; [exact Hs|lia|exact Hup]|reflexivity].
Qed.

(** ** The single segment *)

Lemma upper_zero cols n keep : columns_len cols n = true -> (keep <= n)%nat ->
  forallb (Z.eqb 0) (drop keep (col_values cols) ++ drop keep (col_owners_hi cols) ++ drop keep (col_owners_lo cols)) = true
  <-> forall l, (keep <= l < n)%nat -> column_slot cols l = EMPTY.
Proof.
  intros Hc Hk. apply columns_len_iff in Hc as (H1 & H2 & H3). rewrite !forallb_app, !andb_true_iff.
  assert (F : forall c : list Z, length c = n ->
    forallb (Z.eqb 0) (drop keep c) = true <-> forall l, (keep <= l < n)%nat -> nth l c 0 = 0).
  { intros c Hl. rewrite forallb_forall. split.
    - intros H l Hb. symmetry. apply Z.eqb_eq, H. apply list_elem_of_In, list_elem_of_lookup. exists (l - keep)%nat.
      rewrite lookup_drop. replace (keep + (l - keep))%nat with l by lia. apply lookup_nth. lia.
    - intros H x Hx. apply list_elem_of_In, list_elem_of_lookup in Hx as [i Hi]. rewrite lookup_drop in Hi.
      pose proof (lookup_lt_Some _ _ _ Hi). apply Z.eqb_eq. rewrite (lookup_nth _ _ 0) in Hi by assumption.
      injection Hi as <-. symmetry. apply H. lia. }
  rewrite !F by assumption. unfold column_slot, EMPTY. split.
  - intros (A & B & C) l Hl. now rewrite A, B, C.
  - intros H. repeat split; intros l Hl; specialize (H l Hl); now injection H.
Qed.

Lemma take_column_slot cols keep l : (l < keep)%nat ->
  column_slot (truncate_columns cols keep) l
  = column_slot cols l.
Proof.
  intros Hl. unfold column_slot, truncate_columns. cbn [col_values col_owners_hi col_owners_lo].
  now rewrite !nth_lookup, !lookup_take_lt by assumption.
Qed.

Lemma live_in_half slots eff : (forall i, 2 ^ Z.of_nat (eff - 1) <= i -> slots i = EMPTY) -> (1 <= eff)%nat ->
  live_in slots eff 0 = live_in slots (eff - 1) 0.
Proof. intros H He. destruct eff as [|eff]; [lia|]. rewrite Nat.sub_succ, Nat.sub_0_r in *. now apply live_in_grow. Qed.

(** The columns and the live count after the single segment is halved. *)
Definition halved s (segs : list (option SegmentColumns)) (counts : list Z) : Prop :=
  match try_get_segment_columns s 0 with
  | None => segs = segments s /\ counts = live_counts s
  | Some cols =>
      let cols := truncate_columns cols (2 ^ (log_slots s - 1)) in
      segs = <[0%nat := if count_live cols =? 0 then None else Some cols]> (segments s)
      /\ counts = <[0%nat := count_live cols]> (live_counts s)
  end.

(** Halving the single segment, once its upper half is known to be empty. *)
Lemma halve_ok s slots segs counts r : state_ok s slots -> (2 <= log_slots s <= SEGMENT_LOG)%nat -> 0 ∉ evicted s ->
  upper_clear slots (log_slots s - 1) ->
  halved s segs counts ->
  state_ok (mkState (log_slots s - 1) (log_slots s - 1) (num_segments s) segs counts r ({[0]} ∪ mdbx_dirty s)
    ({[0]} ∪ exact_dirty s) (lru_remove (exact_segment_cache s) 0) (evicted s)) slots.
Proof.
  intros Hs Hlog Hev Hup Hm. destruct (lru_remove_spec (exact_segment_cache s) 0 (ok_cache _ _ Hs)) as (R1 & _ & R3).
  destruct Hs as [H1 H2 H3 H4 H5 H6 H7 H8 H9 H10 H11 H12].
  assert (Eeff : effective_log_seg s = log_slots s) by lia. rewrite Eeff in *. rewrite Nat.sub_diag in H3. cbn [Nat.pow] in H3.
  rewrite H3 in *. unfold halved, try_get_segment_columns in *.
  destruct (segments s) as [|x [|y rest]] eqn:Esegs; cbn [length] in H4; try lia.
  destruct (live_counts s) as [|c [|c' rest']] eqn:Ecounts; cbn [length] in H5; try lia.
  assert (E0 : forall seg, 0 <= seg < Z.of_nat 1 -> seg = 0) by (intros; lia).
  set (keep := (2 ^ (log_slots s - 1))%nat) in *.
  assert (Hkeep : (2 ^ log_slots s)%nat = (keep + keep)%nat).
  { unfold keep. replace (log_slots s) with (S (log_slots s - 1)) at 1 by lia. rewrite Nat.pow_succ_r'. lia. }
  assert (Hlive : live_in slots (log_slots s) 0 = live_in slots (log_slots s - 1) 0) by (apply live_in_half; [exact Hup|lia]).
  assert (Hslots : forall l, 0 * 2 ^ Z.of_nat (log_slots s) + Z.of_nat l = 0 * 2 ^ Z.of_nat (log_slots s - 1) + Z.of_nat l) by lia.
  assert (P : (forall cols, default None (segs !! 0%nat) = Some cols -> columns_len cols keep = true
                /\ forall l, (l < keep)%nat -> column_slot cols l = slots (Z.of_nat l))
    /\ (default None (segs !! 0%nat) = None -> forall l, (l < keep)%nat -> slots (Z.of_nat l) = EMPTY)
    /\ length segs = 1%nat /\ counts = [live_in slots (log_slots s - 1) 0]).
  { destruct x as [cols|].
    - destruct (H7 0 cols eq_refl ltac:(lia)) as (_ & B & C). change (segs = <[0%nat := if count_live (truncate_columns cols keep) =? 0 then None else Some (truncate_columns cols keep)]> [Some cols]
        /\ counts = <[0%nat := count_live (truncate_columns cols keep)]> [c]) in Hm.
      set (cols' := truncate_columns cols keep) in *.
      assert (L' : columns_len cols' keep = true).
      { apply columns_len_iff in B as (B1 & B2 & B3). apply columns_len_iff. unfold cols', truncate_columns. cbn [col_values col_owners_hi col_owners_lo].
        rewrite !length_take. lia. }
      assert (S' : forall l, (l < keep)%nat -> column_slot cols' l = slots (Z.of_nat l)).
      { intros l Hl. unfold cols'. rewrite take_column_slot, C by lia. f_equal. }
      assert (N' : count_live cols' = live_in slots (log_slots s - 1) 0).
      { rewrite (column_count _ keep L'). unfold live_in. apply Zsum_same. intros l Hl%elem_of_seq. rewrite S' by lia. f_equal. }
      rewrite N' in Hm. destruct Hm as [-> ->]. cbn [insert list_insert lookup list_lookup from_option id length].
      split; [|split; [|auto]].
      + intros cols0 Hg. destruct (_ =? 0); [discriminate Hg|]. injection Hg as <-. auto.
      + intros Hg l Hl. destruct (Z.eqb_spec (live_in slots (log_slots s - 1) 0) 0) as [E|]; [|discriminate Hg].
        apply (live_in_zero _ _ _ l) in E; [exact E|exact Hl].
    - destruct Hm as [-> ->]. cbn [lookup list_lookup from_option id length]. split; [discriminate|]. split; [|split; [reflexivity|]].
      + intros _ l Hl. pose proof (H8 0 ltac:(lia) eq_refl Hev l ltac:(lia)) as Hv. now rewrite Z.mul_0_l in Hv.
      + specialize (H9 0 ltac:(lia)). injection H9 as ->. now rewrite Hlive. }
  destruct P as (P1 & P2 & P3 & ->). clear Hm.
  constructor; unfold try_get_segment_columns; cbn [log_slots effective_log_seg num_segments segments live_counts evicted exact_segment_cache];
    try assumption.
  - lia.
  - lia.
  - now rewrite Nat.sub_diag.
  - intros i Hi. destruct (Z_lt_ge_dec i 0); [apply H6; lia|apply Hup; lia].
  - intros seg cols Hg Hb. apply E0 in Hb as ->. destruct (P1 cols Hg) as (A & B). auto.
  - intros seg Hb Hg Hne l Hl. apply E0 in Hb as ->. now apply P2.
  - intros seg Hb. now apply E0 in Hb as ->.
  - intros seg t Hin. exfalso. apply R3 in Hin as [Hin Hne]. destruct (H12 _ _ Hin) as (A & _). cbn [fst] in Hne. lia.
Qed.

(** ** Shrinking *)

Lemma check_upper_err s resident ids e : check_upper s resident ids = Err e ->
  (exists seg, e = NonEmptyUpperHalf seg) \/ (exists seg, e = EvictedUpperSegment seg /\ seg ∈ evicted s).
Proof.
  induction ids as [|id ids IH]; cbn [check_upper]; [discriminate|]. unfold is_evicted.
  destruct (bool_decide_reflect (Z.of_nat id ∈ evicted s)); [intros [= <-]; eauto|]. destruct (_ || _); [intros [= <-]; eauto|exact IH].
Qed.

(** A flush panics only on an evicted segment. *)
Lemma flush_all_panics s : flush_all_dirty s = None -> exists seg, seg ∈ evicted s.
Proof.
  intros E. destruct (decide (evicted s = ∅)) as [He|He].
  - destruct (flush_all_total s) as [s' E']; [intros seg _; rewrite He; apply not_elem_of_empty|congruence].
  - now apply set_choose_L in He.
Qed.

(** The upper half of the single segment, read from its columns. *)
Lemma single_upper s slots : state_ok s slots -> (1 <= log_slots s <= SEGMENT_LOG)%nat -> 0 ∉ evicted s ->
  let keep := (2 ^ (log_slots s - 1))%nat in
  upper_clear slots (log_slots s - 1) <->
  match try_get_segment_columns s 0 with
  | None => True
  | Some cols => forallb (Z.eqb 0) (drop keep (col_values cols) ++ drop keep (col_owners_hi cols) ++ drop keep (col_owners_lo cols)) = true
  end.
Proof.
  intros Hs Hlog Hev. cbn zeta. assert (Eeff : effective_log_seg s = log_slots s) by (rewrite (ok_eff _ _ Hs); lia).
  assert (Hn : num_segments s = 1%nat) by (rewrite (ok_num _ _ Hs), Eeff, Nat.sub_diag; reflexivity).
  assert (Hkeep : (2 ^ log_slots s)%nat = (2 ^ (log_slots s - 1) + 2 ^ (log_slots s - 1))%nat).
  { replace (log_slots s) with (S (log_slots s - 1)) at 1 by lia. rewrite Nat.pow_succ_r'. lia. }
  pose proof (Nat2Z.inj_pow 2 (log_slots s - 1)) as W1. pose proof (Nat2Z.inj_pow 2 (log_slots s)) as W2. pose proof (pow2_gt0 (log_slots s - 1)) as P.
  assert (R : forall l, (l < 2 ^ log_slots s)%nat ->
    match try_get_segment_columns s 0 with Some cols => column_slot cols l | None => EMPTY end = slots (Z.of_nat l)).
  { intros l Hl. destruct (try_get_segment_columns s 0) as [cols|] eqn:Ec.
    - destruct (ok_resident _ _ Hs 0 cols Ec ltac:(lia)) as (_ & _ & C). rewrite Eeff in C. rewrite C by exact Hl. f_equal.
    - pose proof (ok_virtual _ _ Hs 0 ltac:(lia) Ec Hev l) as V. rewrite Eeff in V. symmetry. now apply V. }
  destruct (try_get_segment_columns s 0) as [cols|] eqn:Ec.
  - destruct (ok_resident _ _ Hs 0 cols Ec ltac:(lia)) as (_ & B & _). rewrite Eeff in B. rewrite (upper_zero cols (2 ^ log_slots s)) by (assumption || lia). split.
    + intros H l Hl. rewrite R by lia. apply H. lia.
    + intros H i Hi. destruct (Z_lt_ge_dec i (2 ^ Z.of_nat (log_slots s))); [|apply (ok_outside _ _ Hs); lia].
      specialize (H (Z.to_nat i) ltac:(lia)). rewrite R in H by lia. rewrite <- H. f_equal. lia.
  - split; [auto|]. intros _ i Hi. destruct (Z_lt_ge_dec i (2 ^ Z.of_nat (log_slots s))); [|apply (ok_outside _ _ Hs); lia].
    specialize (R (Z.to_nat i) ltac:(lia)). rewrite R. f_equal. lia.
Qed.

(** What a shrink of one level does. *)
Definition shrink_result s slots (target : nat) (r : exec StateResizeError (SegmentedFriState (D := D))) : Prop :=
  match r with
  | Return s' => upper_clear slots target /\ state_ok s' slots /\ log_slots s' = target /\ evicted s' ⊆ evicted s
  | Fail (NonEmptyUpperHalf _) => ~ upper_clear slots target
  | Fail (EvictedUpperSegment seg) => seg ∈ evicted s
  | Fail (InvalidTarget _ _) => False
  | Panic => exists seg, seg ∈ evicted s
  end.

Lemma shrink_single s slots : state_ok s slots -> (2 <= log_slots s <= SEGMENT_LOG)%nat -> 0 ∉ evicted s ->
  upper_clear slots (log_slots s - 1) -> forall segs counts r, halved s segs counts ->
  shrink_result s slots (log_slots s - 1) (expect (flush_all_dirty
    (mkState (log_slots s - 1) (log_slots s - 1) (num_segments s) segs counts r ({[0]} ∪ mdbx_dirty s)
       ({[0]} ∪ exact_dirty s) (lru_remove (exact_segment_cache s) 0) (evicted s)))).
Proof.
  intros Hs Hlog Hev Hup segs counts r Hm. pose proof (halve_ok s slots segs counts r Hs Hlog Hev Hup Hm) as Hok.
  destruct (flush_all_dirty _) as [s2|] eqn:E2; cbn [expect shrink_result].
  - apply flush_all_shape in E2 as [r' ->]. split; [exact Hup|]. split; [now apply with_raw_ok|]. split; [reflexivity|]. reflexivity.
  - apply flush_all_panics in E2. exact E2.
Qed.

Lemma shrink_one_cases s slots : state_ok s slots -> (2 <= log_slots s)%nat ->
  shrink_result s slots (log_slots s - 1) (shrink_one s).
Proof.
  intros Hs Hlog. unfold shrink_one. destruct (flush_all_dirty s) as [s1|] eqn:E1; cbn [expect mbind exec_bind]; [|now apply flush_all_panics in E1].
  apply flush_all_shape in E1 as [r ->]. pose proof (with_raw_ok s slots r Hs) as Hs1.
  change (log_slots s) with (log_slots (with_raw s r)) in Hlog |- *. enough (shrink_result (with_raw s r) slots (log_slots (with_raw s r) - 1)
    (if (log_slots (with_raw s r) <=? SEGMENT_LOG)%nat then _ else _)) by eassumption.
  set (s1 := with_raw s r) in *. clearbody s1. clear s Hs r.
  destruct (Nat.leb_spec (log_slots s1) SEGMENT_LOG) as [Hsmall|Hbig].
  - unfold is_evicted. destruct (bool_decide_reflect (0 ∈ evicted s1)) as [He|He]; [exact He|].
    pose proof (single_upper s1 slots Hs1 ltac:(lia) He) as U. cbn zeta in U.
    pose proof (shrink_single s1 slots Hs1 ltac:(lia) He) as H. unfold halved in H.
    destruct (try_get_segment_columns s1 0) as [cols|] eqn:Ecols.
    + destruct (forallb _ _) eqn:Ef; cbn zeta; cbn [mbind exec_bind mret exec_ret fst snd].
      * apply H; [now apply U|auto].
      * cbn [shrink_result]. intros Hup. apply U in Hup. discriminate Hup.
    + cbn [mbind exec_bind mret exec_ret fst snd]. apply H; [now apply U|auto].
  - pose proof (ok_eff _ _ Hs1) as Eeff. assert (Hcount : (num_segments s1 / 2)%nat = (2 ^ (log_slots s1 - 1 - SEGMENT_LOG))%nat).
    { rewrite (ok_num _ _ Hs1). replace (log_slots s1 - effective_log_seg s1)%nat with (S (log_slots s1 - 1 - SEGMENT_LOG)) by lia.
      rewrite Nat.pow_succ_r', Nat.mul_comm. apply Nat.div_mul. lia. }
    rewrite Hcount. pose proof (upper_empty s1 slots (2 ^ (log_slots s1 - 1 - SEGMENT_LOG)) (log_slots s1 - 1) Hs1) as U.
    replace (effective_log_seg s1) with SEGMENT_LOG in U by lia. specialize (U ltac:(apply pow_count; lia)).
    destruct (check_upper s1 false _) as [[]|e] eqn:E; cbn [lift mbind exec_bind mret exec_ret shrink_result].
    + assert (Hup : upper_clear slots (log_slots s1 - 1)) by (apply U; intros id Hid; now apply (proj1 (check_upper_iff _ _ _) E)).
      split; [exact Hup|]. split; [apply truncate_ok; [exact Hs1|lia|exact Hup]|]. split; [reflexivity|].
      cbn [truncate_segments evicted]. intros x Hx. now apply elem_of_filter in Hx.
    + destruct (check_upper_err _ _ _ _ E) as [[seg ->]|(seg & -> & Hin)]; [|exact Hin]. intros Hup. apply (check_upper_nonempty _ _ _ _ E eq_refl).
      intros id Hid. revert id Hid. now apply U.
Qed.

Lemma upper_clear_mono slots a b : (a <= b)%nat -> upper_clear slots a -> upper_clear slots b.
Proof. intros Hab H i Hi. apply H. assert (2 ^ Z.of_nat a <= 2 ^ Z.of_nat b) by (apply Z.pow_le_mono_r; lia). lia. Qed.

Lemma shrink_loop_cases slots target : (1 <= target)%nat -> forall fuel s, state_ok s slots ->
  (target <= log_slots s <= target + fuel)%nat -> shrink_result s slots target (shrink_loop fuel s target).
Proof.
  intros Ht. induction fuel as [|fuel IH]; intros s Hs Hlog; cbn [shrink_loop].
  - assert (E : log_slots s = target) by lia. split; [|auto]. intros i Hi. apply (ok_outside _ _ Hs). rewrite E. lia.
  - destruct (Nat.ltb_spec target (log_slots s)) as [Hlt|Hge].
    + pose proof (shrink_one_cases s slots Hs ltac:(lia)) as H. destruct (shrink_one s) as [s1|[]|]; cbn [mbind exec_bind shrink_result] in *; try assumption.
      * destruct H as (Hup & Hs1 & Hl & Hsub). specialize (IH s1 Hs1 ltac:(lia)).
        destruct (shrink_loop fuel s1 target) as [s2|[]|]; cbn [shrink_result] in *; try assumption; [|now apply Hsub|].
        -- destruct IH as (A & B & C & D'). split; [exact A|]. split; [exact B|]. split; [exact C|]. now transitivity (evicted s1).
        -- destruct IH as [seg Hin]. eauto.
      * intros Hc. apply H. revert Hc. apply upper_clear_mono. lia.
    + assert (E : log_slots s = target) by lia. split; [|auto]. intros i Hi. apply (ok_outside _ _ Hs). rewrite E. lia.
Qed.

Lemma shrink_to_cases s slots target : state_ok s slots -> (1 <= target <= log_slots s)%nat ->
  shrink_result s slots target (shrink_to_log_slots s target).
Proof.
  intros Hs Ht. unfold shrink_to_log_slots. destruct (Nat.ltb_spec target 1), (Nat.ltb_spec (log_slots s) target); try lia.
  cbn [orb]. apply shrink_loop_cases; [lia|exact Hs|lia].
Qed.

(** ** Reachable states *)

(** The states the operations produce, with the slots they stand for.  Writes go
    to segments in memory; restored columns are those that were evicted. *)
Inductive reach : SegmentedFriState (D := D) -> (Z -> SlotValue) -> Prop :=
| reach_new log s : (log <= 32)%nat -> new_empty log = Some s -> reach s (fun _ => EMPTY)
| reach_write s slots deltas s' : reach s slots ->
    Forall (fun d => 0 <= d.1 /\ seg_id_of s d.1 ∉ evicted s) deltas ->
    apply_delta_unrooted s deltas = Ok s' -> reach s' (write_slots slots deltas)
| reach_root s slots r s' : reach s slots -> root s = Some (r, s') -> reach s' slots
| reach_exact_root s slots seg r s' : reach s slots -> 0 <= seg < Z.of_nat (num_segments s) ->
    exact_segment_root s seg = Return (r, s') -> reach s' slots
| reach_clear s slots m e : reach s slots -> reach (with_dirty s m e) slots
| reach_evict s slots seg : reach s slots -> 0 <= seg < Z.of_nat (num_segments s) -> reach (evict_segment s seg) slots
| reach_evict_clean s slots : reach s slots -> reach (evict_clean_segments s) slots
| reach_evict_all s slots s' : reach s slots -> evict_all_persisted_segments s = Some s' -> reach s' slots
| reach_evict_cold s slots s' : reach s slots -> evict_cold_persisted_segments s = Some s' -> reach s' slots
| reach_durable s slots s' : reach s slots -> durable_metadata_clone s = Some s' -> reach s' slots
| reach_restore s slots seg cols : reach s slots -> 0 <= seg < Z.of_nat (num_segments s) ->
    columns_len cols (2 ^ effective_log_seg s) = true ->
    (forall l, (l < 2 ^ effective_log_seg s)%nat -> column_slot cols l = slots (seg * 2 ^ Z.of_nat (effective_log_seg s) + Z.of_nat l)) ->
    reach (state_restore_evicted_segment s seg cols) slots
| reach_expand s slots s' : reach s slots -> (log_slots s < 32)%nat ->
    ((log_slots s < SEGMENT_LOG)%nat -> evicted s = ∅) -> expand s = Some s' -> reach s' slots
| reach_expand_replay s slots s' : reach s slots -> expand_exact_metadata_for_replay s = Ok s' -> reach s' slots
| reach_shrink s slots target s' : reach s slots -> shrink_to_log_slots s target = Return s' -> reach s' slots
| reach_shrink_metadata s slots target s' : reach s slots -> shrink_exact_metadata_to_log_slots s target = Ok s' -> reach s' slots.

Context (Hcap : forall cols, 0 <= column_capacity (D := D) cols).

Lemma apply_delta_range s deltas s' : apply_delta_unrooted s deltas = Ok s' -> Forall (fun d => d.1 < num_slots s) deltas.
Proof.
  unfold apply_delta_unrooted. destruct (existsb _ _) eqn:E; [discriminate|]. intros _. apply Forall_forall. intros d Hd.
  destruct (Z_lt_ge_dec d.1 (num_slots s)) as [|Hge]; [assumption|]. exfalso. apply not_true_iff_false in E. apply E, existsb_exists.
  exists d. split; [now apply list_elem_of_In|]. apply Z.leb_le. lia.
Qed.

Lemma root_keeps s slots r s' : state_ok s slots -> root s = Some (r, s') -> state_ok s' slots.
Proof.
  intros Hs. unfold root. destruct (flush_all_dirty s) as [s1|] eqn:E; [|discriminate]. cbn [mbind option_bind]. intros [= _ <-].
  apply flush_all_shape in E as [r' ->]. now apply with_raw_ok.
Qed.

Lemma exact_root_keeps s slots seg r s' : state_ok s slots -> 0 <= seg < Z.of_nat (num_segments s) ->
  exact_segment_root s seg = Return (r, s') -> state_ok s' slots.
Proof.
  intros Hs Hb E. destruct (decide (seg ∈ evicted s)) as [He|He].
  - unfold exact_segment_root, is_evicted in E. rewrite bool_decide_eq_true_2 in E by exact He. discriminate E.
  - destruct (exact_segment_root_ok s slots seg Hs Hcap Hb He) as (s1 & E1 & Hs1 & _). rewrite E1 in E. injection E as _ <-. exact Hs1.
Qed.

Lemma reach_ok s slots : reach s slots -> state_ok s slots.
Proof.
  induction 1 as [log s Hl E|s slots deltas s' _ Hs Hd E|s slots r s' _ Hs E|s slots seg r s' _ Hs Hb E|s slots m e _ Hs|s slots seg _ Hs Hb
    |s slots _ Hs|s slots s' _ Hs E|s slots s' _ Hs E|s slots s' _ Hs E|s slots seg cols _ Hs Hb Hl Hc|s slots s' _ Hs Hl He E
    |s slots s' _ Hs E|s slots target s' _ Hs E|s slots target s' _ Hs E].
  - assert (H1 : (1 <= log)%nat) by (unfold new_empty in E; destruct (Nat.leb_spec 1 log); [assumption|discriminate E]).
    destruct (new_empty_ok (D := D) log ltac:(lia)) as (s0 & E0 & Hs & _). congruence.
  - pose proof (apply_delta_range s deltas s' E) as Hr. destruct (apply_delta_ok s slots deltas Hs) as (s1 & E1 & Hs1 & _); [|congruence].
    rewrite Forall_forall in *. intros d Hin. destruct (Hd d Hin). specialize (Hr d Hin). cbv beta in *. auto.
  - exact (root_keeps s slots r s' Hs E).
  - exact (exact_root_keeps s slots seg r s' Hs Hb E).
  - now apply with_dirty_ok.
  - now apply evict_segment_ok.
  - now apply evict_clean_ok.
  - exact (evict_all_ok s slots s' Hs E).
  - exact (evict_cold_ok s slots s' Hs E).
  - exact (durable_clone_ok s slots s' Hs E).
  - now apply restore_segment_ok.
  - destruct (expand_ok s slots Hs Hl) as (s1 & E1 & Hs1 & _); [|congruence]. intros Hsm seg _. rewrite (He Hsm). apply not_elem_of_empty.
  - pose proof E as E'. unfold expand_exact_metadata_for_replay in E'.
    destruct (Nat.eqb_spec (effective_log_seg s) SEGMENT_LOG) as [Ee|]; [|discriminate E'].
    destruct (Nat.leb_spec 32 (log_slots s)); [discriminate E'|]. rewrite (ok_eff _ _ Hs) in Ee.
    destruct (expand_replay_ok s slots Hs ltac:(lia)) as (s1 & E1 & Hs1 & _). congruence.
  - destruct (decide (1 <= target <= log_slots s)%nat) as [Ht|Ht].
    + pose proof (shrink_to_cases s slots target Hs Ht) as H. rewrite E in H. apply H.
    + exfalso. unfold shrink_to_log_slots in E. destruct (Nat.ltb_spec target 1); [discriminate E|].
      destruct (Nat.ltb_spec (log_slots s) target); [discriminate E|lia].
  - destruct (decide (target = log_slots s)) as [->|Hne].
    + unfold shrink_exact_metadata_to_log_slots in E. rewrite Nat.eqb_refl in E. injection E as <-. exact Hs.
    + now destruct (shrink_metadata_iff s slots target s' Hs Hne E) as (_ & _ & H & _).
Qed.

End Resize.

(** ** Properties *)

(** C12. The segmented state implements the slot vector.  In every state reached
    from an empty one by slot writes, root computations, evictions, restorations,
    expansions and shrinks, for any raw commitment: a slot whose segment is in
    memory reads as the value last written, the live count of a segment is the
    number of its occupied slots, slots beyond the domain are empty, and the exact
    root of a segment in memory, cached or not, is its Merkle root. *)
Theorem segmented_refines {R : RawCommit StateHash} (s : SegmentedFriState (D := StateHash)) (slots : Z -> SlotValue) :
  (forall cols, 0 <= column_capacity cols) -> reach s slots ->
  (forall idx, 0 <= idx < num_slots s -> seg_id_of s idx ∉ evicted s -> slot s idx = slots idx)
  /\ (forall idx, num_slots s <= idx -> slots idx = EMPTY)
  /\ forall seg, 0 <= seg < Z.of_nat (num_segments s) ->
       segment_live_count s seg = live_in slots (effective_log_seg s) seg
       /\ (seg ∉ evicted s -> exists s', exact_segment_root s seg
             = Return (tree state_node_hash (fun i => slot_leaf_hash (slots i)) (effective_log_seg s) seg, s')).
Proof.
  intros Hcap Hre. pose proof (reach_ok Hcap s slots Hre) as Hs. split; [|split].
  - intros idx Hi He. exact (slot_read s slots Hs idx Hi He).
  - intros idx Hi. apply (ok_outside _ _ Hs). unfold num_slots in Hi. lia.
  - intros seg Hb. split; [now apply live_count_ok|]. intros He.
    destruct (exact_segment_root_ok s slots seg Hs Hcap Hb He) as (s' & E & _). exists s'. exact E.
Qed.

(** A raw commitment for the examples. *)
Definition null_commit : RawCommit StateHash := {| raw_node := fun a _ => a; compute_seg_root := fun _ _ => []; column_capacity := fun _ => 0 |}.

Lemma segmented_refines_witness :
  exists s : SegmentedFriState (D := StateHash), new_empty (RawCommit0 := null_commit) 2 = Some s
  /\ (forall idx, 0 <= idx < num_slots s -> seg_id_of s idx ∉ evicted s -> slot s idx = EMPTY)
  /\ (forall idx, num_slots s <= idx -> EMPTY = EMPTY)
  /\ forall seg, 0 <= seg < Z.of_nat (num_segments s) ->
       segment_live_count s seg = live_in (fun _ => EMPTY) (effective_log_seg s) seg
       /\ (seg ∉ evicted s -> exists s', exact_segment_root (RawCommit0 := null_commit) s seg
             = Return (tree state_node_hash (fun _ => slot_leaf_hash EMPTY) (effective_log_seg s) seg, s')).
Proof.
  destruct (new_empty_ok (RawCommit0 := null_commit) (D := StateHash) 2 ltac:(lia)) as (s & E & _). exists s. split; [exact E|].
  apply (segmented_refines (R := null_commit) s (fun _ => EMPTY)); [intros cols; cbn; lia|]. apply (reach_new 2 s); [lia|exact E].
Defined.

(** C33. Shrinking fails closed.  For any state that holds [slots] and any target
    size, the shrink loop terminates; it succeeds only when no slot at or above the
    new size is occupied and then keeps every slot; it reports a non-empty upper
    half only when there is one, an evicted segment only when that segment is
    evicted; and it can panic only when a segment is evicted. *)
Theorem shrink_fails_closed {R : RawCommit StateHash} (s : SegmentedFriState (D := StateHash)) (slots : Z -> SlotValue) (target : nat) :
  state_ok s slots -> (1 <= target <= log_slots s)%nat ->
  match shrink_to_log_slots s target with
  | Return s' => upper_clear slots target /\ state_ok s' slots /\ log_slots s' = target /\ evicted s' ⊆ evicted s
  | Fail (NonEmptyUpperHalf _) => ~ upper_clear slots target
  | Fail (EvictedUpperSegment seg) => seg ∈ evicted s
  | Fail (InvalidTarget _ _) => False
  | Panic => exists seg, seg ∈ evicted s
  end.
Proof. exact (shrink_to_cases s slots target). Qed.

Lemma shrink_fails_closed_witness :
  exists s : SegmentedFriState (D := StateHash), new_empty (RawCommit0 := null_commit) 2 = Some s
  /\ match shrink_to_log_slots (RawCommit0 := null_commit) s 1 with
     | Return s' => upper_clear (fun _ => EMPTY) 1 /\ state_ok s' (fun _ => EMPTY) /\ log_slots s' = 1%nat /\ evicted s' ⊆ evicted s
     | Fail (NonEmptyUpperHalf _) => ~ upper_clear (fun _ => EMPTY) 1
     | Fail (EvictedUpperSegment seg) => seg ∈ evicted s
     | Fail (InvalidTarget _ _) => False
     | Panic => exists seg, seg ∈ evicted s
     end.
Proof.
  destruct (new_empty_ok (RawCommit0 := null_commit) (D := StateHash) 2 ltac:(lia)) as (s & E & Hs & L & _). exists s. split; [exact E|].
  apply (shrink_fails_closed (R := null_commit) s (fun _ => EMPTY) 1 Hs). rewrite L. lia.
Defined.
