(* ===== verification/ChainState.v ===== *)
(** * Chain state ([noid_chain/src/state.rs])

    The segmented slots with their compact exact-root cache and the counters of
    the chain: the exact root and its incremental refresh, the sibling frontier,
    expansion, restoration of evicted segments, construction from sparse slots,
    transactions and verified block transitions. *)

From Stdlib Require Import ZArith Lia Bool Sorted.
From stdpp Require Import base numbers list option gmap sorting.
From S2P Require Import Prelude Params Tx Sponge Merkle SparseMerkle StateTree HeapTree HotSegments StreamRoot Segmented.
Open Scope Z_scope.

Inductive ExactFrontierError :=
| FrontierSparseMerkle (e : SparseMerkleError)
| FrontierStateRead (e : ExactStateReadError)
| CompactRootMismatch.

Inductive SparseUtxoBuildError :=
| BuildSlotOutOfRange
| DuplicateSlot (slot_index : Z)
| EmptySlot (slot_index : Z)
| CreationIdExceedsAllocCounter (slot_index creation_id alloc_counter : Z)
| BuildState (e : StateError).

Inductive ApplyError :=
| TxSlotOutOfRange
| UnknownOrSpentInput
| OutputSlotNotEmpty
| DuplicateOutputSlot
| InputOutputSlotOverlap
| ActiveSlotCountUnderflow
| ActiveSlotCountOverflow
| AllocCounterOverflow
| CoinbaseMintHeightMissing
| ExactStateUnavailable
| TxSupplyInvariant.

Definition with_owner_fields (amount creation_id : Z) (owner : Z * Z) : SlotValue :=
  from_parts amount creation_id owner.1 owner.2.

Section Chain.
Context {D : Type} `{!ExactHash D} `{!RawCommit D}.

Record ChainState := mkChain {
  cs_state : SegmentedFriState (D := D);
  cs_utxo_root : D;
  cs_active_slot_count : Z;
  cs_alloc_counter : Z;
  cs_circulating_supply : Z;
  cs_exact_roots : ExactSegmentRootCache (D := D)
}.

Definition with_state (c : ChainState) (s : SegmentedFriState) : ChainState :=
  mkChain s (cs_utxo_root c) (cs_active_slot_count c) (cs_alloc_counter c) (cs_circulating_supply c) (cs_exact_roots c).

Definition with_roots (c : ChainState) (s : SegmentedFriState) (r : ExactSegmentRootCache) (root : D) : ChainState :=
  mkChain s root (cs_active_slot_count c) (cs_alloc_counter c) (cs_circulating_supply c) r.

Definition with_counters (c : ChainState) (active alloc supply : Z) : ChainState :=
  mkChain (cs_state c) (cs_utxo_root c) active alloc supply (cs_exact_roots c).

(** ** Construction and the exact root *)

Definition with_log_slots (log : nat) : option ChainState :=
  s ← new_empty log;
  Some (mkChain s (zero_root log) 0 0 0 (roots_empty log)).

Definition chain_durable_clone (c : ChainState) : option ChainState :=
  s ← durable_metadata_clone (cs_state c);
  Some (with_state c s).

(** [while self.exact_roots.log_slots < log]; each round adds one level. *)
Fixpoint roots_expand_to (fuel : nat) (r : ExactSegmentRootCache (D := D)) (log : nat) : ExactSegmentRootCache :=
  match fuel with
  | O => r
  | S fuel => if (rc_log_slots r <? log)%nat then roots_expand_to fuel (roots_expand_one r) log else r
  end.

(** The dirty segments, those with a current tree first; otherwise in some order
    of the set. *)
Definition dirty_order (s : SegmentedFriState) : list Z :=
  let cached id := match cached_exact_segment_tree (D := D) s id with Some _ => true | None => false end in
  let ids := elements (exact_dirty s) in
  filter (fun id => cached id = true) ids ++ filter (fun id => cached id = false) ids.

(** A failure keeps what the earlier rounds changed; a panic is [None]. *)
Fixpoint refresh_roots (c : ChainState) (ids : list Z) : option (result ExactStateReadError unit * ChainState) :=
  match ids with
  | [] => Some (Ok tt, c)
  | id :: ids =>
      if is_evicted (cs_state c) id then Some (Err (EvictedSegment id), c)
      else match exact_segment_root (cs_state c) id with
        | Return (root, s) =>
            refresh_roots (with_roots c s (set_segment_root (cs_exact_roots c) id root) (cs_utxo_root c)) ids
        | Fail e => Some (Err e, c)
        | Panic => None
        end
  end.

Definition try_state_root (c : ChainState) : option (result ExactStateReadError D * ChainState) :=
  let log := log_slots (cs_state c) in
  let r := roots_expand_to log (cs_exact_roots c) log in
  let r := if (log <? rc_log_slots r)%nat then roots_shrink_to (rc_log_slots r) r log else r in
  let c := with_roots c (cs_state c) r (cs_utxo_root c) in
  match refresh_roots c (dirty_order (cs_state c)) with
  | None => None
  | Some (Err e, c) => Some (Err e, c)
  | Some (Ok _, c) =>
      let root := roots_root (cs_exact_roots c) in
      Some (Ok root, with_roots c (clear_exact_dirty (cs_state c)) (cs_exact_roots c) root)
  end.

Definition loaded_circulating_supply (s : SegmentedFriState) : exec ExactStateReadError Z :=
  foldl (fun (acc : exec ExactStateReadError Z) segment_id =>
    supply ← acc;
    if is_evicted (D := D) s segment_id then Fail (EvictedSegment segment_id)
    else match try_get_segment_columns s segment_id with
      | None => Fail (EvictedSegment segment_id)
      | Some columns =>
          expect (fold_option (fun supply index =>
            let v := column_slot columns index in
            if is_empty v then Some supply else checked_add 128 supply (amount v))
            supply (seq 0 (length (col_values columns))))
      end) (mret 0) (active_segment_ids s).

Definition from_loaded_parts (s : SegmentedFriState) (active alloc : Z) : exec ExactStateReadError ChainState :=
  supply ← loaded_circulating_supply s;
  let c := mkChain s (zero_root (log_slots s)) active alloc supply (roots_empty (log_slots s)) in
  match try_state_root c with
  | None => Panic
  | Some (Err e, _) => Fail e
  | Some (Ok _, c) => mret c
  end.

Definition from_evicted_parts (s : SegmentedFriState) (active alloc supply : Z) (expected_root : D)
    (exact_segment_roots : list (Z * D)) : result ExactStateReadError ChainState :=
  r ← fold_result (fun r (p : Z * D) =>
        if Z.of_nat (length (rc_segment_roots r)) <=? p.1 then Err (SegmentRootMismatch p.1)
        else Ok (set_segment_root r p.1 p.2)) (roots_empty (log_slots s)) exact_segment_roots;
  _ ← ensure (bool_decide (roots_root r = expected_root)) (SegmentRootMismatch 0);
  Ok (mkChain s expected_root active alloc supply r).

(** One round of the preflight of [from_sparse_utxos]. *)
Definition check_sparse (max_slots alloc : Z) (seen : gset Z) (u : Z * SlotValue) : result SparseUtxoBuildError (gset Z) :=
  _ ← ensure (negb (max_slots <=? u.1)) BuildSlotOutOfRange;
  _ ← ensure (negb (bool_decide (u.1 ∈ seen))) (DuplicateSlot u.1);
  _ ← ensure (negb (is_empty u.2)) (EmptySlot u.1);
  _ ← ensure (is_coinbase_creation_id (creation_id u.2) || negb (alloc <? creation_id u.2))
        (CreationIdExceedsAllocCounter u.1 (creation_id u.2) alloc);
  Ok ({[u.1]} ∪ seen).

Definition from_sparse_utxos (log : nat) (slots : list (Z * SlotValue)) (alloc : Z) : exec SparseUtxoBuildError ChainState :=
  max_slots ← lift (ok_or (checked_shl1 64 (Z.of_nat log)) BuildSlotOutOfRange);
  _ ← lift (fold_result (check_sparse max_slots alloc) ∅ slots);
  c ← expect (with_log_slots log);
  s ← lift (map_err BuildState (apply_delta_unrooted (cs_state c) slots));
  let c := with_counters (with_state c s) (Z.of_nat (length slots)) alloc (Zsum ((fun u => amount u.2) <$> slots)) in
  match try_state_root c with
  | Some (Ok _, c) => mret c
  | _ => Panic
  end.

(** ** Supply *)

Definition canonical_updates (updates : list (Z * SlotValue)) : gmap Z SlotValue :=
  foldl (fun m u => <[u.1 := u.2]> m) ∅ updates.

Definition supply_after_slot_updates (c : ChainState) (updates : list (Z * SlotValue)) : option Z :=
  let s := cs_state c in
  fold_option (fun supply (u : Z * SlotValue) =>
    previous ← (if u.1 <? num_slots s
      then (if is_evicted s (seg_id_of s u.1) then None else Some (slot s u.1))
      else Some EMPTY);
    supply ← checked_sub supply (amount previous);
    checked_add 128 supply (amount u.2))
    (cs_circulating_supply c) (btree_entries (canonical_updates updates)).

(** ** Expansion *)

Definition expand_one (c : ChainState) : option ChainState :=
  let old := log_slots (cs_state c) in
  let current := bool_decide (exact_dirty (cs_state c) = ∅) && (rc_log_slots (cs_exact_roots c) =? old)%nat
                 && bool_decide (roots_root (cs_exact_roots c) = cs_utxo_root c) in
  s ← expand (cs_state c);
  let s := if current then clear_exact_dirty s else s in
  Some (with_roots c s (roots_expand_one (cs_exact_roots c)) (hnode (cs_utxo_root c) (zero_root old))).

Definition chain_expand_metadata (c : ChainState) : result StateResizeError ChainState :=
  let old := log_slots (cs_state c) in
  s ← expand_exact_metadata_for_replay (cs_state c);
  Ok (with_roots c s (roots_expand_one (cs_exact_roots c)) (hnode (cs_utxo_root c) (zero_root old))).

(** ** Restoration *)

Definition restore_evicted_segment (c : ChainState) (segment_id : Z) (columns : SegmentColumns)
  : exec ExactStateReadError ChainState :=
  let s := cs_state c in
  let expected_len := (2 ^ effective_log_seg s)%nat in
  if negb (columns_len columns expected_len) then Fail (SegmentRootMismatch segment_id)
  else
    let actual_live := length (filter (fun local => is_empty (column_slot columns local) = false) (seq 0 expected_len)) in
    if negb (segment_live_count s segment_id =? Z.of_nat actual_live) then Fail (SegmentRootMismatch segment_id)
    else
      tree ← expect (from_columns (effective_log_seg s) columns (column_capacity columns));
      if bool_decide (rc_segment_roots (cs_exact_roots c) !! Z.to_nat segment_id = Some (hot_root tree)) then
        s ← expect (remember_exact_segment_tree (state_restore_evicted_segment s segment_id columns) segment_id tree);
        mret (with_state c s)
      else Fail (SegmentRootMismatch segment_id).

(** ** The sibling frontier *)

Definition frontier_sibling (c : ChainState) (p : FrontierSiblingPosition) : exec ExactFrontierError D :=
  let s := cs_state c in
  let '(level, node_index) := p in
  let eff := effective_log_seg s in
  if (eff <=? level)%nat then
    match segment_node_hash (cs_exact_roots c) (level - eff) node_index with
    | Some root => mret root
    | None => Fail CompactRootMismatch
    end
  else
    let shift := Z.of_nat (eff - level) in
    let segment_id := Z.shiftr node_index shift mod 2 ^ 16 in
    if is_evicted s segment_id then Fail (FrontierStateRead (EvictedSegment segment_id))
    else
      let local_node := Z.land node_index (2 ^ shift - 1) in
      match (t ← cached_exact_segment_tree s segment_id; subtree_root t level local_node) with
      | Some root => mret root
      | None =>
          let local_start := Z.to_nat (Z.shiftl local_node (Z.of_nat level)) in
          expect (exact_local_subtree_root (try_get_segment_columns s segment_id) local_start level)
      end.

Definition exact_frontier_siblings (c : ChainState) (touched : list Z) (depth : nat) : exec ExactFrontierError (list D) :=
  let s := cs_state c in
  if negb ((depth =? log_slots s)%nat && (rc_log_slots (cs_exact_roots c) =? log_slots s)%nat)
  then Fail (FrontierSparseMerkle (CacheDepthMismatch (rc_log_slots (cs_exact_roots c)) depth))
  else if negb (bool_decide (exact_dirty s = ∅) && bool_decide (roots_root (cs_exact_roots c) = cs_utxo_root c))
  then Fail CompactRootMismatch
  else
    positions ← fail_as FrontierSparseMerkle (frontier_sibling_positions touched depth);
    collect (frontier_sibling c) positions.

(** ** Verified block transitions *)

(** [updates_by_segment]: the last value of each slot, by segment. *)
Definition group_update (target_slots : Z) (eff : nat) (m : gmap Z (gmap Z SlotValue)) (u : Z * SlotValue)
  : result ApplyExactTransitionError (gmap Z (gmap Z SlotValue)) :=
  _ ← ensure (negb (target_slots <=? u.1)) TransitionSlotOutOfRange;
  let seg := Z.shiftr u.1 (Z.of_nat eff) mod 2 ^ 16 in
  let loc := Z.land u.1 (2 ^ Z.of_nat eff - 1) in
  Ok (<[seg := <[loc := u.2]> (default ∅ (m !! seg))]> m).

Definition refresh_copy (c : ChainState) : exec ApplyExactTransitionError ExactSegmentRootCache :=
  let s := cs_state c in
  foldl (fun (acc : exec ApplyExactTransitionError ExactSegmentRootCache) segment_id =>
    r ← acc;
    if is_evicted s segment_id then Fail (TransitionStateRead (EvictedSegment segment_id))
    else
      root ← (match cached_exact_segment_tree s segment_id with
        | Some t => mret (hot_root t)
        | None => expect (exact_segment_root_with_updates (effective_log_seg s) (try_get_segment_columns s segment_id) ∅)
        end : exec ApplyExactTransitionError D);
      mret (set_segment_root r segment_id root)) (mret (cs_exact_roots c)) (elements (exact_dirty s)).

Definition overlay_segment (c : ChainState) (eff : nat) (r : ExactSegmentRootCache) (u : Z * gmap Z SlotValue)
  : exec ApplyExactTransitionError ExactSegmentRootCache :=
  let s := cs_state c in
  columns ← (if (num_segments s <=? Z.to_nat u.1)%nat then mret None
             else if is_evicted s u.1 then Fail (TransitionStateRead (EvictedSegment u.1))
             else mret (try_get_segment_columns s u.1) : exec ApplyExactTransitionError _);
  root ← expect (match (t ← cached_exact_segment_tree s u.1; if (hot_log_slots t =? eff)%nat then Some t else None) with
    | Some t => root_with_updates t u.2
    | None => exact_segment_root_with_updates eff columns u.2
    end);
  mret (set_segment_root r u.1 root).

Definition exact_utxo_root_after_slot_updates (c : ChainState) (log : nat) (updates : list (Z * SlotValue))
  : exec ApplyExactTransitionError D :=
  let current := log_slots (cs_state c) in
  if (log <? current)%nat || (current + 1 <? log)%nat then Fail HeaderLogSlotsMismatch
  else
    target_slots ← lift (ok_or (checked_shl1 64 (Z.of_nat log)) HeaderLogSlotsMismatch);
    let eff := Nat.min log SEGMENT_LOG in
    by_segment ← lift (fold_result (group_update target_slots eff) ∅ updates);
    r ← refresh_copy c;
    if negb (bool_decide (roots_root r = cs_utxo_root c)) then Fail CachedRootMismatch
    else
      let r := if (current <? log)%nat then roots_expand_one r else r in
      r ← foldl (fun (acc : exec ApplyExactTransitionError ExactSegmentRootCache) u => r ← acc; overlay_segment c eff r u)
            (mret r) (btree_entries by_segment);
      mret (roots_root r).

(** A failure returns the state it leaves; a panic is [None]. *)
Definition apply_verified_exact_transition (c : ChainState) (log : nat) (child_state_root : D)
    (updates : list (Z * SlotValue)) (active alloc : Z) : option (result ApplyExactTransitionError D * ChainState) :=
  let current := log_slots (cs_state c) in
  if (log <? current)%nat || (current + 1 <? log)%nat then Some (Err HeaderLogSlotsMismatch, c)
  else match checked_shl1 64 (Z.of_nat log) with
  | None => Some (Err HeaderLogSlotsMismatch, c)
  | Some target_slots =>
  if existsb (fun u => target_slots <=? u.1) updates then Some (Err TransitionSlotOutOfRange, c)
  else match exact_utxo_root_after_slot_updates c log updates with
  | Panic => None
  | Fail e => Some (Err e, c)
  | Return computed_child =>
  if negb (bool_decide (computed_child = child_state_root)) then Some (Err CachedRootMismatch, c)
  else match supply_after_slot_updates c updates with
  | None => Some (Err TransitionSupplyInvariant, c)
  | Some supply =>
  match (if (log =? current + 1)%nat
         then (if (SEGMENT_LOG <=? current)%nat
               then Some (map_err (fun _ => HeaderLogSlotsMismatch) (chain_expand_metadata c))
               else c' ← expand_one c; Some (Ok c'))
         else Some (Ok c)) with
  | None => None
  | Some (Err e) => Some (Err e, c)
  | Some (Ok c) =>
  match apply_delta_unrooted (cs_state c) updates with
  | Err _ => Some (Err TransitionSlotOutOfRange, c)
  | Ok s =>
  match try_state_root (with_state c s) with
  | None => None
  | Some (Err e, c) => Some (Err (TransitionStateRead e), c)
  | Some (Ok root, c) => Some (Ok root, with_counters c active alloc supply)
  end end end end end end.

(** ** Transactions *)

Definition claim_input (seen : gset Z) (p : nat * TxInput) : result ApplyError (gset Z) :=
  _ ← ensure (negb (bool_decide (in_slot_index p.2 ∈ seen))) UnknownOrSpentInput;
  Ok ({[in_slot_index p.2]} ∪ seen).

Definition claim_output (input_slots seen : gset Z) (p : nat * TxOutput) : result ApplyError (gset Z) :=
  _ ← ensure (negb (bool_decide (out_slot_index p.2 ∈ seen))) DuplicateOutputSlot;
  _ ← ensure (negb (bool_decide (out_slot_index p.2 ∈ input_slots))) InputOutputSlotOverlap;
  Ok ({[out_slot_index p.2]} ∪ seen).

Definition spent_slot (body : TxBody) (i : TxInput) : SlotValue :=
  with_owner_fields (in_amount i) (in_creation_id i) (as_fields (input_owner body)).

Definition spend_input (s : SegmentedFriState) (body : TxBody) (deltas : list (Z * SlotValue)) (p : nat * TxInput)
  : result ApplyError (list (Z * SlotValue)) :=
  let i := p.2 in
  _ ← ensure (negb (num_slots (D := D) s <=? in_slot_index i)) TxSlotOutOfRange;
  _ ← ensure (negb (is_evicted s (seg_id_of s (in_slot_index i)))) ExactStateUnavailable;
  _ ← ensure (bool_decide (slot s (in_slot_index i) = spent_slot body i)) UnknownOrSpentInput;
  Ok (deltas ++ [(in_slot_index i, EMPTY)]).

Definition mint_output (s : SegmentedFriState) (body : TxBody) (mint_height : option Z)
    (acc : Z * list (Z * SlotValue)) (p : nat * TxOutput) : result ApplyError (Z * list (Z * SlotValue)) :=
  let '(alloc_cursor, deltas) := acc in
  let o := p.2 in
  _ ← ensure (negb (num_slots (D := D) s <=? out_slot_index o)) TxSlotOutOfRange;
  _ ← ensure (negb (is_evicted s (seg_id_of s (out_slot_index o)))) ExactStateUnavailable;
  _ ← ensure (bool_decide (slot s (out_slot_index o) = EMPTY)) OutputSlotNotEmpty;
  alloc_cursor ← ok_or (checked_add 64 alloc_cursor 1) AllocCounterOverflow;
  creation_id ← (if is_primary_coinbase_shape body
                 then height ← ok_or mint_height CoinbaseMintHeightMissing; Ok (coinbase_creation_id height)
                 else Ok alloc_cursor);
  Ok (alloc_cursor, deltas ++ [(out_slot_index o, with_owner_fields (out_amount o) creation_id (as_fields (out_owner o)))]).

Definition apply_tx_checked_deferred_root (c : ChainState) (body : TxBody) (mint_height : option Z)
  : exec ApplyError ChainState :=
  let s := cs_state c in
  _ ← lift (ensure (negb (is_coinbase body && bool_decide (mint_height = None))) CoinbaseMintHeightMissing);
  input_slots ← lift (fold_result claim_input ∅ (live_inputs body));
  _ ← lift (fold_result (claim_output input_slots) ∅ (live_outputs body));
  deltas ← lift (fold_result (spend_input s body) [] (live_inputs body));
  active_after_spends ← lift (ok_or (checked_sub (cs_active_slot_count c) (live_input_count body)) ActiveSlotCountUnderflow);
  active_after ← lift (ok_or (checked_add 64 active_after_spends (live_output_count body)) ActiveSlotCountOverflow);
  final_alloc ← lift (ok_or (checked_add 64 (cs_alloc_counter c) (live_output_count body)) AllocCounterOverflow);
  _ ← lift (ensure (negb (is_coinbase_creation_id final_alloc)) AllocCounterOverflow);
  minted ← lift (fold_result (mint_output s body mint_height) (cs_alloc_counter c, deltas) (live_outputs body));
  supply ← lift (ok_or (supply_after_slot_updates c minted.2) TxSupplyInvariant);
  match apply_delta_unrooted s minted.2 with
  | Err _ => Panic
  | Ok s => mret (with_counters (with_state c s) active_after final_alloc supply)
  end.

(** The snapshot is a value; the state changes only on success. *)
Definition apply_tx_inner (c : ChainState) (body : TxBody) (mint_height : option Z) : exec ApplyError (D * ChainState) :=
  snapshot ← apply_tx_checked_deferred_root c body mint_height;
  match try_state_root snapshot with
  | None => Panic
  | Some (Err _, _) => Fail ExactStateUnavailable
  | Some (Ok new_state_root, snapshot) => mret (new_state_root, snapshot)
  end.

Definition apply_tx (c : ChainState) (body : TxBody) : exec ApplyError (D * ChainState) :=
  if is_coinbase body then Fail CoinbaseMintHeightMissing else apply_tx_inner c body None.

Definition apply_tx_at (c : ChainState) (body : TxBody) (block_height : Z) : exec ApplyError (D * ChainState) :=
  apply_tx_inner c body (Some block_height).

End Chain.
