(* ===== verification/ChainInvariant.v ===== *)
(** * Chain state: invariant and correctness

    The chain state holds a slot function: its live count is at most the
    population, its supply is the sum of the amounts, its compact roots are the subtree roots of every
    segment that is not dirty, and the refreshed root is the Merkle root of the
    slots. *)

From Stdlib Require Import ZArith Lia Bool Sorted.
From stdpp Require Import base numbers list option gmap sorting.
From S2P Require Import Prelude Params Tx Sponge Merkle SparseMerkle StateTree HeapTree HotSegments StreamRoot Segmented ChainState.
Open Scope Z_scope.

(** ** Sums over the slots *)

Definition total (f : SlotValue -> Z) (slots : Z -> SlotValue) (n : Z) : Z := Zsum ((fun i => f (slots i)) <$> seqZ 0 n).

(** Live slots and circulating amount of [2 ^ log] slots. *)
Definition population (slots : Z -> SlotValue) (log : nat) : Z := total occupied slots (2 ^ Z.of_nat log).
Definition money (slots : Z -> SlotValue) (log : nat) : Z := total amount slots (2 ^ Z.of_nat log).

Lemma total_ext f a b n : (forall i, 0 <= i < n -> a i = b i) -> total f a n = total f b n.
Proof. intros H. apply Zsum_same. intros i Hi%elem_of_seqZ. rewrite H by lia. reflexivity. Qed.

Lemma total_write f slots idx v n : 0 <= idx < n ->
  total f (write_slot slots idx v) n = total f slots n - f (slots idx) + f v.
Proof.
  intros Hi. unfold total. rewrite (Zsum_update _ (fun i => f (slots i)) _ idx).
  - unfold write_slot at 1. now rewrite decide_True by reflexivity.
  - apply NoDup_seqZ.
  - apply elem_of_seqZ. lia.
  - intros i Hne. unfold write_slot. now rewrite decide_False.
Qed.

Lemma total_writes f slots l n : NoDup l.*1 -> Forall (fun d : Z * SlotValue => 0 <= d.1 < n) l ->
  total f (write_slots slots l) n = total f slots n + Zsum ((fun d => f d.2 - f (slots d.1)) <$> l).
Proof.
  revert slots. induction l as [|[i v] l IH]; intros slots Hn Hl; [cbn; lia|]. cbn [fmap list_fmap] in *.
  apply NoDup_cons in Hn as [Hi Hn]. apply Forall_cons in Hl as [Hb Hl]. cbn [fst snd] in *.
  rewrite write_slots_cons. cbn [fst snd]. rewrite (IH _ Hn Hl), (total_write f slots i v n Hb), Zsum_cons. cbn [fst snd].
  rewrite (Zsum_same (fun d => f d.2 - f (write_slot slots i v d.1)) (fun d => f d.2 - f (slots d.1))); [lia|].
  intros d Hd. unfold write_slot. rewrite decide_False; [reflexivity|]. intros <-. apply Hi. now apply list_elem_of_fmap_2.
Qed.

Lemma total_bounds f slots n b : (forall v, 0 <= f v <= b) -> 0 <= n -> 0 <= total f slots n <= n * b.
Proof.
  intros Hf Hn. unfold total. assert (E : n = Z.of_nat (length (seqZ 0 n))) by (rewrite length_seqZ; lia). rewrite E at 3. clear E.
  induction (seqZ 0 n) as [|i l IH]; cbn [fmap list_fmap length]; [cbn; lia|]. rewrite Zsum_cons. specialize (Hf (slots i)). lia.
Qed.

Lemma total_ge f slots n idx : (forall v, 0 <= f v) -> 0 <= idx < n -> f (slots idx) <= total f slots n.
Proof.
  intros Hf Hi. pose proof (total_write f slots idx (slots idx) n Hi).
  unfold total. assert (Hin : idx ∈ seqZ 0 n) by (apply elem_of_seqZ; lia).
  induction (seqZ 0 n) as [|i l IH]; [now apply not_elem_of_nil in Hin|]. cbn [fmap list_fmap]. rewrite Zsum_cons.
  assert (0 <= Zsum ((fun i => f (slots i)) <$> l)).
  { clear -Hf. induction l as [|j l IH]; cbn [fmap list_fmap]; [cbn; lia|]. rewrite Zsum_cons. specialize (Hf (slots j)). lia. }
  specialize (Hf (slots i)). apply elem_of_cons in Hin as [->|Hin]; [lia|]. specialize (IH Hin). lia.
Qed.

(** Empty slots above [2 ^ a] count for nothing. *)
Lemma total_grow f slots a b : f EMPTY = 0 -> 0 <= a <= b -> (forall i, a <= i -> slots i = EMPTY) ->
  total f slots b = total f slots a.
Proof.
  intros Hf Hab He. unfold total. replace b with (a + (b - a)) by lia. rewrite seqZ_app by lia. rewrite fmap_app, Zsum_app.
  rewrite (Zsum_none _ (seqZ (0 + a) (b - a))); [lia|]. intros i Hi%elem_of_seqZ. now rewrite He by lia.
Qed.

Lemma amount_range v : 0 <= amount v <= 2 ^ 64 - 1.
Proof. unfold amount, unpack_amount_creation_id. cbn [fst]. pose proof (Z.mod_pos_bound (value v) (2 ^ 64) ltac:(lia)). lia. Qed.

Lemma amount_EMPTY : amount EMPTY = 0.
Proof. reflexivity. Qed.

Lemma occupied_EMPTY : occupied EMPTY = 0.
Proof. reflexivity. Qed.

(** ** Updates as a map *)

Lemma canonical_lookup updates slots i :
  write_slots slots updates i = default (slots i) (canonical_updates updates !! i).
Proof.
  unfold canonical_updates. assert (G : forall (m : gmap Z SlotValue) slots, (forall j, slots j = default (slots j) (m !! j)) ->
    write_slots slots updates i = default (slots i) (foldl (fun m u => <[u.1 := u.2]> m) m updates !! i)).
  { induction updates as [|[k v] updates IH]; intros m slots0 Hm; [apply Hm|]. rewrite write_slots_cons. cbn [foldl fst snd].
    rewrite (IH (<[k := v]> m)).
    - destruct (foldl _ _ _ !! i) eqn:E; [reflexivity|]. cbn [from_option id]. unfold write_slot. case_decide as Hi; [|reflexivity]. subst k.
      exfalso. clear -E. assert (P : forall (l : list (Z * SlotValue)) (m : gmap Z SlotValue), is_Some (m !! i) ->
        is_Some (foldl (fun m u => <[u.1 := u.2]> m) m l !! i)).
      { induction l as [|[a b] l IH]; intros m' Hm'; [exact Hm'|]. cbn [foldl fst snd]. apply IH.
        destruct (decide (a = i)) as [->|Hne]; [rewrite lookup_insert_eq; eauto|now rewrite lookup_insert_ne]. }
      destruct (P updates (<[i := v]> m) ltac:(rewrite lookup_insert_eq; eauto)) as [x Ex]. congruence.
    - intros j. unfold write_slot. case_decide as Hj.
      + subst k. now rewrite lookup_insert_eq.
      + rewrite lookup_insert_ne by congruence. apply Hm. }
  apply G. intros j. now rewrite lookup_empty.
Qed.

Lemma canonical_elem updates i v : canonical_updates updates !! i = Some v -> (i, v) ∈ updates.
Proof.
  unfold canonical_updates. induction updates as [|[k w] updates IH] using rev_ind; [cbn [foldl]; now rewrite lookup_empty|].
  rewrite foldl_app. cbn [foldl fst snd]. destruct (decide (k = i)) as [->|Hne].
  - rewrite lookup_insert_eq. intros [= ->]. apply elem_of_app. right. now apply list_elem_of_singleton.
  - rewrite lookup_insert_ne by exact Hne. intros E. apply elem_of_app. left. now apply IH.
Qed.

Lemma canonical_covers updates (u : Z * SlotValue) : u ∈ updates -> is_Some (canonical_updates updates !! u.1).
Proof.
  unfold canonical_updates. induction updates as [|[k w] updates IH] using rev_ind; intros Hin; [now apply not_elem_of_nil in Hin|].
  rewrite foldl_app. cbn [foldl fst snd]. destruct (decide (k = u.1)) as [->|Hne]; [rewrite lookup_insert_eq; eauto|].
  rewrite lookup_insert_ne by exact Hne. apply elem_of_app in Hin as [Hin|Hin]; [now apply IH|].
  apply list_elem_of_singleton in Hin as ->. now destruct Hne.
Qed.

Lemma entries_nodup {V} (m : gmap Z V) : NoDup (btree_entries m).*1.
Proof. rewrite btree_keys. apply sorted_nodup, sorted_keys_sorted. Qed.

Lemma write_entries slots (m : gmap Z SlotValue) i : write_slots slots (btree_entries m) i = default (slots i) (m !! i).
Proof.
  destruct (m !! i) as [v|] eqn:E.
  - apply btree_elem, list_elem_of_lookup in E as [k Ek]. exact (write_slots_at slots _ k i v (entries_nodup m) Ek).
  - cbn [from_option id]. apply write_slots_other. intros Hin. apply list_elem_of_fmap in Hin as ([k v] & -> & Hin). apply btree_elem in Hin.
    cbn [fst] in E. congruence.
Qed.

Section Chain.
Context {D : Type} `{!ExactHash D} `{!RawCommit D}.
Implicit Types (c : ChainState (D := D)) (slots : Z -> SlotValue).

(** The Merkle root of [2 ^ log] slots. *)
Definition state_root slots (log : nat) : D := tree hnode (fun i => hleaf (slots i)) log 0.

(** ** Invariant *)

(** The segments hold [slots] and the compact roots are current outside the dirty
    segments. *)
Record rooted c slots : Prop := {
  rt_state : state_ok (cs_state c) slots;
  rt_roots : exists g, roots_ok (cs_exact_roots c) (log_slots (cs_state c)) g
    /\ forall seg, 0 <= seg < Z.of_nat (num_segments (cs_state c)) -> seg ∉ exact_dirty (cs_state c) ->
         g seg = segment_roots_of slots (log_slots (cs_state c)) seg;
  rt_dirty : forall seg, seg ∈ exact_dirty (cs_state c) -> 0 <= seg < Z.of_nat (num_segments (cs_state c))
}.

(** The supply is the value of the slots and the live count at most their number
    (a body that claims an empty slot lowers the count and frees nothing);
    ordinary creation ids come from the allocator. *)
Record chain_ok c slots : Prop := {
  co_rooted : rooted c slots;
  co_active : 0 <= cs_active_slot_count c <= population slots (log_slots (cs_state c));
  co_supply : cs_circulating_supply c = money slots (log_slots (cs_state c));
  co_alloc : 0 <= cs_alloc_counter c < 2 ^ 63;
  co_ids : forall i, slots i <> EMPTY -> is_coinbase_creation_id (creation_id (slots i)) = true
    \/ 1 <= creation_id (slots i) <= cs_alloc_counter c
}.

(** The live count is the number of occupied slots. *)
Definition counted c slots : Prop := cs_active_slot_count c = population slots (log_slots (cs_state c)).

(** No segment waits for its root, and the stored root is the root. *)
Definition sealed c slots : Prop :=
  exact_dirty (cs_state c) = ∅ /\ cs_utxo_root c = state_root slots (log_slots (cs_state c)).

Lemma roots_ext (r : ExactSegmentRootCache) log (f g : Z -> D) : (forall i, 0 <= i < Z.of_nat (length (rc_segment_roots r)) -> f i = g i) ->
  roots_ok r log f -> roots_ok r log g.
Proof.
  intros E [H1 H2 H3 H4 H5 H6]. constructor; try assumption.
  - intros i Hi. rewrite H4, E by lia. reflexivity.
  - intros Hn. eapply heap_ext; [|exact (H6 Hn)]. intros p Hp. apply E. rewrite H3, Nat2Z.inj_pow. exact Hp.
Qed.

Lemma roots_count s slots (r : ExactSegmentRootCache) g : state_ok (D := D) s slots -> roots_ok r (log_slots s) g ->
  length (rc_segment_roots r) = num_segments s.
Proof. intros Hs Hr. rewrite (ro_count _ _ _ Hr), (ok_num _ _ Hs), (ok_eff _ _ Hs). reflexivity. Qed.

(** The subtree root of a segment, from the slots. *)
Lemma segment_tree s slots seg : state_ok (D := D) s slots ->
  tree hnode (fun i => hleaf (slots i)) (effective_log_seg s) seg = segment_roots_of (D := D) slots (log_slots s) seg.
Proof. intros Hs. unfold segment_roots_of. now rewrite (ok_eff _ _ Hs). Qed.

(** What a segment in memory reads. *)
Lemma resident_slot s slots seg l : state_ok (D := D) s slots -> 0 <= seg < Z.of_nat (num_segments s) -> seg ∉ evicted s ->
  (l < 2 ^ effective_log_seg s)%nat ->
  match try_get_segment_columns s seg with Some cols => column_slot cols l | None => EMPTY end
  = slots (seg * 2 ^ Z.of_nat (effective_log_seg s) + Z.of_nat l).
Proof.
  intros Hs Hseg Hev Hl. destruct (try_get_segment_columns s seg) as [cols|] eqn:E.
  - destruct (ok_resident _ _ Hs seg cols E Hseg) as (_ & _ & H). now apply H.
  - symmetry. now apply (ok_virtual _ _ Hs).
Qed.

Context (Hcap : forall cols, 0 <= column_capacity (D := D) cols).

(** ** The refreshed root *)

(** Everything but the tree cache and the compact roots is unchanged. *)
Record same_chain c c' : Prop := {
  sc_log : log_slots (cs_state c') = log_slots (cs_state c);
  sc_num : num_segments (cs_state c') = num_segments (cs_state c);
  sc_evicted : evicted (cs_state c') = evicted (cs_state c);
  sc_mdbx : mdbx_dirty (cs_state c') = mdbx_dirty (cs_state c);
  sc_active : cs_active_slot_count c' = cs_active_slot_count c;
  sc_alloc : cs_alloc_counter c' = cs_alloc_counter c;
  sc_supply : cs_circulating_supply c' = cs_circulating_supply c
}.

Lemma same_chain_refl c : same_chain c c.
Proof. now constructor. Qed.

Lemma same_chain_trans c1 c2 c3 : same_chain c1 c2 -> same_chain c2 c3 -> same_chain c1 c3.
Proof. intros [] []. constructor; congruence. Qed.

Lemma refresh_ok slots ids : forall c g, state_ok (cs_state c) slots -> roots_ok (cs_exact_roots c) (log_slots (cs_state c)) g ->
  (forall seg, 0 <= seg < Z.of_nat (num_segments (cs_state c)) -> seg ∉ ids -> g seg = segment_roots_of slots (log_slots (cs_state c)) seg) ->
  Forall (fun seg => 0 <= seg < Z.of_nat (num_segments (cs_state c)) /\ seg ∉ evicted (cs_state c)) ids ->
  exists c', refresh_roots c ids = Some (Ok tt, c') /\ state_ok (cs_state c') slots
    /\ roots_ok (cs_exact_roots c') (log_slots (cs_state c)) (segment_roots_of slots (log_slots (cs_state c)))
    /\ same_chain c c' /\ cs_utxo_root c' = cs_utxo_root c /\ exact_dirty (cs_state c') = exact_dirty (cs_state c).
Proof.
  induction ids as [|id ids IH]; intros c g Hs Hr Hg Hids; cbn [refresh_roots].
  - exists c. split; [reflexivity|]. split; [exact Hs|]. split; [|split; [apply same_chain_refl|auto]].
    eapply roots_ext; [|exact Hr]. intros i Hi. rewrite (roots_count _ _ _ _ Hs Hr) in Hi. apply Hg; [exact Hi|]. intros Hin. now apply not_elem_of_nil in Hin.
  - apply Forall_cons in Hids as [[Hb Hev] Hids]. unfold is_evicted. rewrite bool_decide_eq_false_2 by exact Hev.
    destruct (exact_segment_root_ok (cs_state c) slots id Hs Hcap Hb Hev) as (s' & E & Hs' & L1 & L2 & L3 & L4 & L5 & L6). rewrite E.
    rewrite segment_tree by exact Hs. set (c1 := with_roots c s' _ _).
    destruct (IH c1 (update_leaf g id (segment_roots_of slots (log_slots (cs_state c)) id))) as (c' & E' & A & B & C & F & G).
    + exact Hs'.
    + cbn [c1 with_roots cs_exact_roots cs_state]. rewrite L1. apply set_segment_root_ok; [exact Hr|]. rewrite (roots_count _ _ _ _ Hs Hr). exact Hb.
    + cbn [c1 with_roots cs_state]. rewrite L1, L3. intros seg Hseg Hni. unfold update_leaf. case_decide as Hd; [now subst|].
      apply Hg; [exact Hseg|]. apply not_elem_of_cons. auto.
    + cbn [c1 with_roots cs_state]. rewrite L3, L4. exact Hids.
    + exists c'. split; [exact E'|]. split; [exact A|]. cbn [c1 with_roots cs_state cs_utxo_root] in B, F, G. rewrite L1 in B.
      split; [exact B|]. split; [|split; [exact F|congruence]].
      eapply same_chain_trans; [|exact C]. constructor; cbn; assumption || reflexivity.
Qed.

Lemma dirty_order_elem (s : SegmentedFriState (D := D)) id : id ∈ dirty_order s <-> id ∈ exact_dirty s.
Proof.
  unfold dirty_order. cbn zeta. rewrite elem_of_app, !list_elem_of_filter, elem_of_elements.
  destruct (cached_exact_segment_tree s id); cbn; intuition congruence.
Qed.

Lemma clear_exact_ok (s : SegmentedFriState (D := D)) slots : state_ok s slots -> state_ok (clear_exact_dirty s) slots.
Proof. apply with_dirty_ok. Qed.

Lemma roots_sized (r : ExactSegmentRootCache (D := D)) log g : roots_ok r log g -> roots_expand_to log r log = r
  /\ (log <? rc_log_slots r)%nat = false.
Proof.
  intros H. pose proof (ro_log _ _ _ H) as E. split; [|apply Nat.ltb_ge; lia].
  destruct log as [|log]; [reflexivity|]. cbn [roots_expand_to]. now rewrite E, Nat.ltb_irrefl.
Qed.

Lemma with_roots_id c : with_roots c (cs_state c) (cs_exact_roots c) (cs_utxo_root c) = c.
Proof. now destruct c. Qed.

(** The incremental root is the Merkle root of the slots. *)
Lemma try_state_root_ok c slots : rooted c slots ->
  (forall seg, seg ∈ exact_dirty (cs_state c) -> seg ∉ evicted (cs_state c)) ->
  exists c', try_state_root c = Some (Ok (state_root slots (log_slots (cs_state c))), c')
    /\ rooted c' slots /\ sealed c' slots /\ same_chain c c'.
Proof.
  intros [Hs (g & Hr & Hg) Hd] Hev. unfold try_state_root. cbn zeta. destruct (roots_sized _ _ _ Hr) as [E1 E2]. rewrite E1, E2, with_roots_id.
  destruct (refresh_ok slots (dirty_order (cs_state c)) c g)
    as (c' & E & A & B & C & F & G).
  - exact Hs.
  - exact Hr.
  - intros seg Hb Hni. apply Hg; [exact Hb|]. now rewrite <- dirty_order_elem.
  - apply Forall_forall. intros seg Hin. apply dirty_order_elem in Hin. split; [now apply Hd|now apply Hev].
  - rewrite E. pose proof (roots_root_ok _ _ _ B) as Hroot. rewrite roots_of_root in Hroot.
    pose proof (sc_log _ _ C) as L. rewrite Hroot. eexists. split; [reflexivity|].
    split; [|split].
    + constructor; cbn [with_roots cs_state cs_exact_roots clear_exact_dirty with_dirty log_slots exact_dirty num_segments].
      * now apply clear_exact_ok.
      * rewrite L. eauto.
      * intros seg Hin. now apply not_elem_of_empty in Hin.
    + split; [reflexivity|]. cbn [with_roots cs_utxo_root cs_state clear_exact_dirty with_dirty log_slots]. now rewrite L.
    + destruct C. constructor; assumption.
Qed.

(** A dirty segment that is evicted fails the refresh, and only that. *)
Lemma try_state_root_total c slots : rooted c slots ->
  (exists seg, seg ∈ exact_dirty (cs_state c) /\ seg ∈ evicted (cs_state c)) ->
  exists seg c', try_state_root c = Some (Err (EvictedSegment seg), c') /\ seg ∈ evicted (cs_state c).
Proof.
  intros [Hs (g & Hr & Hg) Hd] (bad & Hbd & Hbe). unfold try_state_root. cbn zeta. destruct (roots_sized _ _ _ Hr) as [E1 E2]. rewrite E1, E2, with_roots_id.
  assert (G : forall ids c0, state_ok (cs_state c0) slots -> bad ∈ ids -> bad ∈ evicted (cs_state c0) ->
    Forall (fun seg => 0 <= seg < Z.of_nat (num_segments (cs_state c0))) ids ->
    exists seg c', refresh_roots c0 ids = Some (Err (EvictedSegment seg), c') /\ seg ∈ evicted (cs_state c0)).
  { induction ids as [|id ids IH]; intros c0 Hs0 Hin He Hb; [now apply not_elem_of_nil in Hin|]. cbn [refresh_roots]. unfold is_evicted.
    destruct (bool_decide_reflect (id ∈ evicted (cs_state c0))) as [Hid|Hid]; [eauto|].
    apply Forall_cons in Hb as [Hb0 Hb].
    destruct (exact_segment_root_ok (cs_state c0) slots id Hs0 Hcap Hb0 Hid) as (s' & E & Hs' & L1 & L2 & L3 & L4 & L5 & L6). rewrite E.
    apply elem_of_cons in Hin as [->|Hin]; [contradiction|]. rewrite <- L4. apply IH; cbn [with_roots cs_state]; [exact Hs'|exact Hin| |].
    - now rewrite L4.
    - now rewrite L3. }
  destruct (G (dirty_order (cs_state c)) c Hs) as (seg & c' & E & Hseg).
  - now apply dirty_order_elem.
  - exact Hbe.
  - apply Forall_forall. intros seg Hin. now apply Hd, dirty_order_elem.
  - rewrite E. eauto.
Qed.

(** ** Writing slots *)

(** Every written slot is in the domain and its segment is in memory. *)
Definition writable (s : SegmentedFriState (D := D)) (deltas : list (Z * SlotValue)) : Prop :=
  Forall (fun d => 0 <= d.1 < num_slots s /\ seg_id_of s d.1 ∉ evicted s) deltas.

Lemma segment_of_slot (s : SegmentedFriState (D := D)) slots seg i : state_ok s slots -> 0 <= seg < Z.of_nat (num_segments s) ->
  seg * 2 ^ Z.of_nat (effective_log_seg s) <= i < (seg + 1) * 2 ^ Z.of_nat (effective_log_seg s) ->
  0 <= i < num_slots s /\ seg_id_of s i = seg.
Proof.
  intros Hs Hseg Hi. pose proof (num_of_slots s slots Hs) as N. pose proof (pow2_gt0 (effective_log_seg s)) as P.
  assert (Hr : 0 <= i < num_slots s) by (unfold num_slots; nia). split; [exact Hr|].
  destruct (position_of s slots Hs i Hr) as (E & _). rewrite E. symmetry. apply (Z.div_unique_pos _ _ _ (i - seg * 2 ^ Z.of_nat (effective_log_seg s))); lia.
Qed.

Lemma write_rooted c slots deltas : rooted c slots -> writable (cs_state c) deltas ->
  exists s, apply_delta_unrooted (cs_state c) deltas = Ok s /\ rooted (with_state c s) (write_slots slots deltas)
    /\ wrote_all (cs_state c) s slots deltas.
Proof.
  intros [Hs (g & Hr & Hg) Hd] Hw. destruct (apply_delta_ok (cs_state c) slots deltas Hs Hw) as (s & E & Hs' & W).
  exists s. split; [exact E|]. split; [|exact W]. constructor; cbn [with_state cs_state cs_exact_roots].
  - exact Hs'.
  - exists g. rewrite (wa_log _ _ _ _ W), (wa_num _ _ _ _ W). split; [exact Hr|]. intros seg Hb Hni.
    rewrite Hg; [|exact Hb|intros Hin; now apply Hni, (wa_exact _ _ _ _ W)].
    unfold segment_roots_of. rewrite <- (ok_eff _ _ Hs). apply tree_local. intros i Hi. f_equal.
    destruct (segment_of_slot (cs_state c) slots seg i Hs Hb Hi) as [Hir Eseg].
    destruct (decide (write_slots slots deltas i = slots i)) as [|Hne]; [congruence|].
    destruct (wa_changed _ _ _ _ W i Hne) as [Hin _]. rewrite Eseg in Hin. contradiction.
  - rewrite (wa_num _ _ _ _ W). intros seg Hin. destruct (wa_exact_only _ _ _ _ W seg Hin) as [Hold|(d & Hin' & ->)]; [now apply Hd|].
    unfold writable in Hw. rewrite Forall_forall in Hw. destruct (Hw d Hin') as [Hb _]. now destruct (position_of _ slots Hs _ Hb) as (_ & _ & H & _).
Qed.

(** Segments that wait for their root stay in memory. *)
Lemma write_dirty_resident (s s' : SegmentedFriState (D := D)) slots deltas : wrote_all s s' slots deltas -> writable s deltas ->
  (forall seg, seg ∈ exact_dirty s -> seg ∉ evicted s) -> forall seg, seg ∈ exact_dirty s' -> seg ∉ evicted s'.
Proof.
  intros W Hw H seg Hin He. apply (wa_evicted _ _ _ _ W) in He. destruct (wa_exact_only _ _ _ _ W seg Hin) as [Hold|(d & Hd & ->)].
  - exact (H seg Hold He).
  - unfold writable in Hw. rewrite Forall_forall in Hw. now destruct (Hw d Hd).
Qed.

(** ** Supply *)

Lemma supply_fold n (read : Z -> option SlotValue) entries : 0 <= n <= 2 ^ 33 -> NoDup entries.*1 -> forall slots,
  Forall (fun u : Z * SlotValue => 0 <= u.1 < n /\ read u.1 = Some (slots u.1)) entries ->
  fold_option (fun supply (u : Z * SlotValue) =>
    previous ← read u.1; supply ← checked_sub supply (amount previous); checked_add 128 supply (amount u.2))
    (total amount slots n) entries
  = Some (total amount (write_slots slots entries) n).
Proof.
  intros Hn. induction entries as [|[i v] entries IH]; intros Hnd slots Hf; [reflexivity|]. cbn [fmap list_fmap] in Hnd.
  apply NoDup_cons in Hnd as [Hi Hnd]. apply Forall_cons in Hf as [[Hb Hread] Hf]. cbn [fst snd] in *. cbn [fold_option fst snd]. rewrite Hread.
  cbn [mbind option_bind]. rewrite write_slots_cons. cbn [fst snd].
  assert (S1 : checked_sub (total amount slots n) (amount (slots i)) = Some (total amount slots n - amount (slots i))).
  { apply checked_sub_some. split; [reflexivity|]. apply (total_ge amount); [intros x; apply amount_range|exact Hb]. }
  rewrite S1. cbn [mbind option_bind].
  assert (S2 : checked_add 128 (total amount slots n - amount (slots i)) (amount v) = Some (total amount (write_slot slots i v) n)).
  { apply checked_add_some. rewrite <- (total_write amount slots i v n) by exact Hb. split; [reflexivity|].
    pose proof (total_bounds amount (write_slot slots i v) n (2 ^ 64 - 1) amount_range ltac:(lia)). nia. }
  rewrite S2. cbn [mbind option_bind]. apply IH; [exact Hnd|]. rewrite Forall_forall in Hf |- *. intros u Hu. destruct (Hf u Hu) as [Hb' Hr'].
  split; [exact Hb'|]. rewrite Hr'. f_equal. unfold write_slot. rewrite decide_False; [reflexivity|]. intros E. apply Hi. rewrite <- E.
  now apply list_elem_of_fmap_2.
Qed.

Lemma slots_33 (n : nat) : (n <= 33)%nat -> 0 <= 2 ^ Z.of_nat n <= 2 ^ 33.
Proof. intros H. split; [lia|]. change 33 with (Z.of_nat 33). apply Z.pow_le_mono_r; lia. Qed.

(** The derived supply is the sum over the updated slots, also across an
    expansion: slots beyond the old domain are empty. *)
Lemma supply_after_ok c slots updates (n : nat) : state_ok (cs_state c) slots ->
  cs_circulating_supply c = money slots (log_slots (cs_state c)) -> (log_slots (cs_state c) <= n <= 33)%nat ->
  Forall (fun u => 0 <= u.1 < 2 ^ Z.of_nat n
    /\ (u.1 < num_slots (cs_state c) -> seg_id_of (cs_state c) u.1 ∉ evicted (cs_state c))) updates ->
  supply_after_slot_updates c updates = Some (money (write_slots slots updates) n).
Proof.
  intros Hs Hm Hn Hu. unfold supply_after_slot_updates. cbn zeta.
  assert (Em : cs_circulating_supply c = total amount slots (2 ^ Z.of_nat n)).
  { rewrite Hm. unfold money. symmetry. apply total_grow; [reflexivity| |].
    - split; [lia|]. apply Z.pow_le_mono_r; lia.
    - intros i Hi. apply (ok_outside _ _ Hs). lia. }
  rewrite Em. set (s := cs_state c) in *.
  pose proof (supply_fold (2 ^ Z.of_nat n) (fun i => if i <? num_slots s
      then (if is_evicted s (seg_id_of s i) then None else Some (slot s i)) else Some EMPTY)
    (btree_entries (canonical_updates updates)) (slots_33 n ltac:(lia)) (entries_nodup _) slots) as P. cbv beta in P.
  rewrite P; clear P.
  - f_equal. apply total_ext. intros i _. rewrite write_entries. symmetry. apply canonical_lookup.
  - apply Forall_forall. intros [i v] Hin. apply btree_elem, canonical_elem in Hin. rewrite Forall_forall in Hu.
    destruct (Hu _ Hin) as [Hb He]. cbn [fst] in *. split; [exact Hb|]. destruct (Z.ltb_spec i (num_slots s)).
    + unfold is_evicted. rewrite bool_decide_eq_false_2 by auto. rewrite (slot_read s slots Hs) by (auto || lia). reflexivity.
    + rewrite (ok_outside _ _ Hs); [reflexivity|]. unfold num_slots in *. lia.
Qed.

(** An unresident update makes the derived supply unavailable. *)
Lemma supply_after_evicted c slots updates : state_ok (cs_state c) slots ->
  (exists u, u ∈ updates /\ 0 <= u.1 < num_slots (cs_state c) /\ seg_id_of (cs_state c) u.1 ∈ evicted (cs_state c)) ->
  supply_after_slot_updates c updates = None.
Proof.
  intros Hs (u & Hin & Hb & He). unfold supply_after_slot_updates. cbn zeta. set (s := cs_state c) in *.
  assert (Hk : exists v, (u.1, v) ∈ btree_entries (canonical_updates updates)).
  { destruct (canonical_covers updates u Hin) as [v E]. exists v. now apply btree_elem. }
  destruct Hk as [v Hk]. revert Hk. generalize (cs_circulating_supply c). generalize (btree_entries (canonical_updates updates)).
  induction l as [|[k w] l IH]; intros supply Hk; [now apply not_elem_of_nil in Hk|]. cbn [fold_option fst snd].
  apply elem_of_cons in Hk as [[= <- <-]|Hk].
  - destruct (Z.ltb_spec u.1 (num_slots s)); [|lia]. unfold is_evicted. now rewrite bool_decide_eq_true_2 by exact He.
  - destruct (if k <? num_slots s then _ else _); [|reflexivity]. cbn [mbind option_bind]. destruct (checked_sub _ _); [|reflexivity].
    cbn [mbind option_bind]. destruct (checked_add _ _ _); [|reflexivity]. cbn [mbind option_bind]. now apply IH.
Qed.

(** ** The empty chain *)

Lemma total_empty f n : f EMPTY = 0 -> total f (fun _ => EMPTY) n = 0.
Proof. intros Hf. apply Zsum_none. auto. Qed.

Lemma with_log_slots_ok log : (1 <= log <= 32)%nat ->
  exists c, with_log_slots log = Some c /\ chain_ok c (fun _ => EMPTY) /\ sealed c (fun _ => EMPTY) /\ log_slots (cs_state c) = log
    /\ evicted (cs_state c) = ∅ /\ cs_alloc_counter c = 0 /\ counted c (fun _ => EMPTY).
Proof.
  intros Hlog. destruct (new_empty_ok (D := D) log Hlog) as (s & E & Hs & L & Hd & _ & Hev & _).
  unfold with_log_slots. rewrite E. cbn [mbind option_bind]. eexists. split; [reflexivity|]. cbn [cs_state cs_alloc_counter]. rewrite L.
  split; [|split].
  - constructor; cbn [cs_state cs_active_slot_count cs_circulating_supply cs_alloc_counter]; [|unfold population; now rewrite total_empty|symmetry; now apply total_empty|lia|congruence].
    constructor; cbn [cs_state cs_exact_roots]; [exact Hs| |rewrite Hd; intros seg Hin; now apply not_elem_of_empty in Hin].
    rewrite L. eexists. split; [apply roots_empty_ok|reflexivity].
  - split; [exact Hd|]. cbn [cs_utxo_root cs_state]. rewrite L. symmetry. now apply empty_subtree.
  - do 3 (split; [assumption || reflexivity|]). unfold counted, population. cbn. now rewrite total_empty.
Qed.

End Chain.
