(* ===== verification/ApplyTx.v ===== *)
(** * Transactions on the chain state ([apply_tx] and [apply_tx_at] of
    [noid_chain/src/state.rs])

    The precise conditions under which a body applies, the slots and counters
    after it, and the conservation of the invariant of the chain state. *)

From Stdlib Require Import ZArith Lia Bool Sorted.
From stdpp Require Import base numbers list option gmap sorting.
From S2P Require Import Prelude Params Tx Sponge Merkle SparseMerkle StateTree HeapTree HotSegments StreamRoot Segmented Resize ChainState ChainInvariant.
Open Scope Z_scope.

(** ** What a body spends and mints *)

(** The id of the [k]-th live output. *)
Definition mint_id (body : TxBody) (height : option Z) (alloc : Z) (k : nat) : Z :=
  if is_primary_coinbase_shape body then coinbase_creation_id (default 0 height) else alloc + 1 + Z.of_nat k.

Definition minted (body : TxBody) (height : option Z) (alloc : Z) (k : nat) (p : nat * TxOutput) : Z * SlotValue :=
  (out_slot_index p.2, with_owner_fields (out_amount p.2) (mint_id body height alloc k) (as_fields (out_owner p.2))).

Definition tx_updates (body : TxBody) (height : option Z) (alloc : Z) : list (Z * SlotValue) :=
  ((fun i => (i, EMPTY)) <$> in_slots body) ++ imap (minted body height alloc) (live_outputs body).

(** ** Loops *)

Lemma fold_result_all {E A B} (f : B -> A -> result E B) (step : B -> A -> B) (P : A -> Prop) (l : list A) :
  (forall acc x r, f acc x = Ok r <-> P x /\ r = step acc x) ->
  forall acc r, fold_result f acc l = Ok r <-> Forall P l /\ r = foldl step acc l.
Proof.
  intros Hf. induction l as [|x l IH]; intros acc r; cbn [fold_result foldl].
  - split; [intros [= <-]; auto|intros [_ ->]; reflexivity].
  - rewrite bind_ok_iff, Forall_cons. split.
    + intros (b & Hb & Hr). apply Hf in Hb as [Hx ->]. apply IH in Hr as [Hl ->]. auto.
    + intros [[Hx Hl] ->]. exists (step acc x). split; [now apply Hf|]. now apply IH.
Qed.

Lemma foldl_snoc {A B} (g : A -> B) l acc : foldl (fun acc x => acc ++ [g x]) acc l = acc ++ (g <$> l).
Proof.
  revert acc. induction l as [|x l IH]; intros acc; cbn [foldl fmap list_fmap]; [now rewrite app_nil_r|].
  rewrite IH, <- app_assoc. reflexivity.
Qed.

Lemma claim_inputs_iff l : forall seen r, fold_result claim_input seen l = Ok r <->
  let keys := (fun p : nat * TxInput => in_slot_index p.2) <$> l in
  NoDup keys /\ (forall i, i ∈ keys -> i ∉ seen) /\ r = list_to_set keys ∪ seen.
Proof.
  induction l as [|p l IH]; intros seen r; cbn zeta; cbn [fold_result fmap list_fmap list_to_set].
  - split; [intros [= <-]; split; [constructor|]; set_solver|]. intros (_ & _ & ->). f_equal. set_solver.
  - rewrite bind_ok_iff, NoDup_cons. setoid_rewrite elem_of_cons. split.
    + intros (b & Hb & Hr). unfold claim_input in Hb. inv_ok. subst b. apply negb_true_iff, bool_decide_eq_false in Hok.
      apply IH in Hr as (H1 & H2 & ->). split; [split; [intros Hin; apply H2 in Hin; set_solver|exact H1]|].
      split; [intros i [->|Hi]; [exact Hok|]; apply H2 in Hi; set_solver|]. set_solver.
    + intros ((H1 & H2) & H3 & ->). exists ({[in_slot_index p.2]} ∪ seen). split.
      * unfold claim_input. rewrite bool_decide_eq_false_2 by (apply H3; auto). reflexivity.
      * apply IH. cbn zeta. split; [exact H2|]. split; [|set_solver]. intros i Hi. specialize (H3 i (or_intror Hi)). set_solver.
Qed.

Lemma claim_outputs_iff ins l : forall seen, (exists r, fold_result (claim_output ins) seen l = Ok r) <->
  let keys := (fun p : nat * TxOutput => out_slot_index p.2) <$> l in
  NoDup keys /\ (forall i, i ∈ keys -> i ∉ seen /\ i ∉ ins).
Proof.
  induction l as [|p l IH]; intros seen; cbn zeta; cbn [fold_result fmap list_fmap].
  - split; [intros _; split; [constructor|]; set_solver|eauto].
  - setoid_rewrite bind_ok_iff. rewrite NoDup_cons. setoid_rewrite elem_of_cons. split.
    + intros (r & b & Hb & Hr). unfold claim_output in Hb. inv_ok. subst b. apply negb_true_iff, bool_decide_eq_false in Hok, Hok0.
      destruct (proj1 (IH _) (ex_intro _ r Hr)) as (H1 & H2). split; [split; [intros Hin; apply H2 in Hin; set_solver|exact H1]|].
      intros i [->|Hi]; [auto|]. destruct (H2 i Hi). set_solver.
    + intros ((H1 & H2) & H3). destruct (proj2 (IH ({[out_slot_index p.2]} ∪ seen))) as [r Hr].
      * split; [exact H2|]. intros i Hi. destruct (H3 i (or_intror Hi)). set_solver.
      * exists r, ({[out_slot_index p.2]} ∪ seen). split; [|exact Hr]. destruct (H3 (out_slot_index p.2) (or_introl eq_refl)).
        unfold claim_output. now rewrite !bool_decide_eq_false_2.
Qed.

(** No live input claims what an empty slot holds (amount, id and owner zero).
    The code accepts such an input: see [phantom_spend]. *)
Definition real_spends (b : TxBody) : Prop := forall p, p ∈ live_inputs b -> spent_slot b p.2 <> EMPTY.

Section ApplyTx.
Context {D : Type} `{!ExactHash D} `{!RawCommit D}.
Implicit Types (c : ChainState (D := D)) (slots : Z -> SlotValue).

(** A slot the body may spend or mint to: in the domain, in memory, and holding
    the expected value. *)
Definition holds (s : SegmentedFriState (D := D)) (i : Z) (v : SlotValue) : Prop :=
  i < num_slots s /\ seg_id_of s i ∉ evicted s /\ slot s i = v.

Lemma spends_iff s body l acc r : fold_result (spend_input (D := D) s body) acc l = Ok r <->
  Forall (fun p : nat * TxInput => holds s (in_slot_index p.2) (spent_slot body p.2)) l
  /\ r = acc ++ ((fun p : nat * TxInput => (in_slot_index p.2, EMPTY)) <$> l).
Proof.
  rewrite <- foldl_snoc. apply (fold_result_all (spend_input s body) (fun acc p => acc ++ [(in_slot_index p.2, EMPTY)])).
  intros acc' p r'. unfold spend_input, holds. split.
  - intros H. inv_ok. boolify. apply bool_decide_eq_true in Hok1. unfold is_evicted in Hok0. apply bool_decide_eq_false in Hok0. auto.
  - intros ((H1 & H2 & H3) & ->). unfold is_evicted. rewrite (bool_decide_eq_false_2 (_ ∈ _)), (bool_decide_eq_true_2 (_ = _)) by assumption.
    apply Z.leb_gt in H1. now rewrite H1.
Qed.

Lemma imap_minted_S body h a l : imap (minted body h a ∘ S) l = imap (minted body h (a + 1)) l.
Proof.
  apply imap_ext. intros k p _. unfold minted, mint_id. cbn. destruct (is_primary_coinbase_shape body); [reflexivity|].
  do 2 f_equal. lia.
Qed.

Lemma mints_iff s body h l : (is_primary_coinbase_shape body = true -> h <> None) ->
  forall a acc r, 0 <= a -> a + Z.of_nat (length l) < 2 ^ 64 ->
  fold_result (mint_output (D := D) s body h) (a, acc) l = Ok r <->
  Forall (fun p : nat * TxOutput => holds s (out_slot_index p.2) EMPTY) l
  /\ r = (a + Z.of_nat (length l), acc ++ imap (minted body h a) l).
Proof.
  intros Hh. induction l as [|p l IH]; intros a acc r Ha Hb.
  - cbn. rewrite Z.add_0_r, app_nil_r. split; [intros [= <-]; auto|intros [_ ->]; reflexivity].
  - cbn [fold_result length imap]. cbn [length] in Hb. rewrite bind_ok_iff, Forall_cons.
    assert (Step : forall b, mint_output s body h (a, acc) p = Ok b <->
      holds s (out_slot_index p.2) EMPTY /\ b = (a + 1, acc ++ [minted body h a 0 p])).
    { intros b. assert (Ec : checked_add 64 a 1 = Some (a + 1)) by (apply checked_add_some; lia).
      assert (Ei : (if is_primary_coinbase_shape body then height ← ok_or h CoinbaseMintHeightMissing; Ok (coinbase_creation_id height)
        else Ok (a + 1)) = Ok (E := ApplyError) (mint_id body h a 0)).
      { unfold mint_id. destruct (is_primary_coinbase_shape body); [|f_equal; lia]. destruct h; [reflexivity|now destruct Hh]. }
      unfold mint_output, holds, is_evicted. split.
      - intros H. inv_ok. boolify. apply bool_decide_eq_true in Hok1. apply bool_decide_eq_false in Hok0. rewrite Ec in Hok2. injection Hok2 as <-.
        rewrite Ei in Hok3. injection Hok3 as <-. auto.
      - intros ((H1 & H2 & H3) & ->). rewrite (bool_decide_eq_false_2 (_ ∈ _)), (bool_decide_eq_true_2 (_ = _)) by assumption.
        apply Z.leb_gt in H1. rewrite H1, Ec. cbn [negb ensure mbind result_bind ok_or]. rewrite Ei. reflexivity. }
    rewrite imap_minted_S. split.
    + intros (b & Hb' & Hr). apply Step in Hb' as [Hp ->]. apply IH in Hr as [Hl ->]; [|lia..]. split; [auto|].
      rewrite <- app_assoc. f_equal. lia.
    + intros [[Hp Hl] ->]. eexists. split; [now apply Step|]. apply IH; [lia..|]. split; [exact Hl|]. rewrite <- app_assoc. f_equal. lia.
Qed.


(** ** Exact acceptance *)

(** The conditions under which a body applies at [height]. *)
Record applies c slots (body : TxBody) (height : option Z) : Prop := {
  ap_height : is_coinbase body = true -> height <> None;
  ap_slots : NoDup (in_slots body ++ out_slots body);
  ap_resident : forall i, i ∈ in_slots body ++ out_slots body ->
    i < num_slots (cs_state c) /\ seg_id_of (cs_state c) i ∉ evicted (cs_state c);
  ap_spends : forall p, p ∈ live_inputs body -> slots (in_slot_index p.2) = spent_slot body p.2;
  ap_mints : forall i, i ∈ out_slots body -> slots i = EMPTY;
  ap_active : Z.of_nat (length (live_inputs body)) <= cs_active_slot_count c
    /\ cs_active_slot_count c - Z.of_nat (length (live_inputs body)) + Z.of_nat (length (live_outputs body)) < 2 ^ 64;
  ap_alloc : cs_alloc_counter c + Z.of_nat (length (live_outputs body)) < 2 ^ 63
}.

(** The state after a body. *)
Definition applied c slots body height (s : SegmentedFriState (D := D)) : ChainState :=
  let updates := tx_updates body height (cs_alloc_counter c) in
  with_counters (with_state c s)
    (cs_active_slot_count c - Z.of_nat (length (live_inputs body)) + Z.of_nat (length (live_outputs body)))
    (cs_alloc_counter c + Z.of_nat (length (live_outputs body)))
    (money (write_slots slots updates) (log_slots (cs_state c))).

Lemma primary_coinbase body : is_primary_coinbase_shape body = true -> is_coinbase body = true.
Proof. unfold is_primary_coinbase_shape. now intros [H _]%andb_true_iff. Qed.

Lemma coinbase_id_small x : 0 <= x < 2 ^ 64 -> is_coinbase_creation_id x = false <-> x < 2 ^ 63.
Proof.
  intros Hx. rewrite is_coinbase_creation_id_testbit. split.
  - intros H. destruct (Z_lt_ge_dec x (2 ^ 63)) as [|Hge]; [assumption|]. exfalso.
    assert (E : x / 2 ^ 63 = 1) by (symmetry; apply (Z.div_unique_pos _ _ _ (x - 2 ^ 63)); lia).
    rewrite Z.testbit_eqb in H by lia. rewrite E in H. discriminate H.
  - intros H. apply (testbit_small 63); lia.
Qed.

Lemma tx_updates_keys body h a : (tx_updates body h a).*1 = in_slots body ++ out_slots body.
Proof.
  unfold tx_updates. rewrite fmap_app. f_equal.
  - rewrite <- list_fmap_compose. apply list_fmap_id.
  - unfold out_slots. rewrite fmap_imap. apply list_eq. intros i. rewrite list_lookup_imap, list_lookup_fmap. now destruct (_ !! i).
Qed.

Lemma slots_wf body : body_wf body -> forall i, i ∈ in_slots body ++ out_slots body -> 0 <= i < 2 ^ 32.
Proof.
  intros Hb i. rewrite elem_of_app. unfold in_slots, out_slots. rewrite !list_elem_of_fmap. intros [(p & -> & Hp)|(p & -> & Hp)].
  - pose proof (proj1 (Forall_forall _ _) (live_inputs_wf body Hb) p Hp) as [H _]. exact H.
  - pose proof (proj1 (Forall_forall _ _) (live_outputs_wf body Hb) p Hp) as [H _]. exact H.
Qed.

Lemma tx_writable c slots body h : body_wf body -> applies c slots body h ->
  writable (cs_state c) (tx_updates body h (cs_alloc_counter c)).
Proof.
  intros Hb Ha. apply Forall_forall. intros [i v] Hin. apply (list_elem_of_fmap_2 fst) in Hin. rewrite tx_updates_keys in Hin. cbn [fst] in *.
  destruct (ap_resident _ _ _ _ Ha i Hin) as [H1 H2]. pose proof (slots_wf body Hb i Hin). split; [lia|exact H2].
Qed.

(** *** The guards of the code are the conditions *)

Section Body.
Context (c : ChainState (D := D)) (slots : Z -> SlotValue) (body : TxBody) (h : option Z).
Context (Hb : body_wf body) (Hs : state_ok (cs_state c) slots)
  (Hm : cs_circulating_supply c = money slots (log_slots (cs_state c))) (Ha0 : 0 <= cs_alloc_counter c).

Let s := cs_state c.
Let a := cs_alloc_counter c.
Let ni := Z.of_nat (length (live_inputs body)).
Let no := Z.of_nat (length (live_outputs body)).

Lemma read_slot i v : i ∈ in_slots body ++ out_slots body ->
  holds s i v <-> (i < num_slots s /\ seg_id_of s i ∉ evicted s) /\ slots i = v.
Proof.
  intros Hi. pose proof (slots_wf body Hb i Hi). unfold holds. split.
  - intros (A & B & C). rewrite <- (slot_read s slots Hs i) by (assumption || lia). auto.
  - intros ((A & B) & C). rewrite (slot_read s slots Hs i) by (assumption || lia). auto.
Qed.

Lemma in_slots_elem p : p ∈ live_inputs body -> in_slot_index p.2 ∈ in_slots body ++ out_slots body.
Proof. intros Hp. apply elem_of_app. left. now apply (list_elem_of_fmap_2 (fun p => in_slot_index p.2)). Qed.

Lemma out_slots_elem p : p ∈ live_outputs body -> out_slot_index p.2 ∈ in_slots body ++ out_slots body.
Proof. intros Hp. apply elem_of_app. right. now apply (list_elem_of_fmap_2 (fun p => out_slot_index p.2)). Qed.

Lemma tx_updates_eq : ((fun p : nat * TxInput => (in_slot_index p.2, EMPTY)) <$> live_inputs body) ++ imap (minted body h a) (live_outputs body)
  = tx_updates body h a.
Proof. unfold tx_updates, in_slots. now rewrite <- list_fmap_compose. Qed.

Lemma tx_supply : applies c slots body h -> supply_after_slot_updates c (tx_updates body h a)
  = Some (money (write_slots slots (tx_updates body h a)) (log_slots s)).
Proof.
  intros Hap. apply supply_after_ok; [exact Hs|exact Hm|pose proof (ok_log _ _ Hs); unfold s; lia|].
  eapply Forall_impl; [exact (tx_writable c slots body h Hb Hap)|]. cbv beta. unfold num_slots. intros d [Hd He]. auto.
Qed.

Lemma counts : live_input_count body = ni /\ live_output_count body = no.
Proof.
  split; [exact (live_input_count_length body (proj1 (wf_inputs _ Hb)))|exact (live_output_count_length body (proj1 (wf_outputs _ Hb)))].
Qed.

Lemma deferred_cases :
  match apply_tx_checked_deferred_root c body h with
  | Return c' => applies c slots body h /\ exists s', apply_delta_unrooted s (tx_updates body h a) = Ok s' /\ c' = applied c slots body h s'
  | Fail _ => True
  | Panic => False
  end.
Proof.
  unfold apply_tx_checked_deferred_root. cbn zeta. fold s a. destruct counts as [-> ->].
  destruct (is_coinbase body && bool_decide (h = None)) eqn:Eh; [exact I|]. cbn [negb ensure lift mbind exec_bind].
  assert (Hh : is_coinbase body = true -> h <> None).
  { intros Ec. rewrite Ec in Eh. cbn [andb] in Eh. now apply bool_decide_eq_false in Eh. }
  destruct (fold_result claim_input ∅ (live_inputs body)) as [ins|] eqn:E1; [|exact I]. cbn [lift mbind exec_bind].
  destruct (fold_result (claim_output ins) ∅ (live_outputs body)) as [outs|] eqn:E2; [|exact I]. cbn [lift mbind exec_bind].
  destruct (fold_result (spend_input s body) [] (live_inputs body)) as [deltas|] eqn:E3; [|exact I]. cbn [lift mbind exec_bind].
  destruct (checked_sub (cs_active_slot_count c) ni) as [a1|] eqn:E4; [|exact I]. cbn [ok_or lift mbind exec_bind].
  destruct (checked_add 64 a1 no) as [a2|] eqn:E5; [|exact I]. cbn [ok_or lift mbind exec_bind].
  destruct (checked_add 64 a no) as [a3|] eqn:E6; [|exact I]. cbn [ok_or lift mbind exec_bind].
  destruct (is_coinbase_creation_id a3) eqn:E7; [exact I|]. cbn [negb ensure lift mbind exec_bind].
  apply checked_sub_some in E4 as [-> E4]. apply checked_add_some in E5 as [-> E5], E6 as [-> E6].
  apply coinbase_id_small in E7; [|unfold a, no in *; lia].
  destruct (fold_result (mint_output s body h) (a, deltas) (live_outputs body)) as [mt|] eqn:E8; [|exact I]. cbn [lift mbind exec_bind].
  apply claim_inputs_iff in E1 as (N1 & _ & ->). destruct (proj1 (claim_outputs_iff _ _ _) (ex_intro _ outs E2)) as (N2 & N3).
  apply spends_iff in E3 as (P3 & ->). apply mints_iff in E8 as (P8 & ->); [|intros Hp; apply Hh; now apply primary_coinbase|exact Ha0|exact E6].
  cbn [snd app]. rewrite tx_updates_eq. rewrite Forall_forall in P3. rewrite Forall_forall in P8.
  assert (Hap : applies c slots body h).
  { constructor; fold s a; try assumption; [..|auto].
    - apply NoDup_app. split; [exact N1|]. split; [|exact N2]. intros i Hi Hi2. destruct (N3 i Hi2) as [_ Hn]. apply Hn, elem_of_union_l.
      now apply elem_of_list_to_set.
    - intros i Hi. pose proof Hi as Hi0. apply elem_of_app in Hi as [Hi|Hi]; apply list_elem_of_fmap in Hi as (p & -> & Hp).
      + now apply (read_slot _ (spent_slot body p.2) Hi0), P3.
      + now apply (read_slot _ EMPTY Hi0), P8.
    - intros p Hp. now apply (read_slot _ _ (in_slots_elem p Hp)), P3.
    - intros i Hi. apply list_elem_of_fmap in Hi as (p & -> & Hp). now apply (read_slot _ _ (out_slots_elem p Hp)), P8. }
  rewrite (tx_supply Hap). cbn [ok_or lift mbind exec_bind].
  destruct (apply_delta_ok s slots _ Hs (tx_writable c slots body h Hb Hap)) as (s' & E9 & _). fold a in E9. rewrite E9. cbn. eauto.
Qed.

Lemma deferred_ok s' : applies c slots body h -> apply_delta_unrooted s (tx_updates body h a) = Ok s' ->
  apply_tx_checked_deferred_root c body h = Return (applied c slots body h s').
Proof.
  intros Hap E9. unfold apply_tx_checked_deferred_root. cbn zeta. fold s a. destruct counts as [-> ->].
  pose proof (ap_slots _ _ _ _ Hap) as Hnd. apply NoDup_app in Hnd as (N1 & N3 & N2).
  pose proof (ap_height _ _ _ _ Hap) as Hh. pose proof (ap_resident _ _ _ _ Hap) as Hres.
  destruct (ap_active _ _ _ _ Hap) as [Hac1 Hac2]. pose proof (ap_alloc _ _ _ _ Hap) as Hal. fold ni no a in Hac1, Hac2, Hal.
  replace (is_coinbase body && bool_decide (h = None)) with false.
  2:{ symmetry. destruct (is_coinbase body); [|reflexivity]. apply bool_decide_eq_false. now apply Hh. }
  cbn [negb ensure lift mbind exec_bind].
  rewrite (proj2 (claim_inputs_iff (live_inputs body) ∅ (list_to_set (in_slots body) ∪ ∅))); [|split; [exact N1|split; [intros i _; apply not_elem_of_empty|reflexivity]]].
  cbn [lift mbind exec_bind].
  destruct (proj2 (claim_outputs_iff (list_to_set (in_slots body) ∪ ∅) (live_outputs body) ∅)) as [outs ->].
  { split; [exact N2|]. intros i Hi. split; [apply not_elem_of_empty|]. rewrite union_empty_r_L, elem_of_list_to_set. intros Hin. exact (N3 i Hin Hi). }
  cbn [lift mbind exec_bind].
  set (spends := (fun p : nat * TxInput => (in_slot_index p.2, EMPTY)) <$> live_inputs body).
  rewrite (proj2 (spends_iff s body (live_inputs body) [] spends)); [|split; [|reflexivity]].
  2:{ apply Forall_forall. intros p Hp. apply (read_slot _ _ (in_slots_elem p Hp)). split; [now apply Hres, in_slots_elem|now apply Hap]. }
  cbn [lift mbind exec_bind app].
  rewrite (proj2 (checked_sub_some _ _ _) (conj eq_refl Hac1)). cbn [ok_or lift mbind exec_bind].
  rewrite (proj2 (checked_add_some _ _ _ _) (conj eq_refl Hac2)). cbn [ok_or lift mbind exec_bind].
  assert (H64 : a + no < 2 ^ 64) by lia.
  rewrite (proj2 (checked_add_some _ _ _ _) (conj eq_refl H64)). cbn [ok_or lift mbind exec_bind].
  rewrite (proj2 (coinbase_id_small (a + no) ltac:(unfold a, no in *; lia)) Hal). cbn [negb ensure lift mbind exec_bind].
  rewrite (proj2 (mints_iff s body h (live_outputs body) ltac:(intros Hp; apply Hh; now apply primary_coinbase) a spends
    (a + no, spends ++ imap (minted body h a) (live_outputs body)) Ha0 H64)); [|split; [|reflexivity]].
  2:{ apply Forall_forall. intros p Hp. apply (read_slot _ _ (out_slots_elem p Hp)). split; [now apply Hres, out_slots_elem|].
      apply (ap_mints _ _ _ _ Hap). now apply (list_elem_of_fmap_2 (fun p => out_slot_index p.2)). }
  cbn [lift mbind exec_bind snd]. unfold spends. rewrite tx_updates_eq, (tx_supply Hap). cbn [ok_or lift mbind exec_bind]. now rewrite E9.
Qed.

End Body.

(** ** Effect on slots and counters *)

Definition height_ok (h : option Z) : Prop := match h with Some x => 0 <= x < 2 ^ 63 | None => True end.

Lemma coinbase_id_range h : 0 <= h < 2 ^ 63 -> 2 ^ 63 <= coinbase_creation_id h < 2 ^ 64 /\ is_coinbase_creation_id (coinbase_creation_id h) = true.
Proof.
  intros Hh. assert (E : coinbase_creation_id h = 2 ^ 63 + h).
  { assert (L : Z.land (2 ^ 63) h = 0).
    { apply Z.bits_inj'. intros n Hn. rewrite Z.land_spec, Z.pow2_bits_eqb, Z.bits_0 by lia.
      destruct (Z.eqb_spec 63 n) as [<-|]; [|reflexivity]. rewrite (testbit_small 63 h 63) by lia. reflexivity. }
    unfold coinbase_creation_id, COINBASE_CREATION_TAG. rewrite Z.shiftl_1_l, <- Z.lxor_lor by exact L. symmetry. now apply Z.add_nocarry_lxor. }
  split; [lia|]. now rewrite is_coinbase_creation_id_testbit, testbit_coinbase_creation_id by lia.
Qed.

(** Fresh ids are in range, and in exactly one of the two name spaces. *)
Lemma mint_id_ok c slots body h k : applies c slots body h -> height_ok h -> 0 <= cs_alloc_counter c ->
  (k < length (live_outputs body))%nat -> let id := mint_id body h (cs_alloc_counter c) k in
  1 <= id < 2 ^ 64 /\ (is_coinbase_creation_id id = true \/ cs_alloc_counter c < id <= cs_alloc_counter c + Z.of_nat (length (live_outputs body))).
Proof.
  intros Hap Hh Ha Hk. cbn zeta. unfold mint_id. destruct (is_primary_coinbase_shape body) eqn:Ep.
  - apply primary_coinbase, (ap_height _ _ _ _ Hap) in Ep. destruct h as [x|]; [|congruence]. cbn [from_option id].
    destruct (coinbase_id_range x Hh). split; [lia|auto].
  - pose proof (ap_alloc _ _ _ _ Hap). split; [lia|]. right. lia.
Qed.

Lemma minted_parts c slots body h k p : applies c slots body h -> body_wf body -> height_ok h -> 0 <= cs_alloc_counter c ->
  live_outputs body !! k = Some p ->
  amount (minted body h (cs_alloc_counter c) k p).2 = out_amount p.2
  /\ creation_id (minted body h (cs_alloc_counter c) k p).2 = mint_id body h (cs_alloc_counter c) k.
Proof.
  intros Hap Hb Hh Ha Hk. destruct (mint_id_ok c slots body h k Hap Hh Ha (lookup_lt_Some _ _ _ Hk)) as [Hid _].
  apply parts_of; [|unfold u64; lia].
  apply (proj1 (Forall_forall _ _) (live_outputs_wf body Hb) p). now apply list_elem_of_lookup_2 with k.
Qed.

Lemma spent_amount body p : body_wf body -> p ∈ live_inputs body -> amount (spent_slot body p.2) = in_amount p.2.
Proof. intros Hb Hp. destruct (proj1 (Forall_forall _ _) (live_inputs_wf body Hb) p Hp) as (_ & H1 & H2). unfold spent_slot, with_owner_fields. exact (proj1 (parts_of _ _ _ _ H1 H2)). Qed.

Lemma occupied_id v : 1 <= creation_id v -> occupied v = 1.
Proof.
  intros H. unfold occupied, is_empty. destruct (bool_decide_reflect (v = EMPTY)) as [->|]; [|reflexivity].
  change (creation_id EMPTY) with 0 in H. lia.
Qed.

Lemma tx_totals c slots body h (f : SlotValue -> Z) : body_wf body -> state_ok (cs_state c) slots -> applies c slots body h -> f EMPTY = 0 ->
  total f (write_slots slots (tx_updates body h (cs_alloc_counter c))) (num_slots (cs_state c))
  = total f slots (num_slots (cs_state c)) - Zsum ((fun p => f (spent_slot body p.2)) <$> live_inputs body)
    + Zsum (imap (fun k p => f (minted body h (cs_alloc_counter c) k p).2) (live_outputs body)).
Proof.
  intros Hb Hs Hap Hf. rewrite total_writes.
  2:{ rewrite tx_updates_keys. apply Hap. }
  2:{ eapply Forall_impl; [exact (tx_writable c slots body h Hb Hap)|]. cbv beta. tauto. }
  unfold tx_updates. rewrite fmap_app, Zsum_app, <- list_fmap_compose.
  unfold in_slots. rewrite <- list_fmap_compose.
  assert (E1 : Zsum ((fun p : nat * TxInput => f EMPTY - f (slots (in_slot_index p.2))) <$> live_inputs body)
    = - Zsum ((fun p => f (spent_slot body p.2)) <$> live_inputs body)).
  { rewrite (Zsum_same _ (fun p => - f (spent_slot body p.2))).
    - clear. induction (live_inputs body) as [|p l IH]; [reflexivity|]. cbn [fmap list_fmap]. rewrite !Zsum_cons, IH. lia.
    - intros p Hp. rewrite (ap_spends _ _ _ _ Hap p Hp), Hf. lia. }
  assert (E2 : (fun d : Z * SlotValue => f d.2 - f (slots d.1)) <$> imap (minted body h (cs_alloc_counter c)) (live_outputs body)
    = imap (fun k p => f (minted body h (cs_alloc_counter c) k p).2) (live_outputs body)).
  { apply list_eq. intros k. rewrite list_lookup_fmap, !list_lookup_imap. destruct (live_outputs body !! k) as [p|] eqn:Ek; [|reflexivity].
    cbn. f_equal. rewrite (ap_mints _ _ _ _ Hap), Hf; [lia|]. apply (list_elem_of_fmap_2 (fun p => out_slot_index p.2)).
    now apply list_elem_of_lookup_2 with k. }
  rewrite E2. unfold compose. cbn [fst snd]. rewrite E1. lia.
Qed.

(** A body removes its inputs from the supply and adds its outputs. *)
Lemma tx_money c slots body h : body_wf body -> state_ok (cs_state c) slots -> applies c slots body h -> height_ok h -> 0 <= cs_alloc_counter c ->
  money (write_slots slots (tx_updates body h (cs_alloc_counter c))) (log_slots (cs_state c))
  = money slots (log_slots (cs_state c)) - in_total body + out_total body.
Proof.
  intros Hb Hs Hap Hh Ha. unfold money. fold (num_slots (cs_state c)). rewrite (tx_totals c slots body h amount Hb Hs Hap eq_refl).
  unfold in_total, out_total. rewrite (Zsum_same _ (fun p => in_amount p.2)) by (intros p Hp; now apply spent_amount).
  do 2 f_equal. apply list_eq. intros k. rewrite list_lookup_imap, list_lookup_fmap. destruct (live_outputs body !! k) as [p|] eqn:Ek; [|reflexivity].
  cbn [fmap option_fmap option_map]. f_equal. now apply (minted_parts c slots body h k p).
Qed.

(** It frees at most its inputs, all of them unless one claims an empty slot. *)
Lemma tx_population c slots body h : body_wf body -> state_ok (cs_state c) slots -> applies c slots body h -> height_ok h -> 0 <= cs_alloc_counter c ->
  let after := population (write_slots slots (tx_updates body h (cs_alloc_counter c))) (log_slots (cs_state c)) in
  let counted := population slots (log_slots (cs_state c)) - Z.of_nat (length (live_inputs body)) + Z.of_nat (length (live_outputs body)) in
  counted <= after /\ (real_spends body -> after = counted).
Proof.
  intros Hb Hs Hap Hh Ha. cbn zeta. unfold population. fold (num_slots (cs_state c)). rewrite (tx_totals c slots body h occupied Hb Hs Hap eq_refl).
  assert (One : forall {A} (l : list A), Zsum ((fun _ => 1) <$> l) = Z.of_nat (length l)).
  { intros A. induction l as [|x l IH]; [reflexivity|]. cbn [fmap list_fmap length]. rewrite Zsum_cons, IH. lia. }
  assert (Hin : Zsum ((fun p => occupied (spent_slot body p.2)) <$> live_inputs body) <= Z.of_nat (length (live_inputs body))).
  { induction (live_inputs body) as [|p l IH]; [cbn; lia|]. cbn [fmap list_fmap length]. rewrite Zsum_cons. unfold occupied at 1. destruct (is_empty _); lia. }
  assert (Hout : Zsum (imap (fun k p => occupied (minted body h (cs_alloc_counter c) k p).2) (live_outputs body)) = Z.of_nat (length (live_outputs body))).
  2:{ rewrite Hout. split; [lia|]. intros Hne. rewrite (Zsum_same _ (fun _ => 1)); [now rewrite One|].
      intros p Hp. specialize (Hne p Hp). unfold occupied, is_empty. now rewrite bool_decide_eq_false_2. }
  rewrite <- (One _ (live_outputs body)). f_equal. apply list_eq. intros k. rewrite list_lookup_imap, list_lookup_fmap.
  destruct (live_outputs body !! k) as [p|] eqn:Ek; [|reflexivity]. cbn [fmap option_fmap option_map]. f_equal. apply occupied_id.
  destruct (minted_parts c slots body h k p Hap Hb Hh Ha Ek) as [_ ->].
  now destruct (mint_id_ok c slots body h k Hap Hh Ha (lookup_lt_Some _ _ _ Ek)) as [? _].
Qed.

(** A body keeps the invariant. *)
Lemma applied_ok c slots body h s' : body_wf body -> chain_ok c slots -> applies c slots body h -> height_ok h ->
  apply_delta_unrooted (cs_state c) (tx_updates body h (cs_alloc_counter c)) = Ok s' ->
  chain_ok (applied c slots body h s') (write_slots slots (tx_updates body h (cs_alloc_counter c)))
  /\ log_slots s' = log_slots (cs_state c)
  /\ (counted c slots -> real_spends body -> counted (applied c slots body h s') (write_slots slots (tx_updates body h (cs_alloc_counter c)))).
Proof.
  intros Hb [Hr Hact Hsup Hal Hids] Hap Hh E. pose proof (rt_state _ _ Hr) as Hs.
  destruct (write_rooted c slots _ Hr (tx_writable c slots body h Hb Hap)) as (s'' & E' & Hr' & W). rewrite E in E'. injection E' as <-.
  pose proof (wa_log _ _ _ _ W) as L. destruct (tx_population c slots body h Hb Hs Hap Hh ltac:(lia)) as [Hge Heq].
  split; [|split; [exact L|]].
  2:{ unfold counted. cbn [applied with_counters with_state cs_state cs_active_slot_count]. rewrite L. intros -> Hne. now rewrite (Heq Hne). }
  constructor; cbn [applied with_counters with_state cs_state cs_active_slot_count cs_alloc_counter cs_circulating_supply]; rewrite ?L.
  - destruct Hr' as [A B C]. constructor; assumption.
  - pose proof (ap_active _ _ _ _ Hap). lia.
  - reflexivity.
  - pose proof (ap_alloc _ _ _ _ Hap). lia.
  - intros i Hi. destruct (decide (i ∈ (tx_updates body h (cs_alloc_counter c)).*1)) as [Hin|Hin].
    + apply list_elem_of_fmap in Hin as ([i' v] & -> & Hin). apply list_elem_of_lookup in Hin as [k Ek]. cbn [fst] in *.
      rewrite (write_slots_at slots _ k i' v) in Hi |- * by (exact Ek || (rewrite tx_updates_keys; apply Hap)).
      unfold tx_updates in Ek. apply list_elem_of_lookup_2, elem_of_app in Ek as [Ek|Ek].
      * apply list_elem_of_fmap in Ek as (? & [= -> ->] & _). congruence.
      * apply elem_of_lookup_imap in Ek as (j & p & Ev & Ek).
        destruct (minted_parts c slots body h j p Hap Hb Hh ltac:(lia) Ek) as [_ Hid]. rewrite <- Ev in Hid. cbn [snd] in Hid. rewrite Hid.
        destruct (mint_id_ok c slots body h j Hap Hh ltac:(lia) (lookup_lt_Some _ _ _ Ek)) as [H1 [H2|H2]]; [auto|right; lia].
    + rewrite write_slots_other in Hi |- * by exact Hin. destruct (Hids i Hi) as [|H1]; [auto|right; lia].
Qed.

(** ** The whole operation *)

Context (Hcap : forall cols, 0 <= column_capacity (D := D) cols).

(** What [apply_tx] and [apply_tx_at] return, and what they leave. *)
Definition tx_outcome c slots body height (r : exec ApplyError (D * ChainState (D := D))) : Prop :=
  let after := write_slots slots (tx_updates body height (cs_alloc_counter c)) in
  match r with
  | Return (root, c') => applies c slots body height
      /\ root = state_root after (log_slots (cs_state c)) /\ chain_ok c' after /\ sealed c' after
      /\ log_slots (cs_state c') = log_slots (cs_state c)
      /\ cs_circulating_supply c' = cs_circulating_supply c - in_total body + out_total body
      /\ cs_alloc_counter c' = cs_alloc_counter c + Z.of_nat (length (live_outputs body))
      /\ cs_active_slot_count c' = cs_active_slot_count c - Z.of_nat (length (live_inputs body)) + Z.of_nat (length (live_outputs body))
      /\ (counted c slots -> real_spends body -> counted c' after)
  | Fail _ => ~ applies c slots body height
  | Panic => False
  end.

Lemma apply_inner_cases c slots body h : body_wf body -> chain_ok c slots -> sealed c slots -> height_ok h -> tx_outcome c slots body h (apply_tx_inner c body h).
Proof.
  intros Hb Hc [Hd _] Hh. pose proof (co_rooted _ _ Hc) as Hr. pose proof (rt_state _ _ Hr) as Hs.
  pose proof (co_supply _ _ Hc) as Hm. pose proof (proj1 (co_alloc _ _ Hc)) as Ha.
  unfold apply_tx_inner. pose proof (deferred_cases c slots body h Hb Hs Hm Ha) as H.
  destruct (apply_tx_checked_deferred_root c body h) as [c1|e|] eqn:E; cbn [mbind exec_bind]; [|cbn [tx_outcome]|exact H].
  - destruct H as (Hap & s' & Es & ->). destruct (applied_ok c slots body h s' Hb Hc Hap Hh Es) as (Hc1 & L & Hct).
    pose proof (tx_writable c slots body h Hb Hap) as Hw. destruct (write_rooted c slots _ Hr Hw) as (s'' & Es' & _ & W). rewrite Es in Es'. injection Es' as <-.
    destruct (try_state_root_ok Hcap _ _ (co_rooted _ _ Hc1)) as (c2 & E2 & Hr2 & Hse2 & [S1 S2 S3 S4 S5 S6 S7]).
    { apply (write_dirty_resident _ _ _ _ W Hw). rewrite Hd. intros seg Hin. now apply not_elem_of_empty in Hin. }
    rewrite E2. cbn [applied with_counters with_state cs_state cs_active_slot_count cs_alloc_counter cs_circulating_supply] in *. rewrite L in *.
    split; [exact Hap|]. split; [reflexivity|]. split; [|split; [exact Hse2|]].
    + destruct Hc1 as [_ A B C F]. cbn [applied with_counters with_state cs_state cs_active_slot_count cs_alloc_counter cs_circulating_supply] in *. rewrite L in *.
      constructor; rewrite ?S1, ?S5, ?S6, ?S7; assumption.
    + split; [exact S1|]. split; [rewrite S7, Hm; now apply tx_money|]. split; [exact S6|]. split; [exact S5|].
      intros H1 H2. specialize (Hct H1 H2). unfold counted in *. cbn [applied with_counters with_state cs_state cs_active_slot_count] in Hct. rewrite S1, S5. now rewrite L in Hct.
  - intros Hap. destruct (apply_delta_ok (cs_state c) slots _ Hs (tx_writable c slots body h Hb Hap)) as (s' & Es & _).
    rewrite (deferred_ok c slots body h Hb Hs Hm Ha s' Hap Es) in E. discriminate E.
Qed.

(** A body whose inputs all claim an empty slot (zero amount, id and owner)
    decrements the live-slot counter and changes no slot. *)
Lemma phantom_spend c slots body h s' : body_wf body -> state_ok (cs_state c) slots -> applies c slots body h ->
  live_outputs body = [] -> (forall p, p ∈ live_inputs body -> spent_slot body p.2 = EMPTY) ->
  cs_active_slot_count (applied c slots body h s') = cs_active_slot_count c - Z.of_nat (length (live_inputs body))
  /\ population (write_slots slots (tx_updates body h (cs_alloc_counter c))) (log_slots (cs_state c)) = population slots (log_slots (cs_state c)).
Proof.
  intros Hb Hs Hap Ho Hp. split; [cbn; rewrite Ho; cbn [length]; lia|]. unfold population. fold (num_slots (cs_state c)).
  rewrite (tx_totals c slots body h occupied Hb Hs Hap eq_refl), Ho. cbn [imap]. rewrite Zsum_none; [cbn; lia|].
  intros p Hin. rewrite (Hp p Hin). reflexivity.
Qed.

End ApplyTx.

(** ** Properties *)

(** C10. Transactions apply exactly.  On a sealed chain state [apply_tx_at] never
    panics; it succeeds precisely when the touched slots are distinct, in the
    domain and in memory, every input slot holds the claimed amount, id and owner,
    every output slot is empty, the live count covers the inputs, and the counters
    do not overflow into the coinbase name space.  It then frees the inputs, mints
    the outputs under fresh ids, returns the Merkle root of the new slots, moves
    the supply and the live count by the outputs minus the inputs and keeps the
    invariant of the chain state; the live count stays the number of occupied
    slots when no input claims what an empty slot holds.  [apply_tx] does the same
    for a body that is not a coinbase and rejects a coinbase. *)
Theorem apply_tx_exact {R : RawCommit StateHash} (c : ChainState (D := StateHash)) (slots : Z -> SlotValue) (body : TxBody) (height : Z) :
  (forall cols, 0 <= column_capacity cols) -> body_wf body -> chain_ok c slots -> sealed c slots -> 0 <= height < 2 ^ 63 ->
  tx_outcome c slots body (Some height) (apply_tx_at c body height)
  /\ if is_coinbase body then apply_tx c body = Fail CoinbaseMintHeightMissing
     else tx_outcome c slots body None (apply_tx c body).
Proof.
  intros Hcap Hb Hc Hse Hh. split; [exact (apply_inner_cases Hcap c slots body (Some height) Hb Hc Hse Hh)|].
  unfold apply_tx. destruct (is_coinbase body); [reflexivity|]. exact (apply_inner_cases Hcap c slots body None Hb Hc Hse I).
Qed.

Definition example_mint : TxBody :=
  mkTxBody (replicate 32 3) 0 ZERO_DIGEST (replicate 8 TxInput_dummy)
    [mkTxOutput 2 50 (replicate 32 8); TxOutput_dummy] 256 true.

Lemma example_mint_wf : body_wf example_mint.
Proof.
  constructor; unfold array_ok, bytes_ok, byte_ok, input_wf, output_wf, in_range; cbn;
    repeat (split || constructor); cbn; lia.
Qed.

Lemma apply_tx_exact_witness :
  exists c : ChainState (D := StateHash), with_log_slots (RawCommit0 := null_commit) 2 = Some c
  /\ tx_outcome c (fun _ => EMPTY) example_mint (Some 7) (apply_tx_at (RawCommit0 := null_commit) c example_mint 7)
  /\ apply_tx (RawCommit0 := null_commit) c example_mint = Fail CoinbaseMintHeightMissing.
Proof.
  destruct (with_log_slots_ok (RawCommit0 := null_commit) (D := StateHash) 2 ltac:(lia)) as (c & E & Hc & Hse & _). exists c. split; [exact E|].
  apply (apply_tx_exact (R := null_commit) c (fun _ => EMPTY) example_mint 7); [intros cols; cbn; lia|exact example_mint_wf|exact Hc|exact Hse|lia].
Defined.
