(* ===== verification/Transition.v ===== *)
(** * Verified block transitions on the chain state

    The read-only root derivation under slot updates and the transition that
    installs it ([exact_utxo_root_after_slot_updates] and
    [apply_verified_exact_transition] of [noid_chain/src/state.rs]). *)

From Stdlib Require Import ZArith Lia Bool Sorted.
From stdpp Require Import base numbers list option gmap sorting.
From S2P Require Import Prelude Params Merkle SparseMerkle StateTree HeapTree HotSegments StreamRoot Segmented Resize ChainState ChainInvariant.
Open Scope Z_scope.

(** ** Updates by segment *)

(** The update of slot [i] in the grouped map. *)
Definition grouped (eff : nat) (m : gmap Z (gmap Z SlotValue)) (i : Z) : option SlotValue :=
  default ∅ (m !! (i / 2 ^ Z.of_nat eff)) !! (i mod 2 ^ Z.of_nat eff).

Lemma group_position eff i : (eff <= 16)%nat -> 0 <= i < 2 ^ 32 -> i / 2 ^ Z.of_nat eff < 2 ^ 16 ->
  Z.shiftr i (Z.of_nat eff) mod 2 ^ 16 = i / 2 ^ Z.of_nat eff
  /\ Z.land i (2 ^ Z.of_nat eff - 1) = i mod 2 ^ Z.of_nat eff.
Proof.
  intros He Hi Hs. pose proof (pow2_gt0 eff). rewrite Z.shiftr_div_pow2 by lia. split.
  - apply Z.mod_small. split; [apply Z.div_pos; lia|exact Hs].
  - rewrite <- Z.land_ones by lia. f_equal. rewrite Z.ones_equiv. lia.
Qed.

Lemma update_range (eff : nat) target k : Z.of_nat eff <= target <= Z.of_nat eff + 16 -> target <= 32 -> 0 <= k < 2 ^ target ->
  0 <= k < 2 ^ 32 /\ k / 2 ^ Z.of_nat eff < 2 ^ 16.
Proof.
  intros Ht H32 Hk. assert (2 ^ target <= 2 ^ 32) by (apply Z.pow_le_mono_r; lia). split; [lia|].
  pose proof (pow2_gt0 eff). apply Z.div_lt_upper_bound; [lia|]. rewrite <- Z.pow_add_r by lia.
  assert (2 ^ target <= 2 ^ (Z.of_nat eff + 16)) by (apply Z.pow_le_mono_r; lia). lia.
Qed.

Lemma same_position eff i j : i / 2 ^ Z.of_nat eff = j / 2 ^ Z.of_nat eff -> i mod 2 ^ Z.of_nat eff = j mod 2 ^ Z.of_nat eff -> i = j.
Proof.
  intros H1 H2. pose proof (pow2_gt0 eff). rewrite (Z.div_mod i (2 ^ Z.of_nat eff)), (Z.div_mod j (2 ^ Z.of_nat eff)) by lia. now rewrite H1, H2.
Qed.

Definition group_step (eff : nat) (m : gmap Z (gmap Z SlotValue)) (u : Z * SlotValue) : gmap Z (gmap Z SlotValue) :=
  let seg := Z.shiftr u.1 (Z.of_nat eff) mod 2 ^ 16 in
  let loc := Z.land u.1 (2 ^ Z.of_nat eff - 1) in
  <[seg := <[loc := u.2]> (default ∅ (m !! seg))]> m.

Lemma group_updates_iff target eff updates : forall m m', fold_result (group_update target eff) m updates = Ok m' <->
  Forall (fun u => u.1 < target) updates /\ m' = foldl (group_step eff) m updates.
Proof.
  induction updates as [|u updates IH]; intros m m'; cbn [fold_result foldl].
  - split; [intros [= <-]; auto|intros [_ ->]; reflexivity].
  - rewrite bind_ok_iff, Forall_cons. unfold group_update at 1. split.
    + intros (b & Hb & Hr). inv_ok. boolify. subst b. apply IH in Hr as [Hl ->]. auto.
    + intros [[Hu Hl] ->]. exists (group_step eff m u). split; [|now apply IH]. apply Z.leb_gt in Hu. now rewrite Hu.
Qed.

(** Grouping keeps the last update of each slot. *)
Lemma grouped_lookup eff target updates i : (eff <= 16)%nat -> Z.of_nat eff <= target <= Z.of_nat eff + 16 -> target <= 32 ->
  Forall (fun u : Z * SlotValue => 0 <= u.1 < 2 ^ target) updates -> 0 <= i ->
  grouped eff (foldl (group_step eff) ∅ updates) i = canonical_updates updates !! i.
Proof.
  intros He Ht H32 Hu Hi. unfold canonical_updates.
  assert (G : forall (m : gmap Z (gmap Z SlotValue)) (m0 : gmap Z SlotValue), grouped eff m i = m0 !! i ->
    grouped eff (foldl (group_step eff) m updates) i = foldl (fun m u => <[u.1 := u.2]> m) m0 updates !! i).
  { induction updates as [|[k v] updates IH]; intros m m0 Hm; [exact Hm|]. apply Forall_cons in Hu as [Hk Hu]. cbn [fst] in Hk.
    cbn [foldl fst snd]. apply IH; [exact Hu|]. clear IH Hu.
    destruct (update_range eff target k Ht H32 Hk) as [Hk32 Hk16].
    unfold group_step. cbn [fst snd]. destruct (group_position eff k He Hk32 Hk16) as [-> ->].
    destruct (decide (k = i)) as [->|Hne].
    - unfold grouped. rewrite !lookup_insert_eq. cbn [from_option id]. now rewrite lookup_insert_eq.
    - rewrite lookup_insert_ne by exact Hne. rewrite <- Hm. unfold grouped.
      destruct (decide (k / 2 ^ Z.of_nat eff = i / 2 ^ Z.of_nat eff)) as [Eq|Nq].
      + rewrite <- Eq, lookup_insert_eq. cbn [from_option id]. rewrite lookup_insert_ne; [reflexivity|].
        intros Em. apply Hne. now apply (same_position eff).
      + now rewrite lookup_insert_ne. }
  apply G. unfold grouped. rewrite !lookup_empty. cbn [from_option id]. now rewrite lookup_empty.
Qed.

(** Every group holds updates of its own segment. *)
Lemma group_elem eff target updates seg local : (eff <= 16)%nat -> Z.of_nat eff <= target <= Z.of_nat eff + 16 -> target <= 32 ->
  Forall (fun u : Z * SlotValue => 0 <= u.1 < 2 ^ target) updates ->
  foldl (group_step eff) ∅ updates !! seg = Some local ->
  (exists u, u ∈ updates /\ seg = u.1 / 2 ^ Z.of_nat eff) /\ map_Forall (fun k _ => 0 <= k < 2 ^ Z.of_nat eff) local.
Proof.
  intros He Ht H32. revert local. induction updates as [|[k v] updates IH] using rev_ind; intros local Hu E; [cbn in E; now rewrite lookup_empty in E|].
  apply Forall_app in Hu as [Hu Hk]. apply Forall_cons in Hk as [Hk _]. cbn [fst] in Hk.
  destruct (update_range eff target k Ht H32 Hk) as [Hk32 Hk16].
  rewrite foldl_app in E. cbn [foldl] in E. unfold group_step at 1 in E. cbn [fst snd] in E.
  destruct (group_position eff k He Hk32 Hk16) as [E1 E2]. rewrite E1, E2 in E.
  destruct (decide (k / 2 ^ Z.of_nat eff = seg)) as [Eseg|Nseg].
  - rewrite Eseg, lookup_insert_eq in E. injection E as <-. split.
    + exists (k, v). split; [apply elem_of_app; right; now apply list_elem_of_singleton|]. now rewrite <- Eseg.
    + apply map_Forall_insert_2; [apply Z.mod_pos_bound, pow2_gt0|].
      destruct (foldl (group_step eff) ∅ updates !! seg) as [old|] eqn:Eo; [|apply map_Forall_empty]. now apply IH.
  - rewrite lookup_insert_ne in E by exact Nseg. destruct (IH local Hu E) as [(u & Hin & Hs) Hl]. split; [|exact Hl].
    exists u. split; [apply elem_of_app; now left|exact Hs].
Qed.

Section Transition.
Context {D : Type} `{!ExactHash D} `{!RawCommit D}.
Context (c : ChainState (D := D)) (slots : Z -> SlotValue) (log : nat) (updates : list (Z * SlotValue)).

Let s := cs_state c.
Let eff := Nat.min log SEGMENT_LOG.
Let groups := foldl (group_step eff) ∅ updates.

(** The transition keeps the domain or doubles it. *)
Context (Hs : state_ok s slots).
Context (Hlog : (log_slots s <= log <= log_slots s + 1)%nat) (H32 : (log <= 32)%nat).
Context (Hu : Forall (fun u : Z * SlotValue => 0 <= u.1 < 2 ^ Z.of_nat log) updates).

(** The segments of the update that exist are in memory. *)
Definition touched_resident : Prop :=
  forall u, u ∈ updates -> u.1 / 2 ^ Z.of_nat eff < Z.of_nat (num_segments s) -> u.1 / 2 ^ Z.of_nat eff ∉ evicted s.

Lemma eff_range : (eff <= 16)%nat /\ Z.of_nat eff <= Z.of_nat log <= Z.of_nat eff + 16 /\ Z.of_nat log <= 32.
Proof. unfold eff, SEGMENT_LOG in *. lia. Qed.

(** Either the segments keep their size, or the single segment doubles. *)
Lemma geometry : eff = effective_log_seg s \/ (num_segments s = 1%nat /\ effective_log_seg s = log_slots s /\ eff = S (log_slots s) /\ log = eff).
Proof using Hs Hlog.
  clear H32. pose proof (ok_eff _ _ Hs) as E. pose proof (ok_num _ _ Hs) as N. fold s in E, N. unfold eff, SEGMENT_LOG in *.
  destruct (Nat.le_gt_cases 16 (log_slots s)); [left; lia|].
  destruct (Nat.eq_dec log (log_slots s)); [left; lia|]. right. rewrite N, E. replace (log_slots s `min` 16)%nat with (log_slots s) by lia.
  rewrite Nat.sub_diag. split; [reflexivity|]. lia.
Qed.

Lemma groups_lookup i : 0 <= i -> grouped eff groups i = canonical_updates updates !! i.
Proof. destruct eff_range as (A & B & C). intros Hi. now apply (grouped_lookup eff (Z.of_nat log)). Qed.

Lemma groups_elem seg local : groups !! seg = Some local ->
  (exists u, u ∈ updates /\ seg = u.1 / 2 ^ Z.of_nat eff) /\ map_Forall (fun k _ => 0 <= k < 2 ^ Z.of_nat eff) local.
Proof. destruct eff_range as (A & B & C). now apply (group_elem eff (Z.of_nat log)). Qed.

Lemma groups_range seg local : groups !! seg = Some local -> 0 <= seg < 2 ^ Z.of_nat (log - eff).
Proof.
  intros [(u & Hin & ->) _]%groups_elem. rewrite Forall_forall in Hu. specialize (Hu u Hin). pose proof (pow2_gt0 eff).
  split; [apply Z.div_pos; lia|]. apply Z.div_lt_upper_bound; [lia|]. rewrite <- Z.pow_add_r, <- Nat2Z.inj_add by lia.
  replace (eff + (log - eff))%nat with log by (unfold eff; lia). lia.
Qed.

(** The columns a group is laid over. *)
Definition base_columns (seg : Z) : option SegmentColumns :=
  if (num_segments s <=? Z.to_nat seg)%nat then None else try_get_segment_columns s seg.

Lemma base_read seg (l : nat) : 0 <= seg -> (seg < Z.of_nat (num_segments s) -> seg ∉ evicted s) -> (l < 2 ^ eff)%nat ->
  updated_slot (base_columns seg) ∅ l = slots (seg * 2 ^ Z.of_nat eff + Z.of_nat l).
Proof.
  intros Hseg Hev Hl. assert (W : Z.of_nat (2 ^ eff) = 2 ^ Z.of_nat eff) by apply Nat2Z.inj_pow.
  unfold updated_slot, base_columns. rewrite lookup_empty. pose proof (num_of_slots s slots Hs) as N. pose proof (pow2_gt0 (effective_log_seg s)).
  assert (L : forall cols, try_get_segment_columns s seg = Some cols -> seg < Z.of_nat (num_segments s) -> length (col_values cols) = (2 ^ effective_log_seg s)%nat).
  { intros cols Ec Hb. destruct (ok_resident _ _ Hs seg cols Ec ltac:(lia)) as (_ & B & _). now apply columns_len_iff in B as (B & _). }
  destruct (Nat.leb_spec (num_segments s) (Z.to_nat seg)) as [Hge|Hlt].
  - symmetry. apply (ok_outside _ _ Hs). fold s. rewrite <- N. destruct geometry as [->|(E1 & E2 & E3 & E4)]; [nia|].
    rewrite E1, E2. rewrite E3, pow2_S. pose proof (pow2_gt0 (log_slots s)). nia.
  - assert (Hb : 0 <= seg < Z.of_nat (num_segments s)) by lia. specialize (Hev (proj2 Hb)).
    destruct geometry as [E|(E1 & E2 & E3 & E4)].
    + rewrite E in Hl |- *. rewrite <- (resident_slot s slots seg l Hs Hb Hev Hl).
      destruct (try_get_segment_columns s seg) as [cols|] eqn:Ec; [|reflexivity]. rewrite (L cols eq_refl) by lia.
      destruct (Nat.leb_spec (2 ^ effective_log_seg s) l); [lia|reflexivity].
    + assert (seg = 0) as -> by lia. rewrite Z.mul_0_l, Z.add_0_l. destruct (Nat.lt_ge_cases l (2 ^ effective_log_seg s)) as [Hsm|Hla].
      * pose proof (resident_slot s slots 0 l Hs Hb Hev Hsm) as R. rewrite Z.mul_0_l, Z.add_0_l in R. rewrite <- R.
        destruct (try_get_segment_columns s 0) as [cols|] eqn:Ec; [|reflexivity]. rewrite (L cols eq_refl) by lia.
        destruct (Nat.leb_spec (2 ^ effective_log_seg s) l); [lia|reflexivity].
      * assert (Hout : slots (Z.of_nat l) = EMPTY).
        { apply (ok_outside _ _ Hs). fold s. rewrite <- E2. pose proof (Nat2Z.inj_pow 2 (effective_log_seg s)). lia. }
        rewrite Hout. destruct (try_get_segment_columns s 0) as [cols|] eqn:Ec; [|reflexivity]. rewrite (L cols eq_refl) by lia.
        destruct (Nat.leb_spec (2 ^ effective_log_seg s) l); [reflexivity|lia].
Qed.

Lemma position_parts seg i : 0 <= i < 2 ^ Z.of_nat eff ->
  (seg * 2 ^ Z.of_nat eff + i) / 2 ^ Z.of_nat eff = seg /\ (seg * 2 ^ Z.of_nat eff + i) mod 2 ^ Z.of_nat eff = i.
Proof.
  intros Hi. split.
  - symmetry. apply (Z.div_unique_pos _ _ _ i); lia.
  - symmetry. apply (Z.mod_unique_pos _ _ seg i); lia.
Qed.

(** The slots of a segment after the updates. *)
Lemma updated_read seg local i : groups !! seg = Some local -> 0 <= i < 2 ^ Z.of_nat eff ->
  default (slots (seg * 2 ^ Z.of_nat eff + i)) (local !! i) = write_slots slots updates (seg * 2 ^ Z.of_nat eff + i).
Proof.
  intros Eg Hi. pose proof (groups_range seg local Eg) as Hr. pose proof (pow2_gt0 eff).
  rewrite canonical_lookup, <- groups_lookup by nia. unfold grouped. destruct (position_parts seg i Hi) as [-> ->]. now rewrite Eg.
Qed.

(** A segment no update touches keeps its root. *)
Lemma untouched_segment seg : 0 <= seg -> groups !! seg = None ->
  segment_roots_of (D := D) slots log seg = segment_roots_of (write_slots slots updates) log seg.
Proof.
  intros Hseg Eg. unfold segment_roots_of. fold eff. apply tree_local. intros i Hi. f_equal. rewrite canonical_lookup.
  pose proof (pow2_gt0 eff). rewrite <- groups_lookup by nia. unfold grouped.
  replace (i / 2 ^ Z.of_nat eff) with seg by (apply (Z.div_unique_pos _ _ _ (i - seg * 2 ^ Z.of_nat eff)); lia).
  rewrite Eg. cbn [from_option id]. now rewrite lookup_empty.
Qed.

Lemma overlay_segment_ok r seg local : (seg < Z.of_nat (num_segments s) -> seg ∉ evicted s) -> groups !! seg = Some local ->
  overlay_segment c eff r (seg, local) = Return (set_segment_root r seg (segment_roots_of (write_slots slots updates) log seg)).
Proof.
  intros Hev Eg. destruct (groups_elem seg local Eg) as [_ Hl]. pose proof (groups_range seg local Eg) as Hr.
  assert (Hroot : forall f : Z -> SlotValue, (forall i, 0 <= i < 2 ^ Z.of_nat eff -> f i = write_slots slots updates (seg * 2 ^ Z.of_nat eff + i)) ->
    tree hnode (fun i => hleaf (f i)) eff 0 = segment_roots_of (D := D) (write_slots slots updates) log seg).
  { intros f Hf. unfold segment_roots_of. fold eff. rewrite <- (Z.add_0_r seg) at 1.
    rewrite <- (tree_shift hnode (fun i => hleaf (write_slots slots updates i)) eff seg 0). apply tree_local. intros i Hi. f_equal. apply Hf. lia. }
  unfold overlay_segment. fold s. cbn [fst snd].
  assert (Ecols : (if (num_segments s <=? Z.to_nat seg)%nat then mret None
      else if is_evicted s seg then Fail (TransitionStateRead (EvictedSegment seg)) else mret (try_get_segment_columns s seg))
    = Return (E := ApplyExactTransitionError) (base_columns seg)).
  { unfold base_columns. destruct (Nat.leb_spec (num_segments s) (Z.to_nat seg)); [reflexivity|]. unfold is_evicted.
    rewrite bool_decide_eq_false_2 by (apply Hev; lia). reflexivity. }
  rewrite Ecols. cbn [mbind exec_bind].
  assert (Hstream : exact_segment_root_with_updates eff (base_columns seg) local
    = Some (segment_roots_of (write_slots slots updates) log seg)).
  { rewrite segment_root_ok by (destruct eff_range; lia). f_equal. apply Hroot. intros i Hi. rewrite <- (updated_read seg local i Eg Hi).
    pose proof (base_read seg (Z.to_nat i) ltac:(lia) Hev ltac:(apply Nat2Z.inj_lt; rewrite Nat2Z.inj_pow; lia)) as B.
    unfold updated_slot in *. rewrite lookup_empty in B. rewrite Z2Nat.id in B |- * by lia. destruct (local !! i); [reflexivity|]. exact B. }
  destruct (cached_exact_segment_tree s seg) as [t|] eqn:Et; cbn [mbind option_bind]; [|rewrite Hstream; reflexivity].
  destruct (Nat.eqb_spec (hot_log_slots t) eff) as [El|]; [|rewrite Hstream; reflexivity].
  apply lru_get_elem in Et; [|apply Hs]. destruct (ok_hot _ _ Hs seg t Et) as (Hb & _ & Hh). fold s in Hh.
  assert (Ee : effective_log_seg s = eff) by (rewrite <- El; symmetry; apply Hh). rewrite Ee in Hh.
  rewrite (root_with_updates_ok t eff (fun i => slots (seg * 2 ^ Z.of_nat eff + i)) local Hh Hl). cbn [expect mbind exec_bind mret exec_ret].
  do 2 f_equal. apply Hroot. intros i Hi. unfold patch. now apply updated_read.
Qed.

(** *** All segments *)

Let after := write_slots slots updates.

Lemma touched_group u : u ∈ updates -> is_Some (groups !! (u.1 / 2 ^ Z.of_nat eff)).
Proof.
  intros Hin. pose proof (proj1 (Forall_forall _ _) Hu u Hin) as Hu0. cbv beta in Hu0. pose proof (canonical_covers updates u Hin) as Hc.
  rewrite <- groups_lookup in Hc by lia. unfold grouped in Hc. destruct (groups !! _); [eauto|]. cbn [from_option id] in Hc.
  rewrite lookup_empty in Hc. now destruct Hc.
Qed.

Lemma groups_resident seg local : touched_resident -> groups !! seg = Some local -> seg < Z.of_nat (num_segments s) -> seg ∉ evicted s.
Proof. intros Ht Eg. destruct (groups_elem seg local Eg) as [(u & Hin & ->) _]. now apply Ht. Qed.

Lemma overlay_all entries : touched_resident -> (forall seg local, (seg, local) ∈ entries -> groups !! seg = Some local) ->
  forall r g, roots_ok r log g ->
  (forall seg, 0 <= seg < 2 ^ Z.of_nat (log - eff) -> seg ∉ entries.*1 -> g seg = segment_roots_of after log seg) ->
  exists r', foldl (fun acc u => r ← acc; overlay_segment c eff r u) (mret r) entries = Return r'
    /\ roots_ok r' log (segment_roots_of after log).
Proof.
  intros Ht. induction entries as [|[seg local] entries IH]; intros He r g Hr Hg; cbn [foldl].
  - exists r. split; [reflexivity|]. eapply roots_ext; [|exact Hr]. intros i Hi. apply Hg; [|apply not_elem_of_nil].
    rewrite (ro_count _ _ _ Hr), Nat2Z.inj_pow in Hi. exact Hi.
  - cbn [mret exec_ret mbind exec_bind]. unfold exec_ret. pose proof (He seg local ltac:(now left)) as Eg. rewrite (overlay_segment_ok r seg local (groups_resident seg local Ht Eg) Eg).
    pose proof (groups_range seg local Eg) as Hseg.
    apply (IH ltac:(intros a b Hab; apply He; now right) _ (update_leaf g seg (segment_roots_of after log seg))).
    + apply set_segment_root_ok; [exact Hr|]. rewrite (ro_count _ _ _ Hr), Nat2Z.inj_pow. exact Hseg.
    + intros i Hi Hni. unfold update_leaf. case_decide as Hd; [now subst|]. apply Hg; [exact Hi|]. cbn [fmap list_fmap fst].
      apply not_elem_of_cons. auto.
Qed.

Lemma overlay_evicted r seg local : 0 <= seg < Z.of_nat (num_segments s) -> seg ∈ evicted s ->
  overlay_segment c eff r (seg, local) = Fail (TransitionStateRead (EvictedSegment seg)).
Proof.
  intros Hb He. unfold overlay_segment. fold s. cbn [fst snd]. destruct (Nat.leb_spec (num_segments s) (Z.to_nat seg)); [lia|].
  unfold is_evicted. now rewrite bool_decide_eq_true_2.
Qed.

Lemma fold_fail {E A B} (f : B -> A -> exec E B) l e : foldl (fun acc u => r ← acc; f r u) (Fail e) l = Fail e.
Proof. induction l as [|x l IH]; [reflexivity|]. exact IH. Qed.

(** A group of an evicted segment stops the derivation. *)
Lemma overlay_stops : ~ touched_resident -> forall r,
  exists seg, foldl (fun acc u => r ← acc; overlay_segment c eff r u) (mret r) (btree_entries groups)
    = Fail (TransitionStateRead (EvictedSegment seg)).
Proof.
  intros Hn. assert (Hbad : exists seg local, (seg, local) ∈ btree_entries groups /\ seg < Z.of_nat (num_segments s) /\ seg ∈ evicted s).
  { destruct (decide (Forall (fun e : Z * gmap Z SlotValue => ~ (e.1 < Z.of_nat (num_segments s) /\ e.1 ∈ evicted s)) (btree_entries groups))) as [Ha|Ha].
    - exfalso. apply Hn. intros u Hin Hlt He. rewrite Forall_forall in Ha.
      destruct (touched_group u Hin) as [local Hg]. apply btree_elem in Hg. exact (Ha _ Hg (conj Hlt He)).
    - apply not_Forall_Exists in Ha; [|intros x; apply _]. apply Exists_exists in Ha as ([seg local] & Hin & Hb). cbn [fst] in Hb.
      exists seg, local. split; [exact Hin|]. destruct (decide (seg < Z.of_nat (num_segments s))), (decide (seg ∈ evicted s)); [auto|exfalso; apply Hb; tauto..]. }
  destruct Hbad as (bad & local & Hin & Hlt & He). revert Hin.
  assert (Hall : forall a b, (a, b) ∈ btree_entries groups -> groups !! a = Some b) by (intros a b; apply btree_elem). revert Hall.
  generalize (btree_entries groups). intros l. induction l as [|[seg loc] l IH]; intros Hall Hin r; [now apply not_elem_of_nil in Hin|].
  cbn [foldl mret exec_ret mbind exec_bind]. unfold exec_ret. pose proof (Hall seg loc ltac:(now left)) as Eg. pose proof (groups_range seg loc Eg) as Hr.
  destruct (decide (seg < Z.of_nat (num_segments s) /\ seg ∈ evicted s)) as [[H1 H2]|Hno].
  - rewrite overlay_evicted by (assumption || lia). rewrite fold_fail. eauto.
  - apply elem_of_cons in Hin as [[= <- <-]|Hin]; [tauto|].
    rewrite overlay_segment_ok; [|tauto|exact Eg]. apply IH; [|exact Hin]. intros a b Hab. apply Hall. now right.
Qed.

(** ** The derived root *)

Context (Hr : rooted c slots) (Hdirty : forall seg, seg ∈ exact_dirty s -> seg ∉ evicted s).

Lemma refresh_copy_ok : exists r, refresh_copy c = Return r /\ roots_ok r (log_slots s) (segment_roots_of slots (log_slots s)).
Proof.
  destruct Hr as [_ (g & Hg1 & Hg2) Hd]. fold s in Hg1, Hg2, Hd. unfold refresh_copy. cbn zeta. fold s.
  assert (Hids : Forall (fun seg => 0 <= seg < Z.of_nat (num_segments s) /\ seg ∉ evicted s) (elements (exact_dirty s))).
  { apply Forall_forall. intros seg Hin%elem_of_elements. auto. }
  assert (Hrest : forall seg, 0 <= seg < Z.of_nat (num_segments s) -> seg ∉ elements (exact_dirty s) -> g seg = segment_roots_of slots (log_slots s) seg).
  { intros seg Hb Hni. apply Hg2; [exact Hb|]. now rewrite <- elem_of_elements. }
  revert Hids Hrest. generalize (elements (exact_dirty s)). intros ids. clear Hg2 Hd. revert g Hg1. generalize (cs_exact_roots c).
  induction ids as [|id ids IH]; intros r g Hg1 Hids Hrest; cbn [foldl].
  - exists r. split; [reflexivity|]. eapply roots_ext; [|exact Hg1]. intros i Hi. rewrite (roots_count s slots r g Hs Hg1) in Hi.
    apply Hrest; [exact Hi|apply not_elem_of_nil].
  - apply Forall_cons in Hids as [[Hb Hev] Hids]. unfold is_evicted at 2. cbn [mret exec_ret mbind exec_bind].
    rewrite bool_decide_eq_false_2 by exact Hev.
    pose proof (tree_shift hnode (fun i => hleaf (slots i)) (effective_log_seg s) id 0) as T. rewrite Z.add_0_r in T.
    rewrite (segment_tree s slots id Hs) in T.
    match goal with |- context [match cached_exact_segment_tree s id with _ => _ end] =>
      assert (Eroot : (match cached_exact_segment_tree s id with
        | Some t => mret (hot_root t)
        | None => expect (exact_segment_root_with_updates (effective_log_seg s) (try_get_segment_columns s id) ∅)
        end : exec ApplyExactTransitionError D) = Return (segment_roots_of slots (log_slots s) id)) end.
    { destruct (cached_exact_segment_tree s id) as [t|] eqn:Et.
      - apply lru_get_elem in Et; [|apply Hs]. destruct (ok_hot _ _ Hs id t Et) as (_ & _ & Hh).
        cbn [mret exec_ret]. unfold exec_ret. f_equal. rewrite (hot_root_ok t _ _ Hh). exact T.
      - rewrite segment_root_ok by (pose proof (ok_eff _ _ Hs); unfold SEGMENT_LOG in *; lia). cbn [expect]. f_equal. rewrite <- T.
        apply tree_local. intros i Hi. f_equal.
        assert (Hi' : (Z.to_nat i < 2 ^ effective_log_seg s)%nat) by (apply Nat2Z.inj_lt; rewrite Nat2Z.inj_pow; lia).
        pose proof (resident_slot s slots id (Z.to_nat i) Hs Hb Hev Hi') as R. rewrite Z2Nat.id in R by lia. rewrite <- R.
        unfold updated_slot. rewrite lookup_empty. destruct (try_get_segment_columns s id) as [cols|] eqn:Ec; [|reflexivity].
        destruct (ok_resident _ _ Hs id cols Ec Hb) as (_ & B & _). apply columns_len_iff in B as (-> & _).
        destruct (Nat.leb_spec (2 ^ effective_log_seg s) (Z.to_nat i)); [lia|reflexivity]. }
    rewrite Eroot. cbn [mbind exec_bind mret exec_ret].
    apply (IH _ (update_leaf g id (segment_roots_of slots (log_slots s) id))).
    + apply set_segment_root_ok; [exact Hg1|]. now rewrite (roots_count s slots r g Hs Hg1).
    + exact Hids.
    + intros seg Hseg Hni. unfold update_leaf. case_decide as Hd; [now subst|]. apply Hrest; [exact Hseg|]. apply not_elem_of_cons. auto.
Qed.

Lemma after_expansion r : roots_ok r (log_slots s) (segment_roots_of slots (log_slots s)) ->
  roots_ok (if (log_slots s <? log)%nat then roots_expand_one r else r) log (segment_roots_of (D := D) slots log).
Proof.
  intros H. destruct (Nat.ltb_spec (log_slots s) log).
  - replace log with (S (log_slots s)) by lia. apply roots_expand_ok; [exact H|]. intros i Hi. apply (ok_outside _ _ Hs). fold s. lia.
  - now replace log with (log_slots s) by lia.
Qed.

(** The derivation fails exactly when the stored root is stale or a touched
    segment is not in memory; otherwise it gives the root of the updated slots. *)
Lemma root_after_cases :
  match exact_utxo_root_after_slot_updates c log updates with
  | Return root => cs_utxo_root c = state_root slots (log_slots s) /\ touched_resident /\ root = state_root after log
  | Fail _ => cs_utxo_root c <> state_root slots (log_slots s) \/ ~ touched_resident
  | Panic => False
  end.
Proof.
  unfold exact_utxo_root_after_slot_updates. cbn zeta. fold s eff.
  destruct (Nat.ltb_spec log (log_slots s)); [lia|]. destruct (Nat.ltb_spec (log_slots s + 1) log); [lia|]. cbn [orb].
  assert (E64 : checked_shl1 64 (Z.of_nat log) = Some (2 ^ Z.of_nat log)).
  { unfold checked_shl1. destruct (Z.ltb_spec (Z.of_nat log) 64); [reflexivity|lia]. }
  rewrite E64. cbn [ok_or lift mbind exec_bind].
  rewrite (proj2 (group_updates_iff (2 ^ Z.of_nat log) eff updates ∅ groups)).
  2:{ split; [|reflexivity]. eapply Forall_impl; [exact Hu|]. cbv beta. lia. }
  cbn [lift mbind exec_bind]. destruct refresh_copy_ok as (r & E & Hro). rewrite E. cbn [mbind exec_bind].
  pose proof (roots_root_ok _ _ _ Hro) as Hroot. rewrite roots_of_root in Hroot.
  destruct (bool_decide_reflect (roots_root r = cs_utxo_root c)) as [Eq|Ne]; cbn [negb]; [|left; unfold state_root; congruence].
  assert (Hold : cs_utxo_root c = state_root slots (log_slots s)) by (unfold state_root; congruence).
  pose proof (after_expansion r Hro) as Hx. set (rx := if (log_slots s <? log)%nat then _ else _) in *. clearbody rx.
  destruct (decide (Forall (fun e : Z * gmap Z SlotValue => e.1 < Z.of_nat (num_segments s) -> e.1 ∉ evicted s) (btree_entries groups))) as [Ha|Ha].
  - assert (Ht : touched_resident).
    { intros u Hin Hlt. rewrite Forall_forall in Ha. destruct (touched_group u Hin) as [local Hg]. apply btree_elem in Hg. exact (Ha _ Hg Hlt). }
    destruct (overlay_all (btree_entries groups) Ht (fun a b => proj1 (btree_elem _ a b)) rx _ Hx) as (r' & E' & Hr').
    + intros seg Hb Hni. apply untouched_segment; [lia|]. destruct (groups !! seg) as [local|] eqn:Eg; [|reflexivity].
      apply btree_elem in Eg. apply (list_elem_of_fmap_2 fst) in Eg. contradiction.
    + rewrite E'. cbn [mbind exec_bind mret exec_ret]. split; [exact Hold|]. split; [exact Ht|].
      rewrite (roots_root_ok _ _ _ Hr'). apply roots_of_root.
  - destruct (overlay_stops) with (r := rx) as [seg E'].
    { intros Ht. apply Ha, Forall_forall. intros [seg local] Hin. apply btree_elem in Hin. exact (groups_resident seg local Ht Hin). }
    rewrite E'. cbn [mbind exec_bind]. right. intros Ht. apply Ha, Forall_forall. intros [sg local] Hin. apply btree_elem in Hin.
    exact (groups_resident sg local Ht Hin).
Qed.

End Transition.

(** ** Expansion *)

Section Expansion.
Context {D : Type} `{!ExactHash D} `{!RawCommit D}.
Implicit Types (c : ChainState (D := D)) (slots : Z -> SlotValue).

Lemma sealed_roots c slots : rooted c slots -> exact_dirty (cs_state c) = ∅ ->
  roots_ok (cs_exact_roots c) (log_slots (cs_state c)) (segment_roots_of slots (log_slots (cs_state c))).
Proof.
  intros [Hs (g & Hr & Hg) _] Hd. eapply roots_ext; [|exact Hr]. intros i Hi. rewrite (roots_count _ _ _ _ Hs Hr) in Hi.
  apply Hg; [exact Hi|]. rewrite Hd. apply not_elem_of_empty.
Qed.

(** The old tree becomes the left child, an empty one the right child. *)
Lemma state_root_grow slots log : (forall i, 2 ^ Z.of_nat log <= i -> slots i = EMPTY) ->
  hnode (state_root slots log) (zero_root (D := D) log) = state_root slots (S log).
Proof.
  intros He. unfold state_root. cbn [tree]. f_equal. symmetry. apply empty_subtree. intros i Hi. apply He. lia.
Qed.

Lemma outside_empty (s : SegmentedFriState (D := D)) slots : state_ok s slots -> forall i, 2 ^ Z.of_nat (log_slots s) <= i -> slots i = EMPTY.
Proof. intros Hs i Hi. apply (ok_outside _ _ Hs). lia. Qed.

(** What an expansion keeps. *)
Record grown c c' : Prop := {
  gr_log : log_slots (cs_state c') = S (log_slots (cs_state c));
  gr_evicted : evicted (cs_state c') = evicted (cs_state c);
  gr_active : cs_active_slot_count c' = cs_active_slot_count c;
  gr_alloc : cs_alloc_counter c' = cs_alloc_counter c;
  gr_supply : cs_circulating_supply c' = cs_circulating_supply c
}.

Lemma expand_roots_ok c slots s' : rooted c slots -> sealed c slots -> state_ok s' slots -> log_slots s' = S (log_slots (cs_state c)) ->
  exact_dirty s' = ∅ ->
  let c' := with_roots c s' (roots_expand_one (cs_exact_roots c)) (hnode (cs_utxo_root c) (zero_root (log_slots (cs_state c)))) in
  rooted c' slots /\ sealed c' slots.
Proof.
  intros Hr [Hd Hroot] Hs' Hl Hd'. cbn zeta. pose proof (rt_state _ _ Hr) as Hs. split.
  - constructor; cbn [with_roots cs_state cs_exact_roots]; [exact Hs'| |].
    + rewrite Hl. eexists. split; [apply roots_expand_ok; [exact (sealed_roots c slots Hr Hd)|exact (outside_empty _ slots Hs)]|]. reflexivity.
    + rewrite Hd'. intros seg Hin. now apply not_elem_of_empty in Hin.
  - split; [exact Hd'|]. cbn [with_roots cs_state cs_utxo_root]. rewrite Hl, Hroot. apply state_root_grow. exact (outside_empty _ slots Hs).
Qed.

Lemma expand_metadata_ok c slots : rooted c slots -> sealed c slots -> (SEGMENT_LOG <= log_slots (cs_state c) < 32)%nat ->
  exists c', chain_expand_metadata c = Ok c' /\ rooted c' slots /\ sealed c' slots /\ grown c c'.
Proof.
  intros Hr Hse Hl. destruct (expand_replay_ok (cs_state c) slots (rt_state _ _ Hr) Hl) as (s' & E & Hs' & L & Hd & Hev).
  unfold chain_expand_metadata. rewrite E. cbn [mbind result_bind]. eexists. split; [reflexivity|].
  destruct (expand_roots_ok c slots s' Hr Hse Hs' L) as [A B]; [rewrite Hd; apply Hse|]. split; [exact A|]. split; [exact B|]. now constructor.
Qed.

(** The segments the single-segment expansion rehashes are in memory. *)
Definition rehashable c : Prop :=
  (log_slots (cs_state c) < SEGMENT_LOG)%nat -> forall seg, seg ∈ {[0]} ∪ dirty (raw (cs_state c)) -> seg ∉ evicted (cs_state c).

Lemma expand_one_ok c slots : rooted c slots -> sealed c slots -> (log_slots (cs_state c) < 32)%nat -> rehashable c ->
  exists c', expand_one c = Some c' /\ rooted c' slots /\ sealed c' slots /\ grown c c'.
Proof.
  intros Hr Hse Hl Hev. pose proof Hse as [Hd Hroot]. destruct (expand_ok (cs_state c) slots (rt_state _ _ Hr) Hl Hev) as (s' & E & Hs' & L & Hev' & Hd').
  unfold expand_one. cbn zeta. rewrite E. cbn [mbind option_bind]. pose proof (sealed_roots c slots Hr Hd) as Hro.
  rewrite (bool_decide_eq_true_2 (exact_dirty (cs_state c) = ∅)) by exact Hd. rewrite (ro_log _ _ _ Hro), Nat.eqb_refl.
  rewrite (bool_decide_eq_true_2 (roots_root _ = _)).
  2:{ rewrite (roots_root_ok _ _ _ Hro), roots_of_root. symmetry. exact Hroot. }
  cbn [andb]. eexists. split; [reflexivity|].
  destruct (expand_roots_ok c slots (clear_exact_dirty s') Hr Hse (clear_exact_ok s' slots Hs') L eq_refl) as [A B].
  split; [exact A|]. split; [exact B|]. now constructor.
Qed.

(** ** The transition *)

Context (Hcap : forall cols, 0 <= column_capacity (D := D) cols).

Lemma touched_writable c c1 slots log updates : state_ok (cs_state c) slots -> state_ok (cs_state c1) slots -> log_slots (cs_state c1) = log ->
  (log_slots (cs_state c) <= log <= log_slots (cs_state c) + 1)%nat ->
  evicted (cs_state c1) = evicted (cs_state c) -> Forall (fun u : Z * SlotValue => 0 <= u.1 < 2 ^ Z.of_nat log) updates ->
  touched_resident c log updates -> writable (cs_state c1) updates.
Proof.
  intros Hs Hs1 L Hlog Hev Hu Ht. apply Forall_forall. intros u Hin. pose proof (proj1 (Forall_forall _ _) Hu u Hin) as Hb. cbv beta in Hb.
  assert (Hr : 0 <= u.1 < num_slots (cs_state c1)) by (unfold num_slots; now rewrite L). split; [exact Hr|].
  destruct (position_of (cs_state c1) slots Hs1 u.1 Hr) as (E & _). rewrite E, Hev, (ok_eff _ _ Hs1), L. intros He.
  pose proof (ok_evicted _ _ Hs _ He) as Hlt. exact (Ht u Hin (proj2 Hlt) He).
Qed.

Lemma touched_supply c slots log updates : state_ok (cs_state c) slots -> (log_slots (cs_state c) <= log <= log_slots (cs_state c) + 1)%nat ->
  Forall (fun u : Z * SlotValue => 0 <= u.1 < 2 ^ Z.of_nat log) updates -> touched_resident c log updates ->
  Forall (fun u => 0 <= u.1 < 2 ^ Z.of_nat log
    /\ (u.1 < num_slots (cs_state c) -> seg_id_of (cs_state c) u.1 ∉ evicted (cs_state c))) updates.
Proof.
  intros Hs Hlog Hu Ht. apply Forall_forall. intros u Hin. pose proof (proj1 (Forall_forall _ _) Hu u Hin) as Hb. cbv beta in Hb.
  split; [exact Hb|]. intros Hlt He. destruct (position_of (cs_state c) slots Hs u.1 ltac:(lia)) as (E & _ & Hseg & _). rewrite E in He, Hseg.
  destruct (geometry c slots log Hs Hlog) as [Eg|(E1 & E2 & E3 & E4)].
  - rewrite <- Eg in He, Hseg. exact (Ht u Hin (proj2 Hseg) He).
  - assert (E0 : u.1 / 2 ^ Z.of_nat (effective_log_seg (cs_state c)) = 0) by (rewrite E1 in Hseg; lia). rewrite E0 in He.
    assert (E0' : u.1 / 2 ^ Z.of_nat (Nat.min log SEGMENT_LOG) = 0) by (apply Z.div_small; rewrite <- E4; exact Hb).
    apply (Ht u Hin); rewrite E0'; [rewrite E1; lia|exact He].
Qed.

(** A verified transition either installs the updated slots under the root the
    header commits to, or leaves the state alone. *)
Lemma transition_cases c slots log child updates active alloc : rooted c slots -> sealed c slots ->
  cs_circulating_supply c = money slots (log_slots (cs_state c)) -> rehashable c ->
  (log_slots (cs_state c) <= log <= log_slots (cs_state c) + 1)%nat -> (log <= 32)%nat ->
  Forall (fun u : Z * SlotValue => 0 <= u.1 < 2 ^ Z.of_nat log) updates ->
  let after := write_slots slots updates in
  match apply_verified_exact_transition c log child updates active alloc with
  | Some (Ok root, c') => touched_resident c log updates /\ root = child /\ child = state_root after log
      /\ rooted c' after /\ sealed c' after /\ log_slots (cs_state c') = log
      /\ cs_circulating_supply c' = money after log /\ cs_active_slot_count c' = active /\ cs_alloc_counter c' = alloc
  | Some (Err _, c') => c' = c /\ ~ (touched_resident c log updates /\ child = state_root after log)
  | None => False
  end.
Proof.
  intros Hr Hse Hm Hre Hlog H32 Hu. cbn zeta. pose proof (rt_state _ _ Hr) as Hs. destruct Hse as [Hd Hroot]. pose proof (conj Hd Hroot) as Hse.
  unfold apply_verified_exact_transition. cbn zeta.
  destruct (Nat.ltb_spec log (log_slots (cs_state c))); [lia|]. destruct (Nat.ltb_spec (log_slots (cs_state c) + 1) log); [lia|]. cbn [orb].
  assert (E64 : checked_shl1 64 (Z.of_nat log) = Some (2 ^ Z.of_nat log)).
  { unfold checked_shl1. destruct (Z.ltb_spec (Z.of_nat log) 64); [reflexivity|lia]. }
  rewrite E64. replace (existsb _ updates) with false.
  2:{ symmetry. apply not_true_iff_false. rewrite existsb_exists. intros (u & Hin & Hle). apply list_elem_of_In in Hin.
      pose proof (proj1 (Forall_forall _ _) Hu u Hin) as Hb. cbv beta in Hb. apply Z.leb_le in Hle. lia. }
  pose proof (root_after_cases c slots log updates Hs Hlog H32 Hu Hr ltac:(rewrite Hd; intros seg Hin; now apply not_elem_of_empty in Hin)) as Ha.
  destruct (exact_utxo_root_after_slot_updates c log updates) as [root|e|]; [|split; [reflexivity|]; tauto|exact Ha].
  destruct Ha as (_ & Ht & ->). destruct (bool_decide_reflect (state_root (write_slots slots updates) log = child)) as [<-|Hne]; cbn [negb].
  2:{ split; [reflexivity|]. intros [_ Hc]. congruence. }
  rewrite (supply_after_ok c slots updates log Hs Hm ltac:(lia) (touched_supply c slots log updates Hs Hlog Hu Ht)).
  assert (Hx : exists c1, (if (log =? log_slots (cs_state c) + 1)%nat
      then (if (SEGMENT_LOG <=? log_slots (cs_state c))%nat
            then Some (map_err (fun _ => HeaderLogSlotsMismatch) (chain_expand_metadata c))
            else c' ← expand_one c; Some (Ok c'))
      else Some (Ok c)) = Some (Ok c1) /\ rooted c1 slots /\ sealed c1 slots /\ log_slots (cs_state c1) = log
      /\ evicted (cs_state c1) = evicted (cs_state c)).
  { destruct (Nat.eqb_spec log (log_slots (cs_state c) + 1)) as [El|Nl].
    - destruct (Nat.leb_spec SEGMENT_LOG (log_slots (cs_state c))).
      + destruct (expand_metadata_ok c slots Hr Hse ltac:(lia)) as (c1 & E & A & B & [G1 G2 _ _ _]). rewrite E. exists c1. split; [reflexivity|].
        split; [exact A|]. split; [exact B|]. split; [lia|exact G2].
      + destruct (expand_one_ok c slots Hr Hse ltac:(lia) Hre) as (c1 & E & A & B & [G1 G2 _ _ _]). rewrite E. exists c1. split; [reflexivity|].
        split; [exact A|]. split; [exact B|]. split; [lia|exact G2].
    - exists c. split; [reflexivity|]. split; [exact Hr|]. split; [exact Hse|]. split; [lia|reflexivity]. }
  destruct Hx as (c1 & -> & Hr1 & [Hd1 _] & L1 & Hev1).
  assert (Hw : writable (cs_state c1) updates) by exact (touched_writable c c1 slots log updates Hs (rt_state _ _ Hr1) L1 Hlog Hev1 Hu Ht).
  destruct (write_rooted c1 slots updates Hr1 Hw) as (s2 & E2 & Hr2 & W). rewrite E2.
  destruct (try_state_root_ok Hcap (with_state c1 s2) _ Hr2) as (c3 & E3 & Hr3 & Hse3 & [S1 S2 S3 S4 S5 S6 S7]).
  { apply (write_dirty_resident _ _ _ _ W Hw). rewrite Hd1. intros seg Hin. now apply not_elem_of_empty in Hin. }
  cbn [with_state cs_state] in E3, S1. rewrite (wa_log _ _ _ _ W), L1 in E3, S1. rewrite E3.
  split; [exact Ht|]. split; [reflexivity|]. split; [reflexivity|].
  split; [destruct Hr3; constructor; assumption|]. split; [exact Hse3|]. split; [exact S1|]. auto.
Qed.

End Expansion.

(** ** Properties *)

(** C11. Verified transitions are exact and atomic.  On a sealed chain state whose
    supply is the sum of its slots, for slot updates inside the target domain (the
    current one or its double), the transition never panics.  It succeeds precisely
    when the touched segments are in memory and the child root of the header is
    the Merkle root of the updated slots in the target domain; the new state then
    holds the updated slots, is sealed under that root, and its supply is their
    sum.  Every failure leaves the state as it was. *)
Theorem verified_transition_exact {R : RawCommit StateHash} (c : ChainState (D := StateHash)) (slots : Z -> SlotValue)
    (log : nat) (child : StateHash) (updates : list (Z * SlotValue)) (active alloc : Z) :
  (forall cols, 0 <= column_capacity cols) -> rooted c slots -> sealed c slots ->
  cs_circulating_supply c = money slots (log_slots (cs_state c)) -> rehashable c ->
  (log_slots (cs_state c) <= log <= log_slots (cs_state c) + 1)%nat -> (log <= 32)%nat ->
  Forall (fun u => 0 <= u.1 < 2 ^ Z.of_nat log) updates ->
  let after := write_slots slots updates in
  match apply_verified_exact_transition c log child updates active alloc with
  | Some (Ok root, c') => touched_resident c log updates /\ root = child /\ child = state_root after log
      /\ rooted c' after /\ sealed c' after /\ log_slots (cs_state c') = log
      /\ cs_circulating_supply c' = money after log /\ cs_active_slot_count c' = active /\ cs_alloc_counter c' = alloc
  | Some (Err _, c') => c' = c /\ ~ (touched_resident c log updates /\ child = state_root after log)
  | None => False
  end.
Proof. intros Hcap. exact (transition_cases Hcap c slots log child updates active alloc). Qed.

Lemma verified_transition_witness :
  let updates := [(6, from_parts 5 1 2 3)] in
  let after := write_slots (fun _ => EMPTY) updates in
  exists c : ChainState (D := StateHash), with_log_slots (RawCommit0 := null_commit) 2 = Some c
  /\ match apply_verified_exact_transition (RawCommit0 := null_commit) c 3 (state_root after 3) updates 1 1 with
     | Some (Ok root, c') => touched_resident c 3 updates /\ root = state_root after 3 /\ state_root after 3 = state_root after 3
         /\ rooted c' after /\ sealed c' after /\ log_slots (cs_state c') = 3%nat
         /\ cs_circulating_supply c' = money after 3 /\ cs_active_slot_count c' = 1 /\ cs_alloc_counter c' = 1
     | Some (Err _, c') => c' = c /\ ~ (touched_resident c 3 updates /\ state_root after 3 = state_root after 3)
     | None => False
     end.
Proof.
  intros updates after. destruct (with_log_slots_ok (RawCommit0 := null_commit) (D := StateHash) 2 ltac:(lia)) as (c & E & Hc & Hse & L & Hev & _).
  exists c. split; [exact E|].
  apply (verified_transition_exact (R := null_commit) c (fun _ => EMPTY) 3 (state_root after 3) updates 1 1);
    [intros cols; cbn; lia|apply Hc|exact Hse|apply Hc|intros _ seg _; rewrite Hev; apply not_elem_of_empty|rewrite L; lia|lia|].
  unfold updates. repeat constructor; cbn; lia.
Defined.
