(* ===== verification/Frontier.v ===== *)
(** * The exact-state sibling frontier ([exact_frontier_siblings] of
    [noid_chain/src/state.rs])

    The siblings read from hot trees, resident columns and the compact upper tree
    are the multiproof of the slots. *)

From Stdlib Require Import ZArith Lia Bool Sorted.
From stdpp Require Import base numbers list option gmap sorting.
From S2P Require Import Prelude Params Merkle SparseMerkle StateTree HeapTree HotSegments StreamRoot Segmented Resize ChainState ChainInvariant Transition.
Open Scope Z_scope.

Section Siblings.
Context {D : Type} `{!ExactHash D} `{!RawCommit D}.
Implicit Types (c : ChainState (D := D)) (slots : Z -> SlotValue).

Lemma collect_ok {E A B} (f : A -> exec E B) (g : A -> B) l : (forall x, x ∈ l -> f x = Return (g x)) -> collect f l = Return (g <$> l).
Proof.
  induction l as [|x l IH]; intros H; [reflexivity|]. cbn [collect]. rewrite H by now left. cbn [mbind exec_bind].
  rewrite IH by (intros y Hy; apply H; now right). reflexivity.
Qed.

(** The segment of a node below the segment roots, and its place in it. *)
Lemma node_segment (eff l : nat) p i : (l < eff)%nat -> p / 2 = i / 2 ^ Z.of_nat (S l) ->
  p / 2 ^ Z.of_nat (eff - l) = i / 2 ^ Z.of_nat eff.
Proof.
  intros Hl E. replace (Z.of_nat (eff - l)) with (1 + Z.of_nat (eff - l - 1)) by lia.
  rewrite Z.pow_add_r, <- Z.div_div by (try lia; apply Z.pow_pos_nonneg; lia). change (2 ^ 1) with 2. rewrite E.
  pose proof (pow2_gt0 (S l)). pose proof (pow2_gt0 (eff - l - 1)).
  rewrite Z.div_div, <- Z.pow_add_r by lia. f_equal. f_equal. lia.
Qed.

Lemma sibling_ok c slots l p i : rooted c slots -> exact_dirty (cs_state c) = ∅ -> 0 <= p -> (l < log_slots (cs_state c))%nat ->
  0 <= i < num_slots (cs_state c) -> p / 2 = i / 2 ^ Z.of_nat (S l) -> seg_id_of (cs_state c) i ∉ evicted (cs_state c) ->
  frontier_sibling c (l, p) = Return (tree hnode (fun i => hleaf (slots i)) l p).
Proof.
  intros Hr Hd Hp Hl Hi Hpi Hev. pose proof (rt_state _ _ Hr) as Hs. pose proof (sealed_roots c slots Hr Hd) as Hro.
  set (s := cs_state c) in *. pose proof (ok_eff _ _ Hs) as He. unfold frontier_sibling. fold s. cbn zeta.
  destruct (Nat.leb_spec (effective_log_seg s) l) as [Hup|Hlow].
  - rewrite (segment_node_hash_ok _ (log_slots s) _ (l - effective_log_seg s) p Hro).
    + unfold segment_roots_of. rewrite tree_compose. cbn [mret]. unfold exec_ret. do 2 f_equal. lia.
    + lia.
    + split; [exact Hp|]. rewrite <- He. replace (log_slots s - effective_log_seg s - (l - effective_log_seg s))%nat with (S (log_slots s - S l)) by lia.
      rewrite pow2_S. assert (i / 2 ^ Z.of_nat (S l) < 2 ^ Z.of_nat (log_slots s - S l)).
      { pose proof (pow2_gt0 (S l)). apply Z.div_lt_upper_bound; [lia|]. rewrite <- Z.pow_add_r, <- Nat2Z.inj_add by lia.
        replace (S l + (log_slots s - S l))%nat with (log_slots s) by lia. apply Hi. }
      Z.to_euclidean_division_equations. lia.
  - pose proof (node_segment (effective_log_seg s) l p i Hlow Hpi) as Eseg.
    destruct (position_of s slots Hs i Hi) as (Ei & _ & Hseg & _). rewrite Ei in Hev, Hseg. rewrite <- Eseg in Hev, Hseg.
    set (sh := (effective_log_seg s - l)%nat) in *. pose proof (pow2_gt0 sh) as Psh.
    assert (Hnum : Z.of_nat (num_segments s) <= 2 ^ 16).
    { rewrite (ok_num _ _ Hs), Nat2Z.inj_pow. apply Z.pow_le_mono_r; [lia|]. pose proof (ok_log _ _ Hs). unfold SEGMENT_LOG in *. lia. }
    rewrite Z.shiftr_div_pow2, (Z.mod_small _ (2 ^ 16)) by lia.
    replace (Z.land p (2 ^ Z.of_nat sh - 1)) with (p mod 2 ^ Z.of_nat sh) by (rewrite <- Z.land_ones by lia; f_equal; rewrite Z.ones_equiv; lia).
    set (seg := p / 2 ^ Z.of_nat sh) in *. set (loc := p mod 2 ^ Z.of_nat sh).
    assert (Hloc : 0 <= loc < 2 ^ Z.of_nat sh) by (apply Z.mod_pos_bound; lia).
    assert (Ep : p = seg * 2 ^ Z.of_nat sh + loc) by (unfold seg, loc; pose proof (Z.div_mod p (2 ^ Z.of_nat sh)); lia).
    assert (Epow : 2 ^ Z.of_nat (effective_log_seg s) = 2 ^ Z.of_nat sh * 2 ^ Z.of_nat l).
    { rewrite <- Z.pow_add_r, <- Nat2Z.inj_add by lia. f_equal. lia. }
    unfold is_evicted. rewrite bool_decide_eq_false_2 by exact Hev.
    destruct (cached_exact_segment_tree s seg) as [t|] eqn:Et; cbn [mbind option_bind].
    + apply lru_get_elem in Et; [|apply Hs]. destruct (ok_hot _ _ Hs seg t Et) as (_ & _ & Hh).
      rewrite (subtree_root_ok t _ _ l loc Hh ltac:(lia) Hloc). cbn [mret]. unfold exec_ret. f_equal.
      rewrite (tree_local hnode _ (fun j => hleaf (slots (seg * 2 ^ Z.of_nat sh * 2 ^ Z.of_nat l + j)))).
      * rewrite (tree_shift hnode (fun j => hleaf (slots j)) l (seg * 2 ^ Z.of_nat sh) loc). now rewrite <- Ep.
      * intros j _. rewrite Epow. f_equal. f_equal. lia.
    + rewrite local_root_ok by (pose proof (ok_log _ _ Hs); lia). cbn [expect]. f_equal.
      transitivity (tree hnode (fun j => hleaf (slots (p * 2 ^ Z.of_nat l + j))) l 0).
      * apply tree_local. intros j Hj. f_equal. rewrite Z.shiftl_mul_pow2 by lia.
        pose proof (pow2_gt0 l) as Pl. pose proof (Nat2Z.inj_pow 2 (effective_log_seg s)) as W. change (Z.of_nat 2) with 2 in W.
        assert (Hin : (Z.to_nat (loc * 2 ^ Z.of_nat l) + Z.to_nat j < 2 ^ effective_log_seg s)%nat).
        { apply Nat2Z.inj_lt. rewrite W, Epow, Nat2Z.inj_add, !Z2Nat.id by nia. nia. }
        rewrite (resident_slot s slots seg _ Hs Hseg Hev Hin). f_equal. rewrite Nat2Z.inj_add, !Z2Nat.id by nia. rewrite Epow. nia.
      * rewrite (tree_shift hnode (fun j => hleaf (slots j)) l p 0). f_equal. lia.
Qed.

(** The frontier opens the touched slots under the current root, and under the
    root after any new values for them. *)
Lemma frontier_siblings_ok c slots idx : rooted c slots -> sealed c slots -> indices_ok idx (log_slots (cs_state c)) ->
  Forall (fun i => 0 <= i /\ seg_id_of (cs_state c) i ∉ evicted (cs_state c)) idx ->
  exists siblings, exact_frontier_siblings c idx (log_slots (cs_state c)) = Return siblings
    /\ reconstruct_root hnode idx ((fun i => hleaf (slots i)) <$> idx) siblings (log_slots (cs_state c)) = Return (cs_utxo_root c)
    /\ forall new, length new = length idx ->
         reconstruct_root hnode idx (hleaf <$> new) siblings (log_slots (cs_state c))
         = Return (state_root (write_slots slots (zip idx new)) (log_slots (cs_state c))).
Proof.
  intros Hr [Hd Hroot] Hok Hidx. set (log := log_slots (cs_state c)) in *.
  assert (H0 : Forall (fun i => 0 <= i) idx) by (eapply Forall_impl; [exact Hidx|]; cbv beta; tauto).
  destruct (frontier_exists idx log Hok H0) as (e & ps & Hfr). pose proof Hfr as (_ & _ & _ & Hsh & Hu).
  set (f := fun i => hleaf (slots i)) in *. exists ((fun p : FrontierSiblingPosition => tree hnode f p.1 p.2) <$> ps).
  pose proof (sealed_roots c slots Hr Hd) as Hro. fold log in Hro. split.
  - unfold exact_frontier_siblings. cbn zeta. fold log. rewrite (ro_log _ _ _ Hro), Nat.eqb_refl. cbn [andb negb].
    rewrite (bool_decide_eq_true_2 (exact_dirty _ = ∅)) by exact Hd. rewrite (bool_decide_eq_true_2 (roots_root _ = _)).
    2:{ rewrite (roots_root_ok _ _ _ Hro), roots_of_root. symmetry. exact Hroot. }
    cbn [andb negb]. rewrite (positions_frontier idx log e ps Hfr). cbn [fail_as mbind exec_bind].
    apply collect_ok. intros [l p] Hin. cbn [fst snd].
    destruct (frontier_beside idx log e ps l p Hfr Hin) as (Hl & i & Hi & Hpi). rewrite Forall_forall in Hidx. destruct (Hidx i Hi) as [Hi0 Hev].
    pose proof (proj1 (Forall_forall _ _) (ok_bound _ _ Hok) i Hi) as Hib. cbv beta in Hib.
    apply (sibling_ok c slots l p i Hr Hd); try assumption; [|unfold num_slots; fold log; lia].
    pose proof (Z.div_pos i (2 ^ Z.of_nat (S l)) Hi0 (pow2_gt0 (S l))). Z.to_euclidean_division_equations. lia.
  - assert (G : forall g leaves, length leaves = length idx -> (forall i, i ∉ idx -> g i = f i) ->
      (forall j i, idx !! j = Some i -> leaves !! j = Some (g i)) ->
      reconstruct_root hnode idx leaves ((fun p : FrontierSiblingPosition => tree hnode f p.1 p.2) <$> ps) log = Return (tree hnode g log 0)).
    { intros g leaves Hlen Hg Hlv. set (sib := _ <$> ps). assert (Hs : length sib = length ps) by apply length_fmap.
      destruct (reconstruct_eval idx _ e ps Hfr hnode leaves sib Hlen Hs) as (v & Ev & Er). rewrite Er. f_equal. apply (inj Some). rewrite <- Ev.
      apply matches_eval. apply (matches_honest idx log ps hnode g leaves sib _ 0 e Hsh ltac:(lia) Hlv). intros k l p Ek Hl.
      pose (h (q : FrontierSiblingPosition) := tree hnode f q.1 q.2).
      transitivity (Some (h (l, p))); [exact (eq_trans (list_lookup_fmap h ps k) (f_equal (option_map h) Ek))|]. f_equal.
      symmetry. apply (tree_untouched idx hnode f g l p Hg). now apply (Hu k). }
    split.
    + rewrite (G f) by (first [apply length_fmap|reflexivity|intros j i Ei; now rewrite list_lookup_fmap, Ei]). f_equal. symmetry. exact Hroot.
    + intros new Hn. assert (F : (zip idx new).*1 = idx) by (apply fst_zip; lia).
      apply G; [now rewrite length_fmap|intros i Hi; unfold f; f_equal; apply write_slots_other; now rewrite F|].
      intros j i Ei. destruct (lookup_lt_is_Some_2 new j) as [v' Ev]; [rewrite Hn; now apply lookup_lt_Some in Ei|].
      rewrite list_lookup_fmap, Ev. cbn [fmap option_fmap option_map]. f_equal. f_equal. symmetry.
      apply (write_slots_at slots (zip idx new) j); [rewrite F; exact (sorted_nodup _ (ok_sorted _ _ Hok))|]. apply lookup_zip_Some. auto.
Qed.

End Siblings.

(** C31. The sibling frontier of the chain state is a multiproof.  On a sealed
    chain state, for every valid set of slot indices whose segments are in memory,
    the frontier collected from hot segment trees, resident columns and the compact
    upper tree reconstructs the state root from the current slots, and for any new
    values of those slots the same frontier reconstructs the root of the updated
    state. *)
Theorem frontier_opens_state (c : ChainState (D := StateHash)) (slots : Z -> SlotValue) (idx : list Z) :
  rooted c slots -> sealed c slots -> indices_ok idx (log_slots (cs_state c)) ->
  Forall (fun i => 0 <= i /\ seg_id_of (cs_state c) i ∉ evicted (cs_state c)) idx ->
  exists siblings, exact_frontier_siblings c idx (log_slots (cs_state c)) = Return siblings
    /\ reconstruct_root state_node_hash idx ((fun i => slot_leaf_hash (slots i)) <$> idx) siblings (log_slots (cs_state c)) = Return (cs_utxo_root c)
    /\ forall new, length new = length idx ->
         reconstruct_root state_node_hash idx (slot_leaf_hash <$> new) siblings (log_slots (cs_state c))
         = Return (state_root (write_slots slots (zip idx new)) (log_slots (cs_state c))).
Proof. exact (frontier_siblings_ok c slots idx). Qed.

Lemma frontier_opens_state_witness :
  exists c : ChainState (D := StateHash), with_log_slots (RawCommit0 := null_commit) 3 = Some c
  /\ exists siblings, exact_frontier_siblings c [1; 6] (log_slots (cs_state c)) = Return siblings
    /\ reconstruct_root state_node_hash [1; 6] ((fun _ => slot_leaf_hash EMPTY) <$> [1; 6]) siblings (log_slots (cs_state c)) = Return (cs_utxo_root c)
    /\ forall new, length new = 2%nat ->
         reconstruct_root state_node_hash [1; 6] (slot_leaf_hash <$> new) siblings (log_slots (cs_state c))
         = Return (state_root (write_slots (fun _ => EMPTY) (zip [1; 6] new)) (log_slots (cs_state c))).
Proof.
  destruct (with_log_slots_ok (RawCommit0 := null_commit) (D := StateHash) 3 ltac:(lia)) as (c & E & Hc & Hse & L & Hev & _).
  exists c. split; [exact E|]. apply (frontier_opens_state c (fun _ => EMPTY) [1; 6] (co_rooted _ _ Hc) Hse).
  - rewrite L. constructor; [lia|discriminate|repeat constructor; lia|repeat constructor; cbn; lia].
  - rewrite Hev. repeat constructor; first [lia|apply not_elem_of_empty].
Defined.
