(* ===== verification/Residency.v ===== *)
(** * Construction of the chain state and residency of its segments

    The empty state, construction from sparse slots, from loaded and from evicted
    segments, and the restoration of an evicted segment, authenticated by the
    compact roots ([noid_chain/src/state.rs]). *)

From Stdlib Require Import ZArith Lia Bool Sorted.
From stdpp Require Import base numbers list option gmap sorting.
From S2P Require Import Prelude Params Tx Merkle SparseMerkle StateTree HeapTree HotSegments StreamRoot Segmented Resize ChainState ChainInvariant Transition.
Open Scope Z_scope.

(** ** Equal subtree roots *)

(** The pairs of children compared when two subtrees have the same root. *)
Fixpoint subtree_pairs {D} (node : D -> D -> D) (f g : Z -> D) (l : nat) (p : Z) : list ((D * D) * (D * D)) :=
  match l with
  | O => []
  | S l => ((tree node f l (2 * p), tree node f l (2 * p + 1)), (tree node g l (2 * p), tree node g l (2 * p + 1)))
           :: subtree_pairs node f g l (2 * p) ++ subtree_pairs node f g l (2 * p + 1)
  end.

Lemma subtree_binds {D} `{!EqDecision D} (node : D -> D -> D) f g l p : tree node f l p = tree node g l p ->
  (forall i, p * 2 ^ Z.of_nat l <= i < (p + 1) * 2 ^ Z.of_nat l -> f i = g i)
  \/ Exists (collision node) (subtree_pairs node f g l p).
Proof.
  revert p. induction l as [|l IH]; intros p E.
  - left. intros i Hi. change (2 ^ Z.of_nat 0) with 1 in Hi. assert (i = p) as -> by lia. exact E.
  - cbn [subtree_pairs]. cbn [tree] in E.
    destruct (decide ((tree node f l (2 * p), tree node f l (2 * p + 1)) = (tree node g l (2 * p), tree node g l (2 * p + 1)))) as [Eq|Ne].
    + injection Eq as E1 E2. destruct (IH _ E1) as [H1|H1]; [|right; apply Exists_cons_tl, Exists_app; now left].
      destruct (IH _ E2) as [H2|H2]; [|right; apply Exists_cons_tl, Exists_app; now right].
      left. intros i Hi. rewrite pow2_S in Hi. destruct (Z_lt_ge_dec i ((2 * p + 1) * 2 ^ Z.of_nat l)); [apply H1|apply H2]; lia.
    + right. apply Exists_cons_hd. split; [exact Ne|exact E].
Qed.

Section Residency.
Context {D : Type} `{!ExactHash D} `{!RawCommit D}.
Implicit Types (c : ChainState (D := D)) (slots : Z -> SlotValue).
Context (Hcap : forall cols, 0 <= column_capacity (D := D) cols).

(** ** Sparse slots *)

Lemma check_sparse_iff max_slots alloc live : forall seen, (exists r, fold_result (check_sparse max_slots alloc) seen live = Ok r) <->
  NoDup live.*1 /\ Forall (fun u : Z * SlotValue => u.1 < max_slots /\ u.1 ∉ seen /\ u.2 <> EMPTY
    /\ (is_coinbase_creation_id (creation_id u.2) = true \/ creation_id u.2 <= alloc)) live.
Proof.
  induction live as [|u live IH]; intros seen; cbn [fold_result fmap list_fmap].
  - split; [intros _; split; constructor|eauto].
  - setoid_rewrite bind_ok_iff. rewrite NoDup_cons, Forall_cons. split.
    + intros (r & b & Hb & Hr). unfold check_sparse in Hb. inv_ok. subst b. boolify. apply bool_decide_eq_false in Hok0.
      destruct (proj1 (IH _) (ex_intro _ r Hr)) as (H1 & H2). rewrite Forall_forall in H2.
      assert (Hne : u.2 <> EMPTY) by (unfold is_empty in Hok1; now apply bool_decide_eq_false in Hok1).
      assert (Hid : is_coinbase_creation_id (creation_id u.2) = true \/ creation_id u.2 <= alloc).
      { apply orb_true_iff in Hok2 as [H|H]; [auto|right]. boolify. lia. }
      split; [split; [|exact H1]|split; [auto|]].
      * intros Hin. apply list_elem_of_fmap in Hin as (v & Ev & Hv). destruct (H2 v Hv) as (_ & Hn & _). apply Hn, elem_of_union_l, elem_of_singleton. congruence.
      * apply Forall_forall. intros v Hv. destruct (H2 v Hv) as (A & B & C). split; [exact A|]. split; [intros Hs; apply B; now apply elem_of_union_r|exact C].
    + intros ((H1 & H2) & (H3 & H4 & H5 & H6) & H7). destruct (proj2 (IH ({[u.1]} ∪ seen))) as [r Hr].
      * split; [exact H2|]. rewrite Forall_forall in H7 |- *. intros v Hv. destruct (H7 v Hv) as (A & B & C). split; [exact A|]. split; [|exact C].
        intros Hin. apply elem_of_union in Hin as [Hin|Hin]; [|contradiction]. apply elem_of_singleton in Hin. apply H1. rewrite <- Hin.
        now apply list_elem_of_fmap_2.
      * exists r, ({[u.1]} ∪ seen). split; [|exact Hr]. unfold check_sparse. apply Z.leb_gt in H3. rewrite H3.
        rewrite bool_decide_eq_false_2 by exact H4. unfold is_empty. rewrite bool_decide_eq_false_2 by exact H5. cbn [negb ensure mbind result_bind].
        replace (is_coinbase_creation_id (creation_id u.2) || negb (alloc <? creation_id u.2)) with true; [reflexivity|].
        symmetry. apply orb_true_iff. destruct H6 as [H6|H6]; [auto|right]. apply negb_true_iff, Z.ltb_ge. exact H6.
Qed.

(** What [from_sparse_utxos] accepts. *)
Definition sparse_ok (log : nat) (live : list (Z * SlotValue)) (alloc : Z) : Prop :=
  NoDup live.*1 /\ Forall (fun u : Z * SlotValue => u.1 < 2 ^ Z.of_nat log /\ u.2 <> EMPTY
    /\ (is_coinbase_creation_id (creation_id u.2) = true \/ creation_id u.2 <= alloc)) live.

Lemma write_from_empty f live n : f EMPTY = 0 -> NoDup live.*1 -> Forall (fun d : Z * SlotValue => 0 <= d.1 < n) live ->
  total f (write_slots (fun _ => EMPTY) live) n = Zsum ((fun d => f d.2) <$> live).
Proof.
  intros Hf Hn Hb. rewrite total_writes, total_empty by assumption. rewrite Z.add_0_l. apply Zsum_same. intros d _. rewrite Hf. lia.
Qed.

Lemma from_sparse_cases log live alloc : (1 <= log <= 32)%nat -> Forall (fun u : Z * SlotValue => 0 <= u.1) live ->
  0 <= alloc < 2 ^ 63 -> Forall (fun u : Z * SlotValue => is_coinbase_creation_id (creation_id u.2) = true \/ 1 <= creation_id u.2) live ->
  let after := write_slots (fun _ => EMPTY) live in
  match from_sparse_utxos (D := D) log live alloc with
  | Return c => sparse_ok log live alloc /\ chain_ok c after /\ counted c after /\ sealed c after /\ cs_alloc_counter c = alloc /\ log_slots (cs_state c) = log
  | Fail _ => ~ sparse_ok log live alloc
  | Panic => False
  end.
Proof.
  intros Hlog H0 Ha Hid. cbn zeta. unfold from_sparse_utxos.
  assert (E64 : checked_shl1 64 (Z.of_nat log) = Some (2 ^ Z.of_nat log)).
  { unfold checked_shl1. destruct (Z.ltb_spec (Z.of_nat log) 64); [reflexivity|lia]. }
  rewrite E64. cbn [ok_or lift mbind exec_bind].
  pose proof (check_sparse_iff (2 ^ Z.of_nat log) alloc live ∅) as Hck.
  assert (Hiff : (exists r, fold_result (check_sparse (2 ^ Z.of_nat log) alloc) ∅ live = Ok r) <-> sparse_ok log live alloc).
  { rewrite Hck. unfold sparse_ok. apply and_iff_compat_l. rewrite !Forall_forall. split; intros H u Hu; destruct (H u Hu) as (A & B); [tauto|].
    split; [exact A|]. split; [apply not_elem_of_empty|exact B]. }
  destruct (fold_result (check_sparse (2 ^ Z.of_nat log) alloc) ∅ live) as [r|e]; cbn [lift mbind exec_bind].
  2:{ intros Hok. apply Hiff in Hok as [r Hr]. discriminate Hr. }
  assert (Hok : sparse_ok log live alloc) by (apply Hiff; eauto). clear Hiff Hck r. destruct Hok as [Hn Hb] eqn:Ed. clear Ed.
  destruct (with_log_slots_ok log Hlog) as (c & E & Hc & Hse & L & Hev & _). rewrite E. cbn [expect mbind exec_bind].
  assert (Hr : Forall (fun d : Z * SlotValue => 0 <= d.1 < 2 ^ Z.of_nat log) live).
  { rewrite Forall_forall in H0, Hb |- *. intros d Hd. specialize (H0 d Hd). destruct (Hb d Hd). cbv beta in *. lia. }
  assert (Hw : writable (cs_state c) live).
  { eapply Forall_impl; [exact Hr|]. cbv beta. intros d Hd. unfold num_slots. rewrite L, Hev. split; [exact Hd|apply not_elem_of_empty]. }
  destruct (write_rooted c _ live (co_rooted _ _ Hc) Hw) as (s & Es & Hr' & W). rewrite Es. cbn [map_err lift mbind exec_bind].
  set (c1 := with_counters _ _ _ _).
  assert (Hr1 : rooted c1 (write_slots (fun _ => EMPTY) live)) by (destruct Hr'; constructor; assumption).
  destruct (try_state_root_ok Hcap c1 _ Hr1) as (c2 & E2 & Hr2 & Hse2 & [S1 S2 S3 S4 S5 S6 S7]).
  { apply (write_dirty_resident _ _ _ _ W Hw). rewrite (proj1 Hse). intros seg Hin. now apply not_elem_of_empty in Hin. }
  rewrite E2. cbn [mret]. unfold exec_ret. cbn [c1 with_counters with_state cs_state cs_active_slot_count cs_alloc_counter cs_circulating_supply] in S1, S5, S6, S7.
  pose proof (wa_log _ _ _ _ W) as L'. rewrite L', L in S1. split; [split; assumption|].
  assert (Hct : counted c2 (write_slots (fun _ => EMPTY) live)).
  { unfold counted. rewrite S1, S5. unfold population. rewrite write_from_empty by (reflexivity || assumption). rewrite (Zsum_same _ (fun _ => 1)).
    + clear. induction live as [|d l IH]; [reflexivity|]. cbn [fmap list_fmap length]. rewrite Zsum_cons, <- IH. lia.
    + intros d Hd. rewrite Forall_forall in Hb. destruct (Hb d Hd) as (_ & Hne & _). unfold occupied, is_empty. now rewrite bool_decide_eq_false_2. }
  split; [|auto]. constructor; rewrite ?S1; [exact Hr2| |rewrite S7|lia|].
  - unfold counted in Hct. rewrite S1 in Hct. lia.
  - symmetry. now apply write_from_empty.
  - rewrite S6. intros i Hi. destruct (decide (i ∈ live.*1)) as [Hin|Hin].
    + apply list_elem_of_fmap in Hin as ([j v] & -> & Hin). cbn [fst] in *. pose proof Hin as Hin'. apply list_elem_of_lookup in Hin as [k Ek].
      rewrite (write_slots_at _ live k j v Hn Ek). rewrite Forall_forall in Hb, Hid. destruct (Hb _ Hin') as (_ & _ & H1). specialize (Hid _ Hin').
      cbn [snd] in *. destruct H1 as [H1|H1]; [auto|]. destruct Hid as [H2|H2]; [auto|right; lia].
    + rewrite write_slots_other in Hi by exact Hin. congruence.
Qed.

(** ** Restoring a segment *)

Lemma remember_ok (s : SegmentedFriState (D := D)) slots seg t : state_ok s slots -> 0 <= seg < Z.of_nat (num_segments s) -> seg ∉ evicted s ->
  hot_ok t (effective_log_seg s) (fun i => hleaf (slots (seg * 2 ^ Z.of_nat (effective_log_seg s) + i))) -> 0 <= column_bytes t ->
  exists s', remember_exact_segment_tree s seg t = Some s' /\ state_ok s' slots /\ log_slots s' = log_slots s
    /\ num_segments s' = num_segments s /\ evicted s' = evicted s /\ exact_dirty s' = exact_dirty s /\ mdbx_dirty s' = mdbx_dirty s.
Proof.
  intros Hs Hseg Hev Hh Hb. unfold remember_exact_segment_tree. destruct (_ && _); [|exists s; auto 10].
  destruct (lru_insert_spec (exact_segment_cache s) seg t (ok_cache _ _ Hs)) as (cache & Ei & Hok & _ & Hent & _); [unfold resident_bytes; lia|].
  rewrite Ei. cbn [mbind option_bind]. eexists. split; [reflexivity|]. split; [|auto 10].
  eapply state_ok_same; try eassumption; try reflexivity. intros seg' t' Hin. cbn [with_residency exact_segment_cache] in Hin.
  destruct (Hent _ Hin) as [[= -> ->]|[Hold _]]; [right; auto|now left].
Qed.

(** The leaves of a segment, from its columns and from the state. *)
Definition column_leaves (cols : SegmentColumns) (i : Z) : D := hleaf (column_slot cols (Z.to_nat i)).
Definition segment_leaves (s : SegmentedFriState (D := D)) slots (seg i : Z) : D := hleaf (slots (seg * 2 ^ Z.of_nat (effective_log_seg s) + i)).

Lemma live_filter (f : nat -> SlotValue) l :
  Z.of_nat (length (filter (fun i => is_empty (f i) = false) l)) = Zsum ((fun i => occupied (f i)) <$> l).
Proof.
  induction l as [|i l IH]; [reflexivity|]. rewrite filter_cons. cbn [fmap list_fmap]. rewrite Zsum_cons, <- IH. unfold occupied.
  destruct (is_empty (f i)); [rewrite decide_False by discriminate; lia|]. rewrite decide_True by reflexivity. cbn [length]. lia.
Qed.

Context (c : ChainState (D := D)) (slots : Z -> SlotValue) (seg : Z).
Let s := cs_state c.
Let eff := effective_log_seg s.
Context (Hr : rooted c slots) (Hseg : 0 <= seg < Z.of_nat (num_segments s)) (Hclean : seg ∉ exact_dirty s).

Lemma compact_root : rc_segment_roots (cs_exact_roots c) !! Z.to_nat seg = Some (tree hnode (segment_leaves s slots seg) eff 0).
Proof.
  destruct Hr as [Hs (g & Hro & Hg) _]. fold s in Hs, Hro, Hg.
  rewrite (ro_roots _ _ _ Hro) by (rewrite (roots_count s slots _ g Hs Hro); lia). rewrite Z2Nat.id by lia. rewrite Hg by assumption. f_equal.
  unfold segment_roots_of. rewrite <- (ok_eff _ _ Hs). fold eff. rewrite <- (Z.add_0_r seg) at 1.
  now rewrite <- (tree_shift hnode (fun i => hleaf (slots i)) eff seg 0).
Qed.

(** Columns are installed only under the compact root. *)
Lemma restore_inv cols c' : restore_evicted_segment c seg cols = Return c' ->
  columns_len cols (2 ^ eff) = true /\ tree hnode (column_leaves cols) eff 0 = tree hnode (segment_leaves s slots seg) eff 0.
Proof.
  unfold restore_evicted_segment. cbn zeta. fold s eff. destruct (columns_len cols (2 ^ eff)) eqn:El; cbn [negb]; [|discriminate].
  destruct (segment_live_count s seg =? _); cbn [negb]; [|discriminate].
  destruct (from_columns_ok eff cols (column_capacity cols) El) as (t & Et & _ & Hh). rewrite Et. cbn [expect mbind exec_bind].
  rewrite compact_root. destruct (bool_decide_reflect (Some (tree hnode (segment_leaves s slots seg) eff 0) = Some (hot_root t))) as [E|]; [|discriminate].
  intros _. split; [reflexivity|]. injection E as E. rewrite E, (hot_root_ok t _ _ Hh). reflexivity.
Qed.

(** The true columns are accepted, and keep the state. *)
Lemma restore_ok cols : columns_len cols (2 ^ eff) = true ->
  (forall l, (l < 2 ^ eff)%nat -> column_slot cols l = slots (seg * 2 ^ Z.of_nat eff + Z.of_nat l)) ->
  exists c', restore_evicted_segment c seg cols = Return c' /\ rooted c' slots /\ evicted (cs_state c') = evicted s ∖ {[seg]}
    /\ cs_utxo_root c' = cs_utxo_root c /\ exact_dirty (cs_state c') = exact_dirty s.
Proof.
  intros El Hcols. pose proof compact_root as Hroot. destruct Hr as [Hs (g & Hro & Hg) Hd]. fold s in Hs, Hro, Hg, Hd.
  unfold restore_evicted_segment. cbn zeta. fold s eff. rewrite El. cbn [negb].
  assert (Hlive : segment_live_count s seg = Z.of_nat (length (filter (fun local => is_empty (column_slot cols local) = false) (seq 0 (2 ^ eff))))).
  { rewrite live_filter. unfold segment_live_count. rewrite (ok_counts _ _ Hs) by exact Hseg. cbn [from_option id]. unfold live_in. fold eff.
    apply Zsum_same. intros l Hl%elem_of_seq. now rewrite Hcols by lia. }
  rewrite Hlive, Z.eqb_refl. cbn [negb].
  destruct (from_columns_ok eff cols (column_capacity cols) El) as (t & Et & Hb & Hh). rewrite Et. cbn [expect mbind exec_bind].
  assert (Hh' : hot_ok t eff (segment_leaves s slots seg)).
  { assert (W : Z.of_nat (2 ^ eff) = 2 ^ Z.of_nat eff) by apply Nat2Z.inj_pow.
    eapply hot_ok_ext; [|exact Hh]. intros i Hi. cbv beta. unfold segment_leaves. fold eff. rewrite Hcols by lia. now rewrite Z2Nat.id by lia. }
  rewrite Hroot, (hot_root_ok t _ _ Hh'), bool_decide_eq_true_2 by reflexivity.
  pose proof (restore_segment_ok s slots seg cols Hs Hseg El Hcols) as Hs1. set (s1 := state_restore_evicted_segment s seg cols) in *.
  destruct (remember_ok s1 slots seg t Hs1 Hseg) as (s2 & E2 & Hs2 & L1 & L2 & L3 & L4 & _).
  - unfold s1. cbn. intros Hin. apply elem_of_difference in Hin as [_ Hin]. apply Hin. now apply elem_of_singleton.
  - exact Hh'.
  - rewrite Hb. apply Hcap.
  - rewrite E2. cbn [expect mbind exec_bind mret]. eexists. split; [reflexivity|]. cbn [with_state cs_state cs_utxo_root]. split; [|auto].
    constructor; cbn [with_state cs_state cs_exact_roots]; [exact Hs2| |].
    + rewrite L1, L2, L4. exists g. auto.
    + rewrite L2, L4. exact Hd.
Qed.

End Residency.

(** ** Properties *)

(** Construction from sparse slots is exact.  For slot indices and ids of
    their types, [from_sparse_utxos] never panics; it accepts precisely distinct,
    occupied slots inside the domain whose ordinary ids do not exceed the
    allocator counter, and the state it builds holds exactly those slots: its root
    is their Merkle root, its live count and its supply are theirs. *)
Theorem from_sparse_exact {R : RawCommit StateHash} (log : nat) (live : list (Z * SlotValue)) (alloc : Z) :
  (forall cols, 0 <= column_capacity cols) -> (1 <= log <= 32)%nat -> Forall (fun u => 0 <= u.1) live -> 0 <= alloc < 2 ^ 63 ->
  Forall (fun u => is_coinbase_creation_id (creation_id u.2) = true \/ 1 <= creation_id u.2) live ->
  let after := write_slots (fun _ => EMPTY) live in
  match from_sparse_utxos (D := StateHash) log live alloc with
  | Return c => sparse_ok log live alloc /\ chain_ok c after /\ counted c after /\ sealed c after /\ cs_alloc_counter c = alloc /\ log_slots (cs_state c) = log
  | Fail _ => ~ sparse_ok log live alloc
  | Panic => False
  end.
Proof. intros Hcap. exact (from_sparse_cases Hcap log live alloc). Qed.

Lemma from_sparse_exact_witness :
  let live := [(3, from_parts 5 2 1 1); (1, from_parts 9 1 4 4)] in
  let after := write_slots (fun _ => EMPTY) live in
  match from_sparse_utxos (D := StateHash) (RawCommit0 := null_commit) 2 live 2 with
  | Return c => sparse_ok 2 live 2 /\ chain_ok c after /\ counted c after /\ sealed c after /\ cs_alloc_counter c = 2 /\ log_slots (cs_state c) = 2%nat
  | Fail _ => ~ sparse_ok 2 live 2
  | Panic => False
  end.
Proof.
  apply (from_sparse_exact (R := null_commit) 2 [(3, from_parts 5 2 1 1); (1, from_parts 9 1 4 4)] 2);
    [intros cols; cbn; lia|lia|repeat constructor; cbn; lia|lia|].
  apply Forall_cons. split; [right; vm_compute; discriminate|]. apply Forall_cons. split; [right; vm_compute; discriminate|constructor].
Defined.

(** C32. Evicted segments return authenticated.  Columns are reinstalled for a
    segment whose compact root is current only when they have the length of a
    segment and each slot is the slot of the state (or its leaf hash is a traced
    collision of the sponge), the only alternative being a pair of node inputs,
    computed from the columns and the state, that collides; and the true columns
    of a segment are always accepted, end its eviction and keep the state root. *)
Theorem restore_authenticated {R : RawCommit StateHash} (c : ChainState (D := StateHash)) (slots : Z -> SlotValue) (seg : Z) (cols : SegmentColumns) :
  (forall cols, 0 <= column_capacity cols) -> rooted c slots -> 0 <= seg < Z.of_nat (num_segments (cs_state c)) ->
  seg ∉ exact_dirty (cs_state c) -> (forall i, slot_ok (slots i)) -> (forall l, slot_ok (column_slot cols l)) ->
  let eff := effective_log_seg (cs_state c) in
  ((exists c', restore_evicted_segment c seg cols = Return c') ->
     columns_len cols (2 ^ eff) = true
     /\ ((forall l, (l < 2 ^ eff)%nat -> let v := slots (seg * 2 ^ Z.of_nat eff + Z.of_nat l) in
            column_slot cols l = v \/ leaf_collision (column_slot cols l) v)
         \/ Exists (collision state_node_hash)
              (subtree_pairs state_node_hash (column_leaves cols) (segment_leaves (cs_state c) slots seg) eff 0)))
  /\ (columns_len cols (2 ^ eff) = true -> (forall l, (l < 2 ^ eff)%nat -> column_slot cols l = slots (seg * 2 ^ Z.of_nat eff + Z.of_nat l)) ->
      exists c', restore_evicted_segment c seg cols = Return c' /\ rooted c' slots
        /\ evicted (cs_state c') = evicted (cs_state c) ∖ {[seg]} /\ cs_utxo_root c' = cs_utxo_root c
        /\ exact_dirty (cs_state c') = exact_dirty (cs_state c)).
Proof.
  intros Hcap Hr Hseg Hclean Hsl Hcl. cbn zeta. split; [|exact (restore_ok Hcap c slots seg Hr Hseg Hclean cols)].
  intros [c' E]. destruct (restore_inv c slots seg Hr Hseg Hclean cols c' E) as [Hl Et]. split; [exact Hl|].
  destruct (subtree_binds state_node_hash _ _ _ _ Et) as [H|H]; [left|right; exact H].
  intros l Hlt. apply slot_leaf_binds; [apply Hcl|apply Hsl|].
  assert (W : Z.of_nat (2 ^ effective_log_seg (cs_state c)) = 2 ^ Z.of_nat (effective_log_seg (cs_state c))) by apply Nat2Z.inj_pow.
  specialize (H (Z.of_nat l) ltac:(lia)). unfold column_leaves, segment_leaves in H. rewrite Nat2Z.id in H. exact H.
Qed.

Lemma restore_authenticated_witness :
  exists c : ChainState (D := StateHash), with_log_slots (RawCommit0 := null_commit) 2 = Some c
  /\ let cols := new_zero 4 in let eff := effective_log_seg (cs_state c) in
     ((exists c', restore_evicted_segment (RawCommit0 := null_commit) c 0 cols = Return c') ->
        columns_len cols (2 ^ eff) = true
        /\ ((forall l, (l < 2 ^ eff)%nat -> let v := EMPTY in column_slot cols l = v \/ leaf_collision (column_slot cols l) v)
            \/ Exists (collision state_node_hash)
                 (subtree_pairs state_node_hash (column_leaves cols) (segment_leaves (cs_state c) (fun _ => EMPTY) 0) eff 0)))
     /\ (columns_len cols (2 ^ eff) = true -> (forall l, (l < 2 ^ eff)%nat -> column_slot cols l = EMPTY) ->
         exists c', restore_evicted_segment (RawCommit0 := null_commit) c 0 cols = Return c' /\ rooted c' (fun _ => EMPTY)
           /\ evicted (cs_state c') = evicted (cs_state c) ∖ {[0]} /\ cs_utxo_root c' = cs_utxo_root c
           /\ exact_dirty (cs_state c') = exact_dirty (cs_state c)).
Proof.
  destruct (with_log_slots_ok (RawCommit0 := null_commit) (D := StateHash) 2 ltac:(lia)) as (c & E & Hc & Hse & L & _).
  exists c. split; [exact E|].
  assert (Hz : slot_ok EMPTY) by (constructor; split; cbn; lia).
  apply (restore_authenticated (R := null_commit) c (fun _ => EMPTY) 0 (new_zero 4)); [intros cols; cbn; lia|apply Hc| | |intros i; exact Hz|].
  - pose proof (rt_state _ _ (co_rooted _ _ Hc)) as Hs. rewrite (ok_num _ _ Hs).
    pose proof (Nat.pow_nonzero 2 (log_slots (cs_state c) - effective_log_seg (cs_state c))). lia.
  - rewrite (proj1 Hse). apply not_elem_of_empty.
  - intros l. replace (column_slot (new_zero 4) l) with EMPTY; [exact Hz|]. symmetry. apply column_slot_zero.
Defined.
