(* ===== verification/BlockApply.v ===== *)
(** * Applying a block ([noid_chain/src/block.rs])

    The direct interpreter of a block body: layout and slot rules, expansion of
    the slot domain, the bodies in order with one deferred root, and the
    comparison of root, counters, depth and transaction root with the header.  A
    block is described by what its bodies claim of the state before it; the
    interpreter accepts exactly those blocks. *)

From Stdlib Require Import ZArith Lia Bool.
From stdpp Require Import base numbers list option gmap.
From S2P Require Import Prelude Params Tx PagedSpend Rules Assembly Stream Poseidon Sponge Merkle TxTree Header SparseMerkle StateTree HeapTree HotSegments StreamRoot Segmented Resize ChainState ChainInvariant ApplyTx Transition.
Open Scope Z_scope.

(** ** Blocks *)

Record Block := mkBlock { header : BlockHeader; transactions : list TxBody }.

Module BlockErr.
Inductive BlockApplyError :=
  | Tx (e : ApplyError)
  | TooManyTransactions
  | GenesisHasTransactions
  | InvalidTxBody
  | InvalidPagedSpend
  | SlotConflict
  | HeaderStateRootMismatch
  | HeaderTxRootMismatch
  | HeaderActiveSlotCountMismatch
  | HeaderAllocCounterMismatch
  | HeaderLogSlotsMismatch
  | MultipleCoinbase
  | CoinbaseNotFirst
  | CoinbaseHasInputs.
End BlockErr.
Abbreviation BlockApplyError := BlockErr.BlockApplyError (only parsing).

(** The sponge of [hash_paged_spend_unchecked]. *)
Definition sponge_pairs (tag : list Z) (pairs : list (Z * Z)) : list Z :=
  Poseidon2bSponge_finalize
    (foldl (fun s p => absorb_pair permute_mut s p.1 p.2) (with_iv (capacity_iv tag)) pairs).

Definition block_stream (txs : list TxBody) : result BlockPageStreamError BlockPageStreamFacts :=
  validate_block_page_stream hash_tx8x2_leaves sponge_pairs txs.

Definition try_compute_tx_root (txs : list TxBody) : exec BlockPageStreamError (list Z) :=
  hashes ← lift (try_compute_logical_txids hash_tx8x2_leaves sponge_pairs txs);
  expect (root_from_hashes hashes).

(** ** The interpreter *)

Section Interpreter.
Context {R : RawCommit StateHash}.
Implicit Types (c : ChainState (D := StateHash)).

(** [while header.log_slots > snap.state.log_slots() { snap.expand_one() }] *)
Fixpoint expand_to (fuel : nat) c (target : Z) : option ChainState :=
  match fuel with
  | O => Some c
  | S fuel =>
      if Z.of_nat (log_slots (cs_state c)) <? target
      then c ← expand_one c; expand_to fuel c target
      else Some c
  end.

(** One round of the transaction loop. *)
Definition apply_body (user_start : nat) (height : Z) c (p : nat * TxBody) : exec BlockApplyError ChainState :=
  _ ← (if (p.1 <? user_start)%nat
       then lift (map_err (fun _ => BlockErr.InvalidTxBody) (validate_body_semantics_no_hash p.2))
       else mret tt);
  fail_as BlockErr.Tx (apply_tx_checked_deferred_root c p.2 (Some height)).

Definition apply_block c (block : Block) : exec BlockApplyError (StateHash * ChainState) :=
  let txs := transactions block in
  let hdr := header block in
  _ ← lift (ensure (Z.of_nat (length txs) <=? BLOCK_MAX_TXS) BlockErr.TooManyTransactions);
  stream ← lift (map_err (fun _ => BlockErr.InvalidPagedSpend) (block_stream txs));
  _ ← lift (map_err (fun _ => BlockErr.SlotConflict) (validate_block_slot_conflicts txs));
  _ ← lift (fold_result (fun _ system => ensure (live_input_count system =? 0) BlockErr.CoinbaseHasInputs)
              tt (take (user_start_index stream) txs));
  snap ← expect (expand_to (Z.to_nat (Header.log_slots hdr)) c (Header.log_slots hdr));
  snap ← exec_fold (apply_body (user_start_index stream) (hdr_height hdr)) snap (enumerate txs);
  match try_state_root snap with
  | None => Panic
  | Some (Err _, _) => Fail (BlockErr.Tx ExactStateUnavailable)
  | Some (Ok root, snap) =>
      _ ← lift (ensure (bool_decide (Header.state_root hdr = root)) BlockErr.HeaderStateRootMismatch);
      _ ← lift (ensure (Header.active_slot_count hdr =? cs_active_slot_count snap) BlockErr.HeaderActiveSlotCountMismatch);
      _ ← lift (ensure (Header.alloc_counter hdr =? cs_alloc_counter snap) BlockErr.HeaderAllocCounterMismatch);
      _ ← lift (ensure (Header.log_slots hdr =? Z.of_nat (log_slots (cs_state snap))) BlockErr.HeaderLogSlotsMismatch);
      tx_root ← fail_as (fun _ => BlockErr.InvalidPagedSpend) (try_compute_tx_root txs);
      _ ← lift (ensure (bool_decide (Header.tx_root hdr = tx_root)) BlockErr.HeaderTxRootMismatch);
      mret (cs_utxo_root snap, snap)
  end.

Definition materialize_accepted_block_state c (block : Block) : exec BlockApplyError (StateHash * ChainState) :=
  apply_block c block.

(** The state is read through [try_state_root], which refreshes its caches. *)
Definition apply_genesis_block c (block : Block) : exec BlockApplyError (StateHash * ChainState) :=
  let hdr := header block in
  if negb (hdr_height hdr =? 0) then Panic
  else
    _ ← lift (ensure (Z.of_nat (length (transactions block)) <=? BLOCK_MAX_TXS) BlockErr.TooManyTransactions);
    _ ← lift (ensure (bool_decide (transactions block = [])) BlockErr.GenesisHasTransactions);
    _ ← lift (ensure (bool_decide (Header.tx_root hdr = replicate 32 0)) BlockErr.HeaderTxRootMismatch);
    match try_state_root c with
    | None => Panic
    | Some (Err _, _) => Fail (BlockErr.Tx ExactStateUnavailable)
    | Some (Ok root, c) =>
        _ ← lift (ensure (bool_decide (Header.state_root hdr = root)) BlockErr.HeaderStateRootMismatch);
        _ ← lift (ensure ((Header.active_slot_count hdr =? 0) && (Header.alloc_counter hdr =? 0))
                    BlockErr.HeaderActiveSlotCountMismatch);
        mret (Header.state_root hdr, c)
    end.

End Interpreter.

(** ** What a list of bodies does *)

Definition live_outs (txs : list TxBody) : Z := Zsum ((fun b => Z.of_nat (length (live_outputs b))) <$> txs).
Definition live_ins (txs : list TxBody) : Z := Zsum ((fun b => Z.of_nat (length (live_inputs b))) <$> txs).

(** The writes in order; the allocator counter advances with every output. *)
Fixpoint block_updates (height alloc : Z) (txs : list TxBody) : list (Z * SlotValue) :=
  match txs with
  | [] => []
  | b :: txs => tx_updates b (Some height) alloc ++ block_updates height (alloc + Z.of_nat (length (live_outputs b))) txs
  end.

(** The live count covers the inputs of each body in turn. *)
Fixpoint covered (active : Z) (txs : list TxBody) : Prop :=
  match txs with
  | [] => True
  | b :: txs => Z.of_nat (length (live_inputs b)) <= active
      /\ covered (active - Z.of_nat (length (live_inputs b)) + Z.of_nat (length (live_outputs b))) txs
  end.

Section Bodies.
Context {D : Type} `{!ExactHash D} `{!RawCommit D}.
Implicit Types (c : ChainState (D := D)) (s : SegmentedFriState (D := D)) (slots : Z -> SlotValue).

(** A slot that can be read and written. *)
Definition available s (i : Z) : Prop := i < num_slots s /\ seg_id_of s i ∉ evicted s.

(** The claims of the bodies, all read in the state before the first. *)
Record actions_ok (avail : Z -> Prop) slots (alloc : Z) (txs : list TxBody) : Prop := {
  ao_slots : NoDup (txs ≫= touched_slots);
  ao_resident : forall i, i ∈ txs ≫= touched_slots -> avail i;
  ao_spends : forall b p, b ∈ txs -> p ∈ live_inputs b -> slots (in_slot_index p.2) = spent_slot b p.2;
  ao_mints : forall b i, b ∈ txs -> i ∈ out_slots b -> slots i = EMPTY;
  ao_alloc : alloc + live_outs txs < 2 ^ 63
}.

Lemma actions_avail (p q : Z -> Prop) slots alloc txs : (forall i, i ∈ txs ≫= touched_slots -> p i <-> q i) ->
  actions_ok p slots alloc txs <-> actions_ok q slots alloc txs.
Proof. intros E. split; intros [A B C M F]; constructor; try assumption; intros i Hi; apply (E i Hi), B, Hi. Qed.

Lemma write_slots_app slots a b : write_slots slots (a ++ b) = write_slots (write_slots slots a) b.
Proof. unfold write_slots. now rewrite foldl_app. Qed.

(** Distinct live slots are at most the live slots. *)
Lemma distinct_live slots n (l : list Z) : NoDup l -> Forall (fun i => 0 <= i < n /\ slots i <> EMPTY) l ->
  Z.of_nat (length l) <= total occupied slots n.
Proof.
  intros Hn Hl. assert (Hocc : forall v, 0 <= occupied v <= 1) by (intros v; unfold occupied; destruct (is_empty v); lia).
  destruct (decide (0 <= n)) as [Hz|Hz].
  2:{ destruct Hl as [|i l [Hi _] _]; [|lia]. cbn [length]. unfold total, seqZ. replace (Z.to_nat n) with 0%nat by lia. cbn. lia. }
  set (ws := (fun i : Z => (i, EMPTY)) <$> l).
  assert (K : ws.*1 = l) by (unfold ws; rewrite <- list_fmap_compose; apply list_fmap_id).
  pose proof (total_writes occupied slots ws n) as H. rewrite K in H. specialize (H Hn).
  assert (Hw : Forall (fun d : Z * SlotValue => 0 <= d.1 < n) ws).
  { unfold ws. apply Forall_fmap. eapply Forall_impl; [exact Hl|]. intros i [Hi _]. exact Hi. }
  specialize (H Hw). pose proof (total_bounds occupied (write_slots slots ws) n 1 Hocc Hz) as Hb.
  assert (E : Zsum ((fun d : Z * SlotValue => occupied d.2 - occupied (slots d.1)) <$> ws) = - Z.of_nat (length l)).
  { unfold ws. rewrite <- list_fmap_compose. clear -Hl. induction Hl as [|i l [_ Hi] _ IH]; [reflexivity|]. cbn [fmap list_fmap length].
    rewrite Zsum_cons, IH. unfold compose. cbn [fst snd]. unfold occupied at 2, is_empty. rewrite bool_decide_eq_false_2 by exact Hi.
    change (occupied EMPTY) with 0. lia. }
  lia.
Qed.

Lemma live_outs_cons b txs : live_outs (b :: txs) = Z.of_nat (length (live_outputs b)) + live_outs txs.
Proof. reflexivity. Qed.

Lemma live_outs_nonneg txs : 0 <= live_outs txs.
Proof. induction txs as [|b txs IH]; [cbn; lia|]. rewrite live_outs_cons. lia. Qed.

Lemma live_ins_nonneg txs : 0 <= live_ins txs.
Proof. induction txs as [|b txs IH]; [cbn; lia|]. change (live_ins (b :: txs)) with (Z.of_nat (length (live_inputs b)) + live_ins txs). lia. Qed.

(** The count of a state is that of a domain of at most [2 ^ 32] slots. *)
Lemma population_bound c slots : chain_ok c slots -> 0 <= cs_active_slot_count c <= 2 ^ 32.
Proof.
  intros Hc. pose proof (co_active _ _ Hc) as Ha. pose proof (ok_log _ _ (rt_state _ _ (co_rooted _ _ Hc))) as Hl.
  assert (Hocc : forall v, 0 <= occupied v <= 1) by (intros v; unfold occupied; destruct (is_empty v); lia).
  assert (2 ^ Z.of_nat (log_slots (cs_state c)) <= 2 ^ 32) by (apply Z.pow_le_mono_r; lia).
  pose proof (total_bounds occupied slots (2 ^ Z.of_nat (log_slots (cs_state c))) 1 Hocc ltac:(lia)). unfold population in Ha. lia.
Qed.

Lemma live_output_bound b : body_wf b -> Z.of_nat (length (live_outputs b)) <= 2.
Proof.
  intros Hb. destruct (wf_outputs _ Hb) as [Ho _]. pose proof (length_live_outputs b). unfold TX_OUTPUTS in Ho. lia.
Qed.

(** Where the count is exact, real spends are at most the live slots. *)
Lemma spends_bound c slots avail txs : Forall body_wf txs -> Forall real_spends txs -> chain_ok c slots -> counted c slots ->
  actions_ok avail slots (cs_alloc_counter c) txs -> live_ins txs <= cs_active_slot_count c.
Proof.
  intros Hw Hne Hc Hct [A _ C _ _]. rewrite Hct. pose proof (rt_state _ _ (co_rooted _ _ Hc)) as Hs. unfold population.
  assert (El : live_ins txs = Z.of_nat (length (txs ≫= Tx.in_slots))).
  { clear. induction txs as [|b txs IH]; [reflexivity|]. change (live_ins (b :: txs)) with (Z.of_nat (length (live_inputs b)) + live_ins txs).
    change ((b :: txs) ≫= Tx.in_slots) with (Tx.in_slots b ++ (txs ≫= Tx.in_slots)). rewrite length_app, IH. unfold Tx.in_slots at 2. rewrite length_fmap. lia. }
  rewrite El. apply distinct_live.
  - clear -A. induction txs as [|b txs IH]; [constructor|]. change ((b :: txs) ≫= touched_slots) with (touched_slots b ++ (txs ≫= touched_slots)) in A.
    change ((b :: txs) ≫= Tx.in_slots) with (Tx.in_slots b ++ (txs ≫= Tx.in_slots)). apply NoDup_app in A as (A1 & A2 & A3).
    apply NoDup_app in A1 as (A1 & _ & _). apply NoDup_app. split; [exact A1|]. split; [|now apply IH].
    intros i Hi Hin. apply (A2 i); [apply elem_of_app; now left|]. apply list_elem_of_bind in Hin as (b' & Hb' & Hin). apply list_elem_of_bind. exists b'.
    split; [apply elem_of_app; now left|exact Hin].
  - apply Forall_forall. intros i Hi. apply list_elem_of_bind in Hi as (b & Hi & Hb). apply list_elem_of_fmap in Hi as (p & -> & Hp).
    assert (Hv : slots (in_slot_index p.2) <> EMPTY).
    { rewrite (C b p Hb Hp). rewrite Forall_forall in Hne. now apply (Hne b Hb). }
    split; [|exact Hv]. rewrite Forall_forall in Hw.
    assert (Hin : in_slot_index p.2 ∈ Tx.in_slots b ++ out_slots b) by (apply elem_of_app; left; now apply (list_elem_of_fmap_2 (fun p => in_slot_index p.2))).
    pose proof (slots_wf b (Hw b Hb) _ Hin) as H0. destruct (decide (in_slot_index p.2 < 2 ^ Z.of_nat (log_slots (cs_state c)))); [lia|].
    destruct Hv. apply (ok_outside _ _ Hs). lia.
Qed.

Lemma covered_bound txs : forall active, live_ins txs <= active -> covered active txs.
Proof.
  induction txs as [|b txs IH]; intros active H; [exact I|]. change (live_ins (b :: txs)) with (Z.of_nat (length (live_inputs b)) + live_ins txs) in H.
  pose proof (live_ins_nonneg txs). split; [lia|]. apply IH. lia.
Qed.

(** One body: the guards of the code are its claims and its inputs are covered. *)
Lemma applies_iff c slots b h : body_wf b -> chain_ok c slots ->
  applies c slots b (Some h) <-> actions_ok (available (cs_state c)) slots (cs_alloc_counter c) [b] /\ covered (cs_active_slot_count c) [b].
Proof.
  intros Hb Hc. pose proof (co_alloc _ _ Hc). pose proof (population_bound c slots Hc) as Hpop. pose proof (live_output_bound b Hb).
  assert (E : [b] ≫= touched_slots = in_slots b ++ out_slots b) by apply app_nil_r.
  assert (Eo : live_outs [b] = Z.of_nat (length (live_outputs b))) by (unfold live_outs; cbn; lia). split.
  - intros Ha. split; [|split; [apply Ha|exact I]]. constructor; rewrite ?E, ?Eo; try apply Ha.
    + intros b' p Hin. apply list_elem_of_singleton in Hin as ->. apply Ha.
    + intros b' i Hin. apply list_elem_of_singleton in Hin as ->. apply Ha.
  - intros [[A B C M F] [Hcv _]]. rewrite ?E, ?Eo in *. constructor; try assumption.
    + intros _. discriminate.
    + intros p. apply C. now left.
    + intros i. apply M. now left.
    + lia.
Qed.

(** The claims of the rest, read before or after the first body. *)
Lemma actions_cons c slots b h txs s' : body_wf b -> NoDup ((b :: txs) ≫= touched_slots) ->
  actions_ok (available (cs_state c)) slots (cs_alloc_counter c) [b] -> log_slots s' = log_slots (cs_state c) ->
  effective_log_seg s' = effective_log_seg (cs_state c) -> evicted s' = evicted (cs_state c) ->
  actions_ok (available (cs_state c)) slots (cs_alloc_counter c) (b :: txs)
  <-> actions_ok (available s') (write_slots slots (tx_updates b h (cs_alloc_counter c)))
        (cs_alloc_counter c + Z.of_nat (length (live_outputs b))) txs.
Proof.
  intros Hb Hn [A B C M F] L Ef Ev. assert (E : [b] ≫= touched_slots = touched_slots b) by apply app_nil_r. rewrite E in *.
  change ((b :: txs) ≫= touched_slots) with (touched_slots b ++ (txs ≫= touched_slots)) in *.
  assert (R : forall i, available s' i <-> available (cs_state c) i) by (intros i; unfold available, num_slots, seg_id_of; now rewrite L, Ef, Ev).
  assert (W : forall i, i ∈ txs ≫= touched_slots -> write_slots slots (tx_updates b h (cs_alloc_counter c)) i = slots i).
  { intros i Hi. apply write_slots_other. rewrite tx_updates_keys. intros Hin. apply NoDup_app in Hn as (_ & Hd & _). now apply (Hd i Hin). }
  assert (T : forall b' i, b' ∈ txs -> i ∈ touched_slots b' -> i ∈ txs ≫= touched_slots) by (intros b' i H1 H2; apply list_elem_of_bind; eauto).
  assert (Ti : forall b' p, p ∈ live_inputs b' -> in_slot_index p.2 ∈ touched_slots b').
  { intros b' p Hp. apply elem_of_app. left. now apply (list_elem_of_fmap_2 (fun p => in_slot_index p.2)). }
  assert (To : forall b' i, i ∈ out_slots b' -> i ∈ touched_slots b') by (intros b' i Hi; apply elem_of_app; now right).
  rewrite live_outs_cons in *. split.
  - intros [A' B' C' M' F']. constructor.
    + now apply NoDup_app in Hn as (_ & _ & Hn).
    + intros i Hi. apply R, B', elem_of_app. now right.
    + intros b' p H1 H2. rewrite W by eauto. apply C'; [now right|exact H2].
    + intros b' i H1 H2. rewrite W by eauto. apply (M' b'); [now right|exact H2].
    + rewrite live_outs_cons in F'. lia.
  - intros [A' B' C' M' F']. constructor; [exact Hn|..].
    + intros i [Hi|Hi]%elem_of_app; [now apply B|now apply R, B'].
    + intros b' p [->|H1]%elem_of_cons H2; [apply C; [now left|exact H2]|]. rewrite <- (W (in_slot_index p.2)) by eauto. now apply C'.
    + intros b' i [->|H1]%elem_of_cons H2; [apply (M b); [now left|exact H2]|]. rewrite <- (W i) by eauto. now apply (M' b').
    + rewrite live_outs_cons. lia.
Qed.

End Bodies.

(** ** The transaction loop *)

Section Loop.
Context {R : RawCommit StateHash}.
Implicit Types (c : ChainState (D := StateHash)) (slots : Z -> SlotValue).

Definition dirty_resident c : Prop := forall seg, seg ∈ exact_dirty (cs_state c) -> seg ∉ evicted (cs_state c).

(** The chain state [c'] after the bodies [txs] on [c]. *)
Record advanced c slots (height : Z) (txs : list TxBody) c' : Prop := {
  ad_ok : chain_ok c' (write_slots slots (block_updates height (cs_alloc_counter c) txs));
  ad_log : log_slots (cs_state c') = log_slots (cs_state c);
  ad_evicted : evicted (cs_state c') = evicted (cs_state c);
  ad_dirty : dirty_resident c';
  ad_active : cs_active_slot_count c' = cs_active_slot_count c - live_ins txs + live_outs txs;
  ad_alloc : cs_alloc_counter c' = cs_alloc_counter c + live_outs txs;
  ad_supply : cs_circulating_supply c' = cs_circulating_supply c - Zsum (in_total <$> txs) + Zsum (out_total <$> txs);
  ad_counted : counted c slots -> Forall real_spends txs -> counted c' (write_slots slots (block_updates height (cs_alloc_counter c) txs))
}.

Definition system_canonical (start : nat) (p : nat * TxBody) : Prop :=
  (p.1 < start)%nat -> validate_body_semantics_no_hash p.2 = Ok tt.

Lemma apply_body_cases start h c slots p : 0 <= h < 2 ^ 63 -> body_wf p.2 -> chain_ok c slots -> dirty_resident c ->
  match apply_body start h c p with
  | Return c' => system_canonical start p /\ actions_ok (available (cs_state c)) slots (cs_alloc_counter c) [p.2]
      /\ covered (cs_active_slot_count c) [p.2] /\ advanced c slots h [p.2] c'
      /\ effective_log_seg (cs_state c') = effective_log_seg (cs_state c)
  | Fail _ => ~ (system_canonical start p /\ actions_ok (available (cs_state c)) slots (cs_alloc_counter c) [p.2]
      /\ covered (cs_active_slot_count c) [p.2])
  | Panic => False
  end.
Proof.
  intros Hh Hb Hc Hd. destruct p as [i b]. cbn [snd] in *. pose proof (rt_state _ _ (co_rooted _ _ Hc)) as Hs.
  assert (Hcan : forall m : exec BlockApplyError unit, m = (if (i <? start)%nat
      then lift (map_err (fun _ => BlockErr.InvalidTxBody) (validate_body_semantics_no_hash b)) else mret tt) ->
    (m = Return tt /\ system_canonical start (i, b)) \/ (exists e, m = Fail e /\ ~ system_canonical start (i, b))).
  { intros m ->. unfold system_canonical. cbn [fst snd]. destruct (Nat.ltb_spec i start) as [H|H].
    - destruct (validate_body_semantics_no_hash b) as [[]|e]; [left; auto|right]. eexists. split; [reflexivity|]. intros F. discriminate (F H).
    - left. split; [reflexivity|]. lia. }
  unfold apply_body. cbn [fst snd]. destruct (Hcan _ eq_refl) as [[-> Hsc]|(e & -> & Hsc)]; cbn [mbind exec_bind]; [|tauto].
  pose proof (applies_iff c slots b h Hb Hc) as Hiff. pose proof (proj1 (co_alloc _ _ Hc)) as Ha.
  pose proof (deferred_cases c slots b (Some h) Hb Hs (co_supply _ _ Hc) Ha) as H.
  destruct (apply_tx_checked_deferred_root c b (Some h)) as [c'|e|] eqn:E; cbn [fail_as]; [| |exact H].
  - destruct H as (Hap & s' & Es & ->). split; [exact Hsc|]. destruct (proj1 Hiff Hap) as [Hact Hcv]. split; [exact Hact|]. split; [exact Hcv|].
    destruct (applied_ok c slots b (Some h) s' Hb Hc Hap Hh Es) as (Hc' & L & Hct).
    pose proof (tx_writable c slots b (Some h) Hb Hap) as Hw.
    destruct (write_rooted c slots _ (co_rooted _ _ Hc) Hw) as (s'' & Es' & _ & W). rewrite Es in Es'. injection Es' as <-.
    assert (El : live_outs [b] = Z.of_nat (length (live_outputs b)) /\ live_ins [b] = Z.of_nat (length (live_inputs b))).
    { unfold live_outs, live_ins. cbn. lia. }
    destruct El as [El1 El2]. split; [|exact (wa_eff _ _ _ _ W)].
    constructor; cbn [applied with_counters with_state cs_state cs_active_slot_count cs_alloc_counter cs_circulating_supply block_updates]; rewrite ?El1, ?El2, ?app_nil_r.
    + exact Hc'.
    + exact L.
    + apply (apply_delta_evicted _ _ _) in Es; [exact Es|]. eapply Forall_impl; [exact Hw|]. cbv beta. tauto.
    + exact (write_dirty_resident _ _ _ _ W Hw Hd).
    + reflexivity.
    + reflexivity.
    + rewrite (tx_money c slots b (Some h) Hb Hs Hap Hh Ha), <- (co_supply _ _ Hc). cbn. lia.
    + intros H1 [H2 _]%Forall_cons. exact (Hct H1 H2).
  - intros [_ Hact]. apply Hiff in Hact.
    destruct (apply_delta_ok (cs_state c) slots _ Hs (tx_writable c slots b (Some h) Hb Hact)) as (s' & Es & _).
    rewrite (deferred_ok c slots b (Some h) Hb Hs (co_supply _ _ Hc) Ha s' Hact Es) in E. discriminate E.
Qed.

Lemma advanced_cons c slots h b txs c1 c2 : advanced c slots h [b] c1 ->
  advanced c1 (write_slots slots (tx_updates b (Some h) (cs_alloc_counter c))) h txs c2 -> advanced c slots h (b :: txs) c2.
Proof.
  intros [A1 A2 A3 A4 A5 A6 A7 A8] [B1 B2 B3 B4 B5 B6 B7 B8].
  assert (El : live_outs [b] = Z.of_nat (length (live_outputs b))) by (unfold live_outs; cbn; lia).
  assert (Ei : live_ins (b :: txs) = live_ins [b] + live_ins txs) by (unfold live_ins; cbn [fmap list_fmap]; rewrite !Zsum_cons; change (Zsum []) with 0; lia).
  cbn [fmap list_fmap] in *. rewrite ?Zsum_cons in *. change (Zsum []) with 0 in *.
  constructor; cbn [fmap list_fmap]; rewrite ?live_outs_cons, ?Zsum_cons, ?Ei; [|congruence|congruence|exact B4|lia|lia|lia|].
  - cbn [block_updates]. rewrite write_slots_app. rewrite A6, El in B1. exact B1.
  - intros H1 [H2 H3]%Forall_cons. cbn [block_updates] in A8 |- *. rewrite app_nil_r in A8. rewrite write_slots_app. rewrite A6, El in B8. apply B8; [|exact H3].
    apply A8; [exact H1|]. now constructor.
Qed.

Lemma apply_bodies_cases start h ps : 0 <= h < 2 ^ 63 -> forall c slots, chain_ok c slots -> dirty_resident c ->
  Forall (fun p => body_wf p.2) ps -> NoDup (ps.*2 ≫= touched_slots) ->
  match exec_fold (apply_body start h) c ps with
  | Return c' => Forall (system_canonical start) ps /\ actions_ok (available (cs_state c)) slots (cs_alloc_counter c) ps.*2
      /\ covered (cs_active_slot_count c) ps.*2 /\ advanced c slots h ps.*2 c'
  | Fail _ => ~ (Forall (system_canonical start) ps /\ actions_ok (available (cs_state c)) slots (cs_alloc_counter c) ps.*2
      /\ covered (cs_active_slot_count c) ps.*2)
  | Panic => False
  end.
Proof.
  intros Hh. induction ps as [|[i b] ps IH]; intros c slots Hc Hd Hw Hn.
  - cbn [exec_fold]. pose proof (co_alloc _ _ Hc). split; [constructor|]. split.
    + constructor; cbn; [constructor|intros ? []%not_elem_of_nil|intros ? ? []%not_elem_of_nil|intros ? ? []%not_elem_of_nil|lia].
    + split; [exact I|]. constructor; cbn; try reflexivity; try assumption; try lia. auto.
  - apply Forall_cons in Hw as [Hb Hw]. cbn [snd] in *. cbn [exec_fold]. change (((i, b) :: ps).*2) with (b :: ps.*2) in *.
    pose proof (apply_body_cases start h c slots (i, b) Hh Hb Hc Hd) as H. cbn [snd] in H.
    destruct (apply_body start h c (i, b)) as [c1|e|]; cbn [mbind exec_bind]; [| |exact H].
    + destruct H as (Hsc & Hact & [Hcv _] & Had & Heff). pose proof Had as [A1 A2 A3 A4 A5 A6 A7 A8].
      assert (Ec : cs_active_slot_count c1 = cs_active_slot_count c - Z.of_nat (length (live_inputs b)) + Z.of_nat (length (live_outputs b))).
      { rewrite A5. unfold live_ins, live_outs. cbn. lia. }
      assert (El : live_outs [b] = Z.of_nat (length (live_outputs b))) by (unfold live_outs; cbn; lia).
      cbn [block_updates] in A1. rewrite app_nil_r in A1. rewrite El in A6.
      pose proof (actions_cons c slots b (Some h) ps.*2 (cs_state c1) Hb Hn Hact A2 Heff A3) as Hcons. rewrite <- A6 in Hcons.
      change ((b :: ps.*2) ≫= touched_slots) with (touched_slots b ++ (ps.*2 ≫= touched_slots)) in Hn. apply NoDup_app in Hn as (_ & _ & Hn).
      specialize (IH c1 _ A1 A4 Hw Hn). destruct (exec_fold (apply_body start h) c1 ps) as [c2|e|]; [| |exact IH].
      * destruct IH as (I1 & I2 & I3 & I4). split; [now constructor|]. split; [now apply Hcons|]. split; [split; [exact Hcv|now rewrite <- Ec]|].
        exact (advanced_cons c slots h b ps.*2 c1 c2 Had I4).
      * intros (F1 & F2 & _ & F3). apply Forall_cons in F1 as [_ F1]. apply IH. split; [exact F1|]. split; [now apply Hcons|now rewrite Ec].
    + intros (F1 & F2 & F3 & _). apply H. apply Forall_cons in F1 as [F1 _]. split; [exact F1|]. split; [|now split].
      destruct F2 as [B1 B2 B3 B4 B5]. change ((b :: ps.*2) ≫= touched_slots) with (touched_slots b ++ (ps.*2 ≫= touched_slots)) in *.
      assert (E : [b] ≫= touched_slots = touched_slots b) by apply app_nil_r. constructor; rewrite ?E.
      * now apply NoDup_app in B1 as [B1 _].
      * intros j Hj. apply B2, elem_of_app. now left.
      * intros b' p Hb'. apply list_elem_of_singleton in Hb' as ->. apply B3. now left.
      * intros b' j Hb'. apply list_elem_of_singleton in Hb' as ->. apply B4. now left.
      * rewrite live_outs_cons in B5. pose proof (live_outs_nonneg ps.*2). unfold live_outs at 1. cbn. lia.
Qed.

(** ** The layout of a block *)

Abbreviation layout := (block_layout hash_tx8x2_leaves sponge_pairs).

Lemma layout_count txs cb payout class gs : layout txs cb payout class gs -> (length txs <= 256)%nat.
Proof.
  intros [-> _ _ _ Hc]. apply for_page_count_iff in Hc as [Hc _]. cbn [length].
  assert (page_capacity class <= 255) by (destruct class; vm_compute; discriminate). lia.
Qed.

Lemma layout_system txs cb payout class gs : layout txs cb payout class gs ->
  take (S (length (option_list payout))) txs = cb :: option_list payout.
Proof. intros [-> _ _ _ _]. cbn [take]. f_equal. apply take_app_length. Qed.

Lemma layout_tx_root txs cb payout class gs : Forall body_wf txs -> layout txs cb payout class gs ->
  exists root, try_compute_tx_root txs = Return root.
Proof.
  intros Hw HL. pose proof (layout_count _ _ _ _ _ HL) as Hn. unfold try_compute_tx_root, try_compute_logical_txids.
  assert (Hs : block_stream txs = Ok (layout_facts payout class gs)) by (apply block_stream_iff; [exact Hw|]; exists cb, payout, class, gs; auto).
  pose proof HL as [E _ _ [c Hst] _]. destruct txs as [|b txs']; [discriminate|]. fold (block_stream (b :: txs')). rewrite Hs.
  cbn [mbind result_bind lift exec_bind layout_facts user_start_index bs_groups]. set (hashes := _ ++ _).
  assert (Hl : (1 <= length hashes <= 256)%nat).
  { unfold hashes. rewrite length_app, !length_fmap, (layout_system _ _ _ _ _ HL), length_locate. cbn [length].
    rewrite E in Hw, Hn. apply Forall_cons in Hw as [_ [_ Hw]%Forall_app].
    pose proof (spend_pages_length _ _ gs Hw (sv_spends _ _ _ _ _ Hst)). cbn [length] in Hn. rewrite length_app in Hn. lia. }
  clearbody hashes. unfold root_from_hashes, bind_tx_count, count_ok, TX_TREE_LEAVES.
  destruct (Nat.eqb_spec (length hashes) 0); [lia|]. destruct (Nat.leb_spec (length hashes) 256); [|lia].
  destruct (Nat.leb_spec 1 (length hashes)); [|lia]. cbn [andb expect]. eauto.
Qed.

(** ** Growth of the domain *)

Lemma grown_ok c slots c' : chain_ok c slots -> rooted c' slots -> grown c c' -> chain_ok c' slots /\ (counted c slots -> counted c' slots).
Proof.
  intros [Hr Ha Hm Hal Hid] Hr' [G1 G2 G3 G4 G5]. pose proof (rt_state _ _ Hr) as Hs.
  assert (E : forall f : SlotValue -> Z, f EMPTY = 0 ->
    total f slots (2 ^ Z.of_nat (S (log_slots (cs_state c)))) = total f slots (2 ^ Z.of_nat (log_slots (cs_state c)))).
  { intros f Hf. apply total_grow; [exact Hf| |].
    - split; [lia|]. apply Z.pow_le_mono_r; lia.
    - intros i Hi. apply (ok_outside _ _ Hs). lia. }
  split; [constructor; rewrite ?G1, ?G3, ?G4, ?G5; try assumption|].
  - unfold population. rewrite E by reflexivity. exact Ha.
  - unfold money. rewrite E by reflexivity. exact Hm.
  - unfold counted, population. now rewrite G1, G3, E.
Qed.

Lemma expand_to_ok c slots target : chain_ok c slots -> sealed c slots -> rehashable c ->
  0 <= target <= 32 -> target <= Z.of_nat (log_slots (cs_state c)) + 1 ->
  exists c', expand_to (Z.to_nat target) c target = Some c' /\ chain_ok c' slots /\ sealed c' slots
    /\ log_slots (cs_state c') = Nat.max (log_slots (cs_state c)) (Z.to_nat target) /\ evicted (cs_state c') = evicted (cs_state c)
    /\ cs_alloc_counter c' = cs_alloc_counter c /\ cs_active_slot_count c' = cs_active_slot_count c
    /\ cs_circulating_supply c' = cs_circulating_supply c /\ (counted c slots -> counted c' slots).
Proof.
  intros Hc Hse Hre Ht Hl. destruct (decide (target <= Z.of_nat (log_slots (cs_state c)))) as [Hle|Hgt].
  - exists c. replace (Nat.max (log_slots (cs_state c)) (Z.to_nat target)) with (log_slots (cs_state c)) by lia.
    split; [|auto 10]. destruct (Z.to_nat target); [reflexivity|]. cbn [expand_to]. destruct (Z.ltb_spec (Z.of_nat (log_slots (cs_state c))) target); [lia|reflexivity].
  - destruct (expand_one_ok c slots (co_rooted _ _ Hc) Hse ltac:(lia) Hre) as (c' & E & Hr' & Hse' & G). exists c'.
    destruct (grown_ok c slots c' Hc Hr' G) as [Hc' Hct]. destruct G as [G1 G2 G3 G4 G5].
    replace (Nat.max (log_slots (cs_state c)) (Z.to_nat target)) with (S (log_slots (cs_state c))) by lia.
    split; [|auto 10]. destruct (Z.to_nat target) as [|fuel] eqn:Ef; [lia|]. cbn [expand_to].
    destruct (Z.ltb_spec (Z.of_nat (log_slots (cs_state c))) target); [|lia]. rewrite E. cbn [mbind option_bind].
    destruct fuel; cbn [expand_to]; [reflexivity|]. destruct (Z.ltb_spec (Z.of_nat (log_slots (cs_state c'))) target); [lia|reflexivity].
Qed.

(** ** Blocks that apply *)

(** A slot of the domain of depth [log] whose segment is in memory. *)
Definition available_at c (log : nat) (i : Z) : Prop :=
  i < 2 ^ Z.of_nat log /\ Z.shiftr i (Z.of_nat (Nat.min log SEGMENT_LOG)) mod 2 ^ 16 ∉ evicted (cs_state c).

Record block_ok c slots (block : Block) : Prop := {
  bk_layout : exists coinbase payout class gs, layout (transactions block) coinbase payout class gs
    /\ Forall (fun b => validate_body_semantics_no_hash b = Ok tt /\ live_inputs b = []) (coinbase :: option_list payout);
  bk_depth : Z.of_nat (log_slots (cs_state c)) <= Header.log_slots (header block);
  bk_actions : actions_ok (available_at c (Z.to_nat (Header.log_slots (header block)))) slots (cs_alloc_counter c) (transactions block);
  bk_covered : covered (cs_active_slot_count c) (transactions block);
  bk_root : Header.state_root (header block)
    = ChainInvariant.state_root (write_slots slots (block_updates (hdr_height (header block)) (cs_alloc_counter c) (transactions block)))
        (Z.to_nat (Header.log_slots (header block)));
  bk_active : Header.active_slot_count (header block) = cs_active_slot_count c - live_ins (transactions block) + live_outs (transactions block);
  bk_alloc : Header.alloc_counter (header block) = cs_alloc_counter c + live_outs (transactions block);
  bk_tx_root : try_compute_tx_root (transactions block) = Return (Header.tx_root (header block))
}.

(** ** The interpreter accepts exactly these blocks *)

Definition block_after c slots (block : Block) : Z -> SlotValue :=
  write_slots slots (block_updates (hdr_height (header block)) (cs_alloc_counter c) (transactions block)).

Definition block_outcome c slots (block : Block) (r : exec BlockApplyError (StateHash * ChainState (D := StateHash))) : Prop :=
  match r with
  | Return (root, c') => block_ok c slots block /\ root = Header.state_root (header block)
      /\ chain_ok c' (block_after c slots block) /\ sealed c' (block_after c slots block)
      /\ Z.of_nat (log_slots (cs_state c')) = Header.log_slots (header block) /\ evicted (cs_state c') = evicted (cs_state c)
      /\ cs_active_slot_count c' = Header.active_slot_count (header block) /\ cs_alloc_counter c' = Header.alloc_counter (header block)
      /\ cs_circulating_supply c'
         = cs_circulating_supply c - Zsum (in_total <$> transactions block) + Zsum (out_total <$> transactions block)
      /\ (counted c slots -> Forall real_spends (transactions block) -> counted c' (block_after c slots block))
  | Fail _ => ~ block_ok c slots block
  | Panic => False
  end.

Lemma enumerate_canonical (start : nat) (txs : list TxBody) :
  Forall (system_canonical start) (enumerate txs) <-> Forall (fun b => validate_body_semantics_no_hash b = Ok tt) (take start txs).
Proof.
  unfold enumerate. rewrite !Forall_lookup. split.
  - intros H i b Hi. apply lookup_take_Some in Hi as [Hi Hlt]. specialize (H i (i, b)). rewrite list_lookup_imap, Hi in H. exact (H eq_refl Hlt).
  - intros H i p Hp. rewrite list_lookup_imap in Hp. destruct (txs !! i) as [b|] eqn:E; [|discriminate]. injection Hp as <-.
    intros Hlt. cbn [fst snd] in *. apply (H i b). now apply lookup_take_Some.
Qed.

Lemma system_inputs b : body_wf b -> (live_input_count b =? 0) = true <-> live_inputs b = [].
Proof.
  intros Hb. rewrite (live_input_count_length b (proj1 (wf_inputs _ Hb))), Z.eqb_eq. destruct (live_inputs b); cbn [length]; split; try congruence; lia.
Qed.

Context (Hcap : forall cols, 0 <= column_capacity (D := StateHash) cols).

(** The checks after the loop. *)
Lemma seal_cases c slots block c1 c2 : let txs := transactions block in let hdr := header block in
  Forall body_wf txs -> (exists cb payout class gs, layout txs cb payout class gs) ->
  0 <= Header.log_slots hdr ->
  log_slots (cs_state c1) = Nat.max (log_slots (cs_state c)) (Z.to_nat (Header.log_slots hdr)) -> evicted (cs_state c1) = evicted (cs_state c) ->
  cs_alloc_counter c1 = cs_alloc_counter c -> cs_active_slot_count c1 = cs_active_slot_count c ->
  cs_circulating_supply c1 = cs_circulating_supply c ->
  advanced c1 slots (hdr_height hdr) txs c2 ->
  let checks := Header.state_root hdr = ChainInvariant.state_root (block_after c slots block) (Z.to_nat (Header.log_slots hdr))
    /\ Header.active_slot_count hdr = cs_active_slot_count c - live_ins txs + live_outs txs
    /\ Header.alloc_counter hdr = cs_alloc_counter c + live_outs txs
    /\ try_compute_tx_root txs = Return (Header.tx_root hdr) in
  match (match try_state_root c2 with
    | None => Panic
    | Some (Err _, _) => Fail (BlockErr.Tx ExactStateUnavailable)
    | Some (Ok root, snap) =>
      _ ← lift (ensure (bool_decide (Header.state_root hdr = root)) BlockErr.HeaderStateRootMismatch);
      _ ← lift (ensure (Header.active_slot_count hdr =? cs_active_slot_count snap) BlockErr.HeaderActiveSlotCountMismatch);
      _ ← lift (ensure (Header.alloc_counter hdr =? cs_alloc_counter snap) BlockErr.HeaderAllocCounterMismatch);
      _ ← lift (ensure (Header.log_slots hdr =? Z.of_nat (log_slots (cs_state snap))) BlockErr.HeaderLogSlotsMismatch);
      tx_root ← fail_as (fun _ => BlockErr.InvalidPagedSpend) (try_compute_tx_root txs);
      _ ← lift (ensure (bool_decide (Header.tx_root hdr = tx_root)) BlockErr.HeaderTxRootMismatch);
      mret (cs_utxo_root snap, snap)
    end) with
  | Return (root, c') => checks /\ Z.of_nat (log_slots (cs_state c)) <= Header.log_slots hdr /\ root = Header.state_root hdr
      /\ chain_ok c' (block_after c slots block) /\ sealed c' (block_after c slots block)
      /\ Z.of_nat (log_slots (cs_state c')) = Header.log_slots hdr /\ evicted (cs_state c') = evicted (cs_state c)
      /\ cs_active_slot_count c' = Header.active_slot_count hdr /\ cs_alloc_counter c' = Header.alloc_counter hdr
      /\ cs_circulating_supply c' = cs_circulating_supply c - Zsum (in_total <$> txs) + Zsum (out_total <$> txs)
      /\ (counted c2 (block_after c slots block) -> counted c' (block_after c slots block))
  | Fail _ => ~ (checks /\ Z.of_nat (log_slots (cs_state c)) <= Header.log_slots hdr)
  | Panic => False
  end.
Proof.
  intros txs hdr Hw Hlay H0 Hlog Hev Hal Hact Hsup [A1 A2 A3 A4 A5 A6 A7 _] checks.
  destruct (try_state_root_ok Hcap c2 _ (co_rooted _ _ A1) A4) as (c3 & -> & Hr3 & Hse3 & [S1 S2 S3 S4 S5 S6 S7]).
  rewrite Hal in A1, A6, Hse3, Hr3. fold (block_after c slots block) in A1, Hse3, Hr3 |- *.
  rewrite S5, S6, S1, A2, A5, A6, Hact, Hlog, Hal. set (after := block_after c slots block) in *.
  assert (Hc3 : chain_ok c3 after).
  { destruct A1 as [_ B1 B2 B3 B4]. constructor; rewrite ?S1, ?S5, ?S6, ?S7; assumption. }
  destruct Hlay as (cb & payout & class & gs & HL). destruct (layout_tx_root txs _ _ _ _ Hw HL) as [txr Etx]. unfold checks. rewrite Etx. cbn [fail_as].
  destruct (decide (Z.of_nat (log_slots (cs_state c)) <= Header.log_slots hdr)) as [Hle|Hgt].
  - replace (Nat.max (log_slots (cs_state c)) (Z.to_nat (Header.log_slots hdr))) with (Z.to_nat (Header.log_slots hdr)) in * by lia.
    rewrite Z2Nat.id, Z.eqb_refl by exact H0.
    case_bool_decide as E1; cbn [ensure lift mbind exec_bind]; [|intros [(F & _) _]; exact (E1 F)].
    destruct (Z.eqb_spec (Header.active_slot_count hdr) (cs_active_slot_count c - live_ins txs + live_outs txs)) as [E2|E2]; cbn [ensure lift mbind exec_bind]; [|intros [(_ & F & _) _]; exact (E2 F)].
    destruct (Z.eqb_spec (Header.alloc_counter hdr) (cs_alloc_counter c + live_outs txs)) as [E3|E3]; cbn [ensure lift mbind exec_bind]; [|intros [(_ & _ & F & _) _]; exact (E3 F)].
    case_bool_decide as E4; cbn [ensure lift mbind exec_bind]; [|intros [(_ & _ & _ & F) _]; injection F; congruence].
    split; [rewrite <- E4; auto|]. split; [exact Hle|]. split; [rewrite E1; destruct Hse3 as [_ ->]; f_equal; congruence|].
    split; [exact Hc3|]. split; [exact Hse3|]. split; [rewrite S1, A2, Hlog; lia|]. split; [congruence|].
    split; [rewrite S5, A5, Hact, E2; reflexivity|]. split; [rewrite S6, A6, E3; reflexivity|]. split; [rewrite S7, A7, Hsup; reflexivity|].
    unfold counted. rewrite S1, S5. auto.
  - case_bool_decide; cbn [ensure lift mbind exec_bind]; [|intros [_ F]; lia].
    destruct (_ =? cs_active_slot_count c - _ + _); cbn [ensure lift mbind exec_bind]; [|intros [_ F]; lia]. destruct (_ =? cs_alloc_counter c + _); cbn [ensure lift mbind exec_bind]; [|intros [_ F]; lia].
    destruct (Z.eqb_spec (Header.log_slots hdr) (Z.of_nat (Nat.max (log_slots (cs_state c)) (Z.to_nat (Header.log_slots hdr))))); cbn [ensure lift mbind exec_bind]; [lia|intros [_ F]; lia].
Qed.

Lemma apply_block_cases c slots block : chain_ok c slots -> sealed c slots -> rehashable c ->
  Forall body_wf (transactions block) -> 0 <= hdr_height (header block) < 2 ^ 63 ->
  0 <= Header.log_slots (header block) <= 32 -> Header.log_slots (header block) <= Z.of_nat (log_slots (cs_state c)) + 1 ->
  block_outcome c slots block (apply_block c block).
Proof.
  intros Hc Hse Hre Hw Hh Hl32 Hl1. unfold apply_block. cbn zeta. set (txs := transactions block) in *. set (hdr := header block) in *.
  pose proof (block_stream_iff hash_tx8x2_leaves sponge_pairs txs) as Hiff. fold (block_stream txs) in Hiff.
  assert (Hno : forall e, (forall cb payout class gs, ~ layout txs cb payout class gs) -> block_outcome c slots block (Fail e)).
  { intros e Hn [(cb & payout & class & gs & HL & _) _ _ _ _ _ _ _]. exact (Hn _ _ _ _ HL). }
  destruct (Z.leb_spec (Z.of_nat (length txs)) BLOCK_MAX_TXS) as [Hlen|Hlen]; cbn [ensure lift mbind exec_bind].
  2:{ apply Hno. intros cb payout class gs HL. apply layout_count in HL. unfold BLOCK_MAX_TXS in Hlen. lia. }
  destruct (block_stream txs) as [facts|e] eqn:Es; cbn [map_err lift mbind exec_bind].
  2:{ apply Hno. intros cb payout class gs HL. discriminate (proj2 (Hiff (layout_facts payout class gs) Hw)). eauto 10. }
  destruct (proj1 (Hiff facts Hw) eq_refl) as (cb & payout & class & gs & HL & ->). cbn [layout_facts user_start_index].
  assert (Huniq : forall cb' payout' class' gs', layout txs cb' payout' class' gs' -> cb' :: option_list payout' = cb :: option_list payout).
  { intros cb' payout' class' gs' HL'. pose proof (proj2 (Hiff (layout_facts payout' class' gs') Hw) ltac:(eauto 10)) as E.
    apply (f_equal (fun r => match r with Ok f => user_start_index f | Err _ => 0%nat end)) in E. cbn [layout_facts user_start_index] in E. rewrite <- (layout_system _ _ _ _ _ HL), <- (layout_system _ _ _ _ _ HL'), E. reflexivity. }
  pose proof (slot_rule_iff txs) as Hslot. destruct (validate_block_slot_conflicts txs) as [[]|e]; cbn [map_err lift mbind exec_bind].
  2:{ intros [_ _ [F _ _ _ _] _ _ _ _ _]. discriminate (proj2 Hslot F). }
  pose proof (proj1 Hslot eq_refl) as Hnd. clear Hslot.
  rewrite (layout_system _ _ _ _ _ HL). assert (Hws : Forall body_wf (cb :: option_list payout)).
  { destruct HL as [E _ _ _ _]. rewrite E in Hw. apply Forall_cons in Hw as [H1 [H2 _]%Forall_app]. now constructor. }
  pose proof (fold_result_check (fun b => live_input_count b =? 0) (fun _ => BlockErr.CoinbaseHasInputs) (cb :: option_list payout)) as Hin.
  destruct (fold_result _ tt (cb :: option_list payout)) as [[]|e]; cbn [lift mbind exec_bind].
  2:{ intros [(cb' & payout' & class' & gs' & HL' & F) _ _ _ _ _ _ _]. rewrite (Huniq _ _ _ _ HL') in F.
      assert (Err e = Ok tt) as [=]. apply Hin. rewrite Forall_forall in F. rewrite Forall_forall in Hws. apply Forall_forall. intros b Hb.
      apply system_inputs; [now apply Hws|]. now apply F. }
  pose proof (proj1 Hin eq_refl) as Hnoin. clear Hin.
  destruct (expand_to_ok c slots (Header.log_slots hdr) Hc Hse Hre Hl32 Hl1) as (c1 & -> & Hc1 & [Hd1 _] & L1 & Ev1 & Al1 & Ac1 & Su1 & Ct1).
  cbn [expect mbind exec_bind].
  pose proof (apply_bodies_cases (S (length (option_list payout))) (hdr_height hdr) (enumerate txs) Hh c1 slots Hc1) as Hfold.
  rewrite enumerate_snd, Al1, Ac1 in Hfold.
  assert (Hav : Z.of_nat (log_slots (cs_state c)) <= Header.log_slots hdr ->
    actions_ok (available (cs_state c1)) slots (cs_alloc_counter c) txs
    <-> actions_ok (available_at c (Z.to_nat (Header.log_slots hdr))) slots (cs_alloc_counter c) txs).
  { intros Hle. apply actions_avail. intros i _. unfold available, available_at, num_slots, seg_id_of.
    rewrite (ok_eff _ _ (rt_state _ _ (co_rooted _ _ Hc1))), L1, Ev1. replace (Nat.max _ _) with (Z.to_nat (Header.log_slots hdr)) by lia. reflexivity. }
  specialize (Hfold ltac:(intros seg Hin; rewrite Hd1 in Hin; now apply not_elem_of_empty in Hin)).
  assert (Hwp : Forall (fun p : nat * TxBody => body_wf p.2) (enumerate txs)).
  { apply Forall_forall. intros [i b] Hp. apply (list_elem_of_fmap_2 snd) in Hp. rewrite enumerate_snd in Hp. cbn [snd] in *.
    rewrite Forall_forall in Hw. auto. }
  specialize (Hfold Hwp Hnd). destruct (exec_fold _ c1 (enumerate txs)) as [c2|e|]; cbn [mbind exec_bind]; [| |exact Hfold].
  - destruct Hfold as (Hsys & Hact & Hcv & Had). apply enumerate_canonical in Hsys. rewrite (layout_system _ _ _ _ _ HL) in Hsys.
    pose proof (seal_cases c slots block c1 c2 Hw (ex_intro _ cb (ex_intro _ payout (ex_intro _ class (ex_intro _ gs HL)))) (proj1 Hl32) L1 Ev1 Al1 Ac1 Su1 Had) as Hseal. cbn zeta in Hseal. fold txs hdr in Hseal.
    destruct (match try_state_root c2 with Some _ => _ | None => _ end) as [[root c']|e|]; [| |exact Hseal].
    + destruct Hseal as ((K1 & K2 & K3 & K4) & K5 & K6 & K7 & K8 & K9 & K10 & K11 & K12 & K13 & K14). cbn [block_outcome].
      pose proof (ad_counted _ _ _ _ _ Had) as Hct. rewrite Al1 in Hct. fold txs hdr in K14 |- *.
      split; [|repeat (split; [assumption|]); intros H1 H2; apply K14, Hct; auto]. constructor; fold txs hdr; try assumption.
      * exists cb, payout, class, gs. split; [exact HL|]. rewrite Forall_forall in Hsys. rewrite Forall_forall in Hnoin. rewrite Forall_forall in Hws.
        apply Forall_forall. intros b Hb. split; [now apply Hsys|]. apply system_inputs; [now apply Hws|]. now apply Hnoin.
      * now apply Hav.
    + intros [F1 F2 F3 _ F4 F5 F6 F7]. apply Hseal. auto.
  - intros [(cb' & payout' & class' & gs' & HL' & F) F2 F3 F4 _ _ _ _]. rewrite (Huniq _ _ _ _ HL') in F. apply Hfold. split; [|split; [now apply Hav|exact F4]].
    apply enumerate_canonical. rewrite (layout_system _ _ _ _ _ HL). eapply Forall_impl; [exact F|]. cbv beta. tauto.
Qed.

End Loop.

(** ** Properties *)

(** C3. Blocks apply exactly.  On a sealed chain state, for a block whose header
    depth is at most one above the state, [apply_block] never panics.  It succeeds
    precisely when the bodies form a valid layout with canonical system mints, all
    touched slots of the block are distinct, in the target domain and in memory,
    the inputs match and the outputs find empty slots in the state before the
    block, the live count covers the inputs of every body, and the root, both
    counters, the depth and the transaction root of the header are those of the
    result.  The new state is sealed under the header root, keeps the invariant,
    and its supply moves by outputs minus inputs.  When the live count is exact
    and no input claims what an empty slot holds, the inputs are covered of
    themselves and the count stays exact. *)
Theorem apply_block_exact {R : RawCommit StateHash} (c : ChainState (D := StateHash)) (slots : Z -> SlotValue) (block : Block) :
  (forall cols, 0 <= column_capacity cols) -> chain_ok c slots -> sealed c slots -> rehashable c ->
  Forall body_wf (transactions block) -> 0 <= hdr_height (header block) < 2 ^ 63 ->
  0 <= Header.log_slots (header block) <= 32 -> Header.log_slots (header block) <= Z.of_nat (log_slots (cs_state c)) + 1 ->
  block_outcome c slots block (apply_block c block)
  /\ forall avail, counted c slots -> Forall real_spends (transactions block) ->
       actions_ok avail slots (cs_alloc_counter c) (transactions block) -> covered (cs_active_slot_count c) (transactions block).
Proof.
  intros Hcap Hc Hse Hre Hw Hh Hl Hl1. split; [exact (apply_block_cases Hcap c slots block Hc Hse Hre Hw Hh Hl Hl1)|].
  intros avail Hct Hne Hact. apply covered_bound. exact (spends_bound c slots avail _ Hw Hne Hc Hct Hact).
Qed.

Definition example_child (state_root tx_root : list Z) : Block :=
  mkBlock (mkHeader (replicate 32 0) state_root tx_root 1700000000 1 (replicate 32 8) 0 GENESIS_TARGET 3 1 1) [example_mint].

Lemma example_layout : block_layout hash_tx8x2_leaves sponge_pairs [example_mint] example_mint None B25 [].
Proof.
  constructor; try reflexivity; [discriminate|]. exists B25. constructor; try reflexivity; [constructor|vm_compute; discriminate..|constructor].
Qed.

Lemma example_child_actions (c : ChainState (D := StateHash)) : evicted (cs_state c) = ∅ ->
  actions_ok (available_at c 3) (fun _ => EMPTY) 0 [example_mint].
Proof.
  intros Ev. assert (E : [example_mint] ≫= touched_slots = [2]) by reflexivity. constructor; rewrite ?E.
  - apply NoDup_singleton.
  - intros i Hi. apply list_elem_of_singleton in Hi as ->. split; [reflexivity|]. rewrite Ev. apply not_elem_of_empty.
  - intros b p Hb Hp. apply list_elem_of_singleton in Hb as ->. now apply not_elem_of_nil in Hp.
  - reflexivity.
  - reflexivity.
Qed.

Definition example_after : Z -> SlotValue := write_slots (fun _ => EMPTY) (block_updates 1 0 [example_mint]).

Lemma example_bodies : Forall body_wf [example_mint] /\ Forall real_spends [example_mint].
Proof. split; (constructor; [|constructor]); [exact example_mint_wf|]. intros p Hp. now apply not_elem_of_nil in Hp. Qed.

(** A coinbase block on the empty state of four slots, which it doubles. *)
Lemma example_applies : exists (c : ChainState (D := StateHash)) txr, with_log_slots (RawCommit0 := null_commit) 2 = Some c
  /\ chain_ok c (fun _ => EMPTY) /\ sealed c (fun _ => EMPTY) /\ log_slots (cs_state c) = 2%nat /\ evicted (cs_state c) = ∅
  /\ cs_alloc_counter c = 0 /\ counted c (fun _ => EMPTY) /\ try_compute_tx_root [example_mint] = Return txr
  /\ block_ok c (fun _ => EMPTY) (example_child (ChainInvariant.state_root example_after 3) txr).
Proof.
  destruct (with_log_slots_ok (RawCommit0 := null_commit) (D := StateHash) 2 ltac:(lia)) as (c & E & Hc & Hse & L & Ev & Al & Ct).
  destruct (layout_tx_root [example_mint] _ _ _ _ (proj1 example_bodies) example_layout) as [txr Etx].
  exists c, txr. repeat (split; [assumption|]).
  constructor; cbn [example_child header transactions Header.log_slots Header.state_root hdr_height Header.active_slot_count Header.alloc_counter Header.tx_root]; rewrite ?Al, ?L.
  - exists example_mint, None, B25, []. split; [exact example_layout|]. constructor; [split; reflexivity|constructor].
  - cbn. lia.
  - now apply example_child_actions.
  - apply covered_bound. exact (proj1 (co_active _ _ Hc)).
  - reflexivity.
  - rewrite Ct, L. reflexivity.
  - reflexivity.
  - exact Etx.
Qed.

Lemma apply_block_exact_witness :
  exists (c : ChainState (D := StateHash)) block root c', with_log_slots (RawCommit0 := null_commit) 2 = Some c
  /\ apply_block (R := null_commit) c block = Return (root, c') /\ cs_circulating_supply c' = 50 /\ log_slots (cs_state c') = 3%nat.
Proof.
  destruct example_applies as (c & txr & E & Hc & Hse & L & Ev & Al & _ & Etx & Hok). set (block := example_child _ txr) in *.
  assert (Hre : rehashable c) by (intros _ seg _; rewrite Ev; apply not_elem_of_empty).
  pose proof (apply_block_exact (R := null_commit) c (fun _ => EMPTY) block (fun _ => Z.le_refl 0) Hc Hse Hre (proj1 example_bodies)
    ltac:(cbn; lia) ltac:(cbn; lia) ltac:(cbn; lia)) as [H _].
  destruct (apply_block c block) as [[root c']|e|] eqn:Ea; cbn [block_outcome] in H; [|now destruct (H Hok)|destruct H].
  exists c, block, root, c'. split; [exact E|]. split; [exact Ea|]. destruct H as (_ & _ & _ & _ & Hl & _ & _ & _ & Hs & _). split.
  - etransitivity; [exact Hs|]. change (transactions block) with [example_mint]. rewrite (co_supply _ _ Hc), L. reflexivity.
  - change (Header.log_slots (header block)) with 3 in Hl. change (Z.of_nat (log_slots (cs_state c')) = Z.of_nat 3) in Hl. lia.
Defined.
