(* ===== verification/BlockWire.v ===== *)
(** * Block wire format ([noid_chain/src/block.rs])

    The byte form of a block: marker, header, record count and fixed-size
    records, where system mints and spend pages are told apart by a probe. *)

From Stdlib Require Import ZArith Lia Bool.
From stdpp Require Import base numbers list option gmap.
From S2P Require Import Prelude Params Codec Tx TxWire PagedSpend Rules Assembly Stream Poseidon Sponge Merkle TxTree Header SparseMerkle StateTree HeapTree HotSegments StreamRoot Segmented ChainState ApplyTx BlockApply.
Open Scope Z_scope.

(** ** Constants *)

Definition BLOCK_WIRE_MARKER : Z := 0xB3.
Definition BLOCK_WIRE_HEADER_OFFSET : nat := 1.
Definition BLOCK_WIRE_FIXED_OVERHEAD : nat := 1 + BLOCK_HEADER_WIRE_SIZE + 4.
Definition BLOCK_WIRE_NONCE_OFFSET : nat := BLOCK_WIRE_HEADER_OFFSET + BLOCK_HEADER_NONCE_OFFSET.

Definition canonical_block_wire_len (tx_count : nat) : result WireError Z :=
  _ ← ensure (Z.of_nat tx_count <=? BLOCK_MAX_TXS) LengthOverflow;
  ok_or (tx_bytes ← checked_mul 64 (Z.of_nat tx_count) (Z.of_nat TX_BODY_WIRE_SIZE);
         checked_add 64 (Z.of_nat BLOCK_WIRE_FIXED_OVERHEAD) tx_bytes) LengthOverflow.

Definition canonical_wire_len (block : Block) : result WireError Z := canonical_block_wire_len (length (transactions block)).

(** ** Encoding *)

(** One record after the first; [None] is the panic of an assertion. *)
Definition encode_record (tx : TxBody) : option (list Z) :=
  if is_coinbase tx then TxBody_encode tx
  else match TxPage_encode tx with Ok bytes => Some bytes | Err _ => None end.

Definition Block_encode (block : Block) : option (list Z) :=
  let txs := transactions block in
  if negb (Z.of_nat (length txs) <=? BLOCK_MAX_TXS) then None
  else if negb (bool_decide (txs = [])) && negb (is_ok (block_stream txs)) then None
  else
    let buf := put_bytes [BLOCK_WIRE_MARKER] ++ BlockHeader_encode (header block) ++ put_u32 (Z.of_nat (length txs)) in
    buf ← match head txs with
          | Some coinbase => bytes ← TxBody_encode coinbase; Some (buf ++ bytes)
          | None => Some buf
          end;
    fold_option (fun buf tx => bytes ← encode_record tx; Some (buf ++ bytes)) buf (drop 1 txs).

(** ** Decoding *)

Definition page_wire_error (error : PagedSpendError) : WireError :=
  match error with Wire error => error | _ => NonCanonicalBody end.

(** The probe reads a copy of the cursor. *)
Definition decode_record : parser WireError TxBody := fun src =>
  let page := map_err page_wire_error (TxPage_decode src) in
  match TxBody_decode src with
  | Ok (system, probe) => if is_coinbase system then Ok (system, probe) else page
  | Err _ => page
  end.

Definition decode_coinbase : parser WireError TxBody :=
  coinbase ← TxBody_decode;
  _ ← lift_result (ensure (is_coinbase coinbase) NonCanonicalBody);
  mret coinbase.

Definition decode_records (n : Z) : parser WireError (list TxBody) :=
  first ← (if 0 <? n then coinbase ← decode_coinbase; mret [coinbase] else mret []);
  rest ← decode_many decode_record (Z.to_nat (n - 1));
  mret (first ++ rest).

Definition Block_decode : parser WireError Block :=
  marker ← take_bytes Truncated 1;
  _ ← lift_result (ensure (bool_decide (marker = [BLOCK_WIRE_MARKER])) BadMarker);
  header ← BlockHeader_decode;
  n ← take_u32;
  _ ← lift_result (ensure (n <=? BLOCK_MAX_TXS) LengthOverflow);
  transactions ← decode_records n;
  _ ← lift_result (if 0 <? n then map_err (fun _ => NonCanonicalBody) (block_stream transactions ≫= (fun _ => Ok tt)) else Ok tt);
  mret (mkBlock header transactions).

Definition Block_from_bytes (bytes : list Z) : result WireError Block := decode_exact TrailingBytes Block_decode bytes.

(** ** Lemmas *)

(** A record in wire form: canonical as a mint or as a page. *)
Definition record_wf (b : TxBody) : Prop := body_wf b
  /\ if is_coinbase b then validate_body_semantics_no_hash b = Ok tt else validate_page_shape b 0 = Ok tt.

#[export] Instance lawful_record : LawfulCodec TxBody_bytes decode_record record_wf.
Proof.
  split; unfold decode_record; cbn zeta.
  - intros b rest [Hb Hk]. unfold TxBody_decode. erewrite parser_bind_run by (apply codec_print_parse; exact Hb).
    change (TxBody_bytes b) with (encode_page_body b). unfold mbind at 1, parser_bind at 1, lift_result. destruct (is_coinbase b) eqn:Ec.
    + rewrite Hk. cbn [map_err mret]. unfold mret, parser_ret. now rewrite Ec.
    + assert (Hp : page_wf b) by now split.
      rewrite (codec_print_parse (enc := encode_page_body) (dec := TxPage_decode) b rest Hp).
      destruct (validate_body_semantics_no_hash b) as [[]|]; cbn [map_err]; [|reflexivity]. unfold mret, parser_ret. now rewrite Ec.
  - intros bs b rest Hbs.
    assert (Hpage : map_err page_wire_error (TxPage_decode bs) = Ok (b, rest) -> bs = TxBody_bytes b ++ rest /\ record_wf b).
    { intros H. apply map_err_ok_iff in H. apply codec_parse_print in H as [-> [Hw Hs]]; [|exact Hbs]. split; [reflexivity|]. split; [exact Hw|].
      assert (is_coinbase b = false) as ->; [|exact Hs]. apply (validate_page_shape_iff b 0 Hw) in Hs. apply Hs. }
    destruct (TxBody_decode bs) as [[s probe]|e] eqn:E; [|exact Hpage]. destruct (is_coinbase s) eqn:Ec; [|exact Hpage].
    intros [= <- <-]. apply codec_parse_print in E as [-> [Hw Hs]]; [|exact Hbs]. split; [reflexivity|]. split; [exact Hw|]. now rewrite Ec.
Qed.

#[export] Instance lawful_coinbase : LawfulCodec TxBody_bytes decode_coinbase (fun b => record_wf b /\ is_coinbase b = true).
Proof.
  pose proof (lawful_checked TxBody_bytes TxBody_decode _ (fun b => ensure (is_coinbase b) NonCanonicalBody)) as [H1 H2].
  split; unfold decode_coinbase.
  - intros b rest [[Hw Hk] Hc]. rewrite Hc in Hk. apply H1. rewrite Hc. auto.
  - intros bs b rest Hbs H. destruct (H2 bs b rest Hbs H) as [E [[Hw Hk] Hc%ensure_ok_iff]]. split; [exact E|]. split; [|exact Hc]. split; [exact Hw|].
    now rewrite Hc.
Qed.

Definition records_wf (n : Z) (txs : list TxBody) : Prop :=
  Z.of_nat (length txs) = n /\ Forall record_wf txs /\ forall cb, head txs = Some cb -> is_coinbase cb = true.

Lemma lawful_records n : 0 <= n -> LawfulCodec (put_many TxBody_bytes) (decode_records n) (records_wf n).
Proof.
  intros Hn. split; unfold decode_records, records_wf.
  - intros [|cb txs] rest (Hl & Hw & Hc).
    + cbn [length] in Hl. rewrite <- Hl. reflexivity.
    + cbn [length] in Hl. destruct (Z.ltb_spec 0 n); [|lia]. apply Forall_cons in Hw as [Hcb Hw]. unfold put_many. rewrite bind_cons, <- app_assoc.
      erewrite parser_bind_run. 2:{ erewrite parser_bind_run by (apply codec_print_parse; split; [exact Hcb|now apply Hc]). reflexivity. }
      cbv beta. replace (Z.to_nat (n - 1)) with (length txs) by lia.
      erewrite parser_bind_run by (apply (codec_print_parse (LawfulCodec := lawful_many TxBody_bytes decode_record record_wf (length txs))); auto).
      reflexivity.
  - intros bs txs rest Hbs H. apply parser_bind_ok in H as (first & mid & H1 & H). apply parser_bind_ok in H as (tl & mid2 & H2 & H).
    injection H as <- <-. destruct (Z.ltb_spec 0 n) as [Hpos|Hz].
    + apply parser_bind_ok in H1 as (cb & mid' & H1 & [= <- <-]). apply codec_parse_print in H1 as [-> [Hcb Hc]]; [|exact Hbs].
      apply bytes_ok_app in Hbs as [_ Hbs].
      apply (codec_parse_print (LawfulCodec := lawful_many TxBody_bytes decode_record record_wf _)) in H2 as [-> [Hl Hw]]; [|exact Hbs].
      unfold put_many. cbn [app]. rewrite bind_cons, <- app_assoc. split; [reflexivity|]. cbn [length head]. split; [lia|]. split; [now constructor|congruence].
    + injection H1 as <- <-. replace (Z.to_nat (n - 1)) with 0%nat in H2 by lia. injection H2 as <- <-. split; [reflexivity|].
      cbn. split; [lia|]. split; [constructor|discriminate].
Qed.

(** A block in wire form. *)
Record block_wf (block : Block) : Prop := {
  bw_header : header_wf (header block);
  bw_count : Z.of_nat (length (transactions block)) <= BLOCK_MAX_TXS;
  bw_records : Forall record_wf (transactions block);
  bw_stream : transactions block <> [] -> is_ok (block_stream (transactions block)) = true
}.

Definition block_bytes (block : Block) : list Z :=
  put_bytes [BLOCK_WIRE_MARKER] ++ BlockHeader_encode (header block) ++ put_u32 (Z.of_nat (length (transactions block)))
  ++ put_many TxBody_bytes (transactions block).

Lemma stream_coinbase txs cb : is_ok (block_stream txs) = true -> head txs = Some cb -> is_coinbase cb = true.
Proof.
  unfold block_stream, validate_block_page_stream. intros H Hh. rewrite Hh in H. cbn [ok_or mbind result_bind] in H.
  destruct (is_coinbase cb) eqn:Ec; [reflexivity|exfalso]. destruct txs as [|b txs]; [discriminate|]. injection Hh as ->.
  assert (Es : is_primary_coinbase_shape cb = false) by (unfold is_primary_coinbase_shape; now rewrite Ec).
  repeat (rewrite ?Ec, ?Es in H; cbn [negb ensure mbind result_bind is_ok] in H; try discriminate H).
Qed.

#[export] Instance lawful_Block : LawfulCodec block_bytes Block_decode block_wf.
Proof.
  split; unfold Block_decode.
  - intros [hdr txs] rest [Hh Hn Hr Hs]. cbn [header transactions] in *. unfold block_bytes. cbn [header transactions]. rewrite <- !app_assoc.
    unfold BLOCK_MAX_TXS in *.
    assert (Hm : array_ok 1 [BLOCK_WIRE_MARKER]).
    { split; [reflexivity|]. apply Forall_singleton. unfold byte_ok, in_range, BLOCK_WIRE_MARKER. lia. }
    erewrite parser_bind_run by (apply codec_print_parse; exact Hm). cbv beta.
    unfold mbind at 1, parser_bind at 1, lift_result at 1. rewrite bool_decide_eq_true_2 by reflexivity. cbn [ensure].
    erewrite parser_bind_run by (apply codec_print_parse; exact Hh). cbv beta.
    erewrite parser_bind_run by (apply codec_print_parse; split; cbn; lia). cbv beta.
    unfold mbind at 1, parser_bind at 1, lift_result at 1. rewrite (proj2 (Z.leb_le _ _) Hn). cbn [ensure].
    erewrite parser_bind_run.
    2:{ apply (codec_print_parse (LawfulCodec := lawful_records (Z.of_nat (length txs)) ltac:(lia))). split; [reflexivity|]. split; [exact Hr|].
        intros cb Hcb. apply (stream_coinbase txs); [|exact Hcb]. apply Hs. now destruct txs. }
    cbv beta. unfold mbind at 1, parser_bind at 1, lift_result at 1. destruct txs as [|b txs]; [reflexivity|].
    cbn [length Z.of_nat Z.ltb Z.compare]. specialize (Hs ltac:(discriminate)). destruct (block_stream (b :: txs)); [reflexivity|discriminate Hs].
  - intros bs block rest Hbs H. apply parser_bind_ok in H as (marker & m1 & H1 & H). apply codec_parse_print in H1 as [-> _]; [|exact Hbs].
    apply bytes_ok_app in Hbs as [_ Hbs]. apply parser_bind_ok in H as ([] & m2 & H2 & H). unfold lift_result in H2.
    case_bool_decide as Em; cbn [ensure] in H2; [|discriminate H2]. injection H2 as <-. subst marker.
    apply parser_bind_ok in H as (hdr & m3 & H3 & H). apply codec_parse_print in H3 as [-> Hh]; [|exact Hbs]. apply bytes_ok_app in Hbs as [_ Hbs].
    apply parser_bind_ok in H as (n & m4 & H4 & H). apply codec_parse_print in H4 as [-> [Hn0 _]]; [|exact Hbs]. apply bytes_ok_app in Hbs as [_ Hbs].
    apply parser_bind_ok in H as ([] & m5 & H5 & H). unfold lift_result in H5. destruct (Z.leb_spec n BLOCK_MAX_TXS) as [Hn|]; cbn [ensure] in H5; [|discriminate H5].
    injection H5 as <-. apply parser_bind_ok in H as (txs & m6 & H6 & H).
    apply (codec_parse_print (LawfulCodec := lawful_records n Hn0)) in H6 as [-> (Hl & Hr & _)]; [|exact Hbs].
    apply parser_bind_ok in H as ([] & m7 & H7 & H). injection H as <- <-. unfold lift_result in H7.
    assert (Hs : txs <> [] -> is_ok (block_stream txs) = true).
    { intros Hne. destruct (Z.ltb_spec 0 n); [|destruct txs; [contradiction|cbn [length] in Hl; lia]].
      destruct (block_stream txs); [reflexivity|discriminate H7]. }
    assert (m6 = m7) as <-.
    { destruct (0 <? n); [|now injection H7]. destruct (block_stream txs); [now injection H7|discriminate H7]. }
    split; [unfold block_bytes; cbn [header transactions]; rewrite Hl, <- !app_assoc; reflexivity|]. constructor; cbn [header transactions]; [exact Hh|lia|exact Hr|exact Hs].
Qed.

(** ** The encoder *)

Lemma encode_record_iff b bytes : body_wf b -> encode_record b = Some bytes <-> record_wf b /\ bytes = TxBody_bytes b.
Proof.
  intros Hw. unfold encode_record, record_wf, TxBody_encode, TxPage_encode. change (encode_page_body b) with (TxBody_bytes b).
  destruct (is_coinbase b).
  - destruct (validate_body_semantics_no_hash b) as [[]|]; cbn [is_ok]; split; try (intros [= <-]); try (intros [[_ ?] ->]); try congruence; auto.
  - destruct (validate_page_shape b 0) as [[]|]; cbn [mbind result_bind]; split; try (intros [= <-]); try (intros [[_ ?] ->]); try congruence; auto.
Qed.

Lemma encode_records_iff txs : Forall body_wf txs -> forall buf bytes,
  fold_option (fun buf tx => bytes ← encode_record tx; Some (buf ++ bytes)) buf txs = Some bytes
  <-> Forall record_wf txs /\ bytes = buf ++ put_many TxBody_bytes txs.
Proof.
  induction 1 as [|b txs Hb Hw IH]; intros buf bytes; cbn [fold_option].
  - unfold put_many. cbn. rewrite app_nil_r. split; [intros [= <-]; auto|now intros [_ ->]].
  - unfold put_many. rewrite bind_cons, app_assoc. pose proof (encode_record_iff b) as Hr. destruct (encode_record b) as [bs|] eqn:E; cbn [mbind option_bind].
    + destruct (proj1 (Hr bs Hb) eq_refl) as [Hk ->]. rewrite IH. rewrite Forall_cons. unfold put_many. tauto.
    + split; [discriminate|]. intros [[Hk _]%Forall_cons _]. discriminate (proj2 (Hr _ Hb) (conj Hk eq_refl)).
Qed.

Lemma Block_encode_iff block bytes : header_wf (header block) -> Forall body_wf (transactions block) ->
  Block_encode block = Some bytes <-> block_wf block /\ bytes = block_bytes block.
Proof.
  intros Hh Hw. unfold Block_encode. cbn zeta. set (txs := transactions block) in *.
  destruct (Z.leb_spec (Z.of_nat (length txs)) BLOCK_MAX_TXS) as [Hn|Hn]; cbn [negb].
  2:{ split; [discriminate|]. intros [[_ F _ _] _]. fold txs in F. lia. }
  destruct (negb (bool_decide (txs = [])) && negb (is_ok (block_stream txs))) eqn:Es.
  { split; [discriminate|]. intros [[_ _ _ F] _]. fold txs in F. apply andb_true_iff in Es as [E1 E2]. apply negb_true_iff in E1, E2.
    apply bool_decide_eq_false in E1. rewrite (F E1) in E2. discriminate. }
  assert (Hs : txs <> [] -> is_ok (block_stream txs) = true).
  { intros Hne. rewrite bool_decide_eq_false_2 in Es by exact Hne. now destruct (is_ok (block_stream txs)). }
  assert (Ehead : forall buf, (match head txs with Some coinbase => bytes ← TxBody_encode coinbase; Some (buf ++ bytes) | None => Some buf end)
      ≫= (fun buf => fold_option (fun buf tx => bytes ← encode_record tx; Some (buf ++ bytes)) buf (drop 1 txs))
    = fold_option (fun buf tx => bytes ← encode_record tx; Some (buf ++ bytes)) buf txs).
  { intros buf. destruct txs as [|cb txs'] eqn:Et; [reflexivity|]. cbn [head drop fold_option].
    assert (encode_record cb = TxBody_encode cb) as ->; [|reflexivity].
    unfold encode_record. now rewrite (stream_coinbase (cb :: txs') cb (Hs ltac:(discriminate)) eq_refl). }
  rewrite Ehead, (encode_records_iff txs Hw). unfold block_bytes. fold txs. rewrite <- !app_assoc. split.
  - intros [Hr ->]. split; [constructor; assumption|reflexivity].
  - intros [[_ _ Hr _] ->]. auto.
Qed.

Lemma length_header h : header_wf h -> length (BlockHeader_encode h) = BLOCK_HEADER_WIRE_SIZE.
Proof.
  intros [[H1 _] [H2 _] [H3 _] _ _ [H4 _] _ [H5 _] _ _ _]. unfold BlockHeader_encode, put_bytes.
  rewrite !length_app, H1, H2, H3, H4, H5. reflexivity.
Qed.

Lemma length_block_bytes block : block_wf block -> canonical_wire_len block = Ok (Z.of_nat (length (block_bytes block))).
Proof.
  intros [Hh Hn Hr _]. unfold canonical_wire_len, canonical_block_wire_len, block_bytes. rewrite (proj2 (Z.leb_le _ _) Hn). cbn [ensure mbind result_bind].
  rewrite !length_app, (length_put_many TxBody_bytes _ TX_BODY_WIRE_SIZE).
  2:{ eapply Forall_impl; [exact Hr|]. intros b [Hb _]. now apply length_TxBody_bytes. }
  rewrite (length_header _ Hh). unfold BLOCK_MAX_TXS in Hn. change (length (put_bytes [BLOCK_WIRE_MARKER])) with 1%nat.
  change (length (put_u32 (Z.of_nat (length (transactions block))))) with 4%nat.
  unfold checked_mul, checked_add. change (Z.of_nat TX_BODY_WIRE_SIZE) with 323. change (Z.of_nat BLOCK_WIRE_FIXED_OVERHEAD) with 217.
  destruct (Z.ltb_spec (Z.of_nat (length (transactions block)) * 323) (2 ^ 64)); [|lia]. cbn [mbind option_bind].
  destruct (Z.ltb_spec (217 + Z.of_nat (length (transactions block)) * 323) (2 ^ 64)); [|lia]. cbn [ok_or].
  f_equal. rewrite !Nat2Z.inj_add, Nat2Z.inj_mul. change (Z.of_nat TX_BODY_WIRE_SIZE) with 323. change (Z.of_nat BLOCK_HEADER_WIRE_SIZE) with 212. lia.
Qed.

(** Pages of an accepted stream have the page shape, so the encoder's
    expectation holds. *)
Lemma stream_shapes txs facts : Forall body_wf txs -> block_stream txs = Ok facts ->
  Forall (fun b => is_coinbase b = false -> validate_page_shape b 0 = Ok tt) txs.
Proof.
  intros Hw H. apply (block_stream_iff hash_tx8x2_leaves sponge_pairs txs facts Hw) in H as (cb & payout & class & gs & HL & _).
  destruct HL as [-> Hcb Hpay [k Hst] _]. apply Forall_cons in Hw as [_ [_ Hw]%Forall_app]. constructor.
  { intros F. unfold is_primary_coinbase_shape in Hcb. rewrite F in Hcb. discriminate. }
  apply Forall_app. split.
  - destruct payout as [d|]; [|constructor]. constructor; [|constructor]. intros F. specialize (Hpay d eq_refl).
    unfold is_development_payout_shape in Hpay. rewrite F in Hpay. discriminate.
  - pose proof (sv_spends _ _ _ _ _ Hst) as Hv. clear Hst Hpay. induction Hv as [|[g f] gs Hg Hgs IH]; [constructor|].
    rewrite spend_pages_cons in *. apply Forall_app in Hw as [W1 W2]. apply Forall_app. split; [|auto].
    apply (validate_paged_spend_valid _ _ g f W1) in Hg as (first & V & _). pose proof (vs_shape _ _ V) as Hsh.
    rewrite Forall_forall in Hsh, W1. apply Forall_forall. intros b Hb _. apply validate_page_shape_iff; auto.
Qed.

(** What an encodable block is: the assertions of the encoder. *)
Definition encodable (block : Block) : Prop :=
  let txs := transactions block in
  Z.of_nat (length txs) <= BLOCK_MAX_TXS /\ (txs <> [] -> exists facts, block_stream txs = Ok facts)
  /\ Forall (fun b => is_coinbase b = true -> validate_body_semantics_no_hash b = Ok tt) txs.

Lemma encodable_iff block : header_wf (header block) -> Forall body_wf (transactions block) -> block_wf block <-> encodable block.
Proof.
  intros Hh Hw. unfold encodable. cbn zeta. set (txs := transactions block) in *. split.
  - intros [_ Hn Hr Hs]. fold txs in Hn, Hr, Hs. split; [exact Hn|]. split.
    + intros Hne. specialize (Hs Hne). destruct (block_stream txs); [eauto|discriminate Hs].
    + eapply Forall_impl; [exact Hr|]. intros b [_ Hk] Hc. now rewrite Hc in Hk.
  - intros (Hn & Hs & Hc). constructor; fold txs; [exact Hh|exact Hn| |].
    + assert (Hp : Forall (fun b => is_coinbase b = false -> validate_page_shape b 0 = Ok tt) txs).
      { destruct txs as [|b txs'] eqn:Et; [constructor|]. destruct (Hs ltac:(discriminate)) as [facts E]. exact (stream_shapes _ facts Hw E). }
      rewrite Forall_forall in Hw, Hc, Hp. apply Forall_forall. intros b Hb. split; [auto|]. destruct (is_coinbase b) eqn:E; auto.
    + intros Hne. destruct (Hs Hne) as [facts ->]. reflexivity.
Qed.

Lemma copy_at_middle (a l b data : list Z) at_ : (at_ + length data <= length l)%nat ->
  copy_at (length a + at_) data (a ++ l ++ b) = a ++ copy_at at_ data l ++ b.
Proof.
  intros H. unfold copy_at. rewrite take_app_add, <- app_assoc. f_equal. rewrite take_app_le by lia.
  replace (length a + at_ + length data)%nat with (length a + (at_ + length data))%nat by lia.
  rewrite drop_app_add, drop_app_le by lia. now rewrite <- !app_assoc.
Qed.

(** ** Properties *)

(** C25. The block codec is a bijection between canonical blocks and the byte
    strings it accepts: [from_bytes] returns a block precisely when the bytes are
    what the encoder writes for that block, whose fields are within their types.
    The encoder panics only on more than 256 records, an invalid page stream or
    a system mint that is not canonical; the expectation on page bodies never
    fails.  The length is the one computed from the count alone, and patching
    sixteen bytes at [BLOCK_WIRE_NONCE_OFFSET] is the block with another nonce. *)
Theorem block_wire_bijection (bytes : list Z) (block : Block) :
  bytes_ok bytes ->
  (Block_from_bytes bytes = Ok block
   <-> header_wf (header block) /\ Forall body_wf (transactions block) /\ Block_encode block = Some bytes)
  /\ (header_wf (header block) -> Forall body_wf (transactions block) ->
      (is_Some (Block_encode block) <-> encodable block)
      /\ (Block_encode block = Some bytes ->
          canonical_wire_len block = Ok (Z.of_nat (length bytes))
          /\ forall n, u128 n -> Block_encode (mkBlock (with_nonce (header block) n) (transactions block))
               = Some (copy_at BLOCK_WIRE_NONCE_OFFSET (to_le_bytes 16 n) bytes))).
Proof.
  intros Hb. split.
  - unfold Block_from_bytes. rewrite (decode_exact_iff block_bytes Block_decode _ TrailingBytes bytes block Hb). split.
    + intros [-> Hw]. pose proof Hw as [Hh _ Hr _]. assert (Hbs : Forall body_wf (transactions block)) by (eapply Forall_impl; [exact Hr|]; now intros b [? _]).
      split; [exact Hh|]. split; [exact Hbs|]. now apply Block_encode_iff.
    + intros (Hh & Hw & E). apply Block_encode_iff in E as [Hk ->]; auto.
  - intros Hh Hw. split.
    + rewrite <- (encodable_iff block Hh Hw). split; [intros [bs E]; now apply (Block_encode_iff block bs) in E|].
      intros Hk. exists (block_bytes block). now apply Block_encode_iff.
    + intros E. apply Block_encode_iff in E as [Hk ->]; [|exact Hh|exact Hw]. split; [now apply length_block_bytes|]. intros n Hn.
      apply Block_encode_iff; cbn [header transactions]; [now apply with_nonce_wf|exact Hw|]. split.
      * destruct Hk as [_ K1 K2 K3]. constructor; cbn [header transactions]; [now apply with_nonce_wf|assumption..].
      * unfold block_bytes. cbn [header transactions]. rewrite (nonce_patch _ n Hh).
        apply (copy_at_middle [BLOCK_WIRE_MARKER]). rewrite length_header by exact Hh. rewrite (proj1 (to_le_bytes_array 16 n)).
        apply Nat.leb_le. reflexivity.
Qed.

Lemma block_wire_bijection_witness : exists bytes,
  Block_from_bytes bytes = Ok (example_child (replicate 32 1) (replicate 32 2)) /\ canonical_block_wire_len 1 = Ok (Z.of_nat (length bytes)).
Proof.
  set (block := example_child (replicate 32 1) (replicate 32 2)).
  assert (Hh : header_wf (header block)) by (constructor; try (split; [reflexivity|]; repeat constructor; cbn; lia); split; cbn; lia).
  assert (Hk : encodable block).
  { split; [vm_compute; discriminate|]. split; [intros _|constructor; [intros _; reflexivity|constructor]]. exists (layout_facts None B25 []).
    apply (block_stream_iff hash_tx8x2_leaves sponge_pairs); [exact (proj1 example_bodies)|]. exists example_mint, None, B25, []. split; [exact example_layout|reflexivity]. }
  assert (Hb : bytes_ok (block_bytes block)) by (unfold bytes_ok, byte_ok, in_range; vm_compute; repeat constructor; discriminate).
  destruct (block_wire_bijection (block_bytes block) block Hb) as [[_ H1] H2]. destruct (H2 Hh (proj1 example_bodies)) as [_ H3].
  assert (E : Block_encode block = Some (block_bytes block)).
  { apply (Block_encode_iff block _ Hh (proj1 example_bodies)). split; [|reflexivity]. now apply encodable_iff; [|exact (proj1 example_bodies)|]. }
  exists (block_bytes block). split; [apply H1; split; [exact Hh|]; split; [exact (proj1 example_bodies)|exact E]|]. exact (proj1 (H3 E)).
Defined.
