(* ===== verification/StateDelta.v ===== *)
(** * The action surface of a block ([noid_chain/src/state_delta.rs],
      [noid_tx/src/claims.rs])

    The ordered touched-slot relation a block claims, read against the state
    before it, and the sorted old and new slots that a Merkle frontier opens. *)

From Stdlib Require Import ZArith Lia Bool Sorted.
From stdpp Require Import base numbers list option gmap sorting.
From S2P Require Import Prelude Params Tx Rules Assembly Poseidon Sponge Merkle SparseMerkle StateTree HeapTree HotSegments StreamRoot Segmented Resize ChainState ChainInvariant ApplyTx Transition BlockApply.
Open Scope Z_scope.

(** ** Claims *)

Definition compute_claims_commitment (body : TxBody) : list Z :=
  let s := with_iv (capacity_iv TAG_CLAIMS) in
  let s := absorb permute_mut s (validity_bitmap body) in
  let owner := as_fields (input_owner body) in
  let s := absorb_pair permute_mut s owner.1 owner.2 in
  let s := foldl (fun s (p : nat * TxInput) =>
    let s := absorb_pair permute_mut s (Z.of_nat p.1) (in_slot_index p.2) in
    absorb permute_mut s (pack_amount_creation_id (in_amount p.2) (in_creation_id p.2))) s (live_inputs body) in
  let s := foldl (fun s (p : nat * TxOutput) =>
    let s := absorb_pair permute_mut s (Z.of_nat (TX_INPUTS + p.1)) (out_slot_index p.2) in
    let s := absorb permute_mut s (out_amount p.2) in
    let owner := as_fields (out_owner p.2) in
    absorb_pair permute_mut s owner.1 owner.2) s (live_outputs body) in
  Poseidon2bSponge_finalize s.

(** ** Data *)

Inductive StateDeltaActionKind := Spend | Mint.

Record StateDeltaAction := mkAction {
  sd_tx_index : Z;
  sd_op_index : Z;
  sd_slot_index : Z;
  sd_pre : SlotValue;
  sd_post : SlotValue;
  sd_kind : StateDeltaActionKind
}.

Record StateDeltaActionSurface := mkSurface {
  sf_actions : list StateDeltaAction;
  sf_spends : Z;
  sf_mints : Z
}.

Record ExactActionSurface := mkExactSurface {
  es_actions : list StateDeltaAction;
  touched_indices : list Z;
  old_slots : list SlotValue;
  new_slots : list SlotValue;
  es_spends : Z;
  es_mints : Z
}.

Module Delta.
Inductive StateDeltaError :=
  | InputMismatch (tx_index input_index : nat)
  | OutputSlotOccupied (tx_index output_index : nat)
  | ClaimsCommitmentMismatch (tx_index : nat)
  | DuplicateInputSlot (tx_index : nat)
  | DuplicateOutputSlot (tx_index : nat)
  | InputOutputSlotOverlap (tx_index : nat)
  | BlockSlotConflict (tx_index op_index : nat)
  | SlotOutOfRange (tx_index : nat)
  | InvalidSlotDomain
  | AllocationCounterOverflow (tx_index output_index : nat)
  | ActionCountOverflow.
End Delta.
Abbreviation StateDeltaError := Delta.StateDeltaError (only parsing).

(** ** The builder *)

Definition shape_input (tx_idx : nat) (seen : gset Z) (p : nat * TxInput) : result StateDeltaError (gset Z) :=
  _ ← ensure (negb (bool_decide (in_slot_index p.2 ∈ seen))) (Delta.DuplicateInputSlot tx_idx);
  Ok ({[in_slot_index p.2]} ∪ seen).

Definition shape_output (tx_idx : nat) (seen_inputs seen : gset Z) (p : nat * TxOutput) : result StateDeltaError (gset Z) :=
  _ ← ensure (negb (bool_decide (out_slot_index p.2 ∈ seen))) (Delta.DuplicateOutputSlot tx_idx);
  _ ← ensure (negb (bool_decide (out_slot_index p.2 ∈ seen_inputs))) (Delta.InputOutputSlotOverlap tx_idx);
  Ok ({[out_slot_index p.2]} ∪ seen).

Definition check_tx_slot_shape (body : TxBody) (tx_idx : nat) : result StateDeltaError unit :=
  seen_inputs ← fold_result (shape_input tx_idx) ∅ (live_inputs body);
  _ ← fold_result (shape_output tx_idx seen_inputs) ∅ (live_outputs body);
  Ok tt.

Definition slot_value_from_input (input : TxInput) (owner : list Z) : SlotValue :=
  with_owner_fields (in_amount input) (in_creation_id input) (as_fields owner).

Definition slot_value_from_output (output : TxOutput) (creation_id : Z) : SlotValue :=
  with_owner_fields (out_amount output) creation_id (as_fields (out_owner output)).

(** The loop variables. *)
Record SurfaceState := mkSurfaceState {
  overlay : gmap Z SlotValue;
  ss_actions : list StateDeltaAction;
  ss_spends : Z;
  ss_mints : Z;
  ss_alloc : Z;
  block_touched : gset Z
}.

Section Surface.
Context {D : Type} `{!ExactHash D} `{!RawCommit D}.
Implicit Types (s : SegmentedFriState (D := D)).

(** The prefix read of a slot. *)
Definition surface_read s (st : SurfaceState) (index : Z) : SlotValue :=
  match overlay st !! index with
  | Some v => v
  | None => if index <? num_slots s then slot s index else EMPTY
  end.

Definition surface_input s (slot_domain : Z) (tx_idx : nat) (body : TxBody) (st : SurfaceState) (p : nat * TxInput)
  : result StateDeltaError SurfaceState :=
  let '(i, input) := p in
  let index := in_slot_index input in
  _ ← ensure (negb (slot_domain <=? index)) (Delta.SlotOutOfRange tx_idx);
  _ ← ensure (negb (bool_decide (index ∈ block_touched st))) (Delta.BlockSlotConflict tx_idx i);
  let pre := surface_read s st index in
  let post := EMPTY in
  _ ← ensure (bool_decide (pre = slot_value_from_input input (input_owner body))) (Delta.InputMismatch tx_idx i);
  spends ← ok_or (checked_add 32 (ss_spends st) 1) Delta.ActionCountOverflow;
  Ok (mkSurfaceState (<[index := post]> (overlay st))
        (ss_actions st ++ [mkAction (Z.of_nat tx_idx mod 2 ^ 32) (Z.of_nat i mod 2 ^ 8) index pre post Spend])
        spends (ss_mints st) (ss_alloc st) ({[index]} ∪ block_touched st)).

Definition surface_output s (slot_domain block_height : Z) (tx_idx : nat) (body : TxBody) (st : SurfaceState) (p : nat * TxOutput)
  : result StateDeltaError SurfaceState :=
  let '(j, output) := p in
  let index := out_slot_index output in
  _ ← ensure (negb (slot_domain <=? index)) (Delta.SlotOutOfRange tx_idx);
  _ ← ensure (negb (bool_decide (index ∈ block_touched st))) (Delta.BlockSlotConflict tx_idx j);
  let pre := surface_read s st index in
  _ ← ensure (bool_decide (pre = EMPTY)) (Delta.OutputSlotOccupied tx_idx j);
  next_alloc ← ok_or (checked_add 64 (ss_alloc st) 1) (Delta.AllocationCounterOverflow tx_idx j);
  _ ← ensure (negb (is_coinbase_creation_id next_alloc)) (Delta.AllocationCounterOverflow tx_idx j);
  let creation_id := if is_primary_coinbase_shape body then coinbase_creation_id block_height else next_alloc in
  let post := slot_value_from_output output creation_id in
  mints ← ok_or (checked_add 32 (ss_mints st) 1) Delta.ActionCountOverflow;
  Ok (mkSurfaceState (<[index := post]> (overlay st))
        (ss_actions st ++ [mkAction (Z.of_nat tx_idx mod 2 ^ 32) (Z.of_nat j mod 2 ^ 8) index pre post Mint])
        (ss_spends st) mints next_alloc ({[index]} ∪ block_touched st)).

Definition surface_tx s (slot_domain block_height : Z) (st : SurfaceState) (p : nat * (TxBody * option (list Z)))
  : result StateDeltaError SurfaceState :=
  let '(tx_idx, (body, expected)) := p in
  _ ← check_tx_slot_shape body tx_idx;
  _ ← (match expected with
       | Some commitment => ensure (bool_decide (compute_claims_commitment body = commitment)) (Delta.ClaimsCommitmentMismatch tx_idx)
       | None => Ok tt
       end);
  st ← fold_result (surface_input s slot_domain tx_idx body) st (live_inputs body);
  fold_result (surface_output s slot_domain block_height tx_idx body) st (live_outputs body).

Definition build_state_delta_action_surface_in_domain s (slot_domain : Z) (bodies : list (TxBody * option (list Z)))
    (parent_alloc_counter block_height : Z) : result StateDeltaError StateDeltaActionSurface :=
  _ ← ensure (negb (slot_domain <? num_slots s)) Delta.InvalidSlotDomain;
  st ← fold_result (surface_tx s slot_domain block_height) (mkSurfaceState ∅ [] 0 0 parent_alloc_counter ∅) (enumerate bodies);
  Ok (mkSurface (ss_actions st) (ss_spends st) (ss_mints st)).

(** The first read and the last write of every touched slot, in slot order. *)
Definition touch_action (m : gmap Z (SlotValue * SlotValue)) (a : StateDeltaAction) : gmap Z (SlotValue * SlotValue) :=
  match m !! sd_slot_index a with
  | Some (old, _) => <[sd_slot_index a := (old, sd_post a)]> m
  | None => <[sd_slot_index a := (sd_pre a, sd_post a)]> m
  end.

Definition exact_action_surface_from_surface (surface : StateDeltaActionSurface) : ExactActionSurface :=
  let touched := btree_entries (foldl touch_action ∅ (sf_actions surface)) in
  mkExactSurface (sf_actions surface) touched.*1 (fst <$> touched.*2) (snd <$> touched.*2) (sf_spends surface) (sf_mints surface).

Definition build_exact_action_surface_at_log_slots_from_source s (target_log_slots : Z) (bodies : list (TxBody * option (list Z)))
    (parent_alloc_counter block_height : Z) : result StateDeltaError ExactActionSurface :=
  let current := Z.of_nat (log_slots s) in
  _ ← ensure ((target_log_slots =? current) || (target_log_slots =? current + 1)) Delta.InvalidSlotDomain;
  slot_domain ← ok_or (checked_shl1 64 target_log_slots) Delta.InvalidSlotDomain;
  surface ← build_state_delta_action_surface_in_domain s slot_domain bodies parent_alloc_counter block_height;
  Ok (exact_action_surface_from_surface surface).

Definition build_exact_action_surface_for_transactions_at_log_slots s (target_log_slots : Z) (transactions : list TxBody)
    (parent_alloc_counter block_height : Z) : result StateDeltaError ExactActionSurface :=
  build_exact_action_surface_at_log_slots_from_source s target_log_slots ((fun b => (b, None)) <$> transactions)
    parent_alloc_counter block_height.

(** The commitments are as many as the bodies, or the call panics. *)
Definition build_state_delta_action_surface s (bodies : list TxBody) (expected_commitments : list (list Z))
    (parent_alloc_counter block_height : Z) : exec StateDeltaError StateDeltaActionSurface :=
  if (length bodies =? length expected_commitments)%nat
  then lift (build_state_delta_action_surface_in_domain s (num_slots s) (zip bodies (Some <$> expected_commitments))
               parent_alloc_counter block_height)
  else Panic.

Definition build_exact_action_surface_at_log_slots s (target_log_slots : Z) (bodies : list TxBody) (expected_commitments : list (list Z))
    (parent_alloc_counter block_height : Z) : exec StateDeltaError ExactActionSurface :=
  if (length bodies =? length expected_commitments)%nat
  then lift (build_exact_action_surface_at_log_slots_from_source s target_log_slots (zip bodies (Some <$> expected_commitments))
               parent_alloc_counter block_height)
  else Panic.

End Surface.

(** ** The loop in closed form *)

Definition action_write (a : StateDeltaAction) : Z * SlotValue := (sd_slot_index a, sd_post a).
Definition action_slots (acts : list StateDeltaAction) : list Z := sd_slot_index <$> acts.
Definition spend_count (acts : list StateDeltaAction) : Z :=
  Zsum ((fun a => match sd_kind a with Spend => 1 | Mint => 0 end) <$> acts).
Definition mint_count (acts : list StateDeltaAction) : Z :=
  Zsum ((fun a => match sd_kind a with Spend => 0 | Mint => 1 end) <$> acts).

(** The loop variables after the actions [acts]. *)
Definition surface_of (alloc : Z) (acts : list StateDeltaAction) : SurfaceState :=
  mkSurfaceState (canonical_updates (action_write <$> acts)) acts (spend_count acts) (mint_count acts)
    (alloc + mint_count acts) (list_to_set (action_slots acts)).

(** The actions of a body, read in the state before the block. *)
Definition spend_action (slots : Z -> SlotValue) (tx_idx : nat) (p : nat * TxInput) : StateDeltaAction :=
  mkAction (Z.of_nat tx_idx mod 2 ^ 32) (Z.of_nat p.1 mod 2 ^ 8) (in_slot_index p.2) (slots (in_slot_index p.2)) EMPTY Spend.

Definition mint_action (slots : Z -> SlotValue) (height alloc : Z) (tx_idx : nat) (body : TxBody) (k : nat) (p : nat * TxOutput)
  : StateDeltaAction :=
  mkAction (Z.of_nat tx_idx mod 2 ^ 32) (Z.of_nat p.1 mod 2 ^ 8) (out_slot_index p.2) (slots (out_slot_index p.2))
    (minted body (Some height) alloc k p).2 Mint.

Definition body_actions (slots : Z -> SlotValue) (height alloc : Z) (tx_idx : nat) (body : TxBody) : list StateDeltaAction :=
  (spend_action slots tx_idx <$> live_inputs body) ++ imap (mint_action slots height alloc tx_idx body) (live_outputs body).

Fixpoint block_actions (slots : Z -> SlotValue) (height alloc : Z) (tx_idx : nat) (txs : list TxBody) : list StateDeltaAction :=
  match txs with
  | [] => []
  | b :: txs => body_actions slots height alloc tx_idx b
      ++ block_actions slots height (alloc + Z.of_nat (length (live_outputs b))) (S tx_idx) txs
  end.

Lemma body_writes slots h alloc k b : action_write <$> body_actions slots h alloc k b = tx_updates b (Some h) alloc.
Proof.
  unfold body_actions, tx_updates. rewrite fmap_app. f_equal.
  - unfold Tx.in_slots. rewrite <- !list_fmap_compose. reflexivity.
  - rewrite fmap_imap. apply imap_ext. reflexivity.
Qed.

Lemma block_writes slots h txs : forall alloc k, action_write <$> block_actions slots h alloc k txs = block_updates h alloc txs.
Proof.
  induction txs as [|b txs IH]; intros alloc k; [reflexivity|]. cbn [block_actions block_updates]. now rewrite fmap_app, body_writes, IH.
Qed.

Lemma action_slots_writes acts : action_slots acts = (action_write <$> acts).*1.
Proof. unfold action_slots. now rewrite <- list_fmap_compose. Qed.

Lemma block_updates_keys h txs : forall alloc, (block_updates h alloc txs).*1 = txs ≫= touched_slots.
Proof.
  induction txs as [|b txs IH]; intros alloc; [reflexivity|]. cbn [block_updates]. rewrite fmap_app, IH, tx_updates_keys. reflexivity.
Qed.

Lemma block_action_slots slots h alloc k txs : action_slots (block_actions slots h alloc k txs) = txs ≫= touched_slots.
Proof. now rewrite action_slots_writes, block_writes, block_updates_keys. Qed.

Lemma surface_of_snoc alloc acts a : surface_of alloc (acts ++ [a])
  = mkSurfaceState (<[sd_slot_index a := sd_post a]> (overlay (surface_of alloc acts))) (acts ++ [a])
      (spend_count acts + match sd_kind a with Spend => 1 | Mint => 0 end)
      (mint_count acts + match sd_kind a with Spend => 0 | Mint => 1 end)
      (alloc + mint_count acts + match sd_kind a with Spend => 0 | Mint => 1 end)
      ({[sd_slot_index a]} ∪ block_touched (surface_of alloc acts)).
Proof.
  unfold surface_of, spend_count, mint_count, action_slots, canonical_updates. cbn [overlay block_touched].
  rewrite !fmap_app, !Zsum_app, foldl_app, list_to_set_app_L. cbn [fmap list_fmap foldl fst snd action_write]. rewrite !Zsum_cons. change (Zsum []) with 0.
  cbn [list_to_set]. f_equal; [lia|lia|lia|]. set_solver.
Qed.

Section SurfaceProof.
Context {D : Type} `{!ExactHash D} `{!RawCommit D}.
Context (s : SegmentedFriState (D := D)) (slots : Z -> SlotValue) (domain height alloc : Z).
Context (Hs : state_ok s slots) (Hdom : num_slots s <= domain) (Halloc : 0 <= alloc < 2 ^ 63).

(** A slot index whose segment is in memory, if it has one. *)
Definition readable (i : Z) : Prop := 0 <= i /\ (i < num_slots s -> seg_id_of s i ∉ evicted s).

Lemma read_fresh acts i : readable i -> i ∉ action_slots acts -> surface_read s (surface_of alloc acts) i = slots i.
Proof.
  intros [H0 Hr] Hi. unfold surface_read. cbn [surface_of overlay].
  destruct (canonical_updates (action_write <$> acts) !! i) as [v|] eqn:E.
  - apply canonical_elem in E. apply (list_elem_of_fmap_2 fst) in E. rewrite <- action_slots_writes in E. contradiction.
  - destruct (Z.ltb_spec i (num_slots s)) as [H|H]; [apply slot_read; auto|]. symmetry. apply (ok_outside _ _ Hs). unfold num_slots in H. lia.
Qed.

Lemma touched_of acts i : i ∈ block_touched (surface_of alloc acts) <-> i ∈ action_slots acts.
Proof. cbn [surface_of block_touched]. apply elem_of_list_to_set. Qed.

Lemma surface_input_iff tx body acts p st : readable (in_slot_index p.2) -> spend_count acts + 1 < 2 ^ 32 ->
  surface_input s domain tx body (surface_of alloc acts) p = Ok st <->
  (in_slot_index p.2 < domain /\ in_slot_index p.2 ∉ action_slots acts /\ slots (in_slot_index p.2) = spent_slot body p.2)
  /\ st = surface_of alloc (acts ++ [spend_action slots tx p]).
Proof.
  intros Hr Hc. destruct p as [i x]. cbn [fst snd] in *. rewrite surface_of_snoc. cbn [spend_action sd_slot_index sd_post sd_kind].
  unfold surface_input. cbn [fst snd]. assert (Ec : checked_add 32 (ss_spends (surface_of alloc acts)) 1 = Some (spend_count acts + 1)) by (apply checked_add_some; cbn; lia).
  split.
  - intros H. inv_ok. boolify. apply bool_decide_eq_false in Hok0. apply bool_decide_eq_true in Hok1. rewrite touched_of in Hok0.
    rewrite read_fresh in Hok1 by assumption. rewrite Ec in Hok2. injection Hok2 as <-. split; [auto|]. subst st.
    rewrite read_fresh by assumption. cbn [fst]. f_equal; cbn; lia.
  - intros ((H1 & H2 & H3) & ->). apply Z.leb_gt in H1. rewrite H1. cbn [negb ensure mbind result_bind].
    rewrite (bool_decide_eq_false_2 (_ ∈ _)) by (now rewrite touched_of). cbn [negb ensure mbind result_bind].
    rewrite read_fresh by assumption. rewrite (bool_decide_eq_true_2 (_ = _)) by exact H3. cbn [ensure mbind result_bind]. rewrite Ec.
    cbn [ok_or mbind result_bind]. f_equal. f_equal; cbn; lia.
Qed.

Lemma surface_output_iff tx body acts p st : readable (out_slot_index p.2) -> mint_count acts + 1 < 2 ^ 32 ->
  0 <= alloc + mint_count acts < 2 ^ 63 ->
  surface_output s domain height tx body (surface_of alloc acts) p = Ok st <->
  (out_slot_index p.2 < domain /\ out_slot_index p.2 ∉ action_slots acts /\ slots (out_slot_index p.2) = EMPTY
   /\ alloc + mint_count acts + 1 < 2 ^ 63)
  /\ st = surface_of alloc (acts ++ [mint_action slots height (alloc + mint_count acts) tx body 0 p]).
Proof.
  intros Hr Hc Ha. destruct p as [i x]. cbn [fst snd] in *. rewrite surface_of_snoc. cbn [mint_action sd_slot_index sd_post sd_kind fst snd].
  unfold surface_output. cbn [fst snd]. set (a := alloc + mint_count acts) in *.
  assert (Ec : checked_add 32 (ss_mints (surface_of alloc acts)) 1 = Some (mint_count acts + 1)) by (apply checked_add_some; cbn; lia).
  assert (Ea : checked_add 64 (ss_alloc (surface_of alloc acts)) 1 = Some (a + 1)) by (apply checked_add_some; cbn; unfold a in *; lia).
  assert (Em : slot_value_from_output x (if is_primary_coinbase_shape body then coinbase_creation_id height else a + 1) = (minted body (Some height) a 0 (i, x)).2).
  { unfold minted, mint_id, slot_value_from_output. cbn [fst snd from_option id]. destruct (is_primary_coinbase_shape body); [reflexivity|]. f_equal. lia. }
  pose proof (coinbase_id_small (a + 1) ltac:(lia)) as Hid. split.
  - intros H. inv_ok. boolify. apply bool_decide_eq_false in Hok0. apply bool_decide_eq_true in Hok1. rewrite touched_of in Hok0.
    rewrite read_fresh in Hok1 by assumption. rewrite Ea in Hok2. injection Hok2 as <-. rewrite Ec in Hok4. injection Hok4 as <-. apply Hid in Hok3.
    split; [auto|]. subst st. rewrite read_fresh by assumption. rewrite Em. f_equal; cbn; unfold a; lia.
  - intros ((H1 & H2 & H3 & H4) & ->). apply Z.leb_gt in H1. rewrite H1. cbn [negb ensure mbind result_bind].
    rewrite (bool_decide_eq_false_2 (_ ∈ _)) by (now rewrite touched_of). cbn [negb ensure mbind result_bind].
    rewrite read_fresh by assumption. rewrite (bool_decide_eq_true_2 (_ = _)) by exact H3. cbn [ensure mbind result_bind]. rewrite Ea.
    cbn [ok_or mbind result_bind]. rewrite (proj2 Hid H4). cbn [negb ensure mbind result_bind]. rewrite Ec.
    cbn [ok_or mbind result_bind]. rewrite Em. f_equal. f_equal; cbn; unfold a; lia.
Qed.

Lemma spend_count_app a b : spend_count (a ++ b) = spend_count a + spend_count b.
Proof. unfold spend_count. now rewrite fmap_app, Zsum_app. Qed.

Lemma mint_count_app a b : mint_count (a ++ b) = mint_count a + mint_count b.
Proof. unfold mint_count. now rewrite fmap_app, Zsum_app. Qed.

Lemma action_slots_app a b : action_slots (a ++ b) = action_slots a ++ action_slots b.
Proof. apply fmap_app. Qed.

Lemma count_spends acts : Forall (fun a => sd_kind a = Spend) acts -> spend_count acts = Z.of_nat (length acts) /\ mint_count acts = 0.
Proof.
  unfold spend_count, mint_count. induction 1 as [|a acts Ha _ [IH1 IH2]]; [auto|]. cbn [fmap list_fmap length]. rewrite !Zsum_cons, IH1, IH2, Ha. cbv beta iota. lia.
Qed.

Lemma count_mints acts : Forall (fun a => sd_kind a = Mint) acts -> spend_count acts = 0 /\ mint_count acts = Z.of_nat (length acts).
Proof.
  unfold spend_count, mint_count. induction 1 as [|a acts Ha _ [IH1 IH2]]; [auto|]. cbn [fmap list_fmap length]. rewrite !Zsum_cons, IH1, IH2, Ha. cbv beta iota. lia.
Qed.

Lemma body_counts a tx b : spend_count (body_actions slots height a tx b) = Z.of_nat (length (live_inputs b))
  /\ mint_count (body_actions slots height a tx b) = Z.of_nat (length (live_outputs b)).
Proof.
  unfold body_actions. rewrite spend_count_app, mint_count_app.
  destruct (count_spends (spend_action slots tx <$> live_inputs b)) as [-> ->]; [now apply Forall_fmap, Forall_true|].
  destruct (count_mints (imap (mint_action slots height a tx b) (live_outputs b))) as [-> ->].
  - apply Forall_lookup. intros k x Hx. rewrite list_lookup_imap in Hx. destruct (live_outputs b !! k); [|discriminate]. now injection Hx as <-.
  - rewrite length_fmap, length_imap. lia.
Qed.

Lemma surface_inputs_iff tx body l : forall acts st, Forall (fun p : nat * TxInput => readable (in_slot_index p.2)) l ->
  spend_count acts + Z.of_nat (length l) < 2 ^ 32 ->
  fold_result (surface_input s domain tx body) (surface_of alloc acts) l = Ok st <->
  let keys := (fun p : nat * TxInput => in_slot_index p.2) <$> l in
  (Forall (fun p : nat * TxInput => in_slot_index p.2 < domain /\ slots (in_slot_index p.2) = spent_slot body p.2) l
   /\ NoDup keys /\ forall k, k ∈ keys -> k ∉ action_slots acts)
  /\ st = surface_of alloc (acts ++ (spend_action slots tx <$> l)).
Proof.
  induction l as [|p l IH]; intros acts st Hr Hc; cbn zeta; cbn [fold_result fmap list_fmap].
  - rewrite app_nil_r. split; [intros [= <-]|intros [_ ->]; reflexivity]. split; [|reflexivity].
    split; [constructor|]. split; [constructor|]. intros k Hk. now apply not_elem_of_nil in Hk.
  - apply Forall_cons in Hr as [Hp Hr]. cbn [length] in Hc. rewrite bind_ok_iff, Forall_cons, NoDup_cons. setoid_rewrite elem_of_cons.
    assert (Hc1 : spend_count (acts ++ [spend_action slots tx p]) = spend_count acts + 1) by (rewrite spend_count_app; reflexivity).
    assert (Hk : forall k, k ∉ action_slots (acts ++ [spend_action slots tx p]) <-> k ∉ action_slots acts /\ k <> in_slot_index p.2).
    { intros k. rewrite action_slots_app, not_elem_of_app, (list_elem_of_singleton k (in_slot_index p.2)). reflexivity. }
    assert (Ha : acts ++ spend_action slots tx p :: (spend_action slots tx <$> l) = (acts ++ [spend_action slots tx p]) ++ (spend_action slots tx <$> l))
      by (now rewrite <- app_assoc). rewrite Ha. split.
    + intros (b & Hb & Hst). apply surface_input_iff in Hb as [(H1 & H2 & H3) ->]; [|exact Hp|lia].
      apply IH in Hst as [(I1 & I2 & I3) ->]; [|exact Hr|lia]. split; [|reflexivity].
      split; [auto|]. split; [split; [|exact I2]; intros Hin; now apply I3, Hk in Hin|]. intros k [->|Hin]; [exact H2|]. now apply I3, Hk in Hin.
    + intros [(((H1 & H2) & I1) & (N1 & N2) & F) ->]. eexists. split; [apply surface_input_iff; [exact Hp|lia|]; split; [|reflexivity]; auto|].
      apply IH; [exact Hr|lia|]. split; [|reflexivity]. split; [exact I1|]. split; [exact N2|]. intros k Hin. apply Hk. split; [now apply F; right|].
      intros ->. contradiction.
Qed.

Lemma mint_action_S tx body a l : imap (mint_action slots height a tx body ∘ S) l = imap (mint_action slots height (a + 1) tx body) l.
Proof.
  apply imap_ext. intros k p _. unfold mint_action, minted, mint_id. cbn [compose snd fst]. destruct (is_primary_coinbase_shape body); [reflexivity|].
  do 2 f_equal. lia.
Qed.

Lemma surface_outputs_iff tx body l : forall acts st, Forall (fun p : nat * TxOutput => readable (out_slot_index p.2)) l ->
  mint_count acts + Z.of_nat (length l) < 2 ^ 32 -> 0 <= alloc + mint_count acts < 2 ^ 63 ->
  fold_result (surface_output s domain height tx body) (surface_of alloc acts) l = Ok st <->
  let keys := (fun p : nat * TxOutput => out_slot_index p.2) <$> l in
  (Forall (fun p : nat * TxOutput => out_slot_index p.2 < domain /\ slots (out_slot_index p.2) = EMPTY) l
   /\ NoDup keys /\ (forall k, k ∈ keys -> k ∉ action_slots acts) /\ alloc + mint_count acts + Z.of_nat (length l) < 2 ^ 63)
  /\ st = surface_of alloc (acts ++ imap (mint_action slots height (alloc + mint_count acts) tx body) l).
Proof.
  induction l as [|p l IH]; intros acts st Hr Hc Hal; cbn zeta; cbn [fold_result fmap list_fmap imap].
  - rewrite app_nil_r. split; [intros [= <-]|intros [_ ->]; reflexivity]. split; [|reflexivity].
    split; [constructor|]. split; [constructor|]. split; [intros k Hk; now apply not_elem_of_nil in Hk|]. cbn [length]. lia.
  - apply Forall_cons in Hr as [Hp Hr]. cbn [length] in *. rewrite bind_ok_iff, Forall_cons, NoDup_cons, mint_action_S. setoid_rewrite elem_of_cons.
    set (a := mint_action slots height (alloc + mint_count acts) tx body 0 p).
    assert (Hc1 : mint_count (acts ++ [a]) = mint_count acts + 1) by (rewrite mint_count_app; reflexivity).
    assert (Hk : forall k, k ∉ action_slots (acts ++ [a]) <-> k ∉ action_slots acts /\ k <> out_slot_index p.2).
    { intros k. rewrite action_slots_app, not_elem_of_app. change (action_slots [a]) with [out_slot_index p.2]. now rewrite list_elem_of_singleton. }
    assert (Ha : forall rest, acts ++ a :: rest = (acts ++ [a]) ++ rest) by (intros rest; now rewrite <- app_assoc). rewrite Ha.
    replace (alloc + mint_count acts + 1) with (alloc + mint_count (acts ++ [a])) by lia. split.
    + intros (b & Hb & Hst). apply surface_output_iff in Hb as [(H1 & H2 & H3 & H4) ->]; [|exact Hp|lia|lia]. fold a in Hst.
      apply IH in Hst as [(I1 & I2 & I3 & I4) ->]; [|exact Hr|lia|lia]. split; [|reflexivity].
      split; [auto|]. split; [split; [|exact I2]; intros Hin; now apply I3, Hk in Hin|]. split; [|lia]. intros k [->|Hin]; [exact H2|]. now apply I3, Hk in Hin.
    + intros [(((H1 & H2) & I1) & (N1 & N2) & F & B) ->]. eexists. split; [apply surface_output_iff; [exact Hp|lia|lia|]; split; [|reflexivity]; split; [exact H1|]; split; [apply F; now left|]; split; [exact H2|lia]|].
      fold a. apply IH; [exact Hr|lia|lia|]. split; [|reflexivity]. split; [exact I1|]. split; [exact N2|]. split; [|lia]. intros k Hin. apply Hk. split; [now apply F; right|].
      intros ->. contradiction.
Qed.

Lemma shape_ok b tx : NoDup (touched_slots b) -> check_tx_slot_shape b tx = Ok tt.
Proof.
  intros Hn. apply NoDup_app in Hn as (H1 & H2 & H3). unfold check_tx_slot_shape.
  assert (S1 : forall seen p seen', shape_input tx seen p = Ok seen' <-> in_slot_index p.2 ∉ seen /\ True /\ seen' = {[in_slot_index p.2]} ∪ seen).
  { intros seen p seen'. unfold shape_input. case_bool_decide; cbn; split; try discriminate; try tauto; [intros [= <-]; auto|intros (_ & _ & ->); reflexivity]. }
  assert (S2 : forall ins seen p seen', shape_output tx ins seen p = Ok seen' <-> out_slot_index p.2 ∉ seen /\ out_slot_index p.2 ∉ ins /\ seen' = {[out_slot_index p.2]} ∪ seen).
  { intros ins seen p seen'. unfold shape_output. repeat case_bool_decide; cbn; split; try discriminate; try tauto; [intros [= <-]; auto|intros (_ & _ & ->); reflexivity]. }
  rewrite (proj2 (fold_result_unique (fun p : nat * TxInput => in_slot_index p.2) (fun _ => True) _ S1 (live_inputs b) ∅ (list_to_set (in_slots b) ∪ ∅))).
  2:{ split; [exact H1|]. split; [intros k _; apply not_elem_of_empty|]. split; [now apply Forall_true|reflexivity]. }
  cbn [mbind result_bind].
  rewrite (proj2 (fold_result_unique (fun p : nat * TxOutput => out_slot_index p.2) _ _ (S2 _) (live_outputs b) ∅ (list_to_set (out_slots b) ∪ ∅))); [reflexivity|].
  split; [exact H3|]. split; [intros k _; apply not_elem_of_empty|]. split; [|reflexivity]. apply Forall_forall. intros p Hp.
  apply (list_elem_of_fmap_2 (fun p => out_slot_index p.2)) in Hp. intros Hin. apply elem_of_union in Hin as [Hin|Hin]; [|now apply not_elem_of_empty in Hin].
  apply elem_of_list_to_set in Hin. exact (H2 _ Hin Hp).
Qed.

(** The claims of one body after the actions [acts]. *)
Record body_claims (acts : list StateDeltaAction) (b : TxBody) : Prop := {
  bc_domain : forall i, i ∈ touched_slots b -> i < domain;
  bc_spends : forall p, p ∈ live_inputs b -> slots (in_slot_index p.2) = spent_slot b p.2;
  bc_mints : forall i, i ∈ out_slots b -> slots i = EMPTY;
  bc_distinct : NoDup (touched_slots b);
  bc_fresh : forall i, i ∈ touched_slots b -> i ∉ action_slots acts;
  bc_alloc : alloc + mint_count acts + Z.of_nat (length (live_outputs b)) < 2 ^ 63
}.

Lemma surface_tx_iff tx b acts st : Forall readable (touched_slots b) ->
  spend_count acts + Z.of_nat (length (live_inputs b)) < 2 ^ 32 -> mint_count acts + Z.of_nat (length (live_outputs b)) < 2 ^ 32 ->
  0 <= alloc + mint_count acts < 2 ^ 63 ->
  surface_tx s domain height (surface_of alloc acts) (tx, (b, None)) = Ok st <->
  body_claims acts b /\ st = surface_of alloc (acts ++ body_actions slots height (alloc + mint_count acts) tx b).
Proof.
  intros Hr Hc1 Hc2 Ha. unfold touched_slots in Hr. apply Forall_app in Hr as [Hri Hro]. unfold in_slots, out_slots in Hri, Hro.
  rewrite Forall_fmap in Hri. rewrite Forall_fmap in Hro.
  set (acts1 := acts ++ (spend_action slots tx <$> live_inputs b)).
  assert (Hm1 : mint_count acts1 = mint_count acts).
  { unfold acts1. rewrite mint_count_app. destruct (count_spends (spend_action slots tx <$> live_inputs b)) as [_ ->]; [now apply Forall_fmap, Forall_true|lia]. }
  assert (Hs1 : action_slots acts1 = action_slots acts ++ in_slots b).
  { unfold acts1. rewrite action_slots_app. f_equal. unfold action_slots, in_slots. now rewrite <- list_fmap_compose. }
  unfold body_actions. rewrite app_assoc. fold acts1. unfold surface_tx. split.
  - intros H. apply bind_ok_inv in H as (_ & _ & H). apply bind_ok_inv in H as (_ & _ & H). apply bind_ok_inv in H as (st1 & Hok0 & H).
    apply surface_inputs_iff in Hok0 as [(I1 & I2 & I3) ->]; [|exact Hri|exact Hc1]. fold acts1 in H.
    apply surface_outputs_iff in H as [(J1 & J2 & J3 & J4) ->]; [|exact Hro|lia|lia]. rewrite Hm1 in *. split; [|reflexivity].
    fold (in_slots b) in I2, I3. fold (out_slots b) in J2, J3. rewrite Hs1 in J3. setoid_rewrite not_elem_of_app in J3.
    constructor.
    + intros i [Hi|Hi]%elem_of_app; apply list_elem_of_fmap in Hi as (p & -> & Hp); [now apply (proj1 (Forall_forall _ _) I1 p Hp)|now apply (proj1 (Forall_forall _ _) J1 p Hp)].
    + intros p Hp. now apply (proj1 (Forall_forall _ _) I1 p Hp).
    + intros i Hi. apply list_elem_of_fmap in Hi as (p & -> & Hp). now apply (proj1 (Forall_forall _ _) J1 p Hp).
    + apply NoDup_app. split; [exact I2|]. split; [|exact J2]. intros i Hi Ho. now apply J3 in Ho as [_ Ho].
    + intros i [Hi|Hi]%elem_of_app; [now apply I3|now apply J3].
    + exact J4.
  - intros ([C1 C2 C3 C4 C5 C6] & ->). rewrite (shape_ok b tx C4). cbn [mbind result_bind].
    assert (Ti : forall p, p ∈ live_inputs b -> in_slot_index p.2 ∈ in_slots b) by (intros p Hp; now apply (list_elem_of_fmap_2 (fun p => in_slot_index p.2))).
    assert (To : forall p, p ∈ live_outputs b -> out_slot_index p.2 ∈ out_slots b) by (intros p Hp; now apply (list_elem_of_fmap_2 (fun p => out_slot_index p.2))).
    apply NoDup_app in C4 as (N1 & N2 & N3). unfold touched_slots in *. setoid_rewrite elem_of_app in C1. setoid_rewrite elem_of_app in C5.
    rewrite (proj2 (surface_inputs_iff tx b (live_inputs b) acts (surface_of alloc acts1) Hri Hc1)).
    2:{ split; [|reflexivity]. split; [|split; [exact N1|]].
        - apply Forall_forall. intros p Hp. split; [apply C1; left|]; auto.
        - intros k Hk. apply C5. now left. }
    cbn [mbind result_bind]. rewrite <- Hm1 in C6 |- *. apply surface_outputs_iff; [exact Hro|lia|lia|]. split; [|reflexivity]. split; [|split; [exact N3|split; [|exact C6]]].
    + apply Forall_forall. intros p Hp. split; [apply C1; right|]; auto.
    + intros k Hk. rewrite Hs1. apply not_elem_of_app. split; [apply C5; now right|]. intros Hi. exact (N2 k Hi Hk).
Qed.

Lemma body_action_slots a tx b : action_slots (body_actions slots height a tx b) = touched_slots b.
Proof. now rewrite action_slots_writes, body_writes, tx_updates_keys. Qed.

(** The claims of a block, body by body. *)
Lemma claims_cons acts tx b txs : let acts1 := acts ++ body_actions slots height (alloc + mint_count acts) tx b in
  (actions_ok (fun i => i < domain) slots (alloc + mint_count acts) (b :: txs) /\ forall i, i ∈ (b :: txs) ≫= touched_slots -> i ∉ action_slots acts)
  <-> body_claims acts b
      /\ actions_ok (fun i => i < domain) slots (alloc + mint_count acts1) txs /\ forall i, i ∈ txs ≫= touched_slots -> i ∉ action_slots acts1.
Proof.
  cbn zeta. destruct (body_counts (alloc + mint_count acts) tx b) as [_ Hm].
  rewrite mint_count_app, Hm, action_slots_app, body_action_slots.
  change ((b :: txs) ≫= touched_slots) with (touched_slots b ++ (txs ≫= touched_slots)). pose proof (live_outs_nonneg txs).
  set (tb := touched_slots b). set (tr := txs ≫= touched_slots). split.
  - intros [[A B C M F] G]. rewrite live_outs_cons in F. change ((b :: txs) ≫= touched_slots) with (tb ++ tr) in A, B.
    apply NoDup_app in A as (A1 & A2 & A3). split; [constructor|split; [constructor|]].
    + intros i Hi. apply B, elem_of_app. now left.
    + intros p. apply C. now left.
    + intros i. apply M. now left.
    + exact A1.
    + intros i Hi. apply G, elem_of_app. now left.
    + lia.
    + exact A3.
    + intros i Hi. apply B, elem_of_app. now right.
    + intros b' p Hb'. apply C. now right.
    + intros b' i Hb'. apply M. now right.
    + lia.
    + intros i Hi. apply not_elem_of_app. split; [apply G, elem_of_app; now right|]. intros Hin. exact (A2 i Hin Hi).
  - intros ([C1 C2 C3 C4 C5 C6] & [A B C M F] & G). split; [constructor|].
    + change ((b :: txs) ≫= touched_slots) with (tb ++ tr). apply NoDup_app. split; [exact C4|]. split; [|exact A].
      intros i Hi Hin. apply G, not_elem_of_app in Hin as [_ Hin]. exact (Hin Hi).
    + change ((b :: txs) ≫= touched_slots) with (tb ++ tr). intros i [Hi|Hi]%elem_of_app; auto.
    + intros b' p [->|Hb']%elem_of_cons; [apply C2|now apply C].
    + intros b' i [->|Hb']%elem_of_cons; [apply C3|now apply M].
    + rewrite live_outs_cons. lia.
    + intros i [Hi|Hi]%elem_of_app; [auto|]. now apply G, not_elem_of_app in Hi as [Hi _].
Qed.

Lemma surface_txs_iff txs : forall k acts st, Forall readable (txs ≫= touched_slots) ->
  spend_count acts + live_ins txs < 2 ^ 32 -> mint_count acts + live_outs txs < 2 ^ 32 -> 0 <= alloc + mint_count acts < 2 ^ 63 -> 0 <= mint_count acts ->
  fold_result (surface_tx s domain height) (surface_of alloc acts) (imap (fun i b => ((k + i)%nat, (b, None))) txs) = Ok st <->
  (actions_ok (fun i => i < domain) slots (alloc + mint_count acts) txs /\ forall i, i ∈ txs ≫= touched_slots -> i ∉ action_slots acts)
  /\ st = surface_of alloc (acts ++ block_actions slots height (alloc + mint_count acts) k txs).
Proof.
  induction txs as [|b txs IH]; intros k acts st Hr Hc1 Hc2 Ha Hm0.
  - cbn [imap fold_result block_actions]. rewrite app_nil_r. split; [intros [= <-]|intros [_ ->]; reflexivity]. split; [|reflexivity].
    split; [|intros i Hi; now apply not_elem_of_nil in Hi].
    constructor; cbn; [constructor|intros ? []%not_elem_of_nil|intros ? ? []%not_elem_of_nil|intros ? ? []%not_elem_of_nil|lia].
  - change ((b :: txs) ≫= touched_slots) with (touched_slots b ++ (txs ≫= touched_slots)) in Hr. apply Forall_app in Hr as [Hrb Hr].
    rewrite live_outs_cons in Hc2. assert (Ei : live_ins (b :: txs) = Z.of_nat (length (live_inputs b)) + live_ins txs) by reflexivity. rewrite Ei in Hc1.
    pose proof (live_ins_nonneg txs) as Hi0.
    pose proof (live_outs_nonneg txs). destruct (body_counts (alloc + mint_count acts) k b) as [Es Em].
    rewrite (claims_cons acts k b txs). cbn zeta. set (acts1 := acts ++ body_actions slots height (alloc + mint_count acts) k b).
    assert (M1 : mint_count acts1 = mint_count acts + Z.of_nat (length (live_outputs b))) by (unfold acts1; now rewrite mint_count_app, Em).
    assert (S1 : spend_count acts1 = spend_count acts + Z.of_nat (length (live_inputs b))) by (unfold acts1; now rewrite spend_count_app, Es).
    cbn [imap fold_result block_actions]. rewrite bind_ok_iff, app_assoc, Nat.add_0_r. fold acts1.
    replace (alloc + mint_count acts + Z.of_nat (length (live_outputs b))) with (alloc + mint_count acts1) by lia.
    rewrite (imap_ext ((fun i b => ((k + i)%nat, (b, None))) ∘ S) (fun i b => ((S k + i)%nat, (b, @None (list Z)))))
      by (intros i x _; cbn [compose]; f_equal; lia). split.
    + intros (st1 & H1 & H2). apply surface_tx_iff in H1 as [C ->]; [|exact Hrb|lia|lia|lia]. fold acts1 in H2. pose proof (bc_alloc _ _ C).
      apply IH in H2 as [C2 ->]; [|exact Hr|lia|lia|lia|lia]. auto.
    + intros [[C C2] ->]. pose proof (bc_alloc _ _ C). exists (surface_of alloc acts1). split; [apply surface_tx_iff; [exact Hrb|lia|lia|lia|]; auto|].
      apply IH; [exact Hr|lia|lia|lia|lia|]. auto.
Qed.

Lemma block_counts txs : forall a k, spend_count (block_actions slots height a k txs) = live_ins txs
  /\ mint_count (block_actions slots height a k txs) = live_outs txs.
Proof.
  induction txs as [|b txs IH]; intros a k; [auto|]. cbn [block_actions]. rewrite spend_count_app, mint_count_app.
  destruct (body_counts a k b) as [-> ->]. destruct (IH (a + Z.of_nat (length (live_outputs b))) (S k)) as [-> ->]. auto.
Qed.

Lemma build_surface_iff txs surface : Forall readable (txs ≫= touched_slots) -> live_ins txs < 2 ^ 32 -> live_outs txs < 2 ^ 32 ->
  build_state_delta_action_surface_in_domain s domain ((fun b => (b, None)) <$> txs) alloc height = Ok surface <->
  actions_ok (fun i => i < domain) slots alloc txs
  /\ surface = mkSurface (block_actions slots height alloc 0 txs) (live_ins txs) (live_outs txs).
Proof.
  intros Hr H1 H2. unfold build_state_delta_action_surface_in_domain. destruct (Z.ltb_spec domain (num_slots s)); [lia|]. cbn [negb ensure mbind result_bind].
  rewrite bind_ok_iff. change (mkSurfaceState ∅ [] 0 0 alloc ∅) with (mkSurfaceState ∅ [] 0 0 alloc (∅ : gset Z)).
  assert (E0 : mkSurfaceState ∅ [] 0 0 alloc ∅ = surface_of alloc []) by (unfold surface_of; cbn; f_equal; lia). rewrite E0.
  assert (En : enumerate ((fun b : TxBody => (b, @None (list Z))) <$> txs) = imap (fun i b => ((0 + i)%nat, (b, None))) txs).
  { unfold enumerate. rewrite imap_fmap. apply imap_ext. reflexivity. }
  rewrite En. setoid_rewrite (surface_txs_iff txs 0 []); [|exact Hr|cbn; lia|cbn; lia|cbn; lia|cbn; lia].
  change (mint_count []) with 0. rewrite Z.add_0_r. cbn [app]. destruct (block_counts txs alloc 0) as [E1 E2]. split.
  - intros (st & ((Ha & _) & ->) & [= <-]). split; [exact Ha|]. cbn [surface_of ss_actions ss_spends ss_mints]. now rewrite E1, E2.
  - intros [Ha ->]. eexists. split; [split; [split; [exact Ha|]|reflexivity]|].
    + intros i _. apply not_elem_of_nil.
    + cbn [surface_of ss_actions ss_spends ss_mints]. now rewrite E1, E2.
Qed.

End SurfaceProof.

(** ** Old and new slots *)

Lemma touch_other acts i : i ∉ action_slots acts -> forall m, foldl touch_action m acts !! i = m !! i.
Proof.
  induction acts as [|a acts IH]; intros Hi m; [reflexivity|]. cbn [foldl]. apply not_elem_of_cons in Hi as [Hne Hi]. rewrite (IH Hi).
  unfold touch_action. destruct (m !! sd_slot_index a) as [[old ?]|]; now rewrite lookup_insert_ne by congruence.
Qed.

Lemma touch_at acts a : NoDup (action_slots acts) -> a ∈ acts -> forall m, (forall b, b ∈ acts -> m !! sd_slot_index b = None) ->
  foldl touch_action m acts !! sd_slot_index a = Some (sd_pre a, sd_post a).
Proof.
  induction acts as [|b acts IH]; intros Hn Ha m Hm; [now apply not_elem_of_nil in Ha|]. cbn [foldl]. apply NoDup_cons in Hn as [Hb Hn].
  unfold touch_action at 2. rewrite (Hm b) by now left. apply elem_of_cons in Ha as [->|Ha].
  - rewrite (touch_other acts _ Hb). apply lookup_insert_eq.
  - apply (IH Hn Ha). intros x Hx. rewrite lookup_insert_ne; [apply Hm; now right|]. intros E. apply Hb. fold (action_slots acts). rewrite E.
    now apply (list_elem_of_fmap_2 sd_slot_index).
Qed.

(** The sorted surface of actions on distinct slots: what was read and what was
    written, slot by slot. *)
Lemma exact_surface_ok slots after acts spends mints : NoDup (action_slots acts) ->
  Forall (fun a => sd_pre a = slots (sd_slot_index a) /\ sd_post a = after (sd_slot_index a)) acts ->
  let surf := exact_action_surface_from_surface (mkSurface acts spends mints) in
  StronglySorted Z.lt (touched_indices surf) /\ (forall i, i ∈ touched_indices surf <-> i ∈ action_slots acts)
  /\ old_slots surf = slots <$> touched_indices surf /\ new_slots surf = after <$> touched_indices surf.
Proof.
  intros Hn Ha. cbn zeta. unfold exact_action_surface_from_surface. cbn [sf_actions sf_spends sf_mints touched_indices old_slots new_slots].
  set (m := foldl touch_action ∅ acts).
  assert (Hm : forall k v, m !! k = Some v -> k ∈ action_slots acts /\ v = (slots k, after k)).
  { intros k v E. destruct (decide (k ∈ action_slots acts)) as [Hk|Hk].
    - split; [exact Hk|]. apply list_elem_of_fmap in Hk as (a & -> & Hin). unfold m in E. rewrite (touch_at acts a Hn Hin) in E by (intros; apply lookup_empty).
      injection E as <-. destruct (proj1 (Forall_forall _ _) Ha a Hin) as [-> ->]. reflexivity.
    - unfold m in E. rewrite (touch_other acts k Hk), lookup_empty in E. discriminate E. }
  assert (He : forall e, e ∈ btree_entries m -> e.2 = (slots e.1, after e.1)) by (intros [k v] Hin; apply btree_elem in Hin; now apply Hm).
  split; [rewrite btree_keys; apply sorted_keys_sorted|]. split.
  - intros i. rewrite btree_keys, sorted_keys_elem. split.
    + intros [v E]. now apply Hm in E.
    + intros Hi. apply list_elem_of_fmap in Hi as (a & -> & Hin). unfold m. rewrite (touch_at acts a Hn Hin) by (intros; apply lookup_empty). eauto.
  - rewrite <- !list_fmap_compose. split; apply list_fmap_ext; intros i e Ee; apply list_elem_of_lookup_2, He in Ee; cbn; now rewrite Ee.
Qed.

Lemma block_actions_read slots h txs : forall alloc k, Forall (fun a => sd_pre a = slots (sd_slot_index a)) (block_actions slots h alloc k txs).
Proof.
  induction txs as [|b txs IH]; intros alloc k; [constructor|]. cbn [block_actions]. unfold body_actions. apply Forall_app. split; [|apply IH].
  apply Forall_app. split; [now apply Forall_fmap, Forall_true|]. apply Forall_lookup. intros i a Hi. rewrite list_lookup_imap in Hi.
  destruct (live_outputs b !! i); [|discriminate]. now injection Hi as <-.
Qed.

Lemma live_lengths b : body_wf b -> (length (live_inputs b) <= 8 /\ length (live_outputs b) <= 2)%nat.
Proof.
  intros Hb. pose proof (proj1 (wf_inputs _ Hb)) as Hi. pose proof (proj1 (wf_outputs _ Hb)) as Ho. unfold live_inputs, live_outputs, enumerate. split.
  - etransitivity; [apply length_filter|]. rewrite length_imap, Hi. reflexivity.
  - etransitivity; [apply length_filter|]. rewrite length_imap, Ho. reflexivity.
Qed.

Lemma live_bounds txs : Forall body_wf txs -> live_ins txs <= 8 * Z.of_nat (length txs) /\ live_outs txs <= 2 * Z.of_nat (length txs).
Proof.
  unfold live_ins, live_outs. induction 1 as [|b txs Hb _ [IH1 IH2]]; [cbn; lia|]. cbn [fmap list_fmap length]. rewrite !Zsum_cons.
  destruct (live_lengths b Hb). lia.
Qed.

(** The surface of a block at depth [log]. *)
Record surface_ok slots (height alloc : Z) (txs : list TxBody) (surf : ExactActionSurface) : Prop := {
  so_sorted : StronglySorted Z.lt (touched_indices surf);
  so_touched : forall i, i ∈ touched_indices surf <-> i ∈ txs ≫= touched_slots;
  so_old : old_slots surf = slots <$> touched_indices surf;
  so_new : new_slots surf = write_slots slots (block_updates height alloc txs) <$> touched_indices surf;
  so_spends : es_spends surf = live_ins txs;
  so_mints : es_mints surf = live_outs txs
}.

Lemma surface_cases {D : Type} `{!ExactHash D} `{!RawCommit D} (s : SegmentedFriState (D := D)) slots (log : Z) height alloc txs :
  state_ok s slots -> 0 <= log <= 32 -> Forall body_wf txs -> (length txs <= 256)%nat -> 0 <= alloc < 2 ^ 63 ->
  Forall (readable s) (txs ≫= touched_slots) ->
  match build_exact_action_surface_for_transactions_at_log_slots s log txs alloc height with
  | Ok surf => (log = Z.of_nat (log_slots s) \/ log = Z.of_nat (log_slots s) + 1)
      /\ actions_ok (fun i => i < 2 ^ log) slots alloc txs /\ surface_ok slots height alloc txs surf
  | Err _ => ~ ((log = Z.of_nat (log_slots s) \/ log = Z.of_nat (log_slots s) + 1) /\ actions_ok (fun i => i < 2 ^ log) slots alloc txs)
  end.
Proof.
  intros Hs Hlog Hw Hn Ha Hr. unfold build_exact_action_surface_for_transactions_at_log_slots, build_exact_action_surface_at_log_slots_from_source. cbn zeta.
  assert (Eb : (log =? Z.of_nat (log_slots s)) || (log =? Z.of_nat (log_slots s) + 1)
    = bool_decide (log = Z.of_nat (log_slots s) \/ log = Z.of_nat (log_slots s) + 1)).
  { apply eq_true_iff_eq. rewrite orb_true_iff, !Z.eqb_eq, bool_decide_eq_true. reflexivity. }
  rewrite Eb. case_bool_decide as Hd; cbn [ensure mbind result_bind]; [|tauto].
  assert (E64 : checked_shl1 64 log = Some (2 ^ log)) by (unfold checked_shl1; destruct (Z.ltb_spec log 64); [reflexivity|lia]).
  rewrite E64. cbn [ok_or mbind result_bind]. assert (Hdom : num_slots s <= 2 ^ log) by (unfold num_slots; apply Z.pow_le_mono_r; lia).
  destruct (live_bounds txs Hw) as [B1 B2]. pose proof (build_surface_iff s slots (2 ^ log) height alloc Hs Hdom Ha txs) as Hiff.
  destruct (build_state_delta_action_surface_in_domain s (2 ^ log) _ alloc height) as [surface|e]; cbn [mbind result_bind].
  2:{ intros [_ F]. discriminate (proj2 (Hiff _ Hr ltac:(lia) ltac:(lia)) (conj F eq_refl)). }
  destruct (proj1 (Hiff surface Hr ltac:(lia) ltac:(lia)) eq_refl) as [Hact ->]. split; [exact Hd|]. split; [exact Hact|].
  pose proof (ao_slots _ _ _ _ Hact) as Hnd. rewrite <- (block_action_slots slots height alloc 0) in Hnd.
  assert (Hpost : Forall (fun a => sd_pre a = slots (sd_slot_index a) /\ sd_post a = write_slots slots (block_updates height alloc txs) (sd_slot_index a))
    (block_actions slots height alloc 0 txs)).
  { apply Forall_lookup. intros k a Hk. split; [exact (proj1 (Forall_lookup _ _) (block_actions_read slots height txs alloc 0) k a Hk)|].
    symmetry. rewrite <- (block_writes slots height txs alloc 0). apply (write_slots_at slots _ k);
      [now rewrite <- action_slots_writes|now rewrite list_lookup_fmap, Hk]. }
  destruct (exact_surface_ok slots _ _ (live_ins txs) (live_outs txs) Hnd Hpost) as (G1 & G2 & G3 & G4).
  constructor; try assumption; try reflexivity. intros i. rewrite G2, block_action_slots. reflexivity.
Qed.

(** ** Properties *)

(** C22. The action surface is exact.  For a state that holds [slots] and a block
    whose touched segments are in memory, the surface is built precisely when the
    target depth is the current one or the next, all slots touched by the block
    are distinct and inside the target domain, every input finds what it claims
    and every output an empty slot in the state before the block, and the
    allocator stays below the coinbase name space.  It lists the touched slots in
    increasing order with their values before and after the whole block, and the
    numbers of spends and mints.  An input that claims what an empty slot holds
    finds it in any empty slot. *)
Theorem action_surface_exact {R : RawCommit StateHash} (s : SegmentedFriState (D := StateHash)) (slots : Z -> SlotValue)
    (log height alloc : Z) (txs : list TxBody) :
  state_ok s slots -> 0 <= log <= 32 -> Forall body_wf txs -> (length txs <= 256)%nat -> 0 <= alloc < 2 ^ 63 ->
  Forall (readable s) (txs ≫= touched_slots) ->
  match build_exact_action_surface_for_transactions_at_log_slots s log txs alloc height with
  | Ok surf => (log = Z.of_nat (log_slots s) \/ log = Z.of_nat (log_slots s) + 1)
      /\ actions_ok (fun i => i < 2 ^ log) slots alloc txs /\ surface_ok slots height alloc txs surf
  | Err _ => ~ ((log = Z.of_nat (log_slots s) \/ log = Z.of_nat (log_slots s) + 1) /\ actions_ok (fun i => i < 2 ^ log) slots alloc txs)
  end.
Proof. apply surface_cases. Qed.

Lemma action_surface_exact_witness :
  exists c : ChainState (D := StateHash), with_log_slots (RawCommit0 := null_commit) 2 = Some c
  /\ match build_exact_action_surface_for_transactions_at_log_slots (cs_state c) 3 [example_mint] 0 7 with
     | Ok surf => touched_indices surf = [2] /\ old_slots surf = [EMPTY] /\ es_mints surf = 1
     | Err _ => False
     end.
Proof.
  destruct (with_log_slots_ok (RawCommit0 := null_commit) (D := StateHash) 2 ltac:(lia)) as (c & E & Hc & _ & L & Ev & _). exists c. split; [exact E|].
  pose proof (action_surface_exact (R := null_commit) (cs_state c) (fun _ => EMPTY) 3 7 0 [example_mint] (rt_state _ _ (co_rooted _ _ Hc))
    ltac:(lia) (Forall_cons_2 _ _ _ example_mint_wf (Forall_nil_2 _)) ltac:(cbn; lia) ltac:(lia)) as H.
  assert (Hr : Forall (readable (cs_state c)) ([example_mint] ≫= touched_slots)).
  { constructor; [|constructor]. split; [discriminate|]. intros _. rewrite Ev. apply not_elem_of_empty. }
  specialize (H Hr). rewrite L in H. destruct (build_exact_action_surface_for_transactions_at_log_slots _ _ _ _ _) as [surf|e].
  - destruct H as (_ & _ & [S1 S2 S3 _ _ S6]). change ([example_mint] ≫= touched_slots) with [2] in S2.
    assert (Et : touched_indices surf = [2]).
    { destruct (touched_indices surf) as [|a [|b l]].
      - exfalso. apply (not_elem_of_nil (2 : Z)), S2. now left.
      - f_equal. apply list_elem_of_singleton, S2. now left.
      - apply StronglySorted_inv in S1 as [_ S1]. apply Forall_cons in S1 as [S1 _].
        assert (a = 2) by (apply list_elem_of_singleton, S2; now left). assert (b = 2) by (apply list_elem_of_singleton, S2; right; now left). lia. }
    split; [exact Et|]. split; [now rewrite S3, Et|exact S6].
  - apply H. split; [right; reflexivity|]. assert (Q : [example_mint] ≫= touched_slots = [2]) by reflexivity. constructor; rewrite ?Q.
    + apply NoDup_singleton.
    + intros i Hi. apply list_elem_of_singleton in Hi as ->. reflexivity.
    + intros b p Hb Hp. apply list_elem_of_singleton in Hb as ->. now apply not_elem_of_nil in Hp.
    + reflexivity.
    + reflexivity.
Defined.
