(* ===== verification/Witness.v ===== *)
(** * The state witness of a block ([noid_block/src/history_step_witness.rs])

    What the prover of a block supplies about its parent state: the boundary
    check, the sorted touched slots with one sibling frontier that opens them
    before and after the block, and the inclusion paths of the logical
    transactions.  The builder succeeds exactly on the blocks that the
    interpreter applies. *)

From Stdlib Require Import ZArith Lia Bool Sorted String.
From stdpp Require Import base numbers list option gmap sorting.
From S2P Require Import Prelude Params Tx PagedSpend Rules Assembly Stream Poseidon Sponge Merkle TxTree Header SparseMerkle StateTree HeapTree HotSegments StreamRoot Segmented Resize ChainState ChainInvariant ApplyTx Transition Frontier BlockApply StateDelta.
Open Scope Z_scope.

(** ** Data *)

(** The errors of the state and transaction-tree builders. *)
Module Step.
Inductive HistoryStepWitnessError :=
  | ParentStateBoundary (field : string)
  | StateSurface (e : StateDeltaError)
  | StateFrontier (e : ExactFrontierError)
  | SparseMerkle (e : SparseMerkleError)
  | TransactionRootMismatch
  | EmptyExactStateSurface
  | InvalidStateDepthTransition
  | ParentStateRootMismatch
  | ChildStateRootMismatch
  | ActiveSlotCountMismatch
  | AllocCounterMismatch
  | StateCounterOverflow.
End Step.
Abbreviation HistoryStepWitnessError := Step.HistoryStepWitnessError (only parsing).

Record SlotLeafInputs := mkLeafInputs {
  packed_value : Z;
  li_owner_hi : Z;
  li_owner_lo : Z;
  expected_leaf : Z * Z
}.

Record ExactStateStructuralFrontierInputs := mkFrontierInputs {
  fi_touched_indices : list Z;
  active_depth : Z;
  old_slot_leaves : list SlotLeafInputs;
  new_slot_leaves : list SlotLeafInputs;
  live_sibling_digests : list StateHash;
  old_combine_digests : list StateHash;
  new_combine_digests : list StateHash;
  old_root : StateHash;
  new_root : StateHash
}.

Definition MAX_MERKLE_DEPTH : nat := 32.

Record MerklePathInputs := mkPathInputs {
  mp_leaf : Z * Z;
  mp_siblings : list (Z * Z);
  mp_directions : list bool;
  mp_expected_root : Z * Z;
  mp_active_depth : nat
}.

Definition digest_to_fields (digest : list Z) : Z * Z := (from_le_bytes (take 16 digest), from_le_bytes (drop 16 digest)).

(** ** Operations *)

Definition slot_leaf_input (v : SlotValue) : SlotLeafInputs :=
  mkLeafInputs (value v) (owner_hi v) (owner_lo v) (digest_to_fields (slot_leaf_hash v)).

Section Builder.
Context {R : RawCommit StateHash}.
Implicit Types (c : ChainState (D := StateHash)).

Definition validate_parent_state_boundary (parent : BlockHeader) c : result HistoryStepWitnessError unit :=
  _ ← ensure (bool_decide (cs_utxo_root c = Header.state_root parent)) (Step.ParentStateBoundary "state_root");
  _ ← ensure (Z.of_nat (log_slots (cs_state c)) =? Header.log_slots parent) (Step.ParentStateBoundary "log_slots");
  _ ← ensure (cs_active_slot_count c =? Header.active_slot_count parent) (Step.ParentStateBoundary "active_slot_count");
  ensure (cs_alloc_counter c =? Header.alloc_counter parent) (Step.ParentStateBoundary "alloc_counter").

(** Frontier and root at the depth of the block, on a clone grown by one level
    if need be. *)
Definition parent_frontier c (depth : Z) (touched : list Z) : exec HistoryStepWitnessError (list StateHash * StateHash) :=
  match depth ?= Z.of_nat (log_slots (cs_state c)) with
  | Eq =>
      siblings ← fail_as Step.StateFrontier (exact_frontier_siblings c touched (Z.to_nat depth));
      mret (siblings, cs_utxo_root c)
  | Gt =>
      if depth =? Z.of_nat (log_slots (cs_state c)) + 1
      then
        expanded ← expect (expand_one c);
        siblings ← fail_as Step.StateFrontier (exact_frontier_siblings expanded touched (Z.to_nat depth));
        mret (siblings, cs_utxo_root expanded)
      else Fail Step.InvalidStateDepthTransition
  | Lt => Fail Step.InvalidStateDepthTransition
  end.

Definition build_exact_state_frontier (block : Block) c : exec HistoryStepWitnessError ExactStateStructuralFrontierInputs :=
  let hdr := header block in
  surface ← lift (map_err Step.StateSurface
    (build_exact_action_surface_for_transactions_at_log_slots (cs_state c) (Header.log_slots hdr) (transactions block)
       (cs_alloc_counter c) (hdr_height hdr)));
  _ ← lift (ensure (negb (bool_decide (touched_indices surface = []))) Step.EmptyExactStateSurface);
  '(siblings, expected_old_root) ← parent_frontier c (Header.log_slots hdr) (touched_indices surface);
  plan ← fail_as Step.SparseMerkle (derive_structural_frontier_plan (touched_indices surface) (Z.to_nat (Header.log_slots hdr)));
  let old_hashes := slot_leaf_hash <$> old_slots surface in
  let new_hashes := slot_leaf_hash <$> new_slots surface in
  old_evaluation ← fail_as Step.SparseMerkle (evaluate_structural_frontier state_node_hash plan old_hashes siblings);
  _ ← lift (ensure (bool_decide (old_evaluation.1 = expected_old_root)) Step.ParentStateRootMismatch);
  new_evaluation ← fail_as Step.SparseMerkle (evaluate_structural_frontier state_node_hash plan new_hashes siblings);
  _ ← lift (ensure (bool_decide (new_evaluation.1 = Header.state_root hdr)) Step.ChildStateRootMismatch);
  expected_active ← lift (ok_or (count ← checked_sub (cs_active_slot_count c) (es_spends surface); checked_add 64 count (es_mints surface))
                            Step.StateCounterOverflow);
  _ ← lift (ensure (expected_active =? Header.active_slot_count hdr) Step.ActiveSlotCountMismatch);
  expected_alloc ← lift (ok_or (checked_add 64 (cs_alloc_counter c) (es_mints surface)) Step.StateCounterOverflow);
  _ ← lift (ensure (expected_alloc =? Header.alloc_counter hdr) Step.AllocCounterMismatch);
  mret (mkFrontierInputs (touched_indices surface) (Header.log_slots hdr)
          (slot_leaf_input <$> old_slots surface) (slot_leaf_input <$> new_slots surface)
          siblings old_evaluation.2 new_evaluation.2 expected_old_root (Header.state_root hdr)).

End Builder.

(** The layers of the transaction tree, leaves first. *)
Fixpoint tree_levels (fuel : nat) (layer : list (list Z)) : list (list (list Z)) :=
  layer :: match fuel with
           | O => []
           | S fuel => if (1 <? length layer)%nat then tree_levels fuel (level compress layer) else []
           end.

(** Siblings and directions of one leaf, an array element out of range being [None]. *)
Definition path_inputs (levels : list (list (list Z))) (leaf_index : nat) : option (list (Z * Z) * list bool) :=
  rows ← mapM (fun k => layer ← levels !! k; sibling ← layer !! Nat.lxor (Nat.shiftr leaf_index k) 1;
                        Some (digest_to_fields sibling, Nat.odd (Nat.shiftr leaf_index k))) (seq 0 TX_TREE_DEPTH);
  Some (rows.*1 ++ replicate (MAX_MERKLE_DEPTH - TX_TREE_DEPTH) (0, 0), rows.*2 ++ replicate (MAX_MERKLE_DEPTH - TX_TREE_DEPTH) false).

Definition tx_root_merkle_inputs (block : Block) (logical_hashes : list (list Z)) : exec HistoryStepWitnessError (list MerklePathInputs) :=
  _ ← lift (ensure (negb (length logical_hashes =? 0)%nat) Step.TransactionRootMismatch);
  _ ← lift (ensure (negb ((TX_TREE_LEAVES <? length logical_hashes)%nat || (MAX_MERKLE_DEPTH <? TX_TREE_DEPTH)%nat)) Step.TransactionRootMismatch);
  let levels := tree_levels TX_TREE_LEAVES (namespace logical_hashes) in
  root ← expect (top ← levels !! TX_TREE_DEPTH; head top);
  bound ← expect (bind_tx_count root (length logical_hashes));
  _ ← lift (ensure (bool_decide (bound = Header.tx_root (header block))) Step.TransactionRootMismatch);
  collect (fun leaf_index =>
    path ← expect (path_inputs levels leaf_index);
    leaf ← expect (leaves ← levels !! 0%nat; leaves !! leaf_index);
    mret (mkPathInputs (digest_to_fields leaf) path.1 path.2 (digest_to_fields root) TX_TREE_DEPTH))
    (seq 0 (length logical_hashes)).

(** ** Inclusion paths *)

Lemma tree_levels_lookup n : forall fuel l k, length l = (2 ^ n)%nat -> (n <= fuel)%nat -> (k <= n)%nat ->
  tree_levels fuel l !! k = Some (Nat.iter k (level compress) l).
Proof.
  induction n as [|n IH]; intros fuel l k Hl Hf Hk.
  - replace k with 0%nat by lia. now destruct fuel.
  - destruct fuel as [|fuel]; [lia|]. destruct k as [|k]; [reflexivity|]. cbn [tree_levels lookup list_lookup].
    pose proof (pow2_nat n). cbn [Nat.pow] in Hl. destruct (Nat.ltb_spec 1 (length l)); [|lia].
    change (tree_levels fuel (level compress l) !! k = Some (Nat.iter (S k) (level compress) l)).
    rewrite (IH fuel) by (lia || apply level_length; lia). now rewrite iter_level_S.
Qed.

Lemma iter_level_length n : forall k l, length l = (2 ^ n)%nat -> (k <= n)%nat -> length (Nat.iter k (level compress) l) = (2 ^ (n - k))%nat.
Proof.
  induction n as [|n IH]; intros k l Hl Hk; [now replace k with 0%nat by lia|]. destruct k as [|k]; [exact Hl|].
  rewrite iter_level_S. apply IH; [|lia]. apply level_length. exact Hl.
Qed.

Lemma path_loop_lookup n : forall fuel l i k, length l = (2 ^ n)%nat -> (n <= fuel)%nat -> (k < n)%nat ->
  path_loop zero_digest compress fuel l i !! k
  = Some (nth (Nat.lxor (Nat.shiftr i k) 1) (Nat.iter k (level compress) l) zero_digest).
Proof.
  induction n as [|n IH]; intros fuel l i k Hl Hf Hk; [lia|]. destruct fuel as [|fuel]; [lia|]. cbn [path_loop].
  pose proof (pow2_nat n). cbn [Nat.pow] in Hl. destruct (Nat.ltb_spec 1 (length l)); [|lia]. destruct k as [|k]; [reflexivity|].
  cbn [lookup list_lookup]. change (path_loop zero_digest compress fuel (level compress l) (Nat.div2 i) !! k
    = Some (nth (Nat.lxor (Nat.shiftr i (S k)) 1) (Nat.iter (S k) (level compress) l) zero_digest)).
  rewrite (IH fuel) by (lia || apply level_length; lia). rewrite iter_level_S. do 3 f_equal. apply Nat.bits_inj. intros m.
  rewrite !Nat.shiftr_spec by lia. rewrite Nat.div2_spec, Nat.shiftr_spec by lia. f_equal. lia.
Qed.

Lemma sibling_bound n i k : (i < 2 ^ n)%nat -> (k < n)%nat -> (Nat.lxor (Nat.shiftr i k) 1 < 2 ^ (n - k))%nat.
Proof.
  intros Hi Hk. assert (Hs : (Nat.shiftr i k < 2 ^ (n - k))%nat).
  { rewrite Nat.shiftr_div_pow2. apply Nat.Div0.div_lt_upper_bound. rewrite <- Nat.pow_add_r. now replace (k + (n - k))%nat with n by lia. }
  replace (n - k)%nat with (S (n - S k)) in * by lia. pose proof (half_index _ _ Hs) as Hh. cbn [Nat.pow].
  destruct (Nat.odd (Nat.shiftr i k)) eqn:Ho; [destruct (sibling_odd _ Ho) as [_ ->]|destruct (sibling_even _ Ho) as [_ ->]]; lia.
Qed.

(** The circuit inputs of a path: field lanes, bits of the index, zero rows
    above the tree. *)
Definition inputs_of_path (hashes : list (list Z)) (i : nat) (path : list (list Z)) : MerklePathInputs :=
  mkPathInputs (digest_to_fields (nth i hashes zero_digest))
    ((digest_to_fields <$> path) ++ replicate (MAX_MERKLE_DEPTH - TX_TREE_DEPTH) (0, 0))
    ((Nat.testbit i <$> seq 0 TX_TREE_DEPTH) ++ replicate (MAX_MERKLE_DEPTH - TX_TREE_DEPTH) false)
    (digest_to_fields (tree_root hashes)) TX_TREE_DEPTH.

Lemma mapM_ok {A B} (f : A -> option B) (g : A -> B) l : (forall x, x ∈ l -> f x = Some (g x)) -> mapM f l = Some (g <$> l).
Proof. intros H. apply mapM_Some, Forall2_fmap_r, Forall_Forall2_diag, Forall_forall. exact H. Qed.

Lemma path_inputs_ok hashes i : (length hashes <= 256)%nat -> (i < length hashes)%nat ->
  exists path, path_from_hashes hashes i = Some path
  /\ path_inputs (tree_levels TX_TREE_LEAVES (namespace hashes)) i
     = Some (mp_siblings (inputs_of_path hashes i path), mp_directions (inputs_of_path hashes i path)).
Proof.
  intros Hn Hi. pose proof (namespace_length hashes Hn) as Hl. unfold path_from_hashes, TX_TREE_LEAVES.
  destruct (Nat.eqb_spec (length hashes) 0); [lia|]. destruct (Nat.leb_spec (length hashes) 256); [|lia].
  destruct (Nat.ltb_spec i (length hashes)); [|lia]. cbn [negb]. eexists. split; [reflexivity|].
  set (row k := nth (Nat.lxor (Nat.shiftr i k) 1) (Nat.iter k (level compress) (namespace hashes)) zero_digest).
  set (g k := (digest_to_fields (row k), Nat.testbit i k)).
  unfold path_inputs. rewrite (mapM_ok _ g).
  2:{ intros k Hk. apply elem_of_seq in Hk. unfold TX_TREE_DEPTH in Hk. rewrite (tree_levels_lookup 8) by (assumption || lia). cbn [mbind option_bind].
      assert (Hb := sibling_bound 8 i k ltac:(cbn; lia) ltac:(lia)). rewrite <- (iter_level_length 8 k _ Hl ltac:(lia)) in Hb.
      destruct (nth_lookup_or_length (Nat.iter k (level compress) (namespace hashes)) (Nat.lxor (Nat.shiftr i k) 1) zero_digest) as [E|E]; [|lia].
      rewrite E. cbn [mbind option_bind]. unfold g, row. f_equal. f_equal. rewrite <- Nat.bit0_odd. rewrite Nat.shiftr_spec by lia. reflexivity. }
  cbn [mbind option_bind]. unfold inputs_of_path. cbn [mp_siblings mp_directions]. f_equal. rewrite <- !list_fmap_compose. f_equal. f_equal.
  apply list_eq. intros k. rewrite !list_lookup_fmap. destruct (decide (k < 8)%nat) as [Hk|Hk].
  - rewrite lookup_seq_lt by exact Hk. rewrite (path_loop_lookup 8) by (assumption || lia). reflexivity.
  - rewrite lookup_seq_ge by (unfold TX_TREE_DEPTH; lia). rewrite (proj2 (lookup_ge_None _ _)); [reflexivity|].
    rewrite (path_loop_length zero_digest compress 8) by (assumption || lia). lia.
Qed.

Lemma collect_seq {E B} (f : nat -> exec E B) (n : nat) : (forall i, (i < n)%nat -> exists y, f i = Return y) ->
  exists ys, collect f (seq 0 n) = Return ys /\ length ys = n /\ forall i, (i < n)%nat -> exists y, f i = Return y /\ ys !! i = Some y.
Proof.
  assert (G : forall m k, (forall i, (k <= i < k + m)%nat -> exists y, f i = Return y) ->
    exists ys, collect f (seq k m) = Return ys /\ length ys = m /\ forall i, (i < m)%nat -> exists y, f (k + i)%nat = Return y /\ ys !! i = Some y).
  { induction m as [|m IH]; intros k Hf; [exists []; split; [reflexivity|]; split; [reflexivity|lia]|].
    destruct (Hf k ltac:(lia)) as [y Ey]. destruct (IH (S k)) as (ys & Eys & Hl & Hy); [intros i Hi; apply Hf; lia|].
    exists (y :: ys). cbn [seq collect length]. rewrite Ey. cbn [mbind exec_bind]. rewrite Eys. split; [reflexivity|]. split; [lia|].
    intros [|i] Hi; [rewrite Nat.add_0_r; eauto|]. destruct (Hy i ltac:(lia)) as (z & Ez & Hz). exists z.
    replace (k + S i)%nat with (S k + i)%nat by lia. auto. }
  intros Hf. destruct (G n 0%nat) as (ys & H); [intros i Hi; apply Hf; lia|]. exists ys. exact H.
Qed.

Lemma honest_path_verifies hashes i path : (length hashes <= 256)%nat -> (i < length hashes)%nat -> path_from_hashes hashes i = Some path ->
  verify_path (nth i hashes zero_digest) path i (length hashes) (compress_with_tag TAG_TXROOT (tree_root hashes) (count_digest (length hashes))) = true.
Proof.
  intros Hn Hi. unfold path_from_hashes, TX_TREE_LEAVES. destruct (Nat.eqb_spec (length hashes) 0); [lia|].
  destruct (Nat.leb_spec (length hashes) 256); [|lia]. destruct (Nat.ltb_spec i (length hashes)); [|lia]. cbn [negb]. intros E%(inj Some). subst path.
  unfold verify_path, bind_tx_count, count_ok, TX_TREE_LEAVES.
  destruct (Nat.leb_spec 1 (length hashes)); [|lia]. destruct (Nat.leb_spec (length hashes) 256); [|lia].
  destruct (Nat.leb_spec (length hashes) i); [lia|]. cbn [negb andb orb].
  rewrite climb_path_fold, <- (namespace_nth hashes i) by assumption.
  rewrite (path_complete zero_digest compress 8) by (lia || (apply namespace_length; lia) || (cbn; lia)). now apply bool_decide_eq_true.
Qed.

Lemma tx_paths_cases block hashes :
  match tx_root_merkle_inputs block hashes with
  | Return inputs => (1 <= length hashes <= 256)%nat /\ root_from_hashes hashes = Some (Header.tx_root (header block))
      /\ length inputs = length hashes
      /\ forall i, (i < length hashes)%nat -> exists path, path_from_hashes hashes i = Some path
           /\ inputs !! i = Some (inputs_of_path hashes i path)
           /\ verify_path (nth i hashes zero_digest) path i (length hashes) (Header.tx_root (header block)) = true
  | Fail _ => ~ ((1 <= length hashes <= 256)%nat /\ root_from_hashes hashes = Some (Header.tx_root (header block)))
  | Panic => False
  end.
Proof.
  unfold tx_root_merkle_inputs. destruct (Nat.eqb_spec (length hashes) 0) as [H0|H0]; cbn [negb ensure lift mbind exec_bind]; [intros [F _]; lia|].
  change (MAX_MERKLE_DEPTH <? TX_TREE_DEPTH)%nat with false. rewrite orb_false_r.
  change (TX_TREE_LEAVES <? length hashes)%nat with (256 <? length hashes)%nat. destruct (Nat.ltb_spec 256 (length hashes)) as [Hn|Hn]; cbn [negb ensure lift mbind exec_bind]; [intros [F _]; lia|].
  pose proof (namespace_length hashes Hn) as Hl. cbn zeta.
  pose proof (iter_level_length 8 8 _ Hl ltac:(lia)) as H8.
  assert (Eh : (top ← tree_levels TX_TREE_LEAVES (namespace hashes) !! TX_TREE_DEPTH; head top) = Some (tree_root hashes)).
  { rewrite (tree_levels_lookup 8) by (assumption || unfold TX_TREE_LEAVES, TX_TREE_DEPTH; lia). unfold tree_root, root_at.
    change TX_TREE_DEPTH with 8%nat. destruct (Nat.iter 8 (level compress) (namespace hashes)); [discriminate H8|reflexivity]. }
  rewrite Eh. cbn [expect mbind exec_bind]. rewrite (root_eq hashes) by lia.
  assert (Eb : bind_tx_count (tree_root hashes) (length hashes) = Some (compress_with_tag TAG_TXROOT (tree_root hashes) (count_digest (length hashes)))).
  { unfold bind_tx_count, count_ok, TX_TREE_LEAVES. destruct (Nat.leb_spec 1 (length hashes)); [|lia]. destruct (Nat.leb_spec (length hashes) 256); [|lia]. reflexivity. }
  rewrite Eb. cbn [expect mbind exec_bind]. set (bound := compress_with_tag _ _ _).
  case_bool_decide as E; cbn [ensure lift mbind exec_bind]; [|intros [_ F]; apply (inj Some) in F; contradiction].
  set (levels := tree_levels _ _).
  assert (Hone : forall i, (i < length hashes)%nat -> exists path, path_from_hashes hashes i = Some path /\
    (path ← expect (path_inputs levels i); leaf ← expect (leaves ← levels !! 0%nat; leaves !! i);
     mret (mkPathInputs (digest_to_fields leaf) path.1 path.2 (digest_to_fields (tree_root hashes)) TX_TREE_DEPTH))
    = @Return HistoryStepWitnessError _ (inputs_of_path hashes i path)).
  { intros i Hi. destruct (path_inputs_ok hashes i Hn Hi) as (path & Ep & Ei). exists path. split; [exact Ep|]. fold levels in Ei. rewrite Ei.
    cbn [expect mbind exec_bind]. unfold levels. rewrite (tree_levels_lookup 8) by (assumption || unfold TX_TREE_LEAVES; lia). cbn [mbind option_bind Nat.iter nat_rect].
    destruct (nth_lookup_or_length (namespace hashes) i zero_digest) as [En|En]; [|rewrite Hl in En; cbn in En; lia].
    rewrite En. cbn [expect mbind exec_bind]. now rewrite namespace_nth. }
  destruct (collect_seq (fun leaf_index => path ← expect (path_inputs levels leaf_index); leaf ← expect (leaves ← levels !! 0%nat; leaves !! leaf_index);
    @mret (exec HistoryStepWitnessError) _ _ (mkPathInputs (digest_to_fields leaf) path.1 path.2 (digest_to_fields (tree_root hashes)) TX_TREE_DEPTH)) (length hashes))
    as (ys & -> & Hlen & Hy); [intros i Hi; destruct (Hone i Hi) as (path & _ & Ei); eauto|].
  split; [lia|]. split; [now rewrite E|]. split; [exact Hlen|]. intros i Hi. destruct (Hone i Hi) as (path & Ep & Ei). destruct (Hy i Hi) as (y & Ey & Eyi).
  exists path. split; [exact Ep|]. split; [rewrite Eyi; rewrite Ei in Ey; now injection Ey as <-|]. rewrite <- E. now apply honest_path_verifies.
Qed.

(** ** The state frontier *)

Lemma state_root_ext {D : Type} `{!ExactHash D} (f g : Z -> SlotValue) log : (forall i, f i = g i) -> ChainInvariant.state_root f log = ChainInvariant.state_root g log.
Proof. intros H. apply tree_ext. intros i. now rewrite H. Qed.

Section BuilderProof.
Context {R : RawCommit StateHash}.
Implicit Types (c : ChainState (D := StateHash)) (slots : Z -> SlotValue).

(** The segment of a slot at depth [log] is in memory. *)
Definition resident_at c (log : nat) (i : Z) : Prop :=
  Z.shiftr i (Z.of_nat (Nat.min log SEGMENT_LOG)) mod 2 ^ 16 ∉ evicted (cs_state c).

Lemma readable_at c slots (log : nat) i : state_ok (cs_state c) slots ->
  (log = log_slots (cs_state c) \/ log = S (log_slots (cs_state c))) -> 0 <= i -> resident_at c log i -> readable (cs_state c) i.
Proof.
  intros Hs Hlog H0 Hr. split; [exact H0|]. intros Hi. unfold resident_at in Hr. unfold seg_id_of. rewrite (ok_eff _ _ Hs). unfold num_slots in Hi.
  set (cur := log_slots (cs_state c)) in *. destruct Hlog as [-> | ->]; [exact Hr|]. destruct (decide (cur < SEGMENT_LOG)%nat) as [Hlt|Hge].
  - replace (Nat.min cur SEGMENT_LOG) with cur by lia. replace (Nat.min (S cur) SEGMENT_LOG) with (S cur) in Hr by lia.
    rewrite Z.shiftr_div_pow2 in Hr |- * by lia. rewrite Z.div_small by lia.
    rewrite Z.div_small in Hr by (rewrite pow2_S; lia). exact Hr.
  - replace (Nat.min cur SEGMENT_LOG) with (Nat.min (S cur) SEGMENT_LOG) by lia. exact Hr.
Qed.

(** One frontier opens the touched slots before and after. *)
Lemma parent_frontier_ok c slots (depth : Z) idx : chain_ok c slots -> sealed c slots -> rehashable c -> depth <= 32 ->
  (depth = Z.of_nat (log_slots (cs_state c)) \/ depth = Z.of_nat (log_slots (cs_state c)) + 1) -> indices_ok idx (Z.to_nat depth) ->
  Forall (fun i => 0 <= i /\ resident_at c (Z.to_nat depth) i) idx ->
  exists siblings, parent_frontier c depth idx = Return (siblings, ChainInvariant.state_root slots (Z.to_nat depth))
    /\ reconstruct_root state_node_hash idx ((fun i => slot_leaf_hash (slots i)) <$> idx) siblings (Z.to_nat depth)
       = Return (ChainInvariant.state_root slots (Z.to_nat depth))
    /\ forall new, length new = length idx -> reconstruct_root state_node_hash idx (slot_leaf_hash <$> new) siblings (Z.to_nat depth)
         = Return (ChainInvariant.state_root (write_slots slots (zip idx new)) (Z.to_nat depth)).
Proof.
  intros Hc Hse Hre H32 Hd Hok Hidx. unfold parent_frontier.
  assert (Hone : forall c', rooted c' slots -> sealed c' slots -> log_slots (cs_state c') = Z.to_nat depth -> evicted (cs_state c') = evicted (cs_state c) ->
    exists siblings, exact_frontier_siblings c' idx (Z.to_nat depth) = Return siblings
      /\ cs_utxo_root c' = ChainInvariant.state_root slots (Z.to_nat depth)
      /\ reconstruct_root state_node_hash idx ((fun i => slot_leaf_hash (slots i)) <$> idx) siblings (Z.to_nat depth)
         = Return (ChainInvariant.state_root slots (Z.to_nat depth))
      /\ forall new, length new = length idx -> reconstruct_root state_node_hash idx (slot_leaf_hash <$> new) siblings (Z.to_nat depth)
           = Return (ChainInvariant.state_root (write_slots slots (zip idx new)) (Z.to_nat depth))).
  { intros c' Hr' Hse' L Ev. pose proof (frontier_siblings_ok c' slots idx Hr' Hse') as H. rewrite L in H.
    destruct (H Hok) as (siblings & E1 & E2 & E3).
    - eapply Forall_impl; [exact Hidx|]. cbv beta. intros i [H0 Hi]. split; [exact H0|]. unfold seg_id_of. rewrite (ok_eff _ _ (rt_state _ _ Hr')), L, Ev. exact Hi.
    - exists siblings. destruct Hse' as [_ Hroot]. rewrite L in Hroot. rewrite Hroot in E2. auto. }
  destruct Hd as [Hd|Hd].
  - rewrite (proj2 (Z.compare_eq_iff _ _) Hd). destruct (Hone c (co_rooted _ _ Hc) Hse ltac:(lia) eq_refl) as (siblings & -> & Er & H).
    exists siblings. cbn [fail_as mbind exec_bind]. rewrite Er. auto.
  - rewrite (proj2 (Z.compare_gt_iff _ _)) by lia. rewrite (proj2 (Z.eqb_eq _ _) Hd).
    destruct (expand_one_ok c slots (co_rooted _ _ Hc) Hse ltac:(lia) Hre) as (c' & -> & Hr' & Hse' & [G1 G2 _ _ _]). cbn [expect mbind exec_bind].
    destruct (Hone c' Hr' Hse' ltac:(lia) G2) as (siblings & -> & Er & H). exists siblings. cbn [fail_as mbind exec_bind]. rewrite Er. auto.
Qed.

(** The claims of a block on its parent state, at the depth of the header. *)
Record witness_ok c slots (block : Block) : Prop := {
  wk_depth : Header.log_slots (header block) = Z.of_nat (log_slots (cs_state c))
             \/ Header.log_slots (header block) = Z.of_nat (log_slots (cs_state c)) + 1;
  wk_touched : transactions block ≫= touched_slots <> [];
  wk_actions : actions_ok (fun i => i < 2 ^ Header.log_slots (header block)) slots (cs_alloc_counter c) (transactions block);
  wk_covered : live_ins (transactions block) <= cs_active_slot_count c;
  wk_root : Header.state_root (header block)
    = ChainInvariant.state_root (block_after c slots block) (Z.to_nat (Header.log_slots (header block)));
  wk_active : Header.active_slot_count (header block)
    = cs_active_slot_count c - live_ins (transactions block) + live_outs (transactions block);
  wk_alloc : Header.alloc_counter (header block) = cs_alloc_counter c + live_outs (transactions block)
}.

(** What the builder returns: the touched slots in order, their leaves before and
    after, and siblings that reconstruct both roots. *)
Record frontier_inputs_ok c slots (block : Block) (fi : ExactStateStructuralFrontierInputs) : Prop := {
  fk_sorted : StronglySorted Z.lt (fi_touched_indices fi);
  fk_touched : forall i, i ∈ fi_touched_indices fi <-> i ∈ transactions block ≫= touched_slots;
  fk_depth : active_depth fi = Header.log_slots (header block);
  fk_old : old_slot_leaves fi = (fun i => slot_leaf_input (slots i)) <$> fi_touched_indices fi;
  fk_new : new_slot_leaves fi = (fun i => slot_leaf_input (block_after c slots block i)) <$> fi_touched_indices fi;
  fk_old_root : old_root fi = ChainInvariant.state_root slots (Z.to_nat (active_depth fi));
  fk_new_root : new_root fi = Header.state_root (header block);
  fk_opens_old : reconstruct_root state_node_hash (fi_touched_indices fi) ((fun i => slot_leaf_hash (slots i)) <$> fi_touched_indices fi)
    (live_sibling_digests fi) (Z.to_nat (active_depth fi)) = Return (old_root fi);
  fk_opens_new : reconstruct_root state_node_hash (fi_touched_indices fi)
    ((fun i => slot_leaf_hash (block_after c slots block i)) <$> fi_touched_indices fi)
    (live_sibling_digests fi) (Z.to_nat (active_depth fi)) = Return (new_root fi)
}.

(** Writing the new values of the touched slots is applying the block. *)
Lemma block_after_zip slots h alloc txs idx : (forall i, i ∈ idx <-> i ∈ txs ≫= touched_slots) -> NoDup idx ->
  forall i, write_slots slots (zip idx (write_slots slots (block_updates h alloc txs) <$> idx)) i = write_slots slots (block_updates h alloc txs) i.
Proof.
  intros Hidx Hn i. set (after := write_slots slots (block_updates h alloc txs)).
  assert (F : (zip idx (after <$> idx)).*1 = idx) by (apply fst_zip; rewrite length_fmap; lia).
  destruct (decide (i ∈ idx)) as [Hi|Hi].
  - apply list_elem_of_lookup in Hi as [k Hk]. apply (write_slots_at slots _ k); [now rewrite F|].
    apply lookup_zip_Some. split; [exact Hk|]. now rewrite list_lookup_fmap, Hk.
  - rewrite write_slots_other by (now rewrite F). unfold after. symmetry. apply write_slots_other. rewrite block_updates_keys, <- Hidx. exact Hi.
Qed.

Lemma surface_indices txs surf slots h alloc (depth : Z) : 0 <= depth <= 32 -> surface_ok slots h alloc txs surf ->
  txs ≫= touched_slots <> [] -> (forall i, i ∈ txs ≫= touched_slots -> i < 2 ^ depth) -> indices_ok (touched_indices surf) (Z.to_nat depth).
Proof.
  intros Hd [S1 S2 _ _ _ _] Hne Hb. constructor; [lia| |exact S1|].
  - intros E. destruct (txs ≫= touched_slots) as [|i l] eqn:El; [contradiction|]. apply (not_elem_of_nil i). rewrite <- E. apply S2. now left.
  - apply Forall_forall. intros i Hi. rewrite Z2Nat.id by lia. now apply Hb, S2.
Qed.

(** The two evaluations of the plan are the two reconstructions. *)
Lemma plan_evaluates idx depth (leaves siblings : list StateHash) root :
  Forall (fun i => 0 <= i) idx -> reconstruct_root state_node_hash idx leaves siblings depth = Return root ->
  exists plan, derive_structural_frontier_plan idx depth = Return plan
    /\ forall leaves' root', reconstruct_root state_node_hash idx leaves' siblings depth = Return root' ->
       exists hs, evaluate_structural_frontier state_node_hash plan leaves' siblings = Return (root', hs).
Proof.
  intros H0 Hr. destruct (plan_reconstructs state_node_hash idx depth H0) as [(plan & E & H)|(err & _ & H)].
  - exists plan. split; [exact E|]. intros leaves' root' Hr'. destruct (H leaves' siblings) as [(v & hs & E1 & E2)|(e & e' & E1 & _)]; rewrite Hr' in E1; [|discriminate].
    injection E1 as <-. eauto.
  - destruct (H leaves siblings) as [e He]. rewrite He in Hr. discriminate.
Qed.

Lemma frontier_cases c slots block : chain_ok c slots -> sealed c slots -> rehashable c ->
  Forall body_wf (transactions block) -> (length (transactions block) <= 256)%nat ->
  0 <= Header.log_slots (header block) <= 32 ->
  Forall (resident_at c (Z.to_nat (Header.log_slots (header block)))) (transactions block ≫= touched_slots) ->
  match build_exact_state_frontier block c with
  | Return fi => witness_ok c slots block /\ frontier_inputs_ok c slots block fi
  | Fail _ => ~ witness_ok c slots block
  | Panic => False
  end.
Proof.
  intros Hc Hse Hre Hw Hlen Hl Hres. unfold build_exact_state_frontier. cbn zeta. set (txs := transactions block) in *. set (hdr := header block) in *.
  pose proof (rt_state _ _ (co_rooted _ _ Hc)) as Hs. pose proof (co_alloc _ _ Hc) as Hal.
  assert (H0 : forall i, i ∈ txs ≫= touched_slots -> 0 <= i).
  { intros i Hi. apply list_elem_of_bind in Hi as (b & Hi & Hb). rewrite Forall_forall in Hw. apply (slots_wf b (Hw b Hb) i Hi). }
  assert (Hd : Decision (Header.log_slots hdr = Z.of_nat (log_slots (cs_state c)) \/ Header.log_slots hdr = Z.of_nat (log_slots (cs_state c)) + 1)) by apply _.
  destruct Hd as [Hd|Hd].
  2:{ unfold build_exact_action_surface_for_transactions_at_log_slots, build_exact_action_surface_at_log_slots_from_source. cbn zeta.
      destruct (Z.eqb_spec (Header.log_slots hdr) (Z.of_nat (log_slots (cs_state c)))); [tauto|].
      destruct (Z.eqb_spec (Header.log_slots hdr) (Z.of_nat (log_slots (cs_state c)) + 1)); [tauto|].
      cbn [orb ensure mbind result_bind map_err lift exec_bind]. intros [F _ _ _ _ _ _]. exact (Hd F). }
  assert (Hread : Forall (readable (cs_state c)) (txs ≫= touched_slots)).
  { rewrite Forall_forall in Hres. apply Forall_forall. intros i Hi. apply (readable_at c slots (Z.to_nat (Header.log_slots hdr)) i Hs); [lia|auto|auto]. }
  pose proof (surface_cases (cs_state c) slots (Header.log_slots hdr) (hdr_height hdr) (cs_alloc_counter c) txs Hs Hl Hw Hlen ltac:(lia) Hread) as Hsurf.
  destruct (build_exact_action_surface_for_transactions_at_log_slots _ _ _ _ _) as [surf|e]; cbn [map_err lift mbind exec_bind].
  2:{ intros [_ _ F _ _ _ _]. apply Hsurf. auto. }
  destruct Hsurf as (_ & Hact & Hsf). pose proof Hsf as [S1 S2 S3 S4 S5 S6].
  case_bool_decide as Et; cbn [negb ensure lift mbind exec_bind].
  { intros [_ F _ _ _ _ _]. apply F. fold txs. destruct (txs ≫= touched_slots) as [|i l]; [reflexivity|]. exfalso. apply (not_elem_of_nil i). rewrite <- Et. apply S2. now left. }
  assert (Hnt : txs ≫= touched_slots <> []).
  { intros E. destruct (touched_indices surf) as [|i l]; [contradiction|]. apply (not_elem_of_nil i). rewrite <- E. apply S2. now left. }
  pose proof (surface_indices txs surf slots _ _ _ Hl Hsf Hnt (ao_resident _ _ _ _ Hact)) as Hidx.
  assert (Hidx0 : Forall (fun i => 0 <= i /\ resident_at c (Z.to_nat (Header.log_slots hdr)) i) (touched_indices surf)).
  { apply Forall_forall. intros i Hi. apply S2 in Hi. rewrite Forall_forall in Hres. auto. }
  destruct (parent_frontier_ok c slots (Header.log_slots hdr) (touched_indices surf) Hc Hse Hre ltac:(lia) Hd Hidx Hidx0) as (siblings & -> & Hold & Hnew).
  cbn [mbind exec_bind]. set (after := write_slots slots (block_updates (hdr_height hdr) (cs_alloc_counter c) txs)) in *.
  specialize (Hnew (after <$> touched_indices surf) (length_fmap _ _)).
  assert (Er : ChainInvariant.state_root (write_slots slots (zip (touched_indices surf) (after <$> touched_indices surf))) (Z.to_nat (Header.log_slots hdr))
    = ChainInvariant.state_root after (Z.to_nat (Header.log_slots hdr))).
  { exact (state_root_ext _ _ _ (block_after_zip slots _ _ txs _ S2 (sorted_nodup _ S1))). }
  rewrite Er in Hnew. clear Er.
  assert (Hpos : Forall (fun i => 0 <= i) (touched_indices surf)) by (eapply Forall_impl; [exact Hidx0|]; cbv beta; tauto).
  destruct (plan_evaluates _ _ _ _ _ Hpos Hold) as (plan & -> & Hev). cbn [fail_as mbind exec_bind].
  rewrite S3, S4. fold after. destruct (Hev _ _ Hold) as [hs1 E1]. destruct (Hev _ _ Hnew) as [hs2 E2].
  rewrite <- !list_fmap_compose in *. change (slot_leaf_hash ∘ slots) with (fun i => slot_leaf_hash (slots i)). rewrite E1, E2. cbn [fail_as mbind exec_bind fst snd].
  rewrite (bool_decide_eq_true_2 (ChainInvariant.state_root slots _ = ChainInvariant.state_root slots _)) by reflexivity. cbn [ensure lift mbind exec_bind].
  case_bool_decide as Eroot; cbn [ensure lift mbind exec_bind]; [|intros [_ _ _ _ F _ _]; exact (Eroot (eq_sym F))].
  pose proof (population_bound c slots Hc).
  pose proof (live_outs_nonneg txs). pose proof (live_ins_nonneg txs).
  destruct (live_bounds txs Hw) as [_ Hlo]. pose proof (ao_alloc _ _ _ _ Hact) as Hao.
  rewrite S5, S6. destruct (decide (live_ins txs <= cs_active_slot_count c)) as [Hsp|Hsp].
  2:{ unfold checked_sub. destruct (Z.leb_spec (live_ins txs) (cs_active_slot_count c)); [lia|]. cbn [mbind option_bind ok_or lift exec_bind]. intros [_ _ _ F _ _ _]. exact (Hsp F). }
  rewrite (proj2 (checked_sub_some (cs_active_slot_count c) (live_ins txs) _) (conj eq_refl Hsp)). cbn [mbind option_bind].
  rewrite (proj2 (checked_add_some 64 (cs_active_slot_count c - live_ins txs) (live_outs txs) _)) by (split; [reflexivity|lia]). cbn [ok_or lift mbind exec_bind].
  destruct (Z.eqb_spec (cs_active_slot_count c - live_ins txs + live_outs txs) (Header.active_slot_count hdr)) as [Ea|Ea]; cbn [ensure lift mbind exec_bind];
    [|intros [_ _ _ _ _ F _]; exact (Ea (eq_sym F))].
  rewrite (proj2 (checked_add_some 64 (cs_alloc_counter c) (live_outs txs) _)) by (split; [reflexivity|lia]). cbn [ok_or lift mbind exec_bind].
  destruct (Z.eqb_spec (cs_alloc_counter c + live_outs txs) (Header.alloc_counter hdr)) as [El|El]; cbn [ensure lift mbind exec_bind];
    [|intros [_ _ _ _ _ _ F]; exact (El (eq_sym F))].
  split; constructor; cbn [fi_touched_indices active_depth old_slot_leaves new_slot_leaves live_sibling_digests old_root new_root]; auto.
  rewrite <- Eroot. exact Hnew.
Qed.

End BuilderProof.

(** ** Prover and interpreter *)

Lemma primary_touches b : is_primary_coinbase_shape b = true -> body_wf b -> touched_slots b <> [].
Proof.
  intros [_ Hb]%andb_true_iff Hw. apply Z.eqb_eq in Hb. destruct (wf_outputs _ Hw) as [Ho _].
  unfold touched_slots, out_slots, live_outputs, enumerate, output_is_live. destruct (outputs b) as [|o [|o' [|]]]; try discriminate Ho.
  rewrite Hb. intros [_ F]%app_eq_nil. discriminate F.
Qed.

Definition canonical_layout (block : Block) : Prop :=
  exists coinbase payout class gs, block_layout hash_tx8x2_leaves sponge_pairs (transactions block) coinbase payout class gs
  /\ Forall (fun b => validate_body_semantics_no_hash b = Ok tt /\ live_inputs b = []) (coinbase :: option_list payout).

(** A block with a witness applies when its layout is canonical and its
    transaction root right; a block that applies has a witness when the live
    count covers all its inputs at once. *)
Lemma witness_block c slots block : (forall i, i ∈ transactions block ≫= touched_slots -> resident_at c (Z.to_nat (Header.log_slots (header block))) i) ->
  Forall body_wf (transactions block) -> 0 <= Header.log_slots (header block) <= Z.of_nat (log_slots (cs_state c)) + 1 ->
  (canonical_layout block -> try_compute_tx_root (transactions block) = Return (Header.tx_root (header block)) -> witness_ok c slots block -> block_ok c slots block)
  /\ (live_ins (transactions block) <= cs_active_slot_count c -> block_ok c slots block -> witness_ok c slots block).
Proof.
  intros Hres Hw Hl.
  assert (Hav : actions_ok (available_at c (Z.to_nat (Header.log_slots (header block)))) slots (cs_alloc_counter c) (transactions block)
    <-> actions_ok (fun i => i < 2 ^ Header.log_slots (header block)) slots (cs_alloc_counter c) (transactions block)).
  { apply actions_avail. intros i Hi. unfold available_at. rewrite Z2Nat.id by lia. specialize (Hres i Hi). unfold resident_at in Hres. tauto. }
  split.
  - intros Hlay Htx [W1 W2 W3 Wc W4 W5 W6]. constructor; try assumption; [lia|now apply Hav|now apply covered_bound].
  - intros Hcv [B1 B2 B3 _ B4 B5 B6 B7]. constructor; try assumption; [lia| |now apply Hav].
    destruct B1 as (cb & payout & class & gs & [E Hcb _ _ _] & _). rewrite E in Hw |- *. apply Forall_cons in Hw as [Hw _]. cbn [mbind list_bind].
    intros F. apply app_eq_nil in F as [F _]. exact (primary_touches cb Hcb Hw F).
Qed.

(** ** Properties *)

(** C5. The prover and the interpreter agree.  On a sealed chain state, for a
    block of at most 256 bodies whose depth is at most one above the state and
    whose touched segments are in memory, [build_exact_state_frontier] never
    panics.  The witness it returns lists the touched slots in order with their
    leaves before and after the block, and one set of siblings that reconstructs
    the parent root from the old leaves and the header root from the new ones.
    The builder looks neither at the layout nor at the transaction root: when
    these are right, [apply_block] succeeds on every block it returns a witness
    for.  Where the live count is exact and no input claims what an empty slot
    holds, it fails only on blocks that [apply_block] rejects. *)
Theorem witness_agrees_with_interpreter {R : RawCommit StateHash} (c : ChainState (D := StateHash)) (slots : Z -> SlotValue) (block : Block) :
  (forall cols, 0 <= column_capacity cols) -> chain_ok c slots -> sealed c slots -> rehashable c ->
  Forall body_wf (transactions block) -> (length (transactions block) <= 256)%nat -> 0 <= hdr_height (header block) < 2 ^ 63 ->
  0 <= Header.log_slots (header block) <= 32 -> Header.log_slots (header block) <= Z.of_nat (log_slots (cs_state c)) + 1 ->
  Forall (resident_at c (Z.to_nat (Header.log_slots (header block)))) (transactions block ≫= touched_slots) ->
  match build_exact_state_frontier block c with
  | Return fi => frontier_inputs_ok c slots block fi
      /\ (canonical_layout block -> try_compute_tx_root (transactions block) = Return (Header.tx_root (header block)) ->
          exists r, apply_block c block = Return r)
  | Fail _ => counted c slots -> Forall real_spends (transactions block) -> exists e, apply_block c block = Fail e
  | Panic => False
  end.
Proof.
  intros Hcap Hc Hse Hre Hw Hlen Hh Hl Hl1 Hres.
  pose proof (frontier_cases c slots block Hc Hse Hre Hw Hlen Hl Hres) as Hf.
  pose proof (apply_block_cases Hcap c slots block Hc Hse Hre Hw Hh Hl Hl1) as Ha. rewrite Forall_forall in Hres.
  destruct (witness_block c slots block Hres Hw ltac:(lia)) as [H1 H2].
  destruct (build_exact_state_frontier block c) as [fi|e|]; [| |exact Hf].
  - destruct Hf as [Hk Hfi]. split; [exact Hfi|]. intros Hlay Htx.
    destruct (apply_block c block) as [r|e|]; [eauto|destruct (Ha (H1 Hlay Htx Hk))|destruct Ha].
  - intros Hct Hne. destruct (apply_block c block) as [[root c']|e'|]; [|eauto|destruct Ha]. destruct Hf. destruct Ha as [Hb _]. apply H2; [|exact Hb].
    exact (spends_bound c slots _ _ Hw Hne Hc Hct (bk_actions _ _ _ Hb)).
Qed.

(** The prover of a coinbase block that doubles the empty state of four slots. *)
Lemma witness_agrees_with_interpreter_witness :
  exists (c : ChainState (D := StateHash)) block fi r, with_log_slots (RawCommit0 := null_commit) 2 = Some c
  /\ build_exact_state_frontier (R := null_commit) block c = Return fi /\ frontier_inputs_ok c (fun _ => EMPTY) block fi
  /\ apply_block (R := null_commit) c block = Return r.
Proof.
  destruct example_applies as (c & txr & E & Hc & Hse & L & Ev & Al & Ct & Etx & Hok). set (block := example_child _ txr) in *.
  assert (Hre : rehashable c) by (intros _ seg _; rewrite Ev; apply not_elem_of_empty).
  assert (Hres : Forall (resident_at c 3) (transactions block ≫= touched_slots)).
  { change (transactions block ≫= touched_slots) with [2]. constructor; [|constructor]. unfold resident_at. rewrite Ev. apply not_elem_of_empty. }
  pose proof (apply_block_cases (R := null_commit) (fun _ => Z.le_refl 0) c (fun _ => EMPTY) block Hc Hse Hre (proj1 example_bodies)
    ltac:(cbn; lia) ltac:(cbn; lia) ltac:(cbn; lia)) as Ha.
  pose proof (witness_agrees_with_interpreter (R := null_commit) c (fun _ => EMPTY) block (fun _ => Z.le_refl 0) Hc Hse Hre
    (proj1 example_bodies) ltac:(cbn; lia) ltac:(cbn; lia) ltac:(cbn; lia) ltac:(cbn; lia) Hres) as H.
  destruct (apply_block c block) as [r|e|] eqn:Ea; [|now destruct (Ha Hok)|destruct Ha].
  destruct (build_exact_state_frontier block c) as [fi|e|] eqn:Ef; [|destruct (H Ct (proj2 example_bodies)) as [e' [=]]|destruct H].
  exists c, block, fi, r. split; [exact E|]. split; [exact Ef|]. split; [exact (proj1 H)|exact Ea].
Defined.

(** Transaction paths of a block witness are complete.  The builder of
    inclusion paths never panics; it succeeds precisely for one to 256 logical
    hashes whose counted root is the transaction root of the header, and then
    gives for every hash its field lanes, the siblings and the direction bits of
    the path that verifies against that root, with zero rows above the tree. *)
Theorem tx_path_inputs_exact (block : Block) (hashes : list (list Z)) :
  match tx_root_merkle_inputs block hashes with
  | Return inputs => (1 <= length hashes <= 256)%nat /\ root_from_hashes hashes = Some (Header.tx_root (header block))
      /\ length inputs = length hashes
      /\ forall i, (i < length hashes)%nat -> exists path, path_from_hashes hashes i = Some path
           /\ inputs !! i = Some (inputs_of_path hashes i path)
           /\ verify_path (nth i hashes zero_digest) path i (length hashes) (Header.tx_root (header block)) = true
  | Fail _ => ~ ((1 <= length hashes <= 256)%nat /\ root_from_hashes hashes = Some (Header.tx_root (header block)))
  | Panic => False
  end.
Proof. apply tx_paths_cases. Qed.
