(* ===== verification/BlockRules.v ===== *)
(** * Block validation ([noid_chain/src/consensus/validation.rs])

    The resource preflight of a raw block, the fee policy, the mandatory system
    mints, the native checks with their variants, and validation through the
    interpreter.  Acceptance is characterised rule by rule, and bounds what a
    block adds to the supply. *)

From Stdlib Require Import ZArith Lia Bool String Sorted.
From stdpp Require Import base numbers list option gmap sorting.
From S2P Require Import Prelude Params Emission Tx PagedSpend Fees Difficulty Rules Assembly Stream Poseidon Sponge Merkle TxTree Header Pow HeaderRules SparseMerkle StateTree HeapTree HotSegments StreamRoot Segmented Resize ChainState ChainInvariant ApplyTx Transition BlockApply StateDelta.
Open Scope Z_scope.

(** ** Data *)

Record AnchorInfo := mkAnchorInfo {
  ai_height : Z;
  ai_timestamp : Z;
  ai_target : list Z
}.

Record BlockResourcePreflight := mkPreflight {
  pf_user_page_count : Z;
  pf_logical_tx_count : Z;
  pf_live_input_count : Z;
  pf_output_count : Z;
  pf_action_count : Z;
  pf_touched_slot_count : Z;
  pf_distinct_segment_count : Z;
  pf_state_frontier_node_count : Z
}.

(** [ConsensusError], with the errors that its formatted payloads render. *)
Module Val.
Inductive ValidationError :=
  | Consensus (e : ConsensusError)
  | CoinbaseSemantics (e : PublicLogicError)
  | InvalidStream (e : BlockPageStreamError)
  | ApplyFailed (e : BlockApplyError).
End Val.
Abbreviation ValidationError := Val.ValidationError (only parsing).

Definition O1_NETWORK_FUND_ADDRESS : list Z :=
  [0x1c; 0x5b; 0x23; 0x74; 0x54; 0xad; 0xab; 0xeb; 0x0e; 0x95; 0x37; 0xb5; 0x87; 0x02; 0xd7; 0xfe;
   0x8c; 0x0e; 0x63; 0x30; 0xc3; 0x0b; 0x58; 0xee; 0x9b; 0x3f; 0x19; 0x8a; 0x3b; 0x46; 0xf6; 0x78].

Definition PARANO1D_LAB_ADDRESS : list Z :=
  [0x36; 0x24; 0xd0; 0xc7; 0x8d; 0x0d; 0x20; 0x87; 0x61; 0x93; 0xdc; 0xbf; 0xc2; 0xc2; 0x91; 0xe5;
   0x52; 0x6a; 0x6e; 0x37; 0x08; 0x38; 0xc4; 0x3f; 0x99; 0xda; 0x82; 0x35; 0x6c; 0x63; 0x2b; 0x40].

(** ** Resources *)

Definition resource_limit {A} (limit : string) (actual max : Z) : result ValidationError A :=
  Err (Val.Consensus (BlockResourceLimitExceeded limit actual max)).

Definition page_stream_consensus_error (error : BlockPageStreamError) : ValidationError :=
  match error with
  | BPS.MissingCoinbase => Val.Consensus MissingCoinbase
  | BPS.CoinbaseNotFirst => Val.Consensus CoinbaseNotFirst
  | BPS.MultipleCoinbase => Val.Consensus MultipleCoinbase
  | BPS.PagedSpend (BlockPageLimit actual capacity) => Val.Consensus (BlockResourceLimitExceeded "user_pages" actual capacity)
  | BPS.PagedSpend (TooManyGroups actual capacity) => Val.Consensus (BlockResourceLimitExceeded "logical_txs" actual capacity)
  | BPS.PagedSpend (BlockInputLimit actual capacity) => Val.Consensus (BlockResourceLimitExceeded "live_inputs" actual capacity)
  | BPS.PagedSpend (BlockOutputLimit actual capacity) => Val.Consensus (BlockResourceLimitExceeded "user_outputs" actual capacity)
  | BPS.PagedSpend (StreamDuplicateInputSlot _ | StreamDuplicateOutputSlot _ | StreamInputOutputSlotOverlap _) => Val.Consensus SlotConflict
  | other => Val.InvalidStream other
  end.

(** Iteration over a [BTreeSet]. *)
Definition btree_list (s : gset Z) : list Z := merge_sort Z.le (elements s).

(** The loop variables. *)
Record ScanState := mkScan {
  sc_inputs : Z;
  sc_outputs : Z;
  sc_touched : gset Z;
  sc_segments : gset Z
}.

Definition scan_input (slot_domain : Z) (s : ScanState) (p : nat * TxInput) : result ValidationError ScanState :=
  let index := in_slot_index p.2 in
  _ ← ensure (negb (slot_domain <=? index)) (Val.Consensus (ShapeMismatch (Text "live input slot is outside block log_slots")));
  Ok (mkScan (sc_inputs s + 1) (sc_outputs s) ({[index]} ∪ sc_touched s) ({[Z.shiftr index LOG_SEGMENT_SIZE]} ∪ sc_segments s)).

Definition scan_output (slot_domain : Z) (s : ScanState) (p : nat * TxOutput) : result ValidationError ScanState :=
  let index := out_slot_index p.2 in
  _ ← ensure (negb (slot_domain <=? index)) (Val.Consensus (ShapeMismatch (Text "live output slot is outside block log_slots")));
  Ok (mkScan (sc_inputs s) (sc_outputs s + 1) ({[index]} ∪ sc_touched s) ({[Z.shiftr index LOG_SEGMENT_SIZE]} ∪ sc_segments s)).

Definition scan_tx (slot_domain : Z) (s : ScanState) (tx : TxBody) : result ValidationError ScanState :=
  s ← fold_result (scan_input slot_domain) s (live_inputs tx);
  s ← fold_result (scan_output slot_domain) s (live_outputs tx);
  if BLOCK_MAX_DISTINCT_SEGMENTS <? Z.of_nat (size (sc_segments s))
  then resource_limit "distinct_segments" (Z.of_nat (size (sc_segments s))) BLOCK_MAX_DISTINCT_SEGMENTS
  else Ok s.

Definition validate_block_resource_preflight (block : Block) : exec ValidationError BlockResourcePreflight :=
  let txs := transactions block in
  let depth := Header.log_slots (header block) in
  _ ← lift (ensure (Z.of_nat (length txs) <=? BLOCK_MAX_TXS) (Val.Consensus TooManyTxs));
  _ ← lift (ensure ((1 <=? depth) && (depth <=? 32))
              (Val.Consensus (ShapeMismatch (Text "block log_slots is outside the u32 slot domain"))));
  let slot_domain := Z.shiftl 1 depth in
  stream ← lift (map_err page_stream_consensus_error (block_stream txs));
  let user_page_count := bs_page_count stream in
  let logical_tx_count := bs_logical_count stream in
  _ ← lift (if BLOCK_MAX_USER_PAGES <? user_page_count
            then resource_limit "user_pages" user_page_count BLOCK_MAX_USER_PAGES else Ok tt);
  s ← lift (fold_result (scan_tx slot_domain) (mkScan 0 0 ∅ ∅) txs);
  _ ← lift (if BLOCK_MAX_LIVE_INPUTS <? sc_inputs s then resource_limit "live_inputs" (sc_inputs s) BLOCK_MAX_LIVE_INPUTS else Ok tt);
  _ ← lift (if BLOCK_MAX_USER_OUTPUTS + 1 <? sc_outputs s
            then resource_limit "outputs" (sc_outputs s) (BLOCK_MAX_USER_OUTPUTS + 1) else Ok tt);
  let action_count := sc_inputs s + sc_outputs s in
  _ ← lift (if BLOCK_MAX_ACTIONS <? action_count then resource_limit "actions" action_count BLOCK_MAX_ACTIONS else Ok tt);
  let touched_indices := btree_list (sc_touched s) in
  nodes ← (match touched_indices with
           | [] => mret 0
           | _ => match expected_sibling_count touched_indices (Z.to_nat depth) with
                  | Return n => mret (Z.of_nat n)
                  | _ => Panic
                  end
           end);
  mret (mkPreflight user_page_count logical_tx_count (sc_inputs s) (sc_outputs s) action_count
          (Z.of_nat (size (sc_touched s))) (Z.of_nat (size (sc_segments s))) nodes).

(** ** Fees and system mints *)

Definition claim_group_fee (parent : BlockHeader) (sum : Z) (group : PagedSpendGroupFacts) : result ValidationError Z :=
  let breakdown := fee_breakdown (ps_live_inputs (spend group)) (ps_live_outputs (spend group))
                     (Header.active_slot_count parent) (Header.log_slots parent) in
  let required := fb_required_total breakdown in
  let actual := ps_fee (spend group) in
  _ ← ensure (negb (actual <? required)) (Val.Consensus (BelowMinFee required actual));
  ok_or (checked_add 128 sum (saturating_sub actual (fb_burned breakdown)))
    (Val.Consensus (ShapeMismatch (Text "claimable fee sum overflow"))).

Definition validate_fee_policy_and_claimable_fee_sum (block : Block) (parent : BlockHeader) : result ValidationError Z :=
  stream ← map_err page_stream_consensus_error (block_stream (transactions block));
  fold_result (claim_group_fee parent) 0 (bs_groups stream).

Definition check_development_payout (payout : TxBody) (expected_anchor : list Z) (expected_amount : Z) : exec ValidationError unit :=
  _ ← lift (map_err (fun _ => Val.Consensus (ShapeMismatch (Text "development payout has non-canonical body semantics")))
              (validate_body_semantics_no_hash payout));
  _ ← lift (ensure (bool_decide (epoch_anchor payout = expected_anchor)) (Val.Consensus BadDevelopmentPayout));
  first ← expect (outputs payout !! 0%nat);
  second ← expect (outputs payout !! 1%nat);
  lift (ensure (negb (negb (bool_decide (out_owner first = O1_NETWORK_FUND_ADDRESS))
                      || negb (bool_decide (out_owner second = PARANO1D_LAB_ADDRESS))
                      || negb (out_amount first =? expected_amount)
                      || negb (out_amount second =? expected_amount)))
          (Val.Consensus BadDevelopmentPayout)).

Definition validate_mandatory_coinbase_with_schedule (block : Block) (parent : BlockHeader) (schedule : ForkSchedule)
  : exec ValidationError unit :=
  let expected_anchor := block_id parent in
  stream ← lift (map_err page_stream_consensus_error (block_stream (transactions block)));
  coinbase ← expect (transactions block !! 0%nat);
  _ ← lift (map_err Val.CoinbaseSemantics (validate_body_semantics_no_hash coinbase));
  _ ← lift (ensure (bool_decide (epoch_anchor coinbase = expected_anchor)) (Val.Consensus BadCoinbaseAnchor));
  output ← expect (outputs coinbase !! 0%nat);
  _ ← lift (ensure (bool_decide (out_owner output = miner_address (header block))) (Val.Consensus BadCoinbaseOwner));
  allocation ← lift (map_err (fun _ => Val.Consensus BadDevelopmentPayout)
    (development_allocation_with_schedule (hdr_height (header block)) (Header.log_slots (header block)) schedule));
  match payout_each allocation, has_development_payout stream with
  | Some _, false => Fail (Val.Consensus MissingDevelopmentPayout)
  | None, true => Fail (Val.Consensus UnexpectedDevelopmentPayout)
  | None, false => mret tt
  | Some expected_amount, true =>
      payout ← expect (transactions block !! 1%nat);
      check_development_payout payout expected_anchor expected_amount
  end.

Definition validate_mandatory_coinbase (block : Block) (parent : BlockHeader) : exec ValidationError unit :=
  validate_mandatory_coinbase_with_schedule block parent ACTIVE_SCHEDULE.

(** ** The native checks *)

Definition header_context (prev_timestamps finalized_active_counts : list Z) (anchor : AnchorInfo) : HeaderContext :=
  mkContext prev_timestamps finalized_active_counts (ai_height anchor) (ai_timestamp anchor) (ai_target anchor).

Definition validate_coinbase_value (txs : list TxBody) (max_allowed : exec ValidationError Z) : exec ValidationError unit :=
  match head txs with
  | Some cb =>
      if is_coinbase cb then
        live ← expect (head (live_outputs cb));
        max_allowed ← max_allowed;
        lift (ensure (negb (max_allowed <? out_amount live.2)) (Val.Consensus InflatedCoinbase))
      else mret tt
  | None => mret tt
  end.

(** The rules that both entry points apply to the body, in this order. *)
Definition validate_body_rules (block : Block) (parent : BlockHeader) (schedule : ForkSchedule) (max_coinbase : Z -> exec ValidationError Z)
  : exec ValidationError unit :=
  _ ← validate_mandatory_coinbase_with_schedule block parent schedule;
  _ ← lift (map_err page_stream_consensus_error (block_stream (transactions block)));
  _ ← lift (map_err Val.Consensus (validate_block_slot_conflicts (transactions block)));
  first ← expect (transactions block !! 0%nat);
  _ ← lift (map_err Val.Consensus (validate_tx_consensus first));
  claimable_fee_sum ← lift (validate_fee_policy_and_claimable_fee_sum block parent);
  validate_coinbase_value (transactions block) (max_coinbase claimable_fee_sum).

Definition validate_block_checks_inner (block : Block) (parent : BlockHeader) (prev_timestamps finalized_active_counts : list Z)
    (anchor : AnchorInfo) (local_time : option Z) (check_pow : bool) (schedule : option ForkSchedule) : exec ValidationError unit :=
  let cx := header_context prev_timestamps finalized_active_counts anchor in
  let active := default ACTIVE_SCHEDULE schedule in
  _ ← validate_block_resource_preflight block;
  _ ← lift (map_err Val.Consensus
        (match schedule with
         | Some schedule => validate_header_with_schedule (header block) parent cx local_time check_pow schedule
         | None =>
             match local_time, check_pow with
             | Some local_time, true => validate_header (header block) parent cx local_time
             | Some local_time, false => validate_header_template (header block) parent cx local_time
             | None, _ => validate_header_timeless (header block) parent cx
             end
         end));
  validate_body_rules block parent active (fun claimable_fee_sum =>
    lift (map_err (fun _ => Val.Consensus BadDevelopmentPayout)
      (max_coinbase_value_from_claimable_fee_sum_with_schedule (hdr_height (header block)) (Header.log_slots (header block))
         claimable_fee_sum active))).

Definition validate_block_checks (block : Block) (parent : BlockHeader) (prev_timestamps finalized_active_counts : list Z)
    (local_time : Z) (anchor : AnchorInfo) : exec ValidationError unit :=
  validate_block_checks_inner block parent prev_timestamps finalized_active_counts anchor (Some local_time) true None.

Definition validate_block_checks_template (block : Block) (parent : BlockHeader) (prev_timestamps finalized_active_counts : list Z)
    (local_time : Z) (anchor : AnchorInfo) : exec ValidationError unit :=
  validate_block_checks_inner block parent prev_timestamps finalized_active_counts anchor (Some local_time) false None.

Definition validate_block_checks_timeless (block : Block) (parent : BlockHeader) (prev_timestamps finalized_active_counts : list Z)
    (anchor : AnchorInfo) : exec ValidationError unit :=
  validate_block_checks_inner block parent prev_timestamps finalized_active_counts anchor None true None.

Definition validate_block_checks_with_schedule (block : Block) (parent : BlockHeader) (prev_timestamps finalized_active_counts : list Z)
    (local_time : option Z) (anchor : AnchorInfo) (check_pow : bool) (schedule : ForkSchedule) : exec ValidationError unit :=
  validate_block_checks_inner block parent prev_timestamps finalized_active_counts anchor local_time check_pow (Some schedule).

(** ** Validation through the interpreter *)

Definition apply_consensus_error (e : BlockApplyError) : ValidationError :=
  match e with
  | BlockErr.TooManyTransactions => Val.Consensus TooManyTxs
  | BlockErr.InvalidTxBody => Val.Consensus (ShapeMismatch (Text "invalid fixed transaction body"))
  | BlockErr.InvalidPagedSpend => Val.Consensus (InvalidPagedSpend (Text "invalid block page stream"))
  | BlockErr.HeaderStateRootMismatch => Val.Consensus BadStateRoot
  | BlockErr.HeaderTxRootMismatch => Val.Consensus BadTxRoot
  | e => Val.ApplyFailed e
  end.

Definition validate_block_consensus {R : RawCommit StateHash} (block : Block) (parent : BlockHeader)
    (prev_timestamps finalized_active_counts : list Z) (local_time : Z) (anchor : AnchorInfo) (state : ChainState (D := StateHash))
  : exec ValidationError (StateHash * ChainState (D := StateHash)) :=
  _ ← lift (map_err Val.Consensus
        (validate_header (header block) parent (header_context prev_timestamps finalized_active_counts anchor) local_time));
  _ ← validate_block_resource_preflight block;
  _ ← validate_body_rules block parent ACTIVE_SCHEDULE (fun claimable_fee_sum =>
        expect (max_coinbase_value_from_claimable_fee_sum (hdr_height (header block)) (Header.log_slots (header block)) claimable_fee_sum));
  r ← fail_as apply_consensus_error (apply_block state block);
  mret (Header.state_root (header block), r.2).

(** ** Counts and amounts of a layout *)

Lemma live_items_filter {A} (f : nat * A -> Item) (live : nat -> bool) (l : list (nat * A)) : (forall p, item_live (f p) = live p.1) ->
  live_items (f <$> l) = f <$> filter (fun p => live p.1 = true) l.
Proof.
  intros E. unfold live_items. induction l as [|p l IH]; [reflexivity|]. cbn [fmap list_fmap]. rewrite !filter_cons, IH, E.
  now destruct (decide (live p.1 = true)).
Qed.

Lemma live_items_bind (f : nat -> TxBody -> list Item) (ps : list (nat * TxBody)) :
  live_items (ps ≫= (fun p => f p.1 p.2)) = ps ≫= (fun p => live_items (f p.1 p.2)).
Proof. induction ps as [|p ps IH]; [reflexivity|]. cbn [mbind list_bind]. now rewrite live_items_app, IH. Qed.

Lemma bind_sums (f : nat -> TxBody -> list Item) (count amount : TxBody -> Z) ps :
  (forall k b, Z.of_nat (length (f k b)) = count b /\ Zsum (item_amount <$> f k b) = amount b) ->
  Z.of_nat (length (ps ≫= (fun p : nat * TxBody => f p.1 p.2))) = Zsum (count <$> ps.*2)
  /\ Zsum (item_amount <$> (ps ≫= (fun p : nat * TxBody => f p.1 p.2))) = Zsum (amount <$> ps.*2).
Proof.
  intros H. induction ps as [|[k b] ps [IH1 IH2]]; [auto|]. cbn [mbind list_bind fmap list_fmap fst snd].
  rewrite length_app, fmap_app, Zsum_app, !Zsum_cons. destruct (H k b) as [E1 E2]. cbn [mbind list_bind] in IH1, IH2. rewrite E2, Nat2Z.inj_add, E1.
  split; f_equal; assumption.
Qed.

Lemma live_input_items k b : live_items (input_items k b)
  = (fun p : nat * TxInput => mkItem k p.1 (input_is_live b p.1) (in_slot_index p.2) (in_amount p.2)) <$> live_inputs b.
Proof. unfold live_inputs. rewrite <- live_items_filter by reflexivity. f_equal. unfold input_items, enumerate. now rewrite fmap_imap. Qed.

Lemma live_output_items k b : live_items (output_items k b)
  = (fun p : nat * TxOutput => mkItem k p.1 (output_is_live b p.1) (out_slot_index p.2) (out_amount p.2)) <$> live_outputs b.
Proof. unfold live_outputs. rewrite <- live_items_filter by reflexivity. f_equal. unfold output_items, enumerate. now rewrite fmap_imap. Qed.

(** The slots of a spend, page by page. *)
Lemma spend_slots pages : live_slots (all_inputs pages) = pages ≫= Assembly.in_slots /\ live_slots (all_outputs pages) = pages ≫= Assembly.out_slots.
Proof.
  unfold live_slots, all_inputs, all_outputs. rewrite !live_items_bind. rewrite <- (enumerate_snd pages) at 2 4.
  induction (enumerate pages) as [|[k b] ps [IH1 IH2]]; [auto|]. cbn [mbind list_bind fmap list_fmap fst snd] in *.
  rewrite !fmap_app, live_input_items, live_output_items, <- !list_fmap_compose. split; f_equal; assumption.
Qed.

(** The inputs of a spend, page by page. *)
Lemma spend_inputs pages : Z.of_nat (length (live_items (all_inputs pages))) = live_ins pages /\ live_total (all_inputs pages) = Zsum (in_total <$> pages).
Proof.
  unfold live_total, all_inputs. rewrite live_items_bind. rewrite <- (enumerate_snd pages) at 2 4.
  apply (bind_sums (fun k b => live_items (input_items k b))). intros k b. rewrite live_input_items, length_fmap, <- list_fmap_compose. auto.
Qed.

Lemma spend_outputs pages : Z.of_nat (length (live_items (all_outputs pages))) = live_outs pages /\ live_total (all_outputs pages) = Zsum (out_total <$> pages).
Proof.
  unfold live_total, all_outputs. rewrite live_items_bind. rewrite <- (enumerate_snd pages) at 2 4.
  apply (bind_sums (fun k b => live_items (output_items k b))). intros k b. rewrite live_output_items, length_fmap, <- list_fmap_compose. auto.
Qed.

Lemma live_ins_app a b : live_ins (a ++ b) = live_ins a + live_ins b.
Proof. unfold live_ins. now rewrite fmap_app, Zsum_app. Qed.

Lemma live_outs_app a b : live_outs (a ++ b) = live_outs a + live_outs b.
Proof. unfold live_outs. now rewrite fmap_app, Zsum_app. Qed.

Definition spend_fees (gs : spends) : Z := Zsum ((fun g => ps_fee g.2) <$> gs).

(** The totals of the user pages: every spend balances. *)
Lemma spends_totals gs : Forall body_wf (spend_pages gs) -> valid_spends hash_tx8x2_leaves sponge_pairs gs ->
  total_inputs gs = live_ins (spend_pages gs) /\ total_outputs gs = live_outs (spend_pages gs)
  /\ Zsum (in_total <$> spend_pages gs) = Zsum (out_total <$> spend_pages gs) + spend_fees gs.
Proof.
  intros Hw Hv. induction Hv as [|[g f] gs Hg Hgs IH]; [auto|]. rewrite spend_pages_cons in *. apply Forall_app in Hw as [W1 W2]. cbn [fst snd] in *.
  destruct (IH W2) as (I1 & I2 & I3). apply (validate_paged_spend_valid _ _ g f W1) in Hg as (first & V & ->).
  destruct (spend_inputs g) as [A1 A2]. destruct (spend_outputs g) as [B1 B2]. pose proof (vs_balance _ _ V) as Hb.
  unfold total_inputs, total_outputs, spend_fees in *. cbn [fmap list_fmap fst snd spend_facts ps_live_inputs ps_live_outputs ps_fee].
  rewrite live_ins_app, live_outs_app, !fmap_app, !Zsum_cons, !Zsum_app. lia.
Qed.

(** System mints have no inputs and fixed outputs. *)
Lemma no_live_inputs b : body_wf b -> Z.land (validity_bitmap b) 255 = 0 -> live_inputs b = [].
Proof.
  intros Hw Hb. pose proof (live_input_count_length b (proj1 (wf_inputs _ Hw))) as E. unfold live_input_count in E. rewrite Hb in E.
  change (count_ones 16 0) with 0 in E. destruct (live_inputs b); [reflexivity|cbn [length] in E; lia].
Qed.

Lemma primary_live b : body_wf b -> is_primary_coinbase_shape b = true ->
  live_inputs b = [] /\ exists o, outputs b !! 0%nat = Some o /\ live_outputs b = [(0%nat, o)].
Proof.
  intros Hw [_ Hb]%andb_true_iff. apply Z.eqb_eq in Hb. destruct (wf_outputs _ Hw) as [Ho _]. split; [apply no_live_inputs; [exact Hw|now rewrite Hb]|].
  unfold live_outputs, enumerate, output_is_live. rewrite Hb. destruct (outputs b) as [|o [|o' [|]]]; try discriminate Ho. exists o. auto.
Qed.

Lemma payout_live b : body_wf b -> is_development_payout_shape b = true ->
  live_inputs b = [] /\ exists o o', outputs b = [o; o'] /\ live_outputs b = [(0%nat, o); (1%nat, o')].
Proof.
  intros Hw [_ Hb]%andb_true_iff. apply Z.eqb_eq in Hb. destruct (wf_outputs _ Hw) as [Ho _]. split; [apply no_live_inputs; [exact Hw|now rewrite Hb]|].
  unfold live_outputs, enumerate, output_is_live. rewrite Hb. destruct (outputs b) as [|o [|o' [|]]]; try discriminate Ho. exists o, o'. auto.
Qed.

(** What a layout holds. *)
Record layout_counts (txs : list TxBody) (payout : option TxBody) (gs : spends) : Prop := {
  lc_ins : live_ins txs = total_inputs gs;
  lc_outs : live_outs txs = 1 + 2 * Z.of_nat (length (option_list payout)) + total_outputs gs;
  lc_pages : Z.of_nat (length (spend_pages gs)) <= 255;
  lc_inputs : total_inputs gs <= BLOCK_MAX_LIVE_INPUTS;
  lc_outputs : live_outs txs <= BLOCK_MAX_USER_OUTPUTS + 1
}.

Lemma layout_totals txs cb payout class gs : Forall body_wf txs -> block_layout hash_tx8x2_leaves sponge_pairs txs cb payout class gs ->
  layout_counts txs payout gs.
Proof.
  intros Hw [E Hcb Hp [c Hst] Hcl]. rewrite E in Hw. apply Forall_cons in Hw as [Wc [Wp Wg]%Forall_app].
  destruct (spends_totals gs Wg (sv_spends _ _ _ _ _ Hst)) as (T1 & T2 & _). destruct (primary_live cb Wc Hcb) as (C1 & o & _ & C2).
  assert (HP : live_ins (option_list payout) = 0 /\ live_outs (option_list payout) = 2 * Z.of_nat (length (option_list payout))).
  { destruct payout as [d|]; [|auto]. apply Forall_cons in Wp as [Wd _]. destruct (payout_live d Wd (Hp d eq_refl)) as (D1 & o1 & o2 & _ & D2).
    unfold live_ins, live_outs. cbn. rewrite D1, D2. auto. }
  destruct HP as [P1 P2].
  assert (Ei : live_ins txs = total_inputs gs).
  { rewrite E. change (live_ins (cb :: option_list payout ++ spend_pages gs)) with (Z.of_nat (length (live_inputs cb)) + live_ins (option_list payout ++ spend_pages gs)).
    rewrite C1, live_ins_app. cbn [length]. lia. }
  assert (Eo : live_outs txs = 1 + 2 * Z.of_nat (length (option_list payout)) + total_outputs gs).
  { rewrite E, live_outs_cons, C2, live_outs_app. cbn [length]. lia. }
  apply for_page_count_iff in Hcl as [Hcl _]. assert (Hcap : page_capacity class <= 255) by (destruct class; vm_compute; discriminate).
  rewrite length_app in Hcl. destruct (live_bounds _ Wg) as [_ Hb].
  pose proof (sv_inputs _ _ _ _ _ Hst) as Hin. assert (input_capacity c <= BLOCK_MAX_LIVE_INPUTS) by (destruct c; vm_compute; discriminate).
  constructor; try assumption; [lia|lia|]. rewrite Eo. unfold BLOCK_MAX_USER_OUTPUTS. destruct payout; cbn [option_list length] in *; lia.
Qed.

(** ** The preflight *)

Definition segment_of (i : Z) : Z := Z.shiftr i LOG_SEGMENT_SIZE.

Definition segments_of (txs : list TxBody) : gset Z := list_to_set (segment_of <$> (txs ≫= touched_slots)).

(** The loop variables after [ni] inputs and [no] outputs at the slots [idx]. *)
Definition scanned (s : ScanState) (ni no : Z) (idx : list Z) : ScanState :=
  mkScan (sc_inputs s + ni) (sc_outputs s + no) (list_to_set idx ∪ sc_touched s) (list_to_set (segment_of <$> idx) ∪ sc_segments s).

Lemma scanned_nil s : scanned s 0 0 [] = s.
Proof. destruct s. unfold scanned. cbn. rewrite !Z.add_0_r, !(left_id_L ∅ (∪)). reflexivity. Qed.

Lemma scanned_app s a b c d i j : scanned (scanned s a b i) c d j = scanned s (a + c) (b + d) (i ++ j).
Proof.
  unfold scanned. cbn [sc_inputs sc_outputs sc_touched sc_segments]. rewrite fmap_app, !list_to_set_app_L. f_equal; [lia|lia|set_solver..].
Qed.

Lemma scan_inputs_iff d l : forall s s', fold_result (scan_input d) s l = Ok s' <->
  Forall (fun p : nat * TxInput => in_slot_index p.2 < d) l /\ s' = scanned s (Z.of_nat (length l)) 0 ((fun p => in_slot_index p.2) <$> l).
Proof.
  induction l as [|p l IH]; intros s s'; cbn [fold_result fmap list_fmap length].
  - change (Z.of_nat 0) with 0. rewrite scanned_nil. split; [intros [= <-]; auto|intros [_ ->]; reflexivity].
  - assert (E : scan_input d s p = if d <=? in_slot_index p.2 then scan_input d s p else Ok (scanned s 1 0 [in_slot_index p.2])).
    { destruct (d <=? in_slot_index p.2) eqn:Hd; [reflexivity|]. unfold scan_input, scanned. rewrite Hd. cbn. rewrite Z.add_0_r, !(right_id_L ∅ (∪)). reflexivity. }
    rewrite Forall_cons. destruct (Z.leb_spec d (in_slot_index p.2)) as [H|H].
    + assert (Ee : exists e, scan_input d s p = Err e) by (unfold scan_input; rewrite (proj2 (Z.leb_le _ _) H); cbn; eauto).
      destruct Ee as [e ->]. split; [discriminate|]. lia.
    + rewrite E. cbn [mbind result_bind]. rewrite IH, scanned_app. replace (1 + Z.of_nat (length l)) with (Z.of_nat (S (length l))) by lia. cbn [app]. tauto.
Qed.

Lemma scan_outputs_iff d l : forall s s', fold_result (scan_output d) s l = Ok s' <->
  Forall (fun p : nat * TxOutput => out_slot_index p.2 < d) l /\ s' = scanned s 0 (Z.of_nat (length l)) ((fun p => out_slot_index p.2) <$> l).
Proof.
  induction l as [|p l IH]; intros s s'; cbn [fold_result fmap list_fmap length].
  - change (Z.of_nat 0) with 0. rewrite scanned_nil. split; [intros [= <-]; auto|intros [_ ->]; reflexivity].
  - assert (E : scan_output d s p = if d <=? out_slot_index p.2 then scan_output d s p else Ok (scanned s 0 1 [out_slot_index p.2])).
    { destruct (d <=? out_slot_index p.2) eqn:Hd; [reflexivity|]. unfold scan_output, scanned. rewrite Hd. cbn. rewrite Z.add_0_r, !(right_id_L ∅ (∪)). reflexivity. }
    rewrite Forall_cons. destruct (Z.leb_spec d (out_slot_index p.2)) as [H|H].
    + assert (Ee : exists e, scan_output d s p = Err e) by (unfold scan_output; rewrite (proj2 (Z.leb_le _ _) H); cbn; eauto).
      destruct Ee as [e ->]. split; [discriminate|]. lia.
    + rewrite E. cbn [mbind result_bind]. rewrite IH, scanned_app. replace (1 + Z.of_nat (length l)) with (Z.of_nat (S (length l))) by lia. cbn [app]. tauto.
Qed.

Lemma scan_txs_iff d txs : forall s s', Z.of_nat (size (sc_segments s)) <= BLOCK_MAX_DISTINCT_SEGMENTS ->
  fold_result (scan_tx d) s txs = Ok s' <->
  (forall i, i ∈ txs ≫= touched_slots -> i < d)
  /\ Z.of_nat (size (sc_segments (scanned s (live_ins txs) (live_outs txs) (txs ≫= touched_slots)))) <= BLOCK_MAX_DISTINCT_SEGMENTS
  /\ s' = scanned s (live_ins txs) (live_outs txs) (txs ≫= touched_slots).
Proof.
  induction txs as [|b txs IH]; intros s s' Hs.
  - cbn [fold_result mbind list_bind]. change (live_ins []) with 0. change (live_outs []) with 0. rewrite scanned_nil.
    split; [intros [= <-]; repeat split; [intros i Hi; now apply not_elem_of_nil in Hi|exact Hs]|intros (_ & _ & ->); reflexivity].
  - change ((b :: txs) ≫= touched_slots) with (touched_slots b ++ (txs ≫= touched_slots)).
    change (live_ins (b :: txs)) with (Z.of_nat (length (live_inputs b)) + live_ins txs). rewrite live_outs_cons.
    cbn [fold_result]. set (s1 := scanned s (Z.of_nat (length (live_inputs b))) (Z.of_nat (length (live_outputs b))) (touched_slots b)).
    assert (Hb : forall s2, scan_tx d s b = Ok s2 <->
      (forall i, i ∈ touched_slots b -> i < d) /\ Z.of_nat (size (sc_segments s1)) <= BLOCK_MAX_DISTINCT_SEGMENTS /\ s2 = s1).
    { intros s2. unfold scan_tx. rewrite bind_ok_iff. setoid_rewrite bind_ok_iff. setoid_rewrite scan_inputs_iff. setoid_rewrite scan_outputs_iff.
      assert (E1 : scanned (scanned s (Z.of_nat (length (live_inputs b))) 0 ((fun p => in_slot_index p.2) <$> live_inputs b)) 0
        (Z.of_nat (length (live_outputs b))) ((fun p => out_slot_index p.2) <$> live_outputs b) = s1).
      { rewrite scanned_app, Z.add_0_r. reflexivity. }
      assert (Et : (forall i, i ∈ touched_slots b -> i < d) <->
        Forall (fun p : nat * TxInput => in_slot_index p.2 < d) (live_inputs b) /\ Forall (fun p : nat * TxOutput => out_slot_index p.2 < d) (live_outputs b)).
      { unfold touched_slots, Assembly.in_slots, out_slots. rewrite <- Forall_forall, Forall_app, !Forall_fmap. reflexivity. }
      rewrite Et. split.
      - intros (x & (H1 & ->) & y & (H2 & ->) & H). rewrite E1 in H. destruct (Z.ltb_spec BLOCK_MAX_DISTINCT_SEGMENTS (Z.of_nat (size (sc_segments s1)))); [discriminate|].
        injection H as <-. auto.
      - intros ((H1 & H2) & H & ->). eexists. split; [split; [exact H1|reflexivity]|]. eexists. split; [split; [exact H2|reflexivity]|]. rewrite E1.
        destruct (Z.ltb_spec BLOCK_MAX_DISTINCT_SEGMENTS (Z.of_nat (size (sc_segments s1)))); [lia|reflexivity]. }
    assert (Hmono : (size (sc_segments s1) <= size (sc_segments (scanned s1 (live_ins txs) (live_outs txs) (txs ≫= touched_slots))))%nat).
    { apply subseteq_size. unfold scanned at 1. cbn [sc_segments]. apply union_subseteq_r. }
    rewrite bind_ok_iff. unfold s1 in Hmono. rewrite scanned_app in Hmono. split.
    + intros (s2 & H1 & H2). apply Hb in H1 as (H1 & H3 & ->). apply (IH s1 s' H3) in H2 as (H2 & H4 & ->). unfold s1 in *. rewrite scanned_app in *.
      repeat split; [|exact H4]. intros i [Hi|Hi]%elem_of_app; auto.
    + intros (H1 & H2 & ->). exists s1. split; [apply Hb; split; [intros i Hi; apply H1, elem_of_app; now left|split; [unfold s1; lia|reflexivity]]|].
      apply IH; [unfold s1; lia|]. unfold s1. rewrite scanned_app. repeat split; [|exact H2]. intros i Hi. apply H1, elem_of_app. now right.
Qed.

Lemma btree_list_elem (s : gset Z) i : i ∈ btree_list s <-> i ∈ s.
Proof. unfold btree_list. now rewrite merge_sort_Permutation, elem_of_elements. Qed.

Lemma btree_list_sorted (s : gset Z) : StronglySorted Z.lt (btree_list s).
Proof.
  assert (E : btree_list s = sorted_keys (gset_to_gmap tt s)) by (unfold btree_list, sorted_keys; now rewrite dom_gset_to_gmap).
  rewrite E. apply sorted_keys_sorted.
Qed.

(** The raw block fits: depth, layout, slot domain and segments. *)
Record resources_ok (block : Block) (payout : option TxBody) (gs : spends) : Prop := {
  rs_depth : 1 <= Header.log_slots (header block) <= 32;
  rs_layout : exists cb class, block_layout hash_tx8x2_leaves sponge_pairs (transactions block) cb payout class gs;
  rs_domain : forall i, i ∈ transactions block ≫= touched_slots -> i < 2 ^ Header.log_slots (header block);
  rs_segments : Z.of_nat (size (segments_of (transactions block))) <= BLOCK_MAX_DISTINCT_SEGMENTS
}.

(** What the preflight reports. *)
Record preflight_ok (block : Block) (gs : spends) (pf : BlockResourcePreflight) : Prop := {
  pk_pages : pf_user_page_count pf = Z.of_nat (length (spend_pages gs));
  pk_logical : pf_logical_tx_count pf = Z.of_nat (length gs);
  pk_inputs : pf_live_input_count pf = live_ins (transactions block) /\ live_ins (transactions block) <= BLOCK_MAX_LIVE_INPUTS;
  pk_outputs : pf_output_count pf = live_outs (transactions block) /\ live_outs (transactions block) <= BLOCK_MAX_USER_OUTPUTS + 1;
  pk_actions : pf_action_count pf = live_ins (transactions block) + live_outs (transactions block)
    /\ live_ins (transactions block) + live_outs (transactions block) <= BLOCK_MAX_ACTIONS;
  pk_touched : pf_touched_slot_count pf = Z.of_nat (size (list_to_set (transactions block ≫= touched_slots) : gset Z));
  pk_segments : pf_distinct_segment_count pf = Z.of_nat (size (segments_of (transactions block)));
  pk_frontier : exists ps, frontier_sibling_positions (btree_list (list_to_set (transactions block ≫= touched_slots)))
      (Z.to_nat (Header.log_slots (header block))) = Return ps /\ pf_state_frontier_node_count pf = Z.of_nat (length ps)
}.

Lemma layout_touches txs cb payout class gs : Forall body_wf txs -> block_layout hash_tx8x2_leaves sponge_pairs txs cb payout class gs ->
  txs ≫= touched_slots <> [].
Proof.
  intros Hw [E Hcb _ _ _]. rewrite E in Hw |- *. apply Forall_cons in Hw as [Wc _]. destruct (primary_live cb Wc Hcb) as (C1 & o & _ & C2).
  cbn [mbind list_bind]. unfold touched_slots at 1, out_slots. rewrite C2. intros [F _]%app_eq_nil. apply app_eq_nil in F as [_ F]. discriminate F.
Qed.

Lemma preflight_cases block : Forall body_wf (transactions block) ->
  match validate_block_resource_preflight block with
  | Return pf => exists payout gs, resources_ok block payout gs /\ preflight_ok block gs pf
  | Fail _ => forall payout gs, ~ resources_ok block payout gs
  | Panic => False
  end.
Proof.
  intros Hw. unfold validate_block_resource_preflight. cbn zeta. set (txs := transactions block) in *. set (depth := Header.log_slots (header block)).
  destruct (Z.leb_spec (Z.of_nat (length txs)) BLOCK_MAX_TXS) as [Hn|Hn]; cbn [ensure lift mbind exec_bind].
  2:{ intros payout gs [_ (cb & class & HL) _ _]. apply layout_count in HL. fold txs in HL. unfold BLOCK_MAX_TXS in Hn. lia. }
  destruct ((1 <=? depth) && (depth <=? 32)) eqn:Hd; cbn [ensure lift mbind exec_bind].
  2:{ intros payout gs [[F1 F2] _ _ _]. fold depth in F1, F2. apply Z.leb_le in F1, F2. rewrite F1, F2 in Hd. discriminate Hd. }
  boolify. rewrite Z.shiftl_1_l.
  pose proof (block_stream_iff hash_tx8x2_leaves sponge_pairs txs) as Hiff. fold (block_stream txs) in Hiff.
  destruct (block_stream txs) as [facts|e]; cbn [map_err lift mbind exec_bind].
  2:{ intros payout gs [_ (cb & class & HL) _ _]. discriminate (proj2 (Hiff (layout_facts payout class gs) Hw)). eauto 10. }
  destruct (proj1 (Hiff facts Hw) eq_refl) as (cb & payout & class & gs & HL & ->). cbn [layout_facts bs_page_count bs_logical_count].
  destruct (layout_totals txs cb payout class gs Hw HL) as [L1 L2 L3 L4 L5].
  destruct (Z.ltb_spec BLOCK_MAX_USER_PAGES (Z.of_nat (length (spend_pages gs)))) as [F|_]; [unfold BLOCK_MAX_USER_PAGES, BLOCK_MAX_TXS in F; lia|].
  cbn [lift mbind exec_bind]. set (s0 := mkScan 0 0 ∅ ∅).
  pose proof (scan_txs_iff (2 ^ depth) txs s0) as Hscan.
  assert (Hseg : sc_segments (scanned s0 (live_ins txs) (live_outs txs) (txs ≫= touched_slots)) = segments_of txs).
  { cbn [scanned sc_segments s0]. apply (right_id_L ∅ (∪)). }
  assert (Htou : sc_touched (scanned s0 (live_ins txs) (live_outs txs) (txs ≫= touched_slots)) = list_to_set (txs ≫= touched_slots)).
  { cbn [scanned sc_touched s0]. apply (right_id_L ∅ (∪)). }
  rewrite Hseg in Hscan. specialize (fun s' => Hscan s' ltac:(vm_compute; discriminate)).
  destruct (fold_result (scan_tx (2 ^ depth)) s0 txs) as [s|e]; cbn [lift mbind exec_bind].
  2:{ intros payout' gs' [_ _ F1 F2]. discriminate (proj2 (Hscan _) (conj F1 (conj F2 eq_refl))). }
  destruct (proj1 (Hscan s) eq_refl) as (Hdom & Hsegs & ->). rewrite Hseg, Htou.
  change (sc_inputs (scanned s0 (live_ins txs) (live_outs txs) (txs ≫= touched_slots))) with (live_ins txs).
  change (sc_outputs (scanned s0 (live_ins txs) (live_outs txs) (txs ≫= touched_slots))) with (live_outs txs).
  rewrite <- L1 in L4. destruct (Z.ltb_spec BLOCK_MAX_LIVE_INPUTS (live_ins txs)); [lia|].
  destruct (Z.ltb_spec (BLOCK_MAX_USER_OUTPUTS + 1) (live_outs txs)); [lia|].
  assert (La : live_ins txs + live_outs txs <= BLOCK_MAX_ACTIONS) by (unfold BLOCK_MAX_ACTIONS, BLOCK_MAX_USER_ACTIONS; lia).
  destruct (Z.ltb_spec BLOCK_MAX_ACTIONS (live_ins txs + live_outs txs)); [lia|]. cbn [lift mbind exec_bind].
  set (touched := btree_list (list_to_set (txs ≫= touched_slots))).
  assert (Hin : forall i, i ∈ touched <-> i ∈ txs ≫= touched_slots) by (intros i; unfold touched; now rewrite btree_list_elem, elem_of_list_to_set).
  assert (Hok : indices_ok touched (Z.to_nat depth)).
  { constructor; [lia| |apply btree_list_sorted|].
    - intros E. apply (layout_touches txs cb payout class gs Hw HL). destruct (txs ≫= touched_slots) as [|i l]; [reflexivity|]. exfalso.
      apply (not_elem_of_nil i). rewrite <- E. apply Hin. now left.
    - apply Forall_forall. intros i Hi. rewrite Z2Nat.id by lia. now apply Hdom, Hin. }
  assert (Hpos : Forall (fun i => 0 <= i) touched).
  { apply Forall_forall. intros i Hi. apply Hin, list_elem_of_bind in Hi as (b & Hi & Hb). rewrite Forall_forall in Hw. apply (slots_wf b (Hw b Hb) i Hi). }
  destruct (frontier_exists touched (Z.to_nat depth) Hok Hpos) as (e & ps & Hfr). rewrite (count_frontier _ _ e ps Hfr).
  assert (Ene : touched = [] -> False) by (intros E; exact (ok_nonempty _ _ Hok E)).
  destruct touched as [|i0 l0] eqn:Et; [destruct (Ene eq_refl)|]. cbn [mbind exec_bind]. exists payout, gs. split; constructor; try assumption; try reflexivity; eauto.
  exists ps. split; [|reflexivity]. fold txs depth touched. rewrite Et. exact (positions_frontier _ _ e ps Hfr).
Qed.

(** ** Fees *)

Definition group_fees (parent : BlockHeader) (f : PagedSpendFacts) : FeeBreakdown :=
  fee_breakdown (ps_live_inputs f) (ps_live_outputs f) (Header.active_slot_count parent) (Header.log_slots parent).

Definition fees_paid (parent : BlockHeader) (gs : spends) : Prop :=
  Forall (fun g => fb_required_total (group_fees parent g.2) <= ps_fee g.2) gs.

Definition burned_fees (parent : BlockHeader) (gs : spends) : Z := Zsum ((fun g => fb_burned (group_fees parent g.2)) <$> gs).

Lemma group_fee_facts parent g f : Forall body_wf g -> validate_paged_spend hash_tx8x2_leaves sponge_pairs g = Ok f ->
  0 <= ps_fee f < 2 ^ 64 /\ 0 <= fb_burned (group_fees parent f) <= fb_required_total (group_fees parent f).
Proof.
  intros Hw Hv. pose proof (valid_spend_counts _ _ g f Hw Hv) as Hc. apply (validate_paged_spend_valid _ _ g f Hw) in Hv as (first & V & ->).
  split.
  - cbn [spend_facts ps_fee]. pose proof (vs_first _ _ V) as Hf. destruct g as [|x g]; [discriminate|]. injection Hf as ->. apply Forall_cons in Hw as [Hw _].
    apply (wf_fee _ Hw).
  - unfold group_fees. rewrite fee_breakdown_exact by lia. cbn [fb_burned fb_required_total]. pose proof (pressure_multiplier_cases (Header.active_slot_count parent) (Header.log_slots parent)) as Hm.
    cbv zeta in Hm. nia.
Qed.

Lemma claim_fees_iff parent gs : forall cursor acc sum, Forall body_wf (spend_pages gs) -> valid_spends hash_tx8x2_leaves sponge_pairs gs ->
  0 <= acc -> acc + Z.of_nat (length gs) * 2 ^ 64 < 2 ^ 128 ->
  fold_result (claim_group_fee parent) acc (locate cursor gs) = Ok sum <->
  fees_paid parent gs /\ sum = acc + spend_fees gs - burned_fees parent gs.
Proof.
  induction gs as [|[g f] gs IH]; intros cursor acc sum Hw Hv Ha Hb.
  - cbn. split; [intros [= <-]|intros [_ ->]]; [split; [constructor|lia]|f_equal; lia].
  - apply Forall_cons in Hv as [Hg Hv]. rewrite spend_pages_cons in Hw. apply Forall_app in Hw as [W1 W2]. cbn [fst snd] in *.
    destruct (group_fee_facts parent g f W1 Hg) as [F1 F2]. unfold fees_paid. rewrite Forall_cons. cbn [locate fold_result snd]. rewrite bind_ok_iff.
    unfold claim_group_fee at 1. cbn [spend]. fold (group_fees parent f). cbn [length] in Hb.
    assert (E : spend_fees ((g, f) :: gs) = ps_fee f + spend_fees gs /\ burned_fees parent ((g, f) :: gs) = fb_burned (group_fees parent f) + burned_fees parent gs)
      by (split; reflexivity).
    destruct E as [-> ->]. destruct (Z.ltb_spec (ps_fee f) (fb_required_total (group_fees parent f))) as [Hlt|Hge]; cbn [negb ensure mbind result_bind].
    + split; [intros (x & H & _); discriminate|]. lia.
    + rewrite saturating_sub_ge by lia. rewrite (proj2 (checked_add_some 128 acc _ _)) by (split; [reflexivity|lia]). cbn [ok_or].
      assert (A1 : 0 <= acc + (ps_fee f - fb_burned (group_fees parent f))) by lia.
      assert (A2 : acc + (ps_fee f - fb_burned (group_fees parent f)) + Z.of_nat (length gs) * 2 ^ 64 < 2 ^ 128) by lia.
      specialize (IH (cursor + length g)%nat _ sum W2 Hv A1 A2). split.
      * intros (x & [= <-] & H). apply IH in H as [H1 H2]. split; [split; [exact Hge|exact H1]|lia].
      * intros ((_ & H1) & H2). eexists. split; [reflexivity|]. apply IH. split; [exact H1|lia].
Qed.

Lemma fee_policy_iff block parent cb payout class gs sum : Forall body_wf (transactions block) ->
  block_layout hash_tx8x2_leaves sponge_pairs (transactions block) cb payout class gs ->
  validate_fee_policy_and_claimable_fee_sum block parent = Ok sum <-> fees_paid parent gs /\ sum = spend_fees gs - burned_fees parent gs.
Proof.
  intros Hw HL. unfold validate_fee_policy_and_claimable_fee_sum.
  assert (Es : block_stream (transactions block) = Ok (layout_facts payout class gs)) by (apply block_stream_iff; [exact Hw|]; exists cb, payout, class, gs; auto).
  rewrite Es. cbn [map_err mbind result_bind layout_facts bs_groups]. destruct (layout_totals _ _ _ _ _ Hw HL) as [_ _ L3 _ _].
  pose proof HL as [E _ _ [c Hst] _]. rewrite E in Hw. apply Forall_cons in Hw as [_ [_ Wg]%Forall_app].
  pose proof (spend_pages_length _ _ gs Wg (sv_spends _ _ _ _ _ Hst)). rewrite (claim_fees_iff parent gs) by (try assumption; first [exact (sv_spends _ _ _ _ _ Hst)|lia]).
  now rewrite Z.add_0_l.
Qed.

(** ** System mints *)

Record payout_ok (parent : BlockHeader) (amount : Z) (d : TxBody) : Prop := {
  po_canonical : validate_body_semantics_no_hash d = Ok tt;
  po_anchor : epoch_anchor d = block_id parent;
  po_outputs : exists first second, outputs d = [first; second] /\ out_owner first = O1_NETWORK_FUND_ADDRESS
    /\ out_owner second = PARANO1D_LAB_ADDRESS /\ out_amount first = amount /\ out_amount second = amount
}.

(** The coinbase pays the miner on top of the parent, and the development payout
    is there exactly when it is due, in full. *)
Record mints_ok (block : Block) (parent : BlockHeader) (schedule : ForkSchedule) (payout : option TxBody) : Prop := {
  mo_coinbase : exists cb output, transactions block !! 0%nat = Some cb /\ outputs cb !! 0%nat = Some output
    /\ validate_body_semantics_no_hash cb = Ok tt /\ epoch_anchor cb = block_id parent /\ out_owner output = miner_address (header block);
  mo_payout : match payout_each (expected_allocation schedule (hdr_height (header block)) (Header.log_slots (header block))), payout with
    | None, None => True
    | Some amount, Some d => payout_ok parent amount d
    | _, _ => False
    end
}.

Lemma check_payout_cases d parent amount : body_wf d ->
  match check_development_payout d (block_id parent) amount with
  | Return _ => payout_ok parent amount d
  | Fail _ => ~ payout_ok parent amount d
  | Panic => False
  end.
Proof.
  intros Hw. unfold check_development_payout. destruct (wf_outputs _ Hw) as [Ho _]. destruct (outputs d) as [|o [|o' [|]]] eqn:Eo; try discriminate Ho.
  destruct (validate_body_semantics_no_hash d) as [[]|e] eqn:Ev; cbn [map_err lift mbind exec_bind]; [|intros [F _ _]; congruence].
  case_bool_decide as Ea; cbn [ensure lift mbind exec_bind]; [|intros [_ F _]; contradiction]. cbn [lookup list_lookup expect mbind exec_bind].
  assert (Hiff : negb (negb (bool_decide (out_owner o = O1_NETWORK_FUND_ADDRESS)) || negb (bool_decide (out_owner o' = PARANO1D_LAB_ADDRESS))
      || negb (out_amount o =? amount) || negb (out_amount o' =? amount)) = true
    <-> out_owner o = O1_NETWORK_FUND_ADDRESS /\ out_owner o' = PARANO1D_LAB_ADDRESS /\ out_amount o = amount /\ out_amount o' = amount).
  { rewrite !negb_orb, !negb_involutive, !andb_true_iff, !bool_decide_eq_true, !Z.eqb_eq. tauto. }
  destruct (negb _); cbn [ensure lift].
  - destruct (proj1 Hiff eq_refl) as (K1 & K2 & K3 & K4). constructor; [exact Ev|exact Ea|]. rewrite Eo. exists o, o'. auto.
  - intros [_ _ (x & y & E & K)]. rewrite Eo in E. injection E as <- <-. discriminate (proj2 Hiff K).
Qed.

Lemma mints_cases block parent schedule cb payout class gs : schedule_exact schedule -> Forall body_wf (transactions block) ->
  block_layout hash_tx8x2_leaves sponge_pairs (transactions block) cb payout class gs ->
  match validate_mandatory_coinbase_with_schedule block parent schedule with
  | Return _ => mints_ok block parent schedule payout
  | Fail _ => ~ mints_ok block parent schedule payout
  | Panic => False
  end.
Proof.
  intros Hsch Hw HL. unfold validate_mandatory_coinbase_with_schedule. cbn zeta.
  assert (Es : block_stream (transactions block) = Ok (layout_facts payout class gs)) by (apply block_stream_iff; [exact Hw|]; exists cb, payout, class, gs; auto).
  rewrite Es. cbn [map_err lift mbind exec_bind layout_facts has_development_payout].
  assert (Hb : bool_decide (is_Some payout) = match payout with Some _ => true | None => false end) by (destruct payout; reflexivity). rewrite Hb.
  pose proof HL as [E Hcb _ _ _]. assert (E0 : transactions block !! 0%nat = Some cb) by now rewrite E. rewrite E0. cbn [expect mbind exec_bind].
  pose proof Hw as Hw'. rewrite E in Hw'. apply Forall_cons in Hw' as [Wc [Wp _]%Forall_app]. destruct (primary_live cb Wc Hcb) as (_ & o & Eo & _).
  assert (Hmo : mints_ok block parent schedule payout -> validate_body_semantics_no_hash cb = Ok tt /\ epoch_anchor cb = block_id parent /\ out_owner o = miner_address (header block)).
  { intros [(cb' & o' & M1 & M2 & M3) _]. rewrite E0 in M1. injection M1 as <-. rewrite Eo in M2. injection M2 as <-. exact M3. }
  destruct (validate_body_semantics_no_hash cb) as [[]|e] eqn:Ev; cbn [map_err lift mbind exec_bind]; [|intros [F _]%Hmo; discriminate].
  destruct (decide (epoch_anchor cb = block_id parent)) as [Ea|Ea]; [rewrite (bool_decide_eq_true_2 _ Ea)|rewrite (bool_decide_eq_false_2 _ Ea)];
    cbn [ensure lift mbind exec_bind]; [|intros (_ & F & _)%Hmo; contradiction]. rewrite Eo. cbn [expect mbind exec_bind].
  destruct (decide (out_owner o = miner_address (header block))) as [Ew|Ew]; [rewrite (bool_decide_eq_true_2 _ Ew)|rewrite (bool_decide_eq_false_2 _ Ew)]; cbn [ensure lift mbind exec_bind]; [|intros (_ & _ & F)%Hmo; contradiction].
  rewrite (allocation_eq schedule _ _ Hsch). cbn [map_err lift mbind exec_bind].
  assert (Hcoin : exists cb output, transactions block !! 0%nat = Some cb /\ outputs cb !! 0%nat = Some output
    /\ validate_body_semantics_no_hash cb = Ok tt /\ epoch_anchor cb = block_id parent /\ out_owner output = miner_address (header block)) by (exists cb, o; auto).
  destruct (payout_each _) as [amount|] eqn:Ep; destruct payout as [d|].
  - assert (E1 : transactions block !! 1%nat = Some d) by now rewrite E. rewrite E1. cbn [expect mbind exec_bind]. apply Forall_cons in Wp as [Wd _].
    pose proof (check_payout_cases d parent amount Wd) as Hc. destruct (check_development_payout d (block_id parent) amount); [| |exact Hc].
    + constructor; [exact Hcoin|]. now rewrite Ep.
    + intros [_ F]. rewrite Ep in F. contradiction.
  - intros [_ F]. now rewrite Ep in F.
  - intros [_ F]. now rewrite Ep in F.
  - constructor; [exact Hcoin|]. now rewrite Ep.
Qed.

(** ** Acceptance *)

(** The most a coinbase may pay: subsidy and unburned fees. *)
Definition coinbase_ceiling (block : Block) (parent : BlockHeader) (schedule : ForkSchedule) (gs : spends) : Z :=
  alloc_miner_subsidy (expected_allocation schedule (hdr_height (header block)) (Header.log_slots (header block)))
  + (spend_fees gs - burned_fees parent gs).

Record body_rules_ok (block : Block) (parent : BlockHeader) (schedule : ForkSchedule) (payout : option TxBody) (gs : spends) : Prop := {
  ru_mints : mints_ok block parent schedule payout;
  ru_slots : NoDup (transactions block ≫= touched_slots);
  ru_fees : fees_paid parent gs;
  ru_value : forall cb, transactions block !! 0%nat = Some cb -> out_total cb <= coinbase_ceiling block parent schedule gs
}.

Lemma body_rules_cases block parent schedule cb payout class gs max : schedule_exact schedule -> Forall body_wf (transactions block) ->
  block_layout hash_tx8x2_leaves sponge_pairs (transactions block) cb payout class gs ->
  (forall sum, max sum = Return (alloc_miner_subsidy (expected_allocation schedule (hdr_height (header block)) (Header.log_slots (header block))) + sum)) ->
  match validate_body_rules block parent schedule max with
  | Return _ => body_rules_ok block parent schedule payout gs
  | Fail _ => ~ body_rules_ok block parent schedule payout gs
  | Panic => False
  end.
Proof.
  intros Hsch Hw HL Hmax. unfold validate_body_rules. pose proof (mints_cases block parent schedule cb payout class gs Hsch Hw HL) as Hm.
  destruct (validate_mandatory_coinbase_with_schedule block parent schedule) as [[]|e|]; cbn [mbind exec_bind]; [|intros [F _ _ _]; contradiction|contradiction].
  assert (Es : block_stream (transactions block) = Ok (layout_facts payout class gs)) by (apply block_stream_iff; [exact Hw|]; exists cb, payout, class, gs; auto).
  rewrite Es. cbn [map_err lift mbind exec_bind]. pose proof (slot_rule_iff (transactions block)) as Hslot.
  destruct (validate_block_slot_conflicts (transactions block)) as [[]|e]; cbn [map_err lift mbind exec_bind]; [|intros [_ F _ _]; discriminate (proj2 Hslot F)].
  pose proof HL as [E Hcb _ _ _]. assert (E0 : transactions block !! 0%nat = Some cb) by now rewrite E. rewrite E0. cbn [expect mbind exec_bind].
  pose proof Hw as Hw'. rewrite E in Hw'. apply Forall_cons in Hw' as [Wc _]. destruct (primary_live cb Wc Hcb) as (_ & o & Eo & El).
  pose proof (primary_shape_coinbase cb Hcb) as Hc.
  assert (Ec : validate_tx_consensus cb = Ok tt).
  { destruct Hm as [(cb' & o' & M1 & _ & M2 & _) _]. rewrite E0 in M1. injection M1 as <-. unfold validate_tx_consensus. rewrite M2, Hc. reflexivity. }
  rewrite Ec. cbn [map_err lift mbind exec_bind]. pose proof (fee_policy_iff block parent cb payout class gs) as Hfee.
  destruct (validate_fee_policy_and_claimable_fee_sum block parent) as [sum|e]; cbn [lift mbind exec_bind].
  2:{ intros [_ _ F _]. discriminate (proj2 (Hfee _ Hw HL) (conj F eq_refl)). }
  destruct (proj1 (Hfee sum Hw HL) eq_refl) as [Hpaid ->]. unfold validate_coinbase_value. rewrite E. cbn [head]. rewrite Hc, El. cbn [head expect mbind exec_bind snd].
  rewrite Hmax. cbn [mbind exec_bind]. fold (coinbase_ceiling block parent schedule gs).
  assert (Et : out_total cb = out_amount o) by (unfold out_total; rewrite El; cbn; lia).
  destruct (Z.ltb_spec (coinbase_ceiling block parent schedule gs) (out_amount o)) as [Hlt|Hge]; cbn [negb ensure lift].
  - intros [_ _ _ F]. specialize (F cb E0). lia.
  - constructor; [exact Hm|now apply Hslot|exact Hpaid|]. intros cb' E'. rewrite E0 in E'. injection E' as <-. lia.
Qed.

Lemma layout_unique txs payout gs payout' gs' : Forall body_wf txs ->
  (exists cb class, block_layout hash_tx8x2_leaves sponge_pairs txs cb payout class gs) ->
  (exists cb class, block_layout hash_tx8x2_leaves sponge_pairs txs cb payout' class gs') -> payout = payout' /\ gs = gs'.
Proof.
  intros Hw (cb & class & [E1 C1 P1 [k1 V1] _]) (cb' & class' & [E2 C2 P2 [k2 V2] _]).
  pose proof Hw as Hw1. rewrite E1 in Hw1. apply Forall_cons in Hw1 as [_ [Wp1 Wg1]%Forall_app].
  pose proof Hw as Hw2. rewrite E2 in Hw2. apply Forall_cons in Hw2 as [_ [Wp2 Wg2]%Forall_app].
  pose proof (spend_pages_user _ _ gs Wg1 (sv_spends _ _ _ _ _ V1)) as U1. pose proof (spend_pages_user _ _ gs' Wg2 (sv_spends _ _ _ _ _ V2)) as U2.
  rewrite E1 in E2. injection E2 as _ E2.
  assert (Hp : payout = payout' /\ spend_pages gs = spend_pages gs').
  { destruct payout as [d|], payout' as [d'|]; cbn in E2.
    - now injection E2 as -> ->.
    - exfalso. rewrite <- E2 in U2. apply Forall_cons in U2 as [U2 _]. pose proof (dev_shape_coinbase d (P1 d eq_refl)). congruence.
    - exfalso. rewrite E2 in U1. apply Forall_cons in U1 as [U1 _]. pose proof (dev_shape_coinbase d' (P2 d' eq_refl)). congruence.
    - auto. }
  destruct Hp as [-> Hp]. split; [reflexivity|].
  apply (spends_unique hash_tx8x2_leaves sponge_pairs); [exact Wg1|exact (sv_spends _ _ _ _ _ V1)|exact (sv_spends _ _ _ _ _ V2)|exact Hp].
Qed.

(** The variant of the header rules that an entry point runs. *)
Lemma header_variant block parent cx local_time check_pow schedule : (local_time = None -> schedule = None -> check_pow = true) ->
  match schedule with
  | Some schedule => validate_header_with_schedule (header block) parent cx local_time check_pow schedule
  | None =>
      match local_time, check_pow with
      | Some local_time, true => validate_header (header block) parent cx local_time
      | Some local_time, false => validate_header_template (header block) parent cx local_time
      | None, _ => validate_header_timeless (header block) parent cx
      end
  end = validate_header_inner (header block) parent (block_id parent) cx local_time check_pow schedule.
Proof. intros H. destruct schedule; [reflexivity|]. destruct local_time, check_pow; try reflexivity. discriminate (H eq_refl eq_refl). Qed.

Definition checks_ok (block : Block) (parent : BlockHeader) (cx : HeaderContext) (local_time : option Z) (check_pow : bool)
    (schedule : option ForkSchedule) : Prop :=
  validate_header_inner (header block) parent (block_id parent) cx local_time check_pow schedule = Ok tt
  /\ exists payout gs, resources_ok block payout gs /\ body_rules_ok block parent (schedule_of schedule) payout gs.

Lemma block_checks_cases block parent ts counts anchor local_time check_pow schedule :
  schedule_exact (schedule_of schedule) -> (local_time = None -> schedule = None -> check_pow = true) -> Forall body_wf (transactions block) ->
  match validate_block_checks_inner block parent ts counts anchor local_time check_pow schedule with
  | Return _ => checks_ok block parent (header_context ts counts anchor) local_time check_pow schedule
  | Fail _ => ~ checks_ok block parent (header_context ts counts anchor) local_time check_pow schedule
  | Panic => False
  end.
Proof.
  intros Hsch Hvar Hw. unfold validate_block_checks_inner. cbn zeta. rewrite (header_variant block parent _ _ _ _ Hvar).
  pose proof (preflight_cases block Hw) as Hpf. destruct (validate_block_resource_preflight block) as [pf|e|]; cbn [mbind exec_bind]; [| |exact Hpf].
  2:{ intros (_ & payout & gs & F & _). exact (Hpf _ _ F). }
  destruct Hpf as (payout & gs & Hres & _). unfold checks_ok.
  destruct (validate_header_inner _ _ _ _ _ _ _) as [[]|e]; cbn [map_err lift mbind exec_bind]; [|intros [F _]; discriminate].
  destruct (rs_layout _ _ _ Hres) as (cb & class & HL). fold (schedule_of schedule).
  pose proof (body_rules_cases block parent (schedule_of schedule) cb payout class gs) as Hb. specialize (fun max => Hb max Hsch Hw HL).
  match goal with |- context [validate_body_rules _ _ _ ?m] => specialize (Hb m) end.
  destruct (validate_body_rules _ _ _ _) as [[]|e|].
  - split; [reflexivity|]. exists payout, gs. split; [exact Hres|]. apply Hb. intros sum.
    unfold max_coinbase_value_from_claimable_fee_sum_with_schedule. now rewrite (allocation_eq _ _ _ Hsch).
  - intros (_ & payout' & gs' & Hres' & F). destruct (layout_unique _ payout gs payout' gs' Hw) as [<- <-]; [eauto|exact (rs_layout _ _ _ Hres')|].
    revert F. apply Hb. intros sum. unfold max_coinbase_value_from_claimable_fee_sum_with_schedule. now rewrite (allocation_eq _ _ _ Hsch).
  - apply Hb. intros sum. unfold max_coinbase_value_from_claimable_fee_sum_with_schedule. now rewrite (allocation_eq _ _ _ Hsch).
Qed.

(** ** The interpreter path *)

(** The amounts of a layout: coinbase and payout are new, user fees leave. *)
Lemma layout_money txs cb payout class gs : Forall body_wf txs -> block_layout hash_tx8x2_leaves sponge_pairs txs cb payout class gs ->
  Zsum (out_total <$> txs) - Zsum (in_total <$> txs) = out_total cb + Zsum (out_total <$> option_list payout) - spend_fees gs.
Proof.
  intros Hw [E Hcb Hp [c Hst] _]. rewrite E in Hw |- *. apply Forall_cons in Hw as [Wc [Wp Wg]%Forall_app].
  destruct (spends_totals gs Wg (sv_spends _ _ _ _ _ Hst)) as (_ & _ & Hb). destruct (primary_live cb Wc Hcb) as (C1 & _).
  assert (Ep : Zsum (in_total <$> option_list payout) = 0).
  { destruct payout as [d|]; [|reflexivity]. apply Forall_cons in Wp as [Wd _]. destruct (payout_live d Wd (Hp d eq_refl)) as (D1 & _).
    cbn. unfold in_total. rewrite D1. reflexivity. }
  rewrite !fmap_cons, !fmap_app, !Zsum_cons, !Zsum_app, Ep. unfold in_total at 1. rewrite C1. change (Zsum ((fun p : nat * TxInput => in_amount p.2) <$> [])) with 0. lia.
Qed.

(** A block adds at most the subsidy of its height; burned fees leave the supply. *)
Lemma issuance_of_rules block parent schedule payout gs : Forall body_wf (transactions block) ->
  (exists cb class, block_layout hash_tx8x2_leaves sponge_pairs (transactions block) cb payout class gs) ->
  body_rules_ok block parent schedule payout gs ->
  Zsum (out_total <$> transactions block) - Zsum (in_total <$> transactions block)
  <= allocation_issuance (expected_allocation schedule (hdr_height (header block)) (Header.log_slots (header block))) - burned_fees parent gs.
Proof.
  intros Hw (cb & class & HL) [[_ Hm] _ _ Hv]. rewrite (layout_money _ _ _ _ _ Hw HL). pose proof HL as [E _ Hp _ _].
  specialize (Hv cb ltac:(now rewrite E)). unfold coinbase_ceiling in Hv. unfold allocation_issuance.
  destruct (payout_each _) as [amount|] eqn:Ep; destruct payout as [d|]; try contradiction; cbn [default from_option id].
  - rewrite E in Hw. apply Forall_cons in Hw as [_ [Wp _]%Forall_app]. apply Forall_cons in Wp as [Wd _].
    destruct (payout_live d Wd (Hp d eq_refl)) as (_ & o & o' & Eo & El). destruct Hm as [_ _ (x & y & Exy & _ & _ & A1 & A2)].
    rewrite Eo in Exy. injection Exy as <- <-. cbn [option_list option_rect fmap list_fmap]. rewrite Zsum_cons. change (Zsum []) with 0. unfold out_total at 2. rewrite El.
    cbn [fmap list_fmap snd]. rewrite !Zsum_cons. change (Zsum []) with 0. lia.
  - change (Zsum (out_total <$> option_list None)) with 0. lia.
Qed.

Lemma burned_nonneg parent gs : Forall body_wf (spend_pages gs) -> valid_spends hash_tx8x2_leaves sponge_pairs gs -> 0 <= burned_fees parent gs.
Proof.
  intros Hw Hv. unfold burned_fees. induction Hv as [|[g f] gs Hg Hgs IH]; [cbn; lia|]. rewrite spend_pages_cons in Hw. apply Forall_app in Hw as [W1 W2].
  cbn [fmap list_fmap fst snd] in *. rewrite Zsum_cons. destruct (group_fee_facts parent g f W1 Hg) as [_ F]. specialize (IH W2). lia.
Qed.

Section Consensus.
Context {R : RawCommit StateHash} (Hcap : forall cols, 0 <= column_capacity (D := StateHash) cols).
Implicit Types (c : ChainState (D := StateHash)) (slots : Z -> SlotValue).

(** The state of the parent block. *)
Record parent_state c slots (parent : BlockHeader) : Prop := {
  ps_chain : chain_ok c slots;
  ps_sealed : sealed c slots;
  ps_rehash : rehashable c;
  ps_log : Z.of_nat (log_slots (cs_state c)) = Header.log_slots parent;
  ps_height : 0 <= hdr_height parent < 2 ^ 63 - 1
}.

Definition consensus_outcome c slots (block : Block) (parent : BlockHeader) (cx : HeaderContext) (local_time : Z)
    (r : exec ValidationError (StateHash * ChainState (D := StateHash))) : Prop :=
  match r with
  | Return (root, c') => checks_ok block parent cx (Some local_time) true None /\ block_ok c slots block
      /\ root = Header.state_root (header block) /\ chain_ok c' (block_after c slots block) /\ sealed c' (block_after c slots block)
      /\ cs_utxo_root c' = Header.state_root (header block)
      /\ Z.of_nat (log_slots (cs_state c')) = Header.log_slots (header block) /\ evicted (cs_state c') = evicted (cs_state c)
      /\ cs_active_slot_count c' = Header.active_slot_count (header block) /\ cs_alloc_counter c' = Header.alloc_counter (header block)
      /\ cs_circulating_supply c' <= cs_circulating_supply c
         + allocation_issuance (expected_allocation ACTIVE_SCHEDULE (hdr_height (header block)) (Header.log_slots (header block)))
      /\ (counted c slots -> Forall real_spends (transactions block) -> counted c' (block_after c slots block))
  | Fail _ => ~ (checks_ok block parent cx (Some local_time) true None /\ block_ok c slots block)
  | Panic => False
  end.

Lemma accepted_header block parent cx local_time : 0 <= hdr_height parent < 2 ^ 63 - 1 -> 0 <= Header.log_slots parent <= 32 ->
  validate_header (header block) parent cx local_time = Ok tt ->
  hdr_height (header block) = hdr_height parent + 1 /\ Header.log_slots parent <= Header.log_slots (header block) <= 32
  /\ Header.log_slots (header block) <= Header.log_slots parent + 1.
Proof.
  intros Hh Hl H. apply validate_header_inner_ok in H as ([_ A2 _ _ A5] & _). rewrite Z.mod_small in A2 by lia.
  pose proof (child_log_slots_bounds (hdr_height parent) (Header.log_slots parent) (finalized_active_counts cx) Hl). rewrite A2, A5.
  unfold LOG_SLOTS_MAX in *. lia.
Qed.

Lemma consensus_cases c slots block parent ts counts local_time anchor : parent_state c slots parent ->
  Forall body_wf (transactions block) ->
  consensus_outcome c slots block parent (header_context ts counts anchor) local_time
    (validate_block_consensus block parent ts counts local_time anchor c).
Proof.
  intros [Hc Hse Hre Hlog Hh] Hw. unfold validate_block_consensus. set (cx := header_context ts counts anchor).
  pose proof (ok_log _ _ (rt_state _ _ (co_rooted _ _ Hc))) as H32.
  pose proof (accepted_header block parent cx local_time Hh ltac:(lia)) as Hacc. unfold consensus_outcome, checks_ok. fold (validate_header (header block) parent cx local_time).
  destruct (validate_header (header block) parent cx local_time) as [[]|e] eqn:Eh; cbn [map_err lift mbind exec_bind]; [|intros [[F _] _]; discriminate].
  destruct (Hacc eq_refl) as (A1 & A2 & A3). clear Hacc.
  pose proof (preflight_cases block Hw) as Hpf. destruct (validate_block_resource_preflight block) as [pf|e|]; cbn [mbind exec_bind]; [| |exact Hpf].
  2:{ intros [(_ & payout & gs & F & _) _]. exact (Hpf _ _ F). }
  destruct Hpf as (payout & gs & Hres & _). destruct (rs_layout _ _ _ Hres) as (cb & class & HL).
  pose proof (body_rules_cases block parent ACTIVE_SCHEDULE cb payout class gs) as Hb. specialize (fun max => Hb max ACTIVE_SCHEDULE_exact Hw HL).
  match goal with |- context [validate_body_rules _ _ _ ?m] => specialize (Hb m) end.
  assert (Hmax : forall sum, @expect ValidationError Z (max_coinbase_value_from_claimable_fee_sum (hdr_height (header block)) (Header.log_slots (header block)) sum)
    = Return (alloc_miner_subsidy (expected_allocation ACTIVE_SCHEDULE (hdr_height (header block)) (Header.log_slots (header block))) + sum)).
  { intros sum. unfold max_coinbase_value_from_claimable_fee_sum, max_coinbase_value_from_claimable_fee_sum_with_schedule.
    now rewrite (allocation_eq _ _ _ ACTIVE_SCHEDULE_exact). }
  specialize (Hb Hmax). destruct (validate_body_rules _ _ _ _) as [[]|e|]; cbn [mbind exec_bind]; [| |exact Hb].
  2:{ intros [(_ & payout' & gs' & Hres' & F) _]. destruct (layout_unique _ payout gs payout' gs' Hw) as [<- <-]; [eauto|exact (rs_layout _ _ _ Hres')|]. contradiction. }
  pose proof (apply_block_cases Hcap c slots block Hc Hse Hre Hw ltac:(lia) ltac:(lia) ltac:(lia)) as Hap.
  destruct (apply_block c block) as [[root c']|e|]; cbn [fail_as mbind exec_bind block_outcome] in Hap |- *; [| |exact Hap].
  - destruct Hap as (Hok & -> & Hc' & Hse' & Hl' & Hev & Hact & Hal & Hsup & Hct). cbn [snd].
    split; [split; [reflexivity|]; exists payout, gs; auto|]. split; [exact Hok|]. split; [reflexivity|]. split; [exact Hc'|]. split; [exact Hse'|].
    split; [destruct Hse' as [_ Hroot]; rewrite Hroot, (bk_root _ _ _ Hok); unfold block_after; f_equal; lia|]. split; [exact Hl'|]. split; [exact Hev|].
    split; [exact Hact|]. split; [exact Hal|]. split; [|exact Hct].
    pose proof (issuance_of_rules block parent ACTIVE_SCHEDULE payout gs Hw (rs_layout _ _ _ Hres) Hb). pose proof HL as [E _ _ [k Hst] _].
    pose proof Hw as Hw'. rewrite E in Hw'. apply Forall_cons in Hw' as [_ [_ Wg]%Forall_app]. pose proof (burned_nonneg parent gs Wg (sv_spends _ _ _ _ _ Hst)). lia.
  - intros [_ F]. contradiction.
Qed.

End Consensus.

(** ** Properties *)

(** The resource preflight is exact.  For every block of well-formed bodies
    it never panics (in particular the sibling count of the touched slots always
    exists), and it passes precisely when the depth is between 1 and 32, the
    bodies form a canonical layout, every live slot lies in the slot domain and
    at most 256 segments are touched.  The limits on inputs, outputs and actions
    then hold of themselves, also with a development payout, and the reported
    counts are those of the bodies. *)
Theorem preflight_exact (block : Block) :
  Forall body_wf (transactions block) ->
  match validate_block_resource_preflight block with
  | Return pf => exists payout gs, resources_ok block payout gs /\ preflight_ok block gs pf
  | Fail _ => forall payout gs, ~ resources_ok block payout gs
  | Panic => False
  end.
Proof. apply preflight_cases. Qed.

Lemma preflight_exact_witness :
  exists pf, validate_block_resource_preflight (example_child [] []) = Return pf /\ pf_action_count pf = 1.
Proof.
  pose proof (preflight_exact (example_child [] []) (Forall_cons_2 _ _ _ example_mint_wf (Forall_nil_2 _))) as H.
  destruct (validate_block_resource_preflight (example_child [] [])) as [pf|e|]; [| |destruct H].
  - exists pf. split; [reflexivity|]. destruct H as (payout & gs & _ & [_ _ _ _ [P _] _ _ _]). exact P.
  - exfalso. apply (H None []). constructor.
    + cbn. lia.
    + exists example_mint, B25. exact example_layout.
    + change (transactions (example_child [] []) ≫= touched_slots) with [2]. intros i Hi. apply list_elem_of_singleton in Hi as ->. reflexivity.
    + vm_compute. discriminate.
Defined.

(** C6. The native block checks are exact.  With or without the wall clock, the
    proof of work or an explicit schedule, [validate_block_checks_inner] never
    panics and accepts precisely the blocks whose header follows its parent,
    whose resources fit, whose coinbase pays the miner on top of the parent,
    whose development payout is there in full exactly when due, whose slots are
    all distinct, whose spends pay the required fees, and whose coinbase is at
    most the miner subsidy plus the unburned fees. *)
Theorem block_checks_exact (block : Block) (parent : BlockHeader) (prev_timestamps finalized_active_counts : list Z) (anchor : AnchorInfo)
    (local_time : option Z) (check_pow : bool) (schedule : option ForkSchedule) :
  schedule_exact (schedule_of schedule) -> (local_time = None -> schedule = None -> check_pow = true) -> Forall body_wf (transactions block) ->
  match validate_block_checks_inner block parent prev_timestamps finalized_active_counts anchor local_time check_pow schedule with
  | Return _ => checks_ok block parent (header_context prev_timestamps finalized_active_counts anchor) local_time check_pow schedule
  | Fail _ => ~ checks_ok block parent (header_context prev_timestamps finalized_active_counts anchor) local_time check_pow schedule
  | Panic => False
  end.
Proof. apply block_checks_cases. Qed.

Lemma block_checks_exact_witness :
  validate_block_checks_timeless (example_child [] []) example_header [] [] (mkAnchorInfo 0 0 GENESIS_TARGET) <> Panic.
Proof.
  pose proof (block_checks_exact (example_child [] []) example_header [] [] (mkAnchorInfo 0 0 GENESIS_TARGET) None true None
    ACTIVE_SCHEDULE_exact (fun _ _ => eq_refl) (Forall_cons_2 _ _ _ example_mint_wf (Forall_nil_2 _))) as H.
  unfold validate_block_checks_timeless. intros E. rewrite E in H. exact H.
Defined.

(** C2. Consensus validation is exact and issues at most the subsidy.  On the
    sealed state of a parent below height [2^63 - 1], in which no segment has to
    be read back to expand the domain, and for bodies within their types,
    [validate_block_consensus] never panics; it accepts
    precisely the blocks that pass the native checks and apply, and then the new
    state is sealed under the header root at the header depth, keeps the
    invariant, and its supply grows by at most the miner subsidy and the
    development payouts of that height.  Its live count is that of the header; it
    stays the number of occupied slots when it was so before and no input claims
    what an empty slot holds. *)
Theorem consensus_exact {R : RawCommit StateHash} (c : ChainState (D := StateHash)) (slots : Z -> SlotValue) (block : Block) (parent : BlockHeader)
    (prev_timestamps finalized_active_counts : list Z) (local_time : Z) (anchor : AnchorInfo) :
  (forall cols, 0 <= column_capacity cols) -> parent_state c slots parent -> Forall body_wf (transactions block) ->
  consensus_outcome c slots block parent (header_context prev_timestamps finalized_active_counts anchor) local_time
    (validate_block_consensus block parent prev_timestamps finalized_active_counts local_time anchor c).
Proof. intros Hcap. exact (consensus_cases Hcap c slots block parent prev_timestamps finalized_active_counts local_time anchor). Qed.

Definition example_parent : BlockHeader :=
  mkHeader (replicate 32 0) (replicate 32 0) (replicate 32 0) 1699999980 0 (replicate 32 8) 0 GENESIS_TARGET 2 0 0.

Lemma consensus_exact_witness :
  exists c : ChainState (D := StateHash), with_log_slots (RawCommit0 := null_commit) 2 = Some c
  /\ consensus_outcome c (fun _ => EMPTY) (example_child [] []) example_parent (header_context [1699999980] [] (mkAnchorInfo 0 1699999980 GENESIS_TARGET)) 1700000000
       (validate_block_consensus (R := null_commit) (example_child [] []) example_parent [1699999980] [] 1700000000 (mkAnchorInfo 0 1699999980 GENESIS_TARGET) c).
Proof.
  destruct (with_log_slots_ok (RawCommit0 := null_commit) (D := StateHash) 2 ltac:(lia)) as (c & E & Hc & Hse & L & Ev & Al & Ct). exists c. split; [exact E|].
  assert (Hp : parent_state c (fun _ => EMPTY) example_parent).
  { constructor; [exact Hc|exact Hse|intros _ seg _; rewrite Ev; apply not_elem_of_empty|now rewrite L|cbn; lia]. }
  exact (consensus_exact (R := null_commit) c (fun _ => EMPTY) (example_child [] []) example_parent [1699999980] [] 1700000000
    (mkAnchorInfo 0 1699999980 GENESIS_TARGET) (fun _ => Z.le_refl 0) Hp (Forall_cons_2 _ _ _ example_mint_wf (Forall_nil_2 _))).
Defined.
