(* ===== verification/Undo.v ===== *)
(** * Undoing blocks ([noid_chain/src/consensus/da_prune.rs], [reorg.rs], the
      revert loop of [storage/mdbx_context.rs])

    The undo log of a block, the rollback that replays it, the shrink of the slot
    domain, the restored counters and the comparison with the parent header; and
    how long undo logs are kept.  Rolling back applied blocks restores the
    ancestor state, with the evicted segments read back from the store. *)

From Stdlib Require Import ZArith Lia Bool String FunctionalExtensionality.
From stdpp Require Import base numbers list option gmap sorting.
From S2P Require Import Prelude Params Difficulty Tx PagedSpend Rules Assembly Stream Poseidon Sponge Merkle TxTree Header SparseMerkle StateTree HeapTree HotSegments StreamRoot Segmented Resize ChainState ChainInvariant ApplyTx Transition Residency BlockApply StateDelta Witness.
Open Scope Z_scope.

(** ** Data *)

Record BlockUndoLog := mkUndo {
  block_height : Z;
  log_slots_before : Z;
  active_slot_count_before : Z;
  alloc_counter_before : Z;
  slot_changes : list (Z * SlotValue);
  tx_hashes : list (list Z)
}.

Definition undo_empty (block_height log_slots_before : Z) : BlockUndoLog := mkUndo block_height log_slots_before 0 0 [] [].

Section Undo.
Context {R : RawCommit StateHash}.
Implicit Types (c : ChainState (D := StateHash)) (s : SegmentedFriState (D := StateHash)).

(** ** Operations *)

Definition undo_input s (st : gset Z * list (Z * SlotValue)) (p : nat * TxInput) : gset Z * list (Z * SlotValue) :=
  let index := in_slot_index p.2 in
  if (index <? num_slots s) && negb (bool_decide (index ∈ st.1))
  then ({[index]} ∪ st.1, st.2 ++ [(index, slot s index)])
  else st.

Definition undo_output s (child_log_slots : Z) (st : gset Z * list (Z * SlotValue)) (p : nat * TxOutput)
  : gset Z * list (Z * SlotValue) :=
  let index := out_slot_index p.2 in
  if bool_decide (index ∈ st.1) then st
  else
    let touched := {[index]} ∪ st.1 in
    if index <? num_slots s then (touched, st.2 ++ [(index, slot s index)])
    else
      let child_slots :=
        if child_log_slots =? saturating_add 32 (Z.of_nat (log_slots s)) 1
        then default (num_slots s) (checked_mul 64 (num_slots s) 2)
        else num_slots s in
      if index <? child_slots then (touched, st.2 ++ [(index, EMPTY)]) else (touched, st.2).

Definition undo_tx s (child_log_slots : Z) (st : gset Z * list (Z * SlotValue)) (tx : TxBody) : gset Z * list (Z * SlotValue) :=
  foldl (undo_output s child_log_slots) (foldl (undo_input s) st (live_inputs tx)) (live_outputs tx).

Definition build_undo_log c (block : Block) : result BlockPageStreamError BlockUndoLog :=
  tx_hashes ← try_compute_logical_txids hash_tx8x2_leaves sponge_pairs (transactions block);
  let st := foldl (undo_tx (cs_state c) (Header.log_slots (header block))) (∅, []) (transactions block) in
  Ok (mkUndo (hdr_height (header block)) (Z.of_nat (log_slots (cs_state c))) (cs_active_slot_count c) (cs_alloc_counter c) st.2 tx_hashes).

Definition revert_block c (undo : BlockUndoLog) : result ApplyError (ChainState (D := StateHash)) :=
  supply ← ok_or (supply_after_slot_updates c (slot_changes undo)) TxSupplyInvariant;
  let restored_slots := filter (fun u => u.1 < num_slots (cs_state c)) (rev (slot_changes undo)) in
  s ← map_err (fun _ => TxSlotOutOfRange) (apply_delta_unrooted (cs_state c) restored_slots);
  Ok (with_counters (with_state c s) (cs_active_slot_count c) (cs_alloc_counter c) supply).

Definition restore_state_counters c (undo : BlockUndoLog) : ChainState (D := StateHash) :=
  with_counters c (active_slot_count_before undo) (alloc_counter_before undo) (cs_circulating_supply c).

Definition prune_undo_logs (logs : gmap Z BlockUndoLog) (current_height : Z) : gmap Z BlockUndoLog :=
  let cutoff := saturating_sub current_height UNDO_RETENTION_DEPTH in
  filter (fun p => cutoff < p.1) logs.

(** The revert loop of a reorg reads segments, headers and undo logs from the
    store; what it reads is an argument, an error the text of
    [MdbxContextError]. *)
Context (get_segment : Z -> result string (option SegmentColumns)).

Definition preload_segment c (segment_id : Z) : exec string (ChainState (D := StateHash)) :=
  if negb (is_evicted (cs_state c) segment_id) then mret c
  else
    found ← lift (get_segment segment_id);
    columns ← lift (ok_or found "evicted undo segment is missing from MDBX"%string);
    fail_as (fun _ => "evicted undo segment exact summary mismatch"%string) (restore_evicted_segment c segment_id columns).

Definition preload_segments_for_undo_in_state c (undo : BlockUndoLog) : exec string (ChainState (D := StateHash)) :=
  let needed := (fun u => seg_id_of (cs_state c) u.1) <$> slot_changes undo in
  exec_fold preload_segment c (merge_sort Z.le (remove_dups needed)).

(** One round: the block above [parent_header] is undone. *)
Definition revert_to_parent c (undo : BlockUndoLog) (parent_header : BlockHeader) : exec string (ChainState (D := StateHash)) :=
  c ← preload_segments_for_undo_in_state c undo;
  c ← lift (map_err (fun _ => "circulating supply reorg rollback failed"%string) (revert_block c undo));
  s ← fail_as (fun _ => "state shrink after reorg failed"%string) (shrink_to_log_slots (cs_state c) (Z.to_nat (log_slots_before undo)));
  let c := restore_state_counters (with_state c s) undo in
  match try_state_root c with
  | None => Panic
  | Some (Err _, _) => Fail "exact root rebuild after reorg failed"%string
  | Some (Ok _, c) =>
      _ ← lift (ensure (negb (negb (log_slots_before undo =? Header.log_slots parent_header)
                              || negb (Z.of_nat (log_slots (cs_state c)) =? Header.log_slots parent_header)
                              || negb (bool_decide (cs_utxo_root c = Header.state_root parent_header))
                              || negb (cs_active_slot_count c =? Header.active_slot_count parent_header)
                              || negb (cs_alloc_counter c =? Header.alloc_counter parent_header)))
                  "reorg undo does not restore parent header state"%string);
      mret c
  end.

(** The loop from the tip down. *)
Fixpoint revert_chain c (undos : list (BlockUndoLog * BlockHeader)) : exec string (ChainState (D := StateHash)) :=
  match undos with
  | [] => mret c
  | (undo, parent_header) :: undos => c ← revert_to_parent c undo parent_header; revert_chain c undos
  end.

End Undo.

(** ** The undo log of an applicable block *)

(** The slots a body has recorded on a domain of [n] slots: its inputs inside that
    domain and all its outputs. *)
Definition recorded (n : Z) (tx : TxBody) : list Z := filter (fun i => i < n) (Assembly.in_slots tx) ++ Assembly.out_slots tx.

(** Their pre-images, in application order. *)
Definition pre_images (slots : Z -> SlotValue) (n : Z) (txs : list TxBody) : list (Z * SlotValue) :=
  (fun i => (i, slots i)) <$> txs ≫= recorded n.

Lemma pre_images_keys slots n txs : (pre_images slots n txs).*1 = txs ≫= recorded n.
Proof. unfold pre_images. rewrite <- list_fmap_compose. apply list_fmap_id. Qed.

Lemma recorded_sub n tx i : i ∈ recorded n tx -> i ∈ touched_slots tx.
Proof. unfold recorded, touched_slots. rewrite !elem_of_app, list_elem_of_filter. tauto. Qed.

Lemma recorded_touched n txs i : i ∈ txs ≫= recorded n -> i ∈ txs ≫= touched_slots.
Proof.
  intros (b & Hi & Hb)%list_elem_of_bind. apply list_elem_of_bind. exists b. split; [|exact Hb].
  exact (recorded_sub n b i Hi).
Qed.

(** A touched slot that is not recorded is an input beyond the domain. *)
Lemma unrecorded_input n txs i : i ∈ txs ≫= touched_slots -> i ∉ txs ≫= recorded n ->
  n <= i /\ exists b, b ∈ txs /\ i ∈ Assembly.in_slots b.
Proof.
  intros (b & Hi & Hb)%list_elem_of_bind Hni. unfold touched_slots in Hi.
  assert (Hnb : i ∉ recorded n b) by (intros H; apply Hni, list_elem_of_bind; eauto).
  unfold recorded in Hnb. rewrite elem_of_app, list_elem_of_filter in Hnb. apply elem_of_app in Hi as [Hi|Hi]; [|tauto].
  split; [|eauto]. destruct (Z_lt_ge_dec i n); [tauto|lia].
Qed.

(** Spent slots are written [EMPTY]. *)
Lemma block_updates_spent h txs b i : b ∈ txs -> i ∈ Assembly.in_slots b -> forall alloc, (i, EMPTY) ∈ block_updates h alloc txs.
Proof.
  intros Hb Hi. induction txs as [|b' txs IH]; intros alloc; [now apply not_elem_of_nil in Hb|].
  cbn [block_updates]. apply elem_of_cons in Hb as [<-|Hb].
  - apply elem_of_app. left. unfold tx_updates. apply elem_of_app. left. now apply (list_elem_of_fmap_2 (fun i => (i, EMPTY))).
  - apply elem_of_app. right. now apply IH.
Qed.

Section Build.
Context {R : RawCommit StateHash}.
Context (s : SegmentedFriState (D := StateHash)) (slots : Z -> SlotValue) (child : Z).
Context (Hs : state_ok s slots).

(** Folding a step that records each fresh index. *)
Lemma record_fold {A} (step : gset Z * list (Z * SlotValue) -> A -> gset Z * list (Z * SlotValue)) (key : A -> Z) (l : list A) :
  (forall st x, x ∈ l -> key x ∉ st.1 -> step st x = ({[key x]} ∪ st.1, st.2 ++ [(key x, slots (key x))])) ->
  NoDup (key <$> l) -> forall st, (forall i, i ∈ (key <$> l) -> i ∉ st.1) ->
  foldl step st l = (list_to_set (key <$> l) ∪ st.1, st.2 ++ ((fun i => (i, slots i)) <$> (key <$> l))).
Proof.
  intros Hstep. induction l as [|x l IH]; intros Hn st Hf.
  - destruct st. cbn. f_equal; [set_solver|now rewrite app_nil_r].
  - cbn [fmap list_fmap] in Hn, Hf |- *. apply NoDup_cons in Hn as [Hx Hn]. cbn [foldl].
    rewrite Hstep; [|now left|apply Hf; now left]. rewrite IH; [|intros st' y Hy; apply Hstep; now right|exact Hn|].
    + cbn [fst snd]. rewrite <- app_assoc. cbn [app list_to_set fmap list_fmap]. f_equal. set_solver.
    + cbn [fst]. intros i Hi. apply not_elem_of_union. split; [|apply Hf; now right]. intros ->%elem_of_singleton. contradiction.
Qed.

Lemma fmap_filter_key {A} (key : A -> Z) (n : Z) (l : list A) : key <$> filter (fun x => key x < n) l = filter (fun i => i < n) (key <$> l).
Proof.
  induction l as [|x l IH]; [reflexivity|]. cbn [fmap list_fmap]. rewrite !filter_cons. destruct (decide (key x < n)); [|exact IH].
  cbn [fmap list_fmap]. now rewrite <- IH.
Qed.

Lemma undo_inputs_inside l : forall st,
  foldl (undo_input s) st l = foldl (undo_input s) st (filter (fun p => in_slot_index p.2 < num_slots s) l).
Proof.
  induction l as [|p l IH]; intros st; [reflexivity|]. cbn [foldl]. rewrite IH. rewrite filter_cons.
  destruct (decide (in_slot_index p.2 < num_slots s)) as [H|H]; [reflexivity|]. unfold undo_input at 2.
  now rewrite (proj2 (Z.ltb_nlt _ _) H).
Qed.

Lemma undo_tx_ok tx st : NoDup (touched_slots tx) -> (forall i, i ∈ touched_slots tx -> i ∉ st.1) ->
  (forall i, i ∈ touched_slots tx -> readable s i) ->
  (forall i, i ∈ Assembly.out_slots tx -> i < num_slots s \/ (child = Z.of_nat (log_slots s) + 1 /\ i < 2 * num_slots s)) ->
  undo_tx s child st tx
  = (list_to_set (recorded (num_slots s) tx) ∪ st.1, st.2 ++ ((fun i => (i, slots i)) <$> recorded (num_slots s) tx)).
Proof.
  intros Hn Hf Hr Hout. unfold touched_slots in *. apply NoDup_app in Hn as (Hn1 & Hd & Hn2). unfold undo_tx.
  assert (R1 : forall i, i ∈ Assembly.in_slots tx ++ Assembly.out_slots tx -> i < num_slots s -> slot s i = slots i).
  { intros i Hi Hlt. destruct (Hr i Hi) as [H0 H1]. apply (slot_read s slots Hs); [lia|]. now apply H1. }
  assert (Ei : (fun p : nat * TxInput => in_slot_index p.2) <$> filter (fun p => in_slot_index p.2 < num_slots s) (live_inputs tx)
    = filter (fun i => i < num_slots s) (Assembly.in_slots tx)) by apply fmap_filter_key.
  rewrite undo_inputs_inside, (record_fold (undo_input s) (fun p => in_slot_index p.2) (filter _ (live_inputs tx))).
  - rewrite (record_fold (undo_output s child) (fun p => out_slot_index p.2) (live_outputs tx)).
    + rewrite Ei. fold (Assembly.out_slots tx). unfold recorded. cbn [fst snd]. rewrite list_to_set_app_L, fmap_app, app_assoc.
      f_equal. set_solver.
    + intros [t l] p Hp Hni. cbn [fst snd] in *. unfold undo_output. cbn [fst snd]. rewrite bool_decide_eq_false_2 by exact Hni.
      assert (Ho : out_slot_index p.2 ∈ Assembly.out_slots tx) by now apply (list_elem_of_fmap_2 (fun p => out_slot_index p.2)).
      destruct (Z.ltb_spec (out_slot_index p.2) (num_slots s)) as [Hlt|Hge]; [rewrite R1; [reflexivity|now apply elem_of_app; right|exact Hlt]|].
      destruct (Hout _ Ho) as [?|[-> H2]]; [lia|]. pose proof (ok_log _ _ Hs) as Hl. unfold saturating_add, umax.
      rewrite Z.min_l by lia. rewrite Z.eqb_refl.
      assert (E2 : checked_mul 64 (num_slots s) 2 = Some (2 * num_slots s)).
      { apply checked_mul_some. unfold num_slots. pose proof (slots_33 (log_slots s) ltac:(lia)). split; [lia|]. lia. }
      rewrite E2. cbn [default from_option id]. destruct (Z.ltb_spec (out_slot_index p.2) (2 * num_slots s)); [|lia].
      rewrite (ok_outside _ _ Hs); [reflexivity|]. unfold num_slots in Hge. lia.
    + exact Hn2.
    + rewrite Ei. intros i Hi. cbn [fst]. apply not_elem_of_union. split; [|apply Hf, elem_of_app; now right].
      rewrite elem_of_list_to_set, list_elem_of_filter. intros [_ H]. exact (Hd i H Hi).
  - intros [t l] p Hp Hni. apply list_elem_of_filter in Hp as [Hlt Hp]. cbn [fst snd] in *. unfold undo_input. cbn [fst snd].
    rewrite bool_decide_eq_false_2 by exact Hni.
    assert (Hi : in_slot_index p.2 ∈ Assembly.in_slots tx) by now apply (list_elem_of_fmap_2 (fun p => in_slot_index p.2)).
    rewrite (proj2 (Z.ltb_lt _ _) Hlt). cbn [negb andb]. rewrite R1; [reflexivity|now apply elem_of_app; left|exact Hlt].
  - rewrite Ei. now apply NoDup_filter.
  - rewrite Ei. intros i [_ Hi]%list_elem_of_filter. apply Hf, elem_of_app. now left.
Qed.

Lemma undo_txs_ok txs st : NoDup (txs ≫= touched_slots) -> (forall i, i ∈ txs ≫= touched_slots -> i ∉ st.1) ->
  (forall i, i ∈ txs ≫= touched_slots -> readable s i) ->
  (forall i, i ∈ txs ≫= touched_slots -> i < num_slots s \/ (child = Z.of_nat (log_slots s) + 1 /\ i < 2 * num_slots s)) ->
  (foldl (undo_tx s child) st txs).2 = st.2 ++ pre_images slots (num_slots s) txs.
Proof.
  revert st. induction txs as [|b txs IH]; intros st Hn Hf Hr Hout; [symmetry; apply app_nil_r|].
  cbn [foldl]. unfold pre_images in *. cbn [mbind list_bind] in *. fold (mbind (M := list) touched_slots txs) in *.
  fold (mbind (M := list) (recorded (num_slots s)) txs) in *.
  apply NoDup_app in Hn as (Hn1 & Hd & Hn2). rewrite undo_tx_ok; [|exact Hn1|..].
  - rewrite IH; [|exact Hn2| | |intros i Hi; apply Hout, elem_of_app; now right].
    + cbn [snd]. now rewrite fmap_app, app_assoc.
    + cbn [fst]. intros i Hi. apply not_elem_of_union. split; [|apply Hf, elem_of_app; now right].
      rewrite elem_of_list_to_set. intros H. exact (Hd i (recorded_sub _ _ _ H) Hi).
    + intros i Hi. apply Hr, elem_of_app. now right.
  - intros i Hi. apply Hf, elem_of_app. now left.
  - intros i Hi. apply Hr, elem_of_app. now left.
  - intros i Hi. apply Hout. apply elem_of_app. left. apply elem_of_app. now right.
Qed.
End Build.

(** ** Rolling back *)

Lemma filter_all {A} (P : A -> Prop) `{!forall x, Decision (P x)} (l : list A) : Forall P l -> filter P l = l.
Proof. induction 1 as [|x l Hx _ IH]; [reflexivity|]. now rewrite filter_cons_True, IH. Qed.

Section Rollback.
Context {D : Type} `{!ExactHash D} `{!RawCommit D}.
Implicit Types (c : ChainState (D := D)) (s : SegmentedFriState (D := D)) (slots : Z -> SlotValue).

(** Writing the pre-images back, in either order. *)
Lemma write_back slots (updates : list (Z * SlotValue)) (keys : list Z) l :
  (forall i, i ∉ keys -> write_slots slots updates i = slots i) ->
  (forall i v, (i, v) ∈ l -> v = slots i) -> (forall i, i ∈ keys -> i ∈ l.*1) ->
  write_slots (write_slots slots updates) l = slots.
Proof.
  intros Hkeep Hval Hcov. extensionality i. destruct (decide (i ∈ l.*1)) as [Hin|Hin].
  - assert (G : forall l f, i ∈ l.*1 -> (forall v, (i, v) ∈ l -> v = slots i) -> write_slots f l i = slots i).
    { clear. induction l as [|[k v] l IH]; intros f Hi Hv; [now apply not_elem_of_nil in Hi|]. rewrite write_slots_cons. cbn [fst snd].
      destruct (decide (i ∈ l.*1)) as [Hl|Hl]; [apply IH; [exact Hl|intros w Hw; apply Hv; now right]|].
      rewrite write_slots_other by exact Hl. cbn [fmap list_fmap] in Hi. apply elem_of_cons in Hi as [->|Hi]; [|contradiction].
      unfold write_slot. cbn [fst]. rewrite decide_True by reflexivity. apply Hv. now left. }
    apply G; [exact Hin|]. intros v. apply Hval.
  - rewrite write_slots_other by exact Hin. apply Hkeep. intros H. now apply Hin, Hcov.
Qed.

Lemma shrink_one_dirty s s' : shrink_one s = Return s' ->
  if (log_slots s <=? SEGMENT_LOG)%nat then 0 ∈ exact_dirty s' /\ num_segments s' = num_segments s /\ exact_dirty s' ⊆ {[0]} ∪ exact_dirty s
  else exact_dirty s' = filter (fun id => id < Z.of_nat (num_segments s / 2)) (exact_dirty s).
Proof.
  unfold shrink_one. destruct (flush_all_dirty s) as [s1|] eqn:E1; cbn [expect mbind exec_bind]; [|discriminate].
  apply flush_all_shape in E1 as [r ->]. cbn [with_raw log_slots num_segments exact_dirty].
  destruct (log_slots s <=? SEGMENT_LOG)%nat.
  - destruct (is_evicted _ 0); [discriminate|]. intros H.
    destruct (match try_get_segment_columns (with_raw s r) 0 with Some _ => _ | None => _ end) as [sh|e|]; cbn [mbind exec_bind] in H; try discriminate.
    destruct (flush_all_dirty _) as [s2|] eqn:E2; cbn [expect] in H; [|discriminate]. injection H as <-.
    apply flush_all_shape in E2 as [r' ->]. cbn [with_raw exact_dirty num_segments]. split; [set_solver|]. split; [reflexivity|set_solver].
  - destruct (check_upper _ _ _) as [[]|e]; cbn [lift mbind exec_bind]; [|discriminate]. intros [= <-]. reflexivity.
Qed.

Context (Hcap : forall cols, 0 <= column_capacity (D := D) cols).

(** Halving the domain halves the compact roots; the single segment of a small
    domain is hashed again. *)
Lemma shrink_rooted c slots log s' : rooted c slots -> log_slots (cs_state c) = S log -> (1 <= log)%nat ->
  shrink_one (cs_state c) = Return s' -> rooted (with_roots c s' (roots_shrink_one (cs_exact_roots c)) (cs_utxo_root c)) slots.
Proof.
  intros [Hs (g & Hr & Hg) Hd] L Hlog E. pose proof (shrink_one_cases _ slots Hs ltac:(lia)) as H. rewrite E in H.
  destruct H as (_ & Hs' & L' & _). replace (log_slots (cs_state c) - 1)%nat with log in L' by lia.
  pose proof (shrink_one_dirty _ _ E) as Hdirty. rewrite L in *. pose proof (roots_shrink_ok _ _ _ Hr) as Hr'.
  pose proof (ok_num _ _ Hs') as N'. rewrite (ok_eff _ _ Hs'), L' in N'. pose proof (ok_num _ _ Hs) as N. rewrite (ok_eff _ _ Hs), L in N.
  constructor; cbn [with_roots cs_state cs_exact_roots]; [exact Hs'| |].
  - rewrite L'. eexists. split; [exact Hr'|]. intros seg Hb Hni. destruct (Nat.leb_spec (S log) SEGMENT_LOG) as [Hsm|Hbig].
    + destruct Hdirty as [H0 _]. replace (log - Nat.min log SEGMENT_LOG)%nat with 0%nat in N' by lia. cbn in N'.
      replace seg with 0 in Hni by lia. contradiction.
    + replace (log - Nat.min log SEGMENT_LOG)%nat with (log - SEGMENT_LOG)%nat in N' by lia.
      replace (S log - Nat.min (S log) SEGMENT_LOG)%nat with (S (log - SEGMENT_LOG)) in N by lia. rewrite Nat.pow_succ_r' in N.
      rewrite Hg; [unfold segment_roots_of; now replace (Nat.min (S log) SEGMENT_LOG) with (Nat.min log SEGMENT_LOG) by lia|lia|].
      intros Hin. apply Hni. rewrite Hdirty. apply elem_of_filter. split; [|exact Hin].
      rewrite N, Nat.mul_comm, Nat.div_mul by lia. lia.
  - intros seg Hin. destruct (Nat.leb_spec (S log) SEGMENT_LOG) as [Hsm|Hbig].
    + destruct Hdirty as (_ & En & Hsub). rewrite En. apply Hsub in Hin. apply elem_of_union in Hin as [->%elem_of_singleton|Hin]; [|now apply Hd].
      rewrite N. pose proof (pow2_gt0 0). split; [lia|]. apply (Nat2Z.inj_lt 0). apply Nat.neq_0_lt_0, Nat.pow_nonzero. lia.
    + rewrite Hdirty in Hin. apply elem_of_filter in Hin as [Hlt Hin]. specialize (Hd seg Hin).
      replace (log - Nat.min log SEGMENT_LOG)%nat with (log - SEGMENT_LOG)%nat in N' by lia.
      replace (S log - Nat.min (S log) SEGMENT_LOG)%nat with (S (log - SEGMENT_LOG)) in N by lia. rewrite Nat.pow_succ_r' in N.
      rewrite N, Nat.mul_comm, Nat.div_mul in Hlt by lia. lia.
Qed.

(** The root after a shrink: the refresh first shrinks the compact roots. *)
Lemma shrunk_root c slots log s' : rooted c slots -> log_slots (cs_state c) = S log -> (1 <= log)%nat ->
  shrink_one (cs_state c) = Return s' -> try_state_root (with_state c s')
  = try_state_root (with_roots c s' (roots_shrink_one (cs_exact_roots c)) (cs_utxo_root c)).
Proof.
  intros H L Hlog E. pose proof (shrink_rooted c slots log s' H L Hlog E) as [Hs' (g' & Hr' & _) _].
  destruct H as [Hs (g & Hr & _) _]. pose proof (ro_log _ _ _ Hr) as L0. rewrite L in L0. cbn [with_roots cs_state cs_exact_roots] in Hs', Hr'.
  assert (L' : log_slots s' = log).
  { pose proof (shrink_one_cases _ slots Hs ltac:(lia)) as H. rewrite E in H. destruct H as (_ & _ & H & _). lia. }
  unfold try_state_root. cbn zeta. cbn [with_state with_roots cs_state cs_exact_roots cs_utxo_root].
  destruct (roots_sized _ _ _ Hr') as [E1 E2]. rewrite E1, E2, L' in *.
  assert (E3 : roots_expand_to log (cs_exact_roots c) log = cs_exact_roots c).
  { destruct log as [|log]; [reflexivity|]. cbn [roots_expand_to]. rewrite L0. now destruct (Nat.ltb_spec (S (S log)) (S log)); [lia|]. }
  rewrite E3, L0. destruct (Nat.ltb_spec log (S log)); [|lia]. cbn [roots_shrink_to]. rewrite L0.
  destruct (Nat.ltb_spec log (S log)); [|lia].
  assert (E4 : forall fuel, roots_shrink_to fuel (roots_shrink_one (cs_exact_roots c)) log = roots_shrink_one (cs_exact_roots c)).
  { intros [|fuel]; [reflexivity|]. cbn [roots_shrink_to]. now rewrite E2. }
  rewrite E4. reflexivity.
Qed.

Lemma rooted_fields c c' slots : rooted c slots -> cs_state c' = cs_state c -> cs_exact_roots c' = cs_exact_roots c -> rooted c' slots.
Proof. intros [A B C] E1 E2. constructor; rewrite ?E1, ?E2; assumption. Qed.

Lemma shrink_same s log : log_slots s = log -> (1 <= log)%nat -> shrink_to_log_slots s log = Return s.
Proof.
  intros L H. unfold shrink_to_log_slots. rewrite L, Nat.ltb_irrefl. destruct (Nat.ltb_spec log 1); [lia|]. cbn [orb].
  destruct log as [|log]; [lia|]. cbn [shrink_loop]. now rewrite L, Nat.ltb_irrefl.
Qed.

Lemma shrink_once s slots log s' : state_ok s slots -> log_slots s = S log -> (1 <= log)%nat ->
  shrink_to_log_slots s log = Return s' -> shrink_one s = Return s'.
Proof.
  intros Hs L H. unfold shrink_to_log_slots. rewrite L. destruct (Nat.ltb_spec log 1), (Nat.ltb_spec (S log) log); try lia. cbn [orb shrink_loop].
  rewrite L. destruct (Nat.ltb_spec log (S log)); [|lia]. pose proof (shrink_one_cases s slots Hs ltac:(lia)) as Hone.
  destruct (shrink_one s) as [s1|e|]; cbn [mbind exec_bind]; try discriminate. destruct Hone as (_ & _ & L1 & _).
  assert (E : shrink_loop log s1 log = Return s1); [|congruence].
  destruct log as [|log]; [lia|]. cbn [shrink_loop]. replace (log_slots s1) with (S log) by lia. now rewrite Nat.ltb_irrefl.
Qed.

Lemma shrink_reroot c slots log : rooted c slots -> (forall seg, seg ∈ exact_dirty (cs_state c) -> seg ∉ evicted (cs_state c)) ->
  upper_clear slots log -> (1 <= log)%nat ->
  (log_slots (cs_state c) = log \/ (log_slots (cs_state c) = S log /\ evicted (cs_state c) = ∅)) ->
  exists s c', shrink_to_log_slots (cs_state c) log = Return s /\ try_state_root (with_state c s) = Some (Ok (ChainInvariant.state_root slots log), c')
    /\ rooted c' slots /\ sealed c' slots /\ log_slots (cs_state c') = log /\ evicted (cs_state c') ⊆ evicted (cs_state c)
    /\ cs_active_slot_count c' = cs_active_slot_count c /\ cs_alloc_counter c' = cs_alloc_counter c
    /\ cs_circulating_supply c' = cs_circulating_supply c.
Proof.
  intros Hr Hdr Hup Hlog [L|[L Hev]].
  - exists (cs_state c). rewrite (shrink_same _ log L Hlog). assert (with_state c (cs_state c) = c) as -> by now destruct c.
    destruct (try_state_root_ok Hcap c slots Hr Hdr) as (c' & E & Hr' & Hse & []). exists c'. rewrite <- L. split; [reflexivity|].
    split; [exact E|]. split; [exact Hr'|]. split; [exact Hse|]. split; [assumption|]. split; [set_solver|auto].
  - pose proof (shrink_to_cases (cs_state c) slots log (rt_state _ _ Hr) ltac:(lia)) as Hcase.
    destruct (shrink_to_log_slots (cs_state c) log) as [s|[]|] eqn:E; cbn [shrink_result] in Hcase; rewrite ?Hev in Hcase;
      try (now destruct Hcase); try (now apply not_elem_of_empty in Hcase); try (destruct Hcase as [seg Hin]; now apply not_elem_of_empty in Hin).
    destruct Hcase as (_ & Hs & L' & Hsub). pose proof (shrink_once _ slots log s (rt_state _ _ Hr) L Hlog E) as E1.
    pose proof (shrink_rooted c slots log s Hr L Hlog E1) as Hr1.
    destruct (try_state_root_ok Hcap _ slots Hr1) as (c' & E2 & Hr' & Hse & Hsc).
    + cbn [with_roots cs_state]. intros seg _ Hin. apply Hsub in Hin. now apply not_elem_of_empty in Hin.
    + exists s, c'. rewrite (shrunk_root c slots log s Hr L Hlog E1), E2. cbn [with_roots cs_state]. rewrite L'. split; [reflexivity|].
      split; [reflexivity|]. split; [exact Hr'|]. split; [exact Hse|]. destruct Hsc as [S1 S2 S3 S4 S5 S6 S7]. cbn [with_roots cs_state] in *.
      split; [congruence|]. split; [rewrite S3; rewrite Hev; exact Hsub|auto].
Qed.

(** ** Preloading *)

(** The store has the columns of every evicted segment. *)
Definition stored (get_segment : Z -> result string (option SegmentColumns)) s slots : Prop :=
  forall seg, seg ∈ evicted s -> exists cols, get_segment seg = Ok (Some cols) /\ columns_len cols (2 ^ effective_log_seg s) = true
    /\ forall l, (l < 2 ^ effective_log_seg s)%nat -> column_slot cols l = slots (seg * 2 ^ Z.of_nat (effective_log_seg s) + Z.of_nat l).

Lemma restore_shape c seg cols c' : restore_evicted_segment c seg cols = Return c' ->
  exists s, c' = with_state c s /\ log_slots s = log_slots (cs_state c) /\ effective_log_seg s = effective_log_seg (cs_state c).
Proof.
  unfold restore_evicted_segment. cbn zeta. destruct (negb _); [discriminate|]. destruct (negb _); [discriminate|].
  destruct (from_columns _ _ _) as [t|]; cbn [expect mbind exec_bind]; [|discriminate]. destruct (bool_decide _); [|discriminate].
  unfold remember_exact_segment_tree. destruct (_ && _); cbn [expect mbind exec_bind].
  - destruct (lru_insert _ _ _); cbn [expect mbind exec_bind option_bind]; [|discriminate]. intros [= <-]. eexists. split; [reflexivity|]. now split.
  - intros [= <-]. eexists. split; [reflexivity|]. now split.
Qed.
End Rollback.

Section Undone.
Context {R : RawCommit StateHash}.
Context (Hcap : forall cols, 0 <= column_capacity (D := StateHash) cols).
Implicit Types (c : ChainState (D := StateHash)) (slots : Z -> SlotValue).

Lemma preload_ok get_segment slots ids : forall c, rooted c slots -> exact_dirty (cs_state c) = ∅ -> stored get_segment (cs_state c) slots ->
  exists s, exec_fold (preload_segment get_segment) c ids = Return (with_state c s) /\ rooted (with_state c s) slots /\ exact_dirty s = ∅
    /\ log_slots s = log_slots (cs_state c) /\ effective_log_seg s = effective_log_seg (cs_state c)
    /\ evicted s = evicted (cs_state c) ∖ list_to_set ids.
Proof.
  induction ids as [|id ids IH]; intros c Hr Hd Hst.
  - exists (cs_state c). assert (with_state c (cs_state c) = c) as -> by now destruct c. split; [reflexivity|].
    split; [exact Hr|]. split; [exact Hd|]. split; [reflexivity|]. split; [reflexivity|]. cbn [list_to_set]. now rewrite difference_empty_L.
  - cbn [exec_fold].
    assert (E0 : preload_segment get_segment c id = if negb (bool_decide (id ∈ evicted (cs_state c))) then mret c
      else found ← lift (get_segment id); columns ← lift (ok_or found "evicted undo segment is missing from MDBX"%string);
        fail_as (fun _ => "evicted undo segment exact summary mismatch"%string) (restore_evicted_segment c id columns)) by reflexivity.
    rewrite E0. clear E0. destruct (decide (id ∈ evicted (cs_state c))) as [He|He].
    + rewrite (bool_decide_eq_true_2 _ He). cbn [negb]. destruct (Hst id He) as (cols & Eg & El & Hcols). rewrite Eg.
      cbn [lift mbind exec_bind ok_or]. pose proof (ok_evicted _ _ (rt_state _ _ Hr) id He) as Hb.
      destruct (restore_ok Hcap c slots id Hr Hb ltac:(rewrite Hd; apply not_elem_of_empty) cols El Hcols) as (c1 & E1 & Hr1 & Ev1 & _ & Hd1).
      destruct (restore_shape _ _ _ _ E1) as (s1 & -> & L1 & F1). rewrite E1. cbn [fail_as mbind exec_bind]. cbn [with_state cs_state] in *.
      destruct (IH (with_state c s1) Hr1) as (s2 & E2 & Hr2 & Hd2 & L2 & F2 & Ev2); cbn [with_state cs_state] in *.
      * congruence.
      * intros seg Hin. rewrite F1. apply Hst. rewrite Ev1 in Hin. set_solver.
      * exists s2. split; [exact E2|]. split; [exact Hr2|]. split; [exact Hd2|]. split; [congruence|]. split; [congruence|].
        rewrite Ev2, Ev1. cbn [list_to_set]. set_solver.
    + rewrite (bool_decide_eq_false_2 _ He). cbn [negb mbind exec_bind mret]. destruct (IH c Hr Hd Hst) as (s2 & E2 & Hr2 & Hd2 & L2 & F2 & Ev2).
      exists s2. split; [exact E2|]. repeat (split; [assumption|]). rewrite Ev2. cbn [list_to_set]. set_solver.
Qed.

(** The header of a sealed state. *)
Record header_of (hdr : BlockHeader) c slots : Prop := {
  ho_log : Header.log_slots hdr = Z.of_nat (log_slots (cs_state c));
  ho_root : Header.state_root hdr = ChainInvariant.state_root slots (log_slots (cs_state c));
  ho_active : Header.active_slot_count hdr = cs_active_slot_count c;
  ho_alloc : Header.alloc_counter hdr = cs_alloc_counter c
}.

(** A state that stands for the same slots with the same counters. *)
Record same_ledger c c' slots : Prop := {
  sl_chain : chain_ok c' slots;
  sl_sealed : sealed c' slots;
  sl_log : log_slots (cs_state c') = log_slots (cs_state c);
  sl_active : cs_active_slot_count c' = cs_active_slot_count c;
  sl_alloc : cs_alloc_counter c' = cs_alloc_counter c;
  sl_supply : cs_circulating_supply c' = cs_circulating_supply c
}.

Lemma touched_nonneg txs : Forall body_wf txs -> forall i, i ∈ txs ≫= touched_slots -> 0 <= i.
Proof. intros Hw i Hi. apply list_elem_of_bind in Hi as (b & Hi & Hb). rewrite Forall_forall in Hw. apply (slots_wf b (Hw b Hb) i Hi). Qed.

Section Block.
Context (c : ChainState (D := StateHash)) (slots : Z -> SlotValue) (block : Block).
Let txs := transactions block.
Let log := log_slots (cs_state c).
Context (Hc : chain_ok c slots) (Hb : block_ok c slots block) (Hw : Forall body_wf txs).
Context (Hdepth : Header.log_slots (header block) <= Z.of_nat log + 1).

Lemma build_undo_ok : exists hashes, try_compute_logical_txids hash_tx8x2_leaves sponge_pairs txs = Ok hashes
  /\ build_undo_log c block = Ok (mkUndo (hdr_height (header block)) (Z.of_nat log) (cs_active_slot_count c) (cs_alloc_counter c)
       (pre_images slots (num_slots (cs_state c)) txs) hashes).
Proof.
  pose proof (rt_state _ _ (co_rooted _ _ Hc)) as Hs. pose proof (bk_tx_root _ _ _ Hb) as Ht. unfold try_compute_tx_root in Ht. fold txs in Ht.
  unfold build_undo_log. cbn zeta. fold txs. destruct (try_compute_logical_txids _ _ txs) as [hashes|e]; [|discriminate Ht].
  exists hashes. split; [reflexivity|]. cbn [mbind result_bind]. fold log. pose proof (bk_actions _ _ _ Hb) as Ha. fold txs in Ha.
  pose proof (bk_depth _ _ _ Hb) as Hd. fold log in Hd. pose proof (touched_nonneg txs Hw) as H0.
  rewrite (undo_txs_ok (cs_state c) slots _ Hs txs (∅, [])); [reflexivity|exact (ao_slots _ _ _ _ Ha)|..].
  - intros i _. apply not_elem_of_empty.
  - intros i Hi. destruct (ao_resident _ _ _ _ Ha i Hi) as [_ Hr].
    apply (readable_at c slots (Z.to_nat (Header.log_slots (header block))) i Hs); [fold log; lia|now apply H0|exact Hr].
  - intros i Hi. destruct (ao_resident _ _ _ _ Ha i Hi) as [Hr _]. unfold num_slots. fold log.
    assert (Header.log_slots (header block) = Z.of_nat log \/ Header.log_slots (header block) = Z.of_nat log + 1) as [E|E] by lia; rewrite E in Hr.
    + left. now rewrite Nat2Z.id in Hr.
    + right. split; [exact E|]. replace (Z.of_nat (Z.to_nat (Z.of_nat log + 1))) with (Z.succ (Z.of_nat log)) in Hr by lia.
      now rewrite Z.pow_succ_r in Hr by lia.
Qed.

(** A slot that is not recorded keeps its content. *)
Lemma unrecorded_kept i : i ∉ txs ≫= recorded (num_slots (cs_state c)) -> block_after c slots block i = slots i.
Proof.
  intros Hi. unfold block_after. fold txs. destruct (decide (i ∈ txs ≫= touched_slots)) as [Ht|Ht].
  - destruct (unrecorded_input _ _ _ Ht Hi) as (Hge & b & Hb' & Hin). pose proof (rt_state _ _ (co_rooted _ _ Hc)) as Hs.
    pose proof (block_updates_spent (hdr_height (header block)) txs b i Hb' Hin (cs_alloc_counter c)) as [k Hk]%list_elem_of_lookup.
    rewrite (write_slots_at _ _ k i EMPTY); [|rewrite block_updates_keys; exact (ao_slots _ _ _ _ (bk_actions _ _ _ Hb))|exact Hk].
    symmetry. apply (ok_outside _ _ Hs). unfold num_slots in Hge. lia.
  - apply write_slots_other. now rewrite block_updates_keys.
Qed.

Lemma undo_writes l : Permutation l (pre_images slots (num_slots (cs_state c)) txs) -> write_slots (block_after c slots block) l = slots.
Proof.
  intros Hp. apply (write_back slots _ (txs ≫= recorded (num_slots (cs_state c)))); fold (block_after c slots block).
  - exact unrecorded_kept.
  - intros i v Hin. rewrite Hp in Hin. apply list_elem_of_fmap in Hin as (j & [= -> ->] & _). reflexivity.
  - intros i Hi. rewrite Hp. now rewrite pre_images_keys.
Qed.

Lemma touched_bounds i : i ∈ txs ≫= touched_slots -> 0 <= i < 2 ^ Header.log_slots (header block).
Proof.
  intros Hi. split; [now apply (touched_nonneg txs Hw)|]. destruct (ao_resident _ _ _ _ (bk_actions _ _ _ Hb) i Hi) as [H _].
  pose proof (bk_depth _ _ _ Hb). now rewrite Z2Nat.id in H by lia.
Qed.

(** Replaying the pre-images on a state that stands for the block. *)
Lemma revert_block_ok c1 undo : let after := block_after c slots block in
  chain_ok c1 after -> exact_dirty (cs_state c1) = ∅ -> Z.of_nat (log_slots (cs_state c1)) = Header.log_slots (header block) ->
  (forall i, i ∈ txs ≫= recorded (num_slots (cs_state c)) -> seg_id_of (cs_state c1) i ∉ evicted (cs_state c1)) -> slot_changes undo = pre_images slots (num_slots (cs_state c)) txs ->
  exists c2, revert_block c1 undo = Ok c2 /\ rooted c2 slots /\ dirty_resident c2 /\ log_slots (cs_state c2) = log_slots (cs_state c1)
    /\ evicted (cs_state c2) ⊆ evicted (cs_state c1) /\ cs_circulating_supply c2 = cs_circulating_supply c.
Proof.
  cbn zeta. intros Hc1 Hd1 Hl1 Hev Hch. pose proof (rt_state _ _ (co_rooted _ _ Hc1)) as Hs1. pose proof (ok_log _ _ Hs1) as Hl.
  assert (Hb1 : Forall (fun u => 0 <= u.1 < num_slots (cs_state c1) /\ seg_id_of (cs_state c1) u.1 ∉ evicted (cs_state c1)) (pre_images slots (num_slots (cs_state c)) txs)).
  { apply Forall_forall. intros u Hu. apply (list_elem_of_fmap_2 fst) in Hu. rewrite pre_images_keys in Hu. unfold num_slots. rewrite Hl1.
    split; [now apply touched_bounds, (recorded_touched (num_slots (cs_state c)))|now apply Hev]. }
  unfold revert_block. rewrite Hch. rewrite (supply_after_ok c1 _ (pre_images slots (num_slots (cs_state c)) txs) (log_slots (cs_state c1)) Hs1 (co_supply _ _ Hc1) ltac:(lia)).
  2:{ eapply Forall_impl; [exact Hb1|]. cbv beta. unfold num_slots. tauto. }
  rewrite (undo_writes _ (reflexivity _)). cbn [ok_or mbind result_bind]. cbn zeta.
  assert (Ef : filter (fun u : Z * SlotValue => u.1 < num_slots (cs_state c1)) (rev (pre_images slots (num_slots (cs_state c)) txs)) = rev (pre_images slots (num_slots (cs_state c)) txs)).
  { apply filter_all. apply Forall_rev. eapply Forall_impl; [exact Hb1|]. cbv beta. tauto. }
  rewrite Ef. destruct (write_rooted c1 _ (rev (pre_images slots (num_slots (cs_state c)) txs)) (co_rooted _ _ Hc1)) as (s2 & E2 & Hr2 & W).
  { now apply Forall_rev. }
  rewrite E2. cbn [map_err mbind result_bind]. rewrite (undo_writes _ (Permutation_sym (Permutation_rev _))) in Hr2.
  eexists. split; [reflexivity|]. split; [now apply (rooted_fields (with_state c1 s2))|]. cbn [with_counters with_state cs_state cs_circulating_supply].
  split; [|split; [exact (wa_log _ _ _ _ W)|split; [exact (wa_evicted _ _ _ _ W)|]]].
  - unfold dirty_resident. cbn [with_counters with_state cs_state]. apply (write_dirty_resident _ _ _ _ W); [now apply Forall_rev|].
    rewrite Hd1. intros seg Hin. now apply not_elem_of_empty in Hin.
  - rewrite (co_supply _ _ Hc). unfold money. apply total_grow; [reflexivity| |].
    + pose proof (bk_depth _ _ _ Hb). split; [lia|]. apply Z.pow_le_mono_r; lia.
    + intros i Hi. apply (ok_outside _ _ (rt_state _ _ (co_rooted _ _ Hc))). lia.
Qed.

(** The segments the undo log asks for. *)
Definition undo_segments (s1 : SegmentedFriState (D := StateHash)) : list Z := merge_sort Z.le (remove_dups ((fun u => seg_id_of s1 u.1) <$> pre_images slots (num_slots (cs_state c)) txs)).

(** A segment that stays evicted is not recorded: the store still has its columns. *)
Lemma unloaded_stored get_segment c' (s1 : SegmentedFriState (D := StateHash)) seg : let after := block_after c slots block in
  state_ok (cs_state c') after -> stored get_segment (cs_state c') after ->
  evicted s1 = evicted (cs_state c') ∖ list_to_set (undo_segments (cs_state c')) -> seg ∈ evicted s1 ->
  exists cols, get_segment seg = Ok (Some cols) /\ columns_len cols (2 ^ effective_log_seg (cs_state c')) = true
    /\ forall l, (l < 2 ^ effective_log_seg (cs_state c'))%nat ->
         column_slot cols l = slots (seg * 2 ^ Z.of_nat (effective_log_seg (cs_state c')) + Z.of_nat l).
Proof.
  cbn zeta. intros Hs' Hst Ev Hin. rewrite Ev in Hin. apply elem_of_difference in Hin as [Hin Hni].
  destruct (Hst seg Hin) as (cols & Eg & El & Hcols). exists cols. split; [exact Eg|]. split; [exact El|]. intros l Hl.
  rewrite Hcols by exact Hl. apply unrecorded_kept. intros Hrec. apply Hni. unfold undo_segments.
  rewrite elem_of_list_to_set, merge_sort_Permutation. apply elem_of_remove_dups, list_elem_of_fmap.
  eexists (_, _). split; [|apply list_elem_of_fmap; eexists; split; [reflexivity|exact Hrec]]. cbn [fst].
  pose proof (ok_evicted _ _ Hs' seg Hin) as Hb'. symmetry. now apply (position_unique _ _ Hs').
Qed.

Lemma revert_ok get_segment c' hdr undo : let after := block_after c slots block in
  chain_ok c' after -> sealed c' after -> Z.of_nat (log_slots (cs_state c')) = Header.log_slots (header block) ->
  stored get_segment (cs_state c') after -> (evicted (cs_state c') = ∅ \/ log_slots (cs_state c') = log) -> header_of hdr c slots ->
  build_undo_log c block = Ok undo ->
  exists c'', revert_to_parent get_segment c' undo hdr = Return c'' /\ same_ledger c c'' slots
    /\ evicted (cs_state c'') ⊆ evicted (cs_state c') /\ stored get_segment (cs_state c'') slots.
Proof.
  cbn zeta. intros Hc' [Hd' _] Hl' Hst Hev Hho Hu. pose proof (rt_state _ _ (co_rooted _ _ Hc')) as Hs'. destruct build_undo_ok as (hashes & _ & Eu). rewrite Eu in Hu. injection Hu as Hu.
  pose proof (rt_state _ _ (co_rooted _ _ Hc)) as Hs. pose proof (ok_log _ _ Hs) as Hlog. fold log in Hlog.
  pose proof (bk_depth _ _ _ Hb) as Hdep. fold log in Hdep. unfold revert_to_parent, preload_segments_for_undo_in_state.
  rewrite <- Hu. cbn [slot_changes log_slots_before]. clear Hu.
  destruct (preload_ok get_segment _ (undo_segments (cs_state c')) c' (co_rooted _ _ Hc') Hd' Hst) as (s1 & E1 & Hr1 & Hd1 & L1 & F1 & Ev1).
  unfold undo_segments in E1. fold txs in E1. rewrite E1. cbn [mbind exec_bind]. set (undo0 := mkUndo _ _ _ _ _ _).
  assert (Hc1 : chain_ok (with_state c' s1) (block_after c slots block)).
  { destruct Hc' as [A B C D' E]. constructor; cbn [with_state cs_state cs_active_slot_count cs_alloc_counter cs_circulating_supply]; rewrite ?L1; assumption. }
  destruct (revert_block_ok (with_state c' s1) undo0 Hc1 Hd1) as (c2 & E2 & Hr2 & Hdr2 & L2 & Ev2 & Su2);
    cbn [with_state cs_state] in *; [congruence| |reflexivity|].
  { intros i Hi. unfold seg_id_of. rewrite F1, Ev1. apply not_elem_of_difference. right. unfold undo_segments.
    rewrite elem_of_list_to_set, merge_sort_Permutation. apply elem_of_remove_dups, list_elem_of_fmap. exists (i, slots i). split; [reflexivity|]. apply list_elem_of_fmap. eauto. }
  rewrite E2. cbn [map_err lift mbind exec_bind]. rewrite Nat2Z.id.
  assert (Hlogs : log_slots (cs_state c2) = log \/ (log_slots (cs_state c2) = S log /\ evicted (cs_state c2) = ∅)).
  { destruct (decide (log_slots (cs_state c') = log)) as [|Hne']; [left; congruence|right]. destruct Hev as [Hev|]; [|contradiction].
    split; [lia|]. set_solver. }
  destruct (shrink_reroot Hcap (restore_state_counters c2 undo0) slots log) as (s3 & c3 & E3 & E4 & Hr3 & Hse3 & L3 & Ev3 & A3 & B3 & S3).
  - now apply (rooted_fields c2).
  - exact Hdr2.
  - intros i Hi. apply (ok_outside _ _ Hs). fold log. lia.
  - lia.
  - exact Hlogs.
  - cbn [restore_state_counters with_counters cs_state] in E3. rewrite E3. cbn [fail_as mbind exec_bind]. cbn zeta.
    change (restore_state_counters (with_state c2 s3) undo0) with (with_state (restore_state_counters c2 undo0) s3). rewrite E4.
    cbn [restore_state_counters with_counters cs_active_slot_count cs_alloc_counter cs_circulating_supply active_slot_count_before alloc_counter_before undo0] in A3, B3, S3.
    destruct Hho as [K1 K2 K3 K4]. fold log in K1, K2. rewrite L3, A3, B3, K1, K2, K3, K4, !Z.eqb_refl.
    pose proof (proj2 Hse3) as Hroot. rewrite L3 in Hroot. rewrite (bool_decide_eq_true_2 _ Hroot). cbn [negb orb ensure lift mbind exec_bind mret].
    assert (Hsub : evicted (cs_state c3) ⊆ evicted s1) by (etransitivity; [exact Ev3|exact Ev2]).
    exists c3. split; [reflexivity|]. split; [|split; [rewrite Ev1 in Hsub; set_solver|]].
    2:{ intros seg Hin. assert (Hin' : seg ∈ evicted s1) by now apply Hsub.
        assert (Heff : effective_log_seg (cs_state c3) = effective_log_seg (cs_state c')).
        { destruct Hev as [Hev|Hev]; [rewrite Ev1, Hev in Hin'; set_solver|]. rewrite (ok_eff _ _ (rt_state _ _ Hr3)), (ok_eff _ _ Hs'). congruence. }
        rewrite Heff. exact (unloaded_stored get_segment c' s1 seg Hs' Hst Ev1 Hin'). }
    constructor; [|exact Hse3|exact L3|exact A3|exact B3|congruence].
    destruct Hc as [_ C1 C2 C3 C4]. constructor; rewrite ?L3, ?A3, ?B3; [exact Hr3|exact C1| |exact C3|exact C4]. rewrite S3, Su2. exact C2.
Qed.
End Block.

Definition connectable c (block : Block) : Prop := Forall body_wf (transactions block)
  /\ 0 <= hdr_height (header block) < 2 ^ 63 /\ 0 <= Header.log_slots (header block) <= 32
  /\ Header.log_slots (header block) <= Z.of_nat (log_slots (cs_state c)) + 1.

(** Blocks applied one after the other, with the undo logs in the order in which
    a reorg reads them.  Between two blocks segments may be evicted, restored or
    hashed again: the state may become any other state of the same ledger. *)
Inductive connected c hdr : list (BlockUndoLog * BlockHeader) -> ChainState (D := StateHash) -> BlockHeader -> Prop :=
| connected_here : connected c hdr [] c hdr
| connected_next undos c1 hdr1 block undo root c2 : connected c hdr undos c1 hdr1 -> rehashable c1 -> connectable c1 block ->
    build_undo_log c1 block = Ok undo -> apply_block c1 block = Return (root, c2) ->
    connected c hdr ((undo, hdr1) :: undos) c2 (header block)
| connected_moved undos c1 hdr1 c2 : connected c hdr undos c1 hdr1 ->
    (forall slots, chain_ok c1 slots -> sealed c1 slots -> same_ledger c1 c2 slots) -> connected c hdr undos c2 hdr1.

Lemma same_refl c slots : chain_ok c slots -> sealed c slots -> same_ledger c c slots.
Proof. intros H1 H2. now constructor. Qed.

Lemma same_trans c c1 c2 slots : same_ledger c c1 slots -> same_ledger c1 c2 slots -> same_ledger c c2 slots.
Proof. intros [] []. constructor; try assumption; congruence. Qed.

Lemma header_same hdr c c' slots : header_of hdr c slots -> same_ledger c c' slots -> header_of hdr c' slots.
Proof. intros [] []. constructor; congruence. Qed.

Lemma all_rehashable c : evicted (cs_state c) = ∅ -> rehashable c.
Proof. intros E _ seg _. rewrite E. apply not_elem_of_empty. Qed.

Lemma all_stored get_segment c slots : evicted (cs_state c) = ∅ -> stored get_segment (cs_state c) slots.
Proof. intros E seg Hin. rewrite E in Hin. now apply not_elem_of_empty in Hin. Qed.

Lemma applied_header c slots block root c' : chain_ok c slots -> sealed c slots -> rehashable c -> connectable c block ->
  apply_block c block = Return (root, c') -> block_ok c slots block /\ chain_ok c' (block_after c slots block)
  /\ sealed c' (block_after c slots block) /\ header_of (header block) c' (block_after c slots block)
  /\ evicted (cs_state c') = evicted (cs_state c).
Proof.
  intros Hc Hse Hre (Hw & Hh & Hl & Hl1) E. pose proof (apply_block_cases Hcap c slots block Hc Hse Hre Hw Hh Hl Hl1) as H.
  rewrite E in H. destruct H as (Hb & _ & Hc' & Hse' & Hl' & Hev & Ha & Hal & _). split; [exact Hb|]. split; [exact Hc'|]. split; [exact Hse'|].
  split; [|exact Hev]. constructor; [auto| |auto|auto]. rewrite (bk_root _ _ _ Hb). unfold block_after. f_equal. lia.
Qed.

(** What a rollback needs from the state [d] it starts in: the store has what is
    evicted, and nothing is evicted if the ancestor is shallower. *)
Definition revertible get_segment (ancestor d : ChainState (D := StateHash)) slots : Prop :=
  stored get_segment (cs_state d) slots /\ (evicted (cs_state d) = ∅ \/ log_slots (cs_state d) = log_slots (cs_state ancestor)).

Lemma connected_reverts c slots hdr undos c' hdr' : chain_ok c slots -> sealed c slots -> header_of hdr c slots ->
  connected c hdr undos c' hdr' ->
  exists slots', chain_ok c' slots' /\ sealed c' slots' /\ header_of hdr' c' slots' /\ (log_slots (cs_state c) <= log_slots (cs_state c'))%nat
    /\ forall get_segment d, same_ledger c' d slots' -> revertible get_segment c d slots' ->
         exists c'', revert_chain get_segment d undos = Return c'' /\ same_ledger c c'' slots.
Proof.
  intros Hc Hse Hho. induction 1 as [|undos c1 hdr1 block undo root c2 Hcon IH Hre Hcn Hu Ha|undos c1 hdr1 c2 Hcon IH Hmv].
  - exists slots. repeat (split; [assumption|]). split; [lia|]. intros get_segment d Hd _. exists d. now split.
  - destruct IH as (slots1 & Hc1 & Hse1 & Hho1 & Hle1 & Hrev). pose proof Hcn as (Hw & _ & _ & Hl1).
    destruct (applied_header c1 slots1 block root c2 Hc1 Hse1 Hre Hcn Ha) as (Hb & Hc2 & Hse2 & Hho2 & Hev2).
    pose proof (bk_depth _ _ _ Hb) as Hdep. rewrite (ho_log _ _ _ Hho2) in Hdep.
    exists (block_after c1 slots1 block). repeat (split; [assumption|]). split; [lia|]. intros get_segment d [D1 D2 D3 D4 D5 D6] [Hst Hde]. cbn [revert_chain].
    destruct (revert_ok c1 slots1 block Hc1 Hb Hw Hl1 get_segment d hdr1 undo D1 D2) as (d1 & E1 & Hsame & Hd1 & Hst1);
      [rewrite D3; symmetry; exact (ho_log _ _ _ Hho2)|exact Hst|destruct Hde; [now left|right; lia]|exact Hho1|exact Hu|].
    rewrite E1. cbn [mbind exec_bind]. apply Hrev; [exact Hsame|]. split; [exact Hst1|].
    destruct Hde as [Hde|Hde]; [left; rewrite Hde in Hd1; set_solver|right; rewrite (sl_log _ _ _ Hsame); lia].
  - destruct IH as (slots1 & Hc1 & Hse1 & Hho1 & Hle1 & Hrev). pose proof (Hmv slots1 Hc1 Hse1) as Hsame. exists slots1.
    split; [exact (sl_chain _ _ _ Hsame)|]. split; [exact (sl_sealed _ _ _ Hsame)|]. split; [exact (header_same _ _ _ _ Hho1 Hsame)|].
    split; [rewrite (sl_log _ _ _ Hsame); exact Hle1|]. intros get_segment d Hd. apply Hrev. exact (same_trans _ _ _ _ Hsame Hd).
Qed.
End Undone.

(** Reorgs within finality find their undo logs, that of the ancestor included. *)
Lemma undo_retained (logs : gmap Z BlockUndoLog) tip ancestor height : 0 <= ancestor <= tip -> reorg_allowed (tip - ancestor) = true ->
  ancestor <= height <= tip -> 0 < height -> prune_undo_logs logs tip !! height = logs !! height.
Proof.
  unfold reorg_allowed, prune_undo_logs, CONSENSUS_FINALITY_DEPTH, UNDO_RETENTION_DEPTH, CONSENSUS_FINALITY_DEPTH. rewrite Z.leb_le.
  intros H1 H2 H3 H4. destruct (logs !! height) eqn:E; [|apply map_lookup_filter_None; now left].
  apply map_lookup_filter_Some. split; [exact E|]. cbn [fst]. unfold saturating_sub. lia.
Qed.

(** ** Properties *)

(** Undoing a block restores its parent.  For a block that the interpreter
    applied to a sealed state, [build_undo_log] on the parent state succeeds.
    Let [c'] be any state that stands for the slots after the block, whatever
    part of it is evicted, and let the store hold the evicted columns; let
    nothing be evicted if the block expanded the domain.  Then one round of the
    revert loop against the parent header succeeds, and the state it returns
    stands for the parent slots: it keeps the invariant, is sealed under the
    parent root, and has the depth, both counters and the supply of the parent. *)
Theorem undo_restores_parent {R : RawCommit StateHash} (c : ChainState (D := StateHash)) (slots : Z -> SlotValue) (block : Block)
    (hdr : BlockHeader) (root : StateHash) (c1 : ChainState (D := StateHash)) :
  (forall cols, 0 <= column_capacity cols) -> chain_ok c slots -> sealed c slots -> rehashable c -> header_of hdr c slots ->
  connectable c block -> apply_block c block = Return (root, c1) ->
  exists undo, build_undo_log c block = Ok undo /\ forall get_segment c',
    let after := block_after c slots block in
    chain_ok c' after -> sealed c' after -> log_slots (cs_state c') = log_slots (cs_state c1) -> stored get_segment (cs_state c') after ->
    (evicted (cs_state c') = ∅ \/ log_slots (cs_state c1) = log_slots (cs_state c)) ->
    exists c'', revert_to_parent get_segment c' undo hdr = Return c'' /\ same_ledger c c'' slots.
Proof.
  intros Hcap Hc Hse Hre Hho Hcn Ha. destruct (applied_header Hcap c slots block root c1 Hc Hse Hre Hcn Ha) as (Hb & _ & _ & Hho1 & _).
  destruct Hcn as (Hw & _ & _ & Hl1). destruct (build_undo_ok c slots block Hc Hb Hw Hl1) as (hashes & _ & Eu).
  eexists. split; [exact Eu|]. intros get_segment c' after Hc' Hse' Hl' Hst Hev.
  assert (Hev' : evicted (cs_state c') = ∅ \/ log_slots (cs_state c') = log_slots (cs_state c)) by (destruct Hev; [now left|right; congruence]).
  assert (Hl'' : Z.of_nat (log_slots (cs_state c')) = Header.log_slots (header block)) by (rewrite Hl'; symmetry; exact (ho_log _ _ _ Hho1)).
  destruct (revert_ok Hcap c slots block Hc Hb Hw Hl1 get_segment c' hdr _ Hc' Hse' Hl'' Hst Hev' Hho Eu) as (c'' & E & Hsame & _). eauto.
Qed.

Definition example_parent_header (c : ChainState (D := StateHash)) : BlockHeader :=
  mkHeader (replicate 32 0) (ChainInvariant.state_root (fun _ => EMPTY) (log_slots (cs_state c))) (replicate 32 0) 1690000000 0 (replicate 32 8) 0
    GENESIS_TARGET (Z.of_nat (log_slots (cs_state c))) (cs_active_slot_count c) (cs_alloc_counter c).

Lemma example_connected : exists (c : ChainState (D := StateHash)) block root c1,
  chain_ok c (fun _ => EMPTY) /\ sealed c (fun _ => EMPTY) /\ evicted (cs_state c) = ∅ /\ log_slots (cs_state c) = 2%nat
  /\ connectable c block /\ apply_block (R := null_commit) c block = Return (root, c1)
  /\ chain_ok c1 (block_after c (fun _ => EMPTY) block) /\ sealed c1 (block_after c (fun _ => EMPTY) block)
  /\ evicted (cs_state c1) = ∅.
Proof.
  destruct example_applies as (c & txr & E & Hc & Hse & L & Ev & Al & Ct & Etx & Hok). set (block := example_child _ txr) in *.
  assert (Hcn : connectable c block).
  { split; [exact (proj1 example_bodies)|]. rewrite L. cbn. lia. }
  pose proof Hcn as (Hw & Hh & Hl & Hl1).
  pose proof (apply_block_cases (R := null_commit) (fun _ => Z.le_refl 0) c (fun _ => EMPTY) block Hc Hse (all_rehashable c Ev) Hw Hh Hl Hl1) as H.
  destruct (apply_block c block) as [[root c1]|e|] eqn:Ea; cbn [block_outcome] in H; [|now destruct (H Hok)|destruct H].
  destruct H as (_ & _ & Hc1 & Hse1 & _ & Ev1 & _). exists c, block, root, c1. repeat (split; [assumption|]). exact (eq_trans Ev1 Ev).
Qed.

Lemma undo_restores_parent_witness : exists (c : ChainState (D := StateHash)) block root c1 undo c'',
  apply_block (R := null_commit) c block = Return (root, c1) /\ build_undo_log c block = Ok undo
  /\ revert_to_parent (R := null_commit) (fun _ => Ok None) c1 undo (example_parent_header c) = Return c'' /\ log_slots (cs_state c'') = 2%nat.
Proof.
  destruct example_connected as (c & block & root & c1 & Hc & Hse & Ev & L & Hcn & Ea & Hc1 & Hse1 & Ev1).
  destruct (undo_restores_parent (R := null_commit) c (fun _ => EMPTY) block (example_parent_header c) root c1
    (fun _ => Z.le_refl 0) Hc Hse (all_rehashable c Ev)) as (undo & Eu & H); [now constructor|exact Hcn|exact Ea|].
  destruct (H (fun _ => Ok None) c1 Hc1 Hse1 eq_refl (all_stored _ c1 _ Ev1) (or_introl Ev1)) as (c'' & E & Hsame).
  exists c, block, root, c1, undo, c''. rewrite (sl_log _ _ _ Hsame). auto.
Defined.

(** C4. A reorg returns to the ancestor.  Blocks were applied, however many, on
    top of a sealed ancestor state, each with its undo log built first; between
    them segments may have been evicted, restored or hashed again, as long as
    each block finds the segments it touches, and an expansion the one it hashes
    again, in memory.  The tip then stands for
    some slots under its header.  Roll back from the tip, or from any state [d]
    that stands for the same slots with the same depth, counters and supply.  If
    the store holds the columns of the segments evicted from [d], and nothing is
    evicted from [d] when the ancestor is shallower, then the revert loop over the
    undo logs from the tip down succeeds: every intermediate state matches its
    stored header, and the last one stands for the slots of the ancestor with its
    root, depth, counters and supply.  The slot domain shrinks back through every
    expansion. *)
Theorem reorg_restores_ancestor {R : RawCommit StateHash} (c : ChainState (D := StateHash)) (slots : Z -> SlotValue)
    (hdr : BlockHeader) (undos : list (BlockUndoLog * BlockHeader)) (tip : ChainState (D := StateHash)) (tip_header : BlockHeader) :
  (forall cols, 0 <= column_capacity cols) -> chain_ok c slots -> sealed c slots -> header_of hdr c slots ->
  connected c hdr undos tip tip_header ->
  exists tip_slots, chain_ok tip tip_slots /\ sealed tip tip_slots /\ header_of tip_header tip tip_slots
    /\ forall get_segment d, same_ledger tip d tip_slots -> revertible get_segment c d tip_slots ->
         exists c', revert_chain get_segment d undos = Return c' /\ same_ledger c c' slots.
Proof.
  intros Hcap Hc Hse Hho Hcon.
  destruct (connected_reverts Hcap c slots hdr undos tip tip_header Hc Hse Hho Hcon) as (slots' & A & B & C & _ & H). eauto 8.
Qed.

Lemma reorg_restores_ancestor_witness : exists (c : ChainState (D := StateHash)) block root c1 undo c',
  apply_block (R := null_commit) c block = Return (root, c1) /\ build_undo_log c block = Ok undo
  /\ revert_chain (R := null_commit) (fun _ => Ok None) c1 [(undo, example_parent_header c)] = Return c' /\ log_slots (cs_state c') = 2%nat.
Proof.
  destruct example_connected as (c & block & root & c1 & Hc & Hse & Ev & L & Hcn & Ea & Hc1 & Hse1 & Ev1).
  destruct (applied_header (R := null_commit) (fun _ => Z.le_refl 0) c (fun _ => EMPTY) block root c1 Hc Hse (all_rehashable c Ev) Hcn Ea) as (Hb & _).
  destruct (build_undo_ok c (fun _ => EMPTY) block Hc Hb (proj1 Hcn) ltac:(apply Hcn)) as (hashes & _ & Eu).
  destruct (reorg_restores_ancestor (R := null_commit) c (fun _ => EMPTY) (example_parent_header c) _ c1 (header block)
    (fun _ => Z.le_refl 0) Hc Hse ltac:(now constructor)
    (connected_next c _ [] c _ block _ root c1 (connected_here c _) (all_rehashable c Ev) Hcn Eu Ea)) as (slots1 & A & B & _ & H).
  destruct (H (fun _ => Ok None) c1 (same_refl c1 slots1 A B) (conj (all_stored _ c1 slots1 Ev1) (or_introl Ev1))) as (c' & E & Hsame).
  do 5 eexists. exists c'. split; [exact Ea|]. split; [exact Eu|]. split; [exact E|]. rewrite (sl_log _ _ _ Hsame). exact L.
Defined.
