(* ===== verification/Ledger.v ===== *)
(** * The ledger from genesis to the tip ([noid_chain/src/consensus/genesis.rs],
      [block.rs], [consensus/validation.rs])

    The built-in genesis header, and the chains that grow from an accepted
    genesis block by blocks that pass consensus validation.  Along every such
    chain the state matches the tip header and the supply stays within the
    scheduled subsidy; the live count is exact as long as no input claims what
    an empty slot holds. *)

From Stdlib Require Import ZArith Lia Bool.
From stdpp Require Import base numbers list option gmap.
From S2P Require Import Prelude Params Emission Tx PagedSpend Rules Assembly Stream Poseidon Sponge Merkle TxTree Header HeaderRules SparseMerkle StateTree HeapTree HotSegments StreamRoot Segmented Resize ChainState ChainInvariant ApplyTx Transition BlockApply BlockRules Undo.
Open Scope Z_scope.

(** ** Genesis *)

Definition GENESIS_TIMESTAMP : Z := 1787328000.
Definition GENESIS_BURN_ADDRESS : list Z := replicate 32 0.
Definition GENESIS_STATE_ROOT : list Z :=
  [0x5c; 0x7f; 0x37; 0x12; 0x61; 0x1c; 0x83; 0x6a; 0x2c; 0x6a; 0xb0; 0x44; 0x8d; 0x32; 0xc2; 0x71;
   0xf0; 0x4e; 0x32; 0x13; 0x56; 0x0e; 0x8a; 0x53; 0x21; 0x33; 0x1c; 0xd6; 0xa5; 0xc9; 0x84; 0x92].
Definition GENESIS_NONCE : Z := 28170.
Definition genesis_state_root : list Z := GENESIS_STATE_ROOT.

Definition genesis_header : BlockHeader :=
  mkHeader (replicate 32 0) genesis_state_root (replicate 32 0) GENESIS_TIMESTAMP 0 GENESIS_BURN_ADDRESS GENESIS_NONCE GENESIS_TARGET
    LOG_SLOTS_GENESIS 0 0.

(** ** Chains *)

Section Ledger.
Context {R : RawCommit StateHash}.

(** The blocks by height, and the state of the last.  Each block is validated
    against the header below it; timestamps, counts, clock and anchor are any.
    Between two blocks segments may be evicted, restored or hashed again. *)
Inductive ledger : list Block -> ChainState (D := StateHash) -> Prop :=
| ledger_genesis log c block root c0 : (1 <= log <= 32)%nat -> with_log_slots log = Some c -> Header.log_slots (header block) = Z.of_nat log ->
    apply_genesis_block c block = Return (root, c0) -> ledger [block] c0
| ledger_extend blocks tip c block prev_timestamps finalized_active_counts local_time anchor root c' :
    ledger blocks c -> last blocks = Some tip -> Forall body_wf (transactions block) ->
    validate_block_consensus block (header tip) prev_timestamps finalized_active_counts local_time anchor c = Return (root, c') ->
    ledger (blocks ++ [block]) c'
| ledger_moved blocks c c' : ledger blocks c -> rehashable c' ->
    (forall slots, chain_ok c slots -> sealed c slots -> same_ledger c c' slots) -> ledger blocks c'.

(** Every input spends what some occupied slot can hold. *)
Definition real_blocks (blocks : list Block) : Prop := Forall (fun block => Forall real_spends (transactions block)) blocks.

(** The depth at a height, that of the tip from there on. *)
Definition depth_at (chain : list BlockHeader) (height : Z) : Z :=
  default 0 (Header.log_slots <$> chain !! Z.to_nat (Z.min height (Z.of_nat (length chain) - 1))).

Record tip_state (chain : list BlockHeader) (c : ChainState (D := StateHash)) (slots : Z -> SlotValue) (tip : BlockHeader) : Prop := {
  ts_last : last chain = Some tip;
  ts_height : hdr_height tip = Z.of_nat (length chain) - 1;
  ts_header : header_of tip c slots;
  ts_chain : chain_ok c slots;
  ts_sealed : sealed c slots;
  ts_memory : rehashable c;
  ts_grows : forall h h', h <= h' -> depth_at chain h <= depth_at chain h'
}.

Lemma genesis_ok log c block root c0 : (forall cols, 0 <= column_capacity (D := StateHash) cols) -> (1 <= log <= 32)%nat -> with_log_slots log = Some c ->
  Header.log_slots (header block) = Z.of_nat log -> apply_genesis_block c block = Return (root, c0) ->
  tip_state [header block] c0 (fun _ => EMPTY) (header block) /\ cs_circulating_supply c0 = 0 /\ counted c0 (fun _ => EMPTY).
Proof.
  intros Hcap Hlog E Hl H. destruct (with_log_slots_ok (D := StateHash) log Hlog) as (c1 & E1 & Hc & Hse & L & Ev & Al & Ct).
  rewrite E in E1. apply (inj Some) in E1. subst c1. unfold apply_genesis_block in H. cbn zeta in H.
  destruct (Z.eqb_spec (hdr_height (header block)) 0) as [Hh|]; cbn [negb] in H; [|discriminate H].
  destruct (_ <=? BLOCK_MAX_TXS); cbn [ensure lift mbind exec_bind] in H; [|discriminate H].
  destruct (bool_decide (transactions block = [])); cbn [ensure lift mbind exec_bind] in H; [|discriminate H].
  destruct (bool_decide (Header.tx_root _ = _)); cbn [ensure lift mbind exec_bind] in H; [|discriminate H].
  destruct (try_state_root_ok Hcap c (fun _ => EMPTY) (co_rooted _ _ Hc)) as (c2 & E2 & Hr2 & Hse2 & [S1 S2 S3 S4 S5 S6 S7]).
  { intros seg Hin. rewrite (proj1 Hse) in Hin. now apply not_elem_of_empty in Hin. }
  rewrite E2 in H. destruct (decide (Header.state_root (header block) = ChainInvariant.state_root (fun _ => EMPTY) (log_slots (cs_state c)))) as [Er|Er].
  2:{ rewrite (bool_decide_eq_false_2 _ Er) in H. discriminate H. }
  rewrite (bool_decide_eq_true_2 _ Er) in H. cbn [ensure lift mbind exec_bind] in H.
  destruct (Z.eqb_spec (Header.active_slot_count (header block)) 0) as [Ha|]; cbn [andb ensure lift mbind exec_bind] in H; [|discriminate H].
  destruct (Z.eqb_spec (Header.alloc_counter (header block)) 0) as [Hb|]; cbn [andb ensure lift mbind exec_bind mret] in H; [|discriminate H].
  assert (c0 = c2) as ->.
  { pose proof (f_equal (fun r => match r with Return p => p.2 | _ => c0 end) H) as H'. cbn [snd] in H'. symmetry. exact H'. }
  assert (Hact : cs_active_slot_count c = 0) by (unfold counted in Ct; rewrite Ct; apply total_empty; reflexivity).
  split; [constructor|split; [|unfold counted in *; now rewrite S1, S5]].
  - reflexivity.
  - exact Hh.
  - constructor; [rewrite S1, L; exact Hl|rewrite S1; exact Er|congruence|congruence].
  - destruct Hc as [_ C1 C2 C3 C4]. constructor; rewrite ?S1, ?S5, ?S6, ?S7; assumption.
  - exact Hse2.
  - apply all_rehashable. now rewrite S3.
  - intros h h' _. unfold depth_at. cbn [length]. rewrite !(Z.min_comm _ (_ - _)). 
    assert (Hz : forall x, Z.to_nat (Z.min (Z.of_nat 1 - 1) x) = 0%nat) by lia. rewrite !Hz. lia.
  - rewrite S7, (co_supply _ _ Hc). apply total_empty. reflexivity.
Qed.

(** A header with the root of the empty state and zero counters is accepted.  For
    [genesis_header] the equation says that [GENESIS_STATE_ROOT] is the root of
    the empty tree of depth 24; evaluating [zero_root 24] confirms it. *)
Lemma genesis_applies log c hdr : (forall cols, 0 <= column_capacity (D := StateHash) cols) -> (1 <= log <= 32)%nat -> with_log_slots log = Some c ->
  hdr_height hdr = 0 -> Header.tx_root hdr = replicate 32 0 -> Header.active_slot_count hdr = 0 -> Header.alloc_counter hdr = 0 ->
  Header.state_root hdr = ChainInvariant.state_root (fun _ => EMPTY) log ->
  exists c0, apply_genesis_block c (mkBlock hdr []) = Return (Header.state_root hdr, c0).
Proof.
  intros Hcap Hlog E H1 H2 H3 H4 H5. destruct (with_log_slots_ok (D := StateHash) log Hlog) as (c1 & E1 & Hc & Hse & L & Ev & Al & Ct).
  rewrite E in E1. apply (inj Some) in E1. subst c1. unfold apply_genesis_block. cbn zeta. cbn [header transactions]. rewrite H1, H2, H3, H4.
  cbn [Z.eqb negb length Z.of_nat ensure lift mbind exec_bind andb]. rewrite !bool_decide_eq_true_2 by reflexivity. cbn [ensure lift mbind exec_bind].
  destruct (try_state_root_ok Hcap c (fun _ => EMPTY) (co_rooted _ _ Hc)) as (c2 & E2 & _).
  { intros seg Hin. rewrite (proj1 Hse) in Hin. now apply not_elem_of_empty in Hin. }
  rewrite E2, L, (bool_decide_eq_true_2 _ H5). cbn [ensure lift mbind exec_bind]. exists c2. reflexivity.
Qed.

Lemma depth_below chain b h : chain <> [] -> h < Z.of_nat (length chain) -> depth_at (chain ++ [b]) h = depth_at chain h.
Proof.
  intros Hne Hh. assert (length chain <> 0%nat) by now destruct chain. unfold depth_at. rewrite length_app. cbn [length].
  rewrite !Z.min_l by lia. rewrite lookup_app_l by lia. reflexivity.
Qed.

Lemma depth_tip chain b h : Z.of_nat (length chain) <= h -> depth_at (chain ++ [b]) h = Header.log_slots b.
Proof.
  intros Hh. unfold depth_at. rewrite length_app. cbn [length]. rewrite Z.min_r by lia.
  replace (Z.to_nat _) with (length chain) by lia. now rewrite list_lookup_middle.
Qed.

Lemma depth_last chain tip h : last chain = Some tip -> Z.of_nat (length chain) - 1 <= h -> depth_at chain h = Header.log_slots tip.
Proof.
  intros Hl Hh. unfold depth_at. rewrite Z.min_r by lia. rewrite last_lookup in Hl.
  replace (Z.to_nat _) with (pred (length chain)) by lia. now rewrite Hl.
Qed.

Context (Hcap : forall cols, 0 <= column_capacity (D := StateHash) cols).

(** A domain below one segment that can be rehashed has no evicted segment. *)
Lemma rehashable_small (c : ChainState (D := StateHash)) slots : state_ok (cs_state c) slots -> rehashable c -> (log_slots (cs_state c) < SEGMENT_LOG)%nat -> evicted (cs_state c) = ∅.
Proof.
  intros Hs Hre Hlt. specialize (Hre Hlt 0 ltac:(set_solver)). apply elem_of_equiv_empty_L. intros seg Hin. pose proof (ok_evicted _ _ Hs seg Hin) as Hb.
  rewrite (ok_num _ _ Hs), (ok_eff _ _ Hs) in Hb. replace (log_slots (cs_state c) - Nat.min _ _)%nat with 0%nat in Hb by lia. cbn in Hb.
  replace seg with 0 in Hin by lia. contradiction.
Qed.

Lemma rehashable_later (c c' : ChainState (D := StateHash)) slots : state_ok (cs_state c) slots -> rehashable c -> (log_slots (cs_state c) <= log_slots (cs_state c'))%nat ->
  evicted (cs_state c') = evicted (cs_state c) -> rehashable c'.
Proof.
  intros Hs Hre Hle Hev Hlt seg _. rewrite Hev, (rehashable_small c slots Hs Hre ltac:(lia)). apply not_elem_of_empty.
Qed.

Lemma extend_ok chain c slots tip block ts counts local_time anchor root c' : tip_state chain c slots tip ->
  Z.of_nat (length chain) < 2 ^ 63 -> Forall body_wf (transactions block) ->
  validate_block_consensus block tip ts counts local_time anchor c = Return (root, c') ->
  tip_state (chain ++ [header block]) c' (block_after c slots block) (header block)
  /\ cs_circulating_supply c' <= cs_circulating_supply c
     + allocation_issuance (expected_allocation ACTIVE_SCHEDULE (Z.of_nat (length chain)) (Header.log_slots (header block)))
  /\ (counted c slots -> Forall real_spends (transactions block) -> counted c' (block_after c slots block)).
Proof.
  intros [T1 T2 T3 T4 T5 T6 T7] Hlen Hw E. assert (Hn : chain <> []) by now intros ->.
  assert (Hpos : (0 < length chain)%nat) by (destruct chain; [contradiction|cbn; lia]).
  assert (Hp : parent_state c slots tip).
  { constructor; [exact T4|exact T5|exact T6|symmetry; exact (ho_log _ _ _ T3)|lia]. }
  pose proof (consensus_cases Hcap c slots block tip ts counts local_time anchor Hp Hw) as H. rewrite E in H.
  destruct H as ((Hhdr & _) & Hok & _ & Hc' & Hse' & _ & Hl' & Hev' & Ha & Hal & Hsup & Hct).
  pose proof (rt_state _ _ (co_rooted _ _ T4)) as Hs. pose proof (ok_log _ _ Hs) as H32. pose proof (ho_log _ _ _ T3) as Ht.
  destruct (accepted_header block tip (header_context ts counts anchor) local_time ltac:(lia) ltac:(lia) Hhdr) as (A1 & A2 & _).
  assert (Hheight : hdr_height (header block) = Z.of_nat (length chain)) by lia. rewrite Hheight in Hsup. split; [|split; [exact Hsup|exact Hct]].
  constructor; [apply last_snoc|rewrite length_app; cbn [length]; lia| |exact Hc'|exact Hse'|apply (rehashable_later c c' slots Hs T6 ltac:(lia) Hev')|].
  - constructor; [auto| |auto|auto]. rewrite (bk_root _ _ _ Hok). unfold block_after. f_equal. lia.
  - intros h h' Hh. destruct (Z_lt_ge_dec h' (Z.of_nat (length chain))); [rewrite !depth_below by (assumption || lia); now apply T7|].
    rewrite (depth_tip _ _ h') by lia. destruct (Z_lt_ge_dec h (Z.of_nat (length chain))); [|rewrite depth_tip by lia; lia].
    rewrite depth_below by assumption. transitivity (Header.log_slots tip); [|lia].
    rewrite <- (depth_last chain tip (Z.of_nat (length chain) - 1)) by (assumption || lia). apply T7. lia.
Qed.

Lemma moved_ok chain c c' slots tip : tip_state chain c slots tip -> rehashable c' -> same_ledger c c' slots -> tip_state chain c' slots tip.
Proof.
  intros [] Hre Hsame. pose proof (header_same _ _ _ _ ts_header0 Hsame). destruct Hsame. now constructor.
Qed.

Lemma ledger_ok blocks c : ledger blocks c -> Z.of_nat (length blocks) < 2 ^ 63 ->
  exists slots tip total, tip_state (header <$> blocks) c slots tip
    /\ issued ACTIVE_SCHEDULE (depth_at (header <$> blocks)) (pred (length blocks)) = Ok total /\ cs_circulating_supply c <= total
    /\ (real_blocks blocks -> counted c slots).
Proof.
  induction 1 as [log c block root c0 Hlog E Hl H|blocks tip c block ts counts local_time anchor root c' HL IH Htip Hw E|blocks c c' HL IH Hre Hmv]; intros Hlen.
  - destruct (genesis_ok log c block root c0 Hcap Hlog E Hl H) as (Ht & Hs & Hct). exists (fun _ => EMPTY), (header block), 0.
    split; [exact Ht|]. split; [reflexivity|]. split; [lia|auto].
  - rewrite length_app in Hlen. cbn [length] in Hlen. destruct IH as (slots & tip' & total & Ht & Hi & Hs & Hct); [lia|].
    assert (tip' = header tip) as -> by (pose proof (ts_last _ _ _ _ Ht) as Hl; rewrite fmap_last, Htip in Hl; now injection Hl).
    set (chain := header <$> blocks) in *. assert (Elen : length chain = length blocks) by apply length_fmap.
    destruct (extend_ok chain c slots (header tip) block ts counts local_time anchor root c' Ht ltac:(lia) Hw E) as (Ht' & Hs' & Hct').
    rewrite fmap_app. cbn [fmap list_fmap]. fold chain.
    do 3 eexists. split; [exact Ht'|]. rewrite length_app. cbn [length]. replace (pred (length blocks + 1)) with (S (pred (length blocks))).
    2:{ destruct blocks; [discriminate Htip|cbn; lia]. }
    assert (Hn : chain <> []) by (pose proof (ts_last _ _ _ _ Ht) as Hl; now intros E0; rewrite E0 in Hl).
    assert (length chain <> 0%nat) by now destruct chain.
    cbn [issued]. rewrite (issued_ext _ _ (depth_at chain)) by (intros h Hh; apply depth_below; [exact Hn|lia]). rewrite Hi. cbn [mbind result_bind].
    replace (Z.of_nat (S (pred (length blocks)))) with (Z.of_nat (length chain)) by lia.
    rewrite depth_tip, (allocation_eq _ _ _ ACTIVE_SCHEDULE_exact) by lia. cbn [mbind result_bind]. split; [reflexivity|]. split; [lia|].
    unfold real_blocks in *. rewrite Forall_app, Forall_singleton. tauto.
  - destruct IH as (slots & tip & total & Ht & Hi & Hs & Hct); [exact Hlen|]. pose proof (Hmv slots (ts_chain _ _ _ _ Ht) (ts_sealed _ _ _ _ Ht)) as Hsame.
    exists slots, tip, total. split; [exact (moved_ok _ _ _ _ _ Ht Hre Hsame)|]. split; [exact Hi|]. destruct Hsame as [_ _ L A _ Su].
    split; [lia|]. unfold counted in *. rewrite L, A. exact Hct.
Qed.
End Ledger.

(** ** Properties *)

(** C1. The ledger is sound.  Along every chain of fewer than [2^63] blocks that
    starts with an accepted genesis block and grows by blocks, of bodies within
    their types, that pass consensus validation, whatever is evicted or restored in between, the state stands for slots whose
    Merkle root and depth are those of the tip header, and its live count and
    allocator counter are the header's; heights count the headers; the derived
    supply is the sum of the slots and at most what the allocation schedule
    issues up to the tip, which is at most the gross subsidy of these blocks and
    50 NOID a block.  So no sequence of valid blocks inflates the supply.  The
    live count never exceeds the number of occupied slots; it is that number when
    no input along the chain claims what an empty slot holds, which consensus
    validation does not forbid. *)
Theorem ledger_sound {R : RawCommit StateHash} (blocks : list Block) (c : ChainState (D := StateHash)) :
  (forall cols, 0 <= column_capacity (D := StateHash) cols) -> ledger blocks c -> Z.of_nat (length blocks) < 2 ^ 63 ->
  let height := pred (length blocks) in let headers := header <$> blocks in
  exists slots tip total, tip_state headers c slots tip /\ cs_circulating_supply c = money slots (log_slots (cs_state c))
    /\ issued ACTIVE_SCHEDULE (depth_at headers) height = Ok total
    /\ cs_circulating_supply c <= total <= gross_subsidy ACTIVE_SCHEDULE (depth_at headers) height
    /\ cs_circulating_supply c <= 50000000 * Z.of_nat height
    /\ 0 <= Header.active_slot_count tip <= population slots (log_slots (cs_state c))
    /\ (real_blocks blocks -> Header.active_slot_count tip = population slots (log_slots (cs_state c))).
Proof.
  intros Hcap HL Hlen height headers. destruct (ledger_ok Hcap blocks c HL Hlen) as (slots & tip & total & Ht & Hi & Hs & Hct). fold height in Hi.
  destruct (issued_bound ACTIVE_SCHEDULE (depth_at headers) height ACTIVE_SCHEDULE_exact (ts_grows _ _ _ _ Ht)) as (t & Hi' & Hb).
  fold headers in Hi. rewrite Hi in Hi'. injection Hi' as <-. pose proof (gross_subsidy_bound ACTIVE_SCHEDULE (depth_at headers) height).
  exists slots, tip, total. split; [exact Ht|]. split; [exact (co_supply _ _ (ts_chain _ _ _ _ Ht))|]. split; [exact Hi|].
  split; [lia|]. split; [lia|]. rewrite (ho_active _ _ _ (ts_header _ _ _ _ Ht)). split; [exact (co_active _ _ (ts_chain _ _ _ _ Ht))|exact Hct].
Qed.

Lemma ledger_sound_witness : exists (c : ChainState (D := StateHash)) block slots tip,
  ledger (R := null_commit) [block] c /\ tip_state [header block] c slots tip /\ cs_circulating_supply c <= 0
  /\ Header.active_slot_count tip = population slots (log_slots (cs_state c)).
Proof.
  destruct (with_log_slots_ok (RawCommit0 := null_commit) (D := StateHash) 2 ltac:(lia)) as (c & E & Hc & Hse & L & Ev & Al & Ct).
  set (hdr := example_parent_header c).
  assert (Hact : cs_active_slot_count c = 0) by (unfold counted in Ct; rewrite Ct; apply total_empty; reflexivity).
  destruct (genesis_applies (R := null_commit) 2 c hdr (fun _ => Z.le_refl 0) ltac:(lia) E eq_refl eq_refl Hact Al) as (c0 & E0).
  { cbn [hdr example_parent_header Header.state_root]. now rewrite L. }
  assert (HL : ledger (R := null_commit) [mkBlock hdr []] c0).
  { apply (ledger_genesis (R := null_commit) 2 c (mkBlock hdr []) (Header.state_root hdr) c0 ltac:(lia) E); [|exact E0]. cbn [hdr example_parent_header header Header.log_slots]. now rewrite L. }
  destruct (ledger_sound (R := null_commit) [mkBlock hdr []] c0 (fun _ => Z.le_refl 0) HL ltac:(cbn; lia)) as (slots & tip & total & Ht & _ & _ & _ & Hs & _ & Hp).
  exists c0, (mkBlock hdr []), slots, tip. split; [exact HL|]. split; [exact Ht|]. split; [exact Hs|]. apply Hp. repeat constructor.
Defined.
