(* ===== verification/Mempool.v ===== *)
(** * The transaction pool ([noid_chain/src/mempool.rs])

    The conflict-free set of admitted spends with its fee index, its two slot
    maps and its pending values: admission, removal, eviction by anchor,
    confirmation of blocks, retained bytes and the selection for a block.  The
    indexes always describe the entries, and the selection is the greedy packing
    by fee rate. *)

From Stdlib Require Import ZArith Lia Bool Sorted.
From stdpp Require Import base numbers list option gmap.
From S2P Require Import Prelude Params Tx PagedSpend Contract Assembly Stream SparseMerkle HotSegments BlockApply BlockRules.
Open Scope Z_scope.

(** ** Data *)

Record MempoolEntry := mkEntry {
  en_pages : list TxPage;
  en_spend : PagedSpendFacts;
  en_admitted_height : Z;
  en_fee_rate : Z;
  en_cached_authorization_len : Z;
  en_intent_bytes : list Z
}.

Record BlockSelectionBudget := mkBudget {
  bu_pages : Z;
  bu_live_inputs : Z;
  bu_contract_calls : Z
}.

Definition pages_only (pages : Z) : BlockSelectionBudget := mkBudget pages (umax 64) (umax 64).

Inductive MempoolError :=
| AlreadyAdmitted
| InputConflict (conflicting_hash : list Z)
| OutputConflict (conflicting_hash : list Z)
| Full.

Definition FeeKey : Type := Z * list Z.
Definition FeeKey_new (fee_rate : Z) (hash : list Z) : FeeKey := (umax 64 - fee_rate, hash).

(** The derived order: first field, then bytes. *)
Definition fee_key_cmp (a b : FeeKey) : comparison :=
  match a.1 ?= b.1 with Eq => bytes_cmp a.2 b.2 | c => c end.

Record Mempool := mkMempool {
  entries : gmap (list Z) MempoolEntry;
  fee_index : gmap FeeKey (list Z);
  spent_inputs : gmap Z (list Z);
  minted_outputs : gmap Z (list Z);
  incoming_value_by_owner : gmap (list Z) Z;
  capacity : Z
}.

(** ** Entries *)

Definition compute_fee_rate (spend : PagedSpendFacts) : Z :=
  let n_inputs := ps_live_inputs spend in
  let n_outputs := ps_live_outputs spend in
  let net_new_slots := saturating_sub n_outputs n_inputs in
  let weight := Z.max (saturating_add 64 (saturating_add 64 n_inputs n_outputs) (saturating_mul 64 net_new_slots 4)) 1 in
  ps_fee spend / weight.

(** [get(start..end)] of a slice. *)
Definition slice_get (bytes : list Z) (start end_ : Z) : option (list Z) :=
  if (start <=? end_) && (end_ <=? Z.of_nat (length bytes))
  then Some (take (Z.to_nat (end_ - start)) (drop (Z.to_nat start) bytes)) else None.

Definition contract_prefix_bytes (e : MempoolEntry) : Z :=
  if bool_decide (take (length INTENT_MAGIC) (en_intent_bytes e) = INTENT_MAGIC) then INTENT_PREFIX_BYTES else 0.

(** Where the authorization starts in the intent of an entry. *)
Definition authorization_start (e : MempoolEntry) : option Z :=
  match paged_spend_authorization_wire_offset (Z.of_nat (length (en_pages e))) with
  | Ok offset => checked_add 64 offset (contract_prefix_bytes e)
  | Err _ => None
  end.

Definition cached_authorization (e : MempoolEntry) : option (list Z) :=
  let len := en_cached_authorization_len e in
  if len =? 0 then None
  else
    start ← authorization_start e;
    end_ ← checked_add 64 start len;
    slice_get (en_intent_bytes e) start end_.

Definition contract_opening_bytes (e : MempoolEntry) : option (list Z) :=
  let end_ := contract_prefix_bytes e in
  bytes ← slice_get (en_intent_bytes e) (Z.of_nat (length INTENT_MAGIC)) end_;
  if Z.of_nat (length bytes) =? OPENING_BYTES then Some bytes else None.

Section Pool.
(** The hashes of the hash crate. *)
Variable hash_tx8x2_leaves : list (Z * Z) -> list Z.
Variable sponge_pairs : list Z -> list (Z * Z) -> list Z.

Definition MempoolEntry_new (pages : list TxPage) (current_height : Z) : result PagedSpendError MempoolEntry :=
  spend ← validate_paged_spend hash_tx8x2_leaves sponge_pairs pages;
  Ok (mkEntry pages spend current_height (compute_fee_rate spend) 0 []).

(** ** The pool *)

Definition Mempool_new (capacity : Z) : Mempool := mkMempool ∅ ∅ ∅ ∅ ∅ capacity.
Definition with_default_capacity : Mempool := Mempool_new (BLOCK_MAX_TXS * 8).

Definition len (m : Mempool) : Z := Z.of_nat (size (entries m)).
Definition contains (m : Mempool) (hash : list Z) : bool := bool_decide (is_Some (entries m !! hash)).

(** [a.or_else(|| b)]. *)
Definition or_else {A} (a b : option A) : option A := match a with Some _ => a | None => b end.

Definition check_input (m : Mempool) (slot : Z) : result MempoolError unit :=
  match or_else (spent_inputs m !! slot) (minted_outputs m !! slot) with
  | Some existing => Err (InputConflict existing)
  | None => Ok tt
  end.

Definition check_output (m : Mempool) (slot : Z) : result MempoolError unit :=
  match or_else (minted_outputs m !! slot) (spent_inputs m !! slot) with
  | Some existing => Err (OutputConflict existing)
  | None => Ok tt
  end.

Definition insert_input (hash : list Z) (m : Mempool) (p : nat * TxInput) : Mempool :=
  mkMempool (entries m) (fee_index m) (<[in_slot_index p.2 := hash]> (spent_inputs m)) (minted_outputs m)
    (incoming_value_by_owner m) (capacity m).

Definition add_incoming (owner : list Z) (incoming : gmap (list Z) Z) (o : TxOutput) : gmap (list Z) Z :=
  if bool_decide (out_owner o = owner) then incoming
  else
    match incoming !! out_owner o with
    | Some value => <[out_owner o := saturating_add 64 value (out_amount o)]> incoming
    | None => <[out_owner o := out_amount o]> incoming
    end.

Definition insert_output (hash owner : list Z) (m : Mempool) (p : nat * TxOutput) : Mempool :=
  mkMempool (entries m) (fee_index m) (spent_inputs m) (<[out_slot_index p.2 := hash]> (minted_outputs m))
    (add_incoming owner (incoming_value_by_owner m) p.2) (capacity m).

Definition insert_page (hash owner : list Z) (m : Mempool) (page : TxPage) : Mempool :=
  foldl (insert_output hash owner) (foldl (insert_input hash) m (live_inputs page)) (live_outputs page).

(** A group that is not valid panics. *)
Definition Mempool_admit (m : Mempool) (pages : list TxPage) (current_height : Z) : exec MempoolError Mempool :=
  if capacity m <=? len m then Fail Full
  else
    match MempoolEntry_new pages current_height with
    | Err _ => Panic
    | Ok entry =>
        let hash := ps_logical_txid (en_spend entry) in
        if contains m hash then Fail AlreadyAdmitted
        else
          _ ← lift (fold_result (fun _ p => check_input m (in_slot_index p.2)) tt (en_pages entry ≫= live_inputs));
          _ ← lift (fold_result (fun _ p => check_output m (out_slot_index p.2)) tt (en_pages entry ≫= live_outputs));
          let m := foldl (insert_page hash (ps_input_owner (en_spend entry))) m (en_pages entry) in
          mret (mkMempool (<[hash := entry]> (entries m)) (<[FeeKey_new (en_fee_rate entry) hash := hash]> (fee_index m))
                  (spent_inputs m) (minted_outputs m) (incoming_value_by_owner m) (capacity m))
    end.

Definition delete_input (m : Mempool) (p : nat * TxInput) : Mempool :=
  mkMempool (entries m) (fee_index m) (delete (in_slot_index p.2) (spent_inputs m)) (minted_outputs m)
    (incoming_value_by_owner m) (capacity m).

Definition sub_incoming (owner : list Z) (incoming : gmap (list Z) Z) (o : TxOutput) : gmap (list Z) Z :=
  if bool_decide (out_owner o = owner) then incoming
  else
    match incoming !! out_owner o with
    | Some value =>
        let value := saturating_sub value (out_amount o) in
        if value =? 0 then delete (out_owner o) incoming else <[out_owner o := value]> incoming
    | None => incoming
    end.

Definition delete_output (owner : list Z) (m : Mempool) (p : nat * TxOutput) : Mempool :=
  mkMempool (entries m) (fee_index m) (spent_inputs m) (delete (out_slot_index p.2) (minted_outputs m))
    (sub_incoming owner (incoming_value_by_owner m) p.2) (capacity m).

Definition delete_page (owner : list Z) (m : Mempool) (page : TxPage) : Mempool :=
  foldl (delete_output owner) (foldl delete_input m (live_inputs page)) (live_outputs page).

Definition remove (m : Mempool) (hash : list Z) : option MempoolEntry * Mempool :=
  match entries m !! hash with
  | None => (None, m)
  | Some entry =>
      let m := mkMempool (delete hash (entries m)) (delete (FeeKey_new (en_fee_rate entry) hash) (fee_index m))
                 (spent_inputs m) (minted_outputs m) (incoming_value_by_owner m) (capacity m) in
      (Some entry, foldl (delete_page (ps_input_owner (en_spend entry))) m (en_pages entry))
  end.

(** The order of the expired ids is that of the hash map. *)
Definition evict_wrong_anchor (m : Mempool) (current_anchor : list Z) : list (list Z) * Mempool :=
  let expired := fst <$> filter (fun p => ps_epoch_anchor (en_spend p.2) <> current_anchor) (map_to_list (entries m)) in
  (expired, foldl (fun m hash => (remove m hash).2) m expired).

Definition on_block_confirmed (m : Mempool) (confirmed : list (list Z)) : Z * Mempool :=
  foldl (fun s hash => match remove s.2 hash with (Some _, m) => (s.1 + 1, m) | (None, m) => (s.1, m) end) (0, m) confirmed.

Definition with_intent (e : MempoolEntry) (bytes : list Z) (authorization_len : Z) : MempoolEntry :=
  mkEntry (en_pages e) (en_spend e) (en_admitted_height e) (en_fee_rate e) authorization_len bytes.

Definition set_intent_bytes (m : Mempool) (hash bytes : list Z) : Mempool :=
  match entries m !! hash with
  | None => m
  | Some entry =>
      let entry := with_intent entry bytes (en_cached_authorization_len entry) in
      let suffix := offset ← authorization_start entry;
                    len ← checked_sub (Z.of_nat (length bytes)) offset;
                    if len <? 2 ^ 32 then Some len else None in
      mkMempool (<[hash := with_intent entry bytes (default 0 suffix)]> (entries m)) (fee_index m) (spent_inputs m) (minted_outputs m)
        (incoming_value_by_owner m) (capacity m)
  end.

(** ** Selection *)

(** The values of the fee index in key order. *)
Definition fee_index_values (m : Mempool) : list (list Z) :=
  snd <$> sort_by (fun a b => fee_key_cmp a.1 b.1) (map_to_list (fee_index m)).

Definition contract_calls (e : MempoolEntry) : Z :=
  Z.of_nat (length (filter (fun page => Z.land (validity_bitmap page) PAGED_SPEND_CONTRACT_BIT <> 0) (en_pages e))).

Fixpoint select_loop (m : Mempool) (keep : MempoolEntry -> bool) (hashes : list (list Z)) (pages inputs calls : Z)
  : list MempoolEntry :=
  match hashes with
  | [] => []
  | hash :: hashes =>
      match entries m !! hash with
      | None => select_loop m keep hashes pages inputs calls
      | Some entry =>
          if negb (keep entry) then select_loop m keep hashes pages inputs calls
          else
            let entry_pages := Z.of_nat (length (en_pages entry)) in
            let entry_inputs := ps_live_inputs (en_spend entry) in
            let entry_calls := contract_calls entry in
            if (pages <? entry_pages) || (inputs <? entry_inputs) || (calls <? entry_calls)
            then select_loop m keep hashes pages inputs calls
            else
              let pages := pages - entry_pages in
              entry :: if pages =? 0 then []
                       else select_loop m keep hashes pages (inputs - entry_inputs) (calls - entry_calls)
      end
  end.

Definition select_for_block_matching (m : Mempool) (budget : BlockSelectionBudget) (keep : MempoolEntry -> bool) : list MempoolEntry :=
  let remaining_pages := Z.min (bu_pages budget) BLOCK_MAX_USER_PAGES in
  if (remaining_pages =? 0) || (bu_live_inputs budget =? 0) then []
  else select_loop m keep (fee_index_values m) remaining_pages (bu_live_inputs budget) (bu_contract_calls budget).

Definition select_for_block (m : Mempool) (max_pages : Z) : list MempoolEntry :=
  select_for_block_matching m (pages_only max_pages) (fun _ => true).

Definition select_for_block_with_budget (m : Mempool) (budget : BlockSelectionBudget) (epoch_anchor : list Z) : list MempoolEntry :=
  select_for_block_matching m budget (fun e => bool_decide (ps_epoch_anchor (en_spend e) = epoch_anchor)).

Definition select_for_block_at_anchor (m : Mempool) (max_pages : Z) (epoch_anchor : list Z) : list MempoolEntry :=
  select_for_block_matching m (pages_only max_pages) (fun e => bool_decide (ps_epoch_anchor (en_spend e) = epoch_anchor)).

(** ** Serving *)

(** The loop over the map; [known] is sorted, so the binary search is membership. *)
Fixpoint missing_loop (known : list (list Z)) (max_txs max_total_bytes max_tx_bytes : Z) (l : list (list Z * MempoolEntry))
    (count total : Z) : list (list Z) :=
  match l with
  | [] => []
  | (txid, entry) :: l =>
      if count =? max_txs then []
      else
        let bytes := en_intent_bytes entry in
        let size := Z.of_nat (length bytes) in
        if bool_decide (txid ∈ known) || (size =? 0) || (max_tx_bytes <? size)
        then missing_loop known max_txs max_total_bytes max_tx_bytes l count total
        else
          match checked_add 64 total size with
          | None => []
          | Some next_total =>
              if max_total_bytes <? next_total then []
              else bytes :: missing_loop known max_txs max_total_bytes max_tx_bytes l (count + 1) next_total
          end
  end.

Definition intent_bytes_missing (m : Mempool) (known : list (list Z)) (max_txs max_total_bytes max_tx_bytes : Z) : list (list Z) :=
  missing_loop known max_txs max_total_bytes max_tx_bytes (map_to_list (entries m)) 0 0.

Definition total_fees (m : Mempool) : Z :=
  foldl (fun a p => saturating_add 64 a (ps_fee (en_spend p.2))) 0 (map_to_list (entries m)).

Definition pending_incoming_for_owner (m : Mempool) (owner : list Z) : Z := default 0 (incoming_value_by_owner m !! owner).

End Pool.

(** ** What the indexes say *)

Definition slots_in (pages : list TxPage) : list Z := pages ≫= Assembly.in_slots.
Definition slots_out (pages : list TxPage) : list Z := pages ≫= Assembly.out_slots.
Definition page_outputs (pages : list TxPage) : list TxOutput := pages ≫= (fun b => snd <$> live_outputs b).
Definition slots_of (e : MempoolEntry) : list Z := slots_in (en_pages e) ++ slots_out (en_pages e).

(** The value that outputs send to [to], change to [owner] left out. *)
Definition value_to (owner : list Z) (outs : list TxOutput) (to : list Z) : Z :=
  Zsum ((fun o => if bool_decide (out_owner o = to) && negb (bool_decide (out_owner o = owner)) then out_amount o else 0) <$> outs).

Definition entry_value (to : list Z) (p : list Z * MempoolEntry) : Z :=
  value_to (ps_input_owner (en_spend p.2)) (page_outputs (en_pages p.2)) to.

Definition pending (m : Mempool) (to : list Z) : Z := Zsum (entry_value to <$> map_to_list (entries m)).

Section Invariant.
Variable hash_tx8x2_leaves : list (Z * Z) -> list Z.
Variable sponge_pairs : list Z -> list (Z * Z) -> list Z.
Abbreviation validate := (validate_paged_spend hash_tx8x2_leaves sponge_pairs).
Abbreviation Mempool_admit := (Mempool_admit hash_tx8x2_leaves sponge_pairs).

Record entry_ok (hash : list Z) (e : MempoolEntry) : Prop := {
  eo_wf : Forall body_wf (en_pages e);
  eo_spend : validate (en_pages e) = Ok (en_spend e);
  eo_hash : ps_logical_txid (en_spend e) = hash;
  eo_rate : en_fee_rate e = compute_fee_rate (en_spend e)
}.

Record pool_ok (m : Mempool) : Prop := {
  po_entry : forall h e, entries m !! h = Some e -> entry_ok h e;
  po_index : forall k h, fee_index m !! k = Some h <-> exists e, entries m !! h = Some e /\ k = FeeKey_new (en_fee_rate e) h;
  po_spent : forall s h, spent_inputs m !! s = Some h <-> exists e, entries m !! h = Some e /\ s ∈ slots_in (en_pages e);
  po_minted : forall s h, minted_outputs m !! s = Some h <-> exists e, entries m !! h = Some e /\ s ∈ slots_out (en_pages e);
  po_apart : forall h1 e1 h2 e2 s, entries m !! h1 = Some e1 -> entries m !! h2 = Some e2 -> s ∈ slots_of e1 -> s ∈ slots_of e2 -> h1 = h2;
  po_capacity : len m <= capacity m
}.

(** The tracked values are the pending ones. *)
Definition incoming_ok (m : Mempool) : Prop := forall to, pending_incoming_for_owner m to = pending m to.

(** ** Loops over pages *)

Definition insert_all (hash : list Z) (l : list Z) (acc : gmap Z (list Z)) : gmap Z (list Z) := foldl (fun acc s => <[s := hash]> acc) acc l.
Definition delete_all (l : list Z) (acc : gmap Z (list Z)) : gmap Z (list Z) := foldl (fun acc s => delete s acc) acc l.

Lemma insert_all_lookup hash l s : forall acc, insert_all hash l acc !! s = if bool_decide (s ∈ l) then Some hash else acc !! s.
Proof.
  induction l as [|x l IH]; intros acc; [reflexivity|]. unfold insert_all in *. cbn [foldl]. rewrite IH.
  destruct (decide (s ∈ l)) as [E|E]; [rewrite (bool_decide_eq_true_2 (s ∈ l) E), bool_decide_eq_true_2 by (now right); reflexivity|].
  rewrite (bool_decide_eq_false_2 (s ∈ l) E). destruct (decide (s = x)) as [->|Hne].
  - rewrite lookup_insert_eq, bool_decide_eq_true_2 by now left. reflexivity.
  - rewrite lookup_insert_ne, bool_decide_eq_false_2 by (set_solver || congruence). reflexivity.
Qed.

Lemma delete_all_lookup l s : forall acc, delete_all l acc !! s = if bool_decide (s ∈ l) then None else acc !! s.
Proof.
  induction l as [|x l IH]; intros acc; [reflexivity|]. unfold delete_all in *. cbn [foldl]. rewrite IH.
  destruct (decide (s ∈ l)) as [E|E]; [rewrite (bool_decide_eq_true_2 (s ∈ l) E), bool_decide_eq_true_2 by (now right); reflexivity|].
  rewrite (bool_decide_eq_false_2 (s ∈ l) E). destruct (decide (s = x)) as [->|Hne].
  - rewrite lookup_delete_eq, bool_decide_eq_true_2 by now left. reflexivity.
  - rewrite lookup_delete_ne, bool_decide_eq_false_2 by (set_solver || congruence). reflexivity.
Qed.

Lemma insert_pages_eq hash owner pages : forall m, foldl (insert_page hash owner) m pages
  = mkMempool (entries m) (fee_index m) (insert_all hash (slots_in pages) (spent_inputs m)) (insert_all hash (slots_out pages) (minted_outputs m))
      (foldl (add_incoming owner) (incoming_value_by_owner m) (page_outputs pages)) (capacity m).
Proof.
  assert (Hin : forall l m, foldl (insert_input hash) m l
    = mkMempool (entries m) (fee_index m) (insert_all hash ((fun p => in_slot_index p.2) <$> l) (spent_inputs m)) (minted_outputs m)
        (incoming_value_by_owner m) (capacity m)).
  { induction l as [|p l IH]; intros m; [now destruct m|]. cbn [foldl fmap list_fmap]. rewrite IH. reflexivity. }
  assert (Hout : forall l m, foldl (insert_output hash owner) m l
    = mkMempool (entries m) (fee_index m) (spent_inputs m) (insert_all hash ((fun p => out_slot_index p.2) <$> l) (minted_outputs m))
        (foldl (add_incoming owner) (incoming_value_by_owner m) (snd <$> l)) (capacity m)).
  { induction l as [|p l IH]; intros m; [now destruct m|]. cbn [foldl fmap list_fmap]. rewrite IH. reflexivity. }
  induction pages as [|b pages IH]; intros m; [now destruct m|]. cbn [foldl]. rewrite IH. unfold insert_page. rewrite Hout, Hin.
  cbn [entries fee_index spent_inputs minted_outputs incoming_value_by_owner capacity]. unfold slots_in, slots_out, page_outputs, insert_all.
  rewrite !bind_cons, !foldl_app. reflexivity.
Qed.

Lemma delete_pages_eq owner pages : forall m, foldl (delete_page owner) m pages
  = mkMempool (entries m) (fee_index m) (delete_all (slots_in pages) (spent_inputs m)) (delete_all (slots_out pages) (minted_outputs m))
      (foldl (sub_incoming owner) (incoming_value_by_owner m) (page_outputs pages)) (capacity m).
Proof.
  assert (Hin : forall l m, foldl delete_input m l
    = mkMempool (entries m) (fee_index m) (delete_all ((fun p => in_slot_index p.2) <$> l) (spent_inputs m)) (minted_outputs m)
        (incoming_value_by_owner m) (capacity m)).
  { induction l as [|p l IH]; intros m; [now destruct m|]. cbn [foldl fmap list_fmap]. rewrite IH. reflexivity. }
  assert (Hout : forall l m, foldl (delete_output owner) m l
    = mkMempool (entries m) (fee_index m) (spent_inputs m) (delete_all ((fun p => out_slot_index p.2) <$> l) (minted_outputs m))
        (foldl (sub_incoming owner) (incoming_value_by_owner m) (snd <$> l)) (capacity m)).
  { induction l as [|p l IH]; intros m; [now destruct m|]. cbn [foldl fmap list_fmap]. rewrite IH. reflexivity. }
  induction pages as [|b pages IH]; intros m; [now destruct m|]. cbn [foldl]. rewrite IH. unfold delete_page. rewrite Hout, Hin.
  cbn [entries fee_index spent_inputs minted_outputs incoming_value_by_owner capacity]. unfold slots_in, slots_out, page_outputs, delete_all.
  rewrite !bind_cons, !foldl_app. reflexivity.
Qed.

(** ** Pending values *)

Lemma value_to_cons owner o outs to : value_to owner (o :: outs) to
  = (if bool_decide (out_owner o = to) && negb (bool_decide (out_owner o = owner)) then out_amount o else 0) + value_to owner outs to.
Proof. unfold value_to. cbn [fmap list_fmap]. apply Zsum_cons. Qed.

Lemma value_to_nonneg owner outs to : Forall (fun o => 0 <= out_amount o) outs -> 0 <= value_to owner outs to.
Proof.
  induction 1 as [|o outs Ho H IH]; [cbn; lia|]. rewrite value_to_cons. destruct (_ && _); lia.
Qed.

Lemma value_to_le owner outs to : Forall (fun o => 0 <= out_amount o) outs -> value_to owner outs to <= Zsum (out_amount <$> outs).
Proof.
  induction 1 as [|o outs Ho H IH]; [cbn; lia|]. rewrite value_to_cons. cbn [fmap list_fmap]. rewrite Zsum_cons. destruct (_ && _); lia.
Qed.

Lemma add_incoming_ok owner outs : Forall (fun o => 0 <= out_amount o) outs -> forall inc,
  (forall to, 0 <= default 0 (inc !! to)) -> (forall to, default 0 (inc !! to) + value_to owner outs to < 2 ^ 64) ->
  forall to, default 0 (foldl (add_incoming owner) inc outs !! to) = default 0 (inc !! to) + value_to owner outs to.
Proof.
  induction 1 as [|o outs Ho Hout IH]; intros inc H0 Hb to; [unfold value_to; cbn; lia|]. cbn [foldl].
  assert (Hstep : forall to', default 0 (add_incoming owner inc o !! to')
    = default 0 (inc !! to') + (if bool_decide (out_owner o = to') && negb (bool_decide (out_owner o = owner)) then out_amount o else 0)).
  { intros to'. unfold add_incoming. destruct (decide (out_owner o = owner)) as [E|E].
    - rewrite (bool_decide_eq_true_2 _ E), andb_false_r. lia.
    - rewrite (bool_decide_eq_false_2 _ E). cbn [negb]. rewrite andb_true_r. pose proof (Hb (out_owner o)) as Hlim. rewrite value_to_cons in Hlim.
      rewrite (bool_decide_eq_false_2 _ E), bool_decide_eq_true_2 in Hlim by reflexivity. cbn [negb andb] in Hlim.
      pose proof (value_to_nonneg owner outs (out_owner o) Hout). destruct (decide (out_owner o = to')) as [<-|Hne].
      + rewrite bool_decide_eq_true_2 by reflexivity. destruct (inc !! out_owner o) as [v|] eqn:Ev; rewrite lookup_insert_eq; cbn [default from_option id] in *; [|lia].
        unfold saturating_add, umax. lia.
      + rewrite (bool_decide_eq_false_2 _ Hne). destruct (inc !! out_owner o); rewrite lookup_insert_ne by exact Hne; lia. }
  rewrite IH.
  - rewrite Hstep, value_to_cons. lia.
  - intros to'. rewrite Hstep. specialize (H0 to'). destruct (_ && _); lia.
  - intros to'. rewrite Hstep. specialize (Hb to'). rewrite value_to_cons in Hb. lia.
Qed.

Lemma sub_incoming_ok owner outs : Forall (fun o => 0 <= out_amount o) outs -> forall inc,
  (forall to, value_to owner outs to <= default 0 (inc !! to)) ->
  forall to, default 0 (foldl (sub_incoming owner) inc outs !! to) = default 0 (inc !! to) - value_to owner outs to.
Proof.
  induction 1 as [|o outs Ho Hout IH]; intros inc Hb to; [unfold value_to; cbn; lia|]. cbn [foldl].
  assert (Hstep : forall to', default 0 (sub_incoming owner inc o !! to')
    = default 0 (inc !! to') - (if bool_decide (out_owner o = to') && negb (bool_decide (out_owner o = owner)) then out_amount o else 0)).
  { intros to'. unfold sub_incoming. destruct (decide (out_owner o = owner)) as [E|E].
    - rewrite (bool_decide_eq_true_2 _ E), andb_false_r. lia.
    - rewrite (bool_decide_eq_false_2 _ E). cbn [negb]. rewrite andb_true_r. pose proof (Hb (out_owner o)) as Hlim. rewrite value_to_cons in Hlim.
      rewrite (bool_decide_eq_false_2 _ E), bool_decide_eq_true_2 in Hlim by reflexivity. cbn [negb andb] in Hlim.
      pose proof (value_to_nonneg owner outs (out_owner o) Hout). unfold saturating_sub.
      destruct (decide (out_owner o = to')) as [<-|Hne].
      + rewrite bool_decide_eq_true_2 by reflexivity. destruct (inc !! out_owner o) as [v|] eqn:Ev; cbn [default from_option id] in *; [|rewrite Ev; cbn; lia].
        destruct (Z.eqb_spec (Z.max (v - out_amount o) 0) 0); [rewrite lookup_delete_eq|rewrite lookup_insert_eq]; cbn [default from_option id]; lia.
      + rewrite (bool_decide_eq_false_2 _ Hne). destruct (inc !! out_owner o) as [v|]; [|lia].
        destruct (_ =? 0); [rewrite lookup_delete_ne by exact Hne|rewrite lookup_insert_ne by exact Hne]; lia. }
  rewrite IH.
  - rewrite Hstep, value_to_cons. lia.
  - intros to'. rewrite Hstep. specialize (Hb to'). rewrite value_to_cons in Hb. lia.
Qed.

Lemma pending_insert h e m m' to : entries m !! h = None -> entries m' = <[h := e]> (entries m) -> pending m' to = entry_value to (h, e) + pending m to.
Proof.
  intros Hn E. unfold pending. rewrite E, map_to_list_insert by exact Hn. apply Zsum_cons.
Qed.

Lemma pending_delete h e m m' to : entries m !! h = Some e -> entries m' = delete h (entries m) -> pending m to = entry_value to (h, e) + pending m' to.
Proof.
  intros Hs E. unfold pending. rewrite E, <- (map_to_list_delete _ _ _ Hs). apply Zsum_cons.
Qed.

(** ** Facts of an entry *)

Lemma amounts_nonneg pages : Forall body_wf pages -> Forall (fun o => 0 <= out_amount o) (page_outputs pages).
Proof.
  intros Hw. apply Forall_forall. intros o Ho. apply list_elem_of_bind in Ho as (b & Ho & Hb). apply list_elem_of_fmap in Ho as ([i o'] & -> & Hp).
  rewrite Forall_forall in Hw. destruct (wf_outputs _ (Hw b Hb)) as [_ Hf]. apply list_elem_of_filter in Hp as [_ Hp].
  apply (list_elem_of_fmap_2 snd) in Hp. rewrite enumerate_snd in Hp. rewrite Forall_forall in Hf. destruct (Hf _ Hp) as (_ & [H _] & _). exact H.
Qed.

Lemma entry_facts h e : entry_ok h e -> (1 <= length (en_pages e))%nat /\ 1 <= ps_live_inputs (en_spend e)
  /\ NoDup (slots_of e).
Proof.
  intros [Hw Hv _ _]. apply (validate_paged_spend_valid _ _ _ _ Hw) in Hv as (first & V & ->). split; [apply (vs_count _ _ V)|].
  split; [exact (proj1 (vs_inputs _ _ V))|]. unfold slots_of, slots_in, slots_out. destruct (spend_slots (en_pages e)) as [<- <-]. exact (vs_slots _ _ V).
Qed.

Lemma pending_total_nonneg m to : pool_ok m -> 0 <= pending m to.
Proof.
  intros Hm. unfold pending. apply Zsum_nonneg. apply Forall_fmap, Forall_forall. intros [h e] Hin. apply elem_of_map_to_list in Hin.
  apply value_to_nonneg, amounts_nonneg. exact (eo_wf _ _ (po_entry _ Hm _ _ Hin)).
Qed.

(** ** Removal *)

Lemma remove_shape m h e : entries m !! h = Some e -> remove m h
  = (Some e, mkMempool (delete h (entries m)) (delete (FeeKey_new (en_fee_rate e) h) (fee_index m))
      (delete_all (slots_in (en_pages e)) (spent_inputs m)) (delete_all (slots_out (en_pages e)) (minted_outputs m))
      (foldl (sub_incoming (ps_input_owner (en_spend e))) (incoming_value_by_owner m) (page_outputs (en_pages e))) (capacity m)).
Proof. intros E. unfold remove. rewrite E. cbn zeta. now rewrite delete_pages_eq. Qed.

Lemma remove_entries m h : entries (remove m h).2 = delete h (entries m).
Proof.
  destruct (entries m !! h) as [e|] eqn:E; [now rewrite (remove_shape m h e E)|]. unfold remove. rewrite E. symmetry. now apply delete_id.
Qed.

(** The map of one kind of slots after a removal. *)
Lemma delete_slots_ok (kind : list TxPage -> list Z) (x : gmap Z (list Z)) m h e s h' :
  (forall s h, x !! s = Some h <-> exists e, entries m !! h = Some e /\ s ∈ kind (en_pages e)) ->
  (forall pages i, i ∈ kind pages -> i ∈ slots_in pages ++ slots_out pages) ->
  pool_ok m -> entries m !! h = Some e ->
  delete_all (kind (en_pages e)) x !! s = Some h' <-> exists e', delete h (entries m) !! h' = Some e' /\ s ∈ kind (en_pages e').
Proof.
  intros Hx Hk Hm E. rewrite delete_all_lookup. destruct (decide (s ∈ kind (en_pages e))) as [Hin|Hin].
  - rewrite (bool_decide_eq_true_2 _ Hin). split; [discriminate|]. intros (e' & He' & Hin'). apply lookup_delete_Some in He' as [Hne He'].
    destruct Hne. exact (po_apart _ Hm _ _ _ _ s E He' (Hk _ _ Hin) (Hk _ _ Hin')).
  - rewrite (bool_decide_eq_false_2 _ Hin), Hx. split; intros (e' & He' & Hin').
    + exists e'. split; [|exact Hin']. apply lookup_delete_Some. split; [|exact He']. intros <-. rewrite E in He'. injection He' as <-. contradiction.
    + apply lookup_delete_Some in He' as [_ He']. eauto.
Qed.

Lemma kind_in pages i : i ∈ slots_in pages -> i ∈ slots_in pages ++ slots_out pages.
Proof. intros H. apply elem_of_app. now left. Qed.

Lemma kind_out pages i : i ∈ slots_out pages -> i ∈ slots_in pages ++ slots_out pages.
Proof. intros H. apply elem_of_app. now right. Qed.

Lemma remove_ok m h : pool_ok m -> pool_ok (remove m h).2 /\ (incoming_ok m -> incoming_ok (remove m h).2).
Proof.
  intros Hm. destruct (entries m !! h) as [e|] eqn:E; [|unfold remove; rewrite E; auto]. pose proof (remove_entries m h) as Hent.
  rewrite (remove_shape m h e E) in *. cbn [snd] in *. split.
  - constructor; cbn [entries fee_index spent_inputs minted_outputs capacity].
    + intros h' e' [_ H]%lookup_delete_Some. exact (po_entry _ Hm _ _ H).
    + intros k h'. rewrite lookup_delete_Some, (po_index _ Hm). split.
      * intros (Hk & e' & He' & ->). exists e'. split; [|reflexivity]. apply lookup_delete_Some. split; [|exact He'].
        intros <-. apply Hk. congruence.
      * intros (e' & [Hne He']%lookup_delete_Some & ->). split; [|eauto]. intros H. apply Hne. now injection H.
    + intros s h'. apply (delete_slots_ok slots_in); [exact (po_spent _ Hm)|exact kind_in|exact Hm|exact E].
    + intros s h'. apply (delete_slots_ok slots_out); [exact (po_minted _ Hm)|exact kind_out|exact Hm|exact E].
    + intros h1 e1 h2 e2 s [_ H1]%lookup_delete_Some [_ H2]%lookup_delete_Some. exact (po_apart _ Hm _ _ _ _ s H1 H2).
    + unfold len. cbn [entries]. pose proof (po_capacity _ Hm) as Hc. unfold len in Hc. rewrite map_size_delete, E. lia.
  - intros Hi to. set (m' := mkMempool _ _ _ _ _ _) in *. pose proof (po_entry _ Hm _ _ E) as He.
    assert (Hd : forall to', pending m to' = entry_value to' (h, e) + pending m' to') by (intros to'; now apply pending_delete).
    assert (H0 : forall to', 0 <= pending m' to').
    { intros to'. unfold pending. apply Zsum_nonneg. apply Forall_fmap, Forall_forall. intros [h1 e1] Hin. apply elem_of_map_to_list in Hin.
      rewrite Hent in Hin. apply lookup_delete_Some in Hin as [_ Hin]. apply value_to_nonneg, amounts_nonneg. exact (eo_wf _ _ (po_entry _ Hm _ _ Hin)). }
    unfold pending_incoming_for_owner. cbn [m' incoming_value_by_owner].
    rewrite sub_incoming_ok; [|now apply amounts_nonneg, (eo_wf _ _ He)|].
    + specialize (Hi to). unfold pending_incoming_for_owner in Hi. rewrite Hi, Hd. unfold entry_value. cbn [snd]. lia.
    + intros to'. specialize (Hi to'). unfold pending_incoming_for_owner in Hi. rewrite Hi, Hd. specialize (H0 to'). unfold entry_value. cbn [snd]. lia.
Qed.

Lemma removes_ok l : forall m, pool_ok m -> let m' := foldl (fun m hash => (remove m hash).2) m l in
  pool_ok m' /\ (incoming_ok m -> incoming_ok m') /\ forall h, entries m' !! h = if bool_decide (h ∈ l) then None else entries m !! h.
Proof.
  induction l as [|x l IH]; intros m Hm; cbn zeta; [auto|]. cbn [foldl]. destruct (remove_ok m x Hm) as [H1 H2].
  destruct (IH _ H1) as (I1 & I2 & I3). split; [exact I1|]. split; [auto|]. intros h. rewrite I3, remove_entries.
  destruct (decide (h ∈ l)) as [E|E]; [rewrite (bool_decide_eq_true_2 _ E), bool_decide_eq_true_2 by (now right); reflexivity|].
  rewrite (bool_decide_eq_false_2 _ E). destruct (decide (h = x)) as [->|Hne].
  - rewrite lookup_delete_eq, bool_decide_eq_true_2 by now left. reflexivity.
  - rewrite lookup_delete_ne, bool_decide_eq_false_2 by (set_solver || congruence). reflexivity.
Qed.

(** ** Admission *)

(** A slot is claimed when an entry spends or mints it. *)
Lemma claimed_iff m s h : pool_ok m ->
  (spent_inputs m !! s = Some h \/ minted_outputs m !! s = Some h) <-> exists e, entries m !! h = Some e /\ s ∈ slots_of e.
Proof.
  intros Hm. rewrite (po_spent _ Hm), (po_minted _ Hm). unfold slots_of. setoid_rewrite elem_of_app. split.
  - intros [(e & E & H)|(e & E & H)]; eauto.
  - intros (e & E & [H|H]); eauto.
Qed.

(** The first claimed slot of a list stops the check. *)
Lemma fold_check {A} (slot : A -> Z) (check : Z -> result MempoolError unit) l :
  match fold_result (fun _ p => check (slot p)) tt l with
  | Ok _ => forall x, x ∈ l -> check (slot x) = Ok tt
  | Err e => exists x, x ∈ l /\ check (slot x) = Err e
  end.
Proof.
  induction l as [|x l IH]; cbn [fold_result]; [intros x Hx; now apply not_elem_of_nil in Hx|].
  destruct (check (slot x)) as [[]|e] eqn:E; cbn [mbind result_bind]; [|exists x; split; [now left|exact E]].
  destruct (fold_result _ tt l) as [u|e].
  - intros y [->|Hy]%elem_of_cons; auto.
  - destruct IH as (y & Hy & Ey). exists y. split; [now right|exact Ey].
Qed.

Lemma slots_bind {A} (f : TxBody -> list (nat * A)) (slot : A -> Z) pages s :
  s ∈ pages ≫= (fun b => (fun p => slot p.2) <$> f b) <-> exists p, p ∈ pages ≫= f /\ s = slot p.2.
Proof.
  rewrite list_elem_of_bind. split.
  - intros (b & Hs & Hb). apply list_elem_of_fmap in Hs as (p & -> & Hp). exists p. split; [|reflexivity]. apply list_elem_of_bind. eauto.
  - intros (p & Hp & ->). apply list_elem_of_bind in Hp as (b & Hp & Hb). exists b. split; [|exact Hb]. apply list_elem_of_fmap. eauto.
Qed.

Definition unclaimed (m : Mempool) (s : Z) : Prop := forall h e, entries m !! h = Some e -> s ∉ slots_of e.

Lemma check_input_cases m s : pool_ok m ->
  match check_input m s with
  | Ok _ => unclaimed m s
  | Err (InputConflict h) => exists e, entries m !! h = Some e /\ s ∈ slots_of e
  | Err _ => False
  end.
Proof.
  intros Hm. unfold check_input, or_else. pose proof (claimed_iff m s) as Hc.
  destruct (spent_inputs m !! s) as [h|] eqn:E1; [apply (Hc h Hm); auto|]. destruct (minted_outputs m !! s) as [h|] eqn:E2; [apply (Hc h Hm); auto|].
  intros h e He Hs. destruct (proj2 (Hc h Hm) (ex_intro _ e (conj He Hs))); congruence.
Qed.

Lemma check_output_cases m s : pool_ok m ->
  match check_output m s with
  | Ok _ => unclaimed m s
  | Err (OutputConflict h) => exists e, entries m !! h = Some e /\ s ∈ slots_of e
  | Err _ => False
  end.
Proof.
  intros Hm. unfold check_output, or_else. pose proof (claimed_iff m s) as Hc.
  destruct (minted_outputs m !! s) as [h|] eqn:E1; [apply (Hc h Hm); auto|]. destruct (spent_inputs m !! s) as [h|] eqn:E2; [apply (Hc h Hm); auto|].
  intros h e He Hs. destruct (proj2 (Hc h Hm) (ex_intro _ e (conj He Hs))); congruence.
Qed.

(** The map of one kind of slots after an admission. *)
Lemma insert_slots_ok (kind : list TxPage -> list Z) (x : gmap Z (list Z)) m h e s h' :
  (forall s h, x !! s = Some h <-> exists e, entries m !! h = Some e /\ s ∈ kind (en_pages e)) ->
  (forall pages i, i ∈ kind pages -> i ∈ slots_in pages ++ slots_out pages) ->
  entries m !! h = None -> (forall s, s ∈ slots_of e -> unclaimed m s) ->
  insert_all h (kind (en_pages e)) x !! s = Some h' <-> exists e', <[h := e]> (entries m) !! h' = Some e' /\ s ∈ kind (en_pages e').
Proof.
  intros Hx Hk Hn Hfree. rewrite insert_all_lookup. destruct (decide (s ∈ kind (en_pages e))) as [Hin|Hin].
  - rewrite (bool_decide_eq_true_2 _ Hin). split.
    + intros [= <-]. exists e. rewrite lookup_insert_eq. auto.
    + intros (e' & He' & Hin'). apply lookup_insert_Some in He' as [[-> _]|[_ He']]; [reflexivity|].
      destruct (Hfree s (Hk _ _ Hin) h' e' He'). exact (Hk _ _ Hin').
  - rewrite (bool_decide_eq_false_2 _ Hin), Hx. split; intros (e' & He' & Hin').
    + exists e'. split; [|exact Hin']. rewrite lookup_insert_ne; [exact He'|congruence].
    + apply lookup_insert_Some in He' as [[-> ->]|[_ He']]; [contradiction|eauto].
Qed.

Definition admitted (m : Mempool) (h : list Z) (e : MempoolEntry) : Mempool :=
  mkMempool (<[h := e]> (entries m)) (<[FeeKey_new (en_fee_rate e) h := h]> (fee_index m))
    (insert_all h (slots_in (en_pages e)) (spent_inputs m)) (insert_all h (slots_out (en_pages e)) (minted_outputs m))
    (foldl (add_incoming (ps_input_owner (en_spend e))) (incoming_value_by_owner m) (page_outputs (en_pages e))) (capacity m).

Lemma admitted_ok m h e : pool_ok m -> entry_ok h e -> entries m !! h = None -> len m < capacity m ->
  (forall s, s ∈ slots_of e -> unclaimed m s) ->
  pool_ok (admitted m h e) /\ (incoming_ok m -> (forall to, pending (admitted m h e) to < 2 ^ 64) -> incoming_ok (admitted m h e)).
Proof.
  intros Hm He Hn Hlen Hfree. split.
  - constructor; cbn [admitted entries fee_index spent_inputs minted_outputs capacity].
    + intros h' e' [[<- <-]|[_ H]]%lookup_insert_Some; [exact He|exact (po_entry _ Hm _ _ H)].
    + intros k h'. rewrite lookup_insert_Some. split.
      * intros [[<- <-]|[Hk Hi]]; [exists e; rewrite lookup_insert_eq; auto|]. apply (po_index _ Hm) in Hi as (e' & He' & ->).
        exists e'. rewrite lookup_insert_ne by congruence. auto.
      * intros (e' & [[<- <-]|[Hne He']]%lookup_insert_Some & ->); [auto|]. right. split; [intros H; apply Hne; now injection H|].
        apply (po_index _ Hm). eauto.
    + intros s h'. apply (insert_slots_ok slots_in); [exact (po_spent _ Hm)|exact kind_in|exact Hn|exact Hfree].
    + intros s h'. apply (insert_slots_ok slots_out); [exact (po_minted _ Hm)|exact kind_out|exact Hn|exact Hfree].
    + intros h1 e1 h2 e2 s [[<- <-]|[_ H1]]%lookup_insert_Some [[<- <-]|[_ H2]]%lookup_insert_Some Hs1 Hs2; [reflexivity|..].
      * destruct (Hfree s Hs1 _ _ H2 Hs2).
      * destruct (Hfree s Hs2 _ _ H1 Hs1).
      * exact (po_apart _ Hm _ _ _ _ s H1 H2 Hs1 Hs2).
    + unfold len in *. cbn [admitted entries]. rewrite map_size_insert, Hn. lia.
  - intros Hi Hb to. assert (Hp : forall to', pending (admitted m h e) to' = entry_value to' (h, e) + pending m to') by (intros to'; now apply pending_insert).
    unfold pending_incoming_for_owner. cbn [admitted incoming_value_by_owner]. rewrite add_incoming_ok.
    + specialize (Hi to). unfold pending_incoming_for_owner in Hi. rewrite Hi, Hp. unfold entry_value. cbn [snd]. lia.
    + exact (amounts_nonneg _ (eo_wf _ _ He)).
    + intros to'. specialize (Hi to'). unfold pending_incoming_for_owner in Hi. rewrite Hi. now apply pending_total_nonneg.
    + intros to'. specialize (Hi to'). unfold pending_incoming_for_owner in Hi. rewrite Hi. specialize (Hb to'). rewrite Hp in Hb. unfold entry_value in Hb. cbn [snd] in Hb. lia.
Qed.

(** What [Mempool_admit] does on a sound pool. *)
Definition admit_outcome (m : Mempool) (pages : list TxPage) (height : Z) (r : exec MempoolError Mempool) : Prop :=
  match r with
  | Return m' => exists spend, validate pages = Ok spend /\ len m < capacity m
      /\ let h := ps_logical_txid spend in let e := mkEntry pages spend height (compute_fee_rate spend) 0 [] in
         entries m !! h = None /\ (forall s, s ∈ slots_of e -> unclaimed m s) /\ m' = admitted m h e
  | Fail Full => capacity m <= len m
  | Fail AlreadyAdmitted => exists spend, validate pages = Ok spend /\ is_Some (entries m !! ps_logical_txid spend)
  | Fail (InputConflict h) => exists s e, s ∈ slots_in pages /\ entries m !! h = Some e /\ s ∈ slots_of e
  | Fail (OutputConflict h) => exists s e, s ∈ slots_out pages /\ entries m !! h = Some e /\ s ∈ slots_of e
  | Panic => len m < capacity m /\ exists e, validate pages = Err e
  end.

Lemma admit_cases m pages height : pool_ok m -> Forall body_wf pages -> admit_outcome m pages height (Mempool_admit m pages height).
Proof.
  intros Hm Hw. unfold Mempool.Mempool_admit, MempoolEntry_new. destruct (Z.leb_spec (capacity m) (len m)) as [Hfull|Hlen]; [exact Hfull|].
  destruct (validate pages) as [spend|e] eqn:Ev; cbn [mbind result_bind]; [|split; [exact Hlen|eauto]].
  cbn zeta. cbn [en_spend en_pages en_fee_rate]. unfold contains. destruct (entries m !! ps_logical_txid spend) as [e0|] eqn:E0.
  { rewrite bool_decide_eq_true_2 by eauto. cbn [admit_outcome]. rewrite Ev. exists spend. rewrite E0. eauto. }
  rewrite bool_decide_eq_false_2 by (intros [? [=]]).
  pose proof (fold_check (fun p : nat * TxInput => in_slot_index p.2) (check_input m) (pages ≫= live_inputs)) as H1.
  destruct (fold_result _ tt (pages ≫= live_inputs)) as [[]|e]; cbn [lift mbind exec_bind].
  2:{ destruct H1 as (p & Hp & E). pose proof (check_input_cases m (in_slot_index p.2) Hm) as Hc. rewrite E in Hc. cbn [admit_outcome].
      destruct e as [|h|h|]; try contradiction. destruct Hc as (e & He & Hs). exists (in_slot_index p.2), e. split; [|auto]. apply slots_bind. eauto. }
  pose proof (fold_check (fun p : nat * TxOutput => out_slot_index p.2) (check_output m) (pages ≫= live_outputs)) as H2.
  destruct (fold_result _ tt (pages ≫= live_outputs)) as [[]|e]; cbn [lift mbind exec_bind].
  2:{ destruct H2 as (p & Hp & E). pose proof (check_output_cases m (out_slot_index p.2) Hm) as Hc. rewrite E in Hc. cbn [admit_outcome].
      destruct e as [|h|h|]; try contradiction. destruct Hc as (e & He & Hs). exists (out_slot_index p.2), e. split; [|auto]. apply slots_bind. eauto. }
  rewrite insert_pages_eq. cbn [entries fee_index spent_inputs minted_outputs incoming_value_by_owner capacity]. cbn [admit_outcome mret exec_ret]. exists spend.
  split; [exact Ev|]. split; [exact Hlen|]. split; [exact E0|]. split; [|reflexivity].
  intros s Hs. unfold slots_of in Hs. cbn [en_pages] in Hs. apply elem_of_app in Hs as [Hs|Hs]; apply slots_bind in Hs as (p & Hp & ->).
  - specialize (H1 p Hp). pose proof (check_input_cases m (in_slot_index p.2) Hm) as Hc. rewrite H1 in Hc. exact Hc.
  - specialize (H2 p Hp). pose proof (check_output_cases m (out_slot_index p.2) Hm) as Hc. rewrite H2 in Hc. exact Hc.
Qed.

(** ** Retained bytes, eviction, confirmation *)

Lemma replace_ok m h e e' : pool_ok m -> entries m !! h = Some e -> en_pages e' = en_pages e -> en_spend e' = en_spend e -> en_fee_rate e' = en_fee_rate e ->
  let m' := mkMempool (<[h := e']> (entries m)) (fee_index m) (spent_inputs m) (minted_outputs m) (incoming_value_by_owner m) (capacity m) in
  pool_ok m' /\ (incoming_ok m -> incoming_ok m').
Proof.
  intros Hm E E1 E2 E3. cbn zeta.
  assert (Hl : forall h' x, <[h := e']> (entries m) !! h' = Some x ->
    exists y, entries m !! h' = Some y /\ en_pages x = en_pages y /\ en_spend x = en_spend y /\ en_fee_rate x = en_fee_rate y).
  { intros h' x [[<- <-]|[_ H]]%lookup_insert_Some; eauto. }
  assert (Hr : forall h' y, entries m !! h' = Some y ->
    exists x, <[h := e']> (entries m) !! h' = Some x /\ en_pages x = en_pages y /\ en_spend x = en_spend y /\ en_fee_rate x = en_fee_rate y).
  { intros h' y Hy. destruct (decide (h' = h)) as [->|Hne]; [exists e'; rewrite lookup_insert_eq; assert (y = e) as -> by congruence; auto|].
    exists y. rewrite lookup_insert_ne by congruence. auto. }
  split.
  - constructor; cbn [entries fee_index spent_inputs minted_outputs capacity].
    + intros h' x (y & Hy & P1 & P2 & P3)%Hl. destruct (po_entry _ Hm _ _ Hy). constructor; rewrite ?P1, ?P2, ?P3; assumption.
    + intros k h'. rewrite (po_index _ Hm). split.
      * intros (y & (x & Hx & _ & _ & P3)%Hr & ->). exists x. now rewrite P3.
      * intros (x & (y & Hy & _ & _ & P3)%Hl & ->). exists y. now rewrite P3.
    + intros s h'. rewrite (po_spent _ Hm). split.
      * intros (y & (x & Hx & P1 & _)%Hr & Hs). exists x. now rewrite P1.
      * intros (x & (y & Hy & P1 & _)%Hl & Hs). exists y. now rewrite <- P1.
    + intros s h'. rewrite (po_minted _ Hm). split.
      * intros (y & (x & Hx & P1 & _)%Hr & Hs). exists x. now rewrite P1.
      * intros (x & (y & Hy & P1 & _)%Hl & Hs). exists y. now rewrite <- P1.
    + unfold slots_of. intros h1 e1 h2 e2 s (y1 & Hy1 & P1 & _)%Hl (y2 & Hy2 & P2 & _)%Hl. rewrite P1, P2. exact (po_apart _ Hm _ _ _ _ s Hy1 Hy2).
    + pose proof (po_capacity _ Hm) as Hc. unfold len in *. cbn [entries]. rewrite map_size_insert, E. exact Hc.
  - intros Hi to. specialize (Hi to). unfold pending_incoming_for_owner in *. cbn [incoming_value_by_owner]. rewrite Hi. set (m' := mkMempool (<[h := e']> _) _ _ _ _ _).
    set (m0 := mkMempool (delete h (entries m)) ∅ ∅ ∅ ∅ 0). rewrite (pending_delete h e m m0 to E eq_refl).
    rewrite (pending_insert h e' m0 m' to); [unfold entry_value; cbn [snd]; now rewrite E1, E2|apply lookup_delete_eq|].
    cbn [m' m0 entries]. now rewrite insert_delete_eq.
Qed.

Lemma set_bytes_ok m h bytes : pool_ok m -> pool_ok (set_intent_bytes m h bytes) /\ (incoming_ok m -> incoming_ok (set_intent_bytes m h bytes)).
Proof.
  intros Hm. unfold set_intent_bytes. destruct (entries m !! h) as [e|] eqn:E; [|auto]. cbn zeta. now apply (replace_ok m h e).
Qed.

Lemma confirm_eq m l : (on_block_confirmed m l).2 = foldl (fun m hash => (remove m hash).2) m l.
Proof.
  unfold on_block_confirmed. generalize 0. revert m. induction l as [|h l IH]; intros m n; [reflexivity|]. cbn [foldl snd].
  destruct (remove m h) as [[e|] m'] eqn:E; cbn [snd fst]; apply IH.
Qed.

(** ** Reachable pools *)

(** Pools that the operations build from valid page types.  With [bounded] no
    admission lifts the pending value of an owner to [2 ^ 64]. *)
Inductive reachable (bounded : Prop) : Mempool -> Prop :=
| reach_new capacity : 0 <= capacity -> reachable bounded (Mempool_new capacity)
| reach_admit m pages height m' : reachable bounded m -> Forall body_wf pages -> Mempool_admit m pages height = Return m' ->
    (bounded -> forall to, pending m' to < 2 ^ 64) -> reachable bounded m'
| reach_remove m hash : reachable bounded m -> reachable bounded (remove m hash).2
| reach_evict m anchor : reachable bounded m -> reachable bounded (evict_wrong_anchor m anchor).2
| reach_confirm m confirmed : reachable bounded m -> reachable bounded (on_block_confirmed m confirmed).2
| reach_bytes m hash bytes : reachable bounded m -> reachable bounded (set_intent_bytes m hash bytes).

Lemma new_ok capacity : 0 <= capacity -> pool_ok (Mempool_new capacity) /\ incoming_ok (Mempool_new capacity).
Proof.
  intros H. split; [|intros to; reflexivity]. constructor; cbn.
  - intros h e [=].
  - intros k h. split; [intros [=]|intros (e & [=] & _)].
  - intros s h. split; [intros [=]|intros (e & [=] & _)].
  - intros s h. split; [intros [=]|intros (e & [=] & _)].
  - intros h1 e1 h2 e2 s [=].
  - exact H.
Qed.

Lemma admit_ok m pages height m' : pool_ok m -> Forall body_wf pages -> Mempool_admit m pages height = Return m' ->
  pool_ok m' /\ (incoming_ok m -> (forall to, pending m' to < 2 ^ 64) -> incoming_ok m').
Proof.
  intros Hm Hw E. pose proof (admit_cases m pages height Hm Hw) as H. rewrite E in H. destruct H as (spend & Ev & Hlen & Hn & Hfree & ->).
  apply admitted_ok; try assumption. constructor; try assumption; reflexivity.
Qed.

Lemma reachable_ok bounded m : reachable bounded m -> pool_ok m /\ (bounded -> incoming_ok m).
Proof.
  induction 1 as [capacity H|m pages height m' _ [IH1 IH2] Hw E Hb|m hash _ [IH1 IH2]|m anchor _ [IH1 IH2]|m l _ [IH1 IH2]|m hash bytes _ [IH1 IH2]].
  - destruct (new_ok capacity H). auto.
  - destruct (admit_ok m pages height m' IH1 Hw E). auto.
  - destruct (remove_ok m hash IH1). auto.
  - unfold evict_wrong_anchor. cbn [snd]. destruct (removes_ok (fst <$> filter (fun p : list Z * MempoolEntry => ps_epoch_anchor (en_spend p.2) <> anchor) (map_to_list (entries m))) m IH1) as (I1 & I2 & _). auto.
  - rewrite confirm_eq. destruct (removes_ok l m IH1) as (I1 & I2 & _). auto.
  - destruct (set_bytes_ok m hash bytes IH1). auto.
Qed.

(** ** Selection *)

(** Higher fee rate first, then the smaller id. *)
Definition ranked (a b : MempoolEntry) : Prop := en_fee_rate b < en_fee_rate a
  \/ (en_fee_rate a = en_fee_rate b /\ bytes_lt (ps_logical_txid (en_spend b)) (ps_logical_txid (en_spend a)) = false).

Definition ordered (m : Mempool) : list MempoolEntry := omap (fun h => entries m !! h) (fee_index_values m).

Definition fits (b : BlockSelectionBudget) (e : MempoolEntry) : bool :=
  (Z.of_nat (length (en_pages e)) <=? bu_pages b) && (ps_live_inputs (en_spend e) <=? bu_live_inputs b) && (contract_calls e <=? bu_contract_calls b).

Definition less (b : BlockSelectionBudget) (e : MempoolEntry) : BlockSelectionBudget :=
  mkBudget (bu_pages b - Z.of_nat (length (en_pages e))) (bu_live_inputs b - ps_live_inputs (en_spend e)) (bu_contract_calls b - contract_calls e).

Fixpoint greedy (keep : MempoolEntry -> bool) (b : BlockSelectionBudget) (l : list MempoolEntry) : list MempoolEntry :=
  match l with
  | [] => []
  | e :: l => if keep e && fits b e then e :: greedy keep (less b e) l else greedy keep b l
  end.

Lemma fee_key_le a b : cmp_le fee_key_cmp a b <-> a.1 < b.1 \/ (a.1 = b.1 /\ bytes_lt b.2 a.2 = false).
Proof.
  unfold cmp_le, fee_key_cmp, bytes_lt. rewrite (bytes_cmp_opp a.2 b.2).
  destruct (Z.compare_spec a.1 b.1); destruct (bytes_cmp a.2 b.2); cbn; intuition (try congruence; try lia).
Qed.

Lemma fee_key_total a b : cmp_le fee_key_cmp a b \/ cmp_le fee_key_cmp b a.
Proof.
  rewrite !fee_key_le. destruct (Z.lt_trichotomy a.1 b.1) as [|[|]]; auto. destruct (bytes_lt b.2 a.2) eqn:E; [apply bytes_lt_asym in E|]; auto.
Qed.

Lemma fee_key_trans a b c : cmp_le fee_key_cmp a b -> cmp_le fee_key_cmp b c -> cmp_le fee_key_cmp a c.
Proof.
  rewrite !fee_key_le. intros [?|[? H1]] [?|[? H2]]; [left; lia..|]. right. split; [lia|]. eauto using bytes_le_trans.
Qed.

Section Ordered.
Context (m : Mempool) (Hm : pool_ok m).
Let idx := sort_by (fun a b : FeeKey * list Z => fee_key_cmp a.1 b.1) (map_to_list (fee_index m)).

Lemma index_elem k h : (k, h) ∈ idx <-> exists e, entries m !! h = Some e /\ k = FeeKey_new (en_fee_rate e) h.
Proof. unfold idx. rewrite sort_by_perm, elem_of_map_to_list. apply (po_index _ Hm). Qed.

Lemma ordered_elem e : e ∈ ordered m <-> exists h, entries m !! h = Some e.
Proof.
  unfold ordered. rewrite list_elem_of_omap. split; [intros (h & _ & E); eauto|]. intros (h & E). exists h. split; [|exact E].
  unfold fee_index_values. fold idx. apply list_elem_of_fmap. exists (FeeKey_new (en_fee_rate e) h, h). split; [reflexivity|]. apply index_elem. eauto.
Qed.

(** Each pair of the index is one entry, under its key. *)
Lemma ordered_keys : (fun e => (FeeKey_new (en_fee_rate e) (ps_logical_txid (en_spend e)), ps_logical_txid (en_spend e))) <$> ordered m = idx.
Proof.
  unfold ordered, fee_index_values. fold idx. assert (H : forall p, p ∈ idx -> exists e, entries m !! p.2 = Some e /\ p.1 = FeeKey_new (en_fee_rate e) p.2).
  { intros [k h] Hp. now apply index_elem. }
  revert H. generalize idx. intros l. induction l as [|[k h] l IH]; intros H; [reflexivity|]. cbn [fmap list_fmap snd]. unfold omap. cbn [list_omap].
  destruct (H (k, h) ltac:(now left)) as (e & E & Ek). cbn [fst snd] in E, Ek. rewrite E. cbn [fmap list_fmap]. f_equal.
  - rewrite (eo_hash _ _ (po_entry _ Hm _ _ E)), Ek. reflexivity.
  - apply IH. intros p Hp. apply H. now right.
Qed.

Lemma ordered_sorted : StronglySorted ranked (ordered m).
Proof.
  assert (Hs : StronglySorted (cmp_le (fun a b : FeeKey * list Z => fee_key_cmp a.1 b.1)) idx).
  { apply sort_by_sorted; [intros a b; apply fee_key_total|intros a b c; apply fee_key_trans]. }
  rewrite <- ordered_keys in Hs. apply (proj1 (sorted_fmap _ _ _)) in Hs. revert Hs. generalize (ordered m). intros l0 Hs.
  induction Hs as [|a l Hs IH Ha]; constructor; [exact IH|]. eapply Forall_impl; [exact Ha|]. intros b H. cbv beta in H.
  unfold cmp_le in H. cbn [fst] in H. apply fee_key_le in H. cbn [FeeKey_new fst snd] in H. unfold ranked. destruct H as [H|[H1 H2]]; [left; lia|right; split; [lia|exact H2]].
Qed.

Lemma ordered_nodup : NoDup (ordered m).
Proof.
  apply (NoDup_fmap_1 (fun e => (FeeKey_new (en_fee_rate e) (ps_logical_txid (en_spend e)), ps_logical_txid (en_spend e)))).
  rewrite ordered_keys. unfold idx. rewrite sort_by_perm. apply NoDup_map_to_list.
Qed.

Lemma ordered_ok e : e ∈ ordered m -> entry_ok (ps_logical_txid (en_spend e)) e.
Proof. intros (h & E)%ordered_elem. pose proof (po_entry _ Hm _ _ E) as H. now rewrite (eo_hash _ _ H). Qed.

(** Distinct entries share no slot. *)
Lemma selection_disjoint l : sublist l (ordered m) -> NoDup (l ≫= slots_of).
Proof.
  intros Hsub. assert (Hn : NoDup l) by exact (sublist_NoDup _ _ ordered_nodup Hsub).
  assert (Hin : forall e, e ∈ l -> e ∈ ordered m) by (intros e He; exact (elem_of_sublist _ _ e He Hsub)). clear Hsub.
  induction Hn as [|e l He Hn IH]; [constructor|]. rewrite bind_cons. apply NoDup_app. split; [|split].
  - apply (entry_facts _ e (ordered_ok e (Hin e ltac:(now left)))).
  - intros s Hs Hs'. apply list_elem_of_bind in Hs' as (e' & Hs' & He'). apply He.
    destruct (proj1 (ordered_elem e) (Hin e ltac:(now left))) as (h & E). destruct (proj1 (ordered_elem e') (Hin e' ltac:(now right))) as (h' & E').
    assert (h = h') as <- by exact (po_apart _ Hm _ _ _ _ s E E' Hs Hs'). congruence.
  - apply IH. intros x Hx. apply Hin. now right.
Qed.
End Ordered.

(** ** Greedy packing *)

Lemma greedy_sublist keep l : forall b, sublist (greedy keep b l) l.
Proof. induction l as [|e l IH]; intros b; cbn [greedy]; [constructor|]. destruct (_ && _); constructor; apply IH. Qed.

Definition used (f : MempoolEntry -> Z) (l : list MempoolEntry) : Z := Zsum (f <$> l).

Lemma greedy_bounds keep l : forall b, 0 <= bu_pages b -> 0 <= bu_live_inputs b -> 0 <= bu_contract_calls b ->
  used (fun e => Z.of_nat (length (en_pages e))) (greedy keep b l) <= bu_pages b
  /\ used (fun e => ps_live_inputs (en_spend e)) (greedy keep b l) <= bu_live_inputs b
  /\ used contract_calls (greedy keep b l) <= bu_contract_calls b
  /\ Forall (fun e => keep e = true) (greedy keep b l).
Proof.
  induction l as [|e l IH]; intros b H1 H2 H3; cbn [greedy]; [unfold used; cbn; auto|]. destruct (keep e && fits b e) eqn:E; [|now apply IH].
  apply andb_true_iff in E as [Ek Ef]. unfold fits in Ef. apply andb_true_iff in Ef as [[F1 F2]%andb_true_iff F3]. apply Z.leb_le in F1, F2, F3.
  destruct (IH (less b e)) as (I1 & I2 & I3 & I4); cbn [less bu_pages bu_live_inputs bu_contract_calls] in *; [lia..|].
  unfold used in *. cbn [fmap list_fmap]. rewrite !Zsum_cons. repeat (split; [lia|]). now constructor.
Qed.

(** The budget that is left. *)
Definition left_over (b : BlockSelectionBudget) (l : list MempoolEntry) : BlockSelectionBudget := foldl less b l.

Lemma greedy_app keep l l' : forall b, greedy keep b (l ++ l') = greedy keep b l ++ greedy keep (left_over b (greedy keep b l)) l'.
Proof.
  induction l as [|e l IH]; intros b; [reflexivity|]. cbn [app greedy]. destruct (_ && _); [|apply IH]. cbn [app]. unfold left_over. cbn [foldl]. f_equal. apply IH.
Qed.

(** The early exits of the loop change nothing: entries have pages and inputs. *)
Lemma greedy_empty keep l b : (forall e, e ∈ l -> exists h, entry_ok h e) -> bu_pages b = 0 \/ bu_live_inputs b = 0 -> greedy keep b l = [].
Proof.
  intros Hok Hb. induction l as [|e l IH]; [reflexivity|]. cbn [greedy]. destruct (Hok e ltac:(now left)) as [h He].
  destruct (entry_facts h e He) as (F1 & F2 & _). assert (fits b e = false) as ->.
  { unfold fits. destruct Hb as [-> | ->].
    - destruct (Z.leb_spec (Z.of_nat (length (en_pages e))) 0); [lia|reflexivity].
    - destruct (Z.leb_spec (ps_live_inputs (en_spend e)) 0); [lia|]. now rewrite andb_false_r. }
  rewrite andb_false_r. apply IH. intros x Hx. apply Hok. now right.
Qed.

Lemma select_loop_eq m keep hashes : pool_ok m -> forall pages inputs calls,
  select_loop m keep hashes pages inputs calls = greedy keep (mkBudget pages inputs calls) (omap (fun h => entries m !! h) hashes).
Proof.
  intros Hm. induction hashes as [|h hashes IH]; intros pages inputs calls; [reflexivity|]. cbn [select_loop]. unfold omap. cbn [list_omap].
  destruct (entries m !! h) as [e|] eqn:E; [|apply IH]. cbn [greedy]. destruct (keep e); cbn [negb andb]; [|apply IH]. cbn zeta.
  assert (Ef : fits (mkBudget pages inputs calls) e
    = negb ((pages <? Z.of_nat (length (en_pages e))) || (inputs <? ps_live_inputs (en_spend e)) || (calls <? contract_calls e))).
  { unfold fits. cbn [bu_pages bu_live_inputs bu_contract_calls]. rewrite !Z.leb_antisym, !negb_orb. reflexivity. }
  rewrite Ef. destruct (_ || _ || _); cbn [negb]; [apply IH|]. f_equal. unfold less. cbn [bu_pages bu_live_inputs bu_contract_calls].
  destruct (Z.eqb_spec (pages - Z.of_nat (length (en_pages e))) 0) as [Hz|]; [|apply IH]. symmetry. apply greedy_empty; [|left; exact Hz].
  intros x Hx. apply list_elem_of_omap in Hx as (h' & _ & Hx). exists h'. exact (po_entry _ Hm _ _ Hx).
Qed.

Lemma select_eq m budget keep : pool_ok m ->
  select_for_block_matching m budget keep
  = greedy keep (mkBudget (Z.min (bu_pages budget) BLOCK_MAX_USER_PAGES) (bu_live_inputs budget) (bu_contract_calls budget)) (ordered m).
Proof.
  intros Hm. unfold select_for_block_matching. cbn zeta. destruct ((_ =? 0) || _) eqn:E; [|now apply select_loop_eq].
  symmetry. apply greedy_empty.
  - intros e He. exists (ps_logical_txid (en_spend e)). now apply (ordered_ok m Hm).
  - cbn [bu_pages bu_live_inputs]. apply orb_true_iff in E as [E|E]; apply Z.eqb_eq in E; auto.
Qed.
End Invariant.

(** ** Properties *)

(** C23. The pool stays conflict-free and its indexes describe it.  In every pool
    that admissions, removals, anchor evictions, block confirmations and retained
    bytes can build, each entry is a valid spend under its logical id, the fee
    index holds exactly one key per entry, the two slot maps hold exactly the
    spent and minted slots, no slot belongs to two entries and the capacity is
    respected; while no owner's pending value reaches 2^64, the tracked incoming
    value is the sum over the entries.  [Mempool_admit] then behaves exactly: it accepts a
    valid spend with a new id and free slots below capacity and adds just that
    entry, it names an entry that owns the conflicting slot, and it panics only on
    pages that are not a valid spend. *)
Theorem mempool_invariant hash sponge (bounded : Prop) (m : Mempool) :
  reachable hash sponge bounded m ->
  pool_ok hash sponge m /\ (bounded -> forall to, pending_incoming_for_owner m to = pending m to)
  /\ forall pages height, Forall body_wf pages -> admit_outcome hash sponge m pages height (Mempool_admit hash sponge m pages height).
Proof.
  intros H. destruct (reachable_ok hash sponge bounded m H) as [H1 H2]. split; [exact H1|]. split; [exact H2|]. intros pages height. now apply admit_cases.
Qed.

(** A pool of one spend of two pages. *)
Lemma example_pool : exists m h e, reachable (fun _ => []) (fun _ _ => []) True m /\ entries m !! h = Some e /\ en_pages e = example_pages.
Proof.
  pose proof (proj1 (new_ok (fun _ => []) (fun _ _ => []) 4 ltac:(lia))) as Hnew.
  pose proof (admit_cases (fun _ => []) (fun _ _ => []) (Mempool_new 4) example_pages 7 Hnew example_pages_wf) as H.
  destruct (Mempool_admit _ _ (Mempool_new 4) example_pages 7) as [m|[|h|h|]|] eqn:E; cbn [admit_outcome] in H.
  - destruct H as (spend & Ev & _ & Hn & _ & Em). exists m, (ps_logical_txid spend), (mkEntry example_pages spend 7 (compute_fee_rate spend) 0 []).
    split; [|split; [rewrite Em; apply lookup_insert_eq|reflexivity]].
    refine (reach_admit _ _ True (Mempool_new 4) example_pages 7 m (reach_new _ _ True 4 ltac:(lia)) example_pages_wf E _). intros _ to.
    rewrite (pending_insert _ (mkEntry example_pages spend 7 (compute_fee_rate spend) 0 []) _ m to Hn) by now rewrite Em. change (pending (Mempool_new 4) to) with 0. unfold entry_value. cbn [snd en_spend en_pages].
    pose proof (value_to_le (ps_input_owner spend) (page_outputs example_pages) to (amounts_nonneg _ example_pages_wf)) as Hle.
    assert (Zsum (out_amount <$> page_outputs example_pages) < 2 ^ 64) by (vm_compute; reflexivity). lia.
  - destruct H as (spend & _ & [e F]). discriminate F.
  - destruct H as (s & e & _ & F & _). discriminate F.
  - destruct H as (s & e & _ & F & _). discriminate F.
  - exfalso. apply H. reflexivity.
  - destruct H as (_ & e & F).
    assert (Ev : is_ok (validate_paged_spend (fun _ => []) (fun _ _ => []) example_pages) = true) by (vm_compute; reflexivity). rewrite F in Ev. discriminate Ev.
Qed.

Lemma mempool_invariant_witness : exists m h e, entries m !! h = Some e
  /\ pending_incoming_for_owner m (replicate 32 8) = pending m (replicate 32 8).
Proof.
  destruct example_pool as (m & h & e & Hr & E & _). exists m, h, e. split; [exact E|].
  destruct (mempool_invariant (fun _ => []) (fun _ _ => []) True m Hr) as (_ & H & _). exact (H I _).
Defined.

(** C24. Selection is the greedy packing by fee rate.  For every pool the
    operations build, [select_for_block_matching] takes the entries in descending
    fee rate (ascending id on ties) and keeps each wanted entry that still fits
    the pages, inputs and contract calls left; the early exits of the loop lose
    nothing.  The result respects the budget and the limit of user pages, its
    entries pairwise share no slot, and a wanted entry that is not selected does
    not fit after the better ranked selected ones. *)
Theorem selection_exact hash sponge (bounded : Prop) (m : Mempool) (budget : BlockSelectionBudget) (keep : MempoolEntry -> bool) :
  reachable hash sponge bounded m -> 0 <= bu_pages budget -> 0 <= bu_live_inputs budget -> 0 <= bu_contract_calls budget ->
  let b := mkBudget (Z.min (bu_pages budget) BLOCK_MAX_USER_PAGES) (bu_live_inputs budget) (bu_contract_calls budget) in
  let selected := select_for_block_matching m budget keep in
  (forall e, e ∈ ordered m <-> exists h, entries m !! h = Some e) /\ NoDup (ordered m) /\ StronglySorted ranked (ordered m)
  /\ selected = greedy keep b (ordered m)
  /\ used (fun e => Z.of_nat (length (en_pages e))) selected <= Z.min (bu_pages budget) BLOCK_MAX_USER_PAGES
  /\ used (fun e => ps_live_inputs (en_spend e)) selected <= bu_live_inputs budget
  /\ used contract_calls selected <= bu_contract_calls budget
  /\ Forall (fun e => keep e = true) selected /\ NoDup (selected ≫= slots_of)
  /\ forall better e worse, ordered m = better ++ e :: worse -> keep e = true -> e ∉ selected ->
       fits (left_over b (greedy keep b better)) e = false.
Proof.
  intros Hr H1 H2 H3 b selected. destruct (reachable_ok hash sponge bounded m Hr) as [Hm _].
  assert (Es : selected = greedy keep b (ordered m)) by exact (select_eq hash sponge m budget keep Hm).
  split; [exact (ordered_elem hash sponge m Hm)|]. split; [exact (ordered_nodup hash sponge m Hm)|]. split; [exact (ordered_sorted hash sponge m Hm)|].
  split; [exact Es|]. rewrite Es. destruct (greedy_bounds keep (ordered m) b) as (B1 & B2 & B3 & B4); [cbn; unfold BLOCK_MAX_USER_PAGES, BLOCK_MAX_TXS; lia|exact H2|exact H3|].
  repeat (split; [assumption|]). split; [exact (selection_disjoint hash sponge m Hm _ (greedy_sublist keep (ordered m) b))|].
  intros better e worse E Hk Hn. destruct (fits _ e) eqn:Ef; [|reflexivity]. destruct Hn. rewrite E, greedy_app. cbn [greedy]. rewrite Hk, Ef. cbn [andb].
  apply elem_of_app. right. now left.
Qed.

Lemma selection_exact_witness : exists m h e, entries m !! h = Some e
  /\ used (fun e => Z.of_nat (length (en_pages e))) (select_for_block_matching m (pages_only 25) (fun _ => true)) <= 25.
Proof.
  destruct example_pool as (m & h & e & Hr & E & _). exists m, h, e. split; [exact E|].
  pose proof (selection_exact (fun _ => []) (fun _ _ => []) True m (pages_only 25) (fun _ => true) Hr
    ltac:(cbn; lia) ltac:(vm_compute; discriminate) ltac:(vm_compute; discriminate)) as H. cbn zeta in H. destruct H as (_ & _ & _ & _ & H & _).
  etransitivity; [exact H|]. vm_compute. discriminate.
Defined.
