(* ===== verification/PoolPolicy.v ===== *)
(** * Admission policy ([noid_mempool/src/{floor,config,view,contracts}.rs])

    What the node's pool consults when it admits a spend: the dynamic fee floor
    with its pressure latch, the proof-class budgets, the snapshot of the chain
    with its segment read cache, and the decoding and candidate-height checks of
    contract intents. *)

From Stdlib Require Import ZArith Lia Bool Strings.String.
From stdpp Require Import base numbers list option gmap.
From S2P Require Import Prelude Params Emission Tx TxWire PagedSpend Fees Rules Contract Merkle StateTree HotSegments Segmented Mempool.
Open Scope Z_scope.

(** ** Errors *)

(** The texts of the messages are left out. *)
Module Sub.
Inductive SubmitError :=
| AlreadyAdmitted (txid : list Z)
| Consensus (e : ConsensusError)
| Full (capacity : Z)
| BytesFull (actual max : Z)
| MalformedIntent
| IntentTooLarge (actual max : Z)
| V2LimitsUnavailable
| InputLimitExceeded (actual max_inputs : Z)
| NoProofClass (pages inputs calls : Z)
| MissingProof
| ProofTooLarge (actual max : Z)
| InvalidProof
| Internal.
End Sub.
Abbreviation SubmitError := Sub.SubmitError (only parsing).

Definition is_soft (e : SubmitError) : bool :=
  match e with
  | Sub.AlreadyAdmitted _ | Sub.Full _ | Sub.BytesFull _ _ | Sub.V2LimitsUnavailable | Sub.InputLimitExceeded _ _
  | Sub.NoProofClass _ _ _ | Sub.Consensus SlotConflict => true
  | _ => false
  end.

Inductive EvictReason :=
| BlockCapacityChanged
| ContractForkInactive
| ContractContextChanged
| EpochAnchorChanged
| ConsensusFeeIncreased
| CapacityPressure
| InputConsumed
| OutputSlotOccupied.

(** ** The fee floor *)

Record FeeFloor := mkFloor {
  ff_recent : list Z;
  ff_capacity : Z;
  ff_current : Z;
  ff_pressure_active : option bool
}.

Definition FeeFloor_new (window_size : Z) : FeeFloor := mkFloor [] (Z.max window_size 1) MIN_FEE_BASE None.

Definition floor_compute (recent : list Z) : Z :=
  match recent with
  | [] => MIN_FEE_BASE
  | _ => Z.max (saturating_mul 64 (median_u64 recent) 9 / 10) MIN_FEE_BASE
  end.

Definition floor_record (f : FeeFloor) (fee : Z) : FeeFloor :=
  let recent := if ff_capacity f <=? Z.of_nat (length (ff_recent f)) then tail (ff_recent f) else ff_recent f in
  let recent := recent ++ [fee] in
  mkFloor recent (ff_capacity f) (floor_compute recent) (ff_pressure_active f).

Definition floor_current (f : FeeFloor) : Z :=
  if bool_decide (ff_pressure_active f = Some false) then MIN_FEE_BASE else ff_current f.

Definition floor_reset (f : FeeFloor) : FeeFloor :=
  mkFloor [] (ff_capacity f) MIN_FEE_BASE (match ff_pressure_active f with Some _ => Some false | None => None end).

Definition update_pressure (f : FeeFloor) (v1_1_active : bool) (count max_count bytes max_bytes : Z) : FeeFloor :=
  if negb v1_1_active then
    let f := mkFloor (ff_recent f) (ff_capacity f) (ff_current f) None in
    if count =? 0 then floor_reset f else f
  else
    let f := mkFloor (ff_recent f) (ff_capacity f) (ff_current f) (Some (default false (ff_pressure_active f))) in
    if (count =? 0) || ((count * 2 <? max_count) && (bytes * 2 <? max_bytes)) then floor_reset f
    else if (max_count * 4 <=? count * 5) || (max_bytes * 4 <=? bytes * 5)
    then mkFloor (ff_recent f) (ff_capacity f) (ff_current f) (Some true)
    else f.

(** ** Configuration *)

Record MempoolConfig := mkConfig {
  cfg_capacity : Z;
  cfg_max_total_intent_bytes : Z;
  cfg_fee_floor_window : Z;
  cfg_v2_block_budgets : option (BlockSelectionBudget * BlockSelectionBudget)
}.

(** [iter().max()] over the class budgets that have room for the pages and calls. *)
Definition class_inputs (budgets : list BlockSelectionBudget) (reserved pages calls : Z) : option Z :=
  foldl (fun acc b => Some (Z.max (default 0 acc) b)) None
    (bu_live_inputs <$> filter (fun b => pages <= saturating_sub (bu_pages b) reserved /\ calls <= bu_contract_calls b) budgets).

(** The [expect] of the payout schedule is a panic. *)
Definition check_resources (config : MempoolConfig) (height pages inputs calls : Z) : exec SubmitError unit :=
  if negb (v2_active height) then mret tt
  else
    budgets ← lift (ok_or (cfg_v2_block_budgets config) Sub.V2LimitsUnavailable);
    due ← expect (development_payout_due_at_height height);
    max_inputs ← lift (ok_or (class_inputs [budgets.1; budgets.2] (Z.b2z due) pages calls) (Sub.NoProofClass pages inputs calls));
    let max_inputs := Z.min max_inputs MAX_PAGED_SPEND_INPUTS in
    lift (ensure (negb (max_inputs <? inputs)) (Sub.InputLimitExceeded inputs max_inputs)).

Definition class_fits (reserved pages calls : Z) (b : BlockSelectionBudget) : Prop :=
  pages <= saturating_sub (bu_pages b) reserved /\ calls <= bu_contract_calls b.

Lemma class_inputs_spec budgets reserved pages calls : Forall (fun b => 0 <= bu_live_inputs b) budgets ->
  match class_inputs budgets reserved pages calls with
  | Some m => (exists b, b ∈ budgets /\ class_fits reserved pages calls b /\ bu_live_inputs b = m)
      /\ forall b, b ∈ budgets -> class_fits reserved pages calls b -> bu_live_inputs b <= m
  | None => forall b, b ∈ budgets -> ~ class_fits reserved pages calls b
  end.
Proof.
  intros Hnn. unfold class_inputs. fold (class_fits reserved pages calls).
  set (l := filter (fun b => pages <= saturating_sub (bu_pages b) reserved /\ calls <= bu_contract_calls b) budgets).
  assert (Hl : forall b, b ∈ l <-> class_fits reserved pages calls b /\ b ∈ budgets) by (intros b; apply list_elem_of_filter).
  assert (Hf : forall l acc, Forall (fun b => 0 <= bu_live_inputs b) l ->
    match foldl (fun acc b => Some (Z.max (default 0 acc) b)) acc (bu_live_inputs <$> l) with
    | Some m => (acc = Some m \/ exists b, b ∈ l /\ bu_live_inputs b = m) /\ default 0 acc <= m /\ forall b, b ∈ l -> bu_live_inputs b <= m
    | None => acc = None /\ l = []
    end).
  { clear. induction l as [|b l IH]; intros acc Hl; cbn [fmap list_fmap foldl].
    - destruct acc; [|auto]. split; [auto|]. split; [cbn; lia|]. intros b Hb. now apply not_elem_of_nil in Hb.
    - apply Forall_cons_1 in Hl as [Hb Hl]. specialize (IH (Some (Z.max (default 0 acc) (bu_live_inputs b))) Hl). destruct (foldl _ _ _) as [m|]; [|destruct IH; discriminate].
      destruct IH as (I1 & I2 & I3). cbn [default from_option id] in I2. split; [|split; [lia|]].
      + destruct I1 as [[= E]|(b' & Hb' & E)]; [|right; exists b'; split; [now right|exact E]].
        destruct acc as [a|]; cbn [default from_option id] in E; [destruct (Z.max_spec a (bu_live_inputs b)) as [[_ E']|[_ E']]|]; rewrite ?E' in E.
        * right. exists b. split; [left|lia].
        * left. now f_equal.
        * right. exists b. split; [left|lia].
      + intros b' Hb'. apply elem_of_cons in Hb' as [->|Hb']; [lia|auto]. }
  assert (Hnl : Forall (fun b => 0 <= bu_live_inputs b) l) by (apply Forall_forall; intros b Hb; apply (proj1 (Forall_forall _ _) Hnn); now apply Hl in Hb).
  specialize (Hf l None Hnl). destruct (foldl _ None _) as [m|].
  - destruct Hf as ([Hn|(b & Hb & E)] & _ & Hm); [discriminate|]. apply Hl in Hb as [? ?]. split; [eauto|]. intros b' Hb' Hf'. apply Hm. now apply Hl.
  - destruct Hf as [_ E]. intros b Hb Hf. assert (b ∈ l) as Hin by now apply Hl. rewrite E in Hin. now apply not_elem_of_nil in Hin.
Qed.

(** What the budgets say of a spend at a height: one class has room for all of it. *)
Definition within_class (config : MempoolConfig) (height pages inputs calls : Z) : Prop :=
  v2_active height = true -> exists budgets due, cfg_v2_block_budgets config = Some budgets /\ development_payout_due_at_height height = Some due
    /\ (exists b, b ∈ [budgets.1; budgets.2] /\ class_fits (Z.b2z due) pages calls b /\ inputs <= bu_live_inputs b) /\ inputs <= MAX_PAGED_SPEND_INPUTS.

Definition config_ok (config : MempoolConfig) : Prop :=
  0 <= cfg_capacity config
  /\ forall budgets, cfg_v2_block_budgets config = Some budgets -> 0 <= bu_live_inputs budgets.1 /\ 0 <= bu_live_inputs budgets.2.

Lemma check_resources_cases config height pages inputs calls : config_ok config ->
  match check_resources config height pages inputs calls with
  | Return _ => within_class config height pages inputs calls
  | Fail _ => ~ within_class config height pages inputs calls
  | Panic => False
  end.
Proof.
  intros [_ Hcfg]. unfold check_resources, within_class. destruct (v2_active height); cbn [negb]; [|discriminate].
  destruct (cfg_v2_block_budgets config) as [budgets|] eqn:Eb; cbn [ok_or lift mbind exec_bind]; [|intros H; now destruct (H eq_refl) as (? & ? & [=] & _)].
  destruct (Hcfg budgets eq_refl) as [H1 H2]. unfold development_payout_due_at_height, development_allocation_at_height.
  rewrite (allocation_eq _ height LOG_SLOTS_GENESIS ACTIVE_SCHEDULE_exact). cbn [expect mbind exec_bind]. set (due := payout_due _).
  pose proof (class_inputs_spec [budgets.1; budgets.2] (Z.b2z due) pages calls ltac:(now repeat constructor)) as Hs.
  destruct (class_inputs _ _ _ _) as [m|]; cbn [ok_or lift mbind exec_bind].
  - destruct Hs as [(b & Hb & Hf & E) Hm]. destruct (Z.ltb_spec (Z.min m MAX_PAGED_SPEND_INPUTS) inputs) as [Hlt|Hge]; cbn [negb ensure lift].
    + intros H. destruct (H eq_refl) as (bs & d & [= <-] & [= <-] & (b' & Hb' & Hf' & Hi) & Hmax). specialize (Hm b' Hb' Hf'). lia.
    + intros _. exists budgets, due. split; [reflexivity|]. split; [reflexivity|]. split; [exists b; split; [exact Hb|split; [exact Hf|lia]]|lia].
  - intros H. destruct (H eq_refl) as (bs & d & [= <-] & [= <-] & (b' & Hb' & Hf' & Hi) & Hmax). exact (Hs b' Hb' Hf').
Qed.

(** ** The floor over time *)

Lemma floor_compute_min recent : MIN_FEE_BASE <= floor_compute recent.
Proof. unfold floor_compute. destruct recent; lia. Qed.

Record floor_ok (f : FeeFloor) : Prop := {
  fo_current : ff_current f = floor_compute (ff_recent f);
  fo_window : Z.of_nat (length (ff_recent f)) <= ff_capacity f /\ 1 <= ff_capacity f
}.

Lemma floor_min f : floor_ok f -> MIN_FEE_BASE <= floor_current f.
Proof. intros [E _]. unfold floor_current. destruct (bool_decide _); [lia|]. rewrite E. apply floor_compute_min. Qed.

Lemma floor_ok_new w : floor_ok (FeeFloor_new w).
Proof. split; [reflexivity|cbn; lia]. Qed.

Lemma floor_ok_record f fee : floor_ok f -> floor_ok (floor_record f fee).
Proof.
  intros [_ [Hw Hc]]. split; [reflexivity|]. cbn [floor_record ff_recent ff_capacity]. split; [|exact Hc]. rewrite length_app. cbn [length].
  destruct (Z.leb_spec (ff_capacity f) (Z.of_nat (length (ff_recent f)))); [|lia]. destruct (ff_recent f); cbn [tail length] in *; lia.
Qed.

Lemma floor_ok_pressure f v count max_count bytes max_bytes : floor_ok f -> floor_ok (update_pressure f v count max_count bytes max_bytes).
Proof.
  intros [Hcur [Hw Hc]]. unfold update_pressure.
  assert (Hr : forall g, ff_capacity g = ff_capacity f -> floor_ok (floor_reset g)) by (intros g E; split; [reflexivity|cbn; rewrite E; lia]).
  destruct v; cbn [negb]; [destruct (_ || (_ && _)); [now apply Hr|]; destruct (_ || _)|destruct (count =? 0); [now apply Hr|]]; now split.
Qed.

(** ** The chain view *)

Inductive ChainViewReadError := StaleOrUnavailable | CorruptSegment | CachePoisoned.

Definition SEGMENT_READ_CACHE_CAPACITY : nat := 4.

Section View.
Context {D : Type}.

(** The store answers a read at a tip or fails; failures and absent segments are
    the same to the view. *)
Record ChainView := mkView {
  vw_tip_height : Z;
  vw_num_slots : Z;
  vw_active_slot_count : Z;
  vw_user_epoch_anchor_id : list Z;
  vw_tip_hash : list Z;
  vw_state : SegmentedFriState (D := D);
  vw_store : option (Z -> list Z -> Z -> option (Z * SegmentColumns))
}.

Definition vw_log_slots (v : ChainView) : Z := Z.of_nat (log_slots (vw_state v)).

Definition segment_of (v : ChainView) (idx : Z) : Z := Z.shiftr idx (Z.of_nat (effective_log_seg (vw_state v))) mod 2 ^ 16.

(** A segment from the store, with the shape the state expects. *)
Definition fetch_segment (v : ChainView) (segment_id : Z) : result ChainViewReadError SegmentColumns :=
  store ← ok_or (vw_store v) StaleOrUnavailable;
  found ← ok_or (store (vw_tip_height v) (vw_tip_hash v) segment_id) StaleOrUnavailable;
  let effective_log := effective_log_seg (vw_state v) in
  _ ← ensure (negb (negb (found.1 =? Z.of_nat effective_log) || negb (columns_len found.2 (2 ^ effective_log)))) CorruptSegment;
  Ok found.2.

(** [columns.values\[local\]] and the owner columns; out of range panics. *)
Definition column_at (cols : SegmentColumns) (local : nat) : option SlotValue :=
  v ← col_values cols !! local; hi ← col_owners_hi cols !! local; lo ← col_owners_lo cols !! local; Some (mkSlot v hi lo).

Definition local_of (v : ChainView) (idx : Z) : nat := Z.to_nat (Z.land idx (Z.shiftl 1 (Z.of_nat (effective_log_seg (vw_state v))) - 1)).

Abbreviation SegmentReadCache := (list (Z * SegmentColumns)) (only parsing).

(** The cached segment with the cache in which it comes first. *)
Fixpoint cache_hit (segment_id : Z) (cache : SegmentReadCache) : option (SegmentColumns * SegmentReadCache) :=
  match cache with
  | [] => None
  | (id, cols) :: rest =>
      if id =? segment_id then Some (cols, rest)
      else match cache_hit segment_id rest with Some (found, rest) => Some (found, (id, cols) :: rest) | None => None end
  end.

Definition try_slot (v : ChainView) (cache : SegmentReadCache) (idx : Z) : exec ChainViewReadError SlotValue * SegmentReadCache :=
  if vw_num_slots v <=? idx then (Return EMPTY, cache)
  else
    let segment_id := segment_of v idx in
    if negb (is_evicted (vw_state v) segment_id) then (Return (slot (vw_state v) idx), cache)
    else
      match vw_store v with
      | None => (Fail StaleOrUnavailable, cache)
      | Some _ =>
          match cache_hit segment_id cache with
          | Some (columns, rest) => (expect (column_at columns (local_of v idx)), (segment_id, columns) :: rest)
          | None =>
              match fetch_segment v segment_id with
              | Err e => (Fail e, cache)
              | Ok columns =>
                  (expect (column_at columns (local_of v idx)), take SEGMENT_READ_CACHE_CAPACITY ((segment_id, columns) :: cache))
              end
          end
      end.

(** The same read without a cache. *)
Definition read_slot (v : ChainView) (idx : Z) : result ChainViewReadError SlotValue :=
  if vw_num_slots v <=? idx then Ok EMPTY
  else if negb (is_evicted (vw_state v) (segment_of v idx)) then Ok (slot (vw_state v) idx)
  else (fun columns => column_slot columns (local_of v idx)) <$> fetch_segment v (segment_of v idx).

(** What a cache may hold: shaped segments the store answers at this tip. *)
Definition cache_ok (v : ChainView) (cache : SegmentReadCache) : Prop :=
  (length cache <= SEGMENT_READ_CACHE_CAPACITY)%nat /\ Forall (fun p => fetch_segment v p.1 = Ok p.2) cache.

Lemma fetch_shape v seg cols : fetch_segment v seg = Ok cols -> columns_len cols (2 ^ effective_log_seg (vw_state v)) = true.
Proof.
  unfold fetch_segment. intros H. apply bind_ok_inv in H as (store & _ & H). apply bind_ok_inv in H as ([l c] & _ & H). apply bind_ok_inv in H as (u & Hs & [= <-]).
  apply ensure_ok_iff in Hs. rewrite negb_orb, !negb_involutive in Hs. now apply andb_prop in Hs as [_ ?].
Qed.

Lemma column_at_ok v seg cols idx : 0 <= idx -> fetch_segment v seg = Ok cols -> column_at cols (local_of v idx) = Some (column_slot cols (local_of v idx)).
Proof.
  intros Hi Hf. apply fetch_shape in Hf. unfold columns_len in Hf. apply andb_prop in Hf as [Hf H3]. apply andb_prop in Hf as [H1 H2].
  apply Nat.eqb_eq in H1, H2, H3.
  assert (Hl : (local_of v idx < 2 ^ effective_log_seg (vw_state v))%nat).
  { unfold local_of. rewrite Z.shiftl_mul_pow2, Z.mul_1_l by lia. replace (2 ^ Z.of_nat (effective_log_seg (vw_state v)) - 1) with (Z.ones (Z.of_nat (effective_log_seg (vw_state v)))) by (rewrite Z.ones_equiv; lia).
    rewrite Z.land_ones by lia. pose proof (Z.mod_pos_bound idx (2 ^ Z.of_nat (effective_log_seg (vw_state v))) ltac:(lia)). apply Nat2Z.inj_lt. rewrite Z2Nat.id, Nat2Z.inj_pow; lia. }
  destruct (lookup_lt_is_Some_2 (col_values cols) (local_of v idx) ltac:(lia)) as [x Ex], (lookup_lt_is_Some_2 (col_owners_hi cols) (local_of v idx) ltac:(lia)) as [y Ey],
    (lookup_lt_is_Some_2 (col_owners_lo cols) (local_of v idx) ltac:(lia)) as [z Ez].
  unfold column_at, column_slot. rewrite Ex, Ey, Ez. cbn. now rewrite (nth_lookup_Some _ _ _ _ Ex), (nth_lookup_Some _ _ _ _ Ey), (nth_lookup_Some _ _ _ _ Ez).
Qed.

Lemma cache_hit_some seg cache : match cache_hit seg cache with
  | Some (cols, rest) => (seg, cols) ∈ cache /\ length cache = S (length rest) /\ forall p, p ∈ rest -> p ∈ cache
  | None => forall cols, (seg, cols) ∉ cache
  end.
Proof.
  induction cache as [|[id cols] cache IH]; cbn [cache_hit]; [intros cols; apply not_elem_of_nil|]. destruct (Z.eqb_spec id seg) as [->|Hne].
  - split; [left|]. split; [reflexivity|]. intros p. now right.
  - destruct (cache_hit seg cache) as [[found rest]|].
    + destruct IH as (I1 & I2 & I3). split; [now right|]. split; [cbn; lia|]. intros p Hp. apply elem_of_cons in Hp as [->|Hp]; [left|right; auto].
    + intros c Hc. apply elem_of_cons in Hc as [[= ? ?]|Hc]; [congruence|exact (IH c Hc)].
Qed.

(** The cache is transparent, stays bounded, and no read panics. *)
Lemma try_slot_transparent v cache idx : cache_ok v cache -> 0 <= idx ->
  cache_ok v (try_slot v cache idx).2 /\ (try_slot v cache idx).1 = lift (read_slot v idx).
Proof.
  intros [Hl Hc] Hi. unfold try_slot, read_slot. destruct (vw_num_slots v <=? idx); [now split|].
  destruct (is_evicted _ _); cbn [negb]; [|now split].
  destruct (vw_store v) as [store|] eqn:Es; [|split; [now split|]; unfold fetch_segment; now rewrite Es].
  pose proof (cache_hit_some (segment_of v idx) cache) as Hh. destruct (cache_hit _ cache) as [[cols rest]|].
  - destruct Hh as (H1 & H2 & H3). pose proof (proj1 (Forall_forall _ _) Hc _ H1) as Hf. cbn [fst snd] in Hf. split.
    + split; cbn [fst snd]; [cbn; lia|]. constructor; [exact Hf|]. apply Forall_forall. intros p Hp. apply (proj1 (Forall_forall _ _) Hc). auto.
    + cbn [fst snd]. rewrite (column_at_ok v _ cols idx Hi Hf), Hf. reflexivity.
  - destruct (fetch_segment v (segment_of v idx)) as [cols|e] eqn:Ef; [|split; [now split|reflexivity]]. cbn [fst snd]. split.
    + split; [rewrite length_take; lia|]. apply Forall_take. now constructor.
    + rewrite (column_at_ok v _ cols idx Hi Ef). reflexivity.
Qed.
End View.

(** ** Contract intents *)

Definition MAX_TX_INTENT_BYTES_GLOBAL : Z := MAX_PAGED_SPEND_INTENT_BYTES.
Definition MAX_AUTHORIZATION_BYTES : Z := MAX_TX_AUTHORIZATION_BYTES.

Record DecodedMempoolIntent := mkDecoded { dm_intent : PagedSpendIntent; dm_opening : option ObjectOpening }.

Definition contract_opening (e : MempoolEntry) : option ObjectOpening :=
  bytes ← contract_opening_bytes e;
  match Opening_from_bytes bytes with Ok o => Some o | Err _ => None end.

Section Intents.
Variable hash_tx8x2_leaves : list (Z * Z) -> list Z.
Variable sponge_pairs : list Z -> list (Z * Z) -> list Z.
Variable digest : list Z -> list (Z * Z) -> list Z.

Definition DecodedMempoolIntent_from_bytes (bytes : list Z) : result SubmitError DecodedMempoolIntent :=
  let n := Z.of_nat (length bytes) in
  _ ← ensure (negb (MAX_TX_INTENT_BYTES_GLOBAL <? n)) (Sub.IntentTooLarge n MAX_TX_INTENT_BYTES_GLOBAL);
  if bool_decide (take (length INTENT_MAGIC) bytes = INTENT_MAGIC) then
    object ← map_err (fun _ => Sub.MalformedIntent) (ObjectIntent_from_bytes hash_tx8x2_leaves sponge_pairs bytes);
    Ok (mkDecoded (oi_spend object) (Some (oi_opening object)))
  else
    intent ← map_err (fun _ => Sub.MalformedIntent) (PagedSpendIntent_from_bytes hash_tx8x2_leaves sponge_pairs bytes);
    Ok (mkDecoded intent None).

Definition check_candidate_call (opening : ObjectOpening) (pages : list TxPage) (height : Z) : exec SubmitError CheckedTransition :=
  if negb (v2_active height) then Fail Sub.MalformedIntent
  else
    match pages with
    | [page] => fail_as (fun _ => Sub.MalformedIntent) (check_call hash_tx8x2_leaves sponge_pairs digest opening page height)
    | _ => Fail Sub.MalformedIntent
    end.

Definition eviction_reason (e : MempoolEntry) (candidate_height : option Z) : exec SubmitError (option EvictReason) :=
  match contract_opening e with
  | None => mret None
  | Some opening =>
      match candidate_height with
      | None => mret (Some ContractForkInactive)
      | Some height =>
          if negb (v2_active height) then mret (Some ContractForkInactive)
          else
            match check_candidate_call opening (en_pages e) height with
            | Panic => Panic
            | Fail _ => mret (Some ContractContextChanged)
            | Return checked =>
                mret (if match checked_add 64 (en_admitted_height e) 1 with
                         | Some admitted => bool_decide (ct_authority checked = authority_at opening admitted)
                         | None => false
                         end
                      then None else Some ContractContextChanged)
            end
      end
  end.

(** The bytes of a decoded intent. *)
Definition decoded_bytes (d : DecodedMempoolIntent) (bytes : list Z) : Prop :=
  match dm_opening d with
  | None => PagedSpendIntent_encode hash_tx8x2_leaves sponge_pairs (dm_intent d) = Ok bytes
  | Some o => opening_wf o /\ ObjectIntent_to_bytes hash_tx8x2_leaves sponge_pairs (mkObjectIntent o (dm_intent d)) = Ok bytes
  end.

(** The one decoder accepts both kinds of intent, each by its own encoding. *)
Lemma decoded_iff bytes d : bytes_ok bytes -> DecodedMempoolIntent_from_bytes bytes = Ok d
  <-> Forall body_wf (intent_pages (dm_intent d)) /\ bytes_ok (authorization_bytes (dm_intent d)) /\ decoded_bytes d bytes.
Proof.
  intros Hb. unfold DecodedMempoolIntent_from_bytes, decoded_bytes.
  pose proof (fun i => intent_iff hash_tx8x2_leaves sponge_pairs bytes i Hb) as Hobj.
  pose proof (fun i => intent_wire_bijection hash_tx8x2_leaves sponge_pairs bytes i Hb) as Hord.
  assert (Hmagic : forall i, ObjectIntent_from_bytes hash_tx8x2_leaves sponge_pairs bytes = Ok i ->
    Z.of_nat (length bytes) <= MAX_TX_INTENT_BYTES_GLOBAL /\ take (length INTENT_MAGIC) bytes = INTENT_MAGIC).
  { intros i Hi. unfold ObjectIntent_from_bytes in Hi. apply bind_ok_inv in Hi as (u & H1 & _). apply ensure_ok_iff in H1.
    rewrite !negb_orb, negb_involutive in H1. apply andb_prop in H1 as [H1 Hm]. apply andb_prop in H1 as [_ H1]. apply bool_decide_eq_true in Hm.
    apply negb_true_iff, Z.ltb_ge in H1. split; [|exact Hm]. etransitivity; [exact H1|]. vm_compute. discriminate. }
  assert (Hplain : forall i, PagedSpendIntent_from_bytes hash_tx8x2_leaves sponge_pairs bytes = Ok i ->
    Z.of_nat (length bytes) <= MAX_TX_INTENT_BYTES_GLOBAL /\ take (length INTENT_MAGIC) bytes <> INTENT_MAGIC).
  { intros i Hi. pose proof (proj1 (Hord i) Hi) as (W & A & E). apply encode_iff in E as [_ ->]; [|assumption..]. split; [|intros E; discriminate E].
    unfold PagedSpendIntent_from_bytes in Hi. destruct (Z.ltb_spec MAX_PAGED_SPEND_INTENT_BYTES (Z.of_nat (length (intent_bytes i)))); [discriminate|assumption]. }
  destruct d as [intent [o|]]; cbn [dm_intent dm_opening].
  - split.
    + intros H. apply bind_ok_inv in H as (u & _ & H). destruct (bool_decide _); apply bind_ok_inv in H as (i & Hi & [= <- <-]).
      apply map_err_ok_iff in Hi. apply Hobj in Hi as (W & P & A & E). destruct i as [o' s]. auto.
    + intros (P & A & W & E). pose proof (proj2 (Hobj (mkObjectIntent o intent)) (conj W (conj P (conj A E)))) as Hi. destruct (Hmagic _ Hi) as [Hl Hm].
      rewrite (proj2 (Z.ltb_ge _ _) Hl), (bool_decide_eq_true_2 _ Hm), Hi. reflexivity.
  - split.
    + intros H. apply bind_ok_inv in H as (u & _ & H). destruct (bool_decide _); apply bind_ok_inv in H as (i & Hi & [= <-]).
      apply map_err_ok_iff in Hi. now apply Hord.
    + intros H. pose proof (proj2 (Hord intent) H) as Hi. destruct (Hplain _ Hi) as [Hl Hm].
      rewrite (proj2 (Z.ltb_ge _ _) Hl), (bool_decide_eq_false_2 _ Hm), Hi. reflexivity.
Qed.
End Intents.
