(* ===== verification/AsyncMempool.v ===== *)
(** * The node's transaction pool ([noid_mempool/src/pool.rs])

    The state behind the lock of [AsyncMempool] and the operations on it: the
    submission of an intent, which checks under the lock, verifies the
    authorization outside it and checks again under it, the arrival of a block or
    of a new view, and the clean-up after a reorganisation.  Submissions
    interleave with each other and with blocks; in every state they can reach,
    each admitted spend passes the checks of the current view, and the next block
    can include it unless a view left its slots outside the domain. *)

From Stdlib Require Import ZArith Lia Bool Strings.String.
From stdpp Require Import base numbers list option gmap.
From S2P Require Import Prelude Codec Params Emission Tx TxWire PagedSpend Fees Rules Contract Assembly Sponge Merkle StateTree HotSegments Segmented ChainState Mempool PoolPolicy.
Open Scope Z_scope.

Definition contract_call_count (pages : list TxPage) : Z :=
  Z.of_nat (length (filter (fun page => Z.land (validity_bitmap page) PAGED_SPEND_CONTRACT_BIT <> 0) pages)).

Definition check_candidate_resources (config : MempoolConfig) (tip_height pages inputs calls : Z) : exec SubmitError unit :=
  height ← lift (ok_or (checked_add 64 tip_height 1) Sub.Internal);
  check_resources config height pages inputs calls.

(** The retained bytes are those of the intent. *)
Definition canonical_intent_bytes_match (intent : PagedSpendIntent) (bytes : list Z) : bool :=
  let auth := authorization_bytes intent in
  let auth_len := Z.of_nat (length auth) in
  if negb (auth_len <? 2 ^ 32) then false
  else
    match paged_spend_authorization_wire_offset (Z.of_nat (length (intent_pages intent))) with
    | Err _ => false
    | Ok auth_offset =>
        match checked_add 64 auth_offset auth_len with
        | None => false
        | Some expected_len =>
            if negb (Z.of_nat (length bytes) =? expected_len) then false
            else
              match fold_result (fun acc page => b ← TxPage_encode page; Ok (acc ++ b))
                      ([PAGED_SPEND_INTENT_MARKER] ++ put_u16 (Z.of_nat (length (intent_pages intent)) mod 2 ^ 16)) (intent_pages intent) with
              | Err _ => false
              | Ok prefix =>
                  let prefix := prefix ++ put_u32 auth_len in
                  (Z.of_nat (length prefix) =? auth_offset) && bool_decide (take (length prefix) bytes = prefix)
                  && bool_decide (drop (Z.to_nat auth_offset) bytes = auth)
              end
        end
    end.

Section Pool.
Context {D : Type}.
(** The hashes of the hash crate and the verifiers of the proof system. *)
Variable hash_tx8x2_leaves : list (Z * Z) -> list Z.
Variable sponge_pairs digest : list Z -> list (Z * Z) -> list Z.
Variable verify_intent_authorization : list TxPage -> list Z -> bool.
Variable verify_object_authorization : TxPage -> ObjectOpening -> Z -> list Z -> bool.
Abbreviation validate := (validate_paged_spend hash_tx8x2_leaves sponge_pairs).
Abbreviation ChainView := (ChainView (D := D)).

Record MempoolState := mkPoolState {
  ms_pool : Mempool;
  ms_view : ChainView;
  ms_floor : FeeFloor;
  ms_admitted_input_slots : gset Z;
  ms_admitted_output_slots : gset Z
}.

Definition total_intent_bytes (m : Mempool) : Z := Zsum ((fun p => Z.of_nat (length (en_intent_bytes p.2))) <$> map_to_list (entries m)).

Definition refresh_fee_floor (st : MempoolState) (config : MempoolConfig) (retained_bytes : Z) : MempoolState :=
  mkPoolState (ms_pool st) (ms_view st)
    (update_pressure (ms_floor st) (v1_1_active (saturating_add 64 (vw_tip_height (ms_view st)) 1)) (len (ms_pool st)) (cfg_capacity config)
       retained_bytes (cfg_max_total_intent_bytes config))
    (ms_admitted_input_slots st) (ms_admitted_output_slots st).

Definition AsyncMempool_new (view : ChainView) (config : MempoolConfig) : MempoolState :=
  refresh_fee_floor (mkPoolState (Mempool_new (cfg_capacity config)) view (FeeFloor_new (cfg_fee_floor_window config)) ∅ ∅) config 0.

(** ** Checks *)

Definition conflict_check (pool : gset Z) (slot : Z) : result SubmitError unit :=
  ensure (negb (bool_decide (slot ∈ pool))) (Sub.Consensus SlotConflict).

Definition check_slot_conflicts_with_pool (pages : list TxPage) (pool_inputs pool_outputs : gset Z) : result SubmitError unit :=
  fold_result (fun _ page =>
    _ ← fold_result (fun _ p => conflict_check pool_inputs (in_slot_index p.2)) tt (live_inputs page);
    fold_result (fun _ p => conflict_check pool_outputs (out_slot_index p.2)) tt (live_outputs page)) tt pages.

(** What the slot of an input must hold. *)
Definition expected_slot (owner : list Z) (input : TxInput) : SlotValue :=
  with_owner_fields (in_amount input) (in_creation_id input) (as_fields owner).

Definition check_input_slot (view : ChainView) (owner : list Z) (input : TxInput) : result SubmitError unit :=
  _ ← ensure (negb (vw_num_slots view <=? in_slot_index input)) (Sub.Consensus (ShapeMismatch (Text "input slot out of range")));
  actual ← map_err (fun _ => Sub.Internal) (read_slot view (in_slot_index input));
  ensure (bool_decide (actual = expected_slot owner input)) (Sub.Consensus BadStateRoot).

Definition check_input_slots (pages : list TxPage) (spend : PagedSpendFacts) (view : ChainView) : result SubmitError unit :=
  fold_result (fun _ page => fold_result (fun _ p => check_input_slot view (ps_input_owner spend) p.2) tt (live_inputs page)) tt pages.

Definition check_output_slot (view : ChainView) (output : TxOutput) : result SubmitError unit :=
  _ ← ensure (negb (vw_num_slots view <=? out_slot_index output)) (Sub.Consensus (ShapeMismatch (Text "output slot out of range")));
  actual ← map_err (fun _ => Sub.Internal) (read_slot view (out_slot_index output));
  ensure (bool_decide (actual = EMPTY)) (Sub.Consensus SlotConflict).

Definition check_output_slots (pages : list TxPage) (view : ChainView) : result SubmitError unit :=
  fold_result (fun _ page => fold_result (fun _ p => check_output_slot view p.2) tt (live_outputs page)) tt pages.

Definition consensus_required (view : ChainView) (spend : PagedSpendFacts) : Z :=
  fb_required_total (fee_breakdown (ps_live_inputs spend) (ps_live_outputs spend) (vw_active_slot_count view) (vw_log_slots view)).

Definition run_admission_checks (pages : list TxPage) (spend : PagedSpendFacts) (st : MempoolState) (config : MempoolConfig) : exec SubmitError Z :=
  let view := ms_view st in
  _ ← check_candidate_resources config (vw_tip_height view) (Z.of_nat (length pages)) (ps_live_inputs spend) (contract_call_count pages);
  let required := Z.max (floor_current (ms_floor st)) (consensus_required view spend) in
  _ ← lift (ensure (negb (ps_fee spend <? required)) (Sub.Consensus (BelowMinFee required (ps_fee spend))));
  _ ← lift (map_err (fun _ => Sub.MalformedIntent) (validate pages));
  _ ← lift (ensure (negb (bool_decide (ps_epoch_anchor spend = replicate 32 0))) (Sub.Consensus BadEpochAnchor));
  child ← lift (ok_or (checked_add 64 (vw_tip_height view) 1) Sub.Internal);
  let anchor_height := tx_epoch_anchor_height_for_child child in
  _ ← lift (ensure (negb (bool_decide (vw_user_epoch_anchor_id view = replicate 32 0)
                          || negb (bool_decide (ps_epoch_anchor spend = vw_user_epoch_anchor_id view)))) (Sub.Consensus BadEpochAnchor));
  _ ← lift (check_slot_conflicts_with_pool pages (ms_admitted_input_slots st) (ms_admitted_output_slots st));
  _ ← lift (check_input_slots pages spend view);
  _ ← lift (check_output_slots pages view);
  mret anchor_height.

(** ** Submission *)

(** What is checked of the intent before any lock. *)
Definition check_envelope (intent : PagedSpendIntent) (bytes : list Z) (opening : option ObjectOpening) : result SubmitError PagedSpendFacts :=
  let n := Z.of_nat (length bytes) in
  _ ← ensure (negb (MAX_TX_INTENT_BYTES_GLOBAL <? n)) (Sub.IntentTooLarge n MAX_TX_INTENT_BYTES_GLOBAL);
  ordinary_bytes ← (match opening with
    | Some opening =>
        _ ← ensure (INTENT_PREFIX_BYTES <=? n) Sub.MalformedIntent;
        let prefix := take (Z.to_nat INTENT_PREFIX_BYTES) bytes in
        canonical ← map_err (fun _ => Sub.MalformedIntent) (Opening_to_bytes opening);
        _ ← ensure (negb (negb (bool_decide (take (length INTENT_MAGIC) prefix = INTENT_MAGIC))
                          || negb (bool_decide (drop (length INTENT_MAGIC) prefix = canonical)))) Sub.MalformedIntent;
        Ok (drop (Z.to_nat INTENT_PREFIX_BYTES) bytes)
    | None => Ok bytes
    end);
  _ ← ensure (canonical_intent_bytes_match intent ordinary_bytes) Sub.MalformedIntent;
  spend ← map_err (fun _ => Sub.MalformedIntent) (validate (intent_pages intent));
  _ ← ensure (negb (bool_decide (opening = None)
                    && existsb (fun page => negb (Z.land (validity_bitmap page) PAGED_SPEND_V2_CONTRACT_MASK =? 0)) (intent_pages intent))) Sub.MalformedIntent;
  _ ← ensure (negb (length (authorization_bytes intent) =? 0)%nat) Sub.MissingProof;
  let auth_len := Z.of_nat (length (authorization_bytes intent)) in
  _ ← ensure (negb (MAX_AUTHORIZATION_BYTES <? auth_len)) (Sub.ProofTooLarge auth_len MAX_AUTHORIZATION_BYTES);
  Ok spend.

(** The duplicate and byte-cap checks, with the projected bytes. *)
Definition check_room (st : MempoolState) (config : MempoolConfig) (bytes txid : list Z) : result SubmitError Z :=
  _ ← ensure (negb (contains (ms_pool st) txid)) (Sub.AlreadyAdmitted txid);
  let projected_bytes := saturating_add 64 (total_intent_bytes (ms_pool st)) (Z.of_nat (length bytes)) in
  _ ← ensure (negb (cfg_max_total_intent_bytes config <? projected_bytes)) (Sub.BytesFull projected_bytes (cfg_max_total_intent_bytes config));
  Ok projected_bytes.

(** The first locked section: the height the authorization is verified for. *)
Definition prefilter (st : MempoolState) (config : MempoolConfig) (intent : PagedSpendIntent) (bytes : list Z) (spend : PagedSpendFacts)
    (opening : option ObjectOpening) : exec SubmitError Z :=
  _ ← lift (check_room st config bytes (ps_logical_txid spend));
  _ ← run_admission_checks (intent_pages intent) spend st config;
  height ← lift (ok_or (checked_add 64 (vw_tip_height (ms_view st)) 1) Sub.Internal);
  _ ← (match opening with
       | Some opening => _ ← check_candidate_call hash_tx8x2_leaves sponge_pairs digest opening (intent_pages intent) height; mret tt
       | None => mret tt
       end);
  mret height.

(** The work done outside the lock; [pages\[0\]] of no page panics. *)
Definition authorize (intent : PagedSpendIntent) (opening : option ObjectOpening) (authorized_height : Z) : exec SubmitError unit :=
  match opening with
  | Some opening =>
      page ← expect (head (intent_pages intent));
      lift (ensure (verify_object_authorization page opening authorized_height (authorization_bytes intent)) Sub.InvalidProof)
  | None => lift (ensure (verify_intent_authorization (intent_pages intent) (authorization_bytes intent)) Sub.InvalidProof)
  end.

Definition submit_error (config : MempoolConfig) (txid : list Z) (e : MempoolError) : SubmitError :=
  match e with
  | Full => Sub.Full (cfg_capacity config)
  | AlreadyAdmitted => Sub.AlreadyAdmitted txid
  | _ => Sub.Internal
  end.

Definition reserve (slots : list Z) (reserved : gset Z) : gset Z := foldl (fun reserved slot => {[slot]} ∪ reserved) reserved slots.

(** The second locked section: everything again, and admission. *)
Definition finish (st : MempoolState) (config : MempoolConfig) (intent : PagedSpendIntent) (bytes : list Z) (spend : PagedSpendFacts)
    (opening : option ObjectOpening) (authorized_height : Z) : exec SubmitError (list Z * MempoolState) :=
  let hash := ps_logical_txid spend in
  projected_bytes ← lift (check_room st config bytes hash);
  _ ← run_admission_checks (intent_pages intent) spend st config;
  _ ← (match opening with
       | Some opening =>
           height ← lift (ok_or (checked_add 64 (vw_tip_height (ms_view st)) 1) Sub.Internal);
           current ← check_candidate_call hash_tx8x2_leaves sponge_pairs digest opening (intent_pages intent) height;
           lift (ensure (bool_decide (ct_authority current = authority_at opening authorized_height)) Sub.InvalidProof)
       | None => mret tt
       end);
  pool ← fail_as (submit_error config hash) (Mempool_admit hash_tx8x2_leaves sponge_pairs (ms_pool st) (intent_pages intent) (vw_tip_height (ms_view st)));
  entry ← expect (entries pool !! hash);
  let inputs := en_pages entry ≫= (fun page => (fun p => in_slot_index p.2) <$> live_inputs page) in
  let outputs := en_pages entry ≫= (fun page => (fun p => out_slot_index p.2) <$> live_outputs page) in
  let st := mkPoolState (set_intent_bytes pool hash bytes) (ms_view st) (floor_record (ms_floor st) (ps_fee spend))
              (reserve inputs (ms_admitted_input_slots st)) (reserve outputs (ms_admitted_output_slots st)) in
  mret (hash, refresh_fee_floor st config projected_bytes).

(** ** Blocks and reorganisations *)

(** The slot sets and the retained bytes of the entries. *)
Definition rebuild_slot_sets (st : MempoolState) : Z * MempoolState :=
  let l := snd <$> map_to_list (entries (ms_pool st)) in
  let retained_bytes := foldl (fun n e => saturating_add 64 n (Z.of_nat (length (en_intent_bytes e)))) 0 l in
  let slots {A} (live : TxPage -> list (nat * A)) (slot : A -> Z) := l ≫= (fun e => en_pages e ≫= (fun page => (fun p => slot p.2) <$> live page)) in
  (retained_bytes,
   mkPoolState (ms_pool st) (ms_view st) (ms_floor st) (reserve (slots live_inputs in_slot_index) ∅) (reserve (slots live_outputs out_slot_index) ∅)).

(** Why an entry no longer fits the context of the view. *)
Definition stale_reason (config : MempoolConfig) (view : ChainView) (e : MempoolEntry) : exec SubmitError (option EvictReason) :=
  if negb (bool_decide (ps_epoch_anchor (en_spend e) = vw_user_epoch_anchor_id view)) then mret (Some EpochAnchorChanged)
  else
    match check_candidate_resources config (vw_tip_height view) (Z.of_nat (length (en_pages e))) (ps_live_inputs (en_spend e)) (contract_call_count (en_pages e)) with
    | Panic => Panic
    | Fail _ => mret (Some BlockCapacityChanged)
    | Return _ =>
        if ps_fee (en_spend e) <? consensus_required view (en_spend e) then mret (Some ConsensusFeeIncreased)
        else eviction_reason hash_tx8x2_leaves sponge_pairs digest e (checked_add 64 (vw_tip_height view) 1)
    end.

(** An output slot that cannot be read or is not empty. *)
Definition occupied (view : ChainView) (e : MempoolEntry) : bool :=
  existsb (fun page => existsb (fun p => match read_slot view (out_slot_index p.2) with
                                         | Ok slot => negb (bool_decide (slot = EMPTY))
                                         | Err _ => true
                                         end) (live_outputs page)) (en_pages e).

(** An input slot that cannot be read or does not hold what the input claims. *)
Definition consumed (view : ChainView) (e : MempoolEntry) : bool :=
  existsb (fun page => existsb (fun p => match read_slot view (in_slot_index p.2) with
                                         | Ok slot => negb (bool_decide (slot = expected_slot (ps_input_owner (en_spend e)) p.2))
                                         | Err _ => true
                                         end) (live_inputs page)) (en_pages e).

Definition remove_all (m : Mempool) (hashes : list (list Z)) : Mempool := foldl (fun m hash => (remove m hash).2) m hashes.

(** The entries a test selects, in the order of the hash map. *)
Definition select (test : MempoolEntry -> bool) (m : Mempool) : list (list Z) := fst <$> filter (fun p => test p.2 = true) (map_to_list (entries m)).

Definition on_new_block (st : MempoolState) (config : MempoolConfig) (confirmed : list (list Z)) (view : ChainView) : exec SubmitError MempoolState :=
  let pool := (on_block_confirmed (ms_pool st) confirmed).2 in
  reasons ← collect (fun p => reason ← stale_reason config view p.2; mret (p.1, reason)) (map_to_list (entries pool));
  let pool := remove_all pool (fst <$> filter (fun p => is_Some p.2) reasons) in
  let pool := remove_all pool (select (occupied view) pool) in
  let pool := remove_all pool (select (consumed view) pool) in
  let '(retained_bytes, st) :=
    rebuild_slot_sets (mkPoolState pool view (ms_floor st) (ms_admitted_input_slots st) (ms_admitted_output_slots st)) in
  mret (refresh_fee_floor st config retained_bytes).

Definition update_chain_view (st : MempoolState) (config : MempoolConfig) (view : ChainView) : exec SubmitError MempoolState :=
  on_new_block st config [] view.

Definition readmit_after_reorg (st : MempoolState) (config : MempoolConfig) (hashes : list (list Z)) : MempoolState :=
  match hashes with
  | [] => st
  | _ =>
      let '(pool, removed) := foldl (fun s hash => if contains s.1 hash then ((remove s.1 hash).2, true) else s) (ms_pool st, false) hashes in
      let st := mkPoolState pool (ms_view st) (ms_floor st) (ms_admitted_input_slots st) (ms_admitted_output_slots st) in
      if (removed : bool) then let '(retained_bytes, st) := rebuild_slot_sets st in refresh_fee_floor st config retained_bytes
      else if len pool =? 0 then refresh_fee_floor st config 0
      else st
  end.
End Pool.

(** ** What the checks establish *)

Section Checks.
Context {D : Type}.
Context (hash_tx8x2_leaves : list (Z * Z) -> list Z) (sponge_pairs digest : list Z -> list (Z * Z) -> list Z).
Abbreviation validate := (validate_paged_spend hash_tx8x2_leaves sponge_pairs).
Abbreviation ChainView := (ChainView (D := D)).

Lemma conflicts_iff pages (ins outs : gset Z) : check_slot_conflicts_with_pool pages ins outs = Ok tt
  <-> (forall s, s ∈ slots_in pages -> s ∉ ins) /\ (forall s, s ∈ slots_out pages -> s ∉ outs).
Proof.
  assert (Hc : forall (pool : gset Z) s, conflict_check pool s = Ok tt <-> s ∉ pool).
  { intros pool s. unfold conflict_check. rewrite ensure_ok_iff, negb_true_iff, bool_decide_eq_false. reflexivity. }
  unfold check_slot_conflicts_with_pool. rewrite fold_result_unit, Forall_forall. unfold slots_in, slots_out. split.
  - intros H. split; intros s (page & Hs & Hp)%list_elem_of_bind; apply list_elem_of_fmap in Hs as (p & -> & Hl); specialize (H page Hp);
      apply bind_ok_inv in H as ([] & H1 & H2); apply fold_result_unit in H1, H2.
    + apply Hc. exact (proj1 (Forall_forall _ _) H1 p Hl).
    + apply Hc. exact (proj1 (Forall_forall _ _) H2 p Hl).
  - intros [H1 H2] page Hp. apply bind_ok_iff. exists tt. rewrite !fold_result_unit, !Forall_forall. split; intros p Hl; apply Hc.
    + apply H1, list_elem_of_bind. exists page. split; [|exact Hp]. now apply (list_elem_of_fmap_2 (fun q : nat * TxInput => in_slot_index q.2)).
    + apply H2, list_elem_of_bind. exists page. split; [|exact Hp]. now apply (list_elem_of_fmap_2 (fun q : nat * TxOutput => out_slot_index q.2)).
Qed.

(** The slots of a view hold what the inputs claim, and nothing where the outputs go. *)
Definition inputs_live (view : ChainView) (owner : list Z) (pages : list TxPage) : Prop :=
  forall page p, page ∈ pages -> p ∈ live_inputs page -> read_slot view (in_slot_index p.2) = Ok (expected_slot owner p.2).

Definition outputs_free (view : ChainView) (pages : list TxPage) : Prop :=
  forall page p, page ∈ pages -> p ∈ live_outputs page -> read_slot view (out_slot_index p.2) = Ok EMPTY.

Definition in_domain (view : ChainView) (pages : list TxPage) : Prop :=
  forall s, s ∈ slots_in pages ++ slots_out pages -> s < vw_num_slots view.

Lemma input_slots_iff pages spend (view : ChainView) : check_input_slots pages spend view = Ok tt
  <-> (forall s, s ∈ slots_in pages -> s < vw_num_slots view) /\ inputs_live view (ps_input_owner spend) pages.
Proof.
  assert (Hc : forall i, check_input_slot view (ps_input_owner spend) i = Ok tt
    <-> in_slot_index i < vw_num_slots view /\ read_slot view (in_slot_index i) = Ok (expected_slot (ps_input_owner spend) i)).
  { intros i. unfold check_input_slot. rewrite bind_ok_iff. setoid_rewrite bind_ok_iff. setoid_rewrite ensure_ok_iff. setoid_rewrite map_err_ok_iff.
    setoid_rewrite negb_true_iff. setoid_rewrite Z.leb_gt. split.
    - intros (_ & H1 & v & H2 & H3). apply bool_decide_eq_true in H3 as ->. auto.
    - intros [H1 H2]. exists tt. split; [exact H1|]. exists (expected_slot (ps_input_owner spend) i). split; [exact H2|now apply bool_decide_eq_true]. }
  unfold check_input_slots. rewrite fold_result_unit, Forall_forall. setoid_rewrite fold_result_unit. setoid_rewrite Forall_forall. setoid_rewrite Hc. split.
  - intros H. split; [|intros page p Hp Hl; exact (proj2 (H page Hp p Hl))].
    intros s (page & Hs & Hp)%list_elem_of_bind. apply list_elem_of_fmap in Hs as (p & -> & Hl). exact (proj1 (H page Hp p Hl)).
  - intros [H1 H2] page Hp p Hl. split; [|exact (H2 page p Hp Hl)]. apply H1, list_elem_of_bind. exists page. split; [|exact Hp].
    now apply (list_elem_of_fmap_2 (fun q : nat * TxInput => in_slot_index q.2)).
Qed.

Lemma output_slots_iff pages (view : ChainView) : check_output_slots pages view = Ok tt
  <-> (forall s, s ∈ slots_out pages -> s < vw_num_slots view) /\ outputs_free view pages.
Proof.
  assert (Hc : forall o, check_output_slot view o = Ok tt <-> out_slot_index o < vw_num_slots view /\ read_slot view (out_slot_index o) = Ok EMPTY).
  { intros o. unfold check_output_slot. rewrite bind_ok_iff. setoid_rewrite bind_ok_iff. setoid_rewrite ensure_ok_iff. setoid_rewrite map_err_ok_iff.
    setoid_rewrite negb_true_iff. setoid_rewrite Z.leb_gt. split.
    - intros (_ & H1 & v & H2 & H3). apply bool_decide_eq_true in H3 as ->. auto.
    - intros [H1 H2]. exists tt. split; [exact H1|]. exists EMPTY. split; [exact H2|now apply bool_decide_eq_true]. }
  unfold check_output_slots. rewrite fold_result_unit, Forall_forall. setoid_rewrite fold_result_unit. setoid_rewrite Forall_forall. setoid_rewrite Hc. split.
  - intros H. split; [|intros page p Hp Hl; exact (proj2 (H page Hp p Hl))].
    intros s (page & Hs & Hp)%list_elem_of_bind. apply list_elem_of_fmap in Hs as (p & -> & Hl). exact (proj1 (H page Hp p Hl)).
  - intros [H1 H2] page Hp p Hl. split; [|exact (H2 page p Hp Hl)]. apply H1, list_elem_of_bind. exists page. split; [|exact Hp].
    now apply (list_elem_of_fmap_2 (fun q : nat * TxOutput => out_slot_index q.2)).
Qed.

(** What [run_admission_checks] demands. *)
Record passes (config : MempoolConfig) (st : MempoolState (D := D)) (pages : list TxPage) (spend : PagedSpendFacts) : Prop := {
  pa_tip : vw_tip_height (ms_view st) + 1 < 2 ^ 64;
  pa_class : within_class config (vw_tip_height (ms_view st) + 1) (Z.of_nat (length pages)) (ps_live_inputs spend) (contract_call_count pages);
  pa_floor : floor_current (ms_floor st) <= ps_fee spend;
  pa_fee : consensus_required (ms_view st) spend <= ps_fee spend;
  pa_valid : exists facts, validate pages = Ok facts;
  pa_anchor : ps_epoch_anchor spend = vw_user_epoch_anchor_id (ms_view st) /\ ps_epoch_anchor spend <> replicate 32 0;
  pa_free : (forall s, s ∈ slots_in pages -> s ∉ ms_admitted_input_slots st) /\ (forall s, s ∈ slots_out pages -> s ∉ ms_admitted_output_slots st);
  pa_inputs : inputs_live (ms_view st) (ps_input_owner spend) pages;
  pa_outputs : outputs_free (ms_view st) pages;
  pa_domain : in_domain (ms_view st) pages
}.

Lemma candidate_resources_cases config tip pages inputs calls : config_ok config ->
  match check_candidate_resources config tip pages inputs calls with
  | Return _ => tip + 1 < 2 ^ 64 /\ within_class config (tip + 1) pages inputs calls
  | Fail _ => ~ (tip + 1 < 2 ^ 64 /\ within_class config (tip + 1) pages inputs calls)
  | Panic => False
  end.
Proof.
  intros Hc. unfold check_candidate_resources, checked_add. destruct (Z.ltb_spec (tip + 1) (2 ^ 64)); cbn [ok_or lift mbind exec_bind]; [|lia].
  pose proof (check_resources_cases config (tip + 1) pages inputs calls Hc) as H'. destruct (check_resources _ _ _ _ _); tauto.
Qed.

Lemma admission_checks_cases config st pages spend : config_ok config ->
  match run_admission_checks hash_tx8x2_leaves sponge_pairs pages spend st config with
  | Return _ => passes config st pages spend
  | Fail _ => ~ passes config st pages spend
  | Panic => False
  end.
Proof.
  intros Hc. unfold run_admission_checks. set (view := ms_view st).
  pose proof (candidate_resources_cases config (vw_tip_height view) (Z.of_nat (length pages)) (ps_live_inputs spend) (contract_call_count pages) Hc) as H1.
  destruct (check_candidate_resources _ _ _ _ _); cbn [mbind exec_bind]; [|intros P; apply H1; split; apply P|exact H1]. destruct H1 as [Htip Hcls].
  destruct (Z.ltb_spec (ps_fee spend) (Z.max (floor_current (ms_floor st)) (consensus_required view spend))) as [Hf|Hf]; cbn [negb ensure lift mbind exec_bind].
  { intros P. pose proof (pa_floor _ _ _ _ P) as Q1. pose proof (pa_fee _ _ _ _ P) as Q2. fold view in Q2. lia. }
  destruct (validate pages) as [facts|e] eqn:Ev; cbn [map_err lift mbind exec_bind]; [|intros P; destruct (pa_valid _ _ _ _ P) as [f Hf']; congruence].
  destruct (decide (ps_epoch_anchor spend = replicate 32 0)) as [Ez|Ez]; [rewrite (bool_decide_eq_true_2 _ Ez)|rewrite (bool_decide_eq_false_2 _ Ez)]; cbn [negb ensure lift mbind exec_bind].
  { intros P. exact (proj2 (pa_anchor _ _ _ _ P) Ez). }
  unfold checked_add. rewrite (proj2 (Z.ltb_lt _ _) Htip). cbn [ok_or lift mbind exec_bind].
  destruct (decide (vw_user_epoch_anchor_id view = replicate 32 0)) as [E0|E0]; [rewrite (bool_decide_eq_true_2 _ E0)|rewrite (bool_decide_eq_false_2 _ E0)]; cbn [orb negb ensure lift mbind exec_bind].
  { intros P. destruct (pa_anchor _ _ _ _ P) as [Ea _]. fold view in Ea. congruence. }
  destruct (decide (ps_epoch_anchor spend = vw_user_epoch_anchor_id view)) as [Ea|Ea]; [rewrite (bool_decide_eq_true_2 _ Ea)|rewrite (bool_decide_eq_false_2 _ Ea)]; cbn [negb ensure lift mbind exec_bind].
  2: { intros P. exact (Ea (proj1 (pa_anchor _ _ _ _ P))). }
  pose proof (conflicts_iff pages (ms_admitted_input_slots st) (ms_admitted_output_slots st)) as H2.
  destruct (check_slot_conflicts_with_pool _ _ _) as [[]|e]; cbn [lift mbind exec_bind]; [|intros P; discriminate (proj2 H2 (pa_free _ _ _ _ P))].
  pose proof (input_slots_iff pages spend view) as H3. destruct (check_input_slots pages spend view) as [[]|e]; cbn [lift mbind exec_bind].
  2: { intros P. enough (Err e = Ok tt) by discriminate. apply H3. split; [|exact (pa_inputs _ _ _ _ P)]. intros s Hs. apply (pa_domain _ _ _ _ P), elem_of_app. now left. }
  pose proof (output_slots_iff pages view) as H4. destruct (check_output_slots pages view) as [[]|e]; cbn [lift mbind exec_bind].
  2: { intros P. enough (Err e = Ok tt) by discriminate. apply H4. split; [|exact (pa_outputs _ _ _ _ P)]. intros s Hs. apply (pa_domain _ _ _ _ P), elem_of_app. now right. }
  destruct (proj1 H2 eq_refl), (proj1 H3 eq_refl), (proj1 H4 eq_refl). constructor; fold view; try assumption; eauto; [lia|lia|].
  intros s Hs. apply elem_of_app in Hs as [Hs|Hs]; auto.
Qed.

(** A contract call at the candidate height. *)
Definition call_accepted (o : ObjectOpening) (pages : list TxPage) (height : Z) : Prop :=
  v2_active height = true /\ exists page t, pages = [page] /\ check_call hash_tx8x2_leaves sponge_pairs digest o page height = Return t.

Lemma candidate_call_cases o pages height : opening_wf o -> Forall body_wf pages -> u64 height ->
  match check_candidate_call hash_tx8x2_leaves sponge_pairs digest o pages height with
  | Return t => call_accepted o pages height /\ ct_authority t = authority_at o height
  | Fail _ => ~ call_accepted o pages height
  | Panic => False
  end.
Proof.
  intros Ho Hw Hh. unfold check_candidate_call, call_accepted. destruct (v2_active height) eqn:Ev; cbn [negb]; [|intros [? _]; discriminate].
  destruct pages as [|page [|? ?]]; [now intros [_ (? & ? & ? & _)]| |now intros [_ (? & ? & ? & _)]].
  apply Forall_cons_1 in Hw as [Hw _]. pose proof (check_call_cases hash_tx8x2_leaves sponge_pairs digest o page height Ho Hw Hh) as H.
  destruct (check_call _ _ _ o page height) as [t|e|] eqn:E; cbn [fail_as].
  - split; [split; [reflexivity|]; eauto|]. now destruct H as (next & terminal & payout & _ & -> & _).
  - intros [_ (p & t & [= <-] & Ht)]. congruence.
  - exact H.
Qed.
End Checks.

(** ** The retained bytes *)

Lemma encode_pages_inv pages : forall acc p, fold_result (fun acc page => b ← TxPage_encode page; Ok (acc ++ b)) acc pages = Ok p ->
  p = acc ++ put_many encode_page_body pages.
Proof.
  induction pages as [|page pages IH]; intros acc p H; cbn [fold_result] in H; [injection H as <-; now rewrite app_nil_r|].
  apply bind_ok_inv in H as (acc' & H1 & H). apply bind_ok_inv in H1 as (b & H1 & [= <-]). unfold TxPage_encode in H1. apply bind_ok_inv in H1 as (u & _ & [= <-]).
  rewrite (IH _ _ H). unfold put_many. now rewrite bind_cons, app_assoc.
Qed.

Lemma wire_offset_iff n k : paged_spend_authorization_wire_offset n = Ok k <-> 1 <= n <= 128 /\ k = 7 + 323 * n.
Proof.
  unfold paged_spend_authorization_wire_offset, validate_page_count, MAX_PAGED_SPEND_PAGES. change (Z.of_nat TX_BODY_WIRE_SIZE) with 323.
  rewrite bind_ok_iff. setoid_rewrite ensure_ok_iff. setoid_rewrite andb_true_iff. setoid_rewrite Z.leb_le. unfold checked_mul, checked_add. split.
  - intros (_ & [H1 H2] & H). rewrite (proj2 (Z.ltb_lt (n * 323) (2 ^ 64))) in H by lia. cbn [mbind option_bind] in H.
    rewrite (proj2 (Z.ltb_lt (1 + 2 + n * 323) (2 ^ 64))) in H by lia. cbn [mbind option_bind] in H.
    rewrite (proj2 (Z.ltb_lt (1 + 2 + n * 323 + 4) (2 ^ 64))) in H by lia. injection H as <-. lia.
  - intros [H ->]. exists tt. split; [lia|]. rewrite (proj2 (Z.ltb_lt (n * 323) (2 ^ 64))) by lia. cbn [mbind option_bind].
    rewrite (proj2 (Z.ltb_lt (1 + 2 + n * 323) (2 ^ 64))) by lia. cbn [mbind option_bind].
    rewrite (proj2 (Z.ltb_lt (1 + 2 + n * 323 + 4) (2 ^ 64))) by lia. cbn. f_equal. lia.
Qed.

(** The intent without its authorization. *)
Definition intent_prefix (i : PagedSpendIntent) : list Z :=
  put_bytes [PAGED_SPEND_INTENT_MARKER] ++ put_u16 (Z.of_nat (length (intent_pages i))) ++ put_many encode_page_body (intent_pages i)
  ++ put_u32 (Z.of_nat (length (authorization_bytes i))).

Lemma length_intent_prefix i : Forall body_wf (intent_pages i) -> length (intent_prefix i) = (7 + 323 * length (intent_pages i))%nat.
Proof.
  intros Hw. unfold intent_prefix, put_bytes, put_u16, put_u32, put_uint. rewrite !length_app, !length_to_le_bytes, (length_put_many _ _ TX_BODY_WIRE_SIZE).
  2: { eapply Forall_impl; [exact Hw|]. apply length_encode_page_body. }
  change TX_BODY_WIRE_SIZE with 323%nat. cbn [length]. lia.
Qed.

Lemma intent_bytes_split i : intent_bytes i = intent_prefix i ++ authorization_bytes i.
Proof. unfold intent_bytes, intent_prefix. now rewrite <- !app_assoc. Qed.

Lemma canonical_match i bytes : Forall body_wf (intent_pages i) -> canonical_intent_bytes_match i bytes = true ->
  bytes = intent_bytes i /\ 1 <= Z.of_nat (length (intent_pages i)) <= 128 /\ Z.of_nat (length (authorization_bytes i)) < 2 ^ 32.
Proof.
  intros Hw H. unfold canonical_intent_bytes_match in H. destruct (Z.ltb_spec (Z.of_nat (length (authorization_bytes i))) (2 ^ 32)) as [Ha|]; [|discriminate]. cbn [negb] in H.
  destruct (paged_spend_authorization_wire_offset _) as [offset|] eqn:Eo; [|discriminate]. apply wire_offset_iff in Eo as [Hn ->].
  destruct (checked_add 64 _ _) as [expected|]; [|discriminate]. destruct (negb _); [discriminate|].
  destruct (fold_result _ _ _) as [p|] eqn:Ep; [|discriminate]. apply encode_pages_inv in Ep as ->. rewrite Z.mod_small in H by lia.
  assert (Epre : (([PAGED_SPEND_INTENT_MARKER] ++ put_u16 (Z.of_nat (length (intent_pages i)))) ++ put_many encode_page_body (intent_pages i))
                 ++ put_u32 (Z.of_nat (length (authorization_bytes i))) = intent_prefix i) by (unfold intent_prefix, put_bytes; now rewrite <- !app_assoc).
  rewrite Epre in H. apply andb_prop in H as [H H3]. apply andb_prop in H as [_ H2]. apply bool_decide_eq_true in H2, H3.
  split; [|split; [exact Hn|exact Ha]]. rewrite intent_bytes_split, <- H2 at 1. rewrite <- H3. rewrite <- (take_drop (length (intent_prefix i)) bytes) at 1. f_equal. f_equal.
  rewrite length_intent_prefix by exact Hw. lia.
Qed.

Lemma canonical_match_complete i : Forall body_wf (intent_pages i) -> (exists first, valid_spend (intent_pages i) first) ->
  Z.of_nat (length (authorization_bytes i)) < 2 ^ 32 -> canonical_intent_bytes_match i (intent_bytes i) = true.
Proof.
  intros Hw [first Hv] Ha. unfold canonical_intent_bytes_match. rewrite (proj2 (Z.ltb_lt _ _) Ha). cbn [negb]. pose proof (vs_count _ _ Hv) as Hc.
  assert (Hn : 1 <= Z.of_nat (length (intent_pages i)) <= 128) by lia.
  rewrite (proj2 (wire_offset_iff (Z.of_nat (length (intent_pages i))) _) (conj Hn eq_refl)). unfold checked_add.
  rewrite (proj2 (Z.ltb_lt (7 + 323 * Z.of_nat (length (intent_pages i)) + Z.of_nat (length (authorization_bytes i))) (2 ^ 64))) by lia.
  rewrite intent_bytes_split, length_app, length_intent_prefix by exact Hw.
  rewrite (proj2 (Z.eqb_eq _ _)) by lia. cbn [negb]. rewrite fold_encode_pages by (eapply valid_pages_wf; eauto). rewrite Z.mod_small by lia.
  assert (Epre : (([PAGED_SPEND_INTENT_MARKER] ++ put_u16 (Z.of_nat (length (intent_pages i)))) ++ put_many encode_page_body (intent_pages i))
                 ++ put_u32 (Z.of_nat (length (authorization_bytes i))) = intent_prefix i) by (unfold intent_prefix, put_bytes; now rewrite <- !app_assoc).
  rewrite Epre, length_intent_prefix by exact Hw. rewrite (proj2 (Z.eqb_eq _ _)) by lia. cbn [andb].
  rewrite take_app_length' by (now rewrite length_intent_prefix). rewrite drop_app_length' by (rewrite length_intent_prefix by exact Hw; lia).
  now rewrite !bool_decide_eq_true_2.
Qed.

(** What precedes the ordinary intent in an envelope. *)
Definition envelope_prefix (opening : option ObjectOpening) : list Z :=
  match opening with Some o => INTENT_MAGIC ++ opening_bytes o | None => [] end.

Definition prefix_length (opening : option ObjectOpening) : nat := match opening with Some _ => 707 | None => 0 end.

Record typed (intent : PagedSpendIntent) (opening : option ObjectOpening) : Prop := {
  ty_pages : Forall body_wf (intent_pages intent);
  ty_auth : bytes_ok (authorization_bytes intent);
  ty_opening : forall o, opening = Some o -> opening_wf o
}.

Lemma length_envelope_prefix opening : (forall o, opening = Some o -> opening_wf o) -> length (envelope_prefix opening) = prefix_length opening.
Proof.
  destruct opening as [o|]; intros Ho; [|reflexivity]. unfold envelope_prefix, opening_bytes.
  rewrite !length_app, length_to_le_bytes, length_opening_fields by now apply Ho. reflexivity.
Qed.

Section Envelopes.
Context (hash_tx8x2_leaves : list (Z * Z) -> list Z) (sponge_pairs : list Z -> list (Z * Z) -> list Z).
Abbreviation validate := (validate_paged_spend hash_tx8x2_leaves sponge_pairs).

(** The envelopes that [check_envelope] lets through. *)
Record sealed (intent : PagedSpendIntent) (bytes : list Z) (opening : option ObjectOpening) (spend : PagedSpendFacts) : Prop := {
  se_valid : validate (intent_pages intent) = Ok spend;
  se_bytes : bytes = envelope_prefix opening ++ intent_bytes intent;
  se_opening : forall o, opening = Some o -> valid_opening o;
  se_plain : opening = None -> Forall (fun page => Z.land (validity_bitmap page) PAGED_SPEND_V2_CONTRACT_MASK = 0) (intent_pages intent);
  se_auth : 0 < Z.of_nat (length (authorization_bytes intent)) <= MAX_AUTHORIZATION_BYTES;
  se_length : Z.of_nat (length bytes) <= MAX_TX_INTENT_BYTES_GLOBAL
}.

Lemma envelope_iff intent bytes opening spend : typed intent opening ->
  check_envelope hash_tx8x2_leaves sponge_pairs intent bytes opening = Ok spend <-> sealed intent bytes opening spend.
Proof.
  intros [Hw Ha Ho]. unfold check_envelope. change (Z.to_nat INTENT_PREFIX_BYTES) with 707%nat. change INTENT_PREFIX_BYTES with 707. change (length INTENT_MAGIC) with 8%nat.
  assert (Hplain : negb (bool_decide (opening = None)
      && existsb (fun page => negb (Z.land (validity_bitmap page) PAGED_SPEND_V2_CONTRACT_MASK =? 0)) (intent_pages intent)) = true
    <-> (opening = None -> Forall (fun page => Z.land (validity_bitmap page) PAGED_SPEND_V2_CONTRACT_MASK = 0) (intent_pages intent))).
  { rewrite negb_andb, orb_true_iff, negb_true_iff, bool_decide_eq_false, negb_true_iff. rewrite <- not_true_iff_false, existsb_exists, Forall_forall. split.
    - intros [H|H] E; [contradiction|]. intros page Hp. destruct (Z.eqb_spec (Z.land (validity_bitmap page) PAGED_SPEND_V2_CONTRACT_MASK) 0) as [E0|E0]; [exact E0|].
      destruct H. exists page. split; [now apply list_elem_of_In|]. now rewrite (proj2 (Z.eqb_neq _ _) E0).
    - intros H. destruct (decide (opening = None)) as [E|E]; [right|now left]. intros (page & Hp & Hb). apply list_elem_of_In in Hp. rewrite (H E page Hp) in Hb. discriminate. }
  split.
  - intros H. apply bind_ok_inv in H as (u & H1 & H). apply ensure_ok_iff, negb_true_iff, Z.ltb_ge in H1. apply bind_ok_inv in H as (ob & H2 & H).
    apply bind_ok_inv in H as (u2 & H3 & H). apply ensure_ok_iff in H3. apply canonical_match in H3 as (Eb & _ & _); [|exact Hw].
    apply bind_ok_inv in H as (sp & H4 & H). apply map_err_ok_iff in H4. apply bind_ok_inv in H as (u3 & H5 & H). apply ensure_ok_iff in H5.
    apply bind_ok_inv in H as (u4 & H6 & H). apply ensure_ok_iff, negb_true_iff, Nat.eqb_neq in H6. apply bind_ok_inv in H as (u5 & H7 & [= <-]).
    apply ensure_ok_iff, negb_true_iff, Z.ltb_ge in H7.
    assert (E : bytes = envelope_prefix opening ++ intent_bytes intent /\ forall o, opening = Some o -> valid_opening o).
    { destruct opening as [o|]; [|injection H2 as <-; split; [exact Eb|discriminate]].
      apply bind_ok_inv in H2 as (v & Hl & H2). apply bind_ok_inv in H2 as (canon & Hc & H2). apply map_err_ok_iff in Hc.
      apply (Opening_to_bytes_iff o canon (Ho o eq_refl)) in Hc as [Hv ->]. apply bind_ok_inv in H2 as (v2 & Hm & [= <-]). apply ensure_ok_iff in Hm.
      rewrite negb_orb, !negb_involutive in Hm. apply andb_prop in Hm as [M1 M2]. apply bool_decide_eq_true in M1, M2.
      split; [|now intros o' [= <-]]. rewrite <- Eb. unfold envelope_prefix. rewrite <- M1 at 1. rewrite <- M2, take_drop. now rewrite take_drop. }
    destruct E as [E Hv]. constructor; try assumption; [now apply Hplain|lia].
  - intros [S1 S2 S3 S4 S5 S6]. rewrite (proj2 (Z.ltb_ge _ _) S6). cbn [negb ensure mbind result_bind].
    assert (Eb : (match opening with
      | Some opening0 =>
          _ ← ensure (707 <=? Z.of_nat (length bytes)) Sub.MalformedIntent;
          canonical ← map_err (fun _ => Sub.MalformedIntent) (Opening_to_bytes opening0);
          _ ← ensure (negb (negb (bool_decide (take 8 (take 707 bytes) = INTENT_MAGIC)) || negb (bool_decide (drop 8 (take 707 bytes) = canonical)))) Sub.MalformedIntent;
          Ok (drop 707 bytes)
      | None => Ok bytes
      end) = Ok (intent_bytes intent)).
    { destruct opening as [o|]; [|now rewrite S2]. pose proof (length_envelope_prefix (Some o) Ho) as Lp. cbn [prefix_length] in Lp.
      rewrite (proj2 (Opening_to_bytes_iff o _ (Ho o eq_refl)) (conj (S3 o eq_refl) eq_refl)).
      rewrite (proj2 (Z.leb_le _ _)) by (rewrite S2, length_app, Lp; lia). cbn [ensure map_err mbind result_bind].
      rewrite S2, take_app_length', drop_app_length' by now rewrite Lp. cbn [envelope_prefix].
      rewrite (take_app_length' INTENT_MAGIC), (drop_app_length' INTENT_MAGIC) by reflexivity. now rewrite !bool_decide_eq_true_2. }
    rewrite Eb. cbn [mbind result_bind].
    assert (Hval : exists first, valid_spend (intent_pages intent) first) by (apply (validate_ok_iff hash_tx8x2_leaves sponge_pairs _ Hw); eauto).
    unfold MAX_AUTHORIZATION_BYTES, MAX_TX_AUTHORIZATION_BYTES in S5. rewrite canonical_match_complete by (assumption || lia). cbn [ensure mbind result_bind]. rewrite S1. cbn [map_err mbind result_bind].
    rewrite (proj2 Hplain S4). cbn [ensure mbind result_bind]. rewrite (proj2 (Nat.eqb_neq _ _)) by lia. cbn [negb ensure mbind result_bind].
    unfold MAX_AUTHORIZATION_BYTES, MAX_TX_AUTHORIZATION_BYTES. rewrite (proj2 (Z.ltb_ge _ _)) by lia. reflexivity.
Qed.

(** The entry of an envelope once its bytes are stored. *)
Definition stored (intent : PagedSpendIntent) (bytes : list Z) (spend : PagedSpendFacts) (height : Z) : MempoolEntry :=
  mkEntry (intent_pages intent) spend height (compute_fee_rate spend) (Z.of_nat (length (authorization_bytes intent))) bytes.

Lemma stored_prefix intent bytes opening spend height : typed intent opening -> sealed intent bytes opening spend ->
  contract_prefix_bytes (stored intent bytes spend height) = Z.of_nat (prefix_length opening).
Proof.
  intros [_ _ Ho] S. unfold contract_prefix_bytes. cbn [en_intent_bytes stored]. rewrite (se_bytes _ _ _ _ S).
  destruct opening as [o|]; cbn [envelope_prefix prefix_length]; [|reflexivity]. rewrite <- app_assoc, (take_app_length' INTENT_MAGIC) by reflexivity.
  now rewrite bool_decide_eq_true_2.
Qed.

Lemma stored_lengths intent bytes opening spend : typed intent opening -> sealed intent bytes opening spend ->
  1 <= Z.of_nat (length (intent_pages intent)) <= 128
  /\ Z.of_nat (length bytes) = Z.of_nat (prefix_length opening) + (7 + 323 * Z.of_nat (length (intent_pages intent))) + Z.of_nat (length (authorization_bytes intent))
  /\ Z.of_nat (length (authorization_bytes intent)) < 2 ^ 32.
Proof.
  intros [Hw _ Ho] [S1 S2 _ _ S5 _]. unfold MAX_AUTHORIZATION_BYTES, MAX_TX_AUTHORIZATION_BYTES in S5.
  destruct (proj1 (validate_ok_iff hash_tx8x2_leaves sponge_pairs _ Hw) (ex_intro _ spend S1)) as [first Hv]. pose proof (vs_count _ _ Hv) as Hc.
  rewrite S2, length_app, length_envelope_prefix, intent_bytes_split, length_app, length_intent_prefix by assumption. lia.
Qed.

Lemma stored_start intent bytes opening spend height : typed intent opening -> sealed intent bytes opening spend ->
  authorization_start (stored intent bytes spend height) = Some (Z.of_nat (prefix_length opening) + (7 + 323 * Z.of_nat (length (intent_pages intent)))).
Proof.
  intros T S. unfold authorization_start. rewrite (stored_prefix _ _ opening) by assumption. cbn [en_pages stored].
  destruct (stored_lengths _ _ _ _ T S) as (H1 & _ & _). rewrite (proj2 (wire_offset_iff (Z.of_nat (length (intent_pages intent))) _) (conj H1 eq_refl)).
  apply checked_add_some. destruct opening; cbn [prefix_length]; lia.
Qed.

Lemma stored_authorization intent bytes opening spend height : typed intent opening -> sealed intent bytes opening spend ->
  cached_authorization (stored intent bytes spend height) = Some (authorization_bytes intent).
Proof.
  intros T S. pose proof T as [Hw _ Ho]. destruct (stored_lengths _ _ _ _ T S) as (H1 & H2 & H3). pose proof (se_auth _ _ _ _ S) as [Hpos _].
  unfold cached_authorization. cbn [en_cached_authorization_len en_intent_bytes stored]. rewrite (proj2 (Z.eqb_neq _ _)) by lia.
  rewrite (stored_start _ _ opening) by assumption. cbn [mbind option_bind]. unfold checked_add.
  rewrite (proj2 (Z.ltb_lt _ _)) by (destruct opening; cbn [prefix_length]; lia). cbn [mbind option_bind]. unfold slice_get.
  rewrite (proj2 (Z.leb_le _ _)) by lia. rewrite (proj2 (Z.leb_le _ _)) by lia. cbn [andb]. f_equal.
  rewrite (se_bytes _ _ _ _ S), intent_bytes_split, app_assoc. rewrite drop_app_length'.
  2: { rewrite length_app, length_envelope_prefix, length_intent_prefix by assumption. lia. }
  apply take_ge. lia.
Qed.

Lemma stored_opening intent bytes opening spend height : typed intent opening -> sealed intent bytes opening spend ->
  contract_opening (stored intent bytes spend height) = opening.
Proof.
  intros T S. unfold contract_opening, contract_opening_bytes. rewrite (stored_prefix _ _ opening) by assumption. cbn [en_intent_bytes stored].
  change (Z.of_nat (length INTENT_MAGIC)) with 8. destruct T as [Hw _ Ho]. destruct opening as [o|]; cbn [prefix_length]; [|reflexivity].
  pose proof (length_envelope_prefix (Some o) Ho) as Lp. cbn [prefix_length] in Lp. rewrite (se_bytes _ _ _ _ S).
  unfold slice_get. rewrite (proj2 (Z.leb_le (Z.of_nat 707) (Z.of_nat _))) by (rewrite length_app, Lp; lia). cbn [Z.leb Z.compare andb]. change (8 <=? Z.of_nat 707) with true. cbn [andb mbind option_bind].
  change (Z.to_nat (Z.of_nat 707 - 8)) with 699%nat. change (Z.to_nat 8) with 8%nat. cbn [envelope_prefix] in *. rewrite <- app_assoc, (drop_app_length' INTENT_MAGIC) by reflexivity.
  rewrite length_app in Lp. change (length INTENT_MAGIC) with 8%nat in Lp. assert (L : length (opening_bytes o) = 699%nat) by lia.
  rewrite (take_app_length' (opening_bytes o)) by now rewrite L. rewrite L. change (Z.of_nat 699 =? OPENING_BYTES) with true. cbn iota. cbn [mbind option_bind].
  assert (Hb : bytes_ok (opening_bytes o)) by exact (opening_bytes_ok o (Ho o eq_refl)).
  now rewrite (proj2 (Opening_from_bytes_iff (opening_bytes o) o Hb) (conj (Ho o eq_refl) (conj (se_opening _ _ _ _ S o eq_refl) eq_refl))).
Qed.

Lemma stored_entry m h pages intent bytes opening spend height : typed intent opening -> sealed intent bytes opening spend -> pages = intent_pages intent ->
  entries m !! h = Some (mkEntry pages spend height (compute_fee_rate spend) 0 []) ->
  entries (set_intent_bytes m h bytes) = <[h := stored intent bytes spend height]> (entries m).
Proof.
  intros T S -> E. unfold set_intent_bytes. rewrite E. cbn zeta. cbn [entries]. f_equal. unfold with_intent, stored. cbn [en_pages en_spend en_admitted_height en_fee_rate]. f_equal.
  destruct (stored_lengths _ _ _ _ T S) as (H1 & H2 & H3).
  assert (Es : authorization_start (mkEntry (intent_pages intent) spend height (compute_fee_rate spend) 0 bytes) = authorization_start (stored intent bytes spend height)) by reflexivity.
  cbn [en_cached_authorization_len]. rewrite Es, (stored_start _ _ opening) by assumption. cbn [mbind option_bind]. unfold checked_sub. rewrite (proj2 (Z.leb_le _ _)) by lia. cbn [mbind option_bind].
  rewrite (proj2 (Z.ltb_lt _ _)) by lia. cbn. lia.
Qed.
End Envelopes.

(** ** Helpers on sets and maps *)

Lemma elem_of_reserve l : forall (acc : gset Z) s, s ∈ reserve l acc <-> s ∈ l \/ s ∈ acc.
Proof.
  unfold reserve. induction l as [|x l IH]; intros acc s; cbn [foldl]; [set_solver|]. rewrite IH, elem_of_cons, elem_of_union, elem_of_singleton. tauto.
Qed.

Lemma remove_capacity m h : capacity (remove m h).2 = capacity m.
Proof. unfold remove. destruct (entries m !! h); [|reflexivity]. cbn zeta. now rewrite delete_pages_eq. Qed.

Lemma set_bytes_capacity m h bytes : capacity (set_intent_bytes m h bytes) = capacity m.
Proof. unfold set_intent_bytes. now destruct (entries m !! h). Qed.

Lemma remove_all_ok hash sponge l m : pool_ok hash sponge m -> pool_ok hash sponge (remove_all m l) /\ capacity (remove_all m l) = capacity m
  /\ forall h e, entries (remove_all m l) !! h = Some e <-> entries m !! h = Some e /\ h ∉ l.
Proof.
  intros Hm. destruct (removes_ok hash sponge l m Hm) as (H1 & _ & H2). fold (remove_all m l) in H1, H2. split; [exact H1|]. split.
  - clear. revert m. unfold remove_all. induction l as [|x l IH]; intros m; [reflexivity|]. cbn [foldl]. now rewrite IH, remove_capacity.
  - intros h e. rewrite H2. destruct (bool_decide_reflect (h ∈ l)); split; [discriminate|tauto|auto|tauto].
Qed.

Lemma elem_of_select test m h : h ∈ select test m <-> exists e, entries m !! h = Some e /\ test e = true.
Proof.
  unfold select. rewrite list_elem_of_fmap. setoid_rewrite list_elem_of_filter. split.
  - intros ([h' e] & -> & Ht & Hin). apply elem_of_map_to_list in Hin. eauto.
  - intros (e & He & Ht). exists (h, e). split; [reflexivity|]. split; [exact Ht|]. now apply elem_of_map_to_list.
Qed.

Lemma collect_return {E A B} (f : A -> exec E B) l : (forall x, x ∈ l -> exists y, f x = Return y) ->
  exists ys, collect f l = Return ys /\ Forall2 (fun x y => f x = Return y) l ys.
Proof.
  induction l as [|x l IH]; intros H; [exists []; split; [reflexivity|constructor]|]. destruct (H x ltac:(left)) as [y Hy].
  destruct (IH ltac:(intros z Hz; apply H; now right)) as (ys & E1 & E2). exists (y :: ys). cbn. rewrite Hy. cbn. rewrite E1. split; [reflexivity|now constructor].
Qed.

(** The slots of all entries, as the rebuild collects them. *)
Lemma elem_of_pool_slots {A} (live : TxPage -> list (nat * A)) (slot : A -> Z) (m : Mempool) s :
  s ∈ (snd <$> map_to_list (entries m)) ≫= (fun e => en_pages e ≫= (fun page => (fun p => slot p.2) <$> live page))
  <-> exists h e, entries m !! h = Some e /\ s ∈ en_pages e ≫= (fun page => (fun p => slot p.2) <$> live page).
Proof.
  rewrite list_elem_of_bind. split.
  - intros (e & Hs & He). apply list_elem_of_fmap in He as ([h e'] & -> & Hin). apply elem_of_map_to_list in Hin. eauto.
  - intros (h & e & He & Hs). exists e. split; [exact Hs|]. apply list_elem_of_fmap. exists (h, e). split; [reflexivity|]. now apply elem_of_map_to_list.
Qed.

(** Fewer entries retain fewer bytes. *)
Lemma total_insert m m' h e : entries m' = <[h := e]> (entries m) -> entries m !! h = None ->
  total_intent_bytes m' = Z.of_nat (length (en_intent_bytes e)) + total_intent_bytes m.
Proof. intros E Hn. unfold total_intent_bytes. rewrite E, map_to_list_insert by exact Hn. apply Zsum_cons. Qed.

Lemma total_nonneg m : 0 <= total_intent_bytes m.
Proof. unfold total_intent_bytes. apply Zsum_nonneg, Forall_fmap, Forall_forall. intros p _. cbn. lia. Qed.

Lemma total_subset m m' : entries m' ⊆ entries m -> total_intent_bytes m' <= total_intent_bytes m.
Proof.
  unfold total_intent_bytes. generalize (entries m'). intros g'. generalize (entries m). clear m m'. induction g' as [|h e g' Hn IH] using map_ind; intros g Hsub.
  - rewrite map_to_list_empty. apply Zsum_nonneg, Forall_fmap, Forall_forall. intros p _. cbn. lia.
  - assert (He : g !! h = Some e) by (eapply lookup_weaken; [apply lookup_insert_eq|exact Hsub]). rewrite map_to_list_insert by exact Hn.
    rewrite <- (map_to_list_delete g h e He). cbn [fmap list_fmap]. rewrite !Zsum_cons. apply Z.add_le_mono_l, IH.
    apply map_subseteq_spec. intros i x Hi. rewrite lookup_delete_ne by congruence. eapply lookup_weaken; [|exact Hsub]. rewrite lookup_insert_ne by congruence. exact Hi.
Qed.

(** ** The invariant *)

Section System.
Context {D : Type}.
Context (hash_tx8x2_leaves : list (Z * Z) -> list Z) (sponge_pairs digest : list Z -> list (Z * Z) -> list Z).
Context (verify_intent_authorization : list TxPage -> list Z -> bool) (verify_object_authorization : TxPage -> ObjectOpening -> Z -> list Z -> bool).
Context (config : MempoolConfig).
Hypothesis Hconfig : config_ok config.
Abbreviation State := (MempoolState (D := D)).
Abbreviation View := (ChainView (D := D)).
Abbreviation accepted := (call_accepted hash_tx8x2_leaves sponge_pairs digest).
Abbreviation sealed := (sealed hash_tx8x2_leaves sponge_pairs).
Abbreviation pool_ok := (pool_ok hash_tx8x2_leaves sponge_pairs).
Abbreviation authorize := (authorize verify_intent_authorization verify_object_authorization).

(** What a block that leads to the view demands of an entry it keeps.  A slot
    beyond the domain reads as empty. *)
Record kept (view : View) (e : MempoolEntry) : Prop := {
  in_anchor : ps_epoch_anchor (en_spend e) = vw_user_epoch_anchor_id view;
  in_tip : vw_tip_height view + 1 < 2 ^ 64;
  in_class : within_class config (vw_tip_height view + 1) (Z.of_nat (length (en_pages e))) (ps_live_inputs (en_spend e)) (contract_call_count (en_pages e));
  in_fee : consensus_required view (en_spend e) <= ps_fee (en_spend e);
  in_inputs : inputs_live view (ps_input_owner (en_spend e)) (en_pages e);
  in_outputs : outputs_free view (en_pages e);
  in_call : forall o, contract_opening e = Some o -> accepted o (en_pages e) (vw_tip_height view + 1)
    /\ authority_at o (vw_tip_height view + 1) = authority_at o (en_admitted_height e + 1)
}.

(** What the next block on the view demands of an entry: its slots also lie in
    the domain. *)
Definition includable (view : View) (e : MempoolEntry) : Prop := kept view e /\ in_domain view (en_pages e).

(** Where an entry comes from: an envelope whose authorization was verified. *)
Definition settled (e : MempoolEntry) : Prop := exists intent opening height,
  typed intent opening /\ sealed intent (en_intent_bytes e) opening (en_spend e) /\ e = stored intent (en_intent_bytes e) (en_spend e) (en_admitted_height e)
  /\ authorize intent opening height = Return tt /\ u64 (en_admitted_height e + 1) /\ ps_epoch_anchor (en_spend e) <> replicate 32 0
  /\ forall o, opening = Some o -> authority_at o height = authority_at o (en_admitted_height e + 1).

(** The cap on retained bytes, below the saturation of the counter. *)
Definition bytes_bounded (m : Mempool) : Prop := 0 <= cfg_max_total_intent_bytes config < umax 64 -> total_intent_bytes m <= cfg_max_total_intent_bytes config.

Record state_ok (st : State) : Prop := {
  so_pool : pool_ok (ms_pool st);
  so_capacity : capacity (ms_pool st) = cfg_capacity config;
  so_floor : floor_ok (ms_floor st);
  so_view : 0 <= vw_tip_height (ms_view st);
  so_inputs : forall s, s ∈ ms_admitted_input_slots st <-> exists h e, entries (ms_pool st) !! h = Some e /\ s ∈ slots_in (en_pages e);
  so_outputs : forall s, s ∈ ms_admitted_output_slots st <-> exists h e, entries (ms_pool st) !! h = Some e /\ s ∈ slots_out (en_pages e);
  so_settled : forall h e, entries (ms_pool st) !! h = Some e -> settled e;
  so_ready : forall h e, entries (ms_pool st) !! h = Some e -> kept (ms_view st) e;
  so_bytes : bytes_bounded (ms_pool st)
}.

Lemma settled_opening e : settled e -> (forall o, contract_opening e = Some o -> opening_wf o) /\ Forall body_wf (en_pages e).
Proof.
  intros (intent & opening & height & T & S & E & _). rewrite E. rewrite (stored_opening hash_tx8x2_leaves sponge_pairs _ _ opening) by assumption.
  split; [exact (ty_opening _ _ T)|exact (ty_pages _ _ T)].
Qed.

Lemma eviction_cases e height : (forall o, contract_opening e = Some o -> opening_wf o) -> Forall body_wf (en_pages e) -> u64 height -> u64 (en_admitted_height e + 1) ->
  exists r, eviction_reason hash_tx8x2_leaves sponge_pairs digest e (Some height) = Return r
    /\ (r = None <-> forall o, contract_opening e = Some o -> accepted o (en_pages e) height /\ authority_at o height = authority_at o (en_admitted_height e + 1)).
Proof.
  intros Ho Hw Hh Ha. unfold eviction_reason. destruct (contract_opening e) as [o|]; [|exists None; split; [reflexivity|now split]].
  specialize (Ho o eq_refl). destruct (v2_active height) eqn:Ev; cbn [negb].
  2: { eexists. split; [reflexivity|]. split; [discriminate|]. intros H. destruct (H o eq_refl) as [[F _] _]. congruence. }
  pose proof (candidate_call_cases hash_tx8x2_leaves sponge_pairs digest o (en_pages e) height Ho Hw Hh) as H.
  destruct (check_candidate_call _ _ _ _ _ _) as [t|err|]; [|eexists; split; [reflexivity|]; split; [discriminate|]; intros F; destruct (F o eq_refl); contradiction|contradiction].
  destruct H as [Hacc Et]. unfold checked_add. unfold in_range in Ha. rewrite (proj2 (Z.ltb_lt _ _)) by lia. rewrite Et.
  destruct (bool_decide_reflect (authority_at o height = authority_at o (en_admitted_height e + 1))) as [E|E]; eexists; (split; [reflexivity|]); split; try discriminate; auto.
  - now intros _ o' [= <-].
  - intros F. destruct (F o eq_refl). contradiction.
Qed.

Lemma occupied_false (view : View) e : occupied view e = false <-> outputs_free view (en_pages e).
Proof.
  unfold occupied, outputs_free. rewrite <- not_true_iff_false, existsb_exists. split.
  - intros H page p Hp Hl. destruct (read_slot view (out_slot_index p.2)) as [v|err] eqn:E.
    + destruct (decide (v = EMPTY)) as [->|Hne]; [reflexivity|]. destruct H. exists page. split; [now apply list_elem_of_In|]. apply existsb_exists.
      exists p. split; [now apply list_elem_of_In|]. rewrite E, bool_decide_eq_false_2 by exact Hne. reflexivity.
    + destruct H. exists page. split; [now apply list_elem_of_In|]. apply existsb_exists. exists p. split; [now apply list_elem_of_In|]. now rewrite E.
  - intros H (page & Hp & (p & Hl & Hb)%existsb_exists). apply list_elem_of_In in Hp, Hl. rewrite (H page p Hp Hl), bool_decide_eq_true_2 in Hb by reflexivity. discriminate.
Qed.

Lemma consumed_false (view : View) e : consumed view e = false <-> inputs_live view (ps_input_owner (en_spend e)) (en_pages e).
Proof.
  unfold consumed, inputs_live. rewrite <- not_true_iff_false, existsb_exists. split.
  - intros H page p Hp Hl. destruct (read_slot view (in_slot_index p.2)) as [v|err] eqn:E.
    + destruct (decide (v = expected_slot (ps_input_owner (en_spend e)) p.2)) as [->|Hne]; [reflexivity|]. destruct H. exists page. split; [now apply list_elem_of_In|]. apply existsb_exists.
      exists p. split; [now apply list_elem_of_In|]. rewrite E, bool_decide_eq_false_2 by exact Hne. reflexivity.
    + destruct H. exists page. split; [now apply list_elem_of_In|]. apply existsb_exists. exists p. split; [now apply list_elem_of_In|]. now rewrite E.
  - intros H (page & Hp & (p & Hl & Hb)%existsb_exists). apply list_elem_of_In in Hp, Hl. rewrite (H page p Hp Hl), bool_decide_eq_true_2 in Hb by reflexivity. discriminate.
Qed.

(** The context checks of a block, on an entry of the pool. *)
Lemma stale_cases (view : View) e : settled e -> 0 <= vw_tip_height view ->
  exists r, stale_reason hash_tx8x2_leaves sponge_pairs digest config view e = Return r
    /\ (r = None /\ occupied view e = false /\ consumed view e = false <-> kept view e).
Proof.
  intros He Htip. destruct (settled_opening e He) as [Ho Hw]. pose proof He as (_ & _ & _ & _ & _ & _ & _ & Hadm & _).
  assert (Hno : forall (x : option EvictReason), x <> None -> ~ kept view e -> exists r, Return x = Return (E := SubmitError) r /\ (r = None /\ occupied view e = false /\ consumed view e = false <-> kept view e)).
  { intros x Hx Hn. exists x. split; [reflexivity|]. tauto. }
  unfold stale_reason. destruct (decide (ps_epoch_anchor (en_spend e) = vw_user_epoch_anchor_id view)) as [Ea|Ea]; [rewrite (bool_decide_eq_true_2 _ Ea)|rewrite (bool_decide_eq_false_2 _ Ea)]; cbn [negb].
  2: { apply Hno; [discriminate|]. intros P. exact (Ea (in_anchor _ _ P)). }
  pose proof (candidate_resources_cases config (vw_tip_height view) (Z.of_nat (length (en_pages e))) (ps_live_inputs (en_spend e)) (contract_call_count (en_pages e)) Hconfig) as Hr.
  destruct (check_candidate_resources _ _ _ _ _); [|apply Hno; [discriminate|]; intros P; apply Hr; split; apply P|contradiction]. destruct Hr as [Ht Hcls].
  destruct (Z.ltb_spec (ps_fee (en_spend e)) (consensus_required view (en_spend e))) as [Hf|Hf]; [apply Hno; [discriminate|]; intros P; pose proof (in_fee _ _ P); lia|].
  unfold checked_add. rewrite (proj2 (Z.ltb_lt _ _) Ht).
  destruct (eviction_cases e (vw_tip_height view + 1) Ho Hw ltac:(unfold in_range; lia) Hadm) as (r & E & Hiff). exists r. split; [exact E|].
  rewrite occupied_false, consumed_false, Hiff. split; [intros (H1 & H2 & H3); now constructor|intros P; split; [|split]; apply P].
Qed.

(** A pool part of a state, whatever its slot sets, after a rebuild. *)
Lemma rebuilt_ok (st : State) : pool_ok (ms_pool st) -> capacity (ms_pool st) = cfg_capacity config -> floor_ok (ms_floor st) -> 0 <= vw_tip_height (ms_view st) ->
  (forall h e, entries (ms_pool st) !! h = Some e -> settled e /\ kept (ms_view st) e) -> bytes_bounded (ms_pool st) ->
  state_ok (refresh_fee_floor (rebuild_slot_sets st).2 config (rebuild_slot_sets st).1).
Proof.
  intros Hp Hc Hf Hv He Hb. constructor; cbn [refresh_fee_floor rebuild_slot_sets snd fst ms_pool ms_view ms_floor ms_admitted_input_slots ms_admitted_output_slots]; try assumption.
  - now apply floor_ok_pressure.
  - intros s. rewrite elem_of_reserve. rewrite (elem_of_pool_slots live_inputs in_slot_index). unfold slots_in, Assembly.in_slots. set_solver.
  - intros s. rewrite elem_of_reserve. rewrite (elem_of_pool_slots live_outputs out_slot_index). unfold slots_out, Assembly.out_slots. set_solver.
  - intros h e E. now apply (He h e).
  - intros h e E. now apply (He h e).
Qed.

(** A block keeps exactly the unconfirmed entries that pass its checks. *)
Lemma block_cases (st : State) confirmed (view : View) : state_ok st -> 0 <= vw_tip_height view ->
  exists st', on_new_block hash_tx8x2_leaves sponge_pairs digest st config confirmed view = Return st' /\ state_ok st' /\ ms_view st' = view
    /\ forall h e, entries (ms_pool st') !! h = Some e <-> entries (ms_pool st) !! h = Some e /\ h ∉ confirmed /\ kept view e.
Proof.
  intros Hst Hv. pose proof (so_pool _ Hst) as Hp. unfold on_new_block. rewrite confirm_eq. fold (remove_all (ms_pool st) confirmed).
  destruct (remove_all_ok _ _ confirmed _ Hp) as (P0 & C0 & E0). set (m0 := remove_all (ms_pool st) confirmed) in *.
  assert (Hset : forall h e, entries m0 !! h = Some e -> settled e) by (intros h e H; apply E0 in H as [H _]; exact (so_settled _ Hst _ _ H)).
  destruct (collect_return (fun p => reason ← stale_reason hash_tx8x2_leaves sponge_pairs digest config view p.2; mret (p.1, reason)) (map_to_list (entries m0))) as (rs & Ec & HF).
  { intros [h e] Hin. apply elem_of_map_to_list in Hin. destruct (stale_cases view e (Hset h e Hin) Hv) as (r & Er & _). exists (h, r). cbn [fst snd]. now rewrite Er. }
  rewrite Ec. cbn [mbind exec_bind]. set (stale := fst <$> filter (fun p => is_Some p.2) rs).
  assert (Hstale : forall h, h ∈ stale <-> exists e r, entries m0 !! h = Some e /\ stale_reason hash_tx8x2_leaves sponge_pairs digest config view e = Return (Some r)).
  { intros h. unfold stale. rewrite list_elem_of_fmap. setoid_rewrite list_elem_of_filter. split.
    - intros ([h' r] & -> & [x Hx] & Hin). cbn [fst snd] in *. subst r. apply list_elem_of_lookup in Hin as [k Hk].
      destruct (Forall2_lookup_r _ _ _ _ _ HF Hk) as ([h1 e1] & Hl & Hq). cbn [fst snd] in Hq. apply exec_bind_inv in Hq as (r & Hr & [= -> ->]).
      apply list_elem_of_lookup_2, elem_of_map_to_list in Hl. eauto.
    - intros (e & r & He & Hr). apply elem_of_map_to_list, list_elem_of_lookup in He as [k Hk]. destruct (Forall2_lookup_l _ _ _ _ _ HF Hk) as ([h1 r1] & Hl & Hq).
      cbn [fst snd] in Hq. rewrite Hr in Hq. cbn in Hq. injection Hq as <- <-. exists (h, Some r). split; [reflexivity|]. split; [eauto|]. eapply list_elem_of_lookup_2; exact Hl. }
  destruct (remove_all_ok _ _ stale m0 P0) as (P1 & C1 & E1). set (m1 := remove_all m0 stale) in *.
  destruct (remove_all_ok _ _ (select (occupied view) m1) m1 P1) as (P2 & C2 & E2). set (m2 := remove_all m1 _) in *.
  destruct (remove_all_ok _ _ (select (consumed view) m2) m2 P2) as (P3 & C3 & E3). set (m3 := remove_all m2 _) in *.
  assert (Hkeep : forall h e, entries m3 !! h = Some e <-> entries (ms_pool st) !! h = Some e /\ h ∉ confirmed /\ kept view e).
  { intros h e. rewrite E3, elem_of_select, E2, elem_of_select, E1, Hstale, E0. split.
    - intros (((H0 & H1) & H2) & H3). destruct H0 as [He Hnc]. destruct (stale_cases view e (so_settled _ Hst _ _ He) Hv) as (r & Er & Hiff).
      assert (He0 : entries m0 !! h = Some e) by now apply E0.
      assert (Hr : r = None) by (destruct r as [r|]; [|reflexivity]; destruct H1; eauto). subst r.
      assert (He1 : entries m1 !! h = Some e) by (apply E1; split; [exact He0|]; rewrite Hstale; exact H1).
      assert (Ho : occupied view e = false) by (apply not_true_iff_false; intros F; apply H2; eauto).
      assert (He2 : entries m2 !! h = Some e) by (apply E2; split; [exact He1|]; rewrite elem_of_select; exact H2).
      assert (Hi : consumed view e = false) by (apply not_true_iff_false; intros F; apply H3; eauto). split; [exact He|]. split; [exact Hnc|]. now apply Hiff.
    - intros (He & Hnc & Hin). destruct (stale_cases view e (so_settled _ Hst _ _ He) Hv) as (r & Er & Hiff). destruct (proj2 Hiff Hin) as (-> & Ho & Hi).
      assert (U : forall m e', (forall h e, entries m !! h = Some e -> entries (ms_pool st) !! h = Some e) -> entries m !! h = Some e' -> e' = e).
      { intros m e' Hsub H. apply Hsub in H. congruence. }
      assert (S0 : forall h e, entries m0 !! h = Some e -> entries (ms_pool st) !! h = Some e) by (intros h' e' H; now apply E0 in H).
      assert (S1 : forall h e, entries m1 !! h = Some e -> entries (ms_pool st) !! h = Some e) by (intros h' e' H; apply E1 in H as [H _]; auto).
      assert (S2 : forall h e, entries m2 !! h = Some e -> entries (ms_pool st) !! h = Some e) by (intros h' e' H; apply E2 in H as [H _]; auto).
      split; [split; [split; [auto|]|]|].
      + intros (e' & r & He' & Hr). rewrite (U m0 e' S0 He') in Hr. congruence.
      + intros (e' & He' & Hr). rewrite (U m1 e' S1 He') in Hr. congruence.
      + intros (e' & He' & Hr). rewrite (U m2 e' S2 He') in Hr. congruence. }
  set (st1 := mkPoolState m3 view (ms_floor st) (ms_admitted_input_slots st) (ms_admitted_output_slots st)).
  exists (refresh_fee_floor (rebuild_slot_sets st1).2 config (rebuild_slot_sets st1).1). split; [reflexivity|]. split; [|split; [reflexivity|exact Hkeep]].
  apply rebuilt_ok; cbn [st1 ms_pool ms_view ms_floor]; [exact P3|rewrite C3, C2, C1, C0; exact (so_capacity _ Hst)|exact (so_floor _ Hst)|exact Hv| |].
  - intros h e He. apply Hkeep in He as (He & _ & Hin). split; [exact (so_settled _ Hst _ _ He)|exact Hin].
  - intros Hmax. etransitivity; [|exact (so_bytes _ Hst Hmax)]. apply total_subset, map_subseteq_spec. intros h e He. now apply Hkeep in He.
Qed.

(** ** Admission *)

(** What the final locked section demands, beyond the verified envelope. *)
Record admissible (st : State) (intent : PagedSpendIntent) (bytes : list Z) (spend : PagedSpendFacts) (opening : option ObjectOpening) (authorized_height : Z) : Prop := {
  ad_new : entries (ms_pool st) !! ps_logical_txid spend = None;
  ad_room : len (ms_pool st) < cfg_capacity config;
  ad_bytes : saturating_add 64 (total_intent_bytes (ms_pool st)) (Z.of_nat (length bytes)) <= cfg_max_total_intent_bytes config;
  ad_passes : passes hash_tx8x2_leaves sponge_pairs config st (intent_pages intent) spend;
  ad_apart : forall s, s ∈ slots_in (intent_pages intent) ++ slots_out (intent_pages intent) -> unclaimed (ms_pool st) s;
  ad_call : forall o, opening = Some o -> accepted o (intent_pages intent) (vw_tip_height (ms_view st) + 1)
    /\ authority_at o (vw_tip_height (ms_view st) + 1) = authority_at o authorized_height
}.

(** The state after an admission. *)
Definition admitted_state (st : State) (intent : PagedSpendIntent) (bytes : list Z) (spend : PagedSpendFacts) : State :=
  let e := mkEntry (intent_pages intent) spend (vw_tip_height (ms_view st)) (compute_fee_rate spend) 0 [] in
  let pool := set_intent_bytes (admitted (ms_pool st) (ps_logical_txid spend) e) (ps_logical_txid spend) bytes in
  refresh_fee_floor (mkPoolState pool (ms_view st) (floor_record (ms_floor st) (ps_fee spend))
    (reserve (slots_in (intent_pages intent)) (ms_admitted_input_slots st)) (reserve (slots_out (intent_pages intent)) (ms_admitted_output_slots st)))
    config (saturating_add 64 (total_intent_bytes (ms_pool st)) (Z.of_nat (length bytes))).

Lemma room_iff (st : State) bytes txid n : check_room st config bytes txid = Ok n
  <-> entries (ms_pool st) !! txid = None /\ n = saturating_add 64 (total_intent_bytes (ms_pool st)) (Z.of_nat (length bytes)) /\ n <= cfg_max_total_intent_bytes config.
Proof.
  unfold check_room, contains. destruct (entries (ms_pool st) !! txid) as [e|]; [rewrite bool_decide_eq_true_2 by eauto|rewrite bool_decide_eq_false_2 by now intros [? ?]];
    cbn [negb ensure mbind result_bind]; [split; [discriminate|now intros (? & _)]|].
  destruct (Z.ltb_spec (cfg_max_total_intent_bytes config) (saturating_add 64 (total_intent_bytes (ms_pool st)) (Z.of_nat (length bytes)))); cbn [negb ensure mbind result_bind].
  - split; [discriminate|]. intros (_ & -> & H'). lia.
  - split; [intros [= <-]; auto|]. now intros (_ & -> & _).
Qed.

Lemma finish_cases (st : State) intent bytes spend opening height : state_ok st -> typed intent opening -> sealed intent bytes opening spend ->
  match finish hash_tx8x2_leaves sponge_pairs digest st config intent bytes spend opening height with
  | Return r => admissible st intent bytes spend opening height /\ r = (ps_logical_txid spend, admitted_state st intent bytes spend)
  | Fail _ => ~ admissible st intent bytes spend opening height
  | Panic => False
  end.
Proof.
  intros Hst T S. unfold finish. pose proof (room_iff st bytes (ps_logical_txid spend)) as Hroom.
  destruct (check_room _ _ _ _) as [n|e]; cbn [lift mbind exec_bind].
  2: { intros A. discriminate (proj2 (Hroom _) (conj (ad_new _ _ _ _ _ _ A) (conj eq_refl (ad_bytes _ _ _ _ _ _ A)))). }
  destruct (proj1 (Hroom n) eq_refl) as (Hnew & -> & Hbytes). clear Hroom.
  pose proof (admission_checks_cases hash_tx8x2_leaves sponge_pairs config st (intent_pages intent) spend Hconfig) as Hc.
  destruct (run_admission_checks _ _ _ _ _ _) as [a|e|]; cbn [mbind exec_bind]; [|intros A; exact (Hc (ad_passes _ _ _ _ _ _ A))|exact Hc].
  pose proof (pa_tip _ _ _ _ _ _ Hc) as Htip. pose proof (so_view _ Hst) as Hv.
  assert (Hcall : match (match opening with
    | Some opening =>
        height' ← lift (ok_or (checked_add 64 (vw_tip_height (ms_view st)) 1) Sub.Internal);
        current ← check_candidate_call hash_tx8x2_leaves sponge_pairs digest opening (intent_pages intent) height';
        lift (ensure (bool_decide (ct_authority current = authority_at opening height)) Sub.InvalidProof)
    | None => mret tt
    end : exec SubmitError unit) with
    | Return _ => forall o, opening = Some o -> accepted o (intent_pages intent) (vw_tip_height (ms_view st) + 1)
        /\ authority_at o (vw_tip_height (ms_view st) + 1) = authority_at o height
    | Fail _ => ~ forall o, opening = Some o -> accepted o (intent_pages intent) (vw_tip_height (ms_view st) + 1)
        /\ authority_at o (vw_tip_height (ms_view st) + 1) = authority_at o height
    | Panic => False
    end).
  { destruct opening as [o|]; [|cbn; discriminate]. unfold checked_add. rewrite (proj2 (Z.ltb_lt _ _) Htip). cbn [ok_or lift mbind exec_bind].
    pose proof (candidate_call_cases hash_tx8x2_leaves sponge_pairs digest o (intent_pages intent) (vw_tip_height (ms_view st) + 1) (ty_opening _ _ T o eq_refl) (ty_pages _ _ T)
      ltac:(unfold in_range; lia)) as H.
    destruct (check_candidate_call _ _ _ _ _ _) as [t|e|]; cbn [mbind exec_bind]; [|intros F; exact (H (proj1 (F o eq_refl)))|exact H]. destruct H as [Hacc Et]. rewrite Et.
    destruct (bool_decide_reflect (authority_at o (vw_tip_height (ms_view st) + 1) = authority_at o height)) as [E|E]; cbn [ensure lift].
    - now intros o' [= <-].
    - intros F. exact (E (proj2 (F o eq_refl))). }
  match type of Hcall with match ?m with _ => _ end => destruct m as [u|e|] end; cbn [mbind exec_bind]; [|intros A; exact (Hcall (ad_call _ _ _ _ _ _ A))|exact Hcall].
  pose proof (admit_cases hash_tx8x2_leaves sponge_pairs (ms_pool st) (intent_pages intent) (vw_tip_height (ms_view st)) (so_pool _ Hst) (ty_pages _ _ T)) as Ha.
  pose proof (se_valid _ _ _ _ _ _ S) as Ev.
  destruct (Mempool_admit _ _ _ _ _) as [m'|e|]; cbn [fail_as mbind exec_bind admit_outcome] in *.
  - destruct Ha as (spend' & Ev' & Hlen & Hn & Hfree & ->). assert (spend' = spend) as -> by congruence. rewrite (so_capacity _ Hst) in Hlen.
    cbn [admitted entries]. rewrite lookup_insert_eq. cbn [expect mbind exec_bind en_pages]. split; [|reflexivity]. constructor; assumption.
  - intros A. destruct e as [|h|h|].
    + destruct Ha as (spend' & Ev' & [e He]). assert (spend' = spend) as -> by congruence. rewrite (ad_new _ _ _ _ _ _ A) in He. discriminate.
    + destruct Ha as (s & e & Hs & He & Hin). apply (ad_apart _ _ _ _ _ _ A s (proj2 (elem_of_app _ _ _) (or_introl Hs)) h e He Hin).
    + destruct Ha as (s & e & Hs & He & Hin). apply (ad_apart _ _ _ _ _ _ A s (proj2 (elem_of_app _ _ _) (or_intror Hs)) h e He Hin).
    + pose proof (ad_room _ _ _ _ _ _ A). rewrite (so_capacity _ Hst) in Ha. lia.
  - destruct Ha as (_ & e & He). congruence.
Qed.

Lemma admitted_entries (st : State) intent bytes spend opening : typed intent opening -> sealed intent bytes opening spend ->
  entries (ms_pool (admitted_state st intent bytes spend)) = <[ps_logical_txid spend := stored intent bytes spend (vw_tip_height (ms_view st))]> (entries (ms_pool st)).
Proof.
  intros T S. unfold admitted_state. cbn [refresh_fee_floor ms_pool].
  rewrite (stored_entry hash_tx8x2_leaves sponge_pairs _ _ (intent_pages intent) intent bytes opening spend (vw_tip_height (ms_view st)) T S eq_refl); cbn [admitted entries]; [|apply lookup_insert_eq].
  apply insert_insert_eq.
Qed.

Lemma stored_kept (st : State) intent bytes spend opening height : state_ok st -> typed intent opening -> sealed intent bytes opening spend ->
  admissible st intent bytes spend opening height -> kept (ms_view st) (stored intent bytes spend (vw_tip_height (ms_view st))).
Proof.
  intros Hst T S A. pose proof (ad_passes _ _ _ _ _ _ A) as P. constructor; cbn [stored en_spend en_pages en_admitted_height].
  - exact (proj1 (pa_anchor _ _ _ _ _ _ P)).
  - exact (pa_tip _ _ _ _ _ _ P).
  - exact (pa_class _ _ _ _ _ _ P).
  - exact (pa_fee _ _ _ _ _ _ P).
  - exact (pa_inputs _ _ _ _ _ _ P).
  - exact (pa_outputs _ _ _ _ _ _ P).
  - rewrite (stored_opening hash_tx8x2_leaves sponge_pairs _ _ opening) by assumption. intros o Ho. split; [exact (proj1 (ad_call _ _ _ _ _ _ A o Ho))|reflexivity].
Qed.

Lemma admitted_state_ok (st : State) intent bytes spend opening height : state_ok st -> typed intent opening -> sealed intent bytes opening spend ->
  authorize intent opening height = Return tt -> admissible st intent bytes spend opening height -> state_ok (admitted_state st intent bytes spend).
Proof.
  intros Hst T S Hau A. pose proof (admitted_entries st intent bytes spend opening T S) as Ee. pose proof (ad_passes _ _ _ _ _ _ A) as P.
  pose proof (ad_new _ _ _ _ _ _ A) as Hnew. pose proof (so_view _ Hst) as Hv. pose proof (pa_tip _ _ _ _ _ _ P) as Htip.
  set (txid := ps_logical_txid spend) in *. set (e0 := mkEntry (intent_pages intent) spend (vw_tip_height (ms_view st)) (compute_fee_rate spend) 0 []).
  assert (Hsets : forall (kind : list TxPage -> list Z) (old : gset Z),
    (forall s, s ∈ old <-> exists h e, entries (ms_pool st) !! h = Some e /\ s ∈ kind (en_pages e)) ->
    forall s, s ∈ reserve (kind (intent_pages intent)) old <-> exists h e, entries (ms_pool (admitted_state st intent bytes spend)) !! h = Some e /\ s ∈ kind (en_pages e)).
  { intros kind old Hold s. rewrite elem_of_reserve, Hold, Ee. split.
    - intros [Hs|(h & e & He & Hs)]; [exists txid; eexists; rewrite lookup_insert_eq; eauto|]. exists h, e. rewrite lookup_insert_ne by congruence. auto.
    - intros (h & e & [[<- <-]|[_ He]]%lookup_insert_Some & Hs); [now left|right; eauto]. }
  assert (Hpool : pool_ok (admitted (ms_pool st) txid e0)).
  { apply admitted_ok; [exact (so_pool _ Hst)| |exact Hnew|rewrite (so_capacity _ Hst); exact (ad_room _ _ _ _ _ _ A)|exact (ad_apart _ _ _ _ _ _ A)].
    constructor; [exact (ty_pages _ _ T)|exact (se_valid _ _ _ _ _ _ S)|reflexivity|reflexivity]. }
  constructor.
  - exact (proj1 (set_bytes_ok _ _ _ txid bytes Hpool)).
  - cbn [admitted_state refresh_fee_floor ms_pool]. rewrite set_bytes_capacity. exact (so_capacity _ Hst).
  - apply floor_ok_pressure, floor_ok_record, (so_floor _ Hst).
  - exact Hv.
  - exact (Hsets slots_in _ (so_inputs _ Hst)).
  - exact (Hsets slots_out _ (so_outputs _ Hst)).
  - intros h e He. rewrite Ee in He. apply lookup_insert_Some in He as [[_ <-]|[_ He]]; [|exact (so_settled _ Hst _ _ He)].
    exists intent, opening, height. cbn [stored en_intent_bytes en_spend en_admitted_height]. split; [exact T|]. split; [exact S|]. split; [reflexivity|]. split; [exact Hau|].
    split; [unfold in_range; lia|]. split; [exact (proj2 (pa_anchor _ _ _ _ _ _ P))|]. intros o Ho. symmetry. exact (proj2 (ad_call _ _ _ _ _ _ A o Ho)).
  - intros h e He. rewrite Ee in He. apply lookup_insert_Some in He as [[_ <-]|[_ He]]; [|exact (so_ready _ Hst _ _ He)].
    exact (stored_kept st intent bytes spend opening height Hst T S A).
  - intros Hmax. pose proof (ad_bytes _ _ _ _ _ _ A) as Hb. pose proof (total_nonneg (ms_pool st)).
    rewrite (total_insert (ms_pool st) _ txid _ Ee Hnew). cbn [stored en_intent_bytes]. unfold saturating_add in Hb. lia.
Qed.

Lemma new_state_ok (view : View) : 0 <= vw_tip_height view -> state_ok (AsyncMempool_new view config).
Proof.
  intros Hv. constructor; cbn [AsyncMempool_new refresh_fee_floor ms_pool ms_view ms_floor ms_admitted_input_slots ms_admitted_output_slots].
  - apply new_ok. apply Hconfig.
  - reflexivity.
  - apply floor_ok_pressure, floor_ok_new.
  - exact Hv.
  - intros s. split; [now intros ?%not_elem_of_empty|intros (h & e & [=] & _)].
  - intros s. split; [now intros ?%not_elem_of_empty|intros (h & e & [=] & _)].
  - intros h e [=].
  - intros h e [=].
  - intros Hmax. unfold total_intent_bytes. cbn. rewrite map_to_list_empty. cbn. lia.
Qed.

Lemma reorg_fold l : forall m r, let s := foldl (fun s hash => if contains s.1 hash then ((remove s.1 hash).2, true) else s) (m, r) l in
  s.1 = remove_all m l /\ (s.2 = false -> s.1 = m /\ r = false).
Proof.
  induction l as [|h l IH]; intros m r; cbn zeta; [now split|]. cbn [foldl fst]. unfold remove_all. cbn [foldl]. fold (remove_all (remove m h).2 l). unfold contains.
  destruct (entries m !! h) as [e|] eqn:E.
  - rewrite bool_decide_eq_true_2 by eauto. destruct (IH (remove m h).2 true) as [I1 I2]. split; [exact I1|]. intros F. now destruct (I2 F).
  - rewrite bool_decide_eq_false_2 by now intros [? ?]. assert (Er : remove m h = (None, m)) by (unfold remove; now rewrite E). rewrite Er. apply IH.
Qed.

Lemma reorg_ok (st : State) hashes : state_ok st -> state_ok (readmit_after_reorg st config hashes)
  /\ forall h e, entries (ms_pool (readmit_after_reorg st config hashes)) !! h = Some e <-> entries (ms_pool st) !! h = Some e /\ h ∉ hashes.
Proof.
  intros Hst. destruct hashes as [|h0 hs]; [split; [exact Hst|set_solver]|]. unfold readmit_after_reorg. set (hashes := h0 :: hs).
  destruct (reorg_fold hashes (ms_pool st) false) as [F1 F2]. destruct (remove_all_ok _ _ hashes _ (so_pool _ Hst)) as (P & C & E).
  destruct (foldl _ (ms_pool st, false) hashes) as [pool removed]. cbn [fst snd] in F1, F2. subst pool.
  set (m := remove_all (ms_pool st) hashes) in *. destruct removed.
  - set (st1 := mkPoolState m (ms_view st) (ms_floor st) (ms_admitted_input_slots st) (ms_admitted_output_slots st)). split; [|exact E].
    apply (rebuilt_ok st1); cbn [st1 ms_pool ms_view ms_floor]; [exact P|now rewrite C, (so_capacity _ Hst)|exact (so_floor _ Hst)|exact (so_view _ Hst)| |].
    + intros h e He. apply E in He as [He _]. split; [exact (so_settled _ Hst _ _ He)|exact (so_ready _ Hst _ _ He)].
    + intros Hmax. etransitivity; [|exact (so_bytes _ Hst Hmax)]. apply total_subset, map_subseteq_spec. intros h e He. now apply E in He.
  - destruct (F2 eq_refl) as [Em _]. rewrite Em in *. assert (Est : mkPoolState (ms_pool st) (ms_view st) (ms_floor st) (ms_admitted_input_slots st) (ms_admitted_output_slots st) = st) by now destruct st.
    rewrite Est. destruct (len (ms_pool st) =? 0); (split; [|exact E]); [|exact Hst]. destruct Hst. constructor; try assumption. now apply floor_ok_pressure.
Qed.

(** ** Interleavings *)

(** A submission whose authorization was verified, before its final section. *)
Record Flight := mkFlight { fl_intent : PagedSpendIntent; fl_bytes : list Z; fl_spend : PagedSpendFacts; fl_opening : option ObjectOpening; fl_height : Z }.

(** The states the operations reach: submissions in flight, blocks and
    reorganisations come in any order.  The flag says that no view on the way had
    a smaller slot domain than the one before. *)
Inductive reaches : bool -> State -> list Flight -> Prop :=
| sys_new (view : View) : 0 <= vw_tip_height view -> reaches true (AsyncMempool_new view config) []
| sys_start steady st flights intent bytes opening spend height : reaches steady st flights -> typed intent opening ->
    check_envelope hash_tx8x2_leaves sponge_pairs intent bytes opening = Ok spend ->
    prefilter hash_tx8x2_leaves sponge_pairs digest st config intent bytes spend opening = Return height ->
    authorize intent opening height = Return tt -> reaches steady st (mkFlight intent bytes spend opening height :: flights)
| sys_drop steady st before f after : reaches steady st (before ++ f :: after) -> reaches steady st (before ++ after)
| sys_finish steady st before f after r : reaches steady st (before ++ f :: after) ->
    finish hash_tx8x2_leaves sponge_pairs digest st config (fl_intent f) (fl_bytes f) (fl_spend f) (fl_opening f) (fl_height f) = Return r -> reaches steady r.2 (before ++ after)
| sys_block steady st flights confirmed (view : View) st' : reaches steady st flights -> 0 <= vw_tip_height view ->
    on_new_block hash_tx8x2_leaves sponge_pairs digest st config confirmed view = Return st' -> reaches (steady && (vw_num_slots (ms_view st) <=? vw_num_slots view)) st' flights
| sys_reorg steady st flights hashes : reaches steady st flights -> reaches steady (readmit_after_reorg st config hashes) flights.

Definition flight_ok (f : Flight) : Prop := typed (fl_intent f) (fl_opening f) /\ sealed (fl_intent f) (fl_bytes f) (fl_opening f) (fl_spend f)
  /\ authorize (fl_intent f) (fl_opening f) (fl_height f) = Return tt.

Lemma reaches_ok steady st flights : reaches steady st flights -> state_ok st /\ Forall flight_ok flights.
Proof.
  induction 1 as [view Hv|? st flights intent bytes opening spend height _ [IH1 IH2] T E _ Hau|? st before f after _ [IH1 IH2]|? st before f after r _ [IH1 IH2] E
    |? st flights confirmed view st' _ [IH1 IH2] Hv E|? st flights hashes _ [IH1 IH2]].
  - split; [now apply new_state_ok|constructor].
  - split; [exact IH1|]. constructor; [|exact IH2]. split; [exact T|]. split; [now apply envelope_iff|exact Hau].
  - split; [exact IH1|]. apply Forall_app in IH2 as [F1 F2]. apply Forall_cons_1 in F2 as [_ F2]. now apply Forall_app.
  - apply Forall_app in IH2 as [F1 F2]. apply Forall_cons_1 in F2 as [(T & S & Hau) F2]. split; [|now apply Forall_app].
    pose proof (finish_cases st _ _ _ _ (fl_height f) IH1 T S) as Hf. rewrite E in Hf. destruct Hf as [A ->]. cbn [snd].
    exact (admitted_state_ok st _ _ _ _ _ IH1 T S Hau A).
  - destruct (block_cases st confirmed view IH1 Hv) as (st1 & E1 & Hst1 & _). assert (st1 = st') as -> by congruence. auto.
  - split; [now apply reorg_ok|exact IH2].
Qed.

Lemma admitted_view (st : State) intent bytes spend : ms_view (admitted_state st intent bytes spend) = ms_view st.
Proof. reflexivity. Qed.

Lemma reorg_view (st : State) hashes : ms_view (readmit_after_reorg st config hashes) = ms_view st.
Proof.
  destruct hashes as [|h hs]; [reflexivity|]. unfold readmit_after_reorg. destruct (foldl _ _ _) as [pool []]; [reflexivity|].
  now destruct (len pool =? 0).
Qed.

Lemma in_domain_grows (view view' : View) pages : vw_num_slots view <= vw_num_slots view' -> in_domain view pages -> in_domain view' pages.
Proof. intros Hle H s Hs. specialize (H s Hs). lia. Qed.

(** While no view shrinks the domain, the slots of all entries lie in it. *)
Lemma reaches_domain steady st flights : reaches steady st flights -> steady = true ->
  forall h e, entries (ms_pool st) !! h = Some e -> in_domain (ms_view st) (en_pages e).
Proof.
  induction 1 as [view Hv|? st flights intent bytes opening spend height _ IH T E _ Hau|? st before f after _ IH|? st before f after r Hr IH E
    |steady st flights confirmed view st' Hr IH Hv E|? st flights hashes Hr IH]; intros Hsteady h e He; try (now apply (IH Hsteady h e)).
  - discriminate He.
  - destruct (reaches_ok _ _ _ Hr) as [Hst Hfl]. apply Forall_app in Hfl as [_ Hfl]. apply Forall_cons_1 in Hfl as [(T & S & _) _].
    pose proof (finish_cases st _ _ _ _ (fl_height f) Hst T S) as Hf. rewrite E in Hf. destruct Hf as [A ->]. cbn [snd] in *.
    rewrite (admitted_entries st _ _ _ _ T S) in He. rewrite admitted_view.
    apply lookup_insert_Some in He as [[_ <-]|[_ He]]; [exact (pa_domain _ _ _ _ _ _ (ad_passes _ _ _ _ _ _ A))|now apply (IH Hsteady h e)].
  - apply andb_true_iff in Hsteady as [Hsteady Hle%Z.leb_le]. destruct (reaches_ok _ _ _ Hr) as [Hst _].
    destruct (block_cases st confirmed view Hst Hv) as (st1 & E1 & _ & Ev & Hkeep). assert (st1 = st') as -> by congruence.
    apply Hkeep in He as (He & _). rewrite Ev. exact (in_domain_grows _ _ _ Hle (IH Hsteady h e He)).
  - destruct (reaches_ok _ _ _ Hr) as [Hst _]. apply (proj2 (reorg_ok st hashes Hst)) in He as [He _]. rewrite reorg_view. now apply (IH Hsteady h e).
Qed.

(** The authorization an entry carries was verified for its pages and, for a
    call, for the key that the candidate height demands. *)
Definition authorized (view : View) (e : MempoolEntry) : Prop := exists auth, cached_authorization e = Some auth
  /\ match contract_opening e with
     | None => verify_intent_authorization (en_pages e) auth = true
         /\ Forall (fun page => Z.land (validity_bitmap page) PAGED_SPEND_V2_CONTRACT_MASK = 0) (en_pages e)
     | Some o => exists page height, en_pages e = [page] /\ verify_object_authorization page o height auth = true
         /\ authority_at o height = authority_at o (vw_tip_height view + 1)
     end.

Lemma settled_authorized view e : settled e -> kept view e -> authorized view e.
Proof.
  intros (intent & opening & height & T & S & E & Hau & _ & _ & Hk) Hin. exists (authorization_bytes intent).
  assert (Eo : contract_opening e = opening) by (rewrite E; now apply (stored_opening hash_tx8x2_leaves sponge_pairs)).
  assert (Ep : en_pages e = intent_pages intent) by now rewrite E.
  split; [rewrite E; now apply (stored_authorization hash_tx8x2_leaves sponge_pairs _ _ opening)|]. rewrite Eo, Ep. unfold AsyncMempool.authorize in Hau. destruct opening as [o|].
  - destruct (in_call _ _ Hin o Eo) as [(_ & page & t & Epg & _) Ht]. rewrite Ep in Epg. rewrite Epg in Hau |- *. cbn [head expect mbind exec_bind] in Hau.
    exists page, height. split; [reflexivity|]. split; [|now rewrite (Hk o eq_refl), Ht]. destruct (verify_object_authorization _ _ _ _); [reflexivity|discriminate].
  - split; [|exact (se_plain _ _ _ _ _ _ S eq_refl)]. destruct (verify_intent_authorization _ _); [reflexivity|discriminate].
Qed.

(** The first locked section finds everything but the capacity of the pool. *)
Lemma prefilter_cases (st : State) intent bytes spend opening : state_ok st -> typed intent opening ->
  match prefilter hash_tx8x2_leaves sponge_pairs digest st config intent bytes spend opening with
  | Return height => height = vw_tip_height (ms_view st) + 1 /\ entries (ms_pool st) !! ps_logical_txid spend = None
      /\ saturating_add 64 (total_intent_bytes (ms_pool st)) (Z.of_nat (length bytes)) <= cfg_max_total_intent_bytes config
      /\ passes hash_tx8x2_leaves sponge_pairs config st (intent_pages intent) spend
      /\ forall o, opening = Some o -> accepted o (intent_pages intent) height
  | Fail _ => forall height, ~ admissible st intent bytes spend opening height
  | Panic => False
  end.
Proof.
  intros Hst T. unfold prefilter. pose proof (room_iff st bytes (ps_logical_txid spend)) as Hroom.
  destruct (check_room _ _ _ _) as [n|e]; cbn [lift mbind exec_bind].
  2: { intros h A. discriminate (proj2 (Hroom _) (conj (ad_new _ _ _ _ _ _ A) (conj eq_refl (ad_bytes _ _ _ _ _ _ A)))). }
  destruct (proj1 (Hroom n) eq_refl) as (Hnew & -> & Hbytes). clear Hroom.
  pose proof (admission_checks_cases hash_tx8x2_leaves sponge_pairs config st (intent_pages intent) spend Hconfig) as Hc.
  destruct (run_admission_checks _ _ _ _ _ _) as [a|e|]; cbn [mbind exec_bind]; [|intros h A; exact (Hc (ad_passes _ _ _ _ _ _ A))|exact Hc].
  pose proof (pa_tip _ _ _ _ _ _ Hc) as Htip. pose proof (so_view _ Hst) as Hv. unfold checked_add. rewrite (proj2 (Z.ltb_lt _ _) Htip). cbn [ok_or lift mbind exec_bind].
  destruct opening as [o|]; [|cbn [mbind exec_bind mret exec_ret]; split; [reflexivity|]; split; [exact Hnew|]; split; [exact Hbytes|]; split; [exact Hc|discriminate]].
  pose proof (candidate_call_cases hash_tx8x2_leaves sponge_pairs digest o (intent_pages intent) (vw_tip_height (ms_view st) + 1) (ty_opening _ _ T o eq_refl) (ty_pages _ _ T)
    ltac:(unfold in_range; lia)) as H.
  destruct (check_candidate_call _ _ _ _ _ _) as [t|e|]; cbn [mbind exec_bind mret exec_ret]; [|intros h A; exact (H (proj1 (ad_call _ _ _ _ _ _ A o eq_refl)))|exact H].
  destruct H as [Hacc _]. split; [reflexivity|]. split; [exact Hnew|]. split; [exact Hbytes|]. split; [exact Hc|]. now intros o' [= <-].
Qed.
End System.

(** ** Properties *)

(** C7. What the pool holds is ready for the next block.  However submissions in
    flight, blocks, view changes and reorganisations interleave, every entry of
    the pool fits the chain view it is held against: its anchor is the one of the
    next block, its fee meets the consensus minimum there, some active proof class
    has room for it, its inputs hold exactly what they claim and its outputs read
    as empty, and a contract call is accepted at the candidate height.  If no view
    on the way shrank the slot domain, its slots also lie in the domain: the next
    block can include it.  After a view that shrank the domain this holds of the
    entries whose slots lie in it.  Its retained
    bytes carry an authorization that was verified for its very pages and, for a
    call, for the key that the candidate height demands.  The reserved slots are
    those of the entries, and the entry and byte caps hold. *)
Theorem pool_entries_ready {D} hash sponge digest verify_spend verify_object (config : MempoolConfig) steady (st : MempoolState (D := D)) flights :
  config_ok config -> reaches hash sponge digest verify_spend verify_object config steady st flights ->
  (forall txid e, entries (ms_pool st) !! txid = Some e ->
     kept hash sponge digest config (ms_view st) e
     /\ (steady = true \/ in_domain (ms_view st) (en_pages e) -> includable hash sponge digest config (ms_view st) e)
     /\ authorized verify_spend verify_object (ms_view st) e /\ entry_ok hash sponge txid e)
  /\ (forall s, s ∈ ms_admitted_input_slots st <-> exists txid e, entries (ms_pool st) !! txid = Some e /\ s ∈ slots_in (en_pages e))
  /\ (forall s, s ∈ ms_admitted_output_slots st <-> exists txid e, entries (ms_pool st) !! txid = Some e /\ s ∈ slots_out (en_pages e))
  /\ len (ms_pool st) <= cfg_capacity config
  /\ (0 <= cfg_max_total_intent_bytes config < umax 64 -> total_intent_bytes (ms_pool st) <= cfg_max_total_intent_bytes config)
  /\ MIN_FEE_BASE <= floor_current (ms_floor st).
Proof.
  intros Hc Hr. destruct (reaches_ok _ _ _ _ _ _ Hc _ _ _ Hr) as [Hst _]. split; [|split; [exact (so_inputs _ _ _ _ _ _ _ Hst)|split; [exact (so_outputs _ _ _ _ _ _ _ Hst)|split]]].
  - intros txid e He. pose proof (so_ready _ _ _ _ _ _ _ Hst _ _ He) as Hin. pose proof (so_settled _ _ _ _ _ _ _ Hst _ _ He) as Hs. split; [exact Hin|].
    split; [intros [Hst'|Hd]; (split; [exact Hin|]); [exact (reaches_domain _ _ _ _ _ _ Hc _ _ _ Hr Hst' _ _ He)|exact Hd]|].
    split; [exact (settled_authorized _ _ _ _ _ _ _ _ Hs Hin)|exact (po_entry _ _ _ (so_pool _ _ _ _ _ _ _ Hst) _ _ He)].
  - rewrite <- (so_capacity _ _ _ _ _ _ _ Hst). exact (po_capacity _ _ _ (so_pool _ _ _ _ _ _ _ Hst)).
  - split; [exact (so_bytes _ _ _ _ _ _ _ Hst)|exact (floor_min _ (so_floor _ _ _ _ _ _ _ Hst))].
Qed.

(** A view of eight slots whose slot 2 holds a coin, and an intent that spends it. *)
Definition example_config : MempoolConfig := mkConfig 4 100000 8 None.
Definition example_page : TxPage :=
  mkTxBody (replicate 32 7) 20000 (replicate 32 9) (mkTxInput 2 30000 1 :: replicate 7 TxInput_dummy)
    [mkTxOutput 5 10000 (replicate 32 8); TxOutput_dummy] (1 + 256 + 1024 + 2048) false.
Definition example_state : SegmentedFriState (D := unit) :=
  let columns := write_column (new_zero 8) 2 (expected_slot (replicate 32 9) (mkTxInput 2 30000 1)) in
  mkState 3 3 1 [Some columns] [1] (mkRaw [None] [] true ∅ ∅) ∅ ∅ (lru_default DEFAULT_CACHE_BYTES) ∅.
Definition example_view (tip : Z) : ChainView (D := unit) := mkView tip 8 1 (replicate 32 7) (replicate 32 6) example_state None.
Definition example_intent : PagedSpendIntent := mkPagedSpendIntent [example_page] [1; 2; 3].
Definition example_new : MempoolState (D := unit) := AsyncMempool_new (example_view 10) example_config.

Definition example_spend : PagedSpendFacts := mkPagedSpendFacts [] (replicate 32 9) (replicate 32 7) 20000 1 1 30000 10000.
Definition example_flight : Flight := mkFlight example_intent (intent_bytes example_intent) example_spend None 11.

Lemma example_config_ok : config_ok example_config.
Proof. split; [cbn; lia|intros budgets [=]]. Qed.

Abbreviation example_reaches := (reaches (fun _ => []) (fun _ _ => []) (fun _ _ => []) (fun _ _ => true) (fun _ _ _ _ => true) example_config).

Lemma example_typed : typed example_intent None.
Proof.
  constructor; [|repeat constructor; unfold byte_ok; lia|discriminate].
  repeat constructor; unfold in_range, byte_ok; cbn; try lia; repeat constructor; cbn; lia.
Qed.

Lemma example_sealed : sealed (fun _ => []) (fun _ _ => []) example_intent (intent_bytes example_intent) None example_spend.
Proof.
  assert (L : length (intent_bytes example_intent) = 333%nat) by (rewrite intent_bytes_split, length_app, length_intent_prefix by exact (ty_pages _ _ example_typed); reflexivity).
  constructor; [vm_compute; reflexivity|reflexivity|discriminate|intros _; repeat constructor|split; [reflexivity|unfold MAX_AUTHORIZATION_BYTES, MAX_TX_AUTHORIZATION_BYTES; cbn; lia]|].
  rewrite L. now apply Z.leb_le.
Qed.

Lemma example_admissible : admissible (fun _ => []) (fun _ _ => []) (fun _ _ => []) example_config example_new example_intent (intent_bytes example_intent) example_spend None 11.
Proof.
  assert (L : length (intent_bytes example_intent) = 333%nat) by (rewrite intent_bytes_split, length_app, length_intent_prefix by exact (ty_pages _ _ example_typed); reflexivity).
  assert (Hi : live_inputs example_page = [(0%nat, mkTxInput 2 30000 1)]) by reflexivity.
  assert (Ho : live_outputs example_page = [(0%nat, mkTxOutput 5 10000 (replicate 32 8))]) by reflexivity.
  constructor; [reflexivity|reflexivity|rewrite L; now apply Z.leb_le| |intros s _ h e [=]|discriminate].
  constructor; [reflexivity|discriminate|now apply Z.leb_le|now apply Z.leb_le|exists example_spend; exact (se_valid _ _ _ _ _ _ example_sealed)|now split|split; intros s _; apply not_elem_of_empty| | |].
  - intros page p ->%list_elem_of_singleton. rewrite Hi. intros ->%list_elem_of_singleton. reflexivity.
  - intros page p ->%list_elem_of_singleton. rewrite Ho. intros ->%list_elem_of_singleton. reflexivity.
  - intros s. change (s ∈ [2; 5] -> s < 8). rewrite !elem_of_cons, elem_of_nil. lia.
Qed.

Lemma example_flies : example_reaches true example_new [example_flight].
Proof.
  pose proof example_typed as T. assert (Hn : example_reaches true example_new []) by (apply sys_new; cbn; lia).
  destruct (reaches_ok _ _ _ _ _ _ example_config_ok _ _ _ Hn) as [Hst _].
  pose proof (prefilter_cases _ _ _ _ _ _ example_config_ok example_new example_intent (intent_bytes example_intent) example_spend None Hst T) as H.
  destruct (prefilter _ _ _ _ _ _ _ _ _) as [height|e|] eqn:E; [|destruct (H 11 example_admissible)|destruct H]. destruct H as [-> _].
  apply sys_start; [exact Hn|exact T|now apply envelope_iff, example_sealed|exact E|reflexivity].
Qed.

(** The state that holds the spend. *)
Lemma example_admitted : exists st : MempoolState (D := unit), example_reaches true st [] /\ ms_view st = example_view 10
  /\ entries (ms_pool st) !! [] = Some (stored example_intent (intent_bytes example_intent) example_spend 10).
Proof.
  pose proof example_typed as T. pose proof example_flies as Hf. destruct (reaches_ok _ _ _ _ _ _ example_config_ok _ _ _ Hf) as [Hst _].
  pose proof (finish_cases _ _ _ _ _ _ example_config_ok example_new _ _ _ _ 11 Hst T example_sealed) as H.
  destruct (finish _ _ _ _ _ _ _ _ _ _) as [r|e|] eqn:E; [|destruct (H example_admissible)|destruct H]. destruct H as [_ ->].
  exists (admitted_state example_config example_new example_intent (intent_bytes example_intent) example_spend).
  split; [exact (sys_finish _ _ _ _ _ _ _ example_new [] example_flight [] _ Hf E)|]. split; [reflexivity|].
  rewrite (admitted_entries _ _ _ _ _ _ _ _ T example_sealed). cbn [example_spend ps_logical_txid]. apply lookup_insert_eq.
Qed.

Lemma pool_entries_ready_witness : exists (st : MempoolState (D := unit)) e, entries (ms_pool st) !! [] = Some e
  /\ includable (fun _ => []) (fun _ _ => []) (fun _ _ => []) example_config (ms_view st) e /\ authorized (fun _ _ => true) (fun _ _ _ _ => true) (ms_view st) e.
Proof.
  destruct example_admitted as (st & Hr & _ & He). eexists st, _. split; [exact He|].
  destruct (pool_entries_ready (D := unit) (fun _ => []) (fun _ _ => []) (fun _ _ => []) (fun _ _ => true) (fun _ _ _ _ => true) example_config true st [] example_config_ok Hr) as [H _].
  destruct (H _ _ He) as (_ & H1 & H2 & _). split; [apply H1; now left|exact H2].
Defined.

(** After a view of four slots the spend into slot 5 stays, although no block on
    that view can include it. *)
Definition example_shrunk : ChainView (D := unit) :=
  let columns := write_column (new_zero 4) 2 (expected_slot (replicate 32 9) (mkTxInput 2 30000 1)) in
  mkView 11 4 1 (replicate 32 7) (replicate 32 6)
    (mkState 2 2 1 [Some columns] [1] (mkRaw [None] [] true ∅ ∅) ∅ ∅ (lru_default DEFAULT_CACHE_BYTES) ∅) None.

Lemma shrunk_view_keeps : exists (st st' : MempoolState (D := unit)) e, example_reaches true st [] /\ example_reaches false st' []
  /\ on_new_block (fun _ => []) (fun _ _ => []) (fun _ _ => []) st example_config [] example_shrunk = Return st'
  /\ entries (ms_pool st') !! [] = Some e /\ ~ includable (fun _ => []) (fun _ _ => []) (fun _ _ => []) example_config example_shrunk e.
Proof.
  destruct example_admitted as (st & Hr & Ev & He). destruct (reaches_ok _ _ _ _ _ _ example_config_ok _ _ _ Hr) as [Hst _].
  destruct (block_cases _ _ _ _ _ _ example_config_ok st [] example_shrunk Hst ltac:(cbn; lia)) as (st' & E & _ & _ & Hk).
  exists st, st'. eexists. split; [exact Hr|]. split.
  { assert (Hs : example_reaches (true && (vw_num_slots (ms_view st) <=? vw_num_slots example_shrunk)) st' [])
      by (eapply sys_block; [exact Hr|cbn; lia|exact E]). now rewrite Ev in Hs. }
  split; [exact E|]. split.
  - apply Hk. split; [exact He|]. split; [apply not_elem_of_nil|]. pose proof example_typed as T.
    assert (Hi : live_inputs example_page = [(0%nat, mkTxInput 2 30000 1)]) by reflexivity.
    assert (Ho : live_outputs example_page = [(0%nat, mkTxOutput 5 10000 (replicate 32 8))]) by reflexivity.
    constructor; [reflexivity|reflexivity|discriminate|now apply Z.leb_le| | |].
    + intros page p ->%list_elem_of_singleton. rewrite Hi. intros ->%list_elem_of_singleton. reflexivity.
    + intros page p ->%list_elem_of_singleton. rewrite Ho. intros ->%list_elem_of_singleton. reflexivity.
    + rewrite (stored_opening (fun _ => []) (fun _ _ => []) _ _ None _ _ T example_sealed). discriminate.
  - intros [_ Hd]. specialize (Hd 5). change (5 ∈ [2; 5] -> 5 < 4) in Hd. specialize (Hd ltac:(set_solver)). lia.
Qed.

(** C8. The operations of the pool do all they can and nothing else.  In any
    reachable state, an intent gets past the checks before the lock exactly when
    its bytes are those of its envelope and its spend is valid.  The first locked
    section turns it away only when no authorization could make it admissible, and
    otherwise names the next height.  The final section admits a submission in
    flight exactly when it is admissible then: unknown, within the caps, anchored
    and paid for the next block, on slots no entry holds and that the state backs,
    and, for a call, still accepted and owed to the key that was verified; it adds
    that entry and nothing else.  A block always succeeds and keeps exactly the
    unconfirmed entries that pass the checks of the new view; while no view
    shrinks the slot domain these are exactly the unconfirmed entries that the
    next block can include.  A reorganisation removes exactly the given spends.
    None of them panics. *)
Theorem pool_operations_exact {D} hash sponge digest verify_spend verify_object (config : MempoolConfig) steady (st : MempoolState (D := D)) flights :
  config_ok config -> reaches hash sponge digest verify_spend verify_object config steady st flights ->
  (forall intent bytes opening spend, typed intent opening ->
     (check_envelope hash sponge intent bytes opening = Ok spend <-> sealed hash sponge intent bytes opening spend)
     /\ match prefilter hash sponge digest st config intent bytes spend opening with
        | Return height => height = vw_tip_height (ms_view st) + 1
        | Fail _ => forall height, ~ admissible hash sponge digest config st intent bytes spend opening height
        | Panic => False
        end)
  /\ (forall f, f ∈ flights ->
     match finish hash sponge digest st config (fl_intent f) (fl_bytes f) (fl_spend f) (fl_opening f) (fl_height f) with
     | Return (txid, st') => admissible hash sponge digest config st (fl_intent f) (fl_bytes f) (fl_spend f) (fl_opening f) (fl_height f)
         /\ txid = ps_logical_txid (fl_spend f) /\ ms_view st' = ms_view st
         /\ entries (ms_pool st') = <[txid := stored (fl_intent f) (fl_bytes f) (fl_spend f) (vw_tip_height (ms_view st))]> (entries (ms_pool st))
     | Fail _ => ~ admissible hash sponge digest config st (fl_intent f) (fl_bytes f) (fl_spend f) (fl_opening f) (fl_height f)
     | Panic => False
     end)
  /\ (forall confirmed (view : ChainView (D := D)), 0 <= vw_tip_height view -> exists st', on_new_block hash sponge digest st config confirmed view = Return st' /\ ms_view st' = view
     /\ (forall txid e, entries (ms_pool st') !! txid = Some e
          <-> entries (ms_pool st) !! txid = Some e /\ txid ∉ confirmed /\ kept hash sponge digest config view e)
     /\ (steady = true -> vw_num_slots (ms_view st) <= vw_num_slots view -> forall txid e, entries (ms_pool st') !! txid = Some e
          <-> entries (ms_pool st) !! txid = Some e /\ txid ∉ confirmed /\ includable hash sponge digest config view e))
  /\ (forall hashes txid e, entries (ms_pool (readmit_after_reorg st config hashes)) !! txid = Some e <-> entries (ms_pool st) !! txid = Some e /\ txid ∉ hashes).
Proof.
  intros Hc Hr. destruct (reaches_ok _ _ _ _ _ _ Hc _ _ _ Hr) as [Hst Hfl]. split; [|split; [|split]].
  - intros intent bytes opening spend T. split; [now apply envelope_iff|].
    pose proof (prefilter_cases _ _ _ _ _ _ Hc st intent bytes spend opening Hst T) as H. destruct (prefilter _ _ _ _ _ _ _ _ _); [apply H|exact H|exact H].
  - intros f Hf. destruct (proj1 (Forall_forall _ _) Hfl f Hf) as (T & S & _).
    pose proof (finish_cases _ _ _ _ _ _ Hc st _ _ _ _ (fl_height f) Hst T S) as H. destruct (finish _ _ _ _ _ _ _ _ _ _) as [[txid st']|e|]; [|exact H|exact H].
    destruct H as [A [= -> ->]]. split; [exact A|]. split; [reflexivity|]. split; [reflexivity|]. exact (admitted_entries _ _ _ st _ _ _ _ T S).
  - intros confirmed view Hv. destruct (block_cases _ _ _ _ _ _ Hc st confirmed view Hst Hv) as (st' & E & _ & Ev & H). exists st'.
    split; [exact E|]. split; [exact Ev|]. split; [exact H|]. intros Hsteady Hle txid e. rewrite H. unfold includable. split; [|tauto]. intros (He & Hn & Hk).
    repeat (split; [assumption|]). exact (in_domain_grows _ _ _ Hle (reaches_domain _ _ _ _ _ _ Hc _ _ _ Hr Hsteady _ _ He)).
  - intros hashes. exact (proj2 (reorg_ok _ _ _ _ _ _ Hc st hashes Hst)).
Qed.

Lemma pool_operations_witness : exists st' : MempoolState (D := unit),
  on_new_block (fun _ => []) (fun _ _ => []) (fun _ _ => []) example_new example_config [] (example_view 11) = Return st'
  /\ (forall txid e, entries (ms_pool st') !! txid = Some e <-> entries (ms_pool example_new) !! txid = Some e /\ txid ∉ [] /\ includable (fun _ => []) (fun _ _ => []) (fun _ _ => []) example_config (example_view 11) e)
  /\ exists txid st1, finish (fun _ => []) (fun _ _ => []) (fun _ _ => []) example_new example_config example_intent (intent_bytes example_intent) example_spend None 11 = Return (txid, st1)
  /\ entries (ms_pool st1) = <[txid := stored example_intent (intent_bytes example_intent) example_spend 10]> (entries (ms_pool example_new)).
Proof.
  destruct (pool_operations_exact (D := unit) (fun _ => []) (fun _ _ => []) (fun _ _ => []) (fun _ _ => true) (fun _ _ _ _ => true) example_config true example_new [example_flight]
    example_config_ok example_flies) as (_ & Hf & Hb & _).
  destruct (Hb [] (example_view 11) ltac:(cbn; lia)) as (st' & E & _ & _ & H). exists st'. split; [exact E|]. split; [apply H; [reflexivity|cbn; lia]|].
  specialize (Hf example_flight ltac:(left)). cbn [example_flight fl_intent fl_bytes fl_spend fl_opening fl_height] in Hf.
  destruct (finish _ _ _ _ _ _ _ _ _ _) as [[txid st1]|e|]; [|destruct (Hf example_admissible)|destruct Hf]. exists txid, st1. split; [reflexivity|]. apply Hf.
Defined.
